(* ===== verification/_CoqProject ===== *)
-Q . S2P
Prelude.v
FreeList.v
Status.v
Errno.v
Path.v
CordIo.v
Posix.v
File.v
Filesystem.v
Address.v
SelectorLoop.v
Selectable.v
Selector.v
Timeouter.v
Queue.v
LockFreeQueue.v
LightweightSemaphore.v
MoodyDetails.v
MoodyBlock.v
ExplicitProducer.v
ExplicitProducerSpec.v
ExplicitProducerQueue.v
ExplicitLinear.v
ExplicitBulk.v
ExplicitBulkSpec.v
MoodyFreeList.v
MoodyFreeListSpec.v
MoodyProducers.v
MoodyProducersSpec.v
MoodyQueue.v
MoodyQueueSpec.v
MoodyHash.v
MoodyHashSpec.v
ImplicitProducer.v
ImplicitProducerSpec.v
ImplicitProducerQueue.v
ImplicitQueue.v
BlockingQueue.v
BlockingQueueSpec.v
BlockingExplicit.v
Thread.v
Dns.v
Socket.v
Connection.v
SimNet.v
ConnectionSpec.v
Server.v
ServerSpec.v
Acceptor.v
AcceptorSpec.v
SslUtils.v
SslConnection.v
SimSsl.v
SslSpec.v
SslAcceptor.v
SslAcceptorSpec.v
