(* ===== verification/Prelude.v ===== *)
(** * whisperlib2 - a verification library

    A Rocq model of the C++ library under [src/whisperlib], with the theorems
    that make it correct.

    ** The program

    whisperlib is a library of an application that serves network connections.
    - [base] and [status] have free lists, clean-ups on return and error
      statuses; [io] has system errors, paths, cords, files and directories.
    - A [Selector] runs in one thread.  It waits for events on descriptors
      through a [SelectorLoop] (poll or epoll), calls the [Selectable]
      registered for each, runs the callbacks that any thread has queued
      ([RunInSelectLoop]) and the alarms that are due.  A [Timeouter] keeps its
      timeouts as alarms of a selector.
    - A [TcpConnection] is a [Selectable]: the events of its descriptor move
      bytes between the kernel and two cords, and call the functions of the
      application.  It finds addresses through a [DnsResolver], whose threads
      take requests from a [ProducerConsumerQueue].  A [TcpAcceptor] accepts
      connections and hands them to the selectors of other threads.
    - An [SslConnection] owns a TCP connection, is its application, and puts
      OpenSSL in between; an [SslAcceptor] is the application of a TCP
      acceptor.
    - [sync] has threads, the blocking and the lock-free queue, and semaphores.

    ** Conventions

    A function that may stop the process (a failed [CHECK], a null pointer, an
    exception) is a program of the monad [M] below; a loop that might not end
    has a bound, and its theorems say how large a bound is enough.  Machine
    integers are [Z] with their wrapping written out ([u64], [i64], [i32]);
    strings, buffers and chunks are lists of characters; pointers are numbers,
    0 for null, and the objects they point to are in maps of the state.  Code
    that is not in the repository - the kernel, [absl::Status], [absl::Cord],
    ICU, OpenSSL, the functions of the application - is a class, with what its
    documentation promises as a class of laws, and an instance that meets them
    (modules [RefAbsl], [RefCord], [RefInet], [SimFs], [SimNet], [SimSsl]...).

    ** The files

    - Prelude.v: strings, outcomes, the monad, lemmas and tactics.
    - FreeList.v ([base/free_list.h], [base/call_on_return.h]): the plain list
      as functions on its data, the thread-safe one as a step relation.  No
      object has two owners, all are live, the bounds and counts hold.
    - Status.v ([status/status.h], [.cc]): builders and macros.
      [UpdateOrAnnotate] implements an accumulator of errors.
    - Errno.v ([io/errno]): names, texts and statuses of system errors.
    - Path.v ([io/path]): [Normalize] ends, keeps what the path resolves to,
      and gives a normal form.
    - CordIo.v, Posix.v, File.v ([io/cord_io], [io/file]): the cached size and
      position stay those of the file, and what [ReadAsString] returns after
      [WriteFromString] is a beginning of what was written; [WriteCordVec] is
      modelled as it is, and not covered by these theorems.
    - Filesystem.v ([io/filesystem]): [DirList] lists the tree unless [opendir]
      fails, [MkDir] makes it, [Rename] loses nothing.
    - Address.v ([net/address]): addresses, their texts and their socket
      addresses, and the way back.
    - SelectorLoop.v ([net/selector_loop], [net/selector_event_data.h]): both
      loops implement one registry of descriptors, with the bits of their
      desires ([event_bits], a table apart from the code's); the epoll loop
      reports each event that the kernel returned.
    - Selectable.v ([net/selectable]): bytes are written and read in order.
    - Selector.v ([net/selector]): registration and the event loop agree;
      callbacks run in order, once, and no wakeup is lost; alarms meet their
      contract.
    - Timeouter.v ([net/timeouter]): refines a table of deadlines, on the live
      alarms of its selector: what the selector has taken runs one by one, with
      settings and cancellations in between - as long as these are not of a
      timeout that is taken and not yet run ([rearmed_too_late]).
    - Queue.v, LockFreeQueue.v, LightweightSemaphore.v, Thread.v ([sync]): no
      datum is lost or duplicated in any interleaving; a semaphore gives out
      what it has and loses no wakeup; threads have the attributes asked for.
    - MoodyDetails.v, MoodyBlock.v ([sync/moody/concurrentqueue.h]): the
      numeric helpers, the constants and the blocks of the concurrent queue.
    - ExplicitProducer.v, ExplicitProducerSpec.v, ExplicitProducerQueue.v: the
      queue of one enqueueing thread with a token and any number of dequeueing
      threads, each access to shared memory a step.  No step goes wrong, each
      element is taken once and in order, none is lost, all operations are
      wait-free.  ExplicitLinear.v: these steps refine a queue whose operations
      are single steps.
    - ExplicitBulk.v, ExplicitBulkSpec.v: bulk enqueueing while no thread
      dequeues, and how a failed one breaks the order of the queue.
    - MoodyFreeList.v, MoodyFreeListSpec.v: the lock-free list of free blocks.
      What its reference counts count; no block is given out twice or lost.
    - MoodyProducers.v, MoodyProducersSpec.v: the list of producers and the
      tokens that use them, in any interleaving.  No producer has two users,
      and none is lost.
    - MoodyQueue.v, MoodyQueueSpec.v: dequeuing from any producer, in a world
      where other threads move.  A dequeue fails only after each producer
      appeared empty; consumer tokens are where the rotation puts them.
    - MoodyHash.v, MoodyHashSpec.v: the hash table in which a thread without a
      token finds its producer, while others insert, exit and make bigger
      tables.  It always finds the same one, and no one else does.
    - ImplicitProducer.v, ImplicitProducerSpec.v, ImplicitProducerQueue.v,
      ImplicitQueue.v: the queue of a thread without a token, whose blocks
      return to a pool.  No step goes wrong, elements are taken once and in
      order, and a block is given back once, when all its elements are out.
    - BlockingQueue.v, BlockingQueueSpec.v
      ([sync/moody/blockingconcurrentqueue.h]): a concurrent queue with a
      semaphore, over a class of what the queue promises.  Who has a permit
      finds an element; no element and no wakeup is lost.  BlockingExplicit.v:
      the queue of an explicit producer keeps that promise.
    - Dns.v ([net/dns_resolve]): what a resolution finds, and how it is picked.
    - Socket.v, Connection.v, ConnectionSpec.v ([net/connection], connections;
      SimNet.v has the instances): the invariant of a connection through all
      its events, timeouts, flushing and closing; a flush sends the buffer,
      shuts the write half down and leaves a linger alarm in the selector that
      closes the connection; what becomes of [Connect].
    - Server.v, ServerSpec.v: the connections as the objects of the selector,
      a fixed set of them.  The loop runs without stopping the process, for any
      events and linger alarms, and an application that closes connections
      where it likes - but a write handler that closes its own connection
      answers with an error; close tasks queued by other threads are left out:
      in both cases the code uses a null selector ([closing_writer_stops],
      [closed_connection_stops]).  It ends with all connections closed.
    - Acceptor.v, AcceptorSpec.v ([net/connection], acceptors): listening,
      accepting, handing over, closing.
    - SslUtils.v, SslConnection.v, SslSpec.v ([net/ssl_connection]; SimSsl.v
      has the instances): the handshake, and which bytes go through.
    - SslAcceptor.v, SslAcceptorSpec.v ([net/ssl_connection], the acceptor):
      how an accepted connection becomes an SSL connection of the application.

    ** Fuel and bounds

    The bound of a loop is an argument, or an expression of the code's own
    data: [NextPow2] runs 64 times; the loops of [Normalize], [MkDir] and
    [DirList] have theorems that enough fuel exists; draining the signal
    descriptor and closing the objects of a selector are bounded by what the
    kernel holds and by the objects ([drain_fuel], [close_fuel]); the alarms
    due are at most those there are; flushing takes as many write events as
    bytes; the loops on OpenSSL take as many rounds as bytes.  Theorems on
    loops of the code that do not end say so for every bound.

    ** What is not modelled

    - Messages to the log, and the [ToString]s that only serve them.
    - Memory that is not sequentially consistent: the step relations interleave
      atomic accesses.  Locks that protect what other threads only read.
    - The kqueue loop of [net/selector_loop.h], the Windows and Mach classes of
      [sync/moody/lightweightsemaphore.h]: not for this platform.
    - Of [sync/moody/concurrentqueue.h], [enqueue_bulk] of implicit producers,
      the destructors and the block pool.  The theorems on the queue hold while
      fewer than [2^62] elements were enqueued and claimed, for elements whose
      constructors and assignments do not throw, and with flags in the blocks
      (the default).
    - [status/testing.h] and the [_test.cc] files; the build files, the
      container and [third_party], which hold no code of the library. *)

From Stdlib Require Export ZArith Lia Ascii String List.
From stdpp Require Export base tactics list list_numbers numbers option strings gmap sets relations.

#[global] Set Default Goal Selector "!".

(** ** Byte strings

    [std::string], [absl::string_view], [char*] buffers and the chunks of an
    [absl::Cord] are lists of characters.  A string literal is coerced. *)

Abbreviation str := (list ascii).

Coercion list_ascii_of_string : string >-> list.

#[global] Open Scope Z_scope.
#[global] Open Scope list_scope.

(** ** Outcomes

    A call either returns a value and the new state, or it stops the process:
    a failed [CHECK], or an exception that nothing catches. *)

Inductive outcome (S A : Type) : Type :=
| Ret (a : A) (s : S)
| Fatal (why : str).
Arguments Ret {_ _} _ _.
Arguments Fatal {_ _} _.

(** The state monad over [outcome]. *)
Definition M (S A : Type) : Type := S -> outcome S A.

Definition ret {S A} (a : A) : M S A := fun s => Ret a s.

Definition bind {S A B} (m : M S A) (k : A -> M S B) : M S B :=
  fun s => match m s with
           | Ret a s' => k a s'
           | Fatal w => Fatal w
           end.

Definition get {S} : M S S := fun s => Ret s s.
Definition put {S} (s : S) : M S unit := fun _ => Ret tt s.
Definition modify {S} (f : S -> S) : M S unit := fun s => Ret tt (f s).
Definition gets {S A} (f : S -> A) : M S A := fun s => Ret (f s) s.
Definition fatal {S A} (why : str) : M S A := fun _ => Fatal why.

(** [CHECK(cond)] of the logging library: the process stops unless [cond]. *)
Definition check {S} (cond : bool) (why : str) : M S unit :=
  fun s => if cond then Ret tt s else Fatal why.

Declare Scope whisper_scope.
Delimit Scope whisper_scope with wh.
Notation "x <- m ;; k" := (bind m (fun x => k))
  (at level 100, m at next level, right associativity) : whisper_scope.
Notation "' x <- m ;; k" := (bind m (fun y => match y with x => k end))
  (at level 20, x pattern, m at level 99, k at level 200) : whisper_scope.
Notation "m ;; k" := (bind m (fun _ => k))
  (at level 100, right associativity) : whisper_scope.
#[global] Open Scope whisper_scope.

(** What a call that returned leaves behind; [returns m s Q] says that the call
    does return, and that its value and final state satisfy [Q]. *)
Definition returns {S A} (m : M S A) (s : S) (Q : A -> S -> Prop) : Prop :=
  exists a s', m s = Ret a s' /\ Q a s'.

Section Returns.
  Context {S A B : Type}.

Lemma returns_ret (a : A) (s : S) (Q : A -> S -> Prop) :
    Q a s -> returns (ret a) s Q.
  Proof. intros HQ. by exists a, s. Qed.

Lemma returns_bind (m : M S A) (k : A -> M S B) s (P : A -> S -> Prop) Q :
    returns m s P -> (forall a s', P a s' -> returns (k a) s' Q) ->
    returns (bind m k) s Q.
  Proof.
    intros (a & s' & Hm & HP) Hk. destruct (Hk a s' HP) as (b & s'' & Hb & HQ).
    exists b, s''. unfold bind. by rewrite Hm.
  Qed.

Lemma bind_Ret (m : M S A) (k : A -> M S B) s a s' : m s = Ret a s' -> bind m k s = k a s'.
  Proof. intros E. unfold bind. by rewrite E. Qed.

Lemma bind_ret_r (m : M S A) s : bind m ret s = m s.
  Proof. unfold bind, ret. by destruct (m s). Qed.

Lemma returns_and (m : M S A) s (P Q : A -> S -> Prop) :
    returns m s P -> returns m s Q -> returns m s (fun a s' => P a s' /\ Q a s').
  Proof. intros (a & s' & E & HP) (b & s2 & E2 & HQ). exists a, s'. rewrite E in E2. by simplify_eq. Qed.

Lemma returns_mono (m : M S A) s (P Q : A -> S -> Prop) :
    returns m s P -> (forall a s', P a s' -> Q a s') -> returns m s Q.
  Proof. intros (a & s' & Hm & HP) HPQ. exists a, s'. auto. Qed.

Lemma bind_assoc {C} (m : M S A) (f : A -> M S B) (g : B -> M S C) s :
    bind (bind m f) g s = bind m (fun a => bind (f a) g) s.
  Proof. unfold bind. by destruct (m s). Qed.
End Returns.

(** ** Machine integers

    A [w]-bit unsigned integer is a [Z]; every operation that can wrap is
    written with [wrap]. *)

Definition wrap (w z : Z) : Z := z mod 2 ^ w.
Definition u8 (z : Z) : Z := wrap 8 z.
Definition u16 (z : Z) : Z := wrap 16 z.
Definition u32 (z : Z) : Z := wrap 32 z.
Definition u64 (z : Z) : Z := wrap 64 z.
Definition in_u (w z : Z) : Prop := 0 <= z < 2 ^ w.

(** The largest [size_t], also [npos]. *)
Definition size_max : Z := 2 ^ 64 - 1.

Lemma wrap_range w z : 0 <= w -> in_u w (wrap w z).
Proof. intros Hw. unfold in_u, wrap. apply Z.mod_pos_bound. by apply Z.pow_pos_nonneg. Qed.

Lemma wrap_id w z : in_u w z -> wrap w z = z.
Proof. intros Hz. by apply Z.mod_small. Qed.

Lemma u64_id z : 0 <= z < 2 ^ 64 -> u64 z = z.
Proof. apply wrap_id. Qed.

(** ** Lists *)

Definition zlen {A} (l : list A) : Z := Z.of_nat (length l).

Lemma zlen_nonneg {A} (l : list A) : 0 <= zlen l.
Proof. unfold zlen. lia. Qed.

Lemma zlen_app {A} (l k : list A) : zlen (l ++ k) = zlen l + zlen k.
Proof. unfold zlen. rewrite length_app. lia. Qed.

Lemma zlen_cons {A} (x : A) l : zlen (x :: l) = 1 + zlen l.
Proof. unfold zlen. simpl. lia. Qed.

Lemma zlen_nil {A} : zlen (@nil A) = 0.
Proof. done. Qed.

(** [std::vector::back] and [pop_back]: the last element and what precedes it. *)
Definition unsnoc {A} (l : list A) : option (list A * A) :=
  match rev l with
  | [] => None
  | x :: r => Some (rev r, x)
  end.

Lemma lookup_snoc_ne {A} (l : list A) x i : i <> length l -> (l ++ [x]) !! i = l !! i.
Proof.
  intros Hi. destruct (Nat.lt_ge_cases i (length l)) as [Hl|Hl]; [by rewrite lookup_app_l|].
  rewrite !lookup_ge_None_2; [done|lia|]. rewrite length_app. simpl. lia.
Qed.

Lemma unsnoc_app {A} (l : list A) x : unsnoc (l ++ [x]) = Some (l, x).
Proof. unfold unsnoc. rewrite rev_app_distr. simpl. by rewrite rev_involutive. Qed.

Lemma unsnoc_Some {A} (l r : list A) x : unsnoc l = Some (r, x) -> l = r ++ [x].
Proof.
  unfold unsnoc. intros H. destruct (rev l) as [|y k] eqn:E; simplify_eq.
  rewrite <- (rev_involutive l), E. done.
Qed.

Lemma unsnoc_None {A} (l : list A) : unsnoc l = None -> l = [].
Proof.
  unfold unsnoc. intros H. destruct (rev l) eqn:E; simplify_eq.
  by rewrite <- (rev_involutive l), E.
Qed.

(** The last occurrence of an element splits a list in one way only. *)
Lemma last_split {A} (c : A) l k l' k' :
  l ++ c :: k = l' ++ c :: k' -> c ∉ k -> c ∉ k' -> l = l' /\ k = k'.
Proof.
  intros E Hk Hk'. revert l' E. induction l as [|x l IH]; intros [|y l'] E; simplify_eq/=.
  - done.
  - set_solver.
  - set_solver.
  - destruct (IH l') as [-> ->]; done.
Qed.

(** The weight of a list of thread states changes only at the updated index. *)
Lemma sum_list_with_insert {A} (f : A -> nat) (l : list A) i x y :
  l !! i = Some x ->
  (sum_list_with f (<[i:=y]> l) + f x = sum_list_with f l + f y)%nat.
Proof.
  revert i. induction l as [|z l IH]; intros [|i] H; simplify_eq/=; [lia|].
  specialize (IH _ H). lia.
Qed.

Lemma sum_list_with_lookup {A} (f : A -> nat) (l : list A) i x :
  l !! i = Some x -> (f x <= sum_list_with f l)%nat.
Proof.
  revert i. induction l as [|z l IH]; intros [|i] H; simplify_eq/=; [lia|].
  specialize (IH _ H). lia.
Qed.

(** What the threads of a list hold, when one of them moves on. *)
Definition held {A B} (f : A -> list B) (l : list A) : list B := flat_map f l.

Lemma held_insert {A B} (f : A -> list B) (l : list A) i x y :
  l !! i = Some x -> held f (<[i:=y]> l) ++ f x ≡ₚ held f l ++ f y.
Proof.
  unfold held. revert i. induction l as [|z l IH]; intros [|i] H; simplify_eq/=.
  - rewrite <- !app_assoc.
    by rewrite (Permutation_app_comm (f y)), (Permutation_app_comm (flat_map f l) (f x)), <- !app_assoc.
  - rewrite <- !app_assoc. by rewrite (IH _ H).
Qed.

Lemma held_in {A B} {f : A -> list B} (l : list A) i x p : l !! i = Some x -> p ∈ f x -> p ∈ held f l.
Proof.
  intros Hi Hp. unfold held. apply list_elem_of_In, in_flat_map. exists x. split; [|by apply list_elem_of_In].
  apply list_elem_of_In. by eapply list_elem_of_lookup_2.
Qed.

Lemma held_of {A B} {f : A -> list B} (l : list A) p : p ∈ held f l -> exists i x, l !! i = Some x /\ p ∈ f x.
Proof.
  unfold held. intros Hp. apply list_elem_of_In, in_flat_map in Hp as (x & Hx & Hp). apply list_elem_of_In in Hx, Hp.
  apply list_elem_of_lookup in Hx as [i Hi]. by exists i, x.
Qed.

(** What is held once has one owner. *)
Lemma owner_unique {A B} {f : A -> list B} (l : list A) i i' x x' p : NoDup (held f l) -> l !! i = Some x -> l !! i' = Some x' ->
  p ∈ f x -> p ∈ f x' -> i = i'.
Proof.
  revert i i'. unfold held. induction l as [|u l IH]; intros [|i] [|i'] Hn Hi Hi' Hp Hp'; try done; simpl in *;
    apply NoDup_app in Hn as (_ & Hd & Hn); simplify_eq.
  - destruct (Hd p Hp). exact (held_in l i' x' p Hi' Hp').
  - destruct (Hd p Hp'). exact (held_in l i x p Hi Hp).
  - f_equal. by eapply IH.
Qed.

(** ** Reachability

    Every transition system of the development is a step relation; an
    invariant of the initial states that each step keeps holds in every
    reachable state. *)

Definition reachable {S} (init : S -> Prop) (step : S -> S -> Prop) (s : S) : Prop :=
  exists s0, init s0 /\ rtc step s0 s.

Lemma reachable_inv {S} (init : S -> Prop) (step : S -> S -> Prop) (I : S -> Prop) :
  (forall s, init s -> I s) ->
  (forall s s', I s -> step s s' -> I s') ->
  forall s, reachable init step s -> I s.
Proof.
  intros Hi Hs s (s0 & H0 & Hr). apply Hi in H0.
  induction Hr as [|x y z Hxy _ IH]; eauto.
Qed.

(** ** Automation *)

Create HintDb whisper.
Create Rewrite HintDb whisper.
#[export] Hint Resolve zlen_nonneg : whisper.
#[export] Hint Rewrite @zlen_app @zlen_cons @zlen_nil : whisper.

(** Length arithmetic over [Z]. *)
Ltac zlen_lia :=
  autorewrite with whisper in *; unfold zlen in *; simpl in *; lia.

(** Permutations of lists built by [++] and [::], by counting occurrences. *)
Ltac perm_count :=
  repeat match goal with
  | H : _ ≡ₚ _ |- _ => rewrite (Permutation_count_occ (fun x y => decide (x = y))) in H
  end;
  rewrite (Permutation_count_occ (fun x y => decide (x = y)));
  let z := fresh "z" in
  intros z;
  repeat match goal with H : forall x, count_occ _ _ _ = _ |- _ => specialize (H z) end;
  repeat match goal with H : forall y x, count_occ _ _ _ = _ |- _ => clear H end;
  repeat (rewrite ?count_occ_app in *; simpl in *);
  repeat case_decide; simplify_eq/=; lia.

(** Run a monadic program symbolically. *)
Ltac mrun := unfold bind, ret, get, put, modify, gets, fatal, check in *; simpl in *.

(** Case analysis on the conditions of a program, innermost match first. *)
Ltac case_all :=
  repeat (case_match; simplify_eq/=; try done).
