(* ===== verification/FreeList.v ===== *)
(** * Free lists ([whisperlib/base/free_list.h]) and call-on-return
    ([whisperlib/base/call_on_return.h])

    [FreeList] recycles objects through a bounded vector.  The C++ heap is a
    set of live addresses; [new T()] picks an address that is not live.
    [Module Plain] is the thread-unsafe class.  [Module Safe] is
    [ThreadSafeFreeList], as a step relation in which each atomic operation and
    each acquisition of the mutex is one step of one thread. *)

From S2P Require Import Prelude.

Abbreviation ptr := positive.

Module Plain.

(** The members of [FreeList<T>] and the heap they point to. *)
Record FreeList := mk {
  max_size_ : Z;
  outstanding_ : Z;
  free_list_ : list ptr;
  heap : gset ptr
}.

Definition with_outstanding (z : Z) (s : FreeList) : FreeList :=
  mk (max_size_ s) z (free_list_ s) (heap s).
Definition with_free_list (l : list ptr) (s : FreeList) : FreeList :=
  mk (max_size_ s) (outstanding_ s) l (heap s).
Definition with_heap (h : gset ptr) (s : FreeList) : FreeList :=
  mk (max_size_ s) (outstanding_ s) (free_list_ s) h.

(** [explicit FreeList(size_t max_size)] *)
Definition FreeList_ctor (max_size : Z) (h : gset ptr) : FreeList := mk max_size 0 [] h.

(** [outstanding_.fetch_add] / [fetch_sub] on a [std::atomic_size_t]. *)
Definition fetch_add (n : Z) : M FreeList unit :=
  modify (fun s => with_outstanding (u64 (outstanding_ s + n)) s).

(** [new T()] *)
Definition alloc : M FreeList ptr :=
  s <- get ;;
  put (with_heap ({[fresh (heap s)]} ∪ heap s) s) ;;
  ret (fresh (heap s)).

(** [delete ptr] *)
Definition delete_ (p : ptr) : M FreeList unit :=
  modify (fun s => with_heap (heap s ∖ {[p]}) s).

Definition New : M FreeList ptr :=
  fetch_add 1 ;;
  s <- get ;;
  match unsnoc (free_list_ s) with
  | Some (rest, p) => put (with_free_list rest s) ;; ret p
  | None => alloc
  end.

Definition Dispose (p : option ptr) : M FreeList bool :=
  match p with
  | None => ret false
  | Some p =>
      s <- get ;;
      check (bool_decide (0 < outstanding_ s)) "CHECK_GT(outstanding_, 0)" ;;
      fetch_add (-1) ;;
      s <- get ;;
      if bool_decide (max_size_ s <= zlen (free_list_ s)) then
        delete_ p ;; ret true
      else
        put (with_free_list (free_list_ s ++ [p]) s) ;; ret false
  end.

(** [_FreeListDeleter::operator()]: [owner] is its [free_list] member. *)
Definition FreeListDeleter (owner : bool) (p : option ptr) : M FreeList unit :=
  match p with
  | None => ret tt
  | Some p => if owner then Dispose (Some p) ;; ret tt else ret tt
  end.

(** The body of [~FreeList()]. *)
Definition FreeList_dtor : M FreeList unit :=
  s <- get ;; fetch_add (zlen (free_list_ s)).

#[global] Arguments New : simpl never.
#[global] Arguments Dispose : simpl never.

(** ** Correctness

    [out] is the list of objects that clients hold.  A free list is well
    formed when the kept objects and the handed-out ones are distinct, live,
    and the counter counts the latter. *)
Record wf (s : FreeList) (out : list ptr) : Prop := {
  wf_bound : zlen (free_list_ s) <= max_size_ s;
  wf_nodup : NoDup (free_list_ s ++ out);
  wf_live : forall p, p ∈ free_list_ s ++ out -> p ∈ heap s;
  wf_count : outstanding_ s = zlen out;
  wf_small : zlen out < 2 ^ 64
}.

(** The operations a client may interleave: ask for an object, or give back
    one that it holds. *)
Inductive client_step : FreeList * list ptr -> FreeList * list ptr -> Prop :=
| client_new s s' out p :
    zlen out + 1 < 2 ^ 64 ->
    New s = Ret p s' -> client_step (s, out) (s', out ++ [p])
| client_dispose s s' l p r b :
    Dispose (Some p) s = Ret b s' -> client_step (s, l ++ p :: r) (s', l ++ r).

Lemma New_reuse s rest p :
  unsnoc (free_list_ s) = Some (rest, p) ->
  New s = Ret p (with_free_list rest (with_outstanding (u64 (outstanding_ s + 1)) s)).
Proof. intros H. unfold New, fetch_add, with_outstanding. mrun. by rewrite H. Qed.

Lemma New_alloc s :
  unsnoc (free_list_ s) = None ->
  New s = Ret (fresh (heap s))
    (with_heap ({[fresh (heap s)]} ∪ heap s)
       (with_outstanding (u64 (outstanding_ s + 1)) s)).
Proof. intros H. unfold New, fetch_add, with_outstanding, alloc. mrun. by rewrite H. Qed.

Lemma New_wf s out :
  wf s out -> zlen out + 1 < 2 ^ 64 ->
  returns New s (fun p s' => p ∉ out /\ wf s' (out ++ [p])).
Proof.
  intros [Hb Hnd Hl Hc Hs] Hn. pose proof (zlen_nonneg out).
  assert (Hu : u64 (outstanding_ s + 1) = zlen out + 1) by (rewrite Hc; apply u64_id; lia).
  destruct (unsnoc (free_list_ s)) as [[rest p]|] eqn:E.
  - exists p. eexists. split; [by apply New_reuse|].
    apply unsnoc_Some in E. rewrite E in *.
    assert (Hp : NoDup (rest ++ out ++ [p])).
    { rewrite <- (Permutation_app_comm [p] out). by rewrite (assoc_L (++)). }
    split; [intros Hin; apply NoDup_app in Hp as (_ & _ & Hp);
            apply NoDup_app in Hp as (_ & Hp & _); apply (Hp p Hin); set_solver|].
    split; simpl; try done.
    + zlen_lia.
    + intros q Hq. apply Hl. set_solver.
    + rewrite Hu. zlen_lia.
    + zlen_lia.
  - exists (fresh (heap s)). eexists. split; [by apply New_alloc|].
    pose proof (is_fresh (heap s)) as Hf.
    assert (fresh (heap s) ∉ free_list_ s ++ out) as Hnin by (intros Hq; by apply Hf, Hl).
    apply not_elem_of_app in Hnin as [Hn1 Hn2]. split; [done|].
    split; simpl; try done.
    + rewrite (assoc_L (++)). apply NoDup_app. split_and!; [done| |apply NoDup_singleton].
      intros q Hq Hq'. apply list_elem_of_singleton in Hq'. set_solver.
    + intros q Hq. set_solver.
    + rewrite Hu. zlen_lia.
    + zlen_lia.
Qed.

Lemma Dispose_wf s l p r :
  wf s (l ++ p :: r) ->
  returns (Dispose (Some p)) s (fun freed s' =>
    wf s' (l ++ r) /\
    (freed = true <-> p ∉ heap s') /\
    (freed = false <-> free_list_ s' = free_list_ s ++ [p])).
Proof.
  intros [Hb Hnd Hl Hc Hs].
  assert (Hperm : free_list_ s ++ l ++ p :: r ≡ₚ (free_list_ s ++ [p]) ++ l ++ r).
  { rewrite <- (assoc_L (++)). simpl. by rewrite Permutation_middle. }
  assert (Hz : zlen (l ++ p :: r) = zlen (l ++ r) + 1) by zlen_lia.
  pose proof (zlen_nonneg (l ++ r)).
  assert (Hu : u64 (outstanding_ s + -1) = zlen (l ++ r))
    by (rewrite Hc, Hz, u64_id; lia).
  rewrite Hperm in Hnd.
  unfold returns, Dispose, fetch_add, delete_. mrun.
  rewrite bool_decide_eq_true_2 by lia. case_bool_decide as Hfull.
  - eexists true, _. split; [done|]. split_and!.
    + split; simpl; try done; [| |lia].
      * apply NoDup_app in Hnd as (H1 & H2 & H3). apply NoDup_app in H1 as (H4 & _ & _).
        apply NoDup_app; split_and!; [done| |done]. intros q Hq. apply H2. set_solver.
      * intros q Hq. apply elem_of_difference. split; [apply Hl; set_solver|].
        rewrite elem_of_singleton. intros ->.
        apply NoDup_app in Hnd as (H1 & H2 & _). apply NoDup_app in H1 as (_ & H4 & _).
        apply elem_of_app in Hq as [Hq|Hq]; [by apply (H4 p Hq), list_elem_of_here|].
        by apply (H2 p); [set_solver|].
    + simpl. set_solver.
    + simpl. split; [done|]. intros Heq. apply (f_equal length) in Heq.
      rewrite length_app in Heq. simpl in Heq. lia.
  - eexists false, _. split; [done|]. split_and!.
    + split; simpl; try done; [zlen_lia| |lia].
      intros q Hq. apply Hl. rewrite Hperm. done.
    + simpl. split; [done|]. intros Hp. destruct Hp. apply Hl. set_solver.
    + done.
Qed.

(** C30: whatever sequence of [New] and [Dispose] calls clients make on a list
    built with [max_size] (giving back only objects they hold), no object is
    handed out twice or kept while held, every object held or kept is live,
    at most [max_size] objects are kept, and [outstanding()] is exactly the
    number of objects held. *)
Theorem free_list_invariant max_size h s out :
  0 <= max_size ->
  rtc client_step (FreeList_ctor max_size h, []) (s, out) ->
  max_size_ s = max_size /\ wf s out.
Proof.
  intros Hm Hr.
  assert (Hgen : forall x y, rtc client_step x y -> wf x.1 x.2 ->
    max_size_ y.1 = max_size_ x.1 /\ wf y.1 y.2).
  { clear. induction 1 as [|x y z Hxy _ IH]; intros Hwf; [done|].
    assert (max_size_ y.1 = max_size_ x.1 /\ wf y.1 y.2) as [E Hy].
    { destruct Hxy as [s s' out p Hn HN|s s' l p r b HD]; simpl in *.
      - destruct (New_wf _ _ Hwf Hn) as (q & t & Hq & _ & Ht).
        rewrite HN in Hq. simplify_eq. split; [|done].
        destruct (unsnoc (free_list_ s)) as [[rest q']|] eqn:E;
          [erewrite New_reuse in HN by done|rewrite New_alloc in HN by done]; by simplify_eq.
      - destruct (Dispose_wf _ _ _ _ Hwf) as (q & t & Hq & Ht & _).
        rewrite HD in Hq. simplify_eq. split; [|done]. revert HD.
        unfold Dispose, fetch_add, delete_. mrun. intros HD. case_all. }
    destruct (IH Hy). split; [congruence|done]. }
  destruct (Hgen _ _ Hr) as [E Hwf]; [|by split].
  split; simpl; try done; [constructor|set_solver].
Qed.

Lemma free_list_invariant_witness :
  exists s p, New (FreeList_ctor 2 ∅) = Ret p s /\ max_size_ s = 2 /\ wf s [p].
Proof.
  eexists _, _. split; [reflexivity|].
  apply (free_list_invariant 2 ∅); [lia|].
  apply rtc_once. apply (client_new _ _ [] _); [simpl; vm_compute; done|reflexivity].
Defined.

(** Disposing of an object while the list has room and then asking for a
    new one gives that very object back and restores the list: the kept
    objects are reused last-in first-out. *)
Theorem dispose_new_roundtrip s l p r :
  wf s (l ++ p :: r) -> zlen (free_list_ s) < max_size_ s ->
  (Dispose (Some p) ;; New) s = Ret p s.
Proof.
  intros [Hb Hnd Hl Hc Hs] Hroom.
  assert (0 < outstanding_ s < 2 ^ 64) as Ho
    by (rewrite Hc in *; pose proof (zlen_nonneg (l ++ r)); split; [zlen_lia|done]).
  unfold Dispose, New, fetch_add, with_outstanding, with_free_list. mrun.
  rewrite !bool_decide_eq_true_2, bool_decide_eq_false_2 by lia. simpl.
  rewrite unsnoc_app. simpl. destruct s as [m o f h]; simpl in *.
  rewrite (u64_id (o + -1)) by lia. rewrite u64_id by lia. do 2 f_equal. lia.
Qed.

Lemma dispose_new_roundtrip_witness :
  (Dispose (Some 1%positive) ;; New) (mk 2 1 [] {[1%positive]})
  = Ret 1%positive (mk 2 1 [] {[1%positive]}).
Proof.
  apply (dispose_new_roundtrip _ [] _ []); [|simpl; vm_compute; done].
  split; simpl; [vm_compute; done|apply NoDup_singleton|set_solver|done|vm_compute; done].
Defined.

End Plain.

Module Safe.

(** Where a thread is inside [New] or [Dispose].  [NewLocked], [NewPop] and
    [DispPush] are inside the critical section. *)
Inductive pc :=
| Idle
| NewLocked
| NewPop
| NewAlloc
| DispCheck (p : ptr)
| DispSub (p : ptr)
| DispLock (p : ptr)
| DispPush (p : ptr)
| DispDelete (p : ptr).

(** [ThreadSafeFreeList<T>], the heap, the threads and the objects that the
    clients hold. *)
Record State := mk {
  max_size_ : Z;
  outstanding_ : Z;
  free_list_ : list ptr;
  mutex_ : option nat;
  heap : gset ptr;
  threads : list pc;
  out : list ptr
}.

Definition init (max_size : Z) (n : nat) (s : State) : Prop :=
  s = mk max_size 0 [] None ∅ (replicate n Idle) [].

(** One atomic step of thread [t].  The bound in [step_new_add] says that the
    process does not hold [2^64] objects. *)
Inductive step : State -> State -> Prop :=
| step_new_lock m o f h ths l t :
    ths !! t = Some Idle ->
    step (mk m o f None h ths l) (mk m o f (Some t) h (<[t:=NewLocked]> ths) l)
| step_new_add m o f mx h ths l t :
    ths !! t = Some NewLocked -> o + 1 < 2 ^ 64 ->
    step (mk m o f mx h ths l) (mk m (u64 (o + 1)) f mx h (<[t:=NewPop]> ths) l)
| step_new_pop m o f rest p mx h ths l t :
    ths !! t = Some NewPop -> unsnoc f = Some (rest, p) ->
    step (mk m o f mx h ths l) (mk m o rest None h (<[t:=Idle]> ths) (l ++ [p]))
| step_new_empty m o f mx h ths l t :
    ths !! t = Some NewPop -> unsnoc f = None ->
    step (mk m o f mx h ths l) (mk m o f None h (<[t:=NewAlloc]> ths) l)
| step_new_alloc m o f mx h ths l t p :
    ths !! t = Some NewAlloc -> p ∉ h ->
    step (mk m o f mx h ths l) (mk m o f mx ({[p]} ∪ h) (<[t:=Idle]> ths) (l ++ [p]))
| step_dispose m o f mx h ths l p r t :
    ths !! t = Some Idle ->
    step (mk m o f mx h ths (l ++ p :: r)) (mk m o f mx h (<[t:=DispCheck p]> ths) (l ++ r))
| step_disp_check m o f mx h ths l t p :
    ths !! t = Some (DispCheck p) -> 0 < o ->
    step (mk m o f mx h ths l) (mk m o f mx h (<[t:=DispSub p]> ths) l)
| step_disp_sub m o f mx h ths l t p :
    ths !! t = Some (DispSub p) ->
    step (mk m o f mx h ths l) (mk m (u64 (o - 1)) f mx h (<[t:=DispLock p]> ths) l)
| step_disp_lock m o f h ths l t p :
    ths !! t = Some (DispLock p) ->
    step (mk m o f None h ths l) (mk m o f (Some t) h (<[t:=DispPush p]> ths) l)
| step_disp_keep m o f mx h ths l t p :
    ths !! t = Some (DispPush p) -> zlen f < m ->
    step (mk m o f mx h ths l) (mk m o (f ++ [p]) None h (<[t:=Idle]> ths) l)
| step_disp_full m o f mx h ths l t p :
    ths !! t = Some (DispPush p) -> m <= zlen f ->
    step (mk m o f mx h ths l) (mk m o f None h (<[t:=DispDelete p]> ths) l)
| step_disp_delete m o f mx h ths l t p :
    ths !! t = Some (DispDelete p) ->
    step (mk m o f mx h ths l) (mk m o f mx (h ∖ {[p]}) (<[t:=Idle]> ths) l).

(** The object a thread carries, whether [outstanding_] counts it, and whether
    it owns the mutex. *)
Definition carried (c : pc) : list ptr :=
  match c with
  | DispCheck p | DispSub p | DispLock p | DispPush p | DispDelete p => [p]
  | _ => []
  end.
Definition counted (c : pc) : nat :=
  match c with NewPop | NewAlloc | DispCheck _ | DispSub _ => 1 | _ => 0 end.
Definition locks (c : pc) : bool :=
  match c with NewLocked | NewPop | DispPush _ => true | _ => false end.

Definition all_objects (s : State) : list ptr :=
  free_list_ s ++ out s ++ held carried (threads s).

Record inv (max_size : Z) (s : State) : Prop := {
  inv_max : max_size_ s = max_size;
  inv_bound : zlen (free_list_ s) <= max_size;
  inv_nodup : NoDup (all_objects s);
  inv_live : forall p, p ∈ all_objects s -> p ∈ heap s;
  inv_count : outstanding_ s = zlen (out s) + Z.of_nat (sum_list_with counted (threads s));
  inv_small : outstanding_ s < 2 ^ 64;
  inv_mutex : forall t c, threads s !! t = Some c -> locks c = true -> mutex_ s = Some t
}.

(** How a step may change the objects in play. *)
Definition same_objects (s s' : State) : Prop :=
  all_objects s' ≡ₚ all_objects s /\ heap s' = heap s.
Definition one_more (s s' : State) : Prop :=
  exists p, all_objects s' ≡ₚ p :: all_objects s /\ p ∉ heap s /\ heap s' = {[p]} ∪ heap s.
Definition one_less (s s' : State) : Prop :=
  exists p, all_objects s ≡ₚ p :: all_objects s' /\ heap s' = heap s ∖ {[p]}.

Lemma objects_kept s s' :
  same_objects s s' \/ one_more s s' \/ one_less s s' ->
  NoDup (all_objects s) -> (forall p, p ∈ all_objects s -> p ∈ heap s) ->
  NoDup (all_objects s') /\ (forall p, p ∈ all_objects s' -> p ∈ heap s').
Proof.
  intros [[Hp Hh]|[(q & Hp & Hq & Hh)|(q & Hp & Hh)]] Hnd Hl.
  - rewrite Hh. split; [by rewrite Hp|]. intros p. rewrite Hp. apply Hl.
  - rewrite Hh. split.
    + rewrite Hp. constructor; [|done]. intros Hin. by apply Hq, Hl.
    + intros p. rewrite Hp, elem_of_cons. set_solver.
  - rewrite Hp in Hnd. apply NoDup_cons in Hnd as [Hq Hnd]. rewrite Hh. split; [done|].
    intros p Hin. apply elem_of_difference. split; [apply Hl; rewrite Hp; set_solver|].
    rewrite elem_of_singleton. by intros ->.
Qed.

Lemma step_objects s s' : step s s' -> same_objects s s' \/ one_more s s' \/ one_less s s'.
Proof.
  destruct 1; unfold same_objects, one_more, one_less, all_objects; simpl;
    match goal with H : _ !! _ = Some _ |- context [<[_:=?c]> _] =>
      pose proof (held_insert carried _ _ _ c H) as E; simpl in E end;
    try match goal with H : unsnoc _ = Some _ |- _ => apply unsnoc_Some in H as -> end.
  5: { right; left. exists p. split_and!; try done. perm_count. }
  11: { right; right. exists p. split; [perm_count|done]. }
  all: left; split; [perm_count|done].
Qed.


Ltac counted_eq :=
  try match goal with H : ?ths !! _ = Some _ |- context [<[_:=?c]> ?ths] =>
    pose proof (sum_list_with_insert counted _ _ _ c H);
    pose proof (sum_list_with_lookup counted _ _ _ H); simpl in *
  end.

Lemma step_counts s s' m : inv m s -> step s s' ->
  outstanding_ s' = zlen (out s') + Z.of_nat (sum_list_with counted (threads s')) /\
  outstanding_ s' < 2 ^ 64.
Proof.
  intros [_ _ _ _ Hc Hs _] Hstep. pose proof (zlen_nonneg (out s)).
  destruct Hstep; simpl in *; counted_eq; rewrite ?u64_id by lia; split; zlen_lia.
Qed.

Lemma step_mutex s s' m : inv m s -> step s s' ->
  forall t c, threads s' !! t = Some c -> locks c = true -> mutex_ s' = Some t.
Proof.
  intros [_ _ _ _ _ _ Hm] Hstep t c.
  destruct Hstep; simpl in *; rewrite list_lookup_insert_Some;
    (intros [(-> & <- & _)|[Hne Hl]] Hlk;
     [simpl in Hlk; try done; by eauto|
      pose proof (Hm _ _ Hl Hlk); pose proof (Hm _ _ H); simpl in *;
      try (assert (Some t = Some t0) by (etransitivity; [symmetry|]; eauto));
      naive_solver]).
Qed.

Lemma step_inv m s s' : inv m s -> step s s' -> inv m s'.
Proof.
  intros Hinv Hstep.
  destruct (step_counts _ _ _ Hinv Hstep). pose proof (step_mutex _ _ _ Hinv Hstep).
  destruct Hinv as [Hmax Hb Hnd Hl _ _ _].
  destruct (objects_kept _ _ (step_objects _ _ Hstep) Hnd Hl).
  split; try done; destruct Hstep; simpl in *; try done.
  - match goal with E : unsnoc _ = Some _ |- _ => apply unsnoc_Some in E end. subst. zlen_lia.
  - subst. zlen_lia.
Qed.

(** C29: however the threads interleave, a [ThreadSafeFreeList] never gives one
    object to two holders and never keeps an object that someone holds or is
    disposing of; it keeps at most [max_size] live objects; at most one thread
    is in a critical section; the [CHECK_GT] of [Dispose] cannot fail; and when
    no call is in progress [outstanding()] is the number of objects held. *)
Theorem thread_safe_invariant max_size n s :
  0 <= max_size ->
  reachable (init max_size n) step s ->
  NoDup (all_objects s) /\
  (forall p, p ∈ all_objects s -> p ∈ heap s) /\
  zlen (free_list_ s) <= max_size /\
  (forall t t' c c', threads s !! t = Some c -> threads s !! t' = Some c' ->
     locks c = true -> locks c' = true -> t = t') /\
  (forall t p, threads s !! t = Some (DispCheck p) -> 0 < outstanding_ s) /\
  (Forall (fun c => c = Idle) (threads s) -> outstanding_ s = zlen (out s)).
Proof.
  intros Hm Hr.
  assert (inv max_size s) as [E Hb Hnd Hl Hc Hs Hmx].
  { revert s Hr. apply (reachable_inv _ _ (inv max_size)); [|eauto using step_inv].
    intros s ->.
    assert (held carried (replicate n Idle) = []) as Hh by (induction n; simpl; auto).
    assert (sum_list_with counted (replicate n Idle) = 0%nat) as Hz by (induction n; simpl; auto).
    split; unfold all_objects; simpl; rewrite ?Hh, ?Hz; try done; [constructor|set_solver|].
    intros t c Hc. by apply lookup_replicate in Hc as [-> _]. }
  split_and!; try done.
  - intros t t' c c' Ht Ht' Hlk Hlk'.
    pose proof (Hmx _ _ Ht Hlk). pose proof (Hmx _ _ Ht' Hlk'). congruence.
  - intros t p Ht. pose proof (sum_list_with_lookup counted _ _ _ Ht). simpl in *.
    pose proof (zlen_nonneg (out s)). lia.
  - intros Hidle. rewrite Hc.
    assert (sum_list_with counted (threads s) = 0%nat) as ->; [|lia].
    clear -Hidle. induction Hidle as [|c l -> _ IH]; simpl; auto.
Qed.

(** Two threads race through [New]: the second waits for the mutex. *)
Lemma thread_safe_invariant_witness :
  exists s, threads s = [NewAlloc; NewLocked] /\ NoDup (all_objects s).
Proof.
  exists (mk 1 1 [] (Some 1%nat) ∅ [NewAlloc; NewLocked] []). split; [done|].
  apply (thread_safe_invariant 1 2); [lia|].
  eexists. split; [reflexivity|].
  eapply rtc_l; [apply (step_new_lock _ _ _ _ _ _ 0); reflexivity|].
  eapply rtc_l; [apply (step_new_add _ _ _ _ _ _ _ 0); [reflexivity|done]|].
  eapply rtc_l; [apply (step_new_empty _ _ _ _ _ _ _ 0); reflexivity|].
  eapply rtc_once. exact (step_new_lock 1 1 [] ∅ [NewAlloc; Idle] [] 1 eq_refl).
Defined.

End Safe.

Module CallOnReturn.

(** A [std::function<void()>] acts on the state; the empty function is [None].
    [reset] copies the function out, so it can be called later by its new owner. *)
Section CallOnReturn.
  Context {W : Type}.

Record CallOnReturn := mk { on_return_ : option (W -> W) }.

Definition CallOnReturn_ctor (on_return : W -> W) : CallOnReturn := mk (Some on_return).

Definition run : M (CallOnReturn * W) unit :=
    fun '(c, w) =>
      match on_return_ c with
      | Some f => Ret tt (mk None, f w)
      | None => Ret tt (c, w)
      end.

Definition reset : M (CallOnReturn * W) (option (W -> W)) :=
    fun '(c, w) => Ret (on_return_ c) (mk None, w).

  (** [~CallOnReturn()] *)
Definition CallOnReturn_dtor : M (CallOnReturn * W) unit := run.

Inductive op := op_run | op_reset.
Definition op_do (o : op) : M (CallOnReturn * W) unit :=
    match o with op_run => run | op_reset => reset ;; ret tt end.
Fixpoint ops_do (os : list op) : M (CallOnReturn * W) unit :=
    match os with [] => ret tt | o :: os => op_do o ;; ops_do os end.
End CallOnReturn.
Arguments CallOnReturn : clear implicits.

Lemma ops_do_empty {W} (os : list op) (w : W) :
  (ops_do os ;; CallOnReturn_dtor) (mk None, w) = Ret tt (mk None, w).
Proof.
  unfold CallOnReturn_dtor, run. mrun. induction os as [|[] os IH]; mrun; done.
Qed.

(** A [CallOnReturn] guard that goes through any sequence of [run] and
    [reset] calls and is then destroyed applies its function exactly once when
    [run] comes first (or neither is called), and never when [reset] comes
    first: the clean-up can neither be lost nor repeated. *)
Theorem call_on_return_once {W} (f : W -> W) (w : W) (os : list op) :
  (ops_do os ;; CallOnReturn_dtor) (CallOnReturn_ctor f, w) =
  Ret tt (mk None, match os with op_reset :: _ => w | _ => f w end).
Proof.
  destruct os as [|[] os]; [done| |].
  - exact (ops_do_empty os (f w)).
  - exact (ops_do_empty os w).
Qed.

End CallOnReturn.
