(* ===== verification/Status.v ===== *)
(** * Statuses ([whisperlib/status/status.h], [whisperlib/status/status.cc])

    [absl::Status] is a third-party type: it is the type parameter [St] of the
    class [Absl], whose laws ([AbslLaws]) are what its documentation promises.
    The reference instance at the end of the file shows that the laws can be
    met.  The macros [RETURN_IF_ERROR], [ASSIGN_OR_RETURN] and [RET_CHECK] are
    control operators of the outcome monad. *)

From Stdlib Require Import DecimalString DecimalZ DecimalPos Decimal.
From S2P Require Import Prelude.

(** [absl::StatusCode] *)
Inductive status_code :=
| kOk | kCancelled | kUnknown | kInvalidArgument | kDeadlineExceeded
| kNotFound | kAlreadyExists | kPermissionDenied | kResourceExhausted
| kFailedPrecondition | kAborted | kOutOfRange | kUnimplemented
| kInternal | kUnavailable | kDataLoss | kUnauthenticated.

#[export] Instance status_code_eq : EqDecision status_code.
Proof. solve_decision. Defined.

(** What the code uses of Abseil: statuses, and the conversions between
    integers and text of [StrCat]/[StrAppend] and [SimpleAtoi]. *)
Class Absl (St : Type) := {
  mk_status : status_code -> str -> St;
  code : St -> status_code;
  message : St -> str;
  (* the (name, payload) pairs in the order ForEachPayload visits them *)
  payloads : St -> list (str * str);
  SetPayload : St -> str -> str -> St;
  (* s.Update(other) *)
  status_Update : St -> St -> St;
  (* how an integer is rendered in a StrCat *)
  StrInt : Z -> str;
  (* absl::SimpleAtoi on a uint32_t *)
  SimpleAtoi32 : str -> option Z
}.

Section Views.
Context {St : Type} `{Absl St}.

Definition OkStatus : St := mk_status kOk [].
Definition ok (s : St) : bool := bool_decide (code s = kOk).
Definition payload_map (s : St) : gmap str str := list_to_map (payloads s).
End Views.

Definition is_digit (c : ascii) : bool :=
  (48 <=? Z.of_nat (nat_of_ascii c)) && (Z.of_nat (nat_of_ascii c) <=? 57).

Class AbslLaws (St : Type) `{Absl St} : Prop := {
  code_mk c m : code (mk_status c m) = c;
  message_mk c m : c <> kOk -> message (mk_status c m) = m;
  payloads_mk c m : payloads (mk_status c m) = [];
  message_ok s : code s = kOk -> message s = [];
  payloads_ok s : code s = kOk -> payloads s = [];
  payloads_names s : NoDup (payloads s).*1;
  code_SetPayload s n v : code (SetPayload s n v) = code s;
  message_SetPayload s n v : message (SetPayload s n v) = message s;
  map_SetPayload s n v : code s <> kOk ->
    payload_map (SetPayload s n v) = <[n:=v]> (payload_map s);
  Update_ok s t : code s = kOk -> status_Update s t = t;
  SimpleAtoi_StrInt n : in_u 32 n -> SimpleAtoi32 (StrInt n) = Some n;
  StrInt_digits n c : 0 <= n -> c ∈ StrInt n -> is_digit c = true
}.

(** [absl::StatusOr<A>] *)
Inductive StatusOr (St A : Type) :=
| Value (a : A)
| Error (s : St).
Arguments Value {_ _} _.
Arguments Error {_ _} _.

(** What a function may return where the macros return a status. *)
Class FromStatus (St R : Type) := from_status : St -> R.
#[export] Instance from_status_id St : FromStatus St St := fun s => s.
#[export] Instance from_status_or St A : FromStatus St (StatusOr St A) := Error.

(** [StatusOr::status()] *)
Definition sor_status {St A} `{Absl St} (r : StatusOr St A) : St :=
  match r with Value _ => OkStatus | Error s => s end.

Section Status.
Context {St : Type} `{Absl St}.

Definition Annotate (status : St) (msg : str) : St :=
  let result := mk_status (code status)
    (match message status with
     | [] => msg
     | _ => message status ++ "; " ++ msg
     end) in
  foldl (fun r '(name, payload) => SetPayload r name payload) result (payloads status).

Definition UpdateOrAnnotate (status annotation : St) : St :=
  if ok status then status_Update status annotation
  else foldl (fun r '(name, payload) => SetPayload r name payload)
         (Annotate status (message annotation)) (payloads annotation).

Record StatusWriter := Writer { status_ : St; message_ : str }.

(** [StatusWriter(absl::Status)] *)
Definition StatusWriter_ctor (s : St) : StatusWriter := Writer s [].

(** [operator absl::Status()] *)
Definition to_status (w : StatusWriter) : St :=
  match message_ w with
  | [] => status_ w
  | _ => if ok (status_ w) then status_ w else Annotate (status_ w) (message_ w)
  end.

(** [operator<<]; the value is given as the text [StrAppend] makes of it. *)
Definition append_to (w : StatusWriter) (text : str) : StatusWriter :=
  Writer (status_ w) (message_ w ++ text).

Definition AbortedErrorBuilder (m : str) := StatusWriter_ctor (mk_status kAborted m).
Definition AlreadyExistsErrorBuilder (m : str) := StatusWriter_ctor (mk_status kAlreadyExists m).
Definition CancelledErrorBuilder (m : str) := StatusWriter_ctor (mk_status kCancelled m).
Definition DataLossErrorBuilder (m : str) := StatusWriter_ctor (mk_status kDataLoss m).
Definition DeadlineExceededErrorBuilder (m : str) := StatusWriter_ctor (mk_status kDeadlineExceeded m).
Definition FailedPreconditionErrorBuilder (m : str) := StatusWriter_ctor (mk_status kFailedPrecondition m).
Definition InternalErrorBuilder (m : str) := StatusWriter_ctor (mk_status kInternal m).
Definition InvalidArgumentErrorBuilder (m : str) := StatusWriter_ctor (mk_status kInvalidArgument m).
Definition NotFoundErrorBuilder (m : str) := StatusWriter_ctor (mk_status kNotFound m).
Definition OutOfRangeErrorBuilder (m : str) := StatusWriter_ctor (mk_status kOutOfRange m).
Definition PermissionDeniedErrorBuilder (m : str) := StatusWriter_ctor (mk_status kPermissionDenied m).
Definition ResourceExhaustedErrorBuilder (m : str) := StatusWriter_ctor (mk_status kResourceExhausted m).
Definition UnauthenticatedErrorBuilder (m : str) := StatusWriter_ctor (mk_status kUnauthenticated m).
Definition UnavailableErrorBuilder (m : str) := StatusWriter_ctor (mk_status kUnavailable m).
Definition UnimplementedErrorBuilder (m : str) := StatusWriter_ctor (mk_status kUnimplemented m).
Definition UnknownErrorBuilder (m : str) := StatusWriter_ctor (mk_status kUnknown m).

(** [return builder << text;] *)
Definition return_error {R} `{FromStatus St R} (w : StatusWriter) (text : str) : R :=
  from_status (to_status (append_to w text)).

(** [RETURN_IF_ERROR(expr) << text; rest] *)
Definition RETURN_IF_ERROR {S R} `{FromStatus St R} (expr : M S St) (text : str)
    (rest : M S R) : M S R :=
  st <- expr ;;
  if ok st then rest else ret (return_error (StatusWriter_ctor st) text).

(** [ASSIGN_OR_RETURN(auto x, rexpr, _ << text); rest] *)
Definition ASSIGN_OR_RETURN {S A R} `{FromStatus St R} (rexpr : M S (StatusOr St A))
    (text : str) (rest : A -> M S R) : M S R :=
  r <- rexpr ;;
  match r with
  | Value a => rest a
  | Error st => ret (return_error (StatusWriter_ctor st) text)
  end.

(** The writer that [RET_CHECK(condition)] in [file] at [line] returns. *)
Definition ret_check_writer (condition file : str) (line : Z) : StatusWriter :=
  append_to
    (FailedPreconditionErrorBuilder
       ("Invalid state in the program. Precondition: `" ++ condition ++ "` does not hold"))
    ("In file: " ++ file ++ " at line: " ++ StrInt line).

Definition RET_CHECK {S R} `{FromStatus St R} (cond : bool) (condition file : str)
    (line : Z) (text : str) (rest : M S R) : M S R :=
  if cond then rest else ret (return_error (ret_check_writer condition file line) text).

(** [DieIfNull] *)
Definition DieIfNull {S A} (exprtext : str) (t : option A) : M S A :=
  match t with Some a => ret a | None => fatal exprtext end.
End Status.

Arguments StatusWriter : clear implicits.

(** ** Correctness *)

Section Laws.
Context {St : Type} `{HA : Absl St} `{!AbslLaws St}.

Lemma code_set_payloads l (s : St) :
  code (foldl (fun r '(name, payload) => SetPayload r name payload) s l) = code s.
Proof.
  revert s. induction l as [|[n v] l IH]; intros s; [done|]. simpl. by rewrite IH, code_SetPayload.
Qed.

Lemma message_set_payloads l (s : St) :
  message (foldl (fun r '(name, payload) => SetPayload r name payload) s l) = message s.
Proof.
  revert s. induction l as [|[n v] l IH]; intros s; [done|]. simpl. by rewrite IH, message_SetPayload.
Qed.

Lemma map_set_payloads l (s : St) :
  code s <> kOk -> NoDup l.*1 ->
  payload_map (foldl (fun r '(name, payload) => SetPayload r name payload) s l) =
  list_to_map l ∪ payload_map s.
Proof.
  revert s. induction l as [|[n v] l IH]; intros s Hs Hnd; simpl; [by rewrite map_empty_union|].
  apply NoDup_cons in Hnd as [Hn Hnd]. rewrite IH by (rewrite ?code_SetPayload; done).
  rewrite map_SetPayload, <- insert_union_l by done.
  symmetry. apply insert_union_r. by apply not_elem_of_list_to_map_1.
Qed.

Lemma payload_map_mk c m : payload_map (mk_status (St := St) c m) = ∅.
Proof. unfold payload_map. by rewrite payloads_mk. Qed.

Lemma code_Annotate (s : St) m : code (Annotate s m) = code s.
Proof. unfold Annotate. by rewrite code_set_payloads, code_mk. Qed.

(** The text of an annotated message. *)
Definition join_message (a b : str) : str :=
  match a with [] => b | _ => a ++ "; " ++ b end.

Lemma message_Annotate (s : St) m :
  code s <> kOk -> message (Annotate s m) = join_message (message s) m.
Proof. intros Hs. unfold Annotate. by rewrite message_set_payloads, message_mk. Qed.

Lemma map_Annotate (s : St) m : payload_map (Annotate s m) = payload_map s.
Proof.
  unfold Annotate. destruct (decide (code s = kOk)) as [Hs|Hs].
  - unfold payload_map. rewrite (payloads_ok s Hs). simpl. by rewrite payloads_mk.
  - rewrite map_set_payloads; [|by rewrite code_mk|apply payloads_names].
    rewrite payload_map_mk. by rewrite map_union_empty.
Qed.

Lemma ok_true (s : St) : ok s = true <-> code s = kOk.
Proof. unfold ok. by rewrite bool_decide_eq_true. Qed.

Lemma ok_false (s : St) : ok s = false <-> code s <> kOk.
Proof. unfold ok. by rewrite bool_decide_eq_false. Qed.

Lemma ok_OkStatus : ok (OkStatus : St) = true.
Proof. apply ok_true, code_mk. Qed.

Lemma code_to_status (w : StatusWriter St) : code (to_status w) = code (status_ w).
Proof.
  unfold to_status. destruct (message_ w); [done|].
  destruct (ok (status_ w)); [done|]. apply code_Annotate.
Qed.

Lemma code_return_error (w : StatusWriter St) text :
  code (return_error (R := St) w text) = code (status_ w).
Proof. unfold return_error, from_status, from_status_id. by rewrite code_to_status. Qed.

Lemma code_builder c m text :
  code (return_error (R := St) (StatusWriter_ctor (mk_status c m)) text) = c.
Proof. rewrite code_return_error. apply code_mk. Qed.

Lemma ok_return_error (w : StatusWriter St) text :
  ok (return_error (R := St) w text) = ok (status_ w).
Proof. unfold ok. by rewrite code_return_error. Qed.

(** A failed [RET_CHECK] is an error. *)
Lemma ok_ret_check condition file line text :
  ok (return_error (R := St) (ret_check_writer condition file line) text) = false.
Proof. rewrite ok_return_error. apply ok_false. unfold ret_check_writer, append_to. simpl. by rewrite code_mk. Qed.

(** Rules for the control operators: what they return, in terms of what the
    checked expression returns. *)
Lemma returns_if_error {S R} `{FromStatus St R} (expr : M S St) text (rest : M S R) s P Q :
  returns expr s P ->
  (forall st s', P st s' -> ok st = true -> returns rest s' Q) ->
  (forall st s' st', P st s' -> ok st = false -> ok st' = false -> code st' = code st ->
     Q (from_status st') s') ->
  returns (RETURN_IF_ERROR expr text rest) s Q.
Proof.
  intros He Hok Herr. unfold RETURN_IF_ERROR. eapply returns_bind; [exact He|].
  intros st s' HP. destruct (ok st) eqn:E; [by eapply Hok|]. apply returns_ret.
  eapply (Herr st s' (to_status (append_to (StatusWriter_ctor st) text))); [done..| |].
  - apply ok_false. rewrite code_to_status. by apply ok_false.
  - by rewrite code_to_status.
Qed.

Lemma returns_assign {S A R} `{FromStatus St R} (expr : M S (StatusOr St A)) text
    (rest : A -> M S R) s P Q :
  returns expr s P ->
  (forall a s', P (Value a) s' -> returns (rest a) s' Q) ->
  (forall st s' st', P (Error st) s' -> code st' = code st -> Q (from_status st') s') ->
  returns (ASSIGN_OR_RETURN expr text rest) s Q.
Proof.
  intros He Hok Herr. unfold ASSIGN_OR_RETURN. eapply returns_bind; [exact He|].
  intros [a|st] s' HP; [by apply Hok|]. apply returns_ret.
  eapply (Herr st s' (to_status (append_to (StatusWriter_ctor st) text))); [done|].
  by rewrite code_to_status.
Qed.

Lemma returns_builder {S R} `{FromStatus St R} c text (s : S) (Q : R -> S -> Prop) :
  c <> kOk -> (forall st, ok st = false -> code st = c -> Q (from_status st) s) ->
  returns (ret (return_error (StatusWriter_ctor (mk_status c [])) text)) s Q.
Proof.
  intros Hc HQ. apply returns_ret. refine (HQ (return_error (R := St) _ _) _ (code_builder _ _ _)).
  apply ok_false. by rewrite code_builder.
Qed.

(** The message of an error built with [XErrorBuilder() << text]. *)
Lemma message_builder c text :
  c <> kOk ->
  message (return_error (R := St) (StatusWriter_ctor (mk_status c [])) text) = text.
Proof.
  intros Hc. unfold return_error, from_status, from_status_id, to_status, append_to. simpl.
  destruct text as [|a text]; [by apply message_mk|].
  assert (ok (mk_status (St := St) c []) = false) as -> by (apply ok_false; by rewrite code_mk).
  rewrite message_Annotate by (by rewrite code_mk). by rewrite message_mk.
Qed.

(** Annotating an error keeps its code and every payload, and appends the
    annotation to its message after a ["; "] (or takes its place when the
    message was empty); annotating an OK status leaves it OK, without message
    or payload. *)
Theorem annotate_spec (s : St) (m : str) :
  code (Annotate s m) = code s /\
  payload_map (Annotate s m) = payload_map s /\
  message (Annotate s m) =
    if ok s then [] else join_message (message s) m.
Proof.
  rewrite code_Annotate, map_Annotate. split_and!; try done.
  destruct (ok s) eqn:E; [apply ok_true in E|apply ok_false in E].
  - apply message_ok. by rewrite code_Annotate.
  - by apply message_Annotate.
Qed.

(** An abstract status: what a caller can observe of a status. *)
Record view := View { v_code : status_code; v_message : str; v_payloads : gmap str str }.
Definition view_of (s : St) : view := View (code s) (message s) (payload_map s).

(** The abstract operation: the first error stays; later ones add their
    message and their payloads. *)
Definition view_update (v a : view) : view :=
  match v_code v with
  | kOk => a
  | c => View c (join_message (v_message v) (v_message a)) (v_payloads a ∪ v_payloads v)
  end.

Lemma view_UpdateOrAnnotate (s a : St) :
  view_of (UpdateOrAnnotate s a) = view_update (view_of s) (view_of a).
Proof.
  unfold UpdateOrAnnotate, view_update, view_of; simpl.
  destruct (ok s) eqn:E; [apply ok_true in E|apply ok_false in E].
  - by rewrite E, Update_ok.
  - rewrite code_set_payloads, message_set_payloads, code_Annotate, message_Annotate by done.
    rewrite map_set_payloads, map_Annotate by (rewrite ?code_Annotate; auto using payloads_names).
    destruct (code s); done.
Qed.

Lemma view_update_error v a : v_code v <> kOk -> v_code (view_update v a) = v_code v.
Proof. unfold view_update. destruct (v_code v) eqn:E; simpl; congruence. Qed.

(** C31: collecting statuses with [UpdateOrAnnotate], as the loops over files
    and the [set_last_error] methods do, computes the abstract accumulation:
    an OK status is replaced, and from the first error on the code is the code
    of that first error whatever follows. *)
Theorem update_or_annotate_refines (s0 : St) (l : list St) :
  view_of (foldl UpdateOrAnnotate s0 l) = foldl view_update (view_of s0) (view_of <$> l) /\
  (code s0 = kOk ->
   code (foldl UpdateOrAnnotate s0 l) =
   default kOk (head (filter (fun c => c <> kOk) (code <$> l)))).
Proof.
  assert (Hfold : forall s, view_of (foldl UpdateOrAnnotate s l) =
    foldl view_update (view_of s) (view_of <$> l)).
  { induction l as [|a l IH]; intros s; [done|]. simpl. by rewrite IH, view_UpdateOrAnnotate. }
  split; [apply Hfold|]. intros H0.
  assert (Hc : forall s, code (foldl UpdateOrAnnotate s l) =
    v_code (foldl view_update (view_of s) (view_of <$> l))) by (intros s; by rewrite <- Hfold).
  rewrite Hc. clear Hc Hfold.
  assert (Herr : forall v k, v_code v <> kOk -> v_code (foldl view_update v k) = v_code v).
  { intros v k. revert v. induction k as [|a k IH]; intros v Hv; [done|]. simpl.
    rewrite IH; rewrite ?view_update_error; done. }
  revert s0 H0. induction l as [|a l IH]; intros s0 H0; [done|]. simpl.
  assert (view_update (view_of s0) (view_of a) = view_of a) as ->
    by (unfold view_update; simpl; by rewrite H0).
  destruct (decide (code a = kOk)) as [Ha|Ha].
  - rewrite IH by done. by rewrite filter_cons_False by (rewrite Ha; auto).
  - rewrite Herr by done. by rewrite filter_cons_True.
Qed.
End Laws.

(** ** A reference instance *)

Module RefAbsl.

Record rstatus := mk { rcode : status_code; rmessage : str; rpayloads : gmap str str }.

Definition dec_of_Z (z : Z) : str := NilZero.string_of_int (Z.to_int z).
Definition Z_of_dec (s : str) : option Z :=
  d ← NilZero.int_of_string (string_of_list_ascii s);
  let z := Z.of_int d in
  if decide (0 <= z < 2 ^ 32) then Some z else None.

#[export] Instance ref_absl : Absl rstatus := {
  mk_status c m := mk c (if decide (c = kOk) then [] else m) ∅;
  code := rcode;
  message s := if decide (rcode s = kOk) then [] else rmessage s;
  payloads s := if decide (rcode s = kOk) then [] else map_to_list (rpayloads s);
  SetPayload s n v := mk (rcode s) (rmessage s) (<[n:=v]> (rpayloads s));
  status_Update s t := if decide (rcode s = kOk) then t else s;
  StrInt := dec_of_Z;
  SimpleAtoi32 := Z_of_dec
}.

Lemma Z_of_dec_of_Z n : 0 <= n < 2 ^ 32 -> Z_of_dec (dec_of_Z n) = Some n.
Proof.
  intros Hn. unfold Z_of_dec, dec_of_Z. rewrite string_of_list_ascii_of_string.
  rewrite NilZero.isi by (destruct n as [|p|p]; simpl;
    [discriminate|intros [=Hu]; by apply (DecimalPos.Unsigned.to_uint_nonnil p)|lia]).
  simpl. rewrite DecimalZ.of_to. by rewrite decide_True by lia.
Qed.

Lemma digits_of_uint (d : Decimal.uint) c :
  c ∈ list_ascii_of_string (NilEmpty.string_of_uint d) -> is_digit c = true.
Proof.
  induction d; simpl; [set_solver|..]; (intros [->|Hc]%elem_of_cons; [done|by apply IHd]).
Qed.

Lemma dec_of_Z_digits n c : 0 <= n -> c ∈ dec_of_Z n -> is_digit c = true.
Proof.
  intros Hn. unfold dec_of_Z. destruct n as [|p|p]; [|simpl|lia].
  - by intros ->%list_elem_of_singleton.
  - unfold NilZero.string_of_uint. destruct (Pos.to_uint p) eqn:E;
      [by intros ->%list_elem_of_singleton|rewrite <- E; apply digits_of_uint..].
Qed.

#[export] Instance ref_laws : AbslLaws rstatus.
Proof.
  split; unfold payload_map; simpl; intros.
  - done.
  - by rewrite !decide_False.
  - case_decide; [done|]. by rewrite map_to_list_empty.
  - by rewrite decide_True.
  - by rewrite decide_True.
  - case_decide; [constructor|]. apply NoDup_fst_map_to_list.
  - done.
  - done.
  - by rewrite !decide_False, !list_to_map_to_list.
  - by rewrite decide_True.
  - by apply Z_of_dec_of_Z.
  - by apply (dec_of_Z_digits n).
Qed.

End RefAbsl.

Import RefAbsl.

Lemma annotate_spec_witness :
  let s := SetPayload (mk_status (St := rstatus) kNotFound "A") "Y" "X_Y" in
  code (Annotate s "B") = kNotFound /\ message (Annotate s "B") = "A; B".
Proof.
  destruct (annotate_spec (SetPayload (mk_status (St := rstatus) kNotFound "A") "Y" "X_Y") "B")
    as (Hc & _ & Hm).
  split; [exact Hc|exact Hm].
Defined.

Lemma update_or_annotate_witness :
  let e1 := mk_status (St := rstatus) kNotFound "A" in
  let e2 := mk_status (St := rstatus) kInternal "B" in
  code (foldl UpdateOrAnnotate OkStatus [e1; e2]) = kNotFound.
Proof.
  exact (proj2 (update_or_annotate_refines (OkStatus : rstatus)
    [mk_status kNotFound "A"; mk_status kInternal "B"]) eq_refl).
Defined.

(** The macros, on the examples of [status_test.cc]. *)
Definition FWrap (make_error : bool) (msg : str) : M unit rstatus :=
  RETURN_IF_ERROR (ret (if make_error then mk_status kInvalidArgument "FWrap" else OkStatus))
    msg (ret OkStatus).

Example FWrap_error :
  exists s, FWrap true "A" tt = Ret s tt /\ code s = kInvalidArgument /\ message s = "FWrap; A".
Proof. eexists. split_and!; reflexivity. Qed.
