(* ===== verification/Errno.v ===== *)
(** * System errors ([whisperlib/io/errno.h], [whisperlib/io/errno.cc])

    The errno macros have their values on Linux.  [strerror_r] belongs to the C
    library: it is the class [Strerror], and both of its historical return
    conventions are covered, as the source covers them.  The global [errno] is
    an argument of the functions that read it. *)

From S2P Require Import Prelude Status.

(** ** [<errno.h>] *)

Definition EPERM : Z := 1.
Definition ENOENT : Z := 2.
Definition ESRCH : Z := 3.
Definition EINTR : Z := 4.
Definition EIO : Z := 5.
Definition ENXIO : Z := 6.
Definition E2BIG : Z := 7.
Definition ENOEXEC : Z := 8.
Definition EBADF : Z := 9.
Definition ECHILD : Z := 10.
Definition EAGAIN : Z := 11.
Definition EWOULDBLOCK : Z := 11.
Definition ENOMEM : Z := 12.
Definition EACCES : Z := 13.
Definition EFAULT : Z := 14.
Definition ENOTBLK : Z := 15.
Definition EBUSY : Z := 16.
Definition EEXIST : Z := 17.
Definition EXDEV : Z := 18.
Definition ENODEV : Z := 19.
Definition ENOTDIR : Z := 20.
Definition EISDIR : Z := 21.
Definition EINVAL : Z := 22.
Definition ENFILE : Z := 23.
Definition EMFILE : Z := 24.
Definition ENOTTY : Z := 25.
Definition ETXTBSY : Z := 26.
Definition EFBIG : Z := 27.
Definition ENOSPC : Z := 28.
Definition ESPIPE : Z := 29.
Definition EROFS : Z := 30.
Definition EMLINK : Z := 31.
Definition EPIPE : Z := 32.
Definition EDOM : Z := 33.
Definition ERANGE : Z := 34.
Definition EDEADLK : Z := 35.
Definition EDEADLOCK : Z := 35.
Definition ENAMETOOLONG : Z := 36.
Definition ENOLCK : Z := 37.
Definition ENOSYS : Z := 38.
Definition ENOTEMPTY : Z := 39.
Definition ELOOP : Z := 40.
Definition ENOMSG : Z := 42.
Definition EIDRM : Z := 43.
Definition ECHRNG : Z := 44.
Definition EL2NSYNC : Z := 45.
Definition EL3HLT : Z := 46.
Definition EL3RST : Z := 47.
Definition EUNATCH : Z := 49.
Definition EL2HLT : Z := 51.
Definition EBADE : Z := 52.
Definition EBADR : Z := 53.
Definition EXFULL : Z := 54.
Definition ENOANO : Z := 55.
Definition EBADRQC : Z := 56.
Definition EBADSLT : Z := 57.
Definition ENOSTR : Z := 60.
Definition ENODATA : Z := 61.
Definition ETIME : Z := 62.
Definition ENOSR : Z := 63.
Definition ENONET : Z := 64.
Definition ENOPKG : Z := 65.
Definition EREMOTE : Z := 66.
Definition ENOLINK : Z := 67.
Definition ECOMM : Z := 70.
Definition EPROTO : Z := 71.
Definition EMULTIHOP : Z := 72.
Definition EBADMSG : Z := 74.
Definition EOVERFLOW : Z := 75.
Definition ENOTUNIQ : Z := 76.
Definition EBADFD : Z := 77.
Definition EREMCHG : Z := 78.
Definition ELIBACC : Z := 79.
Definition ELIBBAD : Z := 80.
Definition ELIBSCN : Z := 81.
Definition ELIBMAX : Z := 82.
Definition ELIBEXEC : Z := 83.
Definition EILSEQ : Z := 84.
Definition ERESTART : Z := 85.
Definition ESTRPIPE : Z := 86.
Definition EUSERS : Z := 87.
Definition ENOTSOCK : Z := 88.
Definition EDESTADDRREQ : Z := 89.
Definition EMSGSIZE : Z := 90.
Definition EPROTOTYPE : Z := 91.
Definition ENOPROTOOPT : Z := 92.
Definition EPROTONOSUPPORT : Z := 93.
Definition ESOCKTNOSUPPORT : Z := 94.
Definition ENOTSUP : Z := 95.
Definition EOPNOTSUPP : Z := 95.
Definition EPFNOSUPPORT : Z := 96.
Definition EAFNOSUPPORT : Z := 97.
Definition EADDRINUSE : Z := 98.
Definition EADDRNOTAVAIL : Z := 99.
Definition ENETDOWN : Z := 100.
Definition ENETUNREACH : Z := 101.
Definition ENETRESET : Z := 102.
Definition ECONNABORTED : Z := 103.
Definition ECONNRESET : Z := 104.
Definition ENOBUFS : Z := 105.
Definition EISCONN : Z := 106.
Definition ENOTCONN : Z := 107.
Definition ESHUTDOWN : Z := 108.
Definition ETOOMANYREFS : Z := 109.
Definition ETIMEDOUT : Z := 110.
Definition ECONNREFUSED : Z := 111.
Definition EHOSTDOWN : Z := 112.
Definition EHOSTUNREACH : Z := 113.
Definition EALREADY : Z := 114.
Definition EINPROGRESS : Z := 115.
Definition ESTALE : Z := 116.
Definition EUCLEAN : Z := 117.
Definition EISNAM : Z := 120.
Definition EREMOTEIO : Z := 121.
Definition EDQUOT : Z := 122.
Definition ENOMEDIUM : Z := 123.
Definition EMEDIUMTYPE : Z := 124.
Definition ECANCELED : Z := 125.
Definition ENOKEY : Z := 126.
Definition EKEYEXPIRED : Z := 127.
Definition EKEYREVOKED : Z := 128.
Definition EKEYREJECTED : Z := 129.
Definition EOWNERDEAD : Z := 130.
Definition ENOTRECOVERABLE : Z := 131.
Definition ERFKILL : Z := 132.
Definition EHWPOISON : Z := 133.

(** ** Names *)

(** The XSI [strerror_r] returns an int and fills the buffer; the GNU one
    returns a pointer and may leave the buffer alone. *)
Inductive strerror_result :=
| Xsi (rc : Z) (buffer : str)
| Gnu (result : option str) (buffer : str).

Class Strerror := strerror_r : Z -> strerror_result.

(** [ErrorBuffer<int>] and [ErrorBuffer<char*>] *)
Definition ErrorBuffer (r : strerror_result) : str :=
  match r with
  | Xsi result buffer =>
      if decide (result = 0) then buffer else "{No errno description found.}"
  | Gnu result buffer =>
      match result with
      | None => buffer
      | Some _ => "{No errno description found.}"
      end
  end.

(** A [switch] whose cases return a string. *)
Definition switch_str (cases : list (Z * str)) (e : Z) : option str :=
  (fun r => r.2.2) <$> list_find (fun c => c.1 = e) cases.

(** The first switch of [ErrnoName]. *)
Definition errno_cases_E2BIG : list (Z * str) :=
  [(E2BIG, "E2BIG" : str); (EACCES, "EACCES" : str);
   (EADDRINUSE, "EADDRINUSE" : str); (EADDRNOTAVAIL, "EADDRNOTAVAIL" : str);
   (EAFNOSUPPORT, "EAFNOSUPPORT" : str); (EAGAIN, "EAGAIN" : str);
   (EALREADY, "EALREADY" : str); (EBADE, "EBADE" : str); (EBADF, "EBADF" : str);
   (EBADFD, "EBADFD" : str); (EBADMSG, "EBADMSG" : str); (EBADR, "EBADR" : str);
   (EBADRQC, "EBADRQC" : str); (EBADSLT, "EBADSLT" : str); (EBUSY, "EBUSY" : str);
   (ECANCELED, "ECANCELED" : str); (ECHILD, "ECHILD" : str);
   (ECHRNG, "ECHRNG" : str); (ECOMM, "ECOMM" : str);
   (ECONNABORTED, "ECONNABORTED" : str); (ECONNREFUSED, "ECONNREFUSED" : str);
   (ECONNRESET, "ECONNRESET" : str); (EDEADLK, "EDEADLK" : str);
   (EDESTADDRREQ, "EDESTADDRREQ" : str); (EDOM, "EDOM" : str);
   (EDQUOT, "EDQUOT" : str); (EEXIST, "EEXIST" : str); (EFAULT, "EFAULT" : str);
   (EFBIG, "EFBIG" : str); (EHOSTDOWN, "EHOSTDOWN" : str);
   (EHOSTUNREACH, "EHOSTUNREACH" : str); (EHWPOISON, "EHWPOISON" : str);
   (EIDRM, "EIDRM" : str); (EILSEQ, "EILSEQ" : str);
   (EINPROGRESS, "EINPROGRESS" : str); (EINTR, "EINTR" : str);
   (EINVAL, "EINVAL" : str); (EIO, "EIO" : str); (EISCONN, "EISCONN" : str);
   (EISDIR, "EISDIR" : str)].

Definition errno_cases_EISNAM : list (Z * str) :=
  [(EISNAM, "EISNAM" : str); (EKEYEXPIRED, "EKEYEXPIRED" : str);
   (EKEYREJECTED, "EKEYREJECTED" : str); (EKEYREVOKED, "EKEYREVOKED" : str);
   (EL2HLT, "EL2HLT" : str); (EL2NSYNC, "EL2NSYNC" : str);
   (EL3HLT, "EL3HLT" : str); (EL3RST, "EL3RST" : str); (ELIBACC, "ELIBACC" : str);
   (ELIBBAD, "ELIBBAD" : str); (ELIBEXEC, "ELIBEXEC" : str);
   (ELIBMAX, "ELIBMAX" : str); (ELIBSCN, "ELIBSCN" : str); (ELOOP, "ELOOP" : str);
   (EMEDIUMTYPE, "EMEDIUMTYPE" : str); (EMFILE, "EMFILE" : str);
   (EMLINK, "EMLINK" : str); (EMSGSIZE, "EMSGSIZE" : str);
   (EMULTIHOP, "EMULTIHOP" : str); (ENAMETOOLONG, "ENAMETOOLONG" : str);
   (ENETDOWN, "ENETDOWN" : str); (ENETRESET, "ENETRESET" : str);
   (ENETUNREACH, "ENETUNREACH" : str); (ENFILE, "ENFILE" : str);
   (ENOANO, "ENOANO" : str); (ENOBUFS, "ENOBUFS" : str);
   (ENODATA, "ENODATA" : str); (ENODEV, "ENODEV" : str); (ENOENT, "ENOENT" : str);
   (ENOEXEC, "ENOEXEC" : str); (ENOKEY, "ENOKEY" : str); (ENOLCK, "ENOLCK" : str);
   (ENOLINK, "ENOLINK" : str); (ENOMEDIUM, "ENOMEDIUM" : str);
   (ENOMEM, "ENOMEM" : str); (ENOMSG, "ENOMSG" : str); (ENONET, "ENONET" : str);
   (ENOPKG, "ENOPKG" : str); (ENOPROTOOPT, "ENOPROTOOPT" : str);
   (ENOSPC, "ENOSPC" : str); (ENOSR, "ENOSR" : str); (ENOSTR, "ENOSTR" : str);
   (ENOSYS, "ENOSYS" : str); (ENOTBLK, "ENOTBLK" : str);
   (ENOTCONN, "ENOTCONN" : str); (ENOTDIR, "ENOTDIR" : str);
   (ENOTEMPTY, "ENOTEMPTY" : str); (ENOTRECOVERABLE, "ENOTRECOVERABLE" : str);
   (ENOTSOCK, "ENOTSOCK" : str); (ENOTSUP, "ENOTSUP" : str);
   (ENOTTY, "ENOTTY" : str); (ENOTUNIQ, "ENOTUNIQ" : str); (ENXIO, "ENXIO" : str);
   (EOVERFLOW, "EOVERFLOW" : str); (EOWNERDEAD, "EOWNERDEAD" : str);
   (EPERM, "EPERM" : str); (EPFNOSUPPORT, "EPFNOSUPPORT" : str);
   (EPIPE, "EPIPE" : str); (EPROTO, "EPROTO" : str);
   (EPROTONOSUPPORT, "EPROTONOSUPPORT" : str); (EPROTOTYPE, "EPROTOTYPE" : str);
   (ERANGE, "ERANGE" : str); (EREMCHG, "EREMCHG" : str);
   (EREMOTE, "EREMOTE" : str); (EREMOTEIO, "EREMOTEIO" : str);
   (ERESTART, "ERESTART" : str); (ERFKILL, "ERFKILL" : str);
   (EROFS, "EROFS" : str); (ESHUTDOWN, "ESHUTDOWN" : str);
   (ESOCKTNOSUPPORT, "ESOCKTNOSUPPORT" : str); (ESPIPE, "ESPIPE" : str);
   (ESRCH, "ESRCH" : str); (ESTALE, "ESTALE" : str); (ESTRPIPE, "ESTRPIPE" : str);
   (ETIME, "ETIME" : str); (ETIMEDOUT, "ETIMEDOUT" : str);
   (ETOOMANYREFS, "ETOOMANYREFS" : str); (ETXTBSY, "ETXTBSY" : str);
   (EUCLEAN, "EUCLEAN" : str); (EUNATCH, "EUNATCH" : str);
   (EUSERS, "EUSERS" : str); (EXDEV, "EXDEV" : str); (EXFULL, "EXFULL" : str)].

(** The second switch: macros that may repeat a value of the first. *)
Definition errno_cases_dup : list (Z * str) :=
  [(EDEADLOCK, "EDEADLOCK" : str); (EOPNOTSUPP, "EOPNOTSUPP" : str);
   (EWOULDBLOCK, "EWOULDBLOCK" : str)].

Definition ErrnoName (error : Z) : str :=
  match switch_str (errno_cases_E2BIG ++ errno_cases_EISNAM) error with
  | Some name => name
  | None => default [] (switch_str errno_cases_dup error)
  end.

Section Errno.
Context {St : Type} `{Absl St} `{Strerror}.

Definition ErrnoToString (error : Z) : str :=
  "Errno: " ++ StrInt error ++ " [" ++ ErrnoName error ++ "] "
    ++ ErrorBuffer (strerror_r error) ++ " ".

Definition IsUnavailableAndShouldRetry (error : Z) : bool :=
  bool_decide (error = EWOULDBLOCK) || bool_decide (error = EAGAIN).

(** The switch of [ErrnoToStatus]. *)
Definition errno_code (e : Z) : status_code :=
  if decide (e ∈ [EAGAIN; EADDRNOTAVAIL]) then kUnavailable
  else if decide (e ∈ [ECANCELED]) then kCancelled
  else if decide (e ∈ [EACCES; EPERM]) then kPermissionDenied
  else if decide (e ∈ [ECHRNG; ERANGE]) then kOutOfRange
  else if decide (e ∈ [EBADE; EBADF; EBADFD; EBADMSG; EBADR; EBADRQC; EBADSLT;
                       EDESTADDRREQ; EDOM; EMSGSIZE; ENAMETOOLONG; EISDIR; EINVAL;
                       EISNAM; E2BIG; EFBIG; ENOTSOCK; ENXIO]) then kInvalidArgument
  else if decide (e ∈ [ECONNABORTED]) then kAborted
  else if decide (e ∈ [EADDRINUSE; EEXIST]) then kAlreadyExists
  else if decide (e ∈ [ENOENT; ESRCH]) then kNotFound
  else if decide (e ∈ [ENFILE; EDQUOT; EMLINK; EMFILE; ENOSPC; EUSERS; EXFULL;
                       ENOLCK; ENOMEM]) then kResourceExhausted
  else if decide (e ∈ [ESOCKTNOSUPPORT; EAFNOSUPPORT; ENOPROTOOPT; ENOSYS; ENOTSUP;
                       EPFNOSUPPORT; EPROTONOSUPPORT]) then kUnimplemented
  else kInternal.

(** [ErrnoToStatus(error)], when the global [errno] holds [errno].  The switch
    is on the global, not on the argument. *)
Definition ErrnoToStatus (errno error : Z) : StatusWriter St :=
  let error_str := ErrnoToString error in
  let error := if decide (error = EWOULDBLOCK) then EAGAIN else error in
  append_to (StatusWriter_ctor (mk_status (errno_code errno) [])) error_str.

(** [return error::ErrnoToStatus(error) << text;] *)
Definition return_errno {R} `{FromStatus St R} (errno error : Z) (text : str) : R :=
  return_error (ErrnoToStatus errno error) text.

(** ** Correctness *)

Lemma errno_code_not_ok e : errno_code e <> kOk.
Proof. unfold errno_code. repeat case_decide; done. Qed.

Lemma code_return_errno `{!AbslLaws St} errno error text :
  code (return_errno (R := St) errno error text) = errno_code errno.
Proof. unfold return_errno. rewrite code_return_error. apply code_mk. Qed.

Lemma ok_return_errno `{!AbslLaws St} errno error text :
  ok (return_errno (R := St) errno error text) = false.
Proof. apply ok_false. rewrite code_return_errno. apply errno_code_not_ok. Qed.

(** A status made from a system error is never OK; its message is the
    description of the error passed, then the text streamed to it; and its
    code is decided by the global [errno] alone, so it is the code of the
    error passed exactly when the two are classified alike - as they are when
    the caller passes [errno] itself. *)
Theorem errno_to_status_spec `{!AbslLaws St} (errno error : Z) (text : str) :
  let s := return_errno (R := St) errno error text in
  ok s = false /\
  message s = ErrnoToString error ++ text /\
  code s = errno_code errno /\
  (code s = errno_code error <-> errno_code errno = errno_code error) /\
  (errno = error -> code s = errno_code error).
Proof.
  simpl. rewrite ok_return_errno, code_return_errno. split_and!; try done; [|by intros ->].
  unfold return_errno, ErrnoToStatus.
  change (return_error (append_to (StatusWriter_ctor (mk_status (errno_code errno) []))
            (ErrnoToString error)) text)
    with (return_error (R := St) (StatusWriter_ctor (mk_status (errno_code errno) []))
            (ErrnoToString error ++ text)).
  apply message_builder, errno_code_not_ok.
Qed.

(** With the GNU [strerror_r], which never returns a null pointer, the
    description found by the C library is always dropped. *)
Lemma gnu_description_dropped (error : Z) (text buffer : str) :
  strerror_r error = Gnu (Some text) buffer ->
  ErrnoToString error =
  "Errno: " ++ StrInt error ++ " [" ++ ErrnoName error ++ "] {No errno description found.} ".
Proof. intros E. unfold ErrnoToString. by rewrite E. Qed.
End Errno.

Definition errno_names : list (Z * str) := errno_cases_E2BIG ++ errno_cases_EISNAM.

Lemma errno_names_distinct : NoDup errno_names.*1 /\ NoDup errno_names.*2 /\ [] ∉ errno_names.*2.
Proof. split_and!; apply (bool_decide_unpack _); vm_compute; done. Qed.

Lemma errno_dup_covered : Forall (fun c => c.1 ∈ errno_names.*1) errno_cases_dup.
Proof. apply (bool_decide_unpack _). vm_compute. done. Qed.

Lemma switch_str_Some cases e name : switch_str cases e = Some name -> (e, name) ∈ cases.
Proof.
  unfold switch_str. intros ([i [e' n]] & Hf & ->)%fmap_Some.
  apply list_find_Some in Hf as (Hl & Heq & _). simpl in *. subst.
  by apply list_elem_of_lookup_2 with i.
Qed.

Lemma switch_str_None cases e : switch_str cases e = None -> e ∉ cases.*1.
Proof.
  unfold switch_str. intros Hf%fmap_None. apply list_find_None in Hf.
  intros ([e' n] & -> & Hin)%list_elem_of_fmap. rewrite Forall_forall in Hf. by apply (Hf _ Hin).
Qed.

Lemma ErrnoName_eq e : ErrnoName e = default [] (switch_str errno_names e).
Proof.
  unfold ErrnoName. fold errno_names. destruct (switch_str errno_names e) eqn:E; [done|]. simpl.
  destruct (switch_str errno_cases_dup e) eqn:D; [|done]. exfalso.
  apply switch_str_None in E. apply switch_str_Some in D.
  pose proof errno_dup_covered as Hc. rewrite Forall_forall in Hc. by apply E, (Hc _ D).
Qed.

Lemma ErrnoName_known e : ErrnoName e <> [] -> (e, ErrnoName e) ∈ errno_names.
Proof.
  rewrite ErrnoName_eq. destruct (switch_str errno_names e) eqn:E; [|done]. simpl.
  intros _. by apply switch_str_Some.
Qed.

Lemma NoDup_snd_inj {A B} (l : list (A * B)) a a' b :
  NoDup l.*2 -> (a, b) ∈ l -> (a', b) ∈ l -> a = a'.
Proof.
  intros Hnd (i & Hi)%list_elem_of_lookup (j & Hj)%list_elem_of_lookup.
  assert (i = j) as ->.
  { eapply NoDup_lookup; [done| |]; rewrite list_lookup_fmap; [by rewrite Hi|by rewrite Hj]. }
  congruence.
Qed.

(** The symbolic name printed for an error identifies it: two numbers
    that are given the same non-empty name are equal, and a number has a
    non-empty name exactly when it is one of the cases of the first switch
    (the macros of the second switch only repeat those values, so that switch
    is never what names an error). *)
Theorem errno_name_injective :
  (forall e1 e2, ErrnoName e1 <> [] -> ErrnoName e1 = ErrnoName e2 -> e1 = e2) /\
  (forall e, ErrnoName e <> [] <-> e ∈ errno_names.*1).
Proof.
  destruct errno_names_distinct as (_ & Hn & He). split.
  - intros e1 e2 H1 H12. apply ErrnoName_known in H1 as K1.
    rewrite H12 in H1. apply ErrnoName_known in H1. rewrite H12 in K1.
    by apply (NoDup_snd_inj _ _ _ _ Hn K1).
  - intros e. split.
    + intros H%ErrnoName_known. apply list_elem_of_fmap. by exists (e, ErrnoName e).
    + rewrite ErrnoName_eq. intros Hin. destruct (switch_str errno_names e) as [n|] eqn:E; simpl.
      * apply switch_str_Some in E. intros ->. apply He, list_elem_of_fmap. by exists (e, []).
      * by apply switch_str_None in E.
Qed.

(** ** Witness *)

Import RefAbsl.

#[local] Instance ref_strerror : Strerror := fun _ => Xsi 0 "text".

Lemma errno_to_status_spec_witness :
  let s := return_errno (St := rstatus) (R := rstatus) ENOENT ENOENT "opening" in
  ok s = false /\ code s = kNotFound /\
  message s = "Errno: 2 [ENOENT] text opening".
Proof.
  destruct (errno_to_status_spec (St := rstatus) ENOENT ENOENT "opening")
    as (Ho & Hm & Hc & _).
  split_and!; [exact Ho|exact Hc|exact Hm].
Defined.
