(* ===== verification/Path.v ===== *)
(** * File paths ([whisperlib/io/path.h], [whisperlib/io/path.cc])

    Paths are strings; positions in them are naturals.  The [while (true)]
    loops of [Normalize] run on fuel: a result [None] would mean that the fuel
    ran out, and [normalize_terminates] shows that it never does.  The meaning
    of a path is the stack of directory names it resolves to ([resolve]). *)

From S2P Require Import Prelude.

(** ** [std::string] searches *)

(** [s.find(pat)] *)
Fixpoint find (pat s : str) : option nat :=
  if bool_decide (pat `prefix_of` s) then Some 0%nat
  else match s with
       | [] => None
       | _ :: s' => S <$> find pat s'
       end.

(** [s.find(pat, pos)] *)
Definition find_pos (pat : str) (pos : nat) (s : str) : option nat :=
  if decide (pos <= length s)%nat then Nat.add pos <$> find pat (drop pos s) else None.

(** [s.rfind(pat)] *)
Fixpoint rfind (pat s : str) : option nat :=
  match s with
  | [] => if bool_decide (pat = []) then Some 0%nat else None
  | _ :: s' =>
      match rfind pat s' with
      | Some i => Some (S i)
      | None => if bool_decide (pat `prefix_of` s) then Some 0%nat else None
      end
  end.

(** [s.find_last_of(c, pos)] *)
Definition find_last_of (c : ascii) (pos : nat) (s : str) : option nat :=
  rfind [c] (take (S pos) s).

(** ** The functions of [path.cc] *)

Definition kDirSeparator : ascii := "/".

Definition Basename (path : str) : str :=
  match rfind [kDirSeparator] path with
  | None => path
  | Some pos => drop (pos + 1) path
  end.

Definition Dirname (path : str) : str :=
  match rfind [kDirSeparator] path with
  | None => []
  | Some pos => take pos path
  end.

Definition Join (path1 path2 : str) (path_separator : ascii) : str :=
  match path1, path2 with
  | [], _ => path2
  | _, [] => path1
  | c1 :: _, c2 :: _ =>
      if bool_decide (length path1 = 1%nat /\ c1 = path_separator)
         || bool_decide (c2 = path_separator)
         || bool_decide (last path1 = Some path_separator)
      then path1 ++ path2
      else path1 ++ [path_separator] ++ path2
  end.

(** [Join(path1, path2)] and [Join(path1, path2, path3)] *)
Definition Join2 (path1 path2 : str) : str := Join path1 path2 kDirSeparator.
Definition Join3 (path1 path2 path3 : str) : str := Join2 (Join2 path1 path2) path3.

(** [Join(absl::Span)] and [Join(std::initializer_list)] *)
Definition JoinAll (paths : list str) : str :=
  foldl (fun result_path path => Join2 result_path path) [] paths.

Section Normalize.
Context (sep : ascii).

Definition triple_sep : str := [sep; sep; sep].
Definition double_sep : str := [sep; sep].
Definition sep_dot_sep : str := [sep; "."%char; sep].
Definition sep_dotdot_sep : str := [sep; "."%char; "."%char; sep].
Definition sep_dot : str := [sep; "."%char].
Definition sep_dotdot : str := [sep; "."%char; "."%char].

(** The loops that delete [k] characters where [search] finds its pattern. *)
Fixpoint collapse (fuel : nat) (search : str -> option nat) (k : nat) (s : str) : option str :=
  match fuel with
  | O => None
  | S fuel =>
      match search s with
      | None => Some s
      | Some index => collapse fuel search k (take index s ++ drop (index + k) s)
      end
  end.

(** The loop that resolves ["/../"]: it may return from [Normalize]. *)
Inductive loop_result := Broke (s : str) | Returned.

Fixpoint resolve_dotdot (fuel : nat) (s : str) : option loop_result :=
  match fuel with
  | O => None
  | S fuel =>
      match find sep_dotdot_sep s with
      | None => Some (Broke s)
      | Some index =>
          if decide (index = 0%nat) then Some Returned
          else match find_last_of sep (index - 1) s with
               | None => Some Returned
               | Some index2 => resolve_dotdot fuel (take index2 s ++ drop (index + 3) s)
               end
      end
  end.

(** The two blocks that resolve an ending ["/."] and ["/.."]. *)
Definition resolve_ending_dot (s : str) : str :=
  match rfind sep_dot s with
  | Some index => if decide (index = length s - 2)%nat then take index s else s
  | None => s
  end.

Definition resolve_ending_dotdot (s : str) : loop_result :=
  match rfind sep_dotdot s with
  | Some index =>
      if decide (index = length s - 3)%nat then
        if decide (index = 0%nat) then Returned
        else match find_last_of sep (index - 1) s with
             | None => Returned
             | Some index2 => Broke (take index2 s)
             end
      else Broke s
  | None => Broke s
  end.

Definition backslash : ascii := "\".

(** The loop over the characters that replaces the backslashes. *)
Definition convert (path : str) : str :=
  (fun c => if bool_decide (c = backslash) then sep else c) <$> path.

Definition Normalize (path : str) : option str :=
  let s := convert path in
  let slash_added := negb (bool_decide (default "000"%char (head s) = sep)) in
  let root := if slash_added then [] else [sep] in
  let s := if slash_added then sep :: s else s in
  s ← collapse (S (length s)) (find triple_sep) 2 s;
  s ← collapse (S (length s)) (find_pos double_sep 1) 1 s;
  s ← collapse (S (length s)) (find sep_dot_sep) 2 s;
  r ← resolve_dotdot (S (length s)) s;
  match r with
  | Returned => Some root
  | Broke s =>
      match resolve_ending_dotdot (resolve_ending_dot s) with
      | Returned => Some root
      | Broke s =>
          let s := if negb slash_added && bool_decide (s = []) then [sep] else s in
          if negb slash_added || bool_decide (s = []) then Some s else Some (drop 1 s)
      end
  end.
End Normalize.

(** A sample of [path_test.cc]. *)
Example normalize_tests :
  Forall (fun '(p, r) => Normalize "/" p = Some r)
    (prod_map list_ascii_of_string list_ascii_of_string <$>
     [("", ""); ("/", "/"); ("//", "//"); ("///", "/"); ("foo/", "foo/"); ("..", "");
      ("/../f", "/"); ("../f", ""); ("foo/...", "foo/..."); ("foo/bar/../", "foo/");
      ("foo/bar/blah/../../bletch", "foo/bletch"); ("//net/..", "/"); ("//net/foo/..", "//net");
      ("//net//foo//..//", "//net/"); ("///net///foo///bar///", "/net/foo/bar/");
      ("foo/../../..", "")])%string.
Proof. apply (bool_decide_unpack _). vm_compute. done. Qed.

(** ** Searches find what they say *)

Definition occurs (pat s : str) : Prop := exists A B, s = A ++ pat ++ B.

Lemma occurs_app_l pat s t : occurs pat s -> occurs pat (s ++ t).
Proof. intros (A & B & ->). exists A, (B ++ t). by rewrite <- !app_assoc. Qed.

Lemma occurs_app_r pat s t : occurs pat t -> occurs pat (s ++ t).
Proof. intros (A & B & ->). exists (s ++ A), B. by rewrite <- !app_assoc. Qed.

Lemma occurs_cons pat c s : occurs pat s -> occurs pat (c :: s).
Proof. apply (occurs_app_r pat [c]). Qed.

Lemma occurs_cons_inv pat c s : occurs pat (c :: s) -> pat `prefix_of` c :: s \/ occurs pat s.
Proof.
  intros ([|a A] & B & E); simplify_eq/=; [left; by exists B|right; by exists A, B].
Qed.

Lemma find_Some pat s i :
  find pat s = Some i ->
  exists A B, s = A ++ pat ++ B /\ length A = i /\
    (forall A' B', s = A' ++ pat ++ B' -> (i <= length A')%nat).
Proof.
  revert i. induction s as [|c s IH]; intros i; simpl; case_bool_decide as Hp; try done.
  - intros [=<-]. destruct Hp as [B ->]. exists [], B. split_and!; [done..|]. lia.
  - intros [=<-]. destruct Hp as [B E]. exists [], B. split_and!; [done..|]. lia.
  - intros (j & Hj & ->)%fmap_Some. apply IH in Hj as (A & B & -> & <- & Hf).
    exists (c :: A), B. split_and!; [done..|]. intros [|a A'] B' E; simplify_eq/=.
    + destruct Hp. exists B'. done.
    + apply le_n_S, (Hf _ B'). done.
Qed.

Lemma find_None pat s : find pat s = None <-> ~ occurs pat s.
Proof.
  induction s as [|c s IH]; simpl; case_bool_decide as Hp.
  - split; [done|]. intros []. destruct Hp as [B ->]. by exists [], B.
  - split; [|done]. intros _ (A & B & E). apply Hp. symmetry in E.
    apply app_eq_nil in E as [_ [-> ->]%app_eq_nil]. done.
  - split; [done|]. intros []. destruct Hp as [B E]. by exists [], B.
  - rewrite fmap_None, IH. split.
    + intros Hn [|]%occurs_cons_inv; done.
    + intros Hn Ho. by apply Hn, occurs_cons.
Qed.

Lemma find_pos_None pat c s : find_pos pat 1 (c :: s) = None <-> ~ occurs pat s.
Proof.
  unfold find_pos. rewrite decide_True by (simpl; lia). simpl.
  rewrite drop_0, fmap_None. apply find_None.
Qed.

Lemma find_pos_Some pat c s i :
  find_pos pat 1 (c :: s) = Some i ->
  exists A B, s = A ++ pat ++ B /\ i = S (length A).
Proof.
  unfold find_pos. rewrite decide_True by (simpl; lia). simpl. rewrite drop_0.
  intros (j & (A & B & -> & <- & _)%find_Some & ->)%fmap_Some. by exists A, B.
Qed.

Lemma rfind_Some pat s i :
  rfind pat s = Some i ->
  exists A B, s = A ++ pat ++ B /\ length A = i /\
    (forall A' B', s = A' ++ pat ++ B' -> (length A' <= i)%nat).
Proof.
  revert i. induction s as [|c s IH]; intros i; simpl.
  - case_bool_decide as Hp; [|done]. intros [=<-]. subst. exists [], []. split_and!; [done..|].
    intros A' B' E. symmetry in E. apply app_eq_nil in E as [-> _]. done.
  - destruct (rfind pat s) as [j|] eqn:Hj.
    + intros [=<-]. destruct (IH _ eq_refl) as (A & B & -> & <- & Hl).
      exists (c :: A), B. split_and!; [done..|]. intros [|a A'] B' E; simplify_eq/=; [lia|].
      apply le_n_S, (Hl _ B'). done.
    + case_bool_decide as Hp; [|done]. intros [=<-]. destruct Hp as [B E].
      exists [], B. split_and!; [done..|]. intros [|a A'] B' E'; simpl; [lia|].
      exfalso. simplify_eq/=. clear -Hj. induction A' as [|a A' IH].
      * destruct (pat ++ B') as [|x l] eqn:Ep; simpl in Hj.
        -- by apply app_eq_nil in Ep as [-> ->].
        -- destruct (rfind pat l); [done|]. rewrite bool_decide_eq_true_2 in Hj; [done|].
           rewrite <- Ep. by apply prefix_app_r.
      * apply IH. simpl in Hj. destruct (rfind pat (A' ++ pat ++ B')); done.
Qed.

Lemma rfind_None pat s : rfind pat s = None -> ~ occurs pat s.
Proof.
  intros Hj (A & B & ->). induction A as [|a A IH]; simpl in Hj.
  - destruct (pat ++ B) as [|x l] eqn:Ep; simpl in Hj.
    + by apply app_eq_nil in Ep as [-> ->].
    + destruct (rfind pat l); [done|]. rewrite bool_decide_eq_true_2 in Hj; [done|].
      rewrite <- Ep. by apply prefix_app_r.
  - apply IH. destruct (rfind pat (A ++ pat ++ B)); done.
Qed.

(** Searching backwards for a character splits around its last occurrence. *)
Lemma rfind_char c s :
  match rfind [c] s with
  | Some i => exists A B, s = A ++ c :: B /\ c ∉ B /\ length A = i
  | None => c ∉ s
  end.
Proof.
  destruct (rfind [c] s) as [i|] eqn:E.
  - apply rfind_Some in E as (A & B & -> & <- & Hl). exists A, B. split_and!; [done| |done].
    intros (B1 & B2 & ->)%list_elem_of_split.
    specialize (Hl (A ++ c :: B1) B2). simpl in Hl. rewrite <- app_assoc in Hl.
    specialize (Hl eq_refl). rewrite length_app in Hl. simpl in Hl. lia.
  - apply rfind_None in E. intros (A & B & ->)%list_elem_of_split. apply E. by exists A, B.
Qed.

(** [find_last_of] in a string whose prefix before [pos] is [P]. *)
Lemma find_last_of_app c P Q :
  P <> [] ->
  match find_last_of c (length P - 1) (P ++ Q) with
  | Some i => exists A Z, P = A ++ c :: Z /\ c ∉ Z /\ length A = i
  | None => c ∉ P
  end.
Proof.
  intros HP. unfold find_last_of.
  replace (S (length P - 1)) with (length P) by (destruct P; simpl; [done|lia]).
  rewrite take_app_length. apply rfind_char.
Qed.

(** Deleting the text between two positions of a string given by its parts. *)
Lemma take_drop_delete (A D B : str) n :
  n = length D -> take (length A) (A ++ D ++ B) ++ drop (length A + n) (A ++ D ++ B) = A ++ B.
Proof.
  intros ->. rewrite take_app_length, drop_app_add. by rewrite drop_app_length.
Qed.

(** ** The loops terminate *)

Lemma collapse_inv (P : str -> Prop) (search : str -> option nat) k :
  (0 < k)%nat ->
  (forall s i, P s -> search s = Some i ->
     (i + k <= length s)%nat /\ P (take i s ++ drop (i + k) s)) ->
  forall fuel s, (length s < fuel)%nat -> P s ->
  exists s', collapse fuel search k s = Some s' /\ P s' /\ search s' = None.
Proof.
  intros Hk Hstep. induction fuel as [|fuel IH]; intros s Hf Hs; [lia|]. simpl.
  destruct (search s) as [i|] eqn:E; [|by exists s].
  destruct (Hstep s i Hs E) as [Hi Hs']. apply IH; [|done].
  rewrite length_app, length_take, length_drop. lia.
Qed.

(** How the ["/../"] loop can end. *)
Definition dotdot_post (sep : ascii) (P : str -> Prop) (r : loop_result) : Prop :=
  match r with
  | Broke s => P s /\ find (sep_dotdot_sep sep) s = None
  | Returned =>
      exists s i, P s /\ find (sep_dotdot_sep sep) s = Some i /\
        (i = 0%nat \/ (i <> 0%nat /\ find_last_of sep (i - 1) s = None))
  end.

Lemma resolve_dotdot_inv sep (P : str -> Prop) :
  (forall s i i2, P s -> find (sep_dotdot_sep sep) s = Some i -> i <> 0%nat ->
     find_last_of sep (i - 1) s = Some i2 -> P (take i2 s ++ drop (i + 3) s)) ->
  forall fuel s, (length s < fuel)%nat -> P s ->
  exists r, resolve_dotdot sep fuel s = Some r /\ dotdot_post sep P r.
Proof.
  intros Hstep. induction fuel as [|fuel IH]; intros s Hf Hs; [lia|]. simpl.
  destruct (find (sep_dotdot_sep sep) s) as [i|] eqn:E; [|by exists (Broke s)].
  case_decide as Hi; [subst; exists Returned; split; [done|]; exists s, 0%nat; auto|].
  destruct (find_last_of sep (i - 1) s) as [i2|] eqn:E2;
    [|exists Returned; split; [done|]; exists s, i; auto 6].
  apply IH; [|by eapply Hstep].
  destruct (find_Some _ _ _ E) as (A & B & -> & <- & _). rewrite length_app, length_take, length_drop.
  pose proof (find_last_of_app sep A (sep_dotdot_sep sep ++ B)) as Hl.
  rewrite E2 in Hl. destruct Hl as (A' & Z & -> & _ & <-); [by destruct A|].
  revert Hf. rewrite !length_app. simpl. lia.
Qed.

(** ** What the loops keep

    The separator is a section variable; a pattern between two separators has
    no separator inside. *)
Section Sep.
Context (sep : ascii).

Lemma occurs_straddle q A B :
  sep ∉ q ->
  occurs (sep :: q ++ [sep]) (A ++ sep :: B) ->
  occurs (sep :: q ++ [sep]) (A ++ [sep]) \/ occurs (sep :: q ++ [sep]) (sep :: B).
Proof.
  intros Hq (U & V & E). symmetry in E.
  apply app_eq_inv in E as [(k & -> & E)|(k & -> & E)]; [by right; exists k, V|].
  destruct k as [|a k]; [right; exists [], V; rewrite app_nil_l; done|].
  simpl in E. injection E as <- E.
  apply app_eq_inv in E as [(k' & Ek & EB)|(k' & -> & EB)].
  - destruct k' as [|x k'].
    + left. rewrite app_nil_r in Ek. apply occurs_app_l. exists U, [].
      by rewrite app_nil_r, Ek.
    + left. simpl in EB. injection EB as <- EB.
      assert (k' = []) as ->.
      { destruct k' as [|y k' _] using rev_ind; [done|]. exfalso.
        change (k ++ sep :: k' ++ [y]) with (k ++ (sep :: k') ++ [y]) in Ek.
        rewrite app_assoc in Ek. apply app_inj_tail in Ek as [-> _]. apply Hq. set_solver. }
      exists U, []. rewrite app_nil_r, Ek, <- app_assoc. done.
  - left. exists U, (k' ++ [sep]). repeat (rewrite <- ?app_assoc; simpl). done.
Qed.

Lemma occurs_delete q A M B :
  sep ∉ q ->
  occurs (sep :: q ++ [sep]) (A ++ sep :: B) ->
  occurs (sep :: q ++ [sep]) (A ++ sep :: M ++ sep :: B).
Proof.
  intros Hq [Ho|Ho]%(occurs_straddle q); [| |done].
  - replace (A ++ sep :: M ++ sep :: B) with ((A ++ [sep]) ++ M ++ sep :: B)
      by (by rewrite <- app_assoc). by apply occurs_app_l.
  - apply occurs_app_r, occurs_cons. by apply occurs_app_r.
Qed.

(** The same after the first character. *)
Lemma occurs_delete_tail q A M B :
  sep ∉ q ->
  occurs (sep :: q ++ [sep]) (tail (A ++ sep :: B)) ->
  occurs (sep :: q ++ [sep]) (tail (A ++ sep :: M ++ sep :: B)).
Proof.
  intros Hq Ho. destruct A as [|a A]; simpl in *; [|by apply occurs_delete].
  apply occurs_app_r. by apply occurs_cons.
Qed.

Lemma head_delete A M B :
  head (A ++ sep :: M ++ sep :: B) = Some sep -> head (A ++ sep :: B) = Some sep.
Proof. by destruct A. Qed.

Lemma double_prefix_delete A M B :
  ~ double_sep sep `prefix_of` A ++ sep :: M ++ sep :: B ->
  (A = [] -> ~ double_sep sep `prefix_of` sep :: B) ->
  ~ double_sep sep `prefix_of` A ++ sep :: B.
Proof.
  intros Hn He. destruct A as [|a [|a' A]]; simpl; [by apply He| |].
  - intros [k E]. apply Hn. injection E as Ea _. rewrite Ea. by exists (M ++ sep :: B).
  - intros [k E]. apply Hn. injection E as Ea Ea' _. rewrite Ea, Ea'.
    by exists (A ++ sep :: M ++ sep :: B).
Qed.

(** ** The meaning of a path *)

(** The components between the separators. *)
Fixpoint split (s : str) : list str :=
  match s with
  | [] => [[]]
  | c :: s' =>
      if bool_decide (c = sep) then [] :: split s'
      else match split s' with
           | [] => [[c]]
           | w :: ws => (c :: w) :: ws
           end
  end.

(** Entering a component: ["."] and the empty one stay, [".."] goes up - and
    fails above the starting directory - any other goes down. *)
Definition enter (st : option (list str)) (w : str) : option (list str) :=
  match st with
  | None => None
  | Some dirs =>
      if decide (w = [] \/ w = ("." : str)) then Some dirs
      else if decide (w = (".." : str)) then
        match dirs with [] => None | _ :: up => Some up end
      else Some (w :: dirs)
  end.

(** The directories a path goes down, innermost first; [None] when it climbs
    above where it starts. *)
Definition resolve (s : str) : option (list str) := foldl enter (Some []) (split s).

Lemma split_not_nil s : split s <> [].
Proof.
  destruct s as [|c s]; simpl; [done|]. case_bool_decide; [done|]. by destruct (split s).
Qed.

Lemma split_app A B : split (A ++ sep :: B) = split A ++ split B.
Proof.
  induction A as [|a A IH]; simpl; [by rewrite bool_decide_eq_true_2|].
  case_bool_decide; [by rewrite IH|]. rewrite IH.
  pose proof (split_not_nil A). by destruct (split A).
Qed.

Lemma split_plain Z : sep ∉ Z -> split Z = [Z].
Proof.
  induction Z as [|c Z IH]; intros Hn; [done|]. simpl.
  rewrite bool_decide_eq_false_2 by set_solver. rewrite IH by set_solver. done.
Qed.

Lemma enter_None l : foldl enter None l = None.
Proof. by induction l. Qed.

Lemma resolve_app A B : resolve (A ++ sep :: B) = foldl enter (resolve A) (split B).
Proof. unfold resolve. by rewrite split_app, foldl_app. Qed.

(** Deleting components that go nowhere. *)
Lemma resolve_delete A M B :
  (forall st, foldl enter st (split M) = st) ->
  resolve (A ++ sep :: M ++ sep :: B) = resolve (A ++ sep :: B).
Proof.
  intros HM. rewrite resolve_app, split_app, foldl_app, HM, resolve_app. done.
Qed.

Lemma enter_skip st w : w = [] \/ w = ("." : str) -> enter st w = st.
Proof. intros Hw. destruct st as [d|]; [|done]. simpl. by rewrite decide_True. Qed.

Lemma enter_up st w :
  w <> [] -> w <> ("." : str) -> w <> (".." : str) ->
  enter (enter st w) ".." = st.
Proof.
  intros H1 H2 H3. destruct st as [d|]; [|done]. unfold enter at 2.
  rewrite decide_False by (intros [|]; done). rewrite decide_False by done. done.
Qed.

(** ** Stage by stage *)

Context (Hdot : sep <> "."%char).

Lemma dd_pattern : double_sep sep = sep :: [] ++ [sep].
Proof. done. Qed.
Lemma sds_pattern : sep_dot_sep sep = sep :: ["."%char] ++ [sep].
Proof. done. Qed.

(** What holds from the start: the path begins with a separator; with [nd], it
    does not begin with two; and it still means the same. *)
Record stage1 (nd : bool) (s0 s : str) : Prop := {
  st_head : head s = Some sep;
  st_nd : nd = true -> ~ double_sep sep `prefix_of` s;
  st_resolve : nd = true -> resolve s = resolve s0;
  st_chars : s ⊆ s0
}.

Definition stage2 nd s0 s := stage1 nd s0 s /\ ~ occurs (double_sep sep) (tail s).
Definition stage3 nd s0 s := stage2 nd s0 s /\ ~ occurs (sep_dot_sep sep) s.
Definition stage4 nd s0 s := stage3 nd s0 s /\ ~ occurs (sep_dotdot_sep sep) s.

Lemma stage1_delete nd s0 A M B :
  (nd = true -> A = [] -> ~ double_sep sep `prefix_of` sep :: B) ->
  (nd = true -> forall st, foldl enter st (split M) = st) ->
  stage1 nd s0 (A ++ sep :: M ++ sep :: B) -> stage1 nd s0 (A ++ sep :: B).
Proof.
  intros Hp HM [Hh Hn Hr Hc]. split; [by eapply head_delete| | |].
  - intros Hnd. eapply double_prefix_delete; auto.
  - intros Hnd. rewrite <- (resolve_delete A M B) by auto. auto.
  - set_solver.
Qed.

Lemma no_double_after A M B :
  ~ occurs (double_sep sep) (tail (A ++ sep :: M ++ sep :: B)) ->
  A = [] -> M <> [] -> ~ double_sep sep `prefix_of` sep :: B.
Proof.
  intros Hn -> HM [k E]. apply Hn. destruct M as [|m M]; [done|]. simpl.
  apply occurs_cons, occurs_app_r. rewrite E. by exists [], k.
Qed.

Lemma stage2_delete nd s0 A M B :
  M <> [] -> (nd = true -> forall st, foldl enter st (split M) = st) ->
  stage2 nd s0 (A ++ sep :: M ++ sep :: B) -> stage2 nd s0 (A ++ sep :: B).
Proof.
  intros HM He [H1 H2]. split.
  - apply (stage1_delete _ _ _ M); [|done..]. intros _ HA. by apply (no_double_after A M).
  - rewrite dd_pattern. intros Ho. apply H2. rewrite dd_pattern.
    apply occurs_delete_tail; [set_solver|done].
Qed.

Lemma triple_step nd s0 s i :
  stage1 nd s0 s -> find (triple_sep sep) s = Some i ->
  (i + 2 <= length s)%nat /\ stage1 nd s0 (take i s ++ drop (i + 2) s).
Proof.
  intros Hs (A & B & -> & <- & _)%find_Some. split; [rewrite !length_app; simpl; lia|].
  change (triple_sep sep ++ B) with ([sep; sep] ++ sep :: B).
  rewrite take_drop_delete by done. apply (stage1_delete _ _ _ [sep]); [| |done].
  - intros Hnd ->. destruct (st_nd _ _ _ Hs Hnd). by exists (sep :: B).
  - intros _ st. simpl. rewrite bool_decide_eq_true_2 by done. simpl.
    by rewrite !enter_skip by auto.
Qed.

Lemma double_step nd s0 s i :
  stage1 nd s0 s -> find_pos (double_sep sep) 1 s = Some i ->
  (i + 1 <= length s)%nat /\ stage1 nd s0 (take i s ++ drop (i + 1) s).
Proof.
  intros Hs Hf. destruct s as [|c s]; [by destruct Hs|].
  apply find_pos_Some in Hf as (A & B & -> & ->).
  split; [simpl; rewrite !length_app; simpl; lia|].
  change (c :: A ++ double_sep sep ++ B) with ((c :: A) ++ [sep] ++ sep :: B).
  change (S (length A)) with (length (c :: A)). rewrite take_drop_delete by done.
  apply (stage1_delete _ _ _ []); [done| |done].
  intros _ st. simpl. by rewrite enter_skip by auto.
Qed.

Lemma dot_step nd s0 s i :
  stage2 nd s0 s -> find (sep_dot_sep sep) s = Some i ->
  (i + 2 <= length s)%nat /\ stage2 nd s0 (take i s ++ drop (i + 2) s).
Proof.
  intros Hs (A & B & -> & <- & _)%find_Some. split; [rewrite !length_app; simpl; lia|].
  change (sep_dot_sep sep ++ B) with ([sep; "."%char] ++ sep :: B).
  rewrite take_drop_delete by done. apply (stage2_delete _ _ _ ["."%char]); [done| |done].
  intros _ st. rewrite split_plain by set_solver. simpl. by rewrite enter_skip by auto.
Qed.

(** The component that an innermost ["/../"] deletes is a proper name. *)
Lemma component_proper nd s0 A Z B :
  nd = true -> stage3 nd s0 (A ++ sep :: Z ++ sep :: B) -> Z <> [] /\ Z <> ("." : str).
Proof.
  intros Hnd [[[Hh Hn _ _] H2] H3]. split; intros ->.
  - destruct A as [|a A]; simpl in *; [apply Hn; [done|]; by exists B|].
    apply H2. by exists A, B.
  - apply H3. by exists A, B.
Qed.

Lemma enter_component st Z :
  Z <> [] -> Z <> ("." : str) -> Z <> (".." : str) -> sep ∉ Z ->
  foldl enter st (split (Z ++ sep_dotdot sep)) = st.
Proof.
  intros. unfold sep_dotdot. rewrite split_app, !split_plain by set_solver. simpl.
  by apply enter_up.
Qed.

Lemma dotdot_step nd s0 s i i2 :
  stage3 nd s0 s -> find (sep_dotdot_sep sep) s = Some i -> i <> 0%nat ->
  find_last_of sep (i - 1) s = Some i2 -> stage3 nd s0 (take i2 s ++ drop (i + 3) s).
Proof.
  intros Hs Hf Hi Hl. destruct (find_Some _ _ _ Hf) as (P & B & -> & <- & Hfirst).
  pose proof (find_last_of_app sep P (sep_dotdot_sep sep ++ B)) as H. rewrite Hl in H.
  destruct H as (A & Z & -> & HZ & <-); [by destruct P|].
  assert (E : (A ++ sep :: Z) ++ sep_dotdot_sep sep ++ B
              = A ++ (sep :: Z ++ [sep; "."%char; "."%char]) ++ sep :: B).
  { rewrite <- app_assoc. simpl. by rewrite <- app_assoc. }
  rewrite E in *. replace (length (A ++ sep :: Z) + 3)%nat with
    (length A + length (sep :: Z ++ [sep; "."%char; "."%char]))%nat
    by (simpl; rewrite !length_app; simpl; lia).
  rewrite take_drop_delete by done. destruct Hs as [Hs H3].
  change (A ++ (sep :: Z ++ [sep; "."%char; "."%char]) ++ sep :: B) with
    (A ++ sep :: (Z ++ sep_dotdot sep) ++ sep :: B) in *. split.
  - apply (stage2_delete _ _ _ (Z ++ sep_dotdot sep)); [by destruct Z| |done].
    intros Hnd st. assert (HZ' : Z <> [] /\ Z <> ("." : str)).
    { apply (component_proper nd s0 A Z ("."%char :: "."%char :: sep :: B) Hnd).
      split; [|]; rewrite <- app_assoc in *; done. }
    apply enter_component; [apply HZ'..| |done]. intros ->.
    specialize (Hfirst A ("."%char :: "."%char :: sep :: B) eq_refl).
    rewrite length_app in Hfirst. simpl in Hfirst. lia.
  - rewrite sds_pattern in *. intros Ho. apply H3, occurs_delete; [set_solver|done].
Qed.

(** The loop only gives up on a path that climbs above its root. *)
Lemma dotdot_returned nd s0 :
  dotdot_post sep (stage3 nd s0) Returned -> nd = true -> resolve s0 = None.
Proof.
  intros (s & i & Hs & Hf & Hi) Hnd. pose proof Hs as [[[Hh _ Hr _] _] _].
  rewrite <- Hr by done. destruct (find_Some _ _ _ Hf) as (A & B & -> & <- & _).
  assert (A = []) as ->.
  { destruct Hi as [HA|[HA Hl]]; [by destruct A|]. exfalso.
    pose proof (find_last_of_app sep A (sep_dotdot_sep sep ++ B)) as H. rewrite Hl in H.
    destruct A as [|a A]; [done|]. simpl in Hh. injection Hh as ->. apply H; [done|set_solver]. }
  simpl. change (sep :: "."%char :: "."%char :: sep :: B) with
    ([] ++ sep :: ([".";"."]%char ++ sep :: B)).
  rewrite resolve_app, split_app, foldl_app, split_plain by set_solver. apply enter_None.
Qed.

(** ** The end of the path *)

Record ending (nd : bool) (s0 s : str) : Prop := {
  en_head : s = [] \/ head s = Some sep;
  en_nd : nd = true -> ~ double_sep sep `prefix_of` s;
  en_double : ~ occurs (double_sep sep) (tail s);
  en_dot : ~ occurs (sep_dot_sep sep) s;
  en_dotdot : ~ occurs (sep_dotdot_sep sep) s;
  en_resolve : nd = true -> resolve s = resolve s0;
  en_chars : s ⊆ s0
}.

Lemma stage4_ending nd s0 s : stage4 nd s0 s -> ending nd s0 s.
Proof. intros [[[[]]]]. split; auto. Qed.

Lemma ending_cut nd s0 A M :
  (nd = true -> forall st, foldl enter st (split M) = st) ->
  ending nd s0 (A ++ sep :: M) -> ending nd s0 A.
Proof.
  intros HM [H1 H2 H3 H4 H5 H6 H7]. split.
  - destruct A; [by left|right]. by destruct H1.
  - intros Hnd Hp. apply H2; [done|]. by apply prefix_app_r.
  - intros Ho. apply H3. destruct A; [by destruct Ho as ([|] & ? & ?)|]. by apply occurs_app_l.
  - intros Ho. by apply H4, occurs_app_l.
  - intros Ho. by apply H5, occurs_app_l.
  - intros Hnd. rewrite <- H6, resolve_app, HM by done. done.
  - set_solver.
Qed.

(** [index = s.rfind(pat)] is [s.length() - pat.length()] when [pat] ends [s]. *)
Lemma rfind_suffix pat s :
  match rfind pat s with
  | Some i => if decide (i = length s - length pat)%nat
              then exists A, s = A ++ pat /\ length A = i else ~ pat `suffix_of` s
  | None => ~ pat `suffix_of` s
  end.
Proof.
  destruct (rfind pat s) as [i|] eqn:E.
  - apply rfind_Some in E as (A & B & -> & <- & Hl). rewrite !length_app. case_decide as Hi.
    + destruct B; [exists A; by rewrite app_nil_r|simpl in Hi; lia].
    + intros [K EK]. specialize (Hl K []). rewrite app_nil_r in Hl. specialize (Hl EK).
      apply (f_equal length) in EK. rewrite !length_app in EK. lia.
  - intros [K ->]. apply (rfind_None _ _ E). exists K, []. by rewrite app_nil_r.
Qed.

Lemma ending_dot nd s0 s :
  ending nd s0 s ->
  ending nd s0 (resolve_ending_dot sep s) /\ ~ sep_dot sep `suffix_of` resolve_ending_dot sep s.
Proof.
  intros Hs. unfold resolve_ending_dot. pose proof (rfind_suffix (sep_dot sep) s) as H.
  destruct (rfind (sep_dot sep) s) as [i|]; [|done]. simpl in H.
  case_decide; [|done]. destruct H as (A & -> & <-). rewrite take_app_length. split.
  - apply (ending_cut _ _ _ ["."%char]); [|done]. intros _ st.
    rewrite split_plain by set_solver. apply enter_skip. by right.
  - intros [K ->]. apply (en_dot _ _ _ Hs). exists K, ["."%char]. by rewrite <- app_assoc.
Qed.

Lemma ending_dotdot nd s0 s :
  ending nd s0 s -> ~ sep_dot sep `suffix_of` s ->
  match resolve_ending_dotdot sep s with
  | Broke s' => ending nd s0 s' /\ ~ sep_dot sep `suffix_of` s' /\ ~ sep_dotdot sep `suffix_of` s'
  | Returned => nd = true -> resolve s0 = None
  end.
Proof.
  intros Hs Hd. unfold resolve_ending_dotdot. pose proof (rfind_suffix (sep_dotdot sep) s) as H.
  destruct (rfind (sep_dotdot sep) s) as [i|]; [|done]. simpl in H.
  case_decide; [|done]. destruct H as (P & -> & <-). case_decide as HP.
  { destruct P; [|done]. intros Hnd. rewrite <- (en_resolve _ _ _ Hs Hnd).
    change ([] ++ sep_dotdot sep) with ([] ++ sep :: [".";"."]%char).
    rewrite resolve_app, split_plain by set_solver. done. }
  pose proof (find_last_of_app sep P (sep_dotdot sep)) as Hl.
  destruct (find_last_of _ _ _) as [i2|].
  - destruct Hl as (A & Z & -> & HZ & <-); [by destruct P|].
    rewrite <- app_assoc, take_app_length in *.
    assert (H5 := en_dotdot _ _ _ Hs). assert (H4 := en_dot _ _ _ Hs). split_and!.
    + apply (ending_cut _ _ _ (Z ++ sep_dotdot sep)); [|done]. intros Hnd st.
      apply enter_component; [..|done].
      * intros ->. destruct A as [|a A].
        -- apply (en_nd _ _ _ Hs Hnd). by exists [".";"."]%char.
        -- apply (en_double _ _ _ Hs). by exists A, [".";"."]%char.
      * intros ->. apply H4. by exists A, [".";"."]%char.
      * intros ->. apply H5. by exists A, [".";"."]%char.
    + intros [K ->]. apply H4. exists K, (Z ++ sep_dotdot sep). by rewrite <- app_assoc.
    + intros [K ->]. apply H5. exists K, (Z ++ sep_dotdot sep). by rewrite <- app_assoc.
  - exfalso. destruct (en_head _ _ _ Hs) as [E|Hh]; [by apply app_nil in E as [_ ?]|].
    destruct P as [|a P]; [done|]. simpl in Hh. injection Hh as ->. apply Hl; [done|set_solver].
Qed.

(** The four loops in sequence, from a path that begins with a separator. *)
Lemma stages nd s0 :
  stage1 nd s0 s0 ->
  exists s1 s2 s3 r,
    collapse (S (length s0)) (find (triple_sep sep)) 2 s0 = Some s1 /\
    collapse (S (length s1)) (find_pos (double_sep sep) 1) 1 s1 = Some s2 /\
    collapse (S (length s2)) (find (sep_dot_sep sep)) 2 s2 = Some s3 /\
    resolve_dotdot sep (S (length s3)) s3 = Some r /\ dotdot_post sep (stage3 nd s0) r.
Proof.
  intros H0.
  destruct (collapse_inv (stage1 nd s0) (find (triple_sep sep)) 2 ltac:(lia)
    (triple_step nd s0) (S (length s0)) s0 ltac:(lia) H0) as (s1 & E1 & H1 & _).
  destruct (collapse_inv (stage1 nd s0) (find_pos (double_sep sep) 1) 1 ltac:(lia)
    (double_step nd s0) (S (length s1)) s1 ltac:(lia) H1) as (s2 & E2 & H2 & F2).
  assert (Hs2 : stage2 nd s0 s2).
  { split; [done|]. destruct s2; [by destruct H2|]. by apply find_pos_None in F2. }
  destruct (collapse_inv (stage2 nd s0) (find (sep_dot_sep sep)) 2 ltac:(lia)
    (dot_step nd s0) (S (length s2)) s2 ltac:(lia) Hs2) as (s3 & E3 & H3 & F3).
  assert (Hs3 : stage3 nd s0 s3) by (split; [done|]; by apply find_None).
  destruct (resolve_dotdot_inv sep (stage3 nd s0) (dotdot_step nd s0)
    (S (length s3)) s3 ltac:(lia) Hs3) as (r & E4 & H4).
  by exists s1, s2, s3, r.
Qed.

(** ** Normal forms *)

(** [Normalize] works on the path with a separator in front. *)
Definition rooted (s : str) : str := if bool_decide (head s = Some sep) then s else sep :: s.

Record normal (r : str) : Prop := {
  nf_double : ~ occurs (double_sep sep) (tail (rooted r));
  nf_dot : ~ occurs (sep_dot_sep sep) (rooted r);
  nf_dotdot : ~ occurs (sep_dotdot_sep sep) (rooted r);
  nf_end_dot : ~ sep_dot sep `suffix_of` rooted r;
  nf_end_dotdot : ~ sep_dotdot sep `suffix_of` rooted r;
  nf_backslash : sep = backslash \/ backslash ∉ r
}.

Lemma convert_backslash path : sep = backslash \/ backslash ∉ convert sep path.
Proof.
  destruct (decide (sep = backslash)) as [|Hn]; [by left|right]. unfold convert.
  rewrite list_elem_of_fmap. intros (c & E & _). by case_bool_decide.
Qed.

Lemma convert_id r : sep = backslash \/ backslash ∉ r -> convert sep r = r.
Proof.
  intros Hr. unfold convert. rewrite <- (list_fmap_id r) at 2. apply list_fmap_ext.
  intros i c Hc%list_elem_of_lookup_2. simpl. case_bool_decide; [|done]. subst.
  destruct Hr as [->|]; done.
Qed.

Lemma rooted_head s : head (rooted s) = Some sep.
Proof. unfold rooted. by case_bool_decide. Qed.

Lemma resolve_rooted s : resolve (rooted s) = resolve s.
Proof.
  unfold rooted. case_bool_decide; [done|]. change (sep :: s) with ([] ++ sep :: s).
  rewrite resolve_app. done.
Qed.

(** The component between two separators. *)
Lemma split_elem w s :
  w ∈ split s -> exists A B, sep :: s ++ [sep] = A ++ sep :: w ++ sep :: B.
Proof.
  remember (length s) as n eqn:Hn. revert s Hn.
  induction n as [n IH] using lt_wf_ind. intros s -> Hw.
  destruct (decide (sep ∈ s)) as [Hs|Hs].
  - apply list_elem_of_split_l in Hs as (Z & s' & -> & HZ).
    rewrite split_app, split_plain in Hw by done. apply elem_of_cons in Hw as [->|Hw].
    + exists [], (s' ++ [sep]). by rewrite <- app_assoc.
    + destruct (IH (length s') ltac:(rewrite length_app; simpl; lia) s' eq_refl Hw)
        as (A & B & E).
      exists (sep :: Z ++ A), B. simpl. rewrite <- !app_assoc, <- E. done.
  - rewrite split_plain in Hw by done. apply list_elem_of_singleton in Hw as ->.
    by exists [], [].
Qed.

(** A path without [".."] components never climbs above its root. *)
Lemma resolve_is_Some s : (".." : str) ∉ split s -> is_Some (resolve s).
Proof.
  unfold resolve. generalize (@nil str). induction (split s) as [|w ws IH]; intros st Hn; [done|].
  simpl. case_decide; [apply IH; set_solver|].
  rewrite decide_False by set_solver. apply IH. set_solver.
Qed.

Lemma normal_resolve r : normal r -> is_Some (resolve r).
Proof.
  intros [_ _ H1 _ H2 _]. rewrite <- resolve_rooted. pose proof (rooted_head r) as Hh.
  destruct (rooted r) as [|c s]; [done|]. simpl in Hh. injection Hh as Hc. rewrite Hc in *.
  change (sep :: s) with ([] ++ sep :: s). rewrite resolve_app. apply resolve_is_Some.
  intros (A & B & E)%split_elem. simpl in E.
  destruct B as [|b B _] using rev_ind.
  - apply H2. exists A.
    change (sep :: s ++ [sep]) with ((sep :: s) ++ [sep]) in E.
    change (A ++ [sep; "."; "."; sep]%char) with (A ++ sep_dotdot sep ++ [sep]) in E.
    rewrite app_assoc in E. by apply app_inj_tail in E as [E _].
  - apply H1. exists A, B.
    change (sep :: s ++ [sep]) with ((sep :: s) ++ [sep]) in E.
    change (A ++ sep :: "."%char :: "."%char :: sep :: B ++ [b])
      with (A ++ (sep_dotdot_sep sep ++ B) ++ [b]) in E.
    rewrite app_assoc in E. by apply app_inj_tail in E as [E _].
Qed.

Lemma occurs_length pat s : occurs pat s -> (length pat <= length s)%nat.
Proof. intros (A & B & ->). rewrite !length_app. lia. Qed.

Lemma normal_root r : rooted r = [sep] -> sep = backslash \/ backslash ∉ r -> normal r.
Proof.
  intros E Hb. split; rewrite ?E; [..|done];
    first [intros H%occurs_length|intros H%suffix_length]; simpl in H; lia.
Qed.

Lemma ending_normal nd s0 s r :
  ending nd s0 s -> ~ sep_dot sep `suffix_of` s -> ~ sep_dotdot sep `suffix_of` s ->
  sep = backslash \/ backslash ∉ s0 -> rooted r = s -> r ⊆ s -> normal r.
Proof. intros [] ?? [] Hr Hs; split; rewrite ?Hr; auto. right. set_solver. Qed.

(** What the last lines of [Normalize] return. *)
Lemma normal_result nd s0 (added : bool) s :
  ending nd s0 s -> ~ sep_dot sep `suffix_of` s -> ~ sep_dotdot sep `suffix_of` s ->
  (added = true -> nd = true) -> sep = backslash \/ backslash ∉ s0 ->
  let s := if negb added && bool_decide (s = []) then [sep] else s in
  let r := if negb added || bool_decide (s = []) then s else drop 1 s in
  normal r /\ (nd = true -> resolve r = resolve s0) /\ (head r = Some sep <-> added = false).
Proof.
  intros Hs Hd Hdd Hnd Hb. pose proof Hs as [Hh Hn _ _ _ Hr Hc]. destruct s as [|c s]; simpl.
  - destruct added; simpl.
    + split_and!; [apply normal_root; [done|set_solver]|done|done].
    + split_and!; [|intros Hnd'; rewrite <- Hr by done|done].
      * apply normal_root; [unfold rooted; by rewrite bool_decide_eq_true_2|].
        destruct (decide (sep = backslash)); [by left|right].
        rewrite list_elem_of_singleton. congruence.
      * change [sep] with ([] ++ sep :: []). by rewrite resolve_app.
  - destruct Hh as [|[=->]]; [done|]. rewrite andb_false_r. destruct added; simpl.
    + assert (Hs' : head s <> Some sep).
      { intros E. destruct s as [|c s]; [done|]. injection E as ->. apply (Hn (Hnd eq_refl)).
        by exists s. }
      assert (Er : rooted s = sep :: s) by (unfold rooted; by rewrite bool_decide_eq_false_2).
      rewrite drop_0. split_and!; [|rewrite <- resolve_rooted, Er; done|done].
      apply (ending_normal _ _ _ _ Hs Hd Hdd Hb); [done|set_solver].
    + split_and!; [|done|done]. apply (ending_normal _ _ _ _ Hs Hd Hdd Hb); [|done].
      unfold rooted. by rewrite bool_decide_eq_true_2.
Qed.

Context (Hnul : sep <> "000"%char).

Lemma head_is_sep (s : str) :
  bool_decide (default "000"%char (head s) = sep) = bool_decide (head s = Some sep).
Proof. apply bool_decide_ext. destruct s; simpl; split; congruence. Qed.

Lemma stage1_start s :
  stage1 (negb (bool_decide (double_sep sep `prefix_of` rooted s))) (rooted s) (rooted s).
Proof.
  split; [apply rooted_head| |done|done].
  intros Hn. by apply negb_true_iff, bool_decide_eq_false_1 in Hn.
Qed.

Lemma rooted_backslash s : sep = backslash \/ backslash ∉ s -> sep = backslash \/ backslash ∉ rooted s.
Proof.
  unfold rooted. intros [|Hn]; [by left|]. case_bool_decide; [by right|].
  destruct (decide (sep = backslash)); [by left|right].
  rewrite elem_of_cons. intros [|]; [congruence|done].
Qed.

(** The contract of [Normalize], for the converted path. *)
Definition is_absolute (s : str) : bool := bool_decide (head s = Some sep).

Definition root_path (s : str) : str := if is_absolute s then [sep] else [].

Definition normalizes_to (s r : str) : Prop :=
  normal r /\ (head r = Some sep <-> is_absolute s = true) /\
  (~ double_sep sep `prefix_of` s ->
   match resolve s with Some dirs => resolve r = Some dirs | None => r = root_path s end).

Definition single_sep (s : str) : bool := negb (bool_decide (double_sep sep `prefix_of` rooted s)).

Lemma rooted_if s : (if negb (is_absolute s) then sep :: s else s) = rooted s.
Proof. unfold rooted, is_absolute. by case_bool_decide. Qed.

Lemma single_sep_absolute s :
  (is_absolute s = true -> ~ double_sep sep `prefix_of` s) -> single_sep s = true.
Proof.
  intros Hn. apply negb_true_iff, bool_decide_eq_false. rewrite <- rooted_if.
  destruct (is_absolute s) eqn:Ha; [by apply Hn|]. intros [k E]. injection E as E.
  apply bool_decide_eq_false in Ha. apply Ha. by rewrite E.
Qed.

Lemma root_normalizes s :
  (single_sep s = true -> resolve s = None) -> normalizes_to s (root_path s).
Proof.
  intros Hr. split_and!.
  - apply normal_root.
    + unfold root_path, rooted. destruct (is_absolute s); [|done]. by rewrite bool_decide_eq_true_2.
    + destruct (decide (sep = backslash)); [by left|right]. unfold root_path.
      destruct (is_absolute s); [|set_solver]. rewrite list_elem_of_singleton. congruence.
  - unfold root_path. by destruct (is_absolute s).
  - intros Hs. rewrite Hr; [done|]. by apply single_sep_absolute.
Qed.

Lemma result_normalizes s s' :
  ending (single_sep s) (rooted s) s' -> ~ sep_dot sep `suffix_of` s' ->
  ~ sep_dotdot sep `suffix_of` s' -> sep = backslash \/ backslash ∉ s ->
  let s' := if negb (negb (is_absolute s)) && bool_decide (s' = []) then [sep] else s' in
  normalizes_to s (if negb (negb (is_absolute s)) || bool_decide (s' = []) then s' else drop 1 s').
Proof.
  intros He Hd Hdd Hb. simpl.
  destruct (normal_result _ _ (negb (is_absolute s)) s' He Hd Hdd) as (Hn & Hr & Ha).
  - intros H%negb_true_iff. apply single_sep_absolute. by rewrite H.
  - by apply rooted_backslash.
  - split_and!; [done|by rewrite Ha, negb_false_iff|]. intros Hs.
    rewrite <- (resolve_rooted s), <- Hr by by apply single_sep_absolute.
    destruct (normal_resolve _ Hn) as [dirs E]. rewrite E. done.
Qed.

Lemma normalize_spec path :
  exists r, Normalize sep path = Some r /\ normalizes_to (convert sep path) r.
Proof.
  pose proof (convert_backslash path) as Hb. unfold Normalize. cbv zeta.
  generalize dependent (convert sep path). intros s Hb.
  rewrite head_is_sep. fold (is_absolute s). rewrite rooted_if.
  destruct (stages _ _ (stage1_start s)) as (s1 & s2 & s3 & r & -> & E2 & E3 & E4 & Hp).
  fold (single_sep s) in Hp. unfold mbind, option_bind. rewrite E2, E3, E4.
  assert (Hroot : (if negb (is_absolute s) then [] else [sep]) = root_path s)
    by (unfold root_path; by destruct (is_absolute s)).
  rewrite Hroot. destruct r as [s4|].
  - destruct Hp as [Hs3 Hf]. assert (Hs4 : stage4 (single_sep s) (rooted s) s4)
      by (split; [done|by apply find_None]).
    destruct (ending_dot _ _ _ (stage4_ending _ _ _ Hs4)) as [He Hd].
    pose proof (ending_dotdot _ _ _ He Hd) as H.
    destruct (resolve_ending_dotdot _ _) as [s5|].
    + destruct H as (He' & Hd' & Hdd'). pose proof (result_normalizes s s5 He' Hd' Hdd' Hb) as Hn.
      simpl in Hn. case_match; eexists; eauto.
    + eexists. split; [done|]. apply root_normalizes. by rewrite <- resolve_rooted.
  - eexists. split; [done|]. apply root_normalizes. rewrite <- resolve_rooted.
    by apply dotdot_returned.
Qed.

Lemma collapse_id search k s : search s = None -> collapse (S (length s)) search k s = Some s.
Proof. intros E. simpl. by rewrite E. Qed.

Lemma resolve_dotdot_id s n :
  find (sep_dotdot_sep sep) s = None -> resolve_dotdot sep (S n) s = Some (Broke s).
Proof. intros E. simpl. by rewrite E. Qed.

(** On a normal path nothing happens. *)
Lemma normal_fixpoint r : normal r -> Normalize sep r = Some r.
Proof.
  intros Hr. unfold Normalize. cbv zeta. rewrite convert_id by apply Hr.
  rewrite head_is_sep. fold (is_absolute r). rewrite rooted_if.
  assert (Hi := rooted_if r). assert (Hh := rooted_head r). destruct Hr as [H1 H2 H3 H4 H5 _].
  destruct (rooted r) as [|c s]; [done|]. injection Hh as Hc. rewrite Hc in *. clear c Hc.
  unfold mbind, option_bind.
  rewrite collapse_id.
  2:{ apply find_None. intros Ho. apply H1. destruct Ho as ([|a A] & B & E); injection E as E.
      - exists [], B. done.
      - exists A, (sep :: B). by rewrite H. }
  rewrite collapse_id by by apply find_pos_None.
  rewrite collapse_id by by apply find_None.
  rewrite resolve_dotdot_id by by apply find_None.
  pose proof (rfind_suffix (sep_dot sep) (sep :: s)) as R.
  assert (Ed : resolve_ending_dot sep (sep :: s) = sep :: s).
  { unfold resolve_ending_dot. destruct (rfind _ _); [|done].
    change (length (sep_dot sep)) with 2%nat in R. case_decide; [|done].
    destruct R as (A & E & _). destruct H4. by exists A. }
  rewrite Ed. clear R Ed.
  pose proof (rfind_suffix (sep_dotdot sep) (sep :: s)) as R.
  assert (Ed : resolve_ending_dotdot sep (sep :: s) = Broke (sep :: s)).
  { unfold resolve_ending_dotdot. destruct (rfind _ _); [|done].
    change (length (sep_dotdot sep)) with 3%nat in R. case_decide; [|done].
    destruct R as (A & E & _). destruct H5. by exists A. }
  rewrite Ed. rewrite andb_false_r. simpl. rewrite orb_false_r.
  destruct (is_absolute r); simpl in *; [by rewrite Hi|]. injection Hi as ->. by rewrite drop_0.
Qed.
End Sep.

(** ** The theorems *)

Lemma Normalize_total sep path : is_Some (Normalize sep path).
Proof.
  unfold Normalize. cbv zeta. unfold mbind, option_bind.
  assert (Hc : forall search k s, (0 < k)%nat ->
    (forall s i, search s = Some i -> (i + k <= length s)%nat) ->
    exists s', collapse (S (length s)) search k s = Some s').
  { intros search k s Hk Hs. destruct (collapse_inv (fun _ => True) search k Hk
      ltac:(by eauto) (S (length s)) s) as (s' & E & _); [lia|done|by exists s']. }
  set (s := if negb _ then _ else _). clearbody s.
  destruct (Hc (find (triple_sep sep)) 2%nat s) as [s1 ->]; [lia| |].
  { intros ? ? (A & B & -> & <- & _)%find_Some. rewrite !length_app. simpl. lia. }
  destruct (Hc (find_pos (double_sep sep) 1) 1%nat s1) as [s2 ->]; [lia| |].
  { intros [|c ?] ? H; [done|]. apply find_pos_Some in H as (A & B & -> & ->).
    simpl. rewrite !length_app. simpl. lia. }
  destruct (Hc (find (sep_dot_sep sep)) 2%nat s2) as [s3 ->]; [lia| |].
  { intros ? ? (A & B & -> & <- & _)%find_Some. rewrite !length_app. simpl. lia. }
  destruct (resolve_dotdot_inv sep (fun _ => True) ltac:(done) (S (length s3)) s3)
    as ([s4|] & -> & _); [lia|done| |done].
  destruct (resolve_ending_dotdot _ _); [|done]. by case_match.
Qed.

(** [Normalize] ends on every path and every separator: none of its loops
    runs forever (each iteration shortens the string, so the length of the
    string is fuel enough). *)
Theorem normalize_terminates sep path : is_Some (Normalize sep path).
Proof. apply Normalize_total. Qed.

(** What [Normalize] returns is in normal form - no [\ ] unless it is the
    separator, no ["//"] except at the very beginning, no ["."] or [".."]
    component - absolute exactly when the given path is, and normalizing it
    again does not change it. *)
Theorem normalize_normal sep path :
  sep <> "."%char -> sep <> "000"%char ->
  exists r, Normalize sep path = Some r /\ normal sep r /\
    (head r = Some sep <-> head (convert sep path) = Some sep) /\ Normalize sep r = Some r.
Proof.
  intros Hdot Hnul. destruct (normalize_spec sep Hdot Hnul path) as (r & E & Hn & Ha & _).
  exists r. split_and!; [done..| |by apply normal_fixpoint].
  unfold is_absolute in Ha. by rewrite bool_decide_eq_true in Ha.
Qed.

Lemma normalize_normal_witness :
  exists r, Normalize "/" "/a/./b//../c" = Some r /\ normal "/" r /\
    (head r = Some "/"%char <-> head (convert "/" "/a/./b//../c") = Some "/"%char) /\
    Normalize "/" r = Some r.
Proof. apply (normalize_normal "/" "/a/./b//../c"); discriminate. Defined.

(** C20: [Normalize] keeps the meaning of a path.  When the path (that does not
    begin with two separators) goes down to the directories [dirs] without
    climbing above its start, so does the result; when it climbs above, the
    result is the root, or the empty path for a relative one. *)
Theorem normalize_resolves sep path :
  sep <> "."%char -> sep <> "000"%char -> ~ double_sep sep `prefix_of` convert sep path ->
  match resolve sep (convert sep path) with
  | Some dirs => exists r, Normalize sep path = Some r /\ resolve sep r = Some dirs
  | None => Normalize sep path = Some (root_path sep (convert sep path))
  end.
Proof.
  intros Hdot Hnul Hd. destruct (normalize_spec sep Hdot Hnul path) as (r & E & _ & _ & Hr).
  specialize (Hr Hd). rewrite E. destruct (resolve sep (convert sep path)); [by exists r|].
  by rewrite Hr.
Qed.

Lemma normalize_resolves_witness :
  match resolve "/" (convert "/" "/a/./b//../c") with
  | Some dirs => exists r, Normalize "/" "/a/./b//../c" = Some r /\ resolve "/" r = Some dirs
  | None => Normalize "/" "/a/./b//../c" = Some (root_path "/" (convert "/" "/a/./b//../c"))
  end.
Proof.
  apply (normalize_resolves "/" "/a/./b//../c"); [discriminate..|].
  apply (bool_decide_unpack _). vm_compute. exact I.
Defined.

(** [Dirname] and [Basename] take a path apart and [Join] puts it back
    together: the directory name, the separator and the base name are the path,
    the base name has no separator, and joining a directory with a name gives a
    path with that directory name and that base name. *)
Theorem dirname_basename_join :
  (forall p, kDirSeparator ∉ Basename p /\
     p = if bool_decide (kDirSeparator ∈ p) then Dirname p ++ [kDirSeparator] ++ Basename p
         else Dirname p ++ Basename p) /\
  (forall d b, d <> [] -> last d <> Some kDirSeparator -> b <> [] -> kDirSeparator ∉ b ->
     Dirname (Join2 d b) = d /\ Basename (Join2 d b) = b).
Proof.
  split.
  - intros p. unfold Basename, Dirname. pose proof (rfind_char kDirSeparator p) as H.
    destruct (rfind [kDirSeparator] p) as [i|]; [|by rewrite bool_decide_eq_false_2].
    destruct H as (A & B & -> & HB & <-).
    rewrite bool_decide_eq_true_2, drop_app_add, take_app_length by set_solver.
    simpl. by rewrite drop_0.
  - intros d b Hd Hl Hb Hn. assert (E : Join2 d b = d ++ kDirSeparator :: b).
    { unfold Join2, Join. destruct d as [|c d]; [done|]. destruct b as [|c' b]; [done|].
      rewrite !bool_decide_eq_false_2; [done|done|set_solver|].
      intros [H1 ->]. destruct d; [by apply Hl|done]. }
    unfold Basename, Dirname. pose proof (rfind_char kDirSeparator (Join2 d b)) as H.
    rewrite E in *. destruct (rfind [kDirSeparator] _) as [i|]; [|set_solver].
    destruct H as (A & B & E' & HB & <-).
    destruct (last_split _ _ _ _ _ E') as [-> ->]; [done..|].
    rewrite drop_app_add, take_app_length. simpl. by rewrite drop_0.
Qed.

Lemma dirname_basename_join_witness :
  Dirname (Join2 "usr" "lib") = "usr" /\ Basename (Join2 "usr" "lib") = "lib".
Proof.
  destruct dirname_basename_join as [_ H]. apply H; [done|done|done|].
  apply (bool_decide_unpack _). vm_compute. exact I.
Defined.

Lemma Join2_glue p q :
  p <> [] -> q <> [] ->
  Join2 p q = p ++ (if bool_decide (head q = Some kDirSeparator \/ last p = Some kDirSeparator)
                    then [] else [kDirSeparator]) ++ q.
Proof.
  intros Hp Hq. unfold Join2, Join. destruct p as [|c p]; [done|]. destruct q as [|c' q]; [done|].
  rewrite <- !bool_decide_or. 
  rewrite (bool_decide_ext _ (head (c' :: q) = Some kDirSeparator \/
                              last (c :: p) = Some kDirSeparator));
    [by case_bool_decide|]. simpl head. split.
  - intros [[[H ->]| ->]|?]; [right; by destruct p|by left|by right].
  - intros [[=->]|?]; auto.
Qed.

(** Joining paths is associative with the empty path as unit, so joining a
    list of paths does not depend on how the list is grouped. *)
Theorem join_monoid :
  (forall p q r, Join2 p (Join2 q r) = Join2 (Join2 p q) r) /\
  (forall p, Join2 [] p = p /\ Join2 p [] = p) /\
  (forall ps qs, JoinAll (ps ++ qs) = Join2 (JoinAll ps) (JoinAll qs)).
Proof.
  assert (Hl : forall p, Join2 [] p = p) by done.
  assert (Hr : forall p, Join2 p [] = p) by by intros [].
  assert (Ha : forall p q r, Join2 p (Join2 q r) = Join2 (Join2 p q) r).
  { intros p q r. destruct p as [|cp p]; [done|]. destruct q as [|cq q]; [by rewrite Hr|].
    destruct r as [|cr r]; [by rewrite !Hr|].
    pose proof (Join2_glue (cp :: p) (cq :: q) ltac:(done) ltac:(done)) as E1.
    pose proof (Join2_glue (cq :: q) (cr :: r) ltac:(done) ltac:(done)) as E2.
    assert (Hh : head (Join2 (cq :: q) (cr :: r)) = head (cq :: q)) by by rewrite E2.
    assert (Ht : last (Join2 (cp :: p) (cq :: q)) = last (cq :: q))
      by by rewrite E1, app_assoc, last_app_cons.
    rewrite (Join2_glue _ (Join2 _ _)), Hh by (try rewrite E2; done).
    rewrite (Join2_glue (Join2 _ _)), Ht by (try rewrite E1; done).
    rewrite E1, E2, <- !app_assoc. done. }
  split_and!; [done|by split|]. intros ps qs. unfold JoinAll. rewrite foldl_app.
  generalize (foldl (fun r p => Join2 r p) [] ps). intros d. rewrite <- (Hr d) at 1.
  generalize (@nil ascii). induction qs as [|q qs IH]; intros e; simpl; [done|].
  rewrite <- Ha. apply IH.
Qed.
