(* ===== verification/CordIo.v ===== *)
(** * Writing cords ([whisperlib/io/cord_io.h], [whisperlib/io/cord_io.cc])

    [absl::Cord] is a third-party type: the class [CordApi] has what the code
    uses of it.  An [iovec] is the list of bytes that it points to. *)

From S2P Require Import Prelude.

Class CordApi (Cord : Type) := {
  (* the pieces that cord.Chunks() enumerates *)
  Chunks : Cord -> list str;
  (* cord.size() *)
  cord_size : Cord -> Z;
  (* cord->Append(data) *)
  cord_Append : Cord -> str -> Cord
}.

(** The bytes of a cord. *)
Definition cord_bytes {Cord} `{CordApi Cord} (c : Cord) : str := concat (Chunks c).

Class CordLaws (Cord : Type) `{CordApi Cord} : Prop := {
  cord_size_spec c : cord_size c = zlen (cord_bytes c);
  cord_size_max c : cord_size c <= size_max;
  chunks_not_empty c : [] ∉ Chunks c;
  cord_Append_spec c s : zlen (cord_bytes c ++ s) <= size_max ->
    cord_bytes (cord_Append c s) = cord_bytes c ++ s
}.

Section CordIo.
Context {Cord : Type} `{CordApi Cord}.

(** [CordIo::SizeToWrite] *)
Definition SizeToWrite (cord : Cord) (size : option Z) : Z :=
  let size_to_write := cord_size cord in
  match size with
  | Some s => if decide (s < size_to_write) then s else size_to_write
  | None => size_to_write
  end.

(** The chunk of one iteration, cut at [size] bytes in all. *)
Definition cut_chunk (chunk : str) (cb size : Z) : str :=
  if decide (size < u64 (zlen chunk + cb)) then take (Z.to_nat (u64 (size - cb))) chunk else chunk.

(** The loop of [CordIo::ToIovec] over the remaining chunks. *)
Fixpoint iovec_loop (chunks : list str) (size cb : Z) (result : list str) : list str * Z :=
  match chunks with
  | [] => (result, cb)
  | chunk :: chunks =>
      let chunk := cut_chunk chunk cb size in
      let result := result ++ [chunk] in
      let cb := u64 (cb + zlen chunk) in
      if decide (size <= cb) then (result, cb) else iovec_loop chunks size cb result
  end.

Definition ToIovec (cord : Cord) (size : Z) : list str * Z := iovec_loop (Chunks cord) size 0 [].

(** ** Correctness *)

(** Cutting a chunk cuts the rest of the data at the same place. *)
Lemma cut_chunk_spec chunk cb size :
  0 <= cb <= size -> size <= size_max -> zlen chunk + cb <= size_max ->
  cut_chunk chunk cb size = take (Z.to_nat (size - cb)) chunk.
Proof.
  intros Hcb Hs Hm. unfold cut_chunk, size_max in *. pose proof (zlen_nonneg chunk).
  rewrite !u64_id by lia. case_decide; [done|].
  rewrite take_ge; [done|]. unfold zlen in *. lia.
Qed.

Lemma iovec_loop_spec chunks size cb result :
  0 <= cb -> (cb < size \/ cb = 0) -> cb <= size -> size <= size_max -> cb + zlen (concat chunks) <= size_max ->
  let '(iov, n) := iovec_loop chunks size cb result in
  concat iov = concat result ++ take (Z.to_nat (size - cb)) (concat chunks) /\
  n = Z.min size (cb + zlen (concat chunks)) /\
  (0 < size -> [] ∉ chunks -> [] ∉ result -> [] ∉ iov).
Proof.
  revert cb result. induction chunks as [|chunk chunks IH]; intros cb result H0 Hlt Hle Hs Hm.
  { simpl. rewrite take_nil, app_nil_r, zlen_nil. split_and!; [done|lia|done]. }
  simpl in *. rewrite zlen_app in Hm.
  pose proof (zlen_nonneg chunk). pose proof (zlen_nonneg (concat chunks)).
  rewrite cut_chunk_spec by lia.
  set (t := take (Z.to_nat (size - cb)) chunk).
  assert (Ht : zlen t = Z.min (size - cb) (zlen chunk))
    by (unfold t, zlen in *; rewrite length_take; lia).
  rewrite u64_id by (unfold size_max in *; lia).
  assert (Hne : 0 < size -> [] ∉ chunk :: chunks -> t <> []).
  { intros Hp Hn E. rewrite E, zlen_nil in Ht. apply Hn.
    destruct chunk; [by left|]. rewrite zlen_cons in Ht. pose proof (zlen_nonneg chunk). lia. }
  case_decide as Hc.
  - rewrite concat_app, zlen_app. simpl. rewrite app_nil_r. split_and!; [|lia|].
    + rewrite take_app_le; [done|]. unfold zlen in *. lia.
    + intros Hp Hn Hr. specialize (Hne Hp Hn). set_solver.
  - assert (Et : t = chunk) by (unfold t; apply take_ge; unfold zlen in *; lia).
    specialize (IH (cb + zlen t) (result ++ [t]) ltac:(lia) ltac:(lia) ltac:(lia) Hs ltac:(lia)).
    destruct (iovec_loop chunks size (cb + zlen t) (result ++ [t])) as [iov n].
    destruct IH as (E1 & E2 & E3). rewrite concat_app, zlen_app in *. simpl in *.
    split_and!.
    + rewrite E1, app_nil_r, <- app_assoc, Et. f_equal. rewrite take_app_ge.
      * do 2 f_equal. unfold zlen in *. lia.
      * unfold zlen in *. rewrite Et in *. lia.
    + lia.
    + intros Hp Hn Hr. apply E3; [done|set_solver|]. specialize (Hne Hp Hn). set_solver.
Qed.

(** The vector made for [writev] holds exactly the bytes to write - the
    cord cut at [size] bytes - and the count returned with it is their number;
    none of its pieces is empty unless nothing is to be written. *)
Theorem to_iovec_spec `{!CordLaws Cord} (cord : Cord) (size : option Z) (n : Z) :
  n = SizeToWrite cord size -> (forall s, size = Some s -> 0 <= s <= size_max) ->
  let '(iov, cb) := ToIovec cord n in
  concat iov = take (Z.to_nat n) (cord_bytes cord) /\ cb = n /\ cb = zlen (concat iov) /\
  n <= cord_size cord /\ (0 < n -> [] ∉ iov).
Proof.
  intros -> Hs. pose proof (cord_size_spec cord) as Hz. pose proof (cord_size_max cord) as Hm.
  pose proof (zlen_nonneg (cord_bytes cord)) as Hp.
  set (n := SizeToWrite cord size).
  assert (Hn : 0 <= n <= cord_size cord).
  { unfold n, SizeToWrite. destruct size as [s|]; [|lia]. specialize (Hs s eq_refl).
    case_decide; lia. }
  unfold cord_bytes in *. unfold ToIovec.
  assert (n <= size_max) by lia.
  pose proof (iovec_loop_spec (Chunks cord) n 0 [] ltac:(lia) ltac:(lia) ltac:(lia) ltac:(lia)) as Hl. specialize (Hl ltac:(lia)).
  destruct (iovec_loop (Chunks cord) n 0 []) as [iov cb]. destruct Hl as (E1 & E2 & E3).
  simpl in E1. rewrite Z.sub_0_r in E1. split_and!.
  - done.
  - lia.
  - rewrite E1. unfold zlen in *. rewrite length_take. lia.
  - lia.
  - intros Hpos. apply E3; [done|apply chunks_not_empty|set_solver].
Qed.
End CordIo.

(** ** A reference cord: the list of its chunks *)
Module RefCord.

Definition cord := list str.

(** Data that would not fit is not appended; an empty piece makes no chunk. *)
#[export] Instance ref_cord : CordApi cord := {
  Chunks c := filter (fun s => s <> []) (if decide (zlen (concat c) <= size_max) then c else []);
  cord_size c := if decide (zlen (concat c) <= size_max) then zlen (concat c) else 0;
  cord_Append c s :=
    (if decide (zlen (concat c) <= size_max) then c else []) ++ [s]
}.

Lemma concat_filter (c : list str) : concat (filter (fun s => s <> []) c) = concat c.
Proof.
  induction c as [|s c IH]; [done|]. rewrite filter_cons. case_decide as Hs; simpl; [by rewrite IH|].
  by rewrite IH, Hs.
Qed.

#[export] Instance ref_cord_laws : CordLaws cord.
Proof.
  split; unfold cord_bytes; simpl; intros c.
  - rewrite concat_filter. by case_decide.
  - case_decide; [done|]. unfold size_max. lia.
  - rewrite list_elem_of_filter. intros [? _]. done.
  - intros s. rewrite !concat_filter. set (c' := if decide _ then c else []). intros Hs.
    assert (E : concat (c' ++ [s]) = concat c' ++ s)
      by (rewrite concat_app; simpl; by rewrite app_nil_r).
    rewrite <- E in *. by case_decide.
Qed.
End RefCord.

Import RefCord.

Lemma to_iovec_spec_witness :
  let '(iov, cb) := ToIovec (["ab" : str; "cde" : str; "f" : str] : cord) 4 in
  concat iov = "abcd" /\ cb = 4 /\ [] ∉ iov.
Proof.
  destruct (to_iovec_spec (["ab" : str; "cde" : str; "f" : str] : cord) (Some 4) 4)
    as (E1 & E2 & _ & _ & E3).
  - reflexivity.
  - intros s [= <-]. unfold size_max. lia.
  - split_and!; [exact E1|exact E2|apply E3; lia].
Defined.
