(* ===== verification/Posix.v ===== *)
(** * Files of the operating system

    The system calls are not code of the repository: they are the class
    [PosixFile] over the type [W] of the rest of the world.  [PosixFileLaws]
    states what POSIX documents of their effect on regular files, through an
    abstract file table; every call may fail.  [SimFs] is an instance. *)

From S2P Require Import Prelude.

(** ** [<fcntl.h>], [<unistd.h>], [<sys/stat.h>] on Linux *)

Definition O_RDONLY : Z := 0.
Definition O_WRONLY : Z := 1.
Definition O_RDWR : Z := 2.
Definition O_CREAT : Z := 64.
Definition O_EXCL : Z := 128.
Definition O_NOCTTY : Z := 256.
Definition O_TRUNC : Z := 512.

Definition SEEK_SET : Z := 0.
Definition SEEK_CUR : Z := 1.
Definition SEEK_END : Z := 2.

(** [flags & bit] *)
Definition has_flag (flags bit : Z) : bool := negb (Z.land flags bit =? 0).

(** A 64-bit two's complement integer. *)
Definition i64 (z : Z) : Z := (z + 2 ^ 63) mod 2 ^ 64 - 2 ^ 63.

Lemma i64_id z : - 2 ^ 63 <= z < 2 ^ 63 -> i64 z = z.
Proof. intros Hz. unfold i64. rewrite Z.mod_small; lia. Qed.

(** An [int]. *)
Definition i32 (z : Z) : Z := (z + 2 ^ 31) mod 2 ^ 32 - 2 ^ 31.

Lemma i32_id z : - 2 ^ 31 <= z < 2 ^ 31 -> i32 z = z.
Proof. intros Hz. unfold i32. rewrite Z.mod_small; lia. Qed.

(** What a C function sees of a [std::string] given as [c_str()]. *)
Fixpoint c_str (s : str) : str :=
  match s with
  | [] => []
  | c :: s => if bool_decide (c = "000"%char) then [] else c :: c_str s
  end.

(** A call returns what C returns and the new world; [sys_errno] is the global
    [errno] in a world. *)
Class HasErrno (W : Type) := sys_errno : W -> Z.

Class PosixFile (W : Type) := {
  (* open(name, flags, mode) *)
  sys_open : str -> Z -> Z -> W -> Z * W;
  sys_close : Z -> W -> Z * W;
  (* fstat(fd, &st), with st.st_size *)
  sys_fstat : Z -> W -> (Z * Z) * W;
  (* lseek(fd, offset, whence) *)
  sys_lseek : Z -> Z -> Z -> W -> Z * W;
  sys_ftruncate : Z -> Z -> W -> Z * W;
  (* read(fd, buffer, size), with the bytes placed at the start of the buffer *)
  sys_read : Z -> Z -> W -> (Z * str) * W;
  (* write(fd, data, size) *)
  sys_write : Z -> str -> Z -> W -> Z * W;
  (* writev(fd, iov, iovcnt) *)
  sys_writev : Z -> list str -> Z -> W -> Z * W;
  sys_fdatasync : Z -> W -> Z * W
}.

(** ** The file table *)

(** The bytes of the files by name, and for every open descriptor its file and
    its offset. *)
Record table := Table { files : gmap str str; fds : gmap Z (str * Z) }.

Definition set_file (name bytes : str) (t : table) : table := Table (<[name:=bytes]> (files t)) (fds t).
Definition set_fd (fd : Z) (name : str) (pos : Z) (t : table) : table :=
  Table (files t) (<[fd:=(name, pos)]> (fds t)).

(** [data] written over [bytes] at [pos]: writing nothing has no effect, and a
    gap before the data is filled with zeros. *)
Definition overwrite (bytes : str) (pos : nat) (data : str) : str :=
  match data with
  | [] => bytes
  | _ => take pos (bytes ++ replicate (pos - length bytes) "000"%char) ++ data
           ++ drop (pos + length data) bytes
  end.

Definition resize (bytes : str) (n : nat) : str :=
  take n (bytes ++ replicate (n - length bytes) "000"%char).

(** The file behind a descriptor: its name, its bytes and the offset. *)
Definition fd_view (t : table) (fd : Z) : option (str * str * Z) :=
  '(name, pos) ← fds t !! fd;
  bytes ← files t !! name;
  Some (name, bytes, pos).

(** Where [lseek] counts from. *)
Definition seek_base (whence pos size : Z) : option Z :=
  if decide (whence = SEEK_SET) then Some 0
  else if decide (whence = SEEK_CUR) then Some pos
  else if decide (whence = SEEK_END) then Some size
  else None.

(** What POSIX promises for regular files without [O_APPEND], when nobody else
    touches them. *)
Class FileTable (W : Type) := files_of : W -> table.

Class PosixFileLaws (W : Type) `{PosixFile W} `{FileTable W} : Prop := {
  open_spec name flags mode w : let '(fd, w') := sys_open name flags mode w in
    (fd < 0 /\ files_of w' = files_of w) \/
    (0 <= fd /\ fds (files_of w) !! fd = None /\
     (has_flag flags O_CREAT = false -> is_Some (files (files_of w) !! name)) /\
     (has_flag flags O_CREAT = true -> has_flag flags O_EXCL = true ->
        files (files_of w) !! name = None) /\
     files_of w' = set_fd fd name 0 (set_file name
       (if has_flag flags O_TRUNC then [] else default [] (files (files_of w) !! name))
       (files_of w)));
  close_spec fd w : let '(r, w') := sys_close fd w in
    files (files_of w') = files (files_of w) /\
    (0 <= r -> fds (files_of w') = delete fd (fds (files_of w)));
  fstat_spec fd w : let '((r, size), w') := sys_fstat fd w in
    files_of w' = files_of w /\
    (r = 0 -> forall name bytes pos, fd_view (files_of w) fd = Some (name, bytes, pos) ->
       size = zlen bytes /\ size < 2 ^ 63);
  lseek_spec fd off whence w : let '(r, w') := sys_lseek fd off whence w in
    (r < 0 -> files_of w' = files_of w) /\
    (0 <= r -> forall name bytes pos, fd_view (files_of w) fd = Some (name, bytes, pos) ->
       exists base, seek_base whence pos (zlen bytes) = Some base /\ r = base + off /\ r < 2 ^ 63 /\
       files_of w' = set_fd fd name r (files_of w));
  ftruncate_spec fd n w : let '(r, w') := sys_ftruncate fd n w in
    (r < 0 -> files_of w' = files_of w) /\
    (0 <= r -> forall name bytes pos, fd_view (files_of w) fd = Some (name, bytes, pos) ->
       0 <= n < 2 ^ 63 /\ files_of w' = set_file name (resize bytes (Z.to_nat n)) (files_of w));
  read_spec fd n w : let '((r, data), w') := sys_read fd n w in
    (r < 0 -> files_of w' = files_of w) /\
    (0 <= r -> forall name bytes pos, fd_view (files_of w) fd = Some (name, bytes, pos) ->
       r <= n /\ pos + r < 2 ^ 63 /\ r = zlen data /\ data = take (length data) (drop (Z.to_nat pos) bytes) /\
       files_of w' = set_fd fd name (pos + r) (files_of w));
  write_spec fd data n w : let '(r, w') := sys_write fd data n w in
    (r < 0 -> files_of w' = files_of w) /\
    (0 <= r -> forall name bytes pos, fd_view (files_of w) fd = Some (name, bytes, pos) ->
       r <= n /\ pos + r < 2 ^ 63 /\ files_of w' = set_fd fd name (pos + r)
         (set_file name (overwrite bytes (Z.to_nat pos) (take (Z.to_nat r) data)) (files_of w)))
}.

(** ** Lemmas on the file table *)

Lemma fd_view_set t fd name bytes pos :
  fd_view (set_fd fd name pos (set_file name bytes t)) fd = Some (name, bytes, pos).
Proof. unfold fd_view. simpl. rewrite lookup_insert_eq. simpl. by rewrite lookup_insert_eq. Qed.

Lemma fd_view_inv t fd name bytes pos :
  fd_view t fd = Some (name, bytes, pos) -> fds t !! fd = Some (name, pos) /\ files t !! name = Some bytes.
Proof.
  unfold fd_view. intros ([n p] & E1 & (b & E2 & [= <- <- <-])%bind_Some)%bind_Some. done.
Qed.

Lemma fd_view_seek t fd name bytes pos pos' :
  fd_view t fd = Some (name, bytes, pos) ->
  fd_view (set_fd fd name pos' t) fd = Some (name, bytes, pos').
Proof.
  intros [_ E]%fd_view_inv. unfold fd_view. simpl. rewrite lookup_insert_eq. simpl. by rewrite E.
Qed.

Lemma fd_view_bytes t fd name bytes bytes' pos :
  fd_view t fd = Some (name, bytes, pos) ->
  fd_view (set_file name bytes' t) fd = Some (name, bytes', pos).
Proof.
  intros [E _]%fd_view_inv. unfold fd_view. simpl. rewrite E. simpl. by rewrite lookup_insert_eq.
Qed.

Lemma overwrite_inside bytes pos data :
  (pos <= length bytes)%nat ->
  overwrite bytes pos data = take pos bytes ++ data ++ drop (pos + length data) bytes.
Proof.
  intros Hp. unfold overwrite. destruct data as [|a data].
  - rewrite Nat.add_0_r. simpl. by rewrite take_drop.
  - replace (pos - length bytes)%nat with 0%nat by lia. simpl. by rewrite app_nil_r.
Qed.

Lemma length_overwrite bytes pos data :
  (0 < length data \/ pos <= length bytes)%nat ->
  length (overwrite bytes pos data) = Nat.max (length bytes) (pos + length data).
Proof.
  unfold overwrite. destruct data as [|a data]; [simpl; lia|]. intros _.
  rewrite !length_app, length_take, length_app, length_replicate, length_drop. lia.
Qed.

Lemma overwrite_split bytes pos d1 d2 :
  (pos <= length bytes)%nat ->
  overwrite (overwrite bytes pos d1) (pos + length d1) d2 = overwrite bytes pos (d1 ++ d2).
Proof.
  intros Hp. rewrite (overwrite_inside (overwrite _ _ _)) by (rewrite length_overwrite; lia).
  rewrite !overwrite_inside by done.
  assert (Hl : length (take pos bytes) = pos) by (rewrite length_take; lia).
  rewrite (app_assoc _ d1), take_app_length' by (rewrite length_app; lia).
  rewrite <- !app_assoc. do 3 f_equal.
  rewrite (app_assoc _ d1), drop_app_ge by (rewrite length_app; lia).
  rewrite drop_drop, !length_app, Hl. f_equal. lia.
Qed.

Lemma overwrite_all data : overwrite [] 0 data = data.
Proof. destruct data; [done|]. unfold overwrite. simpl. by rewrite app_nil_r. Qed.

Lemma length_resize bytes n : length (resize bytes n) = n.
Proof. unfold resize. rewrite length_take, length_app, length_replicate. lia. Qed.

(** ** A reference file system *)
Module SimFs.

(** The table, the next descriptor, and [errno]. *)
Record sim := Sim { tbl : table; next_fd : Z; err : Z }.

Definition failed (s : sim) (e : Z) : Z * sim := (-1, Sim (tbl s) (next_fd s) e).
Definition succeed (s : sim) (r : Z) (t : table) : Z * sim := (r, Sim t (next_fd s) (err s)).
Definition off_ok (z : Z) : bool := bool_decide (0 <= z < 2 ^ 63).

Definition sim_open (name : str) (flags mode : Z) (s : sim) : Z * sim :=
  let f := files (tbl s) !! name in
  let fd := next_fd s in
  if negb (has_flag flags O_CREAT) && bool_decide (f = None) then failed s 2
  else if has_flag flags O_CREAT && has_flag flags O_EXCL && bool_decide (f <> None) then failed s 17
  else if bool_decide (fd < 0) || bool_decide (fds (tbl s) !! fd <> None) then failed s 24
  else (fd, Sim (set_fd fd name 0 (set_file name
              (if has_flag flags O_TRUNC then [] else default [] f) (tbl s))) (fd + 1) (err s)).

Definition sim_close (fd : Z) (s : sim) : Z * sim :=
  match fds (tbl s) !! fd with
  | None => failed s 9
  | Some _ => succeed s 0 (Table (files (tbl s)) (delete fd (fds (tbl s))))
  end.

(** Any other call on a descriptor: [EBADF] when it is not open, else what [k]
    makes of its file, [EINVAL] for [None]. *)
Definition on_fd {A} (fd : Z) (s : sim) (bad : A)
    (k : str -> str -> Z -> option (A * Z * table)) : (Z * A) * sim :=
  match fd_view (tbl s) fd with
  | None => (-1, bad, (failed s 9).2)
  | Some (name, bytes, pos) =>
      match k name bytes pos with
      | None => (-1, bad, (failed s 22).2)
      | Some (a, r, t) => (r, a, (succeed s r t).2)
      end
  end.

Definition drop_snd (x : (Z * unit) * sim) : Z * sim := (x.1.1, x.2).

Definition sim_write (fd : Z) (data : str) (n : Z) (s : sim) : Z * sim :=
  drop_snd (on_fd fd s tt (fun name bytes pos =>
    let r := Z.min n (zlen data) in
    if off_ok r && off_ok (pos + r) then
      Some (tt, r, set_fd fd name (pos + r)
        (set_file name (overwrite bytes (Z.to_nat pos) (take (Z.to_nat r) data)) (tbl s)))
    else None)).

#[export] Instance sim_errno : HasErrno sim := err.

#[export] Instance sim_posix : PosixFile sim := {
  sys_open := sim_open;
  sys_close := sim_close;
  sys_fstat fd s := on_fd fd s 0 (fun name bytes pos =>
    if off_ok (zlen bytes) then Some (zlen bytes, 0, tbl s) else None);
  sys_lseek fd off whence s := drop_snd (on_fd fd s tt (fun name bytes pos =>
    match seek_base whence pos (zlen bytes) with
    | Some base => if off_ok (base + off) then Some (tt, base + off, set_fd fd name (base + off) (tbl s))
                   else None
    | None => None
    end));
  sys_ftruncate fd n s := drop_snd (on_fd fd s tt (fun name bytes pos =>
    if off_ok n then Some (tt, 0, set_file name (resize bytes (Z.to_nat n)) (tbl s)) else None));
  sys_read fd n s := on_fd fd s [] (fun name bytes pos =>
    let data := take (Z.to_nat n) (drop (Z.to_nat pos) bytes) in
    if off_ok (pos + zlen data) && off_ok n then
      Some (data, zlen data, set_fd fd name (pos + zlen data) (tbl s)) else None);
  sys_write := sim_write;
  sys_writev fd iov n s :=
    if bool_decide (n <= zlen iov) then
      sim_write fd (concat (take (Z.to_nat n) iov)) (zlen (concat (take (Z.to_nat n) iov))) s
    else failed s 22;
  sys_fdatasync fd s := drop_snd (on_fd fd s tt (fun _ _ _ => Some (tt, 0, tbl s)))
}.

Lemma off_ok_spec z : off_ok z = true -> 0 <= z < 2 ^ 63.
Proof. apply bool_decide_eq_true_1. Qed.

(** The case analysis that every law needs. *)
Ltac sim_cases :=
  simpl; unfold drop_snd, sim_write, on_fd, failed, succeed; simpl;
  let E := fresh "E" in
  destruct (fd_view _ _) as [[[nm bs] ps]|] eqn:E; simpl;
    [|split; [done|intros; first [lia|done]]];
  repeat (case_match; simpl in *; simplify_eq/=);
  repeat match goal with
  | H : _ && _ = true |- _ => apply andb_true_iff in H as [? ?]
  | H : off_ok _ = true |- _ => apply off_ok_spec in H
  end;
  (split; [first [done|intros; unfold zlen in *; lia]|intros; simplify_eq; first [lia|idtac]]).

#[export] Instance sim_table : FileTable sim := tbl.

#[export] Instance sim_laws : PosixFileLaws sim.
Proof.
  split; unfold files_of, sim_table.
  - intros name flags mode s. simpl. unfold sim_open.
    destruct (has_flag flags O_CREAT) eqn:E1, (has_flag flags O_EXCL) eqn:E2; simpl;
      repeat case_bool_decide; simpl; try (left; split; [lia|done]); right;
      (split_and!; [lia|done| | |done]); intros; try done.
    all: destruct (files (tbl s) !! name); [by eexists|done].
  - intros fd s. simpl. unfold sim_close. destruct (fds (tbl s) !! fd); simpl; split; first [done|lia].
  - intros fd s. sim_cases.
  - intros fd off whence s. sim_cases. eexists. split_and!; [done|lia..|done].
  - intros fd n s. sim_cases. split; [lia|done].
  - intros fd n s. sim_cases.
    split_and!; try lia; try done.
    + unfold zlen in *. rewrite length_take in *. lia.
    + rewrite length_take. by rewrite <- take_take, firstn_all.
  - intros fd data n s. sim_cases. split_and!; [lia..|done].
Qed.
End SimFs.
