(* ===== verification/File.v ===== *)
(** * Files ([whisperlib/io/file.h], [whisperlib/io/file.cc])

    The class [File] keeps a descriptor with the size and the position of the
    file cached in it.  A method is a program over the object and the world
    ([FS]); the system calls are those of the class [PosixFile].  The static
    functions create a [File] of their own and destroy it when they return. *)

From S2P Require Import Prelude Status Errno CordIo Posix.

Inductive Access := GENERIC_READ | GENERIC_WRITE | GENERIC_READ_WRITE
| other_access (value : Z).  (* a value cast to the enum *)

Definition AccessName (access : Access) : str :=
  match access with
  | GENERIC_READ => "GENERIC_READ"
  | GENERIC_WRITE => "GENERIC_WRITE"
  | GENERIC_READ_WRITE => "GENERIC_READ_WRITE"
  | other_access _ => "UNKNOWN"
  end.

Inductive CreationDisposition :=
| CREATE_ALWAYS | CREATE_NEW | OPEN_ALWAYS | OPEN_EXISTING | TRUNCATE_EXISTING
| other_disposition (value : Z).

Definition CreationDispositionName (cd : CreationDisposition) : str :=
  match cd with
  | CREATE_ALWAYS => "CREATE_ALWAYS"
  | CREATE_NEW => "CREATE_NEW"
  | OPEN_ALWAYS => "OPEN_ALWAYS"
  | OPEN_EXISTING => "OPEN_EXISTING"
  | TRUNCATE_EXISTING => "TRUNCATE_EXISTING"
  | other_disposition _ => "UNKNOWN"
  end.

(** The integer that [<<] appends for an enumerator. *)
Definition disposition_value (cd : CreationDisposition) : Z :=
  match cd with
  | CREATE_ALWAYS => 0 | CREATE_NEW => 1 | OPEN_ALWAYS => 2 | OPEN_EXISTING => 3
  | TRUNCATE_EXISTING => 4 | other_disposition v => v
  end.
Definition access_value (acc : Access) : Z :=
  match acc with
  | GENERIC_READ => 0 | GENERIC_WRITE => 1 | GENERIC_READ_WRITE => 2 | other_access v => v
  end.

Inductive MoveMethod := FILE_SET | FILE_CUR | FILE_END | other_method (value : Z).

Definition MoveMethodName (mm : MoveMethod) : str :=
  match mm with
  | FILE_SET => "FILE_SET"
  | FILE_CUR => "FILE_CUR"
  | FILE_END => "FILE_END"
  | other_method _ => "UNKNOWN"
  end.

Definition method_value (mm : MoveMethod) : Z :=
  match mm with
  | FILE_SET => SEEK_SET | FILE_CUR => SEEK_CUR | FILE_END => SEEK_END | other_method v => v
  end.

Definition kInvalidFdValue : Z := -1.

(** The members of [File]. *)
Record File := MkFile { filename_ : str; fd_ : Z; size_ : Z; position_ : Z }.

(** [File()]: [position_] has no initializer. *)
Definition File_ctor (uninitialized : Z) : File := MkFile [] kInvalidFdValue 0 uninitialized.

Definition is_open (f : File) : bool := bool_decide (fd_ f <> kInvalidFdValue).
Definition Size (f : File) : Z := size_ f.
Definition Position (f : File) : Z := position_ f.
Definition Remaining (f : File) : Z :=
  if decide (position_ f < size_ f) then size_ f - position_ f else 0.

(** The open flags and the mode of [File::Open], or the text of its error. *)
Definition disposition_flags (cd : CreationDisposition) : option Z :=
  match cd with
  | CREATE_ALWAYS => Some (Z.lor O_CREAT O_TRUNC)
  | CREATE_NEW => Some (Z.lor O_CREAT O_EXCL)
  | OPEN_ALWAYS => Some O_CREAT
  | OPEN_EXISTING => Some 0
  | TRUNCATE_EXISTING => Some O_TRUNC
  | other_disposition _ => None
  end.

Definition access_flags (acc : Access) : option (Z * Z) :=
  match acc with
  | GENERIC_READ => Some (O_RDONLY, 292)         (* 00444 *)
  | GENERIC_WRITE => Some (O_WRONLY, 420)        (* 00644 *)
  | GENERIC_READ_WRITE => Some (O_RDWR, 420)
  | other_access _ => None
  end.

Definition whence_of (mm : MoveMethod) : option Z :=
  match mm with
  | FILE_SET => Some SEEK_SET
  | FILE_CUR => Some SEEK_CUR
  | FILE_END => Some SEEK_END
  | other_method _ => None
  end.

Section File.
Context {W St Cord : Type} `{!HasErrno W} `{!PosixFile W} `{!Absl St} `{!Strerror} `{!CordApi Cord}.

(** ** The state of a method *)

Record FS := MkFS { world : W; file : File }.

Definition sys {A} (call : W -> A * W) : M FS A :=
  fun s => let '(a, w) := call (world s) in Ret a (MkFS w (file s)).
Definition set (f : File -> File) : M FS unit := modify (fun s => MkFS (world s) (f (file s))).
Definition this {A} (f : File -> A) : M FS A := gets (fun s => f (file s)).

Definition set_size (n : Z) (f : File) := MkFile (filename_ f) (fd_ f) n (position_ f).
Definition set_position (n : Z) (f : File) := MkFile (filename_ f) (fd_ f) (size_ f) n.

(** [return error::ErrnoToStatus(error::Errno()) << text;] *)
Definition fail_errno {R} `{FromStatus St R} (text : File -> str) : M FS R :=
  fun s => Ret (return_errno (sys_errno (world s)) (sys_errno (world s)) (text (file s))) s.

Definition file_cc : str := "whisperlib/io/file.cc".

(** [RET_CHECK(is_open()); rest] at a line of the source. *)
Definition check_open {R} `{FromStatus St R} (line : Z) (rest : M FS R) : M FS R :=
  o <- this is_open ;; RET_CHECK o "is_open()" file_cc line [] rest.

Definition UpdateSize : M FS St :=
  fd <- this fd_ ;;
  '(r, st_size) <- sys (sys_fstat fd) ;;
  if decide (r <> 0) then fail_errno (fun f => "Obtaining file size for: `" ++ filename_ f ++ "`")
  else set (set_size (u64 st_size)) ;; ret OkStatus.

Definition UpdatePosition : M FS St :=
  fd <- this fd_ ;;
  position <- sys (sys_lseek fd 0 SEEK_CUR) ;;
  if decide (position < 0) then
    fail_errno (fun f => "Obtaining the current position in file `" ++ filename_ f ++ "`")
  else set (set_position (u64 position)) ;; ret OkStatus.

(** [File::Set] *)
Definition Set_ (filename : str) (fd : Z) : M FS St :=
  o <- this is_open ;;
  RET_CHECK (negb o) "!is_open()" file_cc 153
    ("Cannot set an already opened file: `" ++ filename ++ "`")
    (set (fun f => MkFile filename fd (size_ f) (position_ f)) ;;
     RETURN_IF_ERROR UpdateSize []
       (RETURN_IF_ERROR UpdatePosition [] (ret OkStatus))).

(** [File::Open(filename, acc, cd)] *)
Definition Open (filename : str) (acc : Access) (cd : CreationDisposition) : M FS St :=
  o <- this is_open ;;
  RET_CHECK (negb o) "!is_open()" file_cc 95
    ("Cannot open an already opened file: `" ++ filename ++ "`")
    (match disposition_flags cd with
     | None => ret (return_error (InvalidArgumentErrorBuilder [])
         ("Cannot open filename `" ++ filename ++ "` - Invalid creation disposition: "
          ++ StrInt (disposition_value cd)))
     | Some dflags =>
     match access_flags acc with
     | None => ret (return_error (InvalidArgumentErrorBuilder [])
         ("Cannot open filename `" ++ filename ++ "` - Invalid access: "
          ++ StrInt (access_value acc)))
     | Some (aflags, mode) =>
         fd <- sys (sys_open (c_str filename) (Z.lor (Z.lor O_NOCTTY dflags) aflags) mode) ;;
         if decide (fd < 0) then
           fail_errno (fun _ => "Cannot open file `" ++ filename ++ "` " ++ " using access: "
             ++ AccessName acc ++ " creation disposition: " ++ CreationDispositionName cd)
         else Set_ filename fd
     end end).

(** [File::Close]: the local [status] is not what is returned. *)
Definition Close : M FS St :=
  o <- this is_open ;;
  if negb o then ret OkStatus
  else
    fd <- this fd_ ;;
    r <- sys (sys_close fd) ;;
    status <- (if decide (r < 0)
               then fail_errno (fun f => "Closing filename: `" ++ filename_ f ++ "`")
               else ret OkStatus) ;;
    set (fun _ => MkFile [] kInvalidFdValue 0 0) ;;
    ret OkStatus.

Definition File_dtor : M FS unit := Close ;; ret tt.

Definition SetPosition (distance : Z) (move_method : MoveMethod) : M FS (StatusOr St Z) :=
  check_open 208
    match whence_of move_method with
    | None =>
        name <- this filename_ ;;
        ret (return_error (InvalidArgumentErrorBuilder [])
          ("Invalid Move Method for SetPosition of file: `" ++ name ++ "` :"
           ++ StrInt (method_value move_method)))
    | Some whence =>
        fd <- this fd_ ;;
        crt <- sys (sys_lseek fd distance whence) ;;
        if decide (crt < 0) then
          fail_errno (fun f => "Seeing in file: `" ++ filename_ f ++ "` to position: "
            ++ StrInt distance ++ " with: " ++ MoveMethodName move_method)
        else
          set (set_position (u64 crt)) ;;
          position <- this position_ ;;
          ret (Value position)
    end.

(** [SetPosition(...).status()] *)
Definition SetPosition_status (distance : Z) (mm : MoveMethod) : M FS St :=
  r <- SetPosition distance mm ;; ret (sor_status r).

Definition Rewind : M FS St := SetPosition_status 0 FILE_SET.
Definition Skip (size : Z) : M FS St := SetPosition_status size FILE_CUR.

Definition Truncate (pos : option Z) : M FS St :=
  check_open 240
    (position <- this Position ;;
     let trunc_pos := match pos with Some p => p | None => position end in
     fd <- this fd_ ;;
     r <- sys (sys_ftruncate fd (i64 trunc_pos)) ;;
     if decide (r < 0) then
       fail_errno (fun f => "Truncating file `" ++ filename_ f ++ "` to position: " ++ StrInt trunc_pos)
     else
       RETURN_IF_ERROR (SetPosition_status 0 FILE_END)
         "Setting position at the end of the file upon truncation."
       (RETURN_IF_ERROR UpdateSize "Updating the file size upon truncation."
         (ret OkStatus))).

(** [ReadBuffer(buffer, size)]: the buffer comes back with the count. *)
Definition ReadBuffer (buffer : str) (size : Z) : M FS (StatusOr St (Z * str)) :=
  check_open 254
    (fd <- this fd_ ;;
     '(cb, data) <- sys (sys_read fd size) ;;
     if decide (cb < 0) then
       fail_errno (fun f => "::read() failed for file: `" ++ filename_ f ++ "`")
     else
       let buffer := data ++ drop (length data) buffer in
       set (fun f => set_position (u64 (position_ f + cb)) f) ;;
       size_ <- this size_ ;;
       position_ <- this position_ ;;
       if decide (size_ < position_) then
         RETURN_IF_ERROR UpdateSize [] (ret (Value (u64 cb, buffer)))
       else ret (Value (u64 cb, buffer))).

(** [ReadToCord(cord, size)]: the cord comes back with the count. *)
Definition ReadToCord (cord : Cord) (size : Z) : M FS (StatusOr St (Z * Cord)) :=
  check_open 269
    (let buffer := replicate (Z.to_nat size) "000"%char in
     ASSIGN_OR_RETURN (ReadBuffer buffer size) []
       (fun '(cb, buffer) =>
          ret (Value (cb, cord_Append cord (take (Z.to_nat cb) buffer))))).

Definition WriteBuffer (buffer : str) (size : Z) : M FS (StatusOr St Z) :=
  check_open 283
    (fd <- this fd_ ;;
     cb <- sys (sys_write fd buffer size) ;;
     if decide (cb < 0) then
       status <- fail_errno (R := St)
         (fun f => "::write() failed for file: `" ++ filename_ f ++ "`") ;;
       UpdatePosition ;;
       ret (Error status)
     else
       set (fun f => set_position (u64 (position_ f + cb)) f) ;;
       set (fun f => set_size (Z.max (size_ f) (position_ f)) f) ;;
       ret (Value (u64 cb))).

Definition Write (s : str) : M FS (StatusOr St Z) := WriteBuffer s (zlen s).

(** The loop of [WriteCord] over the remaining chunks. *)
Fixpoint write_chunks (chunks : list str) (size_to_write cb : Z) : M FS (StatusOr St Z) :=
  match chunks with
  | [] => ret (Value cb)
  | chunk :: chunks =>
      let chunk := cut_chunk chunk cb size_to_write in
      ASSIGN_OR_RETURN (Write chunk) "Writing cord chunk in file."
        (fun crt_cb =>
           if decide (crt_cb <> zlen chunk) then
             name <- this filename_ ;;
             ret (return_error (InternalErrorBuilder [])
               ("Write to file operation failed. Expected a write of " ++ StrInt (zlen chunk)
                ++ " bytes, but: " ++ StrInt crt_cb ++ " bytes were written to file `"
                ++ name ++ "`"))
           else
             let cb := u64 (cb + crt_cb) in
             if decide (size_to_write <= cb) then ret (Value cb)
             else write_chunks chunks size_to_write cb)
  end.

Definition WriteCord (cord : Cord) (size : option Z) : M FS (StatusOr St Z) :=
  check_open 303
    (let size_to_write := SizeToWrite cord size in
     write_chunks (Chunks cord) size_to_write 0).

(** [WriteCordVec]: the count given to [writev] is the number of bytes, and a
    failed call only builds a status that is not used. *)
Definition WriteCordVec (cord : Cord) (size : option Z) : M FS (StatusOr St Z) :=
  let size_to_write := SizeToWrite cord size in
  let io_vec_pair := ToIovec cord size_to_write in
  fd <- this fd_ ;;
  cb <- sys (sys_writev fd io_vec_pair.1 io_vec_pair.2) ;;
  status <- (if decide (cb < 0) then
     fail_errno (R := St) (fun f => "::writeev() failed for file: `" ++ filename_ f
       ++ "` with: " ++ StrInt (zlen io_vec_pair.1) ++ " chunks and: "
       ++ StrInt io_vec_pair.2 ++ " bytes.")
   else ret OkStatus) ;;
  set (fun f => set_position (u64 (position_ f + cb)) f) ;;
  set (fun f => set_size (Z.max (size_ f) (position_ f)) f) ;;
  if decide (u64 cb <> io_vec_pair.2) then
    name <- this filename_ ;;
    ret (return_error (InternalErrorBuilder [])
      ("::writeev() file operation failed. Expected a write of " ++ StrInt io_vec_pair.2
       ++ " bytes, but: " ++ StrInt cb ++ " bytes were written to file `" ++ name ++ "`"))
  else ret (Value io_vec_pair.2).

Definition Flush : M FS St :=
  check_open 353
    (fd <- this fd_ ;;
     r <- sys (sys_fdatasync fd) ;;
     if decide (r < 0) then
       fail_errno (fun f => "Syncing data of file `" ++ filename_ f ++ "` with fdatasync")
     else ret OkStatus).

(** ** The static functions *)

(** A method of a [File] that is local to the caller, and its destructor. *)
Definition on_file {A} (f : File) (m : M FS A) : M W (A * File) :=
  fun w => match m (MkFS w f) with
           | Ret a s => Ret (a, file s) (world s)
           | Fatal why => Fatal why
           end.

Definition scoped {A} (f : File) (m : M FS A) : M W A :=
  '(a, f) <- on_file f m ;; on_file f File_dtor ;; ret a.

(** A new [File], given to the caller unless opening it fails. *)
Definition make_file (uninitialized : Z) (open : M FS St) : M W (StatusOr St File) :=
  '(r, f) <- on_file (File_ctor uninitialized)
       (RETURN_IF_ERROR (R := StatusOr St unit) open [] (ret (Value tt))) ;;
  match r with
  | Value _ => ret (Value f)
  | Error st => on_file f File_dtor ;; ret (Error st)
  end.

(** [File::Create(filename)] and [File::Open(filename)] *)
Definition Create (uninit : Z) (filename : str) : M W (StatusOr St File) :=
  make_file uninit (Open filename GENERIC_READ_WRITE CREATE_ALWAYS).
Definition Open_static (uninit : Z) (filename : str) : M W (StatusOr St File) :=
  make_file uninit (Open filename GENERIC_READ OPEN_EXISTING).

Definition ReadAsString (uninit : Z) (filename : str) (max_size : Z) : M W (StatusOr St str) :=
  ASSIGN_OR_RETURN (Open_static uninit filename) []
    (fun f => scoped f
       (file_size <- this Size ;;
        let size := Z.min max_size file_size in
        let buffer := replicate (Z.to_nat size) "000"%char in
        ASSIGN_OR_RETURN (ReadBuffer buffer size) []
          (fun '(cb, buffer) =>
             let buffer := take (Z.to_nat cb) buffer in
             RETURN_IF_ERROR Close [] (ret (Value buffer))))).

Definition WriteFromString (uninit : Z) (filename data : str) : M W (StatusOr St Z) :=
  ASSIGN_OR_RETURN (Create uninit filename) []
    (fun f => scoped f
       (ASSIGN_OR_RETURN (Write data) []
          (fun cb => RETURN_IF_ERROR Close [] (ret (Value cb))))).
End File.

Arguments FS : clear implicits.

(** ** Correctness *)

(** How the primitives of a method run. *)
Section Rules.
Context {W : Type}.

Lemma returns_this {A B} (f : File -> A) (k : A -> M (FS W) B) s Q :
  returns (k (f (file s))) s Q -> returns (bind (this f) k) s Q.
Proof. done. Qed.

Lemma returns_set {B} (f : File -> File) (k : unit -> M (FS W) B) s Q :
  returns (k tt) (MkFS (world s) (f (file s))) Q -> returns (bind (set f) k) s Q.
Proof. done. Qed.

Lemma returns_sys {A B} (call : W -> A * W) (k : A -> M (FS W) B) s Q :
  returns (k (call (world s)).1) (MkFS (call (world s)).2 (file s)) Q ->
  returns (bind (sys call) k) s Q.
Proof.
  intros (b & s' & E & HQ). exists b, s'. split; [|done].
  unfold bind, sys. destruct (call (world s)). done.
Qed.

Context {St : Type} `{!HasErrno W} `{!PosixFile W} `{HAbsl : !Absl St} `{!Strerror}.
Context `{HLaws : !AbslLaws St}.

Lemma returns_fail {R} `{FromStatus St R} text (s : FS W) (Q : R -> FS W -> Prop) :
  (forall st, ok st = false -> Q (from_status st) s) -> returns (fail_errno text) s Q.
Proof.
  intros HQ. eexists _, _. split; [done|].
  exact (HQ (return_errno (R := St) _ _ _) (ok_return_errno _ _ _)).
Qed.

Lemma returns_fail_bind {B} text (k : St -> M (FS W) B) (s : FS W) Q :
  (forall st, ok st = false -> returns (k st) s Q) -> returns (bind (fail_errno text) k) s Q.
Proof.
  intros HQ. eapply returns_bind; [by apply (returns_fail text s (fun st s' => ok st = false /\ s' = s))|].
  intros st s' [Hst ->]. by apply HQ.
Qed.

Lemma returns_check_open {R} `{FromStatus St R} line (rest : M (FS W) R) s Q :
  fd_ (file s) <> kInvalidFdValue -> returns rest s Q -> returns (check_open line rest) s Q.
Proof.
  intros Ho Hr. unfold check_open. apply returns_this. unfold is_open.
  by rewrite bool_decide_eq_true_2.
Qed.

(** On a closed file every method that checks fails and changes nothing. *)
Lemma check_open_closed {R} `{FromStatus St R} line (rest : M (FS W) R) s Q :
  fd_ (file s) = kInvalidFdValue ->
  (forall st, ok st = false -> code st = kFailedPrecondition -> Q (from_status st) s) ->
  returns (check_open line rest) s Q.
Proof.
  intros Ho HQ. unfold check_open. apply returns_this. unfold is_open.
  rewrite bool_decide_eq_false_2 by auto. apply returns_ret.
  assert (E : code (to_status (append_to (ret_check_writer (St := St) "is_open()" file_cc line) []))
              = kFailedPrecondition) by (rewrite code_to_status; apply code_mk).
  refine (HQ (to_status _) _ E). apply ok_false. by rewrite E.
Qed.
End Rules.

(** One step of a method. *)
Ltac step :=
  lazymatch goal with
  | |- returns (check_open _ _) _ _ => apply returns_check_open; [done|]
  | |- returns (bind (this _) _) _ _ => apply returns_this; simpl
  | |- returns (bind (set _) _) _ _ => apply returns_set; simpl
  | |- returns (bind (sys _) _) _ _ => apply returns_sys; simpl
  | |- returns (bind (fail_errno _) _) _ _ => apply returns_fail_bind; intros ? ?
  | |- returns (fail_errno _) _ _ => apply returns_fail; intros ? ?
  | |- returns (ret _) _ _ => apply returns_ret
  end.

Section Correct.
Context {W St Cord : Type} `{!HasErrno W} `{!PosixFile W} `{HAbsl : !Absl St} `{!Strerror} `{!CordApi Cord}.
Context `{HLaws : !AbslLaws St} `{HT : !FileTable W} `{HP : !PosixFileLaws W}.

(** The descriptor refers to the file [name] with [bytes] at offset [pos]. *)
Definition view (s : FS W) (name bytes : str) (pos : Z) : Prop :=
  fd_view (files_of (world s)) (fd_ (file s)) = Some (name, bytes, pos).

(** The caches are right: [size_] is the size of the file and [position_] is
    the offset of the descriptor. *)
Record coherent (s : FS W) (name bytes : str) (pos : Z) : Prop := {
  co_open : fd_ (file s) <> kInvalidFdValue;
  co_view : view s name bytes pos;
  co_size : size_ (file s) = zlen bytes;
  co_position : position_ (file s) = pos;
  co_bytes : zlen bytes < 2 ^ 63;
  co_pos : 0 <= pos < 2 ^ 63
}.

Lemma UpdateSize_spec (s : FS W) name bytes pos :
  view s name bytes pos ->
  returns (UpdateSize (St := St)) s (fun st s' =>
    files_of (world s') = files_of (world s) /\
    ((ok st = false /\ file s' = file s) \/
     (ok st = true /\ file s' = set_size (zlen bytes) (file s) /\ zlen bytes < 2 ^ 63))).
Proof.
  intros Hv. unfold UpdateSize. do 2 step.
  pose proof (fstat_spec (fd_ (file s)) (world s)) as Hs.
  destruct (sys_fstat _ _) as [[r size] w]. destruct Hs as [Ht Hz]. simpl. case_decide as Hr.
  - step. auto.
  - do 2 step. destruct (Hz ltac:(lia) _ _ _ Hv) as [-> Hb]. split; [done|right].
    split_and!; [apply ok_OkStatus| |done].
    simpl. by rewrite u64_id by (pose proof (zlen_nonneg bytes); lia).
Qed.

Lemma UpdatePosition_spec (s : FS W) name bytes pos :
  view s name bytes pos -> 0 <= pos ->
  returns (UpdatePosition (St := St)) s (fun st s' =>
    view s' name bytes pos /\ files (files_of (world s')) = files (files_of (world s)) /\
    ((ok st = false /\ file s' = file s) \/
     (ok st = true /\ file s' = set_position pos (file s) /\ pos < 2 ^ 63))).
Proof.
  intros Hv Hp. unfold UpdatePosition. do 2 step.
  pose proof (lseek_spec (fd_ (file s)) 0 SEEK_CUR (world s)) as Hs.
  destruct (sys_lseek _ _ _ _) as [r w]. destruct Hs as [Hf Hz]. simpl. case_decide as Hr.
  - step. unfold view in *. simpl. rewrite (Hf Hr). auto.
  - do 2 step. destruct (Hz ltac:(lia) _ _ _ Hv) as (base & [= <-] & -> & Hb & Ht).
    rewrite Z.add_0_r in *. unfold view in *. simpl. rewrite Ht. split_and!.
    + by apply (fd_view_seek _ _ _ _ pos).
    + done.
    + right. rewrite u64_id by lia. split_and!; [apply ok_OkStatus|done|lia].
Qed.

(** [SetPosition] does not look at the cached size. *)
Lemma SetPosition_view (s : FS W) name bytes pos distance mm :
  fd_ (file s) <> kInvalidFdValue -> view s name bytes pos ->
  returns (SetPosition (St := St) distance mm) s (fun r s' =>
    match r with
    | Value p => view s' name bytes p /\ file s' = set_position p (file s) /\ 0 <= p < 2 ^ 63 /\
        exists whence base, whence_of mm = Some whence /\
          seek_base whence pos (zlen bytes) = Some base /\ p = base + distance
    | Error st => ok st = false /\ view s' name bytes pos /\ file s' = file s
    end).
Proof.
  intros Ho Hv. unfold SetPosition. step. destruct (whence_of mm) as [whence|].
  - do 2 step. pose proof (lseek_spec (fd_ (file s)) distance whence (world s)) as Hs.
    destruct (sys_lseek _ _ _ _) as [r w]. destruct Hs as [Hf Hz]. simpl. case_decide as Hr.
    + step. split_and!; [done| |done]. unfold view in *. simpl. by rewrite (Hf Hr).
    + do 3 step. destruct (Hz ltac:(lia) _ _ _ Hv) as (base & Hbase & -> & Hlt & Ht).
      rewrite u64_id by lia. split_and!; [|done|lia|lia|by exists whence, base].
      unfold view. simpl. rewrite Ht. by apply (fd_view_seek _ _ _ _ pos).
  - step. apply returns_builder; [done|]. intros st Hst _. by split.
Qed.

(** [SetPosition(...).status()] on a coherent object. *)
Lemma SetPosition_status_spec (s : FS W) name bytes pos distance mm :
  coherent s name bytes pos ->
  returns (SetPosition_status (St := St) distance mm) s (fun st s' =>
    (ok st = true /\ exists p, coherent s' name bytes p /\ exists whence base,
        whence_of mm = Some whence /\
        seek_base whence pos (zlen bytes) = Some base /\ p = base + distance) \/
    (ok st = false /\ coherent s' name bytes pos)).
Proof.
  intros [Ho Hv Hsz Hps Hb Hp]. unfold SetPosition_status.
  eapply returns_bind; [by apply SetPosition_view|].
  intros [p|st] s'; intros Hr; apply returns_ret; simpl.
  - destruct Hr as (Hv' & Hf & Hp' & Hw). left. split; [apply ok_OkStatus|]. exists p.
    split; [|done]. split; rewrite ?Hf; done.
  - destruct Hr as (Hst & Hv' & Hf). right. split; [done|]. split; rewrite ?Hf; done.
Qed.

Lemma coherent_view s name bytes pos s' :
  coherent s name bytes pos -> files_of (world s') = files_of (world s) ->
  file s' = file s -> coherent s' name bytes pos.
Proof. intros [Ho Hv Hsz Hps Hb Hp] Ht Hf. split; unfold view in *; rewrite ?Hf, ?Ht; done. Qed.

Lemma ReadBuffer_spec (s : FS W) name bytes pos buffer n :
  coherent s name bytes pos ->
  returns (ReadBuffer (St := St) buffer n) s (fun r s' =>
    fd_ (file s') = fd_ (file s) /\
    match r with
    | Value (cb, b) => exists data, cb = zlen data /\ cb <= n /\
        data = take (length data) (drop (Z.to_nat pos) bytes) /\
        b = data ++ drop (length data) buffer /\ coherent s' name bytes (pos + cb)
    | Error st => ok st = false /\
        exists pos', view s' name bytes pos' /\ position_ (file s') = pos' /\ 
          size_ (file s') = zlen bytes
    end).
Proof.
  intros Hc. pose proof Hc as [Ho Hv Hsz Hps Hb Hp]. unfold ReadBuffer. do 3 step.
  pose proof (read_spec (fd_ (file s)) n (world s)) as Hs.
  destruct (sys_read _ _ _) as [[r data] w]. destruct Hs as [Hf Hz]. simpl. case_decide as Hr.
  { step. split; [done|]. split; [done|]. exists pos. unfold view in *. simpl.
    by rewrite (Hf Hr). }
  destruct (Hz ltac:(lia) _ _ _ Hv) as (Hn & Hlt & -> & Hd & Ht).
  do 3 step. pose proof (zlen_nonneg data). rewrite Hps, (u64_id (pos + _)), (u64_id (zlen data)) by lia.
  assert (Hv' : fd_view (files_of w) (fd_ (file s)) = Some (name, bytes, pos + zlen data)).
  { rewrite Ht. by apply (fd_view_seek _ _ _ _ pos). }
  assert (Hc' : coherent (MkFS w (set_position (pos + zlen data) (file s)))
                         name bytes (pos + zlen data)) by (split; try done; simpl; lia).
  case_decide.
  - eapply returns_if_error; [by apply (UpdateSize_spec _ name bytes (pos + zlen data))| |].
    + intros st s' [Ht' [[Hst _]|(_ & Hf' & _)]] Hst'; [congruence|]. step. split.
      { by rewrite Hf'. }
      exists data. split_and!; try done.
      destruct Hc'. split; unfold view; rewrite ?Hf', ?Ht'; done.
    + intros st s' st' [Ht' [[_ Hf']|(Hok & _)]] Hst Hst' _; [|congruence].
      rewrite Hf'. split; [done|]. split; [done|]. exists (pos + zlen data).
      unfold view. by rewrite Ht', Hf'.
  - step. split; [done|]. by exists data.
Qed.

(** The bytes of the file after a write of [k] bytes of [data] at [pos]. *)
Definition written (bytes : str) (pos k : Z) (data : str) : str :=
  overwrite bytes (Z.to_nat pos) (take (Z.to_nat k) data).

Lemma WriteBuffer_spec (s : FS W) name bytes pos data n :
  coherent s name bytes pos -> n <= zlen data ->
  returns (WriteBuffer (St := St) data n) s (fun r s' =>
    fd_ (file s') = fd_ (file s) /\
    match r with
    | Value cb => 0 <= cb <= n /\
        (0 < cb \/ pos <= zlen bytes -> coherent s' name (written bytes pos cb data) (pos + cb))
    | Error st => ok st = false /\ coherent s' name bytes pos
    end).
Proof.
  intros Hc Hn. pose proof Hc as [Ho Hv Hsz Hps Hb Hp]. unfold WriteBuffer. do 3 step.
  pose proof (write_spec (fd_ (file s)) data n (world s)) as Hs.
  destruct (sys_write _ _ _ _) as [r w]. destruct Hs as [Hf Hz]. simpl. case_decide as Hr.
  - step. eapply returns_bind.
    { apply (UpdatePosition_spec _ name bytes pos); [|lia]. unfold view. simpl. by rewrite (Hf Hr). }
    intros st' s' (Hv' & _ & Hf'). step.
    assert (Ef : file s' = file s).
    { destruct Hf' as [[_ ->]|(_ & -> & _)]; [done|]. simpl. unfold set_position.
      rewrite <- Hps. by destruct (file s). }
    rewrite Ef. split; [done|]. split; [done|]. split; rewrite ?Ef; done.
  - destruct (Hz ltac:(lia) _ _ _ Hv) as (Hle & Hlt & Ht). do 3 step.
    rewrite Hps, (u64_id (pos + r)), (u64_id r) by lia. split; [done|]. split; [lia|]. intros Hpos.
    assert (Hl : zlen (written bytes pos r data) = Z.max (zlen bytes) (pos + r)).
    { unfold zlen, written in *. rewrite length_overwrite; rewrite length_take; lia. }
    split; simpl; [done| |lia|done|lia|lia].
    unfold view. simpl. rewrite Ht. apply fd_view_set.
Qed.

(** ** Writing a cord *)

(** Writes that follow each other are one write. *)
Lemma written_split bytes pos P k data :
  0 <= pos <= zlen bytes -> 0 <= k ->
  written (overwrite bytes (Z.to_nat pos) P) (pos + zlen P) k data
  = overwrite bytes (Z.to_nat pos) (P ++ take (Z.to_nat k) data).
Proof.
  intros Hp Hk. unfold written, zlen in *. rewrite <- overwrite_split by lia. f_equal. lia.
Qed.

Lemma take_concat_step {A} (P : list A) (chunk rest : list A) k :
  (k <= length chunk)%nat ->
  take (length P + k) (P ++ chunk ++ rest) = P ++ take k chunk.
Proof. intros Hk. rewrite take_app_add, take_app_le by done. done. Qed.

Lemma write_chunks_spec chunks size bytes name pos P (s : FS W) :
  0 <= pos <= zlen bytes -> 0 <= size <= size_max ->
  zlen P < size \/ P = [] -> zlen (P ++ concat chunks) <= size_max ->
  coherent s name (overwrite bytes (Z.to_nat pos) P) (pos + zlen P) ->
  returns (write_chunks (St := St) chunks size (zlen P)) s (fun r s' =>
    exists k, 0 <= k <= size /\
      coherent s' name (written bytes pos k (P ++ concat chunks)) (pos + k) /\
      match r with
      | Value n => n = k /\ k = Z.min size (zlen (P ++ concat chunks))
      | Error st => ok st = false
      end).
Proof.
  intros Hpos Hsize. revert P s. induction chunks as [|chunk chunks IH]; intros P s Hlt Hmax Hc; simpl.
  { apply returns_ret. exists (zlen P). simpl in *. rewrite app_nil_r in *. unfold written.
    pose proof (zlen_nonneg P). split; [destruct Hlt as [| ->]; [lia|unfold zlen in *; simpl in *; lia]|].
    rewrite take_ge by (unfold zlen; lia). split; [done|]. split; [done|].
    destruct Hlt as [| ->]; [lia|unfold zlen in *; simpl in *; lia]. }
  pose proof (zlen_nonneg P). simpl in Hmax. rewrite !zlen_app in Hmax.
  pose proof (zlen_nonneg (concat chunks)).
  assert (HPs : zlen P <= size) by (destruct Hlt as [| ->]; [lia|unfold zlen in *; simpl in *; lia]).
  rewrite cut_chunk_spec by lia. set (t := take _ chunk).
  assert (Ht : zlen t = Z.min (size - zlen P) (zlen chunk))
    by (pose proof (zlen_nonneg chunk); unfold t, zlen in *; rewrite length_take; lia).
  pose proof (zlen_nonneg t).
  assert (Hprefix : forall k, 0 <= k <= zlen t ->
    P ++ take (Z.to_nat k) t = take (Z.to_nat (zlen P + k)) (P ++ chunk ++ concat chunks)).
  { intros k Hk. replace (Z.to_nat (zlen P + k)) with (length P + Z.to_nat k)%nat
      by (unfold zlen; lia).
    rewrite take_concat_step by (unfold zlen in *; lia). unfold t. rewrite take_take.
    do 2 f_equal. unfold zlen in *. lia. }
  assert (Hin : pos + zlen P <= zlen (overwrite bytes (Z.to_nat pos) P)).
  { unfold zlen in *. rewrite length_overwrite by lia. lia. }
  eapply returns_assign.
  { eapply (WriteBuffer_spec _ _ _ _ t (zlen t) Hc). lia. }
  - intros cb s' [Hfd [Hcb Hc']]. specialize (Hc' ltac:(lia)).
    rewrite written_split, Hprefix in Hc' by lia.
    assert (Hdone : forall r : StatusOr St Z,
      match r with
      | Value n => n = zlen P + cb /\ zlen P + cb = Z.min size (zlen (P ++ chunk ++ concat chunks))
      | Error st => ok st = false
      end ->
      exists k, 0 <= k <= size /\
        coherent s' name (written bytes pos k (P ++ chunk ++ concat chunks)) (pos + k) /\
        match r with
        | Value n => n = k /\ k = Z.min size (zlen (P ++ chunk ++ concat chunks))
        | Error st => ok st = false
        end).
    { intros r Hr. exists (zlen P + cb). split; [lia|]. split; [|done].
      unfold written. by rewrite Z.add_assoc. }
    case_decide as Hshort.
    { step. apply returns_builder; [done|]. intros st Hst _. exact (Hdone (Error st) Hst). }
    rewrite u64_id by (unfold size_max in *; lia). case_decide as Hend.
    { step. apply (Hdone (Value _)). rewrite !zlen_app. lia. }
    assert (Et : t = chunk) by (unfold t; apply take_ge; unfold zlen in *; lia).
    specialize (IH (P ++ chunk) s'). rewrite <- app_assoc, (zlen_app P chunk) in IH.
    replace cb with (zlen chunk) in * by (rewrite <- Et; lia). apply IH.
    + lia.
    + rewrite !zlen_app. lia.
    + revert Hc'. rewrite Z.add_assoc, app_assoc, take_app_length'; [done|].
      unfold zlen. rewrite length_app. lia.
  - intros st s' st' [_ [Hst Hc']] Hcode. exists (zlen P). split; [lia|]. split.
    + unfold written. rewrite take_app_le, take_ge by (unfold zlen; lia). done.
    + change (ok st' = false). apply ok_false. rewrite Hcode. by apply ok_false.
Qed.

(** ** Truncating *)

Lemma i64_nonneg z : 0 <= z < 2 ^ 64 -> 0 <= i64 z -> i64 z = z.
Proof.
  intros Hz Hn. apply i64_id. unfold i64 in Hn.
  destruct (decide (z < 2 ^ 63)); [lia|].
  replace (z + 2 ^ 63) with ((z - 2 ^ 63) + 1 * 2 ^ 64) in Hn by lia.
  rewrite Z_mod_plus_full, Z.mod_small in Hn; lia.
Qed.

Lemma Truncate_spec (s : FS W) name bytes pos p :
  coherent s name bytes pos -> (forall n, p = Some n -> 0 <= n < 2 ^ 64) ->
  returns (Truncate (St := St) p) s (fun st s' =>
    ok st = true -> let n := default pos p in
    coherent s' name (resize bytes (Z.to_nat n)) n).
Proof.
  intros Hc Hn. pose proof Hc as [Ho Hv Hsz Hps Hb Hp]. unfold Truncate. do 3 step.
  set (n := match p with Some p => p | None => _ end).
  assert (En : default pos p = n) by (unfold n; destruct p; [done|by symmetry]).
  assert (Hn64 : 0 <= n < 2 ^ 64) by (rewrite <- En; destruct p; simpl; [by apply Hn|lia]).
  step. pose proof (ftruncate_spec (fd_ (file s)) (i64 n) (world s)) as Hs.
  destruct (sys_ftruncate _ _ _) as [r w]. destruct Hs as [_ Hz]. simpl. case_decide as Hr.
  { step. intros Hok. change (ok st = true) in Hok. congruence. }
  destruct (Hz ltac:(lia) _ _ _ Hv) as [Hi Ht]. 
  assert (Ei : i64 n = n) by (apply i64_nonneg; lia). rewrite Ei in Hi, Ht.
  rewrite En. set (bytes' := resize bytes (Z.to_nat n)) in *.
  assert (Hl : zlen bytes' = n) by (unfold bytes', zlen; rewrite length_resize; lia).
  assert (Hv' : view (MkFS w (file s)) name bytes' pos)
    by (unfold view; simpl; rewrite Ht; by apply fd_view_bytes with bytes).
  eapply (returns_if_error _ _ _ _ (fun st s' => ok st = true -> view s' name bytes' n /\
    file s' = set_position n (file s))).
  { unfold SetPosition_status. eapply returns_bind; [by apply SetPosition_view|].
    intros [q|st] s' Hr'; apply returns_ret; simpl.
    - intros _. destruct Hr' as (Hv2 & Hf & _ & whence & base & [= <-] & [= <-] & ->).
      by rewrite Hl, Z.add_0_r in *.
    - destruct Hr' as [Hst _]. congruence. }
  - intros st s' H1 Hst. destruct (H1 Hst) as [Hv2 Hf].
    eapply returns_if_error; [by eapply UpdateSize_spec| |].
    + intros st2 s2 [Ht2 [[E _]|(_ & Hf2 & Hb2)]] Hst2; [congruence|]. step. intros _.
      split; unfold view in *; rewrite ?Ht2, ?Hf2, ?Hf in *; simpl; try done; lia.
    + intros st2 s2 st3 _ _ Hst3 _ Hok. change (ok st3 = true) in Hok. congruence.
  - intros st s' st' _ _ Hst' _ Hok. change (ok st' = true) in Hok. congruence.
Qed.

(** ** Opening and closing *)

Definition same_files (w w' : W) : Prop := files (files_of w') = files (files_of w).

Lemma Close_spec (s : FS W) :
  returns (Close (St := St)) s (fun st s' => st = OkStatus /\
    fd_ (file s') = kInvalidFdValue /\ same_files (world s) (world s')).
Proof.
  unfold Close. step. unfold is_open. case_bool_decide as Ho; simpl.
  - step. step. pose proof (close_spec (fd_ (file s)) (world s)) as Hs.
    destruct (sys_close _ _) as [r w]. destruct Hs as [Hf _]. simpl. case_decide.
    + step. step. by step.
    + by apply returns_ret.
  - step. split_and!; [done| |done]. done.
Qed.

Lemma Set_spec (s : FS W) filename name fd bytes :
  fd_ (file s) = kInvalidFdValue -> fd <> kInvalidFdValue ->
  fd_view (files_of (world s)) fd = Some (name, bytes, 0) ->
  returns (Set_ (St := St) filename fd) s (fun st s' => same_files (world s) (world s') /\
    fd_ (file s') = fd /\ (ok st = true -> coherent s' name bytes 0)).
Proof.
  intros Ho Hfd Hv. unfold Set_. step. unfold is_open. rewrite bool_decide_eq_false_2 by auto.
  simpl. step. eapply returns_if_error; [by apply (UpdateSize_spec _ name bytes 0)| |].
  - intros st s' [Ht [[E _]|(_ & Hf & Hb)]] Hst; [congruence|].
    eapply returns_if_error.
    { apply (UpdatePosition_spec _ name bytes 0); [|lia]. unfold view. by rewrite Ht, Hf. }
    + intros st2 s2 (Hv2 & Ht2 & [[E _]|(_ & Hf2 & Hb2)]) Hst2; [congruence|]. step.
      unfold same_files. rewrite Ht2, Ht, Hf2, Hf. split_and!; [done..|]. intros _.
      split; rewrite ?Hf2, ?Hf; try done.
    + intros st2 s2 st3 (Hv2 & Ht2 & [[_ Hf2]|(E & _)]) Hst2 Hst3 _; [|congruence].
      unfold same_files. rewrite Ht2, Ht, Hf2, Hf. split_and!; [done..|].
      intros E. change (ok st3 = true) in E. congruence.
  - intros st s' st2 [Ht [[_ Hf]|(E & _)]] Hst Hst2 _; [|congruence].
    unfold same_files. rewrite Ht, Hf. split_and!; [done..|].
    intros E. change (ok st2 = true) in E. congruence.
Qed.

(** What opening does to the files, by the flags of the disposition. *)
Definition opens (flags : Z) (name : str) (w w' : W) (bytes : str) : Prop :=
  (has_flag flags O_CREAT = false -> is_Some (files (files_of w) !! name)) /\
  bytes = (if has_flag flags O_TRUNC then [] else default [] (files (files_of w) !! name)) /\
  files (files_of w') = <[name:=bytes]> (files (files_of w)).

Lemma Open_spec (s : FS W) name acc cd dflags aflags mode :
  fd_ (file s) = kInvalidFdValue ->
  disposition_flags cd = Some dflags -> access_flags acc = Some (aflags, mode) ->
  returns (Open (St := St) name acc cd) s (fun st s' =>
    (ok st = false /\ fd_ (file s') = kInvalidFdValue /\ same_files (world s) (world s')) \/
    (fd_ (file s') <> kInvalidFdValue /\ exists bytes,
       opens (Z.lor (Z.lor O_NOCTTY dflags) aflags) (c_str name) (world s) (world s') bytes /\
       (ok st = true -> coherent s' (c_str name) bytes 0))).
Proof.
  intros Ho Hd Ha. unfold Open. step. unfold is_open. rewrite bool_decide_eq_false_2 by auto.
  simpl. rewrite Hd, Ha. step. set (flags := Z.lor _ _).
  pose proof (open_spec (c_str name) flags mode (world s)) as Hs.
  destruct (sys_open _ _ _ _) as [fd w]. simpl. case_decide as Hfd.
  - step. left. destruct Hs as [[_ Hs]|[? _]]; [|lia]. unfold same_files. simpl.
    rewrite Hs. done.
  - destruct Hs as [[? _]|(_ & _ & Hc & _ & Ht)]; [lia|].
    eapply returns_mono.
    { eapply (Set_spec (MkFS w (file s)) name (c_str name) fd); simpl; [done|unfold kInvalidFdValue; lia|].
      rewrite Ht. apply fd_view_set. }
    intros st s' (Hf & Hfd' & Hco). right. split; [unfold kInvalidFdValue; lia|].
    eexists. split; [|exact Hco]. split; [done|]. split; [done|].
    unfold same_files in Hf. simpl in Hf. by rewrite Hf, Ht.
Qed.

Lemma on_file_returns {A} (f : File) (m : M (FS W) A) (w : W) (Q : A -> FS W -> Prop) :
  returns m (MkFS w f) Q ->
  returns (on_file f m) w (fun x w' => Q x.1 (MkFS w' x.2)).
Proof. intros (a & [w' f'] & E & HQ). exists (a, f'), w'. unfold on_file. by rewrite E. Qed.

Lemma dtor_returns (f : File) (w : W) :
  returns (on_file f (File_dtor (St := St))) w (fun _ w' => same_files w w').
Proof.
  eapply returns_mono; [apply on_file_returns|].
  - unfold File_dtor. eapply returns_bind; [apply Close_spec|].
    intros st s' (_ & _ & Hs). apply (returns_ret tt s' (fun _ s' => same_files w (world s'))).
    exact Hs.
  - by intros [? ?] w'.
Qed.

Lemma scoped_returns {A} (f : File) (m : M (FS W) A) (w : W) (Q : A -> gmap str str -> Prop) :
  returns m (MkFS w f) (fun a s' => Q a (files (files_of (world s')))) ->
  returns (scoped (St := St) f m) w (fun a w' => Q a (files (files_of w'))).
Proof.
  intros Hm. unfold scoped. eapply returns_bind; [by apply on_file_returns|].
  intros [a f'] w' HQ. eapply returns_bind; [apply dtor_returns|].
  intros u w2 Hs. apply returns_ret. unfold same_files in Hs. by rewrite Hs.
Qed.

Lemma make_file_spec uninit name acc cd dflags aflags mode (w : W) :
  disposition_flags cd = Some dflags -> access_flags acc = Some (aflags, mode) ->
  returns (make_file uninit (Open (St := St) name acc cd)) w (fun r w' =>
    match r with
    | Value f => exists bytes, opens (Z.lor (Z.lor O_NOCTTY dflags) aflags) (c_str name) w w' bytes /\
        coherent (MkFS w' f) (c_str name) bytes 0
    | Error st => same_files w w' \/
        exists bytes, opens (Z.lor (Z.lor O_NOCTTY dflags) aflags) (c_str name) w w' bytes
    end).
Proof.
  intros Hd Ha. unfold make_file. eapply returns_bind.
  - apply on_file_returns. eapply returns_if_error.
    + by apply (Open_spec (MkFS w (File_ctor uninit)) name acc cd dflags aflags mode).
    + intros st s' Hs Hst. step. instantiate (1 := fun r s' =>
        match r with
        | Value _ => exists bytes, opens (Z.lor (Z.lor O_NOCTTY dflags) aflags) (c_str name) w (world s') bytes
            /\ coherent s' (c_str name) bytes 0
        | Error _ => same_files w (world s') \/
            exists bytes, opens (Z.lor (Z.lor O_NOCTTY dflags) aflags) (c_str name) w (world s') bytes
        end). simpl. destruct Hs as [[E _]|(_ & bytes & Hop & Hco)]; [congruence|]. exists bytes. auto.
    + intros st s' st' Hs _ _ _. simpl.
      destruct Hs as [(_ & _ & Hs)|(_ & bytes & Hop & _)]; [by left|right; by exists bytes].
  - intros [[u|st] f] w' Hr; simpl in Hr; [by apply returns_ret|].
    eapply returns_bind; [apply dtor_returns|]. intros u w2 Hs. apply returns_ret.
    unfold same_files, opens in *. by rewrite Hs.
Qed.

Lemma coherent_bytes (s : FS W) name bytes pos :
  coherent s name bytes pos -> files (files_of (world s)) !! name = Some bytes.
Proof. intros [_ Hv _ _ _ _]. by apply fd_view_inv in Hv as [_ Hv]. Qed.

Lemma WriteFromString_spec uninit name data (w : W) :
  returns (WriteFromString (St := St) uninit name data) w (fun r w' =>
    forall cb, r = Value cb -> 0 <= cb <= zlen data /\
      files (files_of w') !! c_str name = Some (take (Z.to_nat cb) data)).
Proof.
  unfold WriteFromString. eapply returns_assign.
  - by eapply (make_file_spec uninit name GENERIC_READ_WRITE CREATE_ALWAYS).
  - intros f w1 (bytes & (_ & -> & Hf) & Hc).
    change (has_flag _ O_TRUNC) with true in *. cbv iota in *.
    apply (scoped_returns f _ w1 (fun r t => forall cb, r = Value cb ->
      0 <= cb <= zlen data /\ t !! c_str name = Some (take (Z.to_nat cb) data))).
    eapply returns_assign; [by eapply (WriteBuffer_spec _ _ _ _ data (zlen data) Hc)| |done].
    intros cb s2 [_ [Hcb Hc2]]. eapply returns_if_error; [apply Close_spec| |done].
    intros st s3 (_ & _ & Hs) _. apply returns_ret. intros cb' [= <-]. split; [done|].
    unfold same_files in Hs. rewrite Hs. apply (coherent_bytes _ _ _ (0 + cb)).
    replace (take (Z.to_nat cb) data) with (written [] 0 cb data) by apply overwrite_all.
    apply Hc2. right. unfold zlen. simpl. lia.
  - done.
Qed.

Lemma ReadAsString_spec uninit name max_size bytes (w : W) :
  files (files_of w) !! c_str name = Some bytes -> 0 <= max_size ->
  returns (ReadAsString (St := St) uninit name max_size) w (fun r w' =>
    files (files_of w') !! c_str name = Some bytes /\
    forall data, r = Value data -> zlen data <= max_size /\ data `prefix_of` bytes).
Proof.
  intros Hn Hmax. unfold ReadAsString. eapply returns_assign.
  - by eapply (make_file_spec uninit name GENERIC_READ OPEN_EXISTING).
  - intros f w1 (b & (_ & -> & Hf) & Hc).
    change (has_flag _ O_TRUNC) with false in *. cbv iota in *. rewrite Hn in *. simpl in *.
    apply (scoped_returns f _ w1 (fun r t => t !! c_str name = Some bytes /\ forall data, r = Value data ->
      zlen data <= max_size /\ data `prefix_of` bytes)).
    step. eapply returns_assign; [eapply (ReadBuffer_spec _ _ _ _ _ _ Hc)| |].
    + intros [cb buf] s2 [_ (data & -> & Hle & Hd & -> & Hc2)].
      eapply returns_if_error; [apply Close_spec| |].
      * intros st s3 (_ & _ & Hs) _. apply returns_ret. unfold same_files in Hs. rewrite Hs.
        split; [by apply coherent_bytes in Hc2|]. intros d [= <-].
        rewrite take_app_length' by (unfold zlen; lia). split; [lia|].
        rewrite Hd. simpl. rewrite drop_0. apply prefix_take.
      * intros st s3 st' (-> & _) E. by rewrite ok_OkStatus in E.
    + intros st s2 st' [_ [_ (p & Hv & _)]] _. split; [|done]. 
      by apply fd_view_inv in Hv as [_ Hv].
  - intros st w' st' Hs _. split; [|done]. destruct Hs as [Hs|(b & _ & -> & Hs)]; rewrite Hs; [done|].
    change (has_flag _ O_TRUNC) with false. cbv iota. rewrite Hn. by rewrite lookup_insert_eq.
Qed.

(** ** The theorems *)

(** The operations on an open file. *)
Inductive op :=
| op_seek (distance : Z) (mm : MoveMethod) | op_rewind | op_skip (size : Z)
| op_read (buffer : str) (size : Z) | op_write (data : str)
| op_write_cord (cord : Cord) (size : option Z) | op_truncate (pos : option Z).

Definition exec (o : op) : M (FS W) St :=
  match o with
  | op_seek d mm => SetPosition_status d mm
  | op_rewind => Rewind
  | op_skip n => Skip n
  | op_read b n => r <- ReadBuffer b n ;; ret (sor_status r)
  | op_write d => r <- Write d ;; ret (sor_status r)
  | op_write_cord c n => r <- WriteCord c n ;; ret (sor_status r)
  | op_truncate p => Truncate p
  end.

(** The arguments have the range of their type, and a write does not leave a
    hole behind the end of the file. *)
Definition op_ok `{!CordLaws Cord} (o : op) (bytes : str) (pos : Z) : Prop :=
  match o with
  | op_truncate (Some n) => 0 <= n < 2 ^ 64
  | op_write _ => pos <= zlen bytes
  | op_write_cord _ n => pos <= zlen bytes /\ forall k, n = Some k -> 0 <= k <= size_max
  | _ => True
  end.

Context `{HC : !CordLaws Cord}.

Lemma WriteCord_spec (s : FS W) name bytes pos cord size :
  coherent s name bytes pos -> pos <= zlen bytes ->
  (forall k, size = Some k -> 0 <= k <= size_max) ->
  returns (WriteCord (St := St) cord size) s (fun r s' =>
    exists k, 0 <= k <= SizeToWrite cord size /\
      coherent s' name (written bytes pos k (cord_bytes cord)) (pos + k) /\
      match r with
      | Value n => n = k /\ k = SizeToWrite cord size
      | Error st => ok st = false
      end).
Proof.
  intros Hc Hpos Hsize. pose proof Hc as [Ho _ _ _ _ Hp]. unfold WriteCord. step.
  pose proof (cord_size_spec cord) as Hz. pose proof (cord_size_max cord).
  pose proof (zlen_nonneg (cord_bytes cord)).
  assert (Hn : 0 <= SizeToWrite cord size <= cord_size cord).
  { unfold SizeToWrite. destruct size as [k|]; [|lia]. specialize (Hsize k eq_refl).
    case_decide; lia. }
  eapply returns_mono.
  - apply (write_chunks_spec (Chunks cord) (SizeToWrite cord size) bytes name pos []).
    + lia.
    + lia.
    + by right.
    + unfold cord_bytes in *. simpl. lia.
    + simpl. by rewrite Z.add_0_r.
  - intros r s' (k & Hk & Hc' & Hr). exists k. split_and!; [lia|lia|done|].
    destruct r; [|done]. simpl in Hr. fold (cord_bytes cord) in Hr. lia.
Qed.

(** The cached size and position of an open file stay right under the
    operations of [op] - not [WriteCordVec], which passes a wrong count to
    [writev] - whether the system calls succeed or fail: each returns, and after
    it the caches agree with the file again, unless a read or a truncation
    failed half-way.  [op_ok] leaves out writes that begin beyond the end of the
    file, where writing nothing makes the cached size wrong. *)
Theorem file_cache_coherent (s : FS W) name bytes pos (o : op) :
  coherent s name bytes pos -> op_ok o bytes pos ->
  returns (exec o) s (fun st s' =>
    ok st = true \/ ~ (exists b n, o = op_read b n) /\ ~ (exists p, o = op_truncate p) ->
    exists bytes' pos', coherent s' name bytes' pos').
Proof.
  intros Hc Ho.
  assert (Hseek : forall d mm, returns (SetPosition_status (St := St) d mm) s (fun st s' =>
     ok st = true \/ ~ (exists b n, o = op_read b n) /\ ~ (exists p, o = op_truncate p) ->
     exists bytes' pos', coherent s' name bytes' pos')).
  { intros d mm. eapply returns_mono; [by apply SetPosition_status_spec|].
    intros st s' [(_ & p & Hc' & _)|[_ Hc']] _; eauto. }
  destruct o as [d mm| |d|b n|d|c n|p]; simpl in *; try apply Hseek.
  - eapply returns_bind; [by apply ReadBuffer_spec|]. intros [[cb b']|st] s' [_ Hr]; step; simpl.
    + destruct Hr as (? & _ & _ & _ & _ & Hc'). eauto.
    + destruct Hr as [Hst _]. intros [E|[E _]]; [congruence|destruct E; eauto].
  - eapply returns_bind; [eapply WriteBuffer_spec; [done|lia]|].
    intros [cb|st] s' [_ Hr]; step; intros _; [|destruct Hr; eauto].
    destruct Hr as [_ Hr]. eauto.
  - destruct Ho. eapply returns_bind; [by apply WriteCord_spec|].
    intros r s' (k & _ & Hc' & _). step. eauto.
  - eapply returns_mono; [by apply (Truncate_spec _ _ _ _ p Hc); intros n ->|].
    intros st s' Ht [E|[_ E]]; [eauto|destruct E; eauto].
Qed.

(** [WriteCord] writes a prefix of the cord at the position of the file:
    all the bytes asked for when it succeeds, and when a write fails or is cut
    short the first [k] of them, where the position is left after them. *)
Theorem write_cord_prefix (s : FS W) name bytes pos cord size :
  coherent s name bytes pos -> pos <= zlen bytes ->
  (forall k, size = Some k -> 0 <= k <= size_max) ->
  returns (WriteCord (St := St) cord size) s (fun r s' =>
    exists k, 0 <= k <= SizeToWrite cord size /\
      files (files_of (world s')) !! name =
        Some (take (Z.to_nat pos) bytes ++ take (Z.to_nat k) (cord_bytes cord)
              ++ drop (Z.to_nat (pos + k)) bytes) /\
      Position (file s') = pos + k /\
      match r with
      | Value n => n = k /\ k = SizeToWrite cord size
      | Error st => ok st = false
      end).
Proof.
  intros Hc Hpos Hsize. eapply returns_mono; [by apply WriteCord_spec|].
  intros r s' (k & Hk & Hc' & Hr). exists k. split; [done|].
  assert (Hkl : k <= zlen (cord_bytes cord)).
  { pose proof (cord_size_spec cord). unfold SizeToWrite in Hk. destruct size; [|lia].
    case_decide; lia. }
  pose proof (co_pos _ _ _ _ Hc). split_and!; [|apply Hc'|done].
  rewrite (coherent_bytes _ _ _ _ Hc'). unfold written.
  rewrite overwrite_inside by (unfold zlen in *; lia). do 4 f_equal.
  rewrite length_take. unfold zlen in *. lia.
Qed.

(** What is read back is a beginning of what was written.  After [WriteFromString]
    returned the count [cb], the file holds the first [cb] bytes of the
    string, and [ReadAsString] returns at most [max_size] of these bytes from
    the first on; both functions return in every world. *)
Theorem write_read_roundtrip uninit uninit' name data max_size (w : W) :
  0 <= max_size ->
  returns (WriteFromString (St := St) uninit name data) w (fun r w1 =>
    forall cb, r = Value cb ->
      0 <= cb <= zlen data /\
      files (files_of w1) !! c_str name = Some (take (Z.to_nat cb) data) /\
      returns (ReadAsString (St := St) uninit' name max_size) w1 (fun r' w2 =>
        files (files_of w2) !! c_str name = files (files_of w1) !! c_str name /\
        forall data', r' = Value data' ->
          zlen data' <= max_size /\ data' `prefix_of` take (Z.to_nat cb) data)).
Proof.
  intros Hmax. eapply returns_mono; [by apply WriteFromString_spec|].
  intros r w1 Hr cb ->. destruct (Hr cb eq_refl) as [Hcb Hf]. split_and!; [lia..|done|].
  eapply returns_mono; [by apply ReadAsString_spec|]. intros r' w2 [Hf2 Hd]. by rewrite Hf, Hf2.
Qed.

(** A successful [Truncate] makes the file exactly as long as asked for
    (or as its position was), keeping its first bytes or adding zeros, and
    leaves the position and both caches at the new end. *)
Theorem truncate_spec (s : FS W) name bytes pos p :
  coherent s name bytes pos -> (forall n, p = Some n -> 0 <= n < 2 ^ 64) ->
  returns (Truncate (St := St) p) s (fun st s' =>
    ok st = true -> let n := default pos p in
    files (files_of (world s')) !! name =
      Some (take (Z.to_nat n) bytes ++ replicate (Z.to_nat n - length bytes) "000"%char) /\
    Position (file s') = n /\ Size (file s') = n /\ Remaining (file s') = 0).
Proof.
  intros Hc Hn. eapply returns_mono; [by apply Truncate_spec|]. intros st s' Ht Hst n.
  specialize (Ht Hst). fold n in Ht.
  assert (Hpos : 0 <= n) by (pose proof (co_pos _ _ _ _ Ht); lia).
  assert (Hsz : size_ (file s') = n).
  { rewrite (co_size _ _ _ _ Ht). unfold zlen. rewrite length_resize. lia. }
  pose proof (co_position _ _ _ _ Ht) as Hps.
  unfold Position, Size, Remaining. rewrite Hsz, Hps, decide_False by lia. split_and!; [|done..].
  rewrite (coherent_bytes _ _ _ _ Ht). unfold resize. f_equal.
  rewrite take_app. f_equal. apply take_ge. rewrite length_replicate. lia.
Qed.

(** A [File] object is used in turns.  Opening or setting an open object
    is refused and changes nothing; on a closed object every operation is
    refused the same way, and closing it again is harmless; closing always
    leaves the object closed and reports success, even when [close] failed. *)
Theorem file_lifecycle (s : FS W) :
  (fd_ (file s) <> kInvalidFdValue -> forall name acc cd fd,
     (exists st, code st = kFailedPrecondition /\ Open (St := St) name acc cd s = Ret st s) /\
     (exists st, code st = kFailedPrecondition /\ Set_ (St := St) name fd s = Ret st s)) /\
  (fd_ (file s) = kInvalidFdValue -> forall o,
     exists st, ok st = false /\ exec o s = Ret st s) /\
  (fd_ (file s) = kInvalidFdValue -> Close (St := St) s = Ret OkStatus s) /\
  returns (Close (St := St)) s (fun st s' => st = OkStatus /\ fd_ (file s') = kInvalidFdValue).
Proof.
  split_and!.
  - intros Ho name acc cd fd.
    assert (Hchk : forall c l t (rest : M (FS W) St), exists st, code st = kFailedPrecondition /\
       RET_CHECK false c file_cc l t rest s = Ret st s).
    { intros c l t rest. exists (to_status (append_to (ret_check_writer c file_cc l) t)). split; [|done].
      rewrite code_to_status. apply code_mk. }
    unfold Open, Set_, this, gets, bind, is_open. rewrite bool_decide_eq_true_2 by done. simpl negb.
    cbv beta. split; [apply (Hchk _ _ _ _)|apply (Hchk _ _ _ _)].
  - intros Ho o.
    assert (Hchk : forall R (HR : FromStatus St R) l (rest : M (FS W) R),
      exists st, code st = kFailedPrecondition /\ check_open l rest s = Ret (from_status st) s).
    { intros R HR l rest.
      destruct (check_open_closed l rest s (fun r s' => s' = s /\ exists st : St,
          code st = kFailedPrecondition /\ r = from_status st) Ho)
        as (r & s' & E & -> & st & Hst & ->); [by eauto|]. by exists st. }
    assert (Hor : forall A l (rest : M (FS W) (StatusOr St A)), exists st, ok st = false /\
      (r <- check_open l rest ;; ret (sor_status r)) s = Ret st s).
    { intros A l rest. destruct (Hchk _ _ l rest) as (st & Hst & E). exists st.
      unfold bind. rewrite E. split; [|done]. apply ok_false. by rewrite Hst. }
    destruct o; simpl; try apply Hor. unfold Truncate.
    edestruct (Hchk St _) as (st & Hst & ->). exists st. split; [|done]. apply ok_false. by rewrite Hst.
  - intros Ho. unfold Close. mrun. unfold this, gets, is_open.
    rewrite bool_decide_eq_false_2 by auto. done.
  - eapply returns_mono; [apply Close_spec|]. by intros st s' (-> & Hf & _).
Qed.

(** [WriteCordVec] succeeds only when [writev] wrote all the bytes.  In
    every other case - a failed [writev] included - it returns an internal
    error, and the cached position moves by what [writev] returned, modulo
    [2^64]: one back for a failure.  The number of vectors passed to [writev]
    is the number of bytes. *)
Theorem write_cord_vec_spec (s : FS W) cord size cb w' :
  sys_writev (fd_ (file s)) (ToIovec cord (SizeToWrite cord size)).1
    (ToIovec cord (SizeToWrite cord size)).2 (world s) = (cb, w') ->
  returns (WriteCordVec (St := St) cord size) s (fun r s' =>
    world s' = w' /\
    position_ (file s') = u64 (position_ (file s) + cb) /\
    size_ (file s') = Z.max (size_ (file s)) (position_ (file s')) /\
    match r with
    | Value n => u64 cb = n /\ n = (ToIovec cord (SizeToWrite cord size)).2
    | Error st => code st = kInternal /\ u64 cb <> (ToIovec cord (SizeToWrite cord size)).2
    end).
Proof.
  intros E. unfold WriteCordVec. step. step. rewrite E. simpl. 
  assert (Hs : forall k Q (s1 : FS W), (forall st, returns (k st) s1 Q) -> returns
    (status <- (if decide (cb < 0) then fail_errno (R := St) (fun f => "::writeev() failed for file: `"
       ++ filename_ f ++ "` with: " ++ StrInt (zlen (ToIovec cord (SizeToWrite cord size)).1)
       ++ " chunks and: " ++ StrInt (ToIovec cord (SizeToWrite cord size)).2 ++ " bytes.")
      else ret OkStatus) ;; k status) s1 (Q : StatusOr St Z -> FS W -> Prop)).
  { intros k Q s1 Hk. case_decide; [by step|]. eapply returns_bind.
    - by apply (returns_ret _ _ (fun _ s2 => s2 = s1)).
    - by intros st s2 ->. }
  apply Hs. intros _. clear Hs. do 2 step. case_decide.
  - step. apply returns_builder; [done|]. intros st _ Hst. by split_and!.
  - step. split_and!; try done.
Qed.

End Correct.

(** ** Witnesses: an empty file system *)
Import RefAbsl RefCord SimFs.

#[local] Instance file_strerror : Strerror := fun _ => Xsi 0 "text".

Definition fs0 : sim := Sim (Table {["f" : str := ("hello" : str)]} {[3 := ("f" : str, 2)]}) 4 0.
Definition open_file : FS sim := MkFS fs0 (MkFile "f" 3 5 2).
Definition a_cord : cord := ["ab" : str; "cde" : str].

Lemma open_file_coherent : coherent open_file "f" "hello" 2.
Proof. split; first [reflexivity|lia|discriminate]. Qed.

Lemma file_cache_coherent_witness :
  coherent open_file "f" "hello" 2 /\
  returns (exec (St := rstatus) (op_write_cord a_cord None)) open_file (fun st s' =>
    exists bytes' pos', coherent s' "f" bytes' pos').
Proof.
  split; [exact open_file_coherent|].
  destruct (file_cache_coherent (St := rstatus) open_file "f" "hello" 2 (op_write_cord a_cord None)
    open_file_coherent) as (st & s' & E & Hc).
  - split; [vm_compute; discriminate|discriminate].
  - exists st, s'. split; [exact E|]. apply Hc. right. split; intros H; decompose [ex] H; discriminate.
Defined.

Lemma write_cord_prefix_witness :
  returns (WriteCord (St := rstatus) a_cord (Some 4)) open_file (fun r s' =>
    exists k, files (files_of (world s')) !! ("f" : str) =
        Some (("he" : str) ++ take (Z.to_nat k) (cord_bytes a_cord)
              ++ drop (Z.to_nat (2 + k)) ("hello" : str))).
Proof.
  destruct (write_cord_prefix (St := rstatus) open_file "f" "hello" 2 a_cord (Some 4)
    open_file_coherent) as (st & s' & E & k & _ & Hf & _).
  - vm_compute. discriminate.
  - intros k [= <-]. split; vm_compute; discriminate.
  - exists st, s'. split; [exact E|]. exists k. exact Hf.
Defined.

Lemma write_read_roundtrip_witness :
  returns (WriteFromString (St := rstatus) 77 "g" "data") fs0 (fun r w1 =>
    forall cb, r = Value cb -> files (files_of w1) !! ("g" : str) = Some (take (Z.to_nat cb) ("data" : str))).
Proof.
  destruct (write_read_roundtrip (St := rstatus) 77 78 "g" "data" 10 fs0 ltac:(lia))
    as (r & w1 & E & Hr).
  exists r, w1. split; [exact E|]. intros cb Hcb. apply (Hr cb Hcb).
Defined.

Lemma truncate_spec_witness :
  returns (Truncate (St := rstatus) (Some 3)) open_file (fun st s' =>
    ok st = true -> Position (file s') = 3 /\ Remaining (file s') = 0).
Proof.
  destruct (truncate_spec (St := rstatus) open_file "f" "hello" 2 (Some 3) open_file_coherent)
    as (st & s' & E & Ht).
  - intros n [= <-]. lia.
  - exists st, s'. split; [exact E|]. intros Hok. split; apply (Ht Hok).
Defined.

Lemma file_lifecycle_witness :
  exists st, code st = kFailedPrecondition /\
    Open (St := rstatus) "g" GENERIC_READ OPEN_EXISTING open_file = Ret st open_file.
Proof.
  destruct (file_lifecycle (St := rstatus) (Cord := cord) open_file) as [H _].
  apply (H ltac:(discriminate) "g" GENERIC_READ OPEN_EXISTING 4).
Defined.

(** Two bytes in one chunk: the count 2 passed to [writev] is beyond the one
    vector there is, and the file system refuses the call. *)
Definition refused : Z * sim :=
  sys_writev (fd_ (file open_file)) (ToIovec (["ab" : str] : cord) 2).1 2 fs0.

Lemma write_cord_vec_witness :
  returns (WriteCordVec (St := rstatus) (["ab" : str] : cord) None) open_file (fun r s' =>
    position_ (file s') = 1 /\ match r with Value _ => False | Error st => code st = kInternal end).
Proof.
  destruct (write_cord_vec_spec (St := rstatus) open_file (["ab" : str] : cord) None
    refused.1 refused.2 (surjective_pairing refused)) as (r & s' & E & _ & Hp & _ & Hr).
  exists r, s'. split; [exact E|]. split; [exact Hp|]. destruct r as [n|st].
  - destruct Hr as [H1 H2]. subst n. vm_compute in H2. discriminate.
  - apply Hr.
Defined.
