(* ===== verification/Filesystem.v ===== *)
(** * The file system ([whisperlib/io/filesystem.h], [whisperlib/io/filesystem.cc])

    The calls on paths are the class [PosixDir]; [DirLaws] states what they do
    to a tree of nodes ([stat_of], [lstat_of]) and to directory streams.  The
    loop over a directory runs on fuel, the recursion on its depth. *)

From S2P Require Import Prelude Status Errno Path Posix.

(** [struct stat], as far as it is used. *)
Record stat := Stat { st_mode : Z; st_size : Z; st_mtime : Z }.

Definition S_IFMT : Z := 61440.   (* 0170000 *)
Definition S_ISREG (mode : Z) : bool := Z.land mode S_IFMT =? 32768.  (* 0100000 *)
Definition S_ISDIR (mode : Z) : bool := Z.land mode S_IFMT =? 16384.  (* 0040000 *)
Definition S_ISLNK (mode : Z) : bool := Z.land mode S_IFMT =? 40960.  (* 0120000 *)

Class PosixDir (W : Type) := {
  (* stat(path, &st), lstat(path, &st) *)
  sys_stat : str -> W -> (Z * stat) * W;
  sys_lstat : str -> W -> (Z * stat) * W;
  sys_mkdir : str -> Z -> W -> Z * W;
  sys_unlink : str -> W -> Z * W;
  sys_rmdir : str -> W -> Z * W;
  sys_rename : str -> str -> W -> Z * W;
  (* symlink(target, linkpath) *)
  sys_symlink : str -> str -> W -> Z * W;
  (* opendir, readdir (the name in the entry), closedir *)
  sys_opendir : str -> W -> option Z * W;
  sys_readdir : Z -> W -> option str * W;
  sys_closedir : Z -> W -> Z * W
}.

Definition LIST_FILES : Z := 1.
Definition LIST_DIRS : Z := 2.
Definition LIST_EVERYTHING : Z := 15.
Definition LIST_RECURSIVE : Z := 128.

(** [S_IRWXU | S_IRGRP | S_IXGRP | S_IROTH | S_IXOTH] *)
Definition kDefaultMode : Z := 493.

Section Filesystem.
Context {W St : Type} `{!HasErrno W} `{!PosixDir W} `{!Absl St} `{!Strerror}.

Definition sys {A} (call : W -> A * W) : M W A :=
  fun w => let '(a, w) := call w in Ret a w.

(** [return error::ErrnoToStatus(errno) << text;] *)
Definition fail_errno {R} `{FromStatus St R} (text : str) : M W R :=
  fun w => Ret (return_errno (sys_errno w) (sys_errno w) text) w.

Definition IsDir (path : str) : M W bool :=
  '(r, st) <- sys (sys_stat (c_str path)) ;;
  if decide (0 <> r) then ret false else ret (S_ISDIR (st_mode st)).

Definition IsReadableFile (path : str) : M W bool :=
  '(r, st) <- sys (sys_stat (c_str path)) ;;
  if decide (0 <> r) then ret false else ret (S_ISREG (st_mode st)).

Definition IsSymlink (path : str) : M W bool :=
  '(r, st) <- sys (sys_lstat (c_str path)) ;;
  if decide (0 <> r) then ret false else ret (S_ISLNK (st_mode st)).

Definition Exists (path : str) : M W bool :=
  '(r, st) <- sys (sys_lstat (c_str path)) ;; ret (bool_decide (0 = r)).

Definition GetFileSize (path : str) : M W (StatusOr St Z) :=
  '(r, st) <- sys (sys_stat (c_str path)) ;;
  if decide (0 <> r) then
    ret (return_error (FailedPreconditionErrorBuilder [])
      ("Error checking size of file named `" ++ path ++ "`"))
  else ret (Value (st_size st)).

(** The time is the [time_t] that [absl::FromTimeT] is given. *)
Definition GetFileModTime (path : str) : M W (StatusOr St Z) :=
  '(r, st) <- sys (sys_stat (c_str path)) ;;
  if decide (0 <> r) then
    ret (return_error (FailedPreconditionErrorBuilder [])
      ("Error checking mod time of file named `" ++ path ++ "`"))
  else ret (Value (st_mtime st)).

(** The loop of [CreateRecursiveDirs] that collects the missing directories. *)
Fixpoint missing_dirs (fuel : nat) (path crt_dir : str) (to_create : list str)
    : M W (StatusOr St (list str)) :=
  match fuel with
  | O => fatal "out of fuel"
  | S fuel =>
      if decide (crt_dir = []) then ret (Value to_create)
      else
        d <- IsDir crt_dir ;;
        if d : bool then ret (Value to_create)
        else
          f <- IsReadableFile crt_dir ;;
          if f : bool then
            ret (return_error (FailedPreconditionErrorBuilder [])
              ("Cannot create directory `" ++ path ++ "` as path: `" ++ crt_dir ++ "` is a file."))
          else missing_dirs fuel path (Dirname crt_dir) (to_create ++ [crt_dir])
  end.

(** The loop that creates them. *)
Fixpoint make_dirs (mode : Z) (to_create : list str) : M W St :=
  match to_create with
  | [] => ret OkStatus
  | crt_path :: to_create =>
      result <- sys (sys_mkdir (c_str crt_path) mode) ;;
      if decide (result <> 0) then
        fail_errno ("Error creating directory: `" ++ crt_path ++ "`")
      else make_dirs mode to_create
  end.

Definition CreateRecursiveDirs (path : str) (mode : Z) : M W St :=
  match Path.Normalize kDirSeparator path with
  | None => fatal "out of fuel"
  | Some crt_dir =>
      if decide (crt_dir = []) then ret OkStatus
      else
        let crt_dir := if decide (last crt_dir = Some kDirSeparator)
                       then take (length crt_dir - 1) crt_dir else crt_dir in
        ASSIGN_OR_RETURN (missing_dirs (S (length crt_dir)) path crt_dir []) []
          (fun to_create => make_dirs mode (rev to_create))
  end.

Definition MkDir (dir : str) (recursive : bool) (mode : Z) : M W St :=
  if recursive then CreateRecursiveDirs dir mode
  else
    match Path.Normalize kDirSeparator dir with
    | None => fatal "out of fuel"
    | Some dir_str =>
        result <- sys (sys_mkdir (c_str dir_str) mode) ;;
        errno <- gets sys_errno ;;
        if decide (result <> 0 /\ errno <> EEXIST) then
          fail_errno ("Failed to create dir: `" ++ dir ++ "`")
        else ret OkStatus
    end.

Definition RmDir (path : str) : M W St :=
  result <- sys (sys_rmdir (c_str path)) ;;
  if decide (result <> 0) then fail_errno ("rmdir failed for path: `" ++ path ++ "`")
  else ret OkStatus.

Definition RmFile (path : str) : M W St :=
  '(r, s) <- sys (sys_lstat (c_str path)) ;;
  if decide (r <> 0) then
    errno <- gets sys_errno ;;
    if decide (errno = ENOENT) then ret OkStatus
    else fail_errno ("lstat failed for path to be remove: `" ++ path ++ "`")
  else if S_ISREG (st_mode s) || S_ISLNK (st_mode s) then
    r <- sys (sys_unlink (c_str path)) ;;
    if decide (r <> 0) then fail_errno ("unlink failed for path: `" ++ path ++ "`")
    else ret OkStatus
  else if S_ISDIR (st_mode s) then RmDir path
  else ret (return_error (UnimplementedErrorBuilder [])
    ("Cannot remove file: `" ++ path ++ "` per unsupported mode: " ++ StrInt (st_mode s))).

(** Whether [DirList] returns an entry of this mode. *)
Definition listed (list_attr mode : Z) : bool :=
  (Z.land list_attr LIST_EVERYTHING =? LIST_EVERYTHING)
  || (has_flag list_attr LIST_FILES && (S_ISREG mode || S_ISLNK mode))
  || (has_flag list_attr LIST_DIRS && S_ISDIR mode).

Definition is_dot (basename : str) : bool :=
  bool_decide (basename = []) || bool_decide (basename = ("." : str))
  || bool_decide (basename = (".." : str)).

(** The loop of [DirList] over an open directory.  [sub] lists a directory one
    level down; it is absent when [max_depth] is 0. *)
Fixpoint list_loop (sub : option (str -> M W (StatusOr St (list str)))) (fuel : nat) (dirp : Z)
    (dir : str) (list_attr : Z) (out : list str) : M W (StatusOr St (list str)) :=
  match fuel with
  | O => fatal "out of fuel"
  | S fuel =>
      entry <- sys (sys_readdir dirp) ;;
      match entry with
      | None => sys (sys_closedir dirp) ;; ret (Value out)
      | Some basename =>
          if is_dot basename then list_loop sub fuel dirp dir list_attr out
          else
            let abs_path := Join2 dir basename in
            '(r, st) <- sys (sys_lstat (c_str abs_path)) ;;
            if decide (0 <> r) then list_loop sub fuel dirp dir list_attr out
            else
              let out := if listed list_attr (st_mode st) then out ++ [basename] else out in
              match sub with
              | Some sub =>
                  if has_flag list_attr LIST_RECURSIVE && S_ISDIR (st_mode st) then
                    ASSIGN_OR_RETURN (sub abs_path) []
                      (fun subitems =>
                         list_loop (Some sub) fuel dirp dir list_attr
                           (out ++ (Join2 basename <$> subitems)))
                  else list_loop (Some sub) fuel dirp dir list_attr out
              | None => list_loop None fuel dirp dir list_attr out
              end
      end
  end.

Fixpoint DirList (fuel : nat) (list_attr : Z) (max_depth : nat) (dir : str)
    : M W (StatusOr St (list str)) :=
  dirp <- sys (sys_opendir (c_str dir)) ;;
  match dirp with
  | None => fail_errno ("::opendir failed for dir: `" ++ dir ++ "`")
  | Some dirp =>
      list_loop (match max_depth with
                 | O => None
                 | S max_depth => Some (DirList fuel list_attr max_depth)
                 end) fuel dirp dir list_attr []
  end.

(** The two removing loops of [RmFilesUnder]; both go on after an error. *)
Fixpoint remove_files (path : str) (rm_dirs : bool) (files : list str) (rm_status : St)
    (dirs : list str) : M W (St * list str) :=
  match files with
  | [] => ret (rm_status, dirs)
  | file :: files =>
      let f := Join2 path file in
      d <- IsDir f ;;
      if d : bool then
        remove_files path rm_dirs files rm_status (if rm_dirs then dirs ++ [f] else dirs)
      else
        file_rm_status <- RmFile f ;;
        remove_files path rm_dirs files
          (if negb (ok file_rm_status) then UpdateOrAnnotate rm_status file_rm_status
           else rm_status) dirs
  end.

Fixpoint remove_dirs (dirs : list str) (rm_status : St) : M W St :=
  match dirs with
  | [] => ret rm_status
  | dir :: dirs =>
      dir_rm_status <- RmDir dir ;;
      remove_dirs dirs
        (if negb (ok dir_rm_status) then UpdateOrAnnotate rm_status dir_rm_status else rm_status)
  end.

Definition RmFilesUnder (fuel : nat) (path : str) (rm_dirs : bool) : M W St :=
  let options := if rm_dirs then Z.lor (Z.lor LIST_DIRS LIST_FILES) LIST_RECURSIVE
                 else Z.lor LIST_FILES LIST_RECURSIVE in
  d <- IsDir path ;;
  if negb d then
    ret (return_error (NotFoundErrorBuilder [])
      ("RmFilesUnder directory `" ++ path ++ "` - cannot be found."))
  else
    ASSIGN_OR_RETURN (DirList fuel options 20 path)
      ("While trying to delete files under: `" ++ path ++ "`")
      (fun files =>
         '(rm_status, dirs) <- remove_files path rm_dirs files OkStatus [] ;;
         remove_dirs (rev dirs) rm_status).

(** The type of a path, as [Rename] prints it. *)
Definition type_name (is_symlink is_file is_dir : bool) : str :=
  if is_symlink then "symlink" else if is_file then "file"
  else if is_dir then "directory" else "unknown".

Definition Rename (old_path new_path : str) (overwrite : bool) : M W St :=
  old_exists <- Exists old_path ;;
  old_is_file <- IsReadableFile old_path ;;
  old_is_dir <- IsDir old_path ;;
  old_is_symlink <- IsSymlink old_path ;;
  let old_is_single := old_is_file || old_is_symlink in
  let old_type := type_name old_is_symlink old_is_file old_is_dir in
  new_exists <- Exists new_path ;;
  new_is_file <- IsReadableFile new_path ;;
  new_is_dir <- IsDir new_path ;;
  new_is_symlink <- IsSymlink new_path ;;
  let new_is_single := new_is_file || new_is_symlink in
  let new_type := type_name new_is_symlink new_is_file new_is_dir in
  let text := "Rename old_path: `" ++ old_path ++ "`(" ++ old_type ++ ") , new_path: `"
                ++ new_path ++ "`(" ++ new_type in
  if negb old_exists then
    ret (return_error (NotFoundErrorBuilder [])
      ("Rename old_path: `" ++ old_path ++ "` does not exist"))
  else if (old_is_single && new_is_dir) || (old_is_dir && new_is_single) then
    ret (return_error (FailedPreconditionErrorBuilder [])
      ("Rename old_path: `" ++ old_path ++ "`(" ++ old_type ++ "), new_path: `"
         ++ new_path ++ "`(" ++ new_type ++ ") incompatible types"))
  else if new_exists && new_is_single && negb overwrite then
    ret (return_error (FailedPreconditionErrorBuilder []) (text ++ ") cannot overwrite"))
  else if negb new_exists || (old_is_single && new_is_single) then
    r <- sys (sys_rename (c_str old_path) (c_str new_path)) ;;
    if decide (r <> 0) then
      fail_errno ("::rename failed for old_path: `" ++ old_path ++ "`" ++ ", new_path: `"
        ++ new_path ++ "`")
    else ret OkStatus
  else ret (return_error (UnimplementedErrorBuilder []) text).

Definition Mv (src_path dest_dir : str) (overwrite : bool) : M W St :=
  Rename src_path (Join2 dest_dir (Basename src_path)) overwrite.

Definition Symlink (link_path target_path : str) : M W St :=
  r <- sys (sys_symlink (c_str target_path) (c_str link_path)) ;;
  if decide (r <> 0) then
    fail_errno ("linking `" ++ link_path ++ "` to target `" ++ target_path ++ "`")
  else ret OkStatus.
End Filesystem.

(** ** What the calls do *)

(** The file tree of a world as the calls show it, and the entries left to read
    in the open directory streams. *)
Class DirView (W T : Type) := {
  tree : W -> T;
  stat_of : T -> str -> option stat;
  lstat_of : T -> str -> option stat;
  (* the entries of a directory *)
  listing : T -> str -> option (list str);
  streams : W -> gmap Z (list str)
}.

Definition is_dir {W T} `{!DirView W T} (t : T) (p : str) : Prop :=
  exists st, stat_of t p = Some st /\ S_ISDIR (st_mode st) = true.

Class DirLaws (W T : Type) `{!PosixDir W} `{!DirView W T} : Prop := {
  stat_spec p w : let '((r, st), w') := sys_stat p w in
    tree w' = tree w /\ streams w' = streams w /\
    match stat_of (tree w) p with Some st' => r = 0 /\ st = st' | None => r <> 0 end;
  lstat_spec p w : let '((r, st), w') := sys_lstat p w in
    tree w' = tree w /\ streams w' = streams w /\
    match lstat_of (tree w) p with Some st' => r = 0 /\ st = st' | None => r <> 0 end;
  opendir_spec p w : let '(h, w') := sys_opendir p w in tree w' = tree w /\
    match h with
    | Some h => exists l, listing (tree w) p = Some l /\ streams w !! h = None /\ streams w' = <[h:=l]> (streams w)
    | None => streams w' = streams w
    end;
  readdir_spec h w : let '(e, w') := sys_readdir h w in tree w' = tree w /\
    (streams w !! h = Some [] -> e = None /\ streams w' = streams w) /\
    (forall n l, streams w !! h = Some (n :: l) -> e = Some n /\ streams w' = <[h:=l]> (streams w));
  closedir_spec h w : let '(_, w') := sys_closedir h w in
    tree w' = tree w /\ streams w' = delete h (streams w);
  mkdir_spec p mode w : let '(r, w') := sys_mkdir p mode w in
    r = 0 -> is_dir (tree w') p /\ forall q, is_dir (tree w) q -> is_dir (tree w') q
}.

Section ListSpec.
Context {W T : Type} `{!DirView W T}.

(** ** The specification of [DirList] *)

(** The entries below [dir], each directory followed by its own; [None] when a
    directory that has to be read cannot be. *)
Fixpoint list_spec (list_attr : Z) (max_depth : nat) (t : T) (dir : str) : option (list str) :=
  l ← listing t (c_str dir);
  let entry e :=
    if is_dot e then Some []
    else
      match lstat_of t (c_str (Join2 dir e)) with
      | None => Some []
      | Some st =>
          let self := if listed list_attr (st_mode st) then [e] else [] in
          match max_depth with
          | O => Some self
          | S max_depth =>
              if has_flag list_attr LIST_RECURSIVE && S_ISDIR (st_mode st) then
                sub ← list_spec list_attr max_depth t (Join2 dir e);
                Some (self ++ (Join2 e <$> sub))
              else Some self
          end
      end in
  (fun ls => concat ls) <$> mapM entry l.
End ListSpec.

Section Correct.
Context {W T St : Type} `{!HasErrno W} `{!PosixDir W} `{HA : !Absl St} `{!Strerror}.
Context `{HL : !AbslLaws St} `{HV : !DirView W T} `{HD : !DirLaws W T}.

Lemma returns_dir_sys {A B} (call : W -> A * W) (k : A -> M W B) w Q :
  returns (k (call w).1) (call w).2 Q -> returns (bind (sys call) k) w Q.
Proof.
  intros (b & s' & E & HQ). exists b, s'. split; [|done].
  unfold bind, sys. destruct (call w). done.
Qed.

Lemma returns_dir_fail {R} `{FromStatus St R} text (w : W) (Q : R -> W -> Prop) :
  (forall st, ok st = false -> Q (from_status st) w) -> returns (fail_errno text) w Q.
Proof.
  intros HQ. eexists _, _. split; [done|].
  exact (HQ (return_errno (R := St) _ _ _) (ok_return_errno _ _ _)).
Qed.

(** The tests of a path read the tree and change nothing. *)
Definition is_reg_at (t : T) (p : str) : bool :=
  match stat_of t (c_str p) with Some st => S_ISREG (st_mode st) | None => false end.
Definition is_dir_at (t : T) (p : str) : bool :=
  match stat_of t (c_str p) with Some st => S_ISDIR (st_mode st) | None => false end.

Definition tests (m : M W bool) (f : T -> bool) : Prop :=
  forall w, returns m w (fun b w' => b = f (tree w) /\ tree w' = tree w /\ streams w' = streams w).

Lemma returns_test {B} (m : M W bool) f (k : bool -> M W B) w Q :
  tests m f ->
  (forall w', tree w' = tree w -> streams w' = streams w -> returns (k (f (tree w))) w' Q) ->
  returns (bind m k) w Q.
Proof.
  intros Hm Hk. eapply returns_bind; [apply Hm|]. intros b w' (-> & Ht & Hs). by apply Hk.
Qed.

Lemma IsDir_tests p : tests (IsDir p) (fun t => is_dir_at t p).
Proof.
  intros w. apply returns_dir_sys. pose proof (stat_spec (c_str p) w) as Hs.
  destruct (sys_stat _ w) as [[r st] w']. destruct Hs as (Ht & Hs & Hr). simpl.
  unfold is_dir_at. destruct (stat_of _ _) as [st'|].
  - destruct Hr as [-> ->]. by apply returns_ret.
  - rewrite decide_True by done. by apply returns_ret.
Qed.

Lemma IsReadableFile_tests p : tests (IsReadableFile p) (fun t => is_reg_at t p).
Proof.
  intros w. apply returns_dir_sys. pose proof (stat_spec (c_str p) w) as Hs.
  destruct (sys_stat _ w) as [[r st] w']. destruct Hs as (Ht & Hs & Hr). simpl.
  unfold is_reg_at. destruct (stat_of _ _) as [st'|].
  - destruct Hr as [-> ->]. by apply returns_ret.
  - rewrite decide_True by done. by apply returns_ret.
Qed.


(** What one entry adds to the listing of a directory. *)
Definition entry_spec (list_attr : Z) (sub : option (T -> str -> option (list str))) (t : T)
    (dir e : str) : option (list str) :=
  if is_dot e then Some []
  else
    match lstat_of t (c_str (Join2 dir e)) with
    | None => Some []
    | Some st =>
        let self := if listed list_attr (st_mode st) then [e] else [] in
        match sub with
        | None => Some self
        | Some sub =>
            if has_flag list_attr LIST_RECURSIVE && S_ISDIR (st_mode st) then
              l ← sub t (Join2 dir e); Some (self ++ (Join2 e <$> l))
            else Some self
        end
    end.

Lemma list_spec_eq attr depth t dir :
  list_spec attr depth t dir =
  (l ← listing t (c_str dir);
   (fun ls => concat ls) <$> mapM (entry_spec attr
     (match depth with O => None | S d => Some (fun t' => list_spec attr d t') end) t dir) l).
Proof. destruct depth; done. Qed.

(** What listing a directory gives, and the streams it leaves open; it only
    fails when a directory could not be opened. *)
Definition list_post (spec : option (list str)) (t : T) (open : gmap Z (list str))
    (r : StatusOr St (list str)) (w' : W) : Prop :=
  tree w' = t /\
  match r with
  | Value l => spec = Some l /\ streams w' = open
  | Error st => ok st = false /\ exists p w1 w2, tree w1 = t /\ sys_opendir p w1 = (None, w2)
  end.

Lemma list_loop_spec attr sub subspec fuel h dir l out t (w : W) :
  (forall dir' w', tree w' = t -> match sub, subspec with
    | Some sub, Some subspec =>
        returns (sub dir') w' (list_post (subspec t dir') t (streams w'))
    | None, None => True
    | _, _ => False end) ->
  tree w = t -> streams w !! h = Some l -> (length l < fuel)%nat ->
  returns (list_loop sub fuel h dir attr out) w
    (list_post ((fun ls => out ++ concat ls) <$> mapM (entry_spec attr subspec t dir) l) t
       (delete h (streams w))).
Proof.
  intros Hsub. revert l out w. induction fuel as [|fuel IH]; intros l out w Ht Hl Hf; [lia|].
  simpl. apply returns_dir_sys. pose proof (readdir_spec h w) as Hr.
  destruct (sys_readdir h w) as [en w1]. destruct Hr as (Ht1 & Hnil & Hcons). simpl.
  destruct l as [|e l].
  { destruct (Hnil Hl) as [-> Hs1]. apply returns_dir_sys. pose proof (closedir_spec h w1) as Hc.
    destruct (sys_closedir h w1) as [u w2]. destruct Hc as [Ht2 Hs2]. apply returns_ret.
    split; [simpl; congruence|]. simpl. rewrite app_nil_r. split; [done|]. by rewrite Hs2, Hs1. }
  destruct (Hcons e l Hl) as [-> Hs1].
  assert (Hnext : forall out' add w', tree w' = t -> streams w' = <[h:=l]> (streams w) ->
     out' = out ++ add -> entry_spec attr subspec t dir e = Some add ->
     returns (list_loop sub fuel h dir attr out') w'
       (list_post ((fun ls => out ++ concat ls) <$> mapM (entry_spec attr subspec t dir) (e :: l)) t
         (delete h (streams w)))).
  { intros out' add w' Ht' Hs' -> He. eapply returns_mono.
    - apply (IH l (out ++ add) w' Ht'); [by rewrite Hs', lookup_insert_eq|simpl in Hf; lia].
    - intros r w2 [Ht2 Hp]. split; [done|]. simpl. rewrite He. simpl.
      destruct r as [ls|st]; [|done]. rewrite Hs', delete_insert_eq in Hp. destruct Hp as [Hp Hs2]. split; [|done].
      destruct (mapM _ l) as [ls'|]; simpl in *; [|done]. by rewrite app_assoc. }
  unfold entry_spec in Hnext. destruct (is_dot e) eqn:Hdot.
  { apply (Hnext out []); [congruence|done|by rewrite app_nil_r|done]. }
  apply returns_dir_sys. pose proof (lstat_spec (c_str (Join2 dir e)) w1) as Hst.
  destruct (sys_lstat _ w1) as [[r st] w2]. destruct Hst as (Ht2 & Hs2 & Hst). simpl.
  assert (Htw : tree w2 = t) by congruence. rewrite Ht1, Ht in Hst.
  destruct (lstat_of t _) as [st'|] eqn:Elst; simpl in Hst.
  2:{ rewrite decide_True by done.
      apply (Hnext out []); [done|congruence|by rewrite app_nil_r|done]. }
  destruct Hst as [-> ->]. simpl.
  assert (Hself : (if listed attr (st_mode st') then out ++ [e] else out)
                  = out ++ (if listed attr (st_mode st') then [e] else []))
    by (destruct (listed _ _); [done|by rewrite app_nil_r]).
  rewrite Hself. set (self := if listed attr (st_mode st') then [e] else []) in *.
  specialize (Hsub (Join2 dir e)).
  destruct sub as [sub|], subspec as [subspec|]; try by destruct (Hsub w2 Htw).
  2:{ apply (Hnext _ self); [done|congruence|done|done]. }
  destruct (has_flag _ _ && _) eqn:Hrec.
  2:{ apply (Hnext _ self); [done|congruence|done|done]. }
  eapply returns_assign; [by apply Hsub| |].
  - intros ls w3 [Ht3 [Els Hs3]].
    apply (Hnext _ (self ++ (Join2 e <$> ls))); [done|congruence|by rewrite app_assoc|by rewrite Els].
  - intros st2 w3 st3 [Ht3 [Hst Hop]] Hc. split; [done|]. split; [|done].
    apply ok_false. change (Status.code st3 <> kOk). rewrite Hc. by apply ok_false.
Qed.

Lemma open_list_spec sub subspec fuel attr dir t (w : W) :
  (forall dir' w', tree w' = t -> match sub, subspec with
    | Some sub, Some subspec =>
        returns (sub dir') w' (list_post (subspec t dir') t (streams w'))
    | None, None => True
    | _, _ => False end) ->
  (forall d l, listing t d = Some l -> (length l < fuel)%nat) -> tree w = t ->
  returns (dirp <- sys (sys_opendir (c_str dir)) ;;
    match dirp with
    | None => fail_errno ("::opendir failed for dir: `" ++ dir ++ "`")
    | Some dirp => list_loop sub fuel dirp dir attr []
    end) w
    (list_post (l ← listing t (c_str dir);
                (fun ls => concat ls) <$> mapM (entry_spec attr subspec t dir) l) t (streams w)).
Proof.
  intros Hsub Hfuel Ht. apply returns_dir_sys. pose proof (opendir_spec (c_str dir) w) as Ho.
  destruct (sys_opendir _ w) as [h w1] eqn:Eo. destruct Ho as [Ht1 Ho]. rewrite Ht in Ho. simpl.
  destruct h as [h|].
  - destruct Ho as (l & El & Hfresh & Hs). rewrite El. eapply returns_mono.
    + apply (list_loop_spec attr sub subspec fuel h dir l [] t w1); [done|congruence| |].
      * by rewrite Hs, lookup_insert_eq.
      * by eapply Hfuel.
    + intros r w2 [Ht2 Hp]. split; [done|]. destruct r; [|done]. simpl in *. by rewrite Hs, delete_insert_id in Hp.
  - apply returns_dir_fail. intros st Hst. split; [congruence|]. split; [done|]. by exists (c_str dir), w, w1.
Qed.

Lemma DirList_spec fuel attr t depth dir (w : W) :
  (forall d l, listing t d = Some l -> (length l < fuel)%nat) -> tree w = t ->
  returns (DirList (St := St) fuel attr depth dir) w
    (list_post (list_spec attr depth t dir) t (streams w)).
Proof.
  intros Hfuel. revert dir w. induction depth as [|depth IH]; intros dir w Ht; rewrite list_spec_eq.
  - by apply (open_list_spec None None).
  - apply (open_list_spec (Some _) (Some _)); [|done..]. intros dir' w' Ht'. by apply IH.
Qed.

(** Listing a directory ends, with exactly the entries that the tree has
    below it: those of the asked kinds, every directory immediately followed
    by what it contains (down to the asked depth), paths relative to the
    directory.  It leaves the tree alone and closes what it opened.  It fails
    only when [opendir] failed for a directory of this tree. *)
Theorem dir_list_refines fuel attr depth dir (w : W) :
  (forall d l, listing (tree w) d = Some l -> (length l < fuel)%nat) ->
  returns (DirList (St := St) fuel attr depth dir) w (fun r w' =>
    tree w' = tree w /\
    match r with
    | Value l => list_spec attr depth (tree w) dir = Some l /\ streams w' = streams w
    | Error st => ok st = false /\ exists p w1 w2, tree w1 = tree w /\ sys_opendir p w1 = (None, w2)
    end).
Proof. intros Hf. by apply DirList_spec. Qed.



(** ** Making directories *)

Lemma make_dirs_spec mode l (w : W) :
  returns (make_dirs (St := St) mode l) w (fun st w' =>
    ok st = true ->
    (forall p, p ∈ l -> is_dir (tree w') (c_str p)) /\
    (forall q, is_dir (tree w) q -> is_dir (tree w') q)).
Proof.
  revert w. induction l as [|p l IH]; intros w; simpl.
  { apply returns_ret. intros _. split; [set_solver|done]. }
  apply returns_dir_sys. pose proof (mkdir_spec (c_str p) mode w) as Hm.
  destruct (sys_mkdir _ _ w) as [r w1]. simpl. case_decide as Hr.
  - apply returns_dir_fail. intros st Hst E. change (ok st = true) in E. congruence.
  - eapply returns_mono; [apply IH|]. intros st w' H1 Hst. destruct (H1 Hst) as [H2 H3].
    assert (Hr0 : r = 0) by lia. destruct (Hm Hr0) as [Hp Hq]. split; [|auto].
    intros q [->|Hin]%elem_of_cons; auto.
Qed.

Lemma is_dir_at_spec t p : is_dir_at t p = true <-> is_dir t (c_str p).
Proof.
  unfold is_dir_at, is_dir. destruct (stat_of t (c_str p)) as [st|]; split.
  - intros E. by exists st.
  - by intros (st' & [= <-] & E).
  - done.
  - by intros (st' & [=] & _).
Qed.

(** The directories to create: the path and its ancestors up to the first that
    is there. *)
Inductive ancestors (t : T) : str -> list str -> Prop :=
| ancestors_root : ancestors t [] []
| ancestors_dir p : is_dir t (c_str p) -> ancestors t p []
| ancestors_up p l : p <> [] -> ~ is_dir t (c_str p) -> is_reg_at t p = false ->
    ancestors t (Dirname p) l -> ancestors t p (p :: l).

Lemma length_Dirname p : p <> [] -> (length (Dirname p) < length p)%nat.
Proof.
  intros Hp. unfold Dirname. pose proof (rfind_char kDirSeparator p) as Hr.
  destruct (rfind _ p); [|destruct p; simpl; [done|lia]]. destruct Hr as (A & B & -> & _ & <-).
  rewrite take_app_length, length_app. simpl. lia.
Qed.

Lemma missing_dirs_spec fuel path crt acc (w : W) :
  (length crt < fuel)%nat ->
  returns (missing_dirs (St := St) fuel path crt acc) w (fun r w' =>
    tree w' = tree w /\
    match r with
    | Value l => exists l', l = acc ++ l' /\ ancestors (tree w) crt l'
    | Error st => code st = kFailedPrecondition
    end).
Proof.
  revert crt acc w. induction fuel as [|fuel IH]; intros crt acc w Hf; [lia|]. simpl.
  case_decide as Hc.
  { apply returns_ret. split; [done|]. exists []. subst. rewrite app_nil_r.
    split; [done|constructor]. }
  eapply returns_test; [apply IsDir_tests|intros w1 Ht1 _; cbv beta].
  destruct (is_dir_at (tree w) crt) eqn:Ed.
  { apply returns_ret. split; [done|]. exists []. rewrite app_nil_r. split; [done|].
    constructor. by apply is_dir_at_spec. }
  eapply returns_test; [apply IsReadableFile_tests|intros w2 Ht2 _; cbv beta]. rewrite Ht1 in *.
  destruct (is_reg_at (tree w) crt) eqn:Er.
  { apply returns_builder; [done|]. intros st _ Hst. split; [congruence|done]. }
  eapply returns_mono; [apply IH; pose proof (length_Dirname crt Hc); lia|].
  intros r w3 [Ht3 Hr]. split; [congruence|]. destruct r as [l|]; [|done].
  destruct Hr as (l' & -> & Ha). exists (crt :: l'). rewrite <- app_assoc. split; [done|].
  rewrite Ht2 in Ha. constructor; try done. intros Hd%is_dir_at_spec. congruence.
Qed.

(** The path whose ancestors [MkDir] makes: normalized, without the separator
    at its end. *)
Definition mkdir_path (dir : str) : option str :=
  p ← Path.Normalize kDirSeparator dir;
  Some (if decide (last p = Some kDirSeparator) then take (length p - 1) p else p).

(** C33: making a directory recursively always ends.  Either it climbs from
    the (normalized) path over missing directories only, up to one that is
    there, and when it then succeeds the path is a directory, as are all these
    ancestors, and every directory that was there still is; or it fails, having
    met a regular file on the way, before anything is created. *)
Theorem mkdir_recursive dir mode (w : W) :
  returns (MkDir (St := St) dir true mode) w (fun st w' =>
    exists crt, mkdir_path dir = Some crt /\
    ((exists missing, ancestors (tree w) crt missing /\
       (ok st = true -> (crt <> [] -> is_dir (tree w') (c_str crt)) /\
          (forall p, p ∈ missing -> is_dir (tree w') (c_str p)) /\
          (forall q, is_dir (tree w) q -> is_dir (tree w') q))) \/
     (code st = kFailedPrecondition /\ tree w' = tree w))).
Proof.
  unfold MkDir, CreateRecursiveDirs, mkdir_path.
  destruct (Normalize_total kDirSeparator dir) as [p ->].
  unfold mbind, option_bind. case_decide as Hp.
  { apply returns_ret. subst. exists []. split; [done|]. left. exists []. split; [constructor|].
    intros _. split_and!; [done|set_solver|done]. }
  set (crt := if decide _ then take _ p else p).
  eapply returns_assign; [by apply (missing_dirs_spec _ dir crt []); lia| |].
  - intros l w1 [Ht1 (l' & -> & Ha)]. eapply returns_mono; [apply make_dirs_spec|].
    intros st w' Hm. exists crt. split; [done|]. left. exists l'. split; [done|].
    intros Hst. destruct (Hm Hst) as [Hl Hk]. rewrite Ht1 in Hk.
    assert (Hin : forall q, q ∈ l' -> is_dir (tree w') (c_str q)).
    { intros q Hq. apply Hl. simpl. by rewrite list_elem_of_In, <- in_rev, <- list_elem_of_In. }
    split_and!; [|done..]. intros Hc. inversion Ha as [E|q Hq|q l'' H1 H2 H3 H4 E]; [congruence|by apply Hk|].
    apply Hin. subst. by left.
  - intros st w1 st' [Ht1 Hst] Hc. exists crt. split; [done|]. right.
    change (code st' = kFailedPrecondition /\ tree w1 = tree w). split; congruence.
Qed.
End Correct.

(** ** A reference directory tree, without links *)
Module SimDir.

Record dtree := DTree { nodes : gmap str stat; entries : gmap str (list str) }.
Record sim := Sim { dt : dtree; open : gmap Z (list str); err : Z }.

Definition sim_lstat (p : str) (s : sim) : (Z * stat) * sim :=
  match nodes (dt s) !! p with
  | Some st => (0, st, s)
  | None => (-1, Stat 0 0 0, Sim (dt s) (open s) ENOENT)
  end.

Definition sim_mkdir (p : str) (mode : Z) (s : sim) : Z * sim :=
  match nodes (dt s) !! p with
  | Some _ => (-1, Sim (dt s) (open s) EEXIST)
  | None => (0, Sim (DTree (<[p := Stat 16877 0 0]> (nodes (dt s))) (<[p := []]> (entries (dt s))))
                    (open s) (err s))
  end.

Definition sim_rename (old new : str) (s : sim) : Z * sim :=
  match nodes (dt s) !! old with
  | None => (-1, Sim (dt s) (open s) ENOENT)
  | Some st => (0, Sim (DTree (<[new := st]> (delete old (nodes (dt s)))) (entries (dt s)))
                       (open s) (err s))
  end.

Definition sim_remove (p : str) (s : sim) : Z * sim :=
  (0, Sim (DTree (delete p (nodes (dt s))) (delete p (entries (dt s)))) (open s) (err s)).

Definition sim_opendir (p : str) (s : sim) : option Z * sim :=
  match entries (dt s) !! p with
  | None => (None, Sim (dt s) (open s) ENOENT)
  | Some l => let h := fresh (dom (open s)) in (Some h, Sim (dt s) (<[h := l]> (open s)) (err s))
  end.

Definition sim_readdir (h : Z) (s : sim) : option str * sim :=
  match open s !! h with
  | Some (e :: l) => (Some e, Sim (dt s) (<[h := l]> (open s)) (err s))
  | _ => (None, s)
  end.

#[export] Instance sim_errno : HasErrno sim := err.

#[export] Instance sim_dir : PosixDir sim := {
  sys_stat := sim_lstat; sys_lstat := sim_lstat; sys_mkdir := sim_mkdir;
  sys_unlink := sim_remove; sys_rmdir := sim_remove; sys_rename := sim_rename;
  sys_symlink _ _ s := (-1, Sim (dt s) (open s) EPERM);
  sys_opendir := sim_opendir; sys_readdir := sim_readdir;
  sys_closedir h s := (0, Sim (dt s) (delete h (open s)) (err s))
}.

#[export] Instance sim_view : DirView sim dtree := {
  tree := dt; stat_of t p := nodes t !! p; lstat_of t p := nodes t !! p;
  listing t p := entries t !! p; streams := open
}.

#[export] Instance sim_laws : DirLaws sim dtree.
Proof.
  split; simpl.
  - intros p s. unfold sim_lstat. by destruct (nodes (dt s) !! p).
  - intros p s. unfold sim_lstat. by destruct (nodes (dt s) !! p).
  - intros p s. unfold sim_opendir. destruct (entries (dt s) !! p) as [l|]; [|done].
    split; [done|]. exists l. split; [done|]. split; [|done]. apply not_elem_of_dom. apply is_fresh.
  - intros h s. unfold sim_readdir. destruct (open s !! h) as [[|e l]|] eqn:E; simpl;
      split_and!; try done; intros; simplify_eq; done.
  - done.
  - intros p mode s. unfold sim_mkdir, is_dir. destruct (nodes (dt s) !! p) eqn:E; [done|].
    intros _. simpl. split.
    + exists (Stat 16877 0 0). by rewrite lookup_insert_eq.
    + intros q (st & Hq & Hd). exists st. split; [|done]. rewrite lookup_insert_ne; congruence.
Qed.

Definition file_stat : stat := Stat 33188 5 0.
Definition dir_stat : stat := Stat 16877 0 0.

(** A directory ["d"] with a file ["f"] and a directory ["e"] with a file ["g"]. *)
Definition sample : sim := Sim
  (DTree (<[("d" : str) := dir_stat]> (<[("d/f" : str) := file_stat]>
            (<[("d/e" : str) := dir_stat]> {[("d/e/g" : str) := file_stat]})))
         (<[("d" : str) := [("." : str); (".." : str); ("f" : str); ("e" : str)] ]>
            {[("d/e" : str) := [("." : str); (".." : str); ("g" : str)] ]}))
  ∅ 0.
End SimDir.

Import RefAbsl SimDir.

#[local] Instance dir_strerror : Strerror := fun _ => Xsi 0 "text".

Lemma dir_list_refines_witness :
  returns (DirList (St := rstatus) 10 131 20 "d") sample (fun r w' =>
    r = Value [("f" : str); ("e" : str); ("e/g" : str)] /\ tree w' = tree sample).
Proof.
  assert (Hf : forall d l, listing (tree sample) d = Some l -> (length l < 10)%nat).
  { intros d l Hl. simpl in Hl. apply lookup_insert_Some in Hl as [[_ <-]|[_ Hl]]; [simpl; lia|].
    apply lookup_singleton_Some in Hl as [_ <-]. simpl. lia. }
  destruct (dir_list_refines (St := rstatus) 10 131 20 "d" sample Hf) as (r & w' & E & Ht & Hr).
  exists r, w'. split; [exact E|]. split; [|exact Ht]. vm_compute in E. by injection E as <- _.
Defined.


Lemma mkdir_recursive_witness :
  returns (MkDir (St := rstatus) "d//x/y/" true kDefaultMode) sample (fun st w' =>
    exists crt, mkdir_path "d//x/y/" = Some crt).
Proof.
  destruct (mkdir_recursive (St := rstatus) "d//x/y/" kDefaultMode sample)
    as (st & w' & E & crt & Hc & _).
  exists st, w'. split; [exact E|]. exists crt. exact Hc.
Defined.
