(* ===== verification/Address.v ===== *)
(** * Network addresses ([whisperlib/net/address.h], [whisperlib/net/address.cc])

    An IP address is the sixteen bytes of its buffer; a socket address is the
    bytes of a [sockaddr_storage] with the layout of Linux.  The byte order of
    the host is a parameter ([BigEndian]).  [inet_pton] and [inet_ntop] are the
    class [Inet]. *)

From S2P Require Import Prelude Status Path Posix.

(** ** Bytes in memory *)

(** Whether the most significant byte of an integer comes first in memory. *)
Class BigEndian := host_big_endian : bool.

(** The integer that a list of bytes denotes, the first byte the highest. *)
Definition be_value (bytes : list Z) : Z := foldl (fun acc b => acc * 256 + b) 0 bytes.

Definition be16 (v : Z) : list Z := [Z.land (Z.shiftr v 8) 255; Z.land v 255].
Definition be32 (v : Z) : list Z :=
  [Z.land (Z.shiftr v 24) 255; Z.land (Z.shiftr v 16) 255; Z.land (Z.shiftr v 8) 255; Z.land v 255].

Section Memory.
Context `{!BigEndian}.

(** The bytes of a 16- or 32-bit integer in the memory of the host, and back. *)
Definition host_order {A} (bytes : list A) : list A := if host_big_endian then bytes else rev bytes.
Definition store16 (v : Z) : list Z := host_order (be16 v).
Definition store32 (v : Z) : list Z := host_order (be32 v).
Definition load (bytes : list Z) : Z := be_value (host_order bytes).

(** [htons], [ntohs], [htonl], [ntohl] *)
Definition htons (v : Z) : Z := load (be16 v).
Definition ntohs (v : Z) : Z := be_value (store16 v).
Definition htonl (v : Z) : Z := load (be32 v).
Definition ntohl (v : Z) : Z := be_value (store32 v).
End Memory.

(** [bytes] written at [off], and [n] bytes read at [off]. *)
Definition poke (off : nat) (bytes buf : list Z) : list Z :=
  take off buf ++ bytes ++ drop (off + length bytes) buf.
Definition peek (off n : nat) (buf : list Z) : list Z := take n (drop off buf).

Definition AF_INET : Z := 2.
Definition AF_INET6 : Z := 10.
Definition sizeof_sockaddr_in : Z := 16.
Definition sizeof_sockaddr_in6 : Z := 28.
(** The offsets of the members of [sockaddr_in] and [sockaddr_in6]. *)
Definition off_family : nat := 0.
Definition off_port : nat := 2.
Definition off_sin_addr : nat := 4.
Definition off_sin6_addr : nat := 8.
Definition off_scope_id : nat := 24.
(** [sockaddr_storage addr = {}] *)
Definition zero_storage : list Z := replicate 128 0.

(** [inet_pton] and [inet_ntop]: text to bytes in network order and back. *)
Class Inet := {
  inet_pton4 : str -> option (list Z);
  inet_pton6 : str -> option (list Z);
  inet_ntop4 : list Z -> str;
  inet_ntop6 : list Z -> str
}.

Definition is_bytes (n : nat) (l : list Z) : Prop := length l = n /\ Forall (in_u 8) l.

(** What is documented of them: text made by [inet_ntop] is read back, a text
    belongs to one family, and is made of the characters of addresses. *)
Class InetLaws `{Inet} : Prop := {
  pton4_bytes s b : inet_pton4 s = Some b -> is_bytes 4 b;
  pton6_bytes s b : inet_pton6 s = Some b -> is_bytes 16 b;
  pton4_ntop4 b : is_bytes 4 b -> inet_pton4 (inet_ntop4 b) = Some b;
  pton6_ntop6 b : is_bytes 16 b -> inet_pton6 (inet_ntop6 b) = Some b;
  pton4_ntop6 b : is_bytes 16 b -> inet_pton4 (inet_ntop6 b) = None;
  ntop4_chars b c : is_bytes 4 b -> c ∈ inet_ntop4 b -> c ∉ [":"; "["; "]"; "000"]%char;
  ntop6_chars b c : is_bytes 16 b -> c ∈ inet_ntop6 b -> c ∉ ["["; "]"; "000"]%char;
  pton_empty : inet_pton4 [] = None /\ inet_pton6 [] = None
}.

(** ** [IpAddress] *)

Definition kIpV6Size : nat := 16.
Record IpAddress := MkIp { addr_ : list Z }.

#[export] Instance IpAddress_eq : EqDecision IpAddress.
Proof. solve_decision. Defined.

Definition wf_ip (ip : IpAddress) : Prop := is_bytes kIpV6Size (addr_ ip).

(** [IpAddress(uint32_t)] *)
Definition IpAddress_v4 (addr : Z) : IpAddress :=
  MkIp (replicate 10 0 ++ [255; 255;
    Z.shiftr (Z.land addr 4278190080) 24; Z.shiftr (Z.land addr 16711680) 16;
    Z.shiftr (Z.land addr 65280) 8; Z.land addr 255]).

(** [IpAddress(IpArray)] and [IpAddress(const uint8_t (&)[16])] *)
Definition IpAddress_bytes (addr : list Z) : IpAddress := MkIp addr.

Definition ip_eq (a b : IpAddress) : bool := bool_decide (addr_ a = addr_ b).
Definition ip_ne (a b : IpAddress) : bool := bool_decide (addr_ a <> addr_ b).

(** [operator<]: the loop over the bytes. *)
Fixpoint bytes_lt (a b : list Z) : bool :=
  match a, b with
  | x :: a, y :: b => if decide (x < y) then true else if decide (x > y) then false else bytes_lt a b
  | _, _ => false
  end.
Definition ip_lt (a b : IpAddress) : bool := bytes_lt (addr_ a) (addr_ b).

Definition is_ipv4 (ip : IpAddress) : bool :=
  bool_decide (take 12 (addr_ ip) = replicate 10 0 ++ [255; 255]).
Definition is_ipv6 (ip : IpAddress) : bool := negb (is_ipv4 ip).

(** [169.254.0.0/16], and [fe80::/64]. *)
Definition is_local_link (ip : IpAddress) : bool :=
  bool_decide (take 14 (addr_ ip) = replicate 10 0 ++ [255; 255; 169; 254])
  || bool_decide (take 8 (addr_ ip) = [254; 128; 0; 0; 0; 0; 0; 0]).

Definition ipv4 (ip : IpAddress) : Z :=
  let at_ i := nth i (addr_ ip) 0 in
  u32 (u32 (Z.shiftl (at_ 12%nat) 24) + u32 (Z.shiftl (at_ 13%nat) 16)
       + u32 (Z.shiftl (at_ 14%nat) 8) + at_ 15%nat).

Definition kIPv4Localhost : IpAddress :=
  IpAddress_bytes [0; 0; 0; 0; 0; 0; 0; 0; 0; 0; 255; 255; 127; 0; 0; 1].
Definition kIPv6Localhost : IpAddress :=
  IpAddress_bytes [0; 0; 0; 0; 0; 0; 0; 0; 0; 0; 0; 0; 0; 0; 0; 1].

Section IpAddress.
Context {St : Type} `{!Absl St} `{!BigEndian} `{!Inet}.

(** [IpAddress::ParseFromString] *)
Definition Ip_ParseFromString (ip : str) : StatusOr St IpAddress :=
  match ip with
  | [] => Error (mk_status kInvalidArgument "Empty IP address string.")
  | _ =>
      match inet_pton4 (c_str ip) with
      | Some addr => Value (IpAddress_v4 (ntohl (load addr)))
      | None =>
          match inet_pton6 (c_str ip) with
          | Some addr6 => Value (IpAddress_bytes addr6)
          | None => Error (mk_status kInvalidArgument
              "IP address string could not be parsed neither as IPv4, nor as IPv6.")
          end
      end
  end.

(** [saddr->sa_family] *)
Definition sa_family (saddr : list Z) : Z := load (peek off_family 2 saddr).

(** The error of a [RET_CHECK] of this file, as a value. *)
Definition check_failed {A} (condition : str) (line : Z) (text : str) : StatusOr St A :=
  return_error (ret_check_writer condition "whisperlib/net/address.cc" line) text.

(** [IpAddress::ParseFromSockAddr(saddr, saddr_len)] *)
Definition Ip_ParseFromSockAddr (saddr : list Z) (saddr_len : Z) : StatusOr St IpAddress :=
  if decide (sa_family saddr = AF_INET) then
    if decide (saddr_len >= sizeof_sockaddr_in) then
      Value (IpAddress_v4 (load (peek off_sin_addr 4 saddr)))
    else check_failed "saddr_len >= sizeof(sockaddr_in)" 91
           "Insufficient buffer size to parse IPv4 from sockaddr."
  else if decide (sa_family saddr = AF_INET6) then
    if decide (saddr_len >= sizeof_sockaddr_in6) then
      Value (IpAddress_bytes (peek off_sin6_addr 16 saddr))
    else check_failed "saddr_len >= sizeof(sockaddr_in6)" 96
           "Insufficient buffer size to parse IPv4 from sockaddr."
  else Error (mk_status kInvalidArgument
    "Provided sockaddr structure does not have a AF_INET or AF_INET6 address family").

(** [IpAddress::ToSockAddr(addr)] *)
Definition Ip_ToSockAddr (ip : IpAddress) (addr : list Z) : list Z :=
  if is_ipv4 ip then
    poke off_sin_addr (store32 (htonl (ipv4 ip))) (poke off_family (store16 AF_INET) addr)
  else
    poke off_sin6_addr (addr_ ip) (poke off_family (store16 AF_INET6) addr).

(** [IpAddress::ToString] *)
Definition Ip_ToString (ip : IpAddress) : str :=
  if is_ipv4 ip then inet_ntop4 (drop 12 (addr_ ip)) else inet_ntop6 (addr_ ip).

(** ** [SockAddrSetter]: its state is the buffer *)

Definition SockAddrSetter_ctor : list Z := poke off_family (store16 AF_INET) zero_storage.
Definition SetIpAddress (a : list Z) (addr : IpAddress) : list Z := Ip_ToSockAddr addr a.
Definition SockAddrSetter_ip (addr : IpAddress) : list Z := SetIpAddress zero_storage addr.
Definition SetIpFamily (a : list Z) (is_ipv6 : bool) : list Z :=
  poke off_family (store16 (if is_ipv6 then AF_INET6 else AF_INET)) a.
Definition SetPort (a : list Z) (port : Z) : list Z :=
  if decide (sa_family a = AF_INET6) then poke off_port (store16 (htons port)) a
  else if decide (sa_family a = AF_INET) then poke off_port (store16 (htons port)) a
  else a.
Definition SetUseAnyAddress (a : list Z) : list Z :=
  if decide (sa_family a = AF_INET6) then poke off_sin6_addr (replicate 16 0) a
  else if decide (sa_family a = AF_INET) then poke off_sin_addr (store32 0) a
  else a.
Definition SetIpV6ScopeId (a : list Z) (scope_id : Z) : list Z :=
  if decide (sa_family a = AF_INET6) then poke off_scope_id (store32 (htonl scope_id)) a else a.
End IpAddress.

(** ** [HostPort] *)

Record HostPort := MkHostPort {
  host_ : option str; ip_ : option IpAddress; port_ : option Z; scope_id_ : option Z
}.

#[export] Instance HostPort_eq : EqDecision HostPort.
Proof. solve_decision. Defined.

Definition HostPort_empty : HostPort := MkHostPort None None None None.
Definition HostPort_ctor (host : option str) (ip : option IpAddress) (port : option Z) : HostPort :=
  MkHostPort host ip port None.

Definition set_host (value : str) (hp : HostPort) : HostPort :=
  MkHostPort (Some value) (ip_ hp) (port_ hp) (scope_id_ hp).
Definition set_ip (ip : IpAddress) (hp : HostPort) : HostPort :=
  MkHostPort (host_ hp) (Some ip) (port_ hp) (scope_id_ hp).
Definition set_port (port : Z) (hp : HostPort) : HostPort :=
  MkHostPort (host_ hp) (ip_ hp) (Some port) (scope_id_ hp).
Definition set_scope_id (scope_id : Z) (hp : HostPort) : HostPort :=
  MkHostPort (host_ hp) (ip_ hp) (port_ hp) (Some scope_id).

Definition has_value {A} (o : option A) : bool := bool_decide (is_Some o).

Definition IsValid (hp : HostPort) : bool :=
  has_value (port_ hp) && negb (default 0 (port_ hp) =? 0)
  && (has_value (ip_ hp) || has_value (host_ hp)).
Definition IsResolved (hp : HostPort) : bool :=
  has_value (port_ hp) && negb (default 0 (port_ hp) =? 0) && has_value (ip_ hp).

(** [this->Update(hp)] *)
Definition Update (this hp : HostPort) : HostPort :=
  let this := match host_ hp with Some v => set_host v this | None => this end in
  let this := match ip_ hp with Some v => set_ip v this | None => this end in
  let this := match port_ hp with Some v => set_port v this | None => this end in
  match scope_id_ hp with Some v => set_scope_id v this | None => this end.

(** [absl::StartsWith], [absl::EndsWith] *)
Definition StartsWith (s p : str) : bool := bool_decide (p `prefix_of` s).
Definition EndsWith (s p : str) : bool := bool_decide (p `suffix_of` s).

Section HostPort.
Context {St : Type} `{!Absl St} `{!BigEndian} `{!Inet}.

(** [HostPort::ToString] *)
Definition ToString (hp : HostPort) : str :=
  let result := default [] (host_ hp) in
  let result :=
    match ip_ hp with
    | Some ip =>
        let brackets := negb (bool_decide (result = [])) || is_ipv6 ip in
        let result := if brackets then result ++ "[" else result in
        let result := result ++ Ip_ToString ip in
        if brackets then result ++ "]" else result
    | None => result
    end in
  let result :=
    match port_ hp with Some port => result ++ ":" ++ StrInt port | None => result end in
  if decide (result = []) then "[]" else result.

(** [HostPort::ToHostportString] *)
Definition ToHostportString (hp : HostPort) : StatusOr St str :=
  let with_port result :=
    match port_ hp with
    | Some port => Value (result ++ ":" ++ StrInt port)
    | None => Error (mk_status kFailedPrecondition "Host port has no port specified.")
    end in
  match ip_ hp, host_ hp with
  | Some ip, _ =>
      let brackets := is_ipv6 ip in
      with_port ((if brackets then "[" : str else []) ++ Ip_ToString ip
                 ++ (if brackets then "]" : str else []))
  | None, Some host => with_port host
  | None, None =>
      Error (mk_status kFailedPrecondition "Host port has no host or ip specified.")
  end.

(** [HostPort::ToSockAddr(addr)]: the status and the filled buffer. *)
Definition ToSockAddr (hp : HostPort) (addr : list Z) : St * list Z :=
  match ip_ hp, port_ hp with
  | Some ip, Some port =>
      if negb (IsResolved hp) then
        (return_error (FailedPreconditionErrorBuilder
           "Host port is nor resolved yet for sockaddr conversion.") [], addr)
      else
        let addr := Ip_ToSockAddr ip addr in
        if decide (sa_family addr = AF_INET6) then
          let addr := poke off_port (store16 (htons port)) addr in
          match scope_id_ hp with
          | Some scope_id => (OkStatus, poke off_scope_id (store32 (htonl scope_id)) addr)
          | None => (OkStatus, addr)
          end
        else if decide (sa_family addr = AF_INET) then
          (OkStatus, poke off_port (store16 (htons port)) addr)
        else (OkStatus, addr)
  | _, _ =>
      (return_error (FailedPreconditionErrorBuilder
         "Host port is nor resolved yet for sockaddr conversion.") [], addr)
  end.

(** [HostPort::ParseFromString] *)
Definition ParseFromString (host_port : str) : StatusOr St HostPort :=
  if decide (host_port = []) then Value HostPort_empty
  else
    let pos := if negb (EndsWith host_port "]") then rfind ":" host_port else None in
    let host := match pos with Some p => take p host_port | None => host_port end in
    let ip_host := if StartsWith host "[" && EndsWith host "]"
                   then take (length host - 2) (drop 1 host) else host in
    let ip_result := Ip_ParseFromString (St := St) ip_host in
    let result :=
      match ip_result with
      | Value ip =>
          if is_ipv6 ip && bool_decide (ip_host = host) then
            Error (return_error (InvalidArgumentErrorBuilder [])
              ("An IPv6 host port needs to be in form [ip]:port for `" ++ host_port ++ "`"))
          else Value (set_ip ip HostPort_empty)
      | Error _ => Value (set_host host HostPort_empty)
      end in
    match result, pos with
    | Error st, _ => Error st
    | Value result, None => Value result
    | Value result, Some p =>
        match SimpleAtoi32 (drop (p + 1) host_port) with
        | None => Error (return_error (InvalidArgumentErrorBuilder [])
            ("Error parsing hostport port from string: `" ++ host_port ++ "`"))
        | Some port =>
            if decide (port = 0 \/ port > 65535) then
              Error (return_error (InvalidArgumentErrorBuilder [])
                ("Error parsing hostport port out of range: " ++ StrInt port))
            else Value (set_port (u16 port) result)
        end
    end.

(** [HostPort::ParseFromSockAddr] *)
Definition ParseFromSockAddr (saddr : list Z) (saddr_len : Z) : StatusOr St HostPort :=
  match Ip_ParseFromSockAddr saddr saddr_len with
  | Error st => Error (to_status (StatusWriter_ctor st))
  | Value ip =>
      let hp := set_ip ip HostPort_empty in
      if decide (sa_family saddr = AF_INET) then
        Value (set_port (ntohs (load (peek off_port 2 saddr))) hp)
      else if decide (sa_family saddr = AF_INET6) then
        let hp := set_port (ntohs (load (peek off_port 2 saddr))) hp in
        if decide (load (peek off_scope_id 4 saddr) <> 0) then
          Value (set_scope_id (ntohl (load (peek off_scope_id 4 saddr))) hp)
        else Value hp
      else Value hp
  end.
End HostPort.

(** ** Bytes *)

Ltac div_lia := Z.div_mod_to_equations; lia.

Lemma land_255 v : Z.land v 255 = v mod 256.
Proof. apply (Z.land_ones v 8). lia. Qed.

Lemma shiftr_div v n : 0 <= n -> Z.shiftr v n = v / 2 ^ n.
Proof. apply Z.shiftr_div_pow2. Qed.

Lemma be16_eq v : be16 v = [(v / 256) mod 256; v mod 256].
Proof. unfold be16. by rewrite !land_255, shiftr_div by lia. Qed.

Lemma be32_eq v :
  be32 v = [(v / 16777216) mod 256; (v / 65536) mod 256; (v / 256) mod 256; v mod 256].
Proof. unfold be32. by rewrite !land_255, !shiftr_div by lia. Qed.

Lemma be16_bytes v : is_bytes 2 (be16 v).
Proof.
  rewrite be16_eq. split; [done|]. unfold in_u. repeat constructor; apply Z.mod_pos_bound; lia.
Qed.

Lemma be32_bytes v : is_bytes 4 (be32 v).
Proof.
  rewrite be32_eq. split; [done|]. unfold in_u. repeat constructor; apply Z.mod_pos_bound; lia.
Qed.

Lemma be_value_be16 v : in_u 16 v -> be_value (be16 v) = v.
Proof. unfold in_u. intros Hv. rewrite be16_eq. unfold be_value. simpl. div_lia. Qed.

Lemma be_value_be32 v : in_u 32 v -> be_value (be32 v) = v.
Proof. unfold in_u. intros Hv. rewrite be32_eq. unfold be_value. simpl. div_lia. Qed.

Lemma be16_be_value l : is_bytes 2 l -> be16 (be_value l) = l.
Proof.
  intros [Hl Hf]. destruct l as [|a [|b [|]]]; try done.
  rewrite !Forall_cons in Hf. unfold in_u in Hf. rewrite be16_eq. unfold be_value. simpl.
  repeat f_equal; div_lia.
Qed.

Lemma be32_be_value l : is_bytes 4 l -> be32 (be_value l) = l.
Proof.
  intros [Hl Hf]. destruct l as [|a [|b [|c [|d [|]]]]]; try done.
  rewrite !Forall_cons in Hf. unfold in_u in Hf. rewrite be32_eq. unfold be_value. simpl.
  repeat f_equal; div_lia.
Qed.

Section Bytes.
Context `{!BigEndian}.

Lemma host_order_twice {A} (l : list A) : host_order (host_order l) = l.
Proof. unfold host_order. destruct host_big_endian; [done|apply rev_involutive]. Qed.

Lemma host_order_bytes n l : is_bytes n l -> is_bytes n (host_order l).
Proof.
  intros [Hl Hf]. unfold host_order. destruct host_big_endian; [done|]. split.
  - by rewrite length_rev.
  - by apply Forall_rev.
Qed.

Lemma load_store16 v : in_u 16 v -> load (store16 v) = v.
Proof. intros Hv. unfold load, store16. rewrite host_order_twice. by apply be_value_be16. Qed.

Lemma load_store32 v : in_u 32 v -> load (store32 v) = v.
Proof. intros Hv. unfold load, store32. rewrite host_order_twice. by apply be_value_be32. Qed.

Lemma store16_load l : is_bytes 2 l -> store16 (load l) = l.
Proof.
  intros Hl. unfold load, store16. rewrite be16_be_value by by apply host_order_bytes.
  apply host_order_twice.
Qed.

Lemma store32_load l : is_bytes 4 l -> store32 (load l) = l.
Proof.
  intros Hl. unfold load, store32. rewrite be32_be_value by by apply host_order_bytes.
  apply host_order_twice.
Qed.

(** Network order is the order of the bytes in memory, whatever the host. *)
Lemma store_htons v : store16 (htons v) = be16 v.
Proof. apply store16_load, be16_bytes. Qed.
Lemma store_htonl v : store32 (htonl v) = be32 v.
Proof. apply store32_load, be32_bytes. Qed.
Lemma ntohs_load v : in_u 16 v -> ntohs (load (be16 v)) = v.
Proof. intros. unfold ntohs. rewrite store16_load by apply be16_bytes. by apply be_value_be16. Qed.
Lemma ntohl_load l : is_bytes 4 l -> ntohl (load l) = be_value l.
Proof. intros. unfold ntohl. by rewrite store32_load. Qed.
End Bytes.

(** ** Buffers *)

Lemma length_poke off bytes buf :
  (off + length bytes <= length buf)%nat -> length (poke off bytes buf) = length buf.
Proof. intros. unfold poke. rewrite !length_app, length_take, length_drop. lia. Qed.

Lemma peek_poke off n bytes buf :
  n = length bytes -> (off + n <= length buf)%nat -> peek off n (poke off bytes buf) = bytes.
Proof.
  intros -> Hl. unfold peek, poke. rewrite drop_app_length' by (rewrite length_take; lia).
  by rewrite take_app_length.
Qed.

Lemma peek_poke_other off n off' bytes buf :
  (off' + length bytes <= length buf)%nat -> (off + n <= off' \/ off' + length bytes <= off)%nat ->
  peek off n (poke off' bytes buf) = peek off n buf.
Proof.
  intros Hl [Hb|Ha]; unfold peek, poke.
  - rewrite drop_app_le, take_app_le, skipn_firstn_comm, take_take
      by (rewrite ?length_drop, ?length_take; lia). f_equal. lia.
  - rewrite app_assoc, drop_app_ge by (rewrite length_app, length_take; lia).
    rewrite length_app, length_take, drop_drop. do 2 f_equal. lia.
Qed.

(** ** IPv4 addresses inside IPv6 ones *)

Definition v4_prefix : list Z := replicate 10 0 ++ [255; 255].

Lemma IpAddress_v4_bytes v : IpAddress_v4 v = MkIp (v4_prefix ++ be32 v).
Proof. unfold IpAddress_v4, be32. rewrite !Z.shiftr_land. done. Qed.

Lemma is_ipv4_app l : is_ipv4 (MkIp (v4_prefix ++ l)) = true.
Proof. done. Qed.

Lemma wf_v4 v : wf_ip (IpAddress_v4 v).
Proof.
  rewrite IpAddress_v4_bytes. destruct (be32_bytes v) as [Hl Hf]. split; simpl.
  - done.
  - repeat (constructor; [unfold in_u; lia|]). done.
Qed.

Lemma is_ipv4_split ip :
  wf_ip ip -> is_ipv4 ip = true -> exists l, is_bytes 4 l /\ ip = MkIp (v4_prefix ++ l).
Proof.
  destruct ip as [a]. intros [Hl Hf] E%bool_decide_eq_true. simpl in *. exists (drop 12 a). split.
  - split; [rewrite length_drop, Hl; done|by apply Forall_drop].
  - f_equal. rewrite <- (take_drop 12 a) at 1. by rewrite E.
Qed.

Lemma ipv4_app l : is_bytes 4 l -> ipv4 (MkIp (v4_prefix ++ l)) = be_value l.
Proof.
  intros [Hl Hf]. destruct l as [|a [|b [|c [|d [|]]]]]; try done.
  rewrite !Forall_cons in Hf. unfold in_u in Hf. unfold ipv4, u32, wrap, be_value. simpl.
  rewrite !Z.shiftl_mul_pow2 by lia. div_lia.
Qed.

Lemma v4_app l : is_bytes 4 l -> IpAddress_v4 (be_value l) = MkIp (v4_prefix ++ l).
Proof. intros. rewrite IpAddress_v4_bytes. by rewrite be32_be_value. Qed.

(** An IPv4 address is kept inside the IPv6 buffer without loss: the
    address made from a 32-bit number is well formed and IPv4 and gives the
    number back, and every well formed IPv4 address is made from its number. *)
Theorem ipv4_embedding :
  (forall v, in_u 32 v -> wf_ip (IpAddress_v4 v) /\ is_ipv4 (IpAddress_v4 v) = true /\
     ipv4 (IpAddress_v4 v) = v) /\
  (forall ip, wf_ip ip -> is_ipv4 ip = true -> IpAddress_v4 (ipv4 ip) = ip) /\
  IpAddress_v4 2130706433 = kIPv4Localhost /\ is_ipv6 kIPv6Localhost = true.
Proof.
  split_and!; [| |done|done].
  - intros v Hv. split; [apply wf_v4|]. rewrite IpAddress_v4_bytes. split; [done|].
    rewrite ipv4_app by apply be32_bytes. by apply be_value_be32.
  - intros ip Hip (l & Hl & ->)%is_ipv4_split; [|done]. rewrite ipv4_app by done. by apply v4_app.
Qed.

Lemma ipv4_embedding_witness : ipv4 (IpAddress_v4 3232235777) = 3232235777.
Proof. destruct ipv4_embedding as [H _]. apply H. unfold in_u. lia. Defined.

(** ** The order *)

Lemma foldl_be l acc :
  foldl (fun acc b => acc * 256 + b) acc l = acc * 256 ^ zlen l + be_value l.
Proof.
  unfold be_value. revert acc. induction l as [|b l IH]; intros acc; simpl.
  - change (zlen (@nil Z)) with 0. lia.
  - rewrite (IH (acc * 256 + b)), (IH (0 * 256 + b)), zlen_cons, Z.pow_add_r by (pose proof (zlen_nonneg l); lia). lia.
Qed.

Lemma be_value_cons b l : be_value (b :: l) = b * 256 ^ zlen l + be_value l.
Proof. unfold be_value at 1. simpl. apply foldl_be. Qed.

Lemma be_value_bound l : Forall (in_u 8) l -> 0 <= be_value l < 256 ^ zlen l.
Proof.
  induction 1 as [|b l Hb _ IH]; [done|].
  rewrite be_value_cons, zlen_cons, Z.pow_add_r by (pose proof (zlen_nonneg l); lia).
  unfold in_u in Hb. nia.
Qed.

Lemma bytes_lt_spec a b :
  length a = length b -> Forall (in_u 8) a -> Forall (in_u 8) b ->
  bytes_lt a b = bool_decide (be_value a < be_value b).
Proof.
  revert b. induction a as [|x a IH]; intros [|y b] Hl Ha Hb; try done.
  rewrite Forall_cons in Ha, Hb. destruct Ha as [Hx Ha], Hb as [Hy Hb]. injection Hl as Hl.
  pose proof (be_value_bound a Ha). pose proof (be_value_bound b Hb).
  assert (Ez : zlen a = zlen b) by (unfold zlen; lia).
  rewrite !be_value_cons, Ez in *. simpl. unfold in_u in Hx, Hy.
  case_decide; [|case_decide].
  - symmetry. apply bool_decide_eq_true. nia.
  - symmetry. apply bool_decide_eq_false. nia.
  - rewrite IH by done. apply bool_decide_ext. assert (x = y) as -> by lia. lia.
Qed.

Lemma be_value_inj a b :
  length a = length b -> Forall (in_u 8) a -> Forall (in_u 8) b ->
  be_value a = be_value b -> a = b.
Proof.
  revert b. induction a as [|x a IH]; intros [|y b] Hl Ha Hb E; try done.
  rewrite Forall_cons in Ha, Hb. destruct Ha as [Hx Ha], Hb as [Hy Hb]. injection Hl as Hl.
  pose proof (be_value_bound a Ha). pose proof (be_value_bound b Hb).
  assert (Ez : zlen a = zlen b) by (unfold zlen; lia).
  rewrite !be_value_cons, Ez in *. unfold in_u in Hx, Hy.
  assert (x = y) as -> by nia. f_equal. apply IH; [done..|lia].
Qed.

(** [operator<] is the order of the addresses read as 128-bit numbers, and
    [operator==] and [operator!=] compare these numbers: so exactly one of
    [a < b], [a == b] and [b < a] holds, and the order is transitive - what the
    ordered containers need; IPv4 addresses are ordered by their numbers. *)
Theorem ip_order (a b c : IpAddress) :
  wf_ip a -> wf_ip b -> wf_ip c ->
  ip_lt a b = bool_decide (be_value (addr_ a) < be_value (addr_ b)) /\
  ip_eq a b = bool_decide (be_value (addr_ a) = be_value (addr_ b)) /\
  ip_ne a b = negb (ip_eq a b) /\
  (ip_lt a b = true -> ip_lt b c = true -> ip_lt a c = true) /\
  (is_ipv4 a = true -> is_ipv4 b = true -> ip_lt a b = bool_decide (ipv4 a < ipv4 b)).
Proof.
  intros Ha Hb Hc.
  assert (Hlt : forall x y, wf_ip x -> wf_ip y ->
    ip_lt x y = bool_decide (be_value (addr_ x) < be_value (addr_ y))).
  { intros x y [Hxl Hxf] [Hyl Hyf]. apply bytes_lt_spec; [congruence|done..]. }
  rewrite !Hlt by done. split_and!.
  - done.
  - unfold ip_eq. apply bool_decide_ext. split; [by intros ->|].
    destruct Ha, Hb. apply be_value_inj; [congruence|done..].
  - unfold ip_ne, ip_eq. by rewrite bool_decide_not.
  - rewrite !bool_decide_eq_true. lia.
  - intros (la & Hla & ->)%is_ipv4_split (lb & Hlb & ->)%is_ipv4_split; [|done..].
    rewrite !ipv4_app by done. apply bool_decide_ext. unfold be_value. simpl.
    rewrite !foldl_be. destruct Hla as [E1 _], Hlb as [E2 _]. unfold zlen. rewrite E1, E2. lia.
Qed.

Lemma ip_order_witness :
  ip_lt kIPv6Localhost kIPv4Localhost = true /\ ip_ne kIPv6Localhost kIPv4Localhost = true.
Proof.
  assert (H4 : wf_ip kIPv4Localhost)
    by (split; [done|]; repeat constructor; unfold in_u; lia).
  assert (H6 : wf_ip kIPv6Localhost)
    by (split; [done|]; repeat constructor; unfold in_u; lia).
  destruct (ip_order kIPv6Localhost kIPv4Localhost kIPv6Localhost H6 H4 H6) as (E1 & E2 & E3 & _).
  split; [exact E1|]. rewrite E3, E2. reflexivity.
Defined.

(** ** Socket addresses *)

Section SockAddr.
Context {St : Type} `{HA : !Absl St} `{HB : !BigEndian} `{HI : !Inet}.

Lemma length_store16 v : length (store16 v) = 2%nat.
Proof. apply (host_order_bytes 2), be16_bytes. Qed.

Lemma length_store_htonl v : length (store32 (htonl v)) = 4%nat.
Proof. rewrite store_htonl. apply be32_bytes. Qed.

Lemma family_poke fam buf :
  in_u 16 fam -> length buf = 128%nat -> sa_family (poke off_family (store16 fam) buf) = fam.
Proof.
  intros Hf Hl. unfold sa_family. rewrite peek_poke by (rewrite ?length_store16; unfold off_family; lia).
  by apply load_store16.
Qed.

Lemma family_other off bytes buf :
  (2 <= off)%nat -> (off + length bytes <= length buf)%nat ->
  sa_family (poke off bytes buf) = sa_family buf.
Proof. intros. unfold sa_family. rewrite peek_poke_other; [done|lia|unfold off_family; lia]. Qed.

(** The address that comes back: its bytes reversed when it is IPv4 and the
    host is little-endian. *)
Definition read_back (ip : IpAddress) : IpAddress :=
  if is_ipv4 ip then MkIp (v4_prefix ++ host_order (drop 12 (addr_ ip))) else ip.

(** The buffer that [Ip_ToSockAddr] makes. *)
Lemma storage_ip ip buf :
  wf_ip ip -> length buf = 128%nat ->
  let addr := Ip_ToSockAddr ip buf in
  length addr = 128%nat /\ sa_family addr = (if is_ipv4 ip then AF_INET else AF_INET6) /\
  peek off_port 2 addr = peek off_port 2 buf /\
  (is_ipv4 ip = true -> peek off_sin_addr 4 addr = drop 12 (addr_ ip)) /\
  (is_ipv4 ip = false -> peek off_sin6_addr 16 addr = addr_ ip /\
     peek off_scope_id 4 addr = peek off_scope_id 4 buf).
Proof.
  intros Hip Hl. simpl. unfold Ip_ToSockAddr.
  assert (Hb : forall fam, length (poke off_family (store16 fam) buf) = 128%nat)
    by (intros; rewrite length_poke; rewrite ?length_store16; unfold off_family; lia).
  destruct (is_ipv4 ip) eqn:E4.
  - pose proof (length_store_htonl (ipv4 ip)) as Hs. unfold off_sin_addr, off_port.
    split_and!; [rewrite length_poke; rewrite ?Hs, Hb; lia| | | |done].
    + rewrite family_other by (rewrite ?Hs, ?Hb; lia). by apply family_poke.
    + rewrite !peek_poke_other; rewrite ?Hs, ?Hb, ?length_store16; unfold off_family; try lia. done.
    + intros _. rewrite peek_poke by (rewrite ?Hs, ?Hb; lia). rewrite store_htonl.
      apply is_ipv4_split in E4 as (l & Hl4 & ->); [|done]. rewrite ipv4_app by done.
      by rewrite be32_be_value.
  - destruct Hip as [Hs _]. unfold kIpV6Size in Hs. unfold off_sin6_addr, off_port, off_scope_id.
    split_and!; [rewrite length_poke; rewrite ?Hs, Hb; lia| | |done|].
    + rewrite family_other by (rewrite ?Hs, ?Hb; lia). by apply family_poke.
    + rewrite !peek_poke_other; rewrite ?Hs, ?Hb, ?length_store16; unfold off_family; try lia. done.
    + intros _. split; [by rewrite peek_poke by (rewrite ?Hs, ?Hb; lia)|].
      rewrite !peek_poke_other; rewrite ?Hs, ?Hb, ?length_store16; unfold off_family; try lia. done.
Qed.

Lemma parse_storage ip addr :
  wf_ip ip -> sa_family addr = (if is_ipv4 ip then AF_INET else AF_INET6) ->
  (is_ipv4 ip = true -> peek off_sin_addr 4 addr = drop 12 (addr_ ip)) ->
  (is_ipv4 ip = false -> peek off_sin6_addr 16 addr = addr_ ip) ->
  Ip_ParseFromSockAddr (St := St) addr 128 = Value (read_back ip).
Proof.
  intros Hip Hf H4 H6. unfold Ip_ParseFromSockAddr, read_back. rewrite Hf.
  destruct (is_ipv4 ip) eqn:E4.
  - rewrite decide_True, decide_True by (done || unfold sizeof_sockaddr_in; lia).
    rewrite H4 by done. apply is_ipv4_split in E4 as (l & Hl4 & ->); [|done]. simpl.
    rewrite drop_0. unfold load. by rewrite v4_app by by apply host_order_bytes.
  - rewrite decide_False, decide_True, decide_True
      by (done || unfold sizeof_sockaddr_in6; lia).
    rewrite H6 by done. by destruct ip.
Qed.

Lemma load_be32_zero v : in_u 32 v -> load (be32 v) = 0 <-> v = 0.
Proof.
  intros Hv. split; [|intros ->; unfold load, host_order; by destruct host_big_endian].
  intros E. pose proof (store32_load (be32 v) (be32_bytes v)) as Hs. rewrite E in Hs.
  rewrite <- (be_value_be32 v Hv), <- Hs. unfold store32, host_order. by destruct host_big_endian.
Qed.
(** What [ToSockAddr] fills in for a resolved host and port. *)
Lemma ToSockAddr_eq h ip port scope addr :
  0 < port -> let a := Ip_ToSockAddr ip addr in
  wf_ip ip -> length addr = 128%nat ->
  ToSockAddr (St := St) (MkHostPort h (Some ip) (Some port) scope) addr =
  (OkStatus,
   let a := poke off_port (be16 port) a in
   match scope with
   | Some sc => if is_ipv4 ip then a else poke off_scope_id (be32 sc) a
   | None => a
   end).
Proof.
  intros Hp a Hip Hl. destruct (storage_ip ip addr Hip Hl) as (Hla & Hfam & _).
  unfold ToSockAddr, IsResolved, has_value. simpl.
  destruct (port =? 0) eqn:Ez; [lia|]. simpl. fold a in Hfam |- *. rewrite Hfam.
  rewrite !store_htons. destruct (is_ipv4 ip).
  - rewrite decide_False, decide_True by done. by destruct scope.
  - rewrite decide_True by done. destruct scope; [|done]. by rewrite store_htonl.
Qed.

Lemma parse_hostport ip port addr :
  wf_ip ip -> in_u 16 port -> sa_family addr = (if is_ipv4 ip then AF_INET else AF_INET6) ->
  peek off_port 2 addr = be16 port ->
  (is_ipv4 ip = true -> peek off_sin_addr 4 addr = drop 12 (addr_ ip)) ->
  (is_ipv4 ip = false -> peek off_sin6_addr 16 addr = addr_ ip) ->
  ParseFromSockAddr (St := St) addr 128 =
    Value (MkHostPort None (Some (read_back ip)) (Some port)
      (if is_ipv4 ip then None
       else if decide (load (peek off_scope_id 4 addr) <> 0)
            then Some (ntohl (load (peek off_scope_id 4 addr))) else None)).
Proof.
  intros Hip Hp Hf Hport H4 H6. unfold ParseFromSockAddr.
  rewrite (parse_storage ip) by done. rewrite Hf, Hport, ntohs_load by done.
  destruct (is_ipv4 ip).
  - by rewrite decide_True by done.
  - rewrite decide_False, decide_True by done. by case_decide.
Qed.

(** The buffer with the port, and with the scope of an IPv6 address. *)
Lemma storage_port ip port :
  wf_ip ip -> in_u 16 port ->
  let a := poke off_port (be16 port) (Ip_ToSockAddr ip zero_storage) in
  length a = 128%nat /\ sa_family a = (if is_ipv4 ip then AF_INET else AF_INET6) /\
  peek off_port 2 a = be16 port /\
  (is_ipv4 ip = true -> peek off_sin_addr 4 a = drop 12 (addr_ ip)) /\
  (is_ipv4 ip = false -> peek off_sin6_addr 16 a = addr_ ip /\
     peek off_scope_id 4 a = replicate 4 0).
Proof.
  intros Hip Hp. destruct (storage_ip ip zero_storage Hip eq_refl) as (Hl & Hfam & _ & H4 & H6).
  set (b := Ip_ToSockAddr ip zero_storage) in *.
  assert (Hb : length (be16 port) = 2%nat) by apply be16_bytes. unfold off_port.
  assert (Ho : forall off n, (4 <= off)%nat -> peek off n (poke 2 (be16 port) b) = peek off n b).
  { intros. rewrite peek_poke_other; rewrite ?Hb; lia || done. }
  simpl. split_and!.
  - rewrite length_poke; rewrite ?Hb; lia.
  - rewrite family_other; rewrite ?Hb; lia || done.
  - rewrite peek_poke; rewrite ?Hb; lia || done.
  - intros E. rewrite Ho by (unfold off_sin_addr; lia). auto.
  - intros E. destruct (H6 E) as [H6a H6b].
    rewrite !Ho by (unfold off_sin6_addr, off_scope_id; lia). by rewrite H6a, H6b.
Qed.

Lemma storage_scope ip port sc :
  wf_ip ip -> in_u 16 port -> is_ipv4 ip = false ->
  let a := poke off_scope_id (be32 sc) (poke off_port (be16 port) (Ip_ToSockAddr ip zero_storage)) in
  length a = 128%nat /\ sa_family a = AF_INET6 /\ peek off_port 2 a = be16 port /\
  peek off_sin6_addr 16 a = addr_ ip /\ peek off_scope_id 4 a = be32 sc.
Proof.
  intros Hip Hp E. destruct (storage_port ip port Hip Hp) as (Hl & Hfam & Hport & _ & H6).
  rewrite E in Hfam. destruct (H6 E) as [H6a _].
  set (b := poke off_port (be16 port) (Ip_ToSockAddr ip zero_storage)) in *.
  assert (Hb : length (be32 sc) = 4%nat) by apply be32_bytes. unfold off_scope_id.
  simpl. split_and!.
  - rewrite length_poke; rewrite ?Hb; lia.
  - rewrite family_other; rewrite ?Hb; lia || done.
  - rewrite peek_poke_other; rewrite ?Hb; unfold off_port; lia || done.
  - rewrite peek_poke_other; rewrite ?Hb; unfold off_sin6_addr; lia || done.
  - rewrite peek_poke; rewrite ?Hb; lia || done.
Qed.

Lemma read_back_id ip :
  wf_ip ip -> is_ipv4 ip = false \/ host_big_endian = true -> read_back ip = ip.
Proof.
  intros Hip. unfold read_back, host_order. destruct (is_ipv4 ip) eqn:E; [|done].
  intros [| ->]; [done|]. by apply is_ipv4_split in E as (l & _ & ->).
Qed.

Lemma SetIpV6ScopeId_eq ip sc a :
  sa_family a = (if is_ipv4 ip then AF_INET else AF_INET6) ->
  SetIpV6ScopeId a sc = if is_ipv4 ip then a else poke off_scope_id (be32 sc) a.
Proof. intros Ha. unfold SetIpV6ScopeId. rewrite Ha, store_htonl. by destruct (is_ipv4 ip). Qed.

(** C34: a resolved host and port put into a socket address are read back: the
    port always, an IPv6 address always, with its scope unless it is zero.  An
    IPv4 address comes back on big-endian hosts; on little-endian hosts its
    four bytes come back in reverse order.  The [SockAddrSetter] makes the same
    socket addresses. *)
Theorem sockaddr_roundtrip h ip port scope :
  wf_ip ip -> 0 < port < 2 ^ 16 -> (forall sc, scope = Some sc -> in_u 32 sc) ->
  let hp := MkHostPort h (Some ip) (Some port) scope in
  let '(st, addr) := ToSockAddr (St := St) hp zero_storage in
  st = OkStatus /\ length addr = 128%nat /\
  ParseFromSockAddr (St := St) addr 128 =
    Value (MkHostPort None (Some (read_back ip)) (Some port)
             (if is_ipv4 ip then None else sc ← scope; if decide (sc = 0) then None else Some sc)) /\
  (is_ipv4 ip = false \/ host_big_endian = true -> read_back ip = ip) /\
  addr = (let a := SetPort (SockAddrSetter_ip ip) port in
          match scope with Some sc => SetIpV6ScopeId a sc | None => a end).
Proof.
  intros Hip Hp Hsc hp. unfold hp. rewrite ToSockAddr_eq by (done || lia). cbv zeta.
  assert (Hp16 : in_u 16 port) by (unfold in_u; lia).
  destruct (storage_ip ip zero_storage Hip eq_refl) as (_ & Hfam0 & _).
  destruct (storage_port ip port Hip Hp16) as (Hl & Hfam & Hport & H4 & H6).
  assert (Hset : SetPort (SockAddrSetter_ip ip) port =
    poke off_port (be16 port) (Ip_ToSockAddr ip zero_storage)).
  { unfold SetPort, SockAddrSetter_ip, SetIpAddress. rewrite Hfam0, store_htons.
    by destruct (is_ipv4 ip). }
  rewrite Hset. pose proof (read_back_id ip Hip) as Hback.
  assert (Hnone : load (replicate 4 0) = 0) by (unfold load, host_order; by destruct host_big_endian).
  pose proof (SetIpV6ScopeId_eq ip) as Hscope.
  destruct (is_ipv4 ip) eqn:E4.
  - pose proof (fun a => parse_hostport ip port a Hip Hp16) as Hpr. rewrite E4 in Hpr.
    specialize (Hpr _ Hfam Hport H4 ltac:(done)).
    destruct scope; rewrite ?Hscope by done; split_and!; done.
  - destruct (H6 eq_refl) as [H6a H6b].
    destruct scope as [sc|]; simpl.
    + destruct (storage_scope ip port sc Hip Hp16 E4) as (Hl2 & Hf2 & Hp2 & H62 & Hs2).
      pose proof (fun a => parse_hostport ip port a Hip Hp16) as Hpr. rewrite E4 in Hpr.
      specialize (Hpr _ Hf2 Hp2 ltac:(done) (fun _ => H62)). rewrite Hs2 in Hpr.
      specialize (Hsc sc eq_refl). rewrite ntohl_load, be_value_be32 in Hpr by (done || apply be32_bytes).
      split_and!; try done; [|by rewrite Hscope].
      rewrite Hpr. pose proof (load_be32_zero sc Hsc). repeat f_equal.
      case_decide; case_decide; tauto || done.
    + pose proof (fun a => parse_hostport ip port a Hip Hp16) as Hpr. rewrite E4 in Hpr.
      specialize (Hpr _ Hfam Hport ltac:(done) (fun _ => H6a)). rewrite H6b, Hnone in Hpr.
      split_and!; done.
Qed.
End SockAddr.

(** ** Text *)

Section Text.
Context {St : Type} `{HA : !Absl St} `{HAL : !AbslLaws St} `{HB : !BigEndian}.
Context `{HI : !Inet} `{HIL : !InetLaws}.

Lemma c_str_id s : "000"%char ∉ s -> c_str s = s.
Proof.
  induction s as [|c s IH]; intros Hn; [done|]. simpl.
  rewrite bool_decide_eq_false_2, IH by set_solver. done.
Qed.

(** The text of an address, in brackets when it is IPv6. *)
Definition ip_text (ip : IpAddress) : str :=
  if is_ipv6 ip then ("[" : str) ++ Ip_ToString ip ++ "]" else Ip_ToString ip.

Lemma Ip_text_roundtrip ip :
  wf_ip ip -> Ip_ParseFromString (St := St) (Ip_ToString ip) = Value ip.
Proof.
  intros Hip. unfold Ip_ToString. destruct pton_empty as [He4 He6].
  destruct (is_ipv4 ip) eqn:E4.
  - apply is_ipv4_split in E4 as (l & Hl & ->); [|done].
    change (drop 12 (addr_ (MkIp (v4_prefix ++ l)))) with (drop 0 l). rewrite drop_0.
    pose proof (pton4_ntop4 l Hl) as Hp.
    assert (Hc : c_str (inet_ntop4 l) = inet_ntop4 l).
    { apply c_str_id. intros Hin. apply (ntop4_chars l _ Hl Hin). set_solver. }
    unfold Ip_ParseFromString. destruct (inet_ntop4 l) eqn:Et; [congruence|].
    rewrite <- Et in *. rewrite Hc, Hp, ntohl_load by done. by rewrite v4_app.
  - pose proof (pton6_ntop6 _ Hip) as Hp. pose proof (pton4_ntop6 _ Hip) as Hp4.
    assert (Hc : c_str (inet_ntop6 (addr_ ip)) = inet_ntop6 (addr_ ip)).
    { apply c_str_id. intros Hin. apply (ntop6_chars _ _ Hip Hin). set_solver. }
    unfold Ip_ParseFromString. destruct (inet_ntop6 (addr_ ip)) eqn:Et; [congruence|].
    rewrite <- Et in *. rewrite Hc, Hp4, Hp. by destruct ip.
Qed.

Lemma EndsWith_last s c : EndsWith s [c] = bool_decide (last s = Some c).
Proof.
  unfold EndsWith. apply bool_decide_ext. split.
  - intros [k ->]. by rewrite last_snoc.
  - intros [k ->]%last_Some. by exists k.
Qed.

Lemma rfind_colon h d :
  ":"%char ∉ d -> rfind ":" (h ++ ":" ++ d) = Some (length h).
Proof.
  intros Hd. pose proof (rfind_char ":" (h ++ ":" ++ d)) as Hr. change [":"%char] with (":" : str) in Hr.
  destruct (rfind ":" _) as [i|]; [|set_solver].
  destruct Hr as (A & B & E & HnB & <-). simpl in E.
  by destruct (last_split _ _ _ _ _ E Hd HnB) as [-> _].
Qed.

Lemma StrInt_chars n c : 0 <= n -> is_digit c = false -> c ∉ StrInt (St := St) n.
Proof. intros Hn Hc Hin. rewrite (StrInt_digits n c) in Hc; done. Qed.

(** How the text of a host is cut by the parser. *)
Definition ip_host_of (host : str) : str :=
  if StartsWith host "[" && EndsWith host "]" then take (length host - 2) (drop 1 host) else host.

Lemma ip_host_brackets s : ip_host_of ("[" ++ s ++ "]") = s.
Proof.
  unfold ip_host_of. change ("]" : str) with ["]"%char]. rewrite EndsWith_last. unfold StartsWith.
  rewrite !bool_decide_eq_true_2.
  - change (drop 1 (("[" : str) ++ s ++ ["]"%char])) with (drop 0 (s ++ ["]"%char])).
    rewrite drop_0, take_app_length'; [done|]. rewrite !length_app. simpl. lia.
  - rewrite app_assoc. by rewrite last_snoc.
  - by exists (s ++ "]").
Qed.

Lemma ip_host_plain s : "["%char ∉ s -> ip_host_of s = s.
Proof.
  intros Hn. unfold ip_host_of, StartsWith. rewrite bool_decide_eq_false_2; [done|].
  intros [k ->]. apply Hn. simpl. left.
Qed.

(** What parsing makes of the host part, before the port. *)
Definition host_result (host_port host : str) : StatusOr St HostPort :=
  match Ip_ParseFromString (St := St) (ip_host_of host) with
  | Value ip =>
      if is_ipv6 ip && bool_decide (ip_host_of host = host) then
        Error (return_error (InvalidArgumentErrorBuilder [])
          ("An IPv6 host port needs to be in form [ip]:port for `" ++ host_port ++ "`"))
      else Value (set_ip ip HostPort_empty)
  | Error _ => Value (set_host host HostPort_empty)
  end.

Lemma parse_with_port host port :
  0 < port < 2 ^ 16 ->
  ParseFromString (St := St) (host ++ ":" ++ StrInt port) =
  match host_result (host ++ ":" ++ StrInt port) host with
  | Value hp => Value (set_port port hp)
  | Error st => Error st
  end.
Proof.
  intros Hp. unfold ParseFromString. rewrite decide_False by (by destruct host).
  assert (Hend : EndsWith (host ++ ":" ++ StrInt (St := St) port) "]" = false).
  { change ("]" : str) with ["]"%char]. rewrite EndsWith_last. apply bool_decide_eq_false. intros Hl.
    change ((":" : str) ++ StrInt (St := St) port) with (":"%char :: StrInt (St := St) port) in Hl.
    rewrite last_app_cons in Hl. apply last_Some in Hl as [k Hk].
    assert (Hin : "]"%char ∈ ":"%char :: StrInt (St := St) port) by (rewrite Hk; set_solver).
    apply elem_of_cons in Hin as [|Hin]; [done|]. revert Hin.
    apply StrInt_chars; [lia|done]. }
  rewrite Hend. simpl negb. cbv iota. rewrite rfind_colon by (apply StrInt_chars; [lia|done]).
  rewrite take_app_length. fold (ip_host_of host).
  fold (host_result (host ++ ":" ++ StrInt (St := St) port) host).
  destruct (host_result _ host) as [hp|st]; [|done].
  rewrite drop_app_add. change (drop 1 ((":" : str) ++ StrInt (St := St) port))
    with (drop 0 (StrInt (St := St) port)).
  rewrite drop_0, SimpleAtoi_StrInt by (unfold in_u; lia).
  rewrite decide_False by lia. unfold u16. by rewrite wrap_id by (unfold in_u; lia).
Qed.

Lemma parse_without_port host :
  host <> [] -> EndsWith host "]" = true \/ ":"%char ∉ host ->
  ParseFromString (St := St) host = host_result host host.
Proof.
  intros Hh Hp. unfold ParseFromString. rewrite decide_False by done.
  assert (Hpos : (if negb (EndsWith host "]") then rfind ":" host else None) = None).
  { destruct (EndsWith host "]"); [done|]. destruct Hp as [|Hp]; [done|]. simpl.
    pose proof (rfind_char ":" host) as Hr.
    destruct (rfind [":"%char] host); [|done]. destruct Hr as (A & B & -> & _). set_solver. }
  cbv zeta. rewrite Hpos. cbv iota. fold (ip_host_of host). fold (host_result host host).
  by destruct (host_result host host).
Qed.

Lemma host_result_ip hp ip :
  wf_ip ip -> host_result hp (ip_text ip) = Value (set_ip ip HostPort_empty).
Proof.
  intros Hip. unfold host_result, ip_text. destruct (is_ipv6 ip) eqn:E6.
  - rewrite ip_host_brackets, Ip_text_roundtrip, E6 by done. rewrite bool_decide_eq_false_2; [done|].
    intros E. apply (f_equal length) in E. rewrite !length_app in E. simpl in E. lia.
  - assert (Hn : "["%char ∉ Ip_ToString ip).
    { unfold is_ipv6 in E6. apply negb_false_iff in E6. unfold Ip_ToString. rewrite E6.
      apply is_ipv4_split in E6 as (l & Hl & ->); [|done]. change (drop 12 _) with (drop 0 l).
      rewrite drop_0. intros Hin. apply (ntop4_chars l _ Hl Hin). set_solver. }
    rewrite ip_host_plain by done. by rewrite Ip_text_roundtrip, E6.
Qed.

Lemma Ip_ToString_ne ip : wf_ip ip -> Ip_ToString ip <> [].
Proof. intros Hip. pose proof (Ip_text_roundtrip ip Hip) as Hr. by destruct (Ip_ToString ip). Qed.

Lemma ip_text_ne ip : wf_ip ip -> ip_text ip <> [].
Proof. intros Hip. unfold ip_text. destruct (is_ipv6 ip); [done|by apply Ip_ToString_ne]. Qed.

(** Nothing in it can be taken for a port. *)
Lemma ip_text_end ip : wf_ip ip -> EndsWith (ip_text ip) "]" = true \/ ":"%char ∉ ip_text ip.
Proof.
  intros Hip. unfold ip_text. destruct (is_ipv6 ip) eqn:E6; [left|right].
  - apply bool_decide_eq_true. exists (("[" : str) ++ Ip_ToString ip). by rewrite <- app_assoc.
  - unfold is_ipv6 in E6. apply negb_false_iff in E6. unfold Ip_ToString. rewrite E6.
    apply is_ipv4_split in E6 as (l & Hl & ->); [|done]. change (drop 12 _) with (drop 0 l).
    rewrite drop_0. intros Hin. apply (ntop4_chars l _ Hl Hin). set_solver.
Qed.

(** The text of a host and port is read back: an address - IPv6 in
    brackets - with its port or without one, and a host name (that is not the
    text of an address) with its port.  The form for the network is the same
    text. *)
Theorem hostport_text_roundtrip :
  (forall ip port, wf_ip ip -> (forall p, port = Some p -> 0 < p < 2 ^ 16) ->
     let hp := MkHostPort None (Some ip) port None in
     ParseFromString (St := St) (ToString (St := St) hp) = Value hp) /\
  (forall h st port, 0 < port < 2 ^ 16 -> Ip_ParseFromString (St := St) (ip_host_of h) = Error st ->
     let hp := MkHostPort (Some h) None (Some port) None in
     ParseFromString (St := St) (ToString (St := St) hp) = Value hp) /\
  (forall hp, IsValid hp = true -> ip_ hp = None \/ host_ hp = None ->
     ToHostportString (St := St) hp = Value (ToString (St := St) hp)).
Proof.
  assert (Hs : forall ip port, wf_ip ip -> ToString (St := St) (MkHostPort None (Some ip) port None)
    = match port with Some p => ip_text ip ++ ":" ++ StrInt (St := St) p | None => ip_text ip end).
  { intros ip port Hip. unfold ToString, ip_text. simpl.
    pose proof (Ip_ToString_ne ip Hip) as Hne.
    destruct (is_ipv6 ip), port; simpl; repeat case_decide; try done; by destruct (Ip_ToString ip). }
  split_and!.
  - intros ip port Hip Hp hp. unfold hp. rewrite Hs by done. destruct port as [p|].
    + rewrite parse_with_port by auto. by rewrite host_result_ip.
    + rewrite parse_without_port; [by apply host_result_ip|by apply ip_text_ne|].
      by apply ip_text_end.
  - intros h st port Hp Hip hp. unfold hp, ToString. cbn [host_ ip_ port_ default from_option].
    rewrite decide_False by by destruct h. rewrite parse_with_port by done.
    unfold id, host_result. by rewrite Hip.
  - intros [h ip p sc] Hv Ho. unfold IsValid, has_value in Hv. simpl in *.
    destruct p as [p|]; [|done]. unfold ToHostportString. simpl.
    destruct ip as [ip|].
    + destruct Ho as [|Ho]; [done|]. rewrite Ho. unfold ToString. simpl. f_equal.
      destruct (is_ipv6 ip); simpl; repeat (case_decide as Hd; [by destruct (Ip_ToString ip)|]);
        by rewrite <- ?app_assoc, ?app_nil_r.
    + destruct h as [h|]; [|by rewrite andb_false_r in Hv]. unfold ToString. simpl.
      by rewrite decide_False by by destruct h.
Qed.
End Text.

(** ** A reference [inet_pton] and [inet_ntop]

    IPv4 is the dotted decimal form; sixteen decimal numbers with colons stand
    for the forms of IPv6. *)
Module RefInet.
Import RefAbsl.

Definition byte_text (b : Z) : str := dec_of_Z b.

Fixpoint join_bytes (sep : ascii) (l : list Z) : str :=
  match l with
  | [] => []
  | [b] => byte_text b
  | b :: l => byte_text b ++ sep :: join_bytes sep l
  end.

Definition parse_byte (s : str) : option Z :=
  z ← Z_of_dec s; if decide (0 <= z < 256) then Some z else None.

Definition parse_bytes (sep : ascii) (n : nat) (s : str) : option (list Z) :=
  l ← mapM parse_byte (split sep s); if decide (length l = n) then Some l else None.

#[export] Instance ref_inet : Inet := {
  inet_pton4 := parse_bytes "." 4;
  inet_pton6 := parse_bytes ":" 16;
  inet_ntop4 := join_bytes ".";
  inet_ntop6 := join_bytes ":"
}.

Lemma byte_text_chars b c : 0 <= b -> c ∈ byte_text b -> is_digit c = true.
Proof. intros Hb. by apply dec_of_Z_digits. Qed.

Lemma parse_byte_text b : in_u 8 b -> parse_byte (byte_text b) = Some b.
Proof.
  unfold in_u. intros Hb. unfold parse_byte, byte_text. rewrite Z_of_dec_of_Z by lia. simpl.
  by rewrite decide_True by lia.
Qed.

Lemma split_join sep l :
  is_digit sep = false -> l <> [] -> Forall (in_u 8) l ->
  split sep (join_bytes sep l) = byte_text <$> l.
Proof.
  intros Hsep Hl Hf. assert (Hno : forall b, in_u 8 b -> sep ∉ byte_text b).
  { intros b Hb Hin. unfold in_u in Hb. rewrite (byte_text_chars b) in Hsep; [done|lia|done]. }
  induction Hf as [|b l Hb Hf IH]; [done|]. destruct l as [|b' l].
  - simpl. by rewrite split_plain by auto.
  - change (join_bytes sep (b :: b' :: l)) with (byte_text b ++ sep :: join_bytes sep (b' :: l)).
    rewrite split_app, IH, split_plain by auto. done.
Qed.

Lemma parse_join sep n l :
  is_digit sep = false -> (0 < n)%nat -> is_bytes n l ->
  parse_bytes sep n (join_bytes sep l) = Some l.
Proof.
  intros Hsep Hn [Hl Hf]. unfold parse_bytes. rewrite split_join by (try done; intros ->; simpl in Hl; lia).
  assert (E : mapM parse_byte (byte_text <$> l) = Some l).
  { apply mapM_Some. clear Hl. induction Hf; constructor; [by apply parse_byte_text|done]. }
  rewrite E. simpl. by rewrite decide_True.
Qed.

Lemma parse_bytes_wf sep n s l : parse_bytes sep n s = Some l -> is_bytes n l.
Proof.
  unfold parse_bytes. intros (l' & E & Hd)%bind_Some. case_decide; simplify_eq. split; [done|].
  apply mapM_Some in E. clear -E. induction E as [|w b ws bs Hb _ IH]; constructor; [|done].
  unfold parse_byte in Hb. apply bind_Some in Hb as (z & _ & Hz). case_decide; simplify_eq. done.
Qed.

Lemma join_chars sep l c :
  Forall (in_u 8) l -> c ∈ join_bytes sep l -> c = sep \/ is_digit c = true.
Proof.
  intros Hf. induction Hf as [|b l Hb Hf IH]; simpl; [set_solver|]. unfold in_u in Hb.
  destruct l as [|b' l].
  - intros Hc. right. apply (byte_text_chars b); [lia|done].
  - intros [Hc|[->|Hc]%elem_of_cons]%elem_of_app; auto. right. apply (byte_text_chars b); [lia|done].
Qed.

#[export] Instance ref_inet_laws : InetLaws.
Proof.
  split.
  - intros s b. apply parse_bytes_wf.
  - intros s b. apply parse_bytes_wf.
  - intros b. apply parse_join; [done|lia].
  - intros b. apply parse_join; [done|lia].
  - intros b [Hl Hf]. unfold inet_pton4, ref_inet, parse_bytes. simpl.
    rewrite split_plain.
    + simpl. destruct (parse_byte _) eqn:E; done.
    + intros [|]%(join_chars ":"); done.
  - intros b c [_ Hf] [->|Hc]%join_chars; [set_solver| |done].
    rewrite !not_elem_of_cons. split_and!; [intros ->; done..|apply not_elem_of_nil].
  - intros b c [_ Hf] [->|Hc]%join_chars; [set_solver| |done].
    rewrite !not_elem_of_cons. split_and!; [intros ->; done..|apply not_elem_of_nil].
  - done.
Qed.
End RefInet.

Import RefAbsl RefInet.

#[local] Instance little_endian : BigEndian := false.

Definition ip_1_2_3_4 : IpAddress := IpAddress_v4 16909060.

Lemma sockaddr_roundtrip_witness :
  let '(st, addr) := ToSockAddr (St := rstatus)
    (MkHostPort None (Some kIPv6Localhost) (Some 8080) (Some 3)) zero_storage in
  ParseFromSockAddr (St := rstatus) addr 128 =
    Value (MkHostPort None (Some kIPv6Localhost) (Some 8080) (Some 3)).
Proof.
  destruct (sockaddr_roundtrip (St := rstatus) None kIPv6Localhost 8080 (Some 3))
    as (_ & _ & E & _).
  - split; [reflexivity|]. repeat constructor; unfold in_u; lia.
  - lia.
  - intros sc [= <-]. unfold in_u. lia.
  - exact E.
Defined.

(** The reversed IPv4 address of a little-endian host. *)
Example ipv4_reversed :
  (ParseFromSockAddr (St := rstatus)
    (ToSockAddr (St := rstatus) (MkHostPort None (Some ip_1_2_3_4) (Some 80) None) zero_storage).2 128)
  = Value (MkHostPort None (Some (IpAddress_v4 67305985)) (Some 80) None).
Proof. reflexivity. Qed.

Lemma hostport_text_roundtrip_witness :
  ParseFromString (St := rstatus) "1.2.3.4:80"
    = Value (MkHostPort None (Some ip_1_2_3_4) (Some 80) None) /\
  ParseFromString (St := rstatus) "host:80" = Value (MkHostPort (Some ("host" : str)) None (Some 80) None).
Proof.
  destruct (hostport_text_roundtrip (St := rstatus)) as (H1 & H2 & _). split.
  - apply (H1 ip_1_2_3_4 (Some 80)); [apply wf_v4|]. intros p [= <-]. lia.
  - eapply (H2 "host" _ 80); [lia|]. vm_compute. reflexivity.
Defined.
