(* ===== verification/SelectorLoop.v ===== *)
(** * Waiting for events ([whisperlib/net/selector_loop.h], [selector_loop.cc],
    [selector_event_data.h])

    The two implementations of the interface [SelectorLoop].  [poll] keeps a
    table of descriptors of its own; [epoll] leaves it to the kernel.  The
    system calls are the class [PollApi].  A duration is its number of
    nanoseconds; user data is a type parameter [U] with a null pointer. *)

From stdpp Require Import sorting.
From S2P Require Import Prelude Status Errno Posix.

(** ** [SelectDesire], and the event bits of Linux *)

Definition kWantRead : Z := 1.
Definition kWantWrite : Z := 2.
Definition kWantError : Z := 4.

Definition POLLIN : Z := 1.
Definition POLLPRI : Z := 2.
Definition POLLOUT : Z := 4.
Definition POLLERR : Z := 8.
Definition POLLHUP : Z := 16.
Definition POLLRDHUP : Z := 8192.

(** The [EPOLL] bits have the same values. *)
Definition EPOLLIN : Z := 1.
Definition EPOLLPRI : Z := 2.
Definition EPOLLOUT : Z := 4.
Definition EPOLLERR : Z := 8.
Definition EPOLLHUP : Z := 16.
Definition EPOLLRDHUP : Z := 8192.

Definition EPOLL_CTL_ADD : Z := 1.
Definition EPOLL_CTL_DEL : Z := 2.
Definition EPOLL_CTL_MOD : Z := 3.

Record SelectorEventData (U : Type) := MkEvent { user_data : U; desires : Z; internal_event : Z }.
Arguments MkEvent {_} _ _ _.
Arguments user_data {_} _.
Arguments desires {_} _.
Arguments internal_event {_} _.

Record pollfd := PollFd { pfd : Z; pevents : Z; prevents : Z }.
Record epoll_event (U : Type) := EpollEvent { ee_events : Z; ee_data : U }.
Arguments EpollEvent {_} _ _.
Arguments ee_events {_} _.
Arguments ee_data {_} _.

Class PollApi (W U : Type) := {
  nullptr : U;
  (* poll(fds, size, timeout): the result, and the table with its revents *)
  sys_poll : list pollfd -> Z -> W -> (Z * list pollfd) * W;
  sys_epoll_create : W -> Z * W;
  (* epoll_ctl(epfd, op, fd, &event) *)
  sys_epoll_ctl : Z -> Z -> Z -> epoll_event U -> W -> Z * W;
  (* epoll_wait(epfd, events, maxevents, timeout): the result, and the events *)
  sys_epoll_wait : Z -> Z -> Z -> W -> (Z * list (epoll_event U)) * W;
  (* close(epfd), whose result is dropped *)
  sys_epoll_close : Z -> W -> W
}.

(** ** Timeouts *)

Definition kMillisecond : Z := 1000000.

Definition PollTimeout (timeout : Z) : Z :=
  let timeout := if decide (timeout < kMillisecond) then kMillisecond else timeout in
  i32 (Z.quot timeout kMillisecond).

(** ** Event bits *)

Definition DesiresToEpollEvents (desires : Z) : Z :=
  let events := 0 in
  let events := if has_flag desires kWantRead then Z.lor events (Z.lor EPOLLIN EPOLLRDHUP) else events in
  let events := if has_flag desires kWantWrite then Z.lor events EPOLLOUT else events in
  if has_flag desires kWantError then Z.lor events (Z.lor EPOLLERR EPOLLHUP) else events.

Definition DesiresToPollEvents (desires : Z) : Z :=
  let events := 0 in
  let events := if has_flag desires kWantRead then Z.lor events (Z.lor POLLIN POLLRDHUP) else events in
  let events := if has_flag desires kWantWrite then Z.lor events POLLOUT else events in
  if has_flag desires kWantError then Z.lor events (Z.lor POLLERR POLLHUP) else events.

(** What [EpollSelectorLoop::LoopStep] reports for an event. *)
Definition epoll_desire (events : Z) : Z :=
  let desire := 0 in
  let desire := if has_flag events (Z.lor (Z.lor EPOLLERR EPOLLHUP) EPOLLRDHUP)
                then Z.lor desire kWantError else desire in
  let desire := if has_flag events (Z.lor EPOLLIN EPOLLPRI) then Z.lor desire kWantRead else desire in
  if has_flag events EPOLLOUT then Z.lor desire kWantWrite else desire.

(** What [PollSelectorLoop::LoopStep] reports; the write bit is taken from the
    events that were asked for. *)
Definition poll_desire (event : pollfd) : Z :=
  let desire := 0 in
  let desire := if has_flag (prevents event) (Z.lor (Z.lor POLLERR POLLHUP) POLLRDHUP)
                then Z.lor desire kWantError else desire in
  let desire := if has_flag (prevents event) (Z.lor POLLIN POLLPRI)
                then Z.lor desire kWantRead else desire in
  if has_flag (pevents event) POLLOUT then Z.lor desire kWantWrite else desire.

Definition IsHangUpEvent (event_value : Z) : bool := has_flag event_value EPOLLHUP.
Definition IsRemoteHangUpEvent (event_value : Z) : bool := has_flag event_value EPOLLRDHUP.
Definition IsAnyHangUpEvent (event_value : Z) : bool :=
  has_flag event_value (Z.lor EPOLLHUP EPOLLRDHUP).
Definition IsErrorEvent (event_value : Z) : bool := has_flag event_value EPOLLERR.
Definition IsInputEvent (event_value : Z) : bool := has_flag event_value EPOLLIN.

(** [events.reserve(n)] for an [int]: a negative number is a huge [size_t]. *)
Definition reserve {S} (n : Z) : M S unit := check (0 <=? n) "std::length_error".

Section Loops.
Context {W U St : Type} `{!HasErrno W} `{!PollApi W U} `{!Absl St} `{!Strerror}.

Definition loop_cc : str := "whisperlib/net/selector_loop.cc".

(** ** [EpollSelectorLoop] *)

Record Epoll := MkEpoll { ep_signal_fd : Z; max_events : Z; epfd : Z }.

(** A method runs over the object [L] and the world. *)
Definition sys {L A} (call : W -> A * W) : M (L * W) A :=
  fun s => let '(a, w) := call s.2 in Ret a (s.1, w).
Definition this {L} : M (L * W) L := gets fst.
Definition set {L} (f : L -> L) : M (L * W) unit := modify (fun s => (f s.1, s.2)).
Definition errno {L} : M (L * W) Z := gets (fun s => sys_errno s.2).
Definition fail_errno {L R} `{FromStatus St R} (text : str) : M (L * W) R :=
  fun s => Ret (return_errno (sys_errno s.2) (sys_errno s.2) text) s.

Definition epoll_change (line op fd : Z) (bad what : str) (event : epoll_event U) (failed : Z -> bool)
    (tail : str) : M (Epoll * W) St :=
  RET_CHECK (0 <=? fd) "fd >= 0" loop_cc line bad
    (l <- this ;;
     r <- sys (sys_epoll_ctl (epfd l) op fd event) ;;
     if failed r then fail_errno (what ++ " event to epoll structure; file descriptor: "
       ++ StrInt fd ++ tail)
     else ret OkStatus).

Definition Epoll_Add (fd : Z) (user_data : U) (desires : Z) : M (Epoll * W) St :=
  let event := EpollEvent (DesiresToEpollEvents desires) user_data in
  epoll_change 47 EPOLL_CTL_ADD fd "Invalid file descriptor cannot be added to epoll." "Adding"
    event (fun r => r <? 0) (" for events: " ++ StrInt (ee_events event)).

Definition Epoll_Update (fd : Z) (user_data : U) (desires : Z) : M (Epoll * W) St :=
  let event := EpollEvent (DesiresToEpollEvents desires) user_data in
  epoll_change 62 EPOLL_CTL_MOD fd "Invalid file descriptor cannot be updated in epoll." "Updating"
    event (fun r => negb (r =? 0)) (" for events: " ++ StrInt (ee_events event)).

Definition Epoll_Delete (fd : Z) : M (Epoll * W) St :=
  epoll_change 76 EPOLL_CTL_DEL fd "Invalid file descriptor cannot be deleted from epoll." "Deleting"
    (EpollEvent 0 nullptr) (fun r => r <? 0) [].

Definition Epoll_Initialize : M (Epoll * W) St :=
  r <- sys sys_epoll_create ;;
  set (fun l => MkEpoll (ep_signal_fd l) (max_events l) r) ;;
  if decide (r < 0) then
    fail_errno "Creating epoll file descriptor during ::epoll_create()"
  else
    l <- this ;;
    RETURN_IF_ERROR (Epoll_Add (ep_signal_fd l) nullptr (Z.lor kWantRead kWantError))
      ("Adding the signaling file descriptor " ++ StrInt (ep_signal_fd l)
       ++ " while creating the selector loop.")
      (ret OkStatus).

(** [EpollSelectorLoop::EpollSelectorLoop]; [epfd_] is not initialized. *)
Definition Epoll_ctor (signal_fd max_events_per_step epfd_ : Z) : Epoll :=
  MkEpoll signal_fd max_events_per_step epfd_.

Definition Epoll_destroy : M (Epoll * W) unit :=
  fun s => Ret tt (s.1, sys_epoll_close (epfd s.1) s.2).

(** A loop that is not returned is destroyed. *)
Definition Epoll_Create (signal_fd max_events_per_step epfd_ : Z) (w : W)
    : outcome W (StatusOr St Epoll) :=
  match Epoll_Initialize (Epoll_ctor signal_fd max_events_per_step epfd_, w) with
  | Ret st (l, w) =>
      if ok st then Ret (Value l) w
      else match Epoll_destroy (l, w) with
           | Ret _ (_, w) => Ret (Error st) w
           | Fatal why => Fatal why
           end
  | Fatal why => Fatal why
  end.

Definition Epoll_LoopStep (timeout : Z) : M (Epoll * W) (StatusOr St (list (SelectorEventData U))) :=
  l <- this ;;
  '(num_events, events) <- sys (sys_epoll_wait (epfd l) (max_events l) (PollTimeout timeout)) ;;
  e <- errno ;;
  if decide (num_events < 0 /\ e <> EINTR) then fail_errno "Encountered during epoll_wait."
  else
    reserve num_events ;;
    ret (Value ((fun event => MkEvent (ee_data event) (epoll_desire (ee_events event)) (ee_events event))
                <$> take (Z.to_nat num_events) events)).

(** ** [PollSelectorLoop] *)

Definition kMaxFds : nat := Z.to_nat 4096.

(** The array [fds_] has [kMaxFds] entries, of which [fds_size_] are in use. *)
Record Poll := MkPoll {
  po_signal_fd : Z;
  fds : list pollfd;
  fds_size : nat;
  fd_data : gmap Z (nat * U);
  indices_to_compact : list nat
}.

Definition slot (l : Poll) (i : nat) : pollfd := default (PollFd 0 0 0) (fds l !! i).
Definition set_slot (i : nat) (p : pollfd) (l : Poll) : Poll :=
  MkPoll (po_signal_fd l) (<[i:=p]> (fds l)) (fds_size l) (fd_data l) (indices_to_compact l).
Definition set_fds_size (n : nat) (l : Poll) : Poll :=
  MkPoll (po_signal_fd l) (fds l) n (fd_data l) (indices_to_compact l).
Definition set_fd_data (d : gmap Z (nat * U)) (l : Poll) : Poll :=
  MkPoll (po_signal_fd l) (fds l) (fds_size l) d (indices_to_compact l).
Definition set_indices (idx : list nat) (l : Poll) : Poll :=
  MkPoll (po_signal_fd l) (fds l) (fds_size l) (fd_data l) idx.

(** [emplace]: an entry that is there stays. *)
Definition emplace (fd : Z) (d : nat * U) (m : gmap Z (nat * U)) : gmap Z (nat * U) :=
  match m !! fd with Some _ => m | None => <[fd:=d]> m end.

(** The operations on the table alone, with the status they return. *)
Definition poll_add (fd : Z) (user_data : U) (desires : Z) (l : Poll) : St * Poll :=
  if negb (0 <=? fd) then
    (return_error (ret_check_writer "fd >= 0" loop_cc 167)
       "Invalid file descriptor cannot be added to epoll.", l)
  else if decide (kMaxFds <= fds_size l)%nat then
    (return_error (ResourceExhaustedErrorBuilder [])
       ("Too many file descriptors in the poll structure. Reached the limit of "
        ++ StrInt (Z.of_nat kMaxFds) ++ " file descriptors."), l)
  else
    let i := fds_size l in
    let l := set_slot i (PollFd fd (DesiresToPollEvents desires) 0) l in
    let l := set_fd_data (emplace fd (i, user_data) (fd_data l)) l in
    (OkStatus, set_fds_size (S i) l).

Definition poll_update (fd : Z) (user_data : U) (desires : Z) (l : Poll) : St * Poll :=
  match fd_data l !! fd with
  | None =>
      (return_error (NotFoundErrorBuilder [])
         ("Cannot update select data for file descriptor: " ++ StrInt fd
          ++ " as it cannot be found in poll selector registered file descriptors."), l)
  | Some (index, _) =>
      let p := slot l index in
      let l := set_slot index (PollFd (pfd p) (DesiresToPollEvents desires) (prevents p)) l in
      (OkStatus, set_fd_data (<[fd:=(index, user_data)]> (fd_data l)) l)
  end.

Definition poll_delete (fd : Z) (l : Poll) : St * Poll :=
  match fd_data l !! fd with
  | None =>
      (return_error (NotFoundErrorBuilder [])
         ("Cannot delete select data for file descriptor: " ++ StrInt fd
          ++ " as it cannot be found in poll selector registered file descriptors."), l)
  | Some (index, _) =>
      let p := slot l index in
      let l := set_indices (indices_to_compact l ++ [index]) l in
      let l := set_slot index (PollFd (-1) (pevents p) (prevents p)) l in
      (OkStatus, set_fd_data (delete fd (fd_data l)) l)
  end.

(** One iteration of [Compact], for one of the sorted indices. *)
Definition compact_one (index : nat) (l : Poll) : Poll :=
  let size := (fds_size l - 1)%nat in
  let l := set_fds_size size l in
  if decide (size = 0 \/ index = size)%nat then l
  else
    match fd_data l !! pfd (slot l size) with
    | None => l
    | Some (_, user_data) =>
        let p := slot l size in
        let l := set_fd_data (<[pfd p:=(index, user_data)]> (fd_data l)) l in
        set_slot index (PollFd (pfd p) (pevents p) 0) l
    end.

(** The indices from the largest on, while there are entries. *)
Fixpoint compact_loop (indices : list nat) (l : Poll) : Poll :=
  match indices with
  | [] => l
  | index :: indices =>
      if decide (fds_size l = 0)%nat then l else compact_loop indices (compact_one index l)
  end.

(** [Compact]: the sorted indices stay in the member. *)
Definition Compact (l : Poll) : Poll :=
  match indices_to_compact l with
  | [] => l
  | _ =>
      let sorted := merge_sort le (indices_to_compact l) in
      compact_loop (rev sorted) (set_indices sorted l)
  end.

(** The loop over the polled entries. *)
Fixpoint poll_events (data : gmap Z (nat * U)) (entries : list pollfd) (num_events : Z)
    : list (SelectorEventData U) :=
  match entries with
  | [] => []
  | event :: entries =>
      if negb (0 <? num_events) then []
      else if decide (prevents event = 0) then poll_events data entries num_events
      else
        match data !! pfd event with
        | Some (_, user_data) =>
            MkEvent user_data (poll_desire event) (u32 (prevents event))
              :: poll_events data entries (num_events - 1)
        | None => poll_events data entries (num_events - 1)
        end
  end.

Definition on_table (f : Poll -> St * Poll) : M (Poll * W) St :=
  fun s => let '(st, l) := f s.1 in Ret st (l, s.2).
Definition Poll_Add (fd : Z) (user_data : U) (desires : Z) := on_table (poll_add fd user_data desires).
Definition Poll_Update (fd : Z) (user_data : U) (desires : Z) :=
  on_table (poll_update fd user_data desires).
Definition Poll_Delete (fd : Z) := on_table (poll_delete fd).

(** [PollSelectorLoop::PollSelectorLoop]; the entries of the array are not
    initialized, and not in use. *)
Definition empty_poll (signal_fd : Z) : Poll :=
  MkPoll signal_fd (repeat (PollFd 0 0 0) kMaxFds) 0 ∅ [].

Definition Poll_Initialize : M (Poll * W) St :=
  l <- this ;;
  RETURN_IF_ERROR (Poll_Add (po_signal_fd l) nullptr (Z.lor kWantRead kWantError))
    ("Adding the signaling file descriptor " ++ StrInt (po_signal_fd l)
     ++ " while creating the selector loop.")
    (ret OkStatus).

Definition Poll_Create (signal_fd : Z) (w : W) : outcome W (StatusOr St Poll) :=
  match Poll_Initialize (empty_poll signal_fd, w) with
  | Ret st (l, w) => Ret (if ok st then Value l else Error st) w
  | Fatal why => Fatal why
  end.

Definition Poll_LoopStep (timeout : Z) : M (Poll * W) (StatusOr St (list (SelectorEventData U))) :=
  set Compact ;;
  l <- this ;;
  '(num_events, polled) <- sys (sys_poll (take (fds_size l) (fds l)) (PollTimeout timeout)) ;;
  set (fun l => MkPoll (po_signal_fd l) (polled ++ drop (fds_size l) (fds l)) (fds_size l)
                  (fd_data l) (indices_to_compact l)) ;;
  e <- errno ;;
  if decide (num_events < 0 /\ e <> EINTR) then fail_errno "Encountered during poll."
  else
    reserve num_events ;;
    l <- this ;;
    ret (Value (poll_events (fd_data l) (take (fds_size l) (fds l)) num_events)).
End Loops.

(** What an event loop of this interface promises: a map from descriptors to
    the desires and the user data registered, of bounded size. *)
Inductive table_op (U : Type) : Type :=
| OpAdd (fd : Z) (user_data : U) (desires : Z)
| OpUpdate (fd : Z) (user_data : U) (desires : Z)
| OpDelete (fd : Z).
Arguments OpAdd {_} _ _ _.
Arguments OpUpdate {_} _ _ _.
Arguments OpDelete {_} _.

Definition run_op {U St} `{!Absl St} (o : table_op U) (l : Poll (U := U)) : St * Poll (U := U) :=
  match o with
  | OpAdd fd ud d => poll_add fd ud d l
  | OpUpdate fd ud d => poll_update fd ud d l
  | OpDelete fd => poll_delete fd l
  end.

Fixpoint run_ops {U St} `{!Absl St} (ops : list (table_op U)) (l : Poll (U := U)) : list St * Poll (U := U) :=
  match ops with
  | [] => ([], l)
  | o :: ops =>
      let '(st, l) := run_op o l in
      let '(sts, l) := run_ops ops l in (st :: sts, l)
  end.

(** What the kernel is asked for, bit by bit: input and the hang-up of the peer
    for a reader, room for a writer, errors and hang-ups for an error. *)
Definition event_bits (d : Z) : Z :=
  (if Z.testbit d 0 then 1 + 2 ^ 13 else 0) + (if Z.testbit d 1 then 2 ^ 2 else 0) +
  (if Z.testbit d 2 then 2 ^ 3 + 2 ^ 4 else 0).

(** The registry, and the number of entries taken since the last compaction. *)
Definition spec_op {U} (o : table_op U) (r : gmap Z (Z * U) * nat) : bool * (gmap Z (Z * U) * nat) :=
  let '(m, used) := r in
  match o with
  | OpAdd fd ud d =>
      if decide (0 <= fd /\ (used < kMaxFds)%nat)
      then (true, (<[fd:=(event_bits d, ud)]> m, S used)) else (false, r)
  | OpUpdate fd ud d =>
      if decide (is_Some (m !! fd)) then (true, (<[fd:=(event_bits d, ud)]> m, used)) else (false, r)
  | OpDelete fd => if decide (is_Some (m !! fd)) then (true, (delete fd m, used)) else (false, r)
  end.

Fixpoint spec_ops {U} (ops : list (table_op U)) (r : gmap Z (Z * U) * nat)
    : list bool * (gmap Z (Z * U) * nat) :=
  match ops with
  | [] => ([], r)
  | o :: ops =>
      let '(ok, r) := spec_op o r in
      let '(oks, r) := spec_ops ops r in (ok :: oks, r)
  end.

(** A descriptor is not added twice. *)
Fixpoint adds_fresh {U} (ops : list (table_op U)) (r : gmap Z (Z * U) * nat) : Prop :=
  match ops with
  | [] => True
  | o :: ops =>
      match o with OpAdd fd _ _ => r.1 !! fd = None | _ => True end /\ adds_fresh ops (spec_op o r).2
  end.

(** The array that [LoopStep] hands to [poll]. *)
Definition in_use {U} (l : Poll (U := U)) : list pollfd := take (fds_size l) (fds l).

(** [poll] fills in the [revents], and counts those that are not zero. *)
Class PollLaws (W U : Type) `{!PollApi W U} : Prop := {
  poll_same : forall es t w, let '((n, es'), _) := sys_poll es t w in
    (n = -1 \/ n = zlen (filter (fun e => prevents e <> 0) es')) /\
    Forall2 (fun e e' => pfd e' = pfd e /\ pevents e' = pevents e) es es'
}.

(** The interest set of an [epoll] descriptor: what is asked for each file
    descriptor, and its data. *)
Class EpollLaws (W U : Type) `{!PollApi W U} := {
  interest : W -> Z -> gmap Z (Z * U);
  epoll_ctl_law : forall ep op fd e w, let '(r, w') := sys_epoll_ctl ep op fd e w in
    (r = -1 /\ interest w' ep = interest w ep) \/
    (r = 0 /\ interest w' ep =
       if decide (op = EPOLL_CTL_DEL) then delete fd (interest w ep)
       else <[fd:=(ee_events e, ee_data e)]> (interest w ep));
  (* errors and hang-ups are always reported *)
  epoll_wait_law : forall ep n t w, let '((k, evs), w') := sys_epoll_wait ep n t w in
    (k = -1 \/ k = zlen evs) /\ interest w' ep = interest w ep /\
    Forall (fun e => exists fd bits, interest w ep !! fd = Some (bits, ee_data e) /\
      Z.land (ee_events e) (Z.lnot (Z.lor bits (Z.lor EPOLLERR EPOLLHUP))) = 0) evs
}.

Lemma has_flag_testbit d i : 0 <= i -> has_flag d (2 ^ i) = Z.testbit d i.
Proof.
  intros Hi. unfold has_flag. apply eq_true_iff_eq. rewrite negb_true_iff, Z.eqb_neq. split.
  - intros Hd. apply not_false_is_true. intros E. apply Hd, Z.bits_inj'. intros j Hj. rewrite Z.land_spec, Z.pow2_bits_eqb, Z.bits_0 by done.
    destruct (Z.eqb_spec i j) as [<-|]; [by rewrite E|apply andb_false_r].
  - intros E Hz. apply (f_equal (fun z => Z.testbit z i)) in Hz. by rewrite Z.land_spec, Z.pow2_bits_true, Z.bits_0, E in Hz.
Qed.

Lemma event_bits_poll d : DesiresToPollEvents d = event_bits d.
Proof.
  unfold DesiresToPollEvents, event_bits. change kWantRead with (2 ^ 0). change kWantWrite with (2 ^ 1). change kWantError with (2 ^ 2).
  rewrite !has_flag_testbit by done. by destruct (Z.testbit d 0), (Z.testbit d 1), (Z.testbit d 2).
Qed.

Lemma event_bits_epoll d : DesiresToEpollEvents d = event_bits d.
Proof. exact (event_bits_poll d). Qed.

(** ** The table of [PollSelectorLoop] *)

Section Table.
Context {W U St : Type} `{!PollApi W U} `{HA : !Absl St} `{HL : !AbslLaws St}.
Implicit Types l : Poll (U := U).

(** The table with the dead entries [dead]: every other entry in use belongs to
    a registered descriptor, which knows its index. *)
Record table_inv (dead : list nat) l : Prop := {
  ti_length : length (fds l) = kMaxFds;
  ti_size : (fds_size l <= kMaxFds)%nat;
  ti_nodup : NoDup dead;
  ti_dead i : i ∈ dead -> (i < fds_size l)%nat /\ pfd (slot l i) = -1;
  ti_alive i : (i < fds_size l)%nat -> i ∉ dead -> exists ud, fd_data l !! pfd (slot l i) = Some (i, ud);
  ti_data fd i ud : fd_data l !! fd = Some (i, ud) ->
    0 <= fd /\ (i < fds_size l)%nat /\ pfd (slot l i) = fd
}.

Definition table_ok l : Prop := table_inv (indices_to_compact l) l.

(** The abstract registry: what is asked for a descriptor, and its user data. *)
Definition registry l : gmap Z (Z * U) := (fun '(i, ud) => (pevents (slot l i), ud)) <$> fd_data l.
Definition registered l (fd : Z) : option (Z * U) := registry l !! fd.

Lemma registered_eq l fd :
  registered l fd = '(i, ud) ← fd_data l !! fd; Some (pevents (slot l i), ud).
Proof.
  unfold registered, registry. rewrite lookup_fmap. by destruct (fd_data l !! fd) as [[i ud]|].
Qed.

Lemma slot_set_eq l i p : (i < length (fds l))%nat -> slot (set_slot i p l) i = p.
Proof. intros Hi. unfold slot, set_slot. simpl. by rewrite list_lookup_insert_eq. Qed.

Lemma slot_set_ne l i j p : i <> j -> slot (set_slot i p l) j = slot l j.
Proof. intros Hi. unfold slot, set_slot. simpl. by rewrite list_lookup_insert_ne. Qed.

Lemma registered_index dead l fd fd' i ud ud' :
  table_inv dead l -> fd_data l !! fd = Some (i, ud) -> fd_data l !! fd' = Some (i, ud') -> fd = fd'.
Proof.
  intros HT H1 H2. destruct (ti_data _ _ HT _ _ _ H1) as (_ & _ & <-).
  by destruct (ti_data _ _ HT _ _ _ H2) as (_ & _ & <-).
Qed.

(** Moving the last entry in use, [size], to the dead slot [i] below it. *)
Lemma move_last_spec i size dead l (p := slot l size) ud
    (l' := set_slot i (PollFd (pfd p) (pevents p) 0)
             (set_fd_data (<[pfd p:=(i, ud)]> (fd_data l)) (set_fds_size size l))) :
  table_inv (i :: dead) l -> (forall j, j ∈ dead -> (j < i)%nat) ->
  fds_size l = S size -> (i < size)%nat -> fd_data l !! pfd p = Some (size, ud) ->
  table_inv dead l' /\ forall fd, registered l' fd = registered l fd.
Proof.
  intros HT Hlt Hsz Hi Hud. pose proof HT as [Hlen Hmax Hnd Hdead Halive Hdata].
  apply NoDup_cons in Hnd as [Hni Hnd].
  assert (Hslot : forall j, slot l' j = if decide (j = i) then PollFd (pfd p) (pevents p) 0 else slot l j).
  { intros j. unfold l'. case_decide; [subst; rewrite slot_set_eq; [done|simpl; lia]|by rewrite slot_set_ne]. }
  assert (Hd' : fd_data l' = <[pfd p:=(i, ud)]> (fd_data l)) by done.
  assert (Hs' : fds_size l' = size) by done.
  assert (Hl' : length (fds l') = length (fds l)) by (simpl; by rewrite length_insert).
  clearbody l'.
  destruct (Hdead i ltac:(by left)) as [_ Hpi].
  assert (Hne : forall fd j ud', fd_data l !! fd = Some (j, ud') -> j <> i).
  { intros fd j ud' E ->. destruct (Hdata _ _ _ E) as (? & _ & ?). lia. }
  destruct (Hdata _ _ _ Hud) as (Hp0 & _ & _).
  split; [split|].
  - congruence.
  - lia.
  - done.
  - intros j Hj. specialize (Hlt j Hj). rewrite Hslot, decide_False by lia.
    split; [lia|]. apply Hdead. by right.
  - intros j Hj Hjd. rewrite Hslot, Hd'. case_decide as Hji; simpl.
    + subst. exists ud. by rewrite lookup_insert_eq.
    + destruct (Halive j) as [ud' E]; [lia|set_solver|]. exists ud'.
      rewrite lookup_insert_ne; [done|]. intros Ep. rewrite <- Ep, Hud in E. injection E. lia.
  - intros fd j ud'. rewrite Hd', Hslot, lookup_insert. case_decide as Hf; intros E.
    + simplify_eq. rewrite decide_True by done. split_and!; [done|lia|done].
    + pose proof (Hne _ _ _ E). rewrite decide_False by done.
      destruct (Hdata _ _ _ E) as (? & ? & ?). split_and!; [done| |done].
      assert (j <> size); [|lia]. intros ->. by rewrite <- (registered_index _ _ _ _ _ _ _ HT Hud E) in Hf.
  - intros fd. rewrite !registered_eq, Hd', lookup_insert. case_decide as Hf; simpl.
    + subst fd. rewrite Hud, Hslot, decide_True by done. done.
    + destruct (fd_data l !! fd) as [[j ud']|] eqn:E; [|done]. simpl.
      by rewrite Hslot, decide_False by eauto.
Qed.

Lemma drop_last_spec i dead l :
  table_inv (i :: dead) l -> (forall j, j ∈ dead -> (j < i)%nat) -> fds_size l = S i ->
  table_inv dead (set_fds_size i l).
Proof.
  intros [Hlen Hmax Hnd Hdead Halive Hdata] Hlt Hsz. apply NoDup_cons in Hnd as [Hni Hnd].
  destruct (Hdead i ltac:(by left)) as [_ Hpi]. unfold slot in *.
  split; unfold slot; simpl; [done|lia|done| | |].
  - intros j Hj. split; [by apply Hlt|]. apply Hdead. by right.
  - intros j Hj Hjd. apply Halive; [lia|]. rewrite elem_of_cons. intros [|]; [lia|done].
  - intros fd j ud E. destruct (Hdata _ _ _ E) as (? & ? & Ej). split_and!; [done| |done].
    assert (j <> i); [|lia]. intros ->. rewrite Hpi in Ej. lia.
Qed.

Lemma compact_one_spec i dead l :
  table_inv (i :: dead) l -> (forall j, j ∈ dead -> (j < i)%nat) ->
  table_inv dead (compact_one i l) /\ (forall fd, registered (compact_one i l) fd = registered l fd) /\
  fds_size (compact_one i l) = (fds_size l - 1)%nat.
Proof.
  intros HT Hlt. pose proof HT as [_ _ Hnd Hdead Halive _].
  destruct (Hdead i ltac:(by left)) as [Hi _]. unfold compact_one.
  destruct (fds_size l) as [|size] eqn:Hsz; [lia|]. rewrite Nat.sub_succ, Nat.sub_0_r.
  case_decide as Hc.
  - assert (i = size) as -> by lia. split; [by eapply drop_last_spec|done].
  - destruct (Halive size) as [ud Hud]; [lia| |].
    { rewrite elem_of_cons. intros [|Hd]; [lia|]. specialize (Hlt _ Hd). lia. }
    change (slot (set_fds_size size l)) with (slot l).
    change (fd_data (set_fds_size size l)) with (fd_data l). rewrite Hud.
    destruct (move_last_spec i size dead l ud HT Hlt Hsz ltac:(lia) Hud). done.
Qed.

(** Indices in decreasing order. *)
Lemma compact_loop_spec idx l :
  table_inv idx l -> StronglySorted gt idx ->
  table_inv [] (compact_loop idx l) /\ (forall fd, registered (compact_loop idx l) fd = registered l fd) /\
  fds_size (compact_loop idx l) = (fds_size l - length idx)%nat.
Proof.
  revert l. induction idx as [|i idx IH]; intros l HT Hs; simpl; [by rewrite Nat.sub_0_r|].
  apply StronglySorted_inv in Hs as [Hs Hi]. rewrite List.Forall_forall in Hi.
  destruct (ti_dead _ _ HT i ltac:(by left)) as [Hlt _]. rewrite decide_False by lia.
  destruct (compact_one_spec i idx l HT) as (HT' & Hr & Hz).
  { intros j Hj. apply (Hi j). by apply list_elem_of_In. }
  destruct (IH _ HT' Hs) as (HT'' & Hr' & Hz'). split_and!; [done| |lia].
  intros fd. by rewrite Hr', Hr.
Qed.

Lemma sorted_rev (idx : list nat) : NoDup idx -> StronglySorted le idx -> StronglySorted gt (rev idx).
Proof.
  induction idx as [|i idx IH]; intros Hnd Hs; simpl; [constructor|].
  apply NoDup_cons in Hnd as [Hni Hnd]. apply StronglySorted_inv in Hs as [Hs Hi].
  rewrite List.Forall_forall in Hi. apply StronglySorted_app; split_and!.
  - intros x y Hx Hy. apply list_elem_of_singleton in Hy as ->.
    assert (Hx' : x ∈ idx) by (by apply list_elem_of_In, in_rev, list_elem_of_In).
    apply list_elem_of_In in Hx'. specialize (Hi _ Hx').
    assert (x <> i) by (intros ->; by apply Hni, list_elem_of_In). lia.
  - by apply IH.
  - repeat constructor.
Qed.

Lemma table_inv_perm dead dead' l : dead ≡ₚ dead' -> table_inv dead l -> table_inv dead' l.
Proof. intros HP [???? Ha ?]. split; try done; setoid_rewrite <- HP; eauto. Qed.

(** Compaction leaves the registry, and no dead entry in use. *)
Lemma Compact_spec l :
  table_ok l -> table_inv [] (Compact l) /\ registry (Compact l) = registry l.
Proof.
  intros HT. unfold Compact. destruct (indices_to_compact l) as [|i idx] eqn:Ei.
  { split; [|done]. unfold table_ok in HT. by rewrite Ei in HT. }
  rewrite <- Ei. set (sorted := merge_sort le (indices_to_compact l)).
  assert (HP : rev sorted ≡ₚ indices_to_compact l)
    by (rewrite <- Permutation_rev; unfold sorted; apply merge_sort_Permutation).
  assert (Hs : StronglySorted gt (rev sorted)).
  { apply sorted_rev.
    - rewrite Permutation_rev, HP. apply (ti_nodup _ _ HT).
    - apply StronglySorted_merge_sort; typeclasses eauto. }
  assert (HT' : table_inv (rev sorted) (set_indices sorted l))
    by (destruct (table_inv_perm _ _ _ (symmetry HP) HT); by split).
  destruct (compact_loop_spec _ _ HT' Hs) as (HI & Hr & _). split; [done|]. by apply map_eq.
Qed.

Lemma poll_add_spec fd ud d l :
  table_ok l -> 0 <= fd -> registered l fd = None -> (fds_size l < kMaxFds)%nat ->
  exists l', poll_add (St := St) fd ud d l = (OkStatus, l') /\ table_ok l' /\
    registry l' = <[fd:=(event_bits d, ud)]> (registry l) /\ fds_size l' = S (fds_size l).
Proof.
  intros HT Hfd Hr Hsz. rewrite <- event_bits_poll. unfold poll_add. rewrite (proj2 (Z.leb_le _ _)) by done. simpl.
  rewrite decide_False by lia. eexists. split; [done|].
  rewrite registered_eq in Hr. unfold emplace.
  change (fd_data (set_slot _ _ l)) with (fd_data l).
  destruct (fd_data l !! fd) as [[? ?]|] eqn:E; [done|]. clear Hr.
  set (p := PollFd fd _ 0). set (l' := set_fds_size _ _).
  destruct HT as [Hlen Hmax Hnd Hdead Halive Hdata].
  assert (Hslot : forall j, slot l' j = if decide (j = fds_size l) then p else slot l j).
  { intros j. unfold l'. change (slot (set_slot (fds_size l) p l) j = if decide (j = fds_size l) then p else slot l j).
    case_decide; [subst; by rewrite slot_set_eq by lia|by rewrite slot_set_ne]. }
  assert (Hlt : forall fd' j ud', fd_data l !! fd' = Some (j, ud') -> j <> fds_size l)
    by (intros ??? E'; destruct (Hdata _ _ _ E'); lia).
  split_and!; [split|apply map_eq; intros fd'|done].
  - simpl. by rewrite length_insert.
  - simpl. lia.
  - done.
  - intros j Hj. destruct (Hdead j Hj). rewrite Hslot, decide_False by lia. simpl. split; [lia|done].
  - intros j Hj Hjd. rewrite Hslot. simpl. case_decide as Hji; simpl.
    + subst. exists ud. by rewrite lookup_insert_eq.
    + simpl in Hj. destruct (Halive j) as [ud' E']; [lia|done|]. exists ud'.
      rewrite lookup_insert_ne; [done|]. intros Ep. by rewrite <- Ep, E in E'.
  - intros fd' j ud'. rewrite Hslot. simpl. rewrite lookup_insert. case_decide as Hf; intros E'.
    + simplify_eq. rewrite decide_True by done. split_and!; [done|lia|done].
    + rewrite decide_False by eauto. destruct (Hdata _ _ _ E') as (? & ? & ?). split_and!; [done|lia|done].
  - fold (registered l' fd'). rewrite registered_eq, lookup_insert. simpl. rewrite lookup_insert.
    case_decide as Hf; simpl; [by rewrite Hslot, decide_True|].
    fold (registered l fd'). rewrite registered_eq.
    destruct (fd_data l !! fd') as [[j ud']|] eqn:E'; [|done]. simpl. by rewrite Hslot, decide_False by eauto.
Qed.

Lemma poll_update_spec fd ud d l :
  table_ok l -> is_Some (registered l fd) ->
  exists l', poll_update (St := St) fd ud d l = (OkStatus, l') /\ table_ok l' /\
    registry l' = <[fd:=(event_bits d, ud)]> (registry l) /\ fds_size l' = fds_size l.
Proof.
  intros HT [x Hr]. pose proof HT as [Hlen Hmax Hnd Hdead Halive Hdata].
  rewrite <- event_bits_poll. rewrite registered_eq in Hr. unfold poll_update.
  destruct (fd_data l !! fd) as [[i ud0]|] eqn:E; [|done]. clear Hr x. eexists. split; [done|].
  destruct (Hdata _ _ _ E) as (Hfd & Hi & Hp). rewrite Hp.
  set (p := PollFd fd _ _). set (l' := set_fd_data _ _).
  assert (Hslot : forall j, slot l' j = if decide (j = i) then p else slot l j).
  { intros j. unfold l'. change (slot (set_slot i p l) j = if decide (j = i) then p else slot l j).
    case_decide; [subst; by rewrite slot_set_eq by lia|by rewrite slot_set_ne]. }
  assert (Hpfd : forall j, pfd (slot l' j) = pfd (slot l j)).
  { intros j. rewrite Hslot. case_decide; [|done]. subst j. by rewrite Hp. }
  split_and!; [split|apply map_eq; intros fd'|done].
  - simpl. by rewrite length_insert.
  - done.
  - done.
  - intros j Hj. rewrite Hpfd. by apply Hdead.
  - intros j Hj Hjd. rewrite Hpfd. simpl. destruct (Halive j Hj Hjd) as [ud' E'].
    rewrite lookup_insert. case_decide as Hf; [|by eauto]. exists ud. rewrite <- Hf in E'. congruence.
  - intros fd' j ud'. rewrite Hpfd. simpl. rewrite lookup_insert. case_decide as Hf; intros E'; [|by eauto].
    by simplify_eq.
  - fold (registered l' fd'). rewrite registered_eq, lookup_insert. simpl. rewrite lookup_insert.
    case_decide as Hf; simpl; [by rewrite Hslot, decide_True|].
    fold (registered l fd'). rewrite registered_eq.
    destruct (fd_data l !! fd') as [[j ud']|] eqn:E'; [|done]. simpl. rewrite Hslot, decide_False; [done|].
    intros ->. destruct (Hdata _ _ _ E') as (_ & _ & Hp'). congruence.
Qed.

Lemma poll_delete_spec fd l :
  table_ok l -> is_Some (registered l fd) ->
  exists l', poll_delete (St := St) fd l = (OkStatus, l') /\ table_ok l' /\
    registry l' = delete fd (registry l) /\ fds_size l' = fds_size l.
Proof.
  intros HT [x Hr]. pose proof HT as [Hlen Hmax Hnd Hdead Halive Hdata].
  rewrite registered_eq in Hr. unfold poll_delete.
  destruct (fd_data l !! fd) as [[i ud0]|] eqn:E; [|done]. clear Hr x. eexists. split; [done|].
  destruct (Hdata _ _ _ E) as (Hfd & Hi & Hp).
  set (p := PollFd (-1) _ _). set (l' := set_fd_data _ _).
  assert (Hslot : forall j, slot l' j = if decide (j = i) then p else slot l j).
  { intros j. unfold l'.
    change (slot (set_slot i p (set_indices (indices_to_compact l ++ [i]) l)) j = if decide (j = i) then p else slot l j).
    case_decide; [subst; by rewrite slot_set_eq by (simpl; lia)|by rewrite slot_set_ne]. }
  assert (Hni : i ∉ indices_to_compact l).
  { intros Hd. destruct (Hdead _ Hd). lia. }
  assert (Hne : forall fd' j ud', fd_data l !! fd' = Some (j, ud') -> fd' <> fd -> j <> i).
  { intros fd' j ud' E' Hf ->. destruct (Hdata _ _ _ E') as (_ & _ & Hp'). congruence. }
  unfold table_ok. change (indices_to_compact l') with (indices_to_compact l ++ [i]).
  split_and!; [split|apply map_eq; intros fd'|done].
  - simpl. by rewrite length_insert.
  - done.
  - rewrite Permutation_app_comm. by apply NoDup_cons.
  - intros j Hj. rewrite Hslot. simpl. case_decide; [by subst|]. apply Hdead. set_solver.
  - intros j Hj Hjd. rewrite Hslot, decide_False by set_solver. simpl.
    destruct (Halive j) as [ud' E']; [done|set_solver|]. exists ud'. rewrite lookup_delete_ne; [done|].
    intros Hf. rewrite <- Hf, E in E'. set_solver.
  - intros fd' j ud'. simpl. rewrite lookup_delete. case_decide as Hf; [done|]. intros E'.
    rewrite Hslot, decide_False by (eapply Hne; eauto). by apply (Hdata _ _ ud').
  - fold (registered l' fd'). rewrite registered_eq, lookup_delete. simpl. rewrite lookup_delete.
    case_decide as Hf; [done|]. fold (registered l fd'). rewrite registered_eq.
    destruct (fd_data l !! fd') as [[j ud']|] eqn:E'; [|done]. simpl. rewrite Hslot, decide_False; [done|].
    eapply Hne; eauto.
Qed.

Lemma not_ok_ret (w : StatusWriter St) text :
  code (status_ w) <> kOk -> Status.ok (return_error (R := St) w text) = false.
Proof. intros Hw. rewrite ok_return_error. by apply ok_false. Qed.

Lemma run_op_refines o l :
  table_ok l -> match o with OpAdd fd _ _ => registry l !! fd = None | _ => True end ->
  let '(st, l') := run_op (St := St) o l in
  let '(ok, (m, used)) := spec_op o (registry l, fds_size l) in
  Status.ok st = ok /\ table_ok l' /\ registry l' = m /\ fds_size l' = used.
Proof.
  intros HT Hf. destruct o as [fd ud d|fd ud d|fd]; simpl.
  - case_decide as Hd.
    + destruct Hd. destruct (poll_add_spec fd ud d l) as (l' & -> & ?); auto.
      by rewrite ok_OkStatus.
    + unfold poll_add. destruct (0 <=? fd) eqn:E; simpl.
      * apply Z.leb_le in E. rewrite decide_True by lia. rewrite not_ok_ret by (simpl; by rewrite code_mk); done.
      * rewrite not_ok_ret by (simpl; by rewrite code_mk); done.
  - case_decide as Hd.
    + destruct (poll_update_spec fd ud d l HT Hd) as (l' & -> & ?). by rewrite ok_OkStatus.
    + unfold poll_update. rewrite <- not_eq_None_Some in Hd. apply dec_stable in Hd.
      fold (registered l fd) in Hd. rewrite registered_eq in Hd.
      destruct (fd_data l !! fd) as [[??]|]; [done|]. rewrite not_ok_ret by (simpl; by rewrite code_mk); done.
  - case_decide as Hd.
    + destruct (poll_delete_spec fd l HT Hd) as (l' & -> & ?). by rewrite ok_OkStatus.
    + unfold poll_delete. rewrite <- not_eq_None_Some in Hd. apply dec_stable in Hd.
      fold (registered l fd) in Hd. rewrite registered_eq in Hd.
      destruct (fd_data l !! fd) as [[??]|]; [done|]. rewrite not_ok_ret by (simpl; by rewrite code_mk); done.
Qed.

Lemma run_ops_refines ops l :
  table_ok l -> adds_fresh ops (registry l, fds_size l) ->
  let '(sts, l') := run_ops (St := St) ops l in
  let '(oks, (m, used)) := spec_ops ops (registry l, fds_size l) in
  map Status.ok sts = oks /\ table_ok l' /\ registry l' = m /\ fds_size l' = used.
Proof.
  revert l. induction ops as [|o ops IH]; intros l HT Hf; cbn [run_ops spec_ops]; [done|].
  destruct Hf as [Ho Hf]. pose proof (run_op_refines o l HT Ho) as H1.
  destruct (run_op o l) as [st l1], (spec_op o (registry l, fds_size l)) as [ok [m used]].
  destruct H1 as (Hst & HT1 & <- & <-). specialize (IH l1 HT1 Hf).
  destruct (run_ops ops l1) as [sts l'], (spec_ops ops _) as [oks [m' used']].
  destruct IH as (? & ? & ? & ?). split_and!; [|done..]. cbn [map]. congruence.
Qed.

Lemma empty_ok sfd : table_ok (empty_poll (U := U) sfd).
Proof.
  split; [apply repeat_length|apply Nat.le_0_l|constructor| | |]; cbn [empty_poll fds_size indices_to_compact fd_data].
  - intros i Hi. by apply not_elem_of_nil in Hi.
  - intros i Hi. lia.
  - intros fd i ud. by rewrite lookup_empty.
Qed.

(** After compaction the array in use is the registry. *)
Lemma in_use_registry l :
  table_inv [] l ->
  NoDup (pfd <$> in_use l) /\
  forall fd ev, (exists r, PollFd fd ev r ∈ in_use l) <-> exists ud, registry l !! fd = Some (ev, ud).
Proof.
  intros HT. pose proof HT as [Hlen Hmax _ _ Halive Hdata].
  assert (Hin : forall i p, in_use l !! i = Some p <-> (i < fds_size l)%nat /\ slot l i = p).
  { intros i p. unfold in_use, slot. rewrite lookup_take_Some. split.
    - intros [E Hi]. by rewrite E.
    - intros [Hi <-]. destruct (lookup_lt_is_Some_2 (fds l) i) as [q E]; [lia|]. by rewrite E. }
  split.
  - apply NoDup_alt. intros i j x. rewrite !list_lookup_fmap_Some.
    intros (p & Ep & Hi) (q & Eq & Hj). apply Hin in Hi as [Hi Ei], Hj as [Hj Ej].
    destruct (Halive i Hi ltac:(set_solver)) as [ud E], (Halive j Hj ltac:(set_solver)) as [ud' E'].
    rewrite Ei in E. rewrite Ej in E'. congruence.
  - intros fd ev. fold (registered l fd). rewrite registered_eq. split.
    + intros [r Hr]. apply list_elem_of_lookup in Hr as [i Hi]. apply Hin in Hi as [Hi Ei].
      destruct (Halive i Hi ltac:(set_solver)) as [ud E]. rewrite Ei in E. simpl in E.
      exists ud. rewrite E. simpl. by rewrite Ei.
    + intros [ud E]. destruct (fd_data l !! fd) as [[i ud']|] eqn:Ed; [|done]. simpl in E. simplify_eq.
      destruct (Hdata _ _ _ Ed) as (_ & Hi & Hp). exists (prevents (slot l i)).
      apply list_elem_of_lookup. exists i. apply Hin. split; [done|]. rewrite <- Hp. by destruct (slot l i).
Qed.

(** C18: from an empty table, a sequence of additions, updates and deletions in
    which a descriptor is only added while it is not registered ([adds_fresh])
    returns an error exactly where the abstract registry refuses the operation
    and leaves the registry's entries unchanged there; and the table that the
    next [Compact] hands to [poll] has one entry for each registered
    descriptor, with the bits of its last desires ([event_bits]), and no
    other. *)
Theorem poll_table_refines sfd (ops : list (table_op U)) (Hfresh : adds_fresh ops (∅, 0%nat)) :
  let '(sts, l) := run_ops (St := St) ops (empty_poll sfd) in
  let '(oks, (m, used)) := spec_ops ops (∅, 0%nat) in
  map Status.ok sts = oks /\ registry l = m /\ registry (Compact l) = m /\
  NoDup (pfd <$> in_use (Compact l)) /\
  (forall fd ev, (exists r, PollFd fd ev r ∈ in_use (Compact l)) <-> exists ud, m !! fd = Some (ev, ud)).
Proof.
  assert (E : registry (empty_poll (U := U) sfd) = ∅) by apply fmap_empty.
  pose proof (run_ops_refines ops (empty_poll sfd) (empty_ok sfd)) as HR. rewrite E in HR.
  specialize (HR Hfresh). change (fds_size (empty_poll sfd)) with 0%nat in HR.
  destruct (run_ops ops _) as [sts l], (spec_ops ops _) as [oks [m used]].
  destruct HR as (? & HT & <- & <-). destruct (Compact_spec l HT) as [HT' Er].
  destruct (in_use_registry _ HT') as [? Hin]. rewrite Er in Hin. done.
Qed.
End Table.

Section Steps.
Context {W U St : Type} `{!HasErrno W} `{HP : !PollApi W U} `{HPL : !PollLaws W U}.
Context `{HA : !Absl St} `{HL : !AbslLaws St} `{!Strerror}.
Implicit Types l : Poll (U := U).

(** What [LoopStep] reports of the polled entries. *)
Definition report (data : gmap Z (nat * U)) (e : pollfd) : list (SelectorEventData U) :=
  match data !! pfd e with
  | Some (_, ud) => [MkEvent ud (poll_desire e) (u32 (prevents e))]
  | None => []
  end.

Lemma poll_events_spec data es :
  poll_events data es (zlen (filter (fun e => prevents e <> 0) es)) =
  flat_map (report data) (filter (fun e => prevents e <> 0) es).
Proof.
  induction es as [|e es IH]; [done|]. rewrite filter_cons. simpl.
  destruct (decide (prevents e <> 0)) as [He|He].
  - rewrite zlen_cons, (proj2 (Z.ltb_lt _ _)) by (pose proof (zlen_nonneg (filter (fun e => prevents e <> 0) es)); lia).
    rewrite decide_False by done. simpl. rewrite <- IH. unfold report.
    replace (1 + _ - 1) with (zlen (filter (fun e => prevents e <> 0) es)) by lia.
    by destruct (data !! pfd e) as [[??]|].
  - apply dec_stable in He. rewrite decide_True by done. rewrite <- IH.
    destruct (0 <? _) eqn:Hz; [done|]. simpl. apply Z.ltb_ge in Hz.
    pose proof (zlen_nonneg (filter (fun e => prevents e <> 0) es)).
    replace (zlen _) with 0 by lia. by destruct es.
Qed.

Lemma report_registered (l : Poll (U := U)) es e :
  table_inv [] l -> Forall2 (fun e e' => pfd e' = pfd e /\ pevents e' = pevents e) (in_use l) es ->
  e ∈ es -> exists ud, registry l !! pfd e = Some (pevents e, ud) /\
    report (fd_data l) e = [MkEvent ud (poll_desire e) (u32 (prevents e))].
Proof.
  intros HT HF He. apply list_elem_of_lookup in He as [i He].
  destruct (Forall2_lookup_r _ _ _ _ _ HF He) as (e0 & Hi & Hp & Hv).
  destruct (in_use_registry l HT) as [_ Hin].
  destruct (proj1 (Hin (pfd e) (pevents e))) as [ud Hud].
  { exists (prevents e0). rewrite Hp, Hv. apply list_elem_of_lookup. exists i. by destruct e0. }
  exists ud. split; [done|]. unfold registry in Hud. rewrite lookup_fmap in Hud. unfold report.
  destruct (fd_data l !! pfd e) as [[j ud']|]; [|done]. simpl in Hud. by simplify_eq.
Qed.

Lemma flat_map_report (l : Poll (U := U)) es es' :
  table_inv [] l -> Forall2 (fun e e' => pfd e' = pfd e /\ pevents e' = pevents e) (in_use l) es ->
  (forall e, e ∈ es' -> e ∈ es) ->
  Forall2 (fun e r => exists ud, registry l !! pfd e = Some (pevents e, ud) /\
    r = MkEvent ud (poll_desire e) (u32 (prevents e))) es' (flat_map (report (fd_data l)) es').
Proof.
  intros HT HF. induction es' as [|e es' IH]; intros Hs; simpl; [constructor|].
  destruct (report_registered l es e HT HF) as (ud & Hud & ->); [set_solver|].
  simpl. constructor; [by exists ud|]. apply IH. set_solver.
Qed.

Definition set_polled (es : list pollfd) (l : Poll (U := U)) : Poll :=
  MkPoll (po_signal_fd l) (es ++ drop (fds_size l) (fds l)) (fds_size l) (fd_data l) (indices_to_compact l).

Lemma polled_registry l es :
  table_inv [] l -> Forall2 (fun e e' => pfd e' = pfd e /\ pevents e' = pevents e) (in_use l) es ->
  in_use (set_polled es l) = es /\ fd_data (set_polled es l) = fd_data l /\
  registry (set_polled es l) = registry l.
Proof.
  intros [Hlen Hmax _ _ _ Hdata] HF. pose proof (Forall2_length _ _ _ HF) as Hle.
  unfold in_use in Hle. rewrite length_take in Hle.
  assert (Hu : in_use (set_polled es l) = es) by (unfold in_use, set_polled; simpl; rewrite take_app_le, take_ge by lia; done).
  split_and!; [done|done|]. apply map_eq. intros fd.
  fold (registered (set_polled es l) fd) (registered l fd). rewrite !registered_eq. cbn [set_polled fd_data].
  destruct (fd_data l !! fd) as [[i ud]|] eqn:E; [|done]. simpl. do 2 f_equal.
  destruct (Hdata _ _ _ E) as (_ & Hi & _). unfold slot. cbn [set_polled fds].
  rewrite lookup_app_l by lia.
  destruct (lookup_lt_is_Some_2 es i) as [e' He']; [lia|].
  destruct (Forall2_lookup_r _ _ _ _ _ HF He') as (e & He & _ & Hv). rewrite He'.
  unfold in_use in He. apply lookup_take_Some in He as [-> _]. done.
Qed.

Lemma poll_step_unfold timeout l (w : W) :
  Poll_LoopStep (St := St) timeout (l, w) =
  let '((n, es), w') := sys_poll (in_use (Compact l)) (PollTimeout timeout) w in
  let l' := set_polled es (Compact l) in
  if decide (n < 0 /\ sys_errno w' <> EINTR)
  then Ret (return_errno (sys_errno w') (sys_errno w') "Encountered during poll.") (l', w')
  else bind (reserve n) (fun _ => ret (Value (poll_events (fd_data l') (in_use l') n))) (l', w').
Proof.
  unfold Poll_LoopStep, set, this, sys, errno, fail_errno, bind, modify, gets. cbn [fst snd].
  fold (in_use (Compact l)). destruct (sys_poll _ _ w) as [[n es] w']. cbn [fst snd].
  destruct (decide _); [done|]. unfold reserve, check. by destruct (0 <=? n).
Qed.

(** A step of the [poll] loop on a well-formed table polls the compacted
    table; a failure other than [EINTR] is returned as a status with the code of
    [errno], an interrupted call ends in an exception; otherwise the result has
    one event for each polled entry with [revents], in order, with the user
    data registered for its descriptor, and the registry stays. *)
Theorem poll_step_reports (l : Poll (U := U)) (w : W) timeout (HT : table_ok l) :
  let '((n, es), w') := sys_poll (in_use (Compact l)) (PollTimeout timeout) w in
  let step := Poll_LoopStep (St := St) timeout (l, w) in
  if decide (n < 0) then
    if decide (sys_errno w' = EINTR) then step = Fatal "std::length_error"
    else exists st l', step = Ret (Error st) (l', w') /\ code st = errno_code (sys_errno w') /\
           registry l' = registry l
  else exists evs l', step = Ret (Value evs) (l', w') /\ registry l' = registry l /\
         Forall2 (fun e r => exists ud, registry l !! pfd e = Some (pevents e, ud) /\
            r = MkEvent ud (poll_desire e) (u32 (prevents e)))
           (filter (fun e => prevents e <> 0) es) evs.
Proof.
  rewrite poll_step_unfold. destruct (Compact_spec l HT) as [HT' Hr].
  pose proof (poll_same (in_use (Compact l)) (PollTimeout timeout) w) as HS.
  destruct (sys_poll _ _ w) as [[n es] w']. destruct HS as [Hn HF]. cbv zeta.
  destruct (polled_registry (Compact l) es HT' HF) as (Hu & Hd & Hr').
  set (l' := set_polled es (Compact l)) in *. rewrite Hu, Hd. unfold reserve. case_decide as Hneg.
  - case_decide as He.
    + rewrite decide_False by tauto. mrun. by rewrite (proj2 (Z.leb_gt _ _)).
    + rewrite decide_True by done. eexists _, l'. split; [done|]. split; [|congruence].
      apply (code_return_errno (sys_errno w') (sys_errno w')).
  - rewrite decide_False by tauto. mrun. rewrite (proj2 (Z.leb_le _ _)) by lia.
    destruct Hn as [-> | ->]; [done|]. rewrite poll_events_spec. eexists _, l'. split; [done|].
    split; [congruence|]. rewrite <- Hr. apply (flat_map_report _ es); [done..|].
    intros e He. by apply list_elem_of_filter in He as [_ ?].
Qed.
End Steps.

(** ** Desires and event bits *)

Lemma land_within ev mask bits : Z.land ev (Z.lnot mask) = 0 -> Z.land mask bits = 0 -> Z.land ev bits = 0.
Proof.
  intros H1 H2. apply Z.bits_inj'. intros i Hi. rewrite Z.land_spec, Z.bits_0.
  assert (E1 := f_equal (fun z => Z.testbit z i) H1). assert (E2 := f_equal (fun z => Z.testbit z i) H2).
  simpl in E1, E2. rewrite Z.land_spec, Z.lnot_spec, Z.bits_0 in E1 by done.
  rewrite Z.land_spec, Z.bits_0 in E2.
  by destruct (Z.testbit ev i), (Z.testbit mask i), (Z.testbit bits i).
Qed.

(** The bits of [ev] are among those asked for by [d], an error or a hang-up. *)
Definition asked (d ev : Z) : Prop :=
  Z.land ev (Z.lnot (Z.lor (DesiresToEpollEvents d) (Z.lor EPOLLERR EPOLLHUP))) = 0.

Lemma asked_none d ev bits :
  asked d ev -> Z.land (Z.lor (DesiresToEpollEvents d) (Z.lor EPOLLERR EPOLLHUP)) bits = 0 ->
  has_flag ev bits = false.
Proof. intros Ha Hm. unfold has_flag. by rewrite (land_within _ _ _ Ha Hm). Qed.

Lemma has_flag_lor ev a b : has_flag ev (Z.lor a b) = has_flag ev a || has_flag ev b.
Proof.
  unfold has_flag. rewrite Z.land_lor_distr_r. apply eq_true_iff_eq.
  rewrite orb_true_iff, !negb_true_iff, !Z.eqb_neq, Z.lor_eq_0_iff. lia.
Qed.

(** What is reported is what was asked for or an error, and no readiness that
    was asked for is missed. *)
Lemma epoll_desire_spec d ev :
  asked d ev ->
  has_flag (epoll_desire ev) kWantRead = has_flag d kWantRead && has_flag ev EPOLLIN /\
  has_flag (epoll_desire ev) kWantWrite = has_flag d kWantWrite && has_flag ev EPOLLOUT /\
  has_flag (epoll_desire ev) kWantError =
    has_flag ev EPOLLERR || has_flag ev EPOLLHUP || has_flag d kWantRead && has_flag ev EPOLLRDHUP.
Proof.
  intros Ha.
  assert (Hp : has_flag ev EPOLLPRI = false).
  { apply (asked_none _ _ _ Ha). unfold DesiresToEpollEvents. by repeat destruct (has_flag d _). }
  assert (Hr : has_flag d kWantRead = false -> has_flag ev EPOLLIN = false /\ has_flag ev EPOLLRDHUP = false).
  { intros Hd. split; apply (asked_none _ _ _ Ha); unfold DesiresToEpollEvents; rewrite Hd;
      by repeat destruct (has_flag d _). }
  assert (Hw : has_flag d kWantWrite = false -> has_flag ev EPOLLOUT = false).
  { intros Hd. apply (asked_none _ _ _ Ha). unfold DesiresToEpollEvents. rewrite Hd.
    by repeat destruct (has_flag d _). }
  unfold epoll_desire. rewrite !has_flag_lor, Hp.
  destruct (has_flag d kWantRead) eqn:E1, (has_flag d kWantWrite) eqn:E2;
    try destruct (Hr eq_refl) as [-> ->]; try rewrite (Hw eq_refl);
    destruct (has_flag ev EPOLLERR), (has_flag ev EPOLLHUP); try destruct (has_flag ev EPOLLIN);
    try destruct (has_flag ev EPOLLOUT); try destruct (has_flag ev EPOLLRDHUP); done.
Qed.

Section EpollSteps.
Context {W U St : Type} `{!HasErrno W} `{HP : !PollApi W U} `{HE : !EpollLaws W U}.
Context `{HA : !Absl St} `{HL : !AbslLaws St} `{!Strerror}.

(** The registry of an [EpollSelectorLoop], in the kernel. *)
Definition watched (s : Epoll * W) : gmap Z (Z * U) := interest s.2 (epfd s.1).

(** An operation that succeeded made the change [f]; one that failed made none. *)
Definition changes (op : M (Epoll * W) St) (f : gmap Z (Z * U) -> gmap Z (Z * U)) (s : Epoll * W) : Prop :=
  returns op s (fun st s' => s'.1 = s.1 /\
    watched s' = if Status.ok st then f (watched s) else watched s).

Lemma epoll_change_spec line op fd bad what e failed tail s :
  failed (-1) = true -> failed 0 = false ->
  changes (epoll_change line op fd bad what e failed tail)
    (if decide (op = EPOLL_CTL_DEL) then delete fd else insert fd (ee_events e, ee_data e)) s /\
  (fd < 0 -> exists st, epoll_change line op fd bad what e failed tail s = Ret st s /\
                        code st = kFailedPrecondition).
Proof.
  intros Hf1 Hf0. unfold changes, epoll_change, RET_CHECK. destruct (0 <=? fd) eqn:Hfd.
  - split; [|intros; apply Z.leb_le in Hfd; lia]. unfold returns, this, sys, fail_errno, watched. mrun.
    pose proof (epoll_ctl_law (epfd s.1) op fd e s.2) as HC.
    destruct (sys_epoll_ctl _ _ _ _ _) as [r w']. destruct HC as [[-> HC]|[-> HC]].
    + rewrite Hf1. eexists _, _. split; [done|]. rewrite ok_return_errno. done.
    + rewrite Hf0. eexists _, _. split; [done|]. rewrite ok_OkStatus. simpl. rewrite HC.
      by case_decide.
  - split.
    + eexists _, _. split; [done|]. rewrite ok_return_error. simpl.
      by rewrite (proj2 (ok_false _)) by (by rewrite code_mk).
    + intros _. eexists. split; [done|]. rewrite code_return_error. simpl. apply code_mk.
Qed.

Lemma Epoll_changes (s : Epoll * W) :
  (forall fd ud d, changes (Epoll_Add fd ud d) (insert fd (event_bits d, ud)) s) /\
  (forall fd ud d, changes (Epoll_Update fd ud d) (insert fd (event_bits d, ud)) s) /\
  (forall fd, changes (Epoll_Delete fd) (delete fd) s).
Proof. split_and!; intros; rewrite <- ?event_bits_epoll; by apply epoll_change_spec. Qed.

(** C22: the [epoll] loop keeps the interest set of its descriptor as the
    registry: [Add], [Update] and [Delete] make their change, with the bits of
    the desires, when they return OK, and none when they return an error.  A
    step waits once: it returns a status with the code of [errno] on a failure
    but [EINTR], which ends in an exception, and otherwise one event per event
    of the kernel, in order, with its data, which is that of a descriptor of
    the registry, and its bits; read or write is reported exactly when it was
    asked for and the kernel signalled it, an error on [EPOLLERR], [EPOLLHUP],
    or a remote hang-up of a reader. *)
Theorem epoll_loop_refines (s : Epoll * W) timeout :
  (forall fd ud d, changes (Epoll_Add fd ud d) (insert fd (event_bits d, ud)) s) /\
  (forall fd ud d, changes (Epoll_Update fd ud d) (insert fd (event_bits d, ud)) s) /\
  (forall fd, changes (Epoll_Delete fd) (delete fd) s) /\
  let '((k, evs), w') := sys_epoll_wait (epfd s.1) (max_events s.1) (PollTimeout timeout) s.2 in
  let step := Epoll_LoopStep (St := St) timeout s in
  watched (s.1, w') = watched s /\
  if decide (k < 0) then
    if decide (sys_errno w' = EINTR) then step = Fatal "std::length_error"
    else exists st, step = Ret (Error st) (s.1, w') /\ code st = errno_code (sys_errno w')
  else exists reports, step = Ret (Value reports) (s.1, w') /\
    Forall2 (fun e r => user_data r = ee_data e /\ internal_event r = ee_events e /\
      exists fd bits, watched s !! fd = Some (bits, user_data r) /\
        forall d, bits = event_bits d ->
          has_flag (desires r) kWantRead = Z.testbit d 0 && has_flag (ee_events e) EPOLLIN /\
          has_flag (desires r) kWantWrite = Z.testbit d 1 && has_flag (ee_events e) EPOLLOUT /\
          has_flag (desires r) kWantError =
            has_flag (ee_events e) EPOLLERR || has_flag (ee_events e) EPOLLHUP ||
            Z.testbit d 0 && has_flag (ee_events e) EPOLLRDHUP) evs reports.
Proof.
  destruct (Epoll_changes s) as (? & ? & ?).
  split; [done|]. split; [done|]. split; [done|]. unfold Epoll_LoopStep, this, sys, errno, fail_errno, reserve, watched. mrun.
  pose proof (epoll_wait_law (epfd s.1) (max_events s.1) (PollTimeout timeout) s.2) as HW.
  destruct (sys_epoll_wait _ _ _ _) as [[k evs] w']. destruct HW as (Hk & Hi & HF). cbn [fst snd]. split; [done|].
  destruct (decide (k < 0)) as [Hneg|Hneg].
  - destruct (decide (sys_errno w' = EINTR)) as [He|He].
    + rewrite decide_False by tauto. mrun. by rewrite (proj2 (Z.leb_gt _ _)).
    + rewrite decide_True by done. eexists. split; [done|]. apply (code_return_errno (sys_errno w') (sys_errno w')).
  - rewrite decide_False by tauto. mrun. rewrite (proj2 (Z.leb_le _ _)) by lia. destruct Hk as [-> | ->]; [done|].
    eexists. split; [done|]. unfold zlen. rewrite Nat2Z.id, firstn_all. apply Forall2_fmap_r.
    induction HF as [|e evs (fd & bits & Hb & Ha) HF IH]; constructor; [|apply IH; pose proof (zlen_nonneg evs); unfold zlen in *; lia].
    split; [done|]. split; [done|]. exists fd, bits. split; [done|]. intros d ->. rewrite <- event_bits_epoll in Ha.
    pose proof (has_flag_testbit d 0 ltac:(done)) as B0. pose proof (has_flag_testbit d 1 ltac:(done)) as B1. simpl in B0, B1.
    rewrite <- B0, <- B1. by apply epoll_desire_spec.
Qed.
End EpollSteps.

(** ** A small kernel

    The readiness of each descriptor, and one interest set. *)

Module SimPoll.
Record kernel := Kernel { k_errno : Z; k_ready : gmap Z Z; k_interest : gmap Z (Z * Z) }.

#[export] Instance kernel_errno : HasErrno kernel := k_errno.

Definition fill (w : kernel) (p : pollfd) : pollfd :=
    PollFd (pfd p) (pevents p) (default 0 (k_ready w !! pfd p)).
Definition ctl (op fd : Z) (e : epoll_event Z) (w : kernel) : Z * kernel :=
    let there := bool_decide (is_Some (k_interest w !! fd)) in
    if decide (op = EPOLL_CTL_DEL) then
      if there then (0, Kernel (k_errno w) (k_ready w) (delete fd (k_interest w)))
      else (-1, Kernel 2 (k_ready w) (k_interest w))
    else if Bool.eqb there (bool_decide (op = EPOLL_CTL_MOD)) then
      (0, Kernel (k_errno w) (k_ready w) (<[fd:=(ee_events e, ee_data e)]> (k_interest w)))
    else (-1, Kernel 17 (k_ready w) (k_interest w)).
Definition signalled (w : kernel) (i : Z * (Z * Z)) : epoll_event Z :=
    EpollEvent (Z.land (default 0 (k_ready w !! i.1)) (Z.lor i.2.1 (Z.lor EPOLLERR EPOLLHUP))) i.2.2.
Definition wait (n : Z) (w : kernel) : list (epoll_event Z) :=
    take (Z.to_nat n) (filter (fun e => ee_events e <> 0) (signalled w <$> map_to_list (k_interest w))).

#[export] Instance kernel_poll : PollApi kernel Z := {
    nullptr := 0;
    sys_poll es t w :=
      let es' := fill w <$> es in
      ((zlen (filter (fun e => prevents e <> 0) es'), es'), w);
    sys_epoll_create w := (3, w);
    sys_epoll_ctl ep op fd e w := ctl op fd e w;
    sys_epoll_wait ep n t w := ((zlen (wait n w), wait n w), w);
    sys_epoll_close ep w := w
}.

#[export] Instance kernel_poll_laws : PollLaws kernel Z.
Proof.
    split. intros es t w. simpl. split; [by right|].
    induction es; simpl; constructor; done.
Qed.

Lemma land_sub a m : Z.land (Z.land a m) (Z.lnot m) = 0.
Proof. by rewrite <- Z.land_assoc, Z.land_lnot_diag, Z.land_0_r. Qed.

#[export, refine] Instance kernel_epoll_laws : EpollLaws kernel Z := {
    interest w _ := k_interest w
}.
Proof.
    - intros ep op fd e w. simpl. unfold ctl.
      destruct (decide (op = EPOLL_CTL_DEL)), (bool_decide (is_Some _)); simpl; auto;
        destruct (bool_decide _); simpl; auto.
    - intros ep n t w. simpl. split_and!; [by right|done|]. apply List.Forall_forall. intros e He.
      apply list_elem_of_In in He. unfold wait in He. apply elem_of_take in He as (i & He & _).
      apply list_elem_of_lookup_2, list_elem_of_filter in He as [_ He].
      apply list_elem_of_fmap in He as ([fd [bits ud]] & -> & He). apply elem_of_map_to_list in He.
      exists fd, bits. split; [done|]. apply land_sub.
Defined.
End SimPoll.

Section Witnesses.
Import SimPoll RefAbsl.

#[local] Instance loop_strerror : Strerror := fun _ => Xsi 0 "text".

Definition demo_ops : list (table_op Z) :=
  [OpAdd 3 30 1; OpAdd 4 40 3; OpAdd 5 50 1; OpDelete 3; OpUpdate 5 51 2; OpUpdate 9 0 1].
Definition demo_table : Poll := (run_ops (St := rstatus) demo_ops (empty_poll 3)).2.

Lemma demo_fresh : adds_fresh demo_ops (∅, 0%nat).
Proof. vm_compute. tauto. Qed.

Lemma demo_ok : table_ok demo_table.
Proof.
  pose proof (run_ops_refines (St := rstatus) demo_ops (empty_poll 3) (empty_ok 3) demo_fresh) as H.
  unfold demo_table. destruct (run_ops demo_ops (empty_poll 3)), (spec_ops _ _) as [? [??]]. tauto.
Qed.

Lemma poll_table_refines_witness :
  adds_fresh demo_ops (∅, 0%nat) /\ registry (Compact demo_table) = {[4 := (8197, 40); 5 := (4, 51)]}.
Proof.
  split; [vm_compute; tauto|].
  pose proof (poll_table_refines (St := rstatus) 3 demo_ops ltac:(vm_compute; tauto)) as H.
  unfold demo_table. destruct (run_ops demo_ops (empty_poll 3)) as [sts l].
  destruct (spec_ops demo_ops _) as [oks [m used]] eqn:E. destruct H as (_ & _ & H & _). simpl. rewrite H.
  vm_compute in E. by injection E as _ <- _.
Defined.

Lemma poll_step_reports_witness :
  table_ok demo_table /\
  exists evs l', Poll_LoopStep (St := rstatus) 0 (demo_table, Kernel 0 {[4 := 1]} ∅) = Ret (Value evs) l'
                 /\ evs = [MkEvent 40 3 1].
Proof.
  split; [exact demo_ok|].
  pose proof (poll_step_reports (St := rstatus) demo_table (Kernel 0 {[4 := 1]} ∅) 0 demo_ok) as H.
  destruct (sys_poll (in_use (Compact demo_table)) _ _) as [[n es] w'] eqn:E.
  vm_compute in E. injection E as <- <- <-. destruct H as (evs & l' & E & _ & HF).
  exists evs, (l', Kernel 0 {[4 := 1]} ∅). split; [exact E|].
  change (filter _ _) with [PollFd 4 8197 1] in HF.
  inversion HF as [|e r ? evs' (ud & Hr & ->) HF']. inversion HF'.
  assert (E4 : registry demo_table !! 4 = Some (8197, 40)) by (vm_compute; reflexivity).
  change (registry demo_table !! 4 = Some (8197, ud)) in Hr. rewrite E4 in Hr. by injection Hr as <-.
Defined.

Lemma epoll_loop_refines_witness :
  exists s', Epoll_Add (St := rstatus) 7 70 3 (MkEpoll 3 16 9, Kernel 0 ∅ ∅) = Ret OkStatus s' /\
             watched s' = {[7 := (8197, 70)]}.
Proof.
  destruct (epoll_loop_refines (St := rstatus) (MkEpoll 3 16 9, Kernel 0 ∅ ∅) 0) as (Ha & _).
  destruct (Ha 7 70 3) as (st & s' & E & _ & Hw). vm_compute in E. injection E as <- <-.
  eexists. split; [reflexivity|exact Hw].
Defined.

(** The indices of a compaction are never dropped: the second [Compact]
    reuses the entry of descriptor 5, which stays registered and is no longer
    polled. *)
Lemma second_compact_drops_entry :
  let l := Compact demo_table in
  map pfd (in_use l) = [5; 4] /\ map pfd (in_use (Compact l)) = [4] /\
  registry (Compact l) !! 5 = Some (8197, 51).
Proof. vm_compute. done. Qed.
End Witnesses.
