(* ===== verification/Selectable.v ===== *)
(** * Objects with a file descriptor ([whisperlib/net/selectable.h], [selectable.cc])

    The reads and writes of a [Selectable] on its descriptor [GetFd()], and its
    link to a selector.  [StreamLaws] says what the kernel promises for a
    non-blocking stream. *)

From S2P Require Import Prelude Status Errno CordIo Posix SelectorLoop.

(** ** [Selectable] *)

(** A pointer to a [Selectable] or a [Selector] is a number; 0 is null. *)
Abbreviation ptr := Z (only parsing).

Definition kInvalidFdValue : Z := -1.

Record Selectable := MkSelectable { selector_ : ptr; desire_ : Z }.

(** [Selectable()] and [Selectable(selector)]. *)
Definition Selectable_ctor (selector : ptr) : Selectable :=
  MkSelectable selector (Z.lor kWantRead kWantError).

Definition selector : M Selectable ptr := gets selector_.
Definition set_selector (value : ptr) : M Selectable unit :=
  s <- get ;;
  check (bool_decide (selector_ s = 0) || bool_decide (value = 0)) "selector_ == nullptr || value == nullptr" ;;
  put (MkSelectable value (desire_ s)).

Section IO.
Context {W Cord St : Type} `{!HasErrno W} `{!PosixFile W} `{!CordApi Cord} `{!Absl St} `{!Strerror}.

(** The system calls run on the world alone; [fd] is [GetFd()]. *)
Definition call {A} (f : W -> A * W) : M W A := fun w => let '(a, w) := f w in Ret a w.
Definition fail_error {A} (error : Z) (text : str) : M W (StatusOr St A) :=
  fun w => Ret (return_errno (sys_errno w) error text) w.

Definition Write (fd : Z) (buffer : str) (size : Z) : M W (StatusOr St Z) :=
  cb <- call (sys_write fd buffer size) ;;
  if decide (0 <= cb) then ret (Value cb)
  else
    write_error <- gets sys_errno ;;
    if IsUnavailableAndShouldRetry write_error then ret (Value 0)
    else fail_error write_error
      ("Writing data to file descriptor: " ++ StrInt fd ++ " size: " ++ StrInt size).

(** The buffer comes back with the count. *)
Definition Read (fd : Z) (buffer : str) (size : Z) : M W (StatusOr St (Z * str)) :=
  '(cb, data) <- call (sys_read fd size) ;;
  if decide (0 <= cb) then ret (Value (cb, data ++ drop (length data) buffer))
  else
    read_error <- gets sys_errno ;;
    if IsUnavailableAndShouldRetry read_error then ret (Value (0, buffer))
    else fail_error read_error
      ("Reading data to file descriptor: " ++ StrInt fd ++ " size: " ++ StrInt size).

(** The cord comes back with the count. *)
Definition ReadToCord (fd : Z) (cord : Cord) (len : Z) : M W (StatusOr St (Z * Cord)) :=
  let buffer := replicate (Z.to_nat len) "000"%char in
  ASSIGN_OR_RETURN (Read fd buffer len) []
    (fun '(cb, buffer) =>
       if decide (cb = 0) then ret (Value (0, cord))
       else ret (Value (cb, cord_Append cord (take (Z.to_nat cb) buffer)))).

(** The loop of [WriteCord] over the remaining chunks. *)
Fixpoint write_chunks (fd : Z) (chunks : list str) (size_to_write cb : Z) : M W (StatusOr St Z) :=
  match chunks with
  | [] => ret (Value cb)
  | chunk :: chunks =>
      let chunk := cut_chunk chunk cb size_to_write in
      ASSIGN_OR_RETURN (Write fd chunk (zlen chunk)) "Writing cord chunk in file."
        (fun crt_cb =>
           let cb := u64 (cb + crt_cb) in
           if decide (size_to_write <= cb \/ cb = 0) then ret (Value cb)
           else write_chunks fd chunks size_to_write cb)
  end.

Definition WriteCord (fd : Z) (cord : Cord) (size : option Z) : M W (StatusOr St Z) :=
  if decide (cord_size cord = 0) then ret (Value 0)
  else
    let size_to_write := SizeToWrite cord size in
    write_chunks fd (Chunks cord) size_to_write 0.

(** The count given to [writev] is the number of bytes. *)
Definition WriteCordVec (fd : Z) (cord : Cord) (size : option Z) : M W (StatusOr St Z) :=
  if decide (cord_size cord = 0) then ret (Value 0)
  else
    let size_to_write := SizeToWrite cord size in
    let io_vec_pair := ToIovec cord size_to_write in
    cb <- call (sys_writev fd io_vec_pair.1 io_vec_pair.2) ;;
    if decide (cb < 0) then
      write_error <- gets sys_errno ;;
      if IsUnavailableAndShouldRetry write_error then ret (Value 0)
      else
        error <- gets sys_errno ;;
        fail_error error
          ("Writing data to file descriptor with writeev: " ++ StrInt fd
           ++ " size: " ++ StrInt size_to_write)
    else ret (Value cb).
End IO.

(** ** What the kernel promises for a stream

    The bytes accepted from the program so far, and those that it has not read
    yet. *)
Class Stream (W : Type) := {
  outgoing : W -> Z -> str;
  incoming : W -> Z -> str
}.

Class StreamLaws (W : Type) `{!PosixFile W} `{!Stream W} : Prop := {
  stream_write fd data w : let '(r, w') := sys_write fd data (zlen data) w in
    (forall x, incoming w' x = incoming w x) /\ (forall x, x <> fd -> outgoing w' x = outgoing w x) /\
    ((r = -1 /\ outgoing w' fd = outgoing w fd) \/
     (0 <= r <= zlen data /\ outgoing w' fd = outgoing w fd ++ take (Z.to_nat r) data));
  stream_read fd n w : 0 <= n -> let '((r, data), w') := sys_read fd n w in
    (forall x, outgoing w' x = outgoing w x) /\ (forall x, x <> fd -> incoming w' x = incoming w x) /\
    ((r = -1 /\ incoming w' fd = incoming w fd) \/
     (0 <= r <= n /\ r = zlen data /\ incoming w fd = data ++ incoming w' fd));
  (* the count is the number of elements of the array *)
  stream_writev fd iov w : let '(r, w') := sys_writev fd iov (zlen iov) w in
    (forall x, incoming w' x = incoming w x) /\ (forall x, x <> fd -> outgoing w' x = outgoing w x) /\
    ((r = -1 /\ outgoing w' fd = outgoing w fd) \/
     (0 <= r <= zlen (concat iov) /\ outgoing w' fd = outgoing w fd ++ take (Z.to_nat r) (concat iov)))
}.

Section Correct.
Context {W Cord St : Type} `{!HasErrno W} `{!PosixFile W} `{!Stream W} `{HW : !StreamLaws W}.
Context `{!CordApi Cord} `{HC : !CordLaws Cord} `{HA : !Absl St} `{HL : !AbslLaws St} `{!Strerror}.
Implicit Types w : W.

(** Nothing changed but what was sent on [fd]. *)
Definition sent (fd : Z) (data : str) (w w' : W) : Prop :=
  outgoing w' fd = outgoing w fd ++ data /\ (forall x, incoming w' x = incoming w x) /\
  (forall x, x <> fd -> outgoing w' x = outgoing w x).

Lemma sent_trans fd d1 d2 w1 w2 w3 : sent fd d1 w1 w2 -> sent fd d2 w2 w3 -> sent fd (d1 ++ d2) w1 w3.
Proof.
  intros (E1 & E2 & E3) (F1 & F2 & F3). split_and!.
  - by rewrite F1, E1, app_assoc.
  - intros x. by rewrite F2.
  - intros x Hx. by rewrite F3, E3.
Qed.

(** Each write is counted; a write that would block counts nothing, an error
    sends nothing. *)
Lemma Write_spec fd data w :
  returns (Write (St := St) fd data (zlen data)) w (fun r w' =>
    match r with
    | Value cb => 0 <= cb <= zlen data /\ sent fd (take (Z.to_nat cb) data) w w'
    | Error st => Status.ok st = false /\ sent fd [] w w'
    end).
Proof.
  unfold Write, call, gets. pose proof (stream_write fd data w) as HS.
  unfold returns, bind. destruct (sys_write fd data (zlen data) w) as [r w'].
  destruct HS as (Hi & Ho & [[-> Hr]|[Hle Hr]]).
  - rewrite decide_False by lia.
    assert (Hs : sent fd [] w w') by (split_and!; [by rewrite Hr, app_nil_r|done|done]).
    destruct (IsUnavailableAndShouldRetry _); eexists _, _; (split; [done|]); cbn beta iota.
    + pose proof (zlen_nonneg data). split; [lia|done].
    + split; [|done]. apply (ok_return_errno (sys_errno w') (sys_errno w')).
  - rewrite decide_True by lia. eexists _, _. split; [done|]. split; [lia|]. by split_and!.
Qed.

(** The pieces sent of consecutive chunks: a beginning of each. *)
Definition pieces (parts chunks : list str) : Prop :=
  Forall2 prefix parts (take (length parts) chunks).

(** When only the last piece is short, the pieces are a beginning of the data. *)
Lemma pieces_prefix parts chunks :
  pieces parts chunks ->
  (forall i p, S i < length parts -> parts !! i = Some p -> chunks !! i = Some p)%nat ->
  concat parts `prefix_of` concat chunks.
Proof.
  revert chunks. induction parts as [|p parts IH]; intros chunks Hp Hf; [apply prefix_nil|].
  destruct chunks as [|c chunks]; [inversion Hp|]. inversion_clear Hp as [|? ? ? ? Hc Hp']. simpl.
  destruct parts as [|q parts].
  - simpl. rewrite app_nil_r. by apply prefix_app_r.
  - specialize (Hf 0%nat p) as H0. simpl in H0. injection (H0 ltac:(lia) eq_refl) as ->.
    apply prefix_app, IH; [done|]. intros i x Hi Hx. by apply (Hf (S i)); [simpl in *; lia|].
Qed.

Lemma send_chunks_spec fd chunks n cb w :
  0 <= cb <= n -> n <= size_max -> cb + zlen (concat chunks) <= size_max ->
  returns (write_chunks (St := St) fd chunks n cb) w (fun r w' =>
    exists parts, sent fd (concat parts) w w' /\ pieces parts chunks /\
      match r with
      | Value c => c = cb + zlen (concat parts) /\ c <= n
      | Error st => Status.ok st = false
      end).
Proof.
  revert cb w. induction chunks as [|chunk chunks IH]; intros cb w Hcb Hn Hm.
  { apply returns_ret. exists []. split; [split_and!; [by rewrite app_nil_r|done..]|].
    split; [by apply Forall2_nil|]. change (zlen (concat [])) with 0. lia. }
  cbn [write_chunks concat] in *. rewrite zlen_app in Hm.
  pose proof (zlen_nonneg chunk). pose proof (zlen_nonneg (concat chunks)).
  rewrite cut_chunk_spec by lia. set (t := take (Z.to_nat (n - cb)) chunk).
  assert (Ht : zlen t = Z.min (n - cb) (zlen chunk)) by (unfold t, zlen in *; rewrite length_take; lia).
  assert (Hpre : forall k, take k t `prefix_of` chunk).
  { intros k. unfold t. trans (take (Z.to_nat (n - cb)) chunk); apply prefix_take. }
  eapply returns_assign; [apply Write_spec| |].
  - intros k w' [Hk Hs]. assert (Hz : zlen (take (Z.to_nat k) t) = k)
      by (unfold zlen in *; rewrite length_take; lia).
    rewrite u64_id by (unfold size_max in *; lia). case_decide as Hd.
    + apply returns_ret. exists [take (Z.to_nat k) t]. simpl. rewrite app_nil_r, Hz.
      split_and!; [done..| |done|lia]. by repeat constructor.
    + eapply returns_mono; [apply IH; lia|]. intros r w'' (parts & Hs' & Hp & Hr).
      exists (take (Z.to_nat k) t :: parts). simpl. rewrite zlen_app, Hz.
      split_and!; [by eapply sent_trans|by constructor|]. destruct r; [lia|done].
  - intros st w' st' [Ho Hs] Hc. exists []. split; [done|]. split; [by apply Forall2_nil|].
    change (Status.ok st' = false). unfold Status.ok. by rewrite Hc.
Qed.

Lemma SizeToWrite_bounds (cord : Cord) (size : option Z) :
  (forall n, size = Some n -> 0 <= n) -> 0 <= SizeToWrite cord size <= cord_size cord.
Proof.
  intros Hs. rewrite !cord_size_spec. unfold SizeToWrite. rewrite cord_size_spec.
  pose proof (zlen_nonneg (cord_bytes cord)). destruct size as [n|]; [|lia].
  specialize (Hs n eq_refl). case_decide; lia.
Qed.

Lemma send_cord_spec fd (cord : Cord) (size : option Z) w :
  (forall n, size = Some n -> 0 <= n) ->
  returns (WriteCord (St := St) fd cord size) w (fun r w' =>
    exists parts, sent fd (concat parts) w w' /\ pieces parts (Chunks cord) /\
      match r with
      | Value cb =>
          cb = zlen (concat parts) /\ cb <= SizeToWrite cord size /\
          ((forall i p, S i < length parts -> parts !! i = Some p -> Chunks cord !! i = Some p)%nat ->
           concat parts = take (Z.to_nat cb) (cord_bytes cord))
      | Error st => Status.ok st = false
      end).
Proof.
  intros Hs. pose proof (SizeToWrite_bounds cord size Hs) as Hb.
  pose proof (cord_size_max cord) as Hm. pose proof (cord_size_spec cord) as Hz. unfold cord_bytes in *.
  assert (Hpre : forall parts, pieces parts (Chunks cord) ->
    (forall i p, S i < length parts -> parts !! i = Some p -> Chunks cord !! i = Some p)%nat ->
    concat parts = take (Z.to_nat (zlen (concat parts))) (concat (Chunks cord))).
  { intros parts Hp Hf. destruct (pieces_prefix _ _ Hp Hf) as [k ->]. unfold zlen.
    by rewrite Nat2Z.id, take_app_length. }
  unfold WriteCord. case_decide as H0.
  - apply returns_ret. exists []. split; [split_and!; [by rewrite app_nil_r|done..]|].
    split; [by apply Forall2_nil|]. split_and!; [done|simpl; lia|done].
  - eapply returns_mono; [apply send_chunks_spec; lia|]. intros r w' (parts & Hsent & Hp & Hr).
    exists parts. split_and!; [done..|]. destruct r as [cb|st]; [|done]. destruct Hr as [-> Hle].
    split_and!; [lia|lia|]. rewrite Z.add_0_l. by apply Hpre.
Qed.

Lemma receive_cord_spec fd (cord : Cord) len w :
  0 <= len -> zlen (cord_bytes cord) + len <= size_max ->
  returns (ReadToCord (St := St) fd cord len) w (fun r w' =>
    (forall x, outgoing w' x = outgoing w x) /\ (forall x, x <> fd -> incoming w' x = incoming w x) /\
    match r with
    | Value (cb, cord') => cb = zlen (incoming w fd) - zlen (incoming w' fd) /\
        cord_bytes cord' ++ incoming w' fd = cord_bytes cord ++ incoming w fd
    | Error st => Status.ok st = false /\ incoming w' fd = incoming w fd
    end).
Proof.
  intros H0 Hlen. unfold ReadToCord. eapply returns_assign with (P := fun r w' =>
    (forall x, outgoing w' x = outgoing w x) /\ (forall x, x <> fd -> incoming w' x = incoming w x) /\
    match r with
    | Value (cb, buffer) => 0 <= cb <= len /\ incoming w fd = take (Z.to_nat cb) buffer ++ incoming w' fd /\
                            zlen (take (Z.to_nat cb) buffer) = cb
    | Error st => Status.ok st = false /\ incoming w' fd = incoming w fd
    end).
  - unfold Read, call, gets, returns, bind. pose proof (stream_read fd len w H0) as HS.
    destruct (sys_read fd len w) as [[r data] w']. destruct HS as (Ho & Hi & [[-> Hr]|(Hle & Hz & Hr)]).
    + rewrite decide_False by lia. destruct (IsUnavailableAndShouldRetry _); eexists _, _;
        (split; [done|]); (split; [done|]); (split; [done|]); cbn beta iota.
      * split_and!; [lia..|done|done].
      * split; [|done]. apply (ok_return_errno (sys_errno w') (sys_errno w')).
    + rewrite decide_True by lia. eexists _, _. split; [done|]. cbn beta iota.
      assert (Et : take (Z.to_nat r) (data ++ drop (length data) (replicate (Z.to_nat len) "000"%char)) = data)
        by (rewrite Hz; unfold zlen; by rewrite Nat2Z.id, take_app_length).
      rewrite Et. split_and!; [done..|lia|lia|done|done].
  - intros [cb buffer] w' (Ho & Hi & Hle & Hr & Hz). case_decide as Hc; apply returns_ret.
    + subst cb. simpl in Hr. split_and!; [done..| |by rewrite Hr]. rewrite Hr. lia.
    + split_and!; [done..| |].
      * rewrite Hr at 1. rewrite zlen_app. lia.
      * rewrite cord_Append_spec by (rewrite zlen_app; lia). rewrite Hr. by rewrite app_assoc.
  - intros st w' st' (Ho & Hi & Hst & Hr) Hc.
    split; [done|]. split; [done|]. split; [|done].
    unfold Status.ok. rewrite Hc. exact Hst.
Qed.

(** [WriteCord] on a non-blocking descriptor reports as written exactly
    the bytes the kernel accepted, at most the size asked for, and changes
    nothing else; they are a beginning of each of the first chunks, hence a
    beginning of the cord when no write but the last one was short.  When
    nothing is accepted (the write would block) the result is zero.
    [ReadToCord] appends to the cord exactly the bytes taken from the
    descriptor; an error takes none. *)
Theorem selectable_io (fd : Z) (cord : Cord) (size : option Z) (len : Z) w
    (Hsize : forall n, size = Some n -> 0 <= n) (Hlen0 : 0 <= len) (Hlen : zlen (cord_bytes cord) + len <= size_max) :
  returns (WriteCord (St := St) fd cord size) w (fun r w' =>
    exists parts, sent fd (concat parts) w w' /\ pieces parts (Chunks cord) /\
      match r with
      | Value cb =>
          cb = zlen (concat parts) /\ cb <= SizeToWrite cord size /\
          ((forall i p, S i < length parts -> parts !! i = Some p -> Chunks cord !! i = Some p)%nat ->
           concat parts = take (Z.to_nat cb) (cord_bytes cord))
      | Error st => Status.ok st = false
      end) /\
  returns (ReadToCord (St := St) fd cord len) w (fun r w' =>
    (forall x, outgoing w' x = outgoing w x) /\ (forall x, x <> fd -> incoming w' x = incoming w x) /\
    match r with
    | Value (cb, cord') => cb = zlen (incoming w fd) - zlen (incoming w' fd) /\
        cord_bytes cord' ++ incoming w' fd = cord_bytes cord ++ incoming w fd
    | Error st => Status.ok st = false /\ incoming w' fd = incoming w fd
    end).
Proof. split; [by apply send_cord_spec|by apply receive_cord_spec]. Qed.
End Correct.

(** ** A small stream kernel

    [k_room] is how much each next write accepts: -1 for a full buffer. *)
Module SimStream.
Record kernel := Kernel { k_errno : Z; k_room : list Z; k_out : gmap Z str; k_in : gmap Z str }.

#[export] Instance kernel_errno : HasErrno kernel := k_errno.
#[export] Instance kernel_stream : Stream kernel := {
  outgoing w fd := default [] (k_out w !! fd);
  incoming w fd := default [] (k_in w !! fd)
}.

(** The next write accepts at most [n] bytes of [data]. *)
Definition send (fd : Z) (data : str) (w : kernel) : Z * kernel :=
  let n := match k_room w with [] => zlen data | r :: _ => Z.min r (zlen data) end in
  if decide (n < 0) then (-1, Kernel EAGAIN (tail (k_room w)) (k_out w) (k_in w))
  else (n, Kernel (k_errno w) (tail (k_room w)) (<[fd:=outgoing w fd ++ take (Z.to_nat n) data]> (k_out w)) (k_in w)).
Definition receive (fd n : Z) (w : kernel) : (Z * str) * kernel :=
  match incoming w fd with
  | [] => ((-1, []), Kernel EAGAIN (k_room w) (k_out w) (k_in w))
  | data =>
      let got := take (Z.to_nat n) data in
      ((zlen got, got), Kernel (k_errno w) (k_room w) (k_out w) (<[fd:=drop (Z.to_nat n) data]> (k_in w)))
  end.

#[export] Instance kernel_file : PosixFile kernel := {
  sys_open _ _ _ w := (-1, w); sys_close _ w := (0, w); sys_fstat _ w := ((-1, 0), w);
  sys_lseek _ _ _ w := (-1, w); sys_ftruncate _ _ w := (-1, w);
  sys_read fd n w := receive fd n w;
  sys_write fd data n w := send fd (take (Z.to_nat n) data) w;
  sys_writev fd iov n w := send fd (concat (take (Z.to_nat n) iov)) w;
  sys_fdatasync _ w := (0, w)
}.

Lemma send_spec fd data w : let '(r, w') := send fd data w in
  (forall x, incoming w' x = incoming w x) /\ (forall x, x <> fd -> outgoing w' x = outgoing w x) /\
  ((r = -1 /\ outgoing w' fd = outgoing w fd) \/
   (0 <= r <= zlen data /\ outgoing w' fd = outgoing w fd ++ take (Z.to_nat r) data)).
Proof.
  unfold send. set (n := match k_room w with [] => _ | _ => _ end).
  assert (Hn : n <= zlen data) by (unfold n; destruct (k_room w); lia).
  case_decide as Hd; (split; [done|]); (split; [|]).
  - done.
  - by left.
  - intros x Hx. simpl. by rewrite lookup_insert_ne.
  - right. split; [lia|]. simpl. by rewrite lookup_insert_eq.
Qed.

#[export] Instance kernel_laws : StreamLaws kernel.
Proof.
  split.
  - intros fd data w. simpl. unfold zlen. rewrite Nat2Z.id, firstn_all. apply send_spec.
  - intros fd n w Hn. simpl. unfold receive. destruct (incoming w fd) as [|c l] eqn:E.
    { split; [done|]. split; [done|]. by left. }
    rewrite <- E. split; [done|]. split.
    + intros x Hx. simpl. by rewrite lookup_insert_ne.
    + right. simpl. rewrite lookup_insert_eq. simpl.
      split_and!; [apply zlen_nonneg| |done|by rewrite take_drop]. unfold zlen. rewrite length_take. lia.
  - intros fd iov w. simpl. unfold zlen at 1. rewrite Nat2Z.id, firstn_all. apply send_spec.
Qed.
End SimStream.

Section Witnesses.
Import RefAbsl RefCord SimStream.

#[local] Instance selectable_strerror : Strerror := fun _ => Xsi 0 "text".

Definition a_cord : cord := ["ab" : str; "cde" : str].

Lemma selectable_io_witness :
  let w := Kernel 0 [2; 1] ∅ ∅ in
  returns (WriteCord (St := rstatus) 7 a_cord None) w (fun r w' =>
    outgoing w' 7 = "abc" /\ match r with Value cb => cb = 3 | Error _ => False end).
Proof.
  intros w.
  assert (Hl : zlen (cord_bytes a_cord) + 1 <= size_max) by (vm_compute; discriminate).
  destruct (selectable_io (St := rstatus) 7 a_cord None 1 w ltac:(done) ltac:(lia) Hl)
    as [(r & w' & E & parts & [Ho _] & Hp & Hr) _].
  exists r, w'. split; [exact E|]. vm_compute in E. injection E as <- <-. done.
Defined.

(** The loop goes on after a short write, so the bytes between the part sent
    of a chunk and the next chunk are skipped. *)
Lemma short_write_skips_bytes :
  match WriteCord (St := rstatus) 7 a_cord None (Kernel 0 [1; 3] ∅ ∅) with
  | Ret (Value cb) w' => cb = 4 /\ outgoing w' 7 = "acde"
  | _ => False
  end.
Proof. vm_compute. done. Qed.

(** The count passed to [writev] is the number of bytes, not of elements. *)
Lemma writev_count_is_bytes :
  (ToIovec a_cord (SizeToWrite a_cord None)) = (["ab" : str; "cde" : str], 5).
Proof. reflexivity. Qed.
End Witnesses.
