(* ===== verification/Selector.v ===== *)
(** * The selector ([whisperlib/net/selector.h], [whisperlib/net/selector.cc])

    One thread runs [Loop]: it waits for events, dispatches them to the
    registered objects, then runs the callbacks queued by any thread
    ([Callbacks]) and the alarms that are due ([Alarms]).  The code that
    callbacks and virtual handlers run is the class [Program]; the event loop
    is the interface [EventLoop], implemented by both loops of SelectorLoop.v. *)

From stdpp Require Import sorting.
From S2P Require Import Prelude Status Errno Posix SelectorLoop Selectable.

Definition selector_cc : str := "whisperlib/net/selector.cc".

(** ** Times: nanoseconds since the epoch *)

Definition int64_max : Z := 2 ^ 63 - 1.
Definition int64_min : Z := - 2 ^ 63.

(** [absl::ToUnixNanos] of a finite time, and of the two infinities. *)
Definition ToUnixNanos (t : Z) : Z := Z.max int64_min (Z.min t int64_max).
Definition InfiniteFuture_nanos : Z := int64_max.
Definition InfinitePast_nanos : Z := int64_min.

(** ** The queue of callbacks: [to_run_] and [have_to_run_] *)

Section Callbacks.
Context {Fn : Type}.

Record Callbacks := MkCallbacks { to_run_ : list Fn; have_to_run_ : bool }.

Definition no_callbacks : Callbacks := MkCallbacks [] false.

(** The critical section of [RunInSelectLoop]. *)
Definition enqueue (callback : Fn) (q : Callbacks) : Callbacks :=
  MkCallbacks (to_run_ q ++ [callback]) true.

(** The loop of [PopCallbacks] moves one callback at a time. *)
Fixpoint pop_loop (max_num_to_run : nat) (to_run queue : list Fn) : list Fn * list Fn :=
  match max_num_to_run, queue with
  | S max_num_to_run, callback :: queue => pop_loop max_num_to_run (to_run ++ [callback]) queue
  | _, _ => (to_run, queue)
  end.

Definition pop_callbacks (max_num_to_run : Z) (q : Callbacks) : list Fn * Callbacks :=
  if negb (have_to_run_ q) then ([], q)
  else
    let '(to_run, queue) := pop_loop (Z.to_nat max_num_to_run) [] (to_run_ q) in
    (to_run, MkCallbacks queue (match queue with [] => false | _ => true end)).

(** [PrependCallbacks]: the last callback goes in front first. *)
Definition prepend_callbacks (to_run : list Fn) (q : Callbacks) : Callbacks :=
  match to_run with
  | [] => q
  | _ => MkCallbacks (foldr cons (to_run_ q) to_run) true
  end.

(** The flag tells whether there is something in the queue. *)
Definition flag_ok (q : Callbacks) : Prop := have_to_run_ q = true <-> to_run_ q <> [].

Lemma pop_loop_spec n acc queue : pop_loop n acc queue = (acc ++ take n queue, drop n queue).
Proof.
  revert acc queue. induction n as [|n IH]; intros acc [|c queue]; simpl; rewrite ?app_nil_r; try done.
  by rewrite IH, <- app_assoc.
Qed.

Lemma pop_callbacks_spec n q :
  flag_ok q ->
  pop_callbacks n q = (take (Z.to_nat n) (to_run_ q),
    MkCallbacks (drop (Z.to_nat n) (to_run_ q))
      (match drop (Z.to_nat n) (to_run_ q) with [] => false | _ => true end)).
Proof.
  intros Hf. unfold pop_callbacks. destruct (have_to_run_ q) eqn:E; simpl.
  - by rewrite pop_loop_spec.
  - destruct (to_run_ q) eqn:Eq; [|assert (have_to_run_ q = true) by (apply Hf; by rewrite Eq); congruence].
    rewrite take_nil, drop_nil. destruct q; simpl in *. by subst.
Qed.

Lemma enqueue_flag cb q : flag_ok (enqueue cb q).
Proof. split; [|done]. intros _. simpl. by destruct (to_run_ q). Qed.

Lemma pop_flag n q : flag_ok q -> flag_ok (pop_callbacks n q).2.
Proof. intros Hf. rewrite pop_callbacks_spec by done. unfold flag_ok. simpl. by destruct (drop _ _). Qed.

(** Nothing is lost or reordered between the two. *)
Lemma pop_prepend n q :
  flag_ok q -> prepend_callbacks (pop_callbacks n q).1 (pop_callbacks n q).2 = q.
Proof.
  intros Hf. rewrite pop_callbacks_spec by done. simpl.
  assert (E : to_run_ q = take (Z.to_nat n) (to_run_ q) ++ drop (Z.to_nat n) (to_run_ q))
    by (by rewrite take_drop).
  assert (Hcons : forall l k : list Fn, foldr cons k l = l ++ k) by (intros l k; induction l; by f_equal/=).
  unfold prepend_callbacks. destruct q as [queue have]. simpl in *. rewrite Hcons. simpl.
  destruct (take _ queue) as [|c l] eqn:Et.
  - simpl in E. rewrite <- E. f_equal. unfold flag_ok in Hf. simpl in Hf.
    destruct queue, have; naive_solver.
  - simpl in *. rewrite <- E. f_equal. unfold flag_ok in Hf. simpl in Hf.
    destruct have; [done|]. destruct queue; [done|]. naive_solver.
Qed.
End Callbacks.
Arguments Callbacks : clear implicits.

(** ** Alarms: the heap of deadlines and the map of callbacks

    [std::push_heap] and [std::pop_heap] as the C++ standard describes them:
    the top of the heap is its first element, and [pop_heap] moves it to the
    end of the range. *)

Class HeapApi := {
  push_heap : list (Z * Z) -> list (Z * Z);
  pop_heap : list (Z * Z) -> list (Z * Z)
}.

(** [CompareAlarms]: the earliest deadline is the largest element. *)
Definition CompareAlarms (a b : Z * Z) : bool := b.1 <? a.1.

Class HeapLaws `{!HeapApi} := {
  is_heap : list (Z * Z) -> Prop;
  is_heap_nil : is_heap [];
  is_heap_top a l : is_heap (a :: l) -> Forall (fun b => CompareAlarms a b = false) l;
  push_heap_spec l a : is_heap l -> is_heap (push_heap (l ++ [a])) /\ push_heap (l ++ [a]) ≡ₚ l ++ [a];
  pop_heap_spec a l : is_heap (a :: l) -> exists r, pop_heap (a :: l) = r ++ [a] /\ is_heap r /\ r ≡ₚ l
}.

(** Sorted vectors are heaps. *)
Module SortedHeap.

Fixpoint insert_alarm (a : Z * Z) (l : list (Z * Z)) : list (Z * Z) :=
  match l with
  | [] => [a]
  | b :: l' => if a.1 <? b.1 then a :: l else b :: insert_alarm a l'
  end.

#[export] Instance sorted_heap : HeapApi := {
  push_heap l := match unsnoc l with Some (r, a) => insert_alarm a r | None => l end;
  pop_heap l := match l with a :: r => r ++ [a] | [] => [] end
}.

Definition sorted (l : list (Z * Z)) : Prop := StronglySorted (fun a b => a.1 <= b.1) l.

Lemma insert_perm a l : insert_alarm a l ≡ₚ l ++ [a].
Proof.
  induction l as [|b l IH]; simpl; [done|]. case_match; [|by rewrite IH].
  apply (Permutation_cons_append (b :: l)).
Qed.

Lemma insert_sorted a l : sorted l -> sorted (insert_alarm a l).
Proof.
  induction l as [|b l IH]; intros Hl; simpl; [by repeat constructor|].
  destruct (a.1 <? b.1) eqn:E.
  - apply Z.ltb_lt in E. apply StronglySorted_inv in Hl as Hl'. destruct Hl' as [_ Hb].
    constructor; [done|]. constructor; [lia|]. eapply Forall_impl; [exact Hb|]. simpl. lia.
  - apply Z.ltb_ge in E. apply StronglySorted_inv in Hl as [Hl Hb]. constructor; [by apply IH|].
    rewrite (insert_perm a l). apply Forall_app. split; [done|]. by constructor.
Qed.

#[export, refine] Instance sorted_heap_laws : HeapLaws := { is_heap := sorted }.
Proof.
  - constructor.
  - intros a l Hl. apply StronglySorted_inv in Hl as [_ Hl]. eapply Forall_impl; [exact Hl|].
    intros b Hb. unfold CompareAlarms. simpl in Hb. apply Z.ltb_ge. lia.
  - intros l a Hl. simpl. rewrite unsnoc_app. split; [by apply insert_sorted|apply insert_perm].
  - intros a l Hl. exists l. apply StronglySorted_inv in Hl as [Hl _]. done.
Qed.
End SortedHeap.

Section Alarms.
Context {Fn : Type} `{!HeapApi}.

Record Alarms := MkAlarms {
  alarm_id_ : Z;
  alarms_ : gmap Z Fn;
  alarm_timeouts_ : list (Z * Z);
  next_alarm_time_ : Z;
  num_registered_alarms_ : Z
}.

Definition no_alarms : Alarms := MkAlarms 0 ∅ [] InfiniteFuture_nanos 0.

(** [alarm_timeouts_.back()] *)
Definition back (l : list (Z * Z)) : option (Z * Z) := last l.

(** The critical section of [RegisterAlarm]. *)
Definition register_alarm (callback : Fn) (deadline : Z) (a : Alarms) : Z * Alarms :=
  let alarm_id := alarm_id_ a in
  let alarms := match alarms_ a !! alarm_id with
                | Some _ => alarms_ a
                | None => <[alarm_id:=callback]> (alarms_ a)
                end in
  let timeouts := push_heap (alarm_timeouts_ a ++ [(deadline, alarm_id)]) in
  let next := match back timeouts with Some (t, _) => ToUnixNanos t | None => next_alarm_time_ a end in
  (alarm_id, MkAlarms (u64 (alarm_id + 1)) alarms timeouts next (Z.of_nat (size alarms))).

(** [UnregisterAlarm] *)
Definition unregister_alarm (alarm_id : Z) (a : Alarms) : Alarms :=
  let alarms := delete alarm_id (alarms_ a) in
  MkAlarms (alarm_id_ a) alarms (alarm_timeouts_ a) (next_alarm_time_ a) (Z.of_nat (size alarms)).

(** The loop of [LoopAlarms]: [fuel] bounds the number of timeouts removed. *)
Fixpoint due_loop (fuel : nat) (end_alarms : Z) (timeouts : list (Z * Z)) (alarms : gmap Z Fn)
    (to_run : list (Z * Fn)) : option (list (Z * Z) * gmap Z Fn * list (Z * Fn)) :=
  match back timeouts with
  | None => Some (timeouts, alarms, to_run)
  | Some (t, alarm_id) =>
      if negb (t <=? end_alarms) then Some (timeouts, alarms, to_run)
      else
        match fuel with
        | O => None
        | S fuel =>
            let timeouts := removelast (pop_heap timeouts) in
            match alarms !! alarm_id with
            | Some callback =>
                due_loop fuel end_alarms timeouts (delete alarm_id alarms) (to_run ++ [(alarm_id, callback)])
            | None => due_loop fuel end_alarms timeouts alarms to_run
            end
        end
  end.

(** The critical section of [LoopAlarms]; each iteration removes a timeout. *)
Definition due_alarms (end_alarms : Z) (a : Alarms) : option (list (Z * Fn) * Alarms) :=
  '(timeouts, alarms, to_run) ← due_loop (length (alarm_timeouts_ a)) end_alarms (alarm_timeouts_ a) (alarms_ a) [];
  let next := match back timeouts with Some (t, _) => ToUnixNanos t | None => InfinitePast_nanos end in
  Some (to_run, MkAlarms (alarm_id_ a) alarms timeouts next (Z.of_nat (size alarms))).
End Alarms.
Arguments Alarms : clear implicits.

(** *** The alarms against their contract *)

Section AlarmContract.
Context {Fn : Type} `{!HeapApi} `{HH : !HeapLaws}.
Implicit Types a : Alarms Fn.

(** What callers see: the alarms that are pending, with their deadlines. *)
Abbreviation pending := (gmap Z (Z * Fn)).

Inductive alarm_event : Type :=
| Registered (alarm_id : Z) (callback : Fn) (deadline : Z)
| Unregistered (alarm_id : Z)
| Fired (now : Z) (run : list (Z * Fn)).

Definition alarm_step (a : Alarms Fn) (e : alarm_event) (a' : Alarms Fn) : Prop :=
  match e with
  | Registered id cb t => register_alarm cb t a = (id, a')
  | Unregistered id => a' = unregister_alarm id a
  | Fired now run => due_alarms now a = Some (run, a')
  end.

(** The contract of one event: identifiers are new; a firing runs alarms that
    are pending and due, each once, and they are no longer pending. *)
Definition contract (p : pending) (e : alarm_event) (p' : pending) : Prop :=
  match e with
  | Registered id cb t => p !! id = None /\ p' = <[id:=(t, cb)]> p
  | Unregistered id => p' = delete id p
  | Fired now run =>
      NoDup run.*1 /\ (forall id cb, (id, cb) ∈ run -> exists t, p !! id = Some (t, cb) /\ t <= now) /\
      p' = foldr delete p run.*1
  end.

(** The concrete alarms behind [p]: a timeout in the heap is that of its
    alarm, if still pending. *)
Record alarms_for (p : pending) a : Prop := {
  af_map : alarms_ a = snd <$> p;
  af_ids id : is_Some (p !! id) -> 0 <= id < alarm_id_ a;
  af_heap : is_heap (alarm_timeouts_ a);
  af_times t id : (t, id) ∈ alarm_timeouts_ a -> id < alarm_id_ a /\ (forall tc, p !! id = Some tc -> tc.1 = t);
  af_num : num_registered_alarms_ a = Z.of_nat (size p);
  af_next : 0 <= alarm_id_ a
}.

Lemma no_alarms_for : alarms_for ∅ no_alarms.
Proof.
  split; simpl; [by rewrite fmap_empty| |apply is_heap_nil| |done|done].
  - intros id [x Hx]. by rewrite lookup_empty in Hx.
  - intros t id Hin. by apply not_elem_of_nil in Hin.
Qed.

Lemma size_snd (p : pending) : size (snd <$> p) = size p.
Proof. apply map_size_fmap. Qed.

(** Popping a heap removes its earliest timeout. *)
Lemma removelast_pop l x : is_heap l -> back l = Some x ->
  is_heap (removelast (pop_heap l)) /\ (forall y, y ∈ removelast (pop_heap l) -> y ∈ l) /\
  length l = S (length (removelast (pop_heap l))).
Proof.
  intros Hl Hb. destruct l as [|b l]; [done|]. destruct (pop_heap_spec b l Hl) as (r & -> & Hr & Hp).
  rewrite removelast_last. split_and!; [done| |].
  - intros y Hy. rewrite Hp in Hy. by right.
  - by rewrite Hp.
Qed.

Lemma foldr_delete_commute (p : pending) id ids :
  foldr delete (delete id p) ids = delete id (foldr delete p ids).
Proof. induction ids as [|j ids IH]; simpl; [done|]. by rewrite IH, delete_delete. Qed.

Lemma foldr_delete_sub (p : pending) ids id x : foldr delete p ids !! id = Some x -> p !! id = Some x.
Proof.
  induction ids as [|j ids IH]; simpl; [done|]. intros Hx. by apply IH, (lookup_delete_Some _ j _ _).
Qed.

(** The loop ends, and what it runs is due. *)
Lemma due_loop_spec fuel now p timeouts (acc : list (Z * Fn)) :
  is_heap timeouts -> (length timeouts <= fuel)%nat ->
  (forall t id, (t, id) ∈ timeouts -> forall tc, p !! id = Some tc -> tc.1 = t) ->
  exists timeouts' run,
    due_loop fuel now timeouts (snd <$> p) acc = Some (timeouts', snd <$> foldr delete p run.*1, acc ++ run) /\
    is_heap timeouts' /\ (forall x, x ∈ timeouts' -> x ∈ timeouts) /\
    (forall t id, back timeouts' = Some (t, id) -> now < t) /\
    NoDup run.*1 /\ (forall id cb, (id, cb) ∈ run -> exists t, p !! id = Some (t, cb) /\ t <= now).
Proof.
  revert p timeouts acc. induction fuel as [|fuel IH]; intros p timeouts acc Hh Hlen Ht.
  - destruct timeouts; [|simpl in Hlen; lia]. exists [], []. simpl.
    split_and!; rewrite ?app_nil_r; try done; [constructor|set_solver].
  - cbn [due_loop]. destruct (back timeouts) as [[t id]|] eqn:Eb.
    2:{ exists timeouts, []. simpl. rewrite app_nil_r. split_and!; try done; [by rewrite Eb|constructor|set_solver]. }
    destruct (t <=? now) eqn:Et; simpl.
    2:{ exists timeouts, []. simpl. rewrite app_nil_r. apply Z.leb_gt in Et.
        split_and!; try done; [|constructor|set_solver]. intros ?? E. rewrite E in Eb. by simplify_eq. }
    destruct (removelast_pop timeouts _ Hh Eb) as (Hh' & Hin & Hl). apply Z.leb_le in Et.
    rewrite lookup_fmap. destruct (p !! id) as [[t' cb]|] eqn:Ep; simpl.
    + assert (Hin_b : (t, id) ∈ timeouts) by (apply last_Some_elem_of; exact Eb).
      pose proof (Ht t id Hin_b _ Ep) as Htt. simpl in Htt. subst t'.
      destruct (IH (delete id p) (removelast (pop_heap timeouts)) (acc ++ [(id, cb)]))
        as (timeouts' & run & E & Hr & Hs & Hb & Hnd & Hrun); [done|lia| |].
      { intros t' id' Hi tc Htc. apply lookup_delete_Some in Htc as [_ Htc]. eauto. }
      exists timeouts', ((id, cb) :: run). rewrite <- fmap_delete, E. simpl.
      rewrite <- app_assoc, foldr_delete_commute. split_and!; [done..|auto|done| |].
      * apply NoDup_cons. split; [|done]. intros Hi. apply list_elem_of_fmap in Hi as ([id' cb'] & -> & Hi).
        destruct (Hrun _ _ Hi) as (t' & Htc & _). by rewrite lookup_delete_eq in Htc.
      * intros id' cb' Hi. apply elem_of_cons in Hi as [Hi|Hi]; [simplify_eq; eauto|].
        destruct (Hrun _ _ Hi) as (t' & Htc & ?). apply lookup_delete_Some in Htc as [_ Htc]. eauto.
    + destruct (IH p (removelast (pop_heap timeouts)) acc)
        as (timeouts' & run & E & Hr & Hs & Hrest); [done|lia|eauto|].
      exists timeouts', run. rewrite E. split_and!; [done..|auto| | |]; apply Hrest.
Qed.

Lemma due_alarms_for now p a :
  alarms_for p a ->
  exists run a', due_alarms now a = Some (run, a') /\ alarm_id_ a' = alarm_id_ a /\
    contract p (Fired now run) (foldr delete p run.*1) /\ alarms_for (foldr delete p run.*1) a'.
Proof.
  intros [Hm Hid Hh Ht Hn H0].
  destruct (due_loop_spec (length (alarm_timeouts_ a)) now p (alarm_timeouts_ a) [] Hh)
    as (timeouts & run & E & Hh' & Hs & Hb & Hnd & Hrun); [done| |].
  { intros t id Hi. by apply Ht. }
  assert (Hsub := foldr_delete_sub p run.*1).
  unfold due_alarms. rewrite Hm, E. simpl. eexists run, _. split; [done|]. split; [done|].
  split; [done|]. split; simpl; [done| |done| |by rewrite size_snd|done].
  - intros id [x Hx]. apply Hid. eauto.
  - intros t id Hi. destruct (Ht t id (Hs _ Hi)). split; [done|]. eauto.
Qed.

Lemma register_alarm_for cb t p a :
  alarms_for p a -> alarm_id_ a < 2 ^ 64 - 1 ->
  let '(id, a') := register_alarm cb t a in
  contract p (Registered id cb t) (<[id:=(t, cb)]> p) /\ alarms_for (<[id:=(t, cb)]> p) a' /\
  alarm_id_ a' = alarm_id_ a + 1.
Proof.
  intros [Hm Hid Hh Ht Hn H0] Hlt. unfold register_alarm.
  assert (Hnone : p !! alarm_id_ a = None).
  { apply eq_None_not_Some. intros Hx. specialize (Hid _ Hx). lia. }
  rewrite Hm, lookup_fmap, Hnone. simpl.
  destruct (push_heap_spec (alarm_timeouts_ a) (t, alarm_id_ a) Hh) as [Hh' Hp].
  split; [done|]. rewrite u64_id by lia. split; [|done]. split; simpl; [by rewrite fmap_insert| |done| | |lia].
  - intros id [x Hx]. apply lookup_insert_Some in Hx as [[<- _]|[_ Hx]]; [lia|].
    specialize (Hid id ltac:(by eexists)). lia.
  - intros t' id. rewrite Hp, elem_of_app, list_elem_of_singleton. intros [Hi|[= -> ->]].
    + destruct (Ht _ _ Hi) as [Hlt' Hp']. split; [lia|]. intros tc Htc. rewrite lookup_insert_ne in Htc by lia. auto.
    + split; [lia|]. intros tc Htc. rewrite lookup_insert_eq in Htc. by simplify_eq.
  - by rewrite <- (size_snd (<[_:=_]> p)), fmap_insert.
Qed.

Lemma unregister_alarm_for id p a :
  alarms_for p a -> alarms_for (delete id p) (unregister_alarm id a).
Proof.
  intros [Hm Hid Hh Ht Hn H0]. split; simpl; [by rewrite Hm, fmap_delete| |done| | |done].
  - intros i [x Hx]. apply lookup_delete_Some in Hx as [_ Hx]. eauto.
  - intros t i Hi. destruct (Ht _ _ Hi). split; [done|]. intros tc Htc. apply lookup_delete_Some in Htc as [_ Htc]. auto.
  - by rewrite Hm, <- fmap_delete, size_snd.
Qed.

(** *** What every sequence of calls keeps

    The timeouts are a heap, and the functions are all of some kind. *)
Record alarms_ok (good : Fn -> Prop) (a : Alarms Fn) : Prop := {
  ao_heap : is_heap (alarm_timeouts_ a);
  ao_good id f : alarms_ a !! id = Some f -> good f
}.

Lemma no_alarms_ok good : alarms_ok good no_alarms.
Proof. split; [apply is_heap_nil|]. intros id f E. simpl in E. by rewrite lookup_empty in E. Qed.

Lemma register_alarm_ok good f t a : good f -> alarms_ok good a -> alarms_ok good (register_alarm f t a).2.
Proof.
  intros Hf [Hh Hg]. unfold register_alarm. split; simpl; [by apply push_heap_spec|]. intros id g E.
  destruct (alarms_ a !! alarm_id_ a); [by eapply Hg|]. apply lookup_insert_Some in E as [[_ <-]|[_ E]]; [done|by eapply Hg].
Qed.

Lemma unregister_alarm_ok good id a : alarms_ok good a -> alarms_ok good (unregister_alarm id a).
Proof. intros [Hh Hg]. split; [done|]. intros i f E. simpl in E. apply lookup_delete_Some in E as [_ E]. by eapply Hg. Qed.

Lemma due_loop_ok good fuel now timeouts (m : gmap Z Fn) (acc : list (Z * Fn)) :
  is_heap timeouts -> (length timeouts <= fuel)%nat -> (forall id f, m !! id = Some f -> good f) -> Forall good acc.*2 ->
  exists timeouts' m' run, due_loop fuel now timeouts m acc = Some (timeouts', m', run) /\ is_heap timeouts' /\
    (forall id f, m' !! id = Some f -> good f) /\ Forall good run.*2.
Proof.
  revert timeouts m acc. induction fuel as [|fuel IH]; intros timeouts m acc Hh Hl Hm Hacc.
  - destruct timeouts; [|simpl in Hl; lia]. by eexists _, _, _.
  - cbn [due_loop]. destruct (back timeouts) as [[t id]|] eqn:Eb; [|by eexists _, _, _].
    destruct (t <=? now); cbn [negb]; [|by eexists _, _, _]. destruct (removelast_pop timeouts _ Hh Eb) as (Hh' & _ & Hlen).
    destruct (m !! id) as [f|] eqn:Em; apply IH; try done; try lia.
    + intros i g E. apply lookup_delete_Some in E as [_ E]. by eapply Hm.
    + rewrite fmap_app. apply Forall_app. split; [done|]. repeat constructor. by eapply Hm.
Qed.

Lemma due_alarms_ok good now a : alarms_ok good a ->
  exists run a', due_alarms now a = Some (run, a') /\ alarms_ok good a' /\ Forall good run.*2.
Proof.
  intros [Hh Hg]. unfold due_alarms.
  destruct (due_loop_ok good (length (alarm_timeouts_ a)) now (alarm_timeouts_ a) (alarms_ a) [] Hh) as (l & m & run & -> & Hl & Hm & Hr);
    [done|done|constructor|]. simpl. eexists _, _. split; [done|]. by split.
Qed.

Inductive alarm_trace (a : Alarms Fn) : list alarm_event -> Alarms Fn -> Prop :=
| trace_nil : alarm_trace a [] a
| trace_cons e es a' a'' : alarm_step a e a' -> alarm_trace a' es a'' -> alarm_trace a (e :: es) a''.

Inductive contract_trace (p : pending) : list alarm_event -> pending -> Prop :=
| contract_nil : contract_trace p [] p
| contract_cons e es p' p'' : contract p e p' -> contract_trace p' es p'' -> contract_trace p (e :: es) p''.

Lemma alarm_step_refines p a e a' :
  alarms_for p a -> alarm_id_ a < 2 ^ 64 - 1 -> alarm_step a e a' ->
  exists p', contract p e p' /\ alarms_for p' a' /\ alarm_id_ a' <= alarm_id_ a + 1.
Proof.
  intros Ha Hlt Hs. destruct e as [id cb t|id|now run]; simpl in Hs.
  - pose proof (register_alarm_for cb t p a Ha Hlt) as HR. rewrite Hs in HR.
    destruct HR as (? & ? & ->). eexists. split; [done|]. split; [done|lia].
  - subst. exists (delete id p). split; [done|]. split; [by apply unregister_alarm_for|]. simpl. lia.
  - destruct (due_alarms_for now p a Ha) as (run' & a'' & E & Hi & Hc & Hf). simplify_eq.
    eexists. split; [done|]. split; [done|]. lia.
Qed.

Lemma alarm_trace_refines p a es a' :
  alarms_for p a -> alarm_id_ a + zlen es < 2 ^ 64 -> alarm_trace a es a' ->
  exists p', contract_trace p es p' /\ alarms_for p' a'.
Proof.
  intros Ha Hlt Ht. revert p Ha Hlt. induction Ht as [|a e es a1 a2 Hs Ht IH]; intros p Ha Hlt.
  { exists p. split; [constructor|done]. }
  rewrite zlen_cons in Hlt. pose proof (zlen_nonneg es).
  destruct (alarm_step_refines p a e a1 Ha) as (p1 & Hc & Ha1 & Hi); [lia|done|].
  destruct (IH p1 Ha1) as (p2 & Hc2 & Ha2); [lia|]. exists p2. split; [by econstructor|done].
Qed.

(** C24: whatever the sequence of registrations, cancellations and firings
    (fewer than [2^64]), each registration gets a new identifier; a firing runs
    only alarms that were registered, not cancelled and not run before, whose
    deadline has passed, each with its own callback and once; the counter is
    the number of pending alarms; the loop over the heap always ends; and when
    one timeout is left, its alarm does run once due. *)
Theorem alarms_refine_contract (es : list alarm_event) a
    (Htrace : alarm_trace no_alarms es a) (Hmany : zlen es < 2 ^ 64) :
  exists p, contract_trace ∅ es p /\ alarms_ a = snd <$> p /\
    num_registered_alarms_ a = Z.of_nat (size p) /\
    forall now, exists run a', due_alarms now a = Some (run, a') /\
      contract p (Fired now run) (foldr delete p run.*1) /\
      (forall t id cb, alarm_timeouts_ a = [(t, id)] -> p !! id = Some (t, cb) -> t <= now -> run = [(id, cb)]).
Proof.
  destruct (alarm_trace_refines ∅ no_alarms es a no_alarms_for) as (p & Hc & Ha); [simpl; lia|done|].
  exists p. split; [done|]. split; [apply (af_map _ _ Ha)|]. split; [apply (af_num _ _ Ha)|].
  intros now. destruct (due_alarms_for now p a Ha) as (run & a' & E & _ & Hf & _).
  exists run, a'. split; [done|]. split; [done|]. intros t id cb Eh Ep Hle.
  unfold due_alarms in E. rewrite (af_map _ _ Ha), Eh in E. cbn [due_loop length back last] in E.
  rewrite (proj2 (Z.leb_le _ _)) in E by done. simpl negb in E. cbn iota in E.
  rewrite lookup_fmap, Ep in E. cbn [fmap option_fmap option_map snd] in E.
  pose proof (af_heap _ _ Ha) as Hh. rewrite Eh in Hh.
  destruct (pop_heap_spec (t, id) [] Hh) as (r & Er & _ & Hp). apply Permutation_nil_r in Hp as ->.
  rewrite Er in E. simpl in E. by simplify_eq.
Qed.
End AlarmContract.

(** ** The event loop, as the selector sees it

    The virtual methods of [SelectorLoop], on an object [L]. *)
Class EventLoop (L W St : Type) := {
  loop_Add : Z -> ptr -> Z -> M (L * W) St;
  loop_Update : Z -> ptr -> Z -> M (L * W) St;
  loop_Delete : Z -> M (L * W) St;
  loop_LoopStep : Z -> M (L * W) (StatusOr St (list (SelectorEventData ptr)))
}.

(** [std::unique_ptr<SelectorLoop>] *)
Inductive SomeLoop := EpollLoop (l : Epoll) | PollLoop (l : Poll (U := Z)).

Section Dispatch.
Context {W St : Type} `{!HasErrno W} `{!PollApi W Z} `{!Absl St} `{!Strerror}.

Definition on_epoll {A} (l : Epoll) (m : M (Epoll * W) A) : M (SomeLoop * W) A :=
  fun s => match m (l, s.2) with
           | Ret a (l, w) => Ret a (EpollLoop l, w)
           | Fatal why => Fatal why
           end.
Definition on_poll {A} (l : Poll) (m : M (Poll * W) A) : M (SomeLoop * W) A :=
  fun s => match m (l, s.2) with
           | Ret a (l, w) => Ret a (PollLoop l, w)
           | Fatal why => Fatal why
           end.
Definition dispatch {A} (e : M (Epoll * W) A) (p : M (Poll * W) A) : M (SomeLoop * W) A :=
  fun s => match s.1 with EpollLoop l => on_epoll l e s | PollLoop l => on_poll l p s end.

#[export] Instance some_loop : EventLoop SomeLoop W St := {
  loop_Add fd ud d := dispatch (Epoll_Add fd ud d) (Poll_Add fd ud d);
  loop_Update fd ud d := dispatch (Epoll_Update fd ud d) (Poll_Update fd ud d);
  loop_Delete fd := dispatch (Epoll_Delete fd) (Poll_Delete fd);
  loop_LoopStep timeout := dispatch (Epoll_LoopStep timeout) (Poll_LoopStep timeout)
}.
End Dispatch.

(** ** The selector *)

Inductive LoopType := POLL | EPOLL | KQUEUE.

Record Params := MkParams {
  max_events_per_step : Z;
  max_num_callbacks_per_event : Z;
  initial_capacity : Z;
  callbacks_timeout_per_event : Z;
  default_loop_timeout : Z;
  loop_type : LoopType
}.

Definition default_params : Params := MkParams 128 64 4096 1000000000 1000000000 POLL.

(** What a queued function does: a function of the program, or one of the two
    that the selector queues itself. *)
Inductive Function (Cb : Type) :=
| UserFunction (f : Cb)
| StoreShouldEnd
| CleanAndClose.
Arguments UserFunction {_} _.
Arguments StoreShouldEnd {_}.
Arguments CleanAndClose {_}.

Record Selector (L Cb : Type) := MkSelector {
  params_ : Params;
  tid_ : Z;
  should_end_ : bool;
  event_fd_ : Z;
  signal_pipe_ : Z * Z;
  output_signal_fd_ : Z;
  input_signal_fd_ : Z;
  loop_ : option L;
  registered_ : gset ptr;
  callbacks_ : Callbacks (Function Cb);
  timers_ : Alarms (Function Cb);
  call_on_close_ : option Cb;
  now_ : Z
}.
Arguments MkSelector {_ _} _ _ _ _ _ _ _ _ _ _ _ _ _.
Arguments params_ {_ _} _.
Arguments tid_ {_ _} _.
Arguments should_end_ {_ _} _.
Arguments event_fd_ {_ _} _.
Arguments signal_pipe_ {_ _} _.
Arguments output_signal_fd_ {_ _} _.
Arguments input_signal_fd_ {_ _} _.
Arguments loop_ {_ _} _.
Arguments registered_ {_ _} _.
Arguments callbacks_ {_ _} _.
Arguments timers_ {_ _} _.
Arguments call_on_close_ {_ _} _.
Arguments now_ {_ _} _.

(** [Selector::Selector] *)
Definition Selector_ctor {L Cb} (params : Params) : Selector L Cb :=
  MkSelector params 0 false (-1) (-1, -1) (-1) (-1) None ∅ no_callbacks no_alarms None InfinitePast_nanos.

(** A [Selectable] with the descriptor that [GetFd()] returns. *)
Record Object := MkObject { base : Selectable; fd_of : Z }.

(** The selector, the objects by address, and the rest of the world. *)
Record State (L Cb W : Type) := MkState {
  sel : Selector L Cb;
  objects : gmap ptr Object;
  world : W
}.
Arguments MkState {_ _ _} _ _ _.
Arguments sel {_ _ _} _.
Arguments objects {_ _ _} _.
Arguments world {_ _ _} _.

(** The system calls of the selector itself. *)
Class SelectorSys (W : Type) := {
  sys_pipe : W -> (Z * (Z * Z)) * W;
  sys_eventfd : W -> Z * W;
  (* fcntl(fd, F_GETFL) and fcntl(fd, F_SETFL, flags) *)
  sys_getfl : Z -> W -> Z * W;
  sys_setfl : Z -> Z -> W -> Z * W;
  sys_now : W -> Z * W;
  pthread_self : W -> Z
}.

Definition O_NONBLOCK : Z := 2048.

(** The code of the program that the selector calls. *)
Class Program (S Cb : Type) := {
  run_user : Cb -> M S unit;
  HandleReadEvent : ptr -> SelectorEventData ptr -> M S bool;
  HandleWriteEvent : ptr -> SelectorEventData ptr -> M S bool;
  HandleErrorEvent : ptr -> SelectorEventData ptr -> M S bool;
  Selectable_Close : ptr -> M S unit
}.

Section Selector.
Context {L Cb W St : Type} `{!HasErrno W} `{!PosixFile W} `{!SelectorSys W} `{!HeapApi}.
Context `{!Absl St} `{!Strerror} `{!EventLoop L W St} `{!Program (State L Cb W) Cb}.
(** The address of the selector. *)
Context (this : ptr).

Abbreviation S := (State L Cb W).

Definition with_sel (f : Selector L Cb -> Selector L Cb) (s : S) : S :=
  MkState (f (sel s)) (objects s) (world s).
Definition set_tid (x : Z) (l : Selector L Cb) := MkSelector (params_ l) x (should_end_ l) (event_fd_ l)
  (signal_pipe_ l) (output_signal_fd_ l) (input_signal_fd_ l) (loop_ l) (registered_ l) (callbacks_ l)
  (timers_ l) (call_on_close_ l) (now_ l).
Definition set_should_end (x : bool) (l : Selector L Cb) := MkSelector (params_ l) (tid_ l) x (event_fd_ l)
  (signal_pipe_ l) (output_signal_fd_ l) (input_signal_fd_ l) (loop_ l) (registered_ l) (callbacks_ l)
  (timers_ l) (call_on_close_ l) (now_ l).
Definition set_event_fd (x : Z) (l : Selector L Cb) := MkSelector (params_ l) (tid_ l) (should_end_ l) x
  (signal_pipe_ l) (output_signal_fd_ l) (input_signal_fd_ l) (loop_ l) (registered_ l) (callbacks_ l)
  (timers_ l) (call_on_close_ l) (now_ l).
Definition set_signal_pipe (x : Z * Z) (l : Selector L Cb) := MkSelector (params_ l) (tid_ l) (should_end_ l)
  (event_fd_ l) x (output_signal_fd_ l) (input_signal_fd_ l) (loop_ l) (registered_ l) (callbacks_ l)
  (timers_ l) (call_on_close_ l) (now_ l).
Definition set_signal_fds (out inp : Z) (l : Selector L Cb) := MkSelector (params_ l) (tid_ l) (should_end_ l)
  (event_fd_ l) (signal_pipe_ l) out inp (loop_ l) (registered_ l) (callbacks_ l)
  (timers_ l) (call_on_close_ l) (now_ l).
Definition set_loop (x : option L) (l : Selector L Cb) := MkSelector (params_ l) (tid_ l) (should_end_ l)
  (event_fd_ l) (signal_pipe_ l) (output_signal_fd_ l) (input_signal_fd_ l) x (registered_ l) (callbacks_ l)
  (timers_ l) (call_on_close_ l) (now_ l).
Definition set_registered (x : gset ptr) (l : Selector L Cb) := MkSelector (params_ l) (tid_ l) (should_end_ l)
  (event_fd_ l) (signal_pipe_ l) (output_signal_fd_ l) (input_signal_fd_ l) (loop_ l) x (callbacks_ l)
  (timers_ l) (call_on_close_ l) (now_ l).
Definition set_callbacks (x : Callbacks (Function Cb)) (l : Selector L Cb) := MkSelector (params_ l) (tid_ l)
  (should_end_ l) (event_fd_ l) (signal_pipe_ l) (output_signal_fd_ l) (input_signal_fd_ l) (loop_ l)
  (registered_ l) x (timers_ l) (call_on_close_ l) (now_ l).
Definition set_timers (x : Alarms (Function Cb)) (l : Selector L Cb) := MkSelector (params_ l) (tid_ l)
  (should_end_ l) (event_fd_ l) (signal_pipe_ l) (output_signal_fd_ l) (input_signal_fd_ l) (loop_ l)
  (registered_ l) (callbacks_ l) x (call_on_close_ l) (now_ l).
Definition set_on_close (x : option Cb) (l : Selector L Cb) := MkSelector (params_ l) (tid_ l)
  (should_end_ l) (event_fd_ l) (signal_pipe_ l) (output_signal_fd_ l) (input_signal_fd_ l) (loop_ l)
  (registered_ l) (callbacks_ l) (timers_ l) x (now_ l).
Definition set_now (x : Z) (l : Selector L Cb) := MkSelector (params_ l) (tid_ l)
  (should_end_ l) (event_fd_ l) (signal_pipe_ l) (output_signal_fd_ l) (input_signal_fd_ l) (loop_ l)
  (registered_ l) (callbacks_ l) (timers_ l) (call_on_close_ l) x.

Definition field {A} (f : Selector L Cb -> A) : M S A := gets (fun s => f (sel s)).
Definition store (f : Selector L Cb -> Selector L Cb) : M S unit := modify (with_sel f).
Definition sys_call {A} (f : W -> A * W) : M S A :=
  fun s => let '(a, w) := f (world s) in Ret a (MkState (sel s) (objects s) w).
Definition errno_status (text : str) : M S St :=
  fun s => Ret (return_errno (sys_errno (world s)) (sys_errno (world s)) text) s.

(** A virtual call on [loop_]. *)
Definition on_loop {A} (m : M (L * W) A) : M S A :=
  fun s => match loop_ (sel s) with
           | None => Fatal "null pointer"
           | Some l =>
               match m (l, world s) with
               | Ret a (l, w) => Ret a (MkState (set_loop (Some l) (sel s)) (objects s) w)
               | Fatal why => Fatal why
               end
           end.

(** The object at an address; there is none once it is destroyed. *)
Definition object (s : ptr) : M S Object :=
  fun st => match objects st !! s with Some o => Ret o st | None => Fatal "invalid pointer" end.
Definition on_base {A} (s : ptr) (m : M Selectable A) : M S A :=
  fun st => match objects st !! s with
            | None => Fatal "invalid pointer"
            | Some o => match m (base o) with
                        | Ret a b => Ret a (MkState (sel st) (<[s:=MkObject b (fd_of o)]> (objects st)) (world st))
                        | Fatal why => Fatal why
                        end
            end.
Definition GetFd (s : ptr) : M S Z := o <- object s ;; ret (fd_of o).

(** *** Times and threads *)

Definition now : M S Z := field now_.
Definition UpdateNow : M S unit := t <- sys_call sys_now ;; store (set_now (ToUnixNanos t)).
Definition IsExiting : M S bool := field should_end_.
Definition IsInSelectThread : M S bool :=
  tid <- field tid_ ;; self <- gets (fun s => pthread_self (world s)) ;; ret (tid =? self).
Definition set_call_on_close (f : Cb) : M S unit := store (set_on_close (Some f)).

(** [tid_.load() == 0 || IsInSelectThread()] *)
Definition may_change : M S bool :=
  tid <- field tid_ ;; inside <- IsInSelectThread ;; ret ((tid =? 0) || inside).

(** *** Waking up *)

Definition SendWakeSignal : M S unit :=
  fd <- field input_signal_fd_ ;;
  cb <- sys_call (sys_write fd ["001"%char; "000"%char; "000"%char; "000"%char;
                                "000"%char; "000"%char; "000"%char; "000"%char] 8) ;;
  ret tt.

(** The read loop; [fuel] bounds the number of successful reads. *)
Fixpoint drain (fuel : nat) (fd : Z) : M S unit :=
  match fuel with
  | O => fatal "out of fuel"
  | Datatypes.S fuel =>
      '(cb, _) <- sys_call (sys_read fd 512) ;;
      if decide (0 < cb) then drain fuel fd else ret tt
  end.
Definition ClearSignalFd (fuel : nat) : M S unit := fd <- field output_signal_fd_ ;; drain fuel fd.

(** *** Registration *)

Definition Register (s : ptr) : M S St :=
  ok <- may_change ;;
  RET_CHECK ok "tid_.load() == 0 || IsInSelectThread()" selector_cc 125
    "Register only with a stopped selector or from the selector thread."
  (selector <- on_base s selector ;;
   ok <- (if decide (selector = 0) then on_base s (set_selector this) ;; ret true
          else ret (selector =? this)) ;;
   RET_CHECK ok "s->selector() == this" selector_cc 130
     "Selectable registered w/ a different selector."
   (fd <- GetFd s ;;
    registered <- field registered_ ;;
    if decide (s ∈ registered) then ret OkStatus
    else
      store (fun l => set_registered ({[s]} ∪ registered_ l) l) ;;
      o <- object s ;;
      on_loop (loop_Add fd s (desire_ (base o))))).

Definition Unregister (s : ptr) : M S St :=
  ok <- may_change ;;
  RET_CHECK ok "tid_.load() == 0 || IsInSelectThread()" selector_cc 144
    "Unregister only with a stopped selector or from the selector thread."
  (selector <- on_base s selector ;;
   RET_CHECK (selector =? this) "s->selector() == this" selector_cc 146
     "Selectable registered w/ a different selector."
   (store (fun l => set_registered (registered_ l ∖ {[s]}) l) ;;
    on_base s (set_selector 0) ;;
    fd <- GetFd s ;;
    on_loop (loop_Delete fd))).

Definition UpdateDesire (s : ptr) (enable : bool) (desire : Z) : M S St :=
  ok <- may_change ;;
  RET_CHECK ok "tid_.load() == 0 || IsInSelectThread()" selector_cc 259 []
  (selector <- on_base s selector ;;
   RET_CHECK (selector =? this) "s->selector() == this" selector_cc 260
     "Selectable registered w/ a different selector."
   (d <- on_base s (gets desire_) ;;
    if ((Z.land d desire =? desire) && enable) || ((Z.land (Z.lnot d) desire =? desire) && negb enable)
    then ret OkStatus
    else
      let d' := if enable then Z.lor d desire else Z.land d (Z.lnot desire) in
      on_base s (modify (fun b => MkSelectable (selector_ b) d')) ;;
      fd <- GetFd s ;;
      on_loop (loop_Update fd s d'))).
Definition EnableWriteCallback (s : ptr) (enable : bool) : M S St := UpdateDesire s enable kWantWrite.
Definition EnableReadCallback (s : ptr) (enable : bool) : M S St := UpdateDesire s enable kWantRead.

(** [*registered_.begin()], for some order of the set. *)
Definition first_registered : M S (option ptr) := l <- field registered_ ;; ret (head (elements l)).

(** The loop runs while objects are registered; [fuel] bounds its iterations. *)
Fixpoint close_loop (fuel : nat) : M S unit :=
  first <- first_registered ;;
  match first with
  | None => ret tt
  | Some s =>
      match fuel with
      | O => fatal "out of fuel"
      | Datatypes.S fuel => Selectable_Close s ;; close_loop fuel
      end
  end.

Definition CleanAndCloseAll (fuel : nat) : M S St :=
  ok <- may_change ;;
  RET_CHECK ok "tid_.load() == 0 || IsInSelectThread()" selector_cc 186 []
  (close_loop fuel ;;
   ret OkStatus).

(** *** Callbacks *)

Definition RunInSelectLoop (callback : Function Cb) : M S unit :=
  store (fun l => set_callbacks (enqueue callback (callbacks_ l)) l) ;;
  inside <- IsInSelectThread ;;
  if negb inside then SendWakeSignal else ret tt.

Definition MakeLoopExit : M S unit :=
  inside <- IsInSelectThread ;;
  if negb inside then RunInSelectLoop StoreShouldEnd else store (set_should_end true).

Definition PopCallbacks (max_num_to_run : Z) : M S (list (Function Cb)) :=
  q <- field callbacks_ ;;
  let '(to_run, q) := pop_callbacks max_num_to_run q in
  store (set_callbacks q) ;;
  ret to_run.

Definition PrependCallbacks (to_run : list (Function Cb)) : M S unit :=
  store (fun l => set_callbacks (prepend_callbacks to_run (callbacks_ l)) l).

(** Bounds for the two loops without one: the reads of the signal descriptor
    and the objects to close. *)
Context (drain_fuel close_fuel : nat).

Definition run_function (f : Function Cb) : M S unit :=
  match f with
  | UserFunction f => run_user f
  | StoreShouldEnd => store (set_should_end true)
  | CleanAndClose => st <- CleanAndCloseAll close_fuel ;; ret tt
  end.

(** The loop of [RunCallbacks]: [absl::Time()] is the epoch. *)
Fixpoint run_loop (deadline : Z) (to_run : list (Function Cb)) (num_run : Z) : M S (Z * list (Function Cb)) :=
  match to_run with
  | [] => ret (num_run, [])
  | f :: rest =>
      if 0 <? deadline then run_function f ;; run_loop deadline rest (num_run + 1)
      else ret (num_run, to_run)
  end.

Definition RunCallbacks (max_num_to_run : Z) : M S Z :=
  ClearSignalFd drain_fuel ;;
  to_run <- PopCallbacks max_num_to_run ;;
  start_time <- sys_call sys_now ;;
  params <- field params_ ;;
  let deadline := start_time + callbacks_timeout_per_event params in
  '(num_run, to_run) <- run_loop deadline to_run 0 ;;
  PrependCallbacks to_run ;;
  ret num_run.

(** The loop of [LoopCallbacks]; [fuel] bounds its iterations. *)
Fixpoint callbacks_loop (fuel : nat) (run_count : Z) : M S Z :=
  have <- field (fun l => have_to_run_ (callbacks_ l)) ;;
  max <- field (fun l => max_num_callbacks_per_event (params_ l)) ;;
  if have && (run_count <? max) then
    match fuel with
    | O => fatal "out of fuel"
    | Datatypes.S fuel =>
        UpdateNow ;;
        n <- RunCallbacks (max - run_count) ;;
        if n =? 0 then ret run_count else callbacks_loop fuel (run_count + n)
    end
  else ret run_count.

(** Each iteration but the last runs a callback. *)
Definition LoopCallbacks : M S Z :=
  max <- field (fun l => max_num_callbacks_per_event (params_ l)) ;;
  callbacks_loop (Z.to_nat max) 0.

(** *** Alarms *)

Definition RegisterAlarm (callback : Function Cb) (timeout : Z) : M S Z :=
  t <- sys_call sys_now ;;
  a <- field timers_ ;;
  let '(alarm_id, a) := register_alarm callback (t + timeout) a in
  store (set_timers a) ;;
  ret alarm_id.

Definition UnregisterAlarm (alarm_id : Z) : M S unit :=
  store (fun l => set_timers (unregister_alarm alarm_id (timers_ l)) l).

Fixpoint run_all (to_run : list (Function Cb)) : M S unit :=
  match to_run with
  | [] => ret tt
  | f :: to_run => run_function f ;; run_all to_run
  end.

Definition LoopAlarms : M S Z :=
  n <- field (fun l => num_registered_alarms_ (timers_ l)) ;;
  if n =? 0 then ret 0
  else
    UpdateNow ;;
    end_alarms <- now ;;
    a <- field timers_ ;;
    match due_alarms end_alarms a with
    | None => fatal "out of fuel"
    | Some (to_run, a) =>
        store (set_timers a) ;;
        run_all to_run.*2 ;;
        ret (zlen to_run)
    end.

(** *** The loop *)

(** One event; the object may close itself in a handler. *)
Definition process_event (event : SelectorEventData ptr) : M S unit :=
  let s := user_data event in
  if decide (s = 0) then ret tt
  else
    selector <- on_base s selector ;;
    if decide (selector <> this) then ret tt
    else
      let desire := desires event in
      keep_processing <- (if has_flag desire kWantError then
                            keep <- HandleErrorEvent s event ;;
                            if keep then fd <- GetFd s ;; ret (negb (fd =? kInvalidFdValue)) else ret false
                          else ret true) ;;
      keep_processing <- (if keep_processing && has_flag desire kWantRead then
                            keep <- HandleReadEvent s event ;;
                            if keep then fd <- GetFd s ;; ret (negb (fd =? kInvalidFdValue)) else ret false
                          else ret keep_processing) ;;
      if keep_processing && has_flag desire kWantWrite then
        keep <- HandleWriteEvent s event ;; ret tt
      else ret tt.

Fixpoint process_events (events : list (SelectorEventData ptr)) : M S unit :=
  match events with
  | [] => ret tt
  | event :: events => process_event event ;; process_events events
  end.

(** The timeout of a step. *)
Definition loop_timeout : M S Z :=
  l <- field id ;;
  let timeout := default_loop_timeout (params_ l) in
  if have_to_run_ (callbacks_ l) then ret 0
  else
    let alarm_delta := Z.max (next_alarm_time_ (timers_ l) - now_ l) 0 in
    ret (if alarm_delta <? 0 then 0 else if alarm_delta <? timeout then alarm_delta else timeout).

(** One iteration of the loop of [Loop]: [OkStatus] to go on. *)
Definition loop_iteration : M S St :=
  UpdateNow ;;
  timeout <- loop_timeout ;;
  ASSIGN_OR_RETURN (on_loop (loop_LoopStep timeout)) "During selector loop execution."
    (fun events =>
       UpdateNow ;;
       process_events events ;;
       LoopCallbacks ;;
       LoopAlarms ;;
       ret OkStatus).

(** [None] when the loop is still running after [steps] iterations. *)
Fixpoint loop_steps (steps : nat) : M S (option St) :=
  stop <- field should_end_ ;;
  if stop then ret (Some OkStatus)
  else
    match steps with
    | O => ret None
    | Datatypes.S steps =>
        st <- loop_iteration ;;
        if ok st then loop_steps steps else ret (Some st)
    end.

Definition Loop (steps : nat) : M S (option St) :=
  store (set_should_end false) ;;
  self <- gets (fun s => pthread_self (world s)) ;;
  store (set_tid self) ;;
  r <- loop_steps steps ;;
  match r with
  | Some st =>
      if ok st then
        CleanAndCloseAll close_fuel ;;
        on_close <- field call_on_close_ ;;
        match on_close with Some f => run_user f | None => ret tt end ;;
        ret (Some OkStatus)
      else ret (Some st)
  | None => ret None
  end.

(** *** Life cycle *)

Definition Selector_dtor : M S unit :=
  l <- field id ;;
  check (bool_decide (registered_ l = ∅)) "registered_.empty()" ;;
  (if 0 <=? input_signal_fd_ l then r <- sys_call (sys_close (input_signal_fd_ l)) ;; ret tt else ret tt) ;;
  if negb (output_signal_fd_ l =? input_signal_fd_ l) && (0 <? output_signal_fd_ l)
  then r <- sys_call (sys_close (output_signal_fd_ l)) ;; ret tt
  else ret tt.

Definition SetupNonBlocking (fd : Z) : M S St :=
  flags <- sys_call (sys_getfl fd) ;;
  if flags <? 0 then
    errno_status ("Obtaining file descriptor flags with ::fcntl(..) for: " ++ StrInt fd)
  else
    r <- sys_call (sys_setfl fd (Z.lor flags O_NONBLOCK)) ;;
    if r <? 0 then
      errno_status ("Setting up non blocking property with ::fcntl(..) for: " ++ StrInt fd)
    else ret OkStatus.

End Selector.

Section Initialize.
Context {Cb W St : Type} `{!HasErrno W} `{!PollApi W Z} `{!PosixFile W} `{!SelectorSys W}.
Context `{!Absl St} `{!Strerror}.

Abbreviation S := (State SomeLoop Cb W).

(** A factory of a loop, on the world. *)
Definition create {A} (make : A -> SomeLoop) (f : W -> outcome W (StatusOr St A)) : M S (StatusOr St SomeLoop) :=
  fun s => match f (world s) with
           | Ret (Value l) w => Ret (Value (make l)) (MkState (sel s) (objects s) w)
           | Ret (Error st) w => Ret (Error st) (MkState (sel s) (objects s) w)
           | Fatal why => Fatal why
           end.

(** [epfd_] before [Initialize] is not initialized. *)
Definition Initialize (garbage : Z) : M S St :=
  params <- field params_ ;;
  match loop_type params with
  | POLL =>
      '(r, fds) <- sys_call sys_pipe ;;
      store (set_signal_pipe fds) ;;
      if decide (r <> 0) then errno_status "Creating ::pipe(..) file descriptors."
      else
        RETURN_IF_ERROR (SetupNonBlocking fds.1) "For pipe file descriptor 0."
        (RETURN_IF_ERROR (SetupNonBlocking fds.2) "For pipe file descriptor 1."
         (store (set_signal_fds fds.1 fds.2) ;;
          ASSIGN_OR_RETURN (create PollLoop (Poll_Create fds.1))
            "Creating the selector loop based on poll."
            (fun loop => store (set_loop (Some loop)) ;; ret OkStatus)))
  | EPOLL =>
      fd <- sys_call sys_eventfd ;;
      store (set_event_fd fd) ;;
      if decide (fd < 0) then errno_status "Creating ::eventfd(..) file descriptor."
      else
        RETURN_IF_ERROR (SetupNonBlocking fd) "For event file descriptor."
        (store (set_signal_fds fd fd) ;;
         ASSIGN_OR_RETURN (create EpollLoop (Epoll_Create fd (max_events_per_step params) garbage))
           "Creating the selector loop based on epoll."
           (fun loop => store (set_loop (Some loop)) ;; ret OkStatus))
  | KQUEUE =>
      ret (return_error (UnimplementedErrorBuilder "kqueue(..) not implemented on this sytem") [])
  end.
(** A selector whose initialization failed is destroyed. *)
Definition Create (garbage : Z) : M S St :=
  st <- Initialize garbage ;;
  if ok st then ret st else Selector_dtor ;; ret st.
End Initialize.

(** ** The thread of a selector

    [X] is the state of the selector and of the system; creating and joining a
    [std::thread] are parameters. *)

Record SelectorThread (St : Type) := MkSelectorThread {
  thread_ : option Z;
  is_started_ : bool;
  selector_status_ : St
}.
Arguments MkSelectorThread {_} _ _ _.
Arguments thread_ {_} _.
Arguments is_started_ {_} _.
Arguments selector_status_ {_} _.

Section SelectorThread.
Context {St X : Type} `{!Absl St} (spawn : M X Z) (join : Z -> M X unit) (make_loop_exit : M X unit).

(** A step of the rest of the system. *)
Definition outside {A} (m : M X A) : M (SelectorThread St * X) A :=
  fun s => match m s.2 with Ret a x => Ret a (s.1, x) | Fatal why => Fatal why end.
Definition thread_field {A} (f : SelectorThread St -> A) : M (SelectorThread St * X) A := gets (fun s => f s.1).
Definition store_thread (f : SelectorThread St -> SelectorThread St) : M (SelectorThread St * X) unit :=
  modify (fun s => (f s.1, s.2)).

Definition Start : M (SelectorThread St * X) bool :=
  thread <- thread_field thread_ ;;
  started <- thread_field is_started_ ;;
  if bool_decide (thread <> None) || started then ret false
  else
    t <- outside spawn ;;
    store_thread (fun l => MkSelectorThread (Some t) true (selector_status_ l)) ;;
    ret true.

Definition Stop : M (SelectorThread St * X) bool :=
  saved_thread <- thread_field thread_ ;;
  store_thread (fun l => MkSelectorThread None (is_started_ l) (selector_status_ l)) ;;
  match saved_thread with
  | None => ret false
  | Some t =>
      outside make_loop_exit ;;
      outside (join t) ;;
      store_thread (fun l => MkSelectorThread (thread_ l) false (selector_status_ l)) ;;
      ret true
  end.

Definition SelectorThread_dtor : M (SelectorThread St * X) unit := r <- Stop ;; ret tt.

(** [Run], once [Loop] returned [status]. *)
Definition Run_end (status : St) : M (SelectorThread St * X) unit :=
  store_thread (fun l => MkSelectorThread (thread_ l) (is_started_ l) status).

(** A second start is refused, and a stop makes the next start possible. *)
Lemma start_stop (l : SelectorThread St) x :
  thread_ l = None -> is_started_ l = false ->
  (forall x, returns spawn x (fun _ _ => True)) -> (forall t x, returns (join t) x (fun _ _ => True)) ->
  (forall x, returns make_loop_exit x (fun _ _ => True)) ->
  returns (a <- Start ;; b <- Start ;; c <- Stop ;; d <- Stop ;; ret (a, b, c, d)) (l, x)
    (fun r s => r = (true, false, true, false) /\ s.1 = l).
Proof.
  intros Ht Hs Hspawn Hjoin Hexit. unfold Start, Stop, thread_field, store_thread, outside, returns.
  destruct (Hspawn x) as (t & x1 & E1 & _), (Hexit x1) as ([] & x2 & E2 & _), (Hjoin t x2) as ([] & x3 & E3 & _).
  unfold bind, gets, modify, ret. simpl. rewrite Ht, Hs. simpl. rewrite E1. simpl. rewrite E2. simpl.
  rewrite E3. simpl. eexists _, _. split; [done|]. split; [done|]. destruct l. simpl in *. by subst.
Qed.
End SelectorThread.

(** ** Posting from other threads

    The interleavings of threads that call [RunInSelectLoop] with the selector
    thread.  The atomic steps are the critical sections and the system calls of
    the code; [posted] and [ran] record the callbacks queued and run. *)

Section Wakeups.
Context {Fn : Type} (max_num : Z).

(** A thread with callbacks to post; between the critical section of
    [RunInSelectLoop] and [SendWakeSignal] it is [Sending]. *)
Inductive poster := Idle (todo : list Fn) | Sending (todo : list Fn).

(** The selector thread: the top of the loop, [LoopStep] with a timeout
    ([may_block]) or without, [LoopCallbacks], and the steps of
    [RunCallbacks]; [count] is [run_count]. *)
Inductive loop_pc :=
| AtTop
| Waiting (may_block : bool)
| AtCallbacks (count : Z)
| Clearing (count : Z)
| Popping (count : Z)
| Running (count num_run : Z) (to_run : list Fn).

Record threads := MkThreads {
  queue : Callbacks Fn;
  signal : bool;
  pc : loop_pc;
  posters : list poster;
  posted : list Fn;
  ran : list Fn
}.

Definition after_run (count num_run : Z) : loop_pc :=
  if num_run =? 0 then AtTop else AtCallbacks (count + num_run).

Inductive thread_step : threads -> threads -> Prop :=
| step_top q sg ps po r :
    thread_step (MkThreads q sg AtTop ps po r) (MkThreads q sg (Waiting (negb (have_to_run_ q))) ps po r)
| step_wait b q sg ps po r :
    thread_step (MkThreads q sg (Waiting b) ps po r) (MkThreads q sg (AtCallbacks 0) ps po r)
| step_check n q sg ps po r :
    thread_step (MkThreads q sg (AtCallbacks n) ps po r)
      (MkThreads q sg (if have_to_run_ q && (n <? max_num) then Clearing n else AtTop) ps po r)
| step_clear n q sg ps po r :
    thread_step (MkThreads q sg (Clearing n) ps po r) (MkThreads q false (Popping n) ps po r)
| step_pop n q sg ps po r :
    thread_step (MkThreads q sg (Popping n) ps po r)
      (MkThreads (pop_callbacks (max_num - n) q).2 sg (Running n 0 (pop_callbacks (max_num - n) q).1) ps po r)
| step_run n k f l q sg ps po r :
    thread_step (MkThreads q sg (Running n k (f :: l)) ps po r)
      (MkThreads q sg (Running n (k + 1) l) ps po (r ++ [f]))
| step_prepend n k l q sg ps po r :
    thread_step (MkThreads q sg (Running n k l) ps po r)
      (MkThreads (prepend_callbacks l q) sg (after_run n k) ps po r)
| step_post_inside p f q sg ps po r :
    (forall b, p <> Waiting b) ->
    thread_step (MkThreads q sg p ps po r) (MkThreads (enqueue f q) sg p ps (po ++ [f]) r)
| step_post i f todo p q sg ps po r :
    ps !! i = Some (Idle (f :: todo)) ->
    thread_step (MkThreads q sg p ps po r) (MkThreads (enqueue f q) sg p (<[i:=Sending todo]> ps) (po ++ [f]) r)
| step_send i todo p q sg ps po r :
    ps !! i = Some (Sending todo) ->
    thread_step (MkThreads q sg p ps po r) (MkThreads q true p (<[i:=Idle todo]> ps) po r).

Definition initially (s : threads) : Prop :=
  exists todos, s = MkThreads no_callbacks false AtTop (Idle <$> todos) [] [].

Definition in_flight (p : loop_pc) : list Fn := match p with Running _ _ l => l | _ => [] end.

(** The selector thread sleeps in [poll] until a timeout. *)
Definition asleep (s : threads) : Prop := pc s = Waiting true /\ signal s = false.
Definition being_sent (s : threads) : Prop := exists i todo, posters s !! i = Some (Sending todo).

Record wakeup_inv (s : threads) : Prop := {
  wi_flag : flag_ok (queue s);
  wi_order : posted s = ran s ++ in_flight (pc s) ++ to_run_ (queue s);
  wi_wake : pc s = Waiting true -> to_run_ (queue s) = [] \/ signal s = true \/ being_sent s
}.

Lemma prepend_flag l (q : Callbacks Fn) : flag_ok q -> flag_ok (prepend_callbacks l q).
Proof. intros Hf. destruct l; [done|]. by split. Qed.

Lemma prepend_to_run l (q : Callbacks Fn) : to_run_ (prepend_callbacks l q) = l ++ to_run_ q.
Proof. destruct l as [|c l]; [done|]. simpl. f_equal. induction l; by f_equal/=. Qed.

Lemma wakeup_step s s' : wakeup_inv s -> thread_step s s' -> wakeup_inv s'.
Proof.
  intros [Hf Ho Hw] Hs. destruct Hs; simpl in *; split; simpl in *; try done.
  - intros [= Hh]. left. apply dec_stable. intros Hne. apply Hf in Hne. by rewrite Hne in Hh.
  - by case_match.
  - by case_match.
  - by apply pop_flag.
  - rewrite Ho, pop_callbacks_spec by done. simpl. by rewrite take_drop.
  - by rewrite Ho, <- !app_assoc.
  - by apply prepend_flag.
  - rewrite Ho, prepend_to_run. unfold after_run. by case_match.
  - unfold after_run. by case_match.
  - by apply enqueue_flag.
  - by rewrite Ho, <- !app_assoc.
  - intros ->. by destruct (H true).
  - by apply enqueue_flag.
  - by rewrite Ho, <- !app_assoc.
  - intros _. right; right. exists i, todo. simpl. rewrite list_lookup_insert_eq; [done|].
    by eapply lookup_lt_Some.
  - intros _. by right; left.
Qed.

(** C2: in every interleaving of threads posting callbacks with the selector
    thread, the callbacks run in the order they were posted, each once: those
    run, those taken from the queue and those in it are always all that was
    posted.  No wake-up is lost: when the selector thread sleeps, either the
    queue is empty or a thread is about to send the signal. *)
Theorem callbacks_fifo_no_lost_wakeup s :
  reachable initially thread_step s ->
  posted s = ran s ++ in_flight (pc s) ++ to_run_ (queue s) /\
  (asleep s -> to_run_ (queue s) = [] \/ being_sent s).
Proof.
  intros Hr. apply (reachable_inv _ _ wakeup_inv) in Hr.
  - destruct Hr as [_ Ho Hw]. split; [done|]. intros [Hp Hsg]. destruct (Hw Hp) as [|[|]]; [by left|congruence|by right].
  - intros s0 (todos & ->). by split.
  - apply wakeup_step.
Qed.
End Wakeups.

(** ** What [LoopCallbacks] runs *)

(** The signal descriptor holds a bounded number of bytes, and a read that
    returns some takes them. *)
Class SignalLaws (W : Type) `{!PosixFile W} := {
  readable : W -> Z -> nat;
  capacity : nat;
  readable_bound w fd : (readable w fd <= capacity)%nat;
  read_takes fd n w : let '((r, _), w') := sys_read fd n w in
    0 < r -> (readable w' fd < readable w fd)%nat
}.

Section Dispatching.
Context {L Cb W St : Type} `{!HasErrno W} `{!PosixFile W} `{!SelectorSys W} `{!HeapApi}.
Context `{!Absl St} `{!Strerror} `{!EventLoop L W St} `{!Program (State L Cb W) Cb} `{HS : !SignalLaws W}.
Context (this : ptr) (drain_fuel close_fuel : nat).

Abbreviation S := (State L Cb W).
Abbreviation function := (run_function (St := St) (L := L) (Cb := Cb) (W := W) close_fuel).
Abbreviation params := (fun s : S => params_ (sel s)).

(** [RunCallbacks] when no deadline stops it. *)
Definition run_callbacks_ref (max_num_to_run : Z) : M S Z :=
  ClearSignalFd drain_fuel ;;
  to_run <- PopCallbacks max_num_to_run ;;
  t <- sys_call sys_now ;;
  run_all (St := St) close_fuel to_run ;;
  ret (zlen to_run).

Lemma run_loop_all deadline to_run n (s : S) :
  0 < deadline ->
  run_loop (St := St) close_fuel deadline to_run n s =
  bind (run_all (St := St) close_fuel to_run) (fun _ => ret (n + zlen to_run, [])) s.
Proof.
  intros Hd. revert n s. induction to_run as [|f to_run IH]; intros n s; simpl.
  - unfold bind, ret. by rewrite zlen_nil, Z.add_0_r.
  - rewrite (proj2 (Z.ltb_lt _ _)) by done. rewrite bind_assoc. unfold bind at 1 2.
    destruct (function f s) as [[] s'|why]; [|done]. rewrite IH, zlen_cons.
    by replace (n + 1 + zlen to_run) with (n + (1 + zlen to_run)) by lia.
Qed.

Lemma RunCallbacks_ref n (s : S) :
  (forall w, 0 < (sys_now w).1 + callbacks_timeout_per_event (params s)) ->
  (forall s', returns (ClearSignalFd drain_fuel) s' (fun _ s'' => params s'' = params s')) ->
  RunCallbacks (St := St) drain_fuel close_fuel n s = run_callbacks_ref n s.
Proof.
  intros Hd Hc. unfold RunCallbacks, run_callbacks_ref, bind. destruct (Hc s) as ([] & s1 & -> & Hp).
  unfold PopCallbacks, field, gets, store, modify, bind.
  destruct (pop_callbacks n (callbacks_ (sel s1))) as [to_run q].
  unfold sys_call, ret. cbn [with_sel world sel]. specialize (Hd (world s1)).
  destruct (sys_now (world s1)) as [t w]. cbn [set_callbacks params_ sel].
  rewrite run_loop_all by (rewrite Hp; exact Hd). unfold bind, ret.
  destruct (run_all close_fuel to_run _) as [[] s2|why]; [|done]. by destruct s2 as [[] ? ?].
Qed.

Lemma drain_returns fuel fd (s : S) :
  (readable (world s) fd < fuel)%nat ->
  returns (drain fuel fd) s (fun _ s' => sel s' = sel s /\ objects s' = objects s).
Proof.
  revert s. induction fuel as [|fuel IH]; intros s Hr; [lia|]. cbn [drain].
  unfold returns, bind, sys_call. pose proof (read_takes fd 512 (world s)) as Ht.
  destruct (sys_read fd 512 (world s)) as [[r data] w]. case_decide as Hp.
  - destruct (IH (MkState (sel s) (objects s) w)) as (a & s' & E & Hs); [simpl; specialize (Ht Hp); lia|].
    exists a, s'. by split.
  - eexists _, _. split; [done|]. done.
Qed.

Lemma ClearSignalFd_returns (s : S) :
  (capacity < drain_fuel)%nat -> returns (ClearSignalFd drain_fuel) s (fun _ s' => sel s' = sel s).
Proof.
  intros Hf. unfold ClearSignalFd, field, gets. unfold returns, bind.
  destruct (drain_returns drain_fuel (output_signal_fd_ (sel s)) s) as (a & s' & E & Hs & _).
  { pose proof (readable_bound (world s) (output_signal_fd_ (sel s))). lia. }
  eauto.
Qed.

Section Bounded.
Hypothesis Hfuel : (capacity < drain_fuel)%nat.
(** The functions queued return, and have no access to the parameters. *)
Hypothesis Hrun : forall f (s : S), returns (function f) s (fun _ s' => params s' = params s).

Lemma run_all_returns to_run (s : S) :
  returns (run_all (St := St) close_fuel to_run) s (fun _ s' => params s' = params s).
Proof.
  revert s. induction to_run as [|f to_run IH]; intros s; [by apply returns_ret|].
  eapply returns_bind; [apply Hrun|]. intros [] s' Hp. eapply returns_mono; [apply IH|].
  intros [] s'' Hp'. simpl in *. congruence.
Qed.

Lemma run_callbacks_ref_returns n (s : S) :
  returns (run_callbacks_ref n) s (fun k s' => 0 <= k <= Z.max 0 n /\ params s' = params s).
Proof.
  unfold run_callbacks_ref. eapply returns_bind; [by apply ClearSignalFd_returns|]. intros [] s1 Hs1.
  unfold PopCallbacks, field, gets, store, modify. unfold returns, bind.
  assert (Hlen : zlen (pop_callbacks n (callbacks_ (sel s1))).1 <= Z.max 0 n).
  { unfold pop_callbacks. case_match; [simpl; rewrite zlen_nil; lia|]. rewrite pop_loop_spec. simpl.
    unfold zlen. rewrite length_take. lia. }
  destruct (pop_callbacks n (callbacks_ (sel s1))) as [to_run q]. unfold sys_call, ret.
  unfold with_sel. cbn [world sel objects fst] in *. destruct (sys_now (world s1)) as [t w].
  destruct (run_all_returns to_run (MkState (set_callbacks q (sel s1)) (objects s1) w)) as ([] & s' & -> & Hp).
  eexists _, _. split; [done|]. cbv beta in *. simpl in Hp. pose proof (zlen_nonneg to_run).
  split; [lia|]. congruence.
Qed.

Lemma callbacks_loop_returns fuel count (s : S) :
  let max := max_num_callbacks_per_event (params s) in
  (forall w, 0 < (sys_now w).1 + callbacks_timeout_per_event (params s)) ->
  0 <= count -> max - count <= Z.of_nat fuel ->
  returns (callbacks_loop (St := St) drain_fuel close_fuel fuel count) s (fun k s' =>
    count <= k <= Z.max count max /\ params s' = params s).
Proof.
  revert count s. induction fuel as [|fuel IH]; intros count s max Hd Hcnt Hm;
    (cbn [callbacks_loop]; unfold field, gets; unfold returns, bind; fold max;
     destruct (have_to_run_ _), (count <? max) eqn:E; simpl;
     try by (eexists _, _; split; [done|]; split; [lia|done])).
  { apply Z.ltb_lt in E. lia. }
  apply Z.ltb_lt in E. unfold UpdateNow, sys_call, store, modify, bind.
  destruct (sys_now (world s)) as [t w]. set (s1 := with_sel _ _).
  assert (Hp1 : params s1 = params s) by done.
  assert (Hc : forall s', returns (ClearSignalFd drain_fuel) s' (fun _ (s'' : S) => params s'' = params s')).
  { intros s'. eapply returns_mono; [by apply ClearSignalFd_returns|]. intros [] s'' Hs. cbv beta. by rewrite Hs. }
  rewrite RunCallbacks_ref by done.
  destruct (run_callbacks_ref_returns (max - count) s1) as (k & s2 & -> & Hk & Hp2).
  assert (Hp : params s2 = params s) by congruence.
  destruct (k =? 0) eqn:Ek; [eexists _, _; split; [done|]; split; [lia|done]|]. apply Z.eqb_neq in Ek.
  destruct (IH (count + k) s2) as (k' & s3 & E3 & Hk' & Hp3); [by rewrite Hp|lia|rewrite Hp; fold max; lia|].
  exists k', s3. split; [done|]. rewrite Hp in *. fold max in Hk'. split; [lia|done].
Qed.
End Bounded.

(** The functions [fs], one after the other. *)
Inductive runs : list (Function Cb) -> S -> S -> Prop :=
| runs_nil s : runs [] s s
| runs_cons f fs s s1 s2 : function f s = Ret tt s1 -> runs fs s1 s2 -> runs (f :: fs) s s2.

Lemma run_all_runs fs (s s' : S) u : run_all (St := St) close_fuel fs s = Ret u s' -> runs fs s s'.
Proof.
  revert s. induction fs as [|f fs IH]; intros s E; simpl in E; [injection E as _ ->; constructor|].
  unfold bind at 1 in E. destruct (function f s) as [[] s1|] eqn:Ef; [|done]. econstructor; [exact Ef|by apply IH].
Qed.

(** The signal is read until a read takes nothing. *)
Lemma drain_stops fuel fd (s : S) : (readable (world s) fd < fuel)%nat ->
  exists w0 r data w1, drain fuel fd s = Ret tt (MkState (sel s) (objects s) w1) /\
    sys_read fd 512 w0 = ((r, data), w1) /\ r <= 0.
Proof.
  revert s. induction fuel as [|fuel IH]; intros s Hr; [lia|]. cbn [drain].
  unfold bind, sys_call. pose proof (read_takes fd 512 (world s)) as Ht.
  destruct (sys_read fd 512 (world s)) as [[r data] w] eqn:E. case_decide as Hp.
  - apply (IH (MkState (sel s) (objects s) w)). simpl. specialize (Ht Hp). lia.
  - exists (world s), r, data, w. split; [done|]. split; [done|lia].
Qed.

(** C35: [RunCallbacks], on a queue whose flag is right: it reads the signal
    descriptor until a read takes nothing, then takes the first [n] functions
    of the queue - all, if there are fewer - leaves the others in their order
    with the flag set when there are any, and runs those taken one after the
    other from the first; it returns their number, and the state the last one
    left.  (The deadline never stops it, since it is compared with the epoch:
    the clock plus the time allowed is positive.)  With functions that return
    and leave the parameters alone, [LoopCallbacks] returns, having run at most
    [max_num_callbacks_per_event] functions. *)
Theorem run_callbacks_spec (n : Z) (s : S)
    (Hfuel : (capacity < drain_fuel)%nat) (Hflag : flag_ok (callbacks_ (sel s)))
    (Hclock : forall w, 0 < (sys_now w).1 + callbacks_timeout_per_event (params s))
    (Hrun : forall f (s' : S), returns (function f) s' (fun _ s'' => params s'' = params s')) :
  (let first := take (Z.to_nat n) (to_run_ (callbacks_ (sel s))) in
   let others := drop (Z.to_nat n) (to_run_ (callbacks_ (sel s))) in
   exists w0 r data w1 s', sys_read (output_signal_fd_ (sel s)) 512 w0 = ((r, data), w1) /\ r <= 0 /\
     runs first (MkState (set_callbacks (MkCallbacks others (bool_decide (others <> []))) (sel s)) (objects s) (sys_now w1).2) s' /\
     RunCallbacks (St := St) drain_fuel close_fuel n s = Ret (zlen first) s') /\
  returns (LoopCallbacks (St := St) drain_fuel close_fuel) s (fun k s' =>
    0 <= k <= Z.max 0 (max_num_callbacks_per_event (params s)) /\ params s' = params s).
Proof.
  assert (Hc : forall s', returns (ClearSignalFd drain_fuel) s' (fun _ (s'' : S) => params s'' = params s')).
  { intros s'. eapply returns_mono; [by apply ClearSignalFd_returns|]. intros [] s'' Hs. cbv beta. by rewrite Hs. }
  split.
  - intros first others. rewrite RunCallbacks_ref by done. unfold run_callbacks_ref, ClearSignalFd.
    destruct (drain_stops drain_fuel (output_signal_fd_ (sel s)) s) as (w0 & r & data & w1 & E & Er & Hr).
    { pose proof (readable_bound (world s) (output_signal_fd_ (sel s))). lia. }
    unfold PopCallbacks, field, gets, store, modify, bind, ret. rewrite E. cbn [sel].
    rewrite pop_callbacks_spec by done. fold first others. unfold sys_call. cbn [with_sel sel objects world fst snd].
    assert (Eb : match others with [] => false | _ => true end = bool_decide (others <> [])) by by destruct others.
    rewrite Eb. destruct (sys_now w1) as [t w2] eqn:En. set (s1 := MkState _ _ _).
    destruct (run_all_returns Hrun first s1) as ([] & s' & E' & _). rewrite E'.
    exists w0, r, data, w1, s'. split; [done|]. split; [done|]. rewrite En. split; [by eapply run_all_runs|].
    by destruct s' as [[] ? ?].
  - unfold LoopCallbacks, field, gets. unfold returns, bind.
    destruct (callbacks_loop_returns Hfuel Hrun (Z.to_nat (max_num_callbacks_per_event (params s))) 0 s)
      as (k & s' & E & Hk); [done|lia|lia|]. eauto.
Qed.
End Dispatching.

(** ** Registration

    What an event loop promises to the selector: while it is well formed
    ([loop_ok]), [Add], [Update] and [Delete] change the registry when they
    return OK, and leave it unchanged otherwise. *)

Class EventLoopLaws (L W St : Type) `{!Absl St} `{!EventLoop L W St} := {
  loop_ok : L * W -> Prop;
  loop_registry : L * W -> gmap Z (Z * ptr);
  events_of : Z -> Z;
  (* after an operation: still well formed, and the registry changed by [f] *)
  changed (f : gmap Z (Z * ptr) -> gmap Z (Z * ptr)) (s : L * W) (st : St) (s' : L * W) : Prop :=
    loop_ok s' /\ loop_registry s' = if Status.ok st then f (loop_registry s) else loop_registry s;
  Add_law fd ud d s : loop_ok s -> loop_registry s !! fd = None ->
    returns (loop_Add fd ud d) s (changed (insert fd (events_of d, ud)) s);
  Update_law fd ud d s : loop_ok s -> is_Some (loop_registry s !! fd) ->
    returns (loop_Update fd ud d) s (changed (insert fd (events_of d, ud)) s);
  Delete_law fd s : loop_ok s -> returns (loop_Delete fd) s (changed (delete fd) s)
}.

Section LoopInstance.
Context {W St : Type} `{!HasErrno W} `{!PollApi W Z} `{HE : !EpollLaws W Z}.
Context `{HA : !Absl St} `{HL : !AbslLaws St} `{!Strerror}.

Definition some_ok (s : SomeLoop * W) : Prop :=
  match s.1 with EpollLoop _ => True | PollLoop l => table_ok l end.
Definition some_registry (s : SomeLoop * W) : gmap Z (Z * ptr) :=
  match s.1 with EpollLoop l => watched (l, s.2) | PollLoop l => registry l end.
Definition some_changed f (s : SomeLoop * W) (st : St) (s' : SomeLoop * W) : Prop :=
  some_ok s' /\ some_registry s' = if Status.ok st then f (some_registry s) else some_registry s.

Lemma dispatch_epoll e p f (l : Epoll) (w : W) :
  changes (St := St) e f (l, w) ->
  returns (dispatch e p) (EpollLoop l, w) (some_changed f (EpollLoop l, w)).
Proof.
  intros (st & [l' w'] & E & _ & Hw). unfold dispatch, on_epoll, returns. simpl. rewrite E.
  eexists _, _. split; [done|]. by split.
Qed.

Lemma dispatch_poll e o f (l : Poll) (w : W) :
  table_ok l -> match o with OpAdd fd _ _ => registry l !! fd = None | _ => True end ->
  (let '(ok, (m, _)) := spec_op o (registry l, fds_size l) in
   m = if ok : bool then f (registry l) else registry l) ->
  returns (dispatch e (on_table (run_op (St := St) o))) (PollLoop l, w) (some_changed f (PollLoop l, w)).
Proof.
  intros HT Ho Hm. pose proof (run_op_refines (St := St) o l HT Ho) as HR.
  unfold dispatch, on_poll, on_table, returns. simpl.
  destruct (run_op o l) as [st l'], (spec_op o _) as [ok [m used]]. destruct HR as (Hst & HT' & Hr & _).
  eexists _, _. split; [done|]. split; [done|]. cbn [some_registry fst]. by rewrite Hr, Hm, Hst.
Qed.

#[export, refine] Instance some_loop_laws : EventLoopLaws SomeLoop W St := {
  loop_ok := some_ok;
  loop_registry := some_registry;
  events_of := event_bits
}.
Proof.
  - intros fd ud d [[l|l] w] Hok Hn.
    + apply dispatch_epoll. apply (Epoll_changes (l, w)).
    + apply (dispatch_poll _ (OpAdd fd ud d)); [done..|]. simpl. by case_decide.
  - intros fd ud d [[l|l] w] Hok Hs.
    + apply dispatch_epoll. apply (Epoll_changes (l, w)).
    + apply (dispatch_poll _ (OpUpdate fd ud d)); [done..|]. simpl. by case_decide.
  - intros fd [[l|l] w] Hok.
    + apply dispatch_epoll. apply (Epoll_changes (l, w)).
    + apply (dispatch_poll _ (OpDelete fd)); [done..|]. simpl. by case_decide.
Defined.
End LoopInstance.

Section Registration.
Context {L Cb W St : Type} `{!HasErrno W} `{!PosixFile W} `{!SelectorSys W} `{!HeapApi}.
Context `{HA : !Absl St} `{HL : !AbslLaws St} `{!Strerror} `{!EventLoop L W St} `{!EventLoopLaws L W St}.
Context (this : ptr).
Hypothesis this_not_null : this <> 0.

Abbreviation S := (State L Cb W).

Definition watching (st : S) : gmap Z (Z * ptr) :=
  match loop_ (sel st) with Some l => loop_registry (l, world st) | None => ∅ end.

(** The registered objects know the selector, and the event loop watches
    their descriptors, each for the desires of its object, and no other. *)
Record synced (st : S) : Prop := {
  sy_loop : exists l, loop_ (sel st) = Some l /\ loop_ok (l, world st);
  sy_objects s : s ∈ registered_ (sel st) ->
    s <> 0 /\ exists o, objects st !! s = Some o /\ selector_ (base o) = this;
  sy_watching fd bits s : s <> 0 ->
    watching st !! fd = Some (bits, s) <->
    s ∈ registered_ (sel st) /\ exists o, objects st !! s = Some o /\ fd_of o = fd /\
                                          bits = events_of (desire_ (base o))
}.

(** The calling thread may change the registrations. *)
Definition allowed (st : S) : bool :=
  (tid_ (sel st) =? 0) || (tid_ (sel st) =? pthread_self (world st)).

Definition with_selector (p : ptr) (o : Object) : Object :=
  MkObject (MkSelectable p (desire_ (base o))) (fd_of o).
Definition with_desire (d : Z) (o : Object) : Object :=
  MkObject (MkSelectable (selector_ (base o)) d) (fd_of o).

(** The state in which the event loop is called. *)
Definition calling (registered : gset ptr) (s : ptr) (o : Object) (st : S) : S :=
  MkState (set_registered registered (sel st)) (<[s:=o]> (objects st)) (world st).

Lemma on_loop_changed (m : M (L * W) St) f (st : S) l :
  loop_ (sel st) = Some l -> returns m (l, world st) (changed f (l, world st)) ->
  returns (on_loop m) st (fun r st' =>
    (exists l', loop_ (sel st') = Some l' /\ loop_ok (l', world st')) /\
    registered_ (sel st') = registered_ (sel st) /\ objects st' = objects st /\
    watching st' = if Status.ok r then f (watching st) else watching st).
Proof.
  intros El (r & [l' w'] & E & Hok & Hreg). unfold returns, on_loop. rewrite El, E.
  eexists _, _. split; [done|]. unfold watching. rewrite El. simpl.
  split; [by exists l'|]. by rewrite Hreg.
Qed.

(** Running the accesses to an object. *)
Section Access.
Context {A : Type} (st : S) (s : ptr) (o : Object) (Ho : objects st !! s = Some o).

Lemma bind_may_change (k : bool -> M S A) : bind may_change k st = k (allowed st) st.
Proof. done. Qed.

Lemma bind_field {B} (f : Selector L Cb -> B) (k : B -> M S A) : bind (field f) k st = k (f (sel st)) st.
Proof. done. Qed.

Lemma bind_store f (k : unit -> M S A) : bind (store f) k st = k tt (with_sel f st).
Proof. done. Qed.

Lemma bind_read {B} (f : Selectable -> B) (k : B -> M S A) : bind (on_base s (gets f)) k st = k (f (base o)) st.
Proof.
  unfold bind, on_base. rewrite Ho. unfold gets. f_equal. destruct o as [b fd]. simpl.
  rewrite insert_id by done. by destruct st.
Qed.

Lemma bind_selector (k : ptr -> M S A) : bind (on_base s selector) k st = k (selector_ (base o)) st.
Proof. apply bind_read. Qed.

Lemma bind_set_selector p (k : unit -> M S A) :
  selector_ (base o) = 0 \/ p = 0 ->
  bind (on_base s (set_selector p)) k st =
  k tt (MkState (sel st) (<[s:=with_selector p o]> (objects st)) (world st)).
Proof.
  intros Hp. unfold bind, on_base. rewrite Ho. unfold set_selector, bind, get, put, check.
  destruct Hp as [-> | ->]; [done|]. by rewrite orb_true_r.
Qed.

Lemma bind_set_desire d (k : unit -> M S A) :
  bind (on_base s (modify (fun b => MkSelectable (selector_ b) d))) k st =
  k tt (MkState (sel st) (<[s:=with_desire d o]> (objects st)) (world st)).
Proof. unfold bind, on_base. by rewrite Ho. Qed.

Lemma bind_object (k : Object -> M S A) : bind (object s) k st = k o st.
Proof. unfold bind, object. by rewrite Ho. Qed.

Lemma bind_GetFd (k : Z -> M S A) : bind (GetFd s) k st = k (fd_of o) st.
Proof. unfold GetFd, bind, object. by rewrite Ho. Qed.
End Access.

Lemma Register_run s o (st : S) :
  objects st !! s = Some o -> allowed st = true -> s ∉ registered_ (sel st) ->
  selector_ (base o) = 0 \/ selector_ (base o) = this ->
  Register (St := St) this s st =
  on_loop (loop_Add (fd_of o) s (desire_ (base o)))
    (calling ({[s]} ∪ registered_ (sel st)) s (with_selector this o) st).
Proof.
  intros Ho Ha Hs Hsel. unfold Register, RET_CHECK. rewrite bind_may_change, Ha, (bind_selector _ _ _ Ho).
  unfold bind at 1. case_decide as E.
  - rewrite (bind_set_selector _ _ _ Ho) by auto. unfold ret at 1. cbv beta iota.
    set (st1 := MkState _ _ _). assert (Ho1 : objects st1 !! s = Some (with_selector this o))
      by apply lookup_insert_eq.
    rewrite (bind_GetFd _ _ _ Ho1), bind_field, decide_False by done. rewrite bind_store.
    by erewrite bind_object by exact Ho1.
  - destruct Hsel as [|Hsel]; [done|]. rewrite Hsel, Z.eqb_refl. unfold ret at 1. cbv beta iota.
    rewrite (bind_GetFd _ _ _ Ho), bind_field, decide_False by done. rewrite bind_store.
    erewrite bind_object by exact Ho. unfold calling.
    rewrite insert_id; [done|]. rewrite Ho. destruct o as [[??]?]. simpl in *. by subst.
Qed.

Lemma Unregister_run s o (st : S) :
  objects st !! s = Some o -> allowed st = true -> selector_ (base o) = this ->
  Unregister (St := St) this s st =
  on_loop (loop_Delete (fd_of o)) (calling (registered_ (sel st) ∖ {[s]}) s (with_selector 0 o) st).
Proof.
  intros Ho Ha Hsel. unfold Unregister, RET_CHECK. rewrite bind_may_change, Ha, (bind_selector _ _ _ Ho).
  rewrite Hsel, Z.eqb_refl, bind_store. erewrite (bind_set_selector (with_sel _ st)); [|exact Ho|by right].
  by erewrite bind_GetFd by apply lookup_insert_eq.
Qed.

(** What [UpdateDesire] makes of the desires. *)
Definition new_desire (enable : bool) (desire d : Z) : Z :=
  if enable then Z.lor d desire else Z.land d (Z.lnot desire).

Lemma land_lnot_id d x : (Z.land (Z.lnot d) x = x) <-> Z.land d (Z.lnot x) = d.
Proof.
  split; intros E; apply Z.bits_inj'; intros i Hi; apply (f_equal (fun z => Z.testbit z i)) in E;
    rewrite Z.land_spec, Z.lnot_spec in * by done; by destruct (Z.testbit d i), (Z.testbit x i).
Qed.

Lemma land_lor_id d x : (Z.land d x = x) <-> Z.lor d x = d.
Proof.
  split; intros E; apply Z.bits_inj'; intros i Hi; apply (f_equal (fun z => Z.testbit z i)) in E;
    rewrite Z.land_spec in *; rewrite Z.lor_spec in *; by destruct (Z.testbit d i), (Z.testbit x i).
Qed.

(** The test of [UpdateDesire] is that nothing would change. *)
Lemma already_set enable desire d :
  ((Z.land d desire =? desire) && enable) || ((Z.land (Z.lnot d) desire =? desire) && negb enable) =
  bool_decide (new_desire enable desire d = d).
Proof.
  unfold new_desire. apply eq_true_iff_eq. rewrite bool_decide_eq_true, orb_true_iff, !andb_true_iff, !Z.eqb_eq.
  destruct enable; simpl; rewrite <- ?land_lor_id, <- ?land_lnot_id; intuition congruence.
Qed.

Lemma UpdateDesire_run s o enable desire (st : S) :
  objects st !! s = Some o -> allowed st = true -> selector_ (base o) = this ->
  UpdateDesire (St := St) this s enable desire st =
  if decide (new_desire enable desire (desire_ (base o)) = desire_ (base o)) then Ret OkStatus st
  else on_loop (loop_Update (fd_of o) s (new_desire enable desire (desire_ (base o))))
         (calling (registered_ (sel st)) s (with_desire (new_desire enable desire (desire_ (base o))) o) st).
Proof.
  intros Ho Ha Hsel. unfold UpdateDesire, RET_CHECK. rewrite bind_may_change, Ha, (bind_selector _ _ _ Ho).
  rewrite Hsel, Z.eqb_refl. rewrite (bind_read _ _ _ Ho desire_). rewrite already_set.
  case_bool_decide as E; [by rewrite decide_True|]. rewrite decide_False by done.
  rewrite (bind_set_desire _ _ _ Ho). by erewrite bind_GetFd by apply lookup_insert_eq.
Qed.

Definition loop_fine (st : S) : Prop := exists l, loop_ (sel st) = Some l /\ loop_ok (l, world st).

(** The registry after an operation on the object [o] at [s], whose new value
    is [o']; all else is as before. *)
Lemma synced_change s o o' registered w (st st' : S) :
  synced st -> s <> 0 -> objects st !! s = Some o -> fd_of o' = fd_of o -> loop_fine st' ->
  (watching st !! fd_of o = None \/ exists bits, watching st !! fd_of o = Some (bits, s)) ->
  registered_ (sel st') = registered -> (forall x, x <> s -> x ∈ registered <-> x ∈ registered_ (sel st)) ->
  objects st' = <[s:=o']> (objects st) ->
  watching st' = partial_alter (fun _ => w) (fd_of o) (watching st) ->
  (s ∈ registered /\ selector_ (base o') = this /\ w = Some (events_of (desire_ (base o')), s) \/
   s ∉ registered /\ w = None) ->
  synced st'.
Proof.
  intros [Hl Hobj Hw] Hs0 Ho Hfd Hl' Hfree Hr Hother Hobj' Hw' Hcase. split; [done| |].
  - intros x. rewrite Hr, Hobj'. destruct (decide (x = s)) as [->|Hx].
    + intros Hin. split; [done|]. exists o'. rewrite lookup_insert_eq. split; [done|]. naive_solver.
    + rewrite Hother, lookup_insert_ne by done. apply Hobj.
  - intros fd bits x Hx0. rewrite Hr, Hw', Hobj'. destruct (decide (x = s)) as [->|Hx].
    + rewrite lookup_insert_eq. destruct (decide (fd = fd_of o)) as [->|Hne].
      * rewrite lookup_partial_alter_eq. destruct Hcase as [(Hin & _ & ->)|[Hin ->]]; [|naive_solver].
        split; [intros [= <-]; eauto 6|]. intros (_ & ? & [= <-] & _ & ->). done.
      * rewrite lookup_partial_alter_ne by done. split.
        -- intros E. exfalso. apply Hw in E as (Hin & o2 & Ho2 & Hfd2 & _); [|done]. congruence.
        -- intros (_ & ? & [= <-] & Hf & _). congruence.
    + rewrite lookup_insert_ne, Hother by done. rewrite <- (Hw fd bits x Hx0).
      destruct (decide (fd = fd_of o)) as [->|Hne]; [|by rewrite lookup_partial_alter_ne].
      rewrite lookup_partial_alter_eq. destruct Hcase as [(_ & _ & ->)|[_ ->]]; naive_solver.
Qed.

(** What an operation reports and leaves behind. *)
Definition effect (s : ptr) (registered : gset ptr) (o' : Object) (st : S) (r : St) (st' : S) : Prop :=
  registered_ (sel st') = registered /\ objects st' = <[s:=o']> (objects st) /\
  if Status.ok r then synced st' else watching st' = watching st.

Lemma call_loop s o o' registered (m : M (L * W) St) f (st : S) :
  synced st -> objects st !! s = Some o ->
  (forall l, loop_ok (l, world st) -> watching st = loop_registry (l, world st) ->
     returns m (l, world st) (changed f (l, world st))) ->
  (forall st', loop_fine st' -> registered_ (sel st') = registered -> objects st' = <[s:=o']> (objects st) ->
     watching st' = f (watching st) -> synced st') ->
  returns (on_loop m) (calling registered s o' st) (effect s registered o' st).
Proof.
  intros Hsy Ho Hm Hf. destruct (sy_loop _ Hsy) as (l & El & Hok).
  assert (Hwl : watching st = loop_registry (l, world st)) by (unfold watching; by rewrite El).
  specialize (Hm l Hok Hwl). eapply returns_mono; [eapply on_loop_changed; [exact El|exact Hm]|].
  intros r st' (Hfine & Hr & Hobj & Hw). change (watching (calling registered s o' st)) with (watching st) in Hw.
  split; [done|]. split; [done|]. destruct (Status.ok r); [|done]. by apply Hf.
Qed.

Lemma Register_spec s o (st : S) :
  synced st -> s <> 0 -> objects st !! s = Some o -> allowed st = true -> s ∉ registered_ (sel st) ->
  selector_ (base o) = 0 \/ selector_ (base o) = this -> watching st !! fd_of o = None ->
  returns (Register (St := St) this s) st
    (effect s ({[s]} ∪ registered_ (sel st)) (with_selector this o) st).
Proof.
  intros Hsy Hs0 Ho Ha Hs Hsel Hfree. unfold returns. rewrite (Register_run _ _ _ Ho) by done.
  eapply (call_loop s o); [done|done| |].
  - intros l Hok Hwl. apply Add_law; [done|]. by rewrite <- Hwl.
  - intros st' Hfine Hr Hobj Hw. eapply (synced_change s o (with_selector this o) _
      (Some (events_of (desire_ (base o)), s)) st); eauto; [set_solver|]. left. split_and!; [set_solver|done..].
Qed.

Lemma registered_watched s o (st : S) :
  synced st -> s ∈ registered_ (sel st) -> objects st !! s = Some o ->
  s <> 0 /\ selector_ (base o) = this /\ watching st !! fd_of o = Some (events_of (desire_ (base o)), s).
Proof.
  intros Hsy Hs Ho. destruct (sy_objects _ Hsy _ Hs) as (Hs0 & o' & Ho' & Hsel). simplify_eq.
  split_and!; [done..|]. apply (sy_watching _ Hsy); [done|]. eauto 6.
Qed.

Lemma Unregister_spec s o (st : S) :
  synced st -> s ∈ registered_ (sel st) -> objects st !! s = Some o -> allowed st = true ->
  returns (Unregister (St := St) this s) st
    (effect s (registered_ (sel st) ∖ {[s]}) (with_selector 0 o) st).
Proof.
  intros Hsy Hs Ho Ha. destruct (registered_watched _ _ _ Hsy Hs Ho) as (Hs0 & Hsel & Hw).
  unfold returns. rewrite (Unregister_run _ _ _ Ho) by done. eapply (call_loop s o); [done|done| |].
  - intros l Hok Hwl. by apply Delete_law.
  - intros st' Hfine Hr Hobj Hw'. eapply (synced_change s o (with_selector 0 o) _ None st); eauto; [set_solver|].
    right. split; [set_solver|done].
Qed.

Lemma UpdateDesire_spec s o enable desire (st : S) :
  synced st -> s ∈ registered_ (sel st) -> objects st !! s = Some o -> allowed st = true ->
  returns (UpdateDesire (St := St) this s enable desire) st
    (effect s (registered_ (sel st)) (with_desire (new_desire enable desire (desire_ (base o))) o) st).
Proof.
  intros Hsy Hs Ho Ha. destruct (registered_watched _ _ _ Hsy Hs Ho) as (Hs0 & Hsel & Hw).
  unfold returns. rewrite (UpdateDesire_run _ _ _ _ _ Ho) by done. case_decide as E.
  - eexists _, _. split; [done|]. rewrite E. unfold effect. rewrite ok_OkStatus.
    split_and!; [done| |done]. symmetry. apply insert_id. rewrite Ho. by destruct o as [[??]?].
  - eapply (call_loop s o); [done|done| |].
    + intros l Hok Hwl. apply Update_law; [done|]. rewrite <- Hwl. eauto.
    + intros st' Hfine Hr Hobj Hw'. eapply (synced_change s o (with_desire (new_desire enable desire (desire_ (base o))) o) _
        (Some (events_of (new_desire enable desire (desire_ (base o))), s)) st); eauto.
Qed.

(** An object that this selector already has. *)
Lemma Register_again s o (st : S) :
  synced st -> s ∈ registered_ (sel st) -> objects st !! s = Some o -> allowed st = true ->
  Register (St := St) this s st = Ret OkStatus st.
Proof.
  intros Hsy Hs Ho Ha. destruct (registered_watched _ _ _ Hsy Hs Ho) as (_ & Hsel & _).
  unfold Register, RET_CHECK. rewrite bind_may_change, Ha, (bind_selector _ _ _ Ho). unfold bind at 1.
  rewrite Hsel, decide_False by done. unfold ret at 1. rewrite Z.eqb_refl. cbv beta iota.
  rewrite (bind_GetFd _ _ _ Ho), bind_field, decide_True by done. done.
Qed.

(** An object made for this selector and not registered, or registered and
    gone: what is left is its selector. *)
Lemma Unregister_absent s o (st : S) :
  synced st -> s <> 0 -> s ∉ registered_ (sel st) -> objects st !! s = Some o -> allowed st = true ->
  selector_ (base o) = this -> watching st !! fd_of o = None ->
  returns (Unregister (St := St) this s) st (effect s (registered_ (sel st)) (with_selector 0 o) st).
Proof.
  intros Hsy Hs0 Hs Ho Ha Hsel Hfree. unfold returns. rewrite (Unregister_run _ _ _ Ho) by done.
  assert (Er : registered_ (sel st) ∖ {[s]} = registered_ (sel st)) by set_solver. rewrite Er.
  eapply (call_loop s o); [done|done| |].
  - intros l Hok Hwl. by apply Delete_law.
  - intros st' Hfine Hr Hobj Hw'. eapply (synced_change s o (with_selector 0 o) _ None st); eauto.
Qed.

Definition refused (m : M S St) (st : S) : Prop := exists r, m st = Ret r st /\ code r = kFailedPrecondition.

Lemma refuses s o (st : S) : objects st !! s = Some o ->
  (allowed st = false \/ selector_ (base o) <> this ->
   refused (Unregister this s) st /\ forall enable desire, refused (UpdateDesire this s enable desire) st) /\
  (allowed st = false \/ selector_ (base o) <> this /\ selector_ (base o) <> 0 -> refused (Register this s) st).
Proof.
  intros Ho. unfold refused, Register, Unregister, UpdateDesire, RET_CHECK. rewrite !bind_may_change.
  split; intros Hno; destruct (allowed st) eqn:Ha.
  - destruct Hno as [|Hne]; [done|]. apply Z.eqb_neq in Hne.
    split; [rewrite (bind_selector _ _ _ Ho), Hne|intros; rewrite bind_may_change, Ha, (bind_selector _ _ _ Ho), Hne];
      (eexists; split; [done|]; rewrite code_return_error; apply code_mk).
  - split; [|intros; rewrite bind_may_change, Ha]; (eexists; split; [done|]; rewrite code_return_error; apply code_mk).
  - destruct Hno as [|[Hne Hnz]]; [done|]. apply Z.eqb_neq in Hne. rewrite (bind_selector _ _ _ Ho). unfold bind at 1.
    rewrite decide_False by done. unfold ret at 1. rewrite Hne. eexists. split; [done|]. rewrite code_return_error. apply code_mk.
  - eexists. split; [done|]. rewrite code_return_error. apply code_mk.
Qed.

(** C3: from a state in which the event loop watches exactly the registered
    objects, each on its descriptor for its desires, a call by a thread that
    may make it leads to such a state whenever it returns OK, having changed
    only its object and the set of registered objects: [Register] of an object
    without a selector or made for this one, whose descriptor nobody has
    registered; [Unregister] of a registered object, and of one made for this
    selector that is not registered; a change of the desires of a registered
    object.  When the event loop refuses, its registry stays as it was (the set
    and the object are changed all the same).  [Register] of a registered object
    changes nothing and returns OK, and so does a change of desires that are
    set already.  From any other thread, or for an object of another selector,
    nothing changes and the call fails; so do [Unregister] and a change of
    desires for an object without a selector.  (A change of the desires of an
    object that is not registered asks the event loop for a descriptor that it
    does not have; what it answers is left open.) *)
Theorem registration_synced s o (st : S)
    (Hsync : synced st) (Hs0 : s <> 0) (Ho : objects st !! s = Some o) :
  (allowed st = true -> s ∉ registered_ (sel st) -> watching st !! fd_of o = None ->
   (selector_ (base o) = 0 \/ selector_ (base o) = this ->
    returns (Register (St := St) this s) st (effect s ({[s]} ∪ registered_ (sel st)) (with_selector this o) st)) /\
   (selector_ (base o) = this ->
    returns (Unregister (St := St) this s) st (effect s (registered_ (sel st)) (with_selector 0 o) st))) /\
  (allowed st = true -> s ∈ registered_ (sel st) ->
   Register (St := St) this s st = Ret OkStatus st /\
   returns (Unregister (St := St) this s) st (effect s (registered_ (sel st) ∖ {[s]}) (with_selector 0 o) st) /\
   forall enable desire, returns (UpdateDesire (St := St) this s enable desire) st
     (effect s (registered_ (sel st)) (with_desire (new_desire enable desire (desire_ (base o))) o) st)) /\
  (allowed st = true -> selector_ (base o) = this -> forall enable desire,
   new_desire enable desire (desire_ (base o)) = desire_ (base o) -> UpdateDesire (St := St) this s enable desire st = Ret OkStatus st) /\
  (allowed st = false \/ selector_ (base o) <> this ->
   refused (Unregister this s) st /\ forall enable desire, refused (UpdateDesire this s enable desire) st) /\
  (allowed st = false \/ selector_ (base o) <> this /\ selector_ (base o) <> 0 -> refused (Register this s) st).
Proof.
  split; [intros; split; intros; [by apply Register_spec|by apply Unregister_absent]|].
  split; [intros; split_and!; [by eapply Register_again|by apply Unregister_spec|intros; by apply UpdateDesire_spec]|].
  split; [|by apply refuses].
  intros Ha Hsel enable desire E. rewrite (UpdateDesire_run _ _ _ _ _ Ho Ha Hsel). by rewrite decide_True.
Qed.
End Registration.

(** ** A small world, and what the selector does in it *)

Module SimSelector.
Import SimPoll RefAbsl SortedHeap.

(** Writes succeed, nothing is to be read, the clock stands still, and every
    thread is number 1. *)
#[export] Instance sim_file : PosixFile kernel := {
  sys_open _ _ _ w := (-1, w); sys_close _ w := (0, w); sys_fstat _ w := ((-1, 0), w);
  sys_lseek _ _ _ w := (-1, w); sys_ftruncate _ _ w := (-1, w);
  sys_read _ _ w := ((-1, []), w);
  sys_write _ _ n w := (n, w);
  sys_writev _ _ n w := (n, w);
  sys_fdatasync _ w := (0, w)
}.
#[export] Instance sim_sys : SelectorSys kernel := {
  sys_pipe w := ((0, (3, 4)), w);
  sys_eventfd w := (3, w);
  sys_getfl _ w := (0, w);
  sys_setfl _ _ w := (0, w);
  sys_now w := (1000, w);
  pthread_self _ := 1
}.
#[export, refine] Instance sim_signal : SignalLaws kernel := { readable _ _ := 0%nat; capacity := 0%nat }.
Proof.
  - done.
  - intros fd n w. simpl. lia.
Defined.
#[export] Instance sim_strerror : Strerror := fun _ => Xsi 0 "text".

Abbreviation state := (State SomeLoop Z kernel).

#[export] Instance sim_program : Program state Z := {
  run_user _ := ret tt;
  HandleReadEvent _ _ := ret true;
  HandleWriteEvent _ _ := ret true;
  HandleErrorEvent _ _ := ret true;
  Selectable_Close _ := store (set_registered ∅)
}.

(** A selector on an [epoll] descriptor, stopped, with three callbacks queued
    and the object 100 of descriptor 7. *)
Definition sim_selector : Selector SomeLoop Z :=
  MkSelector default_params 0 false 3 (-1, -1) 3 3 (Some (EpollLoop (MkEpoll 3 128 5))) ∅
    (enqueue StoreShouldEnd (enqueue (UserFunction 2) (enqueue (UserFunction 1) no_callbacks)))
    no_alarms None 0.
Definition sim_object : Object := MkObject (Selectable_ctor 0) 7.
Definition sim_state : state := MkState sim_selector {[100 := sim_object]} (Kernel 0 ∅ ∅).
End SimSelector.

Section Witnesses.
Import SimPoll RefAbsl SortedHeap SimSelector.

Lemma alarms_refine_contract_witness :
  let es := [Registered 0 5 10; Fired 20 [(0, 5)]; Registered 1 6 30; Unregistered 1] in
  exists a p, alarm_trace no_alarms es a /\ contract_trace ∅ es p /\ num_registered_alarms_ a = Z.of_nat (size p).
Proof.
  intros es.
  assert (Ht : alarm_trace no_alarms es (MkAlarms 2 ∅ [(30, 1)] 30 0))
    by (repeat (eapply trace_cons; [vm_compute; reflexivity|]); apply trace_nil).
  eexists _. destruct (alarms_refine_contract es _ Ht ltac:(done)) as (p & Hc & _ & Hn & _).
  by exists p.
Defined.

(** Two alarms, at 10 and 20: at 15 none runs, and at 30 only the second one.
    The loop takes its alarm from the end of the vector but [pop_heap] removes
    the first. *)
Lemma earliest_alarm_lost :
  let a := (register_alarm 2 20 (register_alarm 1 10 no_alarms).2).2 in
  (exists a', due_alarms 15 a = Some ([], a')) /\
  exists a', due_alarms 30 a = Some ([(1, 2)], a') /\ alarms_ a' = {[0 := 1]} /\ alarm_timeouts_ a' = [].
Proof. split; [|eexists; split_and!; vm_compute; reflexivity]. eexists. vm_compute. reflexivity. Qed.

(** Once the heap is empty the next deadline is in the infinite past, so the
    loop never waits again, but for the millisecond of [PollTimeout]. *)
Lemma no_alarm_no_wait :
  exists a', due_alarms 30 (register_alarm 1 10 no_alarms).2 = Some ([(0, 1)], a') /\
             next_alarm_time_ a' = InfinitePast_nanos.
Proof. eexists. split; vm_compute; reflexivity. Qed.

Lemma callbacks_fifo_no_lost_wakeup_witness :
  let s := MkThreads (enqueue 5 no_callbacks) true (Waiting true) [Idle []] [5] [] in
  reachable initially (thread_step 64) s /\ posted s = ran s ++ in_flight (pc s) ++ to_run_ (queue s).
Proof.
  intros s. assert (Hr : reachable initially (thread_step 64) s).
  { exists (MkThreads no_callbacks false AtTop [Idle [5]] [] []). split; [by exists [[5]]|].
    eapply rtc_l; [apply step_top|]. eapply rtc_l; [by apply (step_post _ 0 5 [])|].
    eapply rtc_l; [by apply (step_send _ 0 [])|]. apply rtc_refl. }
  split; [exact Hr|]. apply (callbacks_fifo_no_lost_wakeup 64 s Hr).
Defined.

(** A signal that arrives after its callback was run is never read: the
    selector thread goes round without waiting until the next callback. *)
Lemma stale_signal_spins (ps : list (poster (Fn := Z))) po r :
  tc (thread_step 64) (MkThreads no_callbacks true AtTop ps po r) (MkThreads no_callbacks true AtTop ps po r).
Proof.
  eapply tc_l; [apply step_top|]. eapply tc_l; [apply step_wait|]. apply tc_once, (step_check 64 0 no_callbacks).
Qed.

Lemma sim_functions_return f (s : state) :
  returns (run_function (St := rstatus) 1 f) s (fun _ s' => params_ (sel s') = params_ (sel s)).
Proof.
  destruct f as [f| |]; [by apply returns_ret|by eexists _, _|].
  unfold run_function, CleanAndCloseAll, RET_CHECK, returns. rewrite bind_assoc, bind_may_change.
  destruct (allowed s); [|by eexists _, _].
  cbn [close_loop]. unfold first_registered, field, gets, bind.
  destruct (head (elements (registered_ (sel s)))); by eexists _, _.
Qed.

Lemma run_callbacks_spec_witness :
  returns (RunCallbacks (St := rstatus) 1 1 2) sim_state (fun k s' =>
    k = 2 /\ to_run_ (callbacks_ (sel s')) = [StoreShouldEnd]) /\
  returns (LoopCallbacks (St := rstatus) 1 1) sim_state (fun k s' => 0 <= k <= 64).
Proof.
  assert (Hclock : forall w : kernel, 0 < (sys_now w).1 + callbacks_timeout_per_event (params_ (sel sim_state)))
    by (intros w; vm_compute; reflexivity).
  assert (Hf : (capacity (W := kernel) < 1)%nat) by (vm_compute; constructor).
  assert (Hflag : flag_ok (callbacks_ (sel sim_state))) by by split.
  destruct (run_callbacks_spec (St := rstatus) 1 1 2 sim_state Hf Hflag Hclock sim_functions_return)
    as ((w0 & r & data & w1 & s' & _ & _ & _ & Er) & (k2 & s2 & E2 & Hk2 & _)).
  split; [|exists k2, s2; split; [exact E2|exact Hk2]].
  eexists _, s'. split; [exact Er|]. split; [reflexivity|]. vm_compute in Er. by injection Er as <-.
Defined.

Lemma sim_synced : synced (St := rstatus) 9 sim_state.
Proof.
  split; [by eexists| |].
  - intros s Hs. by apply elem_of_empty in Hs.
  - intros fd bits s Hs. split; [|intros [Hin _]; by apply elem_of_empty in Hin].
    intros E. vm_compute in E. discriminate.
Qed.

Lemma registration_synced_witness :
  synced (St := rstatus) 9 sim_state /\
  returns (Register (St := rstatus) 9 100) sim_state (fun r s' =>
    registered_ (sel s') = {[100]} /\ Status.ok r = true /\ synced (St := rstatus) 9 s').
Proof.
  split; [exact sim_synced|].
  destruct (registration_synced (St := rstatus) 9 ltac:(lia) 100 sim_object sim_state sim_synced
              ltac:(lia) ltac:(vm_compute; reflexivity)) as (Hr & _).
  destruct (Hr ltac:(reflexivity) ltac:(set_solver) ltac:(vm_compute; reflexivity)) as [Hr1 _].
  destruct (Hr1 ltac:(left; reflexivity)) as (r & s' & E & Hreg & _ & He).
  exists r, s'. split; [exact E|]. assert (Hok : Status.ok r = true) by (vm_compute in E; by injection E as <- _).
  rewrite Hok in He. split_and!; [|exact Hok|exact He]. rewrite Hreg. vm_compute. reflexivity.
Defined.
End Witnesses.
