(* ===== verification/Timeouter.v ===== *)
(** * Timeouts by identifier ([whisperlib/net/timeouter.h], [whisperlib/net/timeouter.cc])

    A [Timeouter] keeps one alarm of its selector per timeout identifier, among
    the alarms of others.  The function it registers calls [ProcessTimeout] of
    an identifier; [now] is the time at which [RegisterAlarm] reads the clock.
    The selector takes the alarms that are due, then runs their functions one
    by one: in between, and in each of them, timeouts are set and cleared. *)

From S2P Require Import Prelude Selector.

(** [timeouts_], the alarm of each identifier. *)
Record Timeouter := MkTimeouter { timeouts_ : gmap Z Z }.

Definition Timeouter_ctor : Timeouter := MkTimeouter ∅.

Section Timeouter.
Context {Fn : Type} `{!HeapApi}.
(** [[this, timeout_id]() { ProcessTimeout(timeout_id); }] *)
Context (alarm_of : Z -> Fn).

Definition SetTimeout (now timeout_id timeout : Z) (t : Timeouter) (a : Alarms Fn) : Timeouter * Alarms Fn :=
  match timeouts_ t !! timeout_id with
  | Some alarm_id =>
      let a := unregister_alarm alarm_id a in
      let '(alarm_id, a) := register_alarm (alarm_of timeout_id) (now + timeout) a in
      (MkTimeouter (<[timeout_id:=alarm_id]> (timeouts_ t)), a)
  | None =>
      let '(alarm_id, a) := register_alarm (alarm_of timeout_id) (now + timeout) a in
      (MkTimeouter (<[timeout_id:=alarm_id]> (timeouts_ t)), a)
  end.

(** The entry of the map stays. *)
Definition ClearTimeout (timeout_id : Z) (t : Timeouter) (a : Alarms Fn) : bool * Alarms Fn :=
  match timeouts_ t !! timeout_id with
  | None => (false, a)
  | Some alarm_id => (true, unregister_alarm alarm_id a)
  end.

Definition ClearAllTimeouts (t : Timeouter) (a : Alarms Fn) : Timeouter * Alarms Fn :=
  (MkTimeouter ∅, foldr unregister_alarm a (map_to_list (timeouts_ t)).*2).

Definition Timeouter_dtor (t : Timeouter) (a : Alarms Fn) : Timeouter * Alarms Fn := ClearAllTimeouts t a.

(** Whether [callback_] is called, after the critical section. *)
Definition ProcessTimeout (timeout_id : Z) (t : Timeouter) : bool * Timeouter :=
  match timeouts_ t !! timeout_id with
  | Some _ => (true, MkTimeouter (delete timeout_id (timeouts_ t)))
  | None => (false, t)
  end.

(** ** The system

    The timeouter, the alarms of its selector, and the functions that the
    selector has taken and not yet run. *)
Record Timers := MkTimers {
  timeouter : Timeouter;
  alarms : Alarms Fn;
  taken : list (Z * Fn)
}.

Definition timers_start : Timers := MkTimers Timeouter_ctor no_alarms [].

(** The timeout of a function, if it is one of this timeouter. *)
Context (timeout_of : Fn -> option Z).

(** Any thread sets and clears timeouts; others use the same selector; the
    thread of the selector takes the alarms due, and runs the next function. *)
Inductive timeout_op :=
| Set_ (now timeout_id timeout : Z)
| Clear (timeout_id : Z)
| ClearAll
| OtherAlarm (f : Fn) (deadline : Z)
| OtherClear (alarm_id : Z)
| Take (now : Z)
| RunNext.

(** The answer of [ClearTimeout], and the timeout for which [callback_] is
    called. *)
Inductive timeout_step : Timers -> timeout_op -> bool -> option Z -> Timers -> Prop :=
| step_set t a l now id d :
    timeout_step (MkTimers t a l) (Set_ now id d) true None
      (MkTimers (SetTimeout now id d t a).1 (SetTimeout now id d t a).2 l)
| step_clear t a l id :
    timeout_step (MkTimers t a l) (Clear id) (ClearTimeout id t a).1 None (MkTimers t (ClearTimeout id t a).2 l)
| step_clear_all t a l :
    timeout_step (MkTimers t a l) ClearAll true None (MkTimers (ClearAllTimeouts t a).1 (ClearAllTimeouts t a).2 l)
| step_other t a l f d : timeout_of f = None ->
    timeout_step (MkTimers t a l) (OtherAlarm f d) true None (MkTimers t (register_alarm f d a).2 l)
| step_other_clear t a l x : (forall id, timeouts_ t !! id <> Some x) ->
    timeout_step (MkTimers t a l) (OtherClear x) true None (MkTimers t (unregister_alarm x a) l)
| step_take t a now run a' : due_alarms now a = Some (run, a') ->
    timeout_step (MkTimers t a []) (Take now) true None (MkTimers t a' run)
| step_run t a x f l :
    timeout_step (MkTimers t a ((x, f) :: l)) RunNext true
      (match timeout_of f with Some id => if (ProcessTimeout id t).1 then Some id else None | None => None end)
      (MkTimers (match timeout_of f with Some id => (ProcessTimeout id t).2 | None => t end) a l).

(** ** The contract

    [armed] is the deadline of each timeout that is set; [flight] is what the
    selector is about to run: functions of others, timeouts to be called, and
    timeouts cancelled by [ClearAllTimeouts]. *)
Inductive Flight := Foreign | Live (timeout_id : Z) | Stale (timeout_id : Z).

Definition flight_id (x : Flight) : list Z := match x with Foreign => [] | Live id | Stale id => [id] end.
Definition cancel (x : Flight) : Flight := match x with Live id => Stale id | _ => x end.
Definition in_flight (flight : list Flight) : list Z := held flight_id flight.
Definition live_ids (flight : list Flight) : list Z := held (fun x => match x with Live id => [id] | _ => [] end) flight.

Definition timeout_contract (armed : gmap Z Z) (flight : list Flight) (o : timeout_op) (answer : bool) (call : option Z)
    (armed' : gmap Z Z) (flight' : list Flight) : Prop :=
  match o with
  | Set_ now id d => armed' = <[id:=now + d]> armed /\ flight' = flight /\ call = None
  | Clear id => armed' = delete id armed /\ flight' = flight /\ call = None /\ (answer = false -> armed !! id = None)
  | ClearAll => armed' = ∅ /\ flight' = map cancel flight /\ call = None
  | OtherAlarm _ _ | OtherClear _ => armed' = armed /\ flight' = flight /\ call = None
  | Take now =>
      call = None /\ NoDup (in_flight flight') /\ live_ids flight' = in_flight flight' /\
      (forall id, id ∈ in_flight flight' -> exists d, armed !! id = Some d /\ d <= now) /\
      armed' = foldr delete armed (in_flight flight')
  | RunNext =>
      exists x, flight = x :: flight' /\ armed' = armed /\ call = match x with Live id => Some id | _ => None end
  end.

(** A timeout that the selector has taken and not yet run is not set or
    cleared. *)
Definition not_taken (y : Timers) (o : timeout_op) : Prop :=
  match o with
  | Set_ _ id _ | Clear id => forall x f, (x, f) ∈ taken y -> timeout_of f <> Some id
  | _ => True
  end.

Abbreviation event := (timeout_op * bool * option Z)%type.

Inductive timeout_trace (y : Timers) : list event -> Timers -> Prop :=
| tt_nil : timeout_trace y [] y
| tt_cons o b call es y' y'' :
    not_taken y o -> timeout_step y o b call y' -> timeout_trace y' es y'' -> timeout_trace y ((o, b, call) :: es) y''.

Inductive timeout_contract_trace (armed : gmap Z Z) (flight : list Flight) : list event -> gmap Z Z -> list Flight -> Prop :=
| tc_nil : timeout_contract_trace armed flight [] armed flight
| tc_cons o b call es armed' flight' armed'' flight'' :
    timeout_contract armed flight o b call armed' flight' -> timeout_contract_trace armed' flight' es armed'' flight'' ->
    timeout_contract_trace armed flight ((o, b, call) :: es) armed'' flight''.

(** What the others that use the selector's alarms see of it. *)
Lemma SetTimeout_ok `{!HeapLaws} good now id d t a : (forall id, good (alarm_of id)) -> alarms_ok good a -> alarms_ok good (SetTimeout now id d t a).2.
Proof.
  intros Hg Ha. unfold SetTimeout. destruct (timeouts_ t !! id) as [x|].
  - pose proof (register_alarm_ok good (alarm_of id) (now + d) (unregister_alarm x a) (Hg id) (unregister_alarm_ok _ _ _ Ha)) as H'.
    by destruct (register_alarm _ _ _).
  - pose proof (register_alarm_ok good (alarm_of id) (now + d) a (Hg id) Ha) as H'. by destruct (register_alarm _ _ _).
Qed.

Lemma ClearAllTimeouts_ok `{!HeapLaws} good t a : alarms_ok good a -> alarms_ok good (ClearAllTimeouts t a).2.
Proof.
  intros Ha. unfold ClearAllTimeouts. simpl. induction (map_to_list (timeouts_ t)).*2 as [|x l IH]; simpl; [done|].
  by apply unregister_alarm_ok.
Qed.

(** ** Correctness *)

Context `{HH : !HeapLaws}.
Context (timeout_of_alarm : forall id, timeout_of (alarm_of id) = Some id).
Context (alarm_of_timeout : forall f id, timeout_of f = Some id -> f = alarm_of id).
Implicit Types (y : Timers) (p : gmap Z (Z * Fn)).

(** Entry [(x, f)] of the functions taken. *)
Definition flight_for (m : gmap Z Z) p (e : Z * Fn) (x : Flight) : Prop :=
  match x with
  | Foreign => timeout_of e.2 = None
  | Live id => e.2 = alarm_of id /\ m !! id = Some e.1 /\ p !! e.1 = None
  | Stale id => e.2 = alarm_of id /\ m !! id = None
  end.

(** Every pending alarm of the timeouter is that of its timeout. *)
Record timeouts_for (armed : gmap Z Z) (m : gmap Z Z) p (next : Z) : Prop := {
  tf_entry x d id : p !! x = Some (d, alarm_of id) -> m !! id = Some x;
  tf_own x d f id : m !! id = Some x -> p !! x = Some (d, f) -> f = alarm_of id;
  tf_old id x : m !! id = Some x -> x < next;
  tf_armed id d : armed !! id = Some d <-> exists x f, m !! id = Some x /\ p !! x = Some (d, f)
}.

Record timers_for (armed : gmap Z Z) (flight : list Flight) y p : Prop := {
  ti_alarms : alarms_for p (alarms y);
  ti_timeouts : timeouts_for armed (timeouts_ (timeouter y)) p (alarm_id_ (alarms y));
  ti_flight : Forall2 (flight_for (timeouts_ (timeouter y)) p) (taken y) flight;
  ti_once : NoDup (in_flight flight)
}.

Lemma alarm_of_inj i j : alarm_of i = alarm_of j -> i = j.
Proof. intros E. pose proof (timeout_of_alarm i) as Ei. rewrite E, timeout_of_alarm in Ei. by injection Ei. Qed.

(** Two identifiers have different alarms, those without one apart. *)
Lemma own_inj armed m p n i j x d f : timeouts_for armed m p n -> m !! i = Some x -> m !! j = Some x -> p !! x = Some (d, f) -> i = j.
Proof. intros [_ Ho _ _] Ei Ej Ep. apply alarm_of_inj. by rewrite <- (Ho _ _ _ _ Ei Ep), <- (Ho _ _ _ _ Ej Ep). Qed.

Lemma start_for : timers_for ∅ [] timers_start ∅.
Proof.
  split; [apply no_alarms_for|split|constructor|constructor]; try done.
  intros id d. rewrite lookup_empty. split; [done|]. by intros (x & f & E & _).
Qed.

Lemma elem_in_flight flight x id : x ∈ flight -> id ∈ flight_id x -> id ∈ in_flight flight.
Proof. intros Hx Hi. apply list_elem_of_In, in_flat_map. exists x. by rewrite <- !list_elem_of_In. Qed.

(** What is in flight stays so when its entries do and nothing of it becomes
    pending again. *)
Lemma flight_stays m p m' p' l flight :
  Forall2 (flight_for m p) l flight ->
  (forall id, id ∈ in_flight flight -> m' !! id = m !! id /\ forall x, m !! id = Some x -> p !! x = None -> p' !! x = None) ->
  Forall2 (flight_for m' p') l flight.
Proof.
  intros Hf Hs. apply Forall2_same_length_lookup in Hf as [El Hf]. apply Forall2_same_length_lookup. split; [done|].
  intros i e x Ee Ex. specialize (Hf i e x Ee Ex). apply list_elem_of_lookup_2 in Ex. destruct x as [|id|id]; simpl in *; [done|..];
    destruct (Hs id (elem_in_flight _ _ _ Ex ltac:(by left))) as [-> Hp]; naive_solver.
Qed.

(** A cancelled alarm of [id] leaves the others. *)
Lemma unregister_for armed m p n id : timeouts_for armed m p n ->
  timeouts_for (delete id armed) m (match m !! id with Some x => delete x p | None => p end) n.
Proof.
  intros Ht. pose proof Ht as [He Ho Hold Ha]. destruct (m !! id) as [x0|] eqn:E0.
  - split; [intros x d j E|intros x d f j Em E|done|]; try (apply lookup_delete_Some in E as [Hne E]; eauto).
    intros j d. rewrite lookup_delete_Some, Ha. split.
    + intros (Hne & x & f & Em & Ep). exists x, f. split; [done|]. rewrite lookup_delete_ne; [done|]. intros <-. by apply Hne, (own_inj _ _ _ _ id j _ _ _ Ht E0 Em Ep).
    + intros (x & f & Em & Ep). apply lookup_delete_Some in Ep as [Hne Ep]. split; [|by eauto]. intros <-. congruence.
  - assert (Hn : armed !! id = None) by (apply eq_None_not_Some; intros [d Hd]; apply Ha in Hd as (? & ? & ? & _); congruence).
    by rewrite delete_id.
Qed.

(** A new alarm for a timeout that has none pending. *)
Lemma register_for armed m p n id d : timeouts_for armed m p n -> armed !! id = None -> p !! n = None ->
  timeouts_for (<[id:=d]> armed) (<[id:=n]> m) (<[n:=(d, alarm_of id)]> p) (n + 1).
Proof.
  intros Ht Hid Hn. pose proof Ht as [He Ho Hold Ha]. split.
  - intros x e j E. apply lookup_insert_Some in E as [[<- [= <- Ej]]|[Hx E]]; [apply alarm_of_inj in Ej as <-; by rewrite lookup_insert_eq|].
    rewrite lookup_insert_ne; [by eapply He|]. intros ->. pose proof (He _ _ _ E) as Em.
    assert (armed !! j = Some e) by (apply Ha; eauto). congruence.
  - intros x e f j Em E. apply lookup_insert_Some in Em as [[<- <-]|[Hj Em]]; [rewrite lookup_insert_eq in E; by simplify_eq|].
    rewrite lookup_insert_ne in E by (specialize (Hold _ _ Em); lia). by eapply Ho.
  - intros j x Em. apply lookup_insert_Some in Em as [[<- <-]|[Hj Em]]; [lia|]. specialize (Hold _ _ Em). lia.
  - intros j e. destruct (decide (j = id)) as [->|Hj].
    + rewrite !lookup_insert_eq. split; [intros [= ->]; eexists _, _; by rewrite lookup_insert_eq|].
      intros (x & f & [= <-] & E). rewrite lookup_insert_eq in E. by simplify_eq.
    + rewrite !lookup_insert_ne, Ha by done. split; intros (x & f & Em & Ep); exists x, f; (split; [done|]); specialize (Hold _ _ Em).
      * rewrite lookup_insert_ne by lia. done.
      * rewrite lookup_insert_ne in Ep by lia. done.
Qed.

Lemma register_other armed m p n d f : timeouts_for armed m p n -> timeout_of f = None -> p !! n = None ->
  timeouts_for armed m (<[n:=(d, f)]> p) (n + 1).
Proof.
  intros [He Ho Hold Ha] Hf Hn. split.
  - intros x e j E. apply lookup_insert_Some in E as [[<- [= <- Ej]]|[Hx E]]; [|by eapply He]. by rewrite Ej, timeout_of_alarm in Hf.
  - intros x e g j Em E. rewrite lookup_insert_ne in E by (specialize (Hold _ _ Em); lia). by eapply Ho.
  - intros j x Em. specialize (Hold _ _ Em). lia.
  - intros j e. rewrite Ha. split; intros (x & g & Em & Ep); exists x, g; (split; [done|]); specialize (Hold _ _ Em).
    + rewrite lookup_insert_ne by lia. done.
    + rewrite lookup_insert_ne in Ep by lia. done.
Qed.

(** The number of the next alarm is that of none. *)
Lemma next_free p a : alarms_for p a -> p !! alarm_id_ a = None.
Proof. intros Ha. apply eq_None_not_Some. intros Hx. pose proof (af_ids _ _ Ha _ Hx). lia. Qed.

(** *** Each step *)

Lemma registered f d p a : alarms_for p a -> alarm_id_ a < 2 ^ 64 - 1 ->
  (register_alarm f d a).1 = alarm_id_ a /\ alarms_for (<[alarm_id_ a:=(d, f)]> p) (register_alarm f d a).2 /\
  alarm_id_ (register_alarm f d a).2 = alarm_id_ a + 1.
Proof.
  intros Ha Hlt. pose proof (register_alarm_for f d p a Ha Hlt) as HR. split; [done|].
  assert (E : register_alarm f d a = (alarm_id_ a, (register_alarm f d a).2)) by (by destruct (register_alarm f d a) eqn:E; injection E as <- _).
  rewrite E in HR. by destruct HR as (_ & ? & ?).
Qed.

Lemma SetTimeout_for armed flight t a l p now id d : timers_for armed flight (MkTimers t a l) p -> alarm_id_ a < 2 ^ 64 - 1 ->
  id ∉ in_flight flight ->
  exists p', timers_for (<[id:=now + d]> armed) flight (MkTimers (SetTimeout now id d t a).1 (SetTimeout now id d t a).2 l) p' /\
    alarm_id_ (SetTimeout now id d t a).2 = alarm_id_ a + 1.
Proof.
  intros [Ha Ht Hf Ho] Hlt Hid. simpl in *. set (p0 := match timeouts_ t !! id with Some x => delete x p | None => p end).
  set (a0 := match timeouts_ t !! id with Some x => unregister_alarm x a | None => a end).
  assert (Ha0 : alarms_for p0 a0) by (unfold p0, a0; destruct (timeouts_ t !! id); [by apply unregister_alarm_for|done]).
  assert (Ei : alarm_id_ a0 = alarm_id_ a) by (unfold a0; by destruct (timeouts_ t !! id)).
  pose proof (unregister_for _ _ _ _ id Ht) as Ht0. fold p0 in Ht0.
  destruct (registered (alarm_of id) (now + d) p0 a0 Ha0) as (E1 & Ha1 & E2); [by rewrite Ei|].
  assert (Es : SetTimeout now id d t a = (MkTimeouter (<[id:=(register_alarm (alarm_of id) (now + d) a0).1]> (timeouts_ t)), (register_alarm (alarm_of id) (now + d) a0).2)).
  { unfold SetTimeout, a0. destruct (timeouts_ t !! id); by destruct (register_alarm _ _ _). }
  rewrite Es. clear Es. destruct (register_alarm _ _ a0) as [y1 a1]. simpl in *. subst y1.
  exists (<[alarm_id_ a0:=(now + d, alarm_of id)]> p0). split; [|by rewrite E2, Ei].
  pose proof (next_free p0 a0 Ha0) as Hfree. split; simpl; [exact Ha1| | |exact Ho].
  - rewrite E2. rewrite <- (insert_delete_eq armed). apply register_for; [by rewrite Ei|by apply lookup_delete_eq|exact Hfree].
  - eapply flight_stays; [exact Hf|]. intros j Hj. split; [apply lookup_insert_ne; congruence|]. intros x Em Ep.
    rewrite lookup_insert_ne by (rewrite Ei; pose proof (tf_old _ _ _ _ Ht _ _ Em); lia). unfold p0.
    destruct (timeouts_ t !! id); [|done]. rewrite lookup_delete_None. by right.
Qed.

Lemma ClearTimeout_for armed flight t a l p id : timers_for armed flight (MkTimers t a l) p ->
  exists p', timers_for (delete id armed) flight (MkTimers t (ClearTimeout id t a).2 l) p' /\
    alarm_id_ (ClearTimeout id t a).2 = alarm_id_ a /\ ((ClearTimeout id t a).1 = false -> armed !! id = None).
Proof.
  intros [Ha Ht Hf Ho]. simpl in *. pose proof (unregister_for _ _ _ _ id Ht) as Ht0. unfold ClearTimeout.
  destruct (timeouts_ t !! id) as [x|] eqn:E; simpl.
  - exists (delete x p). split; [|done]. split; simpl; [by apply unregister_alarm_for|done| |done].
    eapply flight_stays; [exact Hf|]. intros j Hj. split; [done|]. intros z Em Ep. rewrite lookup_delete_None. by right.
  - exists p. split; [by split|]. split; [done|]. intros _. apply eq_None_not_Some. intros [d Hd].
    apply (tf_armed _ _ _ _ Ht) in Hd as (? & ? & ? & _). congruence.
Qed.

Lemma unregister_all_for (p : gmap Z (Z * Fn)) (a : Alarms Fn) ids :
  alarms_for p a -> alarms_for (foldr delete p ids) (foldr unregister_alarm a ids) /\
                    alarm_id_ (foldr unregister_alarm a ids) = alarm_id_ a.
Proof.
  intros Ha. induction ids as [|x ids [IH1 IH2]]; simpl; [done|]. split; [by apply unregister_alarm_for|done].
Qed.

Lemma lookup_foldr_delete_dec {A} (m : gmap Z A) ids x :
  foldr delete m ids !! x = if decide (x ∈ ids) then None else m !! x.
Proof. case_decide; [by apply lookup_foldr_delete|by apply lookup_foldr_delete_not_elem_of]. Qed.

Lemma ClearAllTimeouts_for armed flight t a l p : timers_for armed flight (MkTimers t a l) p ->
  exists p', timers_for ∅ (map cancel flight) (MkTimers (ClearAllTimeouts t a).1 (ClearAllTimeouts t a).2 l) p' /\
    alarm_id_ (ClearAllTimeouts t a).2 = alarm_id_ a.
Proof.
  intros [Ha Ht Hf Ho]. simpl in *. unfold ClearAllTimeouts.
  destruct (unregister_all_for p a (map_to_list (timeouts_ t)).*2 Ha) as [Ha' Hid].
  eexists. split; [|exact Hid]. split; simpl; [exact Ha'| | |].
  - split; try done.
    + intros x d id E. rewrite lookup_foldr_delete_dec in E. case_decide as Hx; [done|]. destruct Hx. apply list_elem_of_fmap. exists (id, x).
      split; [done|]. apply elem_of_map_to_list. by eapply tf_entry.
    + intros id d. rewrite lookup_empty. split; [done|]. by intros (x & f & E & _).
  - clear -Hf. induction Hf as [|e x l k Hx _ IH]; simpl; [constructor|]. constructor; [|done]. destruct x; simpl in *; [done|split; [apply Hx|apply lookup_empty]..].
  - replace (in_flight (map cancel flight)) with (in_flight flight); [done|]. clear. unfold in_flight.
    induction flight as [|[] flight IH]; simpl; [done|exact IH|f_equal; exact IH..].
Qed.

(** What the selector takes. *)
Definition flight_of (e : Z * Fn) : Flight := match timeout_of e.2 with Some id => Live id | None => Foreign end.

Lemma live_flight run : live_ids (map flight_of run) = in_flight (map flight_of run).
Proof. unfold live_ids, in_flight. induction run as [|e run IH]; simpl; [done|]. apply (f_equal2 app); [unfold flight_of; by destruct (timeout_of e.2)|exact IH]. Qed.

Lemma in_flight_of run id : id ∈ in_flight (map flight_of run) <-> exists x, (x, alarm_of id) ∈ run.
Proof.
  unfold in_flight. induction run as [|[y f] run IH]; simpl; [split; [by intros ?%not_elem_of_nil|by intros [x ?%not_elem_of_nil]]|].
  rewrite elem_of_app, IH. unfold flight_of at 1. simpl. split.
  - intros [Hi|[x Hx]]; [|exists x; by right]. destruct (timeout_of f) as [j|] eqn:E; simpl in Hi; [|by apply not_elem_of_nil in Hi].
    apply list_elem_of_singleton in Hi as ->. apply alarm_of_timeout in E as ->. exists y. by left.
  - intros [x Hx]. apply elem_of_cons in Hx as [[= -> <-]|Hx]; [left; rewrite timeout_of_alarm; by left|right; by exists x].
Qed.

Lemma take_for armed t a p now : timers_for armed [] (MkTimers t a []) p ->
  exists run a' p', due_alarms now a = Some (run, a') /\ alarm_id_ a' = alarm_id_ a /\
    timeout_contract armed [] (Take now) true None (foldr delete armed (in_flight (map flight_of run))) (map flight_of run) /\
    timers_for (foldr delete armed (in_flight (map flight_of run))) (map flight_of run) (MkTimers t a' run) p'.
Proof.
  intros [Ha Ht Hf Ho]. simpl in *. destruct (due_alarms_for now p a Ha) as (run & a' & E & Hid & (Hnd & Hrun & _) & Ha').
  pose proof Ht as [He Hown Hold Harm].
  assert (Hin : forall id x, (x, alarm_of id) ∈ run -> timeouts_ t !! id = Some x /\ exists d, p !! x = Some (d, alarm_of id) /\ armed !! id = Some d /\ d <= now).
  { intros id x Hi. destruct (Hrun _ _ Hi) as (d & Hp & Hd). split; [by eapply He|]. exists d. split; [done|]. split; [|done]. apply Harm. eauto. }
  assert (Hnd2 : NoDup (in_flight (map flight_of run))).
  { clear -Hnd Hin timeout_of_alarm alarm_of_timeout. unfold in_flight. induction run as [|[x f] run IH]; simpl in *; [constructor|].
    apply NoDup_cons in Hnd as [Hx Hnd]. apply NoDup_app. split; [unfold flight_of; case_match; repeat constructor; set_solver|].
    split; [|apply IH; [done|set_solver]]. intros id Hi Hi2. unfold flight_of in Hi. simpl in Hi. destruct (timeout_of f) as [j|] eqn:Ef; simpl in Hi; [|set_solver].
    apply list_elem_of_singleton in Hi as ->. apply alarm_of_timeout in Ef as ->. apply in_flight_of in Hi2 as [z Hz]. apply Hx.
    destruct (Hin j z ltac:(by right)) as [E1 _], (Hin j x ltac:(by left)) as [E2 _]. simplify_eq. apply list_elem_of_fmap. by eexists (z, _). }
  assert (Hgone : forall x d f, foldr delete p run.*1 !! x = Some (d, f) <-> p !! x = Some (d, f) /\ x ∉ run.*1).
  { intros x d f. rewrite lookup_foldr_delete_dec. case_decide; naive_solver. }
  exists run, a', (foldr delete p run.*1). split; [done|]. split; [done|]. split; [|split; simpl; [done| | |done]].
  - split; [done|]. split; [done|]. split; [apply live_flight|]. split; [|done]. intros id Hi. apply in_flight_of in Hi as [x Hx].
    destruct (Hin _ _ Hx) as (_ & d & _ & Hd). by exists d.
  - split; [intros x d id [Ep _]%Hgone; by eapply He|intros x d f id Em [Ep _]%Hgone; by eapply Hown|by rewrite Hid|].
    intros id d. rewrite lookup_foldr_delete_dec. case_decide as Hi.
    + split; [done|]. intros (x & f & Em & [Ep Hx]%Hgone). destruct Hx. apply in_flight_of in Hi as [z Hz].
      destruct (Hin _ _ Hz) as [Em2 _]. simplify_eq. apply list_elem_of_fmap. by eexists (x, _).
    + rewrite Harm. split; intros (x & f & Em & Ep); exists x, f; (split; [done|]); [|by apply Hgone in Ep as [? _]].
      apply Hgone. split; [done|]. intros Hx. apply list_elem_of_fmap in Hx as ([z g] & -> & Hz). simpl in *.
      destruct (Hrun _ _ Hz) as (d' & Hp' & _). simplify_eq. apply (Hown _ _ _ _ Em) in Ep as ->. apply Hi, in_flight_of. by eexists.
  - enough (Hall : forall l, (forall e, e ∈ l -> e ∈ run) -> Forall2 (flight_for (timeouts_ t) (foldr delete p run.*1)) l (map flight_of l)) by (by apply Hall).
    induction l as [|[x f] l IH]; intros Hl; simpl; [constructor|].
    constructor; [|apply IH; set_solver]. unfold flight_of. simpl. destruct (timeout_of f) as [id|] eqn:Ef; simpl; [|done].
    apply alarm_of_timeout in Ef as ->. split; [done|]. destruct (Hin id x ltac:(apply Hl; by left)) as [Em _]. split; [done|].
    rewrite lookup_foldr_delete_dec, decide_True; [done|]. apply list_elem_of_fmap. eexists (x, _). split; [done|]. apply Hl. by left.
Qed.

Lemma run_for armed t a x f l fl p : timers_for armed fl (MkTimers t a ((x, f) :: l)) p ->
  exists e flight', fl = e :: flight' /\
    match timeout_of f with Some id => if (ProcessTimeout id t).1 then Some id else None | None => None end =
      (match e with Live id => Some id | _ => None end) /\
    timers_for armed flight' (MkTimers (match timeout_of f with Some id => (ProcessTimeout id t).2 | None => t end) a l) p.
Proof.
  intros [Ha Ht Hf Ho]. simpl in *. destruct fl as [|e flight']; [by apply Forall2_nil_inv_r in Hf|].
  apply Forall2_cons in Hf as [He Hf]. unfold in_flight in Ho. simpl in Ho. apply NoDup_app in Ho as (_ & Hnew & Ho).
  exists e, flight'. split; [done|]. destruct e as [|id|id]; simpl in He.
  - rewrite He. split; [done|]. by split.
  - destruct He as (-> & Em & Ep). rewrite timeout_of_alarm. unfold ProcessTimeout. rewrite Em. simpl. split; [done|].
    assert (Hid : id ∉ in_flight flight') by (apply Hnew; by left). split; simpl; [done| | |done].
    + destruct Ht as [Hent Hown Hold Harm]. split.
      * intros z d j Ez. rewrite lookup_delete_ne; [by eapply Hent|]. intros ->. pose proof (Hent _ _ _ Ez). congruence.
      * intros z d g j Ej Ez. apply lookup_delete_Some in Ej as [_ Ej]. by eapply Hown.
      * intros j z Ej. apply lookup_delete_Some in Ej as [_ Ej]. by eapply Hold.
      * intros j d. rewrite Harm. split; intros (z & g & Ej & Ez); exists z, g; (split; [|done]); [|by apply lookup_delete_Some in Ej as [_ ?]].
        rewrite lookup_delete_ne; [done|]. intros ->. congruence.
    + eapply flight_stays; [exact Hf|]. intros j Hj. split; [apply lookup_delete_ne; congruence|done].
  - destruct He as (-> & Em). rewrite timeout_of_alarm. unfold ProcessTimeout. rewrite Em. split; [done|]. by split.
Qed.

(** What the selector has taken is what is in flight. *)
Lemma not_taken_flight armed flight y p id : timers_for armed flight y p ->
  (forall x f, (x, f) ∈ taken y -> timeout_of f <> Some id) -> id ∉ in_flight flight.
Proof.
  intros [_ _ Hf _] Hn Hin. apply list_elem_of_In, in_flat_map in Hin as (e & He & Hi).
  apply list_elem_of_In, list_elem_of_lookup in He as [i He]. apply list_elem_of_In in Hi.
  destruct (Forall2_lookup_r _ _ _ _ _ Hf He) as ([x f] & Ex & Hfor). apply list_elem_of_lookup_2 in Ex. apply (Hn x f Ex).
  destruct e as [|j|j]; simpl in *; [by apply not_elem_of_nil in Hi|..]; apply list_elem_of_singleton in Hi as ->;
    destruct Hfor as [-> _]; apply timeout_of_alarm.
Qed.

Lemma timeout_step_refines armed flight y p o b call y' : timers_for armed flight y p -> alarm_id_ (alarms y) < 2 ^ 64 - 1 ->
  not_taken y o -> timeout_step y o b call y' ->
  exists armed' flight' p', timeout_contract armed flight o b call armed' flight' /\ timers_for armed' flight' y' p' /\
    alarm_id_ (alarms y') <= alarm_id_ (alarms y) + 1.
Proof.
  intros Hy Hlt Hn Hs. destruct Hs as [t a l now id d|t a l id|t a l|t a l f d Hf|t a l x Hx|t a now run a' E|t a x f l]; simpl in Hlt.
  - pose proof (not_taken_flight _ _ _ _ _ Hy Hn) as Hid. destruct (SetTimeout_for armed flight t a l p now id d Hy Hlt Hid) as (p' & Hy' & E).
    eexists _, flight, p'. split; [done|]. split; [done|]. cbn [alarms]. lia.
  - destruct (ClearTimeout_for armed flight t a l p id Hy) as (p' & Hy' & E & Hb). eexists _, flight, p'. split; [by split_and!|].
    split; [done|]. cbn [alarms]. lia.
  - destruct (ClearAllTimeouts_for armed flight t a l p Hy) as (p' & Hy' & E). eexists _, _, p'. split; [done|]. split; [done|]. cbn [alarms]. lia.
  - destruct Hy as [Ha Ht Hfl Ho]. cbn [alarms timeouter taken] in *. destruct (registered f d p a Ha Hlt) as (_ & Ha' & E).
    exists armed, flight, (<[alarm_id_ a:=(d, f)]> p). split; [done|]. split; [|cbn [alarms]; lia]. pose proof (next_free p a Ha).
    split; cbn [alarms timeouter taken]; [done|rewrite E; by apply register_other| |done].
    eapply flight_stays; [exact Hfl|]. intros id _. split; [done|]. intros x Em Ep.
    pose proof (tf_old _ _ _ _ Ht _ _ Em). by rewrite lookup_insert_ne by lia.
  - destruct Hy as [Ha Ht Hfl Ho]. cbn [alarms timeouter taken] in *. exists armed, flight, (delete x p). split; [done|]. split; [|simpl; lia].
    split; cbn [alarms timeouter taken]; [by apply unregister_alarm_for| | |done].
    + destruct Ht as [He Hown Hold Harm]. split; [intros z e j Ez|intros z e g j Ej Ez|done|]; try (apply lookup_delete_Some in Ez as [_ Ez]; eauto).
      intros j e. rewrite Harm. split; intros (z & g & Ej & Ez); exists z, g; (split; [done|]); [|by apply lookup_delete_Some in Ez as [_ ?]].
      rewrite lookup_delete_ne; [done|]. intros <-. by eapply Hx.
    + eapply flight_stays; [exact Hfl|]. intros id _. split; [done|]. intros z _ Ez. rewrite lookup_delete_None. by right.
  - assert (flight = []) as -> by (pose proof (ti_flight _ _ _ _ Hy) as Hfl; by apply Forall2_nil_inv_l in Hfl).
    destruct (take_for armed t a p now Hy) as (run2 & a2 & p' & E2 & Ei & Hc & Hy'). rewrite E in E2. injection E2 as <- <-.
    eexists _, _, p'. split; [done|]. split; [done|]. cbn [alarms]. lia.
  - destruct (run_for armed t a x f l flight p Hy) as (e & flight' & -> & Ecall & Hy'). rewrite Ecall.
    exists armed, flight', p. split; [by exists e|]. split; [done|]. simpl. lia.
Qed.

Lemma timeout_trace_refines armed flight y p es y' : timers_for armed flight y p -> alarm_id_ (alarms y) + zlen es < 2 ^ 64 ->
  timeout_trace y es y' ->
  exists armed' flight' p', timeout_contract_trace armed flight es armed' flight' /\ timers_for armed' flight' y' p'.
Proof.
  intros Ht Hlt Htr. revert armed flight p Ht Hlt. induction Htr as [|y o b call es y1 y2 Hn Hs Htr IH]; intros armed flight p Ht Hlt.
  { exists armed, flight, p. split; [constructor|done]. }
  rewrite zlen_cons in Hlt. pose proof (zlen_nonneg es).
  destruct (timeout_step_refines armed flight y p o b call y1 Ht) as (armed1 & fl1 & p1 & Hc & Ht1 & Hi); [lia|done|done|].
  destruct (IH armed1 fl1 p1 Ht1) as (armed2 & fl2 & p2 & Hc2 & Ht2); [lia|]. exists armed2, fl2, p2. split; [by econstructor|done].
Qed.

(** An alarm alone in the heap is taken when it is due. *)
Lemma lone_alarm_due (a : Alarms Fn) p x d f now : alarms_for p a -> alarm_timeouts_ a = [(d, x)] -> p !! x = Some (d, f) -> d <= now ->
  exists a', due_alarms now a = Some ([(x, f)], a').
Proof.
  intros Ha Eh Ep Hle. unfold due_alarms. rewrite (af_map _ _ Ha), Eh. cbn [due_loop length back last].
  rewrite (proj2 (Z.leb_le _ _)) by done. cbn [negb]. rewrite lookup_fmap, Ep. cbn [fmap option_fmap option_map snd].
  pose proof (af_heap _ _ Ha) as Hh. rewrite Eh in Hh. destruct (pop_heap_spec (d, x) [] Hh) as (r & Er & _ & Hp).
  apply Permutation_nil_r in Hp as ->. rewrite Er. simpl. by eexists.
Qed.

(** C19: timeouts against their contract, with the alarms of the selector live:
    any number of threads set and clear timeouts, others use the same selector,
    and the selector takes the alarms that are due and then runs their
    functions one by one, with all of this in between and in the functions
    themselves.  Provided that no timeout is set, or cleared by itself, while
    the selector has taken its alarm and not yet run it, the callback is called
    only for timeouts that are set, once per setting, not before the deadline
    of the last setting, and never after a cancellation; [ClearAllTimeouts]
    cancels also what was taken; [ClearTimeout] answers [false] only for a
    timeout that is not set.  The selector can always take what is due, and a
    timeout whose alarm is the only one of the selector is then called. *)
Theorem timeouter_refines_contract (es : list event) y
    (Htrace : timeout_trace timers_start es y) (Hmany : zlen es < 2 ^ 64) :
  exists armed flight, timeout_contract_trace ∅ [] es armed flight /\
    (taken y = [] -> forall now, exists y' armed' flight', timeout_step y (Take now) true None y' /\
       timeout_contract armed flight (Take now) true None armed' flight' /\
       forall id d x, alarm_timeouts_ (alarms y) = [(d, x)] -> timeouts_ (timeouter y) !! id = Some x ->
         armed !! id = Some d -> d <= now -> flight' = [Live id] /\ exists y'', timeout_step y' RunNext true (Some id) y'').
Proof.
  destruct (timeout_trace_refines ∅ [] timers_start ∅ es y start_for) as (armed & flight & p & Hc & Hy); [simpl; lia|done|].
  exists armed, flight. split; [done|]. intros Htaken now. destruct y as [t a l]. simpl in Htaken. subst l.
  assert (flight = []) as -> by (pose proof (ti_flight _ _ _ _ Hy) as Hfl; by apply Forall2_nil_inv_l in Hfl).
  destruct (take_for armed t a p now Hy) as (run & a' & p' & E & _ & Hk & Hy').
  eexists _, _, _. split; [by apply step_take|]. split; [exact Hk|]. simpl. intros id d x Eh Em Harm Hle.
  apply (tf_armed _ _ _ _ (ti_timeouts _ _ _ _ Hy)) in Harm as (x' & f & Em' & Ep). simpl in Em'. simplify_eq.
  pose proof (tf_own _ _ _ _ (ti_timeouts _ _ _ _ Hy) _ _ _ _ Em Ep) as ->.
  destruct (lone_alarm_due a p x d (alarm_of id) now (ti_alarms _ _ _ _ Hy) Eh Ep Hle) as [a2 E2]. rewrite E2 in E. injection E as <- <-.
  split; [by unfold flight_of; simpl; rewrite timeout_of_alarm|]. eexists. 
  pose proof (step_run t a2 x (alarm_of id) []) as Hrun. rewrite timeout_of_alarm in Hrun. unfold ProcessTimeout in Hrun. rewrite Em in Hrun. exact Hrun.
Qed.
End Timeouter.

(** ** Witnesses *)
Section Witnesses.
Import SortedHeap.

(** Timeouts are numbers; [None] is a function of another user. *)
Abbreviation fn := (option Z).
Definition demo_timeout (f : fn) : option Z := f.

(** Timeout 7 is set twice and called once, its callback sets it again; 8 is
    cleared, 9 is not known; another user has an alarm. *)
Definition demo_trace : list (timeout_op (Fn := fn) * bool * option Z) :=
  [(Set_ 0 7 10, true, None); (Set_ 5 7 20, true, None); (Take 12, true, None); (Take 30, true, None); (RunNext, true, Some 7);
   (Set_ 30 7 5, true, None); (OtherAlarm None 100, true, None); (Set_ 40 8 1, true, None); (Clear 8, true, None); (Clear 9, false, None)].

Lemma demo_steps : exists y, timeout_trace Some demo_timeout timers_start demo_trace y /\ taken y = [].
Proof.
  eexists. split; [unfold demo_trace, timers_start|].
  - repeat (eapply tt_cons; [first [exact I|intros x f Hin; by apply not_elem_of_nil in Hin]|
      first [apply step_set|apply step_clear_all|by apply step_other|apply (step_run Some demo_timeout)|apply step_take; vm_compute; reflexivity|
             apply (step_clear Some demo_timeout)]|]). apply tt_nil.
  - reflexivity.
Qed.

Lemma timeouter_refines_contract_witness :
  exists y armed flight, timeout_trace Some demo_timeout timers_start demo_trace y /\ timeout_contract_trace ∅ [] demo_trace armed flight.
Proof.
  destruct demo_steps as (y & Ht & _).
  destruct (timeouter_refines_contract Some demo_timeout ltac:(done) ltac:(by intros f id) demo_trace y Ht ltac:(reflexivity)) as (armed & flight & Ha & _).
  exists y, armed, flight. split; [exact Ht|exact Ha].
Defined.

(** A cleared timeout stays in the map: clearing it again also answers [true]. *)
Lemma cleared_twice :
  let '(t, a) := SetTimeout Some 0 7 10 Timeouter_ctor no_alarms in
  (ClearTimeout 7 t a).1 = true /\ (ClearTimeout 7 t (ClearTimeout 7 t a).2).1 = true.
Proof. by vm_compute. Qed.

(** The function of an alarm that is already taken runs for the setting made
    after that, long before the new deadline; and it runs after a clearing that
    answered [true]. *)
Lemma rearmed_too_late :
  let '(t, a) := SetTimeout Some 0 7 10 Timeouter_ctor no_alarms in
  exists x a', due_alarms 30 a = Some ([(x, Some 7)], a') /\
    (ProcessTimeout 7 (SetTimeout Some 30 7 100 t a').1).1 = true /\
    (ClearTimeout 7 t a').1 = true /\ (ProcessTimeout 7 t).1 = true.
Proof. eexists _, _. split; [vm_compute; reflexivity|]. by vm_compute. Qed.
End Witnesses.
