(* ===== verification/Queue.v ===== *)
(** * The blocking queue ([whisperlib/sync/producer_consumer_queue.h])

    The critical sections of [ProducerConsumerQueue] are functions on its data;
    threads interleave them, and wait in between on the mutex ([Await] returns
    when its condition holds, [AwaitWithTimeout] possibly without). *)

From S2P Require Import Prelude.

Section Queue.
Context {C : Type}.

Record ProducerConsumerQueue := MkQueue { max_size_ : Z; fifo_policy_ : bool; data_ : list C }.

Definition Queue_ctor (max_size : Z) (fifo_policy : bool) : ProducerConsumerQueue :=
  MkQueue max_size fifo_policy [].

Definition set_data (d : list C) (q : ProducerConsumerQueue) : ProducerConsumerQueue :=
  MkQueue (max_size_ q) (fifo_policy_ q) d.

Definition HasEmptySpace (q : ProducerConsumerQueue) : bool :=
  (max_size_ q =? 0) || (zlen (data_ q) <? max_size_ q).
Definition HasData (q : ProducerConsumerQueue) : bool :=
  match data_ q with [] => false | _ => true end.
Definition IsFull (q : ProducerConsumerQueue) : bool :=
  if max_size_ q =? 0 then false else max_size_ q <=? zlen (data_ q).
Definition Size (q : ProducerConsumerQueue) : Z := zlen (data_ q).
Definition Queue_Clear (q : ProducerConsumerQueue) : ProducerConsumerQueue := set_data [] q.
Definition GetAll (q : ProducerConsumerQueue) : list C * ProducerConsumerQueue := (data_ q, set_data [] q).

(** The end of [PutAt] once there is space, and of [Get] and [TryGet] once
    there is data. *)
Definition emplace_at (c : C) (at_front : bool) (q : ProducerConsumerQueue) : ProducerConsumerQueue :=
  set_data (if at_front then c :: data_ q else data_ q ++ [c]) q.
Definition pop_front (q : ProducerConsumerQueue) : option (C * ProducerConsumerQueue) :=
  match data_ q with [] => None | c :: d => Some (c, set_data d q) end.

(** ** Threads *)

(** A call: its start, its wait, its return.  A timeout is [None] when
    infinite.  [PutReturned (Some c)] is a [Put] that gives its datum back. *)
Inductive thread :=
| PutCall (c : C) (timeout : option Z) (at_front : bool)
| PutWaiting (c : C) (timeout : option Z) (at_front : bool)
| PutReturned (r : option C)
| GetCall
| GetWaiting
| TryGetCall (timeout : Z)
| TryGetWaiting (timeout : Z)
| GetReturned (r : option C)
| GetAllCall
| GetAllReturned (r : list C)
| ClearCall
| ClearReturned.

(** [Put] goes to the front when the policy is LIFO. *)
Definition Put (q : ProducerConsumerQueue) (c : C) (timeout : option Z) : thread :=
  PutCall c timeout (negb (fifo_policy_ q)).

(** The queue, the threads, and what went in, out, and was cleared. *)
Record system := MkSystem {
  the_queue : ProducerConsumerQueue;
  threads : list thread;
  accepted : list C;
  removed : list C;
  cleared : list C
}.

(** One critical section of a thread: [section t q] is the thread after it,
    the queue, and the data accepted, removed and cleared. *)
Inductive section (q : ProducerConsumerQueue) : thread -> thread -> ProducerConsumerQueue -> list C -> list C -> list C -> Prop :=
| put_at_once c t f :
    HasEmptySpace q = true -> section q (PutCall c t f) (PutReturned None) (emplace_at c f q) [c] [] []
| put_wait c t f :
    HasEmptySpace q = false -> section q (PutCall c t f) (PutWaiting c t f) q [] [] []
| put_awake c t f :
    HasEmptySpace q = true -> section q (PutWaiting c t f) (PutReturned None) (emplace_at c f q) [c] [] []
| put_timeout c t f :
    HasEmptySpace q = false -> section q (PutWaiting c (Some t) f) (PutReturned (Some c)) q [] [] []
| get_at_once c q' :
    pop_front q = Some (c, q') -> section q GetCall (GetReturned (Some c)) q' [] [c] []
| get_wait :
    HasData q = false -> section q GetCall GetWaiting q [] [] []
| get_awake c q' :
    pop_front q = Some (c, q') -> section q GetWaiting (GetReturned (Some c)) q' [] [c] []
| try_at_once t c q' :
    pop_front q = Some (c, q') -> section q (TryGetCall t) (GetReturned (Some c)) q' [] [c] []
| try_wait t :
    HasData q = false -> section q (TryGetCall t) (TryGetWaiting t) q [] [] []
| try_awake t c q' :
    pop_front q = Some (c, q') -> section q (TryGetWaiting t) (GetReturned (Some c)) q' [] [c] []
| try_timeout t :
    HasData q = false -> section q (TryGetWaiting t) (GetReturned None) q [] [] []
| get_all :
    section q GetAllCall (GetAllReturned (GetAll q).1) (GetAll q).2 [] (GetAll q).1 []
| clear :
    section q ClearCall ClearReturned (Queue_Clear q) [] [] (data_ q).

Inductive queue_step : system -> system -> Prop :=
| a_section q ts a r cl i t t' q' ai ro co :
    ts !! i = Some t -> section q t t' q' ai ro co ->
    queue_step (MkSystem q ts a r cl) (MkSystem q' (<[i:=t']> ts) (a ++ ai) (r ++ ro) (cl ++ co)).

(** The data a thread holds. *)
Definition owns (t : thread) : list C :=
  match t with
  | PutCall c _ _ | PutWaiting c _ _ | PutReturned (Some c) | GetReturned (Some c) => [c]
  | GetAllReturned l => l
  | _ => []
  end.
Definition puts_at_back (t : thread) : Prop :=
  match t with PutCall _ _ f | PutWaiting _ _ f => f = false | _ => True end.
Definition is_clear (t : thread) : bool := match t with ClearCall => true | _ => false end.

(** The threads [calls] start on an empty queue. *)
Definition start (max_size : Z) (fifo : bool) (calls : list thread) : system :=
  MkSystem (Queue_ctor max_size fifo) calls [] [] [].

(** ** Correctness *)

Definition within (q : ProducerConsumerQueue) : Prop := max_size_ q <> 0 -> zlen (data_ q) <= max_size_ q.

Record queue_inv (max_size : Z) (calls : list thread) (s : system) : Prop := {
  qi_max : max_size_ (the_queue s) = max_size;
  qi_bound : 0 <= max_size -> within (the_queue s);
  qi_kept : held owns (threads s) ++ data_ (the_queue s) ++ cleared s ≡ₚ held owns calls;
  qi_order : Forall puts_at_back calls -> Forall puts_at_back (threads s);
  qi_fifo : Forall puts_at_back calls -> Forall (fun t => is_clear t = false) calls ->
    Forall (fun t => is_clear t = false) (threads s) /\ accepted s = removed s ++ data_ (the_queue s)
}.

Lemma emplace_spec c f q :
  HasEmptySpace q = true ->
  within (emplace_at c f q) /\ data_ (emplace_at c f q) ≡ₚ c :: data_ q /\
  (f = false -> data_ (emplace_at c f q) = data_ q ++ [c]).
Proof.
  intros Hs. unfold within, emplace_at. simpl. split_and!.
  - intros Hm. unfold HasEmptySpace in Hs. apply orb_true_iff in Hs as [Hs|Hs].
    + by apply Z.eqb_eq in Hs.
    + apply Z.ltb_lt in Hs. destruct f; rewrite ?zlen_cons, ?zlen_app, ?zlen_cons, ?zlen_nil; lia.
  - destruct f; [done|]. by rewrite <- Permutation_cons_append.
  - by intros ->.
Qed.

Lemma pop_front_spec c q q' :
  pop_front q = Some (c, q') ->
  max_size_ q' = max_size_ q /\ data_ q = c :: data_ q' /\ (within q -> within q').
Proof.
  unfold pop_front, within. destruct (data_ q) as [|c' d]; [done|]. intros [= -> <-]. simpl.
  split_and!; [done|done|]. rewrite zlen_cons. intros Hb Hm. specialize (Hb Hm). lia.
Qed.

Lemma section_spec q t t' q' ai ro co :
  section q t t' q' ai ro co ->
  max_size_ q' = max_size_ q /\ (0 <= max_size_ q -> within q -> within q') /\
  owns t' ++ data_ q' ++ co ≡ₚ owns t ++ data_ q /\
  (puts_at_back t -> puts_at_back t') /\
  (puts_at_back t -> is_clear t = false -> is_clear t' = false /\ data_ q ++ ai = ro ++ data_ q').
Proof.
  assert (Hnil : 0 <= max_size_ q -> within (set_data [] q)) by (intros ? ?; simpl; rewrite zlen_nil; lia).
  intros Hs. destruct Hs as [c w f Hh|c w f Hh|c w f Hh| |c q' Hp| |c q' Hp|w c q' Hp| |w c q' Hp| | |];
    try destruct (emplace_spec c f q Hh) as (E1 & E2 & E3);
    try destruct (pop_front_spec c q q' Hp) as (E1 & E2 & E3);
    cbn [owns app puts_at_back is_clear GetAll fst snd]; unfold Queue_Clear; cbn [set_data data_ max_size_ app]; rewrite ?app_nil_r;
    (split; [done|]); (split; [by auto|]); (split; [rewrite ?E2; done|]); (split; [done|]);
    intros Hf ?; (split; [done|]); rewrite ?app_nil_r; try done.
  - by rewrite E3.
  - by rewrite E3.
Qed.

Lemma queue_step_inv max_size calls s s' :
  queue_inv max_size calls s -> queue_step s s' -> queue_inv max_size calls s'.
Proof.
  intros [Hm Hb Hk Ho Hf] Hs. destruct Hs as [q ts a r cl i t t' q' ai ro co Hi Hsec]. simpl in *.
  destruct (section_spec _ _ _ _ _ _ _ Hsec) as (Hm' & Hb' & Hk' & Ho' & Hf').
  split; simpl.
  - congruence.
  - intros Hp. apply Hb'; [by rewrite Hm|auto].
  - pose proof (held_insert owns ts i t t' Hi) as HI. rewrite <- Hk.
    assert (owns t ++ held owns (<[i:=t']> ts) ++ data_ q' ++ cl ++ co ≡ₚ owns t ++ held owns ts ++ data_ q ++ cl)
      as HP; [|by apply Permutation_app_inv_l in HP].
    rewrite (app_assoc (owns t)), (Permutation_app_comm (owns t)), HI, <- app_assoc.
    rewrite (Permutation_app_comm cl), !app_assoc, <- (app_assoc _ (owns t')), <- (app_assoc _ (owns t' ++ _)).
    rewrite <- (app_assoc (owns t')), Hk'. by rewrite !app_assoc, (Permutation_app_comm (held owns ts) (owns t)).
  - intros Hc. specialize (Ho Hc). apply Forall_insert; [done|]. apply Ho'.
    exact (Forall_lookup_1 _ _ _ _ Ho Hi).
  - intros Hc Hn. destruct (Hf Hc Hn) as [Hn' Ha]. specialize (Ho Hc).
    destruct Hf' as [Hn2 Hd]; [exact (Forall_lookup_1 _ _ _ _ Ho Hi)|exact (Forall_lookup_1 _ _ _ _ Hn' Hi)|].
    split; [by apply Forall_insert|]. rewrite Ha, <- !app_assoc. by rewrite Hd.
Qed.

(** C23: with any number of threads calling the operations of a queue, in any
    interleaving: it never holds more than its maximum size; no datum is lost
    or duplicated - each is with the thread that puts it (a timed-out [Put]
    gives it back), in the queue, cleared, or with one thread that took it;
    when all puts are at the back, data leaves the queue in the order it was
    accepted. *)
Theorem queue_keeps_data max_size fifo (calls : list thread) s
    (Hreach : reachable (fun s0 => s0 = start max_size fifo calls) queue_step s) :
  (0 < max_size -> zlen (data_ (the_queue s)) <= max_size) /\
  held owns (threads s) ++ data_ (the_queue s) ++ cleared s ≡ₚ held owns calls /\
  (Forall puts_at_back calls -> Forall (fun t => is_clear t = false) calls ->
   accepted s = removed s ++ data_ (the_queue s)).
Proof.
  apply (reachable_inv _ _ (queue_inv max_size calls)) in Hreach as [Hm Hb Hk Ho Hf].
  - split_and!; [intros; rewrite <- Hm; apply Hb; lia|done|]. intros Hc Hn. by apply Hf.
  - intros s0 ->. split; simpl; try done; [|by rewrite app_nil_r]. intros ? ?. simpl. by rewrite zlen_nil.
  - apply queue_step_inv.
Qed.

(** A waiting thread can go on as soon as its condition holds. *)
Lemma waiting_can_proceed q ts a r cl i t :
  ts !! i = Some t ->
  (exists c w f, t = PutWaiting c w f /\ HasEmptySpace q = true) \/
  ((t = GetWaiting \/ exists w, t = TryGetWaiting w) /\ HasData q = true) ->
  exists s', queue_step (MkSystem q ts a r cl) s'.
Proof.
  intros Hi [(c & w & f & -> & Hs)|[Ht Hd]].
  - eexists. eapply a_section; [done|]. by apply put_awake.
  - unfold HasData in Hd. destruct (data_ q) as [|c d] eqn:E; [done|].
    assert (Hp : pop_front q = Some (c, set_data d q)) by (unfold pop_front; by rewrite E).
    destruct Ht as [->|[w ->]]; eexists; (eapply a_section; [done|]); [by apply get_awake|by apply try_awake].
Qed.
End Queue.

(** ** Witnesses *)

Definition demo_calls : list (thread (C := Z)) := [PutCall 5 None false; GetCall; PutCall 6 (Some 1) false].

Lemma queue_keeps_data_witness :
  let s := MkSystem (MkQueue 1 true [5]) [PutReturned None; GetCall; PutReturned (Some 6)] [5] [] [] in
  reachable (fun s0 => s0 = start 1 true demo_calls) queue_step s /\ zlen (data_ (the_queue s)) <= 1 /\
  accepted s = removed s ++ data_ (the_queue s).
Proof.
  intros s. assert (Hr : reachable (fun s0 => s0 = start 1 true demo_calls) queue_step s).
  { exists (start 1 true demo_calls). split; [reflexivity|].
    eapply rtc_l; [eapply (a_section _ _ _ _ _ 0); [reflexivity|by apply put_at_once]|].
    eapply rtc_l; [eapply (a_section _ _ _ _ _ 2); [reflexivity|by apply put_wait]|].
    eapply rtc_l; [eapply (a_section _ _ _ _ _ 2); [reflexivity|by apply put_timeout]|]. apply rtc_refl. }
  destruct (queue_keeps_data 1 true demo_calls s Hr) as (Hb & _ & Hf).
  split; [exact Hr|]. split; [apply Hb; lia|apply Hf; repeat constructor].
Defined.
