(* ===== verification/LockFreeQueue.v ===== *)
(** * The lock-free queue ([whisperlib/sync/producer_consumer_queue_lockfree.h])

    Producers and consumers of a ring buffer.  [Put] and [Get] have the same
    shape: announce a position, take a ticket from a shared counter, wait until
    the slowest clients of the other side have passed, access the ring, and
    clear the position.  Both are modelled by one program over its own [Side]
    and the other one, each load, store and [fetch_add] a step of its own.

    Memory is sequentially consistent.  The counters do not wrap (that takes
    [2^64] calls).  The semaphores only shorten waits, and have no step. *)

From S2P Require Import Prelude.

(** ** [NextPow2] *)

(** The loop of [NextPow2], [size_t] wrapping; [fuel] bounds the iterations. *)
Fixpoint next_pow2_loop (fuel : nat) (sz ret : Z) : option Z :=
  if ret <? sz then
    match fuel with O => None | S fuel => next_pow2_loop fuel sz (u64 (Z.shiftl ret 1)) end
  else Some ret.
Definition NextPow2 (sz : Z) : option Z := next_pow2_loop 64 sz 1.

Lemma next_pow2_loop_spec fuel sz k :
  0 <= k -> k + Z.of_nat fuel = 64 -> 2 ^ k <= 2 ^ 63 -> sz <= 2 ^ 63 ->
  exists n, next_pow2_loop fuel sz (2 ^ k) = Some (2 ^ n) /\ 0 <= n <= 63 /\ sz <= 2 ^ n.
Proof.
  intros H0 Hf Hk Hs. revert k H0 Hf Hk. induction fuel as [|fuel IH]; intros k H0 Hf Hk; simpl.
  - assert (k = 64) as -> by lia. lia.
  - assert (Hk63 : k <= 63) by (apply (Z.pow_le_mono_r_iff 2); lia).
    destruct (2 ^ k <? sz) eqn:E; [|exists k; apply Z.ltb_ge in E; split; [done|lia]].
    apply Z.ltb_lt in E. assert (k < 63) by (destruct (decide (k = 63)) as [->|]; lia).
    assert (E2 : u64 (Z.shiftl (2 ^ k) 1) = 2 ^ (k + 1)).
    { rewrite Z.shiftl_mul_pow2, <- Z.pow_add_r by lia. apply u64_id.
      split; [by apply Z.pow_nonneg|]. apply Z.pow_lt_mono_r; lia. }
    rewrite E2. apply IH; [lia|lia|]. apply Z.pow_le_mono_r; lia.
Qed.

(** A power of two that is large enough; beyond [2^63] the loop never ends. *)
Lemma NextPow2_spec sz :
  sz <= 2 ^ 63 -> exists n, NextPow2 sz = Some (2 ^ n) /\ 0 <= n <= 63 /\ sz <= 2 ^ n.
Proof. intros Hs. by apply (next_pow2_loop_spec 64 sz 0). Qed.

Lemma next_pow2_zero fuel : next_pow2_loop fuel (2 ^ 63 + 1) 0 = None.
Proof. induction fuel as [|fuel IH]; [done|]. exact IH. Qed.

Lemma NextPow2_diverges fuel : next_pow2_loop (64 + fuel) (2 ^ 63 + 1) 1 = None.
Proof. exact (next_pow2_zero fuel). Qed.

(** ** One side of the queue *)

(** What a client is doing in [Put] or [Get]; [my] is its ticket. *)
Inductive client_pc :=
| Out
| Loaded (pos : nat)
| Entered
| Ticket (my : nat)
| Posted (my : nat)
| Checking (my pos_min : nat)
| Reloading (my : nat)
| Scanning (my pos_min i : nat)
| Access (my : nat)
| Leaving (my : nat).

(** Producers: [head_], [last_head_], the [head_] of the clients ([None] for the
    maximal [size_t]), and what each does.  Consumers: the same with [tail_]. *)
Record Side := MkSide {
  counter : nat;
  last_ : nat;
  positions : list (option nat);
  clients : list client_pc
}.

Definition with_pc (i : nat) (p : client_pc) (s : Side) : Side :=
  MkSide (counter s) (last_ s) (positions s) (<[i:=p]> (clients s)).
Definition post (i : nat) (x : option nat) (s : Side) : Side :=
  MkSide (counter s) (last_ s) (<[i:=x]> (positions s)) (clients s).
Definition publish (pos_min : nat) (s : Side) : Side :=
  MkSide (counter s) pos_min (positions s) (clients s).
Definition take_ticket (s : Side) : Side :=
  MkSide (S (counter s)) (last_ s) (positions s) (clients s).

Definition lower (x : option nat) (pos_min : nat) : nat :=
  match x with Some t => if (t <? pos_min)%nat then t else pos_min | None => pos_min end.

(** A step of client [i] of the side [me]; [room] is [q_size_] for a producer
    and 0 for a consumer. *)
Inductive client_step (room : nat) (me other : Side) (i : nat) : Side -> Side -> Prop :=
| c_load :
    clients me !! i = Some Out -> client_step room me other i (with_pc i (Loaded (counter me)) me) other
| c_enter p :
    clients me !! i = Some (Loaded p) -> client_step room me other i (with_pc i Entered (post i (Some p) me)) other
| c_post my :
    clients me !! i = Some (Ticket my) ->
    client_step room me other i (with_pc i (Posted my) (post i (Some my) me)) other
| c_read_last my :
    clients me !! i = Some (Posted my) -> client_step room me other i (with_pc i (Checking my (last_ other)) me) other
| c_check my pos_min :
    clients me !! i = Some (Checking my pos_min) ->
    client_step room me other i (with_pc i (if (pos_min + room <=? my)%nat then Reloading my else Access my) me) other
| c_reload my :
    clients me !! i = Some (Reloading my) -> client_step room me other i (with_pc i (Scanning my (counter other) 0) me) other
| c_scan my pos_min j x :
    clients me !! i = Some (Scanning my pos_min j) -> positions other !! j = Some x ->
    client_step room me other i (with_pc i (Scanning my (lower x pos_min) (S j)) me) other
| c_publish my pos_min j :
    clients me !! i = Some (Scanning my pos_min j) -> j = length (positions other) ->
    client_step room me other i
      (with_pc i (if (my <? pos_min + room)%nat then Access my else Checking my pos_min) me) (publish pos_min other)
| c_leave my :
    clients me !! i = Some (Leaving my) -> client_step room me other i (with_pc i Out (post i None me)) other.

(** ** The queue *)

Section LockFree.
Context {C : Type} (garbage : C) (q_size : Z).

Definition q_mask_ : Z := q_size - 1.
Definition ring_slot (my : nat) : Z := Z.land (Z.of_nat my) q_mask_.

(** The ring, and the history: the data put and got by ticket, and the tickets
    whose data was stored or read. *)
Record lockfree := MkLockFree {
  producers : Side;
  consumers : Side;
  ring : gmap Z C;
  puts : list C;
  gets : gmap nat C;
  stored : gset nat;
  read : gset nat
}.

Inductive lockfree_step : lockfree -> lockfree -> Prop :=
| put_step i p c p' c' d ps gs st rd :
    client_step (Z.to_nat q_size) p c i p' c' ->
    lockfree_step (MkLockFree p c d ps gs st rd) (MkLockFree p' c' d ps gs st rd)
| get_step i p c p' c' d ps gs st rd :
    client_step 0 c p i c' p' ->
    lockfree_step (MkLockFree p c d ps gs st rd) (MkLockFree p' c' d ps gs st rd)
(* [head_.fetch_add(1)] in [Put(data)] *)
| put_ticket i x p c d ps gs st rd :
    clients p !! i = Some Entered ->
    lockfree_step (MkLockFree p c d ps gs st rd)
      (MkLockFree (with_pc i (Ticket (counter p)) (take_ticket p)) c d (ps ++ [x]) gs st rd)
| get_ticket i p c d ps gs st rd :
    clients c !! i = Some Entered ->
    lockfree_step (MkLockFree p c d ps gs st rd)
      (MkLockFree p (with_pc i (Ticket (counter c)) (take_ticket c)) d ps gs st rd)
(* [data_[my_head & q_mask_] = data] *)
| put_store i my x p c d ps gs st rd :
    clients p !! i = Some (Access my) -> ps !! my = Some x ->
    lockfree_step (MkLockFree p c d ps gs st rd)
      (MkLockFree (with_pc i (Leaving my) p) c (<[ring_slot my:=x]> d) ps gs ({[my]} ∪ st) rd)
(* [ret = data_[my_tail & q_mask_]] *)
| get_read i my p c d ps gs st rd :
    clients c !! i = Some (Access my) ->
    lockfree_step (MkLockFree p c d ps gs st rd)
      (MkLockFree p (with_pc i (Leaving my) c) d ps
         (<[my:=default garbage (d !! ring_slot my)]> gs) st ({[my]} ∪ rd)).

Definition new_side (n : nat) : Side := MkSide 0 0 (repeat None n) (repeat Out n).
Definition new_queue (num_producers num_consumers : nat) : lockfree :=
  MkLockFree (new_side num_producers) (new_side num_consumers) ∅ [] ∅ ∅ ∅.
End LockFree.

(** ** Tickets

    The ticket that a client has not finished with: it is between [fetch_add]
    and its access to the ring. *)

Definition ticket (p : client_pc) : option nat :=
  match p with
  | Ticket my | Posted my | Checking my _ | Reloading my | Scanning my _ _ | Access my => Some my
  | _ => None
  end.

Definition holds (s : Side) (i k : nat) : Prop := exists p, clients s !! i = Some p /\ ticket p = Some k.

(** Every ticket is done or held by one client, whose position is announced and
    not above it. *)
Record side_ok (s : Side) (done : gset nat) : Prop := {
  so_length : length (positions s) = length (clients s);
  so_held k : (k < counter s)%nat -> k ∈ done \/ exists i, holds s i k;
  so_done k : k ∈ done -> (k < counter s)%nat;
  so_fresh i k : holds s i k -> (k < counter s)%nat /\ k ∉ done;
  so_position i k : holds s i k -> exists x, positions s !! i = Some (Some x) /\ (x <= k)%nat;
  so_unique i j k : holds s i k -> holds s j k -> i = j;
  so_loaded i p : clients s !! i = Some (Loaded p) -> (p <= counter s)%nat;
  so_entered i : clients s !! i = Some Entered -> exists x, positions s !! i = Some (Some x) /\ (x <= counter s)%nat
}.

(** All tickets below [v] are done; or were not yet seen by a scan at [j]. *)
Definition safe (s : Side) (done : gset nat) (v : nat) : Prop :=
  (v <= counter s)%nat /\ forall k, (k < v)%nat -> k ∈ done.
Definition scanned (s : Side) (done : gset nat) (v j : nat) : Prop :=
  (v <= counter s)%nat /\ forall k, (k < v)%nat -> k ∈ done \/ exists i, (j <= i)%nat /\ holds s i k.

(** What a client of [me] knows of the tickets of the other side. *)
Definition knows (room : nat) (other : Side) (done : gset nat) (p : client_pc) : Prop :=
  match p with
  | Checking _ v => safe other done v
  | Scanning _ v j => scanned other done v j /\ (j <= length (positions other))%nat
  | Access my => exists v, safe other done v /\ (my < v + room)%nat
  | _ => True
  end.

Lemma scan_start s done : side_ok s done -> scanned s done (counter s) 0.
Proof. intros Hs. split; [done|]. intros k Hk. destruct (so_held _ _ Hs k Hk) as [|[i Hi]]; [by left|right]. exists i. split; [lia|done]. Qed.

Lemma scan_next s done v j x :
  side_ok s done -> scanned s done v j -> positions s !! j = Some x -> scanned s done (lower x v) (S j).
Proof.
  intros Hs [Hv Hk] Hx. assert (Hle : (lower x v <= v)%nat) by (unfold lower; destruct x; [case_match eqn:E; [apply Nat.ltb_lt in E|]|]; lia).
  split; [lia|]. intros k Hlt. destruct (Hk k) as [|(i & Hi & Hh)]; [lia|by left|right].
  exists i. split; [|done]. destruct (decide (i = j)) as [->|]; [|lia].
  destruct (so_position _ _ Hs _ _ Hh) as (y & Hy & Hle'). assert (x = Some y) as -> by congruence.
  exfalso. unfold lower in Hlt. destruct (y <? v)%nat eqn:E; [lia|]. apply Nat.ltb_ge in E. lia.
Qed.

Lemma scan_end s done v : side_ok s done -> scanned s done v (length (positions s)) -> safe s done v.
Proof.
  intros Hs [Hv Hk]. split; [done|]. intros k Hlt. destruct (Hk k Hlt) as [|(i & Hi & (p & Hp & _))]; [done|].
  apply lookup_lt_Some in Hp. rewrite (so_length _ _ Hs) in Hi. lia.
Qed.

(** ** Steps keep what a side knows *)

Lemma holds_with_pc s i p p0 j k :
  clients s !! i = Some p0 -> ticket p = ticket p0 -> holds (with_pc i p s) j k <-> holds s j k.
Proof.
  intros Hi Ht. unfold holds. simpl. destruct (decide (j = i)) as [->|Hj].
  - rewrite list_lookup_insert_eq by (by eapply lookup_lt_Some). rewrite Hi.
    split; intros (x & [= <-] & E); eexists; (split; [done|]); congruence.
  - by rewrite list_lookup_insert_ne.
Qed.

(** What a step changes on its own side: the program counter of [i], and
    maybe its position. *)
Lemma client_step_own room me other i me' other' :
  client_step room me other i me' other' ->
  counter me' = counter me /\ last_ me' = last_ me /\ length (positions me') = length (positions me) /\
  (forall j k, holds me' j k <-> holds me j k) /\
  (exists p, clients me' = <[i:=p]> (clients me) /\ is_Some (clients me !! i)) /\
  (other' = other \/ exists v, other' = publish v other).
Proof.
  intros Hs. destruct Hs; simpl; rewrite ?length_insert; (split_and!; [done|done|done| |by eauto|by eauto]);
    intros j' k'; (rewrite (holds_with_pc _ _ _ _ j' k' H) || (rewrite (holds_with_pc (post _ _ _) _ _ _ j' k' H)));
    try done; repeat case_match; done.
Qed.

Lemma side_ok_keep s s' done i p :
  side_ok s done -> counter s' = counter s -> length (positions s') = length (positions s) ->
  (forall j k, holds s' j k <-> holds s j k) -> clients s' = <[i:=p]> (clients s) -> is_Some (clients s !! i) ->
  (forall j, j <> i -> positions s' !! j = positions s !! j) ->
  (forall k, ticket p = Some k -> exists x, positions s' !! i = Some (Some x) /\ (x <= k)%nat) ->
  (forall x, p = Loaded x -> (x <= counter s)%nat) ->
  (p = Entered -> exists x, positions s' !! i = Some (Some x) /\ (x <= counter s)%nat) ->
  side_ok s' done.
Proof.
  intros [Hl Hh Hd Hf Hp Hu Hlo He] Hc Hl' Hhold Hcl [p0 Hi] Hpos Hpt Hplo Hpe.
  assert (Hii : clients s' !! i = Some p)
    by (rewrite Hcl; apply list_lookup_insert_eq; by eapply lookup_lt_Some).
  assert (Hij : forall j, j <> i -> clients s' !! j = clients s !! j)
    by (intros j Hj; rewrite Hcl; by apply list_lookup_insert_ne).
  split; rewrite ?Hc.
  - by rewrite Hl', Hcl, length_insert.
  - intros k Hk. destruct (Hh k Hk) as [|[j Hj]]; [by left|right]. exists j. by apply Hhold.
  - done.
  - intros j k Hj. by apply Hf with j, Hhold.
  - intros j k Hj. destruct (decide (j = i)) as [->|Hne].
    + destruct Hj as (p1 & Hp1 & Ht). rewrite Hii in Hp1. simplify_eq. auto.
    + rewrite Hpos by done. by apply Hp, Hhold.
  - intros j1 j2 k H1 H2. apply (Hu _ _ k); by apply Hhold.
  - intros j x Hj. destruct (decide (j = i)) as [->|Hne]; [|rewrite Hij in Hj by done; eauto].
    rewrite Hii in Hj. simplify_eq. auto.
  - intros j Hj. destruct (decide (j = i)) as [->|Hne]; [|rewrite Hij in Hj by done; rewrite Hpos by done; eauto].
    rewrite Hii in Hj. simplify_eq. auto.
Qed.

Lemma client_step_ok room me other i me' other' done :
  client_step room me other i me' other' -> side_ok me done -> side_ok me' done.
Proof.
  intros Hs Hok. destruct (client_step_own _ _ _ _ _ _ Hs) as (Hc & _ & Hl & Hh & _ & _).
  assert (Hpos : forall k p, clients me !! i = Some p -> ticket p = Some k ->
            exists x, positions me !! i = Some (Some x) /\ (x <= k)%nat)
    by (intros k p Hp Ht; apply (so_position _ _ Hok); by exists p).
  assert (Hlen : forall p, clients me !! i = Some p -> (i < length (positions me))%nat)
    by (intros p Hp; rewrite (so_length _ _ Hok); by eapply lookup_lt_Some).
  destruct Hs; (eapply side_ok_keep; [exact Hok|done|done|done|done|by eauto|..]); simpl; try done.
  all: try (intros j' Hj; by rewrite list_lookup_insert_ne).
  all: try (intros k' Hk'; apply (Hpos k' _ H); simpl in *; by repeat case_match).
  all: try (intros; by repeat case_match).
  - intros x [= <-]. done.
  - intros _. rewrite list_lookup_insert_eq by eauto. eexists. split; [done|]. by apply (so_loaded _ _ Hok _ _ H).
  - intros k' [= <-]. rewrite list_lookup_insert_eq by eauto. eauto.
Qed.

Lemma take_ticket_ok s i done :
  side_ok s done -> clients s !! i = Some Entered ->
  let s' := with_pc i (Ticket (counter s)) (take_ticket s) in
  side_ok s' done /\ (forall j k, holds s j k -> holds s' j k).
Proof.
  intros Hok Hi s'. pose proof Hok as [Hl Hh Hd Hf Hp Hu Hlo He].
  assert (Hlt : (i < length (clients s))%nat) by (by eapply lookup_lt_Some).
  assert (Hi' : clients s' !! i = Some (Ticket (counter s))) by (by apply list_lookup_insert_eq).
  assert (Hj' : forall j, j <> i -> clients s' !! j = clients s !! j) by (intros; by apply list_lookup_insert_ne).
  assert (Hold : forall j k, holds s j k -> holds s' j k).
  { intros j k (p & Hpj & Ht). destruct (decide (j = i)) as [->|Hne]; [by simplify_eq|].
    exists p. by rewrite Hj'. }
  assert (Hnew : forall j k, holds s' j k -> (j = i /\ k = counter s) \/ (j <> i /\ holds s j k)).
  { intros j k (p & Hpj & Ht). destruct (decide (j = i)) as [->|Hne].
    - rewrite Hi' in Hpj. simplify_eq/=. auto.
    - right. split; [done|]. exists p. by rewrite <- Hj'. }
  assert (Hcn : counter s' = S (counter s)) by done.
  assert (Hps : positions s' = positions s) by done.
  assert (Hlen : length (clients s') = length (clients s)) by apply length_insert.
  clearbody s'. split; [|done]. split; rewrite ?Hcn, ?Hps, ?Hlen.
  - done.
  - intros k Hk. destruct (decide (k = counter s)) as [->|]; [right; exists i, (Ticket (counter s)); done|].
    destruct (Hh k) as [|[j Hj]]; [lia|by left|right]. exists j. auto.
  - intros k Hk. specialize (Hd k Hk). lia.
  - intros j k [[-> ->]|[_ Hjk]]%Hnew; [|destruct (Hf _ _ Hjk); split; [lia|done]].
    split; [lia|]. intros Hin. specialize (Hd _ Hin). lia.
  - intros j k [[-> ->]|[_ Hjk]]%Hnew; [by apply He|by apply Hp].
  - intros j1 j2 k [[-> ->]|[Hn1 H1]]%Hnew [[-> Ek]|[Hn2 H2]]%Hnew; [done| | |by eapply Hu].
    + destruct (Hf _ _ H2). lia.
    + destruct (Hf _ _ H1). lia.
  - intros j x Hj. destruct (decide (j = i)) as [->|Hne]; [by rewrite Hi' in Hj|].
    rewrite Hj' in Hj by done. specialize (Hlo _ _ Hj). lia.
  - intros j Hj. destruct (decide (j = i)) as [->|Hne]; [by rewrite Hi' in Hj|].
    rewrite Hj' in Hj by done. destruct (He _ Hj) as (x & Hx & ?). exists x. split; [done|lia].
Qed.

(** The access of a client to the ring: its ticket is done. *)
Lemma access_ok s i my done :
  side_ok s done -> clients s !! i = Some (Access my) ->
  side_ok (with_pc i (Leaving my) s) ({[my]} ∪ done) /\
  (forall j k, holds s j k -> holds (with_pc i (Leaving my) s) j k \/ k ∈ ({[my]} ∪ done : gset nat)).
Proof.
  intros Hok Hi. set (s' := with_pc i (Leaving my) s). pose proof Hok as [Hl Hh Hd Hf Hp Hu Hlo He].
  assert (Hlt : (i < length (clients s))%nat) by (by eapply lookup_lt_Some).
  assert (Hi' : clients s' !! i = Some (Leaving my)) by (by apply list_lookup_insert_eq).
  assert (Hj' : forall j, j <> i -> clients s' !! j = clients s !! j) by (intros; by apply list_lookup_insert_ne).
  assert (Hmy : holds s i my) by (by exists (Access my)).
  assert (Hnew : forall j k, holds s' j k <-> j <> i /\ holds s j k).
  { intros j k. unfold holds. destruct (decide (j = i)) as [->|Hne].
    - rewrite Hi'. split; [by intros (p & [= <-] & ?)|by intros [? _]].
    - rewrite Hj' by done. tauto. }
  assert (Hold : forall j k, holds s j k -> holds s' j k \/ k ∈ ({[my]} ∪ done : gset nat)).
  { intros j k Hjk. destruct (decide (j = i)) as [->|]; [|left; by apply Hnew].
    right. destruct Hjk as (p & E & Ht), Hmy as (p' & E' & Ht'). set_solver. }
  assert (Hcn : counter s' = counter s) by done.
  assert (Hps : positions s' = positions s) by done.
  assert (Hlen : length (clients s') = length (clients s)) by apply length_insert.
  clearbody s'. split; [|done]. split; rewrite ?Hcn, ?Hps, ?Hlen.
  - done.
  - intros k Hk. destruct (Hh k Hk) as [|[j Hj]]; [set_solver|]. destruct (Hold _ _ Hj); eauto.
  - intros k [->%elem_of_singleton|Hk]%elem_of_union; [by destruct (Hf _ _ Hmy)|auto].
  - intros j k [Hne Hjk]%Hnew. destruct (Hf _ _ Hjk) as [? Hnd]. split; [done|].
    assert (k <> my) by (intros ->; by apply Hne, (Hu _ _ my)). set_solver.
  - intros j k [Hne Hjk]%Hnew. by apply Hp.
  - intros j1 j2 k [_ H1]%Hnew [_ H2]%Hnew. by eapply Hu.
  - intros j x Hj. destruct (decide (j = i)) as [->|Hne]; [by rewrite Hi' in Hj|].
    rewrite Hj' in Hj by done. eauto.
  - intros j Hj. destruct (decide (j = i)) as [->|Hne]; [by rewrite Hi' in Hj|].
    rewrite Hj' in Hj by done. eauto.
Qed.

(** What is known of a side stays known when it moves on. *)
Definition moves_on (s : Side) (done : gset nat) (s' : Side) (done' : gset nat) : Prop :=
  (counter s <= counter s')%nat /\ done ⊆ done' /\ length (positions s') = length (positions s) /\
  forall i k, holds s i k -> holds s' i k \/ k ∈ done'.

Lemma moves_safe s done s' done' v : moves_on s done s' done' -> safe s done v -> safe s' done' v.
Proof. intros (Hc & Hd & _ & _) [Hv Hk]. split; [lia|]. intros k Hlt. by apply Hd, Hk. Qed.

Lemma moves_knows room s done s' done' p : moves_on s done s' done' -> knows room s done p -> knows room s' done' p.
Proof.
  intros Hm. pose proof Hm as (Hc & Hd & Hl & Hh). destruct p; simpl; try done.
  - by apply moves_safe.
  - intros [[Hv Hk] Hj]. split; [|by rewrite Hl]. split; [lia|]. intros k Hlt.
    destruct (Hk k Hlt) as [|(j & Hj' & Hjk)]; [left; by apply Hd|].
    destruct (Hh _ _ Hjk); [right; by exists j|by left].
  - intros (v & Hs & Hv). exists v. split; [by eapply moves_safe|done].
Qed.

(** The step of a client adds only what it may know. *)
Lemma client_step_knows room me other i me' other' done :
  client_step room me other i me' other' -> side_ok other done -> safe other done (last_ other) ->
  (forall j p, clients me !! j = Some p -> knows room other done p) ->
  safe other' done (last_ other') /\ (forall j p, clients me' !! j = Some p -> knows room other' done p).
Proof.
  intros Hs Hok Hlast Hk.
  assert (Hpub : forall v p, knows room other done p -> knows room (publish v other) done p) by (intros v p; by destruct p).
  assert (Hins : forall p o j p', knows room o done p -> (forall q, knows room other done q -> knows room o done q) ->
            <[i:=p]> (clients me) !! j = Some p' -> knows room o done p').
  { intros p o j p' Hp Ho Hj. apply list_lookup_insert_Some in Hj as [(-> & -> & _)|[_ Hj]]; [done|eauto]. }
  destruct Hs; simpl.
  8: { subst j. destruct (Hk _ _ H) as [Hsc _]. pose proof (scan_end _ _ _ Hok Hsc) as Hsafe. split; [done|].
       intros j p. apply Hins; [|by apply Hpub]. case_match eqn:E; [|done]. apply Nat.ltb_lt in E. by exists pos_min. }
  all: split; [done|]; intros j0 p0; apply Hins; try done.
  - case_match eqn:E; [done|]. apply Nat.leb_gt in E. exists pos_min. split; [by apply (Hk _ _ H)|lia].
  - split; [by apply scan_start|lia].
  - destruct (Hk _ _ H) as [Hsc Hlen]. split; [by apply scan_next|]. by apply lookup_lt_Some in H0.
Qed.

(** ** The queue is correct *)

Section Correct.
Context {C : Type} (garbage : C) (n : Z) (Hn : 0 <= n).
Let q : nat := Z.to_nat (2 ^ n).
Implicit Types s : lockfree (C := C).

Lemma q_pos : (0 < q)%nat.
Proof. unfold q. assert (0 < 2 ^ n) by (by apply Z.pow_pos_nonneg). lia. Qed.

(** Two tickets share a slot of the ring only a whole turn apart. *)
Lemma ring_slot_inj k m : ring_slot (2 ^ n) k = ring_slot (2 ^ n) m -> (k < m)%nat -> (k + q <= m)%nat.
Proof.
  unfold ring_slot, q_mask_, q. assert (Hp : 0 < 2 ^ n) by (by apply Z.pow_pos_nonneg).
  replace (2 ^ n - 1) with (Z.ones n) by (rewrite Z.ones_equiv; lia). rewrite !Z.land_ones by done.
  intros E Hlt. assert (Hd : (Z.of_nat m - Z.of_nat k) mod 2 ^ n = 0).
  { rewrite Zminus_mod, E, Z.sub_diag. apply Z.mod_0_l. lia. }
  apply Z.mod_divide in Hd as [z Hz]; [|lia]. assert (1 <= z) by nia. nia.
Qed.

Record lockfree_inv (s : lockfree (C := C)) : Prop := {
  li_puts : length (puts s) = counter (producers s);
  li_producers : side_ok (producers s) (stored s);
  li_consumers : side_ok (consumers s) (read s);
  li_last_head : safe (producers s) (stored s) (last_ (producers s));
  li_last_tail : safe (consumers s) (read s) (last_ (consumers s));
  li_put_knows i p : clients (producers s) !! i = Some p -> knows q (consumers s) (read s) p;
  li_get_knows i p : clients (consumers s) !! i = Some p -> knows 0 (producers s) (stored s) p;
  li_read k : k ∈ read s -> k ∈ stored s;
  li_window k m : k ∈ stored s -> (m + q <= k)%nat -> m ∈ read s;
  li_ring k : k ∈ stored s -> k ∉ read s -> ring s !! ring_slot (2 ^ n) k = puts s !! k;
  li_gets k v : gets s !! k = Some v -> k ∈ read s /\ puts s !! k = Some v;
  li_got k : k ∈ read s -> is_Some (gets s !! k)
}.

Lemma client_step_moves room me other i me' other' done :
  client_step room me other i me' other' -> moves_on me done me' done.
Proof.
  intros Hs. destruct (client_step_own _ _ _ _ _ _ Hs) as (Hc & _ & Hl & Hh & _).
  split_and!; [lia|done|done|]. intros j k Hj. left. by apply Hh.
Qed.

Lemma publish_ok v (s : Side) done : side_ok s done -> side_ok (publish v s) done.
Proof. intros [????????]. by split. Qed.

Lemma other_ok room me other i me' other' done :
  client_step room me other i me' other' -> side_ok other done ->
  side_ok other' done /\ clients other' = clients other /\ counter other' = counter other.
Proof.
  intros Hs Ho. destruct (client_step_own _ _ _ _ _ _ Hs) as (_ & _ & _ & _ & _ & [-> |[v ->]]); [done|].
  split; [by apply publish_ok|done].
Qed.

(** Storing a ticket: its slot holds nothing that is still to be read. *)
Lemma store_ring k my s :
  lockfree_inv s -> my ∉ stored s -> (forall m, (m + q <= my)%nat -> m ∈ read s) ->
  k ∈ stored s -> k ∉ read s -> ring_slot (2 ^ n) k <> ring_slot (2 ^ n) my.
Proof.
  intros HI Hmy Hw Hk Hkr E. destruct (lt_eq_lt_dec k my) as [[Hlt| ->]|Hlt]; [|done|].
  - by apply Hkr, Hw, ring_slot_inj.
  - apply Hmy, (li_read _ HI), (li_window _ HI k); [done|]. by apply ring_slot_inj.
Qed.

Lemma put_step_inv i p c p' c' d ps gs st rd :
  client_step q p c i p' c' ->
  lockfree_inv (MkLockFree p c d ps gs st rd) -> lockfree_inv (MkLockFree p' c' d ps gs st rd).
Proof.
  intros Hs [H1 H2 H3 H4 H5 H6 H7 H8 H9 H10 H11 H12]. cbn in *.
  destruct (client_step_own _ _ _ _ _ _ Hs) as (Ec & El & _).
  destruct (other_ok _ _ _ _ _ _ rd Hs H3) as (H3' & Ecl & Ecn).
  pose proof (client_step_moves _ _ _ _ _ _ st Hs) as Hm.
  destruct (client_step_knows _ _ _ _ _ _ rd Hs H3 H5 H6) as [H5' H6'].
  split; cbn; try done; rewrite ?Ec, ?El, ?Ecl; try done.
  - by eapply client_step_ok.
  - by eapply moves_safe.
  - intros j x Hj. eapply moves_knows; [exact Hm|]. by eapply H7.
Qed.

Lemma get_step_inv i p c p' c' d ps gs st rd :
  client_step 0 c p i c' p' ->
  lockfree_inv (MkLockFree p c d ps gs st rd) -> lockfree_inv (MkLockFree p' c' d ps gs st rd).
Proof.
  intros Hs [H1 H2 H3 H4 H5 H6 H7 H8 H9 H10 H11 H12]. cbn in *.
  destruct (client_step_own _ _ _ _ _ _ Hs) as (Ec & El & _).
  destruct (other_ok _ _ _ _ _ _ st Hs H2) as (H2' & Ecl & Ecn).
  pose proof (client_step_moves _ _ _ _ _ _ rd Hs) as Hm.
  destruct (client_step_knows _ _ _ _ _ _ st Hs H2 H4 H7) as [H4' H7'].
  split; cbn; try done; rewrite ?Ecn, ?El, ?Ecl; try done.
  - by eapply client_step_ok.
  - by eapply moves_safe.
  - intros j x Hj. eapply moves_knows; [exact Hm|]. by eapply H6.
Qed.

Lemma take_moves (s : Side) i done :
  side_ok s done -> clients s !! i = Some Entered ->
  moves_on s done (with_pc i (Ticket (counter s)) (take_ticket s)) done.
Proof.
  intros Hok Hi. destruct (take_ticket_ok s i done Hok Hi) as [_ Hh]. split_and!; simpl; [lia|done|done|auto].
Qed.

Lemma access_moves (s : Side) i my done :
  side_ok s done -> clients s !! i = Some (Access my) ->
  moves_on s done (with_pc i (Leaving my) s) ({[my]} ∪ done).
Proof.
  intros Hok Hi. destruct (access_ok s i my done Hok Hi) as [_ Hh]. split_and!; simpl; [lia|set_solver|done|done].
Qed.

Lemma put_ticket_inv i x p c d ps gs st rd :
  clients p !! i = Some Entered -> lockfree_inv (MkLockFree p c d ps gs st rd) ->
  lockfree_inv (MkLockFree (with_pc i (Ticket (counter p)) (take_ticket p)) c d (ps ++ [x]) gs st rd).
Proof.
  intros Hi [H1 H2 H3 H4 H5 H6 H7 H8 H9 H10 H11 H12]. cbn in *. pose proof (take_moves _ _ _ H2 Hi) as Hm.
  assert (Hps : forall k, k ∈ st -> (ps ++ [x]) !! k = ps !! k).
  { intros k Hk. apply lookup_app_l. rewrite H1. by apply (so_done _ _ H2). }
  split; cbn; try done.
  - rewrite length_app, H1. simpl. lia.
  - by apply take_ticket_ok.
  - by eapply moves_safe.
  - intros j y [(-> & <- & _)|[_ Hj]]%list_lookup_insert_Some; [done|by eapply H6].
  - intros j y Hj. eapply moves_knows; [exact Hm|]. by eapply H7.
  - intros k Hk Hr. rewrite Hps by done. by apply H10.
  - intros k v Hk. destruct (H11 _ _ Hk). rewrite Hps by auto. done.
Qed.

Lemma get_ticket_inv i p c d ps gs st rd :
  clients c !! i = Some Entered -> lockfree_inv (MkLockFree p c d ps gs st rd) ->
  lockfree_inv (MkLockFree p (with_pc i (Ticket (counter c)) (take_ticket c)) d ps gs st rd).
Proof.
  intros Hi [H1 H2 H3 H4 H5 H6 H7 H8 H9 H10 H11 H12]. cbn in *. pose proof (take_moves _ _ _ H3 Hi) as Hm.
  split; cbn; try done.
  - by apply take_ticket_ok.
  - by eapply moves_safe.
  - intros j y Hj. eapply moves_knows; [exact Hm|]. by eapply H6.
  - intros j y [(-> & <- & _)|[_ Hj]]%list_lookup_insert_Some; [done|by eapply H7].
Qed.

Lemma put_store_inv i my x p c d ps gs st rd :
  clients p !! i = Some (Access my) -> ps !! my = Some x -> lockfree_inv (MkLockFree p c d ps gs st rd) ->
  lockfree_inv (MkLockFree (with_pc i (Leaving my) p) c (<[ring_slot (2 ^ n) my:=x]> d) ps gs ({[my]} ∪ st) rd).
Proof.
  intros Hi Hx HI. pose proof HI as [H1 H2 H3 H4 H5 H6 H7 H8 H9 H10 H11 H12]. cbn in *.
  pose proof (access_moves _ _ _ _ H2 Hi) as Hm. destruct (H6 _ _ Hi) as (v & [_ Hv] & Hlt).
  assert (Hw : forall m, (m + q <= my)%nat -> m ∈ rd) by (intros m Hle; apply Hv; lia).
  destruct (so_fresh _ _ H2 i my) as [_ Hfresh]; [by exists (Access my)|].
  split; cbn; try done.
  - by apply access_ok.
  - by eapply moves_safe.
  - intros j y [(-> & <- & _)|[_ Hj]]%list_lookup_insert_Some; [done|by eapply H6].
  - intros j y Hj. eapply moves_knows; [exact Hm|]. by eapply H7.
  - intros k Hk. apply elem_of_union. right. auto.
  - intros k m [->%elem_of_singleton|Hk]%elem_of_union Hle; [by apply Hw|by eapply H9].
  - intros k Hk Hr. destruct (decide (k = my)) as [->|Hne]; [by rewrite lookup_insert_eq|].
    assert (Hks : k ∈ st) by set_solver.
    rewrite lookup_insert_ne; [by apply H10|]. apply not_eq_sym. by apply (store_ring _ _ _ HI).
Qed.

Lemma get_read_inv i my p c d ps gs st rd :
  clients c !! i = Some (Access my) -> lockfree_inv (MkLockFree p c d ps gs st rd) ->
  lockfree_inv (MkLockFree p (with_pc i (Leaving my) c) d ps
    (<[my:=default garbage (d !! ring_slot (2 ^ n) my)]> gs) st ({[my]} ∪ rd)).
Proof.
  intros Hi HI. pose proof HI as [H1 H2 H3 H4 H5 H6 H7 H8 H9 H10 H11 H12]. cbn in *.
  pose proof (access_moves _ _ _ _ H3 Hi) as Hm. destruct (H7 _ _ Hi) as (v & [_ Hv] & Hlt).
  assert (Hst : my ∈ st) by (apply Hv; lia).
  destruct (so_fresh _ _ H3 i my) as [_ Hfresh]; [by exists (Access my)|].
  assert (Hget : ps !! my = Some (default garbage (d !! ring_slot (2 ^ n) my))).
  { rewrite H10 by done. destruct (lookup_lt_is_Some_2 ps my) as [x E]; [|by rewrite E].
    rewrite H1. by apply (so_done _ _ H2). }
  split; cbn; try done.
  - by apply access_ok.
  - by eapply moves_safe.
  - intros j y Hj. eapply moves_knows; [exact Hm|]. by eapply H6.
  - intros j y [(-> & <- & _)|[_ Hj]]%list_lookup_insert_Some; [done|by eapply H7].
  - intros k [->%elem_of_singleton|Hk]%elem_of_union; auto.
  - intros k m Hk Hle. apply elem_of_union. right. by eapply H9.
  - intros k Hk Hr. apply H10; [done|]. set_solver.
  - intros k w [[<- <-]|[_ Hk]]%lookup_insert_Some; [split; [set_solver|done]|].
    destruct (H11 _ _ Hk). split; [set_solver|done].
  - intros k Hk. destruct (decide (k = my)) as [->|Hne]; [by rewrite lookup_insert_eq|].
    rewrite lookup_insert_ne by done. apply H12. set_solver.
Qed.

Lemma lockfree_step_inv s s' : lockfree_inv s -> lockfree_step garbage (2 ^ n) s s' -> lockfree_inv s'.
Proof.
  intros HI Hs. destruct Hs.
  - by eapply put_step_inv.
  - by eapply get_step_inv.
  - by apply put_ticket_inv.
  - by apply get_ticket_inv.
  - by apply put_store_inv.
  - by apply get_read_inv.
Qed.

Lemma new_side_ok np : side_ok (new_side np) ∅ /\ safe (new_side np) ∅ 0.
Proof.
  assert (Hout : forall i p, clients (new_side np) !! i = Some p -> p = Out)
    by (intros i p Hi; simpl in Hi; by apply list_elem_of_lookup_2, list_elem_of_In, repeat_spec in Hi).
  assert (Hno : forall i k, ~ holds (new_side np) i k) by (intros i k (p & ->%Hout & Ht); done).
  split; [split|]; simpl.
  - by rewrite !repeat_length.
  - lia.
  - set_solver.
  - intros i k Hi. by apply Hno in Hi.
  - intros i k Hi. by apply Hno in Hi.
  - intros i j k Hi. by apply Hno in Hi.
  - intros i p Hi. by apply Hout in Hi.
  - intros i Hi. by apply Hout in Hi.
  - split; [done|]. lia.
Qed.

Lemma new_queue_inv np nc : lockfree_inv (new_queue np nc).
Proof.
  destruct (new_side_ok np) as [Hp Hsp], (new_side_ok nc) as [Hc Hsc].
  split; cbn; try done; try set_solver.
  all: intros i p Hi; by apply list_elem_of_lookup_2, list_elem_of_In, repeat_spec in Hi as ->.
Qed.

(** C7: with any number of producers and consumers, in every interleaving of
    their loads, stores and [fetch_add]s, the consumer with the [k]-th ticket
    gets the datum of the producer with the [k]-th ticket, and every ticket
    whose slot was read has one; a producer about to store finds every ticket
    that shares its slot already read, and a consumer about to read finds its
    datum in the ring. *)
Theorem lockfree_fifo np nc s
    (Hreach : reachable (fun s0 => s0 = new_queue np nc) (lockfree_step garbage (2 ^ n)) s) :
  (forall k v, gets s !! k = Some v -> puts s !! k = Some v) /\
  (forall k, k ∈ read s -> is_Some (gets s !! k)) /\
  (forall i my, clients (producers s) !! i = Some (Access my) ->
     my ∉ stored s /\ forall k, k ∈ stored s -> ring_slot (2 ^ n) k = ring_slot (2 ^ n) my -> k ∈ read s) /\
  (forall i my, clients (consumers s) !! i = Some (Access my) ->
     exists v, ring s !! ring_slot (2 ^ n) my = Some v /\ puts s !! my = Some v).
Proof.
  apply (reachable_inv _ _ lockfree_inv) in Hreach as HI; [|by intros s0 ->; apply new_queue_inv|apply lockfree_step_inv].
  split; [intros k v Hk; by apply (li_gets _ HI)|]. split; [apply (li_got _ HI)|]. split.
  - intros i my Hi. destruct (so_fresh _ _ (li_producers _ HI) i my) as [_ Hf]; [by exists (Access my)|].
    split; [done|]. intros k Hk E. apply dec_stable. intros Hr.
    destruct (li_put_knows _ HI _ _ Hi) as (v & [_ Hv] & Hlt).
    apply (store_ring k my s HI); [done| |done..|done]. intros m Hle. apply Hv. lia.
  - intros i my Hi. destruct (li_get_knows _ HI _ _ Hi) as (v & [_ Hv] & Hlt).
    assert (Hst : my ∈ stored s) by (apply Hv; lia).
    destruct (so_fresh _ _ (li_consumers _ HI) i my) as [_ Hf]; [by exists (Access my)|].
    destruct (lookup_lt_is_Some_2 (puts s) my) as [x E].
    { rewrite (li_puts _ HI). by apply (so_done _ _ (li_producers _ HI)). }
    exists x. split; [|done]. rewrite <- E. by apply (li_ring _ HI).
Qed.
End Correct.

(** ** Witness: one datum goes through a ring of two slots *)

#[local] Ltac one_step rule := eapply rtc_l; [eapply rule; reflexivity|].
#[local] Ltac put_does rule := eapply rtc_l; [eapply (put_step 0 (2 ^ 1) 0), rule; reflexivity|].
#[local] Ltac get_does rule := eapply rtc_l; [eapply (get_step 0 (2 ^ 1) 0), rule; reflexivity|].

Lemma one_datum : exists s,
  reachable (fun s0 => s0 = new_queue 1 1) (lockfree_step 0 (2 ^ 1)) s /\ gets s !! 0%nat = Some 7.
Proof.
  eexists. split.
  - exists (new_queue 1 1). split; [reflexivity|].
    put_does c_load. put_does c_enter. one_step (put_ticket 0 (2 ^ 1) 0 7). put_does c_post. put_does c_read_last.
    put_does c_check. one_step (put_store 0 (2 ^ 1) 0 0 7). put_does c_leave.
    get_does c_load. get_does c_enter. one_step (get_ticket 0 (2 ^ 1) 0). get_does c_post. get_does c_read_last.
    get_does c_check. get_does c_reload. get_does c_scan. get_does c_publish. one_step (get_read 0 (2 ^ 1) 0 0).
    apply rtc_refl.
  - vm_compute. reflexivity.
Qed.

Lemma lockfree_fifo_witness : exists s,
  reachable (fun s0 => s0 = new_queue 1 1) (lockfree_step 0 (2 ^ 1)) s /\
  gets s !! 0%nat = Some 7 /\ puts s !! 0%nat = Some 7.
Proof.
  destruct one_datum as (s & Hr & Hg). exists s.
  destruct (lockfree_fifo 0 1 ltac:(lia) 1 1 s Hr) as (Hp & _).
  split; [exact Hr|]. split; [exact Hg|]. apply Hp. exact Hg.
Defined.
