(* ===== verification/LightweightSemaphore.v ===== *)
(** * Semaphores ([whisperlib/sync/moody/lightweightsemaphore.h])

    The POSIX [Semaphore], which the lock-free queue waits on, over [sem_t],
    and [LightweightSemaphore], whose counter is in user space: a program for
    each thread, each atomic access and each semaphore call a step of its own.

    Memory is sequentially consistent, and the counter does not wrap (that
    takes [2^63] permits).  A failed [assert] stops the call before it starts. *)

From S2P Require Import Prelude Errno Posix.

(** ** [Semaphore] *)

(** [<semaphore.h>] and [clock_gettime]; the errors are in [errno]. *)
Class PosixSem (W : Type) := {
  sem_wait : W -> Z * W;
  sem_trywait : W -> Z * W;
  sem_clockwait : Z * Z -> W -> Z * W;
  sem_post : W -> Z * W;
  clock_gettime : W -> (Z * Z) * W
}.

Definition usecs_in_1_sec : Z := 1000000.
Definition nsecs_in_1_sec : Z := 1000000000.

(** The end of a wait of [usecs] that starts at [ts], seconds and nanoseconds. *)
Definition deadline (ts : Z * Z) (usecs : Z) : Z * Z :=
  let '(tv_sec, tv_nsec) := ts in
  let tv_sec := i64 (tv_sec + i64 (usecs / usecs_in_1_sec)) in
  let tv_nsec := i64 (tv_nsec + i64 (usecs mod usecs_in_1_sec) * 1000) in
  if decide (nsecs_in_1_sec <= tv_nsec) then (tv_sec + 1, tv_nsec - nsecs_in_1_sec) else (tv_sec, tv_nsec).

Section Wrapper.
Context {W : Type} `{!HasErrno W} `{!PosixSem W}.

(** [do { rc = f(); } while (rc == -1 && errno == EINTR); return rc == 0;]:
    [fuel] bounds the interruptions. *)
Fixpoint uninterrupted (fuel : nat) (f : W -> Z * W) : M W bool :=
  fun w =>
    let '(rc, w) := f w in
    if decide (rc = -1 /\ sys_errno w = EINTR) then
      match fuel with O => Fatal "out of fuel" | S fuel => uninterrupted fuel f w end
    else Ret (rc =? 0) w.

Definition wait (fuel : nat) : M W bool := uninterrupted fuel sem_wait.
Definition try_wait (fuel : nat) : M W bool := uninterrupted fuel sem_trywait.
Definition timed_wait (fuel : nat) (usecs : Z) : M W bool :=
  fun w => let '(ts, w) := clock_gettime w in uninterrupted fuel (sem_clockwait (deadline ts usecs)) w.

(** [while (sem_post(&m_sema) == -1);] *)
Fixpoint signal_once (fuel : nat) : M W unit :=
  fun w =>
    let '(rc, w) := sem_post w in
    if decide (rc = -1) then
      match fuel with O => Fatal "out of fuel" | S fuel => signal_once fuel w end
    else Ret tt w.

(** [while (count-- > 0) ...] *)
Fixpoint signal_many (fuel n : nat) : M W unit :=
  match n with O => ret tt | S n => signal_once fuel ;; signal_many fuel n end.
Definition signal (fuel : nat) (count : Z) : M W unit := signal_many fuel (Z.to_nat count).
End Wrapper.

(** ** [LightweightSemaphore] *)

(** The calls that take permits; a negative timeout waits for ever. *)
Inductive op :=
| TryWait
| Wait (timeout_usecs : Z)
| TryWaitMany (max : Z)
| WaitMany (max timeout_usecs : Z).

(** At most this many are taken. *)
Definition max_of (o : op) : Z :=
  match o with TryWait | Wait _ => 1 | TryWaitMany max | WaitMany max _ => max end.

(** [assert(max >= 0)] *)
Definition allowed (o : op) : bool := 0 <=? max_of o.

(** What is left of [oldCount] when [tryWait], or [tryWaitMany(max)], takes. *)
Definition left_one (oldCount : Z) : Z := oldCount - 1.
Definition left_many (max oldCount : Z) : Z := if max <? oldCount then oldCount - max else 0.
Definition left_of (o : op) (max : Z) : Z -> Z :=
  match o with TryWait | Wait _ => left_one | TryWaitMany _ | WaitMany _ _ => left_many max end.

(** What a thread is doing in a call [o].  [have] permits were taken before
    [tryWaitMany(max)] was called at the end of [waitMany]. *)
Inductive wait_pc :=
| Idle
| Trying (o : op) (have max : Z)
| TryCas (o : op) (have max oldCount : Z)
| Spinning (o : op) (spin : Z)
| SpinCas (o : op) (spin oldCount : Z)
| Subtracting (o : op)
| Waiting (o : op)
| Recheck (o : op)
| Rechecked (o : op) (oldCount : Z)
| Posting (count : Z).

(** The memory the threads share, with the history: the permits that [signal]
    was called with, and the results of the finished calls. *)
Record Shared := MkShared {
  m_count : Z;
  m_sema : Z;
  signalled : Z;
  results : list (op * Z)
}.
Definition set_count (n : Z) (s : Shared) : Shared := MkShared n (m_sema s) (signalled s) (results s).
Definition set_sema (n : Z) (s : Shared) : Shared := MkShared (m_count s) n (signalled s) (results s).
(** The call [o] returns [r], a boolean as 0 or 1. *)
Definition returned (o : op) (r : Z) (s : Shared) : Shared :=
  MkShared (m_count s) (m_sema s) (signalled s) (results s ++ [(o, r)]).

(** What the next step of a thread depends on besides the memory: the call it
    makes, and whether a weak [compare_exchange] fails or a wait times out. *)
Inductive choice :=
| Go
| Fails
| Call (o : op)
| CallSignal (count : Z).

Section Thread.
Context (m_maxSpins : Z).

(** [tryWait] and [tryWaitMany] of the call [o] answer [r]. *)
Definition tried (o : op) (have r : Z) (s : Shared) : Shared * wait_pc :=
  match o with
  | TryWait | TryWaitMany _ => (returned o (have + r) s, Idle)
  | Wait _ => if r =? 0 then (s, Spinning o m_maxSpins) else (returned o r s, Idle)
  | WaitMany max _ =>
      if (have =? 0) && (r =? 0) && (0 <? max) then (s, Spinning o m_maxSpins) else (returned o (have + r) s, Idle)
  end.

(** The thread has got a permit by waiting. *)
Definition obtained (o : op) (s : Shared) : Shared * wait_pc :=
  match o with
  | WaitMany max _ => if 1 <? max then (s, Trying o 1 (max - 1)) else (returned o 1 s, Idle)
  | _ => (returned o 1 s, Idle)
  end.

Definition timeout_of (o : op) : Z :=
  match o with Wait timeout_usecs | WaitMany _ timeout_usecs => timeout_usecs | _ => 0 end.

(** A step of a thread; [None] if there is none. *)
Definition advance (c : choice) (s : Shared) (p : wait_pc) : option (Shared * wait_pc) :=
  match p, c with
  | Idle, Call o => if allowed o then Some (s, Trying o 0 (max_of o)) else None
  | Idle, CallSignal count =>
      if 0 <=? count then
        let oldCount := m_count s in
        let toRelease := if - oldCount <? count then - oldCount else count in
        let s := MkShared (oldCount + count) (m_sema s) (signalled s + count) (results s) in
        Some (s, if 0 <? toRelease then Posting (i32 toRelease) else Idle)
      else None
  (* [tryWait], [tryWaitMany] *)
  | Trying o have max, Go => Some (s, TryCas o have max (m_count s))
  | TryCas o have max oldCount, Go =>
      if oldCount <=? 0 then Some (tried o have 0 s)
      else if m_count s =? oldCount then
        Some (tried o have (oldCount - left_of o max oldCount) (set_count (left_of o max oldCount) s))
      else Some (s, TryCas o have max (m_count s))
  | TryCas o have max oldCount, Fails =>
      if oldCount <=? 0 then None else Some (s, TryCas o have max (m_count s))
  (* [while (--spin >= 0)] *)
  | Spinning o spin, Go =>
      let spin := spin - 1 in
      Some (s, if 0 <=? spin then SpinCas o spin (m_count s) else Subtracting o)
  | SpinCas o spin oldCount, Go =>
      if (0 <? oldCount) && (m_count s =? oldCount) then
        let newCount := left_of o (max_of o) oldCount in
        Some (returned o (oldCount - newCount) (set_count newCount s), Idle)
      else Some (s, Spinning o spin)
  (* [m_count.fetch_sub(1)] *)
  | Subtracting o, Go =>
      let oldCount := m_count s in
      let s := set_count (oldCount - 1) s in
      if 0 <? oldCount then Some (obtained o s)
      else Some (s, if timeout_of o =? 0 then Recheck o else Waiting o)
  (* [m_sema.wait()], [m_sema.timed_wait(timeout_usecs)] *)
  | Waiting o, Go => if 0 <? m_sema s then Some (obtained o (set_sema (m_sema s - 1) s)) else None
  | Waiting o, Fails => if 0 <? timeout_of o then Some (s, Recheck o) else None
  (* the loop after a wait that failed *)
  | Recheck o, Go => Some (s, Rechecked o (m_count s))
  | Rechecked o oldCount, Go =>
      if 0 <=? oldCount then
        if 0 <? m_sema s then Some (obtained o (set_sema (m_sema s - 1) s)) else Some (s, Recheck o)
      else if m_count s =? oldCount then Some (returned o 0 (set_count (oldCount + 1) s), Idle)
      else Some (s, Recheck o)
  (* [m_sema.signal(count)] *)
  | Posting count, Go =>
      if 0 <? count then Some (set_sema (m_sema s + 1) s, Posting (count - 1)) else Some (s, Idle)
  | _, _ => None
  end.

(** The threads of a program, and a step of one of them. *)
Record semaphore := MkSemaphore { shared : Shared; threads : list wait_pc }.

Inductive sem_step : semaphore -> semaphore -> Prop :=
| thread_step i c s p s' p' l :
    l !! i = Some p -> advance c s p = Some (s', p') -> sem_step (MkSemaphore s l) (MkSemaphore s' (<[i:=p']> l)).
End Thread.

Definition LightweightSemaphore_ctor (initialCount : Z) (n : nat) : semaphore :=
  MkSemaphore (MkShared initialCount 0 0 []) (repeat Idle n).
Definition availableApprox (s : Shared) : Z := if 0 <? m_count s then m_count s else 0.

(** ** Counting *)

(** A quantity of the threads, summed over all of them. *)
Definition total {A} (f : A -> Z) (l : list A) : Z := foldr (fun p n => f p + n) 0 l.
#[global] Arguments total : simpl never.

Lemma total_cons {A} (f : A -> Z) p l : total f (p :: l) = f p + total f l.
Proof. done. Qed.

Lemma total_insert {A} (f : A -> Z) l i p q : l !! i = Some p -> total f (<[i:=q]> l) = total f l - f p + f q.
Proof.
  revert i. induction l as [|x l IH]; intros [|i] E; try done.
  - injection E as ->. change (<[0%nat:=q]> (p :: l)) with (q :: l). rewrite !total_cons. lia.
  - change (<[S i:=q]> (x :: l)) with (x :: <[i:=q]> l). rewrite !total_cons, (IH _ E). lia.
Qed.

Lemma total_bound {A} (f : A -> Z) l : (forall p, 0 <= f p <= 1) -> 0 <= total f l <= zlen l.
Proof.
  intros Hf. induction l as [|p l IH]; [done|]. rewrite total_cons, zlen_cons. specialize (Hf p). lia.
Qed.

Lemma total_nonneg {A} (f : A -> Z) l : Forall (fun p => 0 <= f p) l -> 0 <= total f l.
Proof. induction 1; [done|]. rewrite total_cons. lia. Qed.

Lemma total_pos {A} (f : A -> Z) l : 0 < total f l -> exists i p, l !! i = Some p /\ 0 < f p.
Proof.
  induction l as [|p l IH]; [by intros ?|]. rewrite total_cons. intros Hl.
  destruct (decide (0 < f p)) as [Hp|Hp]; [by exists 0%nat, p|].
  destruct IH as (i & q & E & Hq); [lia|]. by exists (S i), q.
Qed.

(** The thread has taken one off the counter and waits for its permit; the
    permits it has in an unfinished call; the posts it still has to make. *)
Definition waiting (p : wait_pc) : Z := match p with Waiting _ | Recheck _ | Rechecked _ _ => 1 | _ => 0 end.
Definition having (p : wait_pc) : Z := match p with Trying _ have _ | TryCas _ have _ _ => have | _ => 0 end.
Definition posting (p : wait_pc) : Z := match p with Posting count => count | _ => 0 end.

Definition sum (l : list (op * Z)) : Z := foldr (fun x n => snd x + n) 0 l.
#[global] Arguments sum : simpl never.

(** The permits given to the callers, and those that are left. *)
Definition taken (s : semaphore) : Z := sum (results (shared s)) + total having (threads s).
Definition permits (initialCount : Z) (s : semaphore) : Z := initialCount + signalled (shared s) - taken s.

(** A call that only returns with a permit. *)
Definition insists (o : op) : bool :=
  match o with Wait t => t <? 0 | WaitMany max t => (0 <? max) && (t <? 0) | _ => false end.
Definition result_ok (x : op * Z) : Prop := 0 <= x.2 <= max_of x.1 /\ (insists x.1 = true -> 1 <= x.2).

Definition spins (o : op) : Prop := match o with Wait _ => True | WaitMany max _ => 0 < max | _ => False end.
Definition trying (o : op) (have max : Z) : Prop :=
  allowed o = true /\ ((have = 0 /\ max = max_of o) \/
    (have = 1 /\ match o with WaitMany m _ => max = m - 1 /\ 1 < m | _ => False end)).
Definition pc_ok (p : wait_pc) : Prop :=
  match p with
  | Idle => True
  | Trying o have max | TryCas o have max _ => trying o have max
  | Spinning o _ | SpinCas o _ _ | Subtracting o => spins o
  | Waiting o => spins o /\ timeout_of o <> 0
  | Recheck o | Rechecked o _ => spins o /\ 0 <= timeout_of o
  | Posting count => 0 <= count
  end.

Section Correct.
Context (initialCount m_maxSpins : Z) (n : nat) (Hn : Z.of_nat n < 2 ^ 31) (Hinit : 0 <= initialCount).

Record sem_inv (s : semaphore) : Prop := {
  si_conserve : m_count (shared s) + total waiting (threads s) = permits initialCount s;
  si_granted : m_sema (shared s) + total posting (threads s) = total waiting (threads s) + Z.min (m_count (shared s)) 0;
  si_sema : 0 <= m_sema (shared s);
  si_pcs : Forall pc_ok (threads s);
  si_results : Forall result_ok (results (shared s));
  si_threads : length (threads s) = n
}.

(** What the memory and a thread have together of the two sums. *)
Definition conserved (s : Shared) (p : wait_pc) : Z :=
  m_count s + waiting p + having p + sum (results s) - signalled s.
Definition granted (s : Shared) (p : wait_pc) : Z := m_sema s + posting p - waiting p - Z.min (m_count s) 0.

Record balanced (s : Shared) (p : wait_pc) (s' : Shared) (p' : wait_pc) : Prop := {
  ba_conserve : conserved s' p' = conserved s p;
  ba_granted : granted s' p' = granted s p;
  ba_sema : 0 <= m_sema s';
  ba_pc : pc_ok p';
  ba_results : Forall result_ok (results s')
}.

Lemma sum_snoc l x : sum (l ++ [x]) = sum l + x.2.
Proof. unfold sum. induction l as [|y l IH]; cbn; [lia|]. rewrite IH. lia. Qed.

Lemma left_of_bounds o max old : 0 <= max -> (match o with TryWait | Wait _ => 1 <= max | _ => True end) -> 0 < old ->
  0 <= left_of o max old <= old /\ old - left_of o max old <= max.
Proof. intros Hm Ho Hold. unfold left_of, left_one, left_many. destruct o; try destruct (max <? old) eqn:E; lia. Qed.

(** A thread that leaves with [got] permits more than it had. *)
Definition leaves (got : Z) (s : Shared) (x : Shared * wait_pc) : Prop :=
  conserved x.1 x.2 = m_count s + got + sum (results s) - signalled s /\
  m_count x.1 = m_count s /\ m_sema x.1 = m_sema s /\ posting x.2 = 0 /\ waiting x.2 = 0 /\
  pc_ok x.2 /\ Forall result_ok (results x.1).

Lemma returned_leaves o r s : Forall result_ok (results s) -> result_ok (o, r) -> leaves r s (returned o r s, Idle).
Proof.
  intros Hs Hr. unfold leaves, conserved. cbn. rewrite sum_snoc. cbn. split_and!; try done; [lia|].
  apply Forall_app. by rewrite Forall_singleton.
Qed.

Lemma stays_leaves have p s : Forall result_ok (results s) -> pc_ok p -> waiting p = 0 -> posting p = 0 -> having p = have ->
  leaves have s (s, p).
Proof. intros Hs Hp Hw Hq Hh. unfold leaves, conserved. cbn. split_and!; try done. lia. Qed.

Lemma tried_leaves o have max r s : Forall result_ok (results s) -> trying o have max -> 0 <= r <= max ->
  leaves (have + r) s (tried m_maxSpins o have r s).
Proof.
  intros Hs [Ha Ht] Hr. unfold tried, allowed in *. apply Z.leb_le in Ha.
  destruct o as [|t|m|m t]; cbn in *.
  - apply returned_leaves; [done|]. unfold result_ok. cbn. split; [lia|done].
  - destruct Ht as [[-> ->]|[_ []]]. destruct (r =? 0) eqn:E.
    + apply stays_leaves; try done. cbn. lia.
    + apply returned_leaves; [done|]. unfold result_ok. cbn. split; [lia|]. intros _. lia.
  - apply returned_leaves; [done|]. unfold result_ok. cbn. split; [lia|done].
  - destruct ((have =? 0) && (r =? 0) && (0 <? m)) eqn:E.
    + apply stays_leaves; cbn; try done; lia.
    + apply returned_leaves; [done|]. unfold result_ok. cbn. split; lia.
Qed.

Lemma obtained_leaves o s : Forall result_ok (results s) -> spins o -> leaves 1 s (obtained o s).
Proof.
  intros Hs Ho. unfold obtained. destruct o as [|t|m|m t]; cbn in Ho; try done.
  - apply returned_leaves; [done|]. split; cbn; lia.
  - destruct (1 <? m) eqn:E.
    + apply stays_leaves; try done. cbn. split; [unfold allowed; cbn; lia|right]. lia.
    + apply returned_leaves; [done|]. split; cbn; lia.
Qed.

Lemma leaves_balanced got s1 x s p : leaves got s1 x ->
  conserved s p = m_count s1 + got + sum (results s1) - signalled s1 ->
  granted s p = m_sema s1 - Z.min (m_count s1) 0 -> 0 <= m_sema s1 -> balanced s p x.1 x.2.
Proof.
  intros (Hc & Hm & Hse & Hp & Hw & Hpc & Hr) Ec Eg Hs. split; [by rewrite Ec| |by rewrite Hse|done|done].
  rewrite Eg. unfold granted. rewrite Hm, Hse, Hp, Hw. lia.
Qed.

(** A step that changes only the place of the thread. *)
Lemma moves_balanced s p p' : waiting p' = waiting p -> having p' = having p -> posting p' = posting p ->
  0 <= m_sema s -> Forall result_ok (results s) -> pc_ok p' -> balanced s p s p'.
Proof. intros Hw Hh Hp Hs Hr Hpc. split; try done; unfold conserved, granted; rewrite ?Hw, ?Hh, ?Hp; lia. Qed.

Lemma left_of_lt o max old : 1 <= max -> 0 < old -> left_of o max old < old.
Proof. intros Hm Ho. unfold left_of, left_one, left_many. destruct o; try destruct (max <? old) eqn:E; lia. Qed.

Lemma trying_max o have max : trying o have max -> 0 <= max /\ match o with TryWait | Wait _ => 1 <= max | _ => True end.
Proof.
  intros [Ha Ht]. unfold allowed in Ha. apply Z.leb_le in Ha.
  destruct o; destruct Ht as [[_ ->]|[_ Ht]]; cbn in *; try done; lia.
Qed.

Lemma spins_max o : spins o -> 1 <= max_of o.
Proof. destruct o; cbn; done || lia. Qed.

Lemma times_out o : spins o -> 0 <= timeout_of o -> insists o = false.
Proof.
  destruct o as [|t|m|m t]; cbn; try done; intros Hm Ht; [by apply Z.ltb_ge|].
  apply andb_false_iff. right. by apply Z.ltb_ge.
Qed.

(** *** The steps of each part of the program *)

Lemma call_balanced c s s' p' : 0 <= m_sema s -> Forall result_ok (results s) -> - m_count s < 2 ^ 31 ->
  advance m_maxSpins c s Idle = Some (s', p') -> balanced s Idle s' p'.
Proof.
  intros Hs Hr Hm E. destruct c as [| |o|cnt]; cbn in E; try done.
  - destruct (allowed o) eqn:Ha; [|done]. injection E as <- <-. apply moves_balanced; try done. split; [done|]. by left.
  - destruct (0 <=? cnt) eqn:Hc; [|done]. injection E as <- <-. apply Z.leb_le in Hc.
    set (k := if - m_count s <? cnt then - m_count s else cnt).
    assert (Hk : k = Z.min (- m_count s) cnt) by (unfold k; destruct (- m_count s <? cnt) eqn:?; lia).
    destruct (0 <? k) eqn:Hpos; [rewrite i32_id by lia|];
      (split; [unfold conserved; cbn; lia|unfold granted; cbn; lia|done|cbn; lia|done]).
Qed.

Lemma try_balanced c s o have max old s' p' : trying o have max -> 0 <= m_sema s -> Forall result_ok (results s) ->
  advance m_maxSpins c s (TryCas o have max old) = Some (s', p') -> balanced s (TryCas o have max old) s' p'.
Proof.
  intros Ht Hs Hr E. destruct (trying_max _ _ _ Ht) as [Hm Hm1]. destruct c; cbn in E; try done.
  - destruct (old <=? 0) eqn:Ho; [|apply Z.leb_gt in Ho; destruct (m_count s =? old) eqn:Hc].
    + injection E as E. pose proof (tried_leaves o have max 0 s Hr Ht ltac:(lia)) as Hl. rewrite E in Hl.
      apply (leaves_balanced _ _ _ _ _ Hl); unfold conserved, granted; cbn; lia.
    + apply Z.eqb_eq in Hc. injection E as E. destruct (left_of_bounds o max old Hm Hm1 Ho) as [Hb1 Hb2].
      pose proof (tried_leaves o have max (old - left_of o max old) (set_count (left_of o max old) s) Hr Ht ltac:(lia)) as Hl.
      rewrite E in Hl. apply (leaves_balanced _ _ _ _ _ Hl); unfold conserved, granted; cbn; lia.
    + injection E as <- <-. by apply moves_balanced.
  - destruct (old <=? 0); [done|]. injection E as <- <-. by apply moves_balanced.
Qed.

Lemma spin_balanced c s o spin old s' p' : spins o -> 0 <= m_sema s -> Forall result_ok (results s) ->
  advance m_maxSpins c s (SpinCas o spin old) = Some (s', p') -> balanced s (SpinCas o spin old) s' p'.
Proof.
  intros Ho Hs Hr E. destruct c; cbn in E; try done. destruct ((0 <? old) && (m_count s =? old)) eqn:Hc.
  - apply andb_true_iff in Hc as [Hpos Hc]. apply Z.ltb_lt in Hpos. apply Z.eqb_eq in Hc. injection E as E1 E2.
    pose proof (spins_max o Ho) as Hm. pose proof (left_of_lt o (max_of o) old Hm Hpos) as Hlt.
    destruct (left_of_bounds o (max_of o) old) as [Hb1 Hb2]; [lia|by destruct o|done|].
    pose proof (returned_leaves o (old - left_of o (max_of o) old) (set_count (left_of o (max_of o) old) s) Hr) as Hl.
    rewrite E1, E2 in Hl. apply (leaves_balanced _ _ _ _ _ (Hl ltac:(split; cbn; lia))); unfold conserved, granted; cbn; lia.
  - injection E as <- <-. by apply moves_balanced.
Qed.

Lemma wait_balanced c s o s' p' : spins o -> timeout_of o <> 0 -> 0 <= m_sema s -> Forall result_ok (results s) ->
  advance m_maxSpins c s (Waiting o) = Some (s', p') -> balanced s (Waiting o) s' p'.
Proof.
  intros Ho Ht Hs Hr E. destruct c; cbn in E; try done.
  - destruct (0 <? m_sema s) eqn:Hse; [|done]. apply Z.ltb_lt in Hse. injection E as E.
    pose proof (obtained_leaves o (set_sema (m_sema s - 1) s) Hr Ho) as Hl. rewrite E in Hl.
    apply (leaves_balanced _ _ _ _ _ Hl); unfold conserved, granted; cbn; lia.
  - destruct (0 <? timeout_of o) eqn:Hto; [|done]. apply Z.ltb_lt in Hto. injection E as <- <-.
    apply moves_balanced; try done. split; [done|lia].
Qed.

Lemma recheck_balanced c s o old s' p' : spins o -> 0 <= timeout_of o -> 0 <= m_sema s -> Forall result_ok (results s) ->
  advance m_maxSpins c s (Rechecked o old) = Some (s', p') -> balanced s (Rechecked o old) s' p'.
Proof.
  intros Ho Ht Hs Hr E. destruct c; cbn in E; try done. destruct (0 <=? old) eqn:Hold; [destruct (0 <? m_sema s) eqn:Hse|].
  - apply Z.ltb_lt in Hse. injection E as E. pose proof (obtained_leaves o (set_sema (m_sema s - 1) s) Hr Ho) as Hl.
    rewrite E in Hl. apply (leaves_balanced _ _ _ _ _ Hl); unfold conserved, granted; cbn; lia.
  - injection E as <- <-. by apply moves_balanced.
  - apply Z.leb_gt in Hold. destruct (m_count s =? old) eqn:Hc.
    + apply Z.eqb_eq in Hc. injection E as E1 E2. pose proof (spins_max o Ho) as Hm.
      pose proof (returned_leaves o 0 (set_count (old + 1) s) Hr) as Hl. rewrite E1, E2 in Hl.
      assert (Hok : result_ok (o, 0)) by (split; cbn; [lia|by rewrite (times_out o Ho Ht)]).
      apply (leaves_balanced _ _ _ _ _ (Hl Hok)); unfold conserved, granted; cbn; lia.
    + injection E as <- <-. by apply moves_balanced.
Qed.

Lemma advance_balanced c s p s' p' :
  pc_ok p -> 0 <= m_sema s -> Forall result_ok (results s) -> - m_count s < 2 ^ 31 ->
  advance m_maxSpins c s p = Some (s', p') -> balanced s p s' p'.
Proof.
  intros Hp Hs Hr Hm E. destruct p as [|o have max|o have max old|o spin|o spin old|o|o|o|o old|count].
  - by apply (call_balanced c).
  - destruct c; try done. injection E as <- <-. by apply moves_balanced.
  - by apply (try_balanced c).
  - destruct c; try done. cbn in E. injection E as <- <-. by destruct (0 <=? spin - 1); apply moves_balanced.
  - by apply (spin_balanced c).
  - destruct c; try done. cbn in E. destruct (0 <? m_count s) eqn:Hc.
    + apply Z.ltb_lt in Hc. injection E as E. pose proof (obtained_leaves o (set_count (m_count s - 1) s) Hr Hp) as Hl.
      rewrite E in Hl. apply (leaves_balanced _ _ _ _ _ Hl); unfold conserved, granted; cbn; lia.
    + apply Z.ltb_ge in Hc. injection E as <- <-. destruct (timeout_of o =? 0) eqn:Ht;
        (split; [unfold conserved; cbn; lia|unfold granted; cbn; lia|done|cbn; split; [done|lia]|done]).
  - destruct Hp as [Ho Ht]. by apply (wait_balanced c).
  - destruct c; try done. injection E as <- <-. by apply moves_balanced.
  - destruct Hp as [Ho Ht]. by apply (recheck_balanced c).
  - destruct c; try done. cbn in E. destruct (0 <? count) eqn:Hc; injection E as <- <-; cbn in Hp.
    + split; unfold conserved, granted; cbn; lia || done.
    + apply moves_balanced; try done. cbn. lia.
Qed.

(** *** The invariant *)

Lemma waiting_bound p : 0 <= waiting p <= 1.
Proof. destruct p; cbn; lia. Qed.

Lemma inv_waiting s : sem_inv s -> 0 <= total waiting (threads s) < 2 ^ 31 /\ 0 <= total posting (threads s) /\
  - Z.min (m_count (shared s)) 0 <= total waiting (threads s).
Proof.
  intros [Hc Hg Hs Hp Hr Hl]. pose proof (total_bound waiting (threads s) waiting_bound) as Hb. unfold zlen in Hb. rewrite Hl in Hb.
  assert (0 <= total posting (threads s)).
  { apply total_nonneg. eapply Forall_impl; [exact Hp|]. intros [] Hpc; cbn in *; done || lia. }
  lia.
Qed.

Lemma sem_inv_init : sem_inv (LightweightSemaphore_ctor initialCount n).
Proof.
  assert (Hz : forall f, f Idle = 0 -> total f (repeat Idle n) = 0).
  { intros f Hf. clear Hn. induction n as [|k IH]; [done|]. cbn [repeat]. by rewrite total_cons, Hf, IH. }
  split; unfold LightweightSemaphore_ctor, permits, taken; cbn [shared threads m_count m_sema signalled results].
  - rewrite !Hz by done. unfold sum. cbn. lia.
  - rewrite !Hz by done. lia.
  - done.
  - apply Forall_forall. intros p Hp. apply list_elem_of_In, repeat_spec in Hp. by subst p.
  - constructor.
  - apply repeat_length.
Qed.

Lemma sem_inv_step s s' : sem_inv s -> sem_step m_maxSpins s s' -> sem_inv s'.
Proof.
  intros Hinv Hstep. pose proof (inv_waiting s Hinv) as (Hw & _ & Hm). destruct Hinv as [Hc Hg Hs Hp Hr Hl].
  destruct Hstep as [i c sh p sh' p' l Hi E]. cbn [shared threads] in *.
  destruct (advance_balanced c sh p sh' p') as [Bc Bg Bs Bp Br]; try done; [by eapply Forall_lookup_1|lia|].
  unfold conserved, granted in Bc, Bg. unfold permits, taken in Hc |- *. cbn [shared threads] in *.
  split; unfold permits, taken; cbn [shared threads]; rewrite ?(total_insert _ _ _ _ _ Hi); try done.
  - lia.
  - lia.
  - by apply Forall_insert.
  - by rewrite length_insert.
Qed.

Lemma sem_inv_reach s : rtc (sem_step m_maxSpins) (LightweightSemaphore_ctor initialCount n) s -> sem_inv s.
Proof.
  intros Hr. remember (LightweightSemaphore_ctor initialCount n) as s0 eqn:E0.
  assert (Hs : sem_inv s0) by (subst; apply sem_inv_init). clear E0.
  induction Hr as [|x y z Hxy _ IH]; [done|]. by eapply IH, sem_inv_step.
Qed.

(** While permits are left, one who waits is about to get one. *)
Lemma no_lost_wakeup s i p : sem_inv s -> threads s !! i = Some p -> waiting p = 1 -> 0 < permits initialCount s ->
  0 < m_sema (shared s) \/ exists j count, threads s !! j = Some (Posting count) /\ 0 < count.
Proof.
  intros Hinv Hi Hwp Hperm. pose proof (inv_waiting s Hinv) as (Hw & Hpost & Hm). destruct Hinv as [Hc Hg Hs Hp Hr Hl].
  destruct (decide (0 < m_sema (shared s))) as [|Hsema]; [by left|right].
  assert (Hone : 1 <= total waiting (threads s)).
  { pose proof (total_insert waiting (threads s) i p Idle Hi) as E. rewrite Hwp in E. cbn in E.
    pose proof (total_bound waiting (<[i:=Idle]> (threads s)) waiting_bound). lia. }
  destruct (total_pos posting (threads s)) as (j & q & Hj & Hq); [lia|].
  destruct q; cbn in Hq; try lia. by eexists j, _.
Qed.

(** C14: in every interleaving of the threads of a program the semaphore gives
    out no more permits than it had and was signalled; each call answers
    between 0 and what it asked for, and one without a time limit at least one
    permit; the kernel semaphore stays below its maximum, so that posting does
    not fail; and no wakeup is lost: while permits are left and a thread waits
    for one, the kernel semaphore can be taken, or another thread is about to
    post it. *)
Theorem semaphore_correct s (Hreach : rtc (sem_step m_maxSpins) (LightweightSemaphore_ctor initialCount n) s) :
  0 <= permits initialCount s /\
  (forall o r, (o, r) ∈ results (shared s) -> 0 <= r <= max_of o /\ (insists o = true -> 1 <= r)) /\
  0 <= m_sema (shared s) <= Z.of_nat n /\
  (forall i p, threads s !! i = Some p -> waiting p = 1 -> 0 < permits initialCount s ->
     0 < m_sema (shared s) \/ exists j count, threads s !! j = Some (Posting count) /\ 0 < count).
Proof.
  pose proof (sem_inv_reach s Hreach) as Hinv. pose proof (inv_waiting s Hinv) as (Hw & Hpost & Hm).
  destruct Hinv as [Hc Hg Hs Hp Hr Hl]. split; [lia|]. split; [|split].
  - intros o r Hor. exact (proj1 (Forall_forall _ _) Hr _ Hor).
  - pose proof (total_bound waiting (threads s) waiting_bound) as Hb. unfold zlen in Hb. rewrite Hl in Hb. lia.
  - intros i p. by apply no_lost_wakeup.
Qed.
End Correct.

(** ** At a concrete state *)

(** Running a list of thread numbers and choices. *)
Fixpoint run_schedule (m_maxSpins : Z) (steps : list (nat * choice)) (s : semaphore) : option semaphore :=
  match steps with
  | [] => Some s
  | (i, c) :: steps =>
      match threads s !! i with
      | None => None
      | Some p =>
          match advance m_maxSpins c (shared s) p with
          | None => None
          | Some (sh, p) => run_schedule m_maxSpins steps (MkSemaphore sh (<[i:=p]> (threads s)))
          end
      end
  end.

Lemma run_schedule_reach m_maxSpins steps s s' : run_schedule m_maxSpins steps s = Some s' -> rtc (sem_step m_maxSpins) s s'.
Proof.
  revert s. induction steps as [|[i c] steps IH]; intros s E; cbn in E; [injection E as ->; apply rtc_refl|].
  destruct (threads s !! i) as [p|] eqn:Hp; [|done]. destruct (advance _ _ _ _) as [[sh q]|] eqn:Ha; [|done].
  eapply rtc_l; [|by apply IH]. destruct s as [sh0 l]. by econstructor.
Qed.

(** Thread 0 waits without spinning, and thread 1 signals twice but has not
    posted yet: the permits are left, and the post is due. *)
Lemma semaphore_correct_witness :
  exists s, run_schedule 0 [(0%nat, Call (Wait (-1))); (0%nat, Go); (0%nat, Go); (0%nat, Go); (0%nat, Go); (1%nat, CallSignal 2)]
              (LightweightSemaphore_ctor 0 2) = Some s /\
    threads s = [Waiting (Wait (-1)); Posting 1] /\ permits 0 s = 2 /\
    exists j count, threads s !! j = Some (Posting count) /\ 0 < count.
Proof.
  eexists. split; [reflexivity|]. split; [reflexivity|]. split; [reflexivity|].
  destruct (semaphore_correct 0 0 2 ltac:(lia) ltac:(lia) _
    (run_schedule_reach 0 [(0%nat, Call (Wait (-1))); (0%nat, Go); (0%nat, Go); (0%nat, Go); (0%nat, Go); (1%nat, CallSignal 2)]
       (LightweightSemaphore_ctor 0 2) _ ltac:(reflexivity))) as (_ & _ & _ & H).
  destruct (H 0%nat (Waiting (Wait (-1)))) as [H0|H0]; [reflexivity|reflexivity|reflexivity|done|exact H0].
Defined.

Section Deadline.
(** C38: the end of a wait is the time of the clock and [usecs] microseconds
    later, with less than a second of nanoseconds, as [sem_clockwait] asks. *)
Theorem deadline_spec tv_sec tv_nsec usecs
    (Hnow : 0 <= tv_sec < 2 ^ 62 /\ 0 <= tv_nsec < nsecs_in_1_sec) (Husecs : 0 <= usecs < 2 ^ 64) :
  let '(sec, nsec) := deadline (tv_sec, tv_nsec) usecs in
  0 <= nsec < nsecs_in_1_sec /\
  sec * nsecs_in_1_sec + nsec = tv_sec * nsecs_in_1_sec + tv_nsec + usecs * 1000.
Proof.
  unfold deadline, nsecs_in_1_sec, usecs_in_1_sec in *.
  pose proof (Z.div_mod usecs 1000000 ltac:(lia)) as Hd. pose proof (Z.mod_pos_bound usecs 1000000 ltac:(lia)) as Hb.
  assert (Hq : 0 <= usecs / 1000000 < 2 ^ 45) by (split; [apply Z.div_pos; lia|apply Z.div_lt_upper_bound; lia]).
  rewrite (i64_id (usecs / 1000000)), (i64_id (usecs mod 1000000)), !i64_id by lia. destruct (decide _); lia.
Qed.

Lemma deadline_spec_witness :
  let '(sec, nsec) := deadline (5, 999999000) 2000001 in
  0 <= nsec < nsecs_in_1_sec /\ sec * nsecs_in_1_sec + nsec = 5 * nsecs_in_1_sec + 999999000 + 2000001 * 1000.
Proof. apply (deadline_spec 5 999999000 2000001); unfold nsecs_in_1_sec; lia. Defined.
End Deadline.
