(* ===== verification/MoodyDetails.v ===== *)
(** * Helpers of the concurrent queue
    ([whisperlib/sync/moody/concurrentqueue.h], namespace [details])

    Arithmetic on indices that wrap, powers of two, alignment, and the hash of
    thread identifiers, which loses nothing.  [size_t], [index_t] and thread
    identifiers have 64 bits. *)

From S2P Require Import Prelude Posix.

(** ** Definitions *)

Definition const_numeric_max (is_signed : bool) (bits : Z) : Z :=
  if is_signed then 2 ^ (bits - 1) - 1 else 2 ^ bits - 1.

(** The finalizers of MurmurHash3, on 32 and on 64 bits. *)
Definition hash_32 (h : Z) : Z :=
  let h := Z.lxor h (Z.shiftr h 16) in
  let h := u32 (h * 0x85ebca6b) in
  let h := Z.lxor h (Z.shiftr h 13) in
  let h := u32 (h * 0xc2b2ae35) in
  Z.lxor h (Z.shiftr h 16).

Definition hash_64 (h : Z) : Z :=
  let h := Z.lxor h (Z.shiftr h 33) in
  let h := u64 (h * 0xff51afd7ed558ccd) in
  let h := Z.lxor h (Z.shiftr h 33) in
  let h := u64 (h * 0xc4ceb9fe1a85ec53) in
  Z.lxor h (Z.shiftr h 33).

Definition hash_32_or_64 (size : Z) : Z -> Z := if 4 <? size then hash_64 else hash_32.

(** A thread is identified by the address of a variable of its own;
    [sizeof(thread_id_t)] is 8. *)
Definition invalid_thread_id : Z := 0.
Definition invalid_thread_id2 : Z := 1.
Definition prehash (x : Z) : Z := x.
Definition hash_thread_id (id : Z) : Z := hash_32_or_64 8 (prehash id).

Definition circular_less_than (a b : Z) : bool := Z.shiftl 1 63 <? u64 (a - b).

Definition align_for (alignment ptr : Z) : Z := ptr + (alignment - ptr mod alignment) mod alignment.

(** [x |= x >> n] *)
Definition smear (n x : Z) : Z := Z.lor x (Z.shiftr x n).

(** [for (i = 1; i < sizeof(T); i <<= 1) x |= x >> (i << 3);]: [fuel] bounds the
    rounds, and is 3 for 8 bytes. *)
Fixpoint smear_bytes (fuel : nat) (i size x : Z) : Z :=
  match fuel with
  | O => x
  | S fuel => if i <? size then smear_bytes fuel (Z.shiftl i 1) size (smear (Z.shiftl i 3) x) else x
  end.

Definition ceil_to_pow_2 (x : Z) : Z :=
  let x := u64 (x - 1) in
  let x := smear 1 x in
  let x := smear 2 x in
  let x := smear 4 x in
  let x := smear_bytes 3 1 8 x in
  u64 (x + 1).

(** ** Indices that wrap *)

(** Two counters less than half the range apart are compared as if they did not
    wrap. *)
Lemma circular_less_than_spec a b :
  - 2 ^ 63 < a - b <= 2 ^ 63 -> circular_less_than (u64 a) (u64 b) = (a <? b).
Proof.
  intros Hd. unfold circular_less_than. change (Z.shiftl 1 63) with (2 ^ 63).
  assert (E : u64 (u64 a - u64 b) = u64 (a - b)) by (unfold u64, wrap; by rewrite <- Zminus_mod).
  rewrite E. destruct (Z.ltb_spec a b) as [Hab|Hab].
  - assert (Ew : u64 (a - b) = a - b + 2 ^ 64).
    { unfold u64, wrap. rewrite <- (Z_mod_plus_full (a - b) 1). apply Z.mod_small. lia. }
    rewrite Ew. lia.
  - rewrite u64_id by lia. lia.
Qed.

(** ** Powers of two *)

(** The bits of [y] are those of [x] and of [x] moved down by less than [n]. *)
Definition smeared (n x y : Z) : Prop :=
  forall i, 0 <= i -> Z.testbit y i = true <-> exists j, 0 <= j < n /\ Z.testbit x (i + j) = true.

Lemma smear_smeared n m x y : 0 <= n -> n <= m -> smeared m x y -> smeared (m + n) x (smear n y).
Proof.
  intros Hn Hnm Hy i Hi. unfold smear. rewrite Z.lor_spec, orb_true_iff, Z.shiftr_spec by done.
  rewrite (Hy i Hi), (Hy (i + n)) by lia. split.
  - intros [(j & Hj & E)|(j & Hj & E)]; [exists j; split; [lia|done]|].
    exists (n + j). split; [lia|]. by rewrite Z.add_assoc.
  - intros (j & Hj & E). destruct (Z.lt_ge_cases j m); [left; exists j; split; [lia|done]|right].
    exists (j - n). split; [lia|]. by replace (i + n + (j - n)) with (i + j) by lia.
Qed.

Lemma smeared_1 x : smeared 1 x x.
Proof.
  intros i Hi. split; [intros E; exists 0; split; [lia|by rewrite Z.add_0_r]|].
  intros (j & Hj & E). by replace (i + j) with i in E by lia.
Qed.

(** All the bits below the highest one. *)
Lemma smeared_ones n x y : 0 < x < 2 ^ n -> smeared n x y -> 0 <= y -> y = Z.ones (Z.log2 x + 1).
Proof.
  intros Hx Hy Hy0. pose proof (Z.log2_nonneg x) as Hl. assert (Hln : Z.log2 x < n) by (apply Z.log2_lt_pow2; lia).
  apply Z.bits_inj'. intros i Hi. apply eq_true_iff_eq. rewrite (Hy i Hi), Z.ones_spec_iff by lia. split.
  - intros (j & Hj & E). destruct (Z.le_gt_cases (i + j) (Z.log2 x)); [lia|]. rewrite Z.bits_above_log2 in E by lia. done.
  - intros Hil. exists (Z.log2 x - i). split; [lia|]. replace (i + (Z.log2 x - i)) with (Z.log2 x) by lia.
    apply Z.bit_log2. lia.
Qed.

Lemma ceil_smeared x : 0 <= x -> smeared 64 x (smear_bytes 3 1 8 (smear 4 (smear 2 (smear 1 x)))).
Proof.
  intros _. change (smear_bytes 3 1 8 ?y) with (smear 32 (smear 16 (smear 8 y))).
  apply (smear_smeared 32 32); [lia..|]. apply (smear_smeared 16 16); [lia..|]. apply (smear_smeared 8 8); [lia..|].
  apply (smear_smeared 4 4); [lia..|]. apply (smear_smeared 2 2); [lia..|]. apply (smear_smeared 1 1); [lia..|].
  apply smeared_1.
Qed.

Lemma smear_nonneg n x : 0 <= x -> 0 <= smear n x.
Proof. intros Hx. apply Z.lor_nonneg. split; [done|by apply Z.shiftr_nonneg]. Qed.

(** [ceil_to_pow_2(x)] is the least power of two that is at least [x]; it is 0
    for 0 and when there is none below [2^64]. *)
Theorem ceil_to_pow_2_spec x : 0 <= x < 2 ^ 64 ->
  (0 < x <= 2 ^ 63 -> exists k, ceil_to_pow_2 x = 2 ^ k /\ 0 <= k <= 63 /\ x <= 2 ^ k /\ forall j, 0 <= j -> x <= 2 ^ j -> k <= j) /\
  (x = 0 \/ 2 ^ 63 < x -> ceil_to_pow_2 x = 0).
Proof.
  intros Hx. unfold ceil_to_pow_2. set (y := u64 (x - 1)).
  assert (Hs := ceil_smeared y (proj1 (wrap_range 64 (x - 1) ltac:(done)))).
  assert (Hy : 0 <= y < 2 ^ 64) by (apply (wrap_range 64); done).
  set (z := smear_bytes _ _ _ _) in *.
  assert (Hz : 0 <= z) by (change z with (smear 32 (smear 16 (smear 8 (smear 4 (smear 2 (smear 1 y)))))); do 6 apply smear_nonneg; lia).
  split.
  - intros Hx'. assert (Ey : y = x - 1) by (apply u64_id; lia). destruct (Z.eq_dec x 1) as [->|Hx1].
    { exists 0. rewrite Ey in *. split; [reflexivity|]. split; [lia|]. split; [lia|]. intros; lia. }
    assert (Ez : z = Z.ones (Z.log2 y + 1)) by (apply (smeared_ones 64); [lia|done..]).
    pose proof (Z.log2_spec y ltac:(lia)) as Hl. pose proof (Z.log2_nonneg y) as Hl0.
    assert (Hl63 : Z.log2 y < 63) by (apply Z.log2_lt_pow2; lia).
    exists (Z.log2 y + 1). rewrite Ez, Z.ones_equiv. assert (Hp : 2 ^ (Z.log2 y + 1) <= 2 ^ 63) by (apply Z.pow_le_mono_r; lia).
    replace (Z.pred (2 ^ (Z.log2 y + 1)) + 1) with (2 ^ (Z.log2 y + 1)) by lia.
    split; [apply u64_id; lia|]. split; [lia|]. unfold Z.succ in Hl. split; [lia|].
    intros j Hj Hxj. assert (Hlt : Z.log2 y < j) by (apply Z.log2_lt_pow2; lia). lia.
  - intros Hx'. assert (Hy63 : 2 ^ 63 <= y) by (destruct Hx' as [->|]; [done|]; unfold y; rewrite u64_id by lia; lia).
    assert (Ez : z = Z.ones (Z.log2 y + 1)) by (apply (smeared_ones 64); [lia|done..]).
    assert (El : Z.log2 y = 63) by (apply Z.log2_unique; lia). by rewrite Ez, El.
Qed.

Lemma ceil_to_pow_2_spec_witness : ceil_to_pow_2 33 = 64 /\ ceil_to_pow_2 0 = 0.
Proof.
  destruct (ceil_to_pow_2_spec 33 ltac:(lia)) as [H _]. destruct (ceil_to_pow_2_spec 0 ltac:(lia)) as [_ H0].
  split; [by destruct (H ltac:(lia)) as (k & _)|apply H0; by left].
Defined.

(** ** Alignment *)

Lemma align_for_spec a p : 0 < a -> align_for a p mod a = 0 /\ p <= align_for a p < p + a.
Proof.
  intros Ha. unfold align_for. pose proof (Z.mod_pos_bound p a Ha) as Hm.
  pose proof (Z.mod_pos_bound (a - p mod a) a Ha) as Hm'. split; [|lia].
  rewrite <- Zplus_mod_idemp_r, Zmod_mod, Zplus_mod_idemp_r.
  rewrite (Z.div_mod p a) at 1 by lia. replace (a * (p / a) + p mod a + (a - p mod a)) with (0 + (p / a + 1) * a) by lia.
  by rewrite Z_mod_plus_full.
Qed.

(** ** The hash of a thread identifier *)

(** What undoes [h ^= h >> n] on [w] bits, and a product. *)
Definition unshift (w n h : Z) : Z :=
  Z.lxor (Z.lxor h (Z.shiftr h n)) (if 2 * n <? w then Z.shiftr h (2 * n) else 0).

Definition unhash_32 (h : Z) : Z :=
  let h := unshift 32 16 h in
  let h := u32 (h * 0x7ed1b41d) in
  let h := unshift 32 13 h in
  let h := u32 (h * 0xa5cb9243) in
  unshift 32 16 h.

Definition unhash_64 (h : Z) : Z :=
  let h := unshift 64 33 h in
  let h := u64 (h * 0x9cb4b2f8129337db) in
  let h := unshift 64 33 h in
  let h := u64 (h * 0x4f74430c22a54005) in
  unshift 64 33 h.

Lemma lxor_shift_range w n h : 0 <= w -> 0 <= n -> in_u w h -> in_u w (Z.lxor h (Z.shiftr h n)).
Proof.
  intros Hw Hn [Hh0 Hh]. assert (Hs : 0 <= Z.shiftr h n) by (by apply Z.shiftr_nonneg).
  assert (Hx : 0 <= Z.lxor h (Z.shiftr h n)) by (by apply Z.lxor_nonneg). split; [done|].
  assert (Hb : forall i, w <= i -> Z.testbit (Z.lxor h (Z.shiftr h n)) i = false).
  { intros i Hi. rewrite Z.lxor_spec, Z.shiftr_spec by lia.
    assert (Hz : forall k, w <= k -> Z.testbit h k = false).
    { intros k Hk. destruct (Z.eq_dec h 0) as [->|]; [apply Z.bits_0|]. apply Z.bits_above_log2; [done|].
      enough (Z.log2 h < w) by lia. apply Z.log2_lt_pow2; lia. }
    by rewrite !Hz by lia. }
  destruct (Z.eq_dec (Z.lxor h (Z.shiftr h n)) 0) as [->|Hne]; [by apply Z.pow_pos_nonneg|].
  apply Z.log2_lt_pow2; [lia|]. destruct (Z.lt_ge_cases (Z.log2 (Z.lxor h (Z.shiftr h n))) w) as [|Hge]; [done|].
  specialize (Hb _ Hge). rewrite Z.bit_log2 in Hb by lia. done.
Qed.

(** Two or three shifts reach past the highest bit. *)
Lemma unshift_shift w n h : 0 < n -> w <= 3 * n -> in_u w h ->
  unshift w n (Z.lxor h (Z.shiftr h n)) = h.
Proof.
  intros Hn Hw [Hh0 Hh]. unfold unshift. apply Z.bits_inj'. intros i Hi.
  assert (Hz : forall k, w <= k -> Z.testbit h k = false).
  { intros k Hk. destruct (Z.eq_dec h 0) as [->|]; [apply Z.bits_0|]. apply Z.bits_above_log2; [done|].
    enough (Z.log2 h < w) by lia. apply Z.log2_lt_pow2; lia. }
  assert (H3 : Z.testbit h (i + 2 * n + n) = false) by (apply Hz; lia).
  assert (E2 : i + n + n = i + 2 * n) by lia.
  destruct (Z.ltb_spec (2 * n) w); rewrite ?Z.lxor_spec, ?Z.shiftr_spec, ?Z.lxor_spec, ?Z.shiftr_spec, ?E2, ?H3, ?Z.bits_0 by lia.
  - by destruct (Z.testbit h i), (Z.testbit h (i + n)), (Z.testbit h (i + 2 * n)).
  - rewrite (Hz (i + 2 * n)) by lia. by destruct (Z.testbit h i), (Z.testbit h (i + n)).
Qed.

Lemma mul_inverse w a b h : 0 <= w -> (a * b) mod 2 ^ w = 1 mod 2 ^ w -> in_u w h -> wrap w (wrap w (h * a) * b) = h.
Proof.
  intros Hw Hab Hh. unfold wrap. rewrite Zmult_mod_idemp_l, <- Z.mul_assoc, <- Zmult_mod_idemp_r, Hab, Zmult_mod_idemp_r, Z.mul_1_r.
  by apply Z.mod_small.
Qed.

Lemma unhash_hash_32 h : in_u 32 h -> unhash_32 (hash_32 h) = h.
Proof.
  intros Hh. unfold unhash_32, hash_32, u32. assert (H1 := lxor_shift_range 32 16 h ltac:(done) ltac:(done) Hh).
  set (h1 := Z.lxor h _) in *. assert (H2 := wrap_range 32 (h1 * 0x85ebca6b) ltac:(done)). set (h2 := wrap 32 (h1 * _)) in *.
  assert (H3 := lxor_shift_range 32 13 h2 ltac:(done) ltac:(done) H2). set (h3 := Z.lxor h2 _) in *.
  assert (H4 := wrap_range 32 (h3 * 0xc2b2ae35) ltac:(done)). set (h4 := wrap 32 (h3 * _)) in *.
  rewrite (unshift_shift 32 16 h4) by done. unfold h4. rewrite (mul_inverse 32) by done. unfold h3.
  rewrite (unshift_shift 32 13 h2) by done. unfold h2. rewrite (mul_inverse 32) by done. by apply (unshift_shift 32 16).
Qed.

Lemma unhash_hash_64 h : in_u 64 h -> unhash_64 (hash_64 h) = h.
Proof.
  intros Hh. unfold unhash_64, hash_64, u64. assert (H1 := lxor_shift_range 64 33 h ltac:(done) ltac:(done) Hh).
  set (h1 := Z.lxor h _) in *. assert (H2 := wrap_range 64 (h1 * 0xff51afd7ed558ccd) ltac:(done)). set (h2 := wrap 64 (h1 * _)) in *.
  assert (H3 := lxor_shift_range 64 33 h2 ltac:(done) ltac:(done) H2). set (h3 := Z.lxor h2 _) in *.
  assert (H4 := wrap_range 64 (h3 * 0xc4ceb9fe1a85ec53) ltac:(done)). set (h4 := wrap 64 (h3 * _)) in *.
  rewrite (unshift_shift 64 33 h4) by done. unfold h4. rewrite (mul_inverse 64) by done. unfold h3.
  rewrite (unshift_shift 64 33 h2) by done. unfold h2. rewrite (mul_inverse 64) by done. by apply (unshift_shift 64 33).
Qed.

(** The hash only propagates the bits of an identifier, "since the thread ID is
    already unique": it can be undone, for identifiers of any size, so two
    threads have different hashes. *)
Theorem hash_injective size h h' : in_u (if 4 <? size then 64 else 32) h -> in_u (if 4 <? size then 64 else 32) h' ->
  hash_32_or_64 size h = hash_32_or_64 size h' -> h = h'.
Proof.
  unfold hash_32_or_64. destruct (4 <? size); intros Hh Hh' E.
  - by rewrite <- (unhash_hash_64 h), <- (unhash_hash_64 h'), E.
  - by rewrite <- (unhash_hash_32 h), <- (unhash_hash_32 h'), E.
Qed.

Lemma hash_injective_witness : hash_thread_id 4096 = hash_thread_id 4096 /\ 4096 = 4096.
Proof. split; [done|]. by apply (hash_injective 8). Defined.
