(* ===== verification/MoodyBlock.v ===== *)
(** * Blocks of the concurrent queue
    ([whisperlib/sync/moody/concurrentqueue.h], [ConcurrentQueueDefaultTraits]
    and [ConcurrentQueue::Block])

    The constants of the queue, and a block of elements, with both ways to know
    that it is empty: a flag for each element, or a count. *)

From S2P Require Import Prelude Posix MoodyDetails.

Abbreviation ptr := Z (only parsing).

(** ** Constants *)

(** What a user may shadow; [size_t] and [index_t] have 64 bits. *)
Class Traits := {
  traits_BLOCK_SIZE : Z;
  traits_EXPLICIT_BLOCK_EMPTY_COUNTER_THRESHOLD : Z;
  traits_EXPLICIT_INITIAL_INDEX_SIZE : Z;
  traits_IMPLICIT_INITIAL_INDEX_SIZE : Z;
  traits_INITIAL_IMPLICIT_PRODUCER_HASH_SIZE : Z;
  traits_EXPLICIT_CONSUMER_CONSUMPTION_QUOTA_BEFORE_ROTATE : Z;
  traits_MAX_SUBQUEUE_SIZE : Z;
  MAX_SEMA_SPINS : Z;
  RECYCLE_ALLOCATED_BLOCKS : bool
}.

Definition ConcurrentQueueDefaultTraits : Traits := {|
  traits_BLOCK_SIZE := 32;
  traits_EXPLICIT_BLOCK_EMPTY_COUNTER_THRESHOLD := 32;
  traits_EXPLICIT_INITIAL_INDEX_SIZE := 32;
  traits_IMPLICIT_INITIAL_INDEX_SIZE := 32;
  traits_INITIAL_IMPLICIT_PRODUCER_HASH_SIZE := 32;
  traits_EXPLICIT_CONSUMER_CONSUMPTION_QUOTA_BEFORE_ROTATE := 256;
  traits_MAX_SUBQUEUE_SIZE := const_numeric_max false 64;
  MAX_SEMA_SPINS := 10000;
  RECYCLE_ALLOCATED_BLOCKS := false
|}.

Section Constants.
Context {traits : Traits}.

Definition BLOCK_SIZE : Z := u64 traits_BLOCK_SIZE.
Definition EXPLICIT_BLOCK_EMPTY_COUNTER_THRESHOLD : Z := u64 traits_EXPLICIT_BLOCK_EMPTY_COUNTER_THRESHOLD.
Definition EXPLICIT_INITIAL_INDEX_SIZE : Z := u64 traits_EXPLICIT_INITIAL_INDEX_SIZE.
Definition IMPLICIT_INITIAL_INDEX_SIZE : Z := u64 traits_IMPLICIT_INITIAL_INDEX_SIZE.
Definition INITIAL_IMPLICIT_PRODUCER_HASH_SIZE : Z := u64 traits_INITIAL_IMPLICIT_PRODUCER_HASH_SIZE.
Definition EXPLICIT_CONSUMER_CONSUMPTION_QUOTA_BEFORE_ROTATE : Z :=
  u32 traits_EXPLICIT_CONSUMER_CONSUMPTION_QUOTA_BEFORE_ROTATE.

(** Rounded up to whole blocks, unless that overflows. *)
Definition MAX_SUBQUEUE_SIZE : Z :=
  if u64 (const_numeric_max false 64 - u64 traits_MAX_SUBQUEUE_SIZE) <? BLOCK_SIZE then const_numeric_max false 64
  else u64 (u64 (u64 traits_MAX_SUBQUEUE_SIZE + (BLOCK_SIZE - 1)) / BLOCK_SIZE * BLOCK_SIZE).

(** The [static_assert]s of the class. *)
Definition power_of_2 (n : Z) : bool := Z.land n (n - 1) =? 0.
Definition traits_asserted : bool :=
  (1 <? BLOCK_SIZE) && power_of_2 BLOCK_SIZE &&
  (1 <? EXPLICIT_BLOCK_EMPTY_COUNTER_THRESHOLD) && power_of_2 EXPLICIT_BLOCK_EMPTY_COUNTER_THRESHOLD &&
  (1 <? EXPLICIT_INITIAL_INDEX_SIZE) && power_of_2 EXPLICIT_INITIAL_INDEX_SIZE &&
  (1 <? IMPLICIT_INITIAL_INDEX_SIZE) && power_of_2 IMPLICIT_INITIAL_INDEX_SIZE &&
  ((INITIAL_IMPLICIT_PRODUCER_HASH_SIZE =? 0) || power_of_2 INITIAL_IMPLICIT_PRODUCER_HASH_SIZE).

(** The index of an element in its block, [i & (BLOCK_SIZE - 1)], and the index
    of the first element of the block, [i & ~(BLOCK_SIZE - 1)]. *)
Definition in_block (i : Z) : Z := Z.land i (BLOCK_SIZE - 1).
Definition block_base (i : Z) : Z := Z.ldiff i (BLOCK_SIZE - 1).
End Constants.

Inductive InnerQueueContext := implicit_context | explicit_context.
Inductive AllocationMode := CanAlloc | CannotAlloc.

#[export] Instance context_eq : EqDecision InnerQueueContext.
Proof. solve_decision. Defined.

(** ** Blocks *)

(** An element that is not constructed, or destroyed, is [None]. *)
Record Block (A : Type) := MkBlock {
  elements : list (option A);
  next : ptr;
  elementsCompletelyDequeued : Z;
  emptyFlags : list bool;
  dynamicallyAllocated : bool
}.
Arguments MkBlock {_} _ _ _ _ _.
Arguments elements {_} _.
Arguments next {_} _.
Arguments elementsCompletelyDequeued {_} _.
Arguments emptyFlags {_} _.
Arguments dynamicallyAllocated {_} _.

Section Block.
Context {traits : Traits} {A : Type}.
Implicit Types b : Block A.

Definition set_elements l (b : Block A) : Block A := MkBlock l (next b) (elementsCompletelyDequeued b) (emptyFlags b) (dynamicallyAllocated b).
Definition set_next p (b : Block A) : Block A := MkBlock (elements b) p (elementsCompletelyDequeued b) (emptyFlags b) (dynamicallyAllocated b).
Definition set_count n (b : Block A) : Block A := MkBlock (elements b) (next b) n (emptyFlags b) (dynamicallyAllocated b).
Definition set_flags l (b : Block A) : Block A := MkBlock (elements b) (next b) (elementsCompletelyDequeued b) l (dynamicallyAllocated b).

(** [Block()] on memory that holds the flags [l]. *)
Definition Block_ctor (l : list bool) : Block A := MkBlock (replicate (Z.to_nat BLOCK_SIZE) None) 0 0 l true.

(** Blocks of explicit producers have flags, unless they are large. *)
Definition has_flags (context : InnerQueueContext) : bool :=
  bool_decide (context = explicit_context) && (BLOCK_SIZE <=? EXPLICIT_BLOCK_EMPTY_COUNTER_THRESHOLD).

(** [emptyFlags[p]], and [emptyFlags[p].store(v)]. *)
Definition flag (p : Z) b : bool := default false (emptyFlags b !! Z.to_nat p).
Definition store_flag (p : Z) (v : bool) b : Block A := set_flags (<[Z.to_nat p:=v]> (emptyFlags b)) b.

(** [for (i = from; i < to; ++i) emptyFlags[i].store(v)], [n] rounds. *)
Fixpoint store_flags (n : nat) (from : Z) (v : bool) b : Block A :=
  match n with O => b | S n => store_flags n (from + 1) v (store_flag from v b) end.

(** The loop of [is_empty], [n] rounds. *)
Fixpoint flags_set (n : nat) (from : Z) b : bool :=
  match n with O => true | S n => if flag from b then flags_set n (from + 1) b else false end.

Definition is_empty (context : InnerQueueContext) b : bool :=
  if has_flags context then flags_set (Z.to_nat BLOCK_SIZE) 0 b
  else elementsCompletelyDequeued b =? BLOCK_SIZE.

(** The flags are in reverse order. *)
Definition flag_of (i : Z) : Z := BLOCK_SIZE - 1 - in_block i.

Definition set_empty (context : InnerQueueContext) (i : Z) b : bool * Block A :=
  if has_flags context then (false, store_flag (flag_of i) true b)
  else
    let prevVal := elementsCompletelyDequeued b in
    (prevVal =? BLOCK_SIZE - 1, set_count (u64 (prevVal + 1)) b).

(** The first of the flags of [count] elements from [i] on. *)
Definition first_flag_of (i count : Z) : Z := BLOCK_SIZE - 1 - in_block i - count + 1.

Definition set_many_empty (context : InnerQueueContext) (i count : Z) b : bool * Block A :=
  if has_flags context then (false, store_flags (Z.to_nat count) (first_flag_of i count) true b)
  else
    let prevVal := elementsCompletelyDequeued b in
    (u64 (prevVal + count) =? BLOCK_SIZE, set_count (u64 (prevVal + count)) b).

Definition set_all_empty (context : InnerQueueContext) b : Block A :=
  if has_flags context then store_flags (Z.to_nat BLOCK_SIZE) 0 true b else set_count BLOCK_SIZE b.

Definition reset_empty (context : InnerQueueContext) b : Block A :=
  if has_flags context then store_flags (Z.to_nat BLOCK_SIZE) 0 false b else set_count 0 b.

(** [operator[](idx)]: the element, [None] outside the array; and a new value. *)
Definition element (idx : Z) b : option (option A) := elements b !! Z.to_nat (in_block idx).
Definition set_element (idx : Z) (x : option A) b : Block A :=
  set_elements (<[Z.to_nat (in_block idx):=x]> (elements b)) b.
End Block.

(** ** Lemmas *)

(** What the constants must be: powers of two, and [BLOCK_SIZE] elements and the
    first block index fit in memory. *)
Class TraitsLaws {traits : Traits} := {
  block_bits : Z;
  block_bits_bound : 1 <= block_bits <= 32;
  BLOCK_SIZE_eq : BLOCK_SIZE = 2 ^ block_bits;
  index_bits : Z;
  index_bits_bound : 1 <= index_bits <= 62;
  EXPLICIT_INITIAL_INDEX_SIZE_eq : EXPLICIT_INITIAL_INDEX_SIZE = 2 ^ index_bits
}.

Section Laws.
Context {traits : Traits} `{!TraitsLaws}.

Lemma block_size_bound : 2 <= BLOCK_SIZE <= 2 ^ 32.
Proof.
  rewrite BLOCK_SIZE_eq. pose proof block_bits_bound. split.
  - change 2 with (2 ^ 1) at 1. apply Z.pow_le_mono_r; lia.
  - apply Z.pow_le_mono_r; lia.
Qed.

Lemma block_mask : BLOCK_SIZE - 1 = Z.ones block_bits.
Proof. rewrite BLOCK_SIZE_eq, Z.ones_equiv. lia. Qed.

Lemma in_block_mod i : in_block i = i mod BLOCK_SIZE.
Proof. unfold in_block. rewrite block_mask, Z.land_ones, BLOCK_SIZE_eq; [done|]. pose proof block_bits_bound. lia. Qed.

Lemma block_base_div i : block_base i = i / BLOCK_SIZE * BLOCK_SIZE.
Proof.
  unfold block_base. rewrite block_mask, Z.ldiff_ones_r by (pose proof block_bits_bound; lia).
  rewrite Z.shiftl_mul_pow2, Z.shiftr_div_pow2, BLOCK_SIZE_eq by (pose proof block_bits_bound; lia). done.
Qed.

Lemma in_block_bound i : 0 <= in_block i < BLOCK_SIZE.
Proof. rewrite in_block_mod. apply Z.mod_pos_bound. pose proof block_size_bound. lia. Qed.
End Laws.

#[export, refine] Instance default_laws : TraitsLaws (traits := ConcurrentQueueDefaultTraits) := {| block_bits := 5; index_bits := 5 |}.
Proof. all: done. Defined.

Lemma default_traits_asserted : traits_asserted (traits := ConcurrentQueueDefaultTraits) = true.
Proof. reflexivity. Qed.
