(* ===== verification/ExplicitProducer.v ===== *)
(** * The queue of an explicit producer
    ([whisperlib/sync/moody/concurrentqueue.h],
    [ConcurrentQueue::ProducerBase] and [ConcurrentQueue::ExplicitProducer])

    One thread enqueues, any number of threads dequeue, one by one or in bulk,
    and every access to memory that another thread may touch is a step of its
    own: the steps of a producer and of the consumers interleave.

    The blocks of the producer are a ring; the block index, a circular array
    that grows, says which block holds which elements.  What [malloc] and
    [requisition_block] answer is a choice of each step.  A read through a bad
    pointer, of an element that is not there, or a failed [assert] has no next
    state.  Constructors and assignments of the elements do not throw, and
    memory is sequentially consistent. *)

From S2P Require Import Prelude Posix MoodyDetails MoodyBlock.

(** ** State *)

Record BlockIndexEntry := MkEntry { base : Z; block : ptr }.

(** Its array of entries is in the same piece of memory. *)
Record BlockIndexHeader := MkHeader { size : Z; front : Z; entries : list BlockIndexEntry; prev : ptr }.

Record ProducerBase := MkBase {
  tailIndex : Z;
  headIndex : Z;
  dequeueOptimisticCount : Z;
  dequeueOvercommit : Z;
  tailBlock : ptr
}.

(** The members of [ExplicitProducer], and the memory they point to;
    [pr_blockIndexEntries] is the header whose array it is. *)
Record ExplicitProducer (A : Type) := MkProducer {
  producer_base : ProducerBase;
  blockIndex : ptr;
  pr_blockIndexSlotsUsed : Z;
  pr_blockIndexSize : Z;
  pr_blockIndexFront : Z;
  pr_blockIndexEntries : ptr;
  pr_blockIndexRaw : ptr;
  blocks : gmap ptr (Block A);
  headers : gmap ptr BlockIndexHeader
}.
Arguments MkProducer {_} _ _ _ _ _ _ _ _ _.
Arguments producer_base {_} _.
Arguments blockIndex {_} _.
Arguments pr_blockIndexSlotsUsed {_} _.
Arguments pr_blockIndexSize {_} _.
Arguments pr_blockIndexFront {_} _.
Arguments pr_blockIndexEntries {_} _.
Arguments pr_blockIndexRaw {_} _.
Arguments blocks {_} _.
Arguments headers {_} _.

Definition set_front (f : Z) (h : BlockIndexHeader) : BlockIndexHeader := MkHeader (size h) f (entries h) (prev h).
Definition set_entries (es : list BlockIndexEntry) (h : BlockIndexHeader) : BlockIndexHeader :=
  MkHeader (size h) (front h) es (prev h).

Definition set_tailIndex t b := MkBase t (headIndex b) (dequeueOptimisticCount b) (dequeueOvercommit b) (tailBlock b).
Definition set_headIndex h b := MkBase (tailIndex b) h (dequeueOptimisticCount b) (dequeueOvercommit b) (tailBlock b).
Definition set_optimistic o b := MkBase (tailIndex b) (headIndex b) o (dequeueOvercommit b) (tailBlock b).
Definition set_overcommit o b := MkBase (tailIndex b) (headIndex b) (dequeueOptimisticCount b) o (tailBlock b).
Definition set_tailBlock p b := MkBase (tailIndex b) (headIndex b) (dequeueOptimisticCount b) (dequeueOvercommit b) p.

(** [size_approx] *)
Definition size_approx (b : ProducerBase) : Z :=
  if circular_less_than (headIndex b) (tailIndex b) then u64 (tailIndex b - headIndex b) else 0.

Section Producer.
Context {traits : Traits} {A : Type}.
(** What uninitialised entries of a block index hold. *)
Context (garbage : BlockIndexEntry).
Abbreviation S := (ExplicitProducer A).
Implicit Types s : S.

Definition on_base (f : ProducerBase -> ProducerBase) s : S :=
  MkProducer (f (producer_base s)) (blockIndex s) (pr_blockIndexSlotsUsed s) (pr_blockIndexSize s)
    (pr_blockIndexFront s) (pr_blockIndexEntries s) (pr_blockIndexRaw s) (blocks s) (headers s).
Definition set_used n s : S :=
  MkProducer (producer_base s) (blockIndex s) n (pr_blockIndexSize s)
    (pr_blockIndexFront s) (pr_blockIndexEntries s) (pr_blockIndexRaw s) (blocks s) (headers s).
Definition set_size n s : S :=
  MkProducer (producer_base s) (blockIndex s) (pr_blockIndexSlotsUsed s) n
    (pr_blockIndexFront s) (pr_blockIndexEntries s) (pr_blockIndexRaw s) (blocks s) (headers s).
Definition set_pr_front n s : S :=
  MkProducer (producer_base s) (blockIndex s) (pr_blockIndexSlotsUsed s) (pr_blockIndexSize s)
    n (pr_blockIndexEntries s) (pr_blockIndexRaw s) (blocks s) (headers s).
Definition set_index (p : ptr) (h : BlockIndexHeader) (j : Z) s : S :=
  MkProducer (producer_base s) p (pr_blockIndexSlotsUsed s) (pr_blockIndexSize s)
    j p p (blocks s) (<[p:=h]> (headers s)).
Definition set_blocks m s : S :=
  MkProducer (producer_base s) (blockIndex s) (pr_blockIndexSlotsUsed s) (pr_blockIndexSize s)
    (pr_blockIndexFront s) (pr_blockIndexEntries s) (pr_blockIndexRaw s) m (headers s).
Definition set_headers m s : S :=
  MkProducer (producer_base s) (blockIndex s) (pr_blockIndexSlotsUsed s) (pr_blockIndexSize s)
    (pr_blockIndexFront s) (pr_blockIndexEntries s) (pr_blockIndexRaw s) (blocks s) m.

Definition on_block (p : ptr) (f : Block A -> Block A) s : option S :=
  b ← blocks s !! p; Some (set_blocks (<[p:=f b]> (blocks s)) s).

(** A change of the entry in slot [i] of the current block index. *)
Definition on_entry (i : Z) (f : BlockIndexEntry -> BlockIndexEntry) s : option S :=
  h ← headers s !! blockIndex s;
  e ← entries h !! Z.to_nat i;
  Some (set_headers (<[blockIndex s:=set_entries (<[Z.to_nat i:=f e]> (entries h)) h]> (headers s)) s).

(** [(i + 1) & (n - 1)] *)
Definition next_slot (i n : Z) : Z := Z.land (u64 (i + 1)) (u64 (n - 1)).

(** *** The block index *)

(** [do { ... = pr_blockIndexEntries[i]; i = (i + 1) & mask; } while (i != front);] *)
Fixpoint copy_entries (fuel : nat) (n front i : Z) (es : list BlockIndexEntry) : option (list BlockIndexEntry) :=
  match fuel with
  | O => None
  | Datatypes.S fuel =>
      e ← es !! Z.to_nat i;
      let i := next_slot i n in
      if i =? front then Some [e] else l ← copy_entries fuel n front i es; Some (e :: l)
  end.

(** The filled entries of the current index, the oldest first. *)
Definition filled_entries (n : Z) s : option (list BlockIndexEntry) :=
  if pr_blockIndexSlotsUsed s =? 0 then Some []
  else h ← headers s !! pr_blockIndexEntries s;
       copy_entries (Z.to_nat n) n (pr_blockIndexFront s)
         (Z.land (u64 (pr_blockIndexFront s - pr_blockIndexSlotsUsed s)) (u64 (n - 1))) (entries h).

Definition new_block_index (numberOfFilledSlotsToExpose : Z) (malloc : option ptr) s : option (bool * S) :=
  let n := pr_blockIndexSize s in
  let s := set_size (u64 (Z.shiftl n 1)) s in
  match malloc with
  | None => Some (false, set_size (Z.shiftr (pr_blockIndexSize s) 1) s)
  | Some newRawPtr =>
      old ← filled_entries n s;
      let j := length old in
      let newEntries := old ++ replicate (Z.to_nat (pr_blockIndexSize s) - j) garbage in
      let header := MkHeader (pr_blockIndexSize s) (u64 (numberOfFilledSlotsToExpose - 1)) newEntries (pr_blockIndexRaw s) in
      Some (true, set_index newRawPtr header (Z.of_nat j) s)
  end.

Definition ExplicitProducer_ctor (initialBlockPoolSize : Z) (malloc : option ptr) : option S :=
  let n := Z.shiftr EXPLICIT_INITIAL_INDEX_SIZE 1 in
  let poolBasedIndexSize := Z.shiftr (ceil_to_pow_2 initialBlockPoolSize) 1 in
  let n := if n <? poolBasedIndexSize then poolBasedIndexSize else n in
  snd <$> new_block_index 0 malloc (MkProducer (MkBase 0 0 0 0 0) 0 0 n 0 0 0 ∅ ∅).

(** *** Enqueueing *)

(** What the allocations of a step answer. *)
Record Choice := MkChoice { malloc : option ptr; requisition_block : option (ptr * Block A) }.

(** The program points of [enqueue], with its local variables: the element, and
    the tail index it started with. *)
Inductive PPc :=
| PIdle (result : bool)
| PStart (mode : AllocationMode) (x : A)
| PCheck (mode : AllocationMode) (x : A) (cur i : Z)
| PHead (mode : AllocationMode) (x : A) (cur : Z)
| PIndex (mode : AllocationMode) (x : A) (cur : Z)
| PBlock (x : A) (cur : Z)
| PReset (x : A) (cur : Z) (p : ptr) (i : Z) (new : bool)
| PLink (x : A) (cur : Z) (p : ptr)
| PBase (x : A) (cur : Z)
| PEntry (x : A) (cur : Z)
| PFront (x : A) (cur : Z)
| PConstruct (x : A) (cur : Z)
| PTail (x : A) (cur : Z).

(** [head] is too far behind for another block, or the queue is at its limit. *)
Definition no_leeway (cur head : Z) : bool :=
  negb (circular_less_than head (u64 (cur + BLOCK_SIZE))) ||
  (negb (MAX_SUBQUEUE_SIZE =? const_numeric_max false 64) &&
   ((MAX_SUBQUEUE_SIZE =? 0) || (u64 (MAX_SUBQUEUE_SIZE - BLOCK_SIZE) <? u64 (cur - head)))).

(** One load of [is_empty]: whether the block may be empty, and more loads follow. *)
Definition check_empty (i : Z) (b : Block A) : bool * bool :=
  if has_flags explicit_context then (flag i b, negb (i + 1 =? BLOCK_SIZE))
  else (elementsCompletelyDequeued b =? BLOCK_SIZE, false).

(** One store of [reset_empty], and whether more follow. *)
Definition reset_one (i : Z) (b : Block A) : Block A * bool :=
  if has_flags explicit_context then (store_flag i false b, negb (i + 1 =? BLOCK_SIZE)) else (set_count 0 b, false).

(** The new block enters the ring after the tail. *)
Definition link_block (p : ptr) s : option S :=
  s ← (if decide (tailBlock (producer_base s) = 0) then on_block p (set_next p) s
       else t ← blocks s !! tailBlock (producer_base s);
            s ← on_block p (set_next (next t)) s;
            on_block (tailBlock (producer_base s)) (set_next p) s);
  Some (set_used (u64 (pr_blockIndexSlotsUsed s + 1)) (on_base (set_tailBlock p) s)).

Definition producer_step (c : Choice) (pc : PPc) s : option (PPc * S) :=
  match pc with
  | PIdle _ => None
  | PStart mode x =>
      let cur := tailIndex (producer_base s) in
      Some (if in_block cur =? 0 then
              if decide (tailBlock (producer_base s) <> 0) then PCheck mode x cur 0 else PHead mode x cur
            else PConstruct x cur, s)
  | PCheck mode x cur i =>
      t ← blocks s !! tailBlock (producer_base s);
      b ← blocks s !! next t;
      let '(empty, more) := check_empty i b in
      Some (if empty then
              if more then (PCheck mode x cur (i + 1), s)
              else (PReset x cur (next t) 0 false, on_base (set_tailBlock (next t)) s)
            else (PHead mode x cur, s))
  | PHead mode x cur =>
      let head := headIndex (producer_base s) in
      if circular_less_than cur head then None
      else Some (if no_leeway cur head then PIdle false
                 else if decide (pr_blockIndexRaw s = 0 \/ pr_blockIndexSlotsUsed s = pr_blockIndexSize s)
                      then PIndex mode x cur else PBlock x cur, s)
  | PIndex CannotAlloc _ _ => Some (PIdle false, s)
  | PIndex CanAlloc x cur =>
      '(ok, s) ← new_block_index (pr_blockIndexSlotsUsed s) (malloc c) s;
      Some (if ok : bool then PBlock x cur else PIdle false, s)
  | PBlock x cur =>
      Some (match requisition_block c with
            | None => (PIdle false, s)
            | Some (p, b) => (PReset x cur p 0 true, set_blocks (<[p:=b]> (blocks s)) s)
            end)
  | PReset x cur p i new =>
      b ← blocks s !! p;
      let '(b, more) := reset_one i b in
      Some (if more then PReset x cur p (i + 1) new else if new : bool then PLink x cur p else PBase x cur,
            set_blocks (<[p:=b]> (blocks s)) s)
  | PLink x cur p => s ← link_block p s; Some (PBase x cur, s)
  | PBase x cur =>
      s ← on_entry (pr_blockIndexFront s) (fun e => MkEntry cur (block e)) s; Some (PEntry x cur, s)
  | PEntry x cur =>
      s ← on_entry (pr_blockIndexFront s) (fun e => MkEntry (base e) (tailBlock (producer_base s))) s; Some (PFront x cur, s)
  | PFront x cur =>
      h ← headers s !! blockIndex s;
      let s := set_headers (<[blockIndex s:=set_front (pr_blockIndexFront s) h]> (headers s)) s in
      Some (PConstruct x cur, set_pr_front (next_slot (pr_blockIndexFront s) (pr_blockIndexSize s)) s)
  | PConstruct x cur =>
      b ← blocks s !! tailBlock (producer_base s);
      raw ← element cur b;
      match raw with
      | None => s ← on_block (tailBlock (producer_base s)) (set_element cur (Some x)) s; Some (PTail x cur, s)
      | Some _ => None
      end
  | PTail x cur => Some (PIdle true, on_base (set_tailIndex (u64 (1 + cur))) s)
  end.

(** *** Dequeueing *)

(** [dequeue], and [dequeue_bulk] of at most [max]. *)
Inductive DequeueOp := Single | Bulk (max : Z).

(** The program points of both, with their local variables. *)
Inductive CPc :=
| CIdle
| CTail (op : DequeueOp)
| COver (op : DequeueOp) (tail : Z)
| COptimistic (op : DequeueOp) (tail over : Z)
| CClaim (op : DequeueOp) (over desired : Z)
| CRecheck (op : DequeueOp) (over desired mine : Z)
| CGiveBack (op : DequeueOp) (excess n : Z)
| CTake (op : DequeueOp) (n : Z)
| CIndex (op : DequeueOp) (first n : Z)
| CFront (op : DequeueOp) (first n : Z) (h : ptr)
| CBase (op : DequeueOp) (first n : Z) (h : ptr) (f : Z)
| CBlock (op : DequeueOp) (first n : Z) (h : ptr) (slot start : Z)
| CMove (op : DequeueOp) (first n : Z) (h : ptr) (slot start index stop : Z) (b : ptr)
| CDestroy (op : DequeueOp) (first n : Z) (h : ptr) (slot start index stop : Z) (b : ptr)
| CFlag (op : DequeueOp) (first n : Z) (h : ptr) (slot start stop : Z) (b : ptr) (j : Z).

#[export] Instance DequeueOp_eq : EqDecision DequeueOp.
Proof. solve_decision. Defined.
#[export] Instance CPc_eq : EqDecision CPc.
Proof. solve_decision. Defined.

(** How many elements to claim, 0 for none: from the counts read. *)
Definition desired_count (op : DequeueOp) (tail over optimistic : Z) : Z :=
  match op with
  | Single => if circular_less_than (u64 (optimistic - over)) tail then 1 else 0
  | Bulk max =>
      let desiredCount := u64 (tail - u64 (optimistic - over)) in
      if circular_less_than 0 desiredCount then if desiredCount <? max then desiredCount else max else 0
  end.

(** How many of the [desired] claims, of which [mine] is the first, there are
    elements for. *)
Definition actual_count (op : DequeueOp) (tail over desired mine : Z) : Z :=
  match op with
  | Single => if circular_less_than (u64 (mine - over)) tail then 1 else 0
  | Bulk _ =>
      let actualCount := u64 (tail - u64 (mine - over)) in
      if circular_less_than 0 actualCount then if desired <? actualCount then desired else actualCount else 0
  end.

(** The slot of the block of [index], from the base of the entry at [f]. *)
Definition entry_slot (index f headBase n : Z) : Z :=
  let offset := u64 (Z.quot (i64 (u64 (block_base index - headBase))) (i64 BLOCK_SIZE)) in
  Z.land (u64 (f + offset)) (u64 (n - 1)).

(** Where the elements of this block end. *)
Definition stop_index (op : DequeueOp) (first n start : Z) : Z :=
  match op with
  | Single => u64 (start + 1)
  | Bulk _ =>
      let endIndex := u64 (block_base start + BLOCK_SIZE) in
      if circular_less_than (u64 (first + n)) endIndex then u64 (first + n) else endIndex
  end.

(** The next block, if there is more to dequeue. *)
Definition next_block (op : DequeueOp) (first n : Z) (h : ptr) (slot stop m : Z) : CPc :=
  match op with
  | Single => CIdle
  | Bulk _ => if stop =? u64 (first + n) then CIdle else CBlock op first n h (next_slot slot m) stop
  end.

(** One store of [set_empty] or [set_many_empty], and whether more follow; an
    [assert] says that the elements were not marked before. *)
Definition mark_one (op : DequeueOp) (start stop j : Z) (b : Block A) : option (Block A * bool) :=
  let count := u64 (stop - start) in
  if has_flags explicit_context then
    let p := match op with Single => flag_of start | Bulk _ => first_flag_of start count + j end in
    if flag p b then None else Some (store_flag p true b, negb (j + 1 =? count))
  else
    if elementsCompletelyDequeued b + count <=? BLOCK_SIZE
    then Some (set_count (elementsCompletelyDequeued b + count) b, false) else None.

(** A step of a consumer, with the element that it moves out. *)
Definition consumer_step (pc : CPc) s : option (CPc * S * option (Z * A)) :=
  let base_ := producer_base s in
  match pc with
  | CIdle => None
  | CTail op => Some (COver op (tailIndex base_), s, None)
  | COver op tail => Some (COptimistic op tail (dequeueOvercommit base_), s, None)
  | COptimistic op tail over =>
      let desired := desired_count op tail over (dequeueOptimisticCount base_) in
      Some (if desired =? 0 then CIdle else CClaim op over desired, s, None)
  | CClaim op over desired =>
      let mine := dequeueOptimisticCount base_ in
      Some (CRecheck op over desired mine, on_base (set_optimistic (u64 (mine + desired))) s, None)
  | CRecheck op over desired mine =>
      let actual := actual_count op (tailIndex base_) over desired mine in
      Some (if actual <? desired then CGiveBack op (desired - actual) actual else CTake op actual, s, None)
  | CGiveBack op excess n =>
      Some (if n =? 0 then CIdle else CTake op n, on_base (set_overcommit (u64 (dequeueOvercommit base_ + excess))) s, None)
  | CTake op n =>
      let first := headIndex base_ in
      Some (CIndex op first n, on_base (set_headIndex (u64 (first + n))) s, None)
  | CIndex op first n => Some (CFront op first n (blockIndex s), s, None)
  | CFront op first n p => h ← headers s !! p; Some (CBase op first n p (front h), s, None)
  | CBase op first n p f =>
      h ← headers s !! p;
      e ← entries h !! Z.to_nat f;
      Some (CBlock op first n p (entry_slot first f (base e) (size h)) first, s, None)
  | CBlock op first n p slot start =>
      h ← headers s !! p;
      e ← entries h !! Z.to_nat slot;
      Some (CMove op first n p slot start start (stop_index op first n start) (block e), s, None)
  | CMove op first n p slot start index stop bp =>
      b ← blocks s !! bp;
      el ← element index b;
      v ← el;
      Some (CDestroy op first n p slot start index stop bp, s, Some (index, v))
  | CDestroy op first n p slot start index stop bp =>
      s ← on_block bp (set_element index None) s;
      let index := u64 (index + 1) in
      Some (if index =? stop then CFlag op first n p slot start stop bp 0
            else CMove op first n p slot start index stop bp, s, None)
  | CFlag op first n p slot start stop bp j =>
      b ← blocks s !! bp;
      h ← headers s !! p;
      '(b, more) ← mark_one op start stop j b;
      Some (if more : bool then CFlag op first n p slot start stop bp (j + 1)
            else next_block op first n p slot stop (size h), set_blocks (<[bp:=b]> (blocks s)) s, None)
  end.

(** ** The system *)

(** A producer and its consumers.  [enqueued] are the elements published so
    far; [taken] the elements moved out, with the consumer and the index;
    [claimed] counts what was added to [dequeueOptimisticCount]. *)
Record System := MkSystem {
  state : S;
  producer : PPc;
  consumers : list CPc;
  enqueued : list A;
  taken : list (nat * Z * A);
  claimed : Z
}.

(** Fresh memory for a block index, and a block that no other queue uses: all
    its elements were destroyed. *)
Definition choice_ok (c : Choice) s : Prop :=
  (forall p, malloc c = Some p -> p <> 0 /\ headers s !! p = None) /\
  (forall p b, requisition_block c = Some (p, b) -> p <> 0 /\ blocks s !! p = None /\
     elements b = replicate (Z.to_nat BLOCK_SIZE) None /\ length (emptyFlags b) = Z.to_nat BLOCK_SIZE).

Definition is_idle (pc : PPc) : bool := match pc with PIdle _ => true | _ => false end.

Definition claims_of (pc : CPc) : Z := match pc with CClaim _ _ desired => desired | _ => 0 end.

(** The maximum of a bulk is positive, and has 64 bits. *)
Definition op_ok (op : DequeueOp) : bool := match op with Single => true | Bulk max => (0 <? max) && (max <? 2 ^ 64) end.

Inductive step : System -> System -> Prop :=
| step_enqueue y mode x :
    is_idle (producer y) = true ->
    step y (MkSystem (state y) (PStart mode x) (consumers y) (enqueued y) (taken y) (claimed y))
| step_dequeue y t op :
    consumers y !! t = Some CIdle -> op_ok op = true ->
    step y (MkSystem (state y) (producer y) (<[t:=CTail op]> (consumers y)) (enqueued y) (taken y) (claimed y))
| step_producer y c pc s :
    choice_ok c (state y) -> producer_step c (producer y) (state y) = Some (pc, s) ->
    step y (MkSystem s pc (consumers y)
              (match producer y with PTail x _ => enqueued y ++ [x] | _ => enqueued y end) (taken y) (claimed y))
| step_consumer y t pc pc' s out :
    consumers y !! t = Some pc -> consumer_step pc (state y) = Some (pc', s, out) ->
    step y (MkSystem s (producer y) (<[t:=pc']> (consumers y)) (enqueued y)
              (taken y ++ match out with Some (i, v) => [(t, i, v)] | None => [] end) (claimed y + claims_of pc)).

(** A producer that was just constructed, and any number of idle consumers. *)
Definition initial (y : System) : Prop :=
  exists poolSize m s, 0 <= poolSize <= 2 ^ 62 /\ m <> Some 0 /\ ExplicitProducer_ctor poolSize m = Some s /\
    exists n r, y = MkSystem s (PIdle r) (replicate n CIdle) [] [] 0.
End Producer.
