(* ===== verification/ExplicitProducerSpec.v ===== *)
(** * The queue of an explicit producer is a queue

    Proofs about ExplicitProducer.v: the claims of the consumers on the counters,
    the elements each of them holds, and the blocks and block indices of the
    producer, in every interleaving. *)

From Stdlib Require Import Sorted.
From S2P Require Import Prelude Posix MoodyDetails MoodyBlock ExplicitProducer.

(** ** Lists of integers *)

Lemma seqZ_split m a b : 0 <= a -> 0 <= b -> seqZ m (a + b) = seqZ m a ++ seqZ (m + a) b.
Proof. intros. by rewrite seqZ_app. Qed.

Lemma seqZ_submseteq m a b : 0 <= a <= b -> seqZ m a ⊆+ seqZ m b.
Proof. intros Hab. replace b with (a + (b - a)) by lia. rewrite seqZ_split by lia. by apply submseteq_inserts_r. Qed.

Lemma NoDup_bounded (l : list Z) n : NoDup l -> (forall x, x ∈ l -> 0 <= x < n) -> 0 <= n -> zlen l <= n.
Proof.
  intros Hl Hb Hn. unfold zlen. assert (Hs : l ⊆+ seqZ 0 n).
  { apply NoDup_submseteq; [done|]. intros x Hx. apply elem_of_seqZ. specialize (Hb x Hx). lia. }
  apply submseteq_length in Hs. rewrite length_seqZ in Hs. lia.
Qed.

Lemma list_max_elem (l : list Z) : l <> [] -> exists g, g ∈ l /\ forall x, x ∈ l -> x <= g.
Proof.
  induction l as [|y l IH]; [done|intros _]. destruct l as [|z l].
  - exists y. split; [set_solver|]. intros x Hx. apply list_elem_of_singleton in Hx. lia.
  - destruct IH as (g & Hg & Hm); [done|]. exists (Z.max g y). split.
    + destruct (Z.max_spec g y) as [[_ ->]|[_ ->]]; set_solver.
    + intros x Hx. apply elem_of_cons in Hx as [->|Hx]; [lia|]. specialize (Hm x Hx). lia.
Qed.

(** ** The claims

    Each unit added to [dequeueOptimisticCount] is a claim, with a number.  A
    consumer that reads the tail again learns whether its claims are granted
    or rejected; the rejected ones are added to [dequeueOvercommit]. *)

Section Claims.
Implicit Types (granted rejected : list Z) (pc : CPc) (cs : list CPc).

Definition claimed_at pc : list Z := match pc with CRecheck _ _ desired mine => seqZ mine desired | _ => [] end.
Definition pending pc : nat := match pc with CGiveBack _ _ n | CTake _ n => Z.to_nat n | _ => 0 end.
Definition excess_of pc : nat := match pc with CGiveBack _ excess _ => Z.to_nat excess | _ => 0 end.

Definition rej_below (g : Z) rejected : Z := zlen (filter (fun r => r < g) rejected).

Definition over_ok rejected pc : Prop :=
  match pc with
  | COptimistic _ _ over => 0 <= over <= zlen rejected
  | CClaim op over desired => 0 <= over <= zlen rejected /\ 0 < desired /\ (op = Single -> desired = 1)
  | CRecheck op over desired mine =>
      0 <= over <= rej_below mine rejected /\ 0 < desired /\ 0 <= mine /\ (op = Single -> desired = 1)
  | CGiveBack op excess n => 0 < excess /\ 0 <= n /\ (op = Single -> n = 0)
  | CTake op n => 0 < n /\ (op = Single -> n = 1)
  | _ => True
  end.

Record counts_ok (T H O V : Z) cs granted rejected : Prop := {
  co_claims : granted ++ rejected ++ held claimed_at cs ≡ₚ seqZ 0 O;
  co_granted : zlen granted = H + Z.of_nat (sum_list_with pending cs);
  co_rejected : zlen rejected = V + Z.of_nat (sum_list_with excess_of cs);
  co_bound : forall g, g ∈ granted -> g + 1 - rej_below g rejected <= T;
  co_over : forall t pc, cs !! t = Some pc -> over_ok rejected pc;
  co_nonneg : 0 <= H /\ 0 <= V /\ 0 <= O /\ 0 <= T
}.

Lemma rej_below_app g r r' : rej_below g (r ++ r') = rej_below g r + rej_below g r'.
Proof. unfold rej_below. by rewrite filter_app, zlen_app. Qed.

Lemma rej_below_nonneg g r : 0 <= rej_below g r.
Proof. apply zlen_nonneg. Qed.

Lemma rej_below_mono g g' r : g <= g' -> rej_below g r <= rej_below g' r.
Proof.
  intros Hg. unfold rej_below, zlen. apply inj_le, submseteq_length. induction r as [|x r IH]; [done|].
  rewrite !filter_cons. repeat case_decide; [by constructor|lia|by constructor|done].
Qed.

Lemma rej_below_all O r : (forall x, x ∈ r -> x < O) -> rej_below O r = zlen r.
Proof.
  intros Hr. unfold rej_below. f_equal. induction r as [|x r IH]; [done|]. rewrite filter_cons.
  rewrite decide_True by (apply Hr; set_solver). f_equal. apply IH. intros y Hy. apply Hr. set_solver.
Qed.

Lemma over_ok_app r r' pc : over_ok r pc -> over_ok (r ++ r') pc.
Proof.
  destruct pc; simpl; try done; rewrite ?zlen_app, ?rej_below_app;
    pose proof (zlen_nonneg r') as Hz; try pose proof (rej_below_nonneg mine r'); naive_solver lia.
Qed.

(** All that was granted fits below the tail. *)
Lemma granted_bound T H O V cs granted rejected : counts_ok T H O V cs granted rejected -> zlen granted <= T.
Proof.
  intros [Hc _ _ Hb _ (_ & _ & HO & HT)]. destruct (decide (granted = [])) as [->|Hne]; [done|].
  destruct (list_max_elem _ Hne) as (g & Hg & Hm). specialize (Hb g Hg).
  set (below := filter (fun r => r < g) rejected) in *.
  assert (Hd : NoDup (granted ++ rejected ++ held claimed_at cs)) by (rewrite Hc; apply NoDup_seqZ).
  rewrite app_assoc in Hd. apply NoDup_app in Hd as (Hd & _ & _). apply NoDup_app in Hd as (Hgr & Hdis & Hrj).
  assert (Hin : forall x, x ∈ granted ++ rejected ++ held claimed_at cs -> 0 <= x < O).
  { intros x Hx. rewrite Hc in Hx. apply elem_of_seqZ in Hx. lia. }
  assert (Hl : zlen (granted ++ below) <= g + 1).
  { apply NoDup_bounded.
    - apply NoDup_app. split; [done|]. split; [|by apply NoDup_filter].
      intros x Hx Hx'. apply list_elem_of_filter in Hx' as [_ Hx']. exact (Hdis x Hx Hx').
    - intros x Hx. apply elem_of_app in Hx as [Hx|Hx].
      + specialize (Hm x Hx). specialize (Hin x ltac:(set_solver)). lia.
      + apply list_elem_of_filter in Hx as [Hlt Hx]. specialize (Hin x ltac:(set_solver)). lia.
    - specialize (Hin g ltac:(set_solver)). lia. }
  rewrite zlen_app in Hl. unfold rej_below in Hb. fold below in Hb. lia.
Qed.

Lemma head_bound T H O V cs granted rejected : counts_ok T H O V cs granted rejected -> 0 <= H <= T.
Proof. intros Hc. pose proof (granted_bound _ _ _ _ _ _ _ Hc). destruct Hc as [_ Hg _ _ _ ?]. lia. Qed.

(** What an update of one consumer does to the sums. *)
Lemma held_update {X} (f : CPc -> list X) cs t pc pc' :
  cs !! t = Some pc -> exists rest, held f cs ≡ₚ f pc ++ rest /\ held f (<[t:=pc']> cs) ≡ₚ f pc' ++ rest.
Proof.
  intros Ht. destruct (list_elem_of_split_length _ _ _ Ht) as (l1 & l2 & -> & ->). exists (held f l1 ++ held f l2).
  rewrite insert_app_r_alt, Nat.sub_diag by done. unfold held. simpl. rewrite !flat_map_app. simpl.
  split; by rewrite Permutation_app_swap_app.
Qed.

Lemma counts_move T H O V cs t pc pc' granted rejected :
  counts_ok T H O V cs granted rejected -> cs !! t = Some pc ->
  claimed_at pc' = claimed_at pc -> pending pc' = pending pc -> excess_of pc' = excess_of pc -> over_ok rejected pc' ->
  counts_ok T H O V (<[t:=pc']> cs) granted rejected.
Proof.
  intros [Hc Hg Hr Hb Ho Hn] Ht Ec Ep Ee Hpc. split; [|..|done]; [| | |done|].
  - destruct (held_update claimed_at cs t pc pc' Ht) as (rest & E & E'). rewrite E', Ec, <- E. done.
  - pose proof (sum_list_with_insert pending cs t pc pc' Ht). lia.
  - pose proof (sum_list_with_insert excess_of cs t pc pc' Ht). lia.
  - intros t' pc0 Ht'. apply list_lookup_insert_Some in Ht' as [(-> & -> & _)|[_ Ht']]; [done|by eapply Ho].
Qed.

Lemma counts_publish T T' H O V cs granted rejected :
  T <= T' -> counts_ok T H O V cs granted rejected -> counts_ok T' H O V cs granted rejected.
Proof. intros HT [Hc Hg Hr Hb Ho Hn]. split; [done..| |done|lia]. intros g Hgg. specialize (Hb g Hgg). lia. Qed.

Lemma counts_claim T H O V cs t op over desired granted rejected :
  counts_ok T H O V cs granted rejected -> cs !! t = Some (CClaim op over desired) ->
  counts_ok T H (O + desired) V (<[t:=CRecheck op over desired O]> cs) granted rejected.
Proof.
  intros [Hc Hg Hr Hb Ho Hn] Ht. pose proof (Ho _ _ Ht) as (Hov & Hd & Hop). split; [| | |done| |lia].
  - destruct (held_update claimed_at cs t _ (CRecheck op over desired O) Ht) as (rest & E & E').
    rewrite E'. simpl in E |- *. rewrite seqZ_split by lia. rewrite <- Hc, E. simpl. rewrite Z.add_0_l.
    rewrite <- !app_assoc. do 2 f_equiv. apply Permutation_app_comm.
  - pose proof (sum_list_with_insert pending cs t _ (CRecheck op over desired O) Ht). simpl in *. lia.
  - pose proof (sum_list_with_insert excess_of cs t _ (CRecheck op over desired O) Ht). simpl in *. lia.
  - intros t' pc0 Ht'. apply list_lookup_insert_Some in Ht' as [(-> & <- & _)|[_ Ht']]; [|by eapply Ho].
    simpl. rewrite rej_below_all; [naive_solver lia|]. intros x Hx.
    assert (Hx' : x ∈ seqZ 0 O) by (rewrite <- Hc; set_solver). apply elem_of_seqZ in Hx'. lia.
Qed.

(** The decision: [actual] of the claims are granted. *)
Lemma counts_decide T H O V cs t op over desired mine actual pc granted rejected :
  counts_ok T H O V cs granted rejected -> cs !! t = Some (CRecheck op over desired mine) ->
  0 <= actual <= desired -> (0 < actual -> actual <= T - (mine - over)) ->
  pc = (if actual <? desired then CGiveBack op (desired - actual) actual else CTake op actual) ->
  exists granted' rejected', counts_ok T H O V (<[t:=pc]> cs) granted' rejected' /\
    (forall pc0, over_ok rejected pc0 -> over_ok rejected' pc0).
Proof.
  intros [Hc Hg Hr Hb Ho Hn] Ht Ha HaT Epc. pose proof (Ho _ _ Ht) as (Hov & Hd & Hm & Hop).
  exists (granted ++ seqZ mine actual), (rejected ++ seqZ (mine + actual) (desired - actual)).
  assert (Hpc : claimed_at pc = [] /\ pending pc = Z.to_nat actual /\ excess_of pc = Z.to_nat (desired - actual)).
  { subst pc. destruct (Z.ltb_spec actual desired); simpl; split_and!; try done. lia. }
  destruct Hpc as (Ec & Ep & Ee). split; [|intros; by apply over_ok_app]. split; [| | | | |done].
  - destruct (held_update claimed_at cs t _ pc Ht) as (rest & E & E'). rewrite E', Ec. rewrite E in Hc. simpl in Hc |- *.
    rewrite <- Hc. replace (seqZ mine desired) with (seqZ mine actual ++ seqZ (mine + actual) (desired - actual)).
    2: { rewrite <- seqZ_split by lia. f_equal. lia. }
    rewrite <- !app_assoc. f_equiv. rewrite (Permutation_app_swap_app (seqZ mine actual)). done.
  - pose proof (sum_list_with_insert pending cs t _ pc Ht). simpl in *. rewrite zlen_app. unfold zlen at 2.
    rewrite length_seqZ. lia.
  - pose proof (sum_list_with_insert excess_of cs t _ pc Ht). simpl in *. rewrite zlen_app. unfold zlen at 2.
    rewrite length_seqZ. lia.
  - intros g Hgg. rewrite rej_below_app. pose proof (rej_below_nonneg g (seqZ (mine + actual) (desired - actual))).
    apply elem_of_app in Hgg as [Hgg|Hgg]; [specialize (Hb g Hgg); lia|]. apply elem_of_seqZ in Hgg.
    pose proof (rej_below_mono mine g rejected ltac:(lia)). specialize (HaT ltac:(lia)). lia.
  - intros t' pc0 Ht'. apply list_lookup_insert_Some in Ht' as [(-> & <- & _)|[_ Ht']]; [|by apply over_ok_app; eapply Ho].
    subst pc. destruct (Z.ltb_spec actual desired); simpl; naive_solver lia.
Qed.

Lemma counts_give_back T H O V cs t op excess n pc granted rejected :
  counts_ok T H O V cs granted rejected -> cs !! t = Some (CGiveBack op excess n) ->
  pc = (if n =? 0 then CIdle else CTake op n) ->
  counts_ok T H O (V + excess) (<[t:=pc]> cs) granted rejected.
Proof.
  intros [Hc Hg Hr Hb Ho Hn] Ht Epc. pose proof (Ho _ _ Ht) as (He & Hn0 & Hop).
  assert (Hpc : claimed_at pc = [] /\ pending pc = Z.to_nat n /\ excess_of pc = 0%nat).
  { subst pc. destruct (Z.eqb_spec n 0) as [->|]; simpl; by split_and!. }
  destruct Hpc as (Ec & Ep & Ee). split; [| | |done| |lia].
  - destruct (held_update claimed_at cs t _ pc Ht) as (rest & E & E'). rewrite E', Ec. by rewrite E in Hc.
  - pose proof (sum_list_with_insert pending cs t _ pc Ht). simpl in *. lia.
  - pose proof (sum_list_with_insert excess_of cs t _ pc Ht). simpl in *. lia.
  - intros t' pc0 Ht'. apply list_lookup_insert_Some in Ht' as [(-> & <- & _)|[_ Ht']]; [|by eapply Ho].
    subst pc. destruct (Z.eqb_spec n 0); simpl; [done|]. split; [lia|]. intros Hs. specialize (Hop Hs). lia.
Qed.

Lemma counts_take T H O V cs t op n first granted rejected :
  counts_ok T H O V cs granted rejected -> cs !! t = Some (CTake op n) ->
  counts_ok T (H + n) O V (<[t:=CIndex op first n]> cs) granted rejected.
Proof.
  intros [Hc Hg Hr Hb Ho Hn] Ht. pose proof (Ho _ _ Ht) as (Hn0 & Hop). split; [| | |done| |lia].
  - destruct (held_update claimed_at cs t _ (CIndex op first n) Ht) as (rest & E & E'). rewrite E'. by rewrite E in Hc.
  - pose proof (sum_list_with_insert pending cs t _ (CIndex op first n) Ht). simpl in *. lia.
  - pose proof (sum_list_with_insert excess_of cs t _ (CIndex op first n) Ht). simpl in *. lia.
  - intros t' pc0 Ht'. apply list_lookup_insert_Some in Ht' as [(-> & <- & _)|[_ Ht']]; [done|by eapply Ho].
Qed.
End Claims.

(** ** The elements

    An index is held by the consumer that took it until its flag is set; it is
    then finished. *)

Section Elements.
Context {A : Type}.
Implicit Types (pc : CPc) (cs : list CPc) (fin : list Z) (taken : list (nat * Z * A)) (log : list A).

(** The indices that a consumer holds; of these, those it has moved out, and
    those it has destroyed. *)
Definition holds pc : list Z :=
  match pc with
  | CIndex _ first n | CFront _ first n _ | CBase _ first n _ _ => seqZ first n
  | CBlock _ first n _ _ start | CMove _ first n _ _ start _ _ _ | CDestroy _ first n _ _ start _ _ _ =>
      seqZ start (first + n - start)
  | CFlag _ first n _ _ start stop _ j => seqZ start (stop - start - j) ++ seqZ stop (first + n - stop)
  | _ => []
  end.
Definition moved pc : list Z :=
  match pc with
  | CMove _ _ _ _ _ start index _ _ => seqZ start (index - start)
  | CDestroy _ _ _ _ _ start index _ _ => seqZ start (index + 1 - start)
  | CFlag _ _ _ _ _ start stop _ j => seqZ start (stop - start - j)
  | _ => []
  end.
Definition destroyed pc : list Z :=
  match pc with
  | CMove _ _ _ _ _ start index _ _ | CDestroy _ _ _ _ _ start index _ _ => seqZ start (index - start)
  | CFlag _ _ _ _ _ start stop _ j => seqZ start (stop - start - j)
  | _ => []
  end.

(** What a consumer moves out from now on has at least this index, when [H] is
    the next index to be taken. *)
Definition frontier (H : Z) pc : Z :=
  match pc with
  | CIndex _ first _ | CFront _ first _ _ | CBase _ first _ _ _ => first
  | CBlock _ _ _ _ _ start => start
  | CMove _ _ _ _ _ _ index _ _ => index
  | CDestroy _ _ _ _ _ _ index _ _ => index + 1
  | CFlag _ _ _ _ _ _ stop _ _ => stop
  | _ => H
  end.

Definition index_of (x : nat * Z * A) : Z := x.1.2.

(** The indices of the elements that consumer [t] moved out, in order. *)
Definition taken_by (t : nat) taken : list Z := index_of <$> filter (fun x => x.1.1 = t) taken.

Record elements_ok (H : Z) log cs fin taken : Prop := {
  eo_held : fin ++ held holds cs ≡ₚ seqZ 0 H;
  eo_taken : index_of <$> taken ≡ₚ fin ++ held moved cs;
  eo_log : forall t i v, (t, i, v) ∈ taken -> 0 <= i /\ log !! Z.to_nat i = Some v;
  eo_sorted : forall t, StronglySorted Z.lt (taken_by t taken);
  eo_frontier : forall t i, i ∈ taken_by t taken -> exists pc, cs !! t = Some pc /\ i < frontier H pc
}.

Definition gone fin cs : list Z := fin ++ held destroyed cs.

Lemma held_elem {X} (f : CPc -> list X) cs t pc x : cs !! t = Some pc -> x ∈ f pc -> x ∈ held f cs.
Proof. intros Ht Hx. destruct (held_update f cs t pc pc Ht) as (rest & E & _). rewrite E. set_solver. Qed.

Lemma held_bound H log cs fin taken t pc i : elements_ok H log cs fin taken -> cs !! t = Some pc -> i ∈ holds pc ->
  0 <= i < H /\ i ∉ fin.
Proof.
  intros [He _ _ _ _] Ht Hi. assert (Hh := held_elem holds cs t pc i Ht Hi). split.
  - assert (Hin : i ∈ seqZ 0 H) by (rewrite <- He; set_solver). apply elem_of_seqZ in Hin. lia.
  - assert (Hd : NoDup (fin ++ held holds cs)) by (rewrite He; apply NoDup_seqZ).
    apply NoDup_app in Hd as (_ & Hd & _). intros Hf. exact (Hd i Hf Hh).
Qed.

Lemma fin_bound H log cs fin taken i : elements_ok H log cs fin taken -> i ∈ fin -> 0 <= i < H.
Proof.
  intros [He _ _ _ _] Hi. assert (Hin : i ∈ seqZ 0 H) by (rewrite <- He; set_solver). apply elem_of_seqZ in Hin. lia.
Qed.

Lemma elements_log H log log' cs fin taken : log `prefix_of` log' -> elements_ok H log cs fin taken -> elements_ok H log' cs fin taken.
Proof.
  intros Hp [He Ht Hl Hs Hf]. split; [done..| |done|done]. intros t i v Hin. destruct (Hl t i v Hin) as [Hi E].
  split; [done|]. by eapply prefix_lookup_Some.
Qed.

(** A step of consumer [t] that moves nothing out: the indices it holds may be
    regrouped, and some of them finished. *)
Lemma elements_move H H' log cs fin fin' taken t pc pc' :
  elements_ok H log cs fin taken -> cs !! t = Some pc -> H <= H' ->
  fin' ++ holds pc' ≡ₚ fin ++ holds pc ++ seqZ H (H' - H) -> fin' ++ moved pc' ≡ₚ fin ++ moved pc -> 0 <= H ->
  frontier H pc <= frontier H' pc' ->
  elements_ok H' log (<[t:=pc']> cs) fin' taken.
Proof.
  intros [He Hm Hl Hs Hf] Ht HH Eh Em H0 Hfr. split; [| |done|done|].
  - destruct (held_update holds cs t pc pc' Ht) as (rest & E & E'). rewrite E', app_assoc, Eh. rewrite E in He.
    replace H' with (H + (H' - H)) at 2 by lia. rewrite seqZ_split by lia. rewrite <- He, Z.add_0_l, <- !app_assoc.
    do 2 f_equiv. apply Permutation_app_comm.
  - destruct (held_update moved cs t pc pc' Ht) as (rest & E & E'). rewrite E', app_assoc, Em, Hm, E. by rewrite <- app_assoc.
  - intros t0 i Hi. destruct (Hf t0 i Hi) as (pc0 & Ht0 & Hlt). destruct (decide (t0 = t)) as [->|Hne].
    + simplify_eq. exists pc'. split; [|lia]. apply list_lookup_insert_eq. by eapply lookup_lt_Some.
    + exists pc0. rewrite list_lookup_insert_ne by done. split; [done|]. destruct pc0; simpl in *; lia.
Qed.

Lemma taken_by_snoc t t' i v taken :
  taken_by t (taken ++ [(t', i, v)]) = taken_by t taken ++ (if decide (t' = t) then [i] else []).
Proof.
  unfold taken_by. rewrite filter_app, fmap_app. f_equal. rewrite filter_cons, filter_nil. simpl. by case_decide.
Qed.

Lemma sorted_snoc (l : list Z) x : StronglySorted Z.lt l -> (forall y, y ∈ l -> y < x) -> StronglySorted Z.lt (l ++ [x]).
Proof.
  induction 1 as [|y l Hl IH Hy]; intros Hx; simpl; [repeat constructor|]. constructor.
  - apply IH. intros z Hz. apply Hx. set_solver.
  - apply Forall_app. split; [done|]. constructor; [|constructor]. apply Hx. set_solver.
Qed.

(** Moving out the element at [index]. *)
Lemma elements_take H log cs fin taken t op first n h slot start index stop b v :
  elements_ok H log cs fin taken -> cs !! t = Some (CMove op first n h slot start index stop b) ->
  start <= index -> 0 <= index -> log !! Z.to_nat index = Some v ->
  elements_ok H log (<[t:=CDestroy op first n h slot start index stop b]> cs) fin (taken ++ [(t, index, v)]).
Proof.
  intros [He Hm Hl Hs Hf] Ht Hsi Hi Hv. set (pc' := CDestroy op first n h slot start index stop b).
  assert (Hlt : (t < length cs)%nat) by (by eapply lookup_lt_Some). split.
  - destruct (held_update holds cs t _ pc' Ht) as (rest & E & E'). rewrite E'. by rewrite E in He.
  - destruct (held_update moved cs t _ pc' Ht) as (rest & E & E'). rewrite E', fmap_app, Hm, E. simpl.
    replace (index + 1 - start) with (index - start + 1) by lia. rewrite seqZ_split by lia.
    replace (start + (index - start)) with index by lia. rewrite <- !app_assoc. do 2 f_equiv. apply Permutation_app_comm.
  - intros t0 i0 v0 Hin. apply elem_of_app in Hin as [Hin|Hin]; [by eapply Hl|]. apply list_elem_of_singleton in Hin. by simplify_eq.
  - intros t0. rewrite taken_by_snoc. case_decide as E; [|rewrite app_nil_r; apply Hs]. subst t0. apply sorted_snoc; [apply Hs|].
    intros y Hy. destruct (Hf t y Hy) as (pc0 & Ht0 & Hyl). rewrite Ht in Ht0. by injection Ht0 as <-.
  - intros t0 i0 Hin. rewrite taken_by_snoc in Hin. apply elem_of_app in Hin as [Hin|Hin].
    + destruct (Hf t0 i0 Hin) as (pc0 & Ht0 & Hlt0). destruct (decide (t0 = t)) as [->|Hne].
      * rewrite Ht in Ht0. injection Ht0 as <-. exists pc'. rewrite list_lookup_insert_eq by done. simpl in *. split; [done|lia].
      * exists pc0. by rewrite list_lookup_insert_ne.
    + case_decide; [|set_solver]. subst t0. apply list_elem_of_singleton in Hin as ->. exists pc'.
      rewrite list_lookup_insert_eq by done. simpl. split; [done|lia].
Qed.

End Elements.

(** ** The blocks and the block indices

    [bs] are the blocks in the order in which they were started, block [k] for
    the elements from [k * BLOCK_SIZE] on; those from [lo] on are in the ring,
    the others were reused.  [G] says, for each block index ever made, how
    large it is and which slot belongs to block [k], how many blocks have an
    entry, and up to which block it is published. *)

Record Info := MkInfo { hshift : Z; hsize : Z; hhi : nat; hpub : nat }.

Section Memory.
Context {traits : Traits} `{!TraitsLaws} {A : Type}.
Abbreviation S := (ExplicitProducer A).
Implicit Types (bs : list Z) (lo k : nat) (G : gmap Z Info) (fin gone : list Z) (log : list A) (s : S).

Definition first_of k : Z := Z.of_nat k * BLOCK_SIZE.
Definition block_of (i : Z) : nat := Z.to_nat (i / BLOCK_SIZE).
Definition slot_in (g : Info) k : Z := (Z.of_nat k - hshift g) mod hsize g.

Record header_ok bs lo (g : Info) (h : BlockIndexHeader) : Prop := {
  ho_size : size h = hsize g /\ exists j, 0 <= j <= 62 /\ hsize g = 2 ^ j;
  ho_length : zlen (entries h) = hsize g;
  ho_order : (hpub g <= hhi g <= length bs)%nat;
  ho_room : Z.of_nat (hhi g) - Z.of_nat lo <= hsize g;
  ho_front : (lo < hpub g)%nat -> front h = slot_in g (hpub g - 1);
  ho_entries : forall k p, (lo <= k < hhi g)%nat -> bs !! k = Some p ->
    entries h !! Z.to_nat (slot_in g k) = Some (MkEntry (first_of k) p)
}.

(** What the memory of element [i] holds. *)
Definition cell gone log (i : Z) : option A := if decide (i ∈ gone) then None else log !! Z.to_nat i.

Record block_ok bs lo fin gone log (reset : bool) k (b : Block A) : Prop := {
  bo_cells : length (elements b) = Z.to_nat BLOCK_SIZE;
  bo_cell : forall o, 0 <= o < BLOCK_SIZE -> elements b !! Z.to_nat o = Some (cell gone log (first_of k + o));
  bo_flags : length (emptyFlags b) = Z.to_nat BLOCK_SIZE;
  bo_flag : reset = false -> forall o, 0 <= o < BLOCK_SIZE -> flag (BLOCK_SIZE - 1 - o) b = bool_decide (first_of k + o ∈ fin);
  bo_next : bs !! (if decide (k + 1 = length bs)%nat then lo else (k + 1)%nat) = Some (next b)
}.

(** How many of the blocks have no entry in the block index, and are not
    published. *)
Definition entry_lag (pc : PPc (A := A)) : nat :=
  match pc with PReset _ _ _ _ false | PBase _ _ | PEntry _ _ => 1 | _ => 0 end.
Definition front_lag (pc : PPc (A := A)) : nat :=
  match pc with PReset _ _ _ _ false | PBase _ _ | PEntry _ _ | PFront _ _ => 1 | _ => 0 end.
Definition resetting (pc : PPc (A := A)) : bool := match pc with PReset _ _ _ _ false => true | _ => false end.

(** A block that is not in the ring yet, [i] of whose flags are reset. *)
Definition new_block bs lo (p i : Z) s : Prop :=
  p <> 0 /\ p ∉ drop lo bs /\ exists b, blocks s !! p = Some b /\ elements b = replicate (Z.to_nat BLOCK_SIZE) None /\
    length (emptyFlags b) = Z.to_nat BLOCK_SIZE /\ forall q, 0 <= q < i -> flag q b = false.

(** The tail index is at the end of the last block, or in it. *)
Definition at_end T bs (cur : Z) : Prop := cur = T /\ T = first_of (length bs).
Definition in_last T bs (cur : Z) : Prop := cur = T /\ first_of (length bs) - BLOCK_SIZE <= T < first_of (length bs).

Definition phase_ok T bs lo fin (pc : PPc (A := A)) s : Prop :=
  match pc with
  | PIdle _ | PStart _ _ => T <= first_of (length bs) < T + BLOCK_SIZE
  | PCheck _ _ cur i => at_end T bs cur /\ bs <> [] /\ 0 <= i < BLOCK_SIZE /\
      forall q, 0 <= q < i -> first_of lo + (BLOCK_SIZE - 1 - q) ∈ fin
  | PHead _ _ cur => at_end T bs cur
  | PIndex _ _ cur => at_end T bs cur /\ (blockIndex s = 0 \/ pr_blockIndexSlotsUsed s = pr_blockIndexSize s)
  | PBlock _ cur => at_end T bs cur /\ blockIndex s <> 0 /\ pr_blockIndexSlotsUsed s < pr_blockIndexSize s
  | PReset _ cur p i true => at_end T bs cur /\ blockIndex s <> 0 /\ pr_blockIndexSlotsUsed s < pr_blockIndexSize s /\
      0 <= i < BLOCK_SIZE /\ new_block bs lo p i s
  | PLink _ cur p => at_end T bs cur /\ blockIndex s <> 0 /\ pr_blockIndexSlotsUsed s < pr_blockIndexSize s /\ new_block bs lo p BLOCK_SIZE s
  | PReset _ cur p i false => in_last T bs cur /\ T = first_of (length bs) - BLOCK_SIZE /\ 0 <= i < BLOCK_SIZE /\
      last bs = Some p /\ forall b, blocks s !! p = Some b -> forall q, 0 <= q < i -> flag q b = false
  | PBase _ cur | PFront _ cur => in_last T bs cur /\ T = first_of (length bs) - BLOCK_SIZE
  | PEntry _ cur => in_last T bs cur /\ T = first_of (length bs) - BLOCK_SIZE /\
      exists h e, headers s !! blockIndex s = Some h /\ entries h !! Z.to_nat (pr_blockIndexFront s) = Some e /\ base e = cur
  | PConstruct _ cur | PTail _ cur => in_last T bs cur
  end.

(** The current block index; there may be none before the first block. *)
Definition index_ok bs G (pc : PPc (A := A)) s : Prop :=
  pr_blockIndexRaw s = blockIndex s /\ pr_blockIndexEntries s = blockIndex s /\
  (exists j, 0 <= j <= 62 /\ pr_blockIndexSize s = 2 ^ j /\ (blockIndex s = 0 -> j <= 61)) /\
  pr_blockIndexSlotsUsed s <= pr_blockIndexSize s /\
  (if decide (blockIndex s = 0) then bs = []
   else exists g, G !! blockIndex s = Some g /\ hsize g = pr_blockIndexSize s /\
     hhi g = (length bs - entry_lag pc)%nat /\ hpub g = (length bs - front_lag pc)%nat /\
     pr_blockIndexFront s = slot_in g (hpub g)).

Record memory_ok T bs lo G fin gone log (pc : PPc (A := A)) s : Prop := {
  mo_lo : Z.of_nat (length bs) = Z.of_nat lo + pr_blockIndexSlotsUsed s /\ (bs = [] /\ lo = 0%nat \/ 0 < pr_blockIndexSlotsUsed s);
  mo_tail : tailBlock (producer_base s) = default 0 (last bs);
  mo_window : NoDup (drop lo bs) /\ 0 ∉ drop lo bs;
  mo_blocks : forall k p, (lo <= k)%nat -> bs !! k = Some p -> exists b, blocks s !! p = Some b /\
    block_ok bs lo fin gone log (resetting pc && bool_decide (k + 1 = length bs)%nat) k b;
  mo_old : forall i, 0 <= i < first_of lo -> i ∈ fin;
  mo_gone : (forall i, i ∈ fin -> i ∈ gone) /\ forall i, i ∈ gone -> 0 <= i < T;
  mo_log : 0 <= T /\ zlen log = T + match pc with PTail _ _ => 1 | _ => 0 end;
  mo_phase : phase_ok T bs lo fin pc s;
  mo_headers : forall p g, G !! p = Some g -> exists h, headers s !! p = Some h /\ header_ok bs lo g h;
  mo_index : index_ok bs G pc s
}.

(** *** Arithmetic *)

Lemma land_size x j : 0 <= j <= 62 -> Z.land (u64 x) (u64 (2 ^ j - 1)) = x mod 2 ^ j.
Proof.
  intros Hj. assert (Hp : 0 < 2 ^ j) by (apply Z.pow_pos_nonneg; lia). assert (Hp' : 2 ^ j <= 2 ^ 62) by (apply Z.pow_le_mono_r; lia).
  rewrite (u64_id (2 ^ j - 1)) by lia. replace (2 ^ j - 1) with (Z.ones j) by (rewrite Z.ones_equiv; lia).
  rewrite Z.land_ones by lia. unfold u64, wrap.
  rewrite <- (Znumtheory.Zmod_div_mod (2 ^ j) (2 ^ 64)); [done|lia..|].
  exists (2 ^ (64 - j)). rewrite <- Z.pow_add_r by lia. f_equal. lia.
Qed.

Lemma next_slot_size i j : 0 <= j <= 62 -> next_slot i (2 ^ j) = (i + 1) mod 2 ^ j.
Proof. apply land_size. Qed.

Lemma hsize_pos g : (exists j, 0 <= j <= 62 /\ hsize g = 2 ^ j) -> 0 < hsize g.
Proof. intros (j & Hj & ->). apply Z.pow_pos_nonneg; lia. Qed.

Lemma slot_bound g k : (exists j, 0 <= j <= 62 /\ hsize g = 2 ^ j) -> 0 <= slot_in g k < hsize g.
Proof. intros Hj. apply Z.mod_pos_bound. by apply hsize_pos. Qed.

Lemma next_slot_in g k : (exists j, 0 <= j <= 62 /\ hsize g = 2 ^ j) -> next_slot (slot_in g k) (hsize g) = slot_in g (k + 1).
Proof.
  intros (j & Hj & E). unfold slot_in. rewrite E, next_slot_size, Zplus_mod_idemp_l by lia. f_equal. lia.
Qed.

(** Blocks less than a round apart have different slots. *)
Lemma slot_ne g k k' : (k < k')%nat -> Z.of_nat k' - Z.of_nat k < hsize g -> slot_in g k <> slot_in g k'.
Proof.
  intros Hk Hd E. unfold slot_in in E. assert (Hp : 0 < hsize g) by lia.
  assert (Hz : (Z.of_nat k' - Z.of_nat k) mod hsize g = 0).
  { replace (Z.of_nat k' - Z.of_nat k) with ((Z.of_nat k' - hshift g) - (Z.of_nat k - hshift g)) by lia.
    rewrite Zminus_mod, <- E, Z.sub_diag. apply Zmod_0_l. }
  rewrite Z.mod_small in Hz by lia. lia.
Qed.

Lemma first_of_S k : first_of (k + 1) = first_of k + BLOCK_SIZE.
Proof. unfold first_of. lia. Qed.

Lemma first_of_pred k : (0 < k)%nat -> first_of k = first_of (k - 1) + BLOCK_SIZE.
Proof. intros Hk. rewrite <- first_of_S. f_equal. lia. Qed.

Lemma first_of_le k k' : (k <= k')%nat <-> first_of k <= first_of k'.
Proof. unfold first_of. pose proof block_size_bound. split; nia. Qed.

Lemma first_of_lt k k' : (k < k')%nat <-> first_of k < first_of k'.
Proof. unfold first_of. pose proof block_size_bound. split; nia. Qed.

Lemma first_of_nonneg k : 0 <= first_of k.
Proof. unfold first_of. pose proof block_size_bound. nia. Qed.

(** An index is in its block. *)
Lemma block_of_spec i : 0 <= i -> i = first_of (block_of i) + in_block i.
Proof.
  intros Hi. pose proof block_size_bound. unfold first_of, block_of. rewrite in_block_mod, Z2Nat.id by (apply Z.div_pos; lia).
  rewrite (Z.div_mod i BLOCK_SIZE) at 1 by lia. lia.
Qed.

Lemma block_of_unique i k : first_of k <= i < first_of k + BLOCK_SIZE -> block_of i = k /\ in_block i = i - first_of k.
Proof.
  intros Hi. pose proof (first_of_nonneg k). pose proof (block_of_spec i ltac:(lia)) as E. pose proof (in_block_bound i).
  assert (Hk : block_of i = k).
  { destruct (Nat.lt_total (block_of i) k) as [Hlt|[?|Hlt]]; [|done|];
      unfold first_of in *; nia. }
  rewrite Hk in E. split; [done|lia].
Qed.

Lemma in_block_end T k : T = first_of k -> in_block T = 0.
Proof. intros ->. pose proof block_size_bound. destruct (block_of_unique (first_of k) k) as [_ ->]; lia. Qed.

(** *** Lookups in the ring *)

Lemma drop_lookup_elem {X} (l : list X) lo k x : (lo <= k)%nat -> l !! k = Some x -> x ∈ drop lo l.
Proof. intros Hk E. apply list_elem_of_lookup. exists (k - lo)%nat. rewrite lookup_drop. by replace (lo + (k - lo))%nat with k by lia. Qed.

Lemma window_unique bs lo k k' p : NoDup (drop lo bs) -> (lo <= k)%nat -> (lo <= k')%nat ->
  bs !! k = Some p -> bs !! k' = Some p -> k = k'.
Proof.
  intros Hd Hk Hk' E E'. assert (Hkk : (k - lo)%nat = (k' - lo)%nat); [|lia]. eapply (NoDup_lookup (drop lo bs) _ _ p); [done|..];
    rewrite lookup_drop; [by replace (lo + (k - lo))%nat with k by lia|by replace (lo + (k' - lo))%nat with k' by lia].
Qed.

Lemma last_block bs p : last bs = Some p -> bs !! (length bs - 1)%nat = Some p.
Proof. rewrite last_lookup. by replace (Nat.pred (length bs)) with (length bs - 1)%nat by lia. Qed.

Section Producer.
Context (T : Z) (fin gone : list Z) (G : gmap Z Info).
Context (flags : has_flags explicit_context = true).
Abbreviation memory bs lo log pc s := (memory_ok T bs lo G fin gone log pc s).

(** The program moves on, and memory stays. *)
Lemma memory_pc bs lo log pc pc' s : memory bs lo log pc s ->
  entry_lag pc' = entry_lag pc -> front_lag pc' = front_lag pc -> resetting pc' = resetting pc ->
  (match pc' with PTail _ _ => 1 | _ => 0 end) = (match pc with PTail _ _ => 1 | _ => 0 end) ->
  phase_ok T bs lo fin pc' s -> memory bs lo log pc' s.
Proof.
  intros [H1 H2 H3 H4 H5 H6 H7 H8 H9 H10] Ee Ef Er El Hp. split; try done.
  - by rewrite Er.
  - by rewrite El.
  - unfold index_ok in *. by rewrite Ee, Ef.
Qed.

(** The last block, when there is one. *)
Lemma tail_block bs lo log pc s : memory bs lo log pc s -> bs <> [] ->
  exists p b, last bs = Some p /\ bs !! (length bs - 1)%nat = Some p /\ (lo <= length bs - 1)%nat /\
    tailBlock (producer_base s) = p /\ p <> 0 /\ blocks s !! p = Some b /\
    block_ok bs lo fin gone log (resetting pc) (length bs - 1) b.
Proof.
  intros Hm Hbs. destruct (last bs) as [p|] eqn:El; [|by apply last_None in El]. exists p.
  pose proof (last_block _ _ El) as Ek. assert (Hlen : (0 < length bs)%nat) by (destruct bs; [done|simpl; lia]).
  destruct (mo_lo _ _ _ _ _ _ _ _ _ Hm) as [E1 [[E2 _]|E2]]; [done|].
  assert (Hlo : (lo <= length bs - 1)%nat) by lia.
  destruct (mo_blocks _ _ _ _ _ _ _ _ _ Hm _ _ Hlo Ek) as (b & Hb & Hok). exists b.
  rewrite (mo_tail _ _ _ _ _ _ _ _ _ Hm), El. split_and!; try done.
  - intros Hp. destruct (mo_window _ _ _ _ _ _ _ _ _ Hm) as [_ Hn]. apply Hn. simpl in Hp. rewrite <- Hp. by eapply drop_lookup_elem.
  - rewrite bool_decide_true, andb_true_r in Hok by lia. done.
Qed.

(** The oldest block in the ring follows the last one. *)
Lemma head_block bs lo log pc s t : memory bs lo log pc s -> bs <> [] -> blocks s !! tailBlock (producer_base s) = Some t ->
  bs !! lo = Some (next t) /\ (lo < length bs)%nat.
Proof.
  intros Hm Hbs Ht. destruct (tail_block _ _ _ _ _ Hm Hbs) as (p & b & _ & _ & Hlo & Ep & _ & Hb & Hok). subst p.
  rewrite Ht in Hb. injection Hb as <-. pose proof (bo_next _ _ _ _ _ _ _ _ Hok) as Hn.
  assert (Hlen : (0 < length bs)%nat) by (destruct bs; [done|simpl; lia]).
  rewrite decide_True in Hn by lia. split; [done|lia].
Qed.

(** All the elements of a block are finished. *)
Lemma block_finished (k : nat) i : (forall q, 0 <= q < BLOCK_SIZE -> first_of k + (BLOCK_SIZE - 1 - q) ∈ fin) ->
  first_of k <= i < first_of (k + 1) -> i ∈ fin.
Proof.
  intros Hq Hi. rewrite first_of_S in Hi. assert (Hr : 0 <= BLOCK_SIZE - 1 - (i - first_of k) < BLOCK_SIZE) by lia. specialize (Hq _ Hr).
  by replace (first_of k + (BLOCK_SIZE - 1 - (BLOCK_SIZE - 1 - (i - first_of k)))) with i in Hq by lia.
Qed.

(** A header, when a block is added to the ring and perhaps one leaves it. *)
Lemma header_extend bs lo lo' g h p : (lo <= lo')%nat -> header_ok bs lo g h -> header_ok (bs ++ [p]) lo' g h.
Proof.
  intros Hlo [H1 H2 H3 H4 H5 H6]. split; try done.
  - rewrite length_app. lia.
  - lia.
  - intros Hlt. apply H5. lia.
  - intros k q Hk E. apply H6; [lia|]. rewrite lookup_app_l in E by lia. done.
Qed.

(** The block after the tail is empty: it becomes the last one. *)
Lemma memory_reuse bs lo log mode x cur s t :
  memory bs lo log (PCheck mode x cur (BLOCK_SIZE - 1)) s ->
  blocks s !! tailBlock (producer_base s) = Some t -> (first_of lo ∈ fin) ->
  memory (bs ++ [next t]) (lo + 1) log (PReset x cur (next t) 0 false) (on_base (set_tailBlock (next t)) s).
Proof.
  intros Hm Ht Hlast. destruct (mo_phase _ _ _ _ _ _ _ _ _ Hm) as ((-> & HT) & Hbs & _ & Hfin).
  destruct (head_block _ _ _ _ _ _ Hm Hbs Ht) as [Hhead Hlo]. pose proof block_size_bound as Hbound.
  assert (Hall : forall i, first_of lo <= i < first_of (lo + 1) -> i ∈ fin).
  { intros i. apply block_finished. intros q Hq. destruct (Z.eq_dec q (BLOCK_SIZE - 1)) as [->|]; [|apply Hfin; lia].
    by replace (first_of lo + (BLOCK_SIZE - 1 - (BLOCK_SIZE - 1))) with (first_of lo) by lia. }
  pose proof (drop_S _ _ _ Hhead) as Ed. destruct Hm as [[H1a H1b] H2 [H3a H3b] H4 H5 [H6a H6b] [H7a H7b] _ H9 H10].
  assert (Ew : drop (lo + 1) (bs ++ [next t]) = drop (lo + 1) bs ++ [next t]) by (apply drop_app_le; lia).
  rewrite Nat.add_1_r in *. split; try done; simpl.
  - rewrite length_app. simpl. split; [lia|]. right. destruct H1b as [[? _]|]; [done|lia].
  - by rewrite last_snoc.
  - rewrite Ew, Ed in *. split; [|set_solver]. rewrite Permutation_app_comm. done.
  - intros k p Hk E. destruct (Nat.lt_ge_cases k (length bs)) as [Hkl|Hkl].
    + rewrite lookup_app_l in E by done. destruct (H4 k p ltac:(lia) E) as (b & Hb & [B1 B2 B3 B4 B5]). exists b. split; [done|].
      rewrite length_app. simpl. rewrite bool_decide_false by lia. split; try done.
      * rewrite decide_False by (rewrite length_app; simpl; lia). destruct (decide (k + 1 = length bs)%nat) as [Ek|Ek].
        -- rewrite Ek, list_lookup_middle by done. by rewrite <- B5.
        -- by rewrite lookup_app_l by lia.
    + assert (k = length bs) as ->.
      { apply lookup_lt_Some in E as Hlt. rewrite length_app in Hlt. simpl in Hlt. lia. }
      rewrite list_lookup_middle in E by done. injection E as <-.
      destruct (H4 lo _ ltac:(lia) Hhead) as (b & Hb & [B1 B2 B3 B4 B5]). exists b. split; [done|].
      rewrite bool_decide_true by (rewrite length_app; simpl; lia). split; try done.
      * intros o Ho. rewrite B2 by done. f_equal. unfold cell.
        rewrite decide_True by (apply H6a, Hall; rewrite <- Nat.add_1_r, first_of_S; lia). symmetry.
        rewrite decide_False by (intros Hg; apply H6b in Hg; lia). apply lookup_ge_None_2. unfold zlen in H7b. lia.
      * rewrite decide_True by (rewrite length_app; simpl; lia). destruct (decide (lo + 1 = length bs)%nat) as [Ek|Ek].
        -- rewrite <- Nat.add_1_r, Ek, list_lookup_middle by done. by rewrite <- B5, Hhead.
        -- rewrite lookup_app_l by lia. by rewrite <- Nat.add_1_r.
  - intros i Hi. rewrite <- Nat.add_1_r, first_of_S in Hi. destruct (Z.lt_ge_cases i (first_of lo)); [apply H5; lia|].
    apply Hall. rewrite <- Nat.add_1_r, first_of_S. lia.
  - unfold in_last. rewrite length_app. simpl. rewrite first_of_S.
    split; [split; [done|lia]|]. split; [lia|]. split; [lia|]. split; [by rewrite last_snoc|intros; lia].
  - intros p g Hg. destruct (H9 p g Hg) as (h & Hh & Hok). exists h. split; [done|]. eapply header_extend; [|exact Hok]. lia.
  - unfold index_ok in *. simpl in *. destruct H10 as (I1 & I2 & I3 & I4 & I5). split_and!; try done.
    destruct (decide (blockIndex s = 0)); [done|]. destruct I5 as (g & I5 & I6 & I7 & I8 & I9). exists g.
    rewrite length_app. simpl. split_and!; try done; lia.
Qed.

(** *** A new block index *)

Fixpoint entries_from k bs : list BlockIndexEntry :=
  match bs with [] => [] | p :: bs => MkEntry (first_of k) p :: entries_from (k + 1) bs end.

Lemma entries_from_length k bs : length (entries_from k bs) = length bs.
Proof. revert k. induction bs; intros k; simpl; [done|]. by f_equal. Qed.

Lemma entries_from_lookup k bs j p : bs !! j = Some p -> entries_from k bs !! j = Some (MkEntry (first_of (k + j)) p).
Proof.
  revert k j. induction bs as [|q bs IH]; intros k [|j] E; simplify_eq/=; [by rewrite Nat.add_0_r|].
  rewrite (IH (k + 1)%nat j E). by replace (k + 1 + j)%nat with (k + Datatypes.S j)%nat by lia.
Qed.

(** The copy starts at block [k] and ends before the next slot to be filled. *)
Lemma copy_entries_spec bs lo g h fuel k :
  header_ok bs lo g h -> hhi g = length bs -> (lo <= k < length bs)%nat -> (length bs - k <= fuel)%nat ->
  copy_entries fuel (hsize g) (slot_in g (length bs)) (slot_in g k) (entries h) = Some (entries_from k (drop k bs)).
Proof.
  intros Hok Hhi. pose proof (ho_size _ _ _ _ Hok) as [_ Hj]. pose proof (ho_room _ _ _ _ Hok) as Hroom. rewrite Hhi in Hroom.
  revert k. induction fuel as [|fuel IH]; intros k Hk Hf; [lia|]. simpl.
  destruct (lookup_lt_is_Some_2 bs k) as [p Hp]; [lia|]. rewrite (ho_entries _ _ _ _ Hok k p) by (lia || done). simpl.
  rewrite next_slot_in by done. rewrite (drop_S _ _ _ Hp). simpl. destruct (decide (k + 1 = length bs)%nat) as [Ek|Ek].
  - rewrite Ek, Z.eqb_refl. by rewrite drop_ge by lia.
  - rewrite (proj2 (Z.eqb_neq _ _)) by (apply slot_ne; lia). rewrite IH by lia. simpl. by rewrite Nat.add_1_r.
Qed.

Lemma filled_entries_spec bs lo log pc s : memory bs lo log pc s -> entry_lag pc = 0%nat -> front_lag pc = 0%nat ->
  filled_entries (pr_blockIndexSize s) s = Some (entries_from lo (drop lo bs)).
Proof.
  intros [[H1a H1b] _ _ _ _ _ _ _ H9 (I1 & I2 & (j & Hj & I3 & _) & I4 & I5)] Ee Ef. unfold filled_entries.
  destruct (Z.eqb_spec (pr_blockIndexSlotsUsed s) 0) as [E0|E0].
  { by destruct H1b as [[-> ->]|]; [|lia]. }
  destruct (decide (blockIndex s = 0)) as [Eb|Eb]; [destruct H1b as [[-> ->]|]; [|subst bs]; simpl in H1a; lia|].
  destruct I5 as (g & Hg & Hs & Hhi & Hpub & Hfr). rewrite Ee in Hhi. rewrite Ef in Hpub. rewrite Nat.sub_0_r in Hhi, Hpub.
  destruct (H9 _ _ Hg) as (h & Hh & Hok). rewrite I2, Hh. simpl.
  assert (Hu : Z.land (u64 (pr_blockIndexFront s - pr_blockIndexSlotsUsed s)) (u64 (pr_blockIndexSize s - 1)) = slot_in g lo).
  { rewrite I3, land_size by done. unfold slot_in in Hfr |- *. rewrite Hfr, Hpub, Hs, I3. rewrite Zminus_mod_idemp_l. f_equal. lia. }
  rewrite Hu, Hfr, Hpub, <- Hs. apply (copy_entries_spec bs lo g h); [done|done|lia|].
  pose proof (ho_room _ _ _ _ Hok). lia.
Qed.

Lemma first_of_small n : first_of n < 2 ^ 62 -> Z.of_nat n < 2 ^ 61.
Proof. unfold first_of. pose proof block_size_bound. nia. Qed.

Lemma new_header_ok bs lo n j used old garbage (p : Z) prev0 :
  Z.of_nat (length bs) = Z.of_nat lo + used -> 0 <= used -> 0 <= j <= 62 -> n = 2 ^ j -> used < n ->
  header_ok bs lo (MkInfo (Z.of_nat lo) n (length bs) (length bs))
    (MkHeader n (u64 (used - 1)) (entries_from lo (drop lo bs) ++ replicate old garbage) prev0) \/
  zlen (entries_from lo (drop lo bs) ++ replicate old garbage) <> n.
Proof.
  intros Hl Hu Hj En Hn. destruct (decide (zlen (entries_from lo (drop lo bs) ++ replicate old garbage) = n)) as [El|]; [left|by right].
  assert (Hp62 : 2 ^ j <= 2 ^ 62) by (apply Z.pow_le_mono_r; lia).
  split; simpl; try done.
  - split; [done|]. by exists j.
  - lia.
  - intros Hlt. rewrite u64_id by lia. unfold slot_in. simpl. rewrite Z.mod_small by lia. lia.
  - intros k q Hk E. unfold slot_in. simpl. rewrite Z.mod_small by lia.
    rewrite lookup_app_l by (rewrite entries_from_length, length_drop; lia).
    rewrite (entries_from_lookup _ _ _ q). { do 2 f_equal. f_equal. lia. }
    rewrite lookup_drop. by replace (lo + Z.to_nat (Z.of_nat k - Z.of_nat lo))%nat with k by lia.
Qed.

Lemma memory_new_index bs lo log x cur s p garbage :
  memory bs lo log (PIndex CanAlloc x cur) s -> p <> 0 -> headers s !! p = None -> T < 2 ^ 62 ->
  exists s' g, new_block_index garbage (pr_blockIndexSlotsUsed s) (Some p) s = Some (true, s') /\
    memory_ok T bs lo (<[p:=g]> G) fin gone log (PBlock x cur) s' /\ producer_base s' = producer_base s /\
    blocks s' = blocks s /\ forall q, q <> p -> headers s' !! q = headers s !! q.
Proof.
  intros Hm Hp Hfree HT. unfold new_block_index. simpl.
  assert (Efill := filled_entries_spec _ _ _ _ _ Hm eq_refl eq_refl).
  assert (Ef : filled_entries (pr_blockIndexSize s) (set_size (u64 (Z.shiftl (pr_blockIndexSize s) 1)) s) = filled_entries (pr_blockIndexSize s) s) by done.
  rewrite Ef, Efill. simpl. clear Ef Efill.
  destruct Hm as [[H1a H1b] H2 H3 H4 H5 H6 H7 ((-> & HTe) & Hfull) H9 (I1 & I2 & (j & Hj & I3 & I3') & I4 & I5)]. simpl in *.
  pose proof (first_of_small (length bs) ltac:(lia)) as Hnb. assert (Hu0 : 0 <= pr_blockIndexSlotsUsed s) by (destruct H1b as [[-> ->]|]; simpl in *; lia).
  assert (Hj61 : j <= 61).
  { destruct Hfull as [Hz|Hz]; [by apply I3'|]. destruct (Z.le_gt_cases j 61); [done|].
    assert (2 ^ 62 <= 2 ^ j) by (apply Z.pow_le_mono_r; lia). lia. }
  assert (En : u64 (Z.shiftl (pr_blockIndexSize s) 1) = 2 ^ (j + 1)).
  { rewrite I3, Z.shiftl_mul_pow2, <- Z.pow_add_r by lia. apply u64_id. split; [apply Z.pow_nonneg; lia|].
    apply Z.pow_lt_mono_r; lia. }
  rewrite En. assert (Hlt : pr_blockIndexSlotsUsed s < 2 ^ (j + 1)) by (rewrite Z.pow_add_r by lia; lia).
  set (n := 2 ^ (j + 1)) in *. set (es := entries_from lo (drop lo bs)).
  assert (Hes : Z.of_nat (length es) = pr_blockIndexSlotsUsed s) by (unfold es; rewrite entries_from_length, length_drop; lia).
  destruct (new_header_ok bs lo n (j + 1) (pr_blockIndexSlotsUsed s) (Z.to_nat n - length es) garbage p (pr_blockIndexRaw s))
    as [Hok|Hno]; [lia..|done|done| |].
  2: { destruct Hno. rewrite zlen_app. unfold zlen. rewrite length_replicate. fold es. lia. }
  eexists _, (MkInfo (Z.of_nat lo) n (length bs) (length bs)). split; [reflexivity|].
  split_and!; [|done|done|intros q Hq; simpl; by rewrite lookup_insert_ne].
  split; simpl; try done.
  - intros q g Hg. apply lookup_insert_Some in Hg as [[<- <-]|[Hne Hg]].
    + eexists. split; [apply lookup_insert_eq|]. exact Hok.
    + rewrite lookup_insert_ne by done. by apply H9.
  - unfold index_ok. simpl. split_and!; [done..| |lia|].
    + exists (j + 1). split; [lia|]. split; [done|]. intros. done.
    + rewrite decide_False by done. eexists. rewrite lookup_insert_eq. split; [reflexivity|]. simpl.
      rewrite Nat.sub_0_r. split_and!; try done. unfold slot_in. simpl. rewrite Z.mod_small by lia. lia.
Qed.

Lemma memory_index_fails bs lo log x cur s garbage :
  memory bs lo log (PIndex CanAlloc x cur) s -> T < 2 ^ 62 ->
  new_block_index garbage (pr_blockIndexSlotsUsed s) None s = Some (false, s).
Proof.
  intros Hm HT. destruct Hm as [[H1a H1b] _ _ _ _ _ _ ((_ & HTe) & Hfull) _ (_ & _ & (j & Hj & I3 & I3') & I4 & _)].
  pose proof (first_of_small (length bs) ltac:(lia)) as Hnb.
  assert (Hj61 : j <= 61).
  { destruct Hfull as [Hz|Hz]; [by apply I3'|]. destruct (Z.le_gt_cases j 61); [done|].
    assert (2 ^ 62 <= 2 ^ j) by (apply Z.pow_le_mono_r; lia). lia. }
  unfold new_block_index. do 2 f_equal. destruct s. unfold set_size. simpl in *. f_equal.
  rewrite I3, Z.shiftl_mul_pow2, <- Z.pow_add_r by lia.
  rewrite u64_id by (split; [apply Z.pow_nonneg; lia|apply Z.pow_lt_mono_r; lia]).
  rewrite Z.shiftr_div_pow2 by lia. rewrite Z.pow_add_r by lia. by rewrite Z.div_mul.
Qed.

(** *** A new block *)

(** The blocks in the ring are untouched by changes elsewhere. *)
Lemma blocks_other bs lo log r s q (b : Block A) :
  (forall k p, (lo <= k)%nat -> bs !! k = Some p -> exists b, blocks s !! p = Some b /\ block_ok bs lo fin gone log (r k) k b) ->
  q ∉ drop lo bs ->
  forall k p, (lo <= k)%nat -> bs !! k = Some p -> exists b', <[q:=b]> (blocks s) !! p = Some b' /\ block_ok bs lo fin gone log (r k) k b'.
Proof.
  intros Hb Hq k p Hk Hp. destruct (Hb k p Hk Hp) as (b' & Hb' & Hok). exists b'. split; [|done].
  rewrite lookup_insert_ne; [done|]. intros ->. apply Hq. by eapply drop_lookup_elem.
Qed.

Lemma memory_requisition bs lo log x cur s p b :
  memory bs lo log (PBlock x cur) s -> p <> 0 -> blocks s !! p = None ->
  elements b = replicate (Z.to_nat BLOCK_SIZE) None -> length (emptyFlags b) = Z.to_nat BLOCK_SIZE ->
  memory bs lo log (PReset x cur p 0 true) (set_blocks (<[p:=b]> (blocks s)) s).
Proof.
  intros [H1 H2 H3 H4 H5 H6 H7 (Hc & Hi & Hu) H9 H10] Hp Hfree He Hf. pose proof block_size_bound as HB.
  assert (Hn : p ∉ drop lo bs).
  { intros Hin. apply list_elem_of_lookup in Hin as [k Hk]. rewrite lookup_drop in Hk.
    destruct (H4 (lo + k)%nat p ltac:(lia) Hk) as (b' & Hb' & _). by rewrite Hfree in Hb'. }
  split; try done; simpl.
  - by apply (blocks_other bs lo log (fun _ => false)).
  - split_and!; try done; try lia. split_and!; [done..|]. exists b. simpl. rewrite lookup_insert_eq. split_and!; [done..|]. intros; lia.
Qed.

(** The flags, after a store. *)
Lemma flag_store p q v (b : Block A) : length (emptyFlags b) = Z.to_nat BLOCK_SIZE -> 0 <= p < BLOCK_SIZE -> 0 <= q ->
  flag q (store_flag p v b) = if decide (q = p) then v else flag q b.
Proof.
  intros Hl Hp Hq. unfold flag, store_flag. simpl. case_decide as E.
  - subst q. rewrite list_lookup_insert_eq; [done|lia].
  - by rewrite list_lookup_insert_ne by lia.
Qed.

Lemma store_flag_length p v (b : Block A) : length (emptyFlags (store_flag p v b)) = length (emptyFlags b).
Proof. apply length_insert. Qed.

Definition after_reset x cur p i (new : bool) : PPc (A := A) :=
  if negb (i + 1 =? BLOCK_SIZE) then PReset x cur p (i + 1) new else if new then PLink x cur p else PBase x cur.

Lemma memory_reset_new bs lo log x cur s p i :
  memory bs lo log (PReset x cur p i true) s ->
  exists b, blocks s !! p = Some b /\
    memory bs lo log (after_reset x cur p i true) (set_blocks (<[p:=store_flag i false b]> (blocks s)) s).
Proof.
  intros [H1 H2 H3 H4 H5 H6 H7 (Hc & Hi & Hu & Hr & Hp & Hn & b & Hb & He & Hf & Hz) H9 H10]. exists b. split; [done|].
  assert (Hnew : new_block bs lo p (i + 1) (set_blocks (<[p:=store_flag i false b]> (blocks s)) s)).
  { split; [done|]. split; [done|]. exists (store_flag i false b). split; [apply lookup_insert_eq|]. split; [done|].
    split; [by rewrite store_flag_length|]. intros q Hq. rewrite flag_store by lia. case_decide; [done|]. apply Hz. lia. }
  unfold after_reset. destruct (Z.eqb_spec (i + 1) BLOCK_SIZE) as [Ei|Ei]; simpl.
  - split; try done; simpl; [by apply (blocks_other bs lo log (fun _ => false))|]. by rewrite <- Ei.
  - split; try done; simpl; [by apply (blocks_other bs lo log (fun _ => false))|]. split_and!; try done; lia.
Qed.

(** A change of the flags of a block keeps its elements. *)
Lemma block_store_flag bs lo log r r' k b p v : block_ok bs lo fin gone log r k b ->
  (r' = false -> forall o, 0 <= o < BLOCK_SIZE -> flag (BLOCK_SIZE - 1 - o) (store_flag p v b) = bool_decide (first_of k + o ∈ fin)) ->
  block_ok bs lo fin gone log r' k (store_flag p v b).
Proof. intros [B1 B2 B3 B4 B5] Hf. split; try done. by rewrite store_flag_length. Qed.

Lemma memory_reset_reused bs lo log x cur s p i :
  memory bs lo log (PReset x cur p i false) s ->
  exists b, blocks s !! p = Some b /\
    memory bs lo log (after_reset x cur p i false) (set_blocks (<[p:=store_flag i false b]> (blocks s)) s).
Proof.
  intros Hm. destruct (mo_phase _ _ _ _ _ _ _ _ _ Hm) as ((-> & HT) & HT0 & Hi & Hlast & Hz).
  assert (Hbs : bs <> []) by (intros ->; done). destruct (tail_block _ _ _ _ _ Hm Hbs) as (p' & b & El & Ek & Hlo & _ & _ & Hb & Hok).
  rewrite Hlast in El. injection El as <-. exists b. split; [done|].
  assert (Hlen : (0 < length bs)%nat) by (destruct bs; [done|simpl; lia]).
  destruct Hm as [H1 H2 H3 H4 H5 [H6 H6'] H7 _ H9 H10]. pose proof (bo_flags _ _ _ _ _ _ _ _ Hok) as Hfl.
  assert (Hz' : forall q, 0 <= q < i + 1 -> flag q (store_flag i false b) = false).
  { intros q Hq. rewrite flag_store by lia. case_decide; [done|]. apply Hz; [done|lia]. }
  assert (Hblocks : forall r' : bool, (r' = false -> i + 1 = BLOCK_SIZE) -> forall k q, (lo <= k)%nat -> bs !! k = Some q ->
    exists b', <[p:=store_flag i false b]> (blocks s) !! q = Some b' /\
      block_ok bs lo fin gone log (r' && bool_decide (k + 1 = length bs)%nat) k b').
  { intros r' Hr' k q Hk Hq. destruct (decide (q = p)) as [->|Hne].
    - rewrite lookup_insert_eq. eexists. split; [reflexivity|].
      assert (k = (length bs - 1)%nat) as -> by (by apply (window_unique bs lo k _ p (proj1 H3))).
      rewrite bool_decide_true by lia. rewrite andb_true_r. eapply block_store_flag; [exact Hok|]. intros Er o Ho.
      specialize (Hr' Er). rewrite Hz' by lia. symmetry. apply bool_decide_eq_false. intros Hin.
      apply H6, H6' in Hin.
      rewrite (first_of_pred (length bs)) in * by done. lia.
    - rewrite lookup_insert_ne by done. destruct (H4 k q Hk Hq) as (b' & Hb' & Hok'). exists b'. split; [done|].
      assert (Hkn : (k + 1)%nat <> length bs). { intros E. apply Hne. assert (k = length bs - 1)%nat by lia. simplify_eq. }
      rewrite bool_decide_false, andb_false_r in * by done. done. }
  unfold after_reset. destruct (Z.eqb_spec (i + 1) BLOCK_SIZE) as [Ei|Ei]; simpl.
  - split; try done; simpl. by apply (Hblocks false).
  - split; try done; simpl; [by apply (Hblocks true)|]. split_and!; try done; try lia. intros b' Hb'.
    simpl in Hb'. rewrite lookup_insert_eq in Hb'. by injection Hb' as <-.
Qed.

(** *** A block enters the ring *)

Lemma link_block_run bs lo log x cur s p : memory bs lo log (PLink x cur p) s ->
  exists b, blocks s !! p = Some b /\
    link_block p s = Some (set_used (u64 (pr_blockIndexSlotsUsed s + 1)) (on_base (set_tailBlock p)
      (set_blocks (match last bs with
                   | None => <[p:=set_next p b]> (blocks s)
                   | Some l => match blocks s !! l with
                               | Some t => <[l:=set_next p t]> (<[p:=set_next (next t) b]> (blocks s))
                               | None => blocks s
                               end
                   end) s))).
Proof.
  intros Hm. destruct (mo_phase _ _ _ _ _ _ _ _ _ Hm) as (_ & _ & _ & Hp & Hn & b & Hb & _). exists b. split; [done|].
  unfold link_block. destruct (last bs) as [l|] eqn:El.
  - assert (Hbs : bs <> []) by (by intros ->). destruct (tail_block _ _ _ _ _ Hm Hbs) as (l' & t & El' & Ek & Hlo & Et & Hl0 & Ht & _).
    rewrite El in El'. injection El' as <-. rewrite Et, decide_False, Ht by done. cbn [mbind option_bind].
    unfold on_block at 2. rewrite Hb. cbn [mbind option_bind]. unfold on_block. cbn [producer_base set_blocks blocks]. rewrite Et.
    assert (Hne : l <> p). { intros ->. apply Hn. by eapply drop_lookup_elem. }
    rewrite lookup_insert_ne by done. rewrite Ht. done.
  - rewrite decide_True by (rewrite (mo_tail _ _ _ _ _ _ _ _ _ Hm), El; done). unfold on_block. by rewrite Hb.
Qed.

Lemma block_extends bs lo log k c p : (k + 1 < length bs)%nat ->
  block_ok bs lo fin gone log false k c -> block_ok (bs ++ [p]) lo fin gone log false k c.
Proof.
  intros Hk [B1 B2 B3 B4 B5]. split; try done. rewrite length_app. simpl. rewrite decide_False in B5 by lia. rewrite decide_False by lia.
  by rewrite lookup_app_l.
Qed.

Lemma block_linked bs lo log k t p : (k + 1 = length bs)%nat ->
  block_ok bs lo fin gone log false k t -> block_ok (bs ++ [p]) lo fin gone log false k (set_next p t).
Proof.
  intros Hk [B1 B2 B3 B4 B5]. split; try done. rewrite length_app. simpl. rewrite decide_False by lia.
  by rewrite Hk, list_lookup_middle.
Qed.

Lemma block_enters bs lo log c p : zlen log = T -> T = first_of (length bs) -> (forall i, i ∈ fin -> i ∈ gone) ->
  (forall i, i ∈ gone -> 0 <= i < T) ->
  elements c = replicate (Z.to_nat BLOCK_SIZE) None -> length (emptyFlags c) = Z.to_nat BLOCK_SIZE ->
  (forall q, 0 <= q < BLOCK_SIZE -> flag q c = false) -> (bs ++ [p]) !! lo = Some (next c) ->
  block_ok (bs ++ [p]) lo fin gone log false (length bs) c.
Proof.
  intros H7 HT H6 H6' Ec Efc Hz En. split.
  - rewrite Ec. apply length_replicate.
  - intros o Ho. rewrite Ec. rewrite lookup_replicate_2 by lia. f_equal. unfold cell.
    rewrite decide_False by (intros Hg; apply H6' in Hg; lia). symmetry. apply lookup_ge_None_2. unfold zlen in H7. lia.
  - done.
  - intros _ o Ho. rewrite Hz by lia. symmetry. apply bool_decide_eq_false. intros Hin. apply H6, H6' in Hin. lia.
  - rewrite length_app. simpl. by rewrite decide_True by lia.
Qed.

(** The block before the one that enters, and the first one. *)
Lemma link_neighbours bs lo log x cur s p l : memory bs lo log (PLink x cur p) s -> last bs = Some l ->
  exists t, blocks s !! l = Some t /\ l <> p /\ bs !! lo = Some (next t) /\ (lo < length bs)%nat.
Proof.
  intros Hm El. assert (Hbs : bs <> []) by (by intros ->).
  destruct (tail_block _ _ _ _ _ Hm Hbs) as (l' & t & El' & Ek & Hlo & Et & _ & Ht & _). rewrite El in El'. injection El' as <-.
  exists t. split; [done|]. rewrite <- Et in Ht. destruct (head_block _ _ _ _ _ _ Hm Hbs Ht) as [Hh Hlt]. split; [|done].
  intros ->. destruct (mo_phase _ _ _ _ _ _ _ _ _ Hm) as (_ & _ & _ & _ & Hn & _). apply Hn. by eapply drop_lookup_elem.
Qed.

Lemma link_blocks bs lo log x cur s p b : memory bs lo log (PLink x cur p) s -> blocks s !! p = Some b ->
  forall k q, (lo <= k)%nat -> (bs ++ [p]) !! k = Some q -> exists c,
    match last bs with
    | None => <[p:=set_next p b]> (blocks s)
    | Some l => match blocks s !! l with
                | Some t => <[l:=set_next p t]> (<[p:=set_next (next t) b]> (blocks s))
                | None => blocks s
                end
    end !! q = Some c /\ block_ok (bs ++ [p]) lo fin gone log false k c.
Proof.
  intros Hm Hb k q Hk Eq. pose proof (fun l => link_neighbours _ _ _ _ _ _ _ l Hm) as Hold.
  destruct Hm as [[H1a H1b] H2 [H3a H3b] H4 H5 [H6 H6'] [H7a H7b] ((-> & HTe) & Hi & Hu & Hp & Hn & b' & Hb' & He & Hf & Hz) H9 H10].
  rewrite Hb in Hb'. injection Hb' as <-. rewrite Z.add_0_r in H7b. destruct (Nat.lt_ge_cases k (length bs)) as [Hkl|Hkl].
  - rewrite lookup_app_l in Eq by done. destruct (H4 k q Hk Eq) as (c & Hc & Hok). simpl in Hok.
    destruct (last bs) as [l|] eqn:El; [|apply last_None in El; subst; simpl in Hkl; lia].
    destruct (Hold l eq_refl) as (t & Ht & Hlp & Hhead & Hlo). rewrite Ht. apply last_block in El.
    assert (Hqp : q <> p) by (intros ->; apply Hn; by eapply drop_lookup_elem).
    destruct (decide (k + 1 = length bs)%nat) as [Ek|Ek].
    + assert (k = (length bs - 1)%nat) as -> by lia. assert (q = l) as -> by congruence.
      rewrite lookup_insert_eq. eexists. split; [reflexivity|]. apply block_linked; [done|]. congruence.
    + assert (Hql : q <> l). { intros ->. apply Ek. rewrite (window_unique bs lo k (length bs - 1) l H3a); [lia|done|lia|done|done]. }
      rewrite !lookup_insert_ne by done. exists c. split; [done|]. apply block_extends; [lia|done].
  - assert (k = length bs) as ->. { apply lookup_lt_Some in Eq as Hlt. rewrite length_app in Hlt. simpl in Hlt. lia. }
    rewrite list_lookup_middle in Eq by done. injection Eq as <-. destruct (last bs) as [l|] eqn:El.
    + destruct (Hold l eq_refl) as (t & Ht & Hlp & Hhead & Hlo). rewrite Ht, lookup_insert_ne, lookup_insert_eq by done.
      eexists. split; [reflexivity|]. apply block_enters; try done. simpl. by rewrite lookup_app_l.
    + apply last_None in El. subst bs. rewrite lookup_insert_eq. eexists. split; [reflexivity|]. apply block_enters; try done.
      simpl in *. destruct H1b as [[_ ->]|]; [done|lia].
Qed.

Lemma memory_link bs lo log x cur s p : memory bs lo log (PLink x cur p) s -> T < 2 ^ 62 ->
  exists s', link_block p s = Some s' /\ memory (bs ++ [p]) lo log (PBase x cur) s' /\
    producer_base s' = set_tailBlock p (producer_base s).
Proof.
  intros Hm HT. destruct (link_block_run _ _ _ _ _ _ _ Hm) as (b & Hb & E). rewrite E. eexists. split; [reflexivity|].
  split; [|done]. clear E. pose proof block_size_bound as HB. pose proof (link_blocks _ _ _ _ _ _ _ _ Hm Hb) as Hblocks.
  destruct Hm as [[H1a H1b] H2 [H3a H3b] _ H5 H6 H7 ((-> & HTe) & Hi & Hu & Hp & Hn & _) H9 H10].
  assert (Hu0 : 0 <= pr_blockIndexSlotsUsed s) by (destruct H1b as [[-> ->]|]; simpl in *; lia).
  pose proof (first_of_small (length bs) ltac:(lia)) as Hnb.
  assert (Eu : u64 (pr_blockIndexSlotsUsed s + 1) = pr_blockIndexSlotsUsed s + 1) by (apply u64_id; lia).
  split; simpl; rewrite ?Eu; try done.
  - rewrite length_app. simpl. split; [lia|]. right. lia.
  - by rewrite last_snoc.
  - rewrite drop_app_le by lia. split; [|set_solver]. apply NoDup_app. split; [done|]. split; [set_solver|apply NoDup_singleton].
  - unfold in_last. rewrite length_app. simpl. rewrite first_of_S. split; [split; [done|lia]|lia].
  - intros q g Hg. destruct (H9 q g Hg) as (h & Hh & Hok). exists h. split; [done|]. by eapply header_extend.
  - unfold index_ok in *. simpl. rewrite ?Eu. destruct H10 as (I1 & I2 & I3 & I4 & I5). split_and!; try done; [lia|].
    rewrite decide_False in I5 |- * by done. destruct I5 as (g & I5 & I6 & I7 & I8 & I9). exists g.
    rewrite length_app. simpl. split_and!; try done; simpl in *; lia.
Qed.

(** *** The block index, and the element *)

(** A write to the slot of a block that has no entry yet. *)
Lemma header_write bs lo g h k e : header_ok bs lo g h -> (hhi g <= k)%nat -> Z.of_nat k < Z.of_nat lo + hsize g ->
  header_ok bs lo g (set_entries (<[Z.to_nat (slot_in g k):=e]> (entries h)) h).
Proof.
  intros [H1 H2 H3 H4 H5 H6] Hk Hr. split; simpl; try done.
  - unfold zlen in *. by rewrite length_insert.
  - intros j p Hj Hp. rewrite list_lookup_insert_ne; [by apply H6|].
    pose proof (slot_bound g k (proj2 H1)). pose proof (slot_bound g j (proj2 H1)).
    intros E. apply Z2Nat.inj in E; [|lia..]. symmetry in E. revert E. apply slot_ne; lia.
Qed.

(** The current block index and the slot to be filled, while a block is
    entered. *)
Lemma entering_slot bs lo log pc s : memory bs lo log pc s -> bs <> [] -> front_lag pc = 1%nat -> T < 2 ^ 62 ->
  exists g h e, blockIndex s <> 0 /\ G !! blockIndex s = Some g /\ headers s !! blockIndex s = Some h /\ header_ok bs lo g h /\
    hsize g = pr_blockIndexSize s /\ hhi g = (length bs - entry_lag pc)%nat /\ hpub g = (length bs - 1)%nat /\
    pr_blockIndexFront s = slot_in g (length bs - 1) /\ entries h !! Z.to_nat (pr_blockIndexFront s) = Some e /\
    Z.of_nat (length bs - 1) < Z.of_nat lo + hsize g /\ (lo <= length bs - 1)%nat.
Proof.
  intros [[H1a H1b] _ _ _ _ _ _ _ H9 (I1 & I2 & _ & I4 & I5)] Hbs Hl HT.
  destruct (decide (blockIndex s = 0)); [done|]. destruct I5 as (g & Hg & Hs & Hhi & Hpub & Hfr). rewrite Hl in Hpub.
  destruct (H9 _ _ Hg) as (h & Hh & Hok). assert (Hlen : (0 < length bs)%nat) by (destruct bs; [done|simpl; lia]).
  pose proof (slot_bound g (length bs - 1) (proj2 (ho_size _ _ _ _ Hok))) as Hsb. rewrite Hpub in Hfr.
  destruct (lookup_lt_is_Some_2 (entries h) (Z.to_nat (pr_blockIndexFront s))) as [e He].
  { rewrite Hfr. pose proof (ho_length _ _ _ _ Hok) as Hz. unfold zlen in Hz. lia. }
  exists g, h, e. split_and!; try done; [|]; destruct H1b as [[? _]|]; try done; lia.
Qed.

Lemma entering_blocks T' bs cur : in_last T' bs cur -> 0 <= T' -> bs <> [].
Proof. intros [_ Hl] H0 ->. unfold first_of in Hl. simpl in Hl. pose proof block_size_bound. lia. Qed.

Lemma memory_base bs lo log x cur s : memory bs lo log (PBase x cur) s -> T < 2 ^ 62 ->
  exists s', on_entry (pr_blockIndexFront s) (fun e => MkEntry cur (block e)) s = Some s' /\
    memory bs lo log (PEntry x cur) s' /\ producer_base s' = producer_base s.
Proof.
  intros Hm HT. destruct (mo_phase _ _ _ _ _ _ _ _ _ Hm) as [Hin HTe]. pose proof (proj1 (mo_log _ _ _ _ _ _ _ _ _ Hm)) as H0.
  pose proof (entering_blocks _ _ _ Hin H0) as Hbs.
  destruct (entering_slot _ _ _ _ _ Hm Hbs eq_refl HT) as (g & h & e & Hne & Hg & Hh & Hok & Hs & Hhi & Hpub & Hfr & He & Hr & Hlo).
  unfold on_entry. rewrite Hh. cbn [mbind option_bind]. rewrite He. cbn [mbind option_bind]. eexists. split; [reflexivity|]. split; [|done].
  destruct Hm as [H1 H2 H3 H4 H5 H6 H7 _ H9 H10]. simpl in Hhi.
  pose proof (header_write bs lo g h (length bs - 1) (MkEntry cur (block e)) Hok ltac:(lia) Hr) as Hok'. rewrite <- Hfr in Hok'.
  split; try done; simpl.
  - split; [done|]. split; [done|]. eexists _, _. split; [apply lookup_insert_eq|]. simpl.
    split; [apply list_lookup_insert_eq; by eapply lookup_lt_Some|done].
  - intros q g' Hq. destruct (decide (q = blockIndex s)) as [->|Hnq]; [|rewrite lookup_insert_ne by done; by apply H9].
    rewrite lookup_insert_eq. eexists. split; [reflexivity|]. congruence.
Qed.

(** The information on a block index, when a block gets its entry, and when it
    is published. *)
Definition with_hhi (n : nat) (g : Info) := MkInfo (hshift g) (hsize g) n (hpub g).
Definition with_hpub (n : nat) (g : Info) := MkInfo (hshift g) (hsize g) (hhi g) n.

Lemma memory_entry bs lo log x cur s : memory bs lo log (PEntry x cur) s -> T < 2 ^ 62 ->
  exists s' g, on_entry (pr_blockIndexFront s) (fun e => MkEntry (base e) (tailBlock (producer_base s))) s = Some s' /\
    G !! blockIndex s = Some g /\ (hhi g <= length bs)%nat /\
    memory_ok T bs lo (<[blockIndex s:=with_hhi (length bs) g]> G) fin gone log (PFront x cur) s' /\ producer_base s' = producer_base s.
Proof.
  intros Hm HT. destruct (mo_phase _ _ _ _ _ _ _ _ _ Hm) as (Hin & HTe & h' & e' & Hh' & He' & Hbase).
  pose proof (proj1 (mo_log _ _ _ _ _ _ _ _ _ Hm)) as H0. pose proof (entering_blocks _ _ _ Hin H0) as Hbs.
  destruct (entering_slot _ _ _ _ _ Hm Hbs eq_refl HT) as (g & h & e & Hne & Hg & Hh & Hok & Hs & Hhi & Hpub & Hfr & He & Hr & Hlo).
  rewrite Hh in Hh'. injection Hh' as <-. rewrite He in He'. injection He' as <-.
  unfold on_entry. rewrite Hh. cbn [mbind option_bind]. rewrite He. cbn [mbind option_bind].
  eexists _, g. split; [reflexivity|]. split; [done|]. simpl in Hhi. split; [lia|]. split; [|done].
  destruct (tail_block _ _ _ _ _ Hm Hbs) as (p & b & _ & Ek & _ & Et & _).
  assert (Hlen : (0 < length bs)%nat) by (destruct bs; [done|simpl; lia]).
  destruct Hm as [H1 H2 H3 H4 H5 H6 H7 _ H9 H10]. set (e2 := MkEntry (base e) (tailBlock (producer_base s))).
  pose proof (header_write bs lo g h (length bs - 1) e2 Hok ltac:(lia) Hr) as Hok'. rewrite <- Hfr in Hok'.
  assert (Ee : e2 = MkEntry (first_of (length bs - 1)) p).
  { unfold e2. rewrite Et, Hbase. destruct Hin as [-> _]. f_equal. rewrite HTe, (first_of_pred (length bs)) by done. lia. }
  split; try done; simpl.
  - intros q g' Hq. apply lookup_insert_Some in Hq as [[<- <-]|[Hnq Hq]].
    + rewrite lookup_insert_eq. eexists. split; [reflexivity|]. destruct Hok' as [O1 O2 O3 O4 O5 O6]. split; simpl; try done; [lia|lia|].
      intros k q Hk Hq. destruct (decide (k = (length bs - 1)%nat)) as [->|Hnk]; [|by apply O6; [lia|]].
      rewrite Ek in Hq. injection Hq as <-. unfold slot_in. simpl. fold (slot_in g (length bs - 1)). rewrite <- Hfr, <- Ee.
      apply list_lookup_insert_eq. by eapply lookup_lt_Some.
    + rewrite lookup_insert_ne by done. by apply H9.
  - unfold index_ok in *. simpl in *. destruct H10 as (I1 & I2 & I3 & I4 & I5). split_and!; try done.
    rewrite decide_False by done. eexists. rewrite lookup_insert_eq. split; [reflexivity|]. simpl.
    split_and!; [done|lia|done|]. rewrite Hpub. done.
Qed.

Lemma memory_front bs lo log x cur s : memory bs lo log (PFront x cur) s -> T < 2 ^ 62 ->
  exists g h, G !! blockIndex s = Some g /\ (hpub g <= length bs)%nat /\ headers s !! blockIndex s = Some h /\
    memory_ok T bs lo (<[blockIndex s:=with_hpub (length bs) g]> G) fin gone log (PConstruct x cur)
      (set_pr_front (next_slot (pr_blockIndexFront s) (pr_blockIndexSize s))
        (set_headers (<[blockIndex s:=set_front (pr_blockIndexFront s) h]> (headers s)) s)).
Proof.
  intros Hm HT. pose proof (mo_phase _ _ _ _ _ _ _ _ _ Hm) as [Hin _].
  pose proof (proj1 (mo_log _ _ _ _ _ _ _ _ _ Hm)) as H0. pose proof (entering_blocks _ _ _ Hin H0) as Hbs.
  destruct (entering_slot _ _ _ _ _ Hm Hbs eq_refl HT) as (g & h & e & Hne & Hg & Hh & Hok & Hs & Hhi & Hpub & Hfr & He & Hr & Hlo).
  exists g, h. split; [done|]. split; [lia|]. split; [done|]. simpl in Hhi.
  assert (Hlen : (0 < length bs)%nat) by (destruct bs; [done|simpl; lia]).
  destruct Hm as [H1 H2 H3 H4 H5 H6 H7 _ H9 H10]. destruct Hok as [O1 O2 O3 O4 O5 O6]. split; try done; simpl.
  - intros q g' Hq. apply lookup_insert_Some in Hq as [[<- <-]|[Hnq Hq]].
    + rewrite lookup_insert_eq. eexists. split; [reflexivity|]. split; simpl; try done; lia.
    + rewrite lookup_insert_ne by done. by apply H9.
  - unfold index_ok in *. simpl in *. destruct H10 as (I1 & I2 & I3 & I4 & I5). split_and!; try done.
    rewrite decide_False by done. eexists. rewrite lookup_insert_eq. split; [reflexivity|]. simpl.
    split_and!; [done|lia|lia|]. rewrite Hfr, <- Hs, next_slot_in by exact (proj2 O1). unfold slot_in. simpl. do 2 f_equal. lia.
Qed.

(** The element is constructed on raw memory. *)
Lemma memory_construct bs lo log x cur s : memory bs lo log (PConstruct x cur) s ->
  exists b, blocks s !! tailBlock (producer_base s) = Some b /\ element cur b = Some None /\
    memory bs lo (log ++ [x]) (PTail x cur) (set_blocks (<[tailBlock (producer_base s):=set_element cur (Some x) b]> (blocks s)) s).
Proof.
  intros Hm. pose proof (mo_phase _ _ _ _ _ _ _ _ _ Hm) as Hin. destruct Hin as [-> Hin].
  pose proof (proj1 (mo_log _ _ _ _ _ _ _ _ _ Hm)) as H0. pose proof (entering_blocks T bs T (conj eq_refl Hin) H0) as Hbs.
  destruct (tail_block _ _ _ _ _ Hm Hbs) as (p & b & _ & Ek & Hlo & Et & _ & Hb & Hok). rewrite Et. exists b. split; [done|].
  assert (Hlen : (0 < length bs)%nat) by (destruct bs; [done|simpl; lia]).
  pose proof (first_of_pred (length bs) Hlen) as Ef.
  assert (Eo : in_block T = T - first_of (length bs - 1)) by (apply (block_of_unique T (length bs - 1)); lia).
  destruct Hm as [H1 H2 H3 H4 H5 [H6 H6'] [H7a H7b] _ H9 H10]. destruct Hok as [B1 B2 B3 B4 B5].
  assert (Hnone : log !! Z.to_nat T = None) by (apply lookup_ge_None_2; unfold zlen in H7b; lia).
  assert (HTg : T ∉ gone) by (intros Hg; apply H6' in Hg; lia).
  pose proof (in_block_bound T) as Hib. split.
  { unfold element. rewrite B2 by done. f_equal. unfold cell. rewrite Eo.
    replace (first_of (length bs - 1) + (T - first_of (length bs - 1))) with T by lia. by rewrite decide_False. }
  assert (Hcell : forall i, 0 <= i -> i <> T -> cell gone (log ++ [x]) i = cell gone log i).
  { intros i Hi Hne. unfold cell. destruct (decide (i ∈ gone)); [done|]. unfold zlen in H7b.
    destruct (Nat.lt_ge_cases (Z.to_nat i) (length log)) as [Hl|Hl]; [by rewrite lookup_app_l|].
    rewrite !lookup_ge_None_2; [done|lia|]. rewrite length_app. simpl. lia. }
  split; try done; simpl.
  - intros k q Hk Hq. destruct (H4 k q Hk Hq) as (c & Hc & [C1 C2 C3 C4 C5]). destruct (decide (q = p)) as [->|Hne].
    + rewrite lookup_insert_eq. eexists. split; [reflexivity|]. assert (k = (length bs - 1)%nat) as -> by (by apply (window_unique bs lo k _ p (proj1 H3))).
      rewrite Hb in Hc. injection Hc as <-. split; simpl; try done; [by rewrite length_insert|]. intros o Ho.
      destruct (decide (o = in_block T)) as [->|Hno].
      * rewrite list_lookup_insert_eq by lia. f_equal. unfold cell. rewrite Eo.
        replace (first_of (length bs - 1) + (T - first_of (length bs - 1))) with T by lia. rewrite decide_False by done.
        replace (Z.to_nat T) with (length log) by (unfold zlen in H7b; lia). by rewrite list_lookup_middle.
      * rewrite list_lookup_insert_ne by lia. rewrite C2 by done. f_equal. symmetry.
        pose proof (first_of_nonneg (length bs - 1)). apply Hcell; lia.
    + rewrite lookup_insert_ne by done. exists c. split; [done|]. split; try done. intros o Ho. rewrite C2 by done. f_equal.
      symmetry. pose proof (first_of_nonneg k). apply Hcell; [lia|]. intros E. destruct (block_of_unique T k ltac:(lia)) as [Ek' _].
      destruct (block_of_unique T (length bs - 1) ltac:(lia)) as [Ek'' _]. congruence.
  - split; [done|]. rewrite zlen_app. unfold zlen at 2. simpl. lia.
Qed.

Lemma memory_tail bs lo log x cur s : memory bs lo log (PTail x cur) s -> T < 2 ^ 62 ->
  memory_ok (T + 1) bs lo G fin gone log (PIdle true) (on_base (set_tailIndex (u64 (1 + cur))) s).
Proof.
  intros [H1 H2 H3 H4 H5 [H6 H6'] [H7 H7'] [-> Hin] H9 H10] HT. split; try done.
  - split; [done|]. intros i Hi. specialize (H6' i Hi). lia.
  - lia.
  - simpl. lia.
Qed.

(** *** Where [enqueue] goes *)

Definition started mode (x : A) (cur : Z) s : PPc (A := A) :=
  if in_block cur =? 0 then
    if decide (tailBlock (producer_base s) <> 0) then PCheck mode x cur 0 else PHead mode x cur
  else PConstruct x cur.

Lemma memory_start bs lo log mode x s : memory bs lo log (PStart mode x) s -> memory bs lo log (started mode x T s) s.
Proof.
  intros Hm. pose proof (mo_phase _ _ _ _ _ _ _ _ _ Hm) as Hp. simpl in Hp. pose proof block_size_bound as HB.
  pose proof (proj1 (mo_log _ _ _ _ _ _ _ _ _ Hm)) as H0. unfold started. destruct (Z.eqb_spec (in_block T) 0) as [E|E].
  - assert (HT : T = first_of (length bs)).
    { pose proof (block_of_spec T H0) as Eb. rewrite E in Eb. destruct (Z.eq_dec T (first_of (length bs))) as [|Hne]; [done|].
      assert (Hlt : (block_of T < length bs)%nat) by (apply first_of_lt; lia).
      assert (Hle : first_of (block_of T + 1) <= first_of (length bs)) by (apply first_of_le; lia). rewrite first_of_S in Hle. lia. }
    case_decide as Et; (eapply memory_pc; [exact Hm|done..|]); simpl; [|done].
    split; [done|]. split; [|split; [lia|intros; lia]]. intros ->. apply Et. by rewrite (mo_tail _ _ _ _ _ _ _ _ _ Hm).
  - eapply memory_pc; [exact Hm|done..|]. simpl. split; [done|]. split; [lia|].
    destruct (Z.eq_dec T (first_of (length bs))) as [HT|]; [|lia]. by rewrite (in_block_end _ _ HT) in E.
Qed.

(** The next block, whose flags are checked. *)
Lemma check_run bs lo log mode x cur i s : memory bs lo log (PCheck mode x cur i) s ->
  exists t b, blocks s !! tailBlock (producer_base s) = Some t /\ blocks s !! next t = Some b /\
    flag i b = bool_decide (first_of lo + (BLOCK_SIZE - 1 - i) ∈ fin).
Proof.
  intros Hm. destruct (mo_phase _ _ _ _ _ _ _ _ _ Hm) as (_ & Hbs & Hi & _).
  destruct (tail_block _ _ _ _ _ Hm Hbs) as (p & t & _ & _ & _ & Et & _ & Ht & _). rewrite <- Et in Ht. exists t.
  destruct (head_block _ _ _ _ _ _ Hm Hbs Ht) as [Hh Hlt]. destruct (mo_blocks _ _ _ _ _ _ _ _ _ Hm lo _ ltac:(done) Hh) as (b & Hb & Hok).
  exists b. split; [done|]. split; [done|]. replace i with (BLOCK_SIZE - 1 - (BLOCK_SIZE - 1 - i)) at 1 by lia.
  by rewrite (bo_flag _ _ _ _ _ _ _ _ Hok) by (done || lia).
Qed.

Lemma memory_check_more bs lo log mode x cur i s : memory bs lo log (PCheck mode x cur i) s ->
  first_of lo + (BLOCK_SIZE - 1 - i) ∈ fin -> i + 1 <> BLOCK_SIZE -> memory bs lo log (PCheck mode x cur (i + 1)) s.
Proof.
  intros Hm Hin Hi. destruct (mo_phase _ _ _ _ _ _ _ _ _ Hm) as (Hc & Hbs & Hib & Hq). eapply memory_pc; [exact Hm|done..|].
  simpl. split; [done|]. split; [done|]. split; [lia|]. intros q Hqb. destruct (Z.eq_dec q i) as [->|]; [done|]. apply Hq. lia.
Qed.

Lemma memory_head bs lo log mode x cur s head : memory bs lo log (PHead mode x cur) s -> 0 <= head <= T -> T < 2 ^ 62 ->
  circular_less_than cur head = false /\
  (memory bs lo log (PIdle false) s /\
   memory bs lo log (if decide (pr_blockIndexRaw s = 0 \/ pr_blockIndexSlotsUsed s = pr_blockIndexSize s)
                     then PIndex mode x cur else PBlock x cur) s).
Proof.
  intros Hm Hh HT. destruct (mo_phase _ _ _ _ _ _ _ _ _ Hm) as [-> HTe]. pose proof block_size_bound. split.
  { rewrite <- (u64_id T), <- (u64_id head), circular_less_than_spec by lia. apply Z.ltb_ge. lia. }
  split; [eapply memory_pc; [exact Hm|done..|]; simpl; lia|].
  pose proof (mo_index _ _ _ _ _ _ _ _ _ Hm) as (I1 & I2 & I3 & I4 & I5). rewrite I1.
  destruct (decide (blockIndex s = 0 \/ _)) as [E|E]; (eapply memory_pc; [exact Hm|done..|]); simpl; [by split|].
  split; [done|]. split; [|lia]. intros E'. apply E. by left.
Qed.

Lemma memory_give_up bs lo log pc s : memory bs lo log pc s ->
  match pc with PIndex _ _ cur | PBlock _ cur => at_end T bs cur | _ => False end -> memory bs lo log (PIdle false) s.
Proof.
  intros Hm Hp. pose proof block_size_bound. destruct pc; try done; (eapply memory_pc; [exact Hm|done..|]); simpl; destruct Hp; lia.
Qed.
End Producer.

(** *** What the consumers change *)

(** The element at [index], which is before the tail, changes, or its flag. *)
Lemma memory_consume T bs lo G fin gone fin' gone' log pc s k p b b' index :
  memory_ok T bs lo G fin gone log pc s -> bs !! k = Some p -> (lo <= k)%nat ->
  first_of k <= index < first_of k + BLOCK_SIZE -> index < T -> blocks s !! p = Some b ->
  (forall i, i <> index -> (i ∈ fin' <-> i ∈ fin) /\ (i ∈ gone' <-> i ∈ gone)) ->
  (index ∈ fin -> index ∈ fin') -> (index ∈ fin' -> index ∈ gone') ->
  next b' = next b -> length (elements b') = length (elements b) -> length (emptyFlags b') = length (emptyFlags b) ->
  (forall o, 0 <= o < BLOCK_SIZE -> o <> index - first_of k ->
     elements b' !! Z.to_nat o = elements b !! Z.to_nat o /\ flag (BLOCK_SIZE - 1 - o) b' = flag (BLOCK_SIZE - 1 - o) b) ->
  elements b' !! Z.to_nat (index - first_of k) = Some (cell gone' log index) ->
  flag (BLOCK_SIZE - 1 - (index - first_of k)) b' = bool_decide (index ∈ fin') ->
  memory_ok T bs lo G fin' gone' log pc (set_blocks (<[p:=b']> (blocks s)) s).
Proof.
  intros [H1 H2 H3 H4 H5 [H6 H6'] H7 H8 H9 H10] Hk Hlo Hi HiT Hb Hext Hf Hg En Ee Efl Ho Hcell Hflag.
  assert (Hcells : forall i, i <> index -> cell gone' log i = cell gone log i).
  { intros i Hne. unfold cell. destruct (Hext i Hne) as [_ E]. by rewrite (decide_ext _ _ _ _ E). }
  assert (Hfins : forall i, i <> index -> bool_decide (i ∈ fin') = bool_decide (i ∈ fin)).
  { intros i Hne. apply bool_decide_ext. by destruct (Hext i Hne). }
  assert (Hfin : forall i, i ∈ fin -> i ∈ fin').
  { intros i Hin. destruct (decide (i = index)) as [->|Hne]; [by apply Hf|by apply Hext]. }
  assert (Hpw : p ∈ drop lo bs) by (by eapply drop_lookup_elem). split; try done; simpl.
  - intros k' q Hk' Hq. destruct (H4 k' q Hk' Hq) as (c & Hc & [C1 C2 C3 C4 C5]). destruct (decide (q = p)) as [->|Hne].
    + rewrite lookup_insert_eq. eexists. split; [reflexivity|].
      assert (k' = k) as -> by (by apply (window_unique bs lo _ _ p (proj1 H3))). rewrite Hb in Hc. injection Hc as <-.
      split; [by rewrite Ee| |by rewrite Efl| |by rewrite En].
      * intros o Hob. destruct (decide (o = index - first_of k)) as [->|Hno].
        -- rewrite Hcell. by replace (first_of k + (index - first_of k)) with index by lia.
        -- rewrite (proj1 (Ho o Hob Hno)), C2 by done. f_equal. symmetry. apply Hcells. lia.
      * intros Er o Hob. destruct (decide (o = index - first_of k)) as [->|Hno].
        -- rewrite Hflag. by replace (first_of k + (index - first_of k)) with index by lia.
        -- rewrite (proj2 (Ho o Hob Hno)), C4 by done. symmetry. apply Hfins. lia.
    + rewrite lookup_insert_ne by done. exists c. split; [done|].
      assert (Hkk : forall o, 0 <= o < BLOCK_SIZE -> first_of k' + o <> index).
      { intros o Hob E. destruct (block_of_unique index k ltac:(lia)) as [E1 _].
        destruct (block_of_unique index k' ltac:(lia)) as [E2 _]. congruence. }
      split; try done.
      * intros o Hob. rewrite C2 by done. f_equal. symmetry. by apply Hcells, Hkk.
      * intros Er o Hob. rewrite C4 by done. symmetry. by apply Hfins, Hkk.
  - intros i Hib. by apply Hfin, H5.
  - split.
    + intros i Hin. destruct (decide (i = index)) as [->|Hne]; [by apply Hg|]. destruct (Hext i Hne) as [E1 E2]. by apply E2, H6, E1.
    + intros i Hin. destruct (decide (i = index)) as [->|Hne]; [pose proof (first_of_nonneg k); lia|]. by apply H6', Hext.
  - destruct pc; try done; simpl in *.
    + destruct H8 as (Hc & Hbs & Hib & Hq). do 3 (split; [done|]). intros q Hqb. by apply Hfin, Hq.
    + destruct new.
      * destruct H8 as (Hc & Hn0 & Hu & Hib & Hp0 & Hnw & c & Hc' & Hrest). do 6 (split; [done|]).
        exists c. simpl. rewrite lookup_insert_ne by (intros ->; done). done.
      * destruct H8 as (Hin & HT & Hib & Hlast & Hz). do 4 (split; [done|]). intros c. rewrite lookup_insert_ne; [apply Hz|].
        intros ->. pose proof (last_block _ _ Hlast) as Hl. assert (Hlen : (0 < length bs)%nat) by (apply lookup_lt_Some in Hk; lia).
        assert (k = (length bs - 1)%nat) as -> by (apply (window_unique bs lo _ _ p0 (proj1 H3)); [done|apply lookup_lt_Some in Hk; lia|done..]).
        rewrite (first_of_pred (length bs)) in HT by done. lia.
    + destruct H8 as (Hc & Hn0 & Hu & Hp0 & Hnw & c & Hc' & Hrest). do 5 (split; [done|]).
      exists c. simpl. rewrite lookup_insert_ne by (intros ->; done). done.
Qed.
End Memory.

(** ** The producer *)

Section Steps.
Context {traits : Traits} `{!TraitsLaws} {A : Type} (garbage : BlockIndexEntry).
Context (flags : has_flags explicit_context = true).
Abbreviation S := (ExplicitProducer A).
Abbreviation step := (step (A := A) garbage).
Implicit Types (bs : list Z) (lo k : nat) (G : gmap Z Info) (fin : list Z) (s : S).

(** Blocks and entries are only added. *)
Definition extends bs G bs' G' : Prop :=
  bs `prefix_of` bs' /\
  forall p g, G !! p = Some g -> exists g', G' !! p = Some g' /\ hshift g' = hshift g /\ hsize g' = hsize g /\
    (hhi g <= hhi g')%nat /\ (hpub g <= hpub g')%nat.

Lemma extends_refl bs G : extends bs G bs G.
Proof. split; [done|]. intros p g Hg. exists g. by split_and!. Qed.

Lemma extends_block bs G p : extends bs G (bs ++ [p]) G.
Proof. split; [by apply prefix_app_r|]. intros q g Hg. exists g. by split_and!. Qed.

Lemma extends_insert bs G p g' : (forall g, G !! p = Some g -> hshift g' = hshift g /\ hsize g' = hsize g /\
    (hhi g <= hhi g')%nat /\ (hpub g <= hpub g')%nat) -> extends bs G bs (<[p:=g']> G).
Proof.
  intros Hp. split; [done|]. intros q g Hg. destruct (decide (q = p)) as [->|Hne].
  - exists g'. rewrite lookup_insert_eq. by split; [|apply Hp].
  - exists g. rewrite lookup_insert_ne by done. by split_and!.
Qed.

(** The elements that are constructed: one more than those published, at the
    end of [enqueue]. *)
Definition constructed (pc : PPc (A := A)) (log : list A) : list A := match pc with PTail x _ => log ++ [x] | _ => log end.
Definition published (pc : PPc (A := A)) (log : list A) : list A := match pc with PTail x _ => log ++ [x] | _ => log end.

(** What a step of the producer is to establish. *)
Definition produces T bs G fin gone (log : list A) pc s (r : option (PPc * S)) : Prop :=
  exists pc' s' bs' lo' G', r = Some (pc', s') /\
    memory_ok (zlen (published pc log)) bs' lo' G' fin gone (constructed pc' (published pc log)) pc' s' /\
    extends bs G bs' G' /\
    tailIndex (producer_base s') = zlen (published pc log) /\ headIndex (producer_base s') = headIndex (producer_base s) /\
    dequeueOptimisticCount (producer_base s') = dequeueOptimisticCount (producer_base s) /\
    dequeueOvercommit (producer_base s') = dequeueOvercommit (producer_base s) /\ T = zlen log.

Context (bs : list Z) (lo : nat) (G : gmap Z Info) (fin gone : list Z) (log : list A) (c : Choice (A := A)) (s : S).
Context (small : zlen log < 2 ^ 62) (tail_eq : tailIndex (producer_base s) = zlen log).
Context (head_eq : 0 <= headIndex (producer_base s) <= zlen log) (c_ok : choice_ok c s).
Abbreviation memory pc := (memory_ok (zlen log) bs lo G fin gone (constructed pc log) pc s).
Abbreviation goal pc := (produces (zlen log) bs G fin gone log pc s (producer_step garbage c pc s)).

Lemma produce_start mode x : memory (PStart mode x) -> goal (PStart mode x).
Proof.
  intros Hm. apply memory_start in Hm. eexists (started mode x (zlen log) s), s, bs, lo, G. simpl. rewrite tail_eq.
  split; [reflexivity|]. split; [|split; [apply extends_refl|done]]. simpl in Hm.
  assert (E : constructed (started mode x (zlen log) s) log = log) by (unfold started; by repeat case_match). by rewrite E.
Qed.

Lemma produce_check mode x cur i : memory (PCheck mode x cur i) -> goal (PCheck mode x cur i).
Proof.
  intros Hm. pose proof (mo_phase _ _ _ _ _ _ _ _ _ Hm) as (_ & _ & Hib & _).
  pose proof Hm as Hr. eapply check_run in Hr as (t & b & Ht & Hb & Hf); [|eassumption..]. unfold produces. simpl.
  rewrite Ht. cbn [mbind option_bind]. rewrite Hb. cbn [mbind option_bind]. unfold check_empty. rewrite flags, Hf. cbn [negb].
  destruct (bool_decide_reflect (first_of lo + (BLOCK_SIZE - 1 - i) ∈ fin)) as [Hin|Hin]; cbn [negb].
  - destruct (Z.eqb_spec (i + 1) BLOCK_SIZE) as [Ei|Ei]; cbn [negb].
    + assert (i = BLOCK_SIZE - 1) as -> by lia. eexists _, _, _, _, G. split; [reflexivity|].
      split; [|split; [apply (extends_block bs G (next t))|done]].
      replace (first_of lo + (BLOCK_SIZE - 1 - (BLOCK_SIZE - 1))) with (first_of lo) in Hin by lia. by eapply memory_reuse.
    + eexists _, s, bs, lo, G. split; [reflexivity|]. split; [|split; [apply extends_refl|done]].
      by apply memory_check_more.
  - eexists _, s, bs, lo, G. split; [reflexivity|]. split; [|split; [apply extends_refl|done]].
    eapply memory_pc; [exact Hm|done..|]. by destruct (mo_phase _ _ _ _ _ _ _ _ _ Hm).
Qed.

Lemma produce_head mode x cur : memory (PHead mode x cur) -> goal (PHead mode x cur).
Proof.
  intros Hm. pose proof Hm as Hr. eapply memory_head in Hr as (E & Hi & Hn); [|eassumption..]. unfold produces. simpl. rewrite E.
  eexists _, s, bs, lo, G. split; [reflexivity|]. split; [|split; [apply extends_refl|done]].
  destruct (no_leeway _ _); [done|]. by destruct (decide (_ \/ _)).
Qed.

Lemma produce_index mode x cur : memory (PIndex mode x cur) -> goal (PIndex mode x cur).
Proof.
  intros Hm. assert (Hgive : memory_ok (zlen log) bs lo G fin gone log (PIdle false) s).
  { eapply memory_give_up; [exact Hm|]. by destruct (mo_phase _ _ _ _ _ _ _ _ _ Hm). }
  unfold produces. simpl. destruct mode.
  2: { eexists _, s, bs, lo, G. split; [reflexivity|]. split; [done|split; [apply extends_refl|done]]. }
  destruct (malloc c) as [p|] eqn:Em.
  - destruct c_ok as [Hc _]. destruct (Hc p Em) as [Hp Hfree].
    destruct (memory_new_index _ _ _ _ _ _ _ _ _ _ _ garbage Hm Hp Hfree small) as (s' & g & E & Hm' & Eb & _).
    rewrite E. cbn [mbind option_bind]. eexists _, _, bs, lo, _. split; [reflexivity|]. split; [exact Hm'|]. rewrite Eb.
    split; [|done]. apply extends_insert. intros g0 Hg0.
    destruct (mo_headers _ _ _ _ _ _ _ _ _ Hm _ _ Hg0) as (h & Hh & _). by rewrite Hfree in Hh.
  - rewrite (memory_index_fails _ _ _ _ _ _ _ _ _ _ garbage Hm small). cbn [mbind option_bind].
    eexists _, s, bs, lo, G. split; [reflexivity|]. split; [done|split; [apply extends_refl|done]].
Qed.

Lemma produce_block x cur : memory (PBlock x cur) -> goal (PBlock x cur).
Proof.
  intros Hm. unfold produces. simpl. destruct (requisition_block c) as [[p b]|] eqn:Er.
  - destruct c_ok as [_ Hc]. destruct (Hc p b Er) as (Hp & Hfree & He & Hf).
    eexists _, _, bs, lo, G. split; [reflexivity|]. split; [|split; [apply extends_refl|done]]. by apply memory_requisition.
  - eexists _, s, bs, lo, G. split; [reflexivity|]. split; [|split; [apply extends_refl|done]].
    eapply memory_give_up; [exact Hm|]. by destruct (mo_phase _ _ _ _ _ _ _ _ _ Hm).
Qed.

Lemma produce_reset x cur p i new : memory (PReset x cur p i new) -> goal (PReset x cur p i new).
Proof.
  intros Hm. assert (Hr : exists b, blocks s !! p = Some b /\ memory_ok (zlen log) bs lo G fin gone log (after_reset x cur p i new)
      (set_blocks (<[p:=store_flag i false b]> (blocks s)) s)).
  { destruct new; [by apply memory_reset_new|by apply memory_reset_reused]. }
  destruct Hr as (b & Hb & Hm'). unfold produces. simpl. rewrite Hb. cbn [mbind option_bind]. unfold reset_one. rewrite flags.
  eexists (after_reset x cur p i new), _, bs, lo, G. split; [reflexivity|]. split; [|split; [apply extends_refl|done]].
  assert (E : constructed (after_reset x cur p i new) log = log) by (unfold after_reset; by repeat case_match). by rewrite E.
Qed.

Lemma produce_link x cur p : memory (PLink x cur p) -> goal (PLink x cur p).
Proof.
  intros Hm. pose proof Hm as Hr. eapply memory_link in Hr as (s' & E & Hm' & Eb); [|eassumption..]. unfold produces. simpl.
  rewrite E. cbn [mbind option_bind]. eexists _, s', _, lo, G. split; [reflexivity|]. rewrite Eb.
  split; [exact Hm'|split; [apply extends_block|done]].
Qed.

Lemma produce_base x cur : memory (PBase x cur) -> goal (PBase x cur).
Proof.
  intros Hm. pose proof Hm as Hr. eapply memory_base in Hr as (s' & E & Hm' & Eb); [|eassumption..]. unfold produces. simpl.
  rewrite E. cbn [mbind option_bind]. eexists _, s', bs, lo, G. split; [reflexivity|]. rewrite Eb.
  split; [exact Hm'|split; [apply extends_refl|done]].
Qed.

Lemma produce_entry x cur : memory (PEntry x cur) -> goal (PEntry x cur).
Proof.
  intros Hm. pose proof Hm as Hr. eapply memory_entry in Hr as (s' & g & E & Hg & Hle & Hm' & Eb); [|eassumption..]. unfold produces. simpl.
  rewrite E. cbn [mbind option_bind]. eexists _, s', bs, lo, _. split; [reflexivity|]. rewrite Eb.
  split; [exact Hm'|split; [|done]]. apply extends_insert. intros g0 Hg0. rewrite Hg in Hg0. injection Hg0 as <-. simpl. lia.
Qed.

Lemma produce_front x cur : memory (PFront x cur) -> goal (PFront x cur).
Proof.
  intros Hm. pose proof Hm as Hr. eapply memory_front in Hr as (g & h & Hg & Hle & Hh & Hm'); [|eassumption..]. unfold produces. simpl.
  rewrite Hh. cbn [mbind option_bind]. eexists _, _, bs, lo, _. split; [reflexivity|].
  split; [exact Hm'|split; [|done]]. apply extends_insert. intros g0 Hg0. rewrite Hg in Hg0. injection Hg0 as <-. simpl. lia.
Qed.

Lemma produce_construct x cur : memory (PConstruct x cur) -> goal (PConstruct x cur).
Proof.
  intros Hm. pose proof Hm as Hr. eapply memory_construct in Hr as (b & Hb & He & Hm'); [|eassumption..]. unfold produces. simpl.
  rewrite Hb. cbn [mbind option_bind]. rewrite He. cbn [mbind option_bind]. unfold on_block. rewrite Hb. cbn [mbind option_bind].
  eexists _, _, bs, lo, G. split; [reflexivity|]. split; [exact Hm'|split; [apply extends_refl|done]].
Qed.

Lemma produce_tail x cur : memory (PTail x cur) -> goal (PTail x cur).
Proof.
  intros Hm. pose proof (mo_phase _ _ _ _ _ _ _ _ _ Hm) as [Ec _]. apply (memory_tail (zlen log)) in Hm; [|done]. unfold produces. simpl.
  assert (El : zlen (log ++ [x]) = zlen log + 1) by (rewrite zlen_app; unfold zlen; simpl; lia).
  eexists _, _, bs, lo, G. split; [reflexivity|]. rewrite El. split; [exact Hm|]. split; [apply extends_refl|]. simpl.
  split; [|done]. rewrite Ec, u64_id; [lia|]. pose proof (zlen_nonneg log). lia.
Qed.

(** Every step of the producer has a next state, and keeps the structure. *)
Lemma produce pc : is_idle pc = false -> memory pc -> goal pc.
Proof.
  intros Hi Hm. destruct pc; [done|..].
  - by apply produce_start.
  - by apply produce_check.
  - by apply produce_head.
  - by apply produce_index.
  - by apply produce_block.
  - by apply produce_reset.
  - by apply produce_link.
  - by apply produce_base.
  - by apply produce_entry.
  - by apply produce_front.
  - by apply produce_construct.
  - by apply produce_tail.
Qed.
End Steps.

(** ** The consumers *)

Lemma i64_u64 d : - 2 ^ 63 <= d < 2 ^ 63 -> i64 (u64 d) = d.
Proof.
  intros Hd. unfold i64, u64, wrap. rewrite Zplus_mod_idemp_l. rewrite Z.mod_small; lia.
Qed.

Lemma u64_sub a b : u64 (a - u64 b) = u64 (a - b).
Proof. unfold u64, wrap. apply Zminus_mod_idemp_r. Qed.

Lemma mod_u64 a b j : 0 <= j <= 62 -> (a + u64 b) mod 2 ^ j = (a + b) mod 2 ^ j.
Proof.
  intros Hj. assert (Hp : 0 < 2 ^ j) by (apply Z.pow_pos_nonneg; lia). rewrite <- Zplus_mod_idemp_r, <- (Zplus_mod_idemp_r b). do 2 f_equal.
  unfold u64, wrap. symmetry. apply Znumtheory.Zmod_div_mod; [lia|lia|]. exists (2 ^ (64 - j)). rewrite <- Z.pow_add_r by lia. f_equal. lia.
Qed.

Lemma circular_less_than_r a b : 0 <= b < 2 ^ 64 -> - 2 ^ 63 < a - b <= 2 ^ 63 -> circular_less_than (u64 a) b = (a <? b).
Proof. intros Hb Hd. rewrite <- (u64_id b) at 1 by done. by apply circular_less_than_spec. Qed.

Lemma circular_less_than_0 d : - 2 ^ 63 <= d < 2 ^ 63 -> circular_less_than 0 (u64 d) = (0 <? d).
Proof. intros Hd. change 0 with (u64 0) at 1. apply circular_less_than_spec. lia. Qed.

Section Consumers.
Context {traits : Traits} `{laws : !TraitsLaws} {A : Type}.
Implicit Types (bs : list Z) (lo k : nat) (G : gmap Z Info) (fin : list Z) (cs : list CPc).

(** *** The counts *)

Lemma desired_nonneg op tail over o : op_ok op = true -> 0 <= desired_count op tail over o /\ (op = Single -> desired_count op tail over o <= 1).
Proof.
  intros Hop. destruct op as [|max]; simpl in *; [case_match; lia|]. apply andb_true_iff in Hop as [Hm _]. apply Z.ltb_lt in Hm.
  pose proof (wrap_range 64 (tail - u64 (o - over)) ltac:(done)) as [Hn _]. fold (u64 (tail - u64 (o - over))) in Hn.
  split; [|done]. repeat case_match; lia.
Qed.

(** The claims that have elements, of consecutive numbers. *)
Lemma actual_bound op T over desired mine : 0 <= T < 2 ^ 62 -> 0 <= over < 2 ^ 62 -> 0 <= mine < 2 ^ 62 -> 0 < desired ->
  (op = Single -> desired = 1) ->
  0 <= actual_count op T over desired mine <= desired /\
  (0 < actual_count op T over desired mine -> actual_count op T over desired mine <= T - (mine - over)).
Proof.
  intros HT Ho Hm Hd Hop. destruct op as [|max]; simpl.
  - rewrite (Hop eq_refl), circular_less_than_r by lia.
    destruct (Z.ltb_spec (mine - over) T); lia.
  - rewrite u64_sub. set (d := T - (mine - over)). rewrite circular_less_than_0 by lia.
    destruct (Z.ltb_spec 0 d) as [Hpos|]; [|lia]. rewrite (u64_id d) by lia. destruct (Z.ltb_spec desired d); lia.
Qed.

(** *** The block of an element *)

Lemma block_base_first i : 0 <= i -> block_base i = first_of (block_of i).
Proof. intros Hi. rewrite block_base_div. unfold first_of, block_of. pose proof block_size_bound. rewrite Z2Nat.id; [done|]. apply Z.div_pos; lia. Qed.

Lemma block_of_bounds i : 0 <= i -> first_of (block_of i) <= i < first_of (block_of i + 1).
Proof. intros Hi. rewrite first_of_S. pose proof (block_of_spec i Hi). pose proof (in_block_bound i). lia. Qed.

Lemma block_of_below i k : 0 <= i < first_of k -> (block_of i < k)%nat.
Proof. intros Hi. pose proof (block_of_bounds i ltac:(lia)). apply first_of_lt. lia. Qed.

Lemma entry_slot_spec g k i : (exists j, 0 <= j <= 62 /\ hsize g = 2 ^ j) -> 0 <= i -> (block_of i <= k)%nat -> first_of k < 2 ^ 63 ->
  entry_slot i (slot_in g k) (first_of k) (hsize g) = slot_in g (block_of i).
Proof.
  intros (j & Hj & Ej) Hi Hk Hs. unfold entry_slot. rewrite block_base_first by done. pose proof block_size_bound as HB.
  pose proof (first_of_nonneg (block_of i)). assert (Hle : first_of (block_of i) <= first_of k) by (by apply first_of_le).
  rewrite i64_u64 by lia. rewrite (i64_id BLOCK_SIZE) by lia.
  replace (first_of (block_of i) - first_of k) with ((Z.of_nat (block_of i) - Z.of_nat k) * BLOCK_SIZE) by (unfold first_of; lia).
  rewrite Z.quot_mul by lia. rewrite Ej, land_size, mod_u64 by done. unfold slot_in. rewrite Ej, Zplus_mod_idemp_l. f_equal. lia.
Qed.

(** The end of what is dequeued from one block. *)
Definition stop_at (first n start : Z) : Z := Z.min (first + n) (first_of (block_of start + 1)).

Lemma stop_index_spec op first n start : 0 <= first <= start -> start < first + n -> first + n < 2 ^ 62 -> (op = Single -> n = 1) ->
  stop_index op first n start = stop_at first n start.
Proof.
  intros Hf Hs Hb Hop. unfold stop_at. pose proof (block_of_bounds start ltac:(lia)) as Hbl. pose proof block_size_bound. destruct op as [|max]; simpl.
  - specialize (Hop eq_refl). rewrite u64_id by lia. lia.
  - rewrite block_base_first, <- first_of_S by lia. rewrite first_of_S in *.
    rewrite (circular_less_than_spec (first + n)) by lia. rewrite !u64_id by lia. destruct (Z.ltb_spec (first + n) (first_of (block_of start) + BLOCK_SIZE)); lia.
Qed.

(** The flags of [start] to [stop], the last first. *)
Lemma mark_one_spec op first n start j (b : Block A) : has_flags explicit_context = true ->
  0 <= first <= start -> start < first + n -> first + n < 2 ^ 62 -> (op = Single -> n = 1) ->
  0 <= j < stop_at first n start - start ->
  let i := stop_at first n start - 1 - j in
  mark_one op start (stop_at first n start) j b =
    (if flag (BLOCK_SIZE - 1 - in_block i) b then None
     else Some (store_flag (BLOCK_SIZE - 1 - in_block i) true b, negb (j + 1 =? stop_at first n start - start))).
Proof.
  intros Hfl Hf Hs Hb Hop Hj i. unfold mark_one. rewrite Hfl. pose proof (block_of_bounds start ltac:(lia)) as Hbl.
  assert (Hst : start < stop_at first n start <= first_of (block_of start) + BLOCK_SIZE) by (unfold stop_at; rewrite first_of_S in *; lia).
  assert (Hsn : stop_at first n start <= first + n) by (unfold stop_at; lia). pose proof block_size_bound as HB.
  rewrite first_of_S in Hbl. set (stop := stop_at first n start) in *.
  assert (Ei : in_block i = in_block start + (i - start)).
  { assert (Hib : first_of (block_of start) <= i < first_of (block_of start) + BLOCK_SIZE) by (unfold i; lia).
    destruct (block_of_unique i (block_of start) Hib) as [_ ->]. destruct (block_of_unique start (block_of start) Hbl) as [_ ->]. lia. }
  rewrite (u64_id (stop - start)) by lia.
  assert (Ep : match op with Single => flag_of start | Bulk _ => first_flag_of start (stop - start) + j end = BLOCK_SIZE - 1 - in_block i).
  { rewrite Ei. destruct op; unfold flag_of, first_flag_of; [|lia]. specialize (Hop eq_refl). lia. }
  by rewrite Ep.
Qed.

(** *** What a consumer knows *)

Definition range_ok (H : Z) (op : DequeueOp) (first n : Z) : Prop :=
  0 <= first /\ 0 < n /\ first + n <= H /\ (op = Single -> n = 1).

(** In the block index at [h], [slot] is that of the block of [start], and all
    that is to be dequeued has an entry. *)
Definition in_index G (h first n slot start : Z) : Prop :=
  exists g, G !! h = Some g /\ first + n <= first_of (hhi g) /\ slot = slot_in g (block_of start).

Definition in_element (H : Z) bs G op first n h slot start stop b : Prop :=
  range_ok H op first n /\ first <= start < first + n /\ (op = Single -> start = first) /\ in_index G h first n slot start /\
  stop = stop_at first n start /\ bs !! block_of start = Some b.

Definition local_ok (H : Z) bs G (pc : CPc) : Prop :=
  match pc with
  | CTail op | COver op _ | COptimistic op _ _ => op_ok op = true
  | CIndex op first n => range_ok H op first n
  | CFront op first n h => range_ok H op first n /\ exists g, G !! h = Some g /\ first + n <= first_of (hpub g)
  | CBase op first n h f => range_ok H op first n /\
      exists g k, G !! h = Some g /\ first + n <= first_of (k + 1) /\ (k < hhi g)%nat /\ f = slot_in g k
  | CBlock op first n h slot start => range_ok H op first n /\ first <= start < first + n /\ (op = Single -> start = first) /\
      in_index G h first n slot start
  | CMove op first n h slot start index stop b | CDestroy op first n h slot start index stop b =>
      in_element H bs G op first n h slot start stop b /\ start <= index < stop
  | CFlag op first n h slot start stop b j =>
      in_element H bs G op first n h slot start stop b /\ 0 <= j < stop - start
  | _ => True
  end.

Lemma in_index_extends bs G bs' G' h first n slot start : extends bs G bs' G' ->
  in_index G h first n slot start -> in_index G' h first n slot start.
Proof.
  intros [_ He] (g & Hg & Hn & Hs). destruct (He _ _ Hg) as (g' & Hg' & E1 & E2 & Hle & _). exists g'. split; [done|].
  split; [apply first_of_le in Hle; lia|]. unfold slot_in in *. by rewrite E1, E2.
Qed.

Lemma local_extends H H' bs G bs' G' pc : H <= H' -> extends bs G bs' G' -> local_ok H bs G pc -> local_ok H' bs' G' pc.
Proof.
  intros HH He. pose proof (fun h first n slot start => in_index_extends _ _ _ _ h first n slot start He) as Hi.
  destruct He as [Hp He]. assert (Hr : forall op first n, range_ok H op first n -> range_ok H' op first n).
  { unfold range_ok. intros op first n. naive_solver lia. }
  assert (Hel : forall op first n h slot start stop b, in_element H bs G op first n h slot start stop b -> in_element H' bs' G' op first n h slot start stop b).
  { intros op first n h slot start stop b (E1 & E2 & E3 & E4 & E5 & E6). split; [by apply Hr|]. do 2 (split; [done|]).
    split; [by apply Hi|]. split; [done|]. by eapply prefix_lookup_Some. }
  destruct pc; simpl; try done.
  - apply Hr.
  - intros [H1 (g & Hg & Hn)]. split; [by apply Hr|]. destruct (He _ _ Hg) as (g' & Hg' & _ & _ & _ & Hle). exists g'.
    split; [done|]. apply first_of_le in Hle. lia.
  - intros [H1 (g & k & Hg & Hn & Hk & Hf)]. split; [by apply Hr|]. destruct (He _ _ Hg) as (g' & Hg' & E1 & E2 & Hle & _).
    exists g', k. split; [done|]. split; [done|]. split; [lia|]. unfold slot_in in *. by rewrite E1, E2.
  - intros (H1 & H2 & H3 & H4). split; [by apply Hr|]. do 2 (split; [done|]). by apply Hi.
  - intros [H1 H2]. split; [by apply Hel|done].
  - intros [H1 H2]. split; [by apply Hel|done].
  - intros [H1 H2]. split; [by apply Hel|done].
Qed.

Lemma local_destroyed H bs G pc i : local_ok H bs G pc -> i ∈ destroyed pc -> i ∈ holds pc.
Proof.
  destruct pc; simpl; try set_solver.
  - intros [(_ & Hs & _ & _ & -> & _) Hi] Hin. unfold stop_at in *. apply elem_of_seqZ in Hin. apply elem_of_seqZ. lia.
  - intros [(_ & Hs & _ & _ & -> & _) Hi] Hin. unfold stop_at in *. apply elem_of_seqZ in Hin. apply elem_of_seqZ. lia.
Qed.

Lemma local_moved H bs G pc : local_ok H bs G pc -> moved pc ⊆+ holds pc.
Proof.
  destruct pc; simpl; try (intros _; apply submseteq_nil_l).
  - intros [(_ & Hs & _ & _ & -> & _) Hi]. unfold stop_at in Hi. apply seqZ_submseteq; lia.
  - intros [(_ & Hs & _ & _ & -> & _) Hi]. unfold stop_at in Hi. apply seqZ_submseteq; lia.
  - intros _. by apply submseteq_inserts_r.
Qed.

Lemma held_submseteq (f g : CPc -> list Z) cs : (forall t pc, cs !! t = Some pc -> f pc ⊆+ g pc) -> held f cs ⊆+ held g cs.
Proof.
  unfold held. induction cs as [|pc cs IH]; intros Hs; simpl; [done|]. apply submseteq_app; [by apply (Hs 0%nat)|].
  apply IH. intros t pc' Ht. by apply (Hs (Datatypes.S t)).
Qed.

(** An index that a consumer holds and has not destroyed is not destroyed. *)
Lemma not_gone H log cs fin (taken : list (nat * Z * A)) t pc i : elements_ok H log cs fin taken ->
  (forall t pc i, cs !! t = Some pc -> i ∈ destroyed pc -> i ∈ holds pc) -> cs !! t = Some pc -> i ∈ holds pc -> i ∉ destroyed pc -> i ∉ gone fin cs.
Proof.
  intros He Hl Ht Hi Hd Hg. unfold gone in Hg. apply elem_of_app in Hg as [Hg|Hg].
  - by destruct (held_bound _ _ _ _ _ _ _ _ He Ht Hi).
  - destruct (held_update holds cs t pc CIdle Ht) as (rest & E & E'). destruct (held_update destroyed cs t pc CIdle Ht) as (rest' & D & D').
    rewrite D in Hg. apply elem_of_app in Hg as [?|Hg]; [done|]. simpl in D', E'. rewrite <- D' in Hg.
    apply held_of in Hg as (t' & pc' & Ht' & Hg). apply list_lookup_insert_Some in Ht' as [(_ & <- & _)|[Hne Ht']]; [simpl in Hg; set_solver|].
    assert (Hr : i ∈ rest).
    { rewrite <- E'. eapply (held_elem holds _ t' pc').
      - by rewrite list_lookup_insert_ne by done.
      - by eapply Hl. }
    assert (Hn : NoDup (fin ++ held holds cs)) by (rewrite (eo_held _ _ _ _ _ He); apply NoDup_seqZ). rewrite E in Hn.
    apply NoDup_app in Hn as (_ & _ & Hn). apply NoDup_app in Hn as (_ & Hn & _). exact (Hn i Hi Hr).
Qed.

Lemma gone_update fin cs t pc pc' i : cs !! t = Some pc ->
  (i ∈ gone fin (<[t:=pc']> cs) <-> i ∈ destroyed pc' \/ i ∈ gone fin (<[t:=CIdle]> cs)) /\
  (i ∈ gone fin cs <-> i ∈ destroyed pc \/ i ∈ gone fin (<[t:=CIdle]> cs)).
Proof.
  intros Ht. destruct (held_update destroyed cs t pc pc' Ht) as (rest & D & D').
  destruct (held_update destroyed cs t pc CIdle Ht) as (rest2 & D2 & D2'). unfold gone. simpl in D2'. rewrite !elem_of_app, D', D, D2', !elem_of_app.
  assert (Er : rest ≡ₚ rest2) by (apply (Permutation_app_inv_l (destroyed pc)); by rewrite <- D, <- D2). rewrite Er. tauto.
Qed.
End Consumers.

(** ** The invariant *)

Section System.
Context {traits : Traits} `{laws : !TraitsLaws} {A : Type} (garbage : BlockIndexEntry).
Context (flags : has_flags explicit_context = true).
Abbreviation Sys := (System (A := A)).
Implicit Types (bs : list Z) (lo : nat) (G : gmap Z Info) (fin granted rejected : list Z) (y : Sys) (t : nat).

Record inv_with y bs lo G fin granted rejected (H V : Z) : Prop := {
  iv_counts : counts_ok (zlen (enqueued y)) H (claimed y) V (consumers y) granted rejected;
  iv_elements : elements_ok H (enqueued y) (consumers y) fin (taken y);
  iv_memory : memory_ok (zlen (enqueued y)) bs lo G fin (gone fin (consumers y)) (constructed (producer y) (enqueued y))
    (producer y) (state y);
  iv_local : forall t pc, consumers y !! t = Some pc -> local_ok H bs G pc;
  iv_base : tailIndex (producer_base (state y)) = zlen (enqueued y) /\ headIndex (producer_base (state y)) = H /\
    dequeueOptimisticCount (producer_base (state y)) = claimed y /\ dequeueOvercommit (producer_base (state y)) = V
}.

Definition inv y : Prop := exists bs lo G fin granted rejected H V, inv_with y bs lo G fin granted rejected H V.

(** The counters have not reached half of what an index can hold. *)
Definition small y : Prop := zlen (enqueued y) < 2 ^ 62 /\ claimed y < 2 ^ 62.

Lemma memory_ext T bs lo G fin fin' gone gone' (log : list A) pc s : (forall i, i ∈ gone <-> i ∈ gone') -> fin = fin' ->
  memory_ok T bs lo G fin gone log pc s -> memory_ok T bs lo G fin' gone' log pc s.
Proof.
  intros Hg <- [H1 H2 H3 H4 H5 [H6 H6'] H7 H8 H9 H10]. split; try done.
  - intros k p Hk Hp. destruct (H4 k p Hk Hp) as (b & Hb & [B1 B2 B3 B4 B5]). exists b. split; [done|]. split; try done.
    intros o Ho. rewrite B2 by done. f_equal. unfold cell. by rewrite (decide_ext _ _ _ _ (Hg (first_of k + o))).
  - split; intros i Hi; [by apply Hg, H6|by apply H6', Hg].
Qed.

Lemma memory_on_base T bs lo G fin gone (log : list A) pc s f : (forall b, tailBlock (f b) = tailBlock b) ->
  memory_ok T bs lo G fin gone log pc s -> memory_ok T bs lo G fin gone log pc (on_base f s).
Proof. intros Hf [H1 H2 H3 H4 H5 H6 H7 H8 H9 H10]. split; try done. simpl. by rewrite Hf. Qed.

(** What a step of a consumer leads to. *)
Definition after y t pc' s' (out : list (nat * Z * A)) (d : Z) : Sys :=
  MkSystem s' (producer y) (<[t:=pc']> (consumers y)) (enqueued y) (taken y ++ out) (claimed y + d).

Context (y : Sys) (bs : list Z) (lo : nat) (G : gmap Z Info) (fin granted rejected : list Z) (H V : Z) (t : nat).
Context (Hinv : inv_with y bs lo G fin granted rejected H V) (Hsmall : small y).

Lemma counts_bounds : 0 <= H <= zlen (enqueued y) /\ 0 <= zlen rejected <= claimed y.
Proof.
  pose proof (iv_counts _ _ _ _ _ _ _ _ _ Hinv) as Hc. split; [by eapply head_bound|]. split; [apply zlen_nonneg|].
  pose proof (co_claims _ _ _ _ _ _ _ Hc) as Hp. apply Permutation_length in Hp. rewrite !length_app, length_seqZ in Hp.
  destruct (co_nonneg _ _ _ _ _ _ _ Hc) as (_ & _ & HO & _). unfold zlen. lia.
Qed.

(** A step that destroys and finishes nothing. *)
Lemma inv_plain pc pc' f out d fin' granted' rejected' H' V' :
  consumers y !! t = Some pc ->
  counts_ok (zlen (enqueued y)) H' (claimed y + d) V' (<[t:=pc']> (consumers y)) granted' rejected' ->
  elements_ok H' (enqueued y) (<[t:=pc']> (consumers y)) fin (taken y ++ out) ->
  destroyed pc' = destroyed pc -> fin' = fin ->
  (forall b, tailBlock (f b) = tailBlock b /\ tailIndex (f b) = tailIndex b) ->
  headIndex (f (producer_base (state y))) = H' -> dequeueOptimisticCount (f (producer_base (state y))) = claimed y + d ->
  dequeueOvercommit (f (producer_base (state y))) = V' -> H <= H' -> local_ok H' bs G pc' ->
  inv_with (after y t pc' (on_base f (state y)) out d) bs lo G fin' granted' rejected' H' V'.
Proof.
  intros Ht Hc He Ed -> Hf E1 E2 E3 HH Hl. split; simpl; try done.
  - apply memory_on_base; [apply Hf|]. eapply memory_ext; [|reflexivity|apply (iv_memory _ _ _ _ _ _ _ _ _ Hinv)].
    intros i. destruct (gone_update fin (consumers y) t pc pc' i Ht) as [-> ->]. by rewrite Ed.
  - intros t' pc0 Ht'. apply list_lookup_insert_Some in Ht' as [(_ & <- & _)|[_ Ht']]; [done|].
    eapply local_extends; [exact HH|apply extends_refl|]. by apply (iv_local _ _ _ _ _ _ _ _ _ Hinv t').
  - destruct (iv_base _ _ _ _ _ _ _ _ _ Hinv) as [E0 _]. destruct (Hf (producer_base (state y))) as [_ ->]. done.
Qed.

Lemma on_base_id (s : ExplicitProducer A) : on_base (fun b => b) s = s.
Proof. by destruct s. Qed.

(** A step that only moves on, with the same counts and elements. *)
Lemma inv_local pc pc' : consumers y !! t = Some pc ->
  claimed_at pc' = claimed_at pc -> pending pc' = pending pc -> excess_of pc' = excess_of pc -> over_ok rejected pc' ->
  holds pc' = holds pc -> moved pc' = moved pc -> destroyed pc' = destroyed pc -> frontier H pc <= frontier H pc' -> local_ok H bs G pc' ->
  inv_with (after y t pc' (state y) [] 0) bs lo G fin granted rejected H V.
Proof.
  intros Ht E1 E2 E3 Ho E4 E5 E6 Hf Hl. rewrite <- (on_base_id (state y)).
  destruct (iv_base _ _ _ _ _ _ _ _ _ Hinv) as (B1 & B2 & B3 & B4).
  eapply (inv_plain pc); try done.
  - rewrite Z.add_0_r. eapply counts_move; [apply (iv_counts _ _ _ _ _ _ _ _ _ Hinv)|done..].
  - rewrite app_nil_r. eapply elements_move; [apply (iv_elements _ _ _ _ _ _ _ _ _ Hinv)|done|done| | |apply counts_bounds|done].
    + rewrite E4, Z.sub_diag, app_nil_r. done.
    + by rewrite E5.
  - by rewrite B3, Z.add_0_r.
Qed.

(** A step on the counts. *)
Lemma inv_counts pc pc' f d granted' rejected' V' : consumers y !! t = Some pc ->
  holds pc = [] -> moved pc = [] -> destroyed pc = [] -> holds pc' = [] -> moved pc' = [] -> destroyed pc' = [] ->
  frontier H pc = H -> frontier H pc' = H ->
  counts_ok (zlen (enqueued y)) H (claimed y + d) V' (<[t:=pc']> (consumers y)) granted' rejected' ->
  (forall b, tailBlock (f b) = tailBlock b /\ tailIndex (f b) = tailIndex b /\ headIndex (f b) = headIndex b) ->
  dequeueOptimisticCount (f (producer_base (state y))) = claimed y + d ->
  dequeueOvercommit (f (producer_base (state y))) = V' -> local_ok H bs G pc' ->
  inv_with (after y t pc' (on_base f (state y)) [] d) bs lo G fin granted' rejected' H V'.
Proof.
  intros Ht Eh Em Ed Eh' Em' Ed' Ef Ef' Hc Hf E2 E3 Hl. destruct (iv_base _ _ _ _ _ _ _ _ _ Hinv) as (B1 & B2 & B3 & B4).
  eapply (inv_plain pc); try done.
  - rewrite app_nil_r. eapply elements_move; [apply (iv_elements _ _ _ _ _ _ _ _ _ Hinv)|done|done| | |apply counts_bounds|lia].
    + by rewrite Eh, Eh', Z.sub_diag.
    + by rewrite Em, Em'.
  - congruence.
  - intros b. by destruct (Hf b) as (? & ? & ?).
  - by destruct (Hf (producer_base (state y))) as (_ & _ & ->).
Qed.

(** The tail is at most a block before the end of the last one. *)
Lemma length_bound : first_of (length bs) <= zlen (enqueued y) + BLOCK_SIZE.
Proof.
  pose proof (mo_phase _ _ _ _ _ _ _ _ _ (iv_memory _ _ _ _ _ _ _ _ _ Hinv)) as Hp. pose proof block_size_bound.
  destruct (producer y); simpl in Hp; unfold at_end, in_last in Hp; try destruct new; lia.
Qed.

(** *** Each step of a consumer *)

(** What a step is to establish, as long as the counters are small. *)
Definition consumes pc : Prop := exists pc' s' out d, consumer_step pc (state y) = Some (pc', s', out) /\ claims_of pc = d /\
  (claimed y + d < 2 ^ 62 -> exists fin' granted' rejected' H' V',
     inv_with (after y t pc' s' (match out with Some (i, v) => [(t, i, v)] | None => [] end) d) bs lo G fin' granted' rejected' H' V').

Lemma consumes_local pc pc' : consumers y !! t = Some pc -> consumer_step pc (state y) = Some (pc', state y, None) -> claims_of pc = 0 ->
  claimed_at pc' = claimed_at pc -> pending pc' = pending pc -> excess_of pc' = excess_of pc -> over_ok rejected pc' ->
  holds pc' = holds pc -> moved pc' = moved pc -> destroyed pc' = destroyed pc -> frontier H pc <= frontier H pc' -> local_ok H bs G pc' ->
  consumes pc.
Proof.
  intros Ht Es Ed E1 E2 E3 Ho E4 E5 E6 Hf Hl. exists pc', (state y), None, 0. split; [done|]. split; [done|]. intros _.
  exists fin, granted, rejected, H, V. by apply (inv_local pc).
Qed.

Lemma consume_tail op : consumers y !! t = Some (CTail op) -> consumes (CTail op).
Proof. intros Ht. apply (consumes_local _ (COver op (tailIndex (producer_base (state y))))); try done. exact (iv_local _ _ _ _ _ _ _ _ _ Hinv _ _ Ht). Qed.

Lemma consume_over op tail : consumers y !! t = Some (COver op tail) -> consumes (COver op tail).
Proof.
  intros Ht. apply (consumes_local _ (COptimistic op tail (dequeueOvercommit (producer_base (state y))))); try done.
  - destruct (iv_base _ _ _ _ _ _ _ _ _ Hinv) as (_ & _ & _ & ->). pose proof (iv_counts _ _ _ _ _ _ _ _ _ Hinv) as [_ _ E _ _ (_ & ? & _)].
    simpl. lia.
  - exact (iv_local _ _ _ _ _ _ _ _ _ Hinv _ _ Ht).
Qed.

Lemma consume_optimistic op tail over : consumers y !! t = Some (COptimistic op tail over) -> consumes (COptimistic op tail over).
Proof.
  intros Ht. set (o := dequeueOptimisticCount (producer_base (state y))).
  destruct (desired_nonneg op tail over o (iv_local _ _ _ _ _ _ _ _ _ Hinv _ _ Ht)) as [Hd Hs].
  pose proof (co_over _ _ _ _ _ _ _ (iv_counts _ _ _ _ _ _ _ _ _ Hinv) _ _ Ht) as Hov. simpl in Hov.
  apply (consumes_local _ (if desired_count op tail over o =? 0 then CIdle else CClaim op over (desired_count op tail over o))); try done;
    destruct (Z.eqb_spec (desired_count op tail over o) 0); simpl; try done.
  split; [done|]. split; [lia|]. intros E. specialize (Hs E). lia.
Qed.

Lemma consume_claim op over desired : consumers y !! t = Some (CClaim op over desired) -> consumes (CClaim op over desired).
Proof.
  intros Ht. destruct (iv_base _ _ _ _ _ _ _ _ _ Hinv) as (B1 & B2 & B3 & B4).
  pose proof (co_over _ _ _ _ _ _ _ (iv_counts _ _ _ _ _ _ _ _ _ Hinv) _ _ Ht) as (_ & Hd & _).
  eexists _, _, _, desired. split; [reflexivity|]. split; [done|]. intros Hc. exists fin, granted, rejected, H, V.
  apply (inv_counts (CClaim op over desired)); try done.
  - rewrite B3. apply counts_claim; [apply (iv_counts _ _ _ _ _ _ _ _ _ Hinv)|done].
  - simpl. rewrite B3. apply u64_id. pose proof counts_bounds. lia.
Qed.

Lemma consume_recheck op over desired mine : consumers y !! t = Some (CRecheck op over desired mine) -> consumes (CRecheck op over desired mine).
Proof.
  intros Ht. destruct (iv_base _ _ _ _ _ _ _ _ _ Hinv) as (B1 & B2 & B3 & B4).
  pose proof (iv_counts _ _ _ _ _ _ _ _ _ Hinv) as Hc. pose proof (co_over _ _ _ _ _ _ _ Hc _ _ Ht) as (Hov & Hd & Hm & Hop).
  pose proof counts_bounds as [HH Hr]. destruct Hsmall as [HT HO].
  assert (Hrm : rej_below mine rejected <= zlen rejected).
  { unfold rej_below, zlen. apply inj_le, submseteq_length, sublist_submseteq, sublist_filter. }
  assert (Hmine : mine < claimed y).
  { assert (Hin : mine ∈ seqZ 0 (claimed y)).
    { rewrite <- (co_claims _ _ _ _ _ _ _ Hc). apply elem_of_app. right. apply elem_of_app. right.
      eapply held_elem; [exact Ht|]. simpl. apply elem_of_seqZ. lia. }
    apply elem_of_seqZ in Hin. lia. }
  destruct (actual_bound op (zlen (enqueued y)) over desired mine) as [Ha Hb]; [lia..|done|].
  eexists _, _, _, 0. split; [reflexivity|]. split; [done|]. intros _. rewrite B1.
  destruct (counts_decide _ _ _ _ _ _ _ _ _ _ _ _ _ _ Hc Ht Ha Hb eq_refl) as (granted' & rejected' & Hc' & _).
  set (a := actual_count _ _ _ _ _) in *. exists fin, granted', rejected', H, V. rewrite <- (on_base_id (state y)).
  apply (inv_counts (CRecheck op over desired mine)); try done; try (by destruct (a <? desired)).
  - by rewrite Z.add_0_r.
  - by rewrite B3, Z.add_0_r.
Qed.

Lemma consume_give_back op excess n : consumers y !! t = Some (CGiveBack op excess n) -> consumes (CGiveBack op excess n).
Proof.
  intros Ht. destruct (iv_base _ _ _ _ _ _ _ _ _ Hinv) as (B1 & B2 & B3 & B4).
  pose proof (iv_counts _ _ _ _ _ _ _ _ _ Hinv) as Hc. pose proof counts_bounds as [HH Hr]. destruct Hsmall as [HT HO].
  pose proof (sum_list_with_lookup excess_of _ _ _ Ht) as He. simpl in He. pose proof (co_rejected _ _ _ _ _ _ _ Hc) as Hrej.
  pose proof (co_over _ _ _ _ _ _ _ Hc _ _ Ht) as (Hex & _).
  destruct (co_nonneg _ _ _ _ _ _ _ Hc) as (_ & HV & _).
  eexists _, _, _, 0. split; [reflexivity|]. split; [done|]. intros _. exists fin, granted, rejected, H, (V + excess).
  apply (inv_counts (CGiveBack op excess n)); try done; try (by destruct (n =? 0)).
  - rewrite Z.add_0_r. by eapply counts_give_back.
  - simpl. by rewrite B3, Z.add_0_r.
  - simpl. rewrite B4. apply u64_id. lia.
Qed.

Lemma consume_take op n : consumers y !! t = Some (CTake op n) -> consumes (CTake op n).
Proof.
  intros Ht. destruct (iv_base _ _ _ _ _ _ _ _ _ Hinv) as (B1 & B2 & B3 & B4).
  pose proof (iv_counts _ _ _ _ _ _ _ _ _ Hinv) as Hc. pose proof counts_bounds as [HH Hr]. destruct Hsmall as [HT HO].
  pose proof (co_over _ _ _ _ _ _ _ Hc _ _ Ht) as (Hn & Hop). pose proof (counts_take _ _ _ _ _ _ _ _ H _ _ Hc Ht) as Hc'.
  pose proof (head_bound _ _ _ _ _ _ _ Hc') as Hb.
  eexists _, _, _, 0. split; [reflexivity|]. split; [done|]. intros _. exists fin, granted, rejected, (H + n), V. rewrite B2.
  apply (inv_plain (CTake op n)); try done.
  - rewrite Z.add_0_r. exact Hc'.
  - rewrite app_nil_r. eapply elements_move; [apply (iv_elements _ _ _ _ _ _ _ _ _ Hinv)|done|lia| |done|lia|simpl; lia].
    simpl. by replace (H + n - H) with n by lia.
  - simpl. apply u64_id. lia.
  - simpl. by rewrite B3, Z.add_0_r.
  - lia.
  - simpl. split; [lia|]. split; [lia|]. by split; [lia|].
Qed.

Lemma consume_index op first n : consumers y !! t = Some (CIndex op first n) -> consumes (CIndex op first n).
Proof.
  intros Ht. apply (consumes_local _ (CFront op first n (blockIndex (state y)))); try done.
  pose proof (iv_local _ _ _ _ _ _ _ _ _ Hinv _ _ Ht) as Hr. destruct Hr as (Hf & Hn & HnH & Hop). split; [done|].
  pose proof counts_bounds as [HH _]. pose proof (iv_memory _ _ _ _ _ _ _ _ _ Hinv) as Hm.
  destruct (mo_index _ _ _ _ _ _ _ _ _ Hm) as (_ & _ & _ & _ & Hi). pose proof (mo_phase _ _ _ _ _ _ _ _ _ Hm) as Hp.
  assert (Hbs : bs <> []).
  { intros ->. pose proof block_size_bound. destruct (producer y); simpl in Hp; unfold at_end, in_last, first_of in Hp; simpl in Hp; try destruct new; lia. }
  destruct (decide (blockIndex (state y) = 0)); [done|]. destruct Hi as (g & Hg & _ & _ & Hpub & _). exists g. split; [done|].
  rewrite Hpub. assert (Hlen : (0 < length bs)%nat) by (destruct bs; [done|simpl; lia]). pose proof (first_of_pred (length bs) Hlen) as Ef.
  destruct (producer y); simpl in Hp |- *; rewrite ?Nat.sub_0_r; unfold at_end, in_last in Hp; try destruct new; simpl; rewrite ?Nat.sub_0_r; try lia.
Qed.

(** What is held is in the ring. *)
Lemma held_in_ring pc i : consumers y !! t = Some pc -> i ∈ holds pc -> first_of lo <= i < H /\ i ∉ fin.
Proof.
  intros Ht Hi. destruct (held_bound _ _ _ _ _ _ _ _ (iv_elements _ _ _ _ _ _ _ _ _ Hinv) Ht Hi) as [Hb Hf]. split; [|done].
  split; [|lia]. destruct (Z.le_gt_cases (first_of lo) i) as [|Hlt]; [done|]. destruct Hf.
  apply (mo_old _ _ _ _ _ _ _ _ _ (iv_memory _ _ _ _ _ _ _ _ _ Hinv)). lia.
Qed.

Lemma header_at h g : G !! h = Some g -> exists hd, headers (state y) !! h = Some hd /\ header_ok bs lo g hd.
Proof. apply (mo_headers _ _ _ _ _ _ _ _ _ (iv_memory _ _ _ _ _ _ _ _ _ Hinv)). Qed.

Lemma consume_front op first n h : consumers y !! t = Some (CFront op first n h) -> consumes (CFront op first n h).
Proof.
  intros Ht. pose proof (iv_local _ _ _ _ _ _ _ _ _ Hinv _ _ Ht) as [Hr (g & Hg & Hn)]. pose proof Hr as (Hf & Hn0 & HnH & Hop).
  destruct (header_at h g Hg) as (hd & Hhd & Hok). destruct (held_in_ring _ first Ht) as [Hlo _]; [simpl; apply elem_of_seqZ; lia|].
  assert (Hl : (lo < hpub g)%nat) by (apply first_of_lt; lia). pose proof (ho_order _ _ _ _ Hok) as Ho.
  apply (consumes_local _ (CBase op first n h (front hd))); try done.
  - simpl. by rewrite Hhd.
  - split; [done|]. exists g, (hpub g - 1)%nat. split; [done|]. replace (hpub g - 1 + 1)%nat with (hpub g) by lia.
    split; [done|]. split; [lia|]. by apply (ho_front _ _ _ _ Hok).
Qed.

Lemma consume_base op first n h f : consumers y !! t = Some (CBase op first n h f) -> consumes (CBase op first n h f).
Proof.
  intros Ht. pose proof (iv_local _ _ _ _ _ _ _ _ _ Hinv _ _ Ht) as [Hr (g & k & Hg & Hn & Hk & ->)]. pose proof Hr as (Hf & Hn0 & HnH & Hop).
  destruct (header_at h g Hg) as (hd & Hhd & Hok). destruct (held_in_ring _ first Ht) as [Hlo _]; [simpl; apply elem_of_seqZ; lia|].
  pose proof (ho_order _ _ _ _ Hok) as Ho. destruct (ho_size _ _ _ _ Hok) as [Es Hj].
  pose proof length_bound as Hlen. destruct Hsmall as [HT _]. pose proof block_size_bound.
  assert (Hfk : first_of k <= first_of (length bs)) by (apply first_of_le; lia).
  assert (Hlk : (lo <= k)%nat). { assert ((lo < k + 1)%nat) by (apply first_of_lt; lia). lia. }
  destruct (lookup_lt_is_Some_2 bs k ltac:(lia)) as [p Hp].
  apply (consumes_local _ (CBlock op first n h (slot_in g (block_of first)) first)); try done.
  - simpl. rewrite Hhd. cbn [mbind option_bind]. rewrite (ho_entries _ _ _ _ Hok k p) by done. cbn [mbind option_bind base].
    rewrite Es, entry_slot_spec; [done|done|lia| |lia]. apply Nat.lt_succ_r. rewrite <- Nat.add_1_r. apply block_of_below. lia.
  - simpl. by replace (first + n - first) with n by lia.
  - split; [done|]. split; [lia|]. split; [done|]. exists g. split; [done|]. split; [|done].
    assert (first_of (k + 1) <= first_of (hhi g)) by (apply first_of_le; lia). lia.
Qed.

Lemma consume_block op first n h slot start : consumers y !! t = Some (CBlock op first n h slot start) -> consumes (CBlock op first n h slot start).
Proof.
  intros Ht. pose proof (iv_local _ _ _ _ _ _ _ _ _ Hinv _ _ Ht) as (Hr & Hst & Hs1 & g & Hg & Hn & ->). pose proof Hr as (Hf & Hn0 & HnH & Hop).
  destruct (header_at h g Hg) as (hd & Hhd & Hok). destruct (held_in_ring _ start Ht) as [Hlo _]; [simpl; apply elem_of_seqZ; lia|].
  pose proof (ho_order _ _ _ _ Hok) as Ho. pose proof counts_bounds as [HH _]. destruct Hsmall as [HT _].
  pose proof (block_of_bounds start ltac:(lia)) as Hbl.
  assert (Hk : (block_of start < hhi g)%nat) by (apply block_of_below; lia).
  assert (Hlk : (lo <= block_of start)%nat). { assert ((lo < block_of start + 1)%nat) by (apply first_of_lt; lia). lia. }
  destruct (lookup_lt_is_Some_2 bs (block_of start) ltac:(lia)) as [p Hp].
  apply (consumes_local _ (CMove op first n h (slot_in g (block_of start)) start start (stop_at first n start) p)); try done.
  - simpl. rewrite Hhd. cbn [mbind option_bind]. rewrite (ho_entries _ _ _ _ Hok _ p) by done. cbn [mbind option_bind block].
    by rewrite stop_index_spec by (done || lia).
  - simpl. by rewrite Z.sub_diag.
  - simpl. by rewrite Z.sub_diag.
  - split; [|unfold stop_at; lia]. split; [done|]. split; [done|]. split; [done|]. split; [|done]. by exists g.
Qed.

(** The block of an element that a consumer is at. *)
Lemma element_block op first n h slot start stop b index : in_element H bs G op first n h slot start stop b -> start <= index < stop ->
  first_of lo <= start ->
  exists c, blocks (state y) !! b = Some c /\ (lo <= block_of start)%nat /\
    block_ok bs lo fin (gone fin (consumers y)) (constructed (producer y) (enqueued y))
      (resetting (producer y) && bool_decide (block_of start + 1 = length bs)%nat) (block_of start) c /\
    first_of (block_of start) <= index < first_of (block_of start) + BLOCK_SIZE /\ in_block index = index - first_of (block_of start) /\
    0 <= index < H.
Proof.
  intros (Hr & Hst & _ & _ & Estop & Hb) Hi Hlo. pose proof Hr as (Hf & Hn0 & HnH & _). pose proof (block_of_bounds start ltac:(lia)) as Hbl.
  assert (Hlk : (lo <= block_of start)%nat). { assert ((lo < block_of start + 1)%nat) by (apply first_of_lt; lia). lia. }
  destruct (mo_blocks _ _ _ _ _ _ _ _ _ (iv_memory _ _ _ _ _ _ _ _ _ Hinv) _ _ Hlk Hb) as (c & Hc & Hok).
  assert (Hib : first_of (block_of start) <= index < first_of (block_of start) + BLOCK_SIZE).
  { unfold stop_at in Estop. rewrite first_of_S in *. lia. }
  exists c. split; [done|]. split; [done|]. split; [done|]. split; [done|]. split; [by apply block_of_unique|].
  unfold stop_at in Estop. lia.
Qed.

Lemma constructed_prefix pc (log : list A) : log `prefix_of` constructed pc log.
Proof. destruct pc; simpl; try done. by apply prefix_app_r. Qed.

Lemma consume_move op first n h slot start index stop b : consumers y !! t = Some (CMove op first n h slot start index stop b) ->
  consumes (CMove op first n h slot start index stop b).
Proof.
  intros Ht. pose proof (iv_local _ _ _ _ _ _ _ _ _ Hinv _ _ Ht) as [Hel Hi]. pose proof Hel as (Hr & Hst & Hs1 & Hidx & Estop & Hb).
  assert (Hh : index ∈ holds (CMove op first n h slot start index stop b)).
  { simpl. apply elem_of_seqZ. unfold stop_at in Estop. lia. }
  destruct (held_in_ring _ start Ht) as [Hlo _]; [simpl; apply elem_of_seqZ; lia|].
  destruct (element_block _ _ _ _ _ _ _ _ _ Hel Hi ltac:(lia)) as (c & Hc & Hlk & [B1 B2 B3 B4 B5] & Hib & Eib & HiH).
  pose proof counts_bounds as [HH _].
  assert (Hng : index ∉ gone fin (consumers y)).
  { eapply not_gone; [apply (iv_elements _ _ _ _ _ _ _ _ _ Hinv)| |exact Ht|done|].
    { intros t' pc' i' Ht'. eapply local_destroyed. by apply (iv_local _ _ _ _ _ _ _ _ _ Hinv t'). }
    simpl. rewrite elem_of_seqZ. lia. }
  destruct (lookup_lt_is_Some_2 (enqueued y) (Z.to_nat index)) as [v Hv]; [unfold zlen in *; lia|].
  assert (Hcell : element index c = Some (Some v)).
  { unfold element. rewrite B2 by apply in_block_bound. f_equal. unfold cell. rewrite Eib.
    replace (first_of (block_of start) + (index - first_of (block_of start))) with index by lia.
    rewrite decide_False by done. eapply prefix_lookup_Some; [exact Hv|apply constructed_prefix]. }
  exists (CDestroy op first n h slot start index stop b), (state y), (Some (index, v)), 0.
  split; [simpl; rewrite Hc; cbn [mbind option_bind]; by rewrite Hcell|]. split; [done|]. intros _.
  exists fin, granted, rejected, H, V. rewrite <- (on_base_id (state y)). destruct (iv_base _ _ _ _ _ _ _ _ _ Hinv) as (E1 & E2 & E3 & E4).
  apply (inv_plain (CMove op first n h slot start index stop b)); try done.
  - rewrite Z.add_0_r. eapply counts_move; [apply (iv_counts _ _ _ _ _ _ _ _ _ Hinv)|exact Ht|done..].
  - apply elements_take; [apply (iv_elements _ _ _ _ _ _ _ _ _ Hinv)|done|lia|lia|done].
  - by rewrite E3, Z.add_0_r.
Qed.

(** A step that changes the memory of one element. *)
Lemma inv_element pc pc' p b' fin' :
  consumers y !! t = Some pc -> claimed_at pc' = claimed_at pc -> pending pc' = pending pc -> excess_of pc' = excess_of pc ->
  over_ok rejected pc' -> local_ok H bs G pc' ->
  elements_ok H (enqueued y) (<[t:=pc']> (consumers y)) fin' (taken y) ->
  memory_ok (zlen (enqueued y)) bs lo G fin' (gone fin' (<[t:=pc']> (consumers y))) (constructed (producer y) (enqueued y)) (producer y)
    (set_blocks (<[p:=b']> (blocks (state y))) (state y)) ->
  inv_with (after y t pc' (set_blocks (<[p:=b']> (blocks (state y))) (state y)) [] 0) bs lo G fin' granted rejected H V.
Proof.
  intros Ht E1 E2 E3 Ho Hl He Hm. split; simpl.
  - rewrite Z.add_0_r. eapply counts_move; [apply (iv_counts _ _ _ _ _ _ _ _ _ Hinv)|exact Ht|done..].
  - by rewrite app_nil_r.
  - done.
  - intros t' pc0 Ht'. apply list_lookup_insert_Some in Ht' as [(_ & <- & _)|[_ Ht']]; [done|].
    by apply (iv_local _ _ _ _ _ _ _ _ _ Hinv t').
  - rewrite Z.add_0_r. exact (iv_base _ _ _ _ _ _ _ _ _ Hinv).
Qed.

Lemma consume_destroy op first n h slot start index stop b : consumers y !! t = Some (CDestroy op first n h slot start index stop b) ->
  consumes (CDestroy op first n h slot start index stop b).
Proof.
  intros Ht. pose proof (iv_local _ _ _ _ _ _ _ _ _ Hinv _ _ Ht) as [Hel Hi]. pose proof Hel as (Hr & Hst & Hs1 & Hidx & Estop & Hb).
  destruct (held_in_ring _ start Ht) as [Hlo _]; [simpl; apply elem_of_seqZ; lia|].
  assert (Hsf : stop <= first + n) by (unfold stop_at in Estop; lia).
  destruct (held_in_ring _ index Ht) as [_ Hnf]; [simpl; apply elem_of_seqZ; lia|].
  destruct (element_block _ _ _ _ _ _ _ _ _ Hel Hi ltac:(lia)) as (c & Hc & Hlk & [B1 B2 B3 B4 B5] & Hib & Eib & HiH).
  pose proof counts_bounds as [HH _]. destruct Hsmall as [HT _].
  set (pc' := if index + 1 =? stop then CFlag op first n h slot start stop b 0 else CMove op first n h slot start (index + 1) stop b).
  exists pc', (set_blocks (<[b:=set_element index None c]> (blocks (state y))) (state y)), None, 0.
  split. { simpl. unfold on_block. rewrite Hc. cbn [mbind option_bind]. by rewrite u64_id by lia. }
  split; [done|]. intros _. exists fin, granted, rejected, H, V.
  assert (Hpc : destroyed pc' = seqZ start (index + 1 - start) /\ moved pc' = seqZ start (index + 1 - start)).
  { unfold pc'. destruct (Z.eqb_spec (index + 1) stop) as [<-|]; simpl; [|done]. by rewrite Z.sub_0_r. }
  destruct Hpc as [Ed Em]. assert (Hdest : forall i, i ∈ destroyed pc' <-> i = index \/ i ∈ seqZ start (index - start)).
  { intros i. rewrite Ed, !elem_of_seqZ. lia. }
  assert (Hgone : forall i, i ∈ gone fin (<[t:=pc']> (consumers y)) <-> i = index \/ i ∈ gone fin (consumers y)).
  { intros i. destruct (gone_update fin (consumers y) t _ pc' i Ht) as [-> ->]. rewrite Hdest. simpl. tauto. }
  apply (inv_element (CDestroy op first n h slot start index stop b)); try done; try (unfold pc'; by destruct (index + 1 =? stop)).
  - unfold pc'. destruct (Z.eqb_spec (index + 1) stop); simpl; (split; [done|lia]).
  - eapply elements_move; [apply (iv_elements _ _ _ _ _ _ _ _ _ Hinv)|exact Ht|done| |by rewrite Em|lia|].
    + rewrite Z.sub_diag, app_nil_r. unfold pc'. destruct (Z.eqb_spec (index + 1) stop) as [<-|]; simpl; [|done].
      rewrite Z.sub_0_r. f_equiv.
      replace (first + n - start) with ((index + 1 - start) + (first + n - (index + 1))) by lia. rewrite seqZ_split by lia.
      by replace (start + (index + 1 - start)) with (index + 1) by lia.
    + unfold pc'. destruct (Z.eqb_spec (index + 1) stop) as [<-|]; simpl; lia.
  - eapply (memory_consume _ _ _ _ fin (gone fin (consumers y)) _ _ _ _ _ (block_of start) b c _ index);
      [apply (iv_memory _ _ _ _ _ _ _ _ _ Hinv)|done|done|done|lia|done| |done| |done| |done| | |].
    + intros i Hne. split; [done|]. rewrite Hgone. naive_solver.
    + intros Hin. by destruct Hnf.
    + simpl. apply length_insert.
    + intros o Ho Hne. split; [|done]. simpl. rewrite Eib, list_lookup_insert_ne by lia. done.
    + simpl. rewrite Eib, list_lookup_insert_eq by lia. f_equal. unfold cell. rewrite decide_True; [done|]. apply Hgone. by left.
    + unfold set_element, flag. simpl. fold (flag (BLOCK_SIZE - 1 - (index - first_of (block_of start))) c).
      destruct (resetting (producer y) && bool_decide (block_of start + 1 = length bs)%nat) eqn:Er.
      * exfalso. apply andb_true_iff in Er as [Er1 Er2]. apply bool_decide_eq_true in Er2.
        pose proof (mo_phase _ _ _ _ _ _ _ _ _ (iv_memory _ _ _ _ _ _ _ _ _ Hinv)) as Hp.
        destruct (producer y); try done. destruct new; [done|]. destruct Hp as (_ & HTe & _). rewrite <- Er2, first_of_S in HTe. lia.
      * rewrite (B4 eq_refl) by lia. by replace (first_of (block_of start) + (index - first_of (block_of start))) with index by lia.
Qed.

(** The block that follows in a bulk. *)
Lemma next_block_spec g op first n h start stop : (exists j, 0 <= j <= 62 /\ hsize g = 2 ^ j) ->
  range_ok H op first n -> first <= start < first + n -> (op = Single -> start = first) -> stop = stop_at first n start -> first + n < 2 ^ 62 ->
  next_block op first n h (slot_in g (block_of start)) stop (hsize g) =
    (if decide (stop = first + n) then CIdle else CBlock op first n h (slot_in g (block_of stop)) stop).
Proof.
  intros Hj (Hf & Hn & _ & Hop) Hst Hs1 Estop Hb. pose proof (block_of_bounds start ltac:(lia)) as Hbl. unfold stop_at in Estop.
  destruct op as [|max]; simpl.
  - specialize (Hop eq_refl). specialize (Hs1 eq_refl). by rewrite decide_True by lia.
  - rewrite u64_id by lia. destruct (Z.eqb_spec stop (first + n)) as [E|E]; [by rewrite decide_True|]. rewrite decide_False by done.
    f_equal. rewrite next_slot_in by done. f_equal. pose proof block_size_bound.
    destruct (block_of_unique stop (block_of start + 1)) as [<- _]; [lia|done].
Qed.

(** The flag of the block of an element says whether it is finished. *)
Lemma flag_finished k i c : 0 <= i < H ->
  block_ok bs lo fin (gone fin (consumers y)) (constructed (producer y) (enqueued y))
    (resetting (producer y) && bool_decide (k + 1 = length bs)%nat) k c ->
  first_of k <= i < first_of k + BLOCK_SIZE -> flag (BLOCK_SIZE - 1 - (i - first_of k)) c = bool_decide (i ∈ fin).
Proof.
  intros HiH [B1 B2 B3 B4 B5] Hi. pose proof counts_bounds as [HH _].
  destruct (resetting (producer y) && bool_decide (k + 1 = length bs)%nat) eqn:Er.
  - exfalso. apply andb_true_iff in Er as [Er1 Er2]. apply bool_decide_eq_true in Er2.
    pose proof (mo_phase _ _ _ _ _ _ _ _ _ (iv_memory _ _ _ _ _ _ _ _ _ Hinv)) as Hp.
    destruct (producer y); try done. destruct new; [done|]. destruct Hp as (_ & HTe & _). rewrite <- Er2, first_of_S in HTe. lia.
  - rewrite (B4 eq_refl) by lia. by replace (first_of k + (i - first_of k)) with i by lia.
Qed.

(** A consumer after it has set a flag. *)
Definition flagged op first n h slot slot' start stop b j : CPc :=
  if decide (j + 1 = stop - start) then
    if decide (stop = first + n) then CIdle else CBlock op first n h slot' stop
  else CFlag op first n h slot start stop b (j + 1).

Lemma flagged_spec op first n h slot slot' start stop b j : range_ok H op first n -> start < stop <= first + n -> 0 <= j < stop - start ->
  let pc' := flagged op first n h slot slot' start stop b j in
  claimed_at pc' = [] /\ pending pc' = 0%nat /\ excess_of pc' = 0%nat /\ over_ok rejected pc' /\
  holds pc' = seqZ start (stop - start - (j + 1)) ++ seqZ stop (first + n - stop) /\
  moved pc' = seqZ start (stop - start - (j + 1)) /\ destroyed pc' = seqZ start (stop - start - (j + 1)) /\ stop <= frontier H pc'.
Proof.
  intros (_ & _ & HnH & _) Hs Hj pc'. unfold pc', flagged. destruct (decide (j + 1 = stop - start)) as [E|E]; simpl; [|by split_and!].
  rewrite <- E, Z.sub_diag. destruct (decide (stop = first + n)) as [->|]; simpl; split_and!; try done. by rewrite Z.sub_diag.
Qed.

Lemma flagged_local op first n h g slot start stop b j : G !! h = Some g -> slot = slot_in g (block_of start) ->
  in_element H bs G op first n h slot start stop b -> 0 <= j < stop - start ->
  local_ok H bs G (flagged op first n h slot (slot_in g (block_of stop)) start stop b j).
Proof.
  intros Hg -> Hel Hj. pose proof Hel as (Hr & Hst & Hs1 & (g' & Hg' & Hgn & _) & Estop & Hb).
  rewrite Hg in Hg'. injection Hg' as <-.
  pose proof Hr as (Hf & Hn & HnH & Hop). unfold flagged. destruct (decide _) as [E|E].
  - destruct (decide _) as [E'|E']; [done|]. split; [done|]. pose proof (block_of_bounds start ltac:(lia)).
    assert (Hs : start < stop <= first + n) by (unfold stop_at in Estop; lia). split; [lia|]. split.
    + intros Eop. specialize (Hop Eop). lia.
    + by exists g.
  - split; [done|lia].
Qed.

Lemma flagged_elements op first n h slot slot' start stop b j : consumers y !! t = Some (CFlag op first n h slot start stop b j) ->
  range_ok H op first n -> start < stop <= first + n -> 0 <= j < stop - start ->
  elements_ok H (enqueued y) (<[t:=flagged op first n h slot slot' start stop b j]> (consumers y)) (fin ++ [stop - 1 - j]) (taken y).
Proof.
  intros Ht Hr Hs Hj. destruct (flagged_spec op first n h slot slot' start stop b j Hr Hs Hj) as (_ & _ & _ & _ & F5 & F6 & _ & F8).
  pose proof counts_bounds as [HH _]. set (pc' := flagged _ _ _ _ _ _ _ _ _ _) in *.
  assert (E : seqZ start (stop - start - j) = seqZ start (stop - start - (j + 1)) ++ [stop - 1 - j]).
  { replace (stop - start - j) with (stop - start - (j + 1) + 1) by lia. rewrite seqZ_split by lia. f_equal.
    replace (stop - 1 - j) with (start + (stop - start - (j + 1))) by lia. done. }
  eapply elements_move; [apply (iv_elements _ _ _ _ _ _ _ _ _ Hinv)|exact Ht|done| | |lia|exact F8].
  - rewrite Z.sub_diag, app_nil_r, F5. simpl. rewrite E, <- !app_assoc. f_equiv. simpl. by rewrite Permutation_middle.
  - rewrite F6. simpl. rewrite E, <- app_assoc. f_equiv. apply Permutation_app_comm.
Qed.

Lemma flagged_gone op first n h slot slot' start stop b j i x : consumers y !! t = Some (CFlag op first n h slot start stop b j) ->
  range_ok H op first n -> start < stop <= first + n -> 0 <= j < stop - start -> i = stop - 1 - j ->
  x ∈ gone (fin ++ [i]) (<[t:=flagged op first n h slot slot' start stop b j]> (consumers y)) <-> x ∈ gone fin (consumers y).
Proof.
  intros Ht Hr Hs Hj ->. destruct (flagged_spec op first n h slot slot' start stop b j Hr Hs Hj) as (_ & _ & _ & _ & _ & _ & F7 & _).
  set (pc' := flagged _ _ _ _ _ _ _ _ _ _) in *.
  destruct (gone_update (fin ++ [stop - 1 - j]) (consumers y) t _ pc' x Ht) as [-> _].
  destruct (gone_update fin (consumers y) t _ CIdle x Ht) as [_ ->]. rewrite F7. unfold gone. simpl.
  rewrite !elem_of_app, list_elem_of_singleton, !elem_of_seqZ. split; intros Hx; naive_solver lia.
Qed.

(** The flag of a destroyed element is set. *)
Lemma memory_flagged k p c i gone' : bs !! k = Some p -> (lo <= k)%nat -> blocks (state y) !! p = Some c ->
  block_ok bs lo fin (gone fin (consumers y)) (constructed (producer y) (enqueued y))
    (resetting (producer y) && bool_decide (k + 1 = length bs)%nat) k c ->
  first_of k <= i < first_of k + BLOCK_SIZE -> 0 <= i < H -> (forall x, x ∈ gone' <-> x ∈ gone fin (consumers y)) -> i ∈ gone' ->
  memory_ok (zlen (enqueued y)) bs lo G (fin ++ [i]) gone' (constructed (producer y) (enqueued y)) (producer y)
    (set_blocks (<[p:=store_flag (BLOCK_SIZE - 1 - (i - first_of k)) true c]> (blocks (state y))) (state y)).
Proof.
  intros Hp Hk Hc [B1 B2 B3 B4 B5] Hi HiH Hg Hin. pose proof counts_bounds as [HH _].
  eapply (memory_consume _ _ _ _ fin (gone fin (consumers y)) _ _ _ _ _ k p c _ i);
    [apply (iv_memory _ _ _ _ _ _ _ _ _ Hinv)|done|done|done|lia|done| | |done|done|done|apply store_flag_length| | |].
  - intros x Hne. split; [|apply Hg]. rewrite elem_of_app, list_elem_of_singleton. naive_solver.
  - intros _. set_solver.
  - intros o Ho Hne. split; [done|]. rewrite flag_store by lia. by rewrite decide_False by lia.
  - simpl. rewrite B2 by lia. f_equal. unfold cell. replace (first_of k + (i - first_of k)) with i by lia.
    rewrite !decide_True; [done|done|by apply Hg].
  - rewrite flag_store by lia. rewrite decide_True by done. symmetry. apply bool_decide_eq_true. set_solver.
Qed.

Lemma consume_flag op first n h slot start stop b j : consumers y !! t = Some (CFlag op first n h slot start stop b j) ->
  consumes (CFlag op first n h slot start stop b j).
Proof.
  intros Ht. pose proof (iv_local _ _ _ _ _ _ _ _ _ Hinv _ _ Ht) as [Hel Hj]. pose proof Hel as (Hr & Hst & Hs1 & (g & Hg & Hgn & ->) & Estop & Hb).
  pose proof Hr as (Hf & Hn & HnH & Hop). assert (Hsf : stop <= first + n) by (unfold stop_at in Estop; lia).
  set (i := stop - 1 - j). assert (Hi : start <= i < stop) by (unfold i; lia).
  destruct (held_in_ring _ start Ht) as [Hlo _]; [simpl; apply elem_of_app; left; apply elem_of_seqZ; lia|].
  destruct (held_in_ring _ i Ht) as [_ Hnf]; [simpl; apply elem_of_app; left; apply elem_of_seqZ; unfold i; lia|].
  destruct (element_block _ _ _ _ _ _ _ _ _ Hel Hi ltac:(lia)) as (c & Hc & Hlk & Hok & Hib & Eib & HiH).
  pose proof (flag_finished _ _ _ HiH Hok Hib) as Hflag. rewrite bool_decide_false in Hflag by done. pose proof Hok as [B1 B2 B3 B4 B5].
  pose proof counts_bounds as [HH _]. destruct Hsmall as [HT _]. destruct (header_at h g Hg) as (hd & Hhd & Hhok).
  destruct (ho_size _ _ _ _ Hhok) as [Es Hsz].
  pose proof (mark_one_spec op first n start j c flags ltac:(lia) ltac:(lia) ltac:(lia) Hop ltac:(lia)) as Emark. rewrite <- Estop in Emark.
  cbv zeta in Emark. fold i in Emark. rewrite Eib, Hflag in Emark.
  pose proof (next_block_spec g op first n h start stop Hsz Hr Hst Hs1 Estop ltac:(lia)) as Enext.
  set (pc' := flagged op first n h (slot_in g (block_of start)) (slot_in g (block_of stop)) start stop b j).
  destruct (flagged_spec op first n h (slot_in g (block_of start)) (slot_in g (block_of stop)) start stop b j Hr ltac:(lia) Hj)
    as (F1 & F2 & F3 & F4 & F5 & F6 & F7 & F8). fold pc' in F1, F2, F3, F4, F5, F6, F7, F8.
  exists pc', (set_blocks (<[b:=store_flag (BLOCK_SIZE - 1 - (i - first_of (block_of start))) true c]> (blocks (state y))) (state y)), None, 0.
  split.
  { simpl. rewrite Hc. cbn [mbind option_bind]. rewrite Hhd. cbn [mbind option_bind]. rewrite Emark. cbn [mbind option_bind].
    rewrite Es, Enext. unfold pc', flagged. destruct (Z.eqb_spec (j + 1) (stop - start)) as [E|E]; cbn [negb].
    - by destruct (decide (j + 1 = stop - start)).
    - by destruct (decide (j + 1 = stop - start)). }
  split; [done|]. intros _. exists (fin ++ [i]), granted, rejected, H, V.
  assert (Hgone : forall x, x ∈ gone (fin ++ [i]) (<[t:=pc']> (consumers y)) <-> x ∈ gone fin (consumers y)).
  { intros x. apply (flagged_gone op first n h (slot_in g (block_of start)) (slot_in g (block_of stop)) start stop b j); [done..|lia|done|done]. }
  apply (inv_element (CFlag op first n h (slot_in g (block_of start)) start stop b j)); try done.
  - by apply flagged_local.
  - apply flagged_elements; [done..|lia|done].
  - eapply memory_flagged; [exact Hb|done..|]. unfold gone. set_solver.
Qed.
(** Every step of a consumer has a next state, and keeps the invariant. *)
Lemma consume pc : consumers y !! t = Some pc -> pc <> CIdle -> consumes pc.
Proof.
  intros Ht Hne. destruct pc; [done|..].
  - by apply consume_tail.
  - by apply consume_over.
  - by apply consume_optimistic.
  - by apply consume_claim.
  - by apply consume_recheck.
  - by apply consume_give_back.
  - by apply consume_take.
  - by apply consume_index.
  - by apply consume_front.
  - by apply consume_base.
  - by apply consume_block.
  - by apply consume_move.
  - by apply consume_destroy.
  - by apply consume_flag.
Qed.
End System.
