(* ===== verification/ExplicitProducerQueue.v ===== *)
(** * What an explicit producer's queue promises

    The invariant of ExplicitProducerSpec.v holds in every reachable state of a
    producer and its consumers (ExplicitProducer.v). *)

From Stdlib Require Import Sorted.
From S2P Require Import Prelude Posix MoodyDetails MoodyBlock ExplicitProducer ExplicitProducerSpec.

Section Queue.
Context {traits : Traits} `{laws : !TraitsLaws} {A : Type} (garbage : BlockIndexEntry).
Context (flags : has_flags explicit_context = true).
Abbreviation Sys := (System (A := A)).
Abbreviation step := (step (A := A) garbage).
Implicit Types (y : Sys) (t : nat) (s : ExplicitProducer A).

(** ** The first state *)

(** The size of the first block index, halved. *)
Lemma initial_size poolSize : 0 <= poolSize <= 2 ^ 62 ->
  let n := Z.shiftr EXPLICIT_INITIAL_INDEX_SIZE 1 in
  let m := Z.shiftr (ceil_to_pow_2 poolSize) 1 in
  exists j, 0 <= j <= 61 /\ (if n <? m then m else n) = 2 ^ j.
Proof.
  intros Hp n m. pose proof index_bits_bound as Hi.
  assert (En : n = 2 ^ (index_bits - 1)).
  { unfold n. rewrite EXPLICIT_INITIAL_INDEX_SIZE_eq, Z.shiftr_div_pow2, <- Z.pow_sub_r by lia. done. }
  destruct (Z.ltb_spec n m) as [Hlt|]; [|exists (index_bits - 1); lia].
  destruct (ceil_to_pow_2_spec poolSize ltac:(lia)) as [Hc Hc0].
  assert (Hn : 0 <= n) by (rewrite En; apply Z.pow_nonneg; lia).
  destruct (Z.eq_dec poolSize 0) as [->|Hne].
  { unfold m in Hlt. rewrite Hc0 in Hlt by (by left). change (Z.shiftr 0 1) with 0 in Hlt. lia. }
  destruct (Hc ltac:(lia)) as (k & E & Hk & _ & Hmin). specialize (Hmin 62 ltac:(lia) ltac:(lia)).
  unfold m in *. rewrite E in *. destruct (Z.eq_dec k 0) as [->|]; [change (Z.shiftr (2 ^ 0) 1) with 0 in Hlt; lia|].
  exists (k - 1). split; [lia|]. rewrite Z.shiftr_div_pow2, <- Z.pow_sub_r by lia. done.
Qed.

(** No blocks yet, and perhaps no block index. *)
Lemma ExplicitProducer_ctor_ok poolSize m s r : 0 <= poolSize <= 2 ^ 62 -> m <> Some 0 ->
  ExplicitProducer_ctor garbage poolSize m = Some s ->
  producer_base s = MkBase 0 0 0 0 0 /\
  exists G, memory_ok (A := A) 0 [] 0 G [] [] [] (PIdle r) s.
Proof.
  intros Hp Hm. destruct (initial_size poolSize Hp) as (j & Hj & En). unfold ExplicitProducer_ctor. rewrite En. clear En.
  assert (F0 : first_of 0 = 0) by done. pose proof block_size_bound. unfold new_block_index. destruct m as [p|]; simpl; intros E; injection E as <-; simpl.
  - split; [done|]. exists {[p := MkInfo 0 (2 ^ (j + 1)) 0 0]}.
    assert (Hpow : 2 ^ (j + 1) <= 2 ^ 62) by (apply Z.pow_le_mono_r; lia). assert (0 < 2 ^ (j + 1)) by (apply Z.pow_pos_nonneg; lia).
    assert (E2 : u64 (Z.shiftl (2 ^ j) 1) = 2 ^ (j + 1)).
    { rewrite Z.shiftl_mul_pow2, <- Z.pow_add_r by lia. apply u64_id. lia. }
    rewrite E2, Nat.sub_0_r.
    destruct (new_header_ok [] 0 (2 ^ (j + 1)) (j + 1) 0 (Z.to_nat (2 ^ (j + 1))) garbage 0 0) as [Hok|Hno]; [done|lia|lia|done|lia| |].
    2: { destruct Hno. simpl. unfold zlen. rewrite length_replicate. lia. }
    split; simpl; try done; try (split_and!; try done; try lia; try set_solver; by left).
    + intros i. rewrite F0. lia.
    + intros q g Hg. apply lookup_singleton_Some in Hg as [<- <-]. eexists. split; [apply lookup_insert_eq|]. exact Hok.
    + unfold index_ok. simpl. split; [done|]. split; [done|]. split; [|split; [lia|]].
      * exists (j + 1). split; [lia|]. split; [done|]. intros ->. by destruct Hm.
      * rewrite decide_False by (intros ->; by destruct Hm). eexists. rewrite lookup_singleton_eq. by split_and!.
  - split; [done|]. exists ∅. 
    assert (E2 : Z.shiftr (u64 (Z.shiftl (2 ^ j) 1)) 1 = 2 ^ j).
    { assert (2 ^ (j + 1) <= 2 ^ 62) by (apply Z.pow_le_mono_r; lia). assert (0 < 2 ^ (j + 1)) by (apply Z.pow_pos_nonneg; lia).
      rewrite Z.shiftl_mul_pow2, <- Z.pow_add_r, u64_id, Z.shiftr_div_pow2, <- Z.pow_sub_r by lia. f_equal. lia. }
    rewrite E2.
    split; simpl; try done; try (split_and!; try done; try lia; try set_solver; by left).
    + intros i. rewrite F0. lia.
    + unfold index_ok. simpl. split; [done|]. split; [done|]. split; [|split; [apply Z.pow_nonneg; lia|done]].
      exists j. split; [lia|]. split; [done|]. lia.
Qed.

Lemma held_idle {X} (f : CPc -> list X) n : f CIdle = [] -> held f (replicate n CIdle) = [].
Proof. intros E. unfold held. induction n; simpl; [done|]. by rewrite E. Qed.

Lemma sum_idle (f : CPc -> nat) n : f CIdle = 0%nat -> sum_list_with f (replicate n CIdle) = 0%nat.
Proof. intros E. induction n; simpl; [done|]. by rewrite E. Qed.

Lemma initial_inv y : initial garbage y -> inv y.
Proof.
  intros (poolSize & m & s & Hp & Hm & Hs & n & r & ->).
  destruct (ExplicitProducer_ctor_ok poolSize m s r Hp Hm Hs) as (Eb & G & Hmem).
  assert (Hidle : forall t pc, replicate n CIdle !! t = Some pc -> pc = CIdle) by (intros t pc Ht; by apply lookup_replicate in Ht as [-> _]).
  exists [], 0%nat, G, [], [], [], 0, 0. split; simpl.
  - split; simpl; rewrite ?held_idle, ?sum_idle by done; try done; [set_solver|].
    intros t pc Ht. by rewrite (Hidle t pc Ht).
  - split; simpl; rewrite ?held_idle by done; try done; [set_solver|constructor|set_solver].
  - unfold gone. by rewrite held_idle.
  - intros t pc Ht. by rewrite (Hidle t pc Ht).
  - by rewrite Eb.
Qed.

(** ** Every step *)

(** A consumer adds nothing negative to a counter. *)
Definition claim_ok pc : Prop :=
  match pc with
  | CTail op | COver op _ | COptimistic op _ _ => op_ok op = true
  | CClaim _ _ desired => 0 <= desired
  | _ => True
  end.

Definition claims_ok y : Prop := forall t pc, consumers y !! t = Some pc -> claim_ok pc.

Lemma claim_ok_step pc pc' (s s' : ExplicitProducer A) out : claim_ok pc -> consumer_step pc s = Some (pc', s', out) -> claim_ok pc'.
Proof.
  destruct pc; simpl; intros Ho E; simplify_option_eq; try done; try (by injection E as <- <- <-).
  - case_match; [done|]. by apply desired_nonneg.
  - by case_match.
  - by case_match.
  - by case_match.
  - case_match. simplify_option_eq. case_match; [done|]. unfold next_block. by repeat case_match.
Qed.

Lemma step_claims y y' : claims_ok y -> step y y' ->
  claims_ok y' /\ zlen (enqueued y) <= zlen (enqueued y') /\ claimed y <= claimed y'.
Proof.
  intros Hc Hst. unfold claims_ok. destruct Hst as [y mode x _|y t op Ht Hop|y c pc s _ _|y t pc pc' s out Ht E]; simpl.
  - done.
  - split; [|lia]. intros t' pc' Ht'. apply list_lookup_insert_Some in Ht' as [(_ & <- & _)|[_ Ht']]; [done|by eapply Hc].
  - split; [done|]. split; [|lia]. destruct (producer y); try done. rewrite zlen_app. pose proof (zlen_nonneg [x]). lia.
  - split; [|split; [done|]].
    + intros t' pc0 Ht'. apply list_lookup_insert_Some in Ht' as [(_ & <- & _)|[_ Ht']]; [|by eapply Hc].
      eapply claim_ok_step; [by eapply Hc|exact E].
    + specialize (Hc t pc Ht). destruct pc; simpl in *; lia.
Qed.

(** A producer that starts, and one that goes on. *)
Lemma inv_enqueue y mode x : is_idle (producer y) = true -> inv y ->
  inv (MkSystem (state y) (PStart mode x) (consumers y) (enqueued y) (taken y) (claimed y)).
Proof.
  intros Hidle (bs & lo & G & fin & granted & rejected & H & V & [H1 H2 H3 H4 H5]). exists bs, lo, G, fin, granted, rejected, H, V.
  split; try done; simpl. destruct (producer y) eqn:Ep; try done. eapply memory_pc; [exact H3|done..|].
  exact (mo_phase _ _ _ _ _ _ _ _ _ H3).
Qed.

Lemma inv_producer y c : small y -> choice_ok c (state y) -> is_idle (producer y) = false -> inv y ->
  exists pc s, producer_step garbage c (producer y) (state y) = Some (pc, s) /\
    inv (MkSystem s pc (consumers y) (match producer y with PTail x _ => enqueued y ++ [x] | _ => enqueued y end) (taken y) (claimed y)).
Proof.
  intros [Hs _] Hc Hidle (bs & lo & G & fin & granted & rejected & H & V & Hi). pose proof Hi as [H1 H2 H3 H4 (B1 & B2 & B3 & B4)].
  pose proof (head_bound _ _ _ _ _ _ _ H1) as Hh. rewrite <- B2 in Hh.
  destruct (produce garbage flags bs lo G fin _ _ c (state y) Hs B1 Hh Hc (producer y) Hidle H3)
    as (pc & s & bs' & lo' & G' & E & Hm & Hext & E1 & E2 & E3 & E4 & _).
  exists pc, s. split; [done|]. exists bs', lo', G', fin, granted, rejected, H, V.
  change (match producer y with PTail x _ => enqueued y ++ [x] | _ => enqueued y end) with (published (producer y) (enqueued y)).
  assert (Hp : enqueued y `prefix_of` published (producer y) (enqueued y)) by (destruct (producer y); simpl; try done; by apply prefix_app_r).
  split; simpl.
  - eapply counts_publish; [|exact H1]. apply prefix_length in Hp. unfold zlen. lia.
  - by eapply elements_log.
  - done.
  - intros t pc0 Ht. eapply local_extends; [|exact Hext|by eapply H4]. lia.
  - by rewrite E1, E2, E3, E4, B2, B3, B4.
Qed.

Lemma inv_consumer y t pc : small y -> consumers y !! t = Some pc -> pc <> CIdle -> inv y ->
  exists pc' s out, consumer_step pc (state y) = Some (pc', s, out) /\
    let y' := MkSystem s (producer y) (<[t:=pc']> (consumers y)) (enqueued y)
      (taken y ++ match out with Some (i, v) => [(t, i, v)] | None => [] end) (claimed y + claims_of pc) in
    small y' -> inv y'.
Proof.
  intros Hs Ht Hne (bs & lo & G & fin & granted & rejected & H & V & Hi).
  destruct (consume flags y bs lo G fin granted rejected H V t Hi Hs pc Ht Hne) as (pc' & s & out & d & E & Ed & Hinv).
  exists pc', s, out. split; [done|]. intros y' [_ Hc]. subst d. destruct (Hinv Hc) as (fin' & granted' & rejected' & H' & V' & Hi').
  by exists bs, lo, G, fin', granted', rejected', H', V'.
Qed.

Lemma inv_dequeue y t op : small y -> consumers y !! t = Some CIdle -> op_ok op = true -> inv y ->
  inv (MkSystem (state y) (producer y) (<[t:=CTail op]> (consumers y)) (enqueued y) (taken y) (claimed y)).
Proof.
  intros Hs Ht Hop (bs & lo & G & fin & granted & rejected & H & V & Hi). exists bs, lo, G, fin, granted, rejected, H, V.
  pose proof (inv_local y bs lo G fin granted rejected H V t Hi CIdle (CTail op) Ht) as Hl.
  unfold after in Hl. rewrite app_nil_r, Z.add_0_r in Hl. apply Hl; done.
Qed.

Lemma step_keeps_inv y y' : small y -> small y' -> inv y -> step y y' -> inv y'.
Proof.
  intros Hs0 Hs Hi Hst. destruct Hst as [y mode x Hidle|y t op Ht Hop|y c pc s Hc E|y t pc pc' s out Ht E].
  - by apply inv_enqueue.
  - by apply inv_dequeue.
  - assert (Hidle : is_idle (producer y) = false) by (by destruct (producer y)).
    destruct (inv_producer y c Hs0 Hc Hidle Hi) as (pc0 & s0 & E0 & Hi'). rewrite E in E0. by injection E0 as <- <-.
  - assert (Hne : pc <> CIdle) by (by intros ->).
    destruct (inv_consumer y t pc Hs0 Ht Hne Hi) as (pc0 & s0 & out0 & E0 & Hi'). rewrite E in E0. injection E0 as <- <- <-. by apply Hi'.
Qed.

Lemma queue_inv y : reachable (initial garbage) step y -> claims_ok y /\ (small y -> inv y).
Proof.
  apply (reachable_inv _ _ (fun y => claims_ok y /\ (small y -> inv y))).
  - intros s Hs. split; [|intros _; by apply initial_inv]. destruct Hs as (? & ? & ? & _ & _ & _ & n & r & ->).
    intros t pc Ht. simpl in Ht. by apply lookup_replicate in Ht as [-> _].
  - intros s s' [Hc Hi] Hst. destruct (step_claims s s' Hc Hst) as (Hc' & H1 & H2). split; [done|]. intros Hs.
    assert (Hs0 : small s) by (unfold small in *; lia). by eapply step_keeps_inv; eauto.
Qed.

(** What the invariant says of the elements. *)
Lemma inv_taken y : inv y ->
  (forall t i v, (t, i, v) ∈ taken y -> 0 <= i /\ enqueued y !! Z.to_nat i = Some v) /\
  NoDup (index_of <$> taken y) /\ forall t, StronglySorted Z.lt (taken_by t (taken y)).
Proof.
  intros (bs & lo & G & fin & granted & rejected & H & V & [_ [He Ht Hl Hs _] Hm Hloc _]).
  split; [done|]. split; [|done]. rewrite Ht. assert (Hd : NoDup (fin ++ held holds (consumers y))) by (rewrite He; apply NoDup_seqZ).
  apply NoDup_app in Hd as (Hf & Hdis & Hh). apply NoDup_app. split; [done|].
  assert (Hsub : held moved (consumers y) ⊆+ held holds (consumers y)).
  { apply held_submseteq. intros t pc Hpc. by eapply local_moved, Hloc. }
  split.
  2: { apply submseteq_Permutation in Hsub as [k Hk]. rewrite Hk in Hh. by apply NoDup_app in Hh as [? _]. }
  intros x Hx Hx'. apply (Hdis x Hx). by eapply elem_of_submseteq.
Qed.

(** *** No consumer at work *)

Definition quiet y : Prop := forall t pc, consumers y !! t = Some pc -> pc = CIdle.

Lemma held_quiet {X} (f : CPc -> list X) y : f CIdle = [] -> quiet y -> held f (consumers y) = [].
Proof.
  unfold quiet, held. intros Ef. induction (consumers y) as [|pc cs IH]; intros Hq; simpl; [done|].
  rewrite (Hq 0%nat pc eq_refl), Ef. apply IH. intros t pc' Ht. by apply (Hq (Datatypes.S t)).
Qed.

Lemma sum_quiet (f : CPc -> nat) y : f CIdle = 0%nat -> quiet y -> sum_list_with f (consumers y) = 0%nat.
Proof.
  unfold quiet. intros Ef. induction (consumers y) as [|pc cs IH]; intros Hq; simpl; [done|].
  rewrite (Hq 0%nat pc eq_refl), Ef. apply IH. intros t pc' Ht. by apply (Hq (Datatypes.S t)).
Qed.

(** Then all before [headIndex] was moved out, and the counters agree. *)
Lemma inv_quiet y : inv y -> quiet y ->
  let b := producer_base (state y) in
  index_of <$> taken y ≡ₚ seqZ 0 (headIndex b) /\
  0 <= headIndex b <= tailIndex b /\ tailIndex b = zlen (enqueued y) /\ 0 <= dequeueOvercommit b /\
  dequeueOptimisticCount b = headIndex b + dequeueOvercommit b /\ dequeueOptimisticCount b = claimed y.
Proof.
  intros (bs & lo & G & fin & granted & rejected & H & V & [Hc [He Ht _ _ _] _ _ (B1 & B2 & B3 & B4)]) Hq.
  pose proof (head_bound _ _ _ _ _ _ _ Hc) as Hh. destruct Hc as [Hcl Hg Hr _ _ Hn]. simpl. rewrite B1, B2, B3, B4.
  rewrite (held_quiet _ _ eq_refl Hq), app_nil_r in He. rewrite (held_quiet _ _ eq_refl Hq), app_nil_r in Ht.
  rewrite (held_quiet _ _ eq_refl Hq), app_nil_r in Hcl.
  rewrite (sum_quiet pending _ eq_refl Hq) in Hg. rewrite (sum_quiet excess_of _ eq_refl Hq) in Hr. split; [by rewrite Ht|]. split; [lia|]. split; [done|]. split; [lia|]. split; [|done].
  apply Permutation_length in Hcl. rewrite length_app, length_seqZ in Hcl. unfold zlen in *. lia.
Qed.

(** ** Progress *)

(** A bound on the steps that a consumer, and the producer, still take. *)
Definition most (op : DequeueOp) : Z := match op with Single => 1 | Bulk max => max end.

Definition steps_left (pc : CPc) : Z :=
  match pc with
  | CIdle => 0
  | CTail op => 4 * most op + 10
  | COver op _ => 4 * most op + 9
  | COptimistic op _ _ => 4 * most op + 8
  | CClaim _ _ desired => 4 * desired + 7
  | CRecheck _ _ desired _ => 4 * desired + 6
  | CGiveBack _ _ n => 4 * n + 5
  | CTake _ n => 4 * n + 4
  | CIndex _ _ n => 4 * n + 3
  | CFront _ _ n _ => 4 * n + 2
  | CBase _ _ n _ _ => 4 * n + 1
  | CBlock _ first n _ _ start => 4 * (first + n - start)
  | CMove _ first n _ _ start index stop _ => 4 * (first + n - stop) + (stop - start) + 2 * (stop - index)
  | CDestroy _ first n _ _ start index stop _ => 4 * (first + n - stop) + (stop - start) + 2 * (stop - index) - 1
  | CFlag _ first n _ _ start stop _ j => 4 * (first + n - stop) + (stop - start) - j
  end.

Definition producer_steps_left (pc : PPc (A := A)) : Z :=
  match pc with
  | PIdle _ => 0
  | PStart _ _ => 2 * BLOCK_SIZE + 12
  | PCheck _ _ _ i => BLOCK_SIZE - i + BLOCK_SIZE + 11
  | PHead _ _ _ => BLOCK_SIZE + 10
  | PIndex _ _ _ => BLOCK_SIZE + 9
  | PBlock _ _ => BLOCK_SIZE + 8
  | PReset _ _ _ i _ => BLOCK_SIZE - i + 7
  | PLink _ _ _ => 6
  | PBase _ _ => 5
  | PEntry _ _ => 4
  | PFront _ _ => 3
  | PConstruct _ _ => 2
  | PTail _ _ => 1
  end.

Lemma desired_most op tail over o : op_ok op = true -> desired_count op tail over o <= most op.
Proof.
  intros Hop. destruct op as [|max]; simpl in *; [case_match; lia|]. apply andb_true_iff in Hop as [Hm _]. apply Z.ltb_lt in Hm.
  repeat case_match; lia.
Qed.

Lemma most_pos op : op_ok op = true -> 0 < most op.
Proof. destruct op as [|max]; simpl; [done|]. intros Hm. apply andb_true_iff in Hm as [Hm _]. by apply Z.ltb_lt. Qed.

Lemma actual_le op tail over desired mine : 0 < desired -> 0 <= actual_count op tail over desired mine <= desired.
Proof.
  intros Hd. destruct op as [|max]; simpl; [case_match; lia|].
  pose proof (wrap_range 64 (tail - u64 (mine - over)) ltac:(done)) as [Hn _]. fold (u64 (tail - u64 (mine - over))) in Hn.
  case_match; [|lia]. destruct (Z.ltb_spec desired (u64 (tail - u64 (mine - over)))); lia.
Qed.

(** Each step of the producer leaves fewer. *)
Lemma producer_progress y c pc s : inv y -> producer_step garbage c (producer y) (state y) = Some (pc, s) ->
  0 <= producer_steps_left pc < producer_steps_left (producer y).
Proof.
  intros (bs & lo & G & fin & granted & rejected & H & V & Hi) E. pose proof block_size_bound as HB.
  pose proof (mo_phase _ _ _ _ _ _ _ _ _ (iv_memory _ _ _ _ _ _ _ _ _ Hi)) as Hp.
  destruct (producer y); simpl in E, Hp |- *; simplify_option_eq; repeat case_match; simplify_option_eq; try lia.
  case_match. case_match; simplify_eq/=; lia.
Qed.

Lemma consumer_progress y t pc pc' s out : small y -> claims_ok y -> inv y -> consumers y !! t = Some pc ->
  consumer_step pc (state y) = Some (pc', s, out) -> 0 <= steps_left pc' < steps_left pc.
Proof.
  intros [HT _] Hcl (bs & lo & G & fin & granted & rejected & H & V & Hi) Ht E.
  pose proof (co_over _ _ _ _ _ _ _ (iv_counts _ _ _ _ _ _ _ _ _ Hi) t pc Ht) as Ho.
  pose proof (iv_local _ _ _ _ _ _ _ _ _ Hi t pc Ht) as Hl. pose proof (Hcl t pc Ht) as Hc.
  pose proof (head_bound _ _ _ _ _ _ _ (iv_counts _ _ _ _ _ _ _ _ _ Hi)) as HH.
  destruct pc; simpl in E, Ho, Hl, Hc |- *; simplify_option_eq; simpl.
  all: try (unfold range_ok, in_element, stop_at in Hl; pose proof (most_pos op) as Hpos; naive_solver lia).
  - pose proof (desired_nonneg op tail over (dequeueOptimisticCount (producer_base (state y))) Hc) as [Hd _].
    pose proof (desired_most op tail over (dequeueOptimisticCount (producer_base (state y))) Hc) as Hm. case_match; simpl; lia.
  - pose proof (actual_le op (tailIndex (producer_base (state y))) over desired mine ltac:(lia)) as Ha. case_match; simpl; lia.
  - case_match; simpl; lia.
  - destruct Hl as ((Hf & Hn & HnH & Hop) & Hst & _). rewrite stop_index_spec by (done || lia).
    pose proof (block_of_bounds start ltac:(lia)). unfold stop_at. lia.
  - destruct Hl as (((Hf & Hn & HnH & Hop) & Hst & _ & _ & Hstop & _) & Hix). unfold stop_at in Hstop.
    rewrite u64_id by lia. destruct (Z.eqb_spec (index + 1) stop); simpl; lia.
  - destruct Hl as (((Hf & Hn & HnH & Hop) & Hst & _ & _ & Hstop & _) & Hix). unfold stop_at in Hstop.
    case_match. simplify_option_eq. case_match; simpl; [lia|]. unfold next_block. repeat case_match; simpl; lia.
Qed.

(** A consumer that has taken its elements has only to move them out. *)
Definition taking (pc : CPc) : bool :=
  match pc with
  | CTail _ | COver _ _ | COptimistic _ _ _ | CClaim _ _ _ | CRecheck _ _ _ _ | CGiveBack _ _ _ | CTake _ _ => false
  | _ => true
  end.

Lemma step_taking pc pc' s s' out : taking pc = true -> consumer_step pc s = Some (pc', s', out) ->
  taking pc' = true /\ producer_base s' = producer_base s.
Proof.
  destruct pc; simpl; try done; intros _ E; unfold on_block in E; simplify_option_eq; try done.
  - by case_match.
  - case_match. simplify_option_eq. case_match; [done|]. unfold next_block. by repeat case_match.
Qed.

Lemma reachable_step y y' : reachable (initial garbage) step y -> rtc step y y' -> reachable (initial garbage) step y'.
Proof. intros (y0 & H0 & Hr) Hr'. exists y0. split; [done|]. by etransitivity. Qed.

(** Going on alone, it comes to the end of its operation. *)
Lemma run_alone n y t pc : (Z.to_nat (steps_left pc) <= n)%nat -> reachable (initial garbage) step y -> small y ->
  consumers y !! t = Some pc -> taking pc = true ->
  exists y' l, rtc step y y' /\ consumers y' = <[t:=CIdle]> (consumers y) /\ producer y' = producer y /\
    enqueued y' = enqueued y /\ claimed y' = claimed y /\ taken y' = taken y ++ ((fun '(i, v) => (t, i, v)) <$> l) /\
    producer_base (state y') = producer_base (state y).
Proof.
  revert y pc. induction n as [|n IH]; intros y pc Hn Hr Hs Ht Hk;
    destruct (queue_inv y Hr) as [Hc Hi]; specialize (Hi Hs); destruct (decide (pc = CIdle)) as [->|Hne];
    try (exists y, []; split; [done|]; split; [by rewrite list_insert_id|]; by rewrite app_nil_r).
  all: destruct (inv_consumer y t pc Hs Ht Hne Hi) as (pc' & s' & out & E & _).
  all: pose proof (consumer_progress y t pc pc' s' out Hs Hc Hi Ht E) as Hp.
  { lia. }
  destruct (step_taking _ _ _ _ _ Hk E) as [Hk' Eb].
  assert (E0 : claimed y + claims_of pc = claimed y) by (destruct pc; simpl; try done; lia).
  pose proof (step_consumer garbage y t pc pc' s' out Ht E) as Hst. rewrite E0 in Hst.
  set (y1 := MkSystem _ _ _ _ _ _) in Hst.
  destruct (IH y1 pc') as (y' & l & Hr' & E1 & E2 & E3 & E4 & E5 & E6); [lia|by eapply reachable_step; [|apply rtc_once]|done| |done|].
  { apply list_lookup_insert_eq. by eapply lookup_lt_Some. }
  exists y', (match out with Some x => [x] | None => [] end ++ l). simpl in *. split; [by eapply rtc_l|].
  split; [by rewrite E1, list_insert_insert_eq|]. split; [done|]. split; [done|]. split; [done|].
  split; [|by rewrite E6]. rewrite E5, fmap_app, app_assoc. do 2 f_equal. by destruct out as [[]|].
Qed.

(** *** A consumer alone, from start to end *)

Lemma silent_step y t cs pc pc' s' : (t < length cs)%nat -> consumers y = <[t:=pc]> cs ->
  consumer_step pc (state y) = Some (pc', s', None) ->
  step y (MkSystem s' (producer y) (<[t:=pc']> cs) (enqueued y) (taken y) (claimed y + claims_of pc)).
Proof.
  intros Hl Ec E. pose proof (step_consumer garbage y t pc pc' s' None) as Hst. rewrite app_nil_r, Ec, list_insert_insert_eq in Hst.
  apply Hst; [|done]. by apply list_lookup_insert_eq.
Qed.

(** The claim of a lone [dequeue] is granted when there is an element. *)
Lemma claim_alone y t (b := producer_base (state y)) : inv y -> small y -> quiet y -> consumers y !! t = Some CIdle -> claimed y + 1 < 2 ^ 62 ->
  exists y', rtc step y y' /\ producer y' = producer y /\ enqueued y' = enqueued y /\ taken y' = taken y /\
    if decide (headIndex b < tailIndex b) then
      consumers y' = <[t:=CIndex Single (headIndex b) 1]> (consumers y) /\ claimed y' = claimed y + 1 /\
      headIndex (producer_base (state y')) = headIndex b + 1
    else consumers y' = consumers y.
Proof.
  intros Hi [HT HO] Hq Ht Hc. destruct (inv_quiet y Hi Hq) as (_ & Hh & Et & Hv & Eo & Ec). fold b in Hh, Et, Hv, Eo, Ec.
  assert (Hl : (t < length (consumers y))%nat) by (by eapply lookup_lt_Some).
  assert (Elt : circular_less_than (u64 (dequeueOptimisticCount b - dequeueOvercommit b)) (tailIndex b) = (headIndex b <? tailIndex b)).
  { rewrite circular_less_than_r by lia. f_equal. lia. }
  destruct (decide (headIndex b < tailIndex b)) as [Hlt|Hge].
  - rewrite (proj2 (Z.ltb_lt _ _) Hlt) in Elt. eexists. split.
    + eapply rtc_l; [by apply (step_dequeue garbage y t Single)|].
      do 2 (eapply rtc_l; [by eapply silent_step|]). simpl. fold b.
      eapply rtc_l. { eapply silent_step; [done..|]. simpl. fold b. rewrite Elt. simpl. reflexivity. } simpl.
      eapply rtc_l; [by eapply silent_step|]. simpl. fold b.
      eapply rtc_l. { eapply silent_step; [done..|]. simpl. fold b. rewrite Elt. simpl. reflexivity. } simpl.
      eapply rtc_l; [by eapply silent_step|]. simpl. fold b. apply rtc_refl.
    + simpl. do 3 (split; [done|]). split; [done|]. split; [lia|]. apply u64_id. lia.
  - rewrite (proj2 (Z.ltb_nlt _ _) Hge) in Elt. eexists. split.
    + eapply rtc_l; [by apply (step_dequeue garbage y t Single)|].
      do 2 (eapply rtc_l; [by eapply silent_step|]). simpl. fold b.
      eapply rtc_l. { eapply silent_step; [done..|]. simpl. fold b. rewrite Elt. simpl. reflexivity. } apply rtc_refl.
    + simpl. do 3 (split; [done|]). by apply list_insert_id.
Qed.

(** ** What the queue promises *)

(** A state of a run, in which the counters are small. *)
Definition valid y : Prop := reachable (initial garbage) step y /\ small y.

(** C5: whatever the interleaving, no step of the producer or of a consumer
    reads through a bad pointer, moves an element out that is not there,
    constructs one over another or fails an [assert]: each that is at work has a
    next step, whatever [malloc] and [requisition_block] answer. *)
Theorem queue_never_stuck y : valid y ->
  (is_idle (producer y) = false -> forall c, choice_ok c (state y) -> is_Some (producer_step garbage c (producer y) (state y))) /\
  (forall t pc, consumers y !! t = Some pc -> pc <> CIdle -> is_Some (consumer_step pc (state y))).
Proof.
  intros [Hr Hs]. destruct (queue_inv y Hr) as [_ Hi]. specialize (Hi Hs). split.
  - intros Hidle c Hc. destruct (inv_producer y c Hs Hc Hidle Hi) as (pc & s & E & _). by eexists.
  - intros t pc Ht Hne. destruct (inv_consumer y t pc Hs Ht Hne Hi) as (pc' & s & out & E & _). by eexists.
Qed.

(** C6: the elements moved out are those enqueued, each at most once: the one
    with index [i] is the [i]-th enqueued, no index is moved out twice, and
    each consumer gets its elements in the order in which they were enqueued. *)
Theorem queue_elements_once y : valid y ->
  (forall t i v, (t, i, v) ∈ taken y -> 0 <= i /\ enqueued y !! Z.to_nat i = Some v) /\
  NoDup (index_of <$> taken y) /\ forall t, StronglySorted Z.lt (taken_by t (taken y)).
Proof. intros [Hr Hs]. apply inv_taken. by apply queue_inv. Qed.

(** C39: [enqueue], [dequeue] and [dequeue_bulk] are wait-free: each step of
    one leaves fewer for it to take, a bound that the steps of others do not
    change, at most [2 * BLOCK_SIZE + 12] for [enqueue] and
    [4 * max + 10] for a dequeue of at most [max]. *)
Theorem queue_wait_free y : valid y ->
  (forall c pc s, producer_step garbage c (producer y) (state y) = Some (pc, s) ->
     0 <= producer_steps_left pc < producer_steps_left (producer y)) /\
  (forall t pc pc' s out, consumers y !! t = Some pc -> consumer_step pc (state y) = Some (pc', s, out) ->
     0 <= steps_left pc' < steps_left pc).
Proof.
  intros [Hr Hs]. destruct (queue_inv y Hr) as [Hc Hi]. specialize (Hi Hs). split.
  - intros c pc s. by apply producer_progress.
  - intros t pc pc' s out. by apply consumer_progress.
Qed.

(** C40: no element is lost: when no consumer is at work, what was moved out is
    exactly what is before [headIndex], and a consumer that dequeues alone gets
    the next element, and none exactly when all enqueued elements are out,
    although claims of earlier dequeues failed. *)
Theorem queue_loses_nothing y t : valid y -> claimed y + 1 < 2 ^ 62 ->
  quiet y -> consumers y !! t = Some CIdle ->
  let head := headIndex (producer_base (state y)) in
  index_of <$> taken y ≡ₚ seqZ 0 head /\
  exists y', rtc step y y' /\ quiet y' /\ producer y' = producer y /\ enqueued y' = enqueued y /\
    taken y' = taken y ++ match enqueued y !! Z.to_nat head with Some v => [(t, head, v)] | None => [] end.
Proof.
  intros [Hr Hs] Hc Hq Ht head. destruct (queue_inv y Hr) as [_ Hi]. specialize (Hi Hs).
  destruct (inv_quiet y Hi Hq) as (Htk & Hh & Et & _). fold head in Htk, Hh. split; [done|].
  destruct (claim_alone y t Hi Hs Hq Ht Hc) as (y1 & Hr1 & Ep & Ee & Etk & Hcase). fold head in Hcase.
  destruct (decide _) as [Hlt|Hge].
  - destruct Hcase as (Ecs & Ecl & Eh). assert (Hl : (t < length (consumers y))%nat) by (by eapply lookup_lt_Some).
    pose proof (reachable_step _ _ Hr Hr1) as Hr1'. assert (Hs1 : small y1) by (unfold small in *; rewrite Ee; lia).
    destruct (run_alone _ y1 t (CIndex Single head 1) (le_n _) Hr1' Hs1) as (y2 & l & Hr2 & Ecs2 & Ep2 & Ee2 & Ecl2 & Etk2 & Eb2); [|done|].
    { rewrite Ecs. by apply list_lookup_insert_eq. }
    assert (Hq2 : quiet y2).
    { intros t' pc Ht'. rewrite Ecs2, Ecs, list_insert_insert_eq in Ht'. apply list_lookup_insert_Some in Ht' as [(_ & <- & _)|[_ Ht']]; [done|by eapply Hq]. }
    destruct (queue_inv y2 (reachable_step _ _ Hr1' Hr2)) as [_ Hi2].
    assert (Hs2 : small y2) by (unfold small in *; rewrite Ee2, Ecl2; lia). specialize (Hi2 Hs2).
    destruct (inv_quiet y2 Hi2 Hq2) as (Htk2 & _). destruct (inv_taken y2 Hi2) as (Hlog & _).
    exists y2. split; [by etransitivity|]. split; [done|]. split; [congruence|]. split; [congruence|].
    assert (Esp : seqZ 0 (head + 1) = seqZ 0 head ++ [head]) by (rewrite seqZ_split by lia; do 2 f_equal; done).
    rewrite Eb2, Eh, Etk2, Etk, fmap_app, Esp, <- Htk in Htk2. apply Permutation_app_inv_l in Htk2.
    symmetry in Htk2. apply Permutation_singleton_l in Htk2. destruct l as [|[i v] [|]]; try done. injection Htk2 as Eih.
    change (index_of (t, i, v)) with i in Eih. rewrite Etk2, Etk, Eih. f_equal.
    destruct (Hlog t i v) as [_ Hv]; [rewrite Etk2; set_solver|]. rewrite Ee2, Ee in Hv. by rewrite Hv.
  - exists y1. split; [done|]. split; [by intros t' pc; rewrite Hcase; apply Hq|]. do 2 (split; [done|]). rewrite Etk.
    rewrite lookup_ge_None_2; [by rewrite app_nil_r|]. unfold zlen in Et. lia.
Qed.
End Queue.

(** ** Runs

    A schedule says who takes the next step. *)

Section Runs.
Context {traits : Traits} {A : Type} (garbage : BlockIndexEntry).
Implicit Types (y : System (A := A)) (t : nat).

Inductive Turn :=
| Enqueue (mode : AllocationMode) (x : A)
| Dequeue (t : nat) (op : DequeueOp)
| ProducerTurn (c : Choice (A := A))
| ConsumerTurn (t : nat).

Definition fresh_choice (c : Choice (A := A)) (s : ExplicitProducer A) : bool :=
  match malloc c with Some p => negb (p =? 0) && bool_decide (headers s !! p = None) | None => true end &&
  match requisition_block c with
  | Some (p, b) => negb (p =? 0) && bool_decide (blocks s !! p = None) &&
      forallb (fun x => match x with None => true | Some _ => false end) (elements b) &&
      (length (elements b) =? Z.to_nat BLOCK_SIZE)%nat && (length (emptyFlags b) =? Z.to_nat BLOCK_SIZE)%nat
  | None => true
  end.

Definition take_turn y (a : Turn) : option (System (A := A)) :=
  match a with
  | Enqueue mode x =>
      if is_idle (producer y) then Some (MkSystem (state y) (PStart mode x) (consumers y) (enqueued y) (taken y) (claimed y)) else None
  | Dequeue t op =>
      if bool_decide (consumers y !! t = Some CIdle) && op_ok op then
        Some (MkSystem (state y) (producer y) (<[t:=CTail op]> (consumers y)) (enqueued y) (taken y) (claimed y)) else None
  | ProducerTurn c =>
      if fresh_choice c (state y) then
        '(pc, s) ← producer_step garbage c (producer y) (state y);
        Some (MkSystem s pc (consumers y)
                (match producer y with PTail x _ => enqueued y ++ [x] | _ => enqueued y end) (taken y) (claimed y))
      else None
  | ConsumerTurn t =>
      pc ← consumers y !! t;
      '(pc', s, out) ← consumer_step pc (state y);
      Some (MkSystem s (producer y) (<[t:=pc']> (consumers y)) (enqueued y)
              (taken y ++ match out with Some (i, v) => [(t, i, v)] | None => [] end) (claimed y + claims_of pc))
  end.

Fixpoint run (l : list Turn) y : option (System (A := A)) :=
  match l with [] => Some y | a :: l => y ← take_turn y a; run l y end.

Lemma none_elements (l : list (option A)) n :
  forallb (fun x => match x with None => true | Some _ => false end) l = true -> length l = n -> l = replicate n None.
Proof.
  revert n. induction l as [|[x|] l IH]; intros n Hl En; subst n; simpl in *; try done. f_equal. by apply IH.
Qed.

Lemma fresh_choice_ok c (s : ExplicitProducer A) : fresh_choice c s = true -> choice_ok c s.
Proof.
  unfold fresh_choice. intros Hc. apply andb_true_iff in Hc as [Hm Hr]. split.
  - intros p E. rewrite E in Hm. apply andb_true_iff in Hm as [H1 H2]. apply bool_decide_eq_true in H2.
    split; [|done]. intros ->. done.
  - intros p b E. rewrite E, !andb_true_iff in Hr. destruct Hr as ((((H1 & H2) & H3) & H4) & H5).
    apply bool_decide_eq_true in H2. apply Nat.eqb_eq in H4, H5. split; [by intros ->|]. split; [done|].
    split; [by apply none_elements|done].
Qed.

Lemma take_turn_step y a y' : take_turn y a = Some y' -> step garbage y y'.
Proof.
  destruct a; simpl; intros E.
  - destruct (is_idle (producer y)) eqn:Ei; [|done]. injection E as <-. by apply step_enqueue.
  - case_match eqn:Ec; [|done]. injection E as <-. apply andb_true_iff in Ec as [Ec Ho]. apply bool_decide_eq_true in Ec. by apply step_dequeue.
  - destruct (fresh_choice c (state y)) eqn:Ec; [|done]. simplify_option_eq. case_match. simplify_eq.
    eapply step_producer; [by apply fresh_choice_ok|done].
  - destruct (consumers y !! t) as [pc|] eqn:Ht; [simpl in E|done].
    destruct (consumer_step pc (state y)) as [[[pc' s] out]|] eqn:Ec; [simpl in E|done]. injection E as <-. by apply step_consumer.
Qed.

Lemma run_steps l y y' : run l y = Some y' -> rtc (step garbage) y y'.
Proof.
  revert y. induction l as [|a l IH]; intros y E; simpl in E; [by injection E as ->|].
  destruct (take_turn y a) as [y1|] eqn:Ea; [|done]. eapply rtc_l; [by eapply take_turn_step|by apply IH].
Qed.
End Runs.

(** *** An example

    Two elements are enqueued; two consumers dequeue, one of them in bulk, and
    the producer allocates its block index and a block. *)

#[local] Existing Instance ConcurrentQueueDefaultTraits.

Definition example_block : Block Z := Block_ctor (replicate 32 true).

Definition example_start : option (System (A := Z)) :=
  s ← ExplicitProducer_ctor (MkEntry 0 0) 6 None;
  Some (MkSystem s (PIdle true) [CIdle; CIdle] [] [] 0).

Definition producer_turns (n : nat) : list (Turn (A := Z)) := replicate n (ProducerTurn (MkChoice None None)).

Definition example_run : list (Turn (A := Z)) :=
  [Enqueue CanAlloc 11] ++ producer_turns 2 ++
  [ProducerTurn (MkChoice (Some 100) None); ProducerTurn (MkChoice None (Some (200, example_block)))] ++ producer_turns 38 ++
  [Enqueue CanAlloc 12] ++ producer_turns 3 ++
  [Dequeue 0 Single; Dequeue 1 (Bulk 5)] ++
  replicate 6 (ConsumerTurn 0) ++ replicate 6 (ConsumerTurn 1) ++ replicate 5 (ConsumerTurn 0) ++ replicate 6 (ConsumerTurn 1).

Definition example_y0 : System (A := Z) :=
  default (MkSystem (MkProducer (MkBase 0 0 0 0 0) 0 0 0 0 0 0 ∅ ∅) (PIdle true) [] [] [] 0) example_start.
Definition example_at (l : list (Turn (A := Z))) : System (A := Z) := default example_y0 (run (MkEntry 0 0) l example_y0).
Definition example_state : System (A := Z) := example_at example_run.
Definition example_quiet : System (A := Z) :=
  example_at (example_run ++ replicate 2 (ConsumerTurn 0) ++ [ConsumerTurn 1; Enqueue CannotAlloc 13] ++ producer_turns 3).

Lemma default_flags : has_flags explicit_context = true.
Proof. reflexivity. Qed.

Lemma example_initial : initial (MkEntry 0 0) example_y0.
Proof.
  exists 6, None, (state example_y0). split; [done|]. split; [done|]. split; [reflexivity|]. by exists 2%nat, true.
Qed.

Lemma example_reachable l : run (MkEntry 0 0) l example_y0 = Some (example_at l) ->
  reachable (initial (MkEntry 0 0)) (step (MkEntry 0 0)) (example_at l).
Proof. intros E. exists example_y0. split; [apply example_initial|]. by eapply run_steps. Qed.

Lemma example_valid l : run (MkEntry 0 0) l example_y0 = Some (example_at l) -> small (example_at l) -> valid (MkEntry 0 0) (example_at l).
Proof. intros E Hs. split; [by apply example_reachable|done]. Qed.

Lemma queue_never_stuck_witness :
  consumers example_state !! 0%nat = Some (CDestroy Single 0 1 100 0 0 0 1 200) /\
  is_Some (consumer_step (CDestroy Single 0 1 100 0 0 0 1 200) (state example_state)).
Proof.
  split; [reflexivity|]. refine (proj2 (queue_never_stuck (MkEntry 0 0) default_flags example_state _) 0%nat _ _ _); [|reflexivity|done].
  apply example_valid; by vm_compute.
Defined.

Lemma queue_elements_once_witness : index_of <$> taken example_state = [0; 1] /\ NoDup (index_of <$> taken example_state).
Proof.
  split; [reflexivity|]. apply (queue_elements_once (MkEntry 0 0) default_flags example_state). apply example_valid; by vm_compute.
Defined.

Lemma queue_wait_free_witness :
  let pc := CFlag (Bulk 5) 1 1 100 0 1 2 200 0 in
  steps_left pc = 1 /\
  forall pc' s out, consumer_step pc (state example_state) = Some (pc', s, out) -> 0 <= steps_left pc' < steps_left pc.
Proof.
  intros pc. split; [reflexivity|]. intros pc' s out.
  refine (proj2 (queue_wait_free (MkEntry 0 0) default_flags example_state _) 1%nat pc pc' s out _).
  - apply example_valid; by vm_compute.
  - vm_compute. reflexivity.
Defined.

Lemma queue_loses_nothing_witness : exists y', rtc (step (MkEntry 0 0)) example_quiet y' /\
  taken y' = [(0%nat, 0, 11); (1%nat, 1, 12); (0%nat, 2, 13)].
Proof.
  destruct (queue_loses_nothing (MkEntry 0 0) default_flags example_quiet 0) as (_ & y' & Hr & _ & _ & _ & Ht).
  - apply example_valid; by vm_compute.
  - by vm_compute.
  - intros [|[|t]] pc E; vm_compute in E; congruence.
  - reflexivity.
  - exists y'. split; [done|]. rewrite Ht. reflexivity.
Defined.
