(* ===== verification/ExplicitLinear.v ===== *)
(** * The queue of an explicit producer is linearizable

    The interleaved steps of ExplicitProducer.v refine a queue whose operations
    are single steps: [enqueue] takes effect when it stores [tailIndex], a
    dequeue when it adds to [headIndex].  A dequeue that finds nothing may be
    wrong about it only while others are at work (ExplicitProducerQueue.v). *)

From Stdlib Require Import Sorted.
From S2P Require Import Prelude Posix MoodyDetails MoodyBlock ExplicitProducer ExplicitProducerSpec ExplicitProducerQueue.

(** ** The abstract queue *)

Section Fifo.
Context {A : Type}.

(** Its elements, and what each consumer was given so far. *)
Record Fifo := MkFifo { items : list A; given : list (list A) }.

Inductive Action := AEnqueue (x : A) | ADequeue (t : nat) (xs : list A) | ANone.

Inductive fifo_step : Action -> Fifo -> Fifo -> Prop :=
| fifo_enqueue f x : fifo_step (AEnqueue x) f (MkFifo (items f ++ [x]) (given f))
| fifo_dequeue f t xs rest g :
    items f = xs ++ rest -> given f !! t = Some g -> fifo_step (ADequeue t xs) f (MkFifo rest (<[t:=g ++ xs]> (given f)))
| fifo_none f : fifo_step ANone f f.
End Fifo.
Arguments Fifo : clear implicits.
Arguments Action : clear implicits.

Section Linear.
Context {traits : Traits} `{laws : !TraitsLaws} {A : Type} (garbage : BlockIndexEntry).
Context (flags : has_flags explicit_context = true).
Abbreviation Sys := (System (A := A)).
Abbreviation step := (step (A := A) garbage).
Implicit Types (y : Sys) (t : nat) (s : ExplicitProducer A).

(** The elements that are enqueued and not taken. *)
Definition queued y : list A := drop (Z.to_nat (headIndex (producer_base (state y)))) (enqueued y).

(** What consumer [t] has moved out; the indices it has taken and still has to
    move out. *)
Definition moved_out t y : list A := snd <$> filter (fun x => x.1.1 = t) (taken y).
Definition remaining (pc : CPc) : list Z :=
  match pc with
  | CIndex _ first n | CFront _ first n _ | CBase _ first n _ _ => seqZ first n
  | CBlock _ first n _ _ start => seqZ start (first + n - start)
  | CMove _ first n _ _ _ index _ _ => seqZ index (first + n - index)
  | CDestroy _ first n _ _ _ index _ _ => seqZ (index + 1) (first + n - (index + 1))
  | CFlag _ first n _ _ _ stop _ _ => seqZ stop (first + n - stop)
  | _ => []
  end.
Definition element_at (log : list A) (i : Z) : option A := log !! Z.to_nat i.

(** The abstract queue has the elements of the concrete one; what it gave a
    consumer is what this one has moved out and will still move out. *)
Record refines y (f : Fifo A) : Prop := {
  rf_items : items f = queued y;
  rf_length : length (given f) = length (consumers y);
  rf_given t pc g : consumers y !! t = Some pc -> given f !! t = Some g ->
    exists rest, g = moved_out t y ++ rest /\ Some <$> rest = element_at (enqueued y) <$> remaining pc
}.

Lemma elements_range (l : list A) (h n : nat) : (h + n <= length l)%nat ->
  Some <$> take n (drop h l) = element_at l <$> seqZ (Z.of_nat h) (Z.of_nat n).
Proof.
  revert h. induction n as [|n IH]; intros h Hn; [done|].
  destruct (lookup_lt_is_Some_2 l h ltac:(lia)) as [x Hx]. rewrite (drop_S _ _ _ Hx). cbn [take].
  rewrite seqZ_cons by lia. rewrite !fmap_cons. unfold element_at at 1. rewrite Nat2Z.id, Hx. f_equal.
  rewrite IH by lia. f_equal. f_equal; lia.
Qed.

Lemma element_at_prefix (log log' : list A) (l : list Z) (xs : list A) : log `prefix_of` log' ->
  Some <$> xs = element_at log <$> l -> Some <$> xs = element_at log' <$> l.
Proof.
  intros Hp. revert l. induction xs as [|x xs IH]; intros [|i l] E; try done. rewrite !fmap_cons in E |- *.
  injection E as E1 E2. rewrite (IH _ E2). f_equal. unfold element_at in *. symmetry. by eapply prefix_lookup_Some.
Qed.

Lemma moved_out_app t (y : Sys) s p cs e out c :
  moved_out t (MkSystem s p cs e (taken y ++ out) c) = moved_out t y ++ (snd <$> filter (fun x => x.1.1 = t) out).
Proof. unfold moved_out. cbn. by rewrite filter_app, fmap_app. Qed.

(** *** Steps of the producer *)

Lemma on_block_base p (g : Block A -> Block A) s s' : on_block p g s = Some s' -> producer_base s' = producer_base s.
Proof. unfold on_block. destruct (blocks s !! p); [|done]. by intros [= <-]. Qed.

Lemma on_entry_base i g s s' : on_entry i g s = Some s' -> producer_base s' = producer_base s.
Proof.
  unfold on_entry. destruct (headers s !! blockIndex s) as [h|]; [|done]. simpl.
  destruct (entries h !! Z.to_nat i); [|done]. by intros [= <-].
Qed.

Lemma new_block_index_base k m s ok s' : new_block_index garbage k m s = Some (ok, s') -> producer_base s' = producer_base s.
Proof.
  unfold new_block_index. destruct m; [|by intros [= _ <-]]. destruct (filled_entries _ _); [|done]. by intros [= _ <-].
Qed.

Lemma link_block_head p s s' : link_block p s = Some s' -> headIndex (producer_base s') = headIndex (producer_base s).
Proof.
  unfold link_block. case_decide.
  - destruct (on_block p _ s) as [s1|] eqn:E1; [|done]. simpl. intros [= <-]. simpl. by rewrite (on_block_base _ _ _ _ E1).
  - destruct (blocks s !! _); [|done]. simpl. destruct (on_block p _ s) as [s1|] eqn:E1; [|done]. simpl.
    destruct (on_block _ _ s1) as [s2|] eqn:E2; [|done]. simpl. intros [= <-]. simpl.
    by rewrite (on_block_base _ _ _ _ E2), (on_block_base _ _ _ _ E1).
Qed.

Lemma producer_head c pc s pc' s' : producer_step garbage c pc s = Some (pc', s') ->
  headIndex (producer_base s') = headIndex (producer_base s).
Proof.
  intros E. destruct pc as [| | | |[] x cur| | | | | | | |]; simpl in E; simplify_option_eq; repeat case_match; simplify_option_eq; try done;
    repeat match goal with
    | H : on_block _ _ _ = Some _ |- _ => apply on_block_base in H as ->
    | H : on_entry _ _ _ = Some _ |- _ => apply on_entry_base in H as ->
    | H : new_block_index _ _ _ _ = Some _ |- _ => apply new_block_index_base in H as ->
    | H : link_block _ _ = Some _ |- _ => by apply link_block_head in H
    end; done.
Qed.

Definition published_by (pc : PPc (A := A)) : Action A := match pc with PTail x _ => AEnqueue x | _ => ANone end.

Lemma producer_refines y f pc s l : refines y f -> inv y ->
  headIndex (producer_base s) = headIndex (producer_base (state y)) ->
  l = match producer y with PTail x _ => enqueued y ++ [x] | _ => enqueued y end ->
  exists f', fifo_step (published_by (producer y)) f f' /\ refines (MkSystem s pc (consumers y) l (taken y) (claimed y)) f'.
Proof.
  intros [Hi Hl Hg] (bs & lo & G & fin & gr & rej & H & V & Hinv) Hh ->.
  assert (Hle : 0 <= headIndex (producer_base (state y)) <= zlen (enqueued y)).
  { destruct (iv_base _ _ _ _ _ _ _ _ _ Hinv) as (_ & -> & _). apply (head_bound _ _ _ _ _ _ _ (iv_counts _ _ _ _ _ _ _ _ _ Hinv)). }
  assert (Hsame : forall p, match p with PTail _ _ => False | _ => True end -> exists f', fifo_step (published_by p) f f' /\
    refines (MkSystem s pc (consumers y) (enqueued y) (taken y) (claimed y)) f').
  { intros p Hp. exists f. split; [destruct p; try done; constructor|]. split; [|done|done]. unfold queued. cbn. rewrite Hh. exact Hi. }
  destruct (producer y) eqn:Ep; try (apply Hsame; exact I).
  eexists. split; [apply fifo_enqueue|]. split; cbn; [|done|].
  - rewrite Hi. unfold queued. cbn. rewrite Hh, drop_app_le by (unfold zlen in Hle; lia). done.
  - intros t pc0 g Ht Hgt. destruct (Hg t pc0 g Ht Hgt) as (rest & -> & Er). exists rest. split; [done|].
    eapply element_at_prefix; [|exact Er]. by apply prefix_app_r.
Qed.

(** *** Steps of a consumer *)

(** What a step of a consumer does to what it still has to move out. *)
Lemma remaining_step y t pc pc' s out bs lo G fin gr rej H V : inv_with y bs lo G fin gr rej H V -> small y ->
  consumers y !! t = Some pc -> consumer_step pc (state y) = Some (pc', s, out) ->
  match pc with CTake _ _ => True | _ => remaining pc = (match out with Some (i, _) => [i] | None => [] end) ++ remaining pc' end.
Proof.
  intros Hi [HT _] Ht E. pose proof (iv_local _ _ _ _ _ _ _ _ _ Hi t pc Ht) as Hl.
  pose proof (head_bound _ _ _ _ _ _ _ (iv_counts _ _ _ _ _ _ _ _ _ Hi)) as HH.
  destruct pc; simpl in E; simplify_option_eq; try done; simpl.
  - by case_match.
  - by case_match.
  - by case_match.
  - f_equal. lia.
  - destruct Hl as [((Hf & Hn & HnH & Hop) & Hst & _ & _ & Hstop & _) Hix]. unfold stop_at in Hstop.
    rewrite seqZ_cons by lia. f_equal. f_equal; lia.
  - destruct Hl as [((Hf & Hn & HnH & Hop) & Hst & _ & _ & Hstop & _) Hix]. unfold stop_at in Hstop.
    rewrite u64_id by lia. destruct (Z.eqb_spec (index + 1) stop) as [<-|]; simpl; done.
  - destruct Hl as [((Hf & Hn & HnH & Hop) & Hst & Hfirst & _ & Hstop & _) Hj]. unfold stop_at in Hstop.
    pose proof (block_of_bounds start ltac:(lia)) as Hb.
    assert (Hle : stop <= first + n /\ (op = Single -> first + n <= stop)) by (split; [lia|intros Hs1; specialize (Hop Hs1); specialize (Hfirst Hs1); lia]).
    clear Hstop Hb. case_match. simplify_option_eq. case_match; [done|]. unfold next_block. destruct op as [|max].
    + simpl. rewrite seqZ_nil by naive_solver lia. done.
    + rewrite u64_id by lia. destruct (Z.eqb_spec stop (first + n)) as [->|]; simpl; [by rewrite seqZ_nil by lia|done].
Qed.

Lemma consumer_head pc s pc' s' out : consumer_step pc s = Some (pc', s', out) ->
  headIndex (producer_base s') = match pc with CTake _ n => u64 (headIndex (producer_base s) + n) | _ => headIndex (producer_base s) end.
Proof.
  intros E. destruct pc; simpl in E; unfold on_block in E; simplify_option_eq; try done. case_match. by simplify_option_eq.
Qed.

(** The elements that a consumer takes now. *)
Definition granted_by y t (pc : CPc) : Action A :=
  match pc with CTake _ n => ADequeue t (take (Z.to_nat n) (queued y)) | _ => ANone end.

Lemma filter_out t t' (out : option (Z * A)) :
  snd <$> filter (fun x : nat * Z * A => x.1.1 = t') (match out with Some (i, v) => [(t, i, v)] | None => [] end) =
  if decide (t = t') then match out with Some (_, v) => [v] | None => [] end else [].
Proof. destruct out as [[i v]|]; [|by case_decide]. rewrite filter_cons, filter_nil. simpl. by case_decide. Qed.

(** A consumer that takes elements leaves the rest. *)
Lemma take_bounds y op n t bs lo G fin gr rej H V : inv_with y bs lo G fin gr rej H V ->
  consumers y !! t = Some (CTake op n) ->
  headIndex (producer_base (state y)) = H /\ 0 <= H /\ 0 < n /\ H + n <= zlen (enqueued y).
Proof.
  intros Hi Ht. pose proof (iv_counts _ _ _ _ _ _ _ _ _ Hi) as Hc. destruct (iv_base _ _ _ _ _ _ _ _ _ Hi) as (_ & E & _).
  pose proof (co_over _ _ _ _ _ _ _ Hc _ _ Ht) as (Hn & _). pose proof (head_bound _ _ _ _ _ _ _ Hc).
  pose proof (head_bound _ _ _ _ _ _ _ (counts_take _ _ _ _ _ _ _ _ H _ _ Hc Ht)). split; [done|]. lia.
Qed.

Lemma take_refines y f t op n : refines y f -> inv y -> small y -> consumers y !! t = Some (CTake op n) ->
  exists f', fifo_step (granted_by y t (CTake op n)) f f' /\
    refines (MkSystem (on_base (set_headIndex (u64 (headIndex (producer_base (state y)) + n))) (state y)) (producer y)
               (<[t:=CIndex op (headIndex (producer_base (state y))) n]> (consumers y)) (enqueued y) (taken y ++ []) (claimed y + 0)) f'.
Proof.
  intros [Hi Hl Hg] (bs & lo & G & fin & gr & rej & H & V & Hinv) [HT _] Ht.
  destruct (take_bounds y op n t _ _ _ _ _ _ _ _ Hinv Ht) as (EH & H0 & Hn & Hle). rewrite EH. rewrite u64_id by lia.
  assert (Ht' : (t < length (consumers y))%nat) by (by eapply lookup_lt_Some).
  destruct (lookup_lt_is_Some_2 (given f) t ltac:(lia)) as [g Hgt].
  exists (MkFifo (drop (Z.to_nat n) (queued y)) (<[t:=g ++ take (Z.to_nat n) (queued y)]> (given f))). split.
  - apply fifo_dequeue; [by rewrite Hi, take_drop|done].
  - rewrite app_nil_r. split; cbn.
    + unfold queued. cbn. rewrite EH, drop_drop. f_equal. lia.
    + by rewrite !length_insert.
    + intros t' pc g' Hpc Hg'. apply list_lookup_insert_Some in Hpc as [(<- & <- & _)|[Hne Hpc]].
      * rewrite list_lookup_insert_eq in Hg' by lia. injection Hg' as <-. destruct (Hg t _ g Ht Hgt) as (rest & -> & Er).
        cbn in Er. destruct rest; [|done]. rewrite app_nil_r. exists (take (Z.to_nat n) (queued y)). split; [done|].
        unfold queued. rewrite EH, elements_range by (unfold zlen in Hle; lia). by rewrite !Z2Nat.id by lia.
      * rewrite list_lookup_insert_ne in Hg' by done. by apply (Hg t' pc g').
Qed.

Lemma consumer_refines y f t pc pc' s out : refines y f -> inv y -> small y -> consumers y !! t = Some pc ->
  consumer_step pc (state y) = Some (pc', s, out) ->
  (forall i v, out = Some (i, v) -> element_at (enqueued y) i = Some v) ->
  exists f', fifo_step (granted_by y t pc) f f' /\
    refines (MkSystem s (producer y) (<[t:=pc']> (consumers y)) (enqueued y)
      (taken y ++ match out with Some (i, v) => [(t, i, v)] | None => [] end) (claimed y + claims_of pc)) f'.
Proof.
  intros Hf Hinv Hs Ht E Hout. assert (Hpc : (exists op n, pc = CTake op n) \/ match pc with CTake _ _ => False | _ => True end) by (destruct pc; eauto).
  destruct Hpc as [(op & n & ->)|Hne].
  { simpl in E. injection E as <- <- <-. by eapply take_refines. }
  destruct Hinv as (bs & lo & G & fin & gr & rej & H & V & Hinv). destruct Hf as [Hi Hl Hg].
  pose proof (remaining_step y t pc pc' s out _ _ _ _ _ _ _ _ Hinv Hs Ht E) as Hrem.
  pose proof (consumer_head _ _ _ _ _ E) as Hh. exists f. split; [destruct pc; try done; constructor|]. split; cbn [items given consumers enqueued].
  - rewrite Hi. unfold queued. cbn. rewrite Hh. by destruct pc.
  - by rewrite length_insert.
  - intros t' pc0 g Hpc0 Hgt. rewrite moved_out_app, filter_out.
    apply list_lookup_insert_Some in Hpc0 as [(<- & <- & _)|[Hne' Hpc0]].
    + rewrite decide_True by done. destruct (Hg t pc g Ht Hgt) as (rest & -> & Er).
      assert (Hrem' : remaining pc = (match out with Some (i, _) => [i] | None => [] end) ++ remaining pc') by by destruct pc.
      rewrite Hrem' in Er. destruct out as [[i v]|]; [|by exists rest; rewrite app_nil_r].
      destruct rest as [|v' rest]; [done|]. rewrite !fmap_cons in Er. injection Er as E1 E2.
      rewrite (Hout i v eq_refl) in E1. injection E1 as ->. exists rest. by rewrite <- app_assoc.
    + rewrite decide_False, app_nil_r by done. by apply (Hg t' pc0 g).
Qed.

(** ** The refinement *)

Lemma refines_initial y : initial garbage y -> refines y (MkFifo [] (replicate (length (consumers y)) [])).
Proof.
  intros (? & ? & s & _ & _ & _ & n & r & ->). split; cbn.
  - unfold queued. cbn. by rewrite drop_nil.
  - by rewrite !length_replicate.
  - intros t pc g Hpc Hg. apply lookup_replicate in Hpc as [-> _]. apply lookup_replicate in Hg as [-> _]. by exists [].
Qed.

(** Steps, with the action that takes effect in them. *)
Inductive act_step : Action A -> Sys -> Sys -> Prop :=
| act_enqueue y mode x :
    is_idle (producer y) = true ->
    act_step ANone y (MkSystem (state y) (PStart mode x) (consumers y) (enqueued y) (taken y) (claimed y))
| act_dequeue y t op :
    consumers y !! t = Some CIdle -> op_ok op = true ->
    act_step ANone y (MkSystem (state y) (producer y) (<[t:=CTail op]> (consumers y)) (enqueued y) (taken y) (claimed y))
| act_producer y c pc s :
    choice_ok c (state y) -> producer_step garbage c (producer y) (state y) = Some (pc, s) ->
    act_step (published_by (producer y)) y (MkSystem s pc (consumers y)
                (match producer y with PTail x _ => enqueued y ++ [x] | _ => enqueued y end) (taken y) (claimed y))
| act_consumer y t pc pc' s out :
    consumers y !! t = Some pc -> consumer_step pc (state y) = Some (pc', s, out) ->
    act_step (granted_by y t pc) y (MkSystem s (producer y) (<[t:=pc']> (consumers y)) (enqueued y)
                (taken y ++ match out with Some (i, v) => [(t, i, v)] | None => [] end) (claimed y + claims_of pc)).

Lemma act_step_step y y' : step y y' <-> exists a, act_step a y y'.
Proof. split; [by intros []; eexists; econstructor|by intros (a & []); econstructor]. Qed.

(** The action of a step is taken by a thread that is in the call. *)
Definition in_call y (a : Action A) : Prop :=
  match a with
  | AEnqueue x => exists cur, producer y = PTail x cur
  | ADequeue t xs => exists op n, consumers y !! t = Some (CTake op n) /\ zlen xs = n
  | ANone => True
  end.

Lemma act_in_call a y y' : inv y -> act_step a y y' -> in_call y a.
Proof.
  intros Hinv Hst. revert Hinv. destruct Hst as [ | |y1 c pc s _ _|y1 t pc pc' s out Ht _]; intros Hinv; try done.
  - destruct (producer y1) eqn:Ep; try done. exists cur. exact Ep.
  - destruct pc; try done. exists op, n. split; [done|]. destruct Hinv as (bs & lo & G & fin & gr & rej & H & V & Hinv).
    destruct (take_bounds y1 op n t _ _ _ _ _ _ _ _ Hinv Ht) as (EH & H0 & Hn & Hle). unfold queued. rewrite EH.
    unfold zlen in *. rewrite length_take, length_drop. lia.
Qed.

Lemma act_refines a y y' f : small y -> inv y -> inv y' -> refines y f -> act_step a y y' ->
  exists f', fifo_step a f f' /\ refines y' f'.
Proof.
  intros Hs Hinv Hinv' Hf Hst. destruct Hst as [y mode x Hidle|y t op Ht Hop|y c pc s Hc E|y t pc pc' s out Ht E].
  - exists f. split; [constructor|]. by destruct Hf as [H1 H2 H3].
  - exists f. split; [constructor|]. destruct Hf as [H1 H2 H3]. split; cbn; [done|by rewrite length_insert|].
    intros t' pc g Hpc Hg. apply list_lookup_insert_Some in Hpc as [(<- & <- & _)|[Hne Hpc]]; [|by apply (H3 t' pc g)].
    by apply (H3 t CIdle g).
  - exact (producer_refines y f pc s _ Hf Hinv (producer_head _ _ _ _ _ E) eq_refl).
  - apply (consumer_refines y f t pc pc' s out Hf Hinv Hs Ht E). intros i v ->.
    destruct (inv_taken _ Hinv') as (Hlog & _). apply (Hlog t i v). simpl. set_solver.
Qed.

(** Both ends of a step are in the invariant. *)
Lemma valid_step y y' : valid garbage y -> small y' -> step y y' -> inv y /\ inv y'.
Proof.
  intros [Hr Hs] Hs' Hst. destruct (queue_inv garbage flags y Hr) as [_ Hi]. specialize (Hi Hs). split; [done|].
  by apply (step_keeps_inv garbage flags y y').
Qed.

(** C8: the queue of an explicit producer is linearizable.  It starts as an
    empty queue, and each step of a thread is either no operation on this
    abstract queue or a whole one, within the call of that thread: the element
    of the producer enters at the end, or a consumer is given the first
    elements, as many as it has claimed.  A consumer moves out what it was given,
    in this order, and has moved all of it out when its call returns. *)
Theorem explicit_queue_linearizable :
  (forall y, initial garbage y -> refines y (MkFifo [] (replicate (length (consumers y)) []))) /\
  (forall y y' f, valid garbage y -> small y' -> refines y f -> step y y' ->
     exists a f', fifo_step a f f' /\ in_call y a /\ refines y' f') /\
  (forall y f t g, refines y f -> given f !! t = Some g ->
     (forall pc, consumers y !! t = Some pc -> moved_out t y `prefix_of` g) /\
     (consumers y !! t = Some CIdle -> moved_out t y = g)).
Proof.
  split; [exact refines_initial|]. split.
  - intros y y' f Hv Hs' Hf Hst. destruct (valid_step y y' Hv Hs' Hst) as [Hi Hi']. destruct Hv as [_ Hs].
    apply act_step_step in Hst as [a Hst]. destruct (act_refines a y y' f Hs Hi Hi' Hf Hst) as (f' & Hstep & Hf').
    exists a, f'. split; [done|]. split; [by eapply act_in_call|done].
  - intros y f t g [_ _ Hg] Hgt. split.
    + intros pc Ht. destruct (Hg t pc g Ht Hgt) as (rest & -> & _). by apply prefix_app_r.
    + intros Ht. destruct (Hg t CIdle g Ht Hgt) as (rest & -> & Er). destruct rest; [by rewrite app_nil_r|done].
Qed.

(** The abstract queue of a state that is reached. *)
Lemma refines_reached y : valid garbage y -> exists f, refines y f.
Proof.
  intros [Hr Hs]. revert Hs. enough (H : reachable (initial garbage) step y /\ (small y -> exists f, refines y f)) by apply H.
  revert y Hr. apply reachable_inv.
  - intros y Hy. split; [by exists y|]. intros _. eexists. by apply refines_initial.
  - intros y y' [Hr IH] Hst. split; [by eapply reachable_step; [|apply rtc_once]|]. intros Hs'.
    destruct (queue_inv garbage flags y Hr) as [Hc _]. destruct (step_claims garbage y y' Hc Hst) as (_ & H1 & H2).
    assert (Hs : small y) by (unfold small in *; lia). destruct (IH Hs) as [f Hf].
    destruct (valid_step y y' (conj Hr Hs) Hs' Hst) as [Hi Hi']. apply act_step_step in Hst as [a Hst].
    destruct (act_refines a y y' f Hs Hi Hi' Hf Hst) as (f' & _ & Hf'). by exists f'.
Qed.

(** What an action does to the elements. *)
Lemma act_queued a y y' : valid garbage y -> small y' -> act_step a y y' ->
  match a with
  | AEnqueue x => queued y' = queued y ++ [x]
  | ADequeue _ xs => queued y = xs ++ queued y'
  | ANone => queued y' = queued y
  end.
Proof.
  intros Hv Hs' Hst. destruct (refines_reached y Hv) as [f Hf].
  destruct (valid_step y y' Hv Hs') as [Hi Hi']; [by apply act_step_step; exists a|]. destruct Hv as [_ Hs].
  destruct (act_refines a y y' f Hs Hi Hi' Hf Hst) as (f' & Hstep & Hf').
  rewrite <- (rf_items _ _ Hf), <- (rf_items _ _ Hf'). by destruct Hstep.
Qed.
End Linear.

(** *** An example *)

#[local] Existing Instance ConcurrentQueueDefaultTraits.

(** Two elements are enqueued, and consumer 0 is about to take the first. *)
Definition linear_run : list (Turn (A := Z)) :=
  [Enqueue CanAlloc 11] ++ producer_turns 2 ++
  [ProducerTurn (MkChoice (Some 100) None); ProducerTurn (MkChoice None (Some (200, example_block)))] ++ producer_turns 38 ++
  [Enqueue CanAlloc 12] ++ producer_turns 3 ++ [Dequeue 0 Single] ++ replicate 5 (ConsumerTurn 0).

Lemma explicit_queue_linearizable_witness :
  let y := example_at linear_run in let y' := example_at (linear_run ++ [ConsumerTurn 0]) in
  exists a f', fifo_step a (MkFifo [11; 12] [[]; []]) f' /\ in_call y a /\ refines y' f' /\ items f' = [12].
Proof.
  intros y y'. destruct (explicit_queue_linearizable (A := Z) (MkEntry 0 0) default_flags) as (_ & Hstep & _).
  destruct (Hstep y y' (MkFifo [11; 12] [[]; []])) as (a & f' & Hf & Hc & Hr).
  - apply example_valid; by vm_compute.
  - by vm_compute.
  - split; [by vm_compute|by vm_compute|]. intros [|[|t]] pc g Ht Hg; [| |done];
      vm_compute in Ht, Hg; injection Ht as <-; injection Hg as <-; exists []; by vm_compute.
  - apply (take_turn_step (MkEntry 0 0) y (ConsumerTurn 0)). by vm_compute.
  - exists a, f'. split; [exact Hf|]. split; [exact Hc|]. split; [exact Hr|]. rewrite (rf_items _ _ Hr). by vm_compute.
Defined.
