(* ===== verification/ExplicitBulk.v ===== *)
(** * Bulk enqueueing with an explicit producer
    ([whisperlib/sync/moody/concurrentqueue.h],
    [ConcurrentQueue::ExplicitProducer::enqueue_bulk])

    While no consumer runs: [enqueue_bulk] as a function on the state of
    ExplicitProducer.v.  It allocates all the blocks first, enters them in the
    block index, and constructs the elements when all allocations succeeded;
    when one fails, it keeps the new blocks in the ring. *)

From S2P Require Import Prelude Posix MoodyDetails MoodyBlock ExplicitProducer.

Section Bulk.
Context {traits : Traits} {A : Type} (garbage : BlockIndexEntry).
Abbreviation S := (ExplicitProducer A).
Implicit Types s : S.

(** The local variables that the loops change. *)
Record Locals := MkLocals {
  blockBaseDiff : Z;
  currentTailIndex : Z;
  firstAllocatedBlock : ptr;
  originalBlockIndexFront : Z
}.

Definition tail_of s : ptr := tailBlock (producer_base s).

(** The last block gets an entry, in the next slot. *)
Definition enter_block (base : Z) s : option S :=
  s ← on_entry (pr_blockIndexFront s) (fun _ => MkEntry base (tail_of s)) s;
  Some (set_pr_front (next_slot (pr_blockIndexFront s) (pr_blockIndexSize s)) s).

(** One more block is allocated, and [p] is now the last one. *)
Definition allocated (p : ptr) (l : Locals) : Locals :=
  MkLocals (u64 (blockBaseDiff l - BLOCK_SIZE)) (u64 (currentTailIndex l + BLOCK_SIZE))
    (if decide (firstAllocatedBlock l = 0) then p else firstAllocatedBlock l) (originalBlockIndexFront l).

Definition set_fallback (i : Z) (l : Locals) : Locals :=
  MkLocals (blockBaseDiff l) (currentTailIndex l) (firstAllocatedBlock l) i.

(** [while (blockBaseDiff > 0 && this->tailBlock != nullptr &&
           this->tailBlock->next != firstAllocatedBlock && this->tailBlock->next->is_empty())] *)
Fixpoint reuse_blocks (fuel : nat) (l : Locals) s : option (Locals * S) :=
  if 0 <? blockBaseDiff l then
    if decide (tail_of s = 0) then Some (l, s)
    else t ← blocks s !! tail_of s;
         if decide (next t = firstAllocatedBlock l) then Some (l, s)
         else b ← blocks s !! next t;
              if is_empty explicit_context b then
                match fuel with
                | O => None
                | Datatypes.S fuel =>
                    let s := on_base (set_tailBlock (next t)) s in
                    let l := allocated (next t) l in
                    s ← enter_block (currentTailIndex l) s;
                    reuse_blocks fuel l s
                end
              else Some (l, s)
  else Some (l, s).

(** A failed allocation: the new blocks stay in the ring. *)
Definition undo_allocations (startBlock : ptr) (originalBlockIndexSlotsUsed : Z) (l : Locals) s : S :=
  on_base (set_tailBlock (if decide (startBlock = 0) then firstAllocatedBlock l else startBlock))
    (set_used originalBlockIndexSlotsUsed (set_pr_front (originalBlockIndexFront l) s)).

(** The new block [p] enters the ring after the tail, and is the tail. *)
Definition insert_block (p : ptr) s : option S :=
  s ← on_block p (set_all_empty explicit_context) s;
  s ← (if decide (tail_of s = 0) then on_block p (set_next p) s
       else t ← blocks s !! tail_of s;
            s ← on_block p (set_next (next t)) s;
            on_block (tail_of s) (set_next p) s);
  Some (on_base (set_tailBlock p) s).

(** [while (blockBaseDiff > 0)]: what each round allocates is a choice. *)
Fixpoint new_blocks (mode : AllocationMode) (startBlock : ptr) (originalBlockIndexSlotsUsed : Z)
    (cs : list (Choice (A := A))) (l : Locals) s : option (option Locals * S) :=
  if 0 <? blockBaseDiff l then
    match cs with
    | [] => None
    | c :: cs =>
        let failed l s := Some (None, undo_allocations startBlock originalBlockIndexSlotsUsed l s) in
        let cur := u64 (currentTailIndex l + BLOCK_SIZE) in
        let head := headIndex (producer_base s) in
        if circular_less_than cur head then None
        else
          let full := no_leeway cur head in
          let index := bool_decide (pr_blockIndexRaw s = 0 \/ pr_blockIndexSlotsUsed s = pr_blockIndexSize s) in
          if (index || full) && (full || match mode with CannotAlloc => true | CanAlloc => false end) then failed l s
          else
            '(ok, l, s) ← (if index then
                             '(ok, s) ← new_block_index garbage originalBlockIndexSlotsUsed (malloc c) s;
                             Some (ok : bool, if ok then set_fallback originalBlockIndexSlotsUsed l else l, s)
                           else Some (true, l, s));
            if negb ok then failed l s
            else
              match requisition_block c with
              | None => failed l s
              | Some (p, b) =>
                  let l := allocated p l in
                  s ← insert_block p (set_blocks (<[p:=b]> (blocks s)) s);
                  let s := set_used (u64 (pr_blockIndexSlotsUsed s + 1)) s in
                  s ← enter_block (currentTailIndex l) s;
                  new_blocks mode startBlock originalBlockIndexSlotsUsed cs l s
              end
    end
  else Some (Some l, s).

(** [reset_empty] on the blocks from [p] on, to the tail. *)
Fixpoint reset_blocks (fuel : nat) (p : ptr) s : option S :=
  match fuel with
  | O => None
  | Datatypes.S fuel =>
      s ← on_block p (reset_empty explicit_context) s;
      if decide (p = tail_of s) then Some s else b ← blocks s !! p; reset_blocks fuel (next b) s
  end.

(** [while (currentTailIndex != stopIndex) new (...) T(...)], on raw memory. *)
Fixpoint construct (fuel : nat) (cur stop : Z) (items : list A) s : option (list A * S) :=
  if cur =? stop then Some (items, s)
  else
    match fuel, items with
    | Datatypes.S fuel, x :: items =>
        b ← blocks s !! tail_of s;
        raw ← element cur b;
        match raw with
        | None => s ← on_block (tail_of s) (set_element cur (Some x)) s; construct fuel (u64 (cur + 1)) stop items s
        | Some _ => None
        end
    | _, _ => None
    end.

(** The loop over the blocks, to [endBlock]. *)
Fixpoint fill_blocks (fuel : nat) (endBlock : ptr) (newTailIndex cur : Z) (items : list A) s : option S :=
  match fuel with
  | O => None
  | Datatypes.S fuel =>
      let stopIndex := u64 (block_base cur + BLOCK_SIZE) in
      let stopIndex := if circular_less_than newTailIndex stopIndex then newTailIndex else stopIndex in
      '(items, s) ← construct (Z.to_nat BLOCK_SIZE) cur stopIndex items s;
      if decide (tail_of s = endBlock) then if stopIndex =? newTailIndex then Some s else None
      else b ← blocks s !! tail_of s;
           fill_blocks fuel endBlock newTailIndex stopIndex items (on_base (set_tailBlock (next b)) s)
  end.

(** The part after the allocations. *)
Definition fill (startTailIndex : Z) (startBlock firstAllocatedBlock : ptr) (items : list A) (fuel : nat) s : option (bool * S) :=
  let newTailIndex := u64 (startTailIndex + zlen items) in
  let endBlock := tail_of s in
  if (in_block startTailIndex =? 0) && bool_decide (firstAllocatedBlock = 0) && negb (zlen items =? 0) then None
  else
    let first := if (in_block startTailIndex =? 0) && negb (bool_decide (firstAllocatedBlock = 0)) then firstAllocatedBlock else startBlock in
    s ← fill_blocks fuel endBlock newTailIndex startTailIndex items (on_base (set_tailBlock first) s);
    Some (true, on_base (set_tailIndex newTailIndex) s).

Definition enqueue_bulk (mode : AllocationMode) (items : list A) (cs : list (Choice (A := A))) s : option (bool * S) :=
  let startTailIndex := tailIndex (producer_base s) in
  let startBlock := tail_of s in
  let used := pr_blockIndexSlotsUsed s in
  let before := block_base (u64 (startTailIndex - 1)) in
  let diff := u64 (block_base (u64 (u64 (startTailIndex + zlen items) - 1)) - before) in
  let fuel := Datatypes.S (Z.to_nat (diff / BLOCK_SIZE)) in
  if 0 <? diff then
    '(l, s) ← reuse_blocks fuel (MkLocals diff before 0 (pr_blockIndexFront s)) s;
    '(l, s) ← new_blocks mode startBlock used cs l s;
    match l with
    | None => Some (false, s)
    | Some l =>
        s ← reset_blocks fuel (firstAllocatedBlock l) s;
        h ← headers s !! blockIndex s;
        let front := Z.land (u64 (pr_blockIndexFront s - 1)) (u64 (pr_blockIndexSize s - 1)) in
        let s := set_headers (<[blockIndex s:=set_front front h]> (headers s)) s in
        fill startTailIndex startBlock (firstAllocatedBlock l) items fuel s
    end
  else fill startTailIndex startBlock 0 items 1 s.
End Bulk.
