(* ===== verification/ExplicitBulkSpec.v ===== *)
(** * Bulk enqueueing, and what a failed one does

    Proofs about ExplicitBulk.v. *)

From S2P Require Import Prelude Posix MoodyDetails MoodyBlock ExplicitProducer ExplicitProducerSpec ExplicitProducerQueue ExplicitBulk.

(** ** A failed bulk

    The blocks that a failed [enqueue_bulk] leaves in the ring are not counted
    in [pr_blockIndexSlotsUsed], and [enqueue] reuses them as if they were. *)

#[local] Existing Instance ConcurrentQueueDefaultTraits.

Section Example.
Abbreviation Sys := (System (A := Z)).
Implicit Types y : Sys.

(** The producer takes steps until it is idle. *)
Fixpoint finish (fuel : nat) (c : Choice (A := Z)) y : option Sys :=
  if is_idle (producer y) then Some y
  else match fuel with O => None | Datatypes.S fuel => y ← take_turn (MkEntry 0 0) y (ProducerTurn c); finish fuel c y end.

Definition no_choice : Choice (A := Z) := MkChoice None None.
Definition pool_block (p : Z) : Choice (A := Z) := MkChoice None (Some (p, Block_ctor (replicate 32 false))).

Fixpoint enqueue_all (items : list Z) y : option Sys :=
  match items with
  | [] => Some y
  | x :: items => y ← take_turn (MkEntry 0 0) y (Enqueue CanAlloc x); y ← finish 100 no_choice y; enqueue_all items y
  end.

Definition range (n : nat) : list Z := Z.of_nat <$> seq 0 n.

(** A queue with a pool of 32 blocks: [try_enqueue_bulk] of 1025 elements fails;
    1024 elements are enqueued one by one, and another one in a new block; one
    is dequeued. *)
Definition scenario : option (list Z * list (nat * Z * Z)) :=
  s ← ExplicitProducer_ctor (MkEntry 0 0) 32 (Some 1);
  '(ok, s) ← enqueue_bulk (MkEntry 0 0) CannotAlloc (range 1025) ((fun p => pool_block (1000 + p)) <$> range 33) s;
  if ok : bool then None
  else
    y ← enqueue_all (range 1024) (MkSystem s (PIdle false) [CIdle] [] [] 0);
    y ← run (MkEntry 0 0) (Enqueue CanAlloc 1024 :: replicate 3 (ProducerTurn no_choice) ++ [ProducerTurn (pool_block 2000)]) y;
    y ← finish 100 no_choice y;
    y ← run (MkEntry 0 0) (Dequeue 0 Single :: replicate 13 (ConsumerTurn 0)) y;
    Some (enqueued y, taken y).

(** Another: 1024 elements are enqueued in a queue whose block index has 32
    slots, and 64 are dequeued; [enqueue_bulk] reuses two blocks, makes a new
    block index and fails to get a block; one element is enqueued in a block that
    was reused, and one is dequeued. *)
Fixpoint enqueue_new (items : list Z) y : option Sys :=
  match items with
  | [] => Some y
  | x :: items =>
      y ← (if in_block (tailIndex (producer_base (state y))) =? 0 then
             y ← run (MkEntry 0 0) (Enqueue CanAlloc x :: replicate (if decide (tailBlock (producer_base (state y)) = 0) then 2 else 3) (ProducerTurn no_choice)) y;
             run (MkEntry 0 0) [ProducerTurn (pool_block (1000 + x))] y
           else take_turn (MkEntry 0 0) y (Enqueue CanAlloc x));
      y ← finish 100 no_choice y; enqueue_new items y
  end.

Fixpoint dequeue_all (n : nat) y : option Sys :=
  match n with O => Some y | Datatypes.S n => y ← run (MkEntry 0 0) (Dequeue 0 Single :: replicate 13 (ConsumerTurn 0)) y; dequeue_all n y end.

Definition scenario_index : option (list Z * list (nat * Z * Z)) :=
  s ← ExplicitProducer_ctor (MkEntry 0 0) 32 (Some 1);
  y ← enqueue_new (range 1024) (MkSystem s (PIdle false) [CIdle] [] [] 0);
  y ← dequeue_all 64 y;
  '(ok, s) ← enqueue_bulk (MkEntry 0 0) CanAlloc (range 96) [MkChoice (Some 2) None] (state y);
  if ok : bool then None
  else
    y ← enqueue_all [1024] (MkSystem s (PIdle false) (consumers y) (enqueued y) (taken y) (claimed y));
    y ← run (MkEntry 0 0) (Dequeue 0 Single :: replicate 13 (ConsumerTurn 0)) y;
    Some (enqueued y, taken y).
End Example.

(** After an [enqueue_bulk] that failed, the queue may give out the wrong
    elements: in [scenario] the first one is not the first enqueued but the
    1025th, and in [scenario_index] the 65th is the 129th. *)
Theorem failed_bulk_breaks_order :
  (exists e, scenario = Some (e, [(0%nat, 0, 1024)]) /\ e !! 0%nat = Some 0) /\
  (exists e l, scenario_index = Some (e, l) /\ last l = Some (0%nat, 64, 128) /\ e !! 64%nat = Some 64).
Proof.
  split.
  - exists (range 1025). vm_compute. by split.
  - exists (range 1025). eexists. split; [vm_compute; reflexivity|]. vm_compute. by split.
Qed.
