(* ===== verification/MoodyFreeList.v ===== *)
(** * The lock-free free list
    ([whisperlib/sync/moody/concurrentqueue.h], [ConcurrentQueue::FreeList])

    A stack of nodes with reference counts.  Any number of threads add nodes and
    get them; each atomic access is a step.  A node is never freed while the list
    exists. *)

From S2P Require Import Prelude Posix MoodyDetails MoodyBlock.

Definition REFS_MASK : Z := 2147483647.
Definition SHOULD_BE_ON_FREELIST : Z := 2147483648.

(** The head, and the two members of each node. *)
Record FreeList := MkFreeList {
  freeListHead : ptr;
  freeListRefs : gmap ptr Z;
  freeListNext : gmap ptr ptr
}.

Definition set_head p s := MkFreeList p (freeListRefs s) (freeListNext s).
Definition set_refs n r s := MkFreeList (freeListHead s) (<[n:=r]> (freeListRefs s)) (freeListNext s).
Definition set_node_next n p s := MkFreeList (freeListHead s) (freeListRefs s) (<[n:=p]> (freeListNext s)).

(** Where [add_knowing_refcount_is_zero] returns to: the end of [add], or the
    loop of [try_get]. *)
Inductive Caller := FromAdd | FromGet (head : ptr).

(** The program points, with the local variables. *)
Inductive FPc :=
| FIdle
| FAdd (node : ptr)
| FAddHead (node : ptr) (caller : Caller)
| FAddNext (node : ptr) (caller : Caller) (head : ptr)
| FAddRefs (node : ptr) (caller : Caller) (head : ptr)
| FAddSwap (node : ptr) (caller : Caller) (head : ptr)
| FAddFailed (node : ptr) (caller : Caller) (head : ptr)
| FGetHead
| FGetRefs (head : ptr)
| FGetIncrement (head : ptr) (refs : Z)
| FGetNext (head : ptr)
| FGetSwap (head next : ptr)
| FGetAssert (head : ptr)
| FGetRelease (head : ptr)
| FGetFailed (prevHead head : ptr).

#[export] Instance Caller_eq : EqDecision Caller.
Proof. solve_decision. Defined.
#[export] Instance FPc_eq : EqDecision FPc.
Proof. solve_decision. Defined.

(** [while (head != nullptr)] *)
Definition get_loop (head : ptr) : FPc := if decide (head = 0) then FIdle else FGetRefs head.

Definition return_to (caller : Caller) : FPc := match caller with FromAdd => FIdle | FromGet head => get_loop head end.

(** One step of a thread, and the node that [try_get] returns. *)
Definition free_list_step (pc : FPc) (s : FreeList) : option (FPc * FreeList * option ptr) :=
  match pc with
  | FIdle => None
  | FAdd node =>
      refs ← freeListRefs s !! node;
      Some (if refs =? 0 then FAddHead node FromAdd else FIdle, set_refs node (u32 (refs + SHOULD_BE_ON_FREELIST)) s, None)
  | FAddHead node caller => Some (FAddNext node caller (freeListHead s), s, None)
  | FAddNext node caller head => Some (FAddRefs node caller head, set_node_next node head s, None)
  | FAddRefs node caller head => Some (FAddSwap node caller head, set_refs node 1 s, None)
  | FAddSwap node caller head =>
      Some (if freeListHead s =? head then (return_to caller, set_head node s, None)
            else (FAddFailed node caller (freeListHead s), s, None))
  | FAddFailed node caller head =>
      refs ← freeListRefs s !! node;
      Some (if refs =? 1 then FAddNext node caller head else return_to caller,
            set_refs node (u32 (refs + (SHOULD_BE_ON_FREELIST - 1))) s, None)
  | FGetHead => Some (get_loop (freeListHead s), s, None)
  | FGetRefs head => refs ← freeListRefs s !! head; Some (FGetIncrement head refs, s, None)
  | FGetIncrement head refs =>
      now ← freeListRefs s !! head;
      Some (if (Z.land refs REFS_MASK =? 0) || negb (now =? refs) then (FGetHead, s, None)
            else (FGetNext head, set_refs head (u32 (refs + 1)) s, None))
  | FGetNext head => next ← freeListNext s !! head; Some (FGetSwap head next, s, None)
  | FGetSwap head next =>
      Some (if freeListHead s =? head then (FGetAssert head, set_head next s, None)
            else (FGetFailed head (freeListHead s), s, None))
  | FGetAssert head =>
      refs ← freeListRefs s !! head;
      if Z.land refs SHOULD_BE_ON_FREELIST =? 0 then Some (FGetRelease head, s, None) else None
  | FGetRelease head =>
      refs ← freeListRefs s !! head; Some (FIdle, set_refs head (u32 (refs - 2)) s, Some head)
  | FGetFailed prevHead head =>
      refs ← freeListRefs s !! prevHead;
      Some (if refs =? SHOULD_BE_ON_FREELIST + 1 then FAddHead prevHead (FromGet head) else get_loop head,
            set_refs prevHead (u32 (refs - 1)) s, None)
  end.

(** ** The system

    [owned] are the nodes that no thread works on and that are not in the list:
    the callers have them. *)
Record Lists := MkLists {
  free_list : FreeList;
  threads : list FPc;
  owned : list ptr
}.

Inductive free_step : Lists -> Lists -> Prop :=
| free_create y n :
    n <> 0 -> freeListRefs (free_list y) !! n = None ->
    free_step y (MkLists (MkFreeList (freeListHead (free_list y)) (<[n:=0]> (freeListRefs (free_list y))) (<[n:=0]> (freeListNext (free_list y))))
                   (threads y) (owned y ++ [n]))
| free_add y t l n r :
    threads y !! t = Some FIdle -> owned y = l ++ n :: r ->
    free_step y (MkLists (free_list y) (<[t:=FAdd n]> (threads y)) (l ++ r))
| free_get y t :
    threads y !! t = Some FIdle -> free_step y (MkLists (free_list y) (<[t:=FGetHead]> (threads y)) (owned y))
| free_thread y t pc pc' s out :
    threads y !! t = Some pc -> free_list_step pc (free_list y) = Some (pc', s, out) ->
    free_step y (MkLists s (<[t:=pc']> (threads y)) (owned y ++ match out with Some n => [n] | None => [] end)).

(** An empty list; the counts of the threads fit in 31 bits. *)
Definition free_initial (y : Lists) : Prop :=
  exists n, y = MkLists (MkFreeList 0 ∅ ∅) (replicate n FIdle) [] /\ Z.of_nat n + 2 < 2 ^ 31.
