(* ===== verification/MoodyFreeListSpec.v ===== *)
(** * The lock-free free list keeps its nodes

    Proofs about MoodyFreeList.v: what the reference counts count, in every
    interleaving. *)

From S2P Require Import Prelude Posix MoodyDetails MoodyBlock MoodyFreeList.

(** ** Occurrences *)

Definition occ (n : ptr) (l : list ptr) : Z := zlen (filter (fun x => x = n) l).

Lemma occ_nonneg n l : 0 <= occ n l.
Proof. apply zlen_nonneg. Qed.

Lemma occ_nil n : occ n [] = 0.
Proof. done. Qed.

Lemma occ_app n l k : occ n (l ++ k) = occ n l + occ n k.
Proof. unfold occ. by rewrite filter_app, zlen_app. Qed.

Lemma occ_cons n m l : occ n (m :: l) = (if decide (m = n) then 1 else 0) + occ n l.
Proof. change (m :: l) with ([m] ++ l). rewrite occ_app. f_equal. unfold occ. rewrite filter_cons. by case_decide. Qed.

Lemma occ_perm n l k : l ≡ₚ k -> occ n l = occ n k.
Proof. intros E. unfold occ, zlen. by rewrite E. Qed.

Lemma occ_elem n l : n ∈ l <-> 0 < occ n l.
Proof.
  induction l as [|m l IH]; [rewrite occ_nil; split; [set_solver|lia]|]. rewrite occ_cons, elem_of_cons, IH.
  pose proof (occ_nonneg n l). case_decide; [|naive_solver lia]. split; [lia|intros _; by left].
Qed.

Lemma occ_NoDup l : (forall n, occ n l <= 1) -> NoDup l.
Proof.
  induction l as [|m l IH]; intros Hl; [constructor|]. constructor.
  - rewrite occ_elem. specialize (Hl m). rewrite occ_cons, decide_True in Hl by done. lia.
  - apply IH. intros n. specialize (Hl n). rewrite occ_cons in Hl. case_decide; lia.
Qed.

Lemma occ_held (f : FPc -> list ptr) ts t pc pc' n : ts !! t = Some pc ->
  occ n (held f (<[t:=pc']> ts)) = occ n (held f ts) - occ n (f pc) + occ n (f pc').
Proof.
  intros Ht. pose proof (held_insert f ts t pc pc' Ht) as E. apply (occ_perm n) in E. rewrite !occ_app in E. lia.
Qed.

Lemma occ_lookup (f : FPc -> list ptr) ts t pc n : ts !! t = Some pc -> occ n (f pc) <= occ n (held f ts).
Proof.
  revert t. induction ts as [|x ts IH]; intros [|t] E; simplify_eq/=; rewrite occ_app.
  - pose proof (occ_nonneg n (held f ts)). lia.
  - specialize (IH _ E). pose proof (occ_nonneg n (f x)). lia.
Qed.

Lemma occ_held_le (f g : FPc -> list ptr) ts n : (forall pc, occ n (f pc) <= occ n (g pc)) -> occ n (held f ts) <= occ n (held g ts).
Proof. intros Hf. induction ts as [|x ts IH]; simpl; [done|]. rewrite !occ_app. specialize (Hf x). lia. Qed.

(** ** The invariant *)

(** What a thread has: a node that it is to add or has taken off the list, the
    reference of the list to it, the duty to add it, a reference of [try_get]. *)
Definition works (pc : FPc) : list ptr :=
  match pc with
  | FAdd n | FAddHead n _ | FAddNext n _ _ | FAddRefs n _ _ | FAddSwap n _ _ | FAddFailed n _ _ | FGetAssert n | FGetRelease n => [n]
  | _ => []
  end.
Definition lists (pc : FPc) : list ptr :=
  match pc with FAddSwap n _ _ | FAddFailed n _ _ | FGetAssert n | FGetRelease n => [n] | _ => [] end.
Definition should (pc : FPc) : list ptr :=
  match pc with FAddHead n _ | FAddNext n _ _ | FAddRefs n _ _ => [n] | _ => [] end.
Definition refers (pc : FPc) : list ptr :=
  match pc with FGetNext n | FGetSwap n _ | FGetAssert n | FGetRelease n | FGetFailed n _ => [n] | _ => [] end.

Fixpoint linked (next : gmap ptr ptr) (p : ptr) (L : list ptr) : Prop :=
  match L with
  | [] => p = 0
  | n :: L => p = n /\ exists q, next !! n = Some q /\ linked next q L
  end.

Definition known (s : FreeList) (n : ptr) : Prop := is_Some (freeListRefs s !! n).
Definition known_or_null s n : Prop := n = 0 \/ known s n.
Definition caller_ok s (c : Caller) : Prop := match c with FromAdd => True | FromGet head => known_or_null s head end.

Definition thread_ok (s : FreeList) (pc : FPc) : Prop :=
  match pc with
  | FAddHead n c | FAddNext n c _ | FAddFailed n c _ => caller_ok s c
  | FAddRefs n c head | FAddSwap n c head => caller_ok s c /\ freeListNext s !! n = Some head
  | FGetRefs head | FGetIncrement head _ => known s head
  | FGetSwap head next => freeListNext s !! head = Some next
  | FGetFailed _ head => known_or_null s head
  | _ => True
  end.

(** The numbers of node [n]: its places, and what its count counts. *)
Definition places n L pend (y : Lists) : Z := occ n L + occ n pend + occ n (owned y) + occ n (held works (threads y)).

Definition count_of n L pend (y : Lists) : Z :=
  SHOULD_BE_ON_FREELIST * (occ n pend + occ n (held should (threads y))) +
  (occ n L + occ n (held lists (threads y))) + occ n (held refers (threads y)).

(** Each node is in one place; a node that is pending has references, one that
    is being added has none. *)
Definition node_ok n L pend (y : Lists) : Prop :=
  match freeListRefs (free_list y) !! n with
  | None => places n L pend y = 0 /\ occ n (held refers (threads y)) = 0
  | Some r =>
      n <> 0 /\ is_Some (freeListNext (free_list y) !! n) /\ places n L pend y = 1 /\ r = count_of n L pend y /\
      (0 < occ n pend -> 0 < occ n (held refers (threads y))) /\
      (0 < occ n (held should (threads y)) -> occ n (held refers (threads y)) = 0)
  end.

Record free_inv (y : Lists) L pend : Prop := {
  fi_linked : linked (freeListNext (free_list y)) (freeListHead (free_list y)) L;
  fi_nodes : forall n, node_ok n L pend y;
  fi_threads : forall t pc, threads y !! t = Some pc -> thread_ok (free_list y) pc;
  fi_small : zlen (threads y) + 2 < 2 ^ 31
}.

(** A thread has at most one duty for a node that it has. *)
Lemma occ_duties n ts : occ n (held should ts) + occ n (held lists ts) <= occ n (held works ts).
Proof.
  induction ts as [|pc ts IH]; simpl; [done|]. rewrite !occ_app.
  assert (occ n (should pc) + occ n (lists pc) <= occ n (works pc)); [|lia].
  pose proof (fun m => occ_nonneg n [m]). destruct pc; simpl; rewrite ?occ_nil; try lia; specialize (H node) || specialize (H head); lia.
Qed.

Lemma occ_refers n ts : 0 <= occ n (held refers ts) <= zlen ts.
Proof.
  induction ts as [|pc ts IH]; simpl; [done|]. rewrite occ_app, zlen_cons.
  assert (0 <= occ n (refers pc) <= 1); [|lia]. destruct pc; simpl; rewrite ?occ_cons, ?occ_nil; try case_decide; lia.
Qed.

(** All the bounds on the numbers of a node, those of thread [t] apart. *)
Lemma node_bounds n ts t pc : ts !! t = Some pc ->
  occ n (should pc) <= occ n (held should ts) /\ occ n (lists pc) <= occ n (held lists ts) /\
  occ n (works pc) <= occ n (held works ts) /\ occ n (refers pc) <= occ n (held refers ts) <= zlen ts /\
  occ n (held should ts) - occ n (should pc) + (occ n (held lists ts) - occ n (lists pc)) <= occ n (held works ts) - occ n (works pc).
Proof.
  intros Ht. pose proof (occ_duties n (<[t:=FIdle]> ts)) as Hd. rewrite !(occ_held _ _ t _ _ n Ht) in Hd. simpl in Hd. rewrite occ_nil in Hd.
  pose proof (occ_refers n ts). split_and!; try (by apply (occ_lookup _ _ t)); lia.
Qed.

Lemma linked_insert next p L n q : n ∉ L -> linked next p L -> linked (<[n:=q]> next) p L.
Proof.
  revert p. induction L as [|m L IH]; intros p Hn; simpl; [done|]. intros (-> & q' & E & Hl). split; [done|].
  exists q'. rewrite lookup_insert_ne by set_solver. split; [done|]. apply IH; [set_solver|done].
Qed.

Lemma linked_head next p L : linked next p L -> p = 0 \/ p ∈ L.
Proof. destruct L as [|n L]; simpl; [by left|]. intros [-> _]. right. set_solver. Qed.

Lemma land_pow2_small x k : 0 <= k -> 0 <= x < 2 ^ k -> Z.land x (2 ^ k) =? 0 = true.
Proof.
  intros Hk Hx. apply Z.eqb_eq, Z.bits_inj'. intros i Hi. rewrite Z.land_spec, Z.bits_0, Z.pow2_bits_eqb by done.
  destruct (Z.eqb_spec k i) as [->|]; [|apply andb_false_r]. rewrite andb_true_r.
  destruct (Z.eq_dec x 0) as [->|Hx0]; [by rewrite Z.bits_0|]. apply Z.bits_above_log2; [lia|]. apply Z.log2_lt_pow2; lia.
Qed.

(** ** Each step *)

(** The state after a step of thread [t]. *)
Definition after y t pc' s (out : option ptr) : Lists :=
  MkLists s (<[t:=pc']> (threads y)) (owned y ++ match out with Some n => [n] | None => [] end).

(** A node that the step does not concern. *)
Lemma node_other n y t pc pc' s out L L' pend pend' : threads y !! t = Some pc -> node_ok n L pend y ->
  freeListRefs s !! n = freeListRefs (free_list y) !! n ->
  (is_Some (freeListNext (free_list y) !! n) -> is_Some (freeListNext s !! n)) ->
  occ n L' = occ n L -> occ n pend' = occ n pend -> out <> Some n ->
  occ n (works pc') = occ n (works pc) -> occ n (lists pc') = occ n (lists pc) ->
  occ n (should pc') = occ n (should pc) -> occ n (refers pc') = occ n (refers pc) ->
  node_ok n L' pend' (after y t pc' s out).
Proof.
  intros Ht Hn Er Ex El Ep Eo Ew Ei Es Ef. unfold node_ok, places, count_of, after in *. simpl. rewrite Er, El, Ep, occ_app.
  rewrite !(occ_held _ _ t pc pc' _ Ht), Ew, Ei, Es, Ef.
  assert (occ n (match out with Some m => [m] | None => [] end) = 0) as ->.
  { destruct out as [m|]; [|done]. rewrite occ_cons, decide_False by congruence. done. }
  destruct (freeListRefs (free_list y) !! n); [|lia]. destruct Hn as (H1 & H2 & H3 & H4 & H5 & H6). split_and!; [done|auto|lia|lia|lia|lia].
Qed.

Lemma inv_after y t pc pc' s out L L' pend pend' : free_inv y L pend -> threads y !! t = Some pc ->
  linked (freeListNext s) (freeListHead s) L' -> thread_ok s pc' ->
  (forall t' pc0, t' <> t -> threads y !! t' = Some pc0 -> thread_ok (free_list y) pc0 -> thread_ok s pc0) ->
  (forall n, node_ok n L' pend' (after y t pc' s out)) -> free_inv (after y t pc' s out) L' pend'.
Proof.
  intros [F1 F2 F3 F4] Ht Hl Hp Hothers Hn. split; [done|done| |].
  - simpl. intros t' pc0 Ht'. apply list_lookup_insert_Some in Ht' as [(_ & <- & _)|[Hne Ht']]; [done|]. eapply Hothers; [by symmetry|done|by eapply F3].
  - simpl. unfold zlen in *. by rewrite length_insert.
Qed.

(** Another thread keeps what it knows when counts and the head change. *)
Lemma thread_ok_same s s' pc : freeListNext s' = freeListNext s -> (forall n, known s n -> known s' n) -> thread_ok s pc -> thread_ok s' pc.
Proof.
  intros En Hk. assert (Hn : forall n, known_or_null s n -> known_or_null s' n) by (unfold known_or_null; naive_solver).
  assert (Hc : forall c, caller_ok s c -> caller_ok s' c) by (intros [|h]; simpl; auto).
  destruct pc; simpl; rewrite ?En; naive_solver.
Qed.

Lemma thread_ok_next s s' pc : (forall m, m ∈ works pc \/ m ∈ refers pc -> freeListNext s' !! m = freeListNext s !! m) ->
  (forall n, known s n -> known s' n) -> thread_ok s pc -> thread_ok s' pc.
Proof.
  intros En Hk. assert (Hn : forall n, known_or_null s n -> known_or_null s' n) by (unfold known_or_null; naive_solver).
  assert (Hc : forall c, caller_ok s c -> caller_ok s' c) by (intros [|h]; simpl; auto).
  destruct pc; simpl in *; rewrite ?En by set_solver; naive_solver.
Qed.

(** Two threads do not work on the same node. *)
Lemma works_two n ts t t' pc pc' : ts !! t = Some pc -> ts !! t' = Some pc' -> t' <> t -> n ∈ works pc -> n ∈ works pc' ->
  2 <= occ n (held works ts).
Proof.
  intros Ht Ht' Hne Hn Hn'. assert (Ht2 : <[t:=FIdle]> ts !! t' = Some pc') by (by rewrite list_lookup_insert_ne).
  pose proof (occ_lookup works _ _ _ n Ht2) as H2. rewrite (occ_held _ _ _ _ _ n Ht) in H2. simpl in H2. rewrite occ_nil in H2.
  rewrite occ_elem in Hn, Hn'. lia.
Qed.

Lemma known_set_refs n r s m : known s m -> known (set_refs n r s) m.
Proof. unfold known. simpl. intros Hm. destruct (decide (m = n)) as [->|]; [by rewrite lookup_insert_eq|by rewrite lookup_insert_ne]. Qed.

Section Steps.
Context (y : Lists) (L pend : list ptr) (t : nat).
Context (Hinv : free_inv y L pend).

(** The numbers of a node that exists, as those do that a thread works on or
    refers to. *)
Lemma node_facts n : known (free_list y) n ->
  freeListRefs (free_list y) !! n = Some (count_of n L pend y) /\ n <> 0 /\ is_Some (freeListNext (free_list y) !! n) /\
  places n L pend y = 1 /\
  (0 < occ n pend -> 0 < occ n (held refers (threads y))) /\
  (0 < occ n (held should (threads y)) -> occ n (held refers (threads y)) = 0).
Proof.
  intros [r Er]. pose proof (fi_nodes _ _ _ Hinv n) as Hok. unfold node_ok in Hok. rewrite Er in *.
  by destruct Hok as (? & ? & ? & -> & ? & ?).
Qed.

Lemma has_known n pc : threads y !! t = Some pc -> (n ∈ works pc \/ n ∈ refers pc) -> known (free_list y) n.
Proof.
  intros Ht Hn. pose proof (fi_nodes _ _ _ Hinv n) as Hok. unfold node_ok in Hok. unfold known.
  destruct (freeListRefs (free_list y) !! n) as [r|]; [by eexists|].
  destruct Hok as [Hp Hr]. pose proof (occ_lookup works _ _ _ n Ht). pose proof (occ_lookup refers _ _ _ n Ht). unfold places in Hp.
  pose proof (occ_nonneg n L). pose proof (occ_nonneg n pend). pose proof (occ_nonneg n (owned y)). rewrite !occ_elem in Hn. lia.
Qed.

Definition goes_on pc : Prop := exists pc' s out, free_list_step pc (free_list y) = Some (pc', s, out) /\
  exists L' pend', free_inv (after y t pc' s out) L' pend'.

(** A step that changes neither the nodes nor what the thread has. *)
Lemma goes_plain pc pc' : threads y !! t = Some pc -> free_list_step pc (free_list y) = Some (pc', free_list y, None) ->
  works pc' = works pc -> lists pc' = lists pc -> should pc' = should pc -> refers pc' = refers pc ->
  thread_ok (free_list y) pc' -> goes_on pc.
Proof.
  intros Ht E Ew Ei Es Ef Hok. eexists _, _, _. split; [exact E|]. exists L, pend.
  eapply inv_after; [exact Hinv|exact Ht|apply Hinv|done|done|]. intros n.
  eapply node_other; [exact Ht|apply Hinv|done|done|done|done|done|by rewrite ?Ew, ?Ei, ?Es, ?Ef..].
Qed.

(** The numbers of the one node that a step concerns, and of the others. *)
Ltac numbers n Ht :=
  let Hr := fresh "Hr" in let Hn0 := fresh "Hn0" in let Hnx := fresh "Hnx" in let Hp := fresh "Hp" in
  let H1 := fresh "H1" in let H2 := fresh "H2" in let Hb := fresh "Hb" in
  destruct (node_facts n ltac:(first [exact (fi_threads _ _ _ Hinv _ _ Ht)|apply (has_known n _ Ht); simpl; set_solver])) as (Hr & Hn0 & Hnx & Hp & H1 & H2);
  pose proof (node_bounds n _ _ _ Ht) as Hb; pose proof (fi_small _ _ _ Hinv);
  pose proof (occ_nonneg n L); pose proof (occ_nonneg n pend); pose proof (occ_nonneg n (owned y));
  unfold count_of, places, SHOULD_BE_ON_FREELIST, REFS_MASK in *; simpl in Hb; rewrite ?occ_cons, ?occ_nil, ?decide_True in Hb by done;
  set (r := occ n (held refers (threads y))) in *; set (w := occ n (held works (threads y))) in *;
  set (d := occ n (held should (threads y))) in *; set (l := occ n (held lists (threads y))) in *.
Ltac this_node Ht := unfold node_ok, places, count_of, after, SHOULD_BE_ON_FREELIST; simpl; rewrite ?lookup_insert_eq;
  rewrite ?(occ_held _ _ _ _ _ _ Ht), ?occ_app; simpl; rewrite ?occ_cons, ?occ_nil, ?decide_True by done.
Ltac other_node Ht := eapply node_other; [exact Ht|apply Hinv|simpl; rewrite ?lookup_insert_ne by done; done|simpl; rewrite ?lookup_insert_ne by done; done|..];
  simpl; rewrite ?occ_cons, ?occ_nil, ?decide_False by congruence; try done; try lia; try congruence.

Lemma go_add n : threads y !! t = Some (FAdd n) -> goes_on (FAdd n).
Proof.
  intros Ht. numbers n Ht. unfold goes_on. simpl. rewrite Hr. cbn [mbind option_bind].
  assert (E : 2147483648 * (occ n pend + d) + (occ n L + l) + r = r) by lia. rewrite E.
  eexists _, _, _. split; [reflexivity|]. exists L, (if r =? 0 then pend else n :: pend).
  eapply inv_after; [exact Hinv|exact Ht|apply Hinv|by case_match| |].
  - intros t' pc0 _ _. apply thread_ok_same; [done|apply known_set_refs].
  - intros m. destruct (decide (m = n)) as [->|Hne].
    + unfold SHOULD_BE_ON_FREELIST. destruct (Z.eqb_spec r 0) as [E0|E0]; this_node Ht; fold r w d l; split_and!; try done; try lia.
      * unfold u32, wrap. rewrite Z.mod_small; lia.
      * unfold u32, wrap. rewrite Z.mod_small; lia.
    + destruct (Z.eqb_spec r 0); other_node Ht.
Qed.

Lemma go_add_head n c : threads y !! t = Some (FAddHead n c) -> goes_on (FAddHead n c).
Proof. intros Ht. eapply goes_plain; [exact Ht|reflexivity|done..|]. exact (fi_threads _ _ _ Hinv _ _ Ht). Qed.

Lemma go_add_next n c h : threads y !! t = Some (FAddNext n c h) -> goes_on (FAddNext n c h).
Proof.
  intros Ht. numbers n Ht. unfold goes_on. simpl. eexists _, _, _. split; [reflexivity|]. exists L, pend.
  eapply inv_after; [exact Hinv|exact Ht| | | |].
  - apply linked_insert; [rewrite occ_elem; lia|apply Hinv].
  - split; [exact (fi_threads _ _ _ Hinv _ _ Ht)|]. simpl. by rewrite lookup_insert_eq.
  - intros t' pc0 Hne Ht'. apply thread_ok_next; [|done]. intros m Hm. simpl. apply lookup_insert_ne. intros <-.
    destruct Hm as [Hm|Hm].
    + pose proof (works_two n _ _ _ _ _ Ht Ht' Hne ltac:(simpl; set_solver) Hm) as Hw. fold w in Hw. lia.
    + rewrite occ_elem in Hm. pose proof (occ_lookup refers _ _ _ n Ht') as Hf. fold r in Hf. lia.
  - intros m. destruct (decide (m = n)) as [->|Hne]; [|other_node Ht].
    unfold node_ok, after. simpl. rewrite Hr. this_node Ht. fold r w d l. split_and!; try done; lia.
Qed.

Lemma go_add_refs n c h : threads y !! t = Some (FAddRefs n c h) -> goes_on (FAddRefs n c h).
Proof.
  intros Ht. numbers n Ht. unfold goes_on. simpl. eexists _, _, _. split; [reflexivity|]. exists L, pend.
  eapply inv_after; [exact Hinv|exact Ht|apply Hinv| | |].
  - apply (thread_ok_same (free_list y) _ (FAddSwap n c h)); [done|apply known_set_refs|exact (fi_threads _ _ _ Hinv _ _ Ht)].
  - intros t' pc0 _ _. apply thread_ok_same; [done|apply known_set_refs].
  - intros m. destruct (decide (m = n)) as [->|Hne]; [|other_node Ht]. this_node Ht. fold r w d l. split_and!; try done; lia.
Qed.

Lemma return_to_ok c : caller_ok (free_list y) c -> thread_ok (free_list y) (return_to c) /\ works (return_to c) = [] /\
  lists (return_to c) = [] /\ should (return_to c) = [] /\ refers (return_to c) = [].
Proof. destruct c as [|h]; simpl; [done|]. unfold get_loop, known_or_null. intros Hh. case_decide; simpl; naive_solver. Qed.

Lemma go_add_swap n c h : threads y !! t = Some (FAddSwap n c h) -> goes_on (FAddSwap n c h).
Proof.
  intros Ht. numbers n Ht. destruct (fi_threads _ _ _ Hinv _ _ Ht) as [Hc Hnext]. unfold goes_on. simpl.
  destruct (Z.eqb_spec (freeListHead (free_list y)) h) as [E|E]; eexists _, _, _; (split; [reflexivity|]).
  - destruct (return_to_ok c Hc) as (Hret & Ew & El & Es & Ef). exists (n :: L), pend.
    eapply inv_after; [exact Hinv|exact Ht| |by apply (thread_ok_same (free_list y))| |].
    + simpl. split; [done|]. exists h. split; [done|]. rewrite <- E. apply Hinv.
    + intros t' pc0 _ _. by apply thread_ok_same.
    + intros m. destruct (decide (m = n)) as [->|Hne]; [|other_node Ht; rewrite ?Ew, ?El, ?Es, ?Ef; by rewrite ?occ_cons, ?occ_nil, ?decide_False by congruence].
      unfold node_ok, after. simpl. rewrite Hr. this_node Ht. rewrite Ew, El, Es, Ef, occ_nil. fold r w d l. split_and!; try done; lia.
  - exists L, pend. eapply inv_after; [exact Hinv|exact Ht|apply Hinv|exact Hc|done|].
    intros m. destruct (decide (m = n)) as [->|Hne]; [|other_node Ht].
    unfold node_ok, after. simpl. rewrite Hr. this_node Ht. fold r w d l. split_and!; try done; lia.
Qed.

Lemma go_add_failed n c h : threads y !! t = Some (FAddFailed n c h) -> goes_on (FAddFailed n c h).
Proof.
  intros Ht. numbers n Ht. pose proof (fi_threads _ _ _ Hinv _ _ Ht) as Hc. unfold goes_on. simpl. rewrite Hr. cbn [mbind option_bind].
  assert (E : 2147483648 * (occ n pend + d) + (occ n L + l) + r = 1 + r) by lia. rewrite E.
  destruct (return_to_ok c Hc) as (Hret & Ew & El & Es & Ef).
  eexists _, _, _. split; [reflexivity|]. exists L, (if r =? 0 then pend else n :: pend).
  eapply inv_after; [exact Hinv|exact Ht|apply Hinv| | |].
  - destruct (1 + r =? 1); (eapply thread_ok_same; [|apply known_set_refs|]; [done|done]).
  - intros t' pc0 _ _. apply thread_ok_same; [done|apply known_set_refs].
  - assert (Eu : u32 (1 + r + (2147483648 - 1)) = 2147483648 + r) by (unfold u32, wrap; rewrite Z.mod_small; lia).
    intros m. unfold SHOULD_BE_ON_FREELIST. rewrite Eu. destruct (Z.eqb_spec (1 + r) 1) as [E1|E1], (Z.eqb_spec r 0) as [E0|E0]; try lia;
      (destruct (decide (m = n)) as [->|Hne]; [|other_node Ht; rewrite ?Ew, ?El, ?Es, ?Ef; by rewrite ?occ_cons, ?occ_nil, ?decide_False by congruence]).
    + this_node Ht. fold r w d l. split_and!; try done; lia.
    + this_node Ht. rewrite Ew, El, Es, Ef, occ_nil. fold r w d l. split_and!; try done; lia.
Qed.

Lemma get_loop_ok h : known_or_null (free_list y) h -> thread_ok (free_list y) (get_loop h).
Proof. unfold get_loop, known_or_null. intros Hh. case_decide; simpl; naive_solver. Qed.

(** The head of the list is a node. *)
Lemma head_known : known_or_null (free_list y) (freeListHead (free_list y)).
Proof.
  destruct (linked_head _ _ _ (fi_linked _ _ _ Hinv)) as [E|Hin]; [by left|right].
  pose proof (fi_nodes _ _ _ Hinv (freeListHead (free_list y))) as Hn. unfold node_ok in Hn. unfold known.
  destruct (freeListRefs (free_list y) !! _) as [r|]; [by eexists|]. rewrite occ_elem in Hin. destruct Hn as [Hp _]. unfold places in Hp.
  pose proof (occ_nonneg (freeListHead (free_list y)) pend). pose proof (occ_nonneg (freeListHead (free_list y)) (owned y)).
  pose proof (occ_nonneg (freeListHead (free_list y)) (held works (threads y))). lia.
Qed.

Lemma get_loop_nothing h : works (get_loop h) = [] /\ lists (get_loop h) = [] /\ should (get_loop h) = [] /\ refers (get_loop h) = [].
Proof. unfold get_loop. by case_decide. Qed.

Lemma go_get_head : threads y !! t = Some FGetHead -> goes_on FGetHead.
Proof.
  intros Ht. destruct (get_loop_nothing (freeListHead (free_list y))) as (E1 & E2 & E3 & E4).
  eapply goes_plain; [exact Ht|reflexivity|done..|]. apply get_loop_ok, head_known.
Qed.

Lemma go_get_refs h : threads y !! t = Some (FGetRefs h) -> goes_on (FGetRefs h).
Proof.
  intros Ht. pose proof (fi_threads _ _ _ Hinv _ _ Ht) as [r Hr]. simpl in Hr.
  eapply (goes_plain _ (FGetIncrement h r)); [exact Ht|simpl; by rewrite Hr|done..|]. by exists r.
Qed.

Lemma go_get_next n : threads y !! t = Some (FGetNext n) -> goes_on (FGetNext n).
Proof.
  intros Ht. destruct (node_facts n) as (_ & _ & [q Hq] & _); [apply (has_known n _ Ht); simpl; set_solver|].
  eapply (goes_plain _ (FGetSwap n q)); [exact Ht|simpl; by rewrite Hq|done..].
Qed.

Lemma go_get_increment n refs : threads y !! t = Some (FGetIncrement n refs) -> goes_on (FGetIncrement n refs).
Proof.
  intros Ht. numbers n Ht. unfold goes_on. simpl. rewrite Hr. cbn [mbind option_bind].
  set (now := 2147483648 * (occ n pend + d) + (occ n L + l) + r) in *.
  destruct ((Z.land refs REFS_MASK =? 0) || negb (now =? refs)) eqn:E.
  - eexists _, _, _. split; [reflexivity|]. exists L, pend. eapply inv_after; [exact Hinv|exact Ht|apply Hinv|done|done|].
    intros m. eapply node_other; [exact Ht|apply Hinv|done..].
  - apply orb_false_iff in E as [E1 E2]. apply negb_false_iff, Z.eqb_eq in E2. apply Z.eqb_neq in E1. subst refs.
    assert (Hd : d = 0).
    { destruct (Z.eq_dec d 0) as [|Hd]; [done|]. destruct E1. replace now with 2147483648 by lia. done. }
    eexists _, _, _. split; [reflexivity|]. exists L, pend. eapply inv_after; [exact Hinv|exact Ht|apply Hinv|done| |].
    + intros t' pc0 _ _. apply thread_ok_same; [done|apply known_set_refs].
    + assert (Eu : u32 (now + 1) = now + 1) by (unfold u32, wrap; rewrite Z.mod_small; lia). rewrite Eu.
      intros m. destruct (decide (m = n)) as [->|Hne]; [|other_node Ht].
      this_node Ht. fold r w d l. split_and!; try done; lia.
Qed.

Lemma go_get_swap n q : threads y !! t = Some (FGetSwap n q) -> goes_on (FGetSwap n q).
Proof.
  intros Ht. pose proof (fi_threads _ _ _ Hinv _ _ Ht) as Hq. simpl in Hq. pose proof (fi_linked _ _ _ Hinv) as Hl.
  numbers n Ht. unfold goes_on. simpl. destruct (Z.eqb_spec (freeListHead (free_list y)) n) as [E|E]; eexists _, _, _; (split; [reflexivity|]).
  - destruct L as [|n' L'] eqn:EL; simpl in Hl; [congruence|]. destruct Hl as (<- & q' & Hq' & Hl). rewrite E in *.
    rewrite Hq in Hq'. injection Hq' as <-. exists L', pend. rewrite occ_cons, decide_True in * by done.
    eapply inv_after; [exact Hinv|exact Ht|exact Hl|done| |].
    + intros t' pc0 _ _. by apply thread_ok_same.
    + intros m. destruct (decide (m = n)) as [->|Hne]; [|other_node Ht].
      unfold node_ok, after. simpl. rewrite Hr. this_node Ht. fold r w d l. split_and!; try done; lia.
  - exists L, pend. eapply inv_after; [exact Hinv|exact Ht|apply Hinv|apply head_known|done|].
    intros m. eapply node_other; [exact Ht|apply Hinv|done..].
Qed.

Lemma go_get_assert n : threads y !! t = Some (FGetAssert n) -> goes_on (FGetAssert n).
Proof.
  intros Ht. numbers n Ht. eapply (goes_plain _ (FGetRelease n)); [exact Ht| |done..]. simpl. rewrite Hr. cbn [mbind option_bind].
  assert (E : 2147483648 * (occ n pend + d) + (occ n L + l) + r = 1 + r) by lia. rewrite E.
  change SHOULD_BE_ON_FREELIST with (2 ^ 31). rewrite land_pow2_small; [done|lia|lia].
Qed.

Lemma go_get_release n : threads y !! t = Some (FGetRelease n) -> goes_on (FGetRelease n).
Proof.
  intros Ht. numbers n Ht. unfold goes_on. simpl. rewrite Hr. cbn [mbind option_bind].
  assert (E : 2147483648 * (occ n pend + d) + (occ n L + l) + r = 1 + r) by lia. rewrite E.
  assert (Eu : u32 (1 + r - 2) = r - 1) by (unfold u32, wrap; rewrite Z.mod_small; lia). rewrite Eu.
  eexists _, _, _. split; [reflexivity|]. exists L, pend. eapply inv_after; [exact Hinv|exact Ht|apply Hinv|done| |].
  - intros t' pc0 _ _. apply thread_ok_same; [done|apply known_set_refs].
  - intros m. destruct (decide (m = n)) as [->|Hne]; [|other_node Ht]. this_node Ht. fold r w d l. split_and!; try done; lia.
Qed.

(** The last reference is given up: a pending node is added now. *)
Lemma go_get_failed n h : threads y !! t = Some (FGetFailed n h) -> goes_on (FGetFailed n h).
Proof.
  intros Ht. pose proof (fi_threads _ _ _ Hinv _ _ Ht) as Hh. numbers n Ht. unfold goes_on. simpl. rewrite Hr. cbn [mbind option_bind].
  destruct (get_loop_nothing h) as (E1 & E2 & E3 & E4).
  set (now := 2147483648 * (occ n pend + d) + (occ n L + l) + r) in *. assert (Hnow : 1 <= now <= 2147483648 + 1 + r) by lia.
  assert (Eu : u32 (now - 1) = now - 1) by (unfold u32, wrap; rewrite Z.mod_small; lia).
  eexists _, _, _. split; [reflexivity|].
  unfold SHOULD_BE_ON_FREELIST. destruct (Z.eqb_spec now (2147483648 + 1)) as [E|E].
  - assert (Hnum : r = 1 /\ d = 0 /\ occ n L + l = 0) by lia. assert (Hpend : 0 < occ n pend) by lia. apply occ_elem, list_elem_of_split in Hpend as (p1 & p2 & Epend).
    pose proof (occ_nonneg n p1). pose proof (occ_nonneg n p2). exists L, (p1 ++ p2). rewrite Epend in *. rewrite occ_app, occ_cons, decide_True in * by done.
    eapply inv_after; [exact Hinv|exact Ht|apply Hinv| | |].
    + simpl. simpl in Hh. destruct Hh as [Hh|Hh]; [by left|right; by apply known_set_refs].
    + intros t' pc0 _ _. apply thread_ok_same; [done|apply known_set_refs].
    + rewrite Eu. intros m. destruct (decide (m = n)) as [->|Hne].
      * this_node Ht. fold r w d l. split_and!; try done; lia.
      * other_node Ht. rewrite !occ_app, occ_cons, decide_False by congruence. lia.
  - exists L, pend. eapply inv_after; [exact Hinv|exact Ht|apply Hinv| | |].
    + eapply thread_ok_same; [|apply known_set_refs|by apply get_loop_ok]. done.
    + intros t' pc0 _ _. apply thread_ok_same; [done|apply known_set_refs].
    + rewrite Eu. intros m. destruct (decide (m = n)) as [->|Hne]; [|other_node Ht; rewrite ?E1, ?E2, ?E3, ?E4; by rewrite ?occ_cons, ?occ_nil, ?decide_False by congruence].
      this_node Ht. rewrite E1, E2, E3, E4, occ_nil. fold r w d l. split_and!; try done; lia.
Qed.

Lemma go pc : threads y !! t = Some pc -> pc <> FIdle -> goes_on pc.
Proof.
  intros Ht Hne. destruct pc; [done|..].
  - by apply go_add.
  - by apply go_add_head.
  - by apply go_add_next.
  - by apply go_add_refs.
  - by apply go_add_swap.
  - by apply go_add_failed.
  - by apply go_get_head.
  - by apply go_get_refs.
  - by apply go_get_increment.
  - by apply go_get_next.
  - by apply go_get_swap.
  - by apply go_get_assert.
  - by apply go_get_release.
  - by apply go_get_failed.
Qed.
End Steps.

(** ** The system *)

Definition safe_inv (y : Lists) : Prop := exists L pend, free_inv y L pend.

Lemma create_inv y n : n <> 0 -> freeListRefs (free_list y) !! n = None -> safe_inv y ->
  safe_inv (MkLists (MkFreeList (freeListHead (free_list y)) (<[n:=0]> (freeListRefs (free_list y))) (<[n:=0]> (freeListNext (free_list y))))
              (threads y) (owned y ++ [n])).
Proof.
  intros Hn Hnew (L & pend & [F1 F2 F3 F4]). pose proof (F2 n) as Hok. unfold node_ok, places in Hok. rewrite Hnew in Hok.
  destruct Hok as [Hp Hr]. pose proof (occ_nonneg n L). pose proof (occ_nonneg n pend). pose proof (occ_nonneg n (owned y)).
  pose proof (occ_nonneg n (held works (threads y))). pose proof (occ_duties n (threads y)).
  pose proof (occ_nonneg n (held should (threads y))). pose proof (occ_nonneg n (held lists (threads y))).
  exists L, pend. split; simpl; [| | |done].
  - apply linked_insert; [rewrite occ_elem; lia|done].
  - intros m. destruct (decide (m = n)) as [->|Hne].
    + unfold node_ok, places, count_of, SHOULD_BE_ON_FREELIST. simpl. rewrite !lookup_insert_eq, occ_app, occ_cons, decide_True, occ_nil by done.
      split_and!; [done|by eexists|lia..].
    + specialize (F2 m). unfold node_ok, places, count_of in *. simpl.
      rewrite !lookup_insert_ne, occ_app, occ_cons, decide_False, occ_nil, !Z.add_0_r by congruence. done.
  - intros t pc Ht. eapply thread_ok_next; [| |by eapply F3].
    + intros m Hm. simpl. apply lookup_insert_ne. intros <-. pose proof (occ_lookup works _ _ _ n Ht). pose proof (occ_lookup refers _ _ _ n Ht).
      rewrite !occ_elem in Hm. lia.
    + unfold known. simpl. intros m Hm. destruct (decide (m = n)) as [->|]; [by rewrite lookup_insert_eq|by rewrite lookup_insert_ne].
Qed.

(** A call of [add] or [try_get]. *)
Lemma call_inv y t pc own : threads y !! t = Some FIdle -> (forall n, occ n (owned y) = occ n own + occ n (works pc)) ->
  lists pc = [] -> should pc = [] -> refers pc = [] -> thread_ok (free_list y) pc -> safe_inv y ->
  safe_inv (MkLists (free_list y) (<[t:=pc]> (threads y)) own).
Proof.
  intros Ht Ho El Es Ef Hok (L & pend & [F1 F2 F3 F4]). exists L, pend. split; simpl; [done| | |].
  - intros n. specialize (F2 n). specialize (Ho n). unfold node_ok, places, count_of in *. simpl.
    rewrite !(occ_held _ _ t _ _ _ Ht), El, Es, Ef. simpl. rewrite !occ_nil, !Z.sub_0_r, !Z.add_0_r.
    replace (occ n L + occ n pend + occ n own + (occ n (held works (threads y)) + occ n (works pc)))
      with (occ n L + occ n pend + occ n (owned y) + occ n (held works (threads y))) by lia. done.
  - intros t' pc0 Ht'. apply list_lookup_insert_Some in Ht' as [(_ & <- & _)|[_ Ht']]; [done|by eapply F3].
  - unfold zlen in *. by rewrite length_insert.
Qed.

Lemma free_step_inv y y' : free_step y y' -> safe_inv y -> safe_inv y'.
Proof.
  intros Hst Hi. destruct Hst as [y n Hn Hnew|y t l n r Ht Ho|y t Ht|y t pc pc' s out Ht E].
  - by apply create_inv.
  - apply call_inv; try done. intros m. rewrite Ho. simpl. rewrite !occ_app, !occ_cons, occ_nil. lia.
  - apply call_inv; try done. intros m. simpl. rewrite occ_nil. lia.
  - destruct Hi as (L & pend & Hi). assert (Hne : pc <> FIdle) by (by intros ->).
    destruct (go y L pend t Hi pc Ht Hne) as (pc0 & s0 & out0 & E0 & L' & pend' & Hi'). rewrite E in E0. injection E0 as <- <- <-.
    by exists L', pend'.
Qed.

Lemma free_reachable_inv y : reachable free_initial free_step y -> safe_inv y.
Proof.
  apply reachable_inv; [|intros s s' Hi Hst; by eapply free_step_inv].
  intros s (n & -> & Hn). assert (Hh : forall f : FPc -> list ptr, f FIdle = [] -> held f (replicate n FIdle) = []).
  { intros f Ef. clear Hn. induction n; simpl; [done|]. by rewrite Ef. }
  exists [], []. split; simpl; [done| | |].
  - intros m. unfold node_ok, places. simpl. rewrite lookup_empty, !Hh by done. done.
  - intros t pc Ht. by apply lookup_replicate in Ht as [-> _].
  - unfold zlen. rewrite length_replicate. lia.
Qed.

Definition at_rest (y : Lists) : Prop := forall t pc, threads y !! t = Some pc -> pc = FIdle.

Lemma held_at_rest (f : FPc -> list ptr) y : f FIdle = [] -> at_rest y -> held f (threads y) = [].
Proof.
  unfold at_rest. intros Ef. induction (threads y) as [|pc ts IH]; intros Hq; simpl; [done|].
  rewrite (Hq 0%nat pc eq_refl), Ef. apply IH. intros t pc' Ht. by apply (Hq (S t)).
Qed.

Lemma places_le y L pend n : free_inv y L pend -> places n L pend y <= 1.
Proof.
  intros Hi. pose proof (fi_nodes _ _ _ Hi n) as Hok. unfold node_ok in Hok.
  destruct (freeListRefs (free_list y) !! n); [destruct Hok as (_ & _ & -> & _); lia|destruct Hok as [-> _]; lia].
Qed.

(** Nothing is pending when no thread is at work. *)
Lemma rest_inv y L pend : free_inv y L pend -> at_rest y -> forall n,
  match freeListRefs (free_list y) !! n with
  | None => occ n L = 0 /\ occ n (owned y) = 0
  | Some r => occ n L + occ n (owned y) = 1 /\ r = occ n L
  end.
Proof.
  intros Hi Hq n. pose proof (fi_nodes _ _ _ Hi n) as Hok. unfold node_ok, places, count_of in Hok.
  rewrite (held_at_rest works), (held_at_rest lists), (held_at_rest should), (held_at_rest refers), occ_nil in Hok by done.
  pose proof (occ_nonneg n L). pose proof (occ_nonneg n pend). pose proof (occ_nonneg n (owned y)).
  destruct (freeListRefs (free_list y) !! n); unfold SHOULD_BE_ON_FREELIST in *; lia.
Qed.

(** C11: no step of the free list goes wrong (the [assert] of [try_get] holds, and
    no pointer that is followed is bad), and the nodes that callers own are
    distinct, of each other and of those in the list: what [try_get] returns
    belongs to no one else, in every interleaving. *)
Theorem free_list_safe y : reachable free_initial free_step y ->
  (forall t pc, threads y !! t = Some pc -> pc <> FIdle -> is_Some (free_list_step pc (free_list y))) /\
  exists L, linked (freeListNext (free_list y)) (freeListHead (free_list y)) L /\ NoDup (L ++ owned y ++ held works (threads y)).
Proof.
  intros Hr. destruct (free_reachable_inv y Hr) as (L & pend & Hi). split.
  - intros t pc Ht Hne. destruct (go y L pend t Hi pc Ht Hne) as (pc' & s & out & E & _). by eexists.
  - exists L. split; [apply Hi|]. apply occ_NoDup. intros n. rewrite !occ_app. pose proof (places_le y L pend n Hi) as Hp.
    unfold places in Hp. pose proof (occ_nonneg n pend). lia.
Qed.

(** C12: the free list loses no node: when no thread is at work, each node is
    either in the list, which is linked from its head and where its count is 1,
    or owned by a caller, where its count is 0, and never both. *)
Theorem free_list_keeps_nodes y : reachable free_initial free_step y -> at_rest y ->
  exists L, linked (freeListNext (free_list y)) (freeListHead (free_list y)) L /\ NoDup (L ++ owned y) /\
    forall n r, freeListRefs (free_list y) !! n = Some r <-> (n ∈ L /\ r = 1) \/ (n ∈ owned y /\ r = 0).
Proof.
  intros Hr Hq. destruct (free_reachable_inv y Hr) as (L & pend & Hi). exists L. split; [apply Hi|].
  pose proof (rest_inv y L pend Hi Hq) as Hn. split.
  - apply occ_NoDup. intros n. rewrite occ_app. specialize (Hn n). destruct (freeListRefs _ !! n); lia.
  - intros n r. rewrite !occ_elem. specialize (Hn n). pose proof (occ_nonneg n L). pose proof (occ_nonneg n (owned y)).
    destruct (freeListRefs (free_list y) !! n) as [r'|]; [|split; [done|lia]]. split; [intros [= <-]; lia|].
    intros Hcase. f_equal. lia.
Qed.

(** *** A thread alone *)

Lemma lone_step y t ts pc pc' s out : (t < length ts)%nat -> threads y = <[t:=pc]> ts ->
  free_list_step pc (free_list y) = Some (pc', s, out) ->
  free_step y (MkLists s (<[t:=pc']> ts) (owned y ++ match out with Some n => [n] | None => [] end)).
Proof.
  intros Hl Ec E. pose proof (free_thread y t pc pc' s out) as Hst. rewrite Ec, list_insert_insert_eq in Hst.
  apply Hst; [|done]. by apply list_lookup_insert_eq.
Qed.

Ltac lone := eapply rtc_l; [eapply lone_step; [eassumption|reflexivity|simpl]|simpl; rewrite ?app_nil_r].

Lemma pop_alone y t n q : threads y !! t = Some FIdle -> n <> 0 -> freeListHead (free_list y) = n ->
  freeListRefs (free_list y) !! n = Some 1 -> freeListNext (free_list y) !! n = Some q ->
  exists y', rtc free_step y y' /\ threads y' = threads y /\ owned y' = owned y ++ [n] /\
    freeListHead (free_list y') = q /\ freeListNext (free_list y') = freeListNext (free_list y).
Proof.
  intros Ht Hn Hh Hr Hq. assert (Hl : (t < length (threads y))%nat) by (by eapply lookup_lt_Some).
  eexists. split.
  - eapply rtc_l; [by apply (free_get y t)|]. lone; [reflexivity|]. rewrite Hh. unfold get_loop. rewrite decide_False by done.
    lone; [rewrite Hr; reflexivity|]. lone; [rewrite Hr; reflexivity|].
    lone; [rewrite Hq; reflexivity|]. lone; [rewrite Hh, Z.eqb_refl; reflexivity|].
    lone; [rewrite lookup_insert_eq; reflexivity|]. lone; [rewrite lookup_insert_eq; reflexivity|]. apply rtc_refl.
  - simpl. split; [by apply list_insert_id|]. done.
Qed.


Lemma push_alone y t l n r : threads y !! t = Some FIdle -> owned y = l ++ n :: r -> freeListRefs (free_list y) !! n = Some 0 ->
  exists y', rtc free_step y y' /\ threads y' = threads y /\ owned y' = l ++ r /\
    freeListHead (free_list y') = n /\ freeListNext (free_list y') = <[n:=freeListHead (free_list y)]> (freeListNext (free_list y)).
Proof.
  intros Ht Ho Hr. assert (Hl : (t < length (threads y))%nat) by (by eapply lookup_lt_Some). eexists. split.
  - eapply rtc_l; [by eapply (free_add y t)|]. lone; [rewrite Hr; reflexivity|]. lone; [reflexivity|]. lone; [reflexivity|]. lone; [reflexivity|].
    lone; [rewrite Z.eqb_refl; reflexivity|]. apply rtc_refl.
  - simpl. split; [by apply list_insert_id|]. by rewrite app_nil_r.
Qed.

(** C99: for a thread alone the free list is a stack: [try_get] takes the first
    node of the list, and [add] puts a node in front. *)
Theorem free_list_stack y t : reachable free_initial free_step y -> at_rest y -> threads y !! t = Some FIdle ->
  exists L, linked (freeListNext (free_list y)) (freeListHead (free_list y)) L /\
    (forall n L', L = n :: L' -> exists y', rtc free_step y y' /\ at_rest y' /\ owned y' = owned y ++ [n] /\
       linked (freeListNext (free_list y')) (freeListHead (free_list y')) L') /\
    (forall l n r, owned y = l ++ n :: r -> exists y', rtc free_step y y' /\ at_rest y' /\ owned y' = l ++ r /\
       linked (freeListNext (free_list y')) (freeListHead (free_list y')) (n :: L)).
Proof.
  intros Hr Hq Ht. destruct (free_reachable_inv y Hr) as (L & pend & Hi). pose proof (fi_linked _ _ _ Hi) as Hl.
  pose proof (rest_inv y L pend Hi Hq) as Hn. exists L. split; [done|]. split.
  - intros n L' ->. destruct Hl as (Hh & q & Hnx & Hl). specialize (Hn n). rewrite occ_cons, decide_True in Hn by done.
    pose proof (fi_nodes _ _ _ Hi n) as Hok. unfold node_ok in Hok. pose proof (occ_nonneg n L'). pose proof (occ_nonneg n (owned y)).
    destruct (freeListRefs (free_list y) !! n) as [r|] eqn:Er; [|lia]. destruct Hok as (Hn0 & _). assert (r = 1) as -> by lia.
    destruct (pop_alone y t n q Ht Hn0 Hh Er Hnx) as (y' & Hst & Et & Eo & Eh & En). exists y'. split; [done|].
    split; [unfold at_rest; by rewrite Et|]. split; [done|]. by rewrite Eh, En.
  - intros l n r Ho. specialize (Hn n). rewrite Ho, occ_app, occ_cons, decide_True in Hn by done.
    pose proof (occ_nonneg n L). pose proof (occ_nonneg n l). pose proof (occ_nonneg n r).
    destruct (freeListRefs (free_list y) !! n) as [x|] eqn:Er; [|lia]. assert (x = 0) as -> by lia.
    destruct (push_alone y t l n r Ht Ho Er) as (y' & Hst & Et & Eo & Eh & En). exists y'. split; [done|].
    split; [unfold at_rest; by rewrite Et|]. split; [done|]. rewrite Eh, En. simpl. split; [done|].
    exists (freeListHead (free_list y)). rewrite lookup_insert_eq. split; [done|]. apply linked_insert; [rewrite occ_elem; lia|done].
Qed.

(** ** An example

    Two nodes are added; two threads try to get the first one at the same time,
    and a third puts the node back that it owns. *)

Inductive FTurn := TCreate (n : ptr) | TAdd (t : nat) (n : ptr) | TGet (t : nat) | TStep (t : nat).

Fixpoint remove_first (n : ptr) (l : list ptr) : option (list ptr) :=
  match l with [] => None | m :: l => if decide (m = n) then Some l else k ← remove_first n l; Some (m :: k) end.

Definition free_turn (y : Lists) (a : FTurn) : option Lists :=
  match a with
  | TCreate n =>
      if bool_decide (n <> 0) && bool_decide (freeListRefs (free_list y) !! n = None) then
        Some (MkLists (MkFreeList (freeListHead (free_list y)) (<[n:=0]> (freeListRefs (free_list y))) (<[n:=0]> (freeListNext (free_list y))))
                (threads y) (owned y ++ [n])) else None
  | TAdd t n =>
      if bool_decide (threads y !! t = Some FIdle) then own ← remove_first n (owned y); Some (MkLists (free_list y) (<[t:=FAdd n]> (threads y)) own) else None
  | TGet t => if bool_decide (threads y !! t = Some FIdle) then Some (MkLists (free_list y) (<[t:=FGetHead]> (threads y)) (owned y)) else None
  | TStep t =>
      pc ← threads y !! t;
      '(pc', s, out) ← free_list_step pc (free_list y);
      Some (MkLists s (<[t:=pc']> (threads y)) (owned y ++ match out with Some n => [n] | None => [] end))
  end.

Fixpoint free_run (l : list FTurn) (y : Lists) : option Lists :=
  match l with [] => Some y | a :: l => y ← free_turn y a; free_run l y end.

Lemma remove_first_split n l k : remove_first n l = Some k -> exists a b, l = a ++ n :: b /\ k = a ++ b.
Proof.
  revert k. induction l as [|m l IH]; intros k E; simpl in E; [done|]. destruct (decide (m = n)) as [->|].
  - injection E as <-. by exists [], l.
  - destruct (remove_first n l) as [k'|]; [|done]. injection E as <-. destruct (IH k' eq_refl) as (a & b & -> & ->). by exists (m :: a), b.
Qed.

Lemma free_turn_step y a y' : free_turn y a = Some y' -> free_step y y'.
Proof.
  destruct a; simpl; intros E.
  - case_match eqn:Ec; [|done]. injection E as <-. apply andb_true_iff in Ec as [H1 H2].
    apply bool_decide_eq_true in H1, H2. by apply free_create.
  - case_bool_decide; [|done]. destruct (remove_first n (owned y)) as [own|] eqn:Er; [|done]. injection E as <-.
    destruct (remove_first_split _ _ _ Er) as (l & r & Eo & ->). by eapply free_add.
  - case_bool_decide; [|done]. injection E as <-. by apply free_get.
  - destruct (threads y !! t) as [pc|] eqn:Ht; [simpl in E|done].
    destruct (free_list_step pc (free_list y)) as [[[pc' s] out]|] eqn:Ec; [simpl in E|done]. injection E as <-. by eapply free_thread.
Qed.

Lemma free_run_steps l y y' : free_run l y = Some y' -> rtc free_step y y'.
Proof.
  revert y. induction l as [|a l IH]; intros y E; simpl in E; [by injection E as ->|].
  destruct (free_turn y a) as [y1|] eqn:Ea; [|done]. eapply rtc_l; [by eapply free_turn_step|by apply IH].
Qed.

Definition lists_start : Lists := MkLists (MkFreeList 0 ∅ ∅) (replicate 3 FIdle) [].
Definition lists_at (l : list FTurn) : Lists := default lists_start (free_run l lists_start).

Definition contended : list FTurn :=
  [TCreate 10; TCreate 20; TAdd 0 10] ++ replicate 5 (TStep 0) ++ [TAdd 0 20] ++ replicate 5 (TStep 0) ++
  [TGet 1; TGet 2; TStep 1; TStep 2; TStep 1; TStep 1; TStep 2; TStep 2; TStep 1; TStep 1].
Definition contended_end : list FTurn := contended ++ replicate 2 (TStep 1) ++ [TAdd 0 20; TStep 0] ++ replicate 18 (TStep 2).

Lemma lists_reachable l : free_run l lists_start = Some (lists_at l) -> reachable free_initial free_step (lists_at l).
Proof. intros E. exists lists_start. split; [by exists 3%nat|]. by eapply free_run_steps. Qed.

Lemma free_list_safe_witness :
  threads (lists_at contended) !! 1%nat = Some (FGetAssert 20) /\ is_Some (free_list_step (FGetAssert 20) (free_list (lists_at contended))).
Proof.
  split; [reflexivity|]. refine (proj1 (free_list_safe (lists_at contended) _) 1%nat _ _ _); [|reflexivity|done].
  apply lists_reachable. vm_compute. reflexivity.
Defined.

Lemma contended_at_rest : at_rest (lists_at contended_end).
Proof. intros [|[|[|t]]] pc E; vm_compute in E; congruence. Qed.

Lemma free_list_keeps_nodes_witness : owned (lists_at contended_end) = [20] /\
  exists L, linked (freeListNext (free_list (lists_at contended_end))) 10 L /\ NoDup (L ++ [20]).
Proof.
  split; [reflexivity|].
  destruct (free_list_keeps_nodes (lists_at contended_end)) as (L & Hl & Hn & _).
  - apply lists_reachable. vm_compute. reflexivity.
  - apply contended_at_rest.
  - by exists L.
Defined.

Lemma free_list_stack_witness : exists L,
  forall l n r, owned (lists_at contended_end) = l ++ n :: r -> exists y', rtc free_step (lists_at contended_end) y' /\ at_rest y' /\
    owned y' = l ++ r /\ linked (freeListNext (free_list y')) (freeListHead (free_list y')) (n :: L).
Proof.
  destruct (free_list_stack (lists_at contended_end) 0) as (L & _ & _ & Hadd).
  - apply lists_reachable. vm_compute. reflexivity.
  - apply contended_at_rest.
  - reflexivity.
  - by exists L.
Defined.
