(* ===== verification/MoodyProducers.v ===== *)
(** * The producers of the concurrent queue
    ([whisperlib/sync/moody/concurrentqueue.h]: [recycle_or_create_producer],
    [add_producer], [ProducerToken])

    Producers are in a linked list that only grows.  One that is no longer used
    is marked inactive, and taken again by whoever resets the mark first.  The
    users of producers - tokens, and threads that enqueue without one - are
    programs; each access to shared memory is a step, and the steps of the
    users interleave. *)

From S2P Require Import Prelude Posix MoodyDetails MoodyBlock.

(** ** State *)

(** What is shared of a [ProducerBase]: the link, which is not changed once the
    producer is in the list, the mark, the kind, and the token that uses it. *)
Record ProducerLink := MkLink { next_prod : Z; inactive : bool; isExplicit : bool; token : Z }.

Definition set_next_prod (p : Z) (x : ProducerLink) : ProducerLink := MkLink p (inactive x) (isExplicit x) (token x).
Definition set_inactive (b : bool) (x : ProducerLink) : ProducerLink := MkLink (next_prod x) b (isExplicit x) (token x).
Definition set_token (t : Z) (x : ProducerLink) : ProducerLink := MkLink (next_prod x) (inactive x) (isExplicit x) t.

Record ProducerList := MkProducers { producerListTail : Z; producerCount : Z; producers : gmap Z ProducerLink }.

Definition set_producers (m : gmap Z ProducerLink) (s : ProducerList) : ProducerList :=
  MkProducers (producerListTail s) (producerCount s) m.

Definition on_producer (p : Z) (f : ProducerLink -> ProducerLink) (s : ProducerList) : option ProducerList :=
  x ← producers s !! p; Some (set_producers (<[p:=f x]> (producers s)) s).

(** ** Users *)

(** Where a user is: [UVisit] and [UCas] look at a producer of the list,
    [UCount] to [ULink] add a new one, [UToken] is in the constructor of
    [ProducerToken], [UHas] uses the producer, [UClear] is in the destructor. *)
Inductive UPc :=
| UIdle
| UStart (explicit : bool)
| UVisit (explicit : bool) (ptr : Z)
| UCas (explicit : bool) (ptr : Z)
| UCreate (explicit : bool)
| UCount (explicit : bool) (producer : Z)
| UTail (explicit : bool) (producer : Z)
| ULink (explicit : bool) (producer prevTail : Z)
| UToken (producer : Z)
| UHas (explicit : bool) (producer : Z)
| UClear (producer : Z).

(** What a step depends on besides the memory: what [malloc] answers, whether a
    weak [compare_exchange] fails, and what the user wants. *)
Inductive Ask :=
| Acquire (explicit : bool)
| Release
| Go (malloc : option Z) (fails : bool).

(** The loop over the list. *)
Definition look_at (explicit : bool) (ptr : Z) : UPc := if decide (ptr = 0) then UCreate explicit else UVisit explicit ptr.

(** [recycle_or_create_producer] returns: to the constructor of a token, or to
    a thread that enqueues without one. *)
Definition recycled (explicit : bool) (producer : Z) : UPc := if explicit then UToken producer else UHas explicit producer.

(** A step of the user at [this]. *)
Definition user_step (this : Z) (a : Ask) (pc : UPc) (s : ProducerList) : option (UPc * ProducerList) :=
  match pc, a with
  | UIdle, Acquire explicit => Some (UStart explicit, s)
  | UStart explicit, Go _ _ => Some (look_at explicit (producerListTail s), s)
  | UVisit explicit ptr, Go _ _ =>
      x ← producers s !! ptr;
      Some (if inactive x && eqb (isExplicit x) explicit then UCas explicit ptr else look_at explicit (next_prod x), s)
  | UCas explicit ptr, Go _ _ =>
      x ← producers s !! ptr;
      if inactive x then s ← on_producer ptr (set_inactive false) s; Some (recycled explicit ptr, s)
      else Some (look_at explicit (next_prod x), s)
  (* [create<ExplicitProducer>(this)], [create<ImplicitProducer>(this)] *)
  | UCreate explicit, Go malloc _ =>
      match malloc with
      | None => Some (UIdle, s)
      | Some p => Some (UCount explicit p, set_producers (<[p:=MkLink 0 false explicit 0]> (producers s)) s)
      end
  (* [add_producer] *)
  | UCount explicit p, Go _ _ =>
      Some (UTail explicit p, MkProducers (producerListTail s) (u32 (producerCount s + 1)) (producers s))
  | UTail explicit p, Go _ _ => Some (ULink explicit p (producerListTail s), s)
  | ULink explicit p prevTail, Go _ fails =>
      s ← on_producer p (set_next_prod prevTail) s;
      if negb fails && bool_decide (producerListTail s = prevTail) then
        Some (recycled explicit p, MkProducers p (producerCount s) (producers s))
      else Some (ULink explicit p (producerListTail s), s)
  | UToken p, Go _ _ => s ← on_producer p (set_token this) s; Some (UHas true p, s)
  (* [~ProducerToken], [implicit_producer_thread_exited] *)
  | UHas true p, Release => s ← on_producer p (set_token 0) s; Some (UClear p, s)
  | UHas false p, Release => s ← on_producer p (set_inactive true) s; Some (UIdle, s)
  | UClear p, Go _ _ => s ← on_producer p (set_inactive true) s; Some (UIdle, s)
  | _, _ => None
  end.

(** ** The system *)

Record Users := MkUsers { plist : ProducerList; users : list UPc }.

(** The address of a user, for tokens. *)
Definition address (t : nat) : Z := Z.of_nat t + 1.

(** [malloc] gives memory that is not in use. *)
Definition ask_ok (a : Ask) (s : ProducerList) : Prop :=
  match a with Go (Some p) _ => p <> 0 /\ producers s !! p = None | _ => True end.

(** What a token has, null if nothing; in its constructor or destructor it is
    not swapped. *)
Definition token_producer (pc : UPc) : option Z :=
  match pc with UIdle => Some 0 | UHas true p => Some p | _ => None end.
Definition token_with (p : Z) : UPc := if decide (p = 0) then UIdle else UHas true p.
Definition point_back (p : Z) (t : nat) (s : ProducerList) : option ProducerList :=
  if decide (p = 0) then Some s else on_producer p (set_token (address t)) s.

(** [ProducerToken::swap]; the move constructor swaps with a new token. *)
Definition swap_tokens (t t' : nat) (y : Users) : option Users :=
  pc ← users y !! t; pc' ← users y !! t';
  p ← token_producer pc; p' ← token_producer pc';
  s ← point_back p' t (plist y);
  s ← point_back p t' s;
  Some (MkUsers s (<[t':=token_with p]> (<[t:=token_with p']> (users y)))).

Inductive users_step : Users -> Users -> Prop :=
| user_moves t a pc pc' s l us :
    us !! t = Some pc -> ask_ok a l -> user_step (address t) a pc l = Some (pc', s) ->
    users_step (MkUsers l us) (MkUsers s (<[t:=pc']> us))
| tokens_swap t t' y y' : t <> t' -> swap_tokens t t' y = Some y' -> users_step y y'.

(** [ConcurrentQueue::ConcurrentQueue]: no producers. *)
Definition users_initial (y : Users) : Prop := exists n, y = MkUsers (MkProducers 0 0 ∅) (replicate n UIdle).
