(* ===== verification/MoodyProducersSpec.v ===== *)
(** * Who uses which producer

    The invariant of the list of producers and of their users
    (MoodyProducers.v): no two users share a producer, and none is lost. *)

From S2P Require Import Prelude Posix MoodyDetails MoodyBlock MoodyProducers.

(** ** The linked list *)

(** The list from [p] on is [l]. *)
Fixpoint chain (m : gmap Z ProducerLink) (p : Z) (l : list Z) : Prop :=
  match l with
  | [] => p = 0
  | q :: l => p = q /\ q <> 0 /\ exists x, m !! q = Some x /\ chain m (next_prod x) l
  end.

Section Chains.
Implicit Types (m : gmap Z ProducerLink) (l : list Z) (x : ProducerLink).

Lemma chain_write m p l q x x' : chain m p l -> m !! q = Some x -> (q ∈ l -> next_prod x' = next_prod x) ->
  chain (<[q:=x']> m) p l.
Proof.
  intros Hc Hq. revert p Hc. induction l as [|r l IH]; intros p Hc Hn; [done|]. destruct Hc as (-> & Hr & xr & Er & Hc).
  split; [done|]. split; [done|]. destruct (decide (q = r)) as [->|Hne].
  - exists x'. rewrite lookup_insert_eq. split; [done|]. simplify_eq. rewrite Hn by set_solver. apply IH; [done|]. intros ?. apply Hn. set_solver.
  - exists xr. rewrite lookup_insert_ne by done. split; [done|]. apply IH; [done|]. intros ?. apply Hn. set_solver.
Qed.

Lemma chain_new m p l q x : chain m p l -> q ∉ l -> chain (<[q:=x]> m) p l.
Proof.
  revert p. induction l as [|r l IH]; intros p Hc Hq; [done|]. destruct Hc as (-> & Hr & xr & Er & Hc).
  split; [done|]. split; [done|]. exists xr. rewrite lookup_insert_ne by set_solver. split; [done|]. apply IH; [done|set_solver].
Qed.

(** The first producer, and the one after each, is null or in the list. *)
Lemma chain_first m p l : chain m p l -> p = 0 \/ p ∈ l.
Proof. destruct l as [|q l]; [by left|]. intros (-> & _). right. set_solver. Qed.

Lemma chain_next m p l q x : chain m p l -> q ∈ l -> m !! q = Some x -> next_prod x = 0 \/ next_prod x ∈ l.
Proof.
  revert p. induction l as [|r l IH]; intros p Hc Hq Hx; [set_solver|]. destruct Hc as (-> & Hr & xr & Er & Hc).
  apply elem_of_cons in Hq as [->|Hq].
  - simplify_eq. destruct (chain_first _ _ _ Hc) as [|]; [by left|right; set_solver].
  - destruct (IH _ Hc Hq Hx) as [|]; [by left|right; set_solver].
Qed.

Lemma chain_elem m p l q : chain m p l -> q ∈ l -> q <> 0 /\ is_Some (m !! q).
Proof.
  revert p. induction l as [|r l IH]; intros p Hc Hq; [set_solver|]. destruct Hc as (-> & Hr & xr & Er & Hc).
  apply elem_of_cons in Hq as [->|Hq]; [by split; [|eexists]|by eapply IH].
Qed.
End Chains.

(** ** The invariant *)

Section Inv.
Implicit Types (m : gmap Z ProducerLink) (l : list Z) (x : ProducerLink) (pc : UPc) (us : list UPc) (t : nat).

(** What a user has got, or has made. *)
Definition owned pc : list Z :=
  match pc with UCount _ p | UTail _ p | ULink _ p _ | UToken p | UHas _ p | UClear p => [p] | _ => [] end.
(** It has counted its producer, which is not in the list yet. *)
Definition linking pc : nat := match pc with UTail _ _ | ULink _ _ _ => 1 | _ => 0 end.

Definition private_ok m l (e : bool) (p : Z) : Prop :=
  p <> 0 /\ p ∉ l /\ exists x, m !! p = Some x /\ inactive x = false /\ isExplicit x = e.
Definition taken_ok m l (e : bool) (p : Z) (t : option Z) : Prop :=
  p ∈ l /\ exists x, m !! p = Some x /\ inactive x = false /\ isExplicit x = e /\
    match t with Some t => token x = t | None => True end.

Definition user_ok m l t pc : Prop :=
  match pc with
  | UVisit _ p => p ∈ l
  | UCas e p => p ∈ l /\ exists x, m !! p = Some x /\ isExplicit x = e
  | UCount e p | UTail e p | ULink e p _ => private_ok m l e p
  | UToken p | UClear p => taken_ok m l true p None
  | UHas e p => taken_ok m l e p (if e then Some (address t) else None)
  | _ => True
  end.

Record users_inv l (y : Users) : Prop := {
  ui_chain : chain (producers (plist y)) (producerListTail (plist y)) l;
  ui_nodup : NoDup l;
  ui_owned : NoDup (held owned (users y));
  ui_users t pc : users y !! t = Some pc -> user_ok (producers (plist y)) l t pc;
  ui_idle p x : p ∈ l -> producers (plist y) !! p = Some x -> inactive x = false -> p ∈ held owned (users y);
  ui_dom p : is_Some (producers (plist y) !! p) -> p ∈ l \/ p ∈ held owned (users y);
  ui_count : producerCount (plist y) = u32 (zlen l + Z.of_nat (sum_list_with linking (users y)))
}.

Lemma user_owned m l t pc p : user_ok m l t pc -> p ∈ owned pc -> exists x, m !! p = Some x /\ inactive x = false.
Proof.
  destruct pc; simpl; try set_solver; intros H Hp; apply list_elem_of_singleton in Hp as ->;
    [destruct H as (_ & _ & x & H)..|destruct H as (_ & x & H)|destruct H as (_ & x & H)|destruct H as (_ & x & H)]; exists x; tauto.
Qed.

(** A user is not concerned by a change of a producer that is not its own. *)
Lemma user_other m l l' t pc p x : user_ok m l t pc -> p ∉ owned pc -> (l' = l \/ l' = p :: l) ->
  (forall y, m !! p = Some y -> isExplicit x = isExplicit y) -> user_ok (<[p:=x]> m) l' t pc.
Proof.
  intros H Hp Hl Hx. assert (Hsub : forall q, q ∈ l -> q ∈ l') by (intros q Hq; destruct Hl as [-> | ->]; set_solver).
  destruct pc; simpl in *; try done; try (by apply Hsub).
  1: { destruct H as (Hq & y & Hy & He). split; [by apply Hsub|]. destruct (decide (ptr = p)) as [->|Hne].
       - exists x. rewrite lookup_insert_eq. split; [done|]. by rewrite (Hx y Hy).
       - exists y. by rewrite lookup_insert_ne. }
  all: match type of H with
    | private_ok _ _ _ ?q => destruct H as (H0 & Hq & y & Hy & Hi);
        split; [done|]; split; [destruct Hl as [-> | ->]; set_solver|]; exists y; rewrite lookup_insert_ne by set_solver; done
    | taken_ok _ _ _ ?q _ => destruct H as (Hq & y & Hy & Hi);
        split; [by apply Hsub|]; exists y; rewrite lookup_insert_ne by set_solver; done
    end.
Qed.

(** *** Moves of one user *)

Lemma linking_insert us t pc pc' : us !! t = Some pc ->
  Z.of_nat (sum_list_with linking (<[t:=pc']> us)) = Z.of_nat (sum_list_with linking us) - Z.of_nat (linking pc) + Z.of_nat (linking pc').
Proof. intros Ht. pose proof (sum_list_with_insert linking us t pc pc' Ht). lia. Qed.

Lemma held_change us t pc pc' p : us !! t = Some pc -> NoDup (held owned us) ->
  (owned pc = [] \/ owned pc = [p]) -> (owned pc' = [] \/ owned pc' = [p]) -> (p ∈ held owned us -> owned pc = [p]) ->
  NoDup (held owned (<[t:=pc']> us)) /\ (forall q, q <> p -> q ∈ held owned us <-> q ∈ held owned (<[t:=pc']> us)) /\
  (owned pc' = [p] -> p ∈ held owned (<[t:=pc']> us)).
Proof.
  intros Ht Hn H1 H2 Hp. pose proof (held_insert owned us t pc pc' Ht) as E.
  destruct H1 as [E1|E1], H2 as [E2|E2]; rewrite E1, E2 in E; rewrite ?app_nil_r in E; rewrite E1, ?E2 in *.
  - split; [by rewrite E|]. split; [by intros q _; rewrite E|done].
  - split; [rewrite E; apply NoDup_app; split; [done|]; split; [|apply NoDup_singleton]|].
    { intros q Hq ->%list_elem_of_singleton. by specialize (Hp Hq). }
    split; [intros q Hq; rewrite E; set_solver|intros _; rewrite E; set_solver].
  - assert (Hn' : NoDup (held owned (<[t:=pc']> us) ++ [p])) by by rewrite E. apply NoDup_app in Hn' as (Hn' & _).
    split; [done|]. split; [|done]. intros q Hq. rewrite <- E. set_solver.
  - apply Permutation_app_inv_r in E. split; [by rewrite E|]. split; [by intros q _; rewrite E|]. intros _. rewrite E.
    eapply held_in; [exact Ht|]. rewrite E1. set_solver.
Qed.

(** The producers stay as they are. *)
Lemma inv_move l us t pc pc' s s' : users_inv l (MkUsers s us) -> us !! t = Some pc -> owned pc' = owned pc ->
  producers s' = producers s -> producerListTail s' = producerListTail s -> user_ok (producers s) l t pc' ->
  producerCount s' = u32 (zlen l + Z.of_nat (sum_list_with linking us) - Z.of_nat (linking pc) + Z.of_nat (linking pc')) ->
  users_inv l (MkUsers s' (<[t:=pc']> us)).
Proof.
  intros [Hc Hn Ho Hu Hi Hd Hcnt] Ht Eo Em Et Hok Ec. cbn in *.
  assert (E : held owned (<[t:=pc']> us) ≡ₚ held owned us).
  { pose proof (held_insert owned us t pc pc' Ht) as E. rewrite Eo in E. by apply Permutation_app_inv_r in E. }
  split; cbn; rewrite ?Em, ?Et; try done.
  - by rewrite E.
  - intros t0 pc0 H0. apply list_lookup_insert_Some in H0 as [(<- & <- & _)|[_ H0]]; [done|by apply Hu].
  - intros p x. rewrite E. apply Hi.
  - intros p. rewrite E. apply Hd.
  - rewrite (linking_insert _ _ _ _ Ht), Ec. f_equal. lia.
Qed.

(** The producer [p] is changed, by the user that owns it if one does. *)
Lemma inv_write l l' us t pc pc' s s' p x' : users_inv l (MkUsers s us) -> us !! t = Some pc ->
  producers s' = <[p:=x']> (producers s) ->
  (owned pc = [] \/ owned pc = [p]) -> (owned pc' = [] \/ owned pc' = [p]) -> (p ∈ held owned us -> owned pc = [p]) ->
  (l' = l \/ l' = p :: l /\ p ∉ l) -> chain (producers s') (producerListTail s') l' -> user_ok (producers s') l' t pc' ->
  (p ∈ l' -> inactive x' = false -> owned pc' = [p]) -> (p ∈ l' \/ owned pc' = [p]) ->
  (forall y, producers s !! p = Some y -> isExplicit x' = isExplicit y) ->
  producerCount s' = u32 (zlen l' + Z.of_nat (sum_list_with linking us) - Z.of_nat (linking pc) + Z.of_nat (linking pc')) ->
  users_inv l' (MkUsers s' (<[t:=pc']> us)).
Proof.
  intros [Hc Hn Ho Hu Hi Hd Hcnt] Ht Em H1 H2 Hp Hl Hc' Hok Hact Hdom Hex Ec. cbn in *.
  destruct (held_change us t pc pc' p Ht Ho H1 H2 Hp) as (Hn' & Hq & Hp').
  assert (Hl' : l' = l \/ l' = p :: l) by tauto. split; cbn; try done.
  - destruct Hl as [-> |[-> Hpl]]; [done|]. by constructor.
  - intros t0 pc0 H0. apply list_lookup_insert_Some in H0 as [(<- & <- & _)|[Hne H0]]; [done|]. rewrite Em.
    apply (user_other (producers s) l); [by apply Hu| |done|done]. intros Hin. apply Hne.
    pose proof (Hp (held_in _ _ _ _ H0 Hin)) as Eo. apply (owner_unique us t t0 pc pc0 p Ho Ht H0); [rewrite Eo; set_solver|done].
  - intros q x Hql Hx Hin. rewrite Em in Hx. destruct (decide (q = p)) as [->|Hne].
    + rewrite lookup_insert_eq in Hx. injection Hx as <-. by apply Hp', Hact.
    + rewrite lookup_insert_ne in Hx by done. apply Hq; [done|]. apply (Hi q x); [destruct Hl' as [-> | ->]; set_solver|done..].
  - intros q Hin. rewrite Em in Hin. destruct (decide (q = p)) as [->|Hne]; [destruct Hdom as [|E]; [by left|right; by apply Hp']|].
    rewrite lookup_insert_ne in Hin by done. destruct (Hd q Hin) as [Hql|Hh]; [left; destruct Hl' as [-> | ->]; set_solver|right; by apply Hq].
  - rewrite (linking_insert _ _ _ _ Ht), Ec. f_equal. lia.
Qed.

Lemma on_producer_run p f s x : producers s !! p = Some x ->
  on_producer p f s = Some (set_producers (<[p:=f x]> (producers s)) s).
Proof. intros E. unfold on_producer. by rewrite E. Qed.

(** The memory of what a user looks at, or owns. *)
Lemma visited l us s t e p : users_inv l (MkUsers s us) -> p ∈ l -> exists x, producers s !! p = Some x /\
  user_ok (producers s) l t (look_at e (next_prod x)).
Proof.
  intros Hi Hp. destruct (chain_elem _ _ _ _ (ui_chain _ _ Hi) Hp) as [_ [x Hx]]. cbn in Hx. exists x. split; [done|].
  unfold look_at. case_decide as Hz; [done|]. by destruct (chain_next _ _ _ _ _ (ui_chain _ _ Hi) Hp Hx).
Qed.

Lemma recycled_ok m l t e p : taken_ok m l e p None -> user_ok m l t (recycled e p).
Proof. intros H. unfold recycled. by destruct e. Qed.
Lemma owned_recycled e p : owned (recycled e p) = [p].
Proof. by destruct e. Qed.
Lemma linking_recycled e p : linking (recycled e p) = 0%nat.
Proof. by destruct e. Qed.
Lemma owned_visit e p : owned (look_at e p) = [].
Proof. unfold look_at. by case_decide. Qed.
Lemma linking_visit e p : linking (look_at e p) = 0%nat.
Proof. unfold look_at. by case_decide. Qed.

(** A user that moves without a count. *)
Lemma inv_look l us t pc pc' s : users_inv l (MkUsers s us) -> us !! t = Some pc -> owned pc' = owned pc ->
  linking pc' = linking pc -> user_ok (producers s) l t pc' -> users_inv l (MkUsers s (<[t:=pc']> us)).
Proof.
  intros Hi Ht Eo El Hok. apply (inv_move l us t pc pc' s s); try done. rewrite El. pose proof (ui_count _ _ Hi) as E. cbn in E.
  rewrite E. f_equal. lia.
Qed.

(** The owner of a producer of the list changes it, or gives it back. *)
Lemma inv_own l us t pc pc' s p x x' (e : bool) : users_inv l (MkUsers s us) -> us !! t = Some pc -> p ∈ l -> owned pc = [p] ->
  producers s !! p = Some x -> next_prod x' = next_prod x -> isExplicit x' = isExplicit x -> linking pc = 0%nat -> linking pc' = 0%nat ->
  (owned pc' = [p] \/ owned pc' = [] /\ inactive x' = true) -> user_ok (<[p:=x']> (producers s)) l t pc' ->
  users_inv l (MkUsers (set_producers (<[p:=x']> (producers s)) s) (<[t:=pc']> us)).
Proof.
  intros Hi Ht Hp Eo Hx En Ex L1 L2 Ho Hok. pose proof (ui_count _ _ Hi) as Ec. cbn in Ec.
  apply (inv_write l l us t pc pc' s _ p x'); cbn; try done; try (by left); try (by right).
  - destruct Ho as [|[? _]]; [by right|by left].
  - eapply chain_write; [apply (ui_chain _ _ Hi)|done|done].
  - intros _ Hact. destruct Ho as [|[_ Hact']]; [done|]. by rewrite Hact' in Hact.
  - intros y Hy. simplify_eq. done.
  - rewrite L1, L2, Ec. f_equal. lia.
Qed.

Definition grows (l l' : list Z) : Prop := l' = l \/ exists p, l' = p :: l.

Lemma cas_inv l us s t e p pc' s' a : users_inv l (MkUsers s us) -> us !! t = Some (UCas e p) ->
  user_step (address t) a (UCas e p) s = Some (pc', s') -> users_inv l (MkUsers s' (<[t:=pc']> us)).
Proof.
  intros Hi Ht E. pose proof (ui_users _ _ Hi _ _ Ht) as (Hp & y & Hy & He). cbn in Hy.
  destruct (visited l us s t e p Hi Hp) as (x & Hx & Hnext). destruct a as [e'| |mem fails]; try done.
  cbn in E. rewrite Hx in E, Hy. cbn in E. injection Hy as <-. subst e. destruct (inactive x) eqn:Ha.
  - rewrite (on_producer_run _ _ _ _ Hx) in E. cbn in E. injection E as <- <-. pose proof (ui_count _ _ Hi) as Ec. cbn in Ec.
    apply (inv_write l l us t (UCas (isExplicit x) p) (recycled (isExplicit x) p) s _ p (set_inactive false x)); cbn;
      rewrite ?owned_recycled, ?linking_recycled; try done; try (by left); try (by right).
    + intros Hin. apply held_of in Hin as (t0 & pc0 & H0 & Hin).
      destruct (user_owned _ _ _ _ _ (ui_users _ _ Hi _ _ H0) Hin) as (y & Hy & Hf). cbn in Hy. congruence.
    + eapply chain_write; [apply (ui_chain _ _ Hi)|done|done].
    + apply recycled_ok. split; [done|]. exists (set_inactive false x). by rewrite lookup_insert_eq.
    + intros y' Hy'. by simplify_eq.
    + rewrite Ec. f_equal. lia.
  - injection E as <- <-. apply (inv_look l us t (UCas (isExplicit x) p)); try done; [by rewrite owned_visit|by rewrite linking_visit].
Qed.

(** A new producer, and its way into the list. *)
Lemma create_users_inv l us s t e mem fails pc' s' : users_inv l (MkUsers s us) -> us !! t = Some (UCreate e) -> ask_ok (Go mem fails) s ->
  user_step (address t) (Go mem fails) (UCreate e) s = Some (pc', s') -> users_inv l (MkUsers s' (<[t:=pc']> us)).
Proof.
  intros Hi Ht Hm E. cbn in E. destruct mem as [p|]; injection E as <- <-; [|by apply (inv_look l us t (UCreate e))].
  destruct Hm as [Hp0 Hp]. pose proof (ui_count _ _ Hi) as Ec. cbn in Ec.
  assert (Hpl : p ∉ l) by (intros Hin; destruct (chain_elem _ _ _ _ (ui_chain _ _ Hi) Hin) as [_ [x Hx]]; cbn in Hx; congruence).
  apply (inv_write l l us t (UCreate e) (UCount e p) s _ p (MkLink 0 false e 0)); cbn; try done; try (by left); try (by right).
  - intros Hin. apply held_of in Hin as (t0 & pc0 & H0 & Hin).
    destruct (user_owned _ _ _ _ _ (ui_users _ _ Hi _ _ H0) Hin) as (y & Hy & _). cbn in Hy. congruence.
  - by apply chain_new; [apply (ui_chain _ _ Hi)|].
  - split; [done|]. split; [done|]. exists (MkLink 0 false e 0). by rewrite lookup_insert_eq.
  - congruence.
  - rewrite Ec. f_equal. lia.
Qed.

Lemma count_inv l us s t e p : users_inv l (MkUsers s us) -> us !! t = Some (UCount e p) ->
  users_inv l (MkUsers (MkProducers (producerListTail s) (u32 (producerCount s + 1)) (producers s)) (<[t:=UTail e p]> us)).
Proof.
  intros Hi Ht. pose proof (ui_users _ _ Hi _ _ Ht) as Hok. pose proof (ui_count _ _ Hi) as Ec. cbn in Ec.
  apply (inv_move l us t (UCount e p) (UTail e p) s); try done. cbn. rewrite Ec. unfold u32, wrap. rewrite Zplus_mod_idemp_l. f_equal. lia.
Qed.

Lemma link_inv l us s t e p prev mem fails pc' s' : users_inv l (MkUsers s us) -> us !! t = Some (ULink e p prev) ->
  user_step (address t) (Go mem fails) (ULink e p prev) s = Some (pc', s') ->
  exists l', grows l l' /\ users_inv l' (MkUsers s' (<[t:=pc']> us)).
Proof.
  intros Hi Ht E. pose proof (ui_users _ _ Hi _ _ Ht) as (Hp0 & Hpl & x & Hx & Ha & He). cbn in Hx.
  cbn in E. rewrite (on_producer_run _ _ _ _ Hx) in E. cbn in E. pose proof (ui_count _ _ Hi) as Ec. cbn in Ec.
  pose proof (chain_new _ _ _ p (set_next_prod prev x) (ui_chain _ _ Hi) Hpl) as Hch. cbn in Hch.
  destruct (negb fails && bool_decide (producerListTail s = prev)) eqn:Hb; injection E as <- <-.
  - apply andb_true_iff in Hb as [_ Hb]. apply bool_decide_eq_true in Hb. exists (p :: l). split; [right; by exists p|].
    apply (inv_write l (p :: l) us t (ULink e p prev) (recycled e p) s _ p (set_next_prod prev x)); cbn;
      rewrite ?owned_recycled, ?linking_recycled; try done; try (by left); try (by right).
    + split; [done|]. split; [done|]. exists (set_next_prod prev x). rewrite lookup_insert_eq. split; [done|]. cbn. by rewrite Hb in Hch.
    + apply recycled_ok. split; [set_solver|]. exists (set_next_prod prev x). by rewrite lookup_insert_eq.
    + intros y Hy. by simplify_eq.
    + rewrite Ec, zlen_cons. f_equal. lia.
  - exists l. split; [by left|].
    apply (inv_write l l us t (ULink e p prev) (ULink e p (producerListTail s)) s _ p (set_next_prod prev x)); cbn; try done; try (by left); try (by right).
    + split; [done|]. split; [done|]. exists (set_next_prod prev x). by rewrite lookup_insert_eq.
    + intros y Hy. by simplify_eq.
    + rewrite Ec. f_equal. lia.
Qed.

Lemma user_step_inv l us s t a pc pc' s' : users_inv l (MkUsers s us) -> us !! t = Some pc -> ask_ok a s ->
  user_step (address t) a pc s = Some (pc', s') -> exists l', grows l l' /\ users_inv l' (MkUsers s' (<[t:=pc']> us)).
Proof.
  intros Hi Ht Ha E. pose proof (ui_users _ _ Hi _ _ Ht) as Hok. cbn in Hok.
  assert (Hsame : users_inv l (MkUsers s' (<[t:=pc']> us)) -> exists l', grows l l' /\ users_inv l' (MkUsers s' (<[t:=pc']> us)))
    by (intros H; exists l; split; [by left|done]).
  destruct pc as [|e|e p|e p|e|e p|e p|e p prev|p|e p|p], a as [e'| |mem fails]; try done; cbn in E.
  - injection E as <- <-. apply Hsame. by apply (inv_look l us t UIdle).
  - injection E as <- <-. apply Hsame. apply (inv_look l us t (UStart e)); try done; [by rewrite owned_visit|by rewrite linking_visit|].
    unfold look_at. case_decide as Hz; [done|]. by destruct (chain_first _ _ _ (ui_chain _ _ Hi)).
  - destruct (visited l us s t e p Hi Hok) as (x & Hx & Hnext). rewrite Hx in E. cbn in E. apply Hsame.
    destruct (inactive x && eqb (isExplicit x) e) eqn:Hb; injection E as <- <-.
    + apply andb_true_iff in Hb as [_ Hb%eqb_prop]. apply (inv_look l us t (UVisit e p)); try done. split; [done|by exists x].
    + apply (inv_look l us t (UVisit e p)); try done; [by rewrite owned_visit|by rewrite linking_visit].
  - apply Hsame. exact (cas_inv l us s t e p pc' s' (Go mem fails) Hi Ht E).
  - apply Hsame. by apply (create_users_inv l us s t e mem fails).
  - injection E as <- <-. apply Hsame. by apply count_inv.
  - injection E as <- <-. apply Hsame. by apply (inv_look l us t (UTail e p)).
  - exact (link_inv l us s t e p prev mem fails pc' s' Hi Ht E).
  - destruct Hok as (Hp & x & Hx & Hact & He & _). rewrite (on_producer_run _ _ _ _ Hx) in E. cbn in E. injection E as <- <-. apply Hsame.
    apply (inv_own l us t (UToken p) (UHas true p) s p x _ true); try done; [by left|]. split; [done|]. eexists. by rewrite lookup_insert_eq.
  - by destruct e.
  - destruct Hok as (Hp & x & Hx & Hact & He & _). destruct e; cbn in E; rewrite (on_producer_run _ _ _ _ Hx) in E; cbn in E; injection E as <- <-; apply Hsame.
    + apply (inv_own l us t (UHas true p) (UClear p) s p x _ true); try done; [by left|]. split; [done|]. eexists. by rewrite lookup_insert_eq.
    + apply (inv_own l us t (UHas false p) UIdle s p x _ false); try done. by right.
  - by destruct e.
  - destruct Hok as (Hp & x & Hx & Hact & He & _). rewrite (on_producer_run _ _ _ _ Hx) in E. cbn in E. injection E as <- <-. apply Hsame.
    apply (inv_own l us t (UClear p) UIdle s p x _ true); try done. by right.
Qed.

(** *** Swapping tokens *)

(** Two memories that differ in the tokens of producers. *)
Definition tokens_only m m' : Prop := forall q,
  match m !! q, m' !! q with
  | Some x, Some x' => next_prod x' = next_prod x /\ inactive x' = inactive x /\ isExplicit x' = isExplicit x
  | None, None => True
  | _, _ => False
  end.

Lemma tokens_only_some m m' q x : tokens_only m m' -> m !! q = Some x ->
  exists x', m' !! q = Some x' /\ next_prod x' = next_prod x /\ inactive x' = inactive x /\ isExplicit x' = isExplicit x.
Proof. intros H E. specialize (H q). rewrite E in H. destruct (m' !! q) as [x'|]; [by exists x'|done]. Qed.

Lemma tokens_only_back m m' q x' : tokens_only m m' -> m' !! q = Some x' ->
  exists x, m !! q = Some x /\ inactive x' = inactive x.
Proof. intros H E. specialize (H q). rewrite E in H. destruct (m !! q) as [x|]; [exists x; tauto|done]. Qed.

Lemma chain_tokens m m' p l : tokens_only m m' -> chain m p l -> chain m' p l.
Proof.
  intros H. revert p. induction l as [|q l IH]; intros p Hc; [done|]. destruct Hc as (-> & Hq & x & Hx & Hc).
  destruct (tokens_only_some _ _ _ _ H Hx) as (x' & Hx' & En & _). split; [done|]. split; [done|]. exists x'.
  split; [done|]. rewrite En. by apply IH.
Qed.

Lemma point_back_spec p t s s' : point_back p t s = Some s' ->
  tokens_only (producers s) (producers s') /\ producerListTail s' = producerListTail s /\ producerCount s' = producerCount s /\
  (forall q, q <> p -> producers s' !! q = producers s !! q) /\
  (p <> 0 -> exists x, producers s' !! p = Some x /\ token x = address t).
Proof.
  unfold point_back. case_decide as Hp.
  - intros [= <-]. split; [intros q; by destruct (producers s !! q)|]. by repeat split.
  - unfold on_producer. destruct (producers s !! p) as [x|] eqn:E; [|done]. cbn. intros [= <-]. cbn. split_and!; try done.
    + intros q. destruct (decide (q = p)) as [->|Hne]; [by rewrite lookup_insert_eq, E|].
      rewrite lookup_insert_ne by done. by destruct (producers s !! q).
    + intros q Hq. by rewrite lookup_insert_ne.
    + intros _. eexists. by rewrite lookup_insert_eq.
Qed.

Lemma token_producer_spec l us s t pc p : users_inv l (MkUsers s us) -> us !! t = Some pc -> token_producer pc = Some p ->
  owned pc = owned (token_with p) /\ linking pc = 0%nat /\ linking (token_with p) = 0%nat /\
  (p <> 0 -> owned pc = [p] /\ taken_ok (producers s) l true p None).
Proof.
  intros Hi Ht E. pose proof (ui_users _ _ Hi _ _ Ht) as Hok. cbn in Hok. unfold token_with.
  destruct pc as [| | | | | | | | |[] q|]; try done; injection E as <-.
  - by repeat split.
  - destruct Hok as (Hq & x & Hx & Ha & He & _). destruct (chain_elem _ _ _ _ (ui_chain _ _ Hi) Hq) as [Hq0 _].
    rewrite decide_False by done. repeat split; try done. by exists x.
Qed.

Lemma user_tokens m m' l t pc : tokens_only m m' -> user_ok m l t pc ->
  (forall p, owned pc = [p] -> m' !! p = m !! p) -> user_ok m' l t pc.
Proof.
  intros H Hok Hp. destruct pc; cbn in *; try done.
  1: { destruct Hok as (Hin & x & Hx & He). destruct (tokens_only_some _ _ _ _ H Hx) as (x' & Hx' & _ & _ & E). split; [done|]. exists x'. by rewrite E. }
  all: unfold private_ok, taken_ok in *; by rewrite (Hp _ eq_refl).
Qed.

Lemma owned_nonzero l us s t pc q : users_inv l (MkUsers s us) -> us !! t = Some pc -> owned pc = [q] -> q <> 0.
Proof.
  intros Hi Ht Eq. pose proof (ui_users _ _ Hi _ _ Ht) as Hok. cbn in Hok.
  destruct pc; simplify_eq/=; destruct Hok as [Hq Hok]; try done; by destruct (chain_elem _ _ _ _ (ui_chain _ _ Hi) Hq).
Qed.

Lemma taken_swapped m m' l e q u : tokens_only m m' -> taken_ok m l e q None -> (exists x, m' !! q = Some x /\ token x = address u) ->
  taken_ok m' l e q (Some (address u)).
Proof.
  intros T (Hq & x & Hx & Ha & He & _) (x2 & Hx2 & Htok). split; [done|].
  destruct (tokens_only_some _ _ _ _ T Hx) as (x1 & Hx1 & _ & A1 & X1). rewrite Hx1 in Hx2. injection Hx2 as ->.
  exists x2. split; [done|]. split; [congruence|]. split; [congruence|done].
Qed.

Lemma tokens_only_trans m1 m2 m3 : tokens_only m1 m2 -> tokens_only m2 m3 -> tokens_only m1 m3.
Proof.
  intros H1 H2 q. specialize (H1 q). specialize (H2 q). destruct (m1 !! q), (m2 !! q), (m3 !! q); try done.
  destruct H1 as (E1 & E2 & E3), H2 as (F1 & F2 & F3). split_and!; congruence.
Qed.

Lemma swap_inv l y t t' y' : users_inv l y -> t <> t' -> swap_tokens t t' y = Some y' -> users_inv l y'.
Proof.
  intros Hi Hne E. destruct y as [s us]. unfold swap_tokens in E. cbn in E.
  destruct (us !! t) as [pc|] eqn:Ht; [|done]. destruct (us !! t') as [pc'|] eqn:Ht'; [|done]. cbn in E.
  destruct (token_producer pc) as [p|] eqn:Ep; [|done]. destruct (token_producer pc') as [p'|] eqn:Ep'; [|done]. cbn in E.
  destruct (point_back p' t s) as [s1|] eqn:E1; [|done]. cbn in E. destruct (point_back p t' s1) as [s2|] eqn:E2; [|done].
  injection E as <-.
  destruct (token_producer_spec _ _ _ _ _ _ Hi Ht Ep) as (Eo & L1 & L1' & Hp).
  destruct (token_producer_spec _ _ _ _ _ _ Hi Ht' Ep') as (Eo' & L2 & L2' & Hp').
  destruct (point_back_spec _ _ _ _ E1) as (T1 & Et1 & Ec1 & O1 & P1). destruct (point_back_spec _ _ _ _ E2) as (T2 & Et2 & Ec2 & O2 & P2).
  set (us1 := <[t:=token_with p']> us). assert (Ht1 : us1 !! t' = Some pc') by (unfold us1; by rewrite list_lookup_insert_ne).
  assert (Eh : held owned (<[t':=token_with p]> us1) ≡ₚ held owned us).
  { pose proof (held_insert owned us t pc (token_with p') Ht) as H1. pose proof (held_insert owned us1 t' pc' (token_with p) Ht1) as H2.
    fold us1 in H1. rewrite <- Eo' in H1. rewrite <- Eo in H2. apply (Permutation_app_inv_r (owned pc')). by rewrite H2. }
  assert (Hd : p <> 0 -> p <> p').
  { intros H0 ->. destruct (Hp H0) as [Ea _]. destruct (Hp' H0) as [Eb _]. apply Hne.
    apply (owner_unique us t t' pc pc' p' (ui_owned _ _ Hi) Ht Ht'); rewrite ?Ea, ?Eb; set_solver. }
  pose proof (tokens_only_trans _ _ _ T1 T2) as T.
  assert (Hw : forall q u, (q <> 0 -> taken_ok (producers s2) l true q (Some (address u))) -> user_ok (producers s2) l u (token_with q)).
  { intros q u H. unfold token_with. case_decide; [done|]. by apply H. }
  assert (Hok' : user_ok (producers s2) l t' (token_with p)) by (apply Hw; intros H0; apply (taken_swapped _ _ _ _ _ _ T (proj2 (Hp H0))); by apply P2).
  assert (Hok : user_ok (producers s2) l t (token_with p')).
  { apply Hw. intros H0. apply (taken_swapped _ _ _ _ _ _ T (proj2 (Hp' H0))). destruct (P1 H0) as (x & Hx & Htok). exists x. split; [|done].
    rewrite O2; [done|]. intros <-. by apply (Hd H0). }
  pose proof (ui_count _ _ Hi) as Ecount. cbn in Ecount.
  split; cbn; rewrite ?Et2, ?Et1.
  - apply (chain_tokens _ _ _ _ T), (ui_chain _ _ Hi).
  - apply (ui_nodup _ _ Hi).
  - rewrite Eh. apply (ui_owned _ _ Hi).
  - intros u pcu Hu. apply list_lookup_insert_Some in Hu as [(<- & <- & _)|[Hu' Hu]]; [done|].
    apply list_lookup_insert_Some in Hu as [(<- & <- & _)|[Hu'' Hu]]; [done|].
    assert (Hother : forall q, owned pcu = [q] -> q <> p /\ q <> p').
    { intros q Eq. pose proof (owned_nonzero _ _ _ _ _ _ Hi Hu Eq) as H0.
      split; intros ->; [destruct (Hp H0) as [Ea _]; apply Hu'', (owner_unique us t u pc pcu p (ui_owned _ _ Hi) Ht Hu); rewrite ?Ea, ?Eq; set_solver|].
      destruct (Hp' H0) as [Ea _]; apply Hu', (owner_unique us t' u pc' pcu p' (ui_owned _ _ Hi) Ht' Hu); rewrite ?Ea, ?Eq; set_solver. }
    apply (user_tokens (producers s1)); [done| |intros q Eq; apply O2; by apply Hother].
    apply (user_tokens (producers s)); [done|by apply (ui_users _ _ Hi)|intros q Eq; apply O1; by apply Hother].
  - intros q x Hq Hx Ha. rewrite Eh. destruct (tokens_only_back _ _ _ _ T Hx) as (x0 & Hx0 & A0). apply (ui_idle _ _ Hi q x0); [done|done|congruence].
  - intros q [x Hx]. rewrite Eh. destruct (tokens_only_back _ _ _ _ T Hx) as (x0 & Hx0 & _). apply (ui_dom _ _ Hi q). by exists x0.
  - rewrite Ec2, Ec1, Ecount, (linking_insert _ _ _ _ Ht1), L2, L1'. unfold us1. rewrite (linking_insert _ _ _ _ Ht), L1, L2'. f_equal. lia.
Qed.

(** ** What it says *)

Lemma users_inv_initial y : users_initial y -> users_inv [] y.
Proof.
  intros [n ->]. assert (Eo : held owned (replicate n UIdle) = []) by (induction n; done).
  split; cbn [plist users producerListTail producerCount producers]; rewrite ?Eo; try done.
  - constructor.
  - constructor.
  - intros t pc Ht. by apply lookup_replicate in Ht as [-> _].
  - intros p [x Hx]. by rewrite lookup_empty in Hx.
  - assert (El : sum_list_with linking (replicate n UIdle) = 0%nat) by (clear Eo; induction n; done). by rewrite El.
Qed.

Lemma users_inv_step l y y' : users_inv l y -> users_step y y' -> exists l', grows l l' /\ users_inv l' y'.
Proof.
  intros Hi Hst. destruct Hst as [t a pc pc' s l0 us Ht Ha E|t t' y y' Hne E].
  - by eapply user_step_inv.
  - exists l. split; [by left|]. by eapply swap_inv.
Qed.

Lemma users_inv_reach y : reachable users_initial users_step y -> exists l, users_inv l y.
Proof.
  apply (reachable_inv _ _ (fun y => exists l, users_inv l y)).
  - intros s Hs. exists []. by apply users_inv_initial.
  - intros s s' [l Hi] Hst. destruct (users_inv_step _ _ _ Hi Hst) as (l' & _ & Hi'). by exists l'.
Qed.

(** Each user that is in a call has a next step. *)
Lemma user_moves_on l s us t pc mem fails : users_inv l (MkUsers s us) -> us !! t = Some pc -> pc <> UIdle -> (forall e p, pc <> UHas e p) ->
  is_Some (user_step (address t) (Go mem fails) pc s).
Proof.
  intros Hi Ht H0 H1. pose proof (ui_users _ _ Hi _ _ Ht) as Hok. cbn in Hok.
  assert (Hin : forall p, p ∈ l -> is_Some (producers s !! p)) by (intros p Hp; by destruct (chain_elem _ _ _ _ (ui_chain _ _ Hi) Hp)).
  destruct pc as [|e|e p|e p|e|e p|e p|e p prev|p|e p|p]; try done; cbn in Hok |- *; try (by eexists).
  - destruct (Hin _ Hok) as [x ->]. by eexists.
  - destruct Hok as (_ & x & Hx & _). rewrite Hx. cbn. destruct (inactive x); [rewrite (on_producer_run _ _ _ _ Hx)|]; by eexists.
  - by destruct mem; eexists.
  - destruct Hok as (_ & _ & x & Hx & _). rewrite (on_producer_run _ _ _ _ Hx). cbn. by destruct (_ && _); eexists.
  - destruct Hok as (_ & x & Hx & _). rewrite (on_producer_run _ _ _ _ Hx). by eexists.
  - by destruct (H1 e p).
  - destruct Hok as (_ & x & Hx & _). rewrite (on_producer_run _ _ _ _ Hx). by eexists.
Qed.

(** C16: in every interleaving of the users of producers, no producer has two
    users; what a user has is in the list, of the kind it asked for, active,
    and, if explicit, points back to the token, also when tokens were swapped or
    moved.  Each producer of the list has a user or is marked inactive, so that
    it can be taken again; the list ends and only grows, at its front;
    [producerCount] is the number of its producers, and of those on their way
    into it.  A call never follows a bad pointer. *)
Theorem producers_exclusive y (Hreach : reachable users_initial users_step y) :
  exists l, chain (producers (plist y)) (producerListTail (plist y)) l /\ NoDup l /\
    (forall t t' pc pc' p, users y !! t = Some pc -> users y !! t' = Some pc' -> p ∈ owned pc -> p ∈ owned pc' -> t = t') /\
    (forall t e p, users y !! t = Some (UHas e p) -> p ∈ l /\ exists x, producers (plist y) !! p = Some x /\
       inactive x = false /\ isExplicit x = e /\ (e = true -> token x = address t)) /\
    (forall p x, p ∈ l -> producers (plist y) !! p = Some x ->
       inactive x = true \/ exists t pc, users y !! t = Some pc /\ p ∈ owned pc) /\
    producerCount (plist y) = u32 (zlen l + Z.of_nat (sum_list_with linking (users y))) /\
    (forall y', users_step y y' -> exists l', grows l l' /\ chain (producers (plist y')) (producerListTail (plist y')) l') /\
    (forall t pc mem fails, users y !! t = Some pc -> pc <> UIdle -> (forall e p, pc <> UHas e p) ->
       is_Some (user_step (address t) (Go mem fails) pc (plist y))).
Proof.
  destruct (users_inv_reach y Hreach) as [l Hi]. exists l. split; [apply Hi|]. split; [apply Hi|]. split; [|split; [|split; [|split; [|split]]]].
  - intros t t' pc pc' p. apply owner_unique, Hi.
  - intros t e p Ht. destruct (ui_users _ _ Hi _ _ Ht) as (Hp & x & Hx & Ha & He & Htok). split; [done|]. exists x.
    do 3 (split; [done|]). intros ->. done.
  - intros p x Hp Hx. destruct (inactive x) eqn:Ha; [by left|right]. by apply held_of, (ui_idle _ _ Hi p x).
  - apply Hi.
  - intros y' Hst. destruct (users_inv_step _ _ _ Hi Hst) as (l' & Hg & Hi'). exists l'. split; [done|]. apply Hi'.
  - intros t pc mem fails Ht H0 H1. destruct y as [s us]. by eapply user_moves_on.
Qed.
End Inv.

(** *** An example

    A token makes producer 100; its move gives it to a second token; a third
    user sees that it is in use and makes producer 200. *)
Definition run_users (l : list (nat * Ask)) (y : Users) : option Users :=
  foldl (fun y x => y ← y; pc ← users y !! x.1; '(pc, s) ← user_step (address x.1) x.2 pc (plist y);
    Some (MkUsers s (<[x.1:=pc]> (users y)))) (Some y) l.

Lemma run_users_reach l y y' : (forall x, x ∈ l -> match x.2 with Go (Some _) _ => False | _ => True end) ->
  run_users l y = Some y' -> rtc users_step y y'.
Proof.
  intros Hl E. unfold run_users in E. revert y E. induction l as [|x l IH]; intros y E; [injection E as ->; apply rtc_refl|].
  cbn in E. destruct (users y !! x.1) as [pc|] eqn:Ht.
  2: { exfalso. clear -E. induction l; cbn in E; done. }
  cbn in E. destruct (user_step (address x.1) x.2 pc (plist y)) as [[pc' s]|] eqn:Es; cbn in E.
  2: { exfalso. clear -E. induction l; cbn in E; done. }
  eapply rtc_l; [|apply IH; [set_solver|exact E]]. destruct y as [s0 us]. apply (user_moves x.1 x.2 pc pc' s s0 us Ht); [|done].
  specialize (Hl x ltac:(set_solver)). by destruct x.2 as [| |[]].
Qed.

Definition go : Ask := Go None false.
Definition users_at (n : Z) (m : gmap Z ProducerLink) (us : list UPc) : Users := MkUsers (MkProducers (if n =? 0 then 0 else 100) n m) us.

Lemma producers_exclusive_witness :
  let y := users_at 1 {[100 := MkLink 0 false true 2]} [UIdle; UHas true 100; UCreate true] in
  exists l, chain (producers (plist y)) 100 l /\ forall t pc, users y !! t = Some pc -> 100 ∈ owned pc -> t = 1%nat.
Proof.
  intros y. assert (Hr : reachable users_initial users_step y).
  { exists (users_at 0 ∅ (replicate 3 UIdle)). split; [by exists 3%nat|].
    trans (users_at 0 ∅ [UCreate true; UIdle; UIdle]).
    { apply (run_users_reach [(0%nat, Acquire true); (0%nat, go)]); [|reflexivity].
      intros x Hx. repeat (apply elem_of_cons in Hx as [->|Hx]; [done|]). by apply elem_of_nil in Hx. }
    eapply rtc_l; [eapply (user_moves 0 (Go (Some 100) false)); [reflexivity|by split|reflexivity]|]. cbn.
    trans (users_at 1 {[100 := MkLink 0 false true 1]} [UHas true 100; UIdle; UIdle]).
    { apply (run_users_reach [(0%nat, go); (0%nat, go); (0%nat, go); (0%nat, go)]); [|reflexivity].
      intros x Hx. repeat (apply elem_of_cons in Hx as [->|Hx]; [done|]). by apply elem_of_nil in Hx. }
    eapply rtc_l; [by apply (tokens_swap 0 1 _ (users_at 1 {[100 := MkLink 0 false true 2]} [UIdle; UHas true 100; UIdle]))|].
    apply (run_users_reach [(2%nat, Acquire true); (2%nat, go); (2%nat, go)]); [|reflexivity].
    intros x Hx. repeat (apply elem_of_cons in Hx as [->|Hx]; [done|]). by apply elem_of_nil in Hx. }
  destruct (producers_exclusive y Hr) as (l & Hc & _ & Hu & _). exists l. split; [exact Hc|].
  intros t pc Ht Hp. apply (Hu t 1%nat pc (UHas true 100) 100 Ht eq_refl Hp). set_solver.
Defined.
