(* ===== verification/MoodyQueue.v ===== *)
(** * Dequeuing from any producer
    ([whisperlib/sync/moody/concurrentqueue.h]: [try_dequeue],
    [try_dequeue_bulk] and variants, [ConsumerToken], [size_approx])

    How a consumer chooses among the producers.  What it asks of the list of
    producers and of their queues is a class; other threads may move before each
    of these accesses, which is part of what they do to the world [W].  A
    function that follows a null pointer, divides by zero or runs out of fuel
    stops. *)

From S2P Require Import Prelude Posix MoodyDetails MoodyBlock.

(** Accesses to the list of producers, to the counters of the queue, and the
    methods of [ProducerBase]. *)
Class ProducerOps (A W : Type) := {
  load_tail : W -> Z * W;
  load_next : Z -> W -> Z * W;
  load_producerCount : W -> Z * W;
  load_globalOffset : W -> Z * W;
  add_globalOffset : W -> W;
  add_consumerId : W -> Z * W;
  ask_size : Z -> W -> Z * W;
  ask_dequeue : Z -> W -> option A * W;
  ask_dequeue_bulk : Z -> Z -> W -> list A * W
}.

Record ConsumerToken := MkConsumer {
  initialOffset : Z;
  lastKnownGlobalOffset : Z;
  itemsConsumedFromCurrent : Z;
  currentProducer : Z;
  desiredProducer : Z
}.
Definition set_current (p n : Z) (t : ConsumerToken) : ConsumerToken :=
  MkConsumer (initialOffset t) (lastKnownGlobalOffset t) n p (desiredProducer t).

(** [ConsumerToken::swap] *)
Definition swap_consumers (a b : ConsumerToken) : ConsumerToken * ConsumerToken := (b, a).

Section Queue.
Context {traits : Traits} {A W : Type} `{!ProducerOps A W}.
Implicit Types (ptr tail max : Z) (t : ConsumerToken) (fuel : nat).

Definition access {X} (f : W -> X * W) : M W X := fun w => let '(x, w) := f w in Ret x w.
(** A method of the producer at [ptr]. *)
Definition on_ptr {X} ptr (f : W -> X * W) : M W X := if decide (ptr = 0) then fatal "null pointer" else access f.

Definition ConsumerToken_ctor : M W ConsumerToken :=
  id <- access add_consumerId ;; ret (MkConsumer id (u32 (-1)) 0 0 0).

(** [ptr = ptr->next_prod(); if (ptr == nullptr) ptr = tail;] *)
Definition next_or tail ptr : M W Z :=
  p <- on_ptr ptr (load_next ptr) ;; ret (if decide (p = 0) then tail else p).

Fixpoint walk (n : nat) tail ptr : M W Z :=
  match n with O => ret ptr | S n => p <- next_or tail ptr ;; walk n tail p end.

Definition remainder (a b : Z) : M W Z := if decide (b = 0) then fatal "division by zero" else ret (a mod b).

(** *** Without a token *)

(** The best of the first producers that are not empty. *)
Fixpoint score fuel ptr (nonEmptyCount best bestSize : Z) : M W (Z * Z) :=
  if (nonEmptyCount <? 3) && negb (ptr =? 0) then
    match fuel with
    | O => fatal "out of fuel"
    | S fuel =>
        size <- on_ptr ptr (ask_size ptr) ;;
        next <- on_ptr ptr (load_next ptr) ;;
        if 0 <? size then
          if bestSize <? size then score fuel next (nonEmptyCount + 1) ptr size
          else score fuel next (nonEmptyCount + 1) best bestSize
        else score fuel next nonEmptyCount best bestSize
    end
  else ret (nonEmptyCount, best).

(** Each producer but [best], in turn. *)
Fixpoint try_each fuel best ptr : M W (option A) :=
  if ptr =? 0 then ret None
  else
    match fuel with
    | O => fatal "out of fuel"
    | S fuel =>
        r <- (if decide (ptr <> best) then on_ptr ptr (ask_dequeue ptr) else ret None) ;;
        match r with
        | Some v => ret (Some v)
        | None => next <- on_ptr ptr (load_next ptr) ;; try_each fuel best next
        end
    end.

Definition try_dequeue fuel : M W (option A) :=
  tail <- access load_tail ;;
  '(nonEmptyCount, best) <- score fuel tail 0 0 0 ;;
  if 0 <? nonEmptyCount then
    r <- on_ptr best (ask_dequeue best) ;;
    match r with
    | Some v => ret (Some v)
    | None => tail <- access load_tail ;; try_each fuel best tail
    end
  else ret None.

(** No producer is at address 0. *)
Definition try_dequeue_non_interleaved fuel : M W (option A) := tail <- access load_tail ;; try_each fuel 0 tail.

Fixpoint bulk_each fuel ptr max (got : list A) : M W (list A) :=
  if ptr =? 0 then ret got
  else
    match fuel with
    | O => fatal "out of fuel"
    | S fuel =>
        items <- on_ptr ptr (ask_dequeue_bulk ptr (max - zlen got)) ;;
        if zlen (got ++ items) =? max then ret (got ++ items)
        else next <- on_ptr ptr (load_next ptr) ;; bulk_each fuel next max (got ++ items)
    end.

Definition try_dequeue_bulk fuel max : M W (list A) := tail <- access load_tail ;; bulk_each fuel tail max [].

(** The producer of a producer token. *)
Definition try_dequeue_from_producer producer : M W (option A) := on_ptr producer (ask_dequeue producer).
Definition try_dequeue_bulk_from_producer producer max : M W (list A) := on_ptr producer (ask_dequeue_bulk producer max).

Fixpoint sum_sizes fuel ptr (size : Z) : M W Z :=
  if ptr =? 0 then ret size
  else
    match fuel with
    | O => fatal "out of fuel"
    | S fuel =>
        n <- on_ptr ptr (ask_size ptr) ;;
        next <- on_ptr ptr (load_next ptr) ;;
        sum_sizes fuel next (u64 (size + n))
    end.
Definition size_approx fuel : M W Z := tail <- access load_tail ;; sum_sizes fuel tail 0.

(** *** With a token *)

(** The token comes back, with whether there is a producer. *)
Definition update_current_producer_after_rotation t : M W (bool * ConsumerToken) :=
  tail <- access load_tail ;;
  if decide (desiredProducer t = 0 /\ tail = 0) then ret (false, t)
  else
    prodCount <- access load_producerCount ;;
    globalOffset <- access load_globalOffset ;;
    desired <-
      (if decide (desiredProducer t = 0) then
         r <- remainder (initialOffset t) prodCount ;;
         walk (Z.to_nat (u32 (prodCount - 1 - r))) tail tail
       else ret (desiredProducer t)) ;;
    let delta := u32 (globalOffset - lastKnownGlobalOffset t) in
    delta <- (if prodCount <=? delta then remainder delta prodCount else ret delta) ;;
    desired <- walk (Z.to_nat delta) tail desired ;;
    ret (true, MkConsumer (initialOffset t) globalOffset 0 desired desired).

(** The start of both functions that take a token. *)
Definition with_token {R} t (none : R) (k : ConsumerToken -> M W (R * ConsumerToken)) : M W (R * ConsumerToken) :=
  globalOffset <- (if decide (desiredProducer t = 0) then ret (lastKnownGlobalOffset t) else access load_globalOffset) ;;
  if decide (desiredProducer t = 0 \/ lastKnownGlobalOffset t <> globalOffset) then
    '(ok, t) <- update_current_producer_after_rotation t ;;
    if ok : bool then k t else ret (none, t)
  else k t.

(** The other producers, from [ptr] on to the current one. *)
Fixpoint try_others fuel tail ptr t : M W (option A * ConsumerToken) :=
  if ptr =? currentProducer t then ret (None, t)
  else
    match fuel with
    | O => fatal "out of fuel"
    | S fuel =>
        r <- on_ptr ptr (ask_dequeue ptr) ;;
        match r with
        | Some v => ret (Some v, set_current ptr 1 t)
        | None => ptr <- next_or tail ptr ;; try_others fuel tail ptr t
        end
    end.

(** [++token.itemsConsumedFromCurrent == QUOTA] *)
Definition consumed_one t : M W ConsumerToken :=
  let n := u32 (itemsConsumedFromCurrent t + 1) in
  (if n =? EXPLICIT_CONSUMER_CONSUMPTION_QUOTA_BEFORE_ROTATE then modify add_globalOffset else ret tt) ;;
  ret (set_current (currentProducer t) n t).

Definition try_dequeue_token fuel t : M W (option A * ConsumerToken) :=
  with_token t None (fun t =>
    r <- on_ptr (currentProducer t) (ask_dequeue (currentProducer t)) ;;
    match r with
    | Some v => t <- consumed_one t ;; ret (Some v, t)
    | None =>
        tail <- access load_tail ;;
        ptr <- next_or tail (currentProducer t) ;;
        try_others fuel tail ptr t
    end).

(** [currentProducer] moves to each producer that had something. *)
Fixpoint bulk_others fuel tail ptr max t (got : list A) : M W (list A * ConsumerToken) :=
  if ptr =? currentProducer t then ret (got, t)
  else
    match fuel with
    | O => fatal "out of fuel"
    | S fuel =>
        items <- on_ptr ptr (ask_dequeue_bulk ptr max) ;;
        let t := if zlen items =? 0 then t else set_current ptr (u32 (zlen items)) t in
        if zlen items =? max then ret (got ++ items, t)
        else ptr <- next_or tail ptr ;; bulk_others fuel tail ptr (max - zlen items) t (got ++ items)
    end.

Definition try_dequeue_bulk_token fuel t max : M W (list A * ConsumerToken) :=
  with_token t [] (fun t =>
    items <- on_ptr (currentProducer t) (ask_dequeue_bulk (currentProducer t) max) ;;
    let n := u32 (itemsConsumedFromCurrent t + zlen items) in
    let t := set_current (currentProducer t) n t in
    if zlen items =? max then
      (if EXPLICIT_CONSUMER_CONSUMPTION_QUOTA_BEFORE_ROTATE <=? n then modify add_globalOffset else ret tt) ;;
      ret (items, t)
    else
      tail <- access load_tail ;;
      ptr <- next_or tail (currentProducer t) ;;
      bulk_others fuel tail ptr (max - zlen items) t items).
End Queue.
