(* ===== verification/MoodyQueueSpec.v ===== *)
(** * What a dequeue has seen

    The functions of MoodyQueue.v in a world where other threads move: what they
    return they took from the producers, and when they return less than asked
    for, every producer appeared empty. *)

From S2P Require Import Prelude Posix MoodyDetails MoodyBlock MoodyQueue.

(** ** The world *)

(** What a call has seen and done. *)
Inductive Event (A : Type) :=
| SawTail (ptr : Z)
| SawCount (n : Z)
| SawOffset (g : Z)
| Rotated
| SawSize (ptr n : Z)
| Asked (ptr max : Z) (items : list A).
Arguments SawTail {A}. Arguments SawCount {A}. Arguments SawOffset {A}. Arguments Rotated {A}.
Arguments SawSize {A}. Arguments Asked {A}.

Definition took {A} (e : Event A) : list A := match e with Asked _ _ l => l | _ => [] end.
Definition taken {A} (es : list (Event A)) : list A := es ≫= took.
Arguments taken : simpl never.

(** The list of producers, newest first, in a world that other threads change
    too, and the events of a call.  The list only grows, at its front; an access
    is answered from the world as it is then. *)
Class Producers (A W : Type) `{!ProducerOps A W} := {
  plist : W -> list Z;
  seen : W -> list (Event A);
  world_ok : W -> Prop;
  most : nat;
  goes (w w' : W) (es : list (Event A)) : Prop := world_ok w' /\ plist w `suffix_of` plist w' /\ seen w' = seen w ++ es;
  list_ok w : world_ok w -> NoDup (plist w) /\ 0 ∉ plist w /\ (length (plist w) <= most)%nat;
  tail_law w p w' : world_ok w -> load_tail w = (p, w') -> goes w w' [SawTail p] /\ p = hd 0 (plist w');
  next_law w i q p w' : world_ok w -> plist w !! i = Some q -> load_next q w = (p, w') ->
    goes w w' [] /\ p = default 0 (plist w !! S i);
  count_law w n w' : world_ok w -> load_producerCount w = (n, w') -> goes w w' [SawCount n] /\ zlen (plist w') <= n < 2 ^ 32;
  offset_law w g w' : world_ok w -> load_globalOffset w = (g, w') -> goes w w' [SawOffset g];
  rotate_law w : world_ok w -> goes w (add_globalOffset w) [Rotated];
  size_law w p n w' : world_ok w -> p ∈ plist w -> ask_size p w = (n, w') -> goes w w' [SawSize p n] /\ 0 <= n;
  dequeue_law w p r w' : world_ok w -> p ∈ plist w -> ask_dequeue p w = (r, w') -> goes w w' [Asked p 1 (option_list r)];
  bulk_law w p max items w' : world_ok w -> p ∈ plist w -> 0 <= max -> ask_dequeue_bulk p max w = (items, w') ->
    goes w w' [Asked p max items] /\ zlen items <= max
}.

Section Spec.
Context {traits : Traits} {A W : Type} `{!ProducerOps A W} `{!Producers A W}.
Implicit Types (w : W) (L : list Z) (p q ptr best : Z) (i j : nat) (es : list (Event A)) (t : ConsumerToken).







(** *** Accesses *)






(** *** Once over the list *)

Lemma taken_app es es' : taken (es ++ es') = taken es ++ taken es'.
Proof. apply bind_app. Qed.
Lemma taken_cons (e : Event A) es : taken (e :: es) = took e ++ taken es.
Proof. done. Qed.
Lemma taken_nil : taken (@nil (Event A)) = [].
Proof. done. Qed.
Ltac taken := repeat (rewrite ?taken_app, ?taken_cons, ?taken_nil, ?app_nil_r; cbn [took app option_list option_rect]).












(** ** Without a token *)









(** ** Around the list *)










(** ** With a token *)



















End Spec.

(** ** A world *)

(** Producers with elements, and others that come: one joins the list before
    each access. *)
Record Script := MkScript { queues : list (Z * list nat); coming : list (Z * list nat); offset : Z; events : list (Event nat) }.

Definition arrive (w : Script) : Script :=
  match coming w with [] => w | q :: qs => MkScript (q :: queues w) qs (offset w) (events w) end.
Definition note (e : Event nat) (w : Script) : Script := MkScript (queues w) (coming w) (offset w) (events w ++ [e]).
Definition script_list (w : Script) : list Z := map fst (queues w).

Fixpoint after (p : Z) (l : list Z) : Z :=
  match l with [] => 0 | q :: l => if decide (q = p) then hd 0 l else after p l end.
Fixpoint held_by (p : Z) (l : list (Z * list nat)) : list nat :=
  match l with [] => [] | (q, x) :: l => if decide (q = p) then x else held_by p l end.
Definition without (p : Z) (n : nat) (l : list (Z * list nat)) : list (Z * list nat) :=
  map (fun '(q, x) => (q, if decide (q = p) then drop n x else x)) l.
Definition take_from (p : Z) (n : nat) (w : Script) : list nat * Script :=
  (take n (held_by p (queues w)), MkScript (without p n (queues w)) (coming w) (offset w) (events w)).

#[local] Instance script_ops : ProducerOps nat Script := {
  load_tail w := let w := arrive w in let p := hd 0 (script_list w) in (p, note (SawTail p) w);
  load_next p w := let w := arrive w in (after p (script_list w), w);
  load_producerCount w := let w := arrive w in let n := zlen (script_list w) in (n, note (SawCount n) w);
  load_globalOffset w := (offset w, note (SawOffset (offset w)) w);
  add_globalOffset w := note Rotated (MkScript (queues w) (coming w) (u32 (offset w + 1)) (events w));
  add_consumerId w := (0, w);
  ask_size p w := let w := arrive w in let n := zlen (held_by p (queues w)) in (n, note (SawSize p n) w);
  ask_dequeue p w := let '(l, w) := take_from p 1 (arrive w) in (head l, note (Asked p 1 (option_list (head l))) w);
  ask_dequeue_bulk p max w := let '(l, w) := take_from p (Z.to_nat max) (arrive w) in (l, note (Asked p max l) w)
}.

Definition script_ok (w : Script) : Prop :=
  NoDup (map fst (coming w) ++ script_list w) /\ 0 ∉ map fst (coming w) ++ script_list w /\
  (length (coming w) + length (queues w) <= 5)%nat.

Definition script_goes (w w' : Script) (es : list (Event nat)) : Prop :=
  script_ok w' /\ script_list w `suffix_of` script_list w' /\ events w' = events w ++ es.

Lemma without_list p n l : map fst (without p n l) = map fst l.
Proof. unfold without. rewrite map_map. apply map_ext. by intros [q x]. Qed.

Lemma arrive_goes w : script_ok w -> script_goes w (arrive w) [].
Proof.
  intros Hw. unfold arrive. destruct w as [qs [|q cs] o es]; cbn; [split; [done|split; [done|by rewrite app_nil_r]]|].
  destruct Hw as (Hn & H0 & Hl). cbn in *. split; [|split; [by exists [q.1]|by rewrite app_nil_r]].
  assert (E : map fst cs ++ q.1 :: map fst qs ≡ₚ q.1 :: map fst cs ++ map fst qs) by by rewrite Permutation_middle.
  split; [cbn; unfold script_list in *; cbn in *; by rewrite E|]. split; [unfold script_list in *; cbn in *; by rewrite E|cbn; lia].
Qed.
Lemma note_goes w w' e : script_goes w w' [] -> script_goes w (note e w') [e].
Proof. intros (H & Hs & He). rewrite app_nil_r in He. split; [done|]. split; [done|]. cbn. by rewrite He. Qed.
Lemma take_goes w w' p n : script_goes w w' [] -> script_goes w (take_from p n w').2 [].
Proof.
  intros ((Hn & H0 & Hl) & Hs & He). unfold script_goes, script_ok, script_list, without in *. cbn. unfold script_list in *. rewrite without_list.
  unfold without. rewrite length_map. done.
Qed.

Lemma after_law l k i q : NoDup (k ++ l) -> l !! i = Some q -> after q (k ++ l) = default 0 (l !! S i).
Proof.
  intros Hn Hi. assert (Ha : forall k, NoDup (k ++ l) -> after q (k ++ l) = after q l).
  { clear k Hn. intros k Hn. induction k as [|x k IH]; [done|]. cbn in Hn |- *. apply NoDup_cons in Hn as [Hx Hn].
    rewrite decide_False; [by apply IH|]. intros ->. apply Hx. apply elem_of_app. right. by eapply list_elem_of_lookup_2. }
  rewrite Ha by done. apply NoDup_app in Hn as (_ & _ & Hn). clear Ha. revert i Hi. induction l as [|x l IH]; intros i Hi; [done|].
  apply NoDup_cons in Hn as [Hx Hn]. destruct i as [|i]; cbn in Hi |- *.
  - injection Hi as ->. rewrite decide_True by done. by destruct l.
  - rewrite decide_False; [by apply IH|]. intros ->. apply Hx. by eapply list_elem_of_lookup_2.
Qed.

#[local, refine] Instance script_producers : Producers nat Script := {|
  plist := script_list; seen := events; world_ok := script_ok; most := 5
|}.
Proof.
  - intros w (Hn & H0 & Hl). apply NoDup_app in Hn as (_ & _ & Hn). split; [done|]. split; [set_solver|]. unfold script_list. rewrite length_map. lia.
  - intros w p w' Hw E. cbn in E. injection E as <- <-. by split; [apply note_goes, arrive_goes|].
  - intros w i q p w' Hw Hi E. cbn in E. injection E as <- <-. pose proof (arrive_goes w Hw) as Hg. split; [done|].
    destruct Hg as (Hok & [k Hk] & _). destruct Hok as (Hn & _ & _). apply NoDup_app in Hn as (_ & _ & Hn). rewrite Hk in *. by apply after_law.
  - intros w n w' Hw E. cbn in E. injection E as <- <-. pose proof (arrive_goes w Hw) as Hg. split; [by apply note_goes|].
    split; [done|]. destruct Hg as ((_ & _ & Hl) & _). cbn. unfold script_list, zlen. rewrite length_map. lia.
  - intros w g w' Hw E. cbn in E. injection E as <- <-. apply note_goes. split; [done|split; [done|by rewrite app_nil_r]].
  - intros w Hw. cbn. apply (note_goes w (MkScript _ _ _ _)). split; [done|split; [done|by rewrite app_nil_r]].
  - intros w p n w' Hw _ E. cbn in E. injection E as <- <-. split; [by apply note_goes, arrive_goes|apply zlen_nonneg].
  - intros w p r w' Hw _ E. cbn in E. injection E as <- <-. by apply note_goes, take_goes, arrive_goes.
  - intros w p max items w' Hw _ Hm E. cbn in E. injection E as <- <-. split; [by apply note_goes, take_goes, arrive_goes|].
    unfold zlen. rewrite length_take. lia.
Defined.



