(* ===== verification/MoodyHash.v ===== *)
(** * The hash table of implicit producers
    ([whisperlib/sync/moody/concurrentqueue.h]: [get_or_add_implicit_producer],
    [implicit_producer_thread_exited], [ThreadExitNotifier])

    A thread that enqueues without a token finds its producer in a lock-free
    hash table, by its id, which is an address: a later thread may have the same
    id.  A table that is half full gets a successor; old ones are kept.  Each
    access to shared memory is a step, and the steps of the threads interleave.
    The list of producers (MoodyProducers.v) is here the set of those in use. *)

From S2P Require Import Prelude Posix MoodyDetails MoodyBlock.

(** ** State *)

Record ImplicitProducerKVP := MkKvp { key : Z; value : Z }.

(** A pointer to a table is a number: [S k] for the [k]-th that was made. *)
Record ImplicitProducerHash := MkHash { capacity : Z; entries : list ImplicitProducerKVP; prev : nat }.

Record Hashes := MkHashes {
  tables : list ImplicitProducerHash;
  implicitProducerHash : nat;
  implicitProducerHashCount : Z;
  implicitProducerHashResizeInProgress : bool;
  in_use : gset Z
}.

Definition set_tables (l : list ImplicitProducerHash) (s : Hashes) : Hashes :=
  MkHashes l (implicitProducerHash s) (implicitProducerHashCount s) (implicitProducerHashResizeInProgress s) (in_use s).
Definition set_main (h : nat) (s : Hashes) : Hashes :=
  MkHashes (tables s) h (implicitProducerHashCount s) (implicitProducerHashResizeInProgress s) (in_use s).
Definition set_hash_count (n : Z) (s : Hashes) : Hashes :=
  MkHashes (tables s) (implicitProducerHash s) n (implicitProducerHashResizeInProgress s) (in_use s).
Definition set_resizing (b : bool) (s : Hashes) : Hashes :=
  MkHashes (tables s) (implicitProducerHash s) (implicitProducerHashCount s) b (in_use s).
Definition set_in_use (p : gset Z) (s : Hashes) : Hashes :=
  MkHashes (tables s) (implicitProducerHash s) (implicitProducerHashCount s) (implicitProducerHashResizeInProgress s) p.

Definition table_at (h : nat) (s : Hashes) : option ImplicitProducerHash := match h with O => None | S k => tables s !! k end.

(** [index &= hash->capacity - 1u] *)
Definition masked (index : Z) (t : ImplicitProducerHash) : Z := Z.land index (capacity t - 1).

Definition entry (index : Z) (t : ImplicitProducerHash) : option ImplicitProducerKVP := entries t !! Z.to_nat (masked index t).
Definition set_entry (index : Z) (e : ImplicitProducerKVP) (t : ImplicitProducerHash) : ImplicitProducerHash :=
  MkHash (capacity t) (<[Z.to_nat (masked index t):=e]> (entries t)) (prev t).
Definition write_entry (h : nat) (index : Z) (f : ImplicitProducerKVP -> ImplicitProducerKVP) (s : Hashes) : option Hashes :=
  t ← table_at h s; e ← entry index t; Some (set_tables (<[pred h:=set_entry index (f e) t]> (tables s)) s).
Definition set_key (k : Z) (e : ImplicitProducerKVP) : ImplicitProducerKVP := MkKvp k (value e).
Definition set_value (v : Z) (e : ImplicitProducerKVP) : ImplicitProducerKVP := MkKvp (key e) v.

(** [key.compare_exchange_strong(expected, desired)]: the key that there was,
    and the new state. *)
Definition cas_key (h : nat) (index expected desired : Z) (s : Hashes) : option (Z * Hashes) :=
  t ← table_at h s; e ← entry index t;
  if decide (key e = expected) then s ← write_entry h index (set_key desired) s; Some (key e, s) else Some (key e, s).

Definition new_hash (c : Z) (previous : nat) : ImplicitProducerHash :=
  MkHash c (replicate (Z.to_nat c) (MkKvp invalid_thread_id 0)) previous.

(** [while (newCount >= (newCapacity >> 1)) newCapacity <<= 1]; beyond 64 bits
    it does not end. *)
Fixpoint grown (fuel : nat) (newCount newCapacity : Z) : option Z :=
  if newCount <? Z.shiftr newCapacity 1 then Some newCapacity
  else match fuel with O => None | S fuel => grown fuel newCount (u64 (Z.shiftl newCapacity 1)) end.

(** ** Threads *)

(** Where a thread is in [get_or_add_implicit_producer] ([H...]), and in
    [implicit_producer_thread_exited] ([X...]). *)
Inductive HPc :=
| HIdle
| HLoad
| HProbe (mainHash hash : nat) (index : Z)
| HMoveEmpty (mainHash : nat) (index value : Z)
| HMoveReusable (mainHash : nat) (index value : Z)
| HMoveValue (mainHash : nat) (index value : Z)
| HCount (mainHash : nat)
| HGrow (mainHash : nat) (newCount : Z)
| HReload (newCount : Z)
| HAlloc (mainHash : nat) (newCount : Z)
| HUncount
| HUnlock
| HPublished (mainHash : nat) (newCount : Z)
| HAdd (mainHash : nat) (newCount : Z)
| HGiveBack
| HSubscribe (mainHash : nat) (producer : Z)
| HReusable (mainHash : nat) (index producer : Z)
| HReused (mainHash : nat) (index producer : Z)
| HEmpty (mainHash : nat) (index producer : Z)
| HValue (mainHash : nat) (index producer : Z)
| XLoad
| XProbe (hash : nat) (index : Z)
| XInactive.

(** A thread: its id, the producers that it has subscribed to its exit, and the
    results of its calls since it began. *)
Record Client := MkClient { id : Z; pc : HPc; listeners : list Z; got : list Z }.

Inductive HashAsk :=
| Call
| Exit
| HGo (malloc : bool) (producer : option Z).

Definition goto (p : HPc) (x : Client) : Client := MkClient (id x) p (listeners x) (got x).
Definition return_ (r : Z) (x : Client) : Client := MkClient (id x) HIdle (listeners x) (got x ++ [r]).

(** [ThreadExitNotifier::subscribe] *)
Definition subscribe (p : Z) (x : Client) : Client := MkClient (id x) (pc x) (p :: listeners x) (got x).

(** [~ThreadExitNotifier]: the callbacks of the listeners run, the last subscribed first; then the
    thread is gone, and another may begin. *)
Definition run_callbacks (l : list Z) (x : Client) : Client :=
  match l with [] => MkClient (id x) HIdle [] [] | _ => MkClient (id x) XLoad l (got x) end.

(** The loop on the keys of a table, from the table at [hash]. *)
Definition look_in (mainHash hash : nat) (x : Client) : Client :=
  match hash with O => goto (HCount mainHash) x | _ => goto (HProbe mainHash hash (hash_thread_id (id x))) x end.
Definition remove_from (hash : nat) (x : Client) : Client :=
  match hash with O => goto XInactive x | _ => goto (XProbe hash (hash_thread_id (id x))) x end.

(** A step of a thread. *)
Definition hash_step (a : HashAsk) (x : Client) (s : Hashes) : option (Client * Hashes) :=
  match pc x, a with
  | HIdle, Call => Some (goto HLoad x, s)
  | HIdle, Exit => Some (run_callbacks (listeners x) x, s)
  | HLoad, HGo _ _ => Some (look_in (implicitProducerHash s) (implicitProducerHash s) x, s)
  | HProbe mainHash hash index, HGo _ _ =>
      t ← table_at hash s; e ← entry index t;
      Some (if key e =? id x then
              if (hash =? mainHash)%nat then return_ (value e) x
              else goto (HMoveEmpty mainHash (hash_thread_id (id x)) (value e)) x
            else if key e =? invalid_thread_id then look_in mainHash (prev t) x
            else goto (HProbe mainHash hash (masked index t + 1)) x, s)
  | HMoveEmpty mainHash index v, HGo _ _ =>
      t ← table_at mainHash s; '(k, s) ← cas_key mainHash index invalid_thread_id (id x) s;
      Some (goto (if k =? invalid_thread_id then HMoveValue mainHash index v else HMoveReusable mainHash index v) x, s)
  | HMoveReusable mainHash index v, HGo _ _ =>
      t ← table_at mainHash s; '(k, s) ← cas_key mainHash index invalid_thread_id2 (id x) s;
      Some (goto (if k =? invalid_thread_id2 then HMoveValue mainHash index v else HMoveEmpty mainHash (masked index t + 1) v) x, s)
  | HMoveValue mainHash index v, HGo _ _ => s ← write_entry mainHash index (set_value v) s; Some (return_ v x, s)
  | HCount mainHash, HGo _ _ =>
      let n := u64 (1 + implicitProducerHashCount s) in Some (goto (HGrow mainHash n) x, set_hash_count n s)
  | HGrow mainHash newCount, HGo _ _ =>
      t ← table_at mainHash s;
      Some (if Z.shiftr (capacity t) 1 <=? newCount then
              if implicitProducerHashResizeInProgress s then (goto (HAdd mainHash newCount) x, s)
              else (goto (HReload newCount) x, set_resizing true s)
            else (goto (HAdd mainHash newCount) x, s))
  | HReload newCount, HGo _ _ =>
      let mainHash := implicitProducerHash s in
      t ← table_at mainHash s;
      Some (goto (if Z.shiftr (capacity t) 1 <=? newCount then HAlloc mainHash newCount else HPublished mainHash newCount) x, s)
  | HAlloc mainHash newCount, HGo malloc _ =>
      t ← table_at mainHash s; c ← grown 64 newCount (u64 (Z.shiftl (capacity t) 1));
      if malloc then
        let newHash := S (length (tables s)) in
        Some (goto (HPublished newHash newCount) x, set_main newHash (set_tables (tables s ++ [new_hash c mainHash]) s))
      else Some (goto HUncount x, s)
  | HUncount, HGo _ _ => Some (goto HUnlock x, set_hash_count (u64 (implicitProducerHashCount s - 1)) s)
  | HUnlock, HGo _ _ => Some (return_ 0 x, set_resizing false s)
  | HPublished mainHash newCount, HGo _ _ => Some (goto (HAdd mainHash newCount) x, set_resizing false s)
  | HAdd mainHash newCount, HGo _ producer =>
      t ← table_at mainHash s;
      if newCount <? Z.shiftr (capacity t) 1 + Z.shiftr (capacity t) 2 then
        match producer with
        | None => Some (goto HGiveBack x, s)
        | Some p => Some (goto (HSubscribe mainHash p) x, set_in_use ({[p]} ∪ in_use s) s)
        end
      else Some (goto (HGrow (implicitProducerHash s) newCount) x, s)
  | HGiveBack, HGo _ _ => Some (return_ 0 x, set_hash_count (u64 (implicitProducerHashCount s - 1)) s)
  | HSubscribe mainHash p, HGo _ _ =>
      Some (goto (HReusable mainHash (hash_thread_id (id x)) p) (subscribe p x), s)
  | HReusable mainHash index p, HGo _ _ =>
      '(k, s) ← cas_key mainHash index invalid_thread_id2 (id x) s;
      Some (goto (if k =? invalid_thread_id2 then HReused mainHash index p else HEmpty mainHash index p) x, s)
  | HReused mainHash index p, HGo _ _ =>
      Some (goto (HValue mainHash index p) x, set_hash_count (u64 (implicitProducerHashCount s - 1)) s)
  | HEmpty mainHash index p, HGo _ _ =>
      t ← table_at mainHash s; '(k, s) ← cas_key mainHash index invalid_thread_id (id x) s;
      Some (goto (if k =? invalid_thread_id then HValue mainHash index p else HReusable mainHash (masked index t + 1) p) x, s)
  | HValue mainHash index p, HGo _ _ => s ← write_entry mainHash index (set_value p) s; Some (return_ p x, s)
  | XLoad, HGo _ _ => Some (remove_from (implicitProducerHash s) x, s)
  | XProbe hash index, HGo _ _ =>
      t ← table_at hash s; '(k, s) ← cas_key hash index (id x) invalid_thread_id2 s;
      Some (if (k =? id x) || (k =? invalid_thread_id) then remove_from (prev t) x
            else goto (XProbe hash (masked index t + 1)) x, s)
  | XInactive, HGo _ _ =>
      match listeners x with
      | p :: l => Some (run_callbacks l x, set_in_use (in_use s ∖ {[p]}) s)
      | [] => None
      end
  | _, _ => None
  end.

(** ** The system *)

Record Clients := MkClients { hashes : Hashes; clients : list Client }.

(** [recycle_or_create_producer] gives a producer that no one uses. *)
Definition hash_ask_ok (a : HashAsk) (s : Hashes) : Prop :=
  match a with HGo _ (Some p) => p <> 0 /\ p ∉ in_use s | _ => True end.

Inductive clients_step : Clients -> Clients -> Prop :=
| client_moves t a x x' s s' l :
    l !! t = Some x -> hash_ask_ok a s -> hash_step a x s = Some (x', s') ->
    clients_step (MkClients s l) (MkClients s' (<[t:=x']> l)).

(** [populate_initial_implicit_producer_hash]; threads with different ids. *)
Section Initial.
Context {traits : Traits}.

Definition initial_hashes : Hashes := MkHashes [new_hash INITIAL_IMPLICIT_PRODUCER_HASH_SIZE 0] 1 0 false ∅.

Definition clients_initial (y : Clients) : Prop := exists ids, y = MkClients initial_hashes (map (fun i => MkClient i HIdle [] []) ids) /\
  NoDup ids /\ Forall (fun i => invalid_thread_id2 < i < 2 ^ 64) ids.
End Initial.
