(* ===== verification/MoodyHashSpec.v ===== *)
(** * A thread finds its producer

    The invariant of the hash table (MoodyHash.v): what a thread has inserted it
    finds again, whatever other threads insert, remove or grow meanwhile. *)

From S2P Require Import Prelude Posix MoodyDetails MoodyBlock MoodyHash.

(** ** One table *)

Section Table.
Implicit Types (t : ImplicitProducerHash) (i : Z) (j : nat) (off : Z) (e : ImplicitProducerKVP).

Definition power (c : Z) : Prop := exists b, 0 <= b <= 63 /\ c = 2 ^ b.
Definition well t : Prop := power (capacity t) /\ length (entries t) = Z.to_nat (capacity t).
Definition valid i : Prop := invalid_thread_id2 < i < 2 ^ 64.

(** Where the search for an id gets to after [off] steps. *)
Definition pos t i off : nat := Z.to_nat ((hash_thread_id i + off) mod capacity t).
Definition at_pos t i (index off : Z) : Prop := 0 <= off /\ masked index t = (hash_thread_id i + off) mod capacity t.

Definition keyed t j i : Prop := exists e, entries t !! j = Some e /\ key e = i.
Definition absent t i : Prop := forall j, ~ keyed t j i.
Definition filled t i off : Prop := forall o, 0 <= o < off -> exists e, entries t !! pos t i o = Some e /\ key e <> invalid_thread_id.
Definition scanned t i off : Prop := forall o, 0 <= o < off -> exists e, entries t !! pos t i o = Some e /\ key e <> invalid_thread_id /\ key e <> i.

(** The id is at most once in the table, and a search gets to it. *)
Definition own t i : Prop := (forall j j', keyed t j i -> keyed t j' i -> j = j') /\
  (forall j, keyed t j i -> exists off, 0 <= off /\ j = pos t i off /\ filled t i off).

Lemma well_pos t : well t -> 1 <= capacity t <= 2 ^ 63.
Proof.
  intros [(n & Hn & ->) _]. split; [change 1 with (2 ^ 0) at 1|]; apply Z.pow_le_mono_r; lia.
Qed.

Lemma masked_mod t index : well t -> masked index t = index mod capacity t.
Proof.
  intros [(n & Hn & E) _]. unfold masked. rewrite E. replace (2 ^ n - 1) with (Z.ones n) by (rewrite Z.ones_equiv; lia).
  apply Z.land_ones. lia.
Qed.

Lemma at_pos_start t i : well t -> at_pos t i (hash_thread_id i) 0.
Proof. intros Ht. split; [lia|]. by rewrite masked_mod, Z.add_0_r. Qed.

Lemma at_pos_next t i index off : well t -> at_pos t i index off -> at_pos t i (masked index t + 1) (off + 1).
Proof.
  intros Ht [H0 E]. split; [lia|]. rewrite E, masked_mod, Zplus_mod_idemp_l by done. f_equal. lia.
Qed.

Lemma at_pos_index t i index off : at_pos t i index off -> Z.to_nat (masked index t) = pos t i off.
Proof. intros [_ E]. unfold pos. by rewrite E. Qed.

Lemma entry_some t index : well t -> exists e, entry index t = Some e.
Proof.
  intros Ht. unfold entry. apply lookup_lt_is_Some_2. rewrite (proj2 Ht), masked_mod by done.
  pose proof (well_pos t Ht). pose proof (Z.mod_pos_bound index (capacity t) ltac:(lia)). lia.
Qed.

Lemma filled_next t i off e : filled t i off -> entries t !! pos t i off = Some e -> key e <> invalid_thread_id -> filled t i (off + 1).
Proof. intros H He Hk o Ho. destruct (decide (o = off)) as [->|]; [by exists e|]. apply H. lia. Qed.
Lemma scanned_next t i off e : scanned t i off -> entries t !! pos t i off = Some e -> key e <> invalid_thread_id -> key e <> i -> scanned t i (off + 1).
Proof. intros H He Hk Hi o Ho. destruct (decide (o = off)) as [->|]; [by exists e|]. apply H. lia. Qed.
Lemma scanned_filled t i off : scanned t i off -> filled t i off.
Proof. intros H o Ho. destruct (H o Ho) as (e & He & Hk & _). by exists e. Qed.

(** A search that ends at an empty slot has not missed the id. *)
Lemma scan_absent t i off e : own t i -> valid i -> 0 <= off -> scanned t i off -> entries t !! pos t i off = Some e ->
  key e = invalid_thread_id -> absent t i.
Proof.
  intros [_ Hp] Hi H0 Hs He Hk j Hj. destruct (Hp j Hj) as (o & Ho & -> & Hf). destruct Hj as (e' & He' & Hk').
  destruct (Z.lt_trichotomy o off) as [Hlt|[->|Hlt]].
  - destruct (Hs o ltac:(lia)) as (e2 & He2 & _ & Hne). congruence.
  - unfold valid, invalid_thread_id2, invalid_thread_id in *. rewrite He in He'. injection He' as <-. lia.
  - destruct (Hf off ltac:(lia)) as (e2 & He2 & Hne). congruence.
Qed.

Lemma absent_own t i : absent t i -> own t i.
Proof. intros H. split; [intros j j' Hj; by destruct (H j)|intros j Hj; by destruct (H j)]. Qed.

(** *** Changes that do not concern an id *)

Definition frame i t t' : Prop :=
  capacity t' = capacity t /\ prev t' = prev t /\ length (entries t') = length (entries t) /\
  forall j e', entries t' !! j = Some e' -> exists e, entries t !! j = Some e /\
    (e' = e \/ key e <> i /\ key e' <> i /\ (key e <> invalid_thread_id -> key e' <> invalid_thread_id)).

Lemma frame_refl i t : frame i t t.
Proof. split_and!; try done. intros j e He. exists e. split; [done|by left]. Qed.

Lemma frame_back i t t' j e : frame i t t' -> entries t !! j = Some e ->
  exists e', entries t' !! j = Some e' /\ (e' = e \/ key e <> i /\ key e' <> i /\ (key e <> invalid_thread_id -> key e' <> invalid_thread_id)).
Proof.
  intros (_ & _ & Hl & H) He. assert (is_Some (entries t' !! j)) as [e' He'].
  { apply lookup_lt_is_Some_2. rewrite Hl. by eapply lookup_lt_Some. }
  destruct (H j e' He') as (e0 & He0 & Hd). simplify_eq. by exists e'.
Qed.

Lemma frame_entry i t t' j e : frame i t t' -> entries t' !! j = Some e -> key e = i -> entries t !! j = Some e.
Proof. intros (_ & _ & _ & H) He Hk. destruct (H j e He) as (e0 & He0 & [->|(_ & Hn & _)]); [done|]. congruence. Qed.
Lemma frame_keyed i t t' j : frame i t t' -> keyed t' j i <-> keyed t j i.
Proof.
  intros Hf. split; intros (e & He & Hk).
  - exists e. split; [by eapply frame_entry|done].
  - destruct (frame_back _ _ _ _ _ Hf He) as (e' & He' & [->|(Hn & _)]); [by exists e|congruence].
Qed.
Lemma frame_absent i t t' : frame i t t' -> absent t i -> absent t' i.
Proof. intros Hf Ha j Hj. apply (Ha j). by apply (frame_keyed i t t'). Qed.
Lemma frame_well i t t' : frame i t t' -> well t -> well t'.
Proof. intros (Hc & _ & Hl & _) [Hn Hw]. split; rewrite ?Hc, ?Hl; done. Qed.
Lemma frame_pos i t t' off : frame i t t' -> pos t' i off = pos t i off.
Proof. intros (Hc & _). unfold pos. by rewrite Hc. Qed.
Lemma frame_masked i t t' index : frame i t t' -> masked index t' = masked index t.
Proof. intros (Hc & _). unfold masked. by rewrite Hc. Qed.
Lemma frame_at_pos i t t' index off : frame i t t' -> at_pos t i index off -> at_pos t' i index off.
Proof. intros Hf [H0 E]. split; [done|]. rewrite (frame_masked _ _ _ _ Hf), E. by rewrite (proj1 Hf). Qed.
Lemma frame_filled i t t' off : frame i t t' -> valid i -> filled t i off -> filled t' i off.
Proof.
  intros Hf Hv H o Ho. destruct (H o Ho) as (e & He & Hk). rewrite (frame_pos _ _ _ _ Hf).
  destruct (frame_back _ _ _ _ _ Hf He) as (e' & He' & [->|(_ & _ & Hn)]); [by exists e|]. exists e'. split; [done|by apply Hn].
Qed.
Lemma frame_scanned i t t' off : frame i t t' -> scanned t i off -> scanned t' i off.
Proof.
  intros Hf H o Ho. destruct (H o Ho) as (e & He & Hk & Hi). rewrite (frame_pos _ _ _ _ Hf).
  destruct (frame_back _ _ _ _ _ Hf He) as (e' & He' & [->|(_ & Hne & Hn)]); [by exists e|]. exists e'. split; [done|]. split; [by apply Hn|done].
Qed.
Lemma frame_own i t t' : frame i t t' -> valid i -> own t i -> own t' i.
Proof.
  intros Hf Hv [Hu Hp]. split.
  - intros j j' Hj Hj'. apply Hu; by apply (frame_keyed i t t').
  - intros j Hj. destruct (Hp j) as (off & H0 & -> & Hfl); [by apply (frame_keyed i t t')|]. exists off.
    split; [done|]. split; [by rewrite (frame_pos _ _ _ _ Hf)|by eapply frame_filled].
Qed.

(** *** Writes *)

Lemma set_entry_frame i t index e e' : entry index t = Some e -> key e <> i -> key e' <> i ->
  (key e <> invalid_thread_id -> key e' <> invalid_thread_id) -> frame i t (set_entry index e' t).
Proof.
  intros He Hk Hk' Hn. split_and!; [done|done|by cbn; rewrite length_insert|]. cbn. intros j e2 He2.
  apply list_lookup_insert_Some in He2 as [(<- & <- & _)|[_ He2]].
  - exists e. split; [done|by right].
  - exists e2. split; [done|by left].
Qed.

Lemma set_entry_well t index e : well t -> well (set_entry index e t).
Proof. intros [Hn Hl]. split; [done|]. cbn. by rewrite length_insert. Qed.

Lemma set_entry_lookup t index e e' : entry index t = Some e -> entries (set_entry index e' t) !! Z.to_nat (masked index t) = Some e'.
Proof. intros He. cbn. apply list_lookup_insert_eq. by eapply lookup_lt_Some. Qed.

Lemma set_entry_other t index e' j : j <> Z.to_nat (masked index t) -> entries (set_entry index e' t) !! j = entries t !! j.
Proof. intros Hj. cbn. by apply list_lookup_insert_ne. Qed.

(** The id is put where its search has got to. *)
Lemma insert_own t i index off e v : valid i -> absent t i -> at_pos t i index off -> filled t i off -> entry index t = Some e ->
  let t' := set_entry index (MkKvp i v) t in own t' i /\ keyed t' (Z.to_nat (masked index t)) i.
Proof.
  intros Hv Ha Hat Hf He t'. assert (Hk : keyed t' (Z.to_nat (masked index t)) i).
  { exists (MkKvp i v). split; [by eapply set_entry_lookup|done]. }
  assert (Hu : forall j, keyed t' j i -> j = Z.to_nat (masked index t)).
  { intros j (e2 & He2 & Hk2). destruct (decide (j = Z.to_nat (masked index t))) as [|Hne]; [done|].
    unfold t' in He2. rewrite set_entry_other in He2 by done. destruct (Ha j). by exists e2. }
  split; [|done]. split; [intros j j' Hj Hj'; by rewrite (Hu j Hj), (Hu j' Hj')|]. intros j Hj. rewrite (Hu j Hj). exists off.
  split; [apply Hat|]. split; [by rewrite (at_pos_index _ _ _ _ Hat)|]. intros o Ho. destruct (Hf o Ho) as (e2 & He2 & Hk2).
  change (pos t' i o) with (pos t i o). destruct (decide (pos t i o = Z.to_nat (masked index t))) as [E|Hne].
  - rewrite E. exists (MkKvp i v). split; [by eapply set_entry_lookup|]. unfold valid, invalid_thread_id2, invalid_thread_id in *. cbn. lia.
  - exists e2. unfold t'. by rewrite set_entry_other.
Qed.

(** The keys stay as they are. *)
Lemma value_own t i index e v : own t i -> entry index t = Some e -> own (set_entry index (set_value v e) t) i.
Proof.
  intros [Hu Hp] He. set (t' := set_entry index (set_value v e) t).
  assert (Hl : forall j e', entries t' !! j = Some e' -> exists e0, entries t !! j = Some e0 /\ key e0 = key e').
  { intros j e' He'. apply list_lookup_insert_Some in He' as [(<- & <- & _)|[_ He']]; [by exists e|by exists e']. }
  assert (Hr : forall j e0, entries t !! j = Some e0 -> exists e', entries t' !! j = Some e' /\ key e' = key e0).
  { intros j e0 He0. destruct (decide (j = Z.to_nat (masked index t))) as [->|Hne].
    - exists (set_value v e). split; [by eapply set_entry_lookup|]. unfold entry in He. by simplify_eq.
    - exists e0. unfold t'. by rewrite set_entry_other. }
  assert (Hk : forall j, keyed t' j i -> keyed t j i) by (intros j (e' & He' & <-); destruct (Hl j e' He') as (e0 & He0 & E); by exists e0).
  split; [intros j j' Hj Hj'; by apply Hu; apply Hk|]. intros j Hj. destruct (Hp j (Hk j Hj)) as (off & H0 & E & Hf).
  exists off. split; [done|]. split; [done|]. intros o Ho. destruct (Hf o Ho) as (e0 & He0 & Hn). destruct (Hr _ _ He0) as (e' & He' & E').
  exists e'. split; [done|congruence].
Qed.

(** The only slot with the id loses it. *)
Lemma remove_absent t i index e e' : own t i -> entry index t = Some e -> key e = i -> key e' <> i -> absent (set_entry index e' t) i.
Proof.
  intros [Hu _] He Hk Hk' j (e2 & He2 & Hk2). destruct (decide (j = Z.to_nat (masked index t))) as [->|Hne].
  - rewrite (set_entry_lookup _ _ _ _ He) in He2. congruence.
  - rewrite set_entry_other in He2 by done. apply Hne. apply Hu; [by exists e2|by exists e].
Qed.
End Table.

(** ** One thread *)

Section Thread.
Implicit Types (T : list ImplicitProducerHash) (t : ImplicitProducerHash) (i : Z) (j k h : nat) (x : Client) (s : Hashes).

Definition tbl T h : option ImplicitProducerHash := match h with O => None | S k => T !! k end.

Definition present T i : Prop := exists k t j, T !! k = Some t /\ keyed t j i.
(** It is in no table that is newer than [h]. *)
Definition gone_from T i h : Prop := forall k t, (h <= k)%nat -> T !! k = Some t -> absent t i.
Definition gone T i : Prop := gone_from T i 0.

Definition settled T x : Prop := listeners x = [] /\ gone T (id x) \/ exists p, listeners x = [p] /\ present T (id x).

Definition probing T i h (index : Z) (P : ImplicitProducerHash -> Z -> Prop) : Prop :=
  exists t off, tbl T h = Some t /\ at_pos t i index off /\ P t off.
Definition placed T i h (index : Z) : Prop := exists t, tbl T h = Some t /\ keyed t (Z.to_nat (masked index t)) i.
Definition unlisted T x : Prop := listeners x = [] /\ gone T (id x).

Definition pc_ok T x : Prop :=
  let i := id x in
  match pc x with
  | HIdle | HLoad => settled T x
  | HProbe m h index => settled T x /\ gone_from T i h /\ is_Some (tbl T m) /\ (h <= m)%nat /\ probing T i h index (fun t off => scanned t i off)
  | HMoveEmpty m index v => listeners x = [v] /\ present T i /\ probing T i m index (fun t off => absent t i /\ filled t i off)
  | HMoveReusable m index v => listeners x = [v] /\ present T i /\ probing T i m index (fun t off => absent t i /\ filled t i (off + 1))
  | HMoveValue m index v => listeners x = [v] /\ placed T i m index
  | HCount m | HSubscribe m _ => unlisted T x /\ is_Some (tbl T m)
  | HGrow m n | HAlloc m n | HPublished m n | HAdd m n => unlisted T x /\ is_Some (tbl T m) /\ 0 <= n
  | HReload n => unlisted T x /\ 0 <= n
  | HUncount | HUnlock | HGiveBack => unlisted T x
  | HReusable m index p | HEmpty m index p => listeners x = [p] /\ gone T i /\ probing T i m index (fun t off => filled t i off)
  | HReused m index p | HValue m index p => listeners x = [p] /\ placed T i m index
  | XLoad => exists p, listeners x = [p]
  | XProbe h index => (exists p, listeners x = [p]) /\ gone_from T i h /\ probing T i h index (fun t off => scanned t i off)
  | XInactive => (exists p, listeners x = [p]) /\ gone T i
  end.

(** The slot whose value the thread has still to write. *)
Definition writing (p : HPc) h t j : Prop :=
  match p with
  | HMoveValue m index _ | HReused m index _ | HValue m index _ => m = h /\ j = Z.to_nat (masked index t)
  | _ => False
  end.

Definition vals T x : Prop := forall k t j e, T !! k = Some t -> entries t !! j = Some e -> key e = id x ->
  listeners x = [value e] \/ writing (pc x) (S k) t j.

Record client_inv T x : Prop := {
  ci_valid : valid (id x);
  ci_own k t : T !! k = Some t -> own t (id x);
  ci_vals : vals T x;
  ci_pc : pc_ok T x;
  ci_got r : r ∈ got x -> r <> 0 -> listeners x = [r]
}.

Record tabs_ok s : Prop := {
  to_well k t : tables s !! k = Some t -> well t /\ prev t = k;
  to_main : implicitProducerHash s = length (tables s);
  to_some : (1 <= length (tables s))%nat
}.

(** *** The others *)

Definition frames i T T' : Prop :=
  (forall k t, T !! k = Some t -> exists t', T' !! k = Some t' /\ frame i t t') /\
  (forall k t', T' !! k = Some t' -> T !! k = None -> absent t' i).

Lemma frames_refl i T : frames i T T.
Proof. split; [intros k t Hk; exists t; split; [done|apply frame_refl]|congruence]. Qed.

Lemma frames_old i T T' k t' : frames i T T' -> T' !! k = Some t' -> absent t' i \/ exists t, T !! k = Some t /\ frame i t t'.
Proof.
  intros [Hf Hn] Hk. destruct (T !! k) as [t|] eqn:E; [|left; by eapply Hn]. right. exists t. split; [done|].
  destruct (Hf k t E) as (t2 & Ht2 & H). by simplify_eq.
Qed.

Lemma frames_tbl i T T' h t : frames i T T' -> tbl T h = Some t -> exists t', tbl T' h = Some t' /\ frame i t t'.
Proof. intros [Hf _] Hh. destruct h as [|k]; [done|]. by apply Hf. Qed.

Lemma frames_gone i T T' h : frames i T T' -> gone_from T i h -> gone_from T' i h.
Proof.
  intros Hf Hg k t' Hk Ht'. destruct (frames_old _ _ _ _ _ Hf Ht') as [|(t & Ht & Hft)]; [done|].
  eapply frame_absent; [done|]. by apply (Hg k).
Qed.
Lemma frames_present i T T' : frames i T T' -> present T i -> present T' i.
Proof.
  intros [Hf _] (k & t & j & Hk & Hj). destruct (Hf k t Hk) as (t' & Ht' & Hft). exists k, t', j. split; [done|].
  by apply (frame_keyed i t t').
Qed.
Lemma frames_some i T T' h : frames i T T' -> is_Some (tbl T h) -> is_Some (tbl T' h).
Proof. intros Hf [t Ht]. destruct (frames_tbl _ _ _ _ _ Hf Ht) as (t' & Ht' & _). by exists t'. Qed.
Lemma frames_placed i T T' h index : frames i T T' -> placed T i h index -> placed T' i h index.
Proof.
  intros Hf (t & Ht & Hk). destruct (frames_tbl _ _ _ _ _ Hf Ht) as (t' & Ht' & Hft). exists t'. split; [done|].
  rewrite (frame_masked _ _ _ _ Hft). by apply (frame_keyed i t t').
Qed.
Lemma frames_probing i T T' h index (P : ImplicitProducerHash -> Z -> Prop) : frames i T T' ->
  (forall t t' off, frame i t t' -> P t off -> P t' off) -> probing T i h index P -> probing T' i h index P.
Proof.
  intros Hf HP (t & off & Ht & Ha & H). destruct (frames_tbl _ _ _ _ _ Hf Ht) as (t' & Ht' & Hft). exists t', off.
  split; [done|]. split; [by eapply frame_at_pos|by eapply HP].
Qed.
Lemma frames_settled T T' x : frames (id x) T T' -> settled T x -> settled T' x.
Proof. intros Hf [[Hl Hg]|(p & Hl & Hp)]; [left; split; [done|by eapply frames_gone]|right; exists p; split; [done|by eapply frames_present]]. Qed.

Lemma frames_pc T T' x : frames (id x) T T' -> valid (id x) -> pc_ok T x -> pc_ok T' x.
Proof.
  intros Hf Hv H. unfold pc_ok in *. unfold unlisted, gone in *.
  destruct (pc x); try done; repeat match goal with H : _ /\ _ |- _ => destruct H end; split_and?;
    first [done|by eapply frames_settled|by eapply frames_gone|by eapply frames_some|by eapply frames_present|by eapply frames_placed
      |eapply frames_probing; [done| |done]; intros t t' off Hft Hx;
       first [by eapply frame_scanned|by eapply frame_filled|destruct Hx; split; [by eapply frame_absent|by eapply frame_filled]]].
Qed.

Lemma client_frame T T' x : frames (id x) T T' -> client_inv T x -> client_inv T' x.
Proof.
  intros Hf [Hv Ho Hvals Hpc Hg]. split; [done| | |by eapply frames_pc|done].
  - intros k t' Ht'. destruct (frames_old _ _ _ _ _ Hf Ht') as [|(t & Ht & Hft)]; [by apply absent_own|].
    eapply frame_own; [done..|]. by eapply Ho.
  - intros k t' j e Ht' He Hk. destruct (frames_old _ _ _ _ _ Hf Ht') as [Ha|(t & Ht & Hft)].
    + destruct (Ha j). by exists e.
    + pose proof (frame_entry _ _ _ _ _ Hft He Hk) as He0. destruct (Hvals k t j e Ht He0 Hk) as [|Hw]; [by left|right].
      unfold writing in *. destruct (pc x); rewrite ?(frame_masked _ _ _ _ Hft); done.
Qed.

(** *** A step *)

(** What a step does: the invariants hold on, and it does not concern other ids. *)
Record steps_ok x s x' s' : Prop := {
  so_tabs : tabs_ok s';
  so_client : client_inv (tables s') x';
  so_id : id x' = id x;
  so_frames i : valid i -> i <> id x -> frames i (tables s) (tables s')
}.

Definition idle_write p : Prop := forall h t j, ~ writing p h t j.

(** The tables stay as they are. *)
Lemma step_look x s x' s' : tabs_ok s -> client_inv (tables s) x -> tables s' = tables s -> implicitProducerHash s' = implicitProducerHash s ->
  id x' = id x -> listeners x' = listeners x -> (forall h t j, writing (pc x) h t j -> writing (pc x') h t j) ->
  pc_ok (tables s) x' -> (forall r, r ∈ got x' -> r ∈ got x \/ r = 0 \/ listeners x = [r]) -> steps_ok x s x' s'.
Proof.
  intros [Hw Hm Hs] [Hv Ho Hvals Hpc Hg] Et Em Ei El Hwr Hpc' Hgot. split; [by split; rewrite ?Et, ?Em| |done|].
  - rewrite Et. split; rewrite ?Ei; [done|done| |done|].
    + intros k t j e Hk Hj Hkey. rewrite Ei in Hkey. rewrite El. destruct (Hvals k t j e Hk Hj Hkey); [by left|right; by apply Hwr].
    + intros r Hr H0. rewrite El. destruct (Hgot r Hr) as [|[|]]; [by apply Hg|done|done].
  - intros i _ _. rewrite Et. apply frames_refl.
Qed.

(** One slot of one table is written. *)
Lemma frames_write i T k t t' : T !! k = Some t -> frame i t t' -> frames i T (<[k:=t']> T).
Proof.
  intros Hk Hf. apply lookup_lt_Some in Hk as Hl. split.
  - intros k2 t2 Hk2. destruct (decide (k = k2)) as [<-|Hne].
    + exists t'. simplify_eq. by rewrite list_lookup_insert_eq.
    + exists t2. rewrite list_lookup_insert_ne by done. split; [done|apply frame_refl].
  - intros k2 t2 Hk2 Hn. apply list_lookup_insert_Some in Hk2 as [(<- & _)|[_ Hk2]]; congruence.
Qed.

Lemma tabs_write s k t t' : tabs_ok s -> tables s !! k = Some t -> well t' -> prev t' = prev t ->
  tabs_ok (set_tables (<[k:=t']> (tables s)) s).
Proof.
  intros [Hw Hm Hs] Hk Hw' Hp. split; cbn; rewrite ?length_insert; try done. intros k2 t2 Hk2.
  apply list_lookup_insert_Some in Hk2 as [(<- & <- & _)|[_ Hk2]]; [|by apply Hw]. split; [done|]. rewrite Hp. by apply Hw.
Qed.

Lemma cas_key_run h index a b s t e : tbl (tables s) h = Some t -> entry index t = Some e ->
  cas_key h index a b s = Some (key e, if decide (key e = a) then set_tables (<[pred h:=set_entry index (MkKvp b (value e)) t]> (tables s)) s else s).
Proof.
  intros Ht He. unfold cas_key, write_entry, table_at. destruct h as [|k]; [done|]. cbn in Ht |- *. rewrite Ht. cbn. rewrite He. cbn.
  by case_decide.
Qed.
Lemma write_entry_run h index f s t e : tbl (tables s) h = Some t -> entry index t = Some e ->
  write_entry h index f s = Some (set_tables (<[pred h:=set_entry index (f e) t]> (tables s)) s).
Proof. intros Ht He. unfold write_entry, table_at. destruct h as [|k]; [done|]. cbn in Ht |- *. rewrite Ht. cbn. by rewrite He. Qed.

Lemma table_at_tbl s h t : tbl (tables s) h = Some t -> table_at h s = Some t.
Proof. by destruct h. Qed.
Lemma tbl_pred T h t : tbl T h = Some t -> h = S (pred h) /\ T !! pred h = Some t.
Proof. by destruct h. Qed.

(** The thread puts its id into a slot. *)
Lemma step_insert x s x' s' h t index off e : tabs_ok s -> client_inv (tables s) x ->
  tbl (tables s) h = Some t -> at_pos t (id x) index off -> filled t (id x) off -> absent t (id x) -> entry index t = Some e ->
  key e = invalid_thread_id \/ key e = invalid_thread_id2 -> idle_write (pc x) ->
  s' = set_tables (<[pred h:=set_entry index (MkKvp (id x) (value e)) t]> (tables s)) s ->
  id x' = id x -> listeners x' = listeners x -> got x' = got x ->
  (forall t, writing (pc x') h t (Z.to_nat (masked index t))) ->
  (placed (tables s') (id x) h index -> pc_ok (tables s') x') -> steps_ok x s x' s'.
Proof.
  intros Hok [Hv Ho Hvals Hpc Hg] Hh Hat Hf Ha He Hk Hid -> Ei El Eg Hwr Hpc'. destruct (tbl_pred _ _ _ Hh) as [Eh Hk'].
  destruct (insert_own t (id x) index off e (value e) Hv Ha Hat Hf He) as [Hown Hkeyed].
  set (t' := set_entry index (MkKvp (id x) (value e)) t) in *. destruct (to_well s Hok _ _ Hk') as [Hw Hp].
  assert (Hl : <[pred h:=t']> (tables s) !! pred h = Some t') by (apply list_lookup_insert_eq; by eapply lookup_lt_Some).
  split; [|split; cbn; rewrite ?Ei, ?El, ?Eg; [done| | | |done]|done|].
  - apply tabs_write with (t := t); [done|done|by apply set_entry_well|done].
  - intros k t2 Hk2. apply list_lookup_insert_Some in Hk2 as [(<- & <- & _)|[_ Hk2]]; [done|by eapply Ho].
  - intros k t2 j e2 Hk2 Hj Hkey. rewrite Ei in Hkey. apply list_lookup_insert_Some in Hk2 as [(<- & <- & _)|[_ Hk2]].
    + right. rewrite <- Eh. replace j with (Z.to_nat (masked index t')); [by apply Hwr|]. change (masked index t') with (masked index t).
      apply (proj1 Hown); [done|by exists e2].
    + rewrite El. destruct (Hvals k t2 j e2 Hk2 Hj Hkey) as [|Hw2]; [by left|by destruct (Hid _ _ _ Hw2)].
  - apply Hpc'. exists t'. split; [by rewrite Eh|done].
  - intros i Hi Hne. apply (frames_write _ _ _ t); [done|]. unfold valid, invalid_thread_id2, invalid_thread_id in *.
    apply (set_entry_frame _ _ _ e); [done|destruct Hk as [-> | ->]; lia|cbn; congruence|intros _; cbn; unfold invalid_thread_id; lia].
Qed.

(** It writes the value. *)
Lemma step_value x s x' s' h index v : tabs_ok s -> client_inv (tables s) x -> listeners x = [v] ->
  placed (tables s) (id x) h index -> (forall h' t j, writing (pc x) h' t j -> h = h' /\ j = Z.to_nat (masked index t)) ->
  write_entry h index (set_value v) s = Some s' -> x' = return_ v x -> steps_ok x s x' s'.
Proof.
  intros Hok [Hv Ho Hvals Hpc Hg] Hl (t & Hh & e & He & Hk) Hwr Hs ->. destruct (tbl_pred _ _ _ Hh) as [Eh Hk'].
  assert (He' : entry index t = Some e) by done. rewrite (write_entry_run _ _ _ _ _ _ Hh He') in Hs. injection Hs as <-.
  set (t' := set_entry index (set_value v e) t). destruct (to_well s Hok _ _ Hk') as [Hw Hp].
  assert (Hlk : <[pred h:=t']> (tables s) !! pred h = Some t') by (apply list_lookup_insert_eq; by eapply lookup_lt_Some).
  assert (Hown : own t' (id x)) by (apply value_own; [by eapply Ho|done]).
  assert (Hkeyed : keyed t' (Z.to_nat (masked index t)) (id x)) by (exists (set_value v e); split; [by eapply set_entry_lookup|done]).
  split; [|split; cbn; [done| | | |]|done|].
  - apply tabs_write with (t := t); [done|done|by apply set_entry_well|done].
  - intros k t2 Hk2. apply list_lookup_insert_Some in Hk2 as [(<- & <- & _)|[_ Hk2]]; [done|by eapply Ho].
  - intros k t2 j e2 Hk2 Hj Hkey. cbn in *. left. rewrite Hl. apply list_lookup_insert_Some in Hk2 as [(<- & <- & _)|[Hne Hk2]].
    + assert (j = Z.to_nat (masked index t)) as -> by (apply (proj1 Hown); [by exists e2|done]).
      unfold t' in Hj. rewrite (set_entry_lookup _ _ _ _ He') in Hj. by injection Hj as <-.
    + destruct (Hvals k t2 j e2 Hk2 Hj Hkey) as [E|Hw2]; [by rewrite <- E|]. destruct (Hwr _ _ _ Hw2) as [-> _]. done.
  - right. exists v. split; [done|]. by exists (pred h), t', (Z.to_nat (masked index t)).
  - intros r Hr H0. apply elem_of_app in Hr as [Hr|Hr]; [by apply Hg|]. apply list_elem_of_singleton in Hr as ->. done.
  - intros i Hi Hne. apply (frames_write _ _ _ t); [done|]. apply (set_entry_frame _ _ _ e); [done|congruence|cbn; congruence|done].
Qed.

(** At its exit, it takes the id out of a slot. *)
Lemma step_remove x s x' s' h t index e : tabs_ok s -> client_inv (tables s) x ->
  tbl (tables s) h = Some t -> entry index t = Some e -> key e = id x -> idle_write (pc x) ->
  s' = set_tables (<[pred h:=set_entry index (MkKvp invalid_thread_id2 (value e)) t]> (tables s)) s ->
  id x' = id x -> listeners x' = listeners x -> got x' = got x ->
  (absent (set_entry index (MkKvp invalid_thread_id2 (value e)) t) (id x) -> pc_ok (tables s') x') -> steps_ok x s x' s'.
Proof.
  intros Hok [Hv Ho Hvals Hpc Hg] Hh He Hk Hid -> Ei El Eg Hpc'. destruct (tbl_pred _ _ _ Hh) as [Eh Hk'].
  set (t' := set_entry index (MkKvp invalid_thread_id2 (value e)) t) in *. destruct (to_well s Hok _ _ Hk') as [Hw Hp].
  assert (Ha : absent t' (id x)).
  { apply (remove_absent _ _ _ e); [by eapply Ho|done|done|]. unfold valid, invalid_thread_id2 in *. cbn. lia. }
  split; [|split; cbn; rewrite ?Ei, ?El, ?Eg; [done| | |by apply Hpc'|done]|done|].
  - apply tabs_write with (t := t); [done|done|by apply set_entry_well|done].
  - intros k t2 Hk2. apply list_lookup_insert_Some in Hk2 as [(<- & <- & _)|[_ Hk2]]; [by apply absent_own|by eapply Ho].
  - intros k t2 j e2 Hk2 Hj Hkey. rewrite Ei in Hkey. apply list_lookup_insert_Some in Hk2 as [(<- & <- & _)|[_ Hk2]].
    + destruct (Ha j). by exists e2.
    + rewrite El. destruct (Hvals k t2 j e2 Hk2 Hj Hkey) as [|Hw2]; [by left|by destruct (Hid _ _ _ Hw2)].
  - intros i Hi Hne. apply (frames_write _ _ _ t); [done|]. unfold valid, invalid_thread_id2, invalid_thread_id in *.
    by apply (set_entry_frame _ _ _ e); [done|congruence|cbn; lia|].
Qed.

(** *** Each step *)

Lemma tbl_well s h t : tabs_ok s -> tbl (tables s) h = Some t -> well t /\ S (prev t) = h.
Proof. intros Hok Hh. destruct (tbl_pred _ _ _ Hh) as [-> Hk]. destruct (to_well s Hok _ _ Hk) as [Hw ->]. done. Qed.

Lemma main_some s : tabs_ok s -> is_Some (tbl (tables s) (implicitProducerHash s)).
Proof.
  intros [_ Hm H1]. rewrite Hm. destruct (length (tables s)) as [|n] eqn:E; [lia|]. cbn. apply lookup_lt_is_Some_2. lia.
Qed.

Lemma gone_beyond T i : gone_from T i (length T).
Proof. intros k t Hk Ht. apply lookup_lt_Some in Ht. lia. Qed.

Lemma settled_unlisted T x : settled T x -> gone T (id x) -> unlisted T x.
Proof. intros [H|(p & Hl & k & t & j & Hk & Hj)] Hg; [done|]. exfalso. by apply (Hg k t (Nat.le_0_l k) Hk j). Qed.

Lemma probing_start s i h (P : ImplicitProducerHash -> Z -> Prop) : tabs_ok s -> is_Some (tbl (tables s) h) -> (forall t, tbl (tables s) h = Some t -> P t 0) ->
  probing (tables s) i h (hash_thread_id i) P.
Proof.
  intros Hok [t Ht] HP. exists t, 0. split; [done|]. split; [|by apply HP]. apply at_pos_start. by eapply tbl_well.
Qed.

Lemma none_before t i : scanned t i 0 /\ filled t i 0.
Proof. split; intros o Ho; lia. Qed.

Lemma tbl_some s h : tabs_ok s -> h <> 0%nat -> (h <= length (tables s))%nat -> is_Some (tbl (tables s) h).
Proof. intros _ H0 Hl. destruct h as [|k]; [done|]. apply lookup_lt_is_Some_2. lia. Qed.
Lemma some_tbl T h : is_Some (tbl T h) -> h <> 0%nat /\ (h <= length T)%nat.
Proof. intros [t Ht]. destruct h as [|k]; [done|]. apply lookup_lt_Some in Ht. lia. Qed.

Lemma look_in_ok s m h x : tabs_ok s -> settled (tables s) x -> gone_from (tables s) (id x) h -> is_Some (tbl (tables s) m) -> (h <= m)%nat ->
  pc_ok (tables s) (look_in m h x).
Proof.
  intros Hok Hs Hg Hm Hle. unfold look_in. destruct h as [|k].
  - split; [by apply settled_unlisted|done].
  - split; [done|]. split; [done|]. split; [done|]. split; [done|]. apply probing_start; [done| |intros; apply none_before].
    destruct (some_tbl _ _ Hm). apply tbl_some; [done|done|lia].
Qed.

Lemma remove_from_ok s h x : tabs_ok s -> (exists p, listeners x = [p]) -> gone_from (tables s) (id x) h -> (h <= length (tables s))%nat ->
  pc_ok (tables s) (remove_from h x).
Proof.
  intros Hok Hl Hg Hle. unfold remove_from. destruct h as [|k]; [by split|].
  split; [done|]. split; [done|]. apply probing_start; [done| |intros; apply none_before]. by apply tbl_some.
Qed.

(** Past the tables from [h] on, and the one before. *)
Lemma gone_more T i h t : T !! h = Some t -> absent t i -> gone_from T i (S h) -> gone_from T i h.
Proof.
  intros Ht Ha Hg k t' Hk Ht'. destruct (decide (k = h)) as [->|]; [by simplify_eq|]. apply (Hg k); [lia|done].
Qed.

Lemma probe_step x s m h index a x' s' : tabs_ok s -> client_inv (tables s) x -> pc x = HProbe m h index ->
  hash_step a x s = Some (x', s') -> steps_ok x s x' s'.
Proof.
  intros Hok Hx Epc E. pose proof (ci_pc _ _ Hx) as Hpc. unfold pc_ok in Hpc. unfold hash_step in E. rewrite Epc in Hpc, E.
  destruct Hpc as (Hs & Hg & Hm & Hle & t & off & Hh & Hat & Hsc). destruct a as [| |mal pr]; try done.
  destruct (tbl_well _ _ _ Hok Hh) as [Hw Hp]. destruct (entry_some t index Hw) as [e He].
  destruct (tbl_pred _ _ _ Hh) as [Eh Hk]. set (k := pred h) in *.
  rewrite (table_at_tbl _ _ _ Hh) in E. cbn in E. rewrite He in E. cbn in E. unfold entry in He. rewrite (at_pos_index _ _ _ _ Hat) in He.
  assert (Hidle : forall h t j, writing (pc x) h t j -> False) by by rewrite Epc.
  assert (Hkx : key e = id x -> listeners x = [value e]).
  { intros Hkey. destruct (ci_vals _ _ Hx k t _ e Hk He Hkey) as [|Hw2]; [done|]. by apply Hidle in Hw2. }
  assert (Hpr : key e = id x -> present (tables s) (id x)) by (intros Hkey; exists k, t, (pos t (id x) off); split; [done|by exists e]).
  destruct (Z.eqb_spec (key e) (id x)) as [Hkey|Hkey].
  - specialize (Hkx Hkey). specialize (Hpr Hkey). destruct (Nat.eqb_spec h m) as [->|Hne]; injection E as <- <-.
    + apply step_look; try done. intros r [Hr|Hr]%elem_of_app; [by left|]. apply list_elem_of_singleton in Hr as ->. by right; right.
    + apply step_look; try done; [|by left]. cbn. split; [done|]. split; [done|].
      apply probing_start; [done|done|]. intros t' Ht'. split; [|apply none_before]. destruct (tbl_pred _ _ _ Ht') as [Em Ht2].
      apply (Hg (pred m)); [lia|done].
  - destruct (Z.eqb_spec (key e) invalid_thread_id) as [Hz|Hz]; injection E as <- <-.
    + assert (Ha : absent t (id x)).
      { apply (scan_absent t (id x) off e); try done; [by eapply ci_own|apply Hx|apply Hat]. }
      assert (Hep : prev t = k) by lia. apply step_look; try done; try (unfold look_in; by destruct (prev t));
        [|unfold look_in; destruct (prev t); by left].
      apply look_in_ok; try done; [|lia]. rewrite Hep. apply (gone_more _ _ k t); [done|done|by rewrite <- Eh].
    + apply step_look; try done; [|by left]. cbn. split; [done|]. split; [done|]. split; [done|]. split; [done|].
      exists t, (off + 1). split; [done|]. split; [by apply at_pos_next|by eapply scanned_next].
Qed.

(** Of the moving steps, and of those that insert. *)
Ltac own_step E Epc Hpc := unfold hash_step in E; rewrite Epc in E; unfold pc_ok in Hpc; rewrite Epc in Hpc.

Lemma entry_pos t i index off : at_pos t i index off -> entry index t = entries t !! pos t i off.
Proof. intros H. unfold entry. by rewrite (at_pos_index _ _ _ _ H). Qed.

Lemma filled_less t i off : filled t i (off + 1) -> filled t i off.
Proof. intros H o Ho. apply H. lia. Qed.

Lemma move_step x s m index v a x' s' : tabs_ok s -> client_inv (tables s) x -> pc x = HMoveEmpty m index v \/ pc x = HMoveReusable m index v ->
  hash_step a x s = Some (x', s') -> steps_ok x s x' s'.
Proof.
  intros Hok Hx Epc E. pose proof (ci_pc _ _ Hx) as Hpc.
  assert (Hidle : idle_write (pc x)) by (intros ??? Hwr; destruct Epc as [Epc|Epc]; by rewrite Epc in Hwr).
  destruct Epc as [Epc|Epc]; own_step E Epc Hpc; destruct Hpc as (Hl & Hp & t & off & Hh & Hat & Ha & Hf); destruct a as [| |mal pr]; try done;
    destruct (tbl_well _ _ _ Hok Hh) as [Hw _]; destruct (entry_some t index Hw) as [e He]; pose proof He as He';
    rewrite (entry_pos _ _ _ _ Hat) in He';
    rewrite (table_at_tbl _ _ _ Hh) in E; cbn in E; rewrite (cas_key_run _ _ _ _ _ _ _ Hh He) in E; cbn in E; case_decide as Hk; injection E as <- <-.
  1, 3: eapply (step_insert x s _ _ m t index off e); try done; try tauto; rewrite ?Hk; try done; by first [split|apply filled_less].
  - rewrite (proj2 (Z.eqb_neq _ _) Hk). apply step_look; try done; [|by left]. split; [done|]. split; [done|]. exists t, off.
    split_and!; try done. by eapply filled_next.
  - rewrite (proj2 (Z.eqb_neq _ _) Hk). apply step_look; try done; [|by left]. split; [done|]. split; [done|]. exists t, (off + 1).
    split_and!; try done. by apply at_pos_next.
Qed.

Lemma insert_step x s m index p a x' s' : tabs_ok s -> client_inv (tables s) x -> pc x = HReusable m index p \/ pc x = HEmpty m index p ->
  hash_step a x s = Some (x', s') -> steps_ok x s x' s'.
Proof.
  intros Hok Hx Epc E. pose proof (ci_pc _ _ Hx) as Hpc.
  assert (Hidle : idle_write (pc x)) by (intros ??? Hwr; destruct Epc as [Epc|Epc]; by rewrite Epc in Hwr).
  destruct Epc as [Epc|Epc]; own_step E Epc Hpc; destruct Hpc as (Hl & Hg & t & off & Hh & Hat & Hf); destruct a as [| |mal pr]; try done;
    destruct (tbl_well _ _ _ Hok Hh) as [Hw _]; destruct (entry_some t index Hw) as [e He]; pose proof He as He';
    rewrite (entry_pos _ _ _ _ Hat) in He'; destruct (tbl_pred _ _ _ Hh) as [Eh Hk0]; pose proof (Hg _ _ (Nat.le_0_l _) Hk0) as Ha;
    rewrite ?(table_at_tbl _ _ _ Hh) in E; cbn in E; rewrite (cas_key_run _ _ _ _ _ _ _ Hh He) in E; cbn in E; case_decide as Hk; injection E as <- <-.
  1, 3: eapply (step_insert x s _ _ m t index off e); try done; try tauto; rewrite ?Hk; try done; by split.
  - rewrite (proj2 (Z.eqb_neq _ _) Hk). apply step_look; try done; [|by left]. split; [done|]. split; [done|]. by exists t, off.
  - rewrite (proj2 (Z.eqb_neq _ _) Hk). apply step_look; try done; [|by left]. split; [done|]. split; [done|]. exists t, (off + 1).
    split_and!; try done; [by apply at_pos_next|by eapply filled_next].
Qed.

Lemma value_step x s m index v a x' s' : tabs_ok s -> client_inv (tables s) x -> pc x = HMoveValue m index v \/ pc x = HValue m index v ->
  hash_step a x s = Some (x', s') -> steps_ok x s x' s'.
Proof.
  intros Hok Hx Epc E. pose proof (ci_pc _ _ Hx) as Hpc.
  assert (Hwr : forall h' t j, writing (pc x) h' t j -> m = h' /\ j = Z.to_nat (masked index t)).
  { intros h' t j H. destruct Epc as [Epc|Epc]; by rewrite Epc in H. }
  assert (listeners x = [v] /\ placed (tables s) (id x) m index) as [Hl Hp].
  { unfold pc_ok in Hpc. by destruct Epc as [Epc|Epc]; rewrite Epc in Hpc. }
  destruct (write_entry m index (set_value v) s) as [s1|] eqn:Ew; [|by unfold hash_step in E; destruct Epc as [Epc|Epc]; rewrite Epc in E; destruct a; rewrite ?Ew in E].
  assert (x' = return_ v x /\ s' = s1) as [-> ->].
  { unfold hash_step in E. destruct Epc as [Epc|Epc]; rewrite Epc in E; destruct a; try done; rewrite Ew in E; cbn in E; by injection E as <- <-. }
  by eapply step_value.
Qed.

(** *** Growing *)

Lemma doubled_eq b : 0 <= b < 63 -> u64 (Z.shiftl (2 ^ b) 1) = 2 ^ (b + 1).
Proof.
  intros Hb. rewrite Z.shiftl_mul_pow2, <- Z.pow_add_r by lia. apply u64_id. split; [by apply Z.pow_nonneg|]. apply Z.pow_lt_mono_r; lia.
Qed.

Lemma doubled c : power c -> u64 (Z.shiftl c 1) = 0 \/ power (u64 (Z.shiftl c 1)).
Proof.
  intros (b & Hb & ->). destruct (decide (b = 63)) as [->|Hne]; [by left|right]. rewrite doubled_eq by lia. exists (b + 1). split; [lia|done].
Qed.

Lemma grown_pow fuel n c c' : 0 <= n -> c = 0 \/ power c -> grown fuel n c = Some c' -> power c'.
Proof.
  revert c. induction fuel as [|fuel IH]; intros c Hn Hc E; cbn in E; destruct (Z.ltb_spec n (Z.shiftr c 1)) as [Hlt|Hge]; try done.
  1, 2: injection E as <-; destruct Hc as [->|]; [change (Z.shiftr 0 1) with 0 in Hlt; lia|done].
  apply (IH _ Hn) in E; [done|]. destruct Hc as [->|Hc]; [by left|by apply doubled].
Qed.

#[local] Arguments grown : simpl never.

Lemma new_hash_well c h b : 0 <= b <= 63 -> c = 2 ^ b -> well (new_hash c h).
Proof. intros Hb ->. split; [by exists b|]. cbn. by rewrite length_replicate. Qed.
Lemma new_hash_absent c h i : valid i -> absent (new_hash c h) i.
Proof. intros Hi j (e & He & Hk). cbn in He. apply lookup_replicate in He as [-> _]. unfold valid, invalid_thread_id2 in Hi. cbn in Hk. unfold invalid_thread_id in Hk. lia. Qed.

Lemma frames_new i T t : valid i -> (exists c h, t = new_hash c h) -> frames i T (T ++ [t]).
Proof.
  intros Hi (c & h & ->). split.
  - intros k t Hk. exists t. split; [by apply lookup_app_l_Some|apply frame_refl].
  - intros k t Hk Hn. apply lookup_app_Some in Hk as [Hk|[_ Hk]]; [congruence|]. apply list_lookup_singleton_Some in Hk as [_ <-].
    by apply new_hash_absent.
Qed.

Lemma u64_pos n : 0 <= u64 n.
Proof. unfold u64, wrap. apply Z.mod_pos_bound. lia. Qed.

(** The new table is the current one. *)
Lemma publish_step x s m n c x' s' : tabs_ok s -> client_inv (tables s) x -> pc x = HAlloc m n -> m = implicitProducerHash s -> 0 <= n ->
  unlisted (tables s) x -> power c ->
  x' = goto (HPublished (S (length (tables s))) n) x ->
  s' = set_main (S (length (tables s))) (set_tables (tables s ++ [new_hash c m]) s) -> steps_ok x s x' s'.
Proof.
  intros Hok Hx Epc -> Hn [Hl Hg] (b & Hb & Hc) -> ->. destruct Hok as [Hw Hm Hs].
  assert (Hf : frames (id x) (tables s) (tables s ++ [new_hash c (implicitProducerHash s)])) by (apply frames_new; [apply Hx|by do 2 eexists]).
  pose proof (client_frame _ _ _ Hf Hx) as [Hv Ho Hvals Hpc Hgot]. split; [| |done|].
  - split; cbn; rewrite ?length_app; cbn; [|lia..]. intros k t Hk. apply lookup_app_Some in Hk as [Hk|[Hle Hk]]; [by apply Hw|].
    apply list_lookup_singleton_Some in Hk as [Hk <-]. split; [by eapply new_hash_well|]. cbn. lia.
  - split; cbn; [done|done| | |done].
    + intros k t j e Hk Hj Hkey. destruct (Hvals k t j e Hk Hj Hkey) as [|Hwr]; [by left|]. by rewrite Epc in Hwr.
    + split; [split; [done|by eapply frames_gone]|]. split; [|done]. rewrite lookup_app_r, Nat.sub_diag by lia. by eexists.
  - intros i Hi _. cbn. apply frames_new; [done|by do 2 eexists].
Qed.

(** Nothing is written. *)
Ltac look Epc := apply step_look; try done; try (intros ??? Hwr; by rewrite Epc in Hwr);
  try (intros ??; by left); try (cbn; by eauto).

Definition growing p : Prop :=
  match p with HCount _ | HGrow _ _ | HReload _ | HAlloc _ _ | HUncount | HUnlock | HPublished _ _ | HAdd _ _ | HGiveBack => True | _ => False end.

Lemma grow_step x s a x' s' : tabs_ok s -> client_inv (tables s) x -> growing (pc x) ->
  (forall m n, pc x = HAlloc m n -> m = implicitProducerHash s) -> hash_step a x s = Some (x', s') -> steps_ok x s x' s'.
Proof.
  intros Hok Hx Hgr Hm E. pose proof (ci_pc _ _ Hx) as Hpc. pose proof (main_some s Hok) as Hmain. unfold hash_step in E. unfold pc_ok in Hpc.
  destruct (pc x) eqn:Epc; try done; destruct a as [| |mal pr]; try done; cbn in E.
  - injection E as <- <-. look Epc. split; [apply Hpc|]. split; [apply Hpc|apply u64_pos].
  - destruct Hpc as (Hu & [t Ht] & Hn). rewrite (table_at_tbl _ _ _ Ht) in E. cbn in E.
    destruct (Z.shiftr (capacity t) 1 <=? newCount); [destruct (implicitProducerHashResizeInProgress s)|]; injection E as <- <-;
      look Epc.
  - destruct Hmain as [t Ht]. rewrite (table_at_tbl _ _ _ Ht) in E. cbn in E. destruct Hpc as [Hu Hn].
    injection E as <- <-. destruct (_ <=? _); look Epc.
  - destruct Hpc as (Hu & [t Ht] & Hn). rewrite (table_at_tbl _ _ _ Ht) in E. cbn in E.
    destruct (grown 64 newCount (u64 (Z.shiftl (capacity t) 1))) as [c|] eqn:Ec; cbn in E; [|done].
    destruct (tbl_well _ _ _ Hok Ht) as [Hw _]. apply grown_pow in Ec; [|done|by apply doubled; apply Hw].
    destruct mal; injection E as <- <-; [eapply (publish_step _ _ _ newCount c); try done; by eapply Hm|]. look Epc.
  - injection E as <- <-. look Epc.
  - injection E as <- <-. look Epc; [by left|]. intros r [Hr|Hr]%elem_of_app; [by left|].
    apply list_elem_of_singleton in Hr as ->. by right; left.
  - injection E as <- <-. look Epc.
  - destruct Hpc as (Hu & [t Ht] & Hn). rewrite (table_at_tbl _ _ _ Ht) in E. cbn in E. destruct (newCount <? _).
    + destruct pr as [p|]; injection E as <- <-; look Epc.
    + injection E as <- <-. look Epc.
  - injection E as <- <-. look Epc; [by left|]. intros r [Hr|Hr]%elem_of_app; [by left|].
    apply list_elem_of_singleton in Hr as ->. by right; left.
Qed.

(** *** Beginning, subscribing, exiting *)

Lemma one_listener T x p : client_inv T x -> listeners x = [p] -> forall r, r ∈ got x -> r <> 0 -> r = p.
Proof. intros Hx Hl r Hr H0. pose proof (ci_got _ _ Hx r Hr H0) as E. congruence. Qed.

Lemma idle_step x s a x' s' : tabs_ok s -> client_inv (tables s) x -> pc x = HIdle \/ pc x = HLoad ->
  hash_step a x s = Some (x', s') -> steps_ok x s x' s'.
Proof.
  intros Hok Hx Epc E. pose proof (ci_pc _ _ Hx) as Hpc. pose proof (main_some s Hok) as Hmain. unfold hash_step in E. unfold pc_ok in Hpc.
  destruct Epc as [Epc|Epc]; rewrite Epc in E, Hpc; destruct a as [| |mal pr]; try done; injection E as <- <-.
  - look Epc.
  - unfold run_callbacks. destruct Hpc as [[Hl Hg]|(p & Hl & Hp)]; rewrite Hl; look Epc; first [by cbn; rewrite Hl|by left|by exists p|set_solver].
  - unfold look_in. rewrite (to_main s Hok) in *. destruct (length (tables s)) eqn:El; [by pose proof (to_some s Hok); lia|]. look Epc.
    split; [done|]. split; [rewrite <- El; apply gone_beyond|]. split; [done|]. split; [done|]. apply probing_start; [done|done|].
    intros. apply none_before.
Qed.

Lemma subscribe_step x s m p a x' s' : tabs_ok s -> client_inv (tables s) x -> pc x = HSubscribe m p ->
  hash_step a x s = Some (x', s') -> steps_ok x s x' s'.
Proof.
  intros Hok [Hv Ho Hvals Hpc Hg] Epc E. own_step E Epc Hpc. destruct Hpc as ([Hl Hgone] & Hm). destruct a as [| |mal pr]; try done.
  unfold subscribe in E. rewrite Hl in E. injection E as <- <-. split; [done| |done|intros; apply frames_refl]. split; cbn; try done.
  - intros k t j e Hk Hj Hkey. destruct (Hgone k t (Nat.le_0_l _) Hk j). by exists e.
  - split; [done|]. split; [done|]. apply probing_start; [done|done|]. intros. apply none_before.
  - intros r Hr H0. pose proof (Hg r Hr H0). congruence.
Qed.

Lemma reused_step x s m index p a x' s' : tabs_ok s -> client_inv (tables s) x -> pc x = HReused m index p ->
  hash_step a x s = Some (x', s') -> steps_ok x s x' s'.
Proof.
  intros Hok Hx Epc E. pose proof (ci_pc _ _ Hx) as Hpc. own_step E Epc Hpc. destruct a as [| |mal pr]; try done. injection E as <- <-.
  apply step_look; try done; [|by left]. intros h t j Hwr. by rewrite Epc in Hwr.
Qed.

Lemma remove_step x s h index a x' s' : tabs_ok s -> client_inv (tables s) x -> pc x = XProbe h index ->
  hash_step a x s = Some (x', s') -> steps_ok x s x' s'.
Proof.
  intros Hok Hx Epc E. pose proof (ci_pc _ _ Hx) as Hpc. own_step E Epc Hpc. destruct Hpc as (Hl & Hg & t & off & Hh & Hat & Hsc).
  destruct a as [| |mal pr]; try done. destruct (tbl_well _ _ _ Hok Hh) as [Hw Hp]. destruct (entry_some t index Hw) as [e He].
  pose proof He as He'. rewrite (entry_pos _ _ _ _ Hat) in He'. destruct (tbl_pred _ _ _ Hh) as [Eh Hk]. set (k := pred h) in *.
  assert (Hkl : (k <= length (tables s))%nat) by (apply lookup_lt_Some in Hk; lia). assert (Hep : prev t = k) by lia.
  rewrite (table_at_tbl _ _ _ Hh) in E. cbn in E. rewrite (cas_key_run _ _ _ _ _ _ _ Hh He) in E. cbn in E.
  case_decide as Hkey; injection E as <- <-.
  - rewrite Hkey, Z.eqb_refl. cbn. eapply (step_remove x s _ _ h t index e); try done; try (unfold remove_from; by destruct (prev t)).
    { intros ??? Hwr. by rewrite Epc in Hwr. }
    fold k. set (t' := set_entry index _ t). intros Ha. apply (remove_from_ok (set_tables (<[k:=t']> (tables s)) s)); try done.
    + apply tabs_write with (t := t); [done|done|by apply set_entry_well|done].
    + cbn. rewrite Hep. apply (gone_more _ _ k t'); [apply list_lookup_insert_eq; by eapply lookup_lt_Some|done|].
      intros k2 t2 Hk2 Ht2. rewrite list_lookup_insert_ne in Ht2 by lia. apply (Hg k2); [lia|done].
    + cbn. rewrite length_insert. lia.
  - rewrite (proj2 (Z.eqb_neq _ _) Hkey). cbn [orb]. destruct (Z.eqb_spec (key e) invalid_thread_id) as [Hz|Hz].
    + assert (Ha : absent t (id x)).
      { apply (scan_absent t (id x) off e); try done; [by eapply ci_own|apply Hx|apply Hat]. }
      look Epc; try (unfold remove_from; by destruct (prev t)); [|unfold remove_from; destruct (prev t); by left].
      apply remove_from_ok; try done; [|lia]. rewrite Hep. apply (gone_more _ _ k t); [done|done|by rewrite <- Eh].
    + look Epc. split; [done|]. split; [done|]. exists t, (off + 1). split; [done|]. split; [by apply at_pos_next|by eapply scanned_next].
Qed.

Lemma exit_step x s a x' s' : tabs_ok s -> client_inv (tables s) x -> pc x = XLoad \/ pc x = XInactive ->
  hash_step a x s = Some (x', s') -> steps_ok x s x' s'.
Proof.
  intros Hok Hx Epc E. pose proof (ci_pc _ _ Hx) as Hpc. unfold hash_step in E. unfold pc_ok in Hpc.
  destruct Epc as [Epc|Epc]; rewrite Epc in E, Hpc; destruct a as [| |mal pr]; try done.
  - injection E as <- <-. rewrite (to_main s Hok). unfold remove_from. destruct (length (tables s)) eqn:El; [by pose proof (to_some s Hok); lia|].
    look Epc. split; [done|]. split; [rewrite <- El; apply gone_beyond|]. apply probing_start; [done| |intros; apply none_before].
    pose proof (main_some s Hok) as Hm. by rewrite (to_main s Hok), El in Hm.
  - destruct Hpc as [[p Hl] Hg]. rewrite Hl in E. injection E as <- <-. destruct Hx as [Hv Ho Hvals _ Hgot].
    split; [by destruct Hok| |done|intros; apply frames_refl]. split; cbn; try done.
    + intros k t j e Hk Hj Hkey. destruct (Hg k t (Nat.le_0_l _) Hk j). by exists e.
    + by left.
    + set_solver.
Qed.

(** All steps. *)
Lemma client_steps x s a x' s' : tabs_ok s -> client_inv (tables s) x -> (forall m n, pc x = HAlloc m n -> m = implicitProducerHash s) ->
  hash_step a x s = Some (x', s') -> steps_ok x s x' s'.
Proof.
  intros Hok Hx Hm E. destruct (pc x) eqn:Epc;
    first [eapply idle_step; eauto; fail|eapply probe_step; eauto; fail|eapply move_step; eauto; fail|eapply value_step; eauto; fail
      |eapply insert_step; eauto; fail|eapply subscribe_step; eauto; fail|eapply reused_step; eauto; fail|eapply remove_step; eauto; fail
      |eapply exit_step; eauto; fail|eapply grow_step; eauto; by rewrite Epc].
Qed.
End Thread.

#[local] Arguments grown : simpl never.

(** ** All threads *)

Definition resizing (x : Client) : nat :=
  match pc x with HReload _ | HAlloc _ _ | HUncount | HUnlock | HPublished _ _ => 1 | _ => 0 end.

(** The producers that a thread has. *)
Definition holds (x : Client) : list Z := match pc x with HSubscribe _ p => p :: listeners x | _ => listeners x end.

Record sys_inv (y : Clients) : Prop := {
  si_tabs : tabs_ok (hashes y);
  si_client t x : clients y !! t = Some x -> client_inv (tables (hashes y)) x;
  si_ids t t' x x' : clients y !! t = Some x -> clients y !! t' = Some x' -> id x = id x' -> t = t';
  si_lock : sum_list_with resizing (clients y) = if implicitProducerHashResizeInProgress (hashes y) then 1%nat else 0%nat;
  si_alloc t x m n : clients y !! t = Some x -> pc x = HAlloc m n -> m = implicitProducerHash (hashes y);
  si_held : NoDup (held holds (clients y));
  si_use p : p ∈ in_use (hashes y) <-> p ∈ held holds (clients y);
  si_zero : 0 ∉ held holds (clients y)
}.

Section System.
Implicit Types (x : Client) (s : Hashes) (l : list Client) (p : Z).

(** Writing to a table changes nothing else. *)
Definition keeps s s' : Prop := implicitProducerHashResizeInProgress s' = implicitProducerHashResizeInProgress s /\
  implicitProducerHash s' = implicitProducerHash s /\ in_use s' = in_use s.

Lemma write_keeps h index f s s' : write_entry h index f s = Some s' -> keeps s s'.
Proof. unfold write_entry. intros E. destruct (table_at h s) as [t|]; [|done]. cbn in E. destruct (entry index t); [|done]. by injection E as <-. Qed.
Lemma cas_keeps h index a b s k s' : cas_key h index a b s = Some (k, s') -> keeps s s'.
Proof.
  unfold cas_key. intros E. destruct (table_at h s) as [t|]; [|done]. cbn in E. destruct (entry index t); [|done]. cbn in E.
  case_decide; [|by injection E as _ <-]. destruct (write_entry h index (set_key b) s) as [s1|] eqn:Ew; [|done]. injection E as _ <-. by eapply write_keeps.
Qed.

(** The branches of a step. *)
Ltac each_step x a E :=
  unfold hash_step in E; unfold resizing, holds in *; destruct (pc x) eqn:Epc, a; try done; simplify_option_eq;
  repeat (match goal with H : cas_key _ _ _ _ _ = Some ?q |- _ => destruct q as [? ?]; apply cas_keeps in H as (? & ? & ?)
    | H : write_entry _ _ _ _ = Some _ |- _ => apply write_keeps in H as (? & ? & ?) end; simplify_option_eq);
  unfold look_in, remove_from, run_callbacks in *; repeat case_match; simplify_eq/=.

(** What a step does to the lock and to the pointer. *)
Lemma step_lock a x s x' s' : hash_step a x s = Some (x', s') ->
  implicitProducerHashResizeInProgress s' = implicitProducerHashResizeInProgress s /\ resizing x' = resizing x \/
  implicitProducerHashResizeInProgress s = false /\ implicitProducerHashResizeInProgress s' = true /\ resizing x = 0%nat /\ resizing x' = 1%nat \/
  implicitProducerHashResizeInProgress s' = false /\ resizing x = 1%nat /\ resizing x' = 0%nat.
Proof.
  intros E. each_step x a E.
  all: first [by left|by right; left|by right; right].
Qed.

Lemma step_main a x s x' s' : hash_step a x s = Some (x', s') ->
  (implicitProducerHash s' = implicitProducerHash s \/ resizing x = 1%nat) /\ (forall m n, pc x' = HAlloc m n -> m = implicitProducerHash s').
Proof.
  intros E. each_step x a E.
  all: (split; [first [by left|by right]|]); try done; by intros m' n' [= <- <-].
Qed.

Lemma step_holds a x s x' s' : hash_step a x s = Some (x', s') ->
  holds x' = holds x /\ in_use s' = in_use s \/
  (exists m p, a = HGo m (Some p) /\ holds x' = p :: holds x /\ in_use s' = {[p]} ∪ in_use s) \/
  (exists p, holds x = p :: holds x' /\ in_use s' = in_use s ∖ {[p]}).
Proof.
  intros E. each_step x a E.
  all: eauto 10.
Qed.

(** The producers that threads have, after a step of one. *)
Lemma held_step a s l t x x' s' : NoDup (held holds l) -> (forall p, p ∈ in_use s <-> p ∈ held holds l) -> 0 ∉ held holds l ->
  l !! t = Some x -> hash_ask_ok a s -> hash_step a x s = Some (x', s') ->
  NoDup (held holds (<[t:=x']> l)) /\ (forall p, p ∈ in_use s' <-> p ∈ held holds (<[t:=x']> l)) /\ 0 ∉ held holds (<[t:=x']> l).
Proof.
  intros Hn Hu H0 Ht Ha E. pose proof (held_insert holds l t x x' Ht) as Hp.
  destruct (step_holds _ _ _ _ _ E) as [[Eh Eu]|[(m & p & -> & Eh & Eu)|(p & Eh & Eu)]]; rewrite Eh in Hp.
  - apply Permutation_app_inv_r in Hp. rewrite Eu. by setoid_rewrite Hp.
  - assert (Hp2 : held holds (<[t:=x']> l) ≡ₚ p :: held holds l).
    { apply (Permutation_app_inv_r (holds x)). rewrite Hp. simpl. by rewrite Permutation_middle. }
    destruct Ha as [Hp0 Hpu]. rewrite Hu in Hpu. split; [rewrite Hp2; by constructor|]. split; [|rewrite Hp2; set_solver].
    intros q. rewrite Eu, Hp2, elem_of_union, elem_of_singleton, Hu. set_solver.
  - assert (Hp2 : p :: held holds (<[t:=x']> l) ≡ₚ held holds l).
    { apply (Permutation_app_inv_r (holds x')). rewrite <- Hp. simpl. by rewrite Permutation_middle. }
    assert (Hnd : NoDup (p :: held holds (<[t:=x']> l))) by by rewrite Hp2. apply NoDup_cons in Hnd as [Hpn Hnd].
    split; [done|]. split; [|intros Hin; apply H0; rewrite <- Hp2; set_solver]. intros q.
    rewrite Eu, elem_of_difference, elem_of_singleton, Hu, <- Hp2. set_solver.
Qed.

Lemma lock_exclusive l t u x z : t <> u -> l !! t = Some x -> l !! u = Some z -> (resizing x + resizing z <= sum_list_with resizing l)%nat.
Proof.
  intros Hne Hx Hz. pose proof (sum_list_with_insert resizing l t x (goto HIdle x) Hx) as Hs.
  pose proof (sum_list_with_lookup resizing (<[t:=goto HIdle x]> l) u z) as Hl. rewrite list_lookup_insert_ne in Hl by done.
  specialize (Hl Hz). cbn in Hs. lia.
Qed.

Lemma sys_step y y' : sys_inv y -> clients_step y y' -> sys_inv y'.
Proof.
  intros Hi Hst. revert Hi. destruct Hst as [t a x x' s s' l Hx Ha E]. intros [Ht Hc Hid Hlock Hal Hheld Huse Hz]. cbn in *.
  destruct (client_steps x s a x' s' Ht (Hc t x Hx) (fun m n => Hal t x m n Hx) E) as [Ht' Hc' Hid' Hf].
  destruct (held_step a s l t x x' s' Hheld Huse Hz Hx Ha E) as (Hn2 & Hu2 & Hz2).
  assert (Hother : forall u z, t <> u -> l !! u = Some z -> valid (id z) /\ id z <> id x).
  { intros u z Hne Hu. split; [apply (Hc u z Hu)|]. intros Heq. apply Hne. by eapply Hid. }
  pose proof (sum_list_with_insert resizing l t x x' Hx) as Hsum. destruct (step_main _ _ _ _ _ E) as [Hmain Halloc].
  pose proof (sum_list_with_lookup resizing l t x Hx) as Hle. split; cbn; try done.
  - intros u z Hu. apply list_lookup_insert_Some in Hu as [(<- & <- & _)|[Hne Hu]]; [done|].
    destruct (Hother u z Hne Hu). apply (client_frame (tables s)); [by apply Hf|by eapply Hc].
  - intros u u' z z' Hu Hu' Heq. apply list_lookup_insert_Some in Hu as [(<- & <- & _)|[Hne Hu]];
      apply list_lookup_insert_Some in Hu' as [(<- & <- & _)|[Hne' Hu']]; [done|..].
    + destruct (Hother u' z' Hne' Hu'). congruence.
    + destruct (Hother u z Hne Hu). congruence.
    + by eapply Hid.
  - destruct (step_lock _ _ _ _ _ E) as [[Ef Er]|[(Ef & Ef' & Er & Er')|(Ef' & Er & Er')]].
    + rewrite Ef. destruct (implicitProducerHashResizeInProgress s); lia.
    + rewrite Ef in Hlock. rewrite Ef'. lia.
    + rewrite Ef'. destruct (implicitProducerHashResizeInProgress s); lia.
  - intros u z m n Hu Hp. apply list_lookup_insert_Some in Hu as [(<- & <- & _)|[Hne Hu]]; [by eapply Halloc|].
    rewrite (Hal u z m n Hu Hp). destruct Hmain as [|Hr]; [done|]. exfalso.
    assert (Hru : resizing z = 1%nat) by (unfold resizing; by rewrite Hp).
    pose proof (lock_exclusive l t u x z Hne Hx Hu). destruct (implicitProducerHashResizeInProgress s); lia.
Qed.

(** *** No step goes wrong *)

Lemma grown_enough fuel n b : 0 <= b <= 63 -> 64 - b <= Z.of_nat fuel -> n < 2 ^ 62 -> is_Some (grown fuel n (2 ^ b)).
Proof.
  revert b. induction fuel as [|fuel IH]; intros b Hb Hf Hn; [lia|]. unfold grown; fold grown. destruct (Z.ltb_spec n (Z.shiftr (2 ^ b) 1)) as [|Hge]; [done|].
  assert (Hb2 : b <= 62).
  { destruct (decide (b = 63)) as [->|]; [|lia]. change (Z.shiftr (2 ^ 63) 1) with (2 ^ 62) in Hge. lia. }
  rewrite doubled_eq by lia. apply IH; lia.
Qed.

Lemma write_runs h index f s : tabs_ok s -> is_Some (tbl (tables s) h) -> is_Some (write_entry h index f s).
Proof.
  intros Hok [t Ht]. destruct (tbl_well _ _ _ Hok Ht) as [Hw _]. destruct (entry_some t index Hw) as [e He].
  rewrite (write_entry_run _ _ _ _ _ _ Ht He). by eexists.
Qed.
Lemma probing_some T i h index P : probing T i h index P -> is_Some (tbl T h).
Proof. intros (t & off & Ht & _). by exists t. Qed.
Lemma placed_some T i h index : placed T i h index -> is_Some (tbl T h).
Proof. intros (t & Ht & _). by exists t. Qed.

(** The table that a thread looks at is there. *)
Definition table_of (p : HPc) : option nat :=
  match p with
  | HProbe _ h _ | HMoveEmpty h _ _ | HMoveReusable h _ _ | HMoveValue h _ _ | HGrow h _ | HAlloc h _ | HAdd h _
  | HReusable h _ _ | HEmpty h _ _ | HValue h _ _ | XProbe h _ => Some h
  | _ => None
  end.

Lemma table_there T x h : pc_ok T x -> table_of (pc x) = Some h -> is_Some (tbl T h).
Proof.
  unfold pc_ok. intros Hpc Eh. destruct (pc x); try done; injection Eh as <-;
    repeat match goal with H : _ /\ _ |- _ => destruct H end; first [done|by eapply probing_some|by eapply placed_some].
Qed.

(** A thread in a call has a next step. *)
Lemma client_moves_on x s mal pr : tabs_ok s -> client_inv (tables s) x -> pc x <> HIdle ->
  (forall m n, pc x = HAlloc m n -> n < 2 ^ 62 /\ forall t, t ∈ tables s -> capacity t < 2 ^ 63) -> is_Some (hash_step (HGo mal pr) x s).
Proof.
  intros Hok Hx H0 Hal. pose proof (ci_pc _ _ Hx) as Hpc. pose proof (main_some s Hok) as [t0 Hmain].
  assert (Hth : forall h, table_of (pc x) = Some h -> exists t, tbl (tables s) h = Some t) by (intros h Hh; by apply (table_there _ x)).
  unfold hash_step. destruct (pc x) eqn:Epc; try done; cbn [table_of] in Hth;
    try (destruct (Hth _ eq_refl) as [t Ht]; destruct (tbl_well _ _ _ Hok Ht) as [Hw _]; rewrite ?(table_at_tbl _ _ _ Ht); cbn);
    rewrite ?(table_at_tbl _ _ _ Hmain); cbn; try (by eexists); try (by repeat case_match; eexists);
    try (destruct (entry_some t index Hw) as [e He]; rewrite ?(cas_key_run _ _ _ _ _ _ _ Ht He), ?(write_entry_run _ _ _ _ _ _ Ht He), ?He; by eexists).
  - destruct (Hal _ _ eq_refl) as [Hn Hc]. assert (Hin : t ∈ tables s) by (destruct (tbl_pred _ _ _ Ht) as [_ Hk]; by eapply list_elem_of_lookup_2).
    specialize (Hc t Hin). destruct (proj1 Hw) as (b & Hb & E). rewrite E in *. assert (Hb2 : b < 63) by (apply (Z.pow_lt_mono_r_iff 2); lia).
    rewrite doubled_eq by lia. destruct (grown_enough 64 newCount (b + 1)) as [c ->]; [lia|lia|done|]. cbn. by case_match; eexists.
  - unfold pc_ok in Hpc. rewrite Epc in Hpc. destruct Hpc as [[p Hl] _]. rewrite Hl. by eexists.
Qed.

Lemma sys_initial `{traits : Traits} y : power INITIAL_IMPLICIT_PRODUCER_HASH_SIZE -> clients_initial y -> sys_inv y.
Proof.
  intros Hp (ids & -> & Hn & Hv). assert (Hh : held holds (map (fun i => MkClient i HIdle [] []) ids) = []) by (clear; induction ids; done).
  assert (Hl : forall t x, map (fun i => MkClient i HIdle [] []) ids !! t = Some x -> exists i, ids !! t = Some i /\ x = MkClient i HIdle [] []).
  { intros t x Ht. apply list_lookup_fmap_Some in Ht as (i & -> & Hi). by exists i. }
  assert (Hg : forall i, valid i -> gone [new_hash INITIAL_IMPLICIT_PRODUCER_HASH_SIZE 0] i).
  { intros i Hi k t _ Hk. apply list_lookup_singleton_Some in Hk as [_ <-]. by apply new_hash_absent. }
  split; cbn [hashes clients]; rewrite ?Hh; try done.
  - split; [|done..]. intros k t Hk. apply list_lookup_singleton_Some in Hk as [-> <-]. destruct Hp as (b & Hb & E).
    split; [by eapply new_hash_well|done].
  - intros t x Ht. destruct (Hl t x Ht) as (i & Hi & ->). assert (Hvi : valid i) by (rewrite Forall_lookup in Hv; by eapply Hv).
    split; cbn; [done| | | |set_solver].
    + intros k t2 Hk. apply absent_own. by apply (Hg i Hvi k t2 (Nat.le_0_l _)).
    + intros k t2 j e Hk Hj Hkey. destruct (Hg i Hvi k t2 (Nat.le_0_l _) Hk j). by exists e.
    + left. split; [done|]. by apply Hg.
  - intros t t' x x' Ht Ht' Heq. destruct (Hl t x Ht) as (i & Hi & ->). destruct (Hl t' x' Ht') as (i' & Hi' & ->). cbn in Heq. subst.
    by eapply NoDup_lookup.
  - clear. induction ids; done.
  - intros t x m n Ht. destruct (Hl t x Ht) as (i & _ & ->). done.
  - constructor.
  - set_solver.
  - set_solver.
Qed.
End System.

Lemma sys_reach `{traits : Traits} y : power INITIAL_IMPLICIT_PRODUCER_HASH_SIZE -> reachable clients_initial clients_step y -> sys_inv y.
Proof. intros Hp. apply (reachable_inv _ _ sys_inv); [intros s; by apply sys_initial|intros s s' Hi; by apply sys_step]. Qed.

(** C17: in every interleaving of threads that call
    [get_or_add_implicit_producer], exit, and begin again with the same id: all
    calls of a thread give the same producer (or null, when memory ran out),
    which no other thread has; a thread between calls is in a table, with its
    producer, exactly if it has one; the producers in use are those that threads
    have, so each is free again after the exit of its thread.  A thread that
    waits at no allocation of unbounded size always has a next step: no null or
    dangling table is followed, and no index is out of bounds. *)
Theorem thread_keeps_producer `{traits : Traits} y (Hsize : power INITIAL_IMPLICIT_PRODUCER_HASH_SIZE)
    (Hreach : reachable clients_initial clients_step y) :
  (forall t x r r', clients y !! t = Some x -> r ∈ got x -> r' ∈ got x -> r <> 0 -> r' <> 0 -> r = r' /\ r ∈ holds x) /\
  (forall t t' x x' p, clients y !! t = Some x -> clients y !! t' = Some x' -> p ∈ holds x -> p ∈ holds x' -> t = t') /\
  (forall p, p ∈ in_use (hashes y) <-> exists t x, clients y !! t = Some x /\ p ∈ holds x) /\
  (forall t x, clients y !! t = Some x -> pc x = HIdle ->
     (forall h e, h ∈ tables (hashes y) -> e ∈ entries h -> key e = id x -> listeners x = [value e]) /\
     (listeners x <> [] -> exists h e, h ∈ tables (hashes y) /\ e ∈ entries h /\ key e = id x)) /\
  (forall t x mal pr, clients y !! t = Some x -> pc x <> HIdle ->
     (forall m n, pc x = HAlloc m n -> n < 2 ^ 62 /\ forall h, h ∈ tables (hashes y) -> capacity h < 2 ^ 63) ->
     is_Some (hash_step (HGo mal pr) x (hashes y))).
Proof.
  pose proof (sys_reach y Hsize Hreach) as [Ht Hc Hid Hlock Hal Hheld Huse Hz]. split; [|split; [|split; [|split]]].
  - intros t x r r' Hx Hr Hr' H0 H0'. pose proof (ci_got _ _ (Hc t x Hx)) as Hg. pose proof (Hg r Hr H0) as E. pose proof (Hg r' Hr' H0') as E'.
    split; [congruence|]. unfold holds. rewrite E. destruct (pc x); set_solver.
  - intros t t' x x' p Hx Hx' Hp Hp'. by eapply owner_unique.
  - intros p. rewrite Huse. split; [apply held_of|]. intros (t & x & Hx & Hp). by eapply held_in.
  - intros t x Hx Hpc. pose proof (Hc t x Hx) as [Hv Ho Hvals Hok Hg]. unfold pc_ok in Hok. rewrite Hpc in Hok. split.
    + intros h e [k Hk]%list_elem_of_lookup_1 [j Hj]%list_elem_of_lookup_1 Hkey. destruct (Hvals k h j e Hk Hj Hkey) as [|Hw]; [done|]. by rewrite Hpc in Hw.
    + intros Hl. destruct Hok as [[Hl' _]|(p & _ & k & h & j & Hk & e & He & Hkey)]; [done|]. exists h, e.
      split; [by eapply list_elem_of_lookup_2|]. split; [by eapply list_elem_of_lookup_2|done].
  - intros t x mal pr Hx H0 Hb. by eapply client_moves_on; [|apply (Hc t x Hx)|..].
Qed.

(** *** An example

    A table of two slots.  A thread gets producer 100, in a new table of four,
    and gets it again; a second thread, which still has the first table, gets
    200 and a third table; the first thread exits, and a new one with its id
    gets 100. *)
#[local] Instance small_traits : Traits := {|
  traits_BLOCK_SIZE := 32; traits_EXPLICIT_BLOCK_EMPTY_COUNTER_THRESHOLD := 32; traits_EXPLICIT_INITIAL_INDEX_SIZE := 32;
  traits_IMPLICIT_INITIAL_INDEX_SIZE := 32; traits_INITIAL_IMPLICIT_PRODUCER_HASH_SIZE := 2;
  traits_EXPLICIT_CONSUMER_CONSUMPTION_QUOTA_BEFORE_ROTATE := 256; traits_MAX_SUBQUEUE_SIZE := 0;
  MAX_SEMA_SPINS := 10000; RECYCLE_ALLOCATED_BLOCKS := false |}.

Definition ask_okb (a : HashAsk) (s : Hashes) : bool :=
  match a with HGo _ (Some p) => negb (p =? 0) && negb (bool_decide (p ∈ in_use s)) | _ => true end.

Definition run_clients (l : list (nat * HashAsk)) (y : Clients) : option Clients :=
  foldl (fun y x => y ← y; c ← clients y !! x.1;
    if ask_okb x.2 (hashes y) then '(c, s) ← hash_step x.2 c (hashes y); Some (MkClients s (<[x.1:=c]> (clients y))) else None) (Some y) l.

Lemma run_clients_reach l y y' : run_clients l y = Some y' -> rtc clients_step y y'.
Proof.
  intros E. unfold run_clients in E. revert y E. induction l as [|x l IH]; intros y E; [injection E as ->; apply rtc_refl|].
  assert (HN : forall g, foldl (fun (y : option Clients) x => y ← y; g y x) None l = Some y' -> False) by (clear; intros g E; induction l; done).
  cbn in E. destruct (clients y !! x.1) as [c|] eqn:Hc; cbn in E; [|by apply HN in E].
  destruct (ask_okb x.2 (hashes y)) eqn:Ha; [|by apply HN in E].
  destruct (hash_step x.2 c (hashes y)) as [[c' s]|] eqn:Es; cbn in E; [|by apply HN in E].
  eapply rtc_l; [|by apply IH]. destruct y as [s0 cs]. apply (client_moves x.1 x.2 c c' s0 s cs Hc); [|done].
  destruct x.2 as [| |mal [p|]]; try done. cbn in Ha. apply andb_true_iff in Ha as [Hp Hu]. apply negb_true_iff in Hp, Hu.
  apply Z.eqb_neq in Hp. apply bool_decide_eq_false in Hu. done.
Qed.

Definition go (t n : nat) : list (nat * HashAsk) := replicate n (t, HGo true None).
Definition example_asks : list (nat * HashAsk) :=
  [(1, Call); (1, HGo true None); (0, Call)]%nat ++ go 0 7 ++ [(0%nat, HGo true (Some 100))] ++ go 0 4 ++ [(0%nat, Call)] ++ go 0 2 ++
  go 1 6 ++ [(1%nat, HGo true (Some 200))] ++ go 1 4 ++ [(0%nat, Call)] ++ go 0 5 ++
  [(0%nat, Exit)] ++ go 0 5 ++ [(0%nat, Call)] ++ go 0 8 ++ [(0%nat, HGo true (Some 100))] ++ go 0 4.
Definition example_start : Clients := MkClients initial_hashes [MkClient 4096 HIdle [] []; MkClient 8192 HIdle [] []].

Lemma thread_keeps_producer_witness :
  exists y, run_clients example_asks example_start = Some y /\
    clients y = [MkClient 4096 HIdle [100] [100]; MkClient 8192 HIdle [200] [200]] /\
    map (map key) (map entries (tables (hashes y))) = [[0; 0]; [0; 0; 0; 1]; [0; 0; 0; 4096; 0; 8192; 0; 0]] /\
    (forall t x, clients y !! t = Some x -> 100 ∈ holds x -> t = 0%nat).
Proof.
  destruct (run_clients example_asks example_start) as [y|] eqn:E; [|by vm_compute in E]. exists y.
  assert (Hr : reachable clients_initial clients_step y).
  { exists example_start. split; [|by eapply run_clients_reach]. exists [4096; 8192]. split; [done|].
    split; [apply (bool_decide_unpack _); by vm_compute|]. repeat constructor; lia. }
  vm_compute in E. injection E as <-. do 3 (split; [done|]). intros t x Ht Hx.
  refine (proj1 (proj2 (thread_keeps_producer _ _ Hr)) t 0%nat x _ 100 Ht eq_refl Hx _); [|set_solver]. exists 1. split; [lia|done].
Defined.
