(* ===== verification/ImplicitProducer.v ===== *)
(** * The queue of an implicit producer
    ([whisperlib/sync/moody/concurrentqueue.h],
    [ConcurrentQueue::ImplicitProducer])

    One thread enqueues, without a token; any number of threads dequeue, one by
    one or in bulk; every access to memory that another thread may touch is a
    step of its own.  Unlike those of an explicit producer, the blocks belong to
    the pool of the queue: whoever dequeues the last element of a block takes it
    out of the block index and gives it back.  The elements are counted with the
    same four counters, and dequeueing has the same program points.  As there, a
    bad pointer, an element that is not there, a block that is given back twice
    and a failed [assert] have no next state. *)

From S2P Require Import Prelude Posix MoodyDetails MoodyBlock ExplicitProducer.

(** ** State *)

Definition INVALID_BLOCK_BASE : Z := 1.

Record ImplicitEntry := MkIEntry { block_key : Z; block_value : ptr }.

(** [index_slots] are pointers to entries: numbers, in the order in which the
    entries were made. *)
Record ImplicitHeader := MkIHeader { index_capacity : Z; index_tail : Z; index_slots : list nat; index_prev : ptr }.

Definition set_index_tail (i : Z) (h : ImplicitHeader) : ImplicitHeader :=
  MkIHeader (index_capacity h) i (index_slots h) (index_prev h).
Definition set_block_key (k : Z) (e : ImplicitEntry) : ImplicitEntry := MkIEntry k (block_value e).
Definition set_block_value (p : ptr) (e : ImplicitEntry) : ImplicitEntry := MkIEntry (block_key e) p.

Record ImplicitProducer (A : Type) := MkImplicit {
  implicit_base : ProducerBase;
  nextBlockIndexCapacity : Z;
  implicit_index : ptr;
  index_headers : gmap ptr ImplicitHeader;
  index_entries : list ImplicitEntry;
  owned_blocks : gmap ptr (Block A)
}.
Arguments MkImplicit {_} _ _ _ _ _ _.
Arguments implicit_base {_} _.
Arguments nextBlockIndexCapacity {_} _.
Arguments implicit_index {_} _.
Arguments index_headers {_} _.
Arguments index_entries {_} _.
Arguments owned_blocks {_} _.

Section Implicit.
Context {traits : Traits} {A : Type}.
(** What the pointers of uninitialised entries hold. *)
Context (garbage : ptr).
Abbreviation S := (ImplicitProducer A).
Implicit Types s : S.

Definition on_implicit_base (f : ProducerBase -> ProducerBase) s : S :=
  MkImplicit (f (implicit_base s)) (nextBlockIndexCapacity s) (implicit_index s) (index_headers s) (index_entries s) (owned_blocks s).
Definition set_index_headers m s : S :=
  MkImplicit (implicit_base s) (nextBlockIndexCapacity s) (implicit_index s) m (index_entries s) (owned_blocks s).
Definition set_index_entries l s : S :=
  MkImplicit (implicit_base s) (nextBlockIndexCapacity s) (implicit_index s) (index_headers s) l (owned_blocks s).
Definition set_owned m s : S :=
  MkImplicit (implicit_base s) (nextBlockIndexCapacity s) (implicit_index s) (index_headers s) (index_entries s) m.

Definition on_owned (p : ptr) (f : Block A -> Block A) s : option S :=
  b ← owned_blocks s !! p; Some (set_owned (<[p:=f b]> (owned_blocks s)) s).

(** [header->index[slot]], and a change of it. *)
Definition entry_id (h : ptr) (slot : Z) s : option nat := hd ← index_headers s !! h; index_slots hd !! Z.to_nat slot.
Definition entry_at (h : ptr) (slot : Z) s : option ImplicitEntry := i ← entry_id h slot s; index_entries s !! i.
Definition on_index_entry (h : ptr) (slot : Z) (f : ImplicitEntry -> ImplicitEntry) s : option S :=
  i ← entry_id h slot s; e ← index_entries s !! i; Some (set_index_entries (<[i:=f e]> (index_entries s)) s).

(** *** The block index *)

Definition prev_slot (i n : Z) : Z := Z.land (u64 (i - 1)) (u64 (n - 1)).

(** [do { prevPos = ...; index[i++] = prev->index[prevPos]; } while (prevPos != prevTail);] *)
Fixpoint copy_slots (fuel : nat) (n prevTail prevPos : Z) (slots : list nat) : option (list nat) :=
  match fuel with
  | O => None
  | Datatypes.S fuel =>
      let prevPos := next_slot prevPos n in
      i ← slots !! Z.to_nat prevPos;
      if prevPos =? prevTail then Some [i] else l ← copy_slots fuel n prevTail prevPos slots; Some (i :: l)
  end.

Definition implicit_new_block_index (malloc : option ptr) s : option (bool * S) :=
  '(prevCapacity, old) ←
    (if decide (implicit_index s = 0) then Some (0, [])
     else h ← index_headers s !! implicit_index s;
          l ← copy_slots (Z.to_nat (index_capacity h)) (index_capacity h) (index_tail h) (index_tail h) (index_slots h);
          Some (index_capacity h, l));
  let entryCount := if decide (implicit_index s = 0) then nextBlockIndexCapacity s else prevCapacity in
  match malloc with
  | None => Some (false, s)
  | Some raw =>
      let index := old ++ seq (length (index_entries s)) (Z.to_nat entryCount) in
      let tail := Z.land (u64 (prevCapacity - 1)) (u64 (nextBlockIndexCapacity s - 1)) in
      let header := MkIHeader (nextBlockIndexCapacity s) tail index (implicit_index s) in
      Some (true, MkImplicit (implicit_base s) (u64 (Z.shiftl (nextBlockIndexCapacity s) 1)) raw
        (<[raw:=header]> (index_headers s))
        (index_entries s ++ replicate (Z.to_nat entryCount) (MkIEntry INVALID_BLOCK_BASE garbage)) (owned_blocks s))
  end.

(** The constructor goes on without a block index when [malloc] fails. *)
Definition ImplicitProducer_ctor (malloc : option ptr) : option S :=
  snd <$> implicit_new_block_index malloc (MkImplicit (MkBase 0 0 0 0 0) IMPLICIT_INITIAL_INDEX_SIZE 0 ∅ [] ∅).

(** The slot after the tail of the current index. *)
Definition new_tail s : option Z :=
  h ← index_headers s !! implicit_index s; Some (next_slot (index_tail h) (index_capacity h)).

(** [tail.store(f(tail))] on the current index. *)
Definition move_tail (f : Z -> Z -> Z) s : option S :=
  h ← index_headers s !! implicit_index s;
  Some (set_index_headers (<[implicit_index s:=set_index_tail (f (index_tail h) (index_capacity h)) h]> (index_headers s)) s).

(** *** Enqueueing *)

(** The program points of [enqueue], [insert_block_index_entry] and
    [rewind_block_index_tail]. *)
Inductive QPc :=
| QIdle (result : bool)
| QStart (mode : AllocationMode) (x : A)
| QHead (mode : AllocationMode) (x : A) (cur : Z)
| QInsert (mode : AllocationMode) (x : A) (cur : Z)
| QNew (x : A) (cur : Z)
| QKey (x : A) (cur : Z)
| QTailSlot (x : A) (cur : Z)
| QBlock (x : A) (cur : Z)
| QRewind
| QNull (slot : Z)
| QReset (x : A) (cur : Z) (p : ptr)
| QEntry (x : A) (cur : Z) (p : ptr)
| QConstruct (x : A) (cur : Z)
| QTail (x : A) (cur : Z).

Definition implicit_producer_step (c : Choice (A := A)) (pc : QPc) s : option (QPc * S) :=
  match pc with
  | QIdle _ => None
  | QStart mode x =>
      let cur := tailIndex (implicit_base s) in Some (if in_block cur =? 0 then QHead mode x cur else QConstruct x cur, s)
  | QHead mode x cur =>
      let head := headIndex (implicit_base s) in
      if circular_less_than cur head then None
      else Some (if no_leeway cur head then QIdle false else QInsert mode x cur, s)
  | QInsert mode x cur =>
      if decide (implicit_index s = 0) then Some (QIdle false, s)
      else
        slot ← new_tail s; e ← entry_at (implicit_index s) slot s;
        Some (if (block_key e =? INVALID_BLOCK_BASE) || (block_value e =? 0) then QKey x cur
              else match mode with CannotAlloc => QIdle false | CanAlloc => QNew x cur end, s)
  | QNew x cur =>
      '(ok, s) ← implicit_new_block_index (malloc c) s;
      if ok : bool then
        slot ← new_tail s; e ← entry_at (implicit_index s) slot s;
        if block_key e =? INVALID_BLOCK_BASE then Some (QKey x cur, s) else None
      else Some (QIdle false, s)
  | QKey x cur =>
      slot ← new_tail s; s ← on_index_entry (implicit_index s) slot (set_block_key cur) s; Some (QTailSlot x cur, s)
  | QTailSlot x cur => s ← move_tail next_slot s; Some (QBlock x cur, s)
  | QBlock x cur =>
      match requisition_block c with
      | None => Some (QRewind, s)
      | Some (p, b) => Some (QReset x cur p, set_owned (<[p:=b]> (owned_blocks s)) s)
      end
  | QRewind =>
      h ← index_headers s !! implicit_index s; s ← move_tail prev_slot s; Some (QNull (index_tail h), s)
  | QNull slot => s ← on_index_entry (implicit_index s) slot (set_block_value 0) s; Some (QIdle false, s)
  | QReset x cur p => s ← on_owned p (reset_empty implicit_context) s; Some (QEntry x cur p, s)
  | QEntry x cur p =>
      h ← index_headers s !! implicit_index s;
      s ← on_index_entry (implicit_index s) (index_tail h) (set_block_value p) s;
      Some (QConstruct x cur, on_implicit_base (set_tailBlock p) s)
  | QConstruct x cur =>
      let p := tailBlock (implicit_base s) in
      b ← owned_blocks s !! p;
      raw ← element cur b;
      match raw with
      | None => s ← on_owned p (set_element cur (Some x)) s; Some (QTail x cur, s)
      | Some _ => None
      end
  | QTail x cur => Some (QIdle true, on_implicit_base (set_tailIndex (u64 (1 + cur))) s)
  end.

(** *** Dequeueing *)

(** The program points of [dequeue] and [dequeue_bulk]: those of an explicit
    producer, and two more to give a block back. *)
Inductive IPc :=
| IAt (pc : CPc)
| IClear (op : DequeueOp) (first n : Z) (h : ptr) (slot start stop : Z) (b : ptr)
| IFree (op : DequeueOp) (first n : Z) (h : ptr) (slot start stop : Z) (b : ptr).

#[export] Instance IPc_eq : EqDecision IPc.
Proof. solve_decision. Defined.

(** What is claimed, before any element is touched. *)
Definition claim_step (pc : CPc) (b : ProducerBase) : option (CPc * ProducerBase) :=
  match pc with
  | CTail op => Some (COver op (tailIndex b), b)
  | COver op tail => Some (COptimistic op tail (dequeueOvercommit b), b)
  | COptimistic op tail over =>
      let desired := desired_count op tail over (dequeueOptimisticCount b) in
      Some (if desired =? 0 then CIdle else CClaim op over desired, b)
  | CClaim op over desired =>
      let mine := dequeueOptimisticCount b in Some (CRecheck op over desired mine, set_optimistic (u64 (mine + desired)) b)
  | CRecheck op over desired mine =>
      let actual := actual_count op (tailIndex b) over desired mine in
      Some (if actual <? desired then CGiveBack op (desired - actual) actual else CTake op actual, b)
  | CGiveBack op excess n =>
      Some (if n =? 0 then CIdle else CTake op n, set_overcommit (u64 (dequeueOvercommit b + excess)) b)
  | CTake op n => let first := headIndex b in Some (CIndex op first n, set_headIndex (u64 (first + n)) b)
  | _ => None
  end.

(** [get_block_index_index_for_index] after it has loaded the tail, [f]: the
    slot; its [assert]s say that there is a block with this base. *)
Definition slot_for (h : ptr) (index f : Z) s : option Z :=
  hd ← index_headers s !! h;
  tail ← entry_at h f s;
  if block_key tail =? INVALID_BLOCK_BASE then None
  else
    let idx := entry_slot index f (block_key tail) (index_capacity hd) in
    e ← entry_at h idx s;
    if (block_key e =? block_base index) && negb (block_value e =? 0) then Some idx else None.

(** [set_empty] and [set_many_empty], with their [assert]s: whether the block is
    now empty. *)
Definition mark_empty (op : DequeueOp) (start stop : Z) (b : Block A) : option (bool * Block A) :=
  let count := u64 (stop - start) in
  if elementsCompletelyDequeued b + count <=? BLOCK_SIZE then
    Some (match op with
          | Single => set_empty implicit_context start b
          | Bulk _ => set_many_empty implicit_context start count b
          end)
  else None.

(** The next block, if there is more to dequeue. *)
Definition implicit_next (op : DequeueOp) (first n : Z) (h : ptr) (slot stop : Z) s : option IPc :=
  hd ← index_headers s !! h; Some (IAt (next_block op first n h slot stop (index_capacity hd))).

(** A step of a consumer, with the element that it moves out. *)
Definition implicit_consumer_step (pc : IPc) s : option (IPc * S * option (Z * A)) :=
  match pc with
  | IAt (CIndex op first n) => Some (IAt (CFront op first n (implicit_index s)), s, None)
  | IAt (CFront op first n p) => h ← index_headers s !! p; Some (IAt (CBase op first n p (index_tail h)), s, None)
  | IAt (CBase op first n p f) => slot ← slot_for p first f s; Some (IAt (CBlock op first n p slot first), s, None)
  | IAt (CBlock op first n p slot start) =>
      e ← entry_at p slot s; Some (IAt (CMove op first n p slot start start (stop_index op first n start) (block_value e)), s, None)
  | IAt (CMove op first n p slot start index stop bp) =>
      b ← owned_blocks s !! bp;
      el ← element index b;
      v ← el;
      Some (IAt (CDestroy op first n p slot start index stop bp), s, Some (index, v))
  | IAt (CDestroy op first n p slot start index stop bp) =>
      s ← on_owned bp (set_element index None) s;
      let index := u64 (index + 1) in
      Some (IAt (if index =? stop then CFlag op first n p slot start stop bp 0
                 else CMove op first n p slot start index stop bp), s, None)
  | IAt (CFlag op first n p slot start stop bp _) =>
      b ← owned_blocks s !! bp;
      '(empty, b) ← mark_empty op start stop b;
      let s := set_owned (<[bp:=b]> (owned_blocks s)) s in
      if empty : bool then Some (IClear op first n p slot start stop bp, s, None)
      else pc ← implicit_next op first n p slot stop s; Some (pc, s, None)
  | IClear op first n p slot start stop bp =>
      s ← on_index_entry p slot (set_block_value 0) s; Some (IFree op first n p slot start stop bp, s, None)
  | IFree op first n p slot start stop bp =>
      _ ← owned_blocks s !! bp;
      pc ← implicit_next op first n p slot stop s; Some (pc, set_owned (delete bp (owned_blocks s)) s, None)
  | IAt pc => '(pc, b) ← claim_step pc (implicit_base s); Some (IAt pc, on_implicit_base (fun _ => b) s, None)
  end.

(** The block that a step gives back. *)
Definition gives_back (pc : IPc) s : list (ptr * Block A) :=
  match pc with
  | IFree _ _ _ _ _ _ _ p => match owned_blocks s !! p with Some b => [(p, b)] | None => [] end
  | _ => []
  end.

(** ** The system *)

(** A producer and its consumers; [given_back] are the blocks that consumers
    gave back, as they were. *)
Record ImplicitSystem := MkISystem {
  implicit_state : S;
  implicit_producer : QPc;
  implicit_consumers : list IPc;
  implicit_enqueued : list A;
  implicit_taken : list (nat * Z * A);
  implicit_claimed : Z;
  given_back : list (ptr * Block A)
}.

(** Fresh memory for a block index, and a block of the pool: all its elements
    were destroyed. *)
Definition implicit_choice_ok (c : Choice (A := A)) s : Prop :=
  (forall p, malloc c = Some p -> p <> 0 /\ index_headers s !! p = None) /\
  (forall p b, requisition_block c = Some (p, b) -> p <> 0 /\ owned_blocks s !! p = None /\
     elements b = replicate (Z.to_nat BLOCK_SIZE) None).

Definition implicit_idle (pc : QPc) : bool := match pc with QIdle _ => true | _ => false end.
Definition implicit_claims (pc : IPc) : Z := match pc with IAt pc => claims_of pc | _ => 0 end.

Inductive implicit_step : ImplicitSystem -> ImplicitSystem -> Prop :=
| implicit_enqueue y mode x :
    implicit_idle (implicit_producer y) = true ->
    implicit_step y (MkISystem (implicit_state y) (QStart mode x) (implicit_consumers y) (implicit_enqueued y) (implicit_taken y)
      (implicit_claimed y) (given_back y))
| implicit_dequeue y t op :
    implicit_consumers y !! t = Some (IAt CIdle) -> op_ok op = true ->
    implicit_step y (MkISystem (implicit_state y) (implicit_producer y) (<[t:=IAt (CTail op)]> (implicit_consumers y))
      (implicit_enqueued y) (implicit_taken y) (implicit_claimed y) (given_back y))
| implicit_producer_moves y c pc s :
    implicit_choice_ok c (implicit_state y) -> implicit_producer_step c (implicit_producer y) (implicit_state y) = Some (pc, s) ->
    implicit_step y (MkISystem s pc (implicit_consumers y)
      (match implicit_producer y with QTail x _ => implicit_enqueued y ++ [x] | _ => implicit_enqueued y end) (implicit_taken y)
      (implicit_claimed y) (given_back y))
| implicit_consumer_moves y t pc pc' s out :
    implicit_consumers y !! t = Some pc -> implicit_consumer_step pc (implicit_state y) = Some (pc', s, out) ->
    implicit_step y (MkISystem s (implicit_producer y) (<[t:=pc']> (implicit_consumers y)) (implicit_enqueued y)
      (implicit_taken y ++ match out with Some (i, v) => [(t, i, v)] | None => [] end) (implicit_claimed y + implicit_claims pc)
      (given_back y ++ gives_back pc (implicit_state y))).

(** A producer that was just constructed, and any number of idle consumers. *)
Definition implicit_initial (y : ImplicitSystem) : Prop :=
  exists m s, m <> Some 0 /\ ImplicitProducer_ctor m = Some s /\
    exists n r, y = MkISystem s (QIdle r) (replicate n (IAt CIdle)) [] [] 0 [].
End Implicit.
