(* ===== verification/ImplicitProducerSpec.v ===== *)
(** * The queue of an implicit producer is a queue: its memory

    The blocks, the block index and its entries (ImplicitProducer.v), and what
    each step of [enqueue] does to them.  The counters are those of
    ExplicitProducerSpec.v. *)

From S2P Require Import Prelude Posix MoodyDetails MoodyBlock ExplicitProducer ExplicitProducerSpec ImplicitProducer.

(** ** Slots *)

(** The slot of block [m] in a block index; there may be a block before the
    first. *)
Definition slot_at (g : Info) (m : Z) : Z := (m - hshift g) mod hsize g.

Lemma slot_at_bound g m : 0 < hsize g -> 0 <= slot_at g m < hsize g.
Proof. apply Z.mod_pos_bound. Qed.

Lemma slot_at_inj g m m' : - hsize g < m - m' < hsize g -> slot_at g m = slot_at g m' -> m = m'.
Proof.
  intros Hd E. unfold slot_at in E. assert (Hp : 0 < hsize g) by lia.
  assert (Hz : (m - m') mod hsize g = 0).
  { replace (m - m') with ((m - hshift g) - (m' - hshift g)) by lia. rewrite Zminus_mod, E, Z.sub_diag. apply Zmod_0_l. }
  apply Z.mod_divide in Hz as [q Hq]; [|lia]. assert (q = 0) by nia. nia.
Qed.

Lemma next_slot_at g m : (exists j, 0 <= j <= 62 /\ hsize g = 2 ^ j) -> next_slot (slot_at g m) (hsize g) = slot_at g (m + 1).
Proof. intros (j & Hj & E). unfold slot_at. rewrite E, next_slot_size, Zplus_mod_idemp_l by lia. f_equal. lia. Qed.

Lemma prev_slot_at g m : (exists j, 0 <= j <= 62 /\ hsize g = 2 ^ j) -> prev_slot (slot_at g m) (hsize g) = slot_at g (m - 1).
Proof.
  intros (j & Hj & E). unfold prev_slot, slot_at. rewrite E, land_size, Zminus_mod_idemp_l by done. f_equal. lia.
Qed.

Lemma slot_at_round g m : slot_at g (m - hsize g) = slot_at g m.
Proof.
  unfold slot_at. replace (m - hshift g) with (m - hsize g - hshift g + 1 * hsize g) by lia. by rewrite Z_mod_plus_full.
Qed.

(** The entries of blocks [m] to [m + n - 1]. *)
Definition slots_from (slots : list nat) g (m n : Z) : list nat :=
  (fun k => default 0%nat (slots !! Z.to_nat (slot_at g k))) <$> seqZ m n.

Lemma slots_from_lookup slots g m n k : zlen slots = hsize g -> 0 < hsize g -> m <= k < m + n ->
  slots_from slots g m n !! Z.to_nat (k - m) = slots !! Z.to_nat (slot_at g k).
Proof.
  intros Hl Hp Hk. unfold slots_from. rewrite list_lookup_fmap, lookup_seqZ_lt by lia. simpl.
  pose proof (slot_at_bound g k Hp). replace (m + Z.of_nat (Z.to_nat (k - m))) with k by lia.
  destruct (lookup_lt_is_Some_2 slots (Z.to_nat (slot_at g k))) as [i ->]; [unfold zlen in Hl; lia|done].
Qed.

Lemma slots_from_elem slots g m n i : zlen slots = hsize g -> 0 < hsize g -> i ∈ slots_from slots g m n -> i ∈ slots.
Proof.
  intros Hl Hp Hi. apply list_elem_of_fmap in Hi as (k & -> & _). pose proof (slot_at_bound g k Hp).
  destruct (lookup_lt_is_Some_2 slots (Z.to_nat (slot_at g k))) as [i Hi]; [unfold zlen in Hl; lia|].
  rewrite Hi. simpl. by eapply list_elem_of_lookup_2.
Qed.

Lemma slots_from_NoDup slots g m n : zlen slots = hsize g -> 0 <= n <= hsize g -> NoDup slots -> NoDup (slots_from slots g m n).
Proof.
  intros Hl Hn Hd. apply NoDup_fmap_2_strong; [|apply NoDup_seqZ]. intros k k' Hk Hk' E. apply elem_of_seqZ in Hk, Hk'.
  assert (Hp : 0 < hsize g) by lia. pose proof (slot_at_bound g k Hp). pose proof (slot_at_bound g k' Hp). unfold zlen in Hl.
  destruct (lookup_lt_is_Some_2 slots (Z.to_nat (slot_at g k))) as [i Hi]; [lia|].
  destruct (lookup_lt_is_Some_2 slots (Z.to_nat (slot_at g k'))) as [i' Hi']; [lia|].
  rewrite Hi, Hi' in E. simpl in E. subst i'. pose proof (NoDup_lookup _ _ _ _ Hd Hi Hi'). apply (slot_at_inj g); lia.
Qed.

(** The copy goes once around. *)
Lemma copy_slots_spec slots g fuel m M : (exists j, 0 <= j <= 62 /\ hsize g = 2 ^ j) -> zlen slots = hsize g ->
  0 < M - m <= hsize g -> M - m <= Z.of_nat fuel ->
  copy_slots fuel (hsize g) (slot_at g M) (slot_at g m) slots = Some (slots_from slots g (m + 1) (M - m)).
Proof.
  intros Hj Hl. revert m. induction fuel as [|fuel IH]; intros m Hm Hf; [lia|]. simpl. rewrite next_slot_at by done.
  assert (Hp : 0 < hsize g) by lia. pose proof (slot_at_bound g (m + 1) Hp).
  destruct (lookup_lt_is_Some_2 slots (Z.to_nat (slot_at g (m + 1)))) as [i Hi]; [unfold zlen in Hl; lia|].
  rewrite Hi. simpl. unfold slots_from. destruct (Z.eqb_spec (slot_at g (m + 1)) (slot_at g M)) as [E|E].
  - apply slot_at_inj in E; [|lia]. subst M. rewrite seqZ_cons, seqZ_nil by lia. cbn [fmap list_fmap]. by rewrite Hi.
  - assert (m + 1 <> M) by (by intros <-). rewrite IH by lia. simpl. unfold slots_from.
    rewrite (seqZ_cons (m + 1)) by lia. cbn [fmap list_fmap]. rewrite Hi. simpl. do 4 f_equal. f_equal; lia.
Qed.

(** ** Finished blocks *)

Section Memory.
Context {traits : Traits} `{!TraitsLaws} {A : Type}.
Abbreviation S := (ImplicitProducer A).
Implicit Types (k : nat) (g : Info) (fin gone : list Z) (cleared : list nat) (log : list A) (pc : QPc (A := A)) (s : S).

Definition full fin k : Prop := forall i, first_of k <= i < first_of (k + 1) -> i ∈ fin.

(** How many elements of block [k] are finished. *)
Definition fin_in fin k : Z := zlen (filter (fun i => block_of i = k) fin).

Lemma fin_in_block fin k : (forall i, i ∈ fin -> 0 <= i) -> NoDup fin ->
  0 <= fin_in fin k <= BLOCK_SIZE /\ (fin_in fin k = BLOCK_SIZE <-> full fin k).
Proof.
  intros H0 Hd. set (l := filter (fun i => block_of i = k) fin). pose proof block_size_bound as HB. pose proof (first_of_nonneg k).
  assert (Hl : forall i, i ∈ l <-> i ∈ fin /\ first_of k <= i < first_of k + BLOCK_SIZE).
  { intros i. unfold l. rewrite list_elem_of_filter. split.
    - intros [<- Hi]. split; [done|]. rewrite <- first_of_S. apply block_of_bounds. by apply H0.
    - intros [Hi Hk]. split; [by apply block_of_unique|done]. }
  assert (Hs : l ⊆+ seqZ (first_of k) BLOCK_SIZE).
  { apply NoDup_submseteq; [by apply NoDup_filter|]. intros i Hi. apply elem_of_seqZ. by apply Hl. }
  pose proof (submseteq_length _ _ Hs) as Hle. rewrite length_seqZ in Hle. unfold fin_in, zlen. fold l. split; [lia|].
  unfold full. rewrite first_of_S. split.
  - intros E i Hi. assert (Hp : l ≡ₚ seqZ (first_of k) BLOCK_SIZE) by (apply submseteq_length_Permutation; [done|rewrite length_seqZ; lia]).
    apply Hl. rewrite Hp. apply elem_of_seqZ. lia.
  - intros Hf. assert (Hs' : seqZ (first_of k) BLOCK_SIZE ⊆+ l).
    { apply NoDup_submseteq; [apply NoDup_seqZ|]. intros i Hi. apply elem_of_seqZ in Hi. apply Hl. split; [apply Hf|]; lia. }
    apply submseteq_length in Hs'. rewrite length_seqZ in Hs'. lia.
Qed.

(** Finishing elements of block [k]. *)
Lemma fin_in_app fin start n k k' : 0 <= n -> first_of k <= start -> start + n <= first_of (k + 1) ->
  fin_in (fin ++ seqZ start n) k' = fin_in fin k' + (if decide (k' = k) then n else 0).
Proof.
  intros Hn Hs He. unfold fin_in. rewrite filter_app, zlen_app. f_equal. rewrite first_of_S in He.
  assert (Hb : forall i, i ∈ seqZ start n -> block_of i = k).
  { intros i Hi. apply elem_of_seqZ in Hi. apply block_of_unique. lia. }
  destruct (decide (k' = k)) as [->|Hne].
  - assert (E : forall l : list Z, (forall i, i ∈ l -> block_of i = k) -> filter (fun i => block_of i = k) l = l).
    { induction l as [|i l IH]; intros Hl; [done|]. rewrite filter_cons_True by (apply Hl; set_solver). f_equal. apply IH. set_solver. }
    rewrite E by done. unfold zlen. rewrite length_seqZ. lia.
  - assert (E : forall l : list Z, (forall i, i ∈ l -> block_of i = k) -> filter (fun i => block_of i = k') l = []).
    { induction l as [|i l IH]; intros Hl; [done|]. rewrite filter_cons_False; [apply IH; set_solver|]. rewrite Hl by set_solver. congruence. }
    by rewrite E by done.
Qed.
(** ** The memory of the producer

    [g_blocks] are the blocks published, in order, block [k] for the elements
    from [k * BLOCK_SIZE] on; [g_ids] says which entry has which block as its
    key, one block more when [enqueue] has not published it.  Entries of blocks
    before [g_low] may have a new key.  [g_infos] describes each block index ever
    made; the blocks [g_freed] were given back. *)
Record Ghost := MkGhost { g_blocks : list Z; g_ids : list nat; g_low : nat; g_infos : gmap Z Info; g_freed : list nat }.
Implicit Types z : Ghost.

Record iheader_ok (lo : nat) (ids : list nat) g (h : ImplicitHeader) : Prop := {
  ih_size : index_capacity h = hsize g /\ exists j, 0 <= j <= 62 /\ hsize g = 2 ^ j;
  ih_length : zlen (index_slots h) = hsize g;
  ih_order : (hpub g <= hhi g <= length ids)%nat;
  ih_slots : forall k i, (lo <= k < hhi g)%nat -> ids !! k = Some i -> index_slots h !! Z.to_nat (slot_in g k) = Some i;
  ih_tail : exists m, index_tail h = slot_at g m /\ Z.of_nat (hpub g) <= m + 1 <= Z.of_nat (hhi g)
}.

(** The entry of block [k]; its pointer is null once the block is cleared. *)
Definition ientry_ok (bs : list Z) cleared k (e : ImplicitEntry) : Prop :=
  block_key e = first_of k /\ forall p, bs !! k = Some p -> block_value e = if decide (k ∈ cleared) then 0 else p.

Record iblock_ok fin gone log k (b : Block A) : Prop := {
  ib_cells : length (elements b) = Z.to_nat BLOCK_SIZE;
  ib_cell : forall o, 0 <= o < BLOCK_SIZE -> elements b !! Z.to_nat o = Some (cell gone log (first_of k + o));
  ib_count : elementsCompletelyDequeued b = fin_in fin k
}.

(** The tail of the block index is one further, for a block that is not
    published; the pointer of its entry is not null yet. *)
Definition tail_lag pc : Z := match pc with QBlock _ _ | QRewind | QReset _ _ _ | QEntry _ _ _ => 1 | _ => 0 end.
Definition pending_entry pc : bool :=
  match pc with QTailSlot _ _ | QBlock _ _ | QRewind | QNull _ | QReset _ _ _ | QEntry _ _ _ => true | _ => false end.

(** The block that [enqueue] has got and not published. *)
Definition private pc : option Z := match pc with QReset _ _ p | QEntry _ _ p => Some p | _ => None end.

(** The current block index, if there is one. *)
Definition current_ok z pc s : Prop :=
  if decide (implicit_index s = 0) then g_blocks z = [] /\ g_ids z = []
  else exists g h, g_infos z !! implicit_index s = Some g /\ index_headers s !! implicit_index s = Some h /\
    hhi g = length (g_ids z) /\ hpub g = length (g_blocks z) /\
    index_tail h = slot_at g (Z.of_nat (length (g_blocks z)) - 1 + tail_lag pc) /\ nextBlockIndexCapacity s = 2 * hsize g /\
    NoDup (index_slots h) /\ (forall i, i ∈ index_slots h -> (i < length (index_entries s))%nat) /\
    Z.of_nat (length (g_ids z)) <= Z.of_nat (g_low z) + hsize g /\
    (forall k, Z.of_nat (length (g_ids z)) <= Z.of_nat k < Z.of_nat (g_low z) + hsize g ->
       exists i e, index_slots h !! Z.to_nat (slot_in g k) = Some i /\ index_entries s !! i = Some e /\ block_key e = INVALID_BLOCK_BASE).

(** The entry for the next block can be used. *)
Definition room z cleared s : Prop := length (g_ids z) = length (g_blocks z) ->
  exists g, g_infos z !! implicit_index s = Some g /\
    (Z.of_nat (length (g_blocks z)) - Z.of_nat (g_low z) < hsize g \/ g_low z ∈ cleared).

Definition iphase_ok (T : Z) z cleared pc s : Prop :=
  let bs := g_blocks z in
  let keyed := length (g_ids z) = (length bs + 1)%nat in
  match pc with
  | QIdle _ | QStart _ _ => T <= first_of (length bs) < T + BLOCK_SIZE
  | QHead _ _ cur | QInsert _ _ cur => at_end T bs cur
  | QNew _ cur => at_end T bs cur /\ implicit_index s <> 0 /\ length (g_ids z) = length bs /\
      exists g, g_infos z !! implicit_index s = Some g /\ Z.of_nat (length bs) = Z.of_nat (g_low z) + hsize g
  | QKey _ cur => at_end T bs cur /\ implicit_index s <> 0 /\ room z cleared s
  | QTailSlot _ cur | QBlock _ cur => at_end T bs cur /\ implicit_index s <> 0 /\ keyed
  | QRewind => T = first_of (length bs) /\ implicit_index s <> 0 /\ keyed
  | QNull slot => T = first_of (length bs) /\ implicit_index s <> 0 /\ keyed /\
      exists g, g_infos z !! implicit_index s = Some g /\ slot = slot_in g (length bs)
  | QReset _ cur p => at_end T bs cur /\ implicit_index s <> 0 /\ keyed /\ p <> 0 /\
      (forall k, bs !! k = Some p -> k ∈ g_freed z) /\
      exists b, owned_blocks s !! p = Some b /\ elements b = replicate (Z.to_nat BLOCK_SIZE) None
  | QEntry _ cur p => at_end T bs cur /\ implicit_index s <> 0 /\ keyed /\ p <> 0 /\
      (forall k, bs !! k = Some p -> k ∈ g_freed z) /\
      exists b, owned_blocks s !! p = Some b /\ elements b = replicate (Z.to_nat BLOCK_SIZE) None /\ elementsCompletelyDequeued b = 0
  | QConstruct _ cur | QTail _ cur => in_last T bs cur
  end.

Record imemory_ok (T : Z) z fin gone cleared log pc s : Prop := {
  im_low : (g_low z <= length (g_ids z))%nat /\ forall k, (k < g_low z)%nat -> k ∈ cleared;
  im_ids : (length (g_ids z) = length (g_blocks z) \/ length (g_ids z) = length (g_blocks z) + 1)%nat /\ NoDup (drop (g_low z) (g_ids z));
  im_entries : forall k i, (g_low z <= k)%nat -> g_ids z !! k = Some i ->
    exists e, index_entries s !! i = Some e /\ ientry_ok (g_blocks z) cleared k e;
  im_null : pending_entry pc = false -> forall i, g_ids z !! length (g_blocks z) = Some i ->
    exists e, index_entries s !! i = Some e /\ block_value e = 0;
  im_blocks : forall k p, g_blocks z !! k = Some p -> k ∉ g_freed z -> p <> 0 /\
    exists b, owned_blocks s !! p = Some b /\ iblock_ok fin gone log k b;
  im_unique : forall k k' p, g_blocks z !! k = Some p -> g_blocks z !! k' = Some p -> k ∉ g_freed z -> k' ∉ g_freed z -> k = k';
  im_owned : forall p, is_Some (owned_blocks s !! p) ->
    (exists k, g_blocks z !! k = Some p /\ k ∉ g_freed z) \/ private pc = Some p;
  im_tail : tailBlock (implicit_base s) = default 0 (last (g_blocks z));
  im_fin : NoDup fin /\ (forall i, i ∈ fin -> i ∈ gone) /\ forall i, i ∈ gone -> 0 <= i < T;
  im_cleared : (forall k, k ∈ g_freed z -> k ∈ cleared) /\ forall k, k ∈ cleared -> full fin k;
  im_log : 0 <= T /\ zlen log = T + match pc with QTail _ _ => 1 | _ => 0 end;
  im_headers : forall p g, g_infos z !! p = Some g -> exists h, index_headers s !! p = Some h /\ iheader_ok (g_low z) (g_ids z) g h;
  im_current : current_ok z pc s;
  im_phase : iphase_ok T z cleared pc s
}.

(** *** Facts *)

Section Producer.
Context (T : Z) (fin gone : list Z) (cleared : list nat).
Abbreviation memory z log pc s := (imemory_ok T z fin gone cleared log pc s).

Lemma tail_bound z log pc s : memory z log pc s -> T <= first_of (length (g_blocks z)).
Proof.
  intros Hm. pose proof (im_phase _ _ _ _ _ _ _ _ Hm) as Hp. pose proof block_size_bound.
  destruct pc; simpl in Hp; unfold at_end, in_last in Hp; lia.
Qed.

Lemma fin_below z log pc s i : memory z log pc s -> i ∈ fin -> 0 <= i < T.
Proof. intros Hm Hi. destruct (im_fin _ _ _ _ _ _ _ _ Hm) as (_ & H1 & H2). by apply H2, H1. Qed.

(** Only published blocks are full. *)
Lemma full_published z log pc s k : memory z log pc s -> full fin k -> (k < length (g_blocks z))%nat.
Proof.
  intros Hm Hf. assert (Hi : first_of k ∈ fin) by (apply Hf; rewrite first_of_S; pose proof block_size_bound; lia).
  apply (fin_below _ _ _ _ _ Hm) in Hi. pose proof (tail_bound _ _ _ _ Hm). apply first_of_lt. lia.
Qed.

Lemma cleared_published z log pc s k : memory z log pc s -> k ∈ cleared -> (k < length (g_blocks z))%nat.
Proof. intros Hm Hk. eapply full_published; [done|]. by apply (im_cleared _ _ _ _ _ _ _ _ Hm). Qed.

Lemma low_published z log pc s : memory z log pc s -> (g_low z <= length (g_blocks z))%nat.
Proof.
  intros Hm. destruct (im_low _ _ _ _ _ _ _ _ Hm) as [_ Hc]. destruct (Nat.le_gt_cases (g_low z) (length (g_blocks z))) as [|Hlt]; [done|].
  pose proof (cleared_published _ _ _ _ _ Hm (Hc _ Hlt)). lia.
Qed.

(** The current block index, with the entry for the next block. *)
Lemma current_index z log pc s : memory z log pc s -> implicit_index s <> 0 -> exists g h i e,
  g_infos z !! implicit_index s = Some g /\ index_headers s !! implicit_index s = Some h /\ iheader_ok (g_low z) (g_ids z) g h /\
  hhi g = length (g_ids z) /\ hpub g = length (g_blocks z) /\
  index_tail h = slot_at g (Z.of_nat (length (g_blocks z)) - 1 + tail_lag pc) /\
  entry_id (implicit_index s) (slot_in g (length (g_blocks z))) s = Some i /\ index_entries s !! i = Some e /\
  (length (g_ids z) = (length (g_blocks z) + 1)%nat -> g_ids z !! length (g_blocks z) = Some i).
Proof.
  intros Hm Hi. pose proof (im_current _ _ _ _ _ _ _ _ Hm) as Hc. unfold current_ok in Hc. rewrite decide_False in Hc by done.
  destruct Hc as (g & h & Hg & Hh & C1 & C2 & C3 & C4 & C5 & C6 & C7 & C8).
  destruct (im_headers _ _ _ _ _ _ _ _ Hm _ _ Hg) as (h' & Hh' & Hok). rewrite Hh in Hh'. injection Hh' as <-.
  pose proof (slot_bound g (length (g_blocks z)) (proj2 (ih_size _ _ _ _ Hok))) as Hb. pose proof (ih_length _ _ _ _ Hok) as Hl.
  destruct (lookup_lt_is_Some_2 (index_slots h) (Z.to_nat (slot_in g (length (g_blocks z))))) as [i Hs]; [unfold zlen in Hl; lia|].
  destruct (lookup_lt_is_Some_2 (index_entries s) i) as [e He]; [apply C6; by eapply list_elem_of_lookup_2|].
  exists g, h, i, e. split_and!; try done.
  - unfold entry_id. by rewrite Hh.
  - intros HK. destruct (lookup_lt_is_Some_2 (g_ids z) (length (g_blocks z))) as [i' Hi']; [lia|].
    pose proof (low_published _ _ _ _ Hm). pose proof (ih_slots _ _ _ _ Hok (length (g_blocks z)) i' ltac:(lia) Hi') as E. congruence.
Qed.

Lemma new_tail_eq z log pc s g h : memory z log pc s -> tail_lag pc = 0 -> index_headers s !! implicit_index s = Some h ->
  iheader_ok (g_low z) (g_ids z) g h -> index_tail h = slot_at g (Z.of_nat (length (g_blocks z)) - 1 + tail_lag pc) ->
  new_tail s = Some (slot_in g (length (g_blocks z))).
Proof.
  intros Hm E0 Hh Hok Et. unfold new_tail. rewrite Hh. cbn [mbind option_bind]. destruct (ih_size _ _ _ _ Hok) as [-> Hj].
  rewrite Et, E0, next_slot_at by done. unfold slot_at, slot_in. do 3 f_equal. lia.
Qed.

(** The program moves on, and memory stays. *)
Lemma imemory_pc z log pc pc' s : memory z log pc s -> tail_lag pc' = tail_lag pc -> private pc' = private pc ->
  (pending_entry pc' = false -> pending_entry pc = false) ->
  (match pc' with QTail _ _ => 1 | _ => 0 end) = (match pc with QTail _ _ => 1 | _ => 0 end) ->
  iphase_ok T z cleared pc' s -> memory z log pc' s.
Proof.
  intros [H1 H2 H3 H4 H5 H6 H7 H8 H9 H10 H11 H12 H13 H14] Et Ep En El Hp. split; try done.
  - intros E. by apply H4, En.
  - by rewrite Ep.
  - by rewrite El.
  - unfold current_ok in *. by rewrite Et.
Qed.

Lemma first_of_valid k : first_of k <> INVALID_BLOCK_BASE.
Proof.
  unfold first_of, INVALID_BLOCK_BASE. rewrite BLOCK_SIZE_eq. pose proof block_bits_bound.
  replace block_bits with (1 + (block_bits - 1)) by lia. rewrite Z.pow_add_r by lia. lia.
Qed.

(** The slot of block [k], a round before that of the next block. *)
Lemma slot_in_round g k n : Z.of_nat n = Z.of_nat k + hsize g -> slot_in g n = slot_in g k.
Proof. intros E. change (slot_at g (Z.of_nat n) = slot_at g (Z.of_nat k)). rewrite <- (slot_at_round g (Z.of_nat n)). f_equal. lia. Qed.

(** What [insert_block_index_entry] finds. *)
Lemma imemory_insert z log mode x cur s : memory z log (QInsert mode x cur) s -> implicit_index s <> 0 ->
  exists slot e, new_tail s = Some slot /\ entry_at (implicit_index s) slot s = Some e /\
    memory z log (if (block_key e =? INVALID_BLOCK_BASE) || (block_value e =? 0) then QKey x cur
                  else match mode with CannotAlloc => QIdle false | CanAlloc => QNew x cur end) s.
Proof.
  intros Hm Hi. destruct (current_index _ _ _ _ Hm Hi) as (g & h & i & e & Hg & Hh & Hok & C1 & C2 & C3 & Hid & He & HK).
  exists (slot_in g (length (g_blocks z))), e. split; [by eapply new_tail_eq|]. split; [unfold entry_at; by rewrite Hid|].
  pose proof (im_phase _ _ _ _ _ _ _ _ Hm) as Hat. simpl in Hat. pose proof (low_published _ _ _ _ Hm) as Hlow.
  pose proof (im_current _ _ _ _ _ _ _ _ Hm) as Hc. unfold current_ok in Hc. rewrite decide_False in Hc by done.
  destruct Hc as (g' & h' & Hg' & Hh' & _ & _ & _ & _ & _ & _ & C7 & C8). simplify_eq.
  assert (Hid' : index_slots h !! Z.to_nat (slot_in g (length (g_blocks z))) = Some i) by (unfold entry_id in Hid; by rewrite Hh in Hid).
  destruct (_ || _) eqn:Ec.
  - eapply imemory_pc; [exact Hm|done..|]. split; [done|]. split; [done|]. intros EN. exists g. split; [done|].
    destruct (Z.lt_ge_cases (Z.of_nat (length (g_blocks z)) - Z.of_nat (g_low z)) (hsize g)) as [|Hge]; [by left|right].
    assert (Hlt : (g_low z < length (g_blocks z))%nat) by (pose proof (hsize_pos g (proj2 (ih_size _ _ _ _ Hok))); lia).
    rewrite (slot_in_round g (g_low z)) in Hid' by lia. destruct (lookup_lt_is_Some_2 (g_ids z) (g_low z)) as [i' Hi']; [lia|].
    rewrite (ih_slots _ _ _ _ Hok (g_low z) i') in Hid' by (lia || done). injection Hid' as ->.
    destruct (im_entries _ _ _ _ _ _ _ _ Hm (g_low z) _ ltac:(lia) Hi') as (e' & He' & Ek & Ev). rewrite He in He'. injection He' as <-.
    destruct (lookup_lt_is_Some_2 (g_blocks z) (g_low z)) as [p Hp]; [lia|]. specialize (Ev p Hp).
    pose proof (first_of_valid (g_low z)). rewrite Ek in Ec. rewrite (proj2 (Z.eqb_neq _ _)) in Ec by done. apply Z.eqb_eq in Ec.
    destruct (decide (g_low z ∈ cleared)) as [|Hn]; [done|]. rewrite Ec in Ev.
    destruct (im_blocks _ _ _ _ _ _ _ _ Hm _ _ Hp) as [Hp0 _]; [|by rewrite <- Ev in Hp0].
    intros Hf. apply Hn. by apply (im_cleared _ _ _ _ _ _ _ _ Hm).
  - apply orb_false_iff in Ec as [Ek Ev]. apply Z.eqb_neq in Ek, Ev. pose proof block_size_bound.
    assert (EN : length (g_ids z) = length (g_blocks z)).
    { destruct (im_ids _ _ _ _ _ _ _ _ Hm) as [[|EN] _]; [done|]. destruct (im_null _ _ _ _ _ _ _ _ Hm eq_refl i (HK EN)) as (e' & He' & E0).
      congruence. }
    destruct mode; (eapply imemory_pc; [exact Hm|done..|]); simpl; [|unfold at_end in Hat; lia].
    split; [done|]. split; [done|]. split; [done|]. exists g. split; [done|].
    destruct (Z.lt_ge_cases (Z.of_nat (length (g_blocks z))) (Z.of_nat (g_low z) + hsize g)) as [Hlt|]; [|lia].
    destruct (C8 (length (g_blocks z)) ltac:(lia)) as (i' & e' & Hi' & He' & E). congruence.
Qed.
(** *** A new block index *)

(** The old slots from the oldest on, and as many for entries without a block. *)
Definition grown_slots (slots : list nat) g (n : Z) (m : nat) : list nat := slots_from slots g (n - hsize g) (hsize g) ++ seq m (Z.to_nat (hsize g)).

Definition grown_info g (n : nat) : Info := MkInfo (Z.of_nat n - hsize g) (2 * hsize g) n n.

Lemma grown_slots_length slots g n m : 0 < hsize g -> zlen (grown_slots slots g n m) = 2 * hsize g.
Proof.
  intros Hp. unfold grown_slots, slots_from. rewrite zlen_app. unfold zlen. rewrite length_fmap, length_seqZ, length_seq. lia.
Qed.

Lemma grown_slots_old slots g (n : nat) m (k : nat) : zlen slots = hsize g -> 0 < hsize g -> Z.of_nat n - hsize g <= Z.of_nat k < Z.of_nat n ->
  grown_slots slots g (Z.of_nat n) m !! Z.to_nat (slot_in (grown_info g n) k) = slots !! Z.to_nat (slot_in g k).
Proof.
  intros Hl Hp Hk. unfold grown_slots. unfold slot_in at 1. simpl. rewrite Z.mod_small by lia.
  rewrite lookup_app_l by (unfold slots_from; rewrite length_fmap, length_seqZ; lia). rewrite slots_from_lookup by lia. done.
Qed.

Lemma grown_slots_new slots g (n : nat) m (k : nat) : 0 < hsize g -> Z.of_nat n <= Z.of_nat k < Z.of_nat n + hsize g ->
  grown_slots slots g (Z.of_nat n) m !! Z.to_nat (slot_in (grown_info g n) k) = Some (m + (k - n))%nat.
Proof.
  intros Hp Hk. unfold grown_slots, slot_in. simpl. rewrite Z.mod_small by lia.
  assert (El : length (slots_from slots g (Z.of_nat n - hsize g) (hsize g)) = Z.to_nat (hsize g)) by (unfold slots_from; by rewrite length_fmap, length_seqZ).
  rewrite lookup_app_r by lia. rewrite El, lookup_seq_lt by lia. f_equal. lia.
Qed.

Lemma grown_slots_NoDup slots g n m : zlen slots = hsize g -> 0 < hsize g -> NoDup slots -> (forall i, i ∈ slots -> (i < m)%nat) ->
  NoDup (grown_slots slots g n m) /\ forall i, i ∈ grown_slots slots g n m -> (i < m + Z.to_nat (hsize g))%nat.
Proof.
  intros Hl Hp Hd Hb. split.
  - apply NoDup_app. split; [apply slots_from_NoDup; [done|lia|done]|]. split; [|apply NoDup_seq].
    intros i Hi Hi'. apply slots_from_elem in Hi; [|done..]. apply elem_of_seq in Hi'. specialize (Hb i Hi). lia.
  - intros i [Hi|Hi]%elem_of_app; [apply slots_from_elem in Hi; [|done..]; specialize (Hb i Hi); lia|]. apply elem_of_seq in Hi. lia.
Qed.

Lemma new_index_run garbage z log x cur s p : memory z log (QNew x cur) s -> T < 2 ^ 62 -> exists g h,
  g_infos z !! implicit_index s = Some g /\ index_headers s !! implicit_index s = Some h /\ (exists j, 0 <= j <= 60 /\ hsize g = 2 ^ j) /\
  implicit_new_block_index garbage (Some p) s =
    Some (true, MkImplicit (implicit_base s) (4 * hsize g) p
      (<[p:=MkIHeader (2 * hsize g) (hsize g - 1)
              (grown_slots (index_slots h) g (Z.of_nat (length (g_blocks z))) (length (index_entries s))) (implicit_index s)]> (index_headers s))
      (index_entries s ++ replicate (Z.to_nat (hsize g)) (MkIEntry INVALID_BLOCK_BASE garbage)) (owned_blocks s)).
Proof.
  intros Hm HT. destruct (im_phase _ _ _ _ _ _ _ _ Hm) as ((_ & HTe) & Hi & EN & g' & Hg' & Hsz).
  destruct (current_index _ _ _ _ Hm Hi) as (g & h & i & e & Hg & Hh & Hok & C1 & C2 & C3 & _).
  rewrite Hg in Hg'. injection Hg' as <-. exists g, h.
  destruct (ih_size _ _ _ _ Hok) as [Ec (j & Hj & Ej)]. pose proof (first_of_small (length (g_blocks z)) ltac:(by rewrite <- HTe)) as Hnb.
  assert (Hp : 0 < hsize g) by (rewrite Ej; apply Z.pow_pos_nonneg; lia).
  assert (Hj60 : j <= 60). { destruct (Z.le_gt_cases j 60); [done|]. assert (2 ^ 61 <= 2 ^ j) by (apply Z.pow_le_mono_r; lia). lia. }
  split; [done|]. split; [done|]. split; [exists j; split; [lia|done]|].
  pose proof (im_current _ _ _ _ _ _ _ _ Hm) as Hc. unfold current_ok in Hc. rewrite decide_False in Hc by done.
  destruct Hc as (g' & h' & Hg' & Hh' & _ & _ & _ & Ecap & _).
  rewrite Hg in Hg'. injection Hg' as <-.
  unfold implicit_new_block_index. rewrite !decide_False by done. rewrite Hh. cbn [mbind option_bind].
  simpl in C3. rewrite Z.add_0_r in C3. set (n := Z.of_nat (length (g_blocks z))) in *.
  pose proof (ih_length _ _ _ _ Hok) as Hl.
  pose proof (copy_slots_spec (index_slots h) g (Z.to_nat (hsize g)) (n - 1 - hsize g) (n - 1)) as Hcopy.
  rewrite slot_at_round, <- C3 in Hcopy. rewrite Ec, Hcopy; [|by exists j|done|lia|lia]. cbn [mbind option_bind].
  replace (n - 1 - hsize g + 1) with (n - hsize g) by lia. replace (n - 1 - (n - 1 - hsize g)) with (hsize g) by lia.
  assert (E2 : nextBlockIndexCapacity s = 2 ^ (j + 1)) by (rewrite Ecap, Ej, Z.pow_add_r by lia; lia).
  assert (Et : Z.land (u64 (hsize g - 1)) (u64 (nextBlockIndexCapacity s - 1)) = hsize g - 1).
  { rewrite E2, land_size by lia. apply Z.mod_small. rewrite <- E2, Ecap. lia. }
  assert (E4 : u64 (Z.shiftl (nextBlockIndexCapacity s) 1) = 4 * hsize g).
  { rewrite Z.shiftl_mul_pow2, Ecap by lia. assert (2 ^ j <= 2 ^ 60) by (apply Z.pow_le_mono_r; lia). rewrite u64_id; lia. }
  rewrite Et, E4, Ecap, decide_False by done. done.
Qed.

Lemma imemory_new garbage z log x cur s p : memory z log (QNew x cur) s -> T < 2 ^ 62 -> p <> 0 -> index_headers s !! p = None ->
  exists s' g slot e, implicit_new_block_index garbage (Some p) s = Some (true, s') /\ new_tail s' = Some slot /\
    entry_at (implicit_index s') slot s' = Some e /\ block_key e = INVALID_BLOCK_BASE /\
    imemory_ok T (MkGhost (g_blocks z) (g_ids z) (g_low z) (<[p:=g]> (g_infos z)) (g_freed z)) fin gone cleared log (QKey x cur) s' /\
    implicit_base s' = implicit_base s.
Proof.
  intros Hm HT Hp Hfree. destruct (new_index_run garbage _ _ _ _ _ p Hm HT) as (g & h & Hg & Hh & (j & Hj & Ej) & Erun).
  eexists _, (grown_info g (length (g_blocks z))), (slot_in (grown_info g (length (g_blocks z))) (length (g_blocks z))), (MkIEntry INVALID_BLOCK_BASE garbage).
  split; [exact Erun|]. clear Erun. assert (Hpos : 0 < hsize g) by (rewrite Ej; apply Z.pow_pos_nonneg; lia).
  destruct (im_phase _ _ _ _ _ _ _ _ Hm) as (Hat & Hi & EN & g' & Hg' & Hsz).
  rewrite Hg in Hg'. injection Hg' as <-.
  pose proof (im_current _ _ _ _ _ _ _ _ Hm) as Hc. unfold current_ok in Hc. rewrite decide_False in Hc by done.
  destruct Hc as (g' & h' & Hg' & Hh' & C1 & C2 & C3 & Ecap & Hnd & Hlt & C7 & C8).
  rewrite Hg in Hg'. injection Hg' as <-. rewrite Hh in Hh'. injection Hh' as <-.
  destruct (im_headers _ _ _ _ _ _ _ _ Hm _ _ Hg) as (h' & Hh' & Hok).
  rewrite Hh in Hh'. injection Hh' as <-. pose proof (ih_length _ _ _ _ Hok) as Hl.
  set (n := length (g_blocks z)) in *. set (l := length (index_entries s)) in *. set (slots := grown_slots (index_slots h) g (Z.of_nat n) l).
  set (es := index_entries s ++ replicate (Z.to_nat (hsize g)) (MkIEntry INVALID_BLOCK_BASE garbage)).
  assert (Hj' : exists j, 0 <= j <= 62 /\ 2 * hsize g = 2 ^ j) by (exists (j + 1); split; [lia|rewrite Ej, Z.pow_add_r by lia; lia]).
  assert (Efresh : forall k, Z.of_nat n <= Z.of_nat k < Z.of_nat n + hsize g -> exists i e,
     slots !! Z.to_nat (slot_in (grown_info g n) k) = Some i /\ es !! i = Some e /\ e = MkIEntry INVALID_BLOCK_BASE garbage).
  { intros k Hk. eexists _, _. split; [by apply grown_slots_new|]. split; [|done]. unfold es. rewrite lookup_app_r by lia.
    apply lookup_replicate_2. fold l. lia. }
  assert (Et : slot_at (grown_info g n) (Z.of_nat n - 1) = hsize g - 1).
  { unfold slot_at. simpl. rewrite Z.mod_small by lia. lia. }
  assert (Hnew : iheader_ok (g_low z) (g_ids z) (grown_info g n) (MkIHeader (2 * hsize g) (hsize g - 1) slots (implicit_index s))).
  { split; simpl; [done|by apply grown_slots_length|lia| |].
    - intros k i Hk Hki. unfold slots. rewrite (grown_slots_old (index_slots h) g n l k) by (done || lia). apply (ih_slots _ _ _ _ Hok); [lia|done].
    - exists (Z.of_nat n - 1). split; [done|lia]. }
  split.
  { unfold new_tail. simpl. rewrite lookup_insert_eq. cbn [mbind option_bind index_tail index_capacity]. rewrite <- Et.
    change (2 * hsize g) with (hsize (grown_info g n)). rewrite next_slot_at by done. unfold slot_at, slot_in. do 3 f_equal. lia. }
  destruct (Efresh n ltac:(lia)) as (i & e & Hsi & Hei & Ee).
  split. { unfold entry_at, entry_id. simpl. rewrite lookup_insert_eq. cbn [mbind option_bind index_slots]. fold slots.
    rewrite Hsi. cbn [mbind option_bind]. fold es. congruence. }
  split; [done|]. split; [|done]. destruct (grown_slots_NoDup (index_slots h) g (Z.of_nat n) l Hl Hpos Hnd Hlt) as [Hnd' Hlt'].
  destruct Hm as [H1 H2 H3 H4 H5 H6 H7 H8 H9 H10 H11 H12 _ _]. split; try done; simpl.
  - intros k i' Hk Hi'. destruct (H3 k i' Hk Hi') as (e' & He' & Hok'). exists e'. split; [by apply lookup_app_l_Some|done].
  - intros _ i' Hi'. destruct (H4 eq_refl i' Hi') as (e' & He' & E'). exists e'. split; [by apply lookup_app_l_Some|done].
  - intros q g' [[<- <-]|[Hne Hq]]%lookup_insert_Some; [eexists; split; [apply lookup_insert_eq|exact Hnew]|].
    rewrite lookup_insert_ne by done. by apply H12.
  - unfold current_ok. simpl. rewrite decide_False by done. eexists _, _. split; [apply lookup_insert_eq|]. split; [apply lookup_insert_eq|]. simpl.
    fold n. split_and!; try done; try lia.
    + by rewrite Z.add_0_r.
    + intros i' Hi'. unfold es. rewrite length_app, length_replicate. by apply Hlt'.
    + intros k Hk. destruct (Efresh k ltac:(lia)) as (i' & e' & E1 & E2 & ->). eexists _, _. by split_and!.
  - split; [done|]. split; [done|]. intros _. eexists. split; [apply lookup_insert_eq|]. simpl. left. lia.
Qed.
(** *** The entry of the next block *)

(** The block index changes at [q], with what is known of it. *)
Lemma headers_change (G : gmap Z Info) (hs : gmap Z ImplicitHeader) lo lo' ids ids' q g' h' :
  (forall p g, G !! p = Some g -> exists h, hs !! p = Some h /\ iheader_ok lo ids g h) ->
  (forall g h, iheader_ok lo ids g h -> iheader_ok lo' ids' g h) -> iheader_ok lo' ids' g' h' ->
  forall p g, <[q:=g']> G !! p = Some g -> exists h, <[q:=h']> hs !! p = Some h /\ iheader_ok lo' ids' g h.
Proof.
  intros Hh Hmono Hok p g [[<- <-]|[Hne Hp]]%lookup_insert_Some; [rewrite lookup_insert_eq; by eexists|].
  rewrite lookup_insert_ne by done. destruct (Hh p g Hp) as (h & ? & ?). exists h. split; [done|by apply Hmono].
Qed.

Lemma iheader_mono lo lo' ids i g h : (lo <= lo')%nat -> iheader_ok lo ids g h -> iheader_ok lo' (ids ++ [i]) g h.
Proof.
  intros Hlo [H1 H2 H3 H4 H5]. split; try done; [rewrite length_app; lia|]. intros k j Hk Hj. apply H4; [lia|].
  rewrite lookup_app_l in Hj by lia. done.
Qed.

(** A key is written that was there already. *)
Lemma imemory_rekey z log x cur s : memory z log (QKey x cur) s -> length (g_ids z) = (length (g_blocks z) + 1)%nat ->
  exists slot s', new_tail s = Some slot /\ on_index_entry (implicit_index s) slot (set_block_key cur) s = Some s' /\
    memory z log (QTailSlot x cur) s' /\ implicit_base s' = implicit_base s.
Proof.
  intros Hm EN. destruct (im_phase _ _ _ _ _ _ _ _ Hm) as (Hat & Hi & _).
  destruct (current_index _ _ _ _ Hm Hi) as (g & h & i & e & Hg & Hh & Hok & C1 & C2 & C3 & Hid & He & HK).
  specialize (HK EN). pose proof (low_published _ _ _ _ Hm) as Hlow.
  destruct (im_entries _ _ _ _ _ _ _ _ Hm (length (g_blocks z)) i ltac:(lia) HK) as (e' & He' & Ek & _). rewrite He in He'. injection He' as <-.
  assert (Es : set_index_entries (<[i:=set_block_key cur e]> (index_entries s)) s = s).
  { destruct s. unfold set_index_entries. simpl in *. f_equal. rewrite list_insert_id; [done|]. rewrite He. f_equal.
    destruct e. unfold set_block_key. simpl in *. f_equal. destruct Hat as [-> ->]. done. }
  exists (slot_in g (length (g_blocks z))), s. split; [by eapply new_tail_eq|]. split; [unfold on_index_entry; rewrite Hid; cbn [mbind option_bind]; rewrite He; cbn [mbind option_bind]; by rewrite Es|].
  split; [|done]. eapply imemory_pc; [exact Hm|done..|]. by split.
Qed.

(** The entry is not that of a block that still has one. *)
Lemma next_entry_free z log x cur s g h i k j : memory z log (QKey x cur) s -> iheader_ok (g_low z) (g_ids z) g h ->
  NoDup (index_slots h) -> index_slots h !! Z.to_nat (slot_in g (length (g_blocks z))) = Some i -> (k < length (g_blocks z))%nat ->
  Z.of_nat (length (g_blocks z)) - Z.of_nat k < hsize g -> hhi g = length (g_blocks z) -> (g_low z <= k)%nat -> g_ids z !! k = Some j -> j <> i.
Proof.
  intros Hm Hok Hnd Hi Hk Hd Eh Hlo Hj ->. pose proof (ih_slots _ _ _ _ Hok k i ltac:(lia) Hj) as Hk'.
  pose proof (NoDup_lookup _ _ _ _ Hnd Hi Hk') as E. pose proof (proj2 (ih_size _ _ _ _ Hok)) as Hz.
  pose proof (slot_bound g k Hz). pose proof (slot_bound g (length (g_blocks z)) Hz). apply (slot_ne g k (length (g_blocks z))); [done|done|lia].
Qed.
(** How far the window of the entries moves. *)
Lemma next_low z log x cur s g : memory z log (QKey x cur) s -> length (g_ids z) = length (g_blocks z) -> g_infos z !! implicit_index s = Some g ->
  0 < hsize g -> Z.of_nat (length (g_ids z)) <= Z.of_nat (g_low z) + hsize g ->
  exists lo, (g_low z <= lo <= length (g_blocks z))%nat /\ Z.of_nat (length (g_blocks z)) - Z.of_nat lo < hsize g /\
    (forall k, (k < lo)%nat -> k ∈ cleared) /\ Z.of_nat lo + hsize g <= Z.max (Z.of_nat (g_low z) + hsize g) (Z.of_nat (length (g_blocks z)) + 1).
Proof.
  intros Hm EN Hg Hp Hroom. destruct (im_phase _ _ _ _ _ _ _ _ Hm) as (_ & _ & Hr). destruct (Hr EN) as (g' & Hg' & Hc).
  rewrite Hg in Hg'. injection Hg' as <-. pose proof (low_published _ _ _ _ Hm). destruct (im_low _ _ _ _ _ _ _ _ Hm) as [_ Hl].
  destruct (Z.lt_ge_cases (Z.of_nat (length (g_blocks z)) - Z.of_nat (g_low z)) (hsize g)) as [Hlt|Hge].
  - exists (g_low z). split_and!; try done; lia.
  - destruct Hc as [|Hc]; [lia|]. exists (g_low z + 1)%nat. split_and!; try lia. intros k Hk.
    destruct (decide (k = g_low z)) as [->|]; [done|apply Hl; lia].
Qed.

Definition with_id z (i lo : nat) (p : Z) g : Ghost :=
  MkGhost (g_blocks z) (g_ids z ++ [i]) lo (<[p:=with_hhi (length (g_blocks z) + 1) g]> (g_infos z)) (g_freed z).

Lemma iheader_key z log pc s g h i lo : memory z log pc s -> iheader_ok (g_low z) (g_ids z) g h -> (g_low z <= lo)%nat ->
  length (g_ids z) = length (g_blocks z) -> hhi g = length (g_blocks z) -> hpub g = length (g_blocks z) ->
  index_tail h = slot_at g (Z.of_nat (length (g_blocks z)) - 1) ->
  index_slots h !! Z.to_nat (slot_in g (length (g_blocks z))) = Some i ->
  iheader_ok lo (g_ids z ++ [i]) (with_hhi (length (g_blocks z) + 1) g) h.
Proof.
  intros Hm [H1 H2 H3 H4 H5] Hlo EN Eh Ep Et Hi. split; simpl; try done.
  - rewrite length_app. simpl. lia.
  - intros k j Hk Hj. change (slot_in (with_hhi _ g) k) with (slot_in g k). destruct (decide (k = length (g_blocks z))) as [->|Hne].
    + rewrite lookup_app_r, EN, Nat.sub_diag in Hj by lia. by injection Hj as <-.
    + rewrite lookup_app_l in Hj by lia. apply H4; [lia|done].
  - exists (Z.of_nat (length (g_blocks z)) - 1). split; [done|lia].
Qed.

Lemma imemory_key z log x cur s : memory z log (QKey x cur) s -> length (g_ids z) = length (g_blocks z) ->
  exists slot s' i lo g, new_tail s = Some slot /\ on_index_entry (implicit_index s) slot (set_block_key cur) s = Some s' /\
    g_infos z !! implicit_index s = Some g /\ (hhi g <= length (g_blocks z) + 1)%nat /\
    memory (with_id z i lo (implicit_index s) g) log (QTailSlot x cur) s' /\ implicit_base s' = implicit_base s.
Proof.
  intros Hm EN. destruct (im_phase _ _ _ _ _ _ _ _ Hm) as (Hat & Hi & _).
  destruct (current_index _ _ _ _ Hm Hi) as (g & h & i & e & Hg & Hh & Hok & C1 & C2 & C3 & Hid & He & _).
  pose proof (im_current _ _ _ _ _ _ _ _ Hm) as Hc. unfold current_ok in Hc. rewrite decide_False in Hc by done.
  destruct Hc as (g' & h' & Hg' & Hh' & _ & _ & _ & C4 & C5 & C6 & C7 & C8). rewrite Hg in Hg'. injection Hg' as <-. rewrite Hh in Hh'. injection Hh' as <-.
  assert (Hsi : index_slots h !! Z.to_nat (slot_in g (length (g_blocks z))) = Some i) by (unfold entry_id in Hid; by rewrite Hh in Hid).
  pose proof (hsize_pos g (proj2 (ih_size _ _ _ _ Hok))) as Hp. simpl in C3. rewrite Z.add_0_r in C3.
  destruct (next_low _ _ _ _ _ _ Hm EN Hg Hp C7) as (lo & Hlo & Hd & Hcl & Hmax).
  exists (slot_in g (length (g_blocks z))). eexists _, i, lo, g. split; [eapply new_tail_eq; [done|done|done|done|simpl; by rewrite Z.add_0_r]|].
  split; [unfold on_index_entry; rewrite Hid; cbn [mbind option_bind]; rewrite He; reflexivity|]. split; [done|]. split; [lia|]. split; [|done].
  assert (Hfree : forall k j, (lo <= k)%nat -> g_ids z !! k = Some j -> j <> i).
  { intros k j Hk Hj. pose proof (lookup_lt_Some _ _ _ Hj). apply (next_entry_free _ _ _ _ _ g h i k j Hm); try done; lia. }
  pose proof (iheader_key _ _ _ _ _ _ i lo Hm Hok ltac:(lia) EN ltac:(lia) C2 C3 Hsi) as Hnew.
  destruct Hm as [H1 [H2 H2'] H3 H4 H5 H6 H7 H8 H9 H10 H11 H12 _ _]. split; try done; simpl.
  - rewrite length_app. split; [simpl; lia|done].
  - rewrite length_app. simpl. split; [lia|]. rewrite drop_app_le by lia. apply NoDup_app. split.
    + replace lo with (g_low z + (lo - g_low z))%nat by lia. rewrite <- drop_drop. eapply sublist_NoDup; [exact H2'|apply sublist_drop].
    + split; [|apply NoDup_singleton]. intros j Hj ->%list_elem_of_singleton. apply list_elem_of_lookup in Hj as [k Hk].
      rewrite lookup_drop in Hk. refine (Hfree (lo + k)%nat i _ Hk eq_refl). lia.
  - intros k j Hk Hj. destruct (decide (k = length (g_blocks z))) as [->|Hne].
    + rewrite lookup_app_r, EN, Nat.sub_diag in Hj by lia. injection Hj as <-.
      rewrite list_lookup_insert_eq by (by eapply lookup_lt_Some). eexists. split; [done|]. split; [by destruct Hat as [-> ->]|].
      intros p Hq. apply lookup_lt_Some in Hq. lia.
    + assert (Hkl : (k < length (g_ids z))%nat) by (apply lookup_lt_Some in Hj; rewrite length_app in Hj; simpl in Hj; lia).
      rewrite lookup_app_l in Hj by done. rewrite list_lookup_insert_ne by (intros <-; by eapply Hfree). apply H3; [lia|done].
  - rewrite <- (insert_id (index_headers s) (implicit_index s) h) by done. eapply headers_change; [exact H12| |exact Hnew].
    intros g' h'. apply iheader_mono. lia.
  - unfold current_ok. simpl. rewrite decide_False by done. eexists _, h. split; [apply lookup_insert_eq|]. split; [done|]. simpl.
    rewrite length_app, EN, Z.add_0_r. simpl length. split_and!; try done; try lia.
    + intros j Hj. rewrite length_insert. by apply C6.
    + intros k Hk. destruct (C8 k ltac:(lia)) as (j & e' & Hj & He' & Ek). exists j, e'. split; [done|]. split; [|done].
      rewrite list_lookup_insert_ne; [done|]. intros ->. pose proof (NoDup_lookup _ _ _ _ C5 Hsi Hj) as E.
      pose proof (slot_bound g k (proj2 (ih_size _ _ _ _ Hok))). pose proof (slot_bound g (length (g_blocks z)) (proj2 (ih_size _ _ _ _ Hok))).
      apply (slot_ne g (length (g_blocks z)) k); lia.
  - rewrite length_app. simpl. by rewrite EN.
Qed.
(** *** The tail of the block index *)

Lemma imemory_move z log pc pc' f s : memory z log pc s -> implicit_index s <> 0 -> length (g_ids z) = (length (g_blocks z) + 1)%nat ->
  0 <= tail_lag pc' <= 1 -> private pc' = private pc -> (pending_entry pc' = false -> pending_entry pc = false) ->
  (match pc' with QTail _ _ => 1 | _ => 0 end) = (match pc with QTail _ _ => 1 | _ => 0 end) ->
  (forall g, (exists j, 0 <= j <= 62 /\ hsize g = 2 ^ j) ->
     f (slot_at g (Z.of_nat (length (g_blocks z)) - 1 + tail_lag pc)) (hsize g) = slot_at g (Z.of_nat (length (g_blocks z)) - 1 + tail_lag pc')) ->
  (forall m, iphase_ok T z cleared pc' (set_index_headers m s)) ->
  exists s', move_tail f s = Some s' /\ memory z log pc' s' /\ implicit_base s' = implicit_base s.
Proof.
  intros Hm Hi EN Hl Ep En El Hf Hph. destruct (current_index _ _ _ _ Hm Hi) as (g & h & _ & _ & Hg & Hh & Hok & C1 & C2 & C3 & _).
  unfold move_tail. rewrite Hh. cbn [mbind option_bind]. eexists. split; [reflexivity|]. split; [|done].
  destruct (ih_size _ _ _ _ Hok) as [Ec Hj]. rewrite Ec, C3, (Hf g Hj).
  assert (Hnew : iheader_ok (g_low z) (g_ids z) g (set_index_tail (slot_at g (Z.of_nat (length (g_blocks z)) - 1 + tail_lag pc')) h)).
  { destruct Hok as [O1 O2 O3 O4 O5]. split; try done. simpl. eexists. split; [reflexivity|]. lia. }
  destruct Hm as [H1 H2 H3 H4 H5 H6 H7 H8 H9 H10 H11 H12 H13 _]. split; try done; simpl.
  - intros E. by apply H4, En.
  - by rewrite Ep.
  - by rewrite El.
  - rewrite <- (insert_id (g_infos z) (implicit_index s) g) by done. eapply headers_change; [exact H12|done|exact Hnew].
  - unfold current_ok in *. simpl. rewrite decide_False in * by done. destruct H13 as (g' & h' & Hg' & Hh' & H13).
    rewrite Hg in Hg'. injection Hg' as <-. rewrite Hh in Hh'. injection Hh' as <-. destruct H13 as (_ & _ & _ & C4 & C5 & C6 & C7 & C8).
    exists g. eexists. split; [done|]. split; [apply lookup_insert_eq|]. by split_and!.
Qed.

Lemma imemory_tail_slot z log x cur s : memory z log (QTailSlot x cur) s ->
  exists s', move_tail next_slot s = Some s' /\ memory z log (QBlock x cur) s' /\ implicit_base s' = implicit_base s.
Proof.
  intros Hm. destruct (im_phase _ _ _ _ _ _ _ _ Hm) as (Hat & Hi & EN). apply (imemory_move z log (QTailSlot x cur)); try done.
  intros g Hj. rewrite next_slot_at by done. simpl. f_equal. lia.
Qed.

Lemma imemory_rewind z log s : memory z log QRewind s ->
  exists h s', index_headers s !! implicit_index s = Some h /\ move_tail prev_slot s = Some s' /\
    memory z log (QNull (index_tail h)) s' /\ implicit_base s' = implicit_base s.
Proof.
  intros Hm. destruct (im_phase _ _ _ _ _ _ _ _ Hm) as (Hat & Hi & EN).
  destruct (current_index _ _ _ _ Hm Hi) as (g & h & _ & _ & Hg & Hh & Hok & C1 & C2 & C3 & _). exists h.
  destruct (imemory_move z log QRewind (QNull (index_tail h)) prev_slot s) as (s' & E & Hm' & Eb); try done.
  - intros g' Hj. rewrite prev_slot_at by done. simpl. f_equal. lia.
  - intros m. simpl. split; [done|]. split; [done|]. split; [done|]. exists g. split; [done|]. rewrite C3. simpl.
    change (slot_in g (length (g_blocks z))) with (slot_at g (Z.of_nat (length (g_blocks z)))). f_equal. lia.
  - exists s'. by split_and!.
Qed.

(** *** The pointer of the entry *)

Lemma ids_distinct z log pc s k k' i : memory z log pc s -> (g_low z <= k)%nat -> (g_low z <= k')%nat ->
  g_ids z !! k = Some i -> g_ids z !! k' = Some i -> k = k'.
Proof.
  intros Hm Hk Hk' E E'. destruct (im_ids _ _ _ _ _ _ _ _ Hm) as [_ Hd].
  assert (Ek : (k - g_low z)%nat = (k' - g_low z)%nat); [|lia].
  eapply (NoDup_lookup _ _ _ _ Hd); rewrite lookup_drop; [by replace (g_low z + (k - g_low z))%nat with k by lia|].
  by replace (g_low z + (k' - g_low z))%nat with k' by lia.
Qed.

(** A new value in an entry keeps the block index as it is. *)
Lemma current_value z pc pc' s i e v : current_ok z pc s -> index_entries s !! i = Some e -> tail_lag pc' = tail_lag pc ->
  current_ok z pc' (set_index_entries (<[i:=set_block_value v e]> (index_entries s)) s).
Proof.
  unfold current_ok. intros Hc He Et. simpl. rewrite Et. destruct (decide _); [done|].
  destruct Hc as (g & h & Hg & Hh & C1 & C2 & C3 & C4 & C5 & C6 & C7 & C8). exists g, h. split_and!; try done.
  - intros j Hj. rewrite length_insert. by apply C6.
  - intros k Hk. destruct (C8 k Hk) as (j & e' & Hj & He' & Ek). destruct (decide (j = i)) as [->|Hne].
    + rewrite He in He'. injection He' as <-. exists i, (set_block_value v e). split; [done|]. split; [|exact Ek].
      apply list_lookup_insert_eq. by eapply lookup_lt_Some.
    + exists j, e'. by rewrite list_lookup_insert_ne.
Qed.

Lemma imemory_null z log slot s : memory z log (QNull slot) s ->
  exists s', on_index_entry (implicit_index s) slot (set_block_value 0) s = Some s' /\ memory z log (QIdle false) s' /\
    implicit_base s' = implicit_base s.
Proof.
  intros Hm. destruct (im_phase _ _ _ _ _ _ _ _ Hm) as (Hat & Hi & EN & g' & Hg' & ->).
  destruct (current_index _ _ _ _ Hm Hi) as (g & h & i & e & Hg & Hh & Hok & C1 & C2 & C3 & Hid & He & HK). specialize (HK EN).
  rewrite Hg in Hg'. injection Hg' as <-.
  unfold on_index_entry. rewrite Hid. cbn [mbind option_bind]. rewrite He. cbn [mbind option_bind]. eexists. split; [reflexivity|]. split; [|done].
  pose proof (low_published _ _ _ _ Hm) as Hlow. pose proof (fun k i => ids_distinct _ _ _ _ (length (g_blocks z)) k i Hm) as Hd.
  pose proof block_size_bound. assert (Hil : (i < length (index_entries s))%nat) by (by eapply lookup_lt_Some).
  destruct Hm as [H1 H2 H3 H4 H5 H6 H7 H8 H9 H10 H11 H12 H13 _]. split; try done; simpl.
  - intros k j Hk Hj. destruct (H3 k j Hk Hj) as (e' & He' & Hok'). destruct (decide (j = i)) as [->|Hne].
    + rewrite He in He'. injection He' as <-. rewrite list_lookup_insert_eq by done. eexists. split; [done|].
      destruct Hok' as [Ek _]. split; [done|]. intros p Hp. apply lookup_lt_Some in Hp.
      pose proof (Hd k i Hlow Hk HK Hj). lia.
    + exists e'. by rewrite list_lookup_insert_ne.
  - intros _ j Hj. rewrite HK in Hj. injection Hj as <-. rewrite list_lookup_insert_eq by done. by eexists.
  - by eapply current_value.
  - lia.
Qed.
(** *** A new block *)

Lemma imemory_requisition z log x cur s p b : memory z log (QBlock x cur) s -> p <> 0 -> owned_blocks s !! p = None ->
  elements b = replicate (Z.to_nat BLOCK_SIZE) None ->
  memory z log (QReset x cur p) (set_owned (<[p:=b]> (owned_blocks s)) s).
Proof.
  intros [H1 H2 H3 H4 H5 H6 H7 H8 H9 H10 H11 H12 H13 (Hat & Hi & EN)] Hp Hfree He.
  assert (Hn : forall k, g_blocks z !! k = Some p -> k ∈ g_freed z).
  { intros k Hk. destruct (decide (k ∈ g_freed z)) as [|Hnf]; [done|]. destruct (H5 k p Hk Hnf) as (_ & c & Hc & _). by rewrite Hfree in Hc. }
  split; try done; simpl.
  - intros k q Hk Hf. destruct (H5 k q Hk Hf) as (Hq & c & Hc & Hok). split; [done|]. exists c. split; [|done].
    rewrite lookup_insert_ne; [done|]. intros <-. by apply Hf, Hn.
  - intros q Hq. destruct (decide (q = p)) as [->|Hne]; [by right|]. rewrite lookup_insert_ne in Hq by done.
    destruct (H7 q Hq) as [|E]; [by left|done].
  - split_and!; try done. eexists. by rewrite lookup_insert_eq.
Qed.

(** The block that [enqueue] has got changes. *)
Lemma owned_private z log pc s p b b' : memory z log pc s -> private pc = Some p -> owned_blocks s !! p = Some b ->
  (forall k, g_blocks z !! k = Some p -> k ∈ g_freed z) ->
  (forall k q, g_blocks z !! k = Some q -> k ∉ g_freed z -> q <> 0 /\
     exists b, <[p:=b']> (owned_blocks s) !! q = Some b /\ iblock_ok fin gone log k b) /\
  (forall q, is_Some (<[p:=b']> (owned_blocks s) !! q) -> (exists k, g_blocks z !! k = Some q /\ k ∉ g_freed z) \/ Some p = Some q).
Proof.
  intros Hm Ep Hb Hn. split.
  - intros k q Hk Hf. destruct (im_blocks _ _ _ _ _ _ _ _ Hm k q Hk Hf) as (Hq & c & Hc & Hok). split; [done|]. exists c.
    split; [|done]. rewrite lookup_insert_ne; [done|]. intros <-. by apply Hf, Hn.
  - intros q Hq. destruct (decide (q = p)) as [->|Hne]; [by right|]. rewrite lookup_insert_ne in Hq by done. left.
    destruct (im_owned _ _ _ _ _ _ _ _ Hm q Hq) as [|E]; [done|]. congruence.
Qed.

Lemma imemory_reset z log x cur s p : memory z log (QReset x cur p) s ->
  exists s', on_owned p (reset_empty implicit_context) s = Some s' /\ memory z log (QEntry x cur p) s' /\ implicit_base s' = implicit_base s.
Proof.
  intros Hm. destruct (im_phase _ _ _ _ _ _ _ _ Hm) as (Hat & Hi & EN & Hp & Hn & b & Hb & He).
  unfold on_owned. rewrite Hb. cbn [mbind option_bind]. eexists. split; [reflexivity|]. split; [|done].
  destruct (owned_private _ _ _ _ p b (reset_empty implicit_context b) Hm eq_refl Hb Hn) as [Hbl Hown].
  destruct Hm as [H1 H2 H3 H4 H5 H6 H7 H8 H9 H10 H11 H12 H13 _]. split; try done.
  simpl. split_and!; try done. eexists. rewrite lookup_insert_eq. by split_and!.
Qed.

(** *** The block is published *)

Lemma prefix_block (bs : list Z) p k q : (bs ++ [p]) !! k = Some q -> bs !! k = Some q \/ k = length bs /\ q = p.
Proof.
  intros E. destruct (Nat.lt_ge_cases k (length bs)) as [Hlt|Hge]; [left; by rewrite lookup_app_l in E|right].
  assert (k = length bs) as -> by (apply lookup_lt_Some in E; rewrite length_app in E; simpl in E; lia).
  rewrite list_lookup_middle in E by done. by injection E as <-.
Qed.

Lemma fin_in_none k : (forall i, i ∈ fin -> 0 <= i < first_of k) -> fin_in fin k = 0.
Proof.
  unfold fin_in. induction fin as [|i l IH]; intros Hl; [done|]. rewrite filter_cons_False; [apply IH; set_solver|].
  intros E. pose proof (block_of_below i k (Hl i ltac:(set_solver))). lia.
Qed.

(** A block for elements that are not enqueued yet. *)
Lemma fresh_block z log pc s b : memory z log pc s -> zlen log = T -> T = first_of (length (g_blocks z)) ->
  elements b = replicate (Z.to_nat BLOCK_SIZE) None -> elementsCompletelyDequeued b = 0 -> iblock_ok fin gone log (length (g_blocks z)) b.
Proof.
  intros Hm HT Hk He Hc. destruct (im_fin _ _ _ _ _ _ _ _ Hm) as (Hnd & Hfg & Hg). split.
  - rewrite He. apply length_replicate.
  - intros o Ho. rewrite He, lookup_replicate_2 by lia. f_equal. unfold cell. rewrite decide_False by (intros Hin; apply Hg in Hin; lia).
    symmetry. apply lookup_ge_None_2. unfold zlen in HT. lia.
  - rewrite Hc. symmetry. apply fin_in_none. intros i Hi. rewrite <- Hk. by eapply fin_below.
Qed.

Definition with_block z (p q : Z) g : Ghost :=
  MkGhost (g_blocks z ++ [p]) (g_ids z) (g_low z) (<[q:=with_hpub (length (g_blocks z) + 1) g]> (g_infos z)) (g_freed z).

(** What the new block is among those published. *)
Lemma publish_blocks z log pc s p b : memory z log pc s -> private pc = Some p -> owned_blocks s !! p = Some b -> p <> 0 ->
  (forall k, g_blocks z !! k = Some p -> k ∈ g_freed z) -> iblock_ok fin gone log (length (g_blocks z)) b ->
  (forall k q, (g_blocks z ++ [p]) !! k = Some q -> k ∉ g_freed z -> q <> 0 /\
     exists b, owned_blocks s !! q = Some b /\ iblock_ok fin gone log k b) /\
  (forall k k' q, (g_blocks z ++ [p]) !! k = Some q -> (g_blocks z ++ [p]) !! k' = Some q -> k ∉ g_freed z -> k' ∉ g_freed z -> k = k') /\
  (forall q, is_Some (owned_blocks s !! q) -> exists k, (g_blocks z ++ [p]) !! k = Some q /\ k ∉ g_freed z).
Proof.
  intros Hm Ep Hb Hp Hn Hok. split_and!.
  - intros k q [Hk|[-> ->]]%prefix_block Hf; [by apply (im_blocks _ _ _ _ _ _ _ _ Hm)|]. split; [done|]. by exists b.
  - intros k k' q [Hk|[-> ->]]%prefix_block [Hk'|[-> E]]%prefix_block Hf Hf'.
    + by apply (im_unique _ _ _ _ _ _ _ _ Hm k k' q).
    + subst q. by destruct Hf; apply Hn.
    + by destruct Hf'; apply Hn.
    + done.
  - intros q Hq. destruct (im_owned _ _ _ _ _ _ _ _ Hm q Hq) as [(k & Hk & Hf)|E].
    + exists k. split; [by apply lookup_app_l_Some|done].
    + rewrite Ep in E. injection E as <-. exists (length (g_blocks z)). split; [by apply list_lookup_middle|].
      intros Hf. apply (im_cleared _ _ _ _ _ _ _ _ Hm) in Hf. apply (cleared_published _ _ _ _ _ Hm) in Hf. lia.
Qed.

Lemma imemory_entry z log x cur s p : memory z log (QEntry x cur p) s ->
  exists h s' g, index_headers s !! implicit_index s = Some h /\
    on_index_entry (implicit_index s) (index_tail h) (set_block_value p) s = Some s' /\ g_infos z !! implicit_index s = Some g /\
    (hpub g <= length (g_blocks z) + 1)%nat /\
    memory (with_block z p (implicit_index s) g) log (QConstruct x cur) (on_implicit_base (set_tailBlock p) s') /\
    implicit_base s' = implicit_base s.
Proof.
  intros Hm. destruct (im_phase _ _ _ _ _ _ _ _ Hm) as ((-> & HT) & Hi & EN & Hp & Hn & b & Hb & He0 & Hc0).
  destruct (current_index _ _ _ _ Hm Hi) as (g & h & i & e & Hg & Hh & Hok & C1 & C2 & C3 & Hid & He & HK). specialize (HK EN).
  assert (Et : index_tail h = slot_in g (length (g_blocks z))).
  { rewrite C3. simpl. change (slot_in g (length (g_blocks z))) with (slot_at g (Z.of_nat (length (g_blocks z)))). f_equal. lia. }
  exists h. unfold on_index_entry. rewrite Et, Hid. cbn [mbind option_bind]. rewrite He. cbn [mbind option_bind].
  eexists _, g. split; [done|]. split; [reflexivity|]. split; [done|]. split; [lia|]. split; [|done].
  pose proof (low_published _ _ _ _ Hm) as Hlow. pose proof (fun k i => ids_distinct _ _ _ _ (length (g_blocks z)) k i Hm) as Hd.
  pose proof (fun k => cleared_published _ _ _ _ k Hm) as Hcp. assert (Hil : (i < length (index_entries s))%nat) by (by eapply lookup_lt_Some).
  destruct (im_entries _ _ _ _ _ _ _ _ Hm (length (g_blocks z)) i ltac:(lia) HK) as (e' & He' & Ek & _). rewrite He in He'. injection He' as <-.
  pose proof (im_log _ _ _ _ _ _ _ _ Hm) as [HT0 Hlog]. rewrite Z.add_0_r in Hlog.
  destruct (publish_blocks _ _ _ _ p b Hm eq_refl Hb Hp Hn) as (P1 & P2 & P3); [by eapply fresh_block|].
  destruct Hm as [H1 H2 H3 H4 H5 H6 H7 H8 H9 H10 H11 H12 H13 _]. split; try done; simpl.
  - rewrite length_app. simpl. split; [left; lia|by destruct H2].
  - intros k j Hk Hj. destruct (decide (k = length (g_blocks z))) as [->|Hne].
    + rewrite HK in Hj. injection Hj as <-. rewrite list_lookup_insert_eq by done. eexists. split; [done|]. split; [done|].
      intros q Hq. rewrite list_lookup_middle in Hq by done. injection Hq as <-. rewrite decide_False; [done|]. intros Hc. apply Hcp in Hc. lia.
    + rewrite list_lookup_insert_ne by (intros <-; apply Hne; symmetry; by eapply Hd). destruct (H3 k j Hk Hj) as (e' & He' & Ek' & Ev').
      exists e'. split; [done|]. split; [done|]. intros q [Hq|[? _]]%prefix_block; [by apply Ev'|done].
  - intros _ j Hj. apply lookup_lt_Some in Hj. rewrite length_app in Hj. simpl in Hj. lia.
  - intros q Hq. left. by apply P3.
  - by rewrite last_snoc.
  - rewrite <- (insert_id (index_headers s) (implicit_index s) h) by done. eapply headers_change; [exact H12|done|].
    destruct Hok as [O1 O2 O3 O4 O5]. split; simpl; try done; [lia|]. exists (Z.of_nat (length (g_blocks z))). split; [exact Et|lia].
  - apply (current_value z _ (QBlock x T) s i e p) in H13; [|done|done]. unfold current_ok in *. simpl in *. rewrite decide_False in * by done.
    destruct H13 as (g' & h' & Hg' & Hh' & D1 & D2 & D3 & D4 & D5 & D6 & D7 & D8). rewrite Hg in Hg'. injection Hg' as <-.
    eexists _, h'. split; [apply lookup_insert_eq|]. split; [done|]. simpl. rewrite length_app. simpl. split_and!; try done; try lia.
    rewrite D3. unfold slot_at. simpl. f_equal. lia.
  - unfold in_last. rewrite length_app. simpl. rewrite first_of_S. pose proof block_size_bound. lia.
Qed.
(** *** The element *)

(** The block of the tail, which is not full. *)
Lemma last_open z log pc s : memory z log pc s -> in_last T (g_blocks z) T -> exists p b k,
  length (g_blocks z) = (k + 1)%nat /\ g_blocks z !! k = Some p /\ k ∉ g_freed z /\ tailBlock (implicit_base s) = p /\
  owned_blocks s !! p = Some b /\ iblock_ok fin gone log k b /\ first_of k <= T < first_of k + BLOCK_SIZE.
Proof.
  intros Hm [_ Hin]. pose proof (im_log _ _ _ _ _ _ _ _ Hm) as [H0 _]. destruct (last (g_blocks z)) as [p|] eqn:El.
  2: { apply last_None in El. rewrite El in Hin. unfold first_of in Hin. simpl in Hin. lia. }
  pose proof (last_block _ _ El) as Hk. assert (Hlen : (0 < length (g_blocks z))%nat) by (apply lookup_lt_Some in Hk; lia).
  rewrite (first_of_pred (length (g_blocks z))) in Hin by done. set (k := (length (g_blocks z) - 1)%nat) in *.
  assert (Hf : k ∉ g_freed z).
  { intros Hf. destruct (im_cleared _ _ _ _ _ _ _ _ Hm) as [Hc Hfull]. apply Hc in Hf. apply Hfull in Hf.
    assert (HT : T ∈ fin) by (apply Hf; rewrite first_of_S; lia). apply (fin_below _ _ _ _ _ Hm) in HT. lia. }
  destruct (im_blocks _ _ _ _ _ _ _ _ Hm k p Hk Hf) as (_ & b & Hb & Hok). exists p, b, k.
  split_and!; try done; [lia| |lia|lia]. rewrite (im_tail _ _ _ _ _ _ _ _ Hm), El. done.
Qed.

(** Only the element that is constructed changes. *)
Lemma block_construct log x k b : zlen log = T -> (forall i, i ∈ gone -> 0 <= i < T) ->
  iblock_ok fin gone log k b -> first_of k <= T < first_of k + BLOCK_SIZE ->
  iblock_ok fin gone (log ++ [x]) k (set_element T (Some x) b).
Proof.
  intros Hlog Hg [B1 B2 B3] Hk. destruct (block_of_unique T k Hk) as [_ Eo]. unfold zlen in Hlog. split; [unfold set_element; simpl; by rewrite length_insert| |done].
  intros o Ho. unfold set_element. simpl. unfold cell. destruct (decide (o = in_block T)) as [->|Hne].
  - rewrite list_lookup_insert_eq by lia. rewrite Eo. replace (first_of k + (T - first_of k)) with T by lia.
    rewrite decide_False by (intros Hin; apply Hg in Hin; lia). replace (Z.to_nat T) with (length log) by lia. by rewrite list_lookup_middle.
  - rewrite list_lookup_insert_ne by lia. rewrite B2 by done. f_equal. unfold cell. destruct (decide _); [done|].
    symmetry. pose proof (first_of_nonneg k). rewrite lookup_snoc_ne by lia. done.
Qed.

Lemma block_elsewhere log x k b : zlen log = T -> iblock_ok fin gone log k b -> block_of T <> k -> iblock_ok fin gone (log ++ [x]) k b.
Proof.
  intros Hlog [B1 B2 B3] Hne. unfold zlen in Hlog. split; try done. intros o Ho. rewrite B2 by done. f_equal. unfold cell.
  destruct (decide _); [done|]. symmetry. pose proof (first_of_nonneg k). rewrite lookup_snoc_ne; [done|]. intros E.
  destruct (block_of_unique T k); [lia|done].
Qed.

Lemma imemory_construct z log x cur s : memory z log (QConstruct x cur) s ->
  exists b s', owned_blocks s !! tailBlock (implicit_base s) = Some b /\ element cur b = Some None /\
    on_owned (tailBlock (implicit_base s)) (set_element cur (Some x)) s = Some s' /\
    memory z (log ++ [x]) (QTail x cur) s' /\ implicit_base s' = implicit_base s.
Proof.
  intros Hm. pose proof (im_phase _ _ _ _ _ _ _ _ Hm) as [-> Hin].
  destruct (last_open _ _ _ _ Hm (conj eq_refl Hin)) as (p & b & k & EN & Hk & Hf & Ep & Hb & Hok & HTk).
  rewrite Ep. unfold on_owned. rewrite Hb. cbn [mbind option_bind]. exists b. eexists. split; [done|].
  destruct (block_of_unique T k HTk) as [Ek Eo]. pose proof (im_log _ _ _ _ _ _ _ _ Hm) as [H0 Hlog]. rewrite Z.add_0_r in Hlog.
  destruct Hm as [H1 H2 H3 H4 H5 H6 H7 H8 (H9 & H9' & H9'') H10 H11 H12 H13 _].
  split.
  { unfold element. destruct Hok as [B1 B2 B3]. rewrite B2 by apply in_block_bound. f_equal. unfold cell. rewrite Eo.
    replace (first_of k + (T - first_of k)) with T by lia. rewrite decide_False by (intros Hg; apply H9'' in Hg; lia).
    apply lookup_ge_None_2. unfold zlen in Hlog. lia. }
  split; [reflexivity|]. split; [|done]. split; try done; simpl.
  - intros k' q Hk' Hf'. destruct (H5 k' q Hk' Hf') as (Hq & c & Hc & Hok'). split; [done|]. destruct (decide (q = p)) as [->|Hne].
    + rewrite lookup_insert_eq. eexists. split; [done|]. assert (k' = k) as -> by (by eapply H6). by apply block_construct.
    + rewrite lookup_insert_ne by done. exists c. split; [done|]. apply block_elsewhere; [done|done|]. intros E. apply Hne. congruence.
  - intros q Hq. apply H7. destruct (decide (q = p)) as [->|Hne]; [by rewrite Hb|by rewrite lookup_insert_ne in Hq].
  - split; [done|]. rewrite zlen_app, zlen_cons, zlen_nil. lia.
Qed.

Lemma imemory_tail z log x cur s : memory z log (QTail x cur) s ->
  imemory_ok (T + 1) z fin gone cleared log (QIdle true) (on_implicit_base (set_tailIndex (u64 (1 + cur))) s).
Proof.
  intros [H1 H2 H3 H4 H5 H6 H7 H8 (H9 & H9' & H9'') H10 [H11 H11'] H12 H13 [-> Hin]]. split; try done.
  - split; [done|]. split; [done|]. intros i Hi. specialize (H9'' i Hi). lia.
  - lia.
  - simpl. lia.
Qed.

(** *** Where [enqueue] goes *)

Lemma imemory_start z log mode x s : memory z log (QStart mode x) s ->
  memory z log (if in_block T =? 0 then QHead mode x T else QConstruct x T) s.
Proof.
  intros Hm. pose proof (im_phase _ _ _ _ _ _ _ _ Hm) as Hp. simpl in Hp. pose proof block_size_bound as HB.
  pose proof (proj1 (im_log _ _ _ _ _ _ _ _ Hm)) as H0. destruct (Z.eqb_spec (in_block T) 0) as [E|E]; (eapply imemory_pc; [exact Hm|done..|]); simpl.
  - split; [done|]. pose proof (block_of_spec T H0) as Eb. rewrite E in Eb.
    destruct (Z.eq_dec T (first_of (length (g_blocks z)))) as [|Hne]; [done|].
    assert (Hlt : (block_of T < length (g_blocks z))%nat) by (apply first_of_lt; lia).
    assert (Hle : first_of (block_of T + 1) <= first_of (length (g_blocks z))) by (apply first_of_le; lia). rewrite first_of_S in Hle. lia.
  - split; [done|]. destruct (Z.eq_dec T (first_of (length (g_blocks z)))) as [HT|]; [|lia]. by rewrite (in_block_end _ _ HT) in E.
Qed.

Lemma imemory_head z log mode x cur s head : memory z log (QHead mode x cur) s -> 0 <= head <= T -> T < 2 ^ 62 ->
  circular_less_than cur head = false /\ memory z log (QIdle false) s /\ memory z log (QInsert mode x cur) s.
Proof.
  intros Hm Hh HT. destruct (im_phase _ _ _ _ _ _ _ _ Hm) as [-> HTe]. pose proof block_size_bound. split.
  { rewrite <- (u64_id T), <- (u64_id head), circular_less_than_spec by lia. apply Z.ltb_ge. lia. }
  split; (eapply imemory_pc; [exact Hm|done..|]); simpl; [lia|done].
Qed.

(** [enqueue] fails, at the end of the last block. *)
Lemma imemory_fail z log pc s : memory z log pc s -> pending_entry pc = false ->
  match pc with QInsert _ _ cur | QNew _ cur => at_end T (g_blocks z) cur | _ => False end -> memory z log (QIdle false) s.
Proof.
  intros Hm Hn Hp. pose proof block_size_bound. destruct pc; try done; (eapply imemory_pc; [exact Hm|done..|]); simpl; unfold at_end in Hp; lia.
Qed.
End Producer.
End Memory.

(** ** The steps of [enqueue] *)

Section Steps.
Context {traits : Traits} `{!TraitsLaws} {A : Type} (garbage : Z).
Abbreviation S := (ImplicitProducer A).

(** The elements that are constructed: one more than those published, at the
    end of [enqueue], which publishes it. *)
Definition iconstructed (pc : QPc (A := A)) (log : list A) : list A := match pc with QTail x _ => log ++ [x] | _ => log end.

(** What a step of the producer is to establish. *)
Definition iproduces z fin gone cleared (log : list A) pc (s : S) (r : option (QPc * S)) : Prop :=
  exists pc' s' z', r = Some (pc', s') /\
    imemory_ok (zlen (iconstructed pc log)) z' fin gone cleared (iconstructed pc' (iconstructed pc log)) pc' s' /\
    extends (g_blocks z) (g_infos z) (g_blocks z') (g_infos z') /\ g_freed z' = g_freed z /\
    tailIndex (implicit_base s') = zlen (iconstructed pc log) /\ headIndex (implicit_base s') = headIndex (implicit_base s) /\
    dequeueOptimisticCount (implicit_base s') = dequeueOptimisticCount (implicit_base s) /\
    dequeueOvercommit (implicit_base s') = dequeueOvercommit (implicit_base s).

Context (z : Ghost) (fin gone : list Z) (cleared : list nat) (log : list A) (c : Choice (A := A)) (s : S).
Context (small : zlen log < 2 ^ 62) (tail_eq : tailIndex (implicit_base s) = zlen log).
Context (head_eq : 0 <= headIndex (implicit_base s) <= zlen log) (c_ok : implicit_choice_ok c s).
Abbreviation memory pc := (imemory_ok (zlen log) z fin gone cleared (iconstructed pc log) pc s).
Abbreviation goal pc := (iproduces z fin gone cleared log pc s (implicit_producer_step garbage c pc s)).

(** A step that leaves what is known of the blocks and the indices. *)
Lemma iproduces_same pc pc' s' : match pc with QTail _ _ => False | _ => True end -> match pc' with QTail _ _ => False | _ => True end ->
  implicit_producer_step garbage c pc s = Some (pc', s') -> imemory_ok (zlen log) z fin gone cleared log pc' s' ->
  implicit_base s' = implicit_base s -> goal pc.
Proof.
  intros Hpc Hpc' E Hm Eb. exists pc', s', z. rewrite E, Eb. split; [done|].
  replace (iconstructed pc log) with log by (by destruct pc). replace (iconstructed pc' log) with log by (by destruct pc').
  split; [done|]. split; [apply extends_refl|done].
Qed.

Lemma iproduce_start mode x : memory (QStart mode x) -> goal (QStart mode x).
Proof.
  intros Hm. apply imemory_start in Hm. eapply iproduces_same; [done| |simpl; rewrite tail_eq; reflexivity|exact Hm|done].
  by destruct (_ =? _).
Qed.

Lemma iproduce_head mode x cur : memory (QHead mode x cur) -> goal (QHead mode x cur).
Proof.
  intros Hm. destruct (imemory_head _ _ _ _ _ _ _ _ _ _ _ Hm head_eq small) as (E & Hi & Hn).
  eapply iproduces_same; [done| |simpl; rewrite E; reflexivity| |done]; by destruct (no_leeway _ _).
Qed.

Lemma iproduce_insert mode x cur : memory (QInsert mode x cur) -> goal (QInsert mode x cur).
Proof.
  intros Hm. destruct (decide (implicit_index s = 0)) as [E0|Hi].
  - apply (iproduces_same _ (QIdle false) s); [done|done|simpl; by rewrite decide_True| |done].
    eapply imemory_fail; [exact Hm|done|]. exact (im_phase _ _ _ _ _ _ _ _ Hm).
  - destruct (imemory_insert _ _ _ _ _ _ _ _ _ _ Hm Hi) as (slot & e & E1 & E2 & Hm').
    eapply iproduces_same; [done| | |exact Hm'|done].
    + destruct (_ || _); [done|by destruct mode].
    + simpl. rewrite decide_False by done. rewrite E1. cbn [mbind option_bind]. by rewrite E2.
Qed.

Lemma iproduce_new x cur : memory (QNew x cur) -> goal (QNew x cur).
Proof.
  intros Hm. destruct (malloc c) as [p|] eqn:Em.
  - destruct c_ok as [Hc _]. destruct (Hc p Em) as [Hp Hfree].
    destruct (imemory_new _ _ _ _ garbage _ _ _ _ _ p Hm small Hp Hfree) as (s' & g & slot & e & E1 & E2 & E3 & E4 & Hm' & Eb).
    eexists (QKey x cur), s', _. split; [simpl; rewrite Em, E1; cbn [mbind option_bind]; rewrite E2; cbn [mbind option_bind]; rewrite E3; cbn [mbind option_bind]; by rewrite E4|].
    split; [exact Hm'|]. rewrite Eb. split; [|done]. apply extends_insert. intros g0 Hg0.
    destruct (im_headers _ _ _ _ _ _ _ _ Hm _ _ Hg0) as (h & Hh & _). by rewrite Hfree in Hh.
  - apply (iproduces_same _ (QIdle false) s); [done|done| |eapply imemory_fail; [exact Hm|done|by destruct (im_phase _ _ _ _ _ _ _ _ Hm)]|done].
    destruct (new_index_run _ _ _ _ garbage _ _ _ _ _ 0 Hm small) as (g & h & Hg & Hh & _ & E). simpl. rewrite Em.
    unfold implicit_new_block_index in *. destruct (im_phase _ _ _ _ _ _ _ _ Hm) as (_ & Hi & _). rewrite decide_False in * by done.
    rewrite Hh in *. cbn [mbind option_bind] in *. by destruct (copy_slots _ _ _ _ _).
Qed.

Lemma iproduce_key x cur : memory (QKey x cur) -> goal (QKey x cur).
Proof.
  intros Hm. destruct (im_ids _ _ _ _ _ _ _ _ Hm) as [[EN|EN] _].
  - destruct (imemory_key _ _ _ _ _ _ _ _ _ Hm EN) as (slot & s' & i & lo & g & E1 & E2 & Hg & Hle & Hm' & Eb).
    eexists (QTailSlot x cur), s', _. split; [simpl; rewrite E1; cbn [mbind option_bind]; by rewrite E2|]. split; [exact Hm'|].
    rewrite Eb. split; [|done]. apply extends_insert. intros g0 Hg0. rewrite Hg in Hg0. injection Hg0 as <-. simpl. lia.
  - destruct (imemory_rekey _ _ _ _ _ _ _ _ _ Hm EN) as (slot & s' & E1 & E2 & Hm' & Eb).
    apply (iproduces_same _ (QTailSlot x cur) s'); [done|done| |exact Hm'|done]. simpl. rewrite E1. cbn [mbind option_bind]. by rewrite E2.
Qed.

Lemma iproduce_block x cur : memory (QBlock x cur) -> goal (QBlock x cur).
Proof.
  intros Hm. destruct (requisition_block c) as [[p b]|] eqn:Er.
  - destruct c_ok as [_ Hc]. destruct (Hc p b Er) as (Hp & Hfree & He).
    eapply (iproduces_same _ (QReset x cur p)); [done|done|simpl; by rewrite Er|by eapply imemory_requisition|done].
  - apply (iproduces_same _ QRewind s); [done|done|simpl; by rewrite Er| |done].
    destruct (im_phase _ _ _ _ _ _ _ _ Hm) as ([_ HT] & Hi & EN). eapply imemory_pc; [exact Hm|done..|]. by split_and!.
Qed.

Lemma iproduce_entry x cur p : memory (QEntry x cur p) -> goal (QEntry x cur p).
Proof.
  intros Hm. destruct (imemory_entry _ _ _ _ _ _ _ _ _ _ Hm) as (h & s' & g & E1 & E2 & Hg & Hle & Hm' & Eb).
  eexists (QConstruct x cur), _, _. split; [simpl; rewrite E1; cbn [mbind option_bind]; rewrite E2; reflexivity|]. split; [exact Hm'|].
  simpl. rewrite Eb. split; [|done]. split; [by apply prefix_app_r|]. apply (extends_insert (g_blocks z)). intros g0 Hg0.
  rewrite Hg in Hg0. injection Hg0 as <-. simpl. lia.
Qed.

Lemma iproduce_construct x cur : memory (QConstruct x cur) -> goal (QConstruct x cur).
Proof.
  intros Hm. destruct (imemory_construct _ _ _ _ _ _ _ _ _ Hm) as (b & s' & E1 & E2 & E3 & Hm' & Eb).
  exists (QTail x cur), s', z. split; [simpl; rewrite E1; cbn [mbind option_bind]; rewrite E2; cbn [mbind option_bind]; by rewrite E3|].
  split; [exact Hm'|]. rewrite Eb. split; [apply extends_refl|done].
Qed.

Lemma iproduce_tail x cur : memory (QTail x cur) -> goal (QTail x cur).
Proof.
  intros Hm. pose proof (im_phase _ _ _ _ _ _ _ _ Hm) as [Ec _]. apply imemory_tail in Hm.
  assert (El : zlen (log ++ [x]) = zlen log + 1) by (rewrite zlen_app, zlen_cons, zlen_nil; lia).
  eexists (QIdle true), _, z. split; [reflexivity|]. simpl. rewrite El. split; [exact Hm|]. split; [apply extends_refl|]. split; [done|].
  split; [|done]. rewrite Ec, u64_id; [lia|]. pose proof (zlen_nonneg log). lia.
Qed.

(** Every step of the producer has a next state, and keeps the structure. *)
Lemma iproduce pc : implicit_idle pc = false -> memory pc -> goal pc.
Proof.
  intros Hi Hm. destruct pc as [| | | | | | | | |slot|x cur p| | |]; [done|..].
  - by apply iproduce_start.
  - by apply iproduce_head.
  - by apply iproduce_insert.
  - by apply iproduce_new.
  - by apply iproduce_key.
  - destruct (imemory_tail_slot _ _ _ _ _ _ _ _ _ Hm) as (s' & E & Hm' & Eb).
    eapply iproduces_same; [done| |simpl; rewrite E; reflexivity|exact Hm'|done]; done.
  - by apply iproduce_block.
  - destruct (imemory_rewind _ _ _ _ _ _ _ Hm) as (h & s' & E1 & E2 & Hm' & Eb).
    eapply iproduces_same; [done| |simpl; rewrite E1; cbn [mbind option_bind]; rewrite E2; reflexivity|exact Hm'|done]; done.
  - destruct (imemory_null _ _ _ _ _ _ _ _ Hm) as (s' & E & Hm' & Eb).
    eapply iproduces_same; [done| |simpl; rewrite E; reflexivity|exact Hm'|done]; done.
  - destruct (imemory_reset _ _ _ _ _ _ _ _ _ _ Hm) as (s' & E & Hm' & Eb).
    eapply iproduces_same; [done| |simpl; rewrite E; reflexivity|exact Hm'|done]; done.
  - by apply iproduce_entry.
  - by apply iproduce_construct.
  - by apply iproduce_tail.
Qed.
End Steps.
