(* ===== verification/ImplicitProducerQueue.v ===== *)
(** * The queue of an implicit producer is a queue

    The consumers, and what holds in every reachable state (ImplicitProducer.v). *)

From Stdlib Require Import Sorted.
From S2P Require Import Prelude Posix MoodyDetails MoodyBlock ExplicitProducer ExplicitProducerSpec ImplicitProducer ImplicitProducerSpec.

(** ** The claims *)

Section Claims.
Context {traits : Traits} `{laws : !TraitsLaws} {A : Type}.
Context (T H O V : Z) (cs : list CPc) (granted rejected fin : list Z) (log : list A) (taken : list (nat * Z * A)).
Context (bs : list Z) (G : gmap Z Info) (t : nat) (b : ProducerBase).
Context (Hcounts : counts_ok T H O V cs granted rejected) (Helements : elements_ok H log cs fin taken).
Context (small : T < 2 ^ 62 /\ O < 2 ^ 62).
Context (Hb : tailIndex b = T /\ headIndex b = H /\ dequeueOptimisticCount b = O /\ dequeueOvercommit b = V).

Lemma counts_small : 0 <= H <= T /\ 0 <= zlen rejected <= O.
Proof.
  split; [by eapply head_bound|]. split; [apply zlen_nonneg|].
  pose proof (co_claims _ _ _ _ _ _ _ Hcounts) as Hp. apply Permutation_length in Hp. rewrite !length_app, length_seqZ in Hp.
  destruct (co_nonneg _ _ _ _ _ _ _ Hcounts) as (_ & _ & HO & _). unfold zlen. lia.
Qed.

(** What a step on the counters is to establish. *)
Definition claims pc pc' b' : Prop :=
  O + claims_of pc < 2 ^ 62 -> exists granted' rejected' H' V',
    counts_ok T H' (O + claims_of pc) V' (<[t:=pc']> cs) granted' rejected' /\ elements_ok H' log (<[t:=pc']> cs) fin taken /\
    H <= H' /\ local_ok H' bs G pc' /\ destroyed pc = [] /\ destroyed pc' = [] /\
    tailIndex b' = T /\ headIndex b' = H' /\ dequeueOptimisticCount b' = O + claims_of pc /\ dequeueOvercommit b' = V' /\
    tailBlock b' = tailBlock b.

(** A step that takes no element. *)
Lemma claims_counts pc pc' b' V' granted' rejected' : cs !! t = Some pc ->
  holds pc = [] -> moved pc = [] -> destroyed pc = [] -> holds pc' = [] -> moved pc' = [] -> destroyed pc' = [] ->
  frontier H pc = H -> frontier H pc' = H -> local_ok H bs G pc' ->
  counts_ok T H (O + claims_of pc) V' (<[t:=pc']> cs) granted' rejected' ->
  tailIndex b' = T -> headIndex b' = H -> dequeueOptimisticCount b' = O + claims_of pc -> dequeueOvercommit b' = V' -> tailBlock b' = tailBlock b ->
  claims pc pc' b'.
Proof.
  intros Ht Eh Em Ed Eh' Em' Ed' Ef Ef' Hl Hc E1 E2 E3 E4 E5 _. exists granted', rejected', H, V'. split_and!; try done.
  eapply elements_move; [exact Helements|exact Ht|done| | |apply counts_small|lia].
  - by rewrite Eh, Eh', Z.sub_diag.
  - by rewrite Em, Em'.
Qed.

(** A step that changes no counter. *)
Lemma claims_move pc pc' : cs !! t = Some pc -> claims_of pc = 0 ->
  claimed_at pc' = claimed_at pc -> pending pc' = pending pc -> excess_of pc' = excess_of pc -> over_ok rejected pc' ->
  holds pc = [] -> moved pc = [] -> destroyed pc = [] -> holds pc' = [] -> moved pc' = [] -> destroyed pc' = [] ->
  frontier H pc = H -> frontier H pc' = H -> local_ok H bs G pc' -> claims pc pc' b.
Proof.
  intros Ht Ec E1 E2 E3 Ho Eh Em Ed Eh' Em' Ed' Ef Ef' Hl. destruct Hb as (B1 & B2 & B3 & B4).
  eapply claims_counts; try done; [|lia]. rewrite Ec, Z.add_0_r. by eapply counts_move.
Qed.

Lemma claims_optimistic op tail over : cs !! t = Some (COptimistic op tail over) -> op_ok op = true ->
  let desired := desired_count op tail over O in
  claims (COptimistic op tail over) (if desired =? 0 then CIdle else CClaim op over desired) b.
Proof.
  intros Ht Hop desired. destruct (desired_nonneg op tail over O Hop) as [Hd Hs]. fold desired in Hd, Hs.
  pose proof (co_over _ _ _ _ _ _ _ Hcounts _ _ Ht) as Hov. simpl in Hov.
  apply claims_move; try done; destruct (Z.eqb_spec desired 0); simpl; try done.
  split; [done|]. split; [lia|]. intros E. specialize (Hs E). lia.
Qed.

Lemma claims_recheck op over desired mine : cs !! t = Some (CRecheck op over desired mine) ->
  let actual := actual_count op T over desired mine in
  claims (CRecheck op over desired mine) (if actual <? desired then CGiveBack op (desired - actual) actual else CTake op actual) b.
Proof.
  intros Ht actual. destruct Hb as (B1 & B2 & B3 & B4). pose proof (co_over _ _ _ _ _ _ _ Hcounts _ _ Ht) as (Hov & Hd & Hm & Hop).
  pose proof counts_small as [HH Hr]. assert (Hrm : rej_below mine rejected <= zlen rejected).
  { unfold rej_below, zlen. apply inj_le, submseteq_length, sublist_submseteq, sublist_filter. }
  assert (Hmine : mine < O).
  { assert (Hin : mine ∈ seqZ 0 O).
    { rewrite <- (co_claims _ _ _ _ _ _ _ Hcounts). apply elem_of_app. right. apply elem_of_app. right.
      eapply held_elem; [exact Ht|]. simpl. apply elem_of_seqZ. lia. }
    apply elem_of_seqZ in Hin. lia. }
  destruct (actual_bound op T over desired mine) as [Ha Hab]; [lia..|done|]. fold actual in Ha, Hab.
  destruct (counts_decide _ _ _ _ _ _ _ _ _ _ _ _ _ _ Hcounts Ht Ha Hab eq_refl) as (granted' & rejected' & Hc' & _).
  eapply claims_counts; try done; try (by destruct (actual <? desired)); simpl; rewrite ?Z.add_0_r; [exact Hc'|done].
Qed.

(** Every step on the counters keeps what they count. *)
Lemma claim_step_ok pc pc' b' : cs !! t = Some pc -> local_ok H bs G pc -> claim_step pc b = Some (pc', b') -> claims pc pc' b'.
Proof.
  intros Ht Hl E. pose proof Hb as (B1 & B2 & B3 & B4). pose proof counts_small as [HH Hr]. pose proof (co_over _ _ _ _ _ _ _ Hcounts _ _ Ht) as Hov.
  pose proof (co_nonneg _ _ _ _ _ _ _ Hcounts) as (_ & HV & HO & _).
  destruct pc as [|op|op tail|op tail over|op over desired|op over desired mine|op excess n|op n| | | | | | |]; simpl in E; try done; injection E as <- <-;
    rewrite ?B1, ?B2, ?B3, ?B4.
  - by apply claims_move.
  - apply claims_move; try done. simpl. pose proof (co_rejected _ _ _ _ _ _ _ Hcounts). lia.
  - by apply claims_optimistic.
  - destruct Hov as (_ & Hd & _). intros Hlim. eapply claims_counts; try done; simpl; [by apply counts_claim|]. simpl in Hlim. apply u64_id. lia.
  - by apply claims_recheck.
  - pose proof (counts_give_back _ _ _ _ _ _ _ _ _ _ _ _ Hcounts Ht eq_refl) as Hc. destruct Hov as (Hex & _).
    pose proof (sum_list_with_lookup excess_of _ _ _ Ht) as Hx. simpl in Hx. pose proof (co_rejected _ _ _ _ _ _ _ Hcounts).
    rewrite u64_id by lia. eapply claims_counts; try done; try (by destruct (n =? 0)); simpl; rewrite ?Z.add_0_r; [exact Hc|done].
  - destruct Hov as (Hn & Hop). pose proof (counts_take _ _ _ _ _ _ _ _ H _ _ Hcounts Ht) as Hc'. pose proof (head_bound _ _ _ _ _ _ _ Hc') as Hbd.
    intros Hlim. exists granted, rejected, (H + n), V. simpl. rewrite Z.add_0_r. split; [done|].
    split; [|unfold range_ok; rewrite u64_id by lia; split_and!; try done; lia].
    eapply elements_move; [exact Helements|exact Ht|lia| |done|lia|simpl; lia]. simpl. by replace (H + n - H) with n by lia.
Qed.
End Claims.

(** ** What the consumers do to memory *)

Section Memory.
Context {traits : Traits} `{laws : !TraitsLaws} {A : Type}.
Implicit Types (z : Ghost) (k : nat) (fin gone : list Z) (cleared : list nat) (log : list A) (pc : QPc (A := A)) (s : ImplicitProducer A).

Lemma iblock_ext fin gone gone' log k (b : Block A) : (forall i, i ∈ gone <-> i ∈ gone') -> iblock_ok fin gone log k b -> iblock_ok fin gone' log k b.
Proof.
  intros Hg [B1 B2 B3]. split; try done. intros o Ho. rewrite B2 by done. f_equal. unfold cell. by rewrite (decide_ext _ _ _ _ (Hg (first_of k + o))).
Qed.

Lemma imemory_ext T z fin gone gone' cleared cleared' log pc s : (forall i, i ∈ gone <-> i ∈ gone') -> (forall k, k ∈ cleared <-> k ∈ cleared') ->
  imemory_ok T z fin gone cleared log pc s -> imemory_ok T z fin gone' cleared' log pc s.
Proof.
  intros Hg Hc [[H1 H1'] H2 H3 H4 H5 H6 H7 H8 (H9 & H9' & H9'') [H10 H10'] H11 H12 H13 H14]. split; try done.
  - split; [done|]. intros k Hk. by apply Hc, H1'.
  - intros k i Hk Hi. destruct (H3 k i Hk Hi) as (e & He & Ek & Ev). exists e. split; [done|]. split; [done|]. intros p Hp.
    rewrite (Ev p Hp). by apply decide_ext.
  - intros k p Hk Hf. destruct (H5 k p Hk Hf) as (Hp & b & Hb & Hok). split; [done|]. exists b. split; [done|]. by eapply iblock_ext.
  - split; [done|]. split; intros i Hi; [by apply Hg, H9'|by apply H9'', Hg].
  - split; intros k Hk; [by apply Hc, H10|by apply H10', Hc].
  - destruct pc; try done. destruct H14 as (Q1 & Q2 & Q3). split; [done|]. split; [done|]. intros EN.
    destruct (Q3 EN) as (g & Hg' & [Hd|Hd]); exists g; (split; [done|]); [by left|right; by apply Hc].
Qed.

Lemma imemory_on_base T z fin gone cleared log pc s f : tailBlock (f (implicit_base s)) = tailBlock (implicit_base s) ->
  imemory_ok T z fin gone cleared log pc s -> imemory_ok T z fin gone cleared log pc (on_implicit_base f s).
Proof. intros Hf [H1 H2 H3 H4 H5 H6 H7 H8 H9 H10 H11 H12 H13 H14]. split; try done. simpl. by rewrite Hf. Qed.

(** A block that is not given back changes. *)
Lemma imemory_block T z fin fin' gone gone' cleared log pc s k p b b' : imemory_ok T z fin gone cleared log pc s ->
  g_blocks z !! k = Some p -> k ∉ g_freed z -> owned_blocks s !! p = Some b -> iblock_ok fin' gone' log k b' ->
  (forall k' c, k' <> k -> iblock_ok fin gone log k' c -> iblock_ok fin' gone' log k' c) ->
  (forall i, i ∈ fin -> i ∈ fin') -> NoDup fin' -> (forall i, i ∈ fin' -> i ∈ gone') -> (forall i, i ∈ gone' -> 0 <= i < T) ->
  imemory_ok T z fin' gone' cleared log pc (set_owned (<[p:=b']> (owned_blocks s)) s).
Proof.
  intros [H1 H2 H3 H4 H5 H6 H7 H8 _ [H10 H10'] H11 H12 H13 H14] Hp Hf Hb Hok Hother Hfin Hnd Hfg Hg. split; try done; simpl.
  - intros k' q Hk' Hf'. destruct (H5 k' q Hk' Hf') as (Hq & c & Hc & Hok'). split; [done|]. destruct (decide (q = p)) as [->|Hne].
    + exists b'. rewrite lookup_insert_eq. split; [done|]. assert (k' = k) as -> by (by apply (H6 k' k p)). done.
    + exists c. rewrite lookup_insert_ne by done. split; [done|]. apply Hother; [|done]. intros ->. apply Hne. congruence.
  - intros q Hq. apply H7. destruct (decide (q = p)) as [->|Hne]; [by rewrite Hb|by rewrite lookup_insert_ne in Hq].
  - split; [done|]. intros k' Hk' i Hi. exact (Hfin _ (H10' k' Hk' i Hi)).
  - destruct pc; try done; simpl in *.
    + destruct H14 as (Q1 & Q2 & Q3 & Q4 & Q5 & c & Hc & Q6). split_and!; try done. exists c. rewrite lookup_insert_ne; [done|]. intros <-. by apply Hf, Q5.
    + destruct H14 as (Q1 & Q2 & Q3 & Q4 & Q5 & c & Hc & Q6). split_and!; try done. exists c. rewrite lookup_insert_ne; [done|]. intros <-. by apply Hf, Q5.
Qed.

(** The element at [index] is destroyed. *)
Lemma imemory_destroy T z fin gone gone' cleared log pc s k p b index : imemory_ok T z fin gone cleared log pc s ->
  g_blocks z !! k = Some p -> k ∉ g_freed z -> owned_blocks s !! p = Some b -> first_of k <= index < first_of k + BLOCK_SIZE -> index < T ->
  (forall i, i ∈ gone' <-> i = index \/ i ∈ gone) ->
  imemory_ok T z fin gone' cleared log pc (set_owned (<[p:=set_element index None b]> (owned_blocks s)) s).
Proof.
  intros Hm Hp Hf Hb Hi HiT Hg. destruct (im_fin _ _ _ _ _ _ _ _ Hm) as (F1 & F2 & F3).
  destruct (im_blocks _ _ _ _ _ _ _ _ Hm k p Hp Hf) as (_ & c & Hc & [B1 B2 B3]). rewrite Hb in Hc. injection Hc as <-.
  pose proof (first_of_nonneg k). destruct (block_of_unique index k Hi) as [Ek Eo].
  assert (Hcell : forall i, i <> index -> cell gone' log i = cell gone log i).
  { intros i Hne. unfold cell. apply decide_ext. rewrite Hg. tauto. }
  eapply imemory_block; try done.
  - split; [unfold set_element; simpl; by rewrite length_insert| |done]. intros o Ho. unfold set_element. simpl. rewrite Eo.
    destruct (decide (o = index - first_of k)) as [->|Hne].
    + rewrite list_lookup_insert_eq by lia. f_equal. unfold cell. rewrite decide_True; [done|]. apply Hg. left. lia.
    + rewrite list_lookup_insert_ne by lia. rewrite B2 by done. f_equal. symmetry. apply Hcell. lia.
  - intros k' c Hne [C1 C2 C3]. split; try done. intros o Ho. rewrite C2 by done. f_equal. symmetry. apply Hcell. intros E.
    destruct (block_of_unique index k'); [lia|congruence].
  - intros i Hin. apply Hg. right. by apply F2.
  - intros i [->|Hin]%Hg; [lia|by apply F3].
Qed.

(** Elements of a block are finished. *)
Lemma imemory_finish T z fin gone cleared log pc s k p b start n : imemory_ok T z fin gone cleared log pc s ->
  g_blocks z !! k = Some p -> k ∉ g_freed z -> owned_blocks s !! p = Some b ->
  0 <= n -> first_of k <= start -> start + n <= first_of (k + 1) -> (forall i, i ∈ seqZ start n -> i ∈ gone /\ i ∉ fin) ->
  imemory_ok T z (fin ++ seqZ start n) gone cleared log pc
    (set_owned (<[p:=set_count (elementsCompletelyDequeued b + n) b]> (owned_blocks s)) s).
Proof.
  intros Hm Hp Hf Hb Hn Hs He Hg. destruct (im_fin _ _ _ _ _ _ _ _ Hm) as (F1 & F2 & F3).
  destruct (im_blocks _ _ _ _ _ _ _ _ Hm k p Hp Hf) as (_ & c & Hc & [B1 B2 B3]). rewrite Hb in Hc. injection Hc as <-.
  eapply imemory_block; try done.
  - split; try done. simpl. rewrite B3, (fin_in_app fin start n k) by done. by rewrite decide_True.
  - intros k' c Hne [C1 C2 C3]. split; try done. rewrite C3, (fin_in_app fin start n k) by done. rewrite decide_False by done. lia.
  - intros i Hi. apply elem_of_app. by left.
  - apply NoDup_app. split; [done|]. split; [|apply NoDup_seqZ]. intros i Hi Hi'. by apply Hg in Hi' as [_ Hi'].
  - intros i [Hi|Hi]%elem_of_app; [by apply F2|by apply Hg].
Qed.

(** The pointer in the entry of a full block is cleared. *)
Lemma imemory_clear T z fin gone cleared cleared' log pc s k i : imemory_ok T z fin gone cleared log pc s ->
  full fin k -> (g_low z <= k)%nat -> g_ids z !! k = Some i -> (forall k', k' ∈ cleared' <-> k' = k \/ k' ∈ cleared) ->
  exists e, index_entries s !! i = Some e /\
    imemory_ok T z fin gone cleared' log pc (set_index_entries (<[i:=set_block_value 0 e]> (index_entries s)) s).
Proof.
  intros Hm Hfull Hk Hi Hc. pose proof (fun k' => ids_distinct _ _ _ _ _ _ _ _ k' k i Hm) as Hd.
  destruct (im_entries _ _ _ _ _ _ _ _ Hm k i Hk Hi) as (e & He & Ek & Ev). exists e. split; [done|].
  pose proof (full_published _ _ _ _ _ _ _ _ _ Hm Hfull) as Hpub. assert (Hil : (i < length (index_entries s))%nat) by (by eapply lookup_lt_Some).
  pose proof (low_published _ _ _ _ _ _ _ _ Hm) as Hlow.
  destruct Hm as [[H1 H1'] H2 H3 H4 H5 H6 H7 H8 H9 [H10 H10'] H11 H12 H13 H14]. split; try done; simpl.
  - split; [done|]. intros k' Hk'. apply Hc. right. by apply H1'.
  - intros k' j Hk' Hj. destruct (decide (k' = k)) as [->|Hne].
    + rewrite Hi in Hj. injection Hj as <-. rewrite list_lookup_insert_eq by done. eexists. split; [done|]. split; [done|].
      intros p Hp. rewrite decide_True; [done|]. apply Hc. by left.
    + assert (Hji : i <> j) by (intros <-; apply Hne; by eapply Hd).
      rewrite list_lookup_insert_ne by done. destruct (H3 k' j Hk' Hj) as (e' & He' & Ek' & Ev'). exists e'. split; [done|]. split; [done|].
      intros p Hp. rewrite (Ev' p Hp). apply decide_ext. rewrite Hc. tauto.
  - intros Hpe j Hj. destruct (H4 Hpe j Hj) as (e' & He' & E0). exists e'. split; [|done]. rewrite list_lookup_insert_ne; [done|].
    intros <-. pose proof (Hd (length (g_blocks z)) Hlow Hk Hj Hi). lia.
  - split; intros k' Hk'; [apply Hc; right; by apply H10|]. apply Hc in Hk' as [->|Hk']; [done|by apply H10'].
  - eapply current_value; [exact H13|done|done].
  - destruct pc; try done. destruct H14 as (Q1 & Q2 & Q3). split; [done|]. split; [done|]. intros EN.
    destruct (Q3 EN) as (g & Hg' & [Hx|Hx]); exists g; (split; [done|]); [by left|right; apply Hc; by right].
Qed.

(** A cleared block is given back. *)
Lemma imemory_free T z fin gone cleared log pc s k p : imemory_ok T z fin gone cleared log pc s ->
  g_blocks z !! k = Some p -> k ∉ g_freed z -> k ∈ cleared ->
  imemory_ok T (MkGhost (g_blocks z) (g_ids z) (g_low z) (g_infos z) (k :: g_freed z)) fin gone cleared log pc
    (set_owned (delete p (owned_blocks s)) s).
Proof.
  intros [H1 H2 H3 H4 H5 H6 H7 H8 H9 [H10 H10'] H11 H12 H13 H14] Hp Hf Hc. split; try done; simpl.
  - intros k' q Hk' Hf'. apply not_elem_of_cons in Hf' as [Hne Hf']. destruct (H5 k' q Hk' Hf') as (Hq & b & Hb & Hok). split; [done|].
    exists b. split; [|done]. rewrite lookup_delete_ne; [done|]. intros <-. by apply Hne, (H6 k' k p).
  - intros k1 k2 q Hk1 Hk2 Hf1 Hf2. apply not_elem_of_cons in Hf1 as [_ Hf1], Hf2 as [_ Hf2]. by apply (H6 k1 k2 q).
  - intros q [b Hq]. apply lookup_delete_Some in Hq as [Hne Hq]. destruct (H7 q ltac:(by eexists)) as [(k' & Hk' & Hf')|]; [|by right].
    left. exists k'. split; [done|]. apply not_elem_of_cons. split; [|done]. intros ->. apply Hne. congruence.
  - split; [|done]. intros k' [->|Hk']%elem_of_cons; [done|by apply H10].
  - destruct pc; try done; simpl in *; destruct H14 as (Q1 & Q2 & Q3 & Q4 & Q5 & c & Hc' & Q6); split_and!; try done;
      try (intros k' Hk'; apply elem_of_cons; right; by apply Q5);
      exists c; rewrite lookup_delete_ne; try done; intros <-; by apply Hf, Q5.
Qed.
End Memory.

(** ** The invariant *)

Section System.
Context {traits : Traits} `{laws : !TraitsLaws} {A : Type} (garbage : Z).
Abbreviation Sys := (ImplicitSystem (A := A)).
Implicit Types (z : Ghost) (fin granted rejected : list Z) (y : Sys) (t : nat).

(** What a consumer holds: giving a block back, no more than after it. *)
Definition view (pc : IPc) : CPc :=
  match pc with
  | IAt pc => pc
  | IClear op first n h slot start stop _ | IFree op first n h slot start stop _ =>
      if decide (stop = first + n) then CIdle else CBlock op first n h slot stop
  end.

(** The full block that it is to take out of the block index, or to give back. *)
Definition clearing (pc : IPc) : list nat := match pc with IClear _ _ _ _ _ start _ _ => [block_of start] | _ => [] end.
Definition freeing (pc : IPc) : list nat := match pc with IFree _ _ _ _ _ start _ _ => [block_of start] | _ => [] end.

Definition ilocal_ok (H : Z) (bs : list Z) (G : gmap Z Info) (pc : IPc) : Prop :=
  match pc with
  | IAt pc => local_ok H bs G pc /\ match pc with CFlag _ _ _ _ _ _ _ _ j => j = 0 | _ => True end
  | IClear op first n h slot start stop b | IFree op first n h slot start stop b => in_element H bs G op first n h slot start stop b
  end.

(** The blocks that were given back had no elements. *)
Definition given_ok (x : ptr * Block A) : Prop :=
  elements x.2 = replicate (Z.to_nat BLOCK_SIZE) None /\ elementsCompletelyDequeued x.2 = BLOCK_SIZE.

Record iinv_with y z fin granted rejected (H V : Z) : Prop := {
  ii_counts : counts_ok (zlen (implicit_enqueued y)) H (implicit_claimed y) V (view <$> implicit_consumers y) granted rejected;
  ii_elements : elements_ok H (implicit_enqueued y) (view <$> implicit_consumers y) fin (implicit_taken y);
  ii_memory : imemory_ok (zlen (implicit_enqueued y)) z fin (gone fin (view <$> implicit_consumers y))
    (held freeing (implicit_consumers y) ++ g_freed z) (iconstructed (implicit_producer y) (implicit_enqueued y))
    (implicit_producer y) (implicit_state y);
  ii_local : forall t pc, implicit_consumers y !! t = Some pc -> ilocal_ok H (g_blocks z) (g_infos z) pc;
  ii_full : NoDup (held clearing (implicit_consumers y) ++ held freeing (implicit_consumers y) ++ g_freed z) /\
    forall k, k ∈ held clearing (implicit_consumers y) ++ held freeing (implicit_consumers y) ++ g_freed z <-> full fin k;
  ii_base : tailIndex (implicit_base (implicit_state y)) = zlen (implicit_enqueued y) /\ headIndex (implicit_base (implicit_state y)) = H /\
    dequeueOptimisticCount (implicit_base (implicit_state y)) = implicit_claimed y /\ dequeueOvercommit (implicit_base (implicit_state y)) = V;
  ii_given : Forall given_ok (given_back y) /\ length (given_back y) = length (g_freed z)
}.

Definition iinv y : Prop := exists z fin granted rejected H V, iinv_with y z fin granted rejected H V.

(** The counters have not reached half of what an index can hold. *)
Definition ismall y : Prop := zlen (implicit_enqueued y) < 2 ^ 62 /\ implicit_claimed y < 2 ^ 62.

(** The range of a consumer inside a block. *)
Lemma element_range H bs G op first n h slot start stop b : in_element H bs G op first n h slot start stop b ->
  0 <= first <= start /\ start < stop <= first + n /\ first + n <= H /\ first_of (block_of start) <= start /\ stop <= first_of (block_of start + 1).
Proof.
  intros ((Hf & Hn & HnH & _) & Hs & _ & _ & -> & _). pose proof (block_of_bounds start ltac:(lia)). unfold stop_at. lia.
Qed.

Lemma in_element_extends H H' bs G bs' G' op first n h slot start stop b : H <= H' -> extends bs G bs' G' ->
  in_element H bs G op first n h slot start stop b -> in_element H' bs' G' op first n h slot start stop b.
Proof.
  intros HH He Hin. pose proof (element_range _ _ _ _ _ _ _ _ _ _ _ Hin).
  destruct (local_extends H H' bs G bs' G' (CFlag op first n h slot start stop b 0) HH He) as [Hel _]; [|done]. split; [done|lia].
Qed.

Lemma ilocal_extends H H' bs G bs' G' pc : H <= H' -> extends bs G bs' G' -> ilocal_ok H bs G pc -> ilocal_ok H' bs' G' pc.
Proof.
  intros HH He. destruct pc; simpl; [|by apply in_element_extends..]. intros [Hl Hj]. split; [by eapply local_extends|done].
Qed.

(** What a step of a consumer leads to. *)
Definition iafter y t pc' s' (out : list (nat * Z * A)) (d : Z) (back : list (ptr * Block A)) : Sys :=
  MkISystem s' (implicit_producer y) (<[t:=pc']> (implicit_consumers y)) (implicit_enqueued y) (implicit_taken y ++ out)
    (implicit_claimed y + d) (given_back y ++ back).

Section Consumer.
Context (y : Sys) (z : Ghost) (fin granted rejected : list Z) (H V : Z) (t : nat).
Context (Hinv : iinv_with y z fin granted rejected H V) (Hsmall : ismall y).
Abbreviation cs := (implicit_consumers y).
Abbreviation vs := (view <$> implicit_consumers y).
Abbreviation s := (implicit_state y).

(** What a step is to establish, as long as the counters are small. *)
Definition iconsumes pc : Prop := exists pc' s' out, implicit_consumer_step pc s = Some (pc', s', out) /\
  (implicit_claimed y + implicit_claims pc < 2 ^ 62 -> iinv (iafter y t pc' s'
     (match out with Some (i, v) => [(t, i, v)] | None => [] end) (implicit_claims pc) (gives_back pc s))).

Lemma view_lookup pc : cs !! t = Some pc -> vs !! t = Some (view pc).
Proof. intros Ht. by rewrite list_lookup_fmap, Ht. Qed.

Lemma view_insert pc' : view <$> <[t:=pc']> cs = <[t:=view pc']> vs.
Proof. by rewrite list_fmap_insert. Qed.

Lemma ibounds : 0 <= H <= zlen (implicit_enqueued y) /\ 0 <= zlen rejected <= implicit_claimed y.
Proof. eapply counts_small, (ii_counts _ _ _ _ _ _ _ Hinv). Qed.

(** No block is touched, nothing is given back. *)
Lemma held_at {X} (f : IPc -> list X) pc pc' : f (IAt pc) = [] -> f (IAt pc') = [] -> cs !! t = Some (IAt pc) ->
  held f (<[t:=IAt pc']> cs) ≡ₚ held f cs.
Proof. intros E E' Ht. pose proof (held_insert f cs t (IAt pc) (IAt pc') Ht) as Hp. by rewrite E, E', !app_nil_r in Hp. Qed.

Lemma full_at pc pc' : cs !! t = Some (IAt pc) ->
  held clearing (<[t:=IAt pc']> cs) ++ held freeing (<[t:=IAt pc']> cs) ++ g_freed z ≡ₚ held clearing cs ++ held freeing cs ++ g_freed z.
Proof. intros Ht. by rewrite (held_at clearing pc pc') by done; rewrite (held_at freeing pc pc') by done. Qed.

(** The state changes, the blocks that are full or given back do not. *)
Lemma iinv_at pc pc' s' out d fin' granted' rejected' H' V' : cs !! t = Some (IAt pc) ->
  counts_ok (zlen (implicit_enqueued y)) H' (implicit_claimed y + d) V' (<[t:=pc']> vs) granted' rejected' ->
  elements_ok H' (implicit_enqueued y) (<[t:=pc']> vs) fin' (implicit_taken y ++ out) ->
  imemory_ok (zlen (implicit_enqueued y)) z fin' (gone fin' (<[t:=pc']> vs)) (held freeing cs ++ g_freed z)
    (iconstructed (implicit_producer y) (implicit_enqueued y)) (implicit_producer y) s' ->
  (forall k, full fin' k <-> full fin k) -> H <= H' -> ilocal_ok H' (g_blocks z) (g_infos z) (IAt pc') ->
  tailIndex (implicit_base s') = zlen (implicit_enqueued y) -> headIndex (implicit_base s') = H' ->
  dequeueOptimisticCount (implicit_base s') = implicit_claimed y + d -> dequeueOvercommit (implicit_base s') = V' ->
  iinv_with (iafter y t (IAt pc') s' out d []) z fin' granted' rejected' H' V'.
Proof.
  intros Ht Hc He Hm Hfull HH Hl E1 E2 E3 E4. split; simpl; rewrite ?view_insert; try done.
  - eapply imemory_ext; [done| |exact Hm]. intros k. by rewrite (held_at freeing pc pc').
  - intros t' pc0 Ht'. apply list_lookup_insert_Some in Ht' as [(_ & <- & _)|[_ Ht']]; [done|].
    eapply ilocal_extends; [exact HH|apply extends_refl|]. by apply (ii_local _ _ _ _ _ _ _ Hinv t').
  - destruct (ii_full _ _ _ _ _ _ _ Hinv) as [Hd Hk]. pose proof (full_at pc pc' Ht) as E. split; [by rewrite E|].
    intros k. rewrite E, Hk. symmetry. apply Hfull.
  - rewrite app_nil_r. apply (ii_given _ _ _ _ _ _ _ Hinv).
Qed.

(** A step that reads, and takes the element in [out]. *)
Lemma iinv_read pc pc' out : cs !! t = Some (IAt pc) ->
  counts_ok (zlen (implicit_enqueued y)) H (implicit_claimed y) V (<[t:=pc']> vs) granted rejected ->
  elements_ok H (implicit_enqueued y) (<[t:=pc']> vs) fin (implicit_taken y ++ out) ->
  destroyed pc' = destroyed pc -> ilocal_ok H (g_blocks z) (g_infos z) (IAt pc') ->
  iinv_with (iafter y t (IAt pc') s out 0 []) z fin granted rejected H V.
Proof.
  intros Ht Hc He Ed Hl. destruct (ii_base _ _ _ _ _ _ _ Hinv) as (B1 & B2 & B3 & B4). eapply (iinv_at pc); try done; rewrite ?Z.add_0_r; [done| |done].
  eapply imemory_ext; [|done|apply (ii_memory _ _ _ _ _ _ _ Hinv)]. intros i.
  destruct (gone_update fin vs t pc pc' i (view_lookup _ Ht)) as [-> ->]. by rewrite Ed.
Qed.

Lemma iconsumes_local pc pc' : cs !! t = Some (IAt pc) -> implicit_consumer_step (IAt pc) s = Some (IAt pc', s, None) -> claims_of pc = 0 ->
  claimed_at pc' = claimed_at pc -> pending pc' = pending pc -> excess_of pc' = excess_of pc -> over_ok rejected pc' ->
  holds pc' = holds pc -> moved pc' = moved pc -> destroyed pc' = destroyed pc -> frontier H pc <= frontier H pc' ->
  ilocal_ok H (g_blocks z) (g_infos z) (IAt pc') -> iconsumes (IAt pc).
Proof.
  intros Ht Es Ed E1 E2 E3 Ho E4 E5 E6 Hf Hl. exists (IAt pc'), s, None. split; [done|]. intros _.
  exists z, fin, granted, rejected, H, V. simpl. rewrite Ed. apply (iinv_read pc); try done.
  - eapply counts_move; [apply (ii_counts _ _ _ _ _ _ _ Hinv)|by apply view_lookup|done..].
  - rewrite app_nil_r. eapply elements_move; [apply (ii_elements _ _ _ _ _ _ _ Hinv)|by apply view_lookup|done| | |apply ibounds|done].
    + rewrite E4, Z.sub_diag, app_nil_r. done.
    + by rewrite E5.
Qed.

Lemma iconsume_claim pc pc' b' : cs !! t = Some (IAt pc) -> claim_step pc (implicit_base s) = Some (pc', b') ->
  implicit_consumer_step (IAt pc) s = Some (IAt pc', on_implicit_base (fun _ => b') s, None) -> iconsumes (IAt pc).
Proof.
  intros Ht Ec Es. eexists _, _, _. split; [exact Es|]. intros Hlim. pose proof (ii_local _ _ _ _ _ _ _ Hinv _ _ Ht) as [Hl _].
  destruct (claim_step_ok _ _ _ _ _ _ _ _ _ _ (g_blocks z) (g_infos z) t (implicit_base s) (ii_counts _ _ _ _ _ _ _ Hinv) (ii_elements _ _ _ _ _ _ _ Hinv)
    Hsmall (ii_base _ _ _ _ _ _ _ Hinv) pc pc' b' (view_lookup _ Ht) Hl Ec Hlim)
    as (granted' & rejected' & H' & V' & Hc & He & HH & Hl' & Ed & Ed' & B1 & B2 & B3 & B4 & B5).
  exists z, fin, granted', rejected', H', V'. apply (iinv_at pc); try done.
  - by rewrite app_nil_r.
  - apply imemory_on_base; [done|]. eapply imemory_ext; [|done|apply (ii_memory _ _ _ _ _ _ _ Hinv)].
    intros i. destruct (gone_update fin vs t pc pc' i (view_lookup _ Ht)) as [-> ->]. by rewrite Ed, Ed'.
  - split; [done|]. destruct pc; simplify_eq/=; try done; by case_match.
Qed.

(** What is held is in a block that is neither full nor given back. *)
Lemma held_in_block pc i : cs !! t = Some pc -> i ∈ holds (view pc) -> 0 <= i < H /\ i ∉ fin /\
  block_of i ∉ held clearing cs ++ held freeing cs ++ g_freed z /\
  (g_low z <= block_of i < length (g_blocks z))%nat /\ i < zlen (implicit_enqueued y).
Proof.
  intros Ht Hi. destruct (held_bound _ _ _ _ _ _ _ _ (ii_elements _ _ _ _ _ _ _ Hinv) (view_lookup _ Ht) Hi) as [Hb Hf].
  pose proof ibounds as [HH _]. pose proof (tail_bound _ _ _ _ _ _ _ _ (ii_memory _ _ _ _ _ _ _ Hinv)) as HT.
  assert (Hn : ~ full fin (block_of i)). { intros Hfull. apply Hf, Hfull, block_of_bounds. lia. }
  assert (Hk : block_of i ∉ held clearing cs ++ held freeing cs ++ g_freed z) by (intros Hk; by apply Hn, (proj2 (ii_full _ _ _ _ _ _ _ Hinv))).
  do 3 (split; [done|]). split; [split|lia].
  - destruct (Nat.le_gt_cases (g_low z) (block_of i)) as [|Hlt]; [done|]. exfalso.
    apply (proj2 (im_low _ _ _ _ _ _ _ _ (ii_memory _ _ _ _ _ _ _ Hinv))) in Hlt. apply Hk. set_solver.
  - apply block_of_below. lia.
Qed.

(** The entry of a block, through any block index that has it. *)
Lemma entry_of_block h g k : g_infos z !! h = Some g -> (g_low z <= k < hhi g)%nat ->
  exists e, entry_at h (slot_in g k) s = Some e /\ ientry_ok (g_blocks z) (held freeing cs ++ g_freed z) k e.
Proof.
  intros Hg Hk. pose proof (ii_memory _ _ _ _ _ _ _ Hinv) as Hm. destruct (im_headers _ _ _ _ _ _ _ _ Hm _ _ Hg) as (hd & Hhd & Hok).
  pose proof (ih_order _ _ _ _ Hok). destruct (lookup_lt_is_Some_2 (g_ids z) k ltac:(lia)) as [i Hi].
  destruct (im_entries _ _ _ _ _ _ _ _ Hm k i ltac:(lia) Hi) as (e & He & Hek). exists e. split; [|done].
  unfold entry_at, entry_id. rewrite Hhd. cbn [mbind option_bind]. rewrite (ih_slots _ _ _ _ Hok k i Hk Hi). done.
Qed.

Lemma ids_small k : (k < length (g_ids z))%nat -> first_of k < 2 ^ 63.
Proof.
  intros Hk. pose proof (ii_memory _ _ _ _ _ _ _ Hinv) as Hm. destruct Hsmall as [HT _]. pose proof block_size_bound.
  destruct (im_ids _ _ _ _ _ _ _ _ Hm) as [EN _]. assert (Hle : first_of k <= first_of (length (g_blocks z))) by (apply first_of_le; lia).
  pose proof (im_phase _ _ _ _ _ _ _ _ Hm) as Hp. destruct (implicit_producer y); simpl in Hp; unfold at_end, in_last in Hp; lia.
Qed.

Lemma iconsume_index op first n : cs !! t = Some (IAt (CIndex op first n)) -> iconsumes (IAt (CIndex op first n)).
Proof.
  intros Ht. pose proof (ii_local _ _ _ _ _ _ _ Hinv _ _ Ht) as [(Hf & Hn & HnH & Hop) _]. pose proof ibounds as [HH _].
  pose proof (ii_memory _ _ _ _ _ _ _ Hinv) as Hm. pose proof (tail_bound _ _ _ _ _ _ _ _ Hm) as HT.
  apply (iconsumes_local _ (CFront op first n (implicit_index s))); try done. split; [|done]. split; [done|].
  pose proof (im_current _ _ _ _ _ _ _ _ Hm) as Hc. unfold current_ok in Hc. case_decide.
  - destruct Hc as [E _]. rewrite E in HT. unfold first_of in HT. simpl in HT. lia.
  - destruct Hc as (g & h & Hg & _ & _ & Hpub & _). exists g. split; [done|]. rewrite Hpub. lia.
Qed.

Lemma iconsume_front op first n h : cs !! t = Some (IAt (CFront op first n h)) -> iconsumes (IAt (CFront op first n h)).
Proof.
  intros Ht. pose proof (ii_local _ _ _ _ _ _ _ Hinv _ _ Ht) as [[Hr (g & Hg & Hn)] _]. pose proof Hr as (Hf & Hn0 & HnH & Hop).
  destruct (im_headers _ _ _ _ _ _ _ _ (ii_memory _ _ _ _ _ _ _ Hinv) _ _ Hg) as (hd & Hhd & Hok).
  destruct (ih_tail _ _ _ _ Hok) as (m & Em & Hm). assert (Hp : (0 < hpub g)%nat) by (apply first_of_lt; unfold first_of in *; simpl; lia).
  apply (iconsumes_local _ (CBase op first n h (index_tail hd))); try done.
  - simpl. by rewrite Hhd.
  - split; [|done]. split; [done|]. exists g, (Z.to_nat m). split; [done|].
    assert (first_of (hpub g) <= first_of (Z.to_nat m + 1)) by (apply first_of_le; lia). split; [lia|]. split; [lia|].
    rewrite Em. unfold slot_at, slot_in. by rewrite Z2Nat.id by lia.
Qed.

Lemma iconsume_base op first n h f : cs !! t = Some (IAt (CBase op first n h f)) -> iconsumes (IAt (CBase op first n h f)).
Proof.
  intros Ht. pose proof (ii_local _ _ _ _ _ _ _ Hinv _ _ Ht) as [[Hr (g & k & Hg & Hn & Hk & ->)] _]. pose proof Hr as (Hf & Hn0 & HnH & Hop).
  destruct (im_headers _ _ _ _ _ _ _ _ (ii_memory _ _ _ _ _ _ _ Hinv) _ _ Hg) as (hd & Hhd & Hok).
  destruct (held_in_block _ first Ht) as (_ & _ & Hnc & Hlow & _); [simpl; apply elem_of_seqZ; lia|].
  pose proof (ih_order _ _ _ _ Hok) as Ho. destruct (ih_size _ _ _ _ Hok) as [Es Hj].
  assert (Hbk : (block_of first <= k)%nat) by (apply Nat.lt_succ_r; rewrite <- Nat.add_1_r; apply block_of_below; lia).
  destruct (entry_of_block h g k Hg ltac:(lia)) as (e & He & Ek & _). destruct (entry_of_block h g (block_of first) Hg ltac:(lia)) as (e' & He' & Ek' & Ev').
  destruct (lookup_lt_is_Some_2 (g_blocks z) (block_of first) ltac:(lia)) as [p Hp]. specialize (Ev' p Hp).
  rewrite decide_False in Ev' by set_solver. destruct (im_blocks _ _ _ _ _ _ _ _ (ii_memory _ _ _ _ _ _ _ Hinv) _ _ Hp) as [Hp0 _]; [set_solver|].
  apply (iconsumes_local _ (CBlock op first n h (slot_in g (block_of first)) first)); try done.
  - simpl. unfold slot_for. rewrite Hhd. cbn [mbind option_bind]. rewrite He. cbn [mbind option_bind]. rewrite Ek.
    rewrite (proj2 (Z.eqb_neq _ _) (first_of_valid k)), Es, entry_slot_spec by (done || apply ids_small; lia).
    rewrite He'. cbn [mbind option_bind]. rewrite Ek', Ev', block_base_first, Z.eqb_refl, (proj2 (Z.eqb_neq _ _) Hp0) by lia. done.
  - simpl. by replace (first + n - first) with n by lia.
  - split; [|done]. split; [done|]. split; [lia|]. split; [done|]. exists g. split; [done|]. split; [|done].
    assert (first_of (k + 1) <= first_of (hhi g)) by (apply first_of_le; lia). lia.
Qed.

Lemma iconsume_block op first n h slot start : cs !! t = Some (IAt (CBlock op first n h slot start)) -> iconsumes (IAt (CBlock op first n h slot start)).
Proof.
  intros Ht. pose proof (ii_local _ _ _ _ _ _ _ Hinv _ _ Ht) as [(Hr & Hst & Hs1 & g & Hg & Hn & ->) _]. pose proof Hr as (Hf & Hn0 & HnH & Hop).
  destruct (held_in_block _ start Ht) as (_ & _ & Hnc & Hlow & _); [simpl; apply elem_of_seqZ; lia|].
  pose proof ibounds as [HH _]. destruct Hsmall as [HT _]. pose proof (block_of_bounds start ltac:(lia)) as Hbl.
  assert (Hk : (block_of start < hhi g)%nat) by (apply block_of_below; lia).
  destruct (entry_of_block h g (block_of start) Hg ltac:(lia)) as (e & He & _ & Ev).
  destruct (lookup_lt_is_Some_2 (g_blocks z) (block_of start) ltac:(lia)) as [p Hp]. specialize (Ev p Hp). rewrite decide_False in Ev by set_solver.
  apply (iconsumes_local _ (CMove op first n h (slot_in g (block_of start)) start start (stop_at first n start) p)); try done.
  - simpl. rewrite He. cbn [mbind option_bind]. rewrite Ev. by rewrite stop_index_spec by (done || lia).
  - simpl. by rewrite Z.sub_diag.
  - simpl. by rewrite Z.sub_diag.
  - split; [|done]. split; [|unfold stop_at; lia]. split; [done|]. split; [done|]. split; [done|]. split; [|done]. by exists g.
Qed.

(** The block of an element that a consumer is at. *)
Lemma ielement_block pc op first n h slot start stop b : cs !! t = Some pc -> in_element H (g_blocks z) (g_infos z) op first n h slot start stop b ->
  start ∈ holds (view pc) -> exists c, owned_blocks s !! b = Some c /\ g_blocks z !! block_of start = Some b /\
    block_of start ∉ held clearing cs ++ held freeing cs ++ g_freed z /\
    iblock_ok fin (gone fin vs) (iconstructed (implicit_producer y) (implicit_enqueued y)) (block_of start) c /\
    (g_low z <= block_of start < length (g_blocks z))%nat /\
    forall i, start <= i < stop -> first_of (block_of start) <= i < first_of (block_of start) + BLOCK_SIZE /\
      in_block i = i - first_of (block_of start) /\ block_of i = block_of start /\ 0 <= i < H /\ i < zlen (implicit_enqueued y).
Proof.
  intros Ht Hel Hs. pose proof (element_range _ _ _ _ _ _ _ _ _ _ _ Hel) as Hrg. destruct Hel as (_ & _ & _ & _ & _ & Hb).
  destruct (held_in_block _ start Ht Hs) as (_ & _ & Hnc & Hlow & _). pose proof ibounds as [HH _].
  destruct (im_blocks _ _ _ _ _ _ _ _ (ii_memory _ _ _ _ _ _ _ Hinv) _ _ Hb) as (_ & c & Hc & Hok); [set_solver|].
  exists c. do 5 (split; [done|]). intros i Hi. rewrite first_of_S in Hrg.
  assert (Hib : first_of (block_of start) <= i < first_of (block_of start) + BLOCK_SIZE) by lia.
  destruct (block_of_unique i _ Hib) as [E1 E2]. split_and!; try done; lia.
Qed.

Lemma view_destroyed t' pc i : vs !! t' = Some pc -> i ∈ destroyed pc -> i ∈ holds pc.
Proof.
  rewrite list_lookup_fmap. intros (pc0 & Ht' & ->)%fmap_Some. pose proof (ii_local _ _ _ _ _ _ _ Hinv _ _ Ht') as Hl.
  destruct pc0; simpl in *; [destruct Hl as [Hl _]; by eapply local_destroyed|..]; case_decide; set_solver.
Qed.

Lemma iconsume_move op first n h slot start index stop b : cs !! t = Some (IAt (CMove op first n h slot start index stop b)) ->
  iconsumes (IAt (CMove op first n h slot start index stop b)).
Proof.
  intros Ht. pose proof (ii_local _ _ _ _ _ _ _ Hinv _ _ Ht) as [[Hel Hi] _]. pose proof (element_range _ _ _ _ _ _ _ _ _ _ _ Hel) as Hrg.
  destruct (ielement_block _ _ _ _ _ _ _ _ _ Ht Hel) as (c & Hc & Hb & Hnc & [B1 B2 B3] & Hlow & Hall); [simpl; apply elem_of_seqZ; lia|].
  destruct (Hall index Hi) as (Hib & Eib & _ & HiH & HiT). pose proof ibounds as [HH _].
  assert (Hng : index ∉ gone fin vs).
  { eapply not_gone; [apply (ii_elements _ _ _ _ _ _ _ Hinv)|apply view_destroyed|by apply view_lookup| |].
    - simpl. apply elem_of_seqZ. lia.
    - simpl. rewrite elem_of_seqZ. lia. }
  destruct (lookup_lt_is_Some_2 (implicit_enqueued y) (Z.to_nat index)) as [v Hv]; [unfold zlen in *; lia|].
  assert (Hcell : element index c = Some (Some v)).
  { unfold element. rewrite B2 by apply in_block_bound. f_equal. unfold cell. rewrite Eib.
    replace (first_of (block_of start) + (index - first_of (block_of start))) with index by lia. rewrite decide_False by done.
    destruct (implicit_producer y); simpl; try done. by apply lookup_app_l_Some. }
  exists (IAt (CDestroy op first n h slot start index stop b)), s, (Some (index, v)).
  split; [simpl; rewrite Hc; cbn [mbind option_bind]; by rewrite Hcell|]. intros _.
  exists z, fin, granted, rejected, H, V. apply (iinv_read (CMove op first n h slot start index stop b)); try done.
  - eapply counts_move; [apply (ii_counts _ _ _ _ _ _ _ Hinv)|by apply view_lookup|done..].
  - apply elements_take; [apply (ii_elements _ _ _ _ _ _ _ Hinv)|by apply (view_lookup _ Ht)|lia|lia|done].
Qed.

Lemma iconsume_destroy op first n h slot start index stop b : cs !! t = Some (IAt (CDestroy op first n h slot start index stop b)) ->
  iconsumes (IAt (CDestroy op first n h slot start index stop b)).
Proof.
  intros Ht. pose proof (ii_local _ _ _ _ _ _ _ Hinv _ _ Ht) as [[Hel Hi] _]. pose proof (element_range _ _ _ _ _ _ _ _ _ _ _ Hel) as Hrg.
  destruct (ielement_block _ _ _ _ _ _ _ _ _ Ht Hel) as (c & Hc & Hb & Hnc & _ & Hlow & Hall); [simpl; apply elem_of_seqZ; lia|].
  destruct (Hall index Hi) as (Hib & Eib & _ & HiH & HiT). pose proof ibounds as [HH _]. destruct Hsmall as [HT _].
  set (pc := CDestroy op first n h slot start index stop b).
  set (pc' := if index + 1 =? stop then CFlag op first n h slot start stop b 0 else CMove op first n h slot start (index + 1) stop b).
  exists (IAt pc'), (set_owned (<[b:=set_element index None c]> (owned_blocks s)) s), None.
  split. { simpl. unfold on_owned. rewrite Hc. cbn [mbind option_bind]. by rewrite u64_id by lia. }
  intros _. exists z, fin, granted, rejected, H, V. destruct (ii_base _ _ _ _ _ _ _ Hinv) as (B1 & B2 & B3 & B4).
  assert (Hpc : destroyed pc' = seqZ start (index + 1 - start) /\ moved pc' = seqZ start (index + 1 - start)).
  { unfold pc'. destruct (Z.eqb_spec (index + 1) stop) as [<-|]; simpl; [|done]. by rewrite Z.sub_0_r. }
  destruct Hpc as [Ed Em]. apply (iinv_at pc); try done; simpl; rewrite ?Z.add_0_r; try done.
  - eapply counts_move; [apply (ii_counts _ _ _ _ _ _ _ Hinv)|by apply (view_lookup _ Ht)|..]; unfold pc'; by destruct (index + 1 =? stop).
  - rewrite app_nil_r. eapply elements_move; [apply (ii_elements _ _ _ _ _ _ _ Hinv)|apply (view_lookup _ Ht)|done| |by rewrite Em|lia|].
    + rewrite Z.sub_diag, app_nil_r. unfold pc'. destruct (Z.eqb_spec (index + 1) stop) as [<-|]; simpl; [|done].
      rewrite Z.sub_0_r. f_equiv.
      replace (first + n - start) with ((index + 1 - start) + (first + n - (index + 1))) by lia. rewrite seqZ_split by lia.
      by replace (start + (index + 1 - start)) with (index + 1) by lia.
    + unfold pc'. destruct (Z.eqb_spec (index + 1) stop) as [<-|]; simpl; lia.
  - apply (imemory_destroy _ _ _ (gone fin vs) _ _ _ _ _ (block_of start)); try done; [apply (ii_memory _ _ _ _ _ _ _ Hinv)|set_solver|].
    intros i. destruct (gone_update fin vs t pc pc' i (view_lookup _ Ht)) as [-> ->]. rewrite Ed. simpl. rewrite !elem_of_seqZ.
    assert ((start <= i < start + (index + 1 - start)) <-> (i = index \/ start <= i < start + (index - start))) as -> by lia. tauto.
  - unfold pc'. destruct (Z.eqb_spec (index + 1) stop); simpl; (split; [|done]); (split; [done|lia]).
Qed.

(** What is left after a block, whatever slot comes next. *)
Definition rest_of op first n h slot stop : CPc := if decide (stop = first + n) then CIdle else CBlock op first n h slot stop.

Lemma rest_quiet op first n h slot stop : let pc := rest_of op first n h slot stop in
  claimed_at pc = [] /\ pending pc = 0%nat /\ excess_of pc = 0%nat /\ over_ok rejected pc /\ moved pc = [] /\ destroyed pc = [] /\
  holds pc = seqZ stop (first + n - stop) /\ (stop <= H -> stop <= frontier H pc).
Proof.
  unfold rest_of. case_decide as E; simpl; split_and!; try done. by rewrite E, Z.sub_diag.
Qed.

(** The elements of a block are finished. *)
Lemma flag_elements op first n h slot slot' start stop b : cs !! t = Some (IAt (CFlag op first n h slot start stop b 0)) ->
  in_element H (g_blocks z) (g_infos z) op first n h slot start stop b ->
  let pc' := rest_of op first n h slot' stop in let fin' := fin ++ seqZ start (stop - start) in
  counts_ok (zlen (implicit_enqueued y)) H (implicit_claimed y) V (<[t:=pc']> vs) granted rejected /\
  elements_ok H (implicit_enqueued y) (<[t:=pc']> vs) fin' (implicit_taken y) /\
  forall i, i ∈ gone fin vs <-> i ∈ gone fin' (<[t:=pc']> vs).
Proof.
  intros Ht Hel pc' fin'. pose proof (element_range _ _ _ _ _ _ _ _ _ _ _ Hel) as Hrg. pose proof ibounds as [HH _].
  destruct (rest_quiet op first n h slot' stop) as (R1 & R2 & R3 & R4 & R5 & R6 & R7 & R8). fold pc' in R1, R2, R3, R4, R5, R6, R7, R8.
  pose proof (view_lookup _ Ht) as Hv. simpl in Hv. split_and!.
  - eapply counts_move; [apply (ii_counts _ _ _ _ _ _ _ Hinv)|exact Hv|done..].
  - eapply elements_move; [apply (ii_elements _ _ _ _ _ _ _ Hinv)|exact Hv|done| | |lia|simpl; apply R8; lia].
    + rewrite R7, Z.sub_diag, app_nil_r. simpl. unfold fin'. by rewrite Z.sub_0_r, <- app_assoc.
    + rewrite R5. simpl. unfold fin'. by rewrite Z.sub_0_r, app_nil_r.
  - intros i. destruct (gone_update fin vs t _ CIdle i Hv) as [_ ->]. destruct (gone_update fin' vs t _ pc' i Hv) as [-> _].
    rewrite R6. simpl. rewrite Z.sub_0_r. unfold gone, fin'. rewrite !elem_of_app. set_solver.
Qed.

Lemma mark_empty_spec op start stop (c : Block A) : 0 < stop - start -> (op = Single -> stop - start = 1) ->
  0 <= elementsCompletelyDequeued c -> elementsCompletelyDequeued c + (stop - start) <= BLOCK_SIZE ->
  mark_empty op start stop c =
    Some (elementsCompletelyDequeued c + (stop - start) =? BLOCK_SIZE, set_count (elementsCompletelyDequeued c + (stop - start)) c).
Proof.
  intros Hn Hop Hc Hb. unfold mark_empty. pose proof block_size_bound. rewrite (u64_id (stop - start)) by lia.
  rewrite (proj2 (Z.leb_le _ _)) by done. f_equal. destruct op as [|max].
  - rewrite (Hop eq_refl) in *. unfold set_empty. simpl. rewrite u64_id by lia. f_equal.
    destruct (Z.eqb_spec (elementsCompletelyDequeued c) (BLOCK_SIZE - 1)), (Z.eqb_spec (elementsCompletelyDequeued c + 1) BLOCK_SIZE); lia || done.
  - unfold set_many_empty. simpl. by rewrite u64_id by lia.
Qed.

(** Finishing elements of block [k] can only make [k] full. *)
Lemma full_finish k start n k' : 0 <= n -> first_of k <= start -> start + n <= first_of (k + 1) -> k' <> k ->
  full (fin ++ seqZ start n) k' <-> full fin k'.
Proof.
  intros Hn Hs He Hne. split; intros Hf i Hi; specialize (Hf i Hi); [|apply elem_of_app; by left].
  apply elem_of_app in Hf as [|Hf]; [done|]. apply elem_of_seqZ in Hf. rewrite first_of_S in *.
  destruct (block_of_unique i k); [lia|]. destruct (block_of_unique i k'); [lia|]. congruence.
Qed.

(** What the step that counts the finished elements finds. *)
Lemma flag_run op first n h slot start stop b : cs !! t = Some (IAt (CFlag op first n h slot start stop b 0)) ->
  in_element H (g_blocks z) (g_infos z) op first n h slot start stop b ->
  let k := block_of start in let fin' := fin ++ seqZ start (stop - start) in
  exists c s', owned_blocks s !! b = Some c /\ mark_empty op start stop c = Some (fin_in fin' k =? BLOCK_SIZE, set_count (fin_in fin' k) c) /\
    s' = set_owned (<[b:=set_count (fin_in fin' k) c]> (owned_blocks s)) s /\
    imemory_ok (zlen (implicit_enqueued y)) z fin' (gone fin vs) (held freeing cs ++ g_freed z)
      (iconstructed (implicit_producer y) (implicit_enqueued y)) (implicit_producer y) s' /\
    (fin_in fin' k = BLOCK_SIZE <-> full fin' k) /\ (forall k', k' <> k -> full fin' k' <-> full fin k') /\
    k ∉ held clearing cs ++ held freeing cs ++ g_freed z.
Proof.
  intros Ht Hel k fin'. subst k. pose proof (element_range _ _ _ _ _ _ _ _ _ _ _ Hel) as Hrg.
  destruct (ielement_block _ _ _ _ _ _ _ _ _ Ht Hel) as (c & Hc & Hb & Hnc & [B1 B2 B3] & Hlow & Hall).
  { simpl. apply elem_of_app. left. apply elem_of_seqZ. lia. }
  assert (Hmem : forall i, i ∈ seqZ start (stop - start) -> i ∈ gone fin vs /\ i ∉ fin).
  { intros i Hi. split.
    - apply elem_of_app. right. eapply held_elem; [by apply view_lookup|]. simpl. by rewrite Z.sub_0_r.
    - apply (held_in_block _ i Ht). simpl. rewrite Z.sub_0_r. apply elem_of_app. by left. }
  exists c. eexists. split; [done|].
  assert (Ef : fin_in fin' (block_of start) = elementsCompletelyDequeued c + (stop - start)).
  { unfold fin'. rewrite (fin_in_app fin start (stop - start) (block_of start)), decide_True by (done || lia). by rewrite B3. }
  pose proof (imemory_finish _ _ _ _ _ _ _ _ (block_of start) b c start (stop - start) (ii_memory _ _ _ _ _ _ _ Hinv) Hb ltac:(set_solver) Hc
    ltac:(lia) ltac:(lia) ltac:(lia) Hmem) as Hm'. fold fin' in Hm'. rewrite <- Ef in Hm'.
  destruct (fin_in_block fin' (block_of start)) as [Hbd Hfull]; [intros i Hi; by eapply (fin_below _ _ _ _ _ _ _ _ _ Hm')|apply (im_fin _ _ _ _ _ _ _ _ Hm')|].
  split.
  { rewrite Ef. apply mark_empty_spec; [lia| |rewrite B3; apply zlen_nonneg|lia].
    intros Eop. destruct Hel as ((_ & _ & _ & Hop) & _ & Hs1 & _ & -> & _). specialize (Hop Eop). specialize (Hs1 Eop). unfold stop_at.
    pose proof (block_of_bounds start ltac:(lia)). lia. }
  split; [reflexivity|]. split; [exact Hm'|]. split; [done|]. split; [|done].
  intros k' Hne. apply (full_finish (block_of start)); [lia|lia|lia|done].
Qed.

(** The next block of a bulk. *)
Lemma implicit_next_spec op first n h slot start stop b : in_element H (g_blocks z) (g_infos z) op first n h slot start stop b ->
  exists slot', forall s' : ImplicitProducer A, index_headers s' = index_headers s ->
    implicit_next op first n h slot stop s' = Some (IAt (rest_of op first n h slot' stop)) /\
    ilocal_ok H (g_blocks z) (g_infos z) (IAt (rest_of op first n h slot' stop)).
Proof.
  intros Hel. pose proof (element_range _ _ _ _ _ _ _ _ _ _ _ Hel) as Hrg. pose proof Hel as (Hr & Hst & Hs1 & (g & Hg & Hgn & ->) & Estop & Hb).
  destruct (im_headers _ _ _ _ _ _ _ _ (ii_memory _ _ _ _ _ _ _ Hinv) _ _ Hg) as (hd & Hhd & Hok). destruct (ih_size _ _ _ _ Hok) as [Es Hj].
  pose proof ibounds as [HH _]. destruct Hsmall as [HT _]. exists (slot_in g (block_of stop)). intros s' Es'. split.
  - unfold implicit_next. rewrite Es', Hhd. cbn [mbind option_bind]. rewrite Es.
    rewrite (next_block_spec H g op first n h start stop) by (done || lia). done.
  - unfold rest_of. destruct (decide (stop = first + n)) as [E|E]; simpl; [done|]. split; [|done]. split; [done|]. split; [lia|]. split.
    + intros Eop. destruct Hr as (_ & _ & _ & Hop). specialize (Hop Eop). specialize (Hs1 Eop). lia.
    + by exists g.
Qed.

Lemma iconsume_flag op first n h slot start stop b j : cs !! t = Some (IAt (CFlag op first n h slot start stop b j)) ->
  iconsumes (IAt (CFlag op first n h slot start stop b j)).
Proof.
  intros Ht. pose proof (ii_local _ _ _ _ _ _ _ Hinv _ _ Ht) as [[Hel _] Hj0]. simpl in Hj0. subst j.
  pose proof (element_range _ _ _ _ _ _ _ _ _ _ _ Hel) as Hrg. destruct (ii_full _ _ _ _ _ _ _ Hinv) as [Hnd Hfk].
  destruct (flag_run _ _ _ _ _ _ _ _ Ht Hel) as (c & s' & Hc & Emark & Es' & Hm' & Hfull & Hother & Hnk).
  destruct (implicit_next_spec _ _ _ _ _ _ _ _ Hel) as (slot' & Hnext). destruct (Hnext s' ltac:(by rewrite Es')) as [Enext Hlnext].
  set (k := block_of start) in *. set (fin' := fin ++ seqZ start (stop - start)) in *.
  destruct (ii_base _ _ _ _ _ _ _ Hinv) as (B1 & B2 & B3 & B4). assert (Eb : implicit_base s' = implicit_base s) by (by rewrite Es').
  destruct (Z.eqb_spec (fin_in fin' k) BLOCK_SIZE) as [E|E].
  - exists (IClear op first n h slot start stop b), s', None. split; [simpl; rewrite Hc; cbn [mbind option_bind]; rewrite Emark, Es'; done|].
    intros _. destruct (flag_elements op first n h slot slot start stop b Ht Hel) as (Hcn & Hen & Hg).
    exists z, fin', granted, rejected, H, V. apply Hfull in E.
    pose proof (held_insert clearing cs t _ (IClear op first n h slot start stop b) Ht) as P1. simpl in P1. rewrite app_nil_r in P1.
    pose proof (held_insert freeing cs t _ (IClear op first n h slot start stop b) Ht) as P2. simpl in P2. rewrite !app_nil_r in P2.
    split; simpl; rewrite ?view_insert, ?Z.add_0_r, ?app_nil_r, ?Eb; try done.
    + eapply imemory_ext; [exact Hg| |exact Hm']. intros k'. by rewrite P2.
    + intros t' pc0 Ht'. apply list_lookup_insert_Some in Ht' as [(_ & <- & _)|[_ Ht']]; [done|]. by apply (ii_local _ _ _ _ _ _ _ Hinv t').
    + rewrite P1, P2, <- app_assoc. split.
      * rewrite (Permutation_app_swap_app (held clearing cs)). simpl. by apply NoDup_cons.
      * intros k'. rewrite P1, P2, <- app_assoc, (Permutation_app_swap_app (held clearing cs)). simpl. fold k. rewrite elem_of_cons.
        destruct (decide (k' = k)) as [->|Hne]; [tauto|]. rewrite Hother by done. rewrite <- Hfk. tauto.
    + apply (ii_given _ _ _ _ _ _ _ Hinv).
  - exists (IAt (rest_of op first n h slot' stop)), s', None.
    split; [simpl; rewrite Hc; cbn [mbind option_bind]; rewrite Emark; cbn [mbind option_bind]; by rewrite <- Es', Enext|].
    intros _. destruct (flag_elements op first n h slot slot' start stop b Ht Hel) as (Hcn & Hen & Hg).
    exists z, fin', granted, rejected, H, V. apply (iinv_at (CFlag op first n h slot start stop b 0)); try done; simpl; rewrite ?Z.add_0_r, ?app_nil_r, ?Eb; try done.
    + eapply imemory_ext; [exact Hg|done|exact Hm'].
    + intros k'. destruct (decide (k' = k)) as [->|Hne]; [|by apply Hother]. rewrite <- Hfull. split; [done|]. intros Hf. exfalso. by apply Hnk, Hfk.
Qed.

(** The pointer in the entry is cleared. *)
Lemma iconsume_clear op first n h slot start stop b : cs !! t = Some (IClear op first n h slot start stop b) ->
  iconsumes (IClear op first n h slot start stop b).
Proof.
  intros Ht. pose proof (ii_local _ _ _ _ _ _ _ Hinv _ _ Ht) as Hel. pose proof Hel as (Hr & Hst & Hs1 & (g & Hg & Hgn & ->) & Estop & Hb).
  pose proof (element_range _ _ _ _ _ _ _ _ _ _ _ Hel) as Hrg. pose proof (ii_memory _ _ _ _ _ _ _ Hinv) as Hm.
  destruct (ii_full _ _ _ _ _ _ _ Hinv) as [Hnd Hfk]. set (pc' := IFree op first n h (slot_in g (block_of start)) start stop b).
  assert (Hin : block_of start ∈ held clearing cs) by (eapply held_in; [exact Ht|simpl; set_solver]).
  assert (Hnc : block_of start ∉ held freeing cs ++ g_freed z) by (apply NoDup_app in Hnd as (_ & Hd & _); by apply Hd).
  assert (Hfull : full fin (block_of start)) by (apply Hfk; set_solver).
  assert (Hlow : (g_low z <= block_of start)%nat).
  { destruct (Nat.le_gt_cases (g_low z) (block_of start)) as [|Hlt]; [done|]. by apply (proj2 (im_low _ _ _ _ _ _ _ _ Hm)) in Hlt. }
  pose proof (held_insert clearing cs t _ pc' Ht) as P1. pose proof (held_insert freeing cs t _ pc' Ht) as P2. simpl in P1, P2. rewrite app_nil_r in P1, P2.
  destruct (im_headers _ _ _ _ _ _ _ _ Hm _ _ Hg) as (hd & Hhd & Hok). pose proof (ih_order _ _ _ _ Hok).
  assert (Hk : (block_of start < hhi g)%nat) by (apply block_of_below; lia).
  destruct (lookup_lt_is_Some_2 (g_ids z) (block_of start) ltac:(lia)) as [i Hi].
  destruct (imemory_clear _ _ _ _ _ (held freeing (<[t:=pc']> cs) ++ g_freed z) _ _ _ _ i Hm Hfull Hlow Hi) as (e & He & Hm').
  { intros k. rewrite P2. set_solver. }
  exists pc', (set_index_entries (<[i:=set_block_value 0 e]> (index_entries s)) s), None. split.
  { simpl. unfold on_index_entry, entry_id. rewrite Hhd. cbn [mbind option_bind]. rewrite (ih_slots _ _ _ _ Hok _ i) by (done || lia).
    cbn [mbind option_bind]. by rewrite He. }
  intros _. exists z, fin, granted, rejected, H, V. assert (Ev : <[t:=view pc']> vs = vs) by (apply list_insert_id; by rewrite (view_lookup _ Ht)).
  split; simpl; rewrite ?view_insert, ?Ev, ?Z.add_0_r, ?app_nil_r; try apply Hinv; try done.
  - intros t' pc0 Ht'. apply list_lookup_insert_Some in Ht' as [(_ & <- & _)|[_ Ht']]; [done|]. by apply (ii_local _ _ _ _ _ _ _ Hinv t').
  - assert (E : held clearing (<[t:=pc']> cs) ++ held freeing (<[t:=pc']> cs) ++ g_freed z ≡ₚ held clearing cs ++ held freeing cs ++ g_freed z).
    { rewrite P2, <- P1, <- !app_assoc. f_equiv. by rewrite (Permutation_app_swap_app (held freeing cs)). }
    rewrite E. split; [done|]. intros k. rewrite E. apply Hfk.
Qed.

(** A full block has no elements. *)
Lemma full_empty T (log : list A) k c p : iblock_ok fin (gone fin vs) log k c ->
  imemory_ok T z fin (gone fin vs) (held freeing cs ++ g_freed z) log (implicit_producer y) s -> full fin k -> given_ok (p, c).
Proof.
  intros [B1 B2 B3] Hm Hf. destruct (im_fin _ _ _ _ _ _ _ _ Hm) as (F1 & F2 & F3). split; simpl.
  - apply list_eq. intros o. destruct (Nat.lt_ge_cases o (Z.to_nat BLOCK_SIZE)) as [Ho|Ho].
    + replace o with (Z.to_nat (Z.of_nat o)) by lia. rewrite B2 by lia. rewrite lookup_replicate_2 by lia. f_equal. unfold cell.
      rewrite decide_True; [done|]. apply F2, Hf. rewrite first_of_S. lia.
    + rewrite !lookup_ge_None_2; [done|by rewrite length_replicate|lia].
  - rewrite B3. apply fin_in_block; [|done|done]. intros i Hi. by eapply (fin_below _ _ _ _ _ _ _ _ _ Hm).
Qed.

(** The block is given back. *)
Lemma iconsume_free op first n h slot start stop b : cs !! t = Some (IFree op first n h slot start stop b) ->
  iconsumes (IFree op first n h slot start stop b).
Proof.
  intros Ht. pose proof (ii_local _ _ _ _ _ _ _ Hinv _ _ Ht) as Hel. pose proof Hel as (_ & _ & _ & _ & _ & Hb).
  pose proof (ii_memory _ _ _ _ _ _ _ Hinv) as Hm. destruct (ii_full _ _ _ _ _ _ _ Hinv) as [Hnd Hfk]. pose proof ibounds as [HH _].
  destruct (implicit_next_spec _ _ _ _ _ _ _ _ Hel) as (slot' & Hnext). destruct (Hnext s eq_refl) as [Enext Hlnext].
  set (pc' := rest_of op first n h slot' stop) in *.
  assert (Hin : block_of start ∈ held freeing cs) by (eapply held_in; [exact Ht|simpl; set_solver]).
  assert (Hnf : block_of start ∉ g_freed z) by (apply NoDup_app in Hnd as (_ & _ & Hd); apply NoDup_app in Hd as (_ & Hd & _); by apply Hd).
  assert (Hfull : full fin (block_of start)) by (apply Hfk; set_solver).
  destruct (im_blocks _ _ _ _ _ _ _ _ Hm _ _ Hb Hnf) as (_ & c & Hc & Hok).
  exists (IAt pc'), (set_owned (delete b (owned_blocks s)) s), None.
  split; [simpl; rewrite Hc; cbn [mbind option_bind]; by rewrite Enext|]. intros _.
  pose proof (imemory_free _ _ _ _ _ _ _ _ _ _ Hm Hb Hnf ltac:(set_solver)) as Hm'.
  set (z' := MkGhost (g_blocks z) (g_ids z) (g_low z) (g_infos z) (block_of start :: g_freed z)) in *.
  pose proof (held_insert clearing cs t _ (IAt pc') Ht) as P1. pose proof (held_insert freeing cs t _ (IAt pc') Ht) as P2. simpl in P1, P2.
  rewrite !app_nil_r in P1. rewrite app_nil_r in P2. assert (P3 : held freeing (<[t:=IAt pc']> cs) ++ block_of start :: g_freed z ≡ₚ held freeing cs ++ g_freed z).
  { rewrite <- P2, <- app_assoc. done. }
  destruct (rest_quiet op first n h slot stop) as (R1 & R2 & R3 & R4 & R5 & R6 & R7 & R8).
  destruct (rest_quiet op first n h slot' stop) as (Q1 & Q2 & Q3 & Q4 & Q5 & Q6 & Q7 & Q8). fold pc' in Q1, Q2, Q3, Q4, Q5, Q6, Q7, Q8.
  pose proof (view_lookup _ Ht) as Hv. change (view _) with (rest_of op first n h slot stop) in Hv.
  exists z', fin, granted, rejected, H, V. split; simpl; rewrite ?view_insert, ?Z.add_0_r, ?app_nil_r; try apply Hinv; try change (view (IAt pc')) with pc'.
  - eapply counts_move; [apply (ii_counts _ _ _ _ _ _ _ Hinv)|exact Hv|by rewrite R1, Q1|by rewrite R2, Q2|by rewrite R3, Q3|done].
  - eapply elements_move; [apply (ii_elements _ _ _ _ _ _ _ Hinv)|exact Hv|done| | |lia|].
    + by rewrite R7, Q7, Z.sub_diag, app_nil_r.
    + by rewrite R5, Q5.
    + unfold pc', rest_of. by case_decide.
  - eapply imemory_ext; [| |exact Hm'].
    + intros i. destruct (gone_update fin vs t _ pc' i Hv) as [-> ->]. by rewrite R6, Q6.
    + intros k. by rewrite P3.
  - intros t' pc0 Ht'. apply list_lookup_insert_Some in Ht' as [(_ & <- & _)|[_ Ht']]; [done|]. by apply (ii_local _ _ _ _ _ _ _ Hinv t').
  - rewrite P1, P3. split; [done|]. intros k. rewrite P1, P3. apply Hfk.
  - rewrite Hc. destruct (ii_given _ _ _ _ _ _ _ Hinv) as [Hg Hl]. split; [|rewrite length_app, Hl; simpl; lia].
    apply Forall_app. split; [done|]. constructor; [|done]. by eapply full_empty.
Qed.

(** Every step of a consumer has a next state, and keeps the invariant. *)
Lemma iconsume pc : cs !! t = Some pc -> pc <> IAt CIdle -> iconsumes pc.
Proof.
  intros Ht Hne. destruct pc as [pc|op first n h slot start stop b|op first n h slot start stop b]; [|by apply iconsume_clear|by apply iconsume_free].
  destruct pc; [done|by eapply iconsume_claim..|by apply iconsume_index| | | | | |].
  - by apply iconsume_front.
  - by apply iconsume_base.
  - by apply iconsume_block.
  - by apply iconsume_move.
  - by apply iconsume_destroy.
  - by apply iconsume_flag.
Qed.
End Consumer.
End System.
