(* ===== verification/ImplicitQueue.v ===== *)
(** * What an implicit producer's queue promises

    The invariant of ImplicitProducerQueue.v holds in every reachable state of a
    producer and its consumers (ImplicitProducer.v). *)

From Stdlib Require Import Sorted.
From S2P Require Import Prelude Posix MoodyDetails MoodyBlock ExplicitProducer ExplicitProducerSpec ExplicitProducerQueue ImplicitProducer ImplicitProducerSpec ImplicitProducerQueue.

Section Queue.
Context {traits : Traits} `{laws : !TraitsLaws} {A : Type} (garbage : Z).
(** The first block index has a power of two of slots. *)
Context (index_log : Z) (index_size : 0 <= index_log <= 61 /\ IMPLICIT_INITIAL_INDEX_SIZE = 2 ^ index_log).
Abbreviation Sys := (ImplicitSystem (A := A)).
Abbreviation step := (implicit_step (A := A) garbage).
Implicit Types (y : Sys) (t : nat) (s : ImplicitProducer A).

(** ** The first state *)

Lemma ImplicitProducer_ctor_ok m s r : m <> Some 0 -> ImplicitProducer_ctor garbage m = Some s ->
  implicit_base s = MkBase 0 0 0 0 0 /\
  exists z, imemory_ok (A := A) 0 z [] [] [] [] (QIdle r) s /\ g_blocks z = [] /\ g_freed z = [].
Proof.
  intros Hm. destruct index_size as [Hj Ej]. assert (F0 : first_of 0 = 0) by done. pose proof block_size_bound.
  unfold ImplicitProducer_ctor, implicit_new_block_index. simpl.
  assert (Hpow : 2 ^ index_log <= 2 ^ 61) by (apply Z.pow_le_mono_r; lia). assert (0 < 2 ^ index_log) by (apply Z.pow_pos_nonneg; lia).
  destruct m as [p|]; simpl; intros E; injection E as <-; simpl; (split; [done|]).
  - assert (E2 : u64 (Z.shiftl IMPLICIT_INITIAL_INDEX_SIZE 1) = 2 * 2 ^ index_log).
    { rewrite Ej, Z.shiftl_mul_pow2, u64_id by lia. lia. }
    assert (Et : Z.land (u64 (0 - 1)) (u64 (IMPLICIT_INITIAL_INDEX_SIZE - 1)) = (0 - 1) mod 2 ^ index_log) by (rewrite Ej; apply land_size; lia).
    set (g := MkInfo 0 (2 ^ index_log) 0 0). exists (MkGhost [] [] 0 {[p := g]} []). split; [|done].
    rewrite E2, Et, Ej. split; simpl; try done; try set_solver; try lia.
    + split; [done|lia].
    + split; [by left|constructor].
    + intros q [b Hb]. by rewrite lookup_empty in Hb.
    + split; [constructor|set_solver].
    + intros q g' Hg. apply lookup_singleton_Some in Hg as [<- <-]. eexists. split; [apply lookup_insert_eq|]. split; simpl; try done.
      * split; [done|]. exists index_log. split; [lia|done].
      * unfold zlen. rewrite length_seq. lia.
      * exists (-1). split; [done|lia].
    + unfold current_ok. simpl. rewrite decide_False by (intros ->; by destruct Hm). exists g. eexists. rewrite lookup_singleton_eq, lookup_insert_eq.
      do 2 (split; [done|]). simpl. split_and!; try done; [apply NoDup_seq| |lia|].
      * intros i Hi. apply elem_of_seq in Hi. rewrite length_replicate. lia.
      * intros k Hk. exists k, (MkIEntry INVALID_BLOCK_BASE garbage). unfold slot_in. simpl. rewrite Z.mod_small by lia.
        rewrite lookup_seq_lt by lia. split; [f_equal; lia|]. split; [|done]. apply lookup_replicate_2. lia.
  - exists (MkGhost [] [] 0 ∅ []). split; [|done]. split; simpl; try done; try set_solver; try lia.
    + split; [done|lia].
    + split; [by left|constructor].
    + intros q [b Hb]. by rewrite lookup_empty in Hb.
    + split; [constructor|set_solver].
Qed.

Lemma view_idle n : view <$> replicate n (IAt CIdle) = replicate n CIdle.
Proof. by rewrite fmap_replicate. Qed.

Lemma held_idle_at {X} (f : IPc -> list X) n : f (IAt CIdle) = [] -> held f (replicate n (IAt CIdle)) = [].
Proof. intros E. unfold held. induction n; simpl; [done|]. by rewrite E. Qed.

Lemma implicit_initial_inv y : implicit_initial garbage y -> iinv y.
Proof.
  intros (m & s & Hm & Hs & n & r & ->). destruct (ImplicitProducer_ctor_ok m s r Hm Hs) as (Eb & z & Hmem & Ebs & Efr).
  assert (Hidle : forall t pc, replicate n (IAt CIdle) !! t = Some pc -> pc = IAt CIdle) by (intros t pc Ht; by apply lookup_replicate in Ht as [-> _]).
  assert (Hidle' : forall t pc, replicate n CIdle !! t = Some pc -> pc = CIdle) by (intros t pc Ht; by apply lookup_replicate in Ht as [-> _]).
  exists z, [], [], [], 0, 0. split; simpl; rewrite ?view_idle, ?(held_idle_at _ n eq_refl), ?Efr; simpl.
  - split; simpl; rewrite ?held_idle, ?sum_idle by done; try done; [set_solver|].
    intros t pc Ht. by rewrite (Hidle' t pc Ht).
  - split; simpl; rewrite ?held_idle by done; try done; [set_solver|constructor|set_solver].
  - unfold gone. by rewrite held_idle.
  - intros t pc Ht. by rewrite (Hidle t pc Ht).
  - split; [constructor|]. intros k. split; [set_solver|]. intros Hf. specialize (Hf (first_of k)). rewrite first_of_S in Hf.
    pose proof block_size_bound. specialize (Hf ltac:(lia)). set_solver.
  - by rewrite Eb.
  - by split; [constructor|].
Qed.

(** ** Every step *)

(** A consumer adds nothing negative to a counter. *)
Definition iclaims_ok y : Prop := forall t pc, implicit_consumers y !! t = Some (IAt pc) -> claim_ok pc.

Lemma claim_step_claims pc pc' b b' : claim_ok pc -> claim_step pc b = Some (pc', b') -> claim_ok pc'.
Proof.
  destruct pc; simpl; intros Ho E; simplify_eq/=; try done; case_match; try done. by apply desired_nonneg.
Qed.

Lemma implicit_next_claims op first n h slot stop s pc : implicit_next op first n h slot stop s = Some (IAt pc) -> claim_ok pc.
Proof.
  unfold implicit_next. destruct (index_headers s !! h); simpl; [|done]. intros E. injection E as <-. unfold next_block. by repeat case_match.
Qed.

Lemma iclaim_ok_step pc pc' s s' out : (match pc with IAt pc => claim_ok pc | _ => True end) ->
  implicit_consumer_step pc s = Some (IAt pc', s', out) -> claim_ok pc'.
Proof.
  intros Ho E. destruct pc as [pc|op first n h slot start stop b|op first n h slot start stop b]; simpl in E.
  - assert (Hc : forall q, (pc'' ← claim_step pc (implicit_base s); let '(pc0, b) := pc'' in Some (IAt pc0, on_implicit_base (fun _ => b) s, None : option (Z * A))) = Some (IAt q, s', out) -> claim_ok q).
    { intros q Eq. destruct (claim_step pc (implicit_base s)) as [[pc0 b]|] eqn:Ec; simpl in Eq; [|done]. injection Eq as <- _ _. by eapply claim_step_claims. }
    destruct pc; try (by apply Hc); simplify_option_eq; try done; try (by case_match).
    case_match. simplify_option_eq. case_match; simplify_option_eq. by eapply implicit_next_claims.
  - by simplify_option_eq.
  - simplify_option_eq. by eapply implicit_next_claims.
Qed.

Lemma iconstructed_mono pc (log : list A) : log `prefix_of` iconstructed pc log.
Proof. destruct pc; simpl; try done. by apply prefix_app_r. Qed.

Lemma implicit_step_claims y y' : iclaims_ok y -> step y y' ->
  iclaims_ok y' /\ zlen (implicit_enqueued y) <= zlen (implicit_enqueued y') /\ implicit_claimed y <= implicit_claimed y'.
Proof.
  intros Hc Hst. unfold iclaims_ok. destruct Hst as [y mode x _|y t op Ht Hop|y c pc s _ _|y t pc pc' s out Ht E]; simpl.
  - done.
  - split; [|lia]. intros t' pc' Ht'. apply list_lookup_insert_Some in Ht' as [(_ & E & _)|[_ Ht']]; [by injection E as <-|by eapply Hc].
  - split; [done|]. split; [|lia]. destruct (implicit_producer y); try done. rewrite zlen_app. pose proof (zlen_nonneg [x]). lia.
  - split; [|split; [done|]].
    + intros t' pc0 Ht'. apply list_lookup_insert_Some in Ht' as [(_ & -> & _)|[_ Ht']]; [|by eapply Hc].
      eapply iclaim_ok_step; [|exact E]. destruct pc; [by eapply Hc|done|done].
    + destruct pc as [pc| |]; simpl; try lia. specialize (Hc t pc Ht). destruct pc; simpl in *; lia.
Qed.

(** A producer that starts, and one that goes on. *)
Lemma iinv_enqueue y mode x : implicit_idle (implicit_producer y) = true -> iinv y ->
  iinv (MkISystem (implicit_state y) (QStart mode x) (implicit_consumers y) (implicit_enqueued y) (implicit_taken y) (implicit_claimed y) (given_back y)).
Proof.
  intros Hidle (z & fin & granted & rejected & H & V & [H1 H2 H3 H4 H5 H6 H7]). exists z, fin, granted, rejected, H, V.
  split; try done; simpl. destruct (implicit_producer y) eqn:Ep; try done. eapply imemory_pc; [exact H3|done..|].
  exact (im_phase _ _ _ _ _ _ _ _ H3).
Qed.

Lemma iinv_producer y c : ismall y -> implicit_choice_ok c (implicit_state y) -> implicit_idle (implicit_producer y) = false -> iinv y ->
  exists pc s, implicit_producer_step garbage c (implicit_producer y) (implicit_state y) = Some (pc, s) /\
    iinv (MkISystem s pc (implicit_consumers y) (iconstructed (implicit_producer y) (implicit_enqueued y)) (implicit_taken y)
      (implicit_claimed y) (given_back y)).
Proof.
  intros [Hs _] Hc Hidle (z & fin & granted & rejected & H & V & Hi). pose proof Hi as [H1 H2 H3 H4 H5 (B1 & B2 & B3 & B4) H7].
  pose proof (head_bound _ _ _ _ _ _ _ H1) as Hh. rewrite <- B2 in Hh.
  destruct (iproduce garbage z fin _ _ _ c (implicit_state y) Hs B1 Hh Hc (implicit_producer y) Hidle H3)
    as (pc & s & z' & E & Hm & Hext & Ef & E1 & E2 & E3 & E4).
  exists pc, s. split; [done|]. exists z', fin, granted, rejected, H, V.
  pose proof (iconstructed_mono (implicit_producer y) (implicit_enqueued y)) as Hp.
  split; simpl; rewrite ?Ef; try done.
  - eapply counts_publish; [|exact H1]. apply prefix_length in Hp. unfold zlen. lia.
  - by eapply elements_log.
  - intros t pc0 Ht. eapply ilocal_extends; [|exact Hext|by eapply H4]. lia.
  - by rewrite E1, E2, E3, E4, B2, B3, B4.
Qed.

Lemma iinv_consumer y t pc : ismall y -> implicit_consumers y !! t = Some pc -> pc <> IAt CIdle -> iinv y ->
  exists pc' s out, implicit_consumer_step pc (implicit_state y) = Some (pc', s, out) /\
    let y' := MkISystem s (implicit_producer y) (<[t:=pc']> (implicit_consumers y)) (implicit_enqueued y)
      (implicit_taken y ++ match out with Some (i, v) => [(t, i, v)] | None => [] end) (implicit_claimed y + implicit_claims pc)
      (given_back y ++ gives_back pc (implicit_state y)) in
    ismall y' -> iinv y'.
Proof.
  intros Hs Ht Hne (z & fin & granted & rejected & H & V & Hi).
  destruct (iconsume y z fin granted rejected H V t Hi Hs pc Ht Hne) as (pc' & s & out & E & Hinv).
  exists pc', s, out. split; [done|]. intros y' [_ Hc]. by apply Hinv.
Qed.

Lemma iinv_dequeue y t op : ismall y -> implicit_consumers y !! t = Some (IAt CIdle) -> op_ok op = true -> iinv y ->
  iinv (MkISystem (implicit_state y) (implicit_producer y) (<[t:=IAt (CTail op)]> (implicit_consumers y)) (implicit_enqueued y)
    (implicit_taken y) (implicit_claimed y) (given_back y)).
Proof.
  intros Hs Ht Hop (z & fin & granted & rejected & H & V & Hi). exists z, fin, granted, rejected, H, V.
  pose proof (iinv_read y z fin granted rejected H V t Hi CIdle (CTail op) [] Ht) as Hl. pose proof (view_lookup y t _ Ht) as Hv.
  unfold iafter in Hl. rewrite !app_nil_r, Z.add_0_r in Hl. apply Hl; try done.
  - eapply counts_move; [apply (ii_counts _ _ _ _ _ _ _ Hi)|exact Hv|done..].
  - eapply elements_move; [apply (ii_elements _ _ _ _ _ _ _ Hi)|exact Hv|done| |done|by eapply (ibounds y)|simpl; lia].
    by rewrite Z.sub_diag.
Qed.

Lemma implicit_step_keeps_inv y y' : ismall y -> ismall y' -> iinv y -> step y y' -> iinv y'.
Proof.
  intros Hs0 Hs Hi Hst. destruct Hst as [y mode x Hidle|y t op Ht Hop|y c pc s Hc E|y t pc pc' s out Ht E].
  - by apply iinv_enqueue.
  - by apply iinv_dequeue.
  - assert (Hidle : implicit_idle (implicit_producer y) = false) by (by destruct (implicit_producer y)).
    destruct (iinv_producer y c Hs0 Hc Hidle Hi) as (pc0 & s0 & E0 & Hi'). rewrite E in E0. by injection E0 as <- <-.
  - assert (Hne : pc <> IAt CIdle) by (by intros ->).
    destruct (iinv_consumer y t pc Hs0 Ht Hne Hi) as (pc0 & s0 & out0 & E0 & Hi'). rewrite E in E0. injection E0 as <- <- <-. by apply Hi'.
Qed.

Lemma implicit_queue_inv y : reachable (implicit_initial garbage) step y -> iclaims_ok y /\ (ismall y -> iinv y).
Proof.
  apply (reachable_inv _ _ (fun y => iclaims_ok y /\ (ismall y -> iinv y))).
  - intros s Hs. split; [|intros _; by apply implicit_initial_inv]. destruct Hs as (? & ? & _ & _ & n & r & ->).
    intros t pc Ht. simpl in Ht. apply lookup_replicate in Ht as [E _]. by injection E as ->.
  - intros s s' [Hc Hi] Hst. destruct (implicit_step_claims s s' Hc Hst) as (Hc' & H1 & H2). split; [done|]. intros Hs.
    assert (Hs0 : ismall s) by (unfold ismall in *; lia). by eapply implicit_step_keeps_inv; eauto.
Qed.

(** ** What the invariant says *)

Lemma iinv_taken y : iinv y ->
  (forall t i v, (t, i, v) ∈ implicit_taken y -> 0 <= i /\ implicit_enqueued y !! Z.to_nat i = Some v) /\
  NoDup (index_of <$> implicit_taken y) /\ forall t, StronglySorted Z.lt (taken_by t (implicit_taken y)).
Proof.
  intros (z & fin & granted & rejected & H & V & [_ [He Ht Hl Hs _] _ Hloc _ _ _]).
  split; [done|]. split; [|done]. rewrite Ht. set (vs := view <$> implicit_consumers y) in *.
  assert (Hd : NoDup (fin ++ held holds vs)) by (rewrite He; apply NoDup_seqZ).
  apply NoDup_app in Hd as (Hf & Hdis & Hh). apply NoDup_app. split; [done|].
  assert (Hsub : held moved vs ⊆+ held holds vs).
  { apply held_submseteq. intros t pc Hpc. unfold vs in Hpc. rewrite list_lookup_fmap in Hpc. apply fmap_Some in Hpc as (pc0 & Hpc & ->).
    apply Hloc in Hpc. destruct pc0; simpl in *; [destruct Hpc as [Hpc _]; by eapply local_moved|..]; case_decide; apply submseteq_nil_l. }
  split.
  2: { apply submseteq_Permutation in Hsub as [k Hk]. rewrite Hk in Hh. by apply NoDup_app in Hh as [? _]. }
  intros x Hx Hx'. apply (Hdis x Hx). by eapply elem_of_submseteq.
Qed.

(** No consumer is at work. *)
Definition iquiet y : Prop := forall t pc, implicit_consumers y !! t = Some pc -> pc = IAt CIdle.

Lemma held_iquiet {X} (f : IPc -> list X) y : f (IAt CIdle) = [] -> iquiet y -> held f (implicit_consumers y) = [].
Proof.
  unfold iquiet, held. intros Ef. induction (implicit_consumers y) as [|pc cs IH]; intros Hq; simpl; [done|].
  rewrite (Hq 0%nat pc eq_refl), Ef. apply IH. intros t pc' Ht. by apply (Hq (Datatypes.S t)).
Qed.

Lemma held_view {X} (f : CPc -> list X) cs : held f (view <$> cs) = held (fun pc => f (view pc)) cs.
Proof. unfold held. induction cs; simpl; [done|]. by f_equal. Qed.

(** The full blocks are those before the one of the next element. *)
Lemma full_below fin H k : fin ≡ₚ seqZ 0 H -> full fin k <-> (k < Z.to_nat (H / BLOCK_SIZE))%nat.
Proof.
  intros Hp. pose proof block_size_bound. assert (HB : 0 < BLOCK_SIZE) by lia. pose proof (first_of_nonneg k). unfold full. rewrite first_of_S.
  assert (Hd : (k < Z.to_nat (H / BLOCK_SIZE))%nat <-> first_of k + BLOCK_SIZE <= H).
  { unfold first_of. split; intros Hk.
    - assert (Z.of_nat k + 1 <= H / BLOCK_SIZE) by lia. pose proof (Z.mul_div_le H BLOCK_SIZE HB). nia.
    - assert (Z.of_nat k + 1 <= H / BLOCK_SIZE) by (apply Z.div_le_lower_bound; lia). lia. }
  rewrite Hd. split; intros Hf.
  - assert (Hi : first_of k + BLOCK_SIZE - 1 ∈ fin) by (apply Hf; lia). rewrite Hp in Hi. apply elem_of_seqZ in Hi. lia.
  - intros i Hi. rewrite Hp. apply elem_of_seqZ. lia.
Qed.

(** How many blocks there are, with the one that [enqueue] has got. *)
Lemma blocks_bound T z fin gone cleared (log : list A) pc s : imemory_ok T z fin gone cleared log pc s ->
  Z.of_nat (length (g_blocks z)) + Z.of_nat (length (option_list (private pc))) <= T / BLOCK_SIZE + 1.
Proof.
  intros Hm. pose proof (im_phase _ _ _ _ _ _ _ _ Hm) as Hp. pose proof block_size_bound. assert (HB : 0 < BLOCK_SIZE) by lia. pose proof (im_log _ _ _ _ _ _ _ _ Hm) as [H0 _].
  assert (Ed : T = BLOCK_SIZE * (T / BLOCK_SIZE) + T mod BLOCK_SIZE) by (apply Z.div_mod; lia). pose proof (Z.mod_pos_bound T BLOCK_SIZE HB).
  destruct pc; simpl in Hp |- *; unfold at_end, in_last, first_of in Hp; nia.
Qed.

Lemma iinv_quiet y : iinv y -> iquiet y ->
  let b := implicit_base (implicit_state y) in
  index_of <$> implicit_taken y ≡ₚ seqZ 0 (headIndex b) /\
  zlen (given_back y) = headIndex b / BLOCK_SIZE /\
  Z.of_nat (stdpp.base.size (owned_blocks (implicit_state y))) <= tailIndex b / BLOCK_SIZE + 1 - headIndex b / BLOCK_SIZE.
Proof.
  intros (z & fin & granted & rejected & H & V & [Hc [He Ht _ _ _] Hm _ [Hnd Hfk] (B1 & B2 & _) [_ Hgl]]) Hq. simpl. rewrite B1, B2.
  rewrite held_view, (held_iquiet _ y eq_refl Hq), app_nil_r in He. rewrite held_view, (held_iquiet _ y eq_refl Hq), app_nil_r in Ht.
  rewrite (held_iquiet clearing y eq_refl Hq), (held_iquiet freeing y eq_refl Hq) in *. simpl in Hnd, Hfk. split; [by rewrite Ht|].
  pose proof block_size_bound. pose proof (head_bound _ _ _ _ _ _ _ Hc) as Hb. assert (0 <= H / BLOCK_SIZE) by (apply Z.div_pos; lia).
  assert (Hf : g_freed z ≡ₚ seq 0 (Z.to_nat (H / BLOCK_SIZE))).
  { apply NoDup_Permutation; [done|apply NoDup_seq|]. intros k. rewrite Hfk, (full_below _ H) by done. rewrite elem_of_seq. lia. }
  split; [apply Permutation_length in Hf; rewrite length_seq in Hf; unfold zlen; lia|].
  set (n := length (g_blocks z)). set (h := Z.to_nat (H / BLOCK_SIZE)) in *.
  set (l := ((fun k => default 0 (g_blocks z !! k)) <$> seq h (n - h)) ++ option_list (private (implicit_producer y))).
  assert (Hs : (map_to_list (owned_blocks (implicit_state y))).*1 ⊆+ l).
  { apply NoDup_submseteq; [apply NoDup_fst_map_to_list|]. intros p Hp. apply list_elem_of_fmap in Hp as ([p' b] & -> & Hp). apply elem_of_map_to_list in Hp.
    apply elem_of_app. destruct (im_owned _ _ _ _ _ _ _ _ Hm p' ltac:(by eexists)) as [(k & Hk & Hnf)|E]; [left|right; simpl; rewrite E; set_solver].
    apply list_elem_of_fmap. exists k. split; [by rewrite Hk|]. pose proof (lookup_lt_Some _ _ _ Hk). apply elem_of_seq.
    destruct (Nat.lt_ge_cases k h) as [Hlt|Hge]; [|unfold n; lia]. destruct Hnf. rewrite Hf. apply elem_of_seq. lia. }
  apply submseteq_length in Hs. unfold l in Hs. rewrite length_fmap, length_map_to_list, length_app, length_fmap, length_seq in Hs.
  pose proof (blocks_bound _ _ _ _ _ _ _ _ Hm) as Hbb. fold n in Hbb.
  assert (Hle : (h <= n)%nat); [|lia]. destruct (Nat.le_gt_cases h n) as [|Hgt]; [done|]. exfalso.
  pose proof (full_published _ _ _ _ _ _ _ _ n Hm) as Hp. unfold n at 2 in Hp. cut (n < n)%nat; [lia|]. apply Hp. apply (full_below fin H n He). done.
Qed.

(** ** What the queue promises *)

(** A state of a run, in which the counters are small. *)
Definition ivalid y : Prop := reachable (implicit_initial garbage) step y /\ ismall y.

(** C9: whatever the interleaving, no step of the producer or of a consumer
    goes wrong: each that is at work has a next step, whatever [malloc] and
    [requisition_block] answer, so that no bad pointer is followed, no [assert]
    fails and no block is given back twice.  The elements moved out are those
    enqueued, each at most once and in order for each consumer, and a block is
    given back without elements, after all its elements were counted. *)
Theorem implicit_queue_safe y : ivalid y ->
  (implicit_idle (implicit_producer y) = false ->
     forall c, implicit_choice_ok c (implicit_state y) -> is_Some (implicit_producer_step garbage c (implicit_producer y) (implicit_state y))) /\
  (forall t pc, implicit_consumers y !! t = Some pc -> pc <> IAt CIdle -> is_Some (implicit_consumer_step pc (implicit_state y))) /\
  (forall t i v, (t, i, v) ∈ implicit_taken y -> 0 <= i /\ implicit_enqueued y !! Z.to_nat i = Some v) /\
  NoDup (index_of <$> implicit_taken y) /\ (forall t, StronglySorted Z.lt (taken_by t (implicit_taken y))) /\
  Forall given_ok (given_back y).
Proof.
  intros [Hr Hs]. destruct (implicit_queue_inv y Hr) as [_ Hi]. specialize (Hi Hs). destruct (iinv_taken y Hi) as (H1 & H2 & H3). split_and!; try done.
  - intros Hidle c Hc. destruct (iinv_producer y c Hs Hc Hidle Hi) as (pc & s & E & _). by eexists.
  - intros t pc Ht Hne. destruct (iinv_consumer y t pc Hs Ht Hne Hi) as (pc' & s & out & E & _). by eexists.
  - destruct Hi as (z & fin & granted & rejected & H & V & Hi). apply (ii_given _ _ _ _ _ _ _ Hi).
Qed.

(** C10: no block is kept longer than it is needed, and no element is lost:
    when no consumer is at work, exactly the elements before [headIndex] were
    moved out, the blocks of which all elements were moved out are all given
    back, and the producer has no more blocks than the elements in the queue
    need, but for one. *)
Theorem implicit_blocks_returned y : ivalid y -> iquiet y ->
  let b := implicit_base (implicit_state y) in
  index_of <$> implicit_taken y ≡ₚ seqZ 0 (headIndex b) /\
  zlen (given_back y) = headIndex b / BLOCK_SIZE /\
  Z.of_nat (stdpp.base.size (owned_blocks (implicit_state y))) <= tailIndex b / BLOCK_SIZE + 1 - headIndex b / BLOCK_SIZE.
Proof. intros [Hr Hs] Hq. apply iinv_quiet; [|done]. by apply implicit_queue_inv. Qed.

(** ** Runs *)

Definition ifresh_choice (c : Choice (A := A)) s : bool :=
  match malloc c with Some p => negb (p =? 0) && bool_decide (index_headers s !! p = None) | None => true end &&
  match requisition_block c with
  | Some (p, b) =>
      negb (p =? 0) && bool_decide (owned_blocks s !! p = None) &&
      forallb (fun x => match x with None => true | Some _ => false end) (elements b) && (length (elements b) =? Z.to_nat BLOCK_SIZE)%nat
  | None => true
  end.

Definition itake_turn y (a : Turn (A := A)) : option Sys :=
  match a with
  | Enqueue mode x =>
      if implicit_idle (implicit_producer y) then
        Some (MkISystem (implicit_state y) (QStart mode x) (implicit_consumers y) (implicit_enqueued y) (implicit_taken y) (implicit_claimed y) (given_back y))
      else None
  | Dequeue t op =>
      if bool_decide (implicit_consumers y !! t = Some (IAt CIdle)) && op_ok op then
        Some (MkISystem (implicit_state y) (implicit_producer y) (<[t:=IAt (CTail op)]> (implicit_consumers y)) (implicit_enqueued y)
          (implicit_taken y) (implicit_claimed y) (given_back y)) else None
  | ProducerTurn c =>
      if ifresh_choice c (implicit_state y) then
        '(pc, s) ← implicit_producer_step garbage c (implicit_producer y) (implicit_state y);
        Some (MkISystem s pc (implicit_consumers y) (iconstructed (implicit_producer y) (implicit_enqueued y)) (implicit_taken y)
          (implicit_claimed y) (given_back y))
      else None
  | ConsumerTurn t =>
      pc ← implicit_consumers y !! t;
      '(pc', s, out) ← implicit_consumer_step pc (implicit_state y);
      Some (MkISystem s (implicit_producer y) (<[t:=pc']> (implicit_consumers y)) (implicit_enqueued y)
        (implicit_taken y ++ match out with Some (i, v) => [(t, i, v)] | None => [] end) (implicit_claimed y + implicit_claims pc)
        (given_back y ++ gives_back pc (implicit_state y)))
  end.

Fixpoint irun (l : list Turn) y : option Sys :=
  match l with [] => Some y | a :: l => y ← itake_turn y a; irun l y end.

Lemma ifresh_choice_ok c s : ifresh_choice c s = true -> implicit_choice_ok c s.
Proof.
  unfold ifresh_choice. intros Hc. apply andb_true_iff in Hc as [Hm Hr]. split.
  - intros p E. rewrite E in Hm. apply andb_true_iff in Hm as [H1 H2]. apply bool_decide_eq_true in H2.
    split; [|done]. intros ->. done.
  - intros p b E. rewrite E, !andb_true_iff in Hr. destruct Hr as (((H1 & H2) & H3) & H4).
    apply bool_decide_eq_true in H2. apply Nat.eqb_eq in H4. split; [by intros ->|]. split; [done|]. by apply none_elements.
Qed.

Lemma itake_turn_step y a y' : itake_turn y a = Some y' -> step y y'.
Proof.
  destruct a; simpl; intros E.
  - destruct (implicit_idle (implicit_producer y)) eqn:Ei; [|done]. injection E as <-. by apply implicit_enqueue.
  - case_match eqn:Ec; [|done]. injection E as <-. apply andb_true_iff in Ec as [Ec Ho]. apply bool_decide_eq_true in Ec. by apply implicit_dequeue.
  - destruct (ifresh_choice c (implicit_state y)) eqn:Ec; [|done].
    destruct (implicit_producer_step garbage c (implicit_producer y) (implicit_state y)) as [[pc s]|] eqn:Es; [simpl in E|done]. injection E as <-.
    eapply implicit_producer_moves; [by apply ifresh_choice_ok|done].
  - destruct (implicit_consumers y !! t) as [pc|] eqn:Ht; [simpl in E|done].
    destruct (implicit_consumer_step pc (implicit_state y)) as [[[pc' s] out]|] eqn:Ec; [simpl in E|done]. injection E as <-. by apply implicit_consumer_moves.
Qed.

Lemma irun_steps l y y' : irun l y = Some y' -> rtc step y y'.
Proof.
  revert y. induction l as [|a l IH]; intros y E; simpl in E; [by injection E as ->|].
  destruct (itake_turn y a) as [y1|] eqn:Ea; [|done]. eapply rtc_l; [by eapply itake_turn_step|by apply IH].
Qed.
End Queue.

(** *** An example

    A whole block of elements is enqueued, and one consumer takes it in bulk:
    the block is given back. *)

#[local] Existing Instance ConcurrentQueueDefaultTraits.

Definition iexample_start : option (ImplicitSystem (A := Z)) :=
  s ← ImplicitProducer_ctor 0 (Some 100); Some (MkISystem s (QIdle true) [IAt CIdle; IAt CIdle] [] [] 0 []).

Definition iexample_run : list (Turn (A := Z)) :=
  [Enqueue CanAlloc 0] ++ producer_turns 5 ++ [ProducerTurn (MkChoice None (Some (200, example_block)))] ++ producer_turns 4 ++
  flat_map (fun x => Enqueue CannotAlloc (Z.of_nat x) :: producer_turns 3) (seq 1 31) ++
  [Dequeue 1 (Bulk 40); Dequeue 0 Single] ++ replicate 76 (ConsumerTurn 1).

Definition iexample_y0 : ImplicitSystem (A := Z) :=
  default (MkISystem (MkImplicit (MkBase 0 0 0 0 0) 0 0 ∅ [] ∅) (QIdle true) [] [] [] 0 []) iexample_start.
Definition iexample_at (l : list (Turn (A := Z))) : ImplicitSystem (A := Z) := default iexample_y0 (irun 0 l iexample_y0).
Definition iexample_state : ImplicitSystem (A := Z) := iexample_at iexample_run.
Definition iexample_quiet : ImplicitSystem (A := Z) := iexample_at (iexample_run ++ [ConsumerTurn 1] ++ replicate 3 (ConsumerTurn 0)).

Lemma iexample_size : 0 <= 5 <= 61 /\ IMPLICIT_INITIAL_INDEX_SIZE = 2 ^ 5.
Proof. by split. Qed.

Lemma iexample_initial : implicit_initial 0 iexample_y0.
Proof. exists (Some 100), (implicit_state iexample_y0). split; [done|]. split; [reflexivity|]. by exists 2%nat, true. Qed.

Lemma iexample_valid l : irun 0 l iexample_y0 = Some (iexample_at l) -> ismall (iexample_at l) -> ivalid 0 (iexample_at l).
Proof. intros E Hs. split; [|done]. exists iexample_y0. split; [apply iexample_initial|]. by eapply irun_steps. Qed.

Lemma implicit_queue_safe_witness :
  implicit_consumers iexample_state !! 1%nat = Some (IFree (Bulk 40) 0 32 100 0 0 32 200) /\
  is_Some (implicit_consumer_step (IFree (Bulk 40) 0 32 100 0 0 32 200) (implicit_state iexample_state)) /\
  length (implicit_taken iexample_state) = 32%nat.
Proof.
  split; [vm_compute; reflexivity|]. split; [|vm_compute; reflexivity].
  refine (proj1 (proj2 (implicit_queue_safe 0 5 iexample_size iexample_state _)) 1%nat _ _ _); [|vm_compute; reflexivity|done].
  apply iexample_valid; [vm_compute; reflexivity|by vm_compute].
Defined.

Lemma implicit_blocks_returned_witness : zlen (given_back iexample_quiet) = 1 /\
  tailIndex (implicit_base (implicit_state iexample_quiet)) = 32 /\ owned_blocks (implicit_state iexample_quiet) = ∅.
Proof.
  split; [|split; vm_compute; reflexivity].
  destruct (implicit_blocks_returned 0 5 iexample_size iexample_quiet) as (_ & E & _).
  - apply iexample_valid; [vm_compute; reflexivity|by vm_compute].
  - intros [|[|t]] pc E; vm_compute in E; congruence.
  - rewrite E. vm_compute. reflexivity.
Defined.
