(* ===== verification/BlockingQueue.v ===== *)
(** * The blocking queue
    ([whisperlib/sync/moody/blockingconcurrentqueue.h])

    [BlockingConcurrentQueue] is a concurrent queue and a semaphore: enqueueing
    signals as many permits as elements, dequeueing first takes permits, then
    takes as many elements, trying until it has them.

    The threads are programs: each access to the semaphore's memory is a step
    (LightweightSemaphore.v), and so is each operation on the inner queue, at
    the moment it takes effect.  What these promise is the class
    [ConcurrentQueue]; other threads, and the inner queue itself, may move
    between any two steps.  An inner [try_dequeue] may find nothing although
    there are elements, and one of a bulk that takes elements in turn from
    several producers is several operations, as the loop around it repeats it
    anyway.  A failed [assert] has no next state. *)

From S2P Require Import Prelude Posix MoodyBlock LightweightSemaphore.

(** ** Calls *)

(** Null, or a token; [try_enqueue] does not allocate. *)
Inductive EnqueueCall (T : Type) :=
| Enqueue (mode : AllocationMode) (token : Z) (item : T)
| EnqueueBulk (mode : AllocationMode) (token : Z) (items : list T).
Arguments Enqueue {_} _ _ _.
Arguments EnqueueBulk {_} _ _ _.

Inductive DequeueKind :=
| TryDequeue
| TryDequeueBulk (max : Z)
| WaitDequeue
| WaitDequeueTimed (timeout_usecs : Z)
| WaitDequeueBulk (max : Z)
| WaitDequeueBulkTimed (max timeout_usecs : Z).

Record DequeueCall := MkDequeue { consumer_token : Z; how : DequeueKind }.

(** [duration_cast<microseconds>(timeout).count()], for a duration of [count]
    times [num / den] seconds. *)
Definition microseconds (num den count : Z) : Z := Z.quot (count * num * 1000000) den.
Definition wait_dequeue_timed (num den count : Z) : DequeueKind := WaitDequeueTimed (microseconds num den count).
Definition wait_dequeue_bulk_timed (max num den count : Z) : DequeueKind :=
  WaitDequeueBulkTimed max (microseconds num den count).

Definition items_of {T} (e : EnqueueCall T) : list T :=
  match e with Enqueue _ _ item => [item] | EnqueueBulk _ _ items => items end.

(** What [signal] is called with. *)
Definition signal_count {T} (e : EnqueueCall T) : Z :=
  match e with Enqueue _ _ _ => 1 | EnqueueBulk _ _ items => i64 (zlen items) end.

(** The call on the semaphore. *)
Definition sema_op (d : DequeueKind) : op :=
  match d with
  | TryDequeue => TryWait
  | TryDequeueBulk max => TryWaitMany (i64 max)
  | WaitDequeue => Wait (-1)
  | WaitDequeueTimed timeout_usecs => Wait timeout_usecs
  | WaitDequeueBulk max => WaitMany (i64 max) (-1)
  | WaitDequeueBulkTimed max timeout_usecs => WaitMany (i64 max) timeout_usecs
  end.

Inductive Reply (T : Type) :=
| Enqueued (e : EnqueueCall T) (result : bool)
| Dequeued (d : DequeueCall) (items : list T).
Arguments Enqueued {_} _ _.
Arguments Dequeued {_} _ _.

(** ** The inner queue

    Its operations as relations between the queue before and after, with the
    result; [internal] is what happens to it in between. *)
Class ConcurrentQueue (T Q : Type) := {
  contents : Q -> list T;
  inner_enqueue : Q -> EnqueueCall T -> bool -> Q -> Prop;
  inner_try_dequeue : Q -> Z -> Z -> list T -> Q -> Prop;
  internal : Q -> Q -> Prop
}.

(** An element enqueued is in the queue until it is dequeued; a call that fails
    changes nothing. *)
Class ConcurrentQueueLaws (T Q : Type) `{!ConcurrentQueue T Q} : Prop := {
  enqueue_law q e ok q' : inner_enqueue q e ok q' -> contents q' ≡ₚ (if ok then contents q ++ items_of e else contents q);
  dequeue_law q token max items q' :
    inner_try_dequeue q token max items q' -> zlen items <= max /\ contents q ≡ₚ items ++ contents q';
  internal_law q q' : internal q q' -> contents q' ≡ₚ contents q
}.

(** ** The queue *)

(** The semaphore is held by a [unique_ptr]. *)
Record BlockingConcurrentQueue (Q : Type) := MkBlocking { inner : Q; sema : option Shared }.
Arguments MkBlocking {_} _ _.
Arguments inner {_} _.
Arguments sema {_} _.

(** [malloc] answers memory, or null; then [bad_alloc] is thrown. *)
Definition create_semaphore (malloc : option Z) : option Shared :=
  match malloc with Some _ => Some (MkShared 0 0 0 []) | None => None end.
Definition BlockingConcurrentQueue_ctor {Q} (inner : Q) (malloc : option Z) : option (BlockingConcurrentQueue Q) :=
  match create_semaphore malloc with None => None | Some s => Some (MkBlocking inner (Some s)) end.

(** [swap_internal]; a queue swapped with itself stays. *)
Definition swap_internal {Q} (a b : BlockingConcurrentQueue Q) : BlockingConcurrentQueue Q * BlockingConcurrentQueue Q :=
  (MkBlocking (inner b) (sema b), MkBlocking (inner a) (sema a)).

(** A moved-from queue has no semaphore; [move_inner] is the constructor of the
    inner queue. *)
Definition BlockingConcurrentQueue_move {Q} (move_inner : Q -> Q * Q) (other : BlockingConcurrentQueue Q) :
    BlockingConcurrentQueue Q * BlockingConcurrentQueue Q :=
  let '(mine, rest) := move_inner (inner other) in (MkBlocking mine (sema other), MkBlocking rest None).

(** ** The threads *)

Section Threads.
Context {traits : Traits} {T Q : Type} `{!ConcurrentQueue T Q}.

(** What a thread is doing: about to call the inner [enqueue]; about to call
    [signal]; in it; in a call on the semaphore (or about to call it, if
    [Idle]); in the loop on the inner [try_dequeue], which has [got] elements
    of [max]. *)
Inductive queue_pc :=
| QIdle
| QEnqueue (e : EnqueueCall T)
| QSignal (e : EnqueueCall T)
| QPosting (e : EnqueueCall T) (p : wait_pc)
| QAcquire (d : DequeueCall) (p : wait_pc)
| QDequeue (d : DequeueCall) (got : list T) (max : Z).

(** [while (count != max)] *)
Definition dequeue_loop (d : DequeueCall) (got : list T) (max : Z) : queue_pc * list (Reply T) :=
  if zlen got =? max then (QIdle, [Dequeued d got]) else (QDequeue d got max, []).

(** The semaphore has answered [r], a boolean as 0 or 1. *)
Definition granted (d : DequeueCall) (r : Z) : option (queue_pc * list (Reply T)) :=
  match how d with
  | TryDequeue | WaitDequeueTimed _ => Some (if r =? 0 then (QIdle, [Dequeued d []]) else dequeue_loop d [] 1)
  | WaitDequeue => Some (if r =? 0 then (QAcquire d Idle, []) else dequeue_loop d [] 1)
  | WaitDequeueBulk _ => if 0 <? r then Some (dequeue_loop d [] (u64 r)) else None
  | TryDequeueBulk _ | WaitDequeueBulkTimed _ _ => Some (dequeue_loop d [] (u64 r))
  end.

(** The answer of a call on the semaphore that a step has finished. *)
Definition answer (s s' : Shared) : option Z :=
  match drop (length (results s)) (results s') with (_, r) :: _ => Some r | [] => None end.

(** A step on the semaphore; [fails] says that a weak [compare_exchange] fails
    or that a wait times out. *)
Definition sema_step (fails : bool) (s : Shared) (p : queue_pc) : option (Shared * queue_pc * list (Reply T)) :=
  let go := if fails then Fails else Go in
  let signalling e x :=
    let '(s, q) := x : Shared * wait_pc in
    match q with Idle => (s, QIdle, [Enqueued e true]) | _ => (s, QPosting e q, []) end in
  match p with
  | QSignal e => signalling e <$> advance (i32 MAX_SEMA_SPINS) (CallSignal (signal_count e)) s Idle
  | QPosting e q => signalling e <$> advance (i32 MAX_SEMA_SPINS) go s q
  | QAcquire d q =>
      '(s', q) ← advance (i32 MAX_SEMA_SPINS) (match q with Idle => Call (sema_op (how d)) | _ => go end) s q;
      match answer s s' with
      | Some r => '(p, replies) ← granted d r; Some (s', p, replies)
      | None => Some (s', QAcquire d q, [])
      end
  | _ => None
  end.

(** The threads of a program; [entered] are the elements that were enqueued,
    [replies] the finished calls, with the thread. *)
Record System := MkSystem {
  queue : BlockingConcurrentQueue Q;
  programs : list queue_pc;
  entered : list T;
  replies : list (nat * Reply T)
}.

(** A sequence in memory has less than [2^63] elements; a maximum is a
    [size_t]. *)
Definition enqueue_ok (e : EnqueueCall T) : Prop := zlen (items_of e) < 2 ^ 63.
Definition limit (d : DequeueKind) : Z :=
  match d with
  | TryDequeue | WaitDequeue | WaitDequeueTimed _ => 1
  | TryDequeueBulk max | WaitDequeueBulk max | WaitDequeueBulkTimed max _ => max
  end.
Definition dequeue_ok (d : DequeueKind) : Prop := 0 <= limit d < 2 ^ 64.

Inductive queue_step : System -> System -> Prop :=
| enqueue_call y t e :
    programs y !! t = Some QIdle -> enqueue_ok e ->
    queue_step y (MkSystem (queue y) (<[t:=QEnqueue e]> (programs y)) (entered y) (replies y))
| dequeue_call y t d :
    programs y !! t = Some QIdle -> dequeue_ok (how d) ->
    queue_step y (MkSystem (queue y) (<[t:=QAcquire d Idle]> (programs y)) (entered y) (replies y))
| enqueue_step y t e ok q :
    programs y !! t = Some (QEnqueue e) -> inner_enqueue (inner (queue y)) e ok q ->
    queue_step y (MkSystem (MkBlocking q (sema (queue y)))
      (<[t:=if ok then QSignal e else QIdle]> (programs y))
      (entered y ++ if ok then items_of e else [])
      (replies y ++ if ok then [] else [(t, Enqueued e false)]))
| semaphore_step y t fails s p s' p' out :
    programs y !! t = Some p -> sema (queue y) = Some s -> sema_step fails s p = Some (s', p', out) ->
    queue_step y (MkSystem (MkBlocking (inner (queue y)) (Some s')) (<[t:=p']> (programs y)) (entered y)
      (replies y ++ map (pair t) out))
| dequeue_step y t d got max items q p' out :
    programs y !! t = Some (QDequeue d got max) ->
    inner_try_dequeue (inner (queue y)) (consumer_token d) (max - zlen got) items q ->
    dequeue_loop d (got ++ items) max = (p', out) ->
    queue_step y (MkSystem (MkBlocking q (sema (queue y))) (<[t:=p']> (programs y)) (entered y)
      (replies y ++ map (pair t) out))
| internal_step y q :
    internal (inner (queue y)) q ->
    queue_step y (MkSystem (MkBlocking q (sema (queue y))) (programs y) (entered y) (replies y)).

(** A new queue, and [n] threads that use it. *)
Definition queue_initial (n : nat) (y : System) : Prop :=
  exists q b malloc, contents q = [] /\ BlockingConcurrentQueue_ctor q malloc = Some b /\ y = MkSystem b (repeat QIdle n) [] [].

Definition size_approx (b : BlockingConcurrentQueue Q) : option Z := availableApprox <$> sema b.
End Threads.
