(* ===== verification/BlockingQueueSpec.v ===== *)
(** * What the blocking queue promises

    The permits of the semaphore and the elements of the queue are counted
    together (BlockingQueue.v): a thread that has permits has elements to take. *)

From S2P Require Import Prelude Posix MoodyBlock LightweightSemaphore BlockingQueue.

(** ** Steps of the semaphore *)

(** The call that a thread is in. *)
Definition op_of (p : wait_pc) : option op :=
  match p with
  | Trying o _ _ | TryCas o _ _ _ | Spinning o _ | SpinCas o _ _ | Subtracting o | Waiting o | Recheck o | Rechecked o _ => Some o
  | Idle | Posting _ => None
  end.

(** The call [o] goes on, or has answered. *)
Definition goes_on (o : op) (s s' : Shared) (p' : wait_pc) : Prop :=
  signalled s' = signalled s /\
  (results s' = results s /\ op_of p' = Some o \/ p' = Idle /\ exists r, results s' = results s ++ [(o, r)]).

Section Steps.
Context (m : Z).
Implicit Types (s : Shared) (p : wait_pc).

Lemma goes_on_result o r s s' : results s' = results s -> signalled s' = signalled s -> goes_on o s (returned o r s') Idle.
Proof. intros E1 E2. split; [done|]. right. split; [done|]. exists r. cbn. by rewrite E1. Qed.

Lemma goes_on_moves o s s' p' : results s' = results s -> signalled s' = signalled s -> op_of p' = Some o -> goes_on o s s' p'.
Proof. intros E1 E2 Hp. split; [done|]. by left. Qed.

Lemma tried_goes_on o have r s s' x p' : results s' = results s -> signalled s' = signalled s ->
  tried m o have r s' = (x, p') -> goes_on o s x p'.
Proof.
  intros E1 E2 E. unfold tried in E. destruct o; repeat case_match; injection E as <- <-;
    first [by apply goes_on_result|by apply goes_on_moves].
Qed.

Lemma obtained_goes_on o s s' x p' : results s' = results s -> signalled s' = signalled s ->
  obtained o s' = (x, p') -> goes_on o s x p'.
Proof.
  intros E1 E2 E. unfold obtained in E. destruct o; repeat case_match; injection E as <- <-;
    first [by apply goes_on_result|by apply goes_on_moves].
Qed.

(** In a call, each step goes on with it. *)
Lemma advance_goes_on c s p s' p' o : op_of p = Some o -> advance m c s p = Some (s', p') -> goes_on o s s' p'.
Proof.
  intros Ho E. destruct p; try done; injection Ho as ->; destruct c; try done; cbn in E;
    repeat (case_match; try done); apply (inj Some) in E;
    first [by eapply tried_goes_on in E|by eapply obtained_goes_on in E|idtac]; injection E as <- <-;
    first [by apply goes_on_moves|by apply goes_on_result].
Qed.

Lemma advance_call o s s' p' : advance m (Call o) s Idle = Some (s', p') -> allowed o = true /\ s' = s /\ op_of p' = Some o.
Proof. cbn. destruct (allowed o); [|done]. by intros [= <- <-]. Qed.

Definition is_posting (p : wait_pc) : bool := match p with Idle | Posting _ => true | _ => false end.

Lemma advance_signal count s s' p' : advance m (CallSignal count) s Idle = Some (s', p') ->
  0 <= count /\ results s' = results s /\ signalled s' = signalled s + count /\ is_posting p' = true.
Proof.
  cbn. destruct (Z.leb_spec 0 count); [|done]. intros [= <- <-]. split_and!; [done..|]. by destruct (0 <? _).
Qed.

Lemma advance_post (fails : bool) s p s' p' : p <> Idle -> is_posting p = true ->
  advance m (if fails then Fails else Go) s p = Some (s', p') ->
  results s' = results s /\ signalled s' = signalled s /\ is_posting p' = true.
Proof. intros Hi Hp E. destruct p, fails; try done; cbn in E; case_match; by injection E as <- <-. Qed.
End Steps.

(** ** Counting permits and elements *)

Section Queue.
Context {traits : Traits} {T Q : Type} `{laws : ConcurrentQueueLaws T Q}.
Context (n : nat) (Hn : Z.of_nat n < 2 ^ 31).
Abbreviation Sys := (System (T := T) (Q := Q)).
Abbreviation pc := (queue_pc (T := T)).
Abbreviation spins := (i32 MAX_SEMA_SPINS).
Implicit Types (y : Sys) (p : pc).

(** Where a thread is in the semaphore; the elements that it is entitled to, or
    has not signalled yet; those that it has taken. *)
Definition sem_pc p : wait_pc := match p with QPosting _ q | QAcquire _ q => q | _ => Idle end.
Definition due p : Z :=
  match p with QSignal e => zlen (items_of e) | QDequeue _ got max => max - zlen got | _ => 0 end.
Definition in_hand p : list T := match p with QDequeue _ got _ => got | _ => [] end.

Definition items_got (r : Reply T) : list T := match r with Dequeued _ items => items | Enqueued _ _ => [] end.
Definition delivered (l : list (nat * Reply T)) : list T := flat_map (fun x => items_got x.2) l.

(** A call that waits without a time limit answers an element at least. *)
Definition waits (d : DequeueKind) : bool := match d with WaitDequeue | WaitDequeueBulk _ => true | _ => false end.
Definition reply_ok (r : Reply T) : Prop :=
  match r with
  | Enqueued _ _ => True
  | Dequeued d items => zlen items <= limit (how d) /\ (waits (how d) = true -> 1 <= zlen items)
  end.

Definition program_ok p : Prop :=
  match p with
  | QIdle => True
  | QEnqueue e | QSignal e => enqueue_ok e
  | QPosting _ q => is_posting q = true /\ q <> Idle
  | QAcquire d q => dequeue_ok (how d) /\ (q = Idle \/ op_of q = Some (sema_op (how d)))
  | QDequeue d got max => zlen got < max <= limit (how d)
  end.

Definition sem_of (s : Shared) (l : list pc) : semaphore := MkSemaphore s (sem_pc <$> l).

Record inv_with (s : Shared) y : Prop := {
  qi_sema : sema (queue y) = Some s;
  qi_sem : sem_inv 0 n (sem_of s (programs y));
  qi_balance : zlen (contents (inner (queue y))) + sum (results s) = signalled s + total due (programs y);
  qi_elements : entered y ≡ₚ contents (inner (queue y)) ++ held in_hand (programs y) ++ delivered (replies y);
  qi_programs : Forall program_ok (programs y);
  qi_replies : Forall (fun x => reply_ok x.2) (replies y)
}.
Definition queue_inv y : Prop := exists s, inv_with s y.

Lemma delivered_app l k : delivered (l ++ k) = delivered l ++ delivered k.
Proof. apply flat_map_app. Qed.

Lemma elements_shift (e c h d ent c' h' out H H' : list T) :
  e ≡ₚ c ++ h ++ d -> h' ++ H ≡ₚ h ++ H' -> ent ++ c ++ H ≡ₚ c' ++ H' ++ out -> e ++ ent ≡ₚ c' ++ h' ++ d ++ out.
Proof.
  intros E1 E2 E3. apply (Permutation_app_inv_r H).
  trans (h ++ d ++ (ent ++ c ++ H)); [rewrite E1; solve_Permutation|].
  rewrite E3. trans (c' ++ d ++ out ++ (h ++ H')); [solve_Permutation|]. rewrite <- E2. solve_Permutation.
Qed.

(** A thread moves, and with it the queue and the semaphore. *)
Lemma inv_update s y t p p' q' s' ent out :
  inv_with s y -> programs y !! t = Some p -> sem_inv 0 n (sem_of s' (<[t:=p']> (programs y))) ->
  zlen (contents q') + sum (results s') - signalled s' - due p' =
    zlen (contents (inner (queue y))) + sum (results s) - signalled s - due p ->
  ent ++ contents (inner (queue y)) ++ in_hand p ≡ₚ contents q' ++ in_hand p' ++ flat_map items_got out ->
  program_ok p' -> Forall reply_ok out ->
  queue_inv (MkSystem (MkBlocking q' (Some s')) (<[t:=p']> (programs y)) (entered y ++ ent) (replies y ++ map (pair t) out)).
Proof.
  intros [Hs Hsem Hbal Hel Hp Hr] Ht Hsem' Hbal' Hel' Hp' Hr'. exists s'.
  assert (Hd : delivered (map (pair t) out) = flat_map items_got out).
  { unfold delivered. clear. induction out as [|r out IH]; [done|]. cbn. by rewrite IH. }
  split; cbn [queue inner sema programs entered replies]; [done|done| | | |].
  - rewrite (total_insert _ _ _ _ _ Ht). lia.
  - rewrite delivered_app, Hd. eapply elements_shift; [exact Hel|by apply held_insert|done].
  - by apply Forall_insert.
  - apply Forall_app. split; [done|]. apply Forall_map. by apply (Forall_impl _ _ _ Hr').
Qed.

(** A thread that leaves the semaphore as it is. *)
Lemma inv_aside s y t p p' q' ent out :
  inv_with s y -> programs y !! t = Some p -> sem_pc p' = sem_pc p ->
  zlen (contents q') - due p' = zlen (contents (inner (queue y))) - due p ->
  ent ++ contents (inner (queue y)) ++ in_hand p ≡ₚ contents q' ++ in_hand p' ++ flat_map items_got out ->
  program_ok p' -> Forall reply_ok out ->
  queue_inv (MkSystem (MkBlocking q' (Some s)) (<[t:=p']> (programs y)) (entered y ++ ent) (replies y ++ map (pair t) out)).
Proof.
  intros Hi Ht Hpc Hbal Hel Hp Hr. eapply inv_update; try done; [|lia]. unfold sem_of.
  rewrite list_fmap_insert, list_insert_id; [apply Hi|]. by rewrite list_lookup_fmap, Ht, Hpc.
Qed.

(** A step of the semaphore by a thread. *)
Lemma sem_moves s y t p s' p' c : inv_with s y -> programs y !! t = Some p ->
  advance spins c s (sem_pc p) = Some (s', sem_pc p') -> sem_inv 0 n (sem_of s' (<[t:=p']> (programs y))).
Proof.
  intros Hi Ht E. eapply (sem_inv_step 0 spins n Hn); [exact (qi_sem _ _ Hi)|]. unfold sem_of. rewrite list_fmap_insert.
  econstructor; [|exact E]. by rewrite list_lookup_fmap, Ht.
Qed.

(** A call that waits, and has been granted what it waits for. *)
Lemma loop_goes_on d got max p' out : zlen got <= max <= limit (how d) -> (waits (how d) = true -> 1 <= max) ->
  dequeue_loop d got max = (p', out) ->
  sem_pc p' = Idle /\ due p' = max - zlen got /\ in_hand p' ++ flat_map items_got out = got /\ program_ok p' /\ Forall reply_ok out.
Proof.
  intros Hm Hw. unfold dequeue_loop. destruct (Z.eqb_spec (zlen got) max) as [E|E]; intros [= <- <-]; cbn.
  - rewrite app_nil_r. split_and!; [done|lia|done|done|]. repeat constructor; [cbn; lia|cbn; intros Hwd; specialize (Hw Hwd); lia].
  - rewrite app_nil_r. split_and!; [done|lia|done|lia|lia|constructor].
Qed.

Lemma i64_le z : 0 <= z -> i64 z <= z.
Proof. intros Hz. unfold i64. pose proof (Z.mod_le (z + 2 ^ 63) (2 ^ 64) ltac:(lia) ltac:(lia)). lia. Qed.

Lemma sema_limit d : dequeue_ok d -> max_of (sema_op d) <= limit d.
Proof. intros Hd. destruct d; cbn; try lia; by apply i64_le, Hd. Qed.

(** The semaphore answers a call: the thread has as many elements to take. *)
Lemma granted_ok d r p' out : dequeue_ok (how d) -> result_ok (sema_op (how d), r) -> granted d r = Some (p', out) ->
  sem_pc p' = Idle /\ due p' = r /\ in_hand p' ++ flat_map items_got out = [] /\ program_ok p' /\ Forall reply_ok out.
Proof.
  intros Hd [Hr Hi] E. cbn [fst snd] in Hr, Hi. pose proof (sema_limit _ Hd) as Hl. pose proof (zlen_nonneg ([] : list T)).
  assert (Hu : u64 r = r) by (apply u64_id; unfold dequeue_ok in Hd; lia).
  assert (Hloop : forall max, max = r -> (waits (how d) = true -> 1 <= r) -> dequeue_loop d [] max = (p', out) ->
    sem_pc p' = Idle /\ due p' = r /\ in_hand p' ++ flat_map items_got out = [] /\ program_ok p' /\ Forall reply_ok out).
  { intros max -> Hw El. destruct (loop_goes_on d [] r p' out) as (? & Ed & ?); try done; [change (zlen []) with 0; lia|].
    split; [done|]. split; [|done]. rewrite Ed. change (zlen []) with 0. lia. }
  assert (Hone : forall d0, how d = d0 -> limit d0 = 1 -> 0 <= r <= 1 -> (waits d0 = true -> 1 <= r) ->
    (if r =? 0 then (QIdle, [Dequeued d []]) else dequeue_loop d [] 1) = (p', out) ->
    sem_pc p' = Idle /\ due p' = r /\ in_hand p' ++ flat_map items_got out = [] /\ program_ok p' /\ Forall reply_ok out).
  { intros d0 <- _ Hr1 Hw E1. destruct (Z.eqb_spec r 0); [by apply (Hloop 0)|by apply (Hloop 1); [lia|..]]. }
  unfold granted in E. destruct (how d) eqn:Eh; cbn in Hr, Hi.
  - apply (inj Some) in E. by apply (Hone TryDequeue).
  - apply (inj Some) in E. rewrite Hu in E. by apply (Hloop r).
  - apply (Hone WaitDequeue); [done|done|lia|by intros _; apply Hi|]. specialize (Hi eq_refl).
    destruct (Z.eqb_spec r 0); [lia|]. by apply (inj Some) in E.
  - apply (inj Some) in E. by apply (Hone (WaitDequeueTimed timeout_usecs)).
  - destruct (Z.ltb_spec 0 r); [|done]. apply (inj Some) in E. rewrite Hu in E. apply (Hloop r); [done|lia|done].
  - apply (inj Some) in E. rewrite Hu in E. by apply (Hloop r).
Qed.

(** *** Steps on the semaphore *)

Definition after_sema y t s' p' (out : list (Reply T)) : Sys :=
  MkSystem (MkBlocking (inner (queue y)) (Some s')) (<[t:=p']> (programs y)) (entered y) (replies y ++ map (pair t) out).

Lemma signal_count_eq (e : EnqueueCall T) : enqueue_ok e -> signal_count e = zlen (items_of e).
Proof. unfold enqueue_ok. destruct e; cbn; [done|]. intros He. pose proof (zlen_nonneg items). apply i64_id. lia. Qed.

(** Only the semaphore moved. *)
Lemma inv_sema s y t p s' p' c out : inv_with s y -> programs y !! t = Some p ->
  advance spins c s (sem_pc p) = Some (s', sem_pc p') ->
  sum (results s') - signalled s' - due p' = sum (results s) - signalled s - due p ->
  in_hand p = [] -> in_hand p' ++ flat_map items_got out = [] -> program_ok p' -> Forall reply_ok out ->
  queue_inv (after_sema y t s' p' out).
Proof.
  intros Hi Ht E Hb Hh Hh' Hp Hr. unfold after_sema. rewrite <- (app_nil_r (entered y)).
  eapply inv_update; [done|done|by eapply sem_moves|lia| |done|done]. by rewrite Hh, Hh'.
Qed.

Lemma inv_signalling s y t p s' q c e : inv_with s y -> programs y !! t = Some p -> in_hand p = [] ->
  advance spins c s (sem_pc p) = Some (s', q) -> is_posting q = true ->
  sum (results s') - signalled s' = sum (results s) - signalled s - due p ->
  exists p' out, (match q with Idle => (s', QIdle, [Enqueued e true]) | _ => (s', QPosting e q, []) end) = (s', p', out) /\
    queue_inv (after_sema y t s' p' out).
Proof.
  intros Hi Ht Hh E Hq Hb. assert (q = Idle \/ q <> Idle) as [->|Hne] by (destruct q; auto).
  - eexists _, _. split; [done|]. eapply inv_sema; try done; [cbn; lia|by repeat constructor].
  - exists (QPosting e q), []. split; [by destruct q|]. eapply inv_sema; try done; [cbn; lia].
Qed.

Lemma answer_none s s' : results s' = results s -> answer s s' = None.
Proof. intros E. unfold answer. by rewrite E, drop_all. Qed.
Lemma answer_some s s' o r : results s' = results s ++ [(o, r)] -> answer s s' = Some r.
Proof. intros E. unfold answer. by rewrite E, drop_app_length. Qed.

Lemma acquire_inv s y t d q s' q' c : inv_with s y -> programs y !! t = Some (QAcquire d q) ->
  advance spins c s q = Some (s', q') -> goes_on (sema_op (how d)) s s' q' ->
  forall p' out, match answer s s' with
    | Some r => '(p, replies) ← granted d r; Some (s', p, replies)
    | None => Some (s', QAcquire d q', [])
    end = Some (s', p', out) -> queue_inv (after_sema y t s' p' out).
Proof.
  intros Hi Ht E [Hsig Hres] p' out Ep. pose proof (Forall_lookup_1 _ _ _ _ (qi_programs _ _ Hi) Ht) as [Hd _].
  assert (Hmid : sem_inv 0 n (sem_of s' (<[t:=QAcquire d q']> (programs y)))) by by eapply sem_moves.
  destruct Hres as [[Er Ho]|[-> [r Er]]].
  - rewrite (answer_none _ _ Er) in Ep. injection Ep as <- <-. eapply inv_sema; try done; [rewrite Er, Hsig; cbn; lia|by split; [|right]].
  - rewrite (answer_some _ _ _ _ Er) in Ep. destruct (granted d r) as [[p2 out2]|] eqn:Eg; [|done]. injection Ep as -> ->.
    assert (Hr : result_ok (sema_op (how d), r)).
    { pose proof (si_results _ _ _ Hmid) as Hf. cbn [sem_of shared] in Hf. rewrite Er in Hf.
      apply Forall_app in Hf as [_ Hf]. rewrite Forall_singleton in Hf. exact Hf. }
    destruct (granted_ok d r p' out Hd Hr Eg) as (Epc & Edue & Eh & Hp & Ho).
    eapply inv_sema; try done; [by rewrite Epc|]. rewrite Er, Hsig, (sum_snoc n), Edue. cbn. lia.
Qed.

Lemma sema_step_inv s y t fails p s' p' out : inv_with s y -> programs y !! t = Some p ->
  sema_step fails s p = Some (s', p', out) -> queue_inv (after_sema y t s' p' out).
Proof.
  intros Hi Ht E. pose proof (Forall_lookup_1 _ _ _ _ (qi_programs _ _ Hi) Ht) as Hp.
  destruct p as [|e|e|e q|d q|d got max]; try done; cbn [sema_step] in E.
  - destruct (advance _ _ _ _) as [[s1 q]|] eqn:Ea; [|done]. apply (inj Some) in E.
    destruct (advance_signal _ _ _ _ _ Ea) as (_ & Er & Es & Hq).
    destruct (inv_signalling s y t (QSignal e) s1 q _ e Hi Ht eq_refl Ea Hq) as (p2 & out2 & E2 & Hinv).
    { rewrite Er, Es, signal_count_eq by done. cbn. lia. }
    rewrite E2 in E. by simplify_eq.
  - destruct Hp as [Hpost Hne]. destruct (advance _ _ _ _) as [[s1 q1]|] eqn:Ea; [|done]. apply (inj Some) in E.
    destruct (advance_post _ _ _ _ _ _ Hne Hpost Ea) as (Er & Es & Hq).
    destruct (inv_signalling s y t (QPosting e q) s1 q1 _ e Hi Ht eq_refl Ea Hq) as (p2 & out2 & E2 & Hinv).
    { rewrite Er, Es. cbn. lia. }
    rewrite E2 in E. by simplify_eq.
  - destruct (advance _ _ _ _) as [[s1 q1]|] eqn:Ea; [|done]. cbn [mbind option_bind] in E.
    assert (Hg : goes_on (sema_op (how d)) s s1 q1).
    { destruct Hp as [_ [-> |Ho]].
      - apply advance_call in Ea as (_ & -> & Ho). by apply goes_on_moves.
      - destruct q; try done; by eapply advance_goes_on in Ea. }
    assert (s1 = s') as ->.
    { destruct (answer s s1) as [r|]; [destruct (granted d r) as [[p2 out2]|]; [|done]|]; by injection E. }
    by eapply acquire_inv.
Qed.

(** *** Every step *)

Lemma blocking_step_inv y y' : queue_inv y -> queue_step y y' -> queue_inv y'.
Proof.
  intros [s Hi] Hst. pose proof (qi_sema _ _ Hi) as Es.
  destruct Hst as [y t e Ht He|y t d Ht Hd|y t e ok q Ht E|y t fails p s1 s' p' out Ht E1 E|y t d got max items q p' out Ht E El|y q E].
  - pose proof (inv_aside s y t QIdle (QEnqueue e) (inner (queue y)) [] [] Hi Ht eq_refl) as H.
    rewrite !app_nil_r in H. destruct (queue y) as [q0 s0]. cbn in *. rewrite Es. apply H; done || lia.
  - pose proof (inv_aside s y t QIdle (QAcquire d Idle) (inner (queue y)) [] [] Hi Ht eq_refl) as H.
    rewrite !app_nil_r in H. destruct (queue y) as [q0 s0]. cbn in *. rewrite Es. apply H; try done; try lia. split; [done|by left].
  - pose proof (Forall_lookup_1 _ _ _ _ (qi_programs _ _ Hi) Ht) as He. pose proof (enqueue_law _ _ _ _ E) as Hl. rewrite Es.
    pose proof (Permutation_length Hl) as Hlen. destruct ok.
    + rewrite length_app in Hlen. apply (inv_aside s y t (QEnqueue e) (QSignal e) q (items_of e) [] Hi Ht eq_refl); try done.
      * cbn. unfold zlen. lia.
      * cbn. rewrite Hl, !app_nil_r. apply Permutation_app_comm.
    + apply (inv_aside s y t (QEnqueue e) QIdle q [] [Enqueued e false] Hi Ht eq_refl); try done.
      * cbn. unfold zlen. lia.
      * cbn. by rewrite Hl, !app_nil_r.
      * by repeat constructor.
  - simplify_eq. by eapply sema_step_inv.
  - pose proof (Forall_lookup_1 _ _ _ _ (qi_programs _ _ Hi) Ht) as Hp. cbn in Hp.
    destruct (dequeue_law _ _ _ _ _ E) as [Hle Hl]. pose proof (Permutation_length Hl) as Hlen. rewrite length_app in Hlen. rewrite Es.
    pose proof (zlen_nonneg got). destruct (loop_goes_on d (got ++ items) max p' out) as (Epc & Ed & Eh & Hp' & Ho);
      [rewrite zlen_app; lia|lia|exact El|].
    rewrite <- (app_nil_r (entered y)).
    apply (inv_aside s y t (QDequeue d got max) p' q [] out Hi Ht); try done.
    + cbn [due]. rewrite Ed, zlen_app. unfold zlen. lia.
    + cbn. rewrite Eh, Hl. solve_Permutation.
  - pose proof (internal_law _ _ E) as Hl. exists s. destruct Hi as [Hs Hsem Hbal Hel Hp Hr]. split; cbn [queue inner sema programs entered replies]; try done.
    + apply Permutation_length in Hl. unfold zlen in *. lia.
    + by rewrite Hl.
Qed.

Lemma repeat_total {X} (f : X -> Z) x k : f x = 0 -> total f (repeat x k) = 0.
Proof. intros E. induction k as [|k IH]; [done|]. cbn [repeat]. by rewrite total_cons, E, IH. Qed.

Lemma inv_init y : queue_initial n y -> queue_inv y.
Proof.
  intros (q & b & malloc & Hq & Hb & ->). unfold BlockingConcurrentQueue_ctor, create_semaphore in Hb.
  destruct malloc; [|done]. injection Hb as <-. exists (MkShared 0 0 0 []). split; cbn [queue inner sema programs entered replies results signalled]; try done.
  - pose proof (sem_inv_init 0 n ltac:(lia)) as H. unfold LightweightSemaphore_ctor in H. unfold sem_of.
    assert (E : sem_pc <$> repeat (QIdle : pc) n = repeat Idle n) by (clear; induction n as [|k IH]; [done|]; cbn [repeat]; by rewrite fmap_cons, IH). by rewrite E.
  - rewrite Hq, repeat_total by done. done.
  - rewrite Hq. cbn. clear. by induction n.
  - apply Forall_forall. intros p Hp. apply list_elem_of_In, repeat_spec in Hp. by subst p.
Qed.

Lemma inv_reach y : reachable (queue_initial n) queue_step y -> queue_inv y.
Proof. by apply reachable_inv; [apply inv_init|apply blocking_step_inv]. Qed.

(** *** The promises *)

(** The elements that a thread is entitled to, or has still to signal. *)
Definition entitled p : Z := due p + having (sem_pc p).

Lemma total_entitled (l : list pc) : total entitled l = total due l + total having (sem_pc <$> l).
Proof. induction l as [|p l IH]; [done|]. rewrite fmap_cons, !total_cons, IH. unfold entitled. lia. Qed.

Lemma entitled_nonneg s y : inv_with s y -> Forall (fun p => 0 <= entitled p) (programs y).
Proof.
  intros Hi. apply Forall_forall. intros p Hp. pose proof (proj1 (Forall_forall _ _) (qi_programs _ _ Hi) _ Hp) as Hok.
  pose proof (si_pcs _ _ _ (qi_sem _ _ Hi)) as Hpcs. cbn [sem_of threads] in Hpcs.
  assert (Hpc : pc_ok (sem_pc p)) by (apply (proj1 (Forall_forall _ _) Hpcs), list_elem_of_fmap; eauto).
  assert (0 <= having (sem_pc p)) by (destruct (sem_pc p); cbn in *; try lia; destruct Hpc as [_ Hpc]; lia).
  unfold entitled. destruct p; cbn in *; try lia; pose proof (zlen_nonneg (items_of e)); lia.
Qed.

(** Each of the quantities of one thread is at most the sum. *)
Lemma total_at_least {X} (f : X -> Z) l t x : Forall (fun x => 0 <= f x) l -> l !! t = Some x -> f x <= total f l.
Proof.
  intros Hf. revert t. induction Hf as [|z l Hz Hl IH]; intros [|t] Ht; try done; rewrite total_cons.
  - injection Ht as ->. pose proof (total_nonneg f l Hl). lia.
  - specialize (IH t Ht). lia.
Qed.

(** The elements of the queue: those that threads are entitled to, and the
    permits that are left. *)
Lemma elements_permits s y : inv_with s y ->
  zlen (contents (inner (queue y))) = total entitled (programs y) + permits 0 (sem_of s (programs y)).
Proof. intros Hi. pose proof (qi_balance _ _ Hi). rewrite total_entitled. unfold permits, taken, sem_of. cbn [shared threads]. lia. Qed.

Lemma permits_left s y : inv_with s y -> availableApprox s <= permits 0 (sem_of s (programs y)) /\
  0 <= permits 0 (sem_of s (programs y)) /\ ((forall t p, programs y !! t = Some p -> p = QIdle) -> availableApprox s = permits 0 (sem_of s (programs y))).
Proof.
  intros Hi. pose proof (qi_sem _ _ Hi) as Hs. pose proof (inv_waiting 0 n Hn _ Hs) as (Hw & Hp & Hm).
  pose proof (si_conserve _ _ _ Hs) as Hc. pose proof (si_granted _ _ _ Hs) as Hg. pose proof (si_sema _ _ _ Hs) as H0.
  cbn [sem_of shared] in Hc, Hg, H0, Hm. unfold availableApprox. destruct (Z.ltb_spec 0 (m_count s)); (split; [lia|]); (split; [lia|]); intros Hq.
  all: assert (E : total waiting (threads (sem_of s (programs y))) = 0) by
    (cbn; clear -Hq; induction (programs y) as [|p l IH]; [done|]; rewrite fmap_cons, total_cons, (Hq 0%nat p eq_refl), IH;
     [done|intros t q Ht; by apply (Hq (S t))]).
  all: lia.
Qed.

(** C13: the blocking queue, in every interleaving of its threads.  Whatever was
    enqueued is in the inner queue, with a thread that is about to return it, or
    was returned, once.  A thread that was granted permits finds as many
    elements in the inner queue, although others take theirs: it never waits in
    the loop for an element that is not there.  Calls return at most what they
    asked for, those that wait without a time limit an element at least.
    [size_approx] is at most the number of elements, and exact when no call is
    running.  No wakeup is lost: when a thread waits although there are elements
    that nobody is entitled to, the semaphore can be taken or is about to be
    posted. *)
Theorem blocking_queue_correct y (Hreach : reachable (queue_initial n) queue_step y) :
  let q := contents (inner (queue y)) in
  entered y ≡ₚ q ++ held in_hand (programs y) ++ delivered (replies y) /\
  (forall t d got max, programs y !! t = Some (QDequeue d got max) -> 0 < max - zlen got <= zlen q) /\
  total entitled (programs y) <= zlen q /\
  (forall t d items, (t, Dequeued d items) ∈ replies y -> zlen items <= limit (how d) /\ (waits (how d) = true -> 1 <= zlen items)) /\
  exists approx, size_approx (queue y) = Some approx /\ approx <= zlen q /\
    ((forall t p, programs y !! t = Some p -> p = QIdle) -> approx = zlen q) /\
  (forall t p, programs y !! t = Some p -> waiting (sem_pc p) = 1 -> total entitled (programs y) < zlen q ->
     exists s, sema (queue y) = Some s /\
       (0 < m_sema s \/ exists j p' count, programs y !! j = Some p' /\ sem_pc p' = Posting count /\ 0 < count)).
Proof.
  intros q. destruct (inv_reach y Hreach) as [s Hi]. pose proof (elements_permits s y Hi) as He. fold q in He.
  pose proof (permits_left s y Hi) as (Ha & Hp & Hidle). pose proof (entitled_nonneg s y Hi) as Hn0.
  split; [apply Hi|]. split; [|split; [lia|split]].
  - intros t d got max Ht. pose proof (total_at_least _ _ _ _ Hn0 Ht) as Hle. change (entitled (QDequeue d got max)) with (max - zlen got + 0) in Hle.
    pose proof (Forall_lookup_1 _ _ _ _ (qi_programs _ _ Hi) Ht) as Hok. cbn in Hok. lia.
  - intros t d items Hr. exact (proj1 (Forall_forall _ _) (qi_replies _ _ Hi) _ Hr).
  - exists (availableApprox s). unfold size_approx. rewrite (qi_sema _ _ Hi). split; [done|]. split; [|split].
    + pose proof (total_nonneg _ _ Hn0). lia.
    + intros Hq. rewrite He, (Hidle Hq). enough (total entitled (programs y) = 0) by lia.
      clear -Hq. induction (programs y) as [|p l IH]; [done|]. rewrite total_cons, (Hq 0%nat p eq_refl), IH; [done|].
      intros t p' Ht. by apply (Hq (S t)).
    + intros t p Ht Hw Hlt. exists s. split; [done|].
      destruct (no_lost_wakeup 0 n Hn (sem_of s (programs y)) t (sem_pc p) (qi_sem _ _ Hi)) as [H|(j & count & Hj & Hc)];
        [cbn; by rewrite list_lookup_fmap, Ht|done|lia|by left|right].
      cbn in Hj. rewrite list_lookup_fmap in Hj. apply fmap_Some in Hj as (p' & Hj & E). by exists j, p', count.
Qed.
End Queue.

(** ** At a concrete state *)

(** A queue that is the list of its elements. *)
Section ListQueue.
Context {T : Type}.
#[export] Instance list_queue : ConcurrentQueue T (list T) := {
  contents q := q;
  inner_enqueue q e ok q' := ok = true /\ q' = q ++ items_of e;
  inner_try_dequeue q token max items q' := q = items ++ q' /\ zlen items <= max;
  internal q q' := q' = q
}.
#[export] Instance list_queue_laws : ConcurrentQueueLaws T (list T).
Proof.
  split.
  - by intros q e ok q' [-> ->].
  - by intros q token max items q' [-> Hm].
  - by intros q q' ->.
Qed.
End ListQueue.

Section Witness.
#[local] Existing Instance ConcurrentQueueDefaultTraits.

(** Thread 0 has enqueued 5 and 6 in bulk; thread 1 took both permits, and one
    element so far; thread 2 finds no permit. *)
Definition two_of_two : System (T := Z) (Q := list Z) :=
  MkSystem (MkBlocking [6] (Some (MkShared 0 0 2 [(TryWaitMany 2, 2); (TryWait, 0)])))
    [QIdle; QDequeue (MkDequeue 0 (TryDequeueBulk 2)) [5] 2; QIdle] [5; 6]
    [(0%nat, Enqueued (EnqueueBulk CanAlloc 0 [5; 6]) true); (2%nat, Dequeued (MkDequeue 0 TryDequeue) [])].

Ltac sema t fails := eapply rtc_l; [eapply (semaphore_step _ t fails); reflexivity|]; cbn.

Lemma two_of_two_reached : reachable (queue_initial 3) queue_step two_of_two.
Proof.
  exists (MkSystem (MkBlocking [] (Some (MkShared 0 0 0 []))) (repeat QIdle 3) [] []). split.
  - exists [], (MkBlocking [] (Some (MkShared 0 0 0 []))), (Some 1). by split_and!.
  - eapply rtc_l; [by apply (enqueue_call _ 0 (EnqueueBulk CanAlloc 0 [5; 6]))|]. cbn.
    eapply rtc_l; [by eapply (enqueue_step _ 0 (EnqueueBulk CanAlloc 0 [5; 6]) true [5; 6])|]. cbn.
    sema 0%nat false.
    eapply rtc_l; [by apply (dequeue_call _ 1 (MkDequeue 0 (TryDequeueBulk 2)))|]. cbn.
    do 3 sema 1%nat false.
    eapply rtc_l; [by apply (dequeue_call _ 2 (MkDequeue 0 TryDequeue))|]. cbn.
    do 3 sema 2%nat false.
    eapply rtc_l; [by eapply (dequeue_step _ 1 (MkDequeue 0 (TryDequeueBulk 2)) [] 2 [5] [6])|]. cbn. apply rtc_refl.
Qed.

Lemma blocking_queue_correct_witness :
  let q := contents (inner (queue two_of_two)) in
  (2 - zlen [5] <= zlen q) /\ exists approx, size_approx (queue two_of_two) = Some approx /\ approx <= zlen q.
Proof.
  intros q. destruct (blocking_queue_correct 3 ltac:(lia) two_of_two two_of_two_reached) as (_ & Hd & _ & _ & approx & Ha & Hle & _).
  split; [|by exists approx]. exact (proj2 (Hd 1%nat (MkDequeue 0 (TryDequeueBulk 2)) [5] 2 eq_refl)).
Defined.
End Witness.
