(* ===== verification/BlockingExplicit.v ===== *)
(** * The blocking queue over the queue of an explicit producer

    The queue of ExplicitProducer.v keeps what the blocking queue asks of its
    inner queue: an instance of the class [ConcurrentQueue] of BlockingQueue.v,
    with one producer token, whose operations take effect as ExplicitLinear.v
    says; all the other steps of its threads are [internal]. *)

From S2P Require Import Prelude Posix MoodyDetails MoodyBlock ExplicitProducer ExplicitProducerSpec ExplicitProducerQueue.
From S2P Require Import ExplicitLinear BlockingQueue.

Section Explicit.
Context {traits : Traits} `{laws : !TraitsLaws} {A : Type} (garbage : BlockIndexEntry).
Context (flags : has_flags explicit_context = true).
Abbreviation Sys := (ExplicitProducer.System (A := A)).

(** A step between reachable states whose counters are small, with its action. *)
Definition acts (a : Action A) (y y' : Sys) : Prop :=
  valid garbage y /\ small y' /\ act_step garbage a y y'.

#[export] Instance explicit_queue : ConcurrentQueue A Sys := {
  contents := queued;
  inner_enqueue y e ok y' :=
    match e with
    | Enqueue _ _ x => acts (if ok then AEnqueue x else ANone) y y' /\ producer y' = PIdle ok
    | EnqueueBulk _ _ _ => False
    end;
  inner_try_dequeue y _ max xs y' :=
    (xs = [] /\ 0 <= max /\ y' = y) \/ (exists t, acts (ADequeue t xs) y y' /\ zlen xs <= max);
  internal y y' := acts ANone y y'
}.

#[export] Instance explicit_queue_laws : ConcurrentQueueLaws A Sys.
Proof.
  split.
  - intros y e ok y' H. destruct e as [mode token x|]; [|done]. destruct H as [(Hv & Hs & Hst) _].
    pose proof (act_queued garbage flags _ y y' Hv Hs Hst) as Hq. cbn. by destruct ok; rewrite Hq.
  - intros y token max xs y' [(-> & Hm & ->)|(t & (Hv & Hs & Hst) & Hle)]; [by split|].
    split; [done|]. cbn. by rewrite (act_queued garbage flags _ y y' Hv Hs Hst).
  - intros y y' (Hv & Hs & Hst). cbn. by rewrite (act_queued garbage flags _ y y' Hv Hs Hst).
Qed.
End Explicit.
