(* ===== verification/Thread.v ===== *)
(** * Threads ([whisperlib/sync/thread.h], [whisperlib/sync/thread.cc])

    [Thread] wraps a POSIX thread and its attributes.  The [pthread] calls are
    the class [Pthread]; a call returns an error number, 0 for none. *)

From S2P Require Import Prelude Status.

Class Pthread (W : Type) := {
  pthread_attr_init : W -> Z * W;
  pthread_attr_destroy : W -> W;
  pthread_attr_setdetachstate : Z -> W -> Z * W;
  pthread_attr_getdetachstate : W -> (Z * Z) * W;
  (* the scheduling priority of the parameter *)
  pthread_attr_setschedparam : Z -> W -> Z * W;
  pthread_attr_setstacksize : Z -> W -> Z * W;
  pthread_attr_getstacksize : W -> (Z * Z) * W;
  (* pthread_create(&thread_id, &attr, Thread::InternalRun, this) *)
  pthread_create : W -> (Z * Z) * W;
  pthread_join : Z -> W -> Z * W;
  pthread_kill : Z -> Z -> W -> Z * W;
  thread_self : W -> Z;
  sched_get_priority_min : W -> Z
}.

Definition PTHREAD_CREATE_JOINABLE : Z := 0.
Definition PTHREAD_CREATE_DETACHED : Z := 1.
Definition SIGKILL : Z := 9.

(** [absl::StrFormat] with the directive [%p]. *)
Class PointerFormat := format_p : Z -> str.

Section Thread.
Context {W St Fn : Type} `{!Pthread W} `{!Absl St} `{!PointerFormat}.

Record Thread := MkThread {
  thread_function_ : Fn;
  completion_callback_ : option Fn;
  stack_size_ : option Z;
  joinable_ : bool;
  low_priority_ : bool;
  thread_id_ : Z;
  attr_created_ : bool
}.

Definition StrThreadId (thread_id : Z) : str := format_p thread_id.

(** A null function stops the process. *)
Definition Thread_ctor {S} (thread_function : option Fn) (completion_callback : option Fn)
    (stack_size : option Z) (joinable low_priority : bool) : M S Thread :=
  f <- DieIfNull "std::move(thread_function)" thread_function ;;
  ret (MkThread f completion_callback stack_size joinable low_priority 0 false).

(** A method runs over the object and the system. *)
Definition thr {A} (f : Thread -> A) : M (Thread * W) A := gets (fun s => f s.1).
Definition pt {A} (call : W -> A * W) : M (Thread * W) A :=
  fun s => let '(a, w) := call s.2 in Ret a (s.1, w).
Definition set_attr_created (t : Thread) : Thread :=
  MkThread (thread_function_ t) (completion_callback_ t) (stack_size_ t) (joinable_ t) (low_priority_ t)
    (thread_id_ t) true.
Definition set_thread_id (id : Z) (t : Thread) : Thread :=
  MkThread (thread_function_ t) (completion_callback_ t) (stack_size_ t) (joinable_ t) (low_priority_ t)
    id (attr_created_ t).
Definition put_thread (f : Thread -> Thread) : M (Thread * W) unit := modify (fun s => (f s.1, s.2)).

Definition internal_error {R} `{FromStatus St R} (text : str) : M (Thread * W) R :=
  ret (return_error (InternalErrorBuilder []) text).

(** A call of which any error is returned with [text]. *)
Definition unless {R} `{FromStatus St R} (error : Z) (text : str) (rest : M (Thread * W) R) : M (Thread * W) R :=
  if decide (error <> 0) then internal_error text else rest.

Definition Thread_dtor : M (Thread * W) unit :=
  created <- thr attr_created_ ;;
  if created : bool then pt (fun w => (tt, pthread_attr_destroy w)) else ret tt.

Definition start_thread : M (Thread * W) St :=
  '(error, id) <- pt pthread_create ;;
  put_thread (set_thread_id id) ;;
  unless error ("pthread_create() failed to start thread, error: " ++ StrInt error) (ret OkStatus).

(** The check of the minimal size is compiled only where [PAGE_SIZE] is a
    macro, which it is not with glibc. *)
Definition set_stack_size (rest : M (Thread * W) St) : M (Thread * W) St :=
  stack_size <- thr stack_size_ ;;
  match stack_size with
  | None => rest
  | Some size =>
      error <- pt (pthread_attr_setstacksize size) ;;
      unless error ("pthread_attr_setstacksize() failed, error: " ++ StrInt error
                    ++ " for a stack size of: " ++ StrInt size) rest
  end.

Definition set_priority (rest : M (Thread * W) St) : M (Thread * W) St :=
  low <- thr low_priority_ ;;
  if low : bool then
    priority <- pt (fun w => (sched_get_priority_min w, w)) ;;
    error <- pt (pthread_attr_setschedparam priority) ;;
    unless error ("pthread_attr_setschedparam() failed, error: " ++ StrInt error) rest
  else rest.

Definition Thread_Initialize : M (Thread * W) St :=
  error <- pt pthread_attr_init ;;
  unless error ("pthread_attr_init() failed, error: " ++ StrInt error)
  (put_thread set_attr_created ;;
   joinable <- thr joinable_ ;;
   error <- pt (pthread_attr_setdetachstate
                  (if joinable : bool then PTHREAD_CREATE_JOINABLE else PTHREAD_CREATE_DETACHED)) ;;
   unless error ("pthread_attr_setdetachstate() failed, error: " ++ StrInt error)
   (set_priority (set_stack_size start_thread))).

(** A thread that was not initialized is destroyed. *)
Definition Thread_Create (thread_function : option Fn) (completion_callback : option Fn)
    (stack_size : option Z) (joinable low_priority : bool) (w : W) : outcome W (StatusOr St Thread) :=
  match Thread_ctor thread_function completion_callback stack_size joinable low_priority w with
  | Fatal why => Fatal why
  | Ret t w =>
      match Thread_Initialize (t, w) with
      | Fatal why => Fatal why
      | Ret st (t, w) =>
          if ok st then Ret (Value t) w
          else match Thread_dtor (t, w) with
               | Ret _ (_, w) => Ret (Error st) w
               | Fatal why => Fatal why
               end
      end
  end.

Definition Thread_Join : M (Thread * W) St :=
  id <- thr thread_id_ ;;
  error <- pt (pthread_join id) ;;
  unless error ("pthread_join() failed for thread: " ++ StrThreadId id ++ " error : " ++ StrInt error)
    (ret OkStatus).

Definition IsJoinable : M (Thread * W) (StatusOr St bool) :=
  id <- thr thread_id_ ;;
  '(error, state) <- pt pthread_attr_getdetachstate ;;
  unless error ("pthread_attr_getdetachstate() failed for thread: " ++ StrThreadId id
                ++ " error : " ++ StrInt error)
    (ret (Value (state =? PTHREAD_CREATE_JOINABLE))).

Definition GetStackSize : M (Thread * W) (StatusOr St Z) :=
  id <- thr thread_id_ ;;
  '(error, stack_size) <- pt pthread_attr_getstacksize ;;
  unless error ("pthread_attr_getstacksize() failed for thread: " ++ StrThreadId id
                ++ " error: " ++ StrInt error)
    (ret (Value stack_size)).

Definition IsInThread : M (Thread * W) bool :=
  id <- thr thread_id_ ;; self <- pt (fun w => (thread_self w, w)) ;; ret (self =? id).

Definition Kill : M (Thread * W) St :=
  id <- thr thread_id_ ;;
  error <- pt (pthread_kill id SIGKILL) ;;
  unless error ("pthread_kill() failed for thread: " ++ StrThreadId id ++ " error: " ++ StrInt error)
    (ret OkStatus).

(** What runs in the thread, over the state [S] of the program. *)
Definition InternalRun {S} (call : Fn -> M S unit) (t : Thread) : M S unit :=
  call (thread_function_ t) ;;
  match completion_callback_ t with Some f => call f | None => ret tt end.
End Thread.
Arguments Thread : clear implicits.
Arguments MkThread {_} _ _ _ _ _ _ _.

(** ** What POSIX promises *)

Record attributes := Attributes { detach_state : Z; stack_bytes : Z; priority : Z }.

(** The attributes of the object while they are initialized, and the threads
    created, with theirs. *)
Class PthreadView (W : Type) := {
  attrs : W -> option attributes;
  created : W -> list (Z * attributes)
}.

Class PthreadLaws (W : Type) `{!Pthread W} `{!PthreadView W} : Prop := {
  init_law w : let '(e, w') := pthread_attr_init w in
    created w' = created w /\ (e = 0 /\ is_Some (attrs w') \/ e <> 0 /\ attrs w' = attrs w);
  destroy_law w : created (pthread_attr_destroy w) = created w /\ attrs (pthread_attr_destroy w) = None;
  detach_law d w a : attrs w = Some a -> let '(e, w') := pthread_attr_setdetachstate d w in
    created w' = created w /\ (e = 0 /\ attrs w' = Some (Attributes d (stack_bytes a) (priority a)) \/
                               e <> 0 /\ attrs w' = attrs w);
  sched_law p w a : attrs w = Some a -> let '(e, w') := pthread_attr_setschedparam p w in
    created w' = created w /\ (e = 0 /\ attrs w' = Some (Attributes (detach_state a) (stack_bytes a) p) \/
                               e <> 0 /\ attrs w' = attrs w);
  stack_law n w a : attrs w = Some a -> let '(e, w') := pthread_attr_setstacksize n w in
    created w' = created w /\ (e = 0 /\ attrs w' = Some (Attributes (detach_state a) n (priority a)) \/
                               e <> 0 /\ attrs w' = attrs w);
  getdetach_law w a : attrs w = Some a -> pthread_attr_getdetachstate w = ((0, detach_state a), w);
  getstack_law w a : attrs w = Some a -> pthread_attr_getstacksize w = ((0, stack_bytes a), w);
  create_law w a : attrs w = Some a -> let '((e, id), w') := pthread_create w in
    attrs w' = attrs w /\ (e = 0 /\ created w' = created w ++ [(id, a)] \/ e <> 0 /\ created w' = created w)
}.

Section Correct.
Context {W St Fn : Type} `{!Pthread W} `{!PthreadView W} `{HW : !PthreadLaws W}.
Context `{HA : !Absl St} `{HL : !AbslLaws St} `{!PointerFormat}.
Implicit Types (t : Thread Fn) (w : W).

(** The attributes asked for by an object. *)
Definition asked_detach t : Z := if joinable_ t then PTHREAD_CREATE_JOINABLE else PTHREAD_CREATE_DETACHED.

(** What a step of the initialization leaves: a thread with the attributes
    [ok_attrs], or an error and no thread. *)
Definition initialized t (old : list (Z * attributes)) (ok_attrs : attributes -> Prop)
    (st : St) (s : Thread Fn * W) : Prop :=
  joinable_ s.1 = joinable_ t /\ stack_size_ s.1 = stack_size_ t /\ attr_created_ s.1 = true /\
  exists a, attrs s.2 = Some a /\
    if ok st then created s.2 = old ++ [(thread_id_ s.1, a)] /\ ok_attrs a
    else code st = kInternal /\ created s.2 = old.

Lemma unless_spec {R} `{FromStatus St R} error text (rest : M (Thread Fn * W) R) s (Q : R -> Thread Fn * W -> Prop) :
  (error = 0 -> returns rest s Q) ->
  (error <> 0 -> forall st, ok st = false -> code st = kInternal -> Q (from_status st) s) ->
  returns (unless error text rest) s Q.
Proof.
  intros Hr He. unfold unless. case_decide as E; [|apply Hr; lia].
  unfold internal_error. apply returns_builder; [done|]. by apply He.
Qed.

Lemma start_thread_spec t w a (P : attributes -> Prop) :
  attrs w = Some a -> attr_created_ t = true -> P a ->
  returns (start_thread (St := St)) (t, w) (initialized t (created w) P).
Proof.
  intros Ha Hc HP. unfold start_thread. pose proof (create_law w a Ha) as HC.
  eapply (returns_bind _ _ _ (fun r s => s.1 = t /\ attrs s.2 = Some a /\
    (r.1 = 0 /\ created s.2 = created w ++ [(r.2, a)] \/ r.1 <> 0 /\ created s.2 = created w))).
  { unfold pt, returns. simpl. destruct (pthread_create w) as [[e id] w']. destruct HC as [Ha' HC].
    eexists _, _. split; [done|]. simpl. rewrite Ha'. by split_and!. }
  intros [e id] [t' w'] HQ. simpl in HQ. destruct HQ as (-> & Ha' & HC'). unfold put_thread, modify.
  eapply (returns_bind _ _ _ (fun _ s => s = (set_thread_id id t, w'))); [by eexists _, _|].
  intros [] ? ->. destruct HC' as [[-> Hcr]|[He Hcr]].
  - apply unless_spec; [|done]. intros _. apply returns_ret. split_and!; [done..|]. exists a.
    by rewrite ok_OkStatus.
  - apply unless_spec; [done|]. intros _ st Hst Hcode. unfold from_status, from_status_id.
    split_and!; [done..|]. exists a. rewrite Hst. cbn. by split_and!.
Qed.

Lemma set_stack_size_spec t w a (P : attributes -> Prop) :
  attrs w = Some a -> attr_created_ t = true ->
  (forall b, detach_state b = detach_state a -> priority b = priority a ->
     (forall n, stack_size_ t = Some n -> stack_bytes b = n) -> P b) ->
  returns (set_stack_size (start_thread (St := St))) (t, w) (initialized t (created w) P).
Proof.
  intros Ha Hc HP. unfold set_stack_size, thr, gets. unfold returns, bind at 1. cbn [fst].
  destruct (stack_size_ t) as [n|] eqn:En; [|by apply (start_thread_spec t w a); [..|apply HP]].
  pose proof (stack_law n w a Ha) as HS. unfold pt, bind at 1. cbn [fst snd].
  destruct (pthread_attr_setstacksize n w) as [e w']. destruct HS as [Hcr HS]. rewrite <- Hcr.
  fold (returns (unless e ("pthread_attr_setstacksize() failed, error: " ++ StrInt e
          ++ " for a stack size of: " ++ StrInt n) (start_thread (St := St))) (t, w') (initialized t (created w') P)).
  destruct HS as [[-> Ha']|[He Ha']]; apply unless_spec; try done; intros _.
  - eapply start_thread_spec; [done|done|]. apply HP; [done|done|]. by intros m [= <-].
  - intros st Hst Hcode. unfold from_status, from_status_id.
    split_and!; [done..|]. exists a. rewrite Hst. cbn. split_and!; [congruence|done|done].
Qed.

(** A call on the attributes, and what follows it. *)
Lemma attr_call_spec (call : W -> Z * W) (text : Z -> str) (rest : M (Thread Fn * W) St) t w a a' (P : attributes -> Prop) :
  attrs w = Some a -> attr_created_ t = true ->
  (let '(e, w') := call w in
   created w' = created w /\ (e = 0 /\ attrs w' = Some a' \/ e <> 0 /\ attrs w' = attrs w)) ->
  (forall w', attrs w' = Some a' -> created w' = created w -> returns rest (t, w') (initialized t (created w) P)) ->
  returns (error <- pt call ;; unless error (text error) rest) (t, w) (initialized t (created w) P).
Proof.
  intros Ha Hc HS Hrest.
  eapply (returns_bind _ _ _ (fun e s => s.1 = t /\ created s.2 = created w /\
    (e = 0 /\ attrs s.2 = Some a' \/ e <> 0 /\ attrs s.2 = Some a))).
  { unfold pt, returns. simpl. destruct (call w) as [e w']. destruct HS as [Hcr HS].
    eexists _, _. split; [done|]. simpl. rewrite Ha in HS. by split_and!. }
  intros e [t' w'] HQ. simpl in HQ. destruct HQ as (-> & Hcr & [[-> Ha']|[He Ha']]).
  - apply unless_spec; [|done]. intros _. by apply Hrest.
  - apply unless_spec; [done|]. intros _ st Hst Hcode. unfold from_status, from_status_id.
    split_and!; [done..|]. exists a. rewrite Hst. by split_and!.
Qed.

(** The attributes that a created thread has. *)
Definition as_asked t (b : attributes) : Prop :=
  detach_state b = asked_detach t /\ (forall n, stack_size_ t = Some n -> stack_bytes b = n) /\
  (low_priority_ t = true -> exists w0 : W, priority b = sched_get_priority_min w0).

Lemma set_stack_size_asked t w a old :
  attrs w = Some a -> attr_created_ t = true -> created w = old -> detach_state a = asked_detach t ->
  (low_priority_ t = true -> exists w0 : W, priority a = sched_get_priority_min w0) ->
  returns (set_stack_size (start_thread (St := St))) (t, w) (initialized t old (as_asked t)).
Proof.
  intros Ha Hc <- Hd Hp. eapply set_stack_size_spec; [done|done|]. intros b Hb Hb' Hn.
  split_and!; [congruence|done|]. intros Hl. destruct (Hp Hl) as [w0 E]. exists w0. congruence.
Qed.

Lemma set_priority_spec t w a :
  attrs w = Some a -> attr_created_ t = true -> detach_state a = asked_detach t ->
  returns (set_priority (set_stack_size (start_thread (St := St)))) (t, w) (initialized t (created w) (as_asked t)).
Proof.
  intros Ha Hc Hd. unfold set_priority, thr, gets. unfold returns, bind at 1. cbn [fst].
  destruct (low_priority_ t) eqn:El.
  - unfold bind at 1, pt at 1. cbn [fst snd].
    eapply (attr_call_spec (pthread_attr_setschedparam (sched_get_priority_min w))
              (fun error => "pthread_attr_setschedparam() failed, error: " ++ StrInt error)); [done|done|by apply sched_law|].
    intros w' Ha' Hcr. eapply set_stack_size_asked; [done|done|done|done|]. intros _. by exists w.
  - eapply set_stack_size_asked; [done|done|done|done|]. by rewrite El.
Qed.

Lemma Initialize_spec t w :
  attrs w = None -> attr_created_ t = false ->
  returns (Thread_Initialize (St := St)) (t, w) (fun st s =>
    initialized (set_attr_created t) (created w) (as_asked t) st s \/
    ok st = false /\ code st = kInternal /\ created s.2 = created w /\ attrs s.2 = None /\ attr_created_ s.1 = false).
Proof.
  intros Ha Hc. unfold Thread_Initialize. pose proof (init_law w) as HI.
  eapply (returns_bind _ _ _ (fun e s => s.1 = t /\ created s.2 = created w /\
    (e = 0 /\ is_Some (attrs s.2) \/ e <> 0 /\ attrs s.2 = None))).
  { unfold pt, returns. simpl. destruct (pthread_attr_init w) as [e w']. destruct HI as [Hcr HI].
    eexists _, _. split; [done|]. simpl. rewrite Ha in HI. by split_and!. }
  intros e [t' w1] HQ. simpl in HQ. destruct HQ as (-> & Hcr & [[-> [a Ha1]]|[He Ha1]]).
  2:{ apply unless_spec; [done|]. intros _ st Hst Hcode. right. by split_and!. }
  apply unless_spec; [|done]. intros _. unfold put_thread, modify, thr, gets. unfold returns, bind at 1 2. cbn [fst snd].
  eapply returns_mono.
  - eapply (attr_call_spec (pthread_attr_setdetachstate (asked_detach t))
              (fun error => "pthread_attr_setdetachstate() failed, error: " ++ StrInt error) _ (set_attr_created t));
      [done|done|by apply detach_law|].
    intros w2 Ha2 Hcr2. rewrite <- Hcr2. by eapply set_priority_spec.
  - intros st s HQ. left. by rewrite <- Hcr.
Qed.

Lemma Thread_Create_eq (f : Fn) callback size joinable low w :
  Thread_Create (St := St) (Some f) callback size joinable low w =
  match Thread_Initialize (MkThread f callback size joinable low 0 false, w) with
  | Fatal why => Fatal why
  | Ret st (t, w) =>
      if ok st then Ret (Value t) w
      else match Thread_dtor (t, w) with Ret _ (_, w) => Ret (Error st) w | Fatal why => Fatal why end
  end.
Proof. reflexivity. Qed.

(** Creating a thread returns it only when a POSIX thread was created,
    with the detach state, the stack size and the priority asked for, and then
    [IsJoinable] and [GetStackSize] answer what was asked for; in all other
    cases it returns an internal error, no thread was created, and the
    attributes are not leaked. *)
Theorem thread_create_spec (f : Fn) (callback : option Fn) (size : option Z) (joinable low : bool) w
    (Hfree : attrs w = None) :
  exists r w', Thread_Create (St := St) (Some f) callback size joinable low w = Ret r w' /\
  match r with
  | Value t =>
      (exists b, created w' = created w ++ [(thread_id_ t, b)] /\
         as_asked (MkThread f callback size joinable low 0 false) b) /\
      IsJoinable (St := St) (t, w') = Ret (Value joinable) (t, w') /\
      (forall n, size = Some n -> GetStackSize (St := St) (t, w') = Ret (Value n) (t, w')) /\
      (exists w'', Thread_dtor (t, w') = Ret tt (t, w'') /\ attrs w'' = None)
  | Error st => code st = kInternal /\ created w' = created w /\ attrs w' = None
  end.
Proof.
  set (t0 := MkThread f callback size joinable low 0 false).
  destruct (Initialize_spec t0 w Hfree eq_refl) as (st & [t w1] & E & HQ).
  rewrite Thread_Create_eq. fold t0. rewrite E.
  destruct HQ as [(Hj & Hs & Hc & a & Ha & HQ)|(Hst & Hcode & Hcr & Ha & Hc)]; cbn in *.
  2:{ rewrite Hst. unfold Thread_dtor, thr, gets, bind. cbn. rewrite Hc. eexists _, _. by split_and!. }
  destruct (destroy_law w1) as [Hd1 Hd2]. destruct (ok st).
  - destruct HQ as [Hcr Hask]. eexists _, _. split; [done|]. cbn. destruct Hask as (Hdet & Hstack & Hpri). split_and!.
    + exists a. split; [done|]. by split_and!.
    + unfold IsJoinable, thr, gets, pt, unless, bind. cbn. rewrite (getdetach_law _ _ Ha). cbn.
      rewrite Hdet. unfold asked_detach. cbn. by destruct joinable.
    + intros n ->. unfold GetStackSize, thr, gets, pt, unless, bind. cbn. rewrite (getstack_law _ _ Ha). cbn.
      by rewrite (Hstack n eq_refl).
    + unfold Thread_dtor, thr, gets, pt, bind. cbn. rewrite Hc. eauto.
  - unfold Thread_dtor, thr, gets, pt, bind. cbn. rewrite Hc. cbn. eexists _, _. split; [done|].
    destruct HQ as [? ?]. split_and!; congruence.
Qed.
End Correct.

(** ** A small system *)

Module SimPthread.
Record system := System { sim_attrs : option attributes; sim_created : list (Z * attributes) }.

Definition set_attr (f : attributes -> attributes) (w : system) : Z * system :=
  match sim_attrs w with
  | Some a => (0, System (Some (f a)) (sim_created w))
  | None => (22, w)
  end.

#[export] Instance sim_view : PthreadView system := { attrs := sim_attrs; created := sim_created }.
#[export] Instance sim_pthread : Pthread system := {
  pthread_attr_init w := (0, System (Some (Attributes PTHREAD_CREATE_JOINABLE 8388608 0)) (sim_created w));
  pthread_attr_destroy w := System None (sim_created w);
  pthread_attr_setdetachstate d := set_attr (fun a => Attributes d (stack_bytes a) (priority a));
  pthread_attr_getdetachstate w :=
    (match sim_attrs w with Some a => (0, detach_state a) | None => (22, 0) end, w);
  pthread_attr_setschedparam p := set_attr (fun a => Attributes (detach_state a) (stack_bytes a) p);
  pthread_attr_setstacksize n w :=
    if n <? 16384 then (22, w) else set_attr (fun a => Attributes (detach_state a) n (priority a)) w;
  pthread_attr_getstacksize w :=
    (match sim_attrs w with Some a => (0, stack_bytes a) | None => (22, 0) end, w);
  pthread_create w :=
    match sim_attrs w with
    | Some a => ((0, 100 + zlen (sim_created w)), System (Some a) (sim_created w ++ [(100 + zlen (sim_created w), a)]))
    | None => ((22, 0), w)
    end;
  pthread_join _ w := (0, w);
  pthread_kill _ _ w := (0, w);
  thread_self _ := 1;
  sched_get_priority_min _ := 1
}.

#[export] Instance sim_laws : PthreadLaws system.
Proof.
  split; simpl; intros *; unfold set_attr; simpl; try (intros ->; simpl; by auto).
  - eauto.
  - done.
  - intros Ha. destruct (n <? 16384); [by auto|]. rewrite Ha. auto.
Qed.

#[export] Instance sim_format : PointerFormat := fun _ => "0x1".
End SimPthread.

Section Witnesses.
Import RefAbsl SimPthread.

Lemma thread_create_spec_witness :
  (exists t w', Thread_Create (St := rstatus) (Some 1) None (Some 65536) false true (System None []) = Ret (Value t) w' /\
     exists b, sim_created w' = [(thread_id_ t, b)] /\ stack_bytes b = 65536) /\
  (exists st, Thread_Create (Fn := Z) (St := rstatus) (Some 1) None (Some 5) true false (System None []) =
     Ret (Error st) (System None [])).
Proof.
  split.
  - assert (Hf : attrs (W := system) (System None []) = None) by reflexivity.
    destruct (thread_create_spec (St := rstatus) 1 None (Some 65536) false true (System None []) Hf)
      as ([t|st] & w' & E & H).
    + destruct H as ((b & Hc & _ & Hs & _) & _). exists t, w'. split; [exact E|]. exists b. split; [exact Hc|].
      by apply Hs.
    + exfalso. vm_compute in E. discriminate E.
  - eexists. vm_compute. reflexivity.
Defined.
End Witnesses.
