(* ===== verification/Dns.v ===== *)
(** * Resolving host names ([whisperlib/net/dns_resolve.h], [dns_resolve.cc])

    [getaddrinfo] and the conversion of international names by ICU are
    parameters; a hash set of addresses is the list of those inserted, and its
    iteration order is a parameter.  The queues of the resolver threads are
    those of Queue.v. *)

From S2P Require Import Prelude Status Errno Posix Address Queue.

(** ** What the resolver calls *)

Class Idna := {
  (* whether the ICU object was created *)
  idna_created : bool;
  (* nameToASCII_UTF8: the name, or the name of the error and the error bits *)
  nameToASCII_UTF8 : str -> str + (str * Z)
}.

(** [getaddrinfo(node)]: the error, and the [ai_addr] of each result. *)
Class AddrInfo (W : Type) := sys_getaddrinfo : str -> W -> (Z * list (list Z)) * W.

(** The order of [flat_hash_set<IpAddress>] after some insertions. *)
Class AddressSet := {
  set_elements : list IpAddress -> list IpAddress;
  set_elements_spec l : NoDup (set_elements l) /\ forall ip, ip ∈ set_elements l <-> ip ∈ l
}.

Definition EAI_BADFLAGS : Z := -1.
Definition EAI_NONAME : Z := -2.
Definition EAI_AGAIN : Z := -3.
Definition EAI_FAIL : Z := -4.
Definition EAI_NODATA : Z := -5.
Definition EAI_FAMILY : Z := -6.
Definition EAI_SOCKTYPE : Z := -7.
Definition EAI_SERVICE : Z := -8.
Definition EAI_ADDRFAMILY : Z := -9.
Definition EAI_MEMORY : Z := -10.
Definition EAI_SYSTEM : Z := -11.

(** ** [DnsHostInfo] *)

Record DnsHostInfo := MkHost {
  hostname_ : str;
  ipv4_ : list IpAddress;
  ipv6_ : list IpAddress;
  next_ip_ : Z;
  next_ipv4_ : Z;
  next_ipv6_ : Z
}.

Definition DnsHostInfo_ctor (hostname : str) : DnsHostInfo := MkHost hostname [] [] 0 0 0.
Definition Host_IsValid (h : DnsHostInfo) : bool :=
  match ipv4_ h, ipv6_ h with [], [] => false | _, _ => true end.
Definition SetIpAddress (v4 v6 : list IpAddress) (h : DnsHostInfo) : DnsHostInfo :=
  MkHost (hostname_ h) v4 v6 (next_ip_ h) (next_ipv4_ h) (next_ipv6_ h).

Definition PickFirstAddress (h : DnsHostInfo) : option IpAddress :=
  match ipv4_ h with
  | ip :: _ => Some ip
  | [] => match ipv6_ h with ip :: _ => Some ip | [] => None end
  end.
Definition PickFirstIpv4Address (h : DnsHostInfo) : option IpAddress := head (ipv4_ h).
Definition PickFirstIpv6Address (h : DnsHostInfo) : option IpAddress := head (ipv6_ h).

(** The counters are atomic members that wrap. *)
Definition PickNextAddress (h : DnsHostInfo) : option IpAddress * DnsHostInfo :=
  match ipv4_ h, ipv6_ h with
  | [], [] => (None, h)
  | _, _ =>
      let ndx := next_ip_ h mod (zlen (ipv4_ h) + zlen (ipv6_ h)) in
      (if ndx <? zlen (ipv4_ h) then ipv4_ h !! Z.to_nat ndx
       else ipv6_ h !! Z.to_nat (ndx - zlen (ipv4_ h)),
       MkHost (hostname_ h) (ipv4_ h) (ipv6_ h) (u64 (next_ip_ h + 1)) (next_ipv4_ h) (next_ipv6_ h))
  end.
Definition PickNextIpv4Address (h : DnsHostInfo) : option IpAddress * DnsHostInfo :=
  match ipv4_ h with
  | [] => (None, h)
  | _ => (ipv4_ h !! Z.to_nat (next_ipv4_ h mod zlen (ipv4_ h)),
          MkHost (hostname_ h) (ipv4_ h) (ipv6_ h) (next_ip_ h) (u64 (next_ipv4_ h + 1)) (next_ipv6_ h))
  end.
Definition PickNextIpv6Address (h : DnsHostInfo) : option IpAddress * DnsHostInfo :=
  match ipv6_ h with
  | [] => (None, h)
  | _ => (ipv6_ h !! Z.to_nat (next_ipv6_ h mod zlen (ipv6_ h)),
          MkHost (hostname_ h) (ipv4_ h) (ipv6_ h) (next_ip_ h) (next_ipv4_ h) (u64 (next_ipv6_ h + 1)))
  end.

Section Dns.
Context {W St : Type} `{!HasErrno W} `{!AddrInfo W} `{!Absl St} `{!Strerror}.
Context `{!BigEndian} `{!Inet} `{!Idna} `{!AddressSet}.

Definition is_ascii (s : str) : bool := forallb (fun c => Nat.ltb (nat_of_ascii c) 128) s.

Definition GetDnsResolveName (h : DnsHostInfo) : StatusOr St str :=
  if is_ascii (hostname_ h) then Value (hostname_ h)
  else if negb idna_created then Error (mk_status kInternal "Error creating IDNA conversion object.")
  else
    match nameToASCII_UTF8 (hostname_ h) with
    | inl result => Value result
    | inr (name, bits) =>
        return_error (InvalidArgumentErrorBuilder [])
          ("Error converting hostname to punycode: " ++ name ++ " / error bits: " ++ StrInt bits)
    end.

Definition Host_ToString (h : DnsHostInfo) : str :=
  "Hostname: `" ++ hostname_ h ++ "`" ++ ["010"%char] ++
  match GetDnsResolveName h with
  | Value name => "DNS resolve name: `" ++ name ++ "`" ++ ["010"%char]
  | Error st => "Error DNS name: `" ++ message st ++ "`" ++ ["010"%char]
  end ++
  concat ((fun ip => "  IPv4: " ++ Ip_ToString ip ++ ["010"%char]) <$> ipv4_ h) ++
  concat ((fun ip => "  IPv6: " ++ Ip_ToString ip ++ ["010"%char]) <$> ipv6_ h).

Definition AddrInfoToStatus (errno err : Z) : StatusWriter St :=
  if decide (err = EAI_ADDRFAMILY) then append_to (InvalidArgumentErrorBuilder [])
    "[EAI_ADDRFAMILY] The specified network host does not have any network addresses in the requested address family."
  else if decide (err = EAI_AGAIN) then append_to (UnavailableErrorBuilder [])
    "[EAI_AGAIN] The name server returned a temporary failure indication. Try again later."
  else if decide (err = EAI_BADFLAGS) then append_to (InvalidArgumentErrorBuilder [])
    "[EAI_BADFLAGS] hints.ai_flags contains invalid flags; or, hints.ai_flags included AI_CANONNAME and name was NULL."
  else if decide (err = EAI_FAIL) then append_to (InternalErrorBuilder [])
    "[EAI_FAIL] The name server returned a permanent failure indication."
  else if decide (err = EAI_FAMILY) then append_to (UnimplementedErrorBuilder [])
    "[EAI_FAMILY] The requested address family is not supported."
  else if decide (err = EAI_MEMORY) then append_to (ResourceExhaustedErrorBuilder [])
    "[EAI_MEMORY] Out of memory."
  else if decide (err = EAI_NODATA) then append_to (NotFoundErrorBuilder [])
    "[EAI_NODATA] The specified network host exists, but does not have any network addresses defined."
  else if decide (err = EAI_NONAME) then append_to (NotFoundErrorBuilder [])
    "[EAI_NONAME] The node or service is not known."
  else if decide (err = EAI_SERVICE) then append_to (NotFoundErrorBuilder [])
    "[EAI_SERVICE] The requested service is not available for the requested socket type."
  else if decide (err = EAI_SOCKTYPE) then append_to (NotFoundErrorBuilder [])
    "The requested socket type is not supported."
  else if decide (err = EAI_SYSTEM) then ErrnoToStatus errno errno
  else append_to (InternalErrorBuilder []) "Unknown error during getaddrinfo.".

(** The addresses of one family among the results. *)
Definition v4_of (ss : list Z) : list IpAddress :=
  if decide (sa_family ss = AF_INET) then [IpAddress_v4 (ntohl (load (peek off_sin_addr 4 ss)))] else [].
Definition v6_of (ss : list Z) : list IpAddress :=
  if decide (sa_family ss = AF_INET) then []
  else if decide (sa_family ss = AF_INET6) then [IpAddress_bytes (peek off_sin6_addr 16 ss)] else [].

(** The loop over the results: the two sets, as the addresses inserted. *)
Fixpoint collect (results : list (list Z)) (v4 v6 : list IpAddress) : list IpAddress * list IpAddress :=
  match results with
  | [] => (v4, v6)
  | ss :: results => collect results (v4 ++ v4_of ss) (v6 ++ v6_of ss)
  end.

Definition Resolve (hostname : str) : M W (StatusOr St DnsHostInfo) :=
  let hi := DnsHostInfo_ctor hostname in
  ASSIGN_OR_RETURN (ret (GetDnsResolveName hi)) ("Obtaining DNS resolve name for `" ++ hostname ++ "`")
    (fun resolve_name =>
       '(err, results) <- (fun w => let '(r, w) := sys_getaddrinfo (c_str resolve_name) w in Ret r w) ;;
       errno <- gets sys_errno ;;
       if decide (err <> 0) then
         ret (return_error (AddrInfoToStatus errno err) (" DNS Resolving: `" ++ hostname ++ "`"))
       else
         let '(v4, v6) := collect results [] [] in
         ret (Value (SetIpAddress (set_elements v4) (set_elements v6) hi))).

(** ** The asynchronous resolver *)

Record DnsResolverOptions := MkOptions { num_threads : Z; queue_size : Z; put_timeout : Z }.
Definition default_options : DnsResolverOptions := MkOptions 4 100 1000000.

Context {Fn : Type}.

(** A request: the name and the callback, which may be null. *)
Definition request : Type := str * option Fn.

(** The queues of the threads, the index of the next one, and the callbacks
    called, with what they got. *)
Record DnsResolver := MkResolver {
  resolves_ : list (ProducerConsumerQueue (C := request));
  resolve_index_ : Z;
  calls : list (Fn * StatusOr St DnsHostInfo)
}.

Definition DnsResolver_ctor {S} (o : DnsResolverOptions) : M S DnsResolver :=
  check (0 <? num_threads o) "options_.num_threads > 0UL" ;;
  check (0 <? queue_size o) "options_.queue_size > 0UL" ;;
  ret (MkResolver (repeat (Queue_ctor (queue_size o) true) (Z.to_nat (num_threads o))) 0 []).

(** The result of [Put] with the queue as it is when the wait ends. *)
Definition put_request (r : request) (q : ProducerConsumerQueue) : option request * ProducerConsumerQueue :=
  if HasEmptySpace q then (None, emplace_at r (negb (fifo_policy_ q)) q) else (Some r, q).

Definition ResolveAsync (hostname : str) (callback : Fn) (d : DnsResolver) : option DnsResolver :=
  let index := Z.to_nat (resolve_index_ d mod zlen (resolves_ d)) in
  q ← resolves_ d !! index;
  let '(r, q) := put_request (hostname, Some callback) q in
  let calls := if negb (has_value r)
               then calls d ++ [(callback, Error (mk_status kInternal "Asynchronous resolve queue is full."))]
               else calls d in
  Some (MkResolver (<[index:=q]> (resolves_ d)) (u64 (resolve_index_ d + 1)) calls).

(** The requests that [~DnsResolver] puts, without a limit in time, before it
    joins the threads; a full queue is waited for. *)
Definition stop_requests (d : DnsResolver) : DnsResolver :=
  MkResolver (emplace_at ([], None) false <$> resolves_ d) (resolve_index_ d) (calls d).

(** One iteration of [RunResolve]: [false] to stop, [None] to wait for a
    request.  A request with a name but no callback calls a null function. *)
Definition RunResolve (index : nat) (d : DnsResolver) : M W (option (bool * DnsResolver)) :=
  match resolves_ d !! index ≫= pop_front with
  | None => ret None
  | Some ((hostname, callback), q) =>
      let d := MkResolver (<[index:=q]> (resolves_ d)) (resolve_index_ d) (calls d) in
      match hostname, callback with
      | [], None => ret (Some (false, d))
      | _, None => fatal "std::bad_function_call"
      | _, Some f =>
          r <- Resolve hostname ;;
          ret (Some (true, MkResolver (resolves_ d) (resolve_index_ d) (calls d ++ [(f, r)])))
      end
  end.
End Dns.

(** ** Correctness *)

(** The results of consecutive calls. *)
Fixpoint picks (n : nat) (h : DnsHostInfo) : list (option IpAddress) :=
  match n with
  | O => []
  | S n => let '(ip, h) := PickNextAddress h in ip :: picks n h
  end.

Definition all_addresses (h : DnsHostInfo) : list IpAddress := ipv4_ h ++ ipv6_ h.

Lemma pick_next_spec h :
  all_addresses h <> [] ->
  PickNextAddress h =
    (all_addresses h !! Z.to_nat (next_ip_ h mod zlen (all_addresses h)),
     MkHost (hostname_ h) (ipv4_ h) (ipv6_ h) (u64 (next_ip_ h + 1)) (next_ipv4_ h) (next_ipv6_ h)).
Proof.
  intros Hne. unfold PickNextAddress, all_addresses in *. rewrite zlen_app.
  set (ndx := next_ip_ h mod _).
  assert (Hl : (if ndx <? zlen (ipv4_ h) then ipv4_ h !! Z.to_nat ndx else ipv6_ h !! Z.to_nat (ndx - zlen (ipv4_ h)))
               = (ipv4_ h ++ ipv6_ h) !! Z.to_nat ndx).
  { pose proof (zlen_nonneg (ipv4_ h)). destruct (ndx <? zlen (ipv4_ h)) eqn:E.
    - apply Z.ltb_lt in E. destruct (decide (0 <= ndx)).
      + rewrite lookup_app_l; [done|]. unfold zlen in *. lia.
      + assert (0 <= ndx); [|lia]. apply Z.mod_pos_bound. unfold zlen in *.
        destruct (ipv4_ h), (ipv6_ h); simpl in *; try done; lia.
    - apply Z.ltb_ge in E. rewrite lookup_app_r by (unfold zlen in *; lia). f_equal. unfold zlen in *. lia. }
  rewrite Hl. by destruct (ipv4_ h), (ipv6_ h).
Qed.

(** [PickNextAddress] goes round the addresses, the IPv4 ones first. *)
Lemma picks_spec n h :
  all_addresses h <> [] -> 0 <= next_ip_ h -> next_ip_ h + Z.of_nat n <= 2 ^ 64 ->
  picks n h = (fun i => all_addresses h !! Z.to_nat ((next_ip_ h + Z.of_nat i) mod zlen (all_addresses h))) <$> seq 0 n.
Proof.
  revert h. induction n as [|n IH]; intros h Hne H0 Hb; [done|].
  cbn [picks]. rewrite pick_next_spec by done. cbn [seq fmap list_fmap]. f_equal; [by rewrite Z.add_0_r|].
  destruct n as [|n]; [done|]. rewrite IH; cbn [next_ip_]; [|done|apply wrap_range; lia|rewrite u64_id; lia].
  rewrite <- (fmap_S_seq 0), <- list_fmap_compose. apply list_fmap_ext. intros i x Hi. unfold compose.
  unfold all_addresses. cbn [ipv4_ ipv6_ next_ip_]. rewrite u64_id by lia. do 3 f_equal. lia.
Qed.

Section Correct.
Context {W St : Type} `{!HasErrno W} `{!AddrInfo W} `{HA : !Absl St} `{HL : !AbslLaws St} `{!Strerror}.
Context `{!BigEndian} `{!Inet} `{!Idna} `{!AddressSet}.

Lemma AddrInfoToStatus_not_ok errno err : code (status_ (AddrInfoToStatus (St := St) errno err)) <> kOk.
Proof.
  unfold AddrInfoToStatus. repeat case_decide; simpl; rewrite ?code_mk; try done. apply errno_code_not_ok.
Qed.

Lemma collect_spec results v4 v6 :
  collect results v4 v6 = (v4 ++ (results ≫= v4_of), v6 ++ (results ≫= v6_of)).
Proof.
  revert v4 v6. induction results as [|ss results IH]; intros v4 v6; simpl; [by rewrite !app_nil_r|].
  by rewrite IH, <- !app_assoc.
Qed.

(** The addresses of a result, from the bytes of its [ai_addr]. *)
Lemma in_v4 results ip :
  ip ∈ results ≫= v4_of <->
  exists ss, ss ∈ results /\ sa_family ss = AF_INET /\ ip = IpAddress_v4 (ntohl (load (peek off_sin_addr 4 ss))).
Proof.
  rewrite list_elem_of_bind. unfold v4_of. split.
  - intros (ss & Hip & Hss). exists ss. case_decide; [|by apply not_elem_of_nil in Hip].
    apply list_elem_of_singleton in Hip. done.
  - intros (ss & Hss & Hf & ->). exists ss. rewrite decide_True by done. split; [by left|done].
Qed.

Lemma in_v6 results ip :
  ip ∈ results ≫= v6_of <->
  exists ss, ss ∈ results /\ sa_family ss = AF_INET6 /\ ip = IpAddress_bytes (peek off_sin6_addr 16 ss).
Proof.
  rewrite list_elem_of_bind. unfold v6_of. split.
  - intros (ss & Hip & Hss). exists ss. repeat case_decide; try by apply not_elem_of_nil in Hip.
    apply list_elem_of_singleton in Hip. done.
  - intros (ss & Hss & Hf & ->). exists ss. rewrite Hf, decide_False, decide_True by done. split; [by left|done].
Qed.

(** C36: [Resolve] asks for the name converted to ASCII.  On success the
    result has the name, exactly the IPv4 addresses and the IPv6 addresses
    found, each once, and consecutive [PickNextAddress] go round all of them,
    IPv4 first, until the counter wraps; a failure of the conversion or of
    [getaddrinfo] is returned with its code, never as OK. *)
Theorem dns_resolve_spec (hostname : str) (w : W) :
  returns (Resolve (St := St) hostname) w (fun r _ =>
    match GetDnsResolveName (DnsHostInfo_ctor hostname) with
    | Error st0 => exists st, r = Error st /\ code st = code st0
    | Value name =>
        let '((err, results), w') := sys_getaddrinfo (c_str name) w in
        if decide (err <> 0) then
          exists st, r = Error st /\ Status.ok st = false /\
                     code st = code (status_ (AddrInfoToStatus (sys_errno w') err))
        else exists h, r = Value h /\ hostname_ h = hostname /\ NoDup (ipv4_ h) /\ NoDup (ipv6_ h) /\
          (forall ip, ip ∈ ipv4_ h <-> exists ss, ss ∈ results /\ sa_family ss = AF_INET /\
             ip = IpAddress_v4 (ntohl (load (peek off_sin_addr 4 ss)))) /\
          (forall ip, ip ∈ ipv6_ h <-> exists ss, ss ∈ results /\ sa_family ss = AF_INET6 /\
             ip = IpAddress_bytes (peek off_sin6_addr 16 ss)) /\
          (all_addresses h <> [] -> forall n, Z.of_nat n <= 2 ^ 64 ->
             picks n h = (fun i => all_addresses h !! Z.to_nat (Z.of_nat i mod zlen (all_addresses h))) <$> seq 0 n)
    end).
Proof.
  unfold Resolve, ASSIGN_OR_RETURN. unfold returns, bind, ret at 1.
  destruct (GetDnsResolveName (St := St) (DnsHostInfo_ctor hostname)) as [name|st0].
  2:{ eexists _, _. split; [done|]. eexists. split; [done|]. by rewrite code_to_status. }
  unfold gets. destruct (sys_getaddrinfo (c_str name) w) as [[err results] w']. case_decide as He.
  - eexists _, _. split; [done|]. eexists. split; [done|].
    assert (Hc : forall wr : StatusWriter St, code (to_status wr) = code (status_ wr)) by apply code_to_status.
    unfold Status.ok. rewrite Hc. simpl. split; [|done]. apply bool_decide_eq_false. apply AddrInfoToStatus_not_ok.
  - rewrite collect_spec. simpl. eexists _, _. split; [done|]. eexists. split; [done|].
    destruct (set_elements_spec (results ≫= v4_of)) as [Hd4 He4], (set_elements_spec (results ≫= v6_of)) as [Hd6 He6].
    unfold SetIpAddress. simpl. split_and!; [done|done|done| | |].
    + intros ip. by rewrite He4, in_v4.
    + intros ip. by rewrite He6, in_v6.
    + intros Hne n Hb. rewrite picks_spec; [done|done|simpl; lia|simpl; lia].
Qed.

(** [Put] returns the datum it could not place, and nothing on success: the
    test of [ResolveAsync] is reversed.  A request that is queued gets an error
    at once, besides its answer; one that is refused gets nothing. *)
Lemma resolve_async_reversed {Fn : Type} hostname (f : Fn) (d : DnsResolver (St := St)) q :
  resolves_ d !! Z.to_nat (resolve_index_ d mod zlen (resolves_ d)) = Some q ->
  exists d', ResolveAsync hostname f d = Some d' /\
    calls d' = calls d ++
      (if HasEmptySpace q then [(f, Error (mk_status kInternal "Asynchronous resolve queue is full."))] else []).
Proof.
  intros Hq. unfold ResolveAsync, put_request. rewrite Hq. simpl.
  destruct (HasEmptySpace q); eexists; (split; [done|]); simpl; by rewrite ?app_nil_r.
Qed.
End Correct.

(** ** A small resolver *)
Section Witnesses.
Import RefAbsl RefInet.

#[local] Instance dns_endian : BigEndian := false.
#[local] Instance no_idna : Idna := { idna_created := false; nameToASCII_UTF8 s := inl s }.
#[local] Instance dns_strerror : Strerror := fun _ => Xsi 0 "text".
#[local] Instance unit_errno : HasErrno unit := fun _ => 0.

(** 127.0.0.1, twice, and then the IPv6 address ::1. *)
#[local] Instance demo_info : AddrInfo unit := fun name w =>
  (if bool_decide (name = "localhost") then
     (0, [poke off_sin_addr [127; 0; 0; 1] (poke off_family (store16 AF_INET) zero_storage);
          poke off_sin_addr [127; 0; 0; 1] (poke off_family (store16 AF_INET) zero_storage);
          poke off_sin6_addr (replicate 15 0 ++ [1]) (poke off_family (store16 AF_INET6) zero_storage)])
   else (EAI_NONAME, []), w).

#[local, refine] Instance list_set : AddressSet := { set_elements := remove_dups }.
Proof. intros l. split; [apply NoDup_remove_dups|]. intros ip. apply elem_of_remove_dups. Defined.

Lemma dns_resolve_spec_witness :
  returns (Resolve (St := rstatus) "localhost") tt (fun r _ =>
    exists h, r = Value h /\ ipv4_ h = [kIPv4Localhost] /\
      picks 3 h = [Some kIPv4Localhost; Some kIPv6Localhost; Some kIPv4Localhost]).
Proof.
  destruct (dns_resolve_spec (St := rstatus) "localhost" tt) as (r & w' & E & H).
  exists r, w'. split; [exact E|]. vm_compute in E. injection E as <- _.
  eexists. split; [reflexivity|]. split; vm_compute; reflexivity.
Defined.
End Witnesses.
