(* ===== verification/Socket.v ===== *)
(** * Sockets, and what connections use besides the selector
    ([whisperlib/net/connection.cc], the functions before the classes)

    The system calls on sockets are the class [Sockets] over the type [W] of the
    rest of the world; [CordEdit] is what connections use of [absl::Cord]
    besides CordIo.v.  An address buffer is the bytes of a [sockaddr_storage],
    as in Address.v. *)

From S2P Require Import Prelude Status Errno CordIo Posix SelectorLoop Address Selector.

(** ** [<sys/socket.h>] on Linux *)

Definition SOCK_STREAM : Z := 1.
Definition SOL_SOCKET : Z := 1.
Definition SO_REUSEADDR : Z := 2.
Definition SO_SNDBUF : Z := 7.
Definition SO_RCVBUF : Z := 8.
Definition IPPROTO_TCP : Z := 6.
Definition TCP_NODELAY : Z := 1.
Definition SHUT_WR : Z := 1.
Definition SHUT_RDWR : Z := 2.
Definition sizeof_sockaddr_storage : Z := 128.

Class Sockets (W : Type) := {
  (* socket(family, SOCK_STREAM, 0) *)
  sys_socket : Z -> W -> Z * W;
  (* bind(fd, addr, len), connect(fd, addr, len), listen(fd, backlog) *)
  sys_bind : Z -> list Z -> Z -> W -> Z * W;
  sys_connect : Z -> list Z -> Z -> W -> Z * W;
  sys_listen : Z -> Z -> W -> Z * W;
  (* accept(fd, &addr, &len): the result, and what is then in [addr] *)
  sys_accept : Z -> W -> (Z * list Z) * W;
  sys_shutdown : Z -> Z -> W -> Z * W;
  (* getsockopt(fd, SOL_SOCKET, SO_ERROR): the result and the error *)
  sys_so_error : Z -> W -> (Z * Z) * W;
  (* setsockopt(fd, level, option, &value) for an [int] *)
  sys_setsockopt : Z -> Z -> Z -> Z -> W -> Z * W;
  (* getsockname and getpeername: the result, the buffer and the length *)
  sys_getsockname : Z -> W -> (Z * (list Z * Z)) * W;
  sys_getpeername : Z -> W -> (Z * (list Z * Z)) * W;
  (* ioctl(fd, FIONREAD, &count) *)
  sys_fionread : Z -> W -> (Z * Z) * W
}.

(** [absl::Cord]; [RemovePrefix(n)] stops the process unless [n <= size()],
    which is checked where it is called. *)
Class CordEdit (Cord : Type) := {
  cord_empty : Cord;
  cord_RemovePrefix : Cord -> Z -> Cord
}.

Class CordEditLaws (Cord : Type) `{!CordApi Cord} `{!CordEdit Cord} : Prop := {
  cord_empty_spec : cord_bytes cord_empty = [];
  cord_RemovePrefix_spec c n : 0 <= n <= zlen (cord_bytes c) ->
    cord_bytes (cord_RemovePrefix c n) = drop (Z.to_nat n) (cord_bytes c)
}.

(** [absl::FormatTime], on nanoseconds since the epoch. *)
Class TimeFormat := FormatTime : Z -> str.

(** What a [sockaddr_storage] that is not initialized holds. *)
Class Uninitialized := storage : list Z.

Section Helpers.
Context {W : Type} `{!HasErrno W} `{!Sockets W} `{!BigEndian}.

Definition ExtractSocketErrno (fd : Z) (w : W) : Z * W :=
  let '((r, err), w) := sys_so_error fd w in
  if decide (r < 0) then (sys_errno w, w) else (err, w).

Definition IsProperError (err : Z) : bool :=
  negb (err =? 0) && negb (err =? EAGAIN) && negb (err =? EWOULDBLOCK).

Definition SockAddrLen (addr : list Z) : Z :=
  if decide (sa_family addr = AF_INET) then sizeof_sockaddr_in else sizeof_sockaddr_in6.
End Helpers.

(** ** Control *)

Section Control.
Context {S R : Type}.

(** A [base::CallOnReturn] that runs [cleanup] on every return of [before], up
    to its [reset()] ([None]); [after] is what follows. *)
Definition call_on_return (cleanup : M S unit) (before : M S (option R)) (after : M S R) : M S R :=
  r <- before ;;
  match r with
  | Some r => cleanup ;; ret r
  | None => after
  end.
End Control.

#[export] Instance from_status_early St R `{!FromStatus St R} : FromStatus St (option R) :=
  fun st => Some (from_status st).

(** [absl::StatusOr<A>(absl::OkStatus())] is documented to fall back on an
    internal error (and to stop the process in debug builds). *)
Definition StatusOr_of_ok {St A} `{!Absl St} : StatusOr St A :=
  Error (mk_status kInternal "An OK status is not a valid constructor argument to StatusOr<T>").

(** ** What a socket call leaves alone *)

(** The memory of the process, where the world has it: no system call on
    sockets writes to the objects of the program. *)
Class Memory (W : Type) := { Mem : Type; memory : W -> Mem }.
#[export] Instance no_memory W : Memory W | 100 := { Mem := unit; memory _ := tt }.

Section Quiet.
Context {L W St : Type} `{!Absl St} `{!EventLoop L W St} `{!EventLoopLaws L W St} `{!SelectorSys W} `{!Memory W}.

(** The calling thread, the memory, and what the event loop knows. *)
Definition quiet (w w' : W) : Prop :=
  (pthread_self w' = pthread_self w /\ memory w' = memory w) /\
  forall l : L, loop_ok (l, w) -> loop_ok (l, w') /\ loop_registry (l, w') = loop_registry (l, w).

(** Closing a descriptor makes the kernel forget it. *)
Definition quiet_but (fd : Z) (w w' : W) : Prop :=
  (pthread_self w' = pthread_self w /\ memory w' = memory w) /\
  forall l : L, loop_ok (l, w) ->
    loop_ok (l, w') /\ (forall x, x <> fd -> loop_registry (l, w') !! x = loop_registry (l, w) !! x) /\
    loop_registry (l, w') ⊆ loop_registry (l, w).

Lemma quiet_refl w : quiet w w.
Proof. by split. Qed.

Lemma quiet_trans w1 w2 w3 : quiet w1 w2 -> quiet w2 w3 -> quiet w1 w3.
Proof.
  intros [[E1 M1] H1] [[E2 M2] H2]. split; [split; congruence|]. intros l Hl. destruct (H1 l Hl) as [Hl2 R1].
  destruct (H2 l Hl2) as [Hl3 R2]. split; [done|congruence].
Qed.
End Quiet.

Class SocketLaws (L W St : Type) `{!Absl St} `{!EventLoop L W St} `{!EventLoopLaws L W St} `{!SelectorSys W}
    `{!PosixFile W} `{!Sockets W} `{!Memory W} : Prop := {
  quiet_socket x w : quiet (L := L) w (sys_socket x w).2;
  quiet_connect fd a n w : quiet (L := L) w (sys_connect fd a n w).2;
  quiet_shutdown fd how w : quiet (L := L) w (sys_shutdown fd how w).2;
  quiet_so_error fd w : quiet (L := L) w (sys_so_error fd w).2;
  quiet_setsockopt fd l o v w : quiet (L := L) w (sys_setsockopt fd l o v w).2;
  quiet_getsockname fd w : quiet (L := L) w (sys_getsockname fd w).2;
  quiet_getpeername fd w : quiet (L := L) w (sys_getpeername fd w).2;
  quiet_fionread fd w : quiet (L := L) w (sys_fionread fd w).2;
  quiet_getfl fd w : quiet (L := L) w (sys_getfl fd w).2;
  quiet_setfl fd x w : quiet (L := L) w (sys_setfl fd x w).2;
  quiet_now w : quiet (L := L) w (sys_now w).2;
  quiet_read fd n w : quiet (L := L) w (sys_read fd n w).2;
  quiet_write fd data n w : quiet (L := L) w (sys_write fd data n w).2;
  quiet_close fd w : quiet_but (L := L) fd w (sys_close fd w).2;
  (* the event loop runs in the thread that calls it *)
  Add_thread fd ud d (s s' : L * W) (st : St) :
    loop_Add fd ud d s = Ret st s' -> pthread_self s'.2 = pthread_self s.2 /\ memory s'.2 = memory s.2;
  Update_thread fd ud d (s s' : L * W) (st : St) :
    loop_Update fd ud d s = Ret st s' -> pthread_self s'.2 = pthread_self s.2 /\ memory s'.2 = memory s.2;
  Delete_thread fd (s s' : L * W) (st : St) :
    loop_Delete fd s = Ret st s' -> pthread_self s'.2 = pthread_self s.2 /\ memory s'.2 = memory s.2
}.
