(* ===== verification/Connection.v ===== *)
(** * Connections ([whisperlib/net/connection.h], [whisperlib/net/connection.cc])

    The classes [Connection] and [TcpConnection].  A connection is the object at
    address [self] of a selector at address [this]: its descriptor is that of
    the object table of Selector.v, so [Register], [Unregister] and the event
    switches are those of the selector.  The resolver is that of Dns.v, the
    linger timeout that of Timeouter.v, with its alarm among those of the
    selector.  The functions of the application are a
    parameter.  Locks protect what other threads only read; messages to the log
    are left out. *)

From S2P Require Import Prelude Status Errno CordIo Posix Address SelectorLoop Selectable Selector.
From S2P Require Import Timeouter Dns Socket.

(** ** [Connection] *)

Inductive ConnState := DISCONNECTED | RESOLVING | CONNECTING | CONNECTED | FLUSHING.
Inductive CloseDirective := CLOSE_READ | CLOSE_WRITE | CLOSE_READ_WRITE.

#[export] Instance ConnState_eq : EqDecision ConnState.
Proof. solve_decision. Defined.
#[export] Instance CloseDirective_eq : EqDecision CloseDirective.
Proof. solve_decision. Defined.

Definition StateName (value : ConnState) : str :=
  match value with
  | DISCONNECTED => "DISCONNECTED"
  | RESOLVING => "RESOLVING"
  | CONNECTING => "CONNECTING"
  | CONNECTED => "CONNECTED"
  | FLUSHING => "FLUSHING"
  end.
Definition CloseDirectiveName (value : CloseDirective) : str :=
  match value with
  | CLOSE_READ => "CLOSE_READ"
  | CLOSE_WRITE => "CLOSE_WRITE"
  | CLOSE_READ_WRITE => "CLOSE_READ_WRITE"
  end.

Section Base.
Context {St Cord H : Type} `{!Absl St} `{!CordApi Cord} `{!CordEdit Cord}.

(** The functions set by the application are of type [H], or null. *)
Record Handlers := MkHandlers {
  connect_handler_ : option H;
  read_handler_ : option H;
  write_handler_ : option H;
  close_handler_ : option H
}.

Record Connection := MkConnection {
  net_selector_ : ptr;
  state_ : ConnState;
  last_error_ : St;
  handlers : Handlers;
  count_bytes_written_ : Z;
  count_bytes_read_ : Z;
  inbuf_ : Cord;
  outbuf_ : Cord
}.

Definition no_handlers : Handlers := MkHandlers None None None None.
Definition Connection_ctor (net_selector : ptr) : Connection :=
  MkConnection net_selector DISCONNECTED OkStatus no_handlers 0 0 cord_empty cord_empty.

Definition set_state (value : ConnState) (c : Connection) : Connection :=
  MkConnection (net_selector_ c) value (last_error_ c) (handlers c) (count_bytes_written_ c)
    (count_bytes_read_ c) (inbuf_ c) (outbuf_ c).
Definition set_last_error (value : St) (c : Connection) : Connection :=
  if negb (Status.ok value) then
    MkConnection (net_selector_ c) (state_ c) (UpdateOrAnnotate (last_error_ c) value) (handlers c)
      (count_bytes_written_ c) (count_bytes_read_ c) (inbuf_ c) (outbuf_ c)
  else c.
Definition set_handlers (value : Handlers) (c : Connection) : Connection :=
  MkConnection (net_selector_ c) (state_ c) (last_error_ c) value (count_bytes_written_ c)
    (count_bytes_read_ c) (inbuf_ c) (outbuf_ c).
Definition set_inbuf (value : Cord) (c : Connection) : Connection :=
  MkConnection (net_selector_ c) (state_ c) (last_error_ c) (handlers c) (count_bytes_written_ c)
    (count_bytes_read_ c) value (outbuf_ c).
Definition set_outbuf (value : Cord) (c : Connection) : Connection :=
  MkConnection (net_selector_ c) (state_ c) (last_error_ c) (handlers c) (count_bytes_written_ c)
    (count_bytes_read_ c) (inbuf_ c) value.
Definition inc_bytes_read (value : Z) (c : Connection) : Connection :=
  MkConnection (net_selector_ c) (state_ c) (last_error_ c) (handlers c) (count_bytes_written_ c)
    (i64 (count_bytes_read_ c + value)) (inbuf_ c) (outbuf_ c).
Definition inc_bytes_written (value : Z) (c : Connection) : Connection :=
  MkConnection (net_selector_ c) (state_ c) (last_error_ c) (handlers c) (i64 (count_bytes_written_ c + value))
    (count_bytes_read_ c) (inbuf_ c) (outbuf_ c).

(** [set_connect_handler(h)], and [clear_connect_handler()] for [None]. *)
Definition set_connect_handler (h : option H) (c : Connection) : Connection :=
  let l := handlers c in set_handlers (MkHandlers h (read_handler_ l) (write_handler_ l) (close_handler_ l)) c.
Definition set_read_handler (h : option H) (c : Connection) : Connection :=
  let l := handlers c in set_handlers (MkHandlers (connect_handler_ l) h (write_handler_ l) (close_handler_ l)) c.
Definition set_write_handler (h : option H) (c : Connection) : Connection :=
  let l := handlers c in set_handlers (MkHandlers (connect_handler_ l) (read_handler_ l) h (close_handler_ l)) c.
Definition set_close_handler (h : option H) (c : Connection) : Connection :=
  let l := handlers c in set_handlers (MkHandlers (connect_handler_ l) (read_handler_ l) (write_handler_ l) h) c.
(** A selector may only be set where there is none. *)
Definition set_net_selector (value : ptr) (c : Connection) : option Connection :=
  if decide (net_selector_ c = 0) then
    Some (MkConnection value (state_ c) (last_error_ c) (handlers c) (count_bytes_written_ c) (count_bytes_read_ c)
            (inbuf_ c) (outbuf_ c))
  else None.
Definition clear_all_handlers (c : Connection) : Connection := set_handlers no_handlers c.
End Base.

Arguments Handlers : clear implicits.
Arguments Connection : clear implicits.

(** ** [TcpConnection] *)

Record TcpConnectionParams := MkTcpParams {
  send_buffer_size : option Z;
  recv_buffer_size : option Z;
  read_limit : option Z;
  write_limit : option Z;
  block_size : Z;
  shutdown_linger_timeout : Z;
  detail_log : bool
}.
Definition default_tcp_params : TcpConnectionParams := MkTcpParams None None None None 16384 5000000000 false.

(** The setters of the parameters. *)
Definition set_send_buffer_size (value : Z) (p : TcpConnectionParams) : TcpConnectionParams :=
  MkTcpParams (Some value) (recv_buffer_size p) (read_limit p) (write_limit p) (block_size p) (shutdown_linger_timeout p) (detail_log p).
Definition set_recv_buffer_size (value : Z) (p : TcpConnectionParams) : TcpConnectionParams :=
  MkTcpParams (send_buffer_size p) (Some value) (read_limit p) (write_limit p) (block_size p) (shutdown_linger_timeout p) (detail_log p).
Definition set_read_limit (value : Z) (p : TcpConnectionParams) : TcpConnectionParams :=
  MkTcpParams (send_buffer_size p) (recv_buffer_size p) (Some value) (write_limit p) (block_size p) (shutdown_linger_timeout p) (detail_log p).
Definition set_write_limit (value : Z) (p : TcpConnectionParams) : TcpConnectionParams :=
  MkTcpParams (send_buffer_size p) (recv_buffer_size p) (read_limit p) (Some value) (block_size p) (shutdown_linger_timeout p) (detail_log p).
Definition set_block_size (value : Z) (p : TcpConnectionParams) : TcpConnectionParams :=
  MkTcpParams (send_buffer_size p) (recv_buffer_size p) (read_limit p) (write_limit p) value (shutdown_linger_timeout p) (detail_log p).
Definition set_shutdown_linger_timeout (value : Z) (p : TcpConnectionParams) : TcpConnectionParams :=
  MkTcpParams (send_buffer_size p) (recv_buffer_size p) (read_limit p) (write_limit p) (block_size p) value (detail_log p).
Definition set_detail_log (value : bool) (p : TcpConnectionParams) : TcpConnectionParams :=
  MkTcpParams (send_buffer_size p) (recv_buffer_size p) (read_limit p) (write_limit p) (block_size p) (shutdown_linger_timeout p) value.

Definition kShutdownTimeoutId : Z := -100.

(** The descriptor [fd_] is that of the object at [self]. *)
Record TcpConnection (St Cord H : Type) := MkTcp {
  connection : Connection St Cord H;
  tcp_params_ : TcpConnectionParams;
  local_address_ : HostPort;
  remote_address_ : HostPort;
  write_closed_ : bool;
  read_closed_ : bool;
  last_read_ts_ : Z;
  last_write_ts_ : Z;
  timeouter_ : Timeouter;
  close_on_resolve_ : option bool
}.
Arguments MkTcp {_ _ _} _ _ _ _ _ _ _ _ _ _.
Arguments connection {_ _ _} _.
Arguments tcp_params_ {_ _ _} _.
Arguments local_address_ {_ _ _} _.
Arguments remote_address_ {_ _ _} _.
Arguments write_closed_ {_ _ _} _.
Arguments read_closed_ {_ _ _} _.
Arguments last_read_ts_ {_ _ _} _.
Arguments last_write_ts_ {_ _ _} _.
Arguments timeouter_ {_ _ _} _.
Arguments close_on_resolve_ {_ _ _} _.

Section Fields.
Context {St Cord H : Type}.
Abbreviation Tcp := (TcpConnection St Cord H).

Definition on_connection (f : Connection St Cord H -> Connection St Cord H) (c : Tcp) : Tcp :=
  MkTcp (f (connection c)) (tcp_params_ c) (local_address_ c) (remote_address_ c) (write_closed_ c)
    (read_closed_ c) (last_read_ts_ c) (last_write_ts_ c) (timeouter_ c) (close_on_resolve_ c).
Definition set_local_address (x : HostPort) (c : Tcp) : Tcp :=
  MkTcp (connection c) (tcp_params_ c) x (remote_address_ c) (write_closed_ c)
    (read_closed_ c) (last_read_ts_ c) (last_write_ts_ c) (timeouter_ c) (close_on_resolve_ c).
Definition set_remote_address (x : HostPort) (c : Tcp) : Tcp :=
  MkTcp (connection c) (tcp_params_ c) (local_address_ c) x (write_closed_ c)
    (read_closed_ c) (last_read_ts_ c) (last_write_ts_ c) (timeouter_ c) (close_on_resolve_ c).
Definition set_write_closed (x : bool) (c : Tcp) : Tcp :=
  MkTcp (connection c) (tcp_params_ c) (local_address_ c) (remote_address_ c) x
    (read_closed_ c) (last_read_ts_ c) (last_write_ts_ c) (timeouter_ c) (close_on_resolve_ c).
Definition set_read_closed (x : bool) (c : Tcp) : Tcp :=
  MkTcp (connection c) (tcp_params_ c) (local_address_ c) (remote_address_ c) (write_closed_ c)
    x (last_read_ts_ c) (last_write_ts_ c) (timeouter_ c) (close_on_resolve_ c).
Definition set_last_read_ts (x : Z) (c : Tcp) : Tcp :=
  MkTcp (connection c) (tcp_params_ c) (local_address_ c) (remote_address_ c) (write_closed_ c)
    (read_closed_ c) x (last_write_ts_ c) (timeouter_ c) (close_on_resolve_ c).
Definition set_last_write_ts (x : Z) (c : Tcp) : Tcp :=
  MkTcp (connection c) (tcp_params_ c) (local_address_ c) (remote_address_ c) (write_closed_ c)
    (read_closed_ c) (last_read_ts_ c) x (timeouter_ c) (close_on_resolve_ c).
Definition set_timeouter (x : Timeouter) (c : Tcp) : Tcp :=
  MkTcp (connection c) (tcp_params_ c) (local_address_ c) (remote_address_ c) (write_closed_ c)
    (read_closed_ c) (last_read_ts_ c) (last_write_ts_ c) x (close_on_resolve_ c).
Definition set_close_on_resolve (x : option bool) (c : Tcp) : Tcp :=
  MkTcp (connection c) (tcp_params_ c) (local_address_ c) (remote_address_ c) (write_closed_ c)
    (read_closed_ c) (last_read_ts_ c) (last_write_ts_ c) (timeouter_ c) x.
Definition state (c : Tcp) : ConnState := state_ (connection c).
Definition inbuf (c : Tcp) : Cord := inbuf_ (connection c).
Definition outbuf (c : Tcp) : Cord := outbuf_ (connection c).
End Fields.

(** The connection, its selector with the rest of the world, and the default
    resolver, whose callbacks are addresses of connections. *)
Record Net (L Cb W St Cord H : Type) := MkNet {
  tcp : TcpConnection St Cord H;
  reactor : State L Cb W;
  resolver : DnsResolver (St := St) (Fn := ptr)
}.
Arguments MkNet {_ _ _ _ _ _} _ _ _.
Arguments tcp {_ _ _ _ _ _} _.
Arguments reactor {_ _ _ _ _ _} _.
Arguments resolver {_ _ _ _ _ _} _.

(** What a connection gives to [RunInSelectLoop], and [timeouter_] to
    [RegisterAlarm].  The result of a resolution is captured by reference: it
    is gone when the function runs. *)
Inductive Task :=
| TaskFlushAndClose
| TaskForceClose
| TaskCloseCommunication (directive : CloseDirective)
| TaskHandleDnsResult
| TaskProcessTimeout (timeout_id : Z).
Class Tasks (Cb : Type) := task : ptr -> Task -> Cb.

(** The code of the application. *)
Class Application (S H St : Type) := {
  run_connect : H -> M S unit;
  run_read : H -> M S St;
  run_write : H -> M S St;
  run_close : H -> St -> CloseDirective -> M S unit
}.

Definition connection_cc : str := "whisperlib/net/connection.cc".

Section Tcp.
Context {L Cb W St Cord H : Type}.
Context `{!HasErrno W} `{!PosixFile W} `{!SelectorSys W} `{!Sockets W} `{!HeapApi}.
Context `{!BigEndian} `{!Inet} `{!TimeFormat} `{!Uninitialized} `{!CordApi Cord} `{!CordEdit Cord} `{!Absl St} `{!Strerror}.
Context `{!EventLoop L W St} `{!Tasks Cb} `{!Application (Net L Cb W St Cord H) H St}.
(** The addresses of the selector and of the connection. *)
Context (this self : ptr).

Abbreviation N := (Net L Cb W St Cord H).
Abbreviation Tcp := (TcpConnection St Cord H).

Definition field {A} (f : Tcp -> A) : M N A := gets (fun s => f (tcp s)).
Definition store (f : Tcp -> Tcp) : M N unit := modify (fun s => MkNet (f (tcp s)) (reactor s) (resolver s)).
Definition on_reactor {A} (m : M (State L Cb W) A) : M N A :=
  fun s => match m (reactor s) with
           | Ret a r => Ret a (MkNet (tcp s) r (resolver s))
           | Fatal why => Fatal why
           end.
Definition sock {A} (f : W -> A * W) : M N A := on_reactor (sys_call f).
(** The reads and writes of [Selectable]. *)
Definition on_world {A} (m : M W A) : M N A :=
  on_reactor (fun s => match m (world s) with
                       | Ret a w => Ret a (MkState (sel s) (objects s) w)
                       | Fatal why => Fatal why
                       end).
(** A call on [selector()], which is null once the object is unregistered. *)
Definition via_selector {A} (m : M (State L Cb W) A) : M N A :=
  p <- on_reactor (on_base self selector) ;;
  if decide (p = 0) then fatal "null pointer" else on_reactor m.
(** A test of an event by the loop of [selector()]. *)
Definition event_test (f : Z -> bool) (value : Z) : M N bool :=
  via_selector (fun s => match loop_ (sel s) with None => Fatal "null pointer" | Some _ => Ret (f value) s end).

(** *** The timeouts

    [timeouter_] has its alarms in the selector it was made with; what it
    registers there is a function of the connection. *)

Definition timeout_alarm (timeout_id : Z) : Function Cb := UserFunction (task self (TaskProcessTimeout timeout_id)).
Definition on_timeouter (f : Timeouter -> Alarms (Function Cb) -> Timeouter * Alarms (Function Cb)) : M N unit :=
  fun s => let r := reactor s in
           let '(t, a) := f (timeouter_ (tcp s)) (timers_ (sel r)) in
           Ret tt (MkNet (set_timeouter t (tcp s)) (MkState (set_timers a (sel r)) (objects r) (world r)) (resolver s)).

(** *** The descriptor *)

Definition GetFd : M N Z := on_reactor (Selector.GetFd self).
Definition fd_store (fd : Z) : M N unit :=
  on_reactor (fun s => match objects s !! self with
                       | None => Fatal "invalid pointer"
                       | Some o => Ret tt (MkState (sel s) (<[self:=MkObject (base o) fd]> (objects s)) (world s))
                       end).

(** *** Description and errors *)

Definition Tcp_ToString : M N str :=
  c <- field id ;;
  fd <- GetFd ;;
  ret ("TcpConnection [ " ++ ToString (local_address_ c) ++ " => " ++ ToString (remote_address_ c)
       ++ " (fd: " ++ StrInt fd ++ ", state: " ++ StateName (state c)
       ++ ", last read: " ++ FormatTime (last_read_ts_ c) ++ ", last write: " ++ FormatTime (last_write_ts_ c)
       ++ ") ]").

(** [return error::ErrnoToStatus(error::Errno()) << text << ToString();] *)
Definition fail_errno {R} `{!FromStatus St R} (text : str) : M N R :=
  s <- Tcp_ToString ;;
  fun n => let e := sys_errno (world (reactor n)) in Ret (return_errno e e (text ++ s)) n.

(** *** Buffers and events *)

Definition SetSendBufferSize (size : Z) : M N St :=
  fd <- GetFd ;;
  r <- sock (sys_setsockopt fd SOL_SOCKET SO_SNDBUF size) ;;
  if negb (r =? 0) then fail_errno ("::Setting send buffer size of: " ++ StrInt size ++ " for: ")
  else ret OkStatus.
Definition SetRecvBufferSize (size : Z) : M N St :=
  fd <- GetFd ;;
  r <- sock (sys_setsockopt fd SOL_SOCKET SO_RCVBUF size) ;;
  if negb (r =? 0) then fail_errno ("::Setting recv buffer size of: " ++ StrInt size ++ " for: ")
  else ret OkStatus.
Definition RequestReadEvents (enable : bool) : M N St := via_selector (EnableReadCallback this self enable).
Definition RequestWriteEvents (enable : bool) : M N St := via_selector (EnableWriteCallback this self enable).
Definition GetLocalAddress : M N HostPort := field local_address_.
Definition GetRemoteAddress : M N HostPort := field remote_address_.

(** The four [Write]s, on the bytes of their argument. *)
Definition Write (buffer : str) : M N unit :=
  store (on_connection (fun c => set_outbuf (cord_Append (outbuf_ c) buffer) c)) ;;
  st <- RequestWriteEvents true ;;
  ret tt.

(** *** Setting up the socket *)

Definition set_size (size : option Z) (f : Z -> M N St) (rest : M N St) : M N St :=
  match size with Some size => RETURN_IF_ERROR (f (i32 size)) [] rest | None => rest end.

Definition SetSocketOptions : M N St :=
  fd <- GetFd ;;
  RET_CHECK (negb (fd =? kInvalidFdValue)) "fd != kInvalidFdValue" connection_cc 990 []
  (flags <- sock (sys_getfl fd) ;;
   if decide (flags < 0) then fail_errno "::fcntl with F_GETFL failed for: "
   else
     let new_flags := Z.lor flags O_NONBLOCK in
     r <- sock (sys_setfl fd new_flags) ;;
     if negb (r =? 0) then fail_errno ("::fcntl with F_SETFL, " ++ StrInt new_flags ++ " failed for: ")
     else
       fd <- GetFd ;;
       r <- sock (sys_setsockopt fd IPPROTO_TCP TCP_NODELAY 1) ;;
       if decide (r < 0) then fail_errno "::setsockopt with TCP_NODELAY failed for: "
       else
         params <- field tcp_params_ ;;
         set_size (send_buffer_size params) SetSendBufferSize
         (set_size (recv_buffer_size params) SetRecvBufferSize
          (ret OkStatus))).

Definition InitializeLocalAddress : M N St :=
  fd <- GetFd ;;
  '(r, (addr, len)) <- sock (sys_getsockname fd) ;;
  if decide (r < 0) then fail_errno "::getsockname failed for: "
  else
    s <- Tcp_ToString ;;
    ASSIGN_OR_RETURN (ret (ParseFromSockAddr addr len)) ("Parsing local socket address for: " ++ s)
      (fun local_address =>
         store (fun c => set_local_address (Update (local_address_ c) local_address) c) ;;
         ret OkStatus).

(** The test of the result of [getpeername] is [!result]. *)
Definition InitializeRemoteAddress : M N St :=
  fd <- GetFd ;;
  '(r, (addr, len)) <- sock (sys_getpeername fd) ;;
  if r =? 0 then fail_errno "::getpeername failed for: "
  else
    s <- Tcp_ToString ;;
    ASSIGN_OR_RETURN (ret (ParseFromSockAddr addr len)) ("Parsing local socket address for: " ++ s)
      (fun remote_address =>
         store (fun c => set_remote_address (Update (remote_address_ c) remote_address) c) ;;
         ret OkStatus).

Definition IsInSelectThread : M N bool := via_selector Selector.IsInSelectThread.
Definition check_thread : M N unit := inside <- IsInSelectThread ;; check inside "selector()->IsInSelectThread()".
Definition run_in_select_loop (t : Task) : M N unit := via_selector (RunInSelectLoop (UserFunction (task self t))).

(** *** [Wrap] *)

Definition Wrap (fd : Z) : M N St :=
  check_thread ;;
  fd0 <- GetFd ;;
  RET_CHECK (fd0 =? kInvalidFdValue) "fd_.load() == kInvalidFdValue" connection_cc 620
    "Should wrap only on unconnected connection."
  (fd_store fd ;;
   call_on_return (fd_store kInvalidFdValue)
     (RETURN_IF_ERROR SetSocketOptions []
      (RETURN_IF_ERROR (via_selector (Register this self)) []
       (RETURN_IF_ERROR InitializeLocalAddress []
        (RETURN_IF_ERROR InitializeRemoteAddress []
         (RETURN_IF_ERROR (RequestReadEvents true) []
          (ret None))))))
     (store (set_read_closed false) ;;
      store (set_write_closed false) ;;
      store (on_connection (set_state CONNECTED)) ;;
      ret OkStatus)).

(** *** Closing *)

Definition CloseCommunication (directive : CloseDirective) : M N unit :=
  fd <- GetFd ;;
  st <- field state ;;
  if decide (fd = kInvalidFdValue) then check (bool_decide (st = DISCONNECTED)) "state() == DISCONNECTED"
  else
    inside <- IsInSelectThread ;;
    if negb inside then run_in_select_loop (TaskCloseCommunication directive)
    else
      closed <- field write_closed_ ;;
      if (bool_decide (directive = CLOSE_WRITE) || bool_decide (directive = CLOSE_READ_WRITE))
         && negb closed && bool_decide (st = CONNECTED)
      then
        store (on_connection (set_state FLUSHING)) ;;
        st <- RequestWriteEvents true ;;
        ret tt
      else ret tt.

Definition FlushAndClose : M N unit :=
  inside <- IsInSelectThread ;;
  if negb inside then run_in_select_loop TaskFlushAndClose else CloseCommunication CLOSE_WRITE.

(** [Connection::CallCloseHandler] *)
Definition Connection_CallCloseHandler (err : St) (directive : CloseDirective) : M N unit :=
  h <- field (fun c => close_handler_ (handlers (connection c))) ;;
  match h with
  | Some h => run_close h err directive
  | None => FlushAndClose
  end.

Definition CallCloseHandler (status : St) (directive : CloseDirective) : M N unit :=
  read_closed <- field read_closed_ ;;
  check (read_closed || (negb (bool_decide (directive = CLOSE_READ))
                         && negb (bool_decide (directive = CLOSE_READ_WRITE)))) "read_closed()" ;;
  write_closed <- field write_closed_ ;;
  check (write_closed || (negb (bool_decide (directive = CLOSE_WRITE))
                          && negb (bool_decide (directive = CLOSE_READ_WRITE)))) "write_closed()" ;;
  Connection_CallCloseHandler status directive.

(** Giving the descriptor back. *)
Definition close_fd : M N unit :=
  fd <- GetFd ;;
  if negb (fd =? kInvalidFdValue) then
    st <- via_selector (Unregister this self) ;;
    fd <- GetFd ;;
    r <- sock (sys_shutdown fd SHUT_RDWR) ;;
    fd <- GetFd ;;
    r <- sock (sys_close fd) ;;
    fd_store kInvalidFdValue
  else ret tt.

Definition InternalClose (status : St) (call_close_handler : bool) : M N unit :=
  st <- field state ;;
  if decide (st = DISCONNECTED) then
    fd <- GetFd ;;
    check (fd =? kInvalidFdValue) "fd_.load() == kInvalidFdValue"
  else
    check_thread ;;
    store (on_connection (set_last_error status)) ;;
    st <- field state ;;
    if decide (st = RESOLVING) then store (set_close_on_resolve (Some call_close_handler))
    else
      close_fd ;;
      store (on_connection (set_state DISCONNECTED)) ;;
      store (set_read_closed true) ;;
      store (set_write_closed true) ;;
      on_timeouter ClearAllTimeouts ;;
      store (on_connection (set_inbuf cord_empty)) ;;
      store (on_connection (set_outbuf cord_empty)) ;;
      if call_close_handler then CallCloseHandler status CLOSE_READ_WRITE else ret tt.

Definition ForceClose : M N unit :=
  inside <- IsInSelectThread ;;
  if negb inside then run_in_select_loop TaskForceClose else InternalClose OkStatus true.

(** [Close()] of the interface [Selectable]. *)
Definition Close : M N unit := InternalClose OkStatus true.

Definition HandleTimeoutEvent (timeout_id : Z) : M N unit := InternalClose OkStatus true.

(** The function of an alarm of [timeouter_]: its callback is
    [HandleTimeoutEvent]. *)
Definition RunTimeout (timeout_id : Z) : M N unit :=
  t <- field timeouter_ ;;
  let '(erased, t) := ProcessTimeout timeout_id t in
  store (set_timeouter t) ;;
  if erased then HandleTimeoutEvent timeout_id else ret tt.

(** *** [Connect] *)

(** [::connect], once the socket is registered. *)
Definition start_connect (addr : list Z) : M N St :=
  fd <- GetFd ;;
  r <- sock (sys_connect fd addr (SockAddrLen addr)) ;;
  e <- gets (fun s : N => sys_errno (world (reactor s))) ;;
  if bool_decide (r < 0) && negb (e =? EINPROGRESS) then fail_errno "::connect failed for: "
  else
    RETURN_IF_ERROR (RequestWriteEvents true) []
    (RETURN_IF_ERROR (RequestReadEvents true) []
     (ret OkStatus)).

(** The socket of a resolved address.  The result of [socket] is in [fd]; what
    is tested is the member. *)
Definition connect_socket (remote_addr : HostPort) (addr : list Z) : M N St :=
  fd <- sock (sys_socket (sa_family addr)) ;;
  fd_ <- GetFd ;;
  if decide (fd_ < 0) then
    fun s => let e := sys_errno (world (reactor s)) in
             Ret (return_errno e e ("::socket failed for connecting to: " ++ ToString remote_addr)) s
  else
    fd_store fd ;;
    call_on_return
      (fd <- GetFd ;; r <- sock (sys_close fd) ;; fd_store kInvalidFdValue)
      (RETURN_IF_ERROR SetSocketOptions []
       (RETURN_IF_ERROR (via_selector (Register this self)) []
        (ret None)))
      (store (set_remote_address remote_addr) ;;
       store (on_connection (set_state CONNECTING)) ;;
       store (set_read_closed false) ;;
       store (set_write_closed false) ;;
       start_connect addr).

(** The callbacks of [ResolveAsync] that run before it returns. *)
Fixpoint run_dns (callback : StatusOr St DnsHostInfo -> M N unit) (calls : list (ptr * StatusOr St DnsHostInfo))
    : M N unit :=
  match calls with
  | [] => ret tt
  | (_, info) :: calls => callback info ;; run_dns callback calls
  end.

(** [DnsResolver::Default().ResolveAsync(host, callback)] *)
Definition resolve_async (host : str) (callback : StatusOr St DnsHostInfo -> M N unit) : M N unit :=
  d <- gets resolver ;;
  match ResolveAsync host self d with
  | None => fatal "index out of range"
  | Some d' =>
      modify (fun s => MkNet (tcp s) (reactor s) d') ;;
      run_dns callback (drop (length (calls d)) (calls d'))
  end.

(** [Connect], with the callback of the resolution. *)
Definition connect_with (on_result : StatusOr St DnsHostInfo -> M N unit) (remote_addr : HostPort) : M N St :=
  check_thread ;;
  st <- field state ;;
  RET_CHECK (bool_decide (st = DISCONNECTED) || bool_decide (st = RESOLVING))
    "state() == DISCONNECTED || state() == RESOLVING" connection_cc 639 ("Illegal state: " ++ StateName st)
  (fd <- GetFd ;;
   RET_CHECK (fd =? kInvalidFdValue) "fd_.load() == kInvalidFdValue" connection_cc 641
     "Connection fd already created"
   (if negb (has_value (port_ remote_addr)) then
      ret (return_error (InvalidArgumentErrorBuilder [])
        ("Hostport for TCP connection has no port specified: " ++ ToString remote_addr))
    else if bool_decide (st = DISCONNECTED) && negb (IsResolved remote_addr) then
      match host_ remote_addr with
      | None =>
          ret (return_error (InvalidArgumentErrorBuilder [])
            ("Hostport for TCP connection has no host or ip specified: " ++ ToString remote_addr))
      | Some host =>
          store (set_remote_address remote_addr) ;;
          store (on_connection (set_state RESOLVING)) ;;
          resolve_async host on_result ;;
          ret OkStatus
      end
    else
      let '(st, addr) := ToSockAddr remote_addr storage in
      RETURN_IF_ERROR (ret st) "Setting listening address for TCP connection."
        (connect_socket remote_addr addr))).

(** [absl::optional::value()] throws when there is none. *)
Definition optional_value {A} (o : option A) : M N A :=
  match o with Some a => ret a | None => fatal "absl::bad_optional_access" end.

(** [HandleDnsResult] calls [Connect], which may call it back with an error;
    [depth] bounds the nesting. *)
Fixpoint HandleDnsResult (depth : nat) (info : StatusOr St DnsHostInfo) : M N unit :=
  inside <- IsInSelectThread ;;
  if negb inside then run_in_select_loop TaskHandleDnsResult
  else
    st <- field state ;;
    check (bool_decide (st = RESOLVING)) "state() == RESOLVING" ;;
    pending <- field close_on_resolve_ ;;
    match pending with
    | Some call_close_handler =>
        e <- field (fun c => last_error_ (connection c)) ;;
        InternalClose e call_close_handler
    | None =>
        status <-
          match info with
          | Error st => ret st
          | Value host =>
              let ip := (PickNextAddress host).1 in
              if has_value ip then
                s <- Tcp_ToString ;;
                ret (return_error (InternalErrorBuilder []) ("No valid IP address was resolved for " ++ s))
              else
                ip <- optional_value ip ;;
                store (fun c => set_remote_address (set_ip ip (remote_address_ c)) c) ;;
                connect_addr <- field remote_address_ ;;
                match depth with
                | O => fatal "out of fuel"
                | S depth => connect_with (HandleDnsResult depth) connect_addr
                end
          end ;;
        if negb (Status.ok status) then InternalClose status true else ret tt
    end.

Definition Connect (remote_addr : HostPort) : M N St := connect_with (HandleDnsResult 1) remote_addr.

(** *** Events *)

Definition PerformConnectOnFirstOperation : M N bool :=
  store (on_connection (set_state CONNECTED)) ;;
  st <- InitializeLocalAddress ;;
  h <- field (fun c => connect_handler_ (handlers (connection c))) ;;
  match h with Some h => run_connect h | None => ret tt end ;;
  st <- field state ;;
  check (bool_decide (st = CONNECTED) || bool_decide (st = DISCONNECTED) || bool_decide (st = FLUSHING))
    ("Application changed the status to an invalid state: " ++ StateName st) ;;
  ret (bool_decide (st = CONNECTED)).

Definition PerformRead : M N (StatusOr St Z) :=
  fd <- GetFd ;;
  '(r, count) <- sock (sys_fionread fd) ;;
  if decide (r < 0) then fail_errno " - performing ::ioctl w/ FIONREAD for: "
  else if decide (count <= 0) then ret StatusOr_of_ok
  else
    params <- field tcp_params_ ;;
    let count := match read_limit params with
                 | Some limit => if decide (limit < count) then i32 limit else count
                 | None => count
                 end in
    s <- Tcp_ToString ;;
    cord <- field inbuf ;;
    fd <- GetFd ;;
    ASSIGN_OR_RETURN (on_world (ReadToCord fd cord count)) ("Reading from input socket for: " ++ s)
      (fun '(cb, cord) =>
         store (on_connection (set_inbuf cord)) ;;
         store (on_connection (inc_bytes_read cb)) ;;
         t <- via_selector now ;;
         store (set_last_read_ts t) ;;
         ret (Value cb)).

(** [CallReadHandler] and [CallWriteHandler]. *)
Definition CallReadHandler : M N St :=
  h <- field (fun c => read_handler_ (handlers (connection c))) ;;
  match h with
  | None =>
      s <- Tcp_ToString ;;
      RET_CHECK false "read_handler_ != nullptr" connection_cc 268
        ("No read handler set for connection: " ++ s) (ret OkStatus)
  | Some h => run_read h
  end.
Definition CallWriteHandler : M N St :=
  h <- field (fun c => write_handler_ (handlers (connection c))) ;;
  match h with
  | None =>
      s <- Tcp_ToString ;;
      RET_CHECK false "write_handler_ != nullptr" connection_cc 273
        ("No write handler set for connection: " ++ s) (ret OkStatus)
  | Some h => run_write h
  end.

(** [if (!status.ok()) { InternalClose(status, true); return false; }] *)
Definition close_unless (status : St) (rest : M N bool) : M N bool :=
  if negb (Status.ok status) then InternalClose status true ;; ret false else rest.

(** [HandleReadEvent], after the application has seen the data. *)
Definition read_done : M N bool :=
  write_closed <- field write_closed_ ;;
  st <- field state ;;
  e <- gets (fun s : N => sys_errno (world (reactor s))) ;;
  (if write_closed || bool_decide (st = FLUSHING) || IsProperError e then store (set_read_closed true) else ret tt) ;;
  read_closed <- field read_closed_ ;;
  if negb read_closed then ret true
  else
    CallCloseHandler OkStatus CLOSE_READ ;;
    fd <- GetFd ;;
    if negb (fd =? kInvalidFdValue) then
      st <- RequestReadEvents false ;;
      close_unless st (ret true)
    else ret true.

Definition HandleReadEvent (event : SelectorEventData ptr) : M N bool :=
  check_thread ;;
  st <- field state ;;
  check (negb (bool_decide (st = DISCONNECTED))) ("Invalid state: " ++ StateName st) ;;
  if decide (st = CONNECTING) then PerformConnectOnFirstOperation
  else
    check (bool_decide (st = CONNECTED) || bool_decide (st = FLUSHING))
      ("Illegal state during read: " ++ StateName st) ;;
    read_result <- PerformRead ;;
    match read_result with
    | Error st => InternalClose st true ;; ret false
    | Value cb =>
        if decide (0 < cb) then
          st <- CallReadHandler ;;
          close_unless st read_done
        else read_done
    end.

(** [HandleWriteEvent], when all the data is written. *)
Definition write_done : M N bool :=
  st <- RequestWriteEvents false ;;
  close_unless st
    (st <- field state ;;
     if negb (bool_decide (st = FLUSHING)) then ret true
     else
       fd <- GetFd ;;
       r <- sock (sys_shutdown fd SHUT_WR) ;;
       if decide (r < 0) then
         st <- fail_errno " - ::shutdown after flush failed for: " ;;
         InternalClose st true ;;
         ret false
       else
         store (set_write_closed true) ;;
         params <- field tcp_params_ ;;
         t <- sock sys_now ;;
         on_timeouter (SetTimeout timeout_alarm t kShutdownTimeoutId (shutdown_linger_timeout params)) ;;
         ret true).

Definition HandleWriteEvent (event : SelectorEventData ptr) : M N bool :=
  check_thread ;;
  st <- field state ;;
  check (negb (bool_decide (st = DISCONNECTED))) ("Invalid state: " ++ StateName st) ;;
  if decide (st = CONNECTING) then PerformConnectOnFirstOperation
  else
    check (bool_decide (st = CONNECTED) || bool_decide (st = FLUSHING))
      ("Illegal state during write: " ++ StateName st) ;;
    fd <- GetFd ;;
    cord <- field outbuf ;;
    params <- field tcp_params_ ;;
    write_result <- on_world (WriteCord fd cord (write_limit params)) ;;
    match write_result with
    | Error st => InternalClose st true ;; ret false
    | Value cb =>
        check (cb <=? cord_size cord) "Requested prefix size exceeds Cord's size" ;;
        store (on_connection (fun c => set_outbuf (cord_RemovePrefix (outbuf_ c) cb) c)) ;;
        store (on_connection (inc_bytes_written cb)) ;;
        t <- via_selector now ;;
        store (set_last_write_ts t) ;;
        st <- field state ;;
        status <- (if negb (bool_decide (st = FLUSHING)) then CallWriteHandler else ret OkStatus) ;;
        close_unless status
          (cord <- field outbuf ;;
           if decide (cord_size cord <> 0) then ret true else write_done)
    end.

Definition HandleErrorEvent (event : SelectorEventData ptr) : M N bool :=
  check_thread ;;
  st <- field state ;;
  check (negb (bool_decide (st = DISCONNECTED))) "state() != DISCONNECTED" ;;
  let value := internal_event event in
  is_error <- event_test IsErrorEvent value ;;
  if is_error then
    fd <- GetFd ;;
    err <- sock (ExtractSocketErrno fd) ;;
    s <- Tcp_ToString ;;
    e <- gets (fun s : N => sys_errno (world (reactor s))) ;;
    InternalClose (return_errno e err (" - error detected on connection socket for: " ++ s)) true ;;
    ret false
  else
    hang_up <- event_test IsHangUpEvent value ;;
    if hang_up then
      store (set_write_closed true) ;;
      st <- field state ;;
      input <- event_test IsInputEvent value ;;
      if negb (bool_decide (st = CONNECTING)) && input then ret true
      else InternalClose OkStatus true ;; ret false
    else
      remote_hang_up <- event_test IsRemoteHangUpEvent value ;;
      if remote_hang_up then
        store (on_connection (set_state FLUSHING)) ;;
        st <- field state ;;
        input <- event_test IsInputEvent value ;;
        if negb (bool_decide (st = CONNECTING)) && input then ret true
        else InternalClose OkStatus true ;; ret false
      else ret true.

(** *** Construction *)

(** [selector] is the argument; the pointer may not be null. *)
Definition Tcp_ctor (selector : ptr) (params : TcpConnectionParams) : option (Tcp * Selectable) :=
  if decide (selector = 0) then None
  else Some (MkTcp (Connection_ctor selector) params HostPort_empty HostPort_empty false false
               InfinitePast_nanos InfinitePast_nanos Timeouter_ctor None, Selectable_ctor selector).

Definition Tcp_dtor : M N unit :=
  st <- field state ;;
  check (bool_decide (st = DISCONNECTED)) "Can only delete disconnected connections." ;;
  fd <- GetFd ;;
  check (fd =? kInvalidFdValue) "fd_.load() == kInvalidFdValue" ;;
  on_timeouter Timeouter_dtor.

(** What a function given to [RunInSelectLoop] does; the [info] of a resolution
    is whatever is then in memory. *)
Definition run_task (t : Task) (info : StatusOr St DnsHostInfo) : M N unit :=
  match t with
  | TaskFlushAndClose => FlushAndClose
  | TaskForceClose => ForceClose
  | TaskCloseCommunication directive => CloseCommunication directive
  | TaskHandleDnsResult => HandleDnsResult 1 info
  | TaskProcessTimeout timeout_id => RunTimeout timeout_id
  end.
End Tcp.
