(* ===== verification/SimNet.v ===== *)
(** * A small network

    Instances of everything connections use, on which their theorems are
    applied: a stream kernel with sockets, an event loop that is its registry,
    and an application whose functions do nothing. *)

From S2P Require Import Prelude Status Errno CordIo Posix Address SelectorLoop Selectable Selector.
From S2P Require Import Timeouter Dns Socket Connection.

Module SimNet.
Import RefAbsl RefCord RefInet SortedHeap.
Export SimStream.

#[export] Instance net_endian : BigEndian := false.
#[export] Instance net_strerror : Strerror := fun _ => Xsi 0 "text".
#[export] Instance net_time : TimeFormat := fun _ => "a time".
#[export] Instance net_storage : Uninitialized := replicate 128 165.

#[export] Instance net_cord : CordEdit cord := {
  cord_empty := [];
  cord_RemovePrefix c n := [drop (Z.to_nat n) (cord_bytes c)]
}.

#[export] Instance net_cord_laws : CordEditLaws cord.
Proof.
  split; [done|]. intros c n Hn. simpl. unfold cord_bytes at 1. simpl.
  pose proof (cord_size_max c) as Hm. rewrite (cord_size_spec c) in Hm.
  rewrite concat_filter. simpl. rewrite app_nil_r, decide_True; [by simpl; rewrite app_nil_r|].
  unfold zlen in *. rewrite length_drop. lia.
Qed.

#[export] Instance net_sys : SelectorSys kernel := {
  sys_pipe w := ((0, (3, 4)), w);
  sys_eventfd w := (3, w);
  sys_getfl _ w := (0, w);
  sys_setfl _ _ w := (0, w);
  sys_now w := (1000, w);
  pthread_self _ := 1
}.

(** Every socket is that of 127.0.0.1, port 80. *)
Definition net_addr : list Z := SetPort (SockAddrSetter_ip kIPv4Localhost) 80.

#[export] Instance net_sockets : Sockets kernel := {
  sys_socket _ w := (9, w);
  sys_bind _ _ _ w := (0, w);
  sys_connect _ _ _ w := (0, w);
  sys_listen _ _ w := (0, w);
  sys_accept _ w := ((10, net_addr), w);
  sys_shutdown _ _ w := (0, w);
  sys_so_error _ w := ((0, 0), w);
  sys_setsockopt _ _ _ _ w := (0, w);
  sys_getsockname _ w := ((0, (net_addr, 16)), w);
  sys_getpeername _ w := ((0, (net_addr, 16)), w);
  sys_fionread fd w := ((0, zlen (incoming w fd)), w)
}.

Abbreviation loop := (gmap Z (Z * ptr)) (only parsing).

#[export] Instance net_loop : EventLoop loop kernel rstatus := {
  loop_Add fd ud d s := Ret OkStatus (<[fd:=(d, ud)]> s.1, s.2);
  loop_Update fd ud d s := Ret OkStatus (<[fd:=(d, ud)]> s.1, s.2);
  loop_Delete fd s := Ret OkStatus (delete fd s.1, s.2);
  loop_LoopStep _ s := Ret (Value []) s
}.

#[export, refine] Instance net_loop_laws : EventLoopLaws loop kernel rstatus := {
  loop_ok _ := True;
  loop_registry := fst;
  events_of d := d
}.
Proof.
  - intros fd ud d s _ _. by eexists _, _.
  - intros fd ud d s _ _. by eexists _, _.
  - intros fd s _. by eexists _, _.
Defined.

#[export] Instance net_laws : SocketLaws loop kernel rstatus.
Proof.
  assert (Q : forall w w' : kernel, quiet (L := loop) w w') by (intros w w'; by split).
  split; intros; try apply Q; try (split; [done|]; done);
    by match goal with E : _ = Ret _ _ |- _ => injection E as <- <- end.
Qed.

#[export] Instance net_tasks : Tasks (ptr * Task) := fun self t => (self, t).

Abbreviation net := (Net loop (ptr * Task) kernel rstatus cord unit).

#[export] Instance net_application : Application net unit rstatus := {
  run_connect _ := ret tt;
  run_read _ := ret OkStatus;
  run_write _ := ret OkStatus;
  run_close _ _ _ := ret tt
}.

(** The selector is at 9, with the connection at 100 on descriptor 7. *)
Definition net_selector : Selector loop (ptr * Task) :=
  MkSelector default_params 1 false 3 (-1, -1) 3 3 (Some {[7 := (5, 100)]}) {[100]} no_callbacks no_alarms None 0.
Definition net_object : Object := MkObject (MkSelectable 9 5) 7.

Definition net_tcp (x : ConnState) (out : str) : TcpConnection rstatus cord unit :=
  MkTcp (MkConnection 9 x OkStatus (MkHandlers (Some tt) (Some tt) (Some tt) (Some tt)) 0 0 [] [out]) default_tcp_params
    HostPort_empty HostPort_empty false false 0 0 Timeouter_ctor None.

(** A connection in state [x], with [out] to write and [inp] to read, to a
    kernel that takes the data by the sizes [room]. *)
Definition net_state (x : ConnState) (room : list Z) (out inp : str) : net :=
  MkNet (net_tcp x out)
    (MkState net_selector {[100 := net_object]} (Kernel 0 room ∅ {[7 := inp]}))
    (MkResolver [] 0 []).

(** A connection that was just made. *)
Definition net_fresh : net :=
  MkNet (net_tcp DISCONNECTED [])
    (MkState (MkSelector default_params 1 false 3 (-1, -1) 3 3 (Some ∅) ∅ no_callbacks no_alarms None 0)
       {[100 := MkObject (Selectable_ctor 9) (-1)]} (Kernel 0 [] ∅ ∅))
    (MkResolver [Queue.Queue_ctor 10 true] 0 []).
End SimNet.

(** The same network on a kernel that takes a byte at a time. *)
Module SlowNet.
Import RefAbsl RefCord RefInet SortedHeap.
Export SimNet.

#[export] Instance slow_file : PosixFile kernel := {
  sys_open _ _ _ w := (-1, w); sys_close _ w := (0, w); sys_fstat _ w := ((-1, 0), w);
  sys_lseek _ _ _ w := (-1, w); sys_ftruncate _ _ w := (-1, w);
  sys_read fd n w := receive fd n w;
  sys_write fd data n w := send fd (take 1 (take (Z.to_nat n) data)) (Kernel (k_errno w) [] (k_out w) (k_in w));
  sys_writev _ _ _ w := (-1, w);
  sys_fdatasync _ w := (0, w)
}.

#[export] Instance slow_laws : SocketLaws (PosixFile0 := slow_file) loop kernel rstatus.
Proof.
  assert (Q : forall w w' : kernel, quiet (L := loop) w w') by (intros w w'; by split).
  split; intros; try apply Q; try (split; [done|]; done);
    by match goal with E : _ = Ret _ _ |- _ => injection E as <- <- end.
Qed.

#[export] Instance slow_stream : StreamLaws (PosixFile0 := slow_file) kernel.
Proof.
  assert (Hone : forall fd data w, let '(r, w') := send fd (take 1 data) (Kernel (k_errno w) [] (k_out w) (k_in w)) in
    (forall x, incoming w' x = incoming w x) /\ (forall x, x <> fd -> outgoing w' x = outgoing w x) /\
    ((r = -1 /\ outgoing w' fd = outgoing w fd) \/
     (0 <= r <= zlen data /\ outgoing w' fd = outgoing w fd ++ take (Z.to_nat r) data))).
  { intros fd data w. pose proof (send_spec fd (take 1 data) (Kernel (k_errno w) [] (k_out w) (k_in w))) as Hs.
    destruct (send _ _ _) as [r w']. destruct Hs as (Hi & Ho & Hr). split; [exact Hi|]. split; [exact Ho|].
    destruct Hr as [Hr|[Hr Hw]]; [by left|right]. unfold zlen in *. rewrite length_take in Hr. split; [lia|].
    rewrite Hw, take_take. by replace (Z.to_nat r `min` 1)%nat with (Z.to_nat r) by lia. }
  split.
  - intros fd data w. simpl. unfold zlen at 1. rewrite Nat2Z.id, firstn_all. apply Hone.
  - exact (stream_read (PosixFile0 := kernel_file)).
  - intros fd iov w. simpl. split; [done|]. split; [done|]. by left.
Qed.
End SlowNet.
