(* ===== verification/ConnectionSpec.v ===== *)
(** * Correctness of connections (Connection.v)

    What the handlers of a [TcpConnection] keep and do, given what the kernel,
    the event loop and the application promise. *)

From S2P Require Import Prelude Status Errno CordIo Posix Address SelectorLoop Selectable Selector.
From S2P Require Import Timeouter Dns Socket Connection SimNet.

(** ** Well-formed connections *)

Section Ready.
Context {L Cb W St Cord H : Type}.
Context `{!HasErrno W} `{!PosixFile W} `{!SelectorSys W} `{!Sockets W} `{!HeapApi}.
Context `{!BigEndian} `{!Inet} `{!TimeFormat} `{!Uninitialized} `{!CordApi Cord} `{!CordEdit Cord}.
Context `{HA : !Absl St} `{HL : !AbslLaws St} `{!Strerror} `{!EventLoop L W St} `{!Tasks Cb}.
Context `{!Application (Net L Cb W St Cord H) H St} `{!EventLoopLaws L W St} `{!Memory W} `{HS : !SocketLaws L W St}.
Context `{HC : !CordLaws Cord} `{!Stream W} `{HW : !StreamLaws W} `{HHL : !HeapLaws}.
Context (this self : ptr) (this_not_null : this <> 0).

Abbreviation N := (Net L Cb W St Cord H).
Implicit Types s : N.

(** What a connection may do to its selector and to the other objects there:
    nothing, but for its own registration, its own descriptor and the alarms of
    its timeouts. *)
Record touched (r r' : State L Cb W) : Prop := {
  tc_others p : p <> self -> objects r' !! p = objects r !! p;
  tc_self :
    match objects r !! self, objects r' !! self with
    | Some o, Some o' =>
        fd_of o' = fd_of o /\ selector_ (base o') = selector_ (base o) \/
        fd_of o' = kInvalidFdValue /\ selector_ (base o') = 0
    | None, None => True
    | _, _ => False
    end;
  tc_registered p : p <> self -> p ∈ registered_ (sel r') <-> p ∈ registered_ (sel r);
  tc_fewer : registered_ (sel r') ⊆ registered_ (sel r);
  tc_watching fd : (forall o, objects r !! self = Some o -> fd_of o <> fd) -> watching r' !! fd = watching r !! fd;
  tc_data fd b u : watching r' !! fd = Some (b, u) ->
    (exists b', watching r !! fd = Some (b', u)) \/ u = self /\ self ∈ registered_ (sel r);
  tc_memory : memory (world r') = memory (world r);
  tc_alarms good : (forall id, good (timeout_alarm self id)) -> alarms_ok good (timers_ (sel r)) -> alarms_ok good (timers_ (sel r'));
  tc_selector : exists x y z, sel r' = set_loop x (set_registered y (set_timers z (sel r)))
}.

(** What is required of the rest of the program - of the other connections, for
    instance - is a parameter, that a connection does not break. *)
Class Framed (rest : State L Cb W -> Prop) : Prop :=
  framed (r r' : State L Cb W) : rest r -> loop_fine r' -> touched r r' -> rest r'.
Context (rest : State L Cb W -> Prop) `{HF : !Framed rest}.

Lemma touched_refl (r : State L Cb W) : touched r r.
Proof. split; try done; [by case_match; [left|]|by eauto|]. exists (loop_ (sel r)), (registered_ (sel r)), (timers_ (sel r)). by destruct r as [[] ? ?]. Qed.

Definition active (x : ConnState) : bool :=
  match x with CONNECTING | CONNECTED | FLUSHING => true | _ => false end.

(** The object of a connection in state [x]: it has a descriptor, watched by
    the event loop, exactly when there is a socket in use. *)
Definition attached (x : ConnState) (o : Object) (r : State L Cb W) : Prop :=
  if active x then
    fd_of o <> kInvalidFdValue /\ selector_ (base o) = this /\ self ∈ registered_ (sel r) /\
    is_Some (watching r !! fd_of o)
  else fd_of o = kInvalidFdValue /\ self ∉ registered_ (sel r) /\ (x = RESOLVING -> selector_ (base o) = this).

Record ready_at (x : ConnState) s : Prop := {
  rd_state : state (tcp s) = x;
  rd_handler : is_Some (close_handler_ (handlers (connection (tcp s))));
  rd_limit n : write_limit (tcp_params_ (tcp s)) = Some n -> 0 <= n;
  rd_loop : loop_fine (reactor s);
  rd_thread : tid_ (sel (reactor s)) = pthread_self (world (reactor s));
  rd_object : exists o, objects (reactor s) !! self = Some o /\ attached x o (reactor s);
  rd_rest : rest (reactor s)
}.

(** Well formed, in one of the states of [P]. *)
Definition ready (P : ConnState -> Prop) s : Prop := exists x, P x /\ ready_at x s.

Lemma ready_weaken (P Q : ConnState -> Prop) s : (forall x, P x -> Q x) -> ready P s -> ready Q s.
Proof. intros HPQ (x & Hx & Hs). exists x. auto. Qed.

(** *** Reading the state *)

Section Run.
Context {A : Type} s (o : Object) (Ho : objects (reactor s) !! self = Some o).

Lemma run_GetFd (k : Z -> M N A) : bind (GetFd self) k s = k (fd_of o) s.
Proof. unfold GetFd, on_reactor, Selector.GetFd, object, bind, ret. rewrite Ho. by destruct s. Qed.

Lemma run_field {B} (f : TcpConnection St Cord H -> B) (k : B -> M N A) : bind (field f) k s = k (f (tcp s)) s.
Proof. done. Qed.

Lemma run_store f (k : unit -> M N A) :
  bind (store f) k s = k tt (MkNet (f (tcp s)) (reactor s) (resolver s)).
Proof. done. Qed.

Lemma run_fd_store fd (k : unit -> M N A) :
  bind (fd_store self fd) k s =
  k tt (MkNet (tcp s) (MkState (sel (reactor s)) (<[self:=MkObject (base o) fd]> (objects (reactor s)))
                         (world (reactor s))) (resolver s)).
Proof. unfold fd_store, on_reactor, bind. by rewrite Ho. Qed.

End Run.

Lemma ToString_run s o : objects (reactor s) !! self = Some o -> exists text, Tcp_ToString self s = Ret text s.
Proof.
  intros Ho. unfold Tcp_ToString. eexists. rewrite run_field, (run_GetFd _ _ Ho). reflexivity.
Qed.

(** An errno status is never OK; the state stays. *)
Lemma fail_errno_run {R} `{!FromStatus St R} text s o :
  objects (reactor s) !! self = Some o ->
  exists st, Status.ok st = false /\ fail_errno (R := R) self text s = Ret (from_status st) s.
Proof.
  intros Ho. destruct (ToString_run s o Ho) as [t E]. unfold fail_errno.
  rewrite (bind_Ret _ _ _ _ _ E). eexists. split; [|reflexivity]. apply ok_false.
  rewrite code_to_status. apply ok_false. set (e := sys_errno _).
  pose proof (ok_return_errno (St := St) e e (text ++ t)) as Hf. apply ok_false in Hf.
  unfold return_errno in Hf. rewrite code_return_error in Hf. apply ok_false. exact Hf.
Qed.

(** *** Steps that keep a connection well formed *)

Implicit Types x : ConnState.

(** Another world, quietly. *)
Lemma quiet_touched (r : State L Cb W) w' : loop_fine r -> quiet (L := L) (world r) w' -> touched r (MkState (sel r) (objects r) w').
Proof.
  intros (l & El & Hl) [[_ Hm] Hq]. destruct (touched_refl r) as [Ho Hs Hr Hf _ _ _ Hal Hsel].
  assert (E : watching (MkState (sel r) (objects r) w') = watching r) by (unfold watching; cbn; rewrite El; by apply Hq).
  split; rewrite ?E; [exact Ho|exact Hs|exact Hr|exact Hf|done|by eauto|exact Hm|exact Hal|exact Hsel].
Qed.

Lemma quiet_ready x s w' :
  ready_at x s -> quiet (L := L) (world (reactor s)) w' ->
  ready_at x (MkNet (tcp s) (MkState (sel (reactor s)) (objects (reactor s)) w') (resolver s)).
Proof.
  intros [Hx Hh Hlim (l & El & Hl) Ht (o & Ho & Ha) Hrest] Hq. pose proof Hq as [[Hp _] Hq']. destruct (Hq' l Hl) as [Hl' Hr].
  split; cbn; [done..|by exists l|by rewrite Hp| |].
  - exists o. split; [done|]. unfold attached, watching in *. cbn. rewrite El in *. by rewrite Hr.
  - eapply framed; [exact Hrest|by exists l|]. by apply quiet_touched; [exists l|].
Qed.

(** Another connection object in the same state. *)
Lemma store_ready x s c :
  ready_at x s -> state c = x -> close_handler_ (handlers (connection c)) = close_handler_ (handlers (connection (tcp s))) ->
  tcp_params_ c = tcp_params_ (tcp s) -> ready_at x (MkNet c (reactor s) (resolver s)).
Proof. intros [Hx Hh Hlim Hl Ht Ho Hr] Hc Hc2 Hc3. split; cbn; [done|by rewrite Hc2|by rewrite Hc3|done..]. Qed.

Lemma sock_ready {A} (f : W -> A * W) x s :
  ready_at x s -> (forall w, quiet (L := L) w (f w).2) ->
  returns (sock f) s (fun _ s' => ready_at x s' /\ tcp s' = tcp s /\ objects (reactor s') = objects (reactor s)).
Proof.
  intros Hs Hf. unfold returns, sock, on_reactor, sys_call. specialize (Hf (world (reactor s))).
  destruct (f (world (reactor s))) as [a w]. eexists _, _. split; [done|].
  split; [by apply quiet_ready|done].
Qed.

Lemma on_world_ready {A} (m : M W A) (P : A -> W -> Prop) x s :
  ready_at x s -> returns m (world (reactor s)) (fun a w' => P a w' /\ quiet (L := L) (world (reactor s)) w') ->
  returns (on_world m) s (fun a s' => ready_at x s' /\ tcp s' = tcp s /\ P a (world (reactor s'))).
Proof.
  intros Hs (a & w & E & HP & Hq). unfold returns, on_world, on_reactor. rewrite E. eexists _, _.
  split; [done|]. split; [by apply quiet_ready|done].
Qed.

(** [selector()] is this selector unless the connection is closed. *)
Lemma ready_selector x s : ready_at x s -> x <> DISCONNECTED ->
  exists o, objects (reactor s) !! self = Some o /\ selector_ (base o) = this.
Proof.
  intros [_ _ _ _ _ (o & Ho & Ha)] Hx. exists o. split; [done|]. unfold attached in Ha.
  destruct x; cbn in Ha; try done; [by apply Ha|by apply Ha..].
Qed.

Lemma via_selector_run {A} (m : M (State L Cb W) A) x s :
  ready_at x s -> x <> DISCONNECTED -> via_selector self m s = on_reactor m s.
Proof.
  intros Hs Hx. destruct (ready_selector x s Hs Hx) as (o & Ho & Hsel).
  assert (E : on_reactor (on_base self selector) s = Ret this s).
  { unfold on_reactor, on_base. rewrite Ho. cbn. rewrite Hsel. destruct o as [b fd]. cbn.
    rewrite insert_id by done. by destruct s as [? [? ? ?] ?]. }
  unfold via_selector. rewrite (bind_Ret _ _ _ _ _ E). by rewrite decide_False.
Qed.

Lemma in_thread x s : ready_at x s -> x <> DISCONNECTED -> IsInSelectThread self s = Ret true s.
Proof.
  intros Hs Hx. unfold IsInSelectThread. rewrite (via_selector_run _ x) by done.
  unfold on_reactor. cbn. rewrite (rd_thread _ _ Hs), Z.eqb_refl. by destruct s.
Qed.

(** *** Asking the selector *)

Lemma on_loop_run (m : M (L * W) St) f (r : State L Cb W) :
  loop_fine r ->
  (forall l, loop_ok (l, world r) -> watching r = loop_registry (l, world r) ->
     returns m (l, world r) (changed f (l, world r))) ->
  (forall l (s' : L * W) st, m (l, world r) = Ret st s' ->
     pthread_self s'.2 = pthread_self (world r) /\ memory s'.2 = memory (world r)) ->
  exists st l' w', on_loop m r = Ret st (MkState (set_loop (Some l') (sel r)) (objects r) w') /\
    loop_ok (l', w') /\ loop_registry (l', w') = (if Status.ok st then f (watching r) else watching r) /\
    pthread_self w' = pthread_self (world r) /\ memory w' = memory (world r).
Proof.
  intros (l & El & Hl) Hm Hp. destruct (Hm l Hl) as (st & [l' w'] & E & Hok & Hreg).
  { unfold watching. by rewrite El. }
  specialize (Hp l _ _ E). unfold on_loop. rewrite El, E. exists st, l', w'. split; [done|]. split; [done|].
  split; [|done]. unfold watching. by rewrite El.
Qed.

(** A change of the own registration and descriptor. *)
Lemma touched_by o o' reg l w (r : State L Cb W) :
  objects r !! self = Some o ->
  (fd_of o' = fd_of o /\ selector_ (base o') = selector_ (base o) \/ fd_of o' = kInvalidFdValue /\ selector_ (base o') = 0) ->
  (forall p, p <> self -> p ∈ reg <-> p ∈ registered_ (sel r)) -> reg ⊆ registered_ (sel r) ->
  (forall fd, fd <> fd_of o -> loop_registry (l, w) !! fd = watching r !! fd) ->
  (forall b u, loop_registry (l, w) !! fd_of o = Some (b, u) ->
     (exists b', watching r !! fd_of o = Some (b', u)) \/ u = self /\ self ∈ registered_ (sel r)) ->
  memory w = memory (world r) ->
  touched r (MkState (set_loop (Some l) (set_registered reg (sel r))) (<[self:=o']> (objects r)) w).
Proof.
  intros Ho Ho' Hreg Hsub Hw Hd Hm. split; cbn; [|by rewrite lookup_insert_eq, Ho|done..| | |done|done|by exists (Some l), reg, (timers_ (sel r)); destruct (sel r)].
  - intros p Hp. by rewrite lookup_insert_ne.
  - intros fd Hfd. apply Hw. intros ->. by apply (Hfd o).
  - intros fd b u. change (loop_registry (l, w) !! fd = Some (b, u) -> (exists b', watching r !! fd = Some (b', u)) \/ u = self /\ self ∈ registered_ (sel r)).
    destruct (decide (fd = fd_of o)) as [->|Hne]; [apply Hd|]. rewrite Hw by done. eauto.
Qed.

(** What [UpdateDesire] does to a connection in use. *)
Lemma desire_ready enable desire x s :
  ready_at x s -> active x = true ->
  returns (via_selector self (UpdateDesire (St := St) this self enable desire)) s (fun _ s' =>
    ready_at x s' /\ tcp s' = tcp s).
Proof.
  intros Hs Hx. assert (Hne : x <> DISCONNECTED) by by destruct x.
  unfold returns. rewrite (via_selector_run _ x s) by done. destruct Hs as [Hst Hh Hlim Hl Ht (o & Ho & Ha) Hrest].
  unfold attached in Ha. rewrite Hx in Ha. destruct Ha as (Hfd & Hsel & Hreg & Hw).
  assert (Hall : allowed (reactor s) = true) by (unfold allowed; rewrite Ht, Z.eqb_refl; apply orb_true_r).
  unfold on_reactor. rewrite (UpdateDesire_run _ _ _ _ _ _ Ho) by done. case_decide as E.
  { eexists _, _. split; [reflexivity|]. cbn. split; [|done]. destruct s. split; cbn in *; try done.
    exists o. split; [done|]. unfold attached. by rewrite Hx. }
  set (d := new_desire _ _ _). set (r := calling _ _ _ _).
  assert (Hlr : loop_fine r) by done.
  destruct (on_loop_run (loop_Update (fd_of o) self d) (insert (fd_of o) (events_of d, self)) r) as
    (st & l' & w' & Er & Hl' & Hreg' & Hp' & Hm'); [done| | |].
  { intros l Hok Hwl. apply Update_law; [done|]. by rewrite <- Hwl. }
  { intros l s' st E'. by apply Update_thread in E'. }
  rewrite Er. eexists _, _. split; [reflexivity|]. cbn [tcp]. split; [|done].
  assert (Hlf : loop_fine (MkState (set_loop (Some l') (sel r)) (objects r) w')) by by exists l'.
  assert (Hw' : is_Some (loop_registry (l', w') !! fd_of o)).
  { rewrite Hreg'. destruct (Status.ok st); [rewrite lookup_insert_eq; eauto|exact Hw]. }
  split; cbn [tcp reactor]; [done..|by cbn; rewrite Hp'| |].
  - exists (with_desire d o). split; [apply lookup_insert_eq|]. unfold attached. rewrite Hx. by split_and!.
  - eapply framed; [exact Hrest|exact Hlf|]. apply (touched_by o); [done|by left|done..| | |exact Hm'].
    + intros fd Hne'. rewrite Hreg'. by destruct (Status.ok st); rewrite ?lookup_insert_ne.
    + intros b u. rewrite Hreg'. destruct (Status.ok st); [rewrite lookup_insert_eq; intros [= _ <-]; by right|by eauto].
Qed.

Lemma read_events_ready enable x s : ready_at x s -> active x = true ->
  returns (RequestReadEvents this self enable) s (fun _ s' => ready_at x s' /\ tcp s' = tcp s).
Proof. apply desire_ready. Qed.

Lemma write_events_ready enable x s : ready_at x s -> active x = true ->
  returns (RequestWriteEvents this self enable) s (fun _ s' => ready_at x s' /\ tcp s' = tcp s).
Proof. apply desire_ready. Qed.

(** A change of the alarms of the selector. *)
Lemma timers_touched (r : State L Cb W) a :
  (forall good, (forall id, good (timeout_alarm self id)) -> alarms_ok good (timers_ (sel r)) -> alarms_ok good a) ->
  touched r (MkState (set_timers a (sel r)) (objects r) (world r)).
Proof.
  intros Ha. destruct (touched_refl r) as [Ho Hs Hr Hf Hw Hd Hm _ _]. split; try done.
  exists (loop_ (sel r)), (registered_ (sel r)), a. by destruct (sel r).
Qed.

Lemma run_on_timeouter {B} f (k : unit -> M N B) s :
  bind (on_timeouter f) k s =
  k tt (MkNet (set_timeouter (f (timeouter_ (tcp s)) (timers_ (sel (reactor s)))).1 (tcp s))
          (MkState (set_timers (f (timeouter_ (tcp s)) (timers_ (sel (reactor s)))).2 (sel (reactor s))) (objects (reactor s)) (world (reactor s)))
          (resolver s)).
Proof. unfold bind, on_timeouter. by destruct (f _ _). Qed.

Lemma on_timeouter_ready f x s : ready_at x s ->
  (forall good, (forall id, good (timeout_alarm self id)) -> alarms_ok good (timers_ (sel (reactor s))) ->
     alarms_ok good (f (timeouter_ (tcp s)) (timers_ (sel (reactor s)))).2) ->
  returns (on_timeouter f) s (fun _ s' => ready_at x s').
Proof.
  intros [Hx Hh Hlim Hl Ht Ho Hrest] Hf. unfold returns. rewrite <- (bind_ret_r (on_timeouter f)), run_on_timeouter.
  eexists _, _. split; [reflexivity|]. split; try done. eapply framed; [exact Hrest|exact Hl|]. by apply timers_touched.
Qed.

(** A connection whose descriptor is given back: its object is unregistered,
    and knows no selector. *)
Record detached (s : N) : Prop := {
  de_loop : loop_fine (reactor s);
  de_thread : tid_ (sel (reactor s)) = pthread_self (world (reactor s));
  de_object : exists o, objects (reactor s) !! self = Some o /\ fd_of o = kInvalidFdValue /\
                        selector_ (base o) = 0 /\ self ∉ registered_ (sel (reactor s));
  de_rest : rest (reactor s)
}.

Lemma run_sock {A B} (f : W -> A * W) (k : A -> M N B) s :
  bind (sock f) k s =
  k (f (world (reactor s))).1 (MkNet (tcp s) (MkState (sel (reactor s)) (objects (reactor s)) (f (world (reactor s))).2)
                                 (resolver s)).
Proof. unfold bind, sock, on_reactor, sys_call. by destruct (f (world (reactor s))). Qed.

Lemma quiet_quiet_but fd (w w' : W) : quiet (L := L) w w' -> quiet_but (L := L) fd w w'.
Proof. intros [Hp Hq]. split; [done|]. intros l Hl. destruct (Hq l Hl) as [Hl' ->]. done. Qed.

Lemma quiet_but_trans fd (w1 w2 w3 : W) : quiet_but (L := L) fd w1 w2 -> quiet_but (L := L) fd w2 w3 -> quiet_but (L := L) fd w1 w3.
Proof.
  intros [[P1 M1] Q1] [[P2 M2] Q2]. split; [split; congruence|]. intros l Hl. destruct (Q1 l Hl) as (Hl2 & R1 & S1).
  destruct (Q2 l Hl2) as (Hl3 & R2 & S2). split; [done|]. split; [|by etrans]. intros x Hx. by rewrite R2, R1.
Qed.

(** The last two calls made on the descriptor: it is shut down and closed. *)
Definition given_back s s' : Prop :=
  exists o w, objects (reactor s) !! self = Some o /\
    world (reactor s') = (sys_close (fd_of o) (sys_shutdown (fd_of o) SHUT_RDWR w).2).2.

Lemma close_fd_spec x s :
  ready_at x s -> active x = true ->
  returns (close_fd (St := St) this self) s (fun _ s' =>
    tcp s' = tcp s /\ resolver s' = resolver s /\ detached s' /\ given_back s s' /\
    timers_ (sel (reactor s')) = timers_ (sel (reactor s))).
Proof.
  intros Hs Hx. assert (Hne : x <> DISCONNECTED) by by destruct x.
  pose proof Hs as [Hst Hh Hlim Hl Ht (o & Ho & Ha) Hrest].
  unfold attached in Ha. rewrite Hx in Ha. destruct Ha as (Hfd & Hsel & Hreg & Hw).
  assert (Hall : allowed (reactor s) = true) by (unfold allowed; rewrite Ht, Z.eqb_refl; apply orb_true_r).
  unfold close_fd, returns. rewrite (run_GetFd _ _ Ho). apply Z.eqb_neq in Hfd. rewrite Hfd. cbn [negb].
  unfold bind at 1. rewrite (via_selector_run _ x s) by done. unfold on_reactor at 1.
  rewrite (Unregister_run _ _ _ _ Ho) by done. set (r := calling _ _ _ _).
  destruct (on_loop_run (loop_Delete (fd_of o)) (delete (fd_of o)) r) as
    (st & l' & w1 & Er & Hl' & Hreg' & Hp' & Hm'); [done| | |].
  { intros l Hok Hwl. by apply Delete_law. }
  { intros l s' st E'. by apply Delete_thread in E'. }
  rewrite Er. cbv beta iota. set (s1 := MkNet _ _ _).
  assert (Ho1 : objects (reactor s1) !! self = Some (with_selector 0 o)) by apply lookup_insert_eq.
  rewrite (run_GetFd _ _ Ho1). rewrite run_sock. set (w2 := (sys_shutdown _ _ _).2).
  rewrite (run_GetFd _ (with_selector 0 o)) by exact Ho1. rewrite run_sock. set (w3 := (sys_close _ _).2).
  rewrite <- (bind_ret_r (fd_store self kInvalidFdValue)), (run_fd_store _ (with_selector 0 o)) by exact Ho1.
  eexists _, _. split; [reflexivity|]. split; [done|]. split; [done|]. split; [|split; [by exists o, w1|done]].
  assert (Q : quiet_but (L := L) (fd_of o) w1 w3).
  { eapply quiet_but_trans; [apply quiet_quiet_but, (quiet_shutdown (L := L) (St := St))|apply quiet_close]. }
  assert (Hlf : forall objs, loop_fine (MkState (sel (reactor s1)) objs w3)).
  { intros objs. exists l'. split; [done|]. by apply Q. }
  assert (Eo : forall o', <[self:=o']> (objects (reactor s1)) = <[self:=o']> (objects (reactor s)))
    by (intros o'; apply insert_insert_eq).
  split; cbn [reactor sel objects world]; rewrite ?Eo.
  - apply Hlf.
  - destruct Q as [[-> _] _]. rewrite Hp'. exact Ht.
  - eexists. split; [apply lookup_insert_eq|]. split_and!; [done..|]. set_solver.
  - eapply framed; [exact Hrest|apply Hlf|].
    apply (touched_by o _ (registered_ (sel (reactor s)) ∖ {[self]}) l' w3 (reactor s));
      [done|by right|set_solver..| | |destruct Q as [[_ ->] _]; exact Hm'];
      destruct Q as [_ Q]; destruct (Q l' Hl') as (_ & Hsame & Hsub).
    + intros fd Hne'. rewrite (Hsame fd Hne'), Hreg'. by destruct (Status.ok st); rewrite ?lookup_delete_ne.
    + intros b u E. apply (lookup_weaken _ _ _ _ E) in Hsub. rewrite Hreg' in Hsub.
      destruct (Status.ok st); [by rewrite lookup_delete_eq in Hsub|by eauto].
Qed.

(** *** Closing *)

(** What the application promises: its functions return, and leave the
    connection well formed; a function for writing that closes it answers with
    an error - [HandleWriteEvent] does not survive an OK then
    ([closing_writer_stops]). *)
Class WellBehaved : Prop := {
  wb_connect h s : ready_at CONNECTED s -> returns (run_connect h) s (fun _ s' =>
    ready (fun x => x = CONNECTED \/ x = FLUSHING \/ x = DISCONNECTED) s');
  wb_read h x s : (x = CONNECTED \/ x = FLUSHING) -> ready_at x s -> returns (run_read h) s (fun _ s' => ready (fun _ => True) s');
  wb_write h s : ready_at CONNECTED s -> returns (run_write h) s (fun st s' =>
    ready (fun x => x = CONNECTED \/ x = FLUSHING \/ Status.ok st = false) s');
  wb_close h st d x s : ready_at x s -> returns (run_close h st d) s (fun _ s' => ready (fun _ => True) s')
}.

(** The connection after [InternalClose], before the application is told. *)
Definition closed (status : St) (c : TcpConnection St Cord H) : TcpConnection St Cord H :=
  let b := set_outbuf cord_empty (set_inbuf cord_empty (set_state DISCONNECTED (set_last_error status (connection c)))) in
  MkTcp b (tcp_params_ c) (local_address_ c) (remote_address_ c) true true (last_read_ts_ c) (last_write_ts_ c)
    Timeouter_ctor (close_on_resolve_ c).

Lemma closed_handlers status c : handlers (connection (closed status c)) = handlers (connection c).
Proof. unfold closed, set_last_error. cbn. by destruct (negb _). Qed.

(** Closing a connection in use is the same as giving its descriptor back,
    clearing it, and calling the close handler. *)
Lemma InternalClose_run status call x s :
  ready_at x s -> active x = true ->
  exists s1, InternalClose this self status call s =
    (if call then CallCloseHandler this self status CLOSE_READ_WRITE else ret tt) s1 /\
    tcp s1 = closed status (tcp s) /\ resolver s1 = resolver s /\ detached s1 /\ given_back s s1 /\
    timers_ (sel (reactor s1)) = (ClearAllTimeouts (timeouter_ (tcp s)) (timers_ (sel (reactor s)))).2.
Proof.
  intros Hs Hx. assert (Hne : x <> DISCONNECTED) by by destruct x.
  unfold InternalClose. rewrite run_field, (rd_state _ _ Hs), decide_False by done.
  unfold check_thread. rewrite bind_assoc, (bind_Ret _ _ _ _ _ (in_thread x s Hs Hne)).
  rewrite (bind_Ret (check _ _) _ s tt s) by done. rewrite run_store, run_field.
  set (s0 := MkNet _ (reactor s) (resolver s)).
  assert (Hs0 : ready_at x s0).
  { apply store_ready; [done|..]; unfold state, on_connection, set_last_error; cbn; destruct (Status.ok status); try done; apply Hs. }
  rewrite (rd_state _ _ Hs0). rewrite decide_False by by destruct x.
  destruct (close_fd_spec x s0 Hs0 Hx) as (? & s2 & E & Htcp & Hres & Hde & Hg & Hti). rewrite (bind_Ret _ _ _ _ _ E).
  rewrite !run_store, run_on_timeouter, !run_store. cbn. eexists. split; [reflexivity|]. cbn. rewrite Htcp, Hti. cbn.
  split; [done|]. split; [done|]. split; [|by split].
  destruct Hde as [D1 D2 D3 D4]. split; [exact D1|exact D2|exact D3|]. eapply framed; [exact D4|exact D1|].
  apply timers_touched. intros good _ Hal. rewrite Hti in Hal. exact (ClearAllTimeouts_ok good (timeouter_ (tcp s)) _ Hal).
Qed.

Lemma detached_ready status (s s1 : N) x :
  ready_at x s -> tcp s1 = closed status (tcp s) -> detached s1 -> ready_at DISCONNECTED s1.
Proof.
  intros [Hst Hh Hlim _ _ _ _] Hc [Hl Ht (o & Ho & Hfd & Hsel & Hreg) Hrest].
  split; rewrite ?Hc, ?closed_handlers; [done..| |done].
  exists o. split; [done|]. by split_and!.
Qed.

Context `{HB : !WellBehaved}.

Lemma CallCloseHandler_run h st s :
  close_handler_ (handlers (connection (tcp s))) = Some h -> read_closed_ (tcp s) = true -> write_closed_ (tcp s) = true ->
  forall d, CallCloseHandler this self st d s = run_close h st d s.
Proof.
  intros Hh Hr Hw d. unfold CallCloseHandler, Connection_CallCloseHandler. rewrite run_field, Hr.
  rewrite (bind_Ret (check _ _) _ s tt s) by done. rewrite run_field, Hw.
  rewrite (bind_Ret (check _ _) _ s tt s) by done. by rewrite run_field, Hh.
Qed.

(** A closed connection stays as it is. *)
Lemma closed_already x s : ready_at x s -> x = DISCONNECTED ->
  forall status call, InternalClose this self status call s = Ret tt s.
Proof.
  intros Hs -> status call. destruct (rd_object _ _ Hs) as (o & Ho & Hfd & _).
  unfold InternalClose. rewrite run_field, (rd_state _ _ Hs), decide_True by done.
  rewrite (run_GetFd _ _ Ho), Hfd. done.
Qed.

Lemma CallCloseHandler_ready st d x s :
  ready_at x s -> (d = CLOSE_READ \/ d = CLOSE_READ_WRITE /\ write_closed_ (tcp s) = true) -> read_closed_ (tcp s) = true ->
  returns (CallCloseHandler this self st d) s (fun _ s' => ready (fun _ => True) s').
Proof.
  intros Hs Hd Hr. destruct (rd_handler _ _ Hs) as [h Hh].
  unfold returns, CallCloseHandler, Connection_CallCloseHandler. rewrite run_field, Hr.
  rewrite (bind_Ret (check _ _) _ s tt s) by done. rewrite run_field.
  rewrite (bind_Ret (check _ _) _ s tt s) by (by destruct Hd as [-> | [-> Hw]]; [rewrite orb_true_r|rewrite Hw]).
  rewrite run_field, Hh. by apply (wb_close h st d x s).
Qed.

Lemma InternalClose_ready status call x s :
  ready_at x s -> returns (InternalClose this self status call) s (fun _ s' => ready (fun _ => True) s').
Proof.
  intros Hs. destruct (active x) eqn:Hx.
  - destruct (InternalClose_run status call x s Hs Hx) as (s1 & E & Hc & _ & Hd & _ & _).
    pose proof (detached_ready _ _ _ _ Hs Hc Hd) as Hs1. unfold returns. rewrite E. destruct call.
    + eapply CallCloseHandler_ready; [exact Hs1| |by rewrite Hc]. right. by rewrite Hc.
    + exists tt, s1. split; [done|]. by exists DISCONNECTED.
  - pose proof (rd_object _ _ Hs) as (o & Ho & Ha). unfold attached in Ha. rewrite Hx in Ha.
    destruct Ha as (Hfd & Hreg & Hsel). unfold returns, InternalClose. rewrite run_field, (rd_state _ _ Hs).
    case_decide as Hd.
    + rewrite (run_GetFd _ _ Ho), Hfd. exists tt, s. split; [done|]. by exists x.
    + unfold check_thread. rewrite bind_assoc, (bind_Ret _ _ _ _ _ (in_thread x s Hs Hd)).
      rewrite (bind_Ret (check _ _) _ s tt s) by done. rewrite run_store, run_field.
      set (s0 := MkNet _ (reactor s) (resolver s)). assert (Hs0 : ready_at x s0).
      { apply store_ready; [done|..]; unfold state, on_connection, set_last_error; cbn;
          destruct (Status.ok status); try done; apply Hs. }
      rewrite (rd_state _ _ Hs0). rewrite decide_True by by destruct x. eexists tt, _. split; [reflexivity|].
      exists x. split; [done|]. apply store_ready; [done..|apply Hs0|done|done].
Qed.

(** What follows a status: the rest, or a close. *)
Lemma close_unless_ready status m x s :
  ready_at x s -> returns m s (fun _ s' => ready (fun _ => True) s') ->
  returns (close_unless this self status m) s (fun _ s' => ready (fun _ => True) s').
Proof.
  intros Hs Hr. unfold close_unless. destruct (Status.ok status); cbn [negb]; [done|].
  eapply returns_bind; [by eapply InternalClose_ready|]. intros u s' Hs'. by apply returns_ret.
Qed.

Lemma close_false_ready status x s : ready_at x s ->
  returns (InternalClose this self status true ;; ret false) s (fun _ s' => ready (fun _ => True) s').
Proof.
  intros Hs. eapply returns_bind; [by eapply InternalClose_ready|]. intros u s' Hs'. by apply returns_ret.
Qed.

(** The local address is read in any state with a descriptor. *)
Lemma InitializeLocalAddress_ready x s : ready_at x s ->
  returns (InitializeLocalAddress self) s (fun (_ : St) s' => ready_at x s' /\ handlers (connection (tcp s')) = handlers (connection (tcp s))).
Proof.
  intros Hs. destruct (rd_object _ _ Hs) as (o & Ho & _). unfold InitializeLocalAddress, returns.
  rewrite (run_GetFd _ _ Ho), run_sock. pose proof (quiet_getsockname (L := L) (fd_of o) (world (reactor s))) as Hq.
  destruct (sys_getsockname (fd_of o) (world (reactor s))) as [[r [addr len]] w]. cbn [fst snd] in Hq |- *.
  set (s1 := MkNet _ _ _). assert (Hs1 : ready_at x s1) by by apply quiet_ready.
  case_decide.
  - destruct (fail_errno_run (R := St) "::getsockname failed for: " s1 o Ho) as (st & _ & E). rewrite E. eauto.
  - destruct (ToString_run s1 o Ho) as [t E]. rewrite (bind_Ret _ _ _ _ _ E). unfold ASSIGN_OR_RETURN.
    destruct (ParseFromSockAddr addr len) as [hp|st].
    + unfold bind, ret. cbn. eexists _, _. split; [done|]. split; [|done]. apply (store_ready x s1); [done|apply Hs1|done..].
    + unfold bind, ret. eauto.
Qed.

Lemma PerformConnect_ready s : ready_at CONNECTING s ->
  returns (PerformConnectOnFirstOperation (St := St) self) s (fun _ s' => ready (fun _ => True) s').
Proof.
  intros Hs. unfold PerformConnectOnFirstOperation, returns. rewrite run_store. set (s1 := MkNet _ _ _).
  assert (Hs1 : ready_at CONNECTED s1) by by destruct Hs.
  destruct (InitializeLocalAddress_ready _ _ Hs1) as (st & s2 & E & Hs2 & _). rewrite (bind_Ret _ _ _ _ _ E), run_field.
  assert (Hc : returns (match connect_handler_ (handlers (connection (tcp s2))) with
    | Some h => run_connect h | None => ret tt end) s2 (fun _ s' =>
    ready (fun x => x = CONNECTED \/ x = FLUSHING \/ x = DISCONNECTED) s')).
  { destruct (connect_handler_ _) as [h|]; [by apply wb_connect|]. apply returns_ret. exists CONNECTED. auto. }
  destruct Hc as (u & s3 & E3 & x & Hx & Hs3). rewrite (bind_Ret _ _ _ _ _ E3), run_field, (rd_state _ _ Hs3).
  eexists _, s3. split; [|by exists x].
  unfold bind, check. by destruct Hx as [-> | [-> | ->]].
Qed.

(** *** Data *)

Lemma Write_quiet fd data n (w : W) :
  returns (Selectable.Write (St := St) fd data n) w (fun _ w' => quiet (L := L) w w').
Proof.
  unfold Selectable.Write, call, gets, returns, bind. pose proof (quiet_write (L := L) fd data n w) as Hq.
  destruct (sys_write fd data n w) as [r w']. case_decide; [eauto|].
  destruct (IsUnavailableAndShouldRetry _); eexists _, _; (split; [reflexivity|done]).
Qed.

Lemma write_chunks_quiet fd chunks n cb (w : W) :
  returns (write_chunks (St := St) fd chunks n cb) w (fun _ w' => quiet (L := L) w w').
Proof.
  revert cb w. induction chunks as [|chunk chunks IH]; intros cb w; [by apply returns_ret, quiet_refl|].
  cbn [write_chunks]. eapply returns_assign; [apply Write_quiet| |done].
  intros k w' Hq. case_decide; [by apply returns_ret|]. eapply returns_mono; [apply IH|].
  intros a w2 Hq2. exact (quiet_trans _ _ _ Hq Hq2).
Qed.

Lemma WriteCord_quiet fd (cord : Cord) size (w : W) :
  returns (WriteCord (St := St) fd cord size) w (fun _ w' => quiet (L := L) w w').
Proof.
  unfold WriteCord. case_decide; [by apply returns_ret, quiet_refl|]. apply write_chunks_quiet.
Qed.

Lemma ReadToCord_quiet fd (cord : Cord) n (w : W) :
  returns (ReadToCord (St := St) fd cord n) w (fun _ w' => quiet (L := L) w w').
Proof.
  unfold ReadToCord. eapply returns_assign with (P := fun _ w' => quiet (L := L) w w').
  - unfold Read, call, gets, returns, bind. pose proof (quiet_read (L := L) fd n w) as Hq.
    destruct (sys_read fd n w) as [[r data] w']. case_decide; [eauto|].
    destruct (IsUnavailableAndShouldRetry _); eexists _, _; (split; [reflexivity|done]).
  - intros [cb buffer] w' Hq. case_decide; by apply returns_ret.
  - done.
Qed.

Lemma now_run x s : ready_at x s -> x <> DISCONNECTED -> via_selector self now s = Ret (now_ (sel (reactor s))) s.
Proof. intros Hs Hx. rewrite (via_selector_run _ x) by done. by destruct s. Qed.

Lemma PerformRead_ready x s : ready_at x s -> active x = true ->
  returns (PerformRead self) s (fun (_ : StatusOr St Z) s' => ready_at x s').
Proof.
  intros Hs Hx. destruct (rd_object _ _ Hs) as (o & Ho & _). unfold PerformRead, returns.
  rewrite (run_GetFd _ _ Ho), run_sock. pose proof (quiet_fionread (L := L) (fd_of o) (world (reactor s))) as Hq.
  destruct (sys_fionread (fd_of o) (world (reactor s))) as [[r count] w]. cbn [fst snd] in Hq |- *.
  set (s1 := MkNet _ _ _). assert (Hs1 : ready_at x s1) by by apply quiet_ready.
  case_decide.
  { destruct (fail_errno_run (R := StatusOr St Z) " - performing ::ioctl w/ FIONREAD for: " s1 o Ho) as (st & _ & E).
    rewrite E. eauto. }
  case_decide; [by apply returns_ret|]. rewrite run_field. set (n := match read_limit (tcp_params_ (tcp s1)) with Some _ => _ | None => _ end).
  destruct (ToString_run s1 o Ho) as [t E]. rewrite (bind_Ret _ _ _ _ _ E), run_field, (run_GetFd s1 o Ho).
  eapply (returns_assign _ _ _ _ (fun _ s' => ready_at x s')); [|intros [cb cord] s2 Hs2|done].
  - eapply returns_mono; [apply (on_world_ready _ (fun _ _ => True) x s1 Hs1)|].
    + eapply returns_mono; [apply ReadToCord_quiet|]. by intros.
    + intros a s' (Hs' & _). exact Hs'.
  - unfold returns. rewrite !run_store. set (s3 := MkNet _ _ _).
    assert (Hs3 : ready_at x s3) by (apply (store_ready x s2); [exact Hs2|apply Hs2|done..]).
    rewrite (bind_Ret _ _ _ _ _ (now_run x s3 Hs3 ltac:(by destruct x))), run_store.
    eexists _, _. split; [reflexivity|]. apply (store_ready x s3); [done|apply Hs3|done..].
Qed.

Lemma read_handler_ready x s : (x = CONNECTED \/ x = FLUSHING) -> ready_at x s ->
  returns (CallReadHandler self) s (fun (_ : St) s' => ready (fun _ => True) s').
Proof.
  intros Hx Hs. destruct (rd_object _ _ Hs) as (o & Ho & _). unfold returns, CallReadHandler. rewrite run_field.
  destruct (read_handler_ _) as [h|]; [by apply (wb_read h x)|].
  destruct (ToString_run s o Ho) as [t E]. rewrite (bind_Ret _ _ _ _ _ E). apply returns_ret. by exists x.
Qed.

Lemma write_handler_ready s : ready_at CONNECTED s ->
  returns (CallWriteHandler self) s (fun (st : St) s' => ready (fun x => x = CONNECTED \/ x = FLUSHING \/ Status.ok st = false) s').
Proof.
  intros Hs. destruct (rd_object _ _ Hs) as (o & Ho & _). unfold returns, CallWriteHandler. rewrite run_field.
  destruct (write_handler_ _) as [h|]; [by apply (wb_write h)|].
  destruct (ToString_run s o Ho) as [t E]. rewrite (bind_Ret _ _ _ _ _ E). apply returns_ret. exists CONNECTED. auto.
Qed.

Lemma fd_active x s o : ready_at x s -> objects (reactor s) !! self = Some o -> fd_of o <> kInvalidFdValue -> active x = true.
Proof.
  intros Hs Ho Hfd. destruct (rd_object _ _ Hs) as (o' & Ho' & Ha). simplify_eq. unfold attached in Ha.
  destruct (active x); [done|]. by destruct Ha.
Qed.

Lemma read_done_ready x s : ready_at x s ->
  returns (read_done (St := St) this self) s (fun _ s' => ready (fun _ => True) s').
Proof.
  intros Hs. unfold read_done, returns. rewrite !run_field. unfold gets at 1, bind at 1.
  set (b := _ || _ || _). set (s1 := if b then MkNet (set_read_closed true (tcp s)) (reactor s) (resolver s) else s).
  assert (Hs1 : ready_at x s1) by (unfold s1; destruct b; [apply store_ready; [done|apply Hs|done..]|done]).
  rewrite (bind_Ret _ _ s tt s1) by by (unfold s1; destruct b). rewrite run_field.
  destruct (read_closed_ (tcp s1)) eqn:Hr; cbn [negb]; [|apply returns_ret; by exists x].
  destruct (CallCloseHandler_ready OkStatus CLOSE_READ x s1 Hs1 (or_introl eq_refl) Hr) as (u & s2 & E & y & _ & Hs2).
  rewrite (bind_Ret _ _ _ _ _ E). destruct (rd_object _ _ Hs2) as (o & Ho & _). rewrite (run_GetFd _ _ Ho).
  destruct (Z.eqb_spec (fd_of o) kInvalidFdValue) as [|Hfd]; cbn [negb]; [apply returns_ret; by exists y|].
  destruct (read_events_ready false y s2 Hs2 (fd_active _ _ _ Hs2 Ho Hfd)) as (st & s3 & E3 & Hs3 & _).
  rewrite (bind_Ret _ _ _ _ _ E3). eapply close_unless_ready; [exact Hs3|]. apply returns_ret. by exists y.
Qed.

Lemma write_done_ready x s : (x = CONNECTED \/ x = FLUSHING) -> ready_at x s ->
  returns (write_done (St := St) this self) s (fun _ s' => ready (fun _ => True) s').
Proof.
  intros Hx Hs. assert (Ha : active x = true) by by destruct Hx as [-> | ->]. unfold write_done, returns.
  destruct (write_events_ready false x s Hs Ha) as (st & s1 & E & Hs1 & _). rewrite (bind_Ret _ _ _ _ _ E).
  eapply close_unless_ready; [exact Hs1|]. unfold returns. rewrite run_field.
  destruct (bool_decide (state (tcp s1) = FLUSHING)); cbn [negb]; [|apply returns_ret; by exists x].
  destruct (rd_object _ _ Hs1) as (o & Ho & _). rewrite (run_GetFd _ _ Ho), run_sock. set (r := (sys_shutdown _ _ _).1).
  set (s2 := MkNet _ _ _). assert (Hs2 : ready_at x s2) by (apply quiet_ready; [done|apply quiet_shutdown]).
  case_decide.
  - destruct (fail_errno_run (R := St) " - ::shutdown after flush failed for: " s2 o Ho) as (st2 & _ & E2).
    rewrite (bind_Ret _ _ _ _ _ E2). by eapply close_false_ready.
  - rewrite run_store, run_field. set (s3 := MkNet _ _ _).
    assert (Hs3 : ready_at x s3) by (apply (store_ready x s2); [done|apply Hs2|done..]).
    rewrite run_sock. set (s4 := MkNet (tcp s3) _ _).
    assert (Hs4 : ready_at x s4) by (apply quiet_ready; [done|apply quiet_now]).
    eapply returns_bind.
    + apply (on_timeouter_ready _ x s4 Hs4). intros good Hg Hal. by apply SetTimeout_ok.
    + intros u s5 Hs5. apply returns_ret. by exists x.
Qed.

(** The kernel takes at most what is offered. *)
Lemma WriteCord_bound fd (cord : Cord) size (w : W) : (forall n, size = Some n -> 0 <= n) ->
  returns (WriteCord (St := St) fd cord size) w (fun r w' =>
    match r with Value cb => 0 <= cb <= cord_size cord | Error _ => True end /\ quiet (L := L) w w').
Proof.
  intros Hn. pose proof (SizeToWrite_bounds cord size Hn) as Hb.
  eapply returns_mono; [apply returns_and; [by apply send_cord_spec|apply WriteCord_quiet]|].
  intros r w' [(parts & _ & _ & Hr) Hq]. split; [|done]. destruct r as [cb|]; [|done].
  destruct Hr as (-> & Hle & _). pose proof (zlen_nonneg (concat parts)). lia.
Qed.

Lemma HandleWriteEvent_ready ev x s : ready_at x s -> active x = true ->
  returns (HandleWriteEvent this self ev) s (fun _ s' => ready (fun _ => True) s').
Proof.
  intros Hs Ha. assert (Hne : x <> DISCONNECTED) by by destruct x. unfold HandleWriteEvent, returns, check_thread.
  rewrite bind_assoc, (bind_Ret _ _ _ _ _ (in_thread x s Hs Hne)), (bind_Ret (check _ _) _ s tt s) by done.
  rewrite run_field, (rd_state _ _ Hs), (bind_Ret (check _ _) _ s tt s) by by destruct x.
  case_decide as Hc; [subst x; by apply PerformConnect_ready|].
  assert (Hx : x = CONNECTED \/ x = FLUSHING) by (destruct x; auto; done).
  rewrite (bind_Ret (check _ _) _ s tt s) by by destruct Hx as [-> | ->].
  destruct (rd_object _ _ Hs) as (o & Ho & _). rewrite (run_GetFd _ _ Ho), !run_field.
  destruct (on_world_ready _ _ x s Hs (WriteCord_bound (fd_of o) (outbuf (tcp s)) _ _ (rd_limit _ _ Hs)))
    as (r & s1 & E & Hs1 & Etcp & Hr). rewrite (bind_Ret _ _ _ _ _ E).
  destruct r as [cb|st]; [|by eapply close_false_ready]. rewrite (bind_Ret (check _ _) _ s1 tt s1) by (unfold check; by rewrite (proj2 (Z.leb_le _ _)) by lia).
  rewrite !run_store. set (s2 := MkNet _ _ _).
  assert (Hs2 : ready_at x s2) by (apply (store_ready x s1); [exact Hs1|exact (rd_state _ _ Hs1)|done..]).
  rewrite (bind_Ret _ _ _ _ _ (now_run x s2 Hs2 Hne)), run_store, run_field. set (s3 := MkNet _ _ _).
  assert (Hs3 : ready_at x s3) by (apply (store_ready x s2); [exact Hs2|apply Hs2|done..]).
  rewrite (rd_state _ _ Hs3).
  assert (Hw : returns (if negb (bool_decide (x = FLUSHING)) then CallWriteHandler self else ret OkStatus) s3
            (fun st s' => ready (fun x => x = CONNECTED \/ x = FLUSHING \/ Status.ok st = false) s')).
  { case_bool_decide; cbn [negb]; [apply returns_ret; exists x; split; [naive_solver|done]|].
    apply write_handler_ready. by destruct Hx as [-> | ->]. }
  destruct Hw as (st & s4 & E4 & y & Hy & Hs4). rewrite (bind_Ret _ _ _ _ _ E4). unfold close_unless.
  destruct (Status.ok st) eqn:Eok; cbn [negb]; [|by eapply close_false_ready]. rewrite run_field.
  destruct (decide _); [apply returns_ret; by exists y|]. eapply write_done_ready; [|exact Hs4]. naive_solver.
Qed.

Lemma HandleReadEvent_ready ev x s : ready_at x s -> active x = true ->
  returns (HandleReadEvent this self ev) s (fun _ s' => ready (fun _ => True) s').
Proof.
  intros Hs Ha. assert (Hne : x <> DISCONNECTED) by by destruct x. unfold HandleReadEvent, returns, check_thread.
  rewrite bind_assoc, (bind_Ret _ _ _ _ _ (in_thread x s Hs Hne)), (bind_Ret (check _ _) _ s tt s) by done.
  rewrite run_field, (rd_state _ _ Hs), (bind_Ret (check _ _) _ s tt s) by by destruct x.
  case_decide as Hc; [subst x; by apply PerformConnect_ready|].
  assert (Hx : x = CONNECTED \/ x = FLUSHING) by (destruct x; auto; done).
  rewrite (bind_Ret (check _ _) _ s tt s) by by destruct Hx as [-> | ->].
  destruct (PerformRead_ready x s Hs Ha) as (r & s1 & E & Hs1). rewrite (bind_Ret _ _ _ _ _ E).
  destruct r as [cb|st]; [|by eapply close_false_ready]. case_decide; [|by eapply read_done_ready].
  destruct (read_handler_ready x s1 Hx Hs1) as (st & s2 & E2 & y & _ & Hs2). rewrite (bind_Ret _ _ _ _ _ E2).
  eapply close_unless_ready; [exact Hs2|by eapply read_done_ready].
Qed.

Lemma event_test_run f value x s : ready_at x s -> x <> DISCONNECTED ->
  event_test self f value s = Ret (f value) s.
Proof.
  intros Hs Hx. unfold event_test. rewrite (via_selector_run _ x) by done. unfold on_reactor.
  destruct (rd_loop _ _ Hs) as (l & -> & _). by destruct s.
Qed.

Lemma HandleErrorEvent_ready ev x s : ready_at x s -> active x = true ->
  returns (HandleErrorEvent (St := St) this self ev) s (fun _ s' => ready (fun _ => True) s').
Proof.
  intros Hs Ha. assert (Hne : x <> DISCONNECTED) by by destruct x. unfold HandleErrorEvent, returns, check_thread.
  rewrite bind_assoc, (bind_Ret _ _ _ _ _ (in_thread x s Hs Hne)), (bind_Ret (check _ _) _ s tt s) by done.
  rewrite run_field, (rd_state _ _ Hs), (bind_Ret (check _ _) _ s tt s) by by destruct x.
  rewrite (bind_Ret _ _ _ _ _ (event_test_run _ _ _ _ Hs Hne)). destruct (IsErrorEvent _).
  { destruct (rd_object _ _ Hs) as (o & Ho & _). rewrite (run_GetFd _ _ Ho), run_sock. set (s1 := MkNet _ _ _).
    assert (Hs1 : ready_at x s1).
    { apply quiet_ready; [done|]. unfold ExtractSocketErrno.
      pose proof (quiet_so_error (L := L) (fd_of o) (world (reactor s))) as Hq.
      destruct (sys_so_error _ _) as [[r err] w]. by case_decide. }
    destruct (ToString_run s1 o Ho) as [t E]. rewrite (bind_Ret _ _ _ _ _ E). by eapply close_false_ready. }
  rewrite (bind_Ret _ _ _ _ _ (event_test_run _ _ _ _ Hs Hne)). destruct (IsHangUpEvent _).
  { rewrite run_store, run_field. set (s1 := MkNet _ _ _).
    assert (Hs1 : ready_at x s1) by (apply store_ready; [done|apply Hs|done..]).
    rewrite (bind_Ret _ _ _ _ _ (event_test_run _ _ _ _ Hs1 Hne)). destruct (_ && _); [apply returns_ret; by exists x|].
    by eapply close_false_ready. }
  rewrite (bind_Ret _ _ _ _ _ (event_test_run _ _ _ _ Hs Hne)). destruct (IsRemoteHangUpEvent _);
    [|apply returns_ret; by exists x].
  rewrite run_store, run_field. set (s1 := MkNet _ _ _). assert (Hs1 : ready_at FLUSHING s1).
  { destruct Hs as [? ? ? ? ? (o & Ho & Hat)]. split; try done. exists o. split; [done|]. unfold attached in *.
    by rewrite Ha in Hat. }
  rewrite (bind_Ret _ _ _ _ _ (event_test_run _ _ _ _ Hs1 ltac:(done))). destruct (_ && _); [apply returns_ret; by exists FLUSHING|].
  by eapply close_false_ready.
Qed.

Lemma FlushAndClose_ready x s : ready_at x s -> active x = true ->
  returns (FlushAndClose (St := St) this self) s (fun _ s' =>
    if decide (x = CONNECTED /\ write_closed_ (tcp s) = false) then
      ready_at FLUSHING s' /\ tcp s' = on_connection (set_state FLUSHING) (tcp s)
    else ready_at x s' /\ tcp s' = tcp s).
Proof.
  intros Hs Ha. assert (Hne : x <> DISCONNECTED) by by destruct x. unfold FlushAndClose, CloseCommunication, returns.
  rewrite (bind_Ret _ _ _ _ _ (in_thread x s Hs Hne)). cbn [negb].
  pose proof (rd_object _ _ Hs) as (o & Ho & Hat). unfold attached in Hat. rewrite Ha in Hat.
  rewrite (run_GetFd _ _ Ho), run_field. rewrite decide_False by by destruct Hat.
  rewrite (bind_Ret _ _ _ _ _ (in_thread x s Hs Hne)). cbn [negb]. rewrite run_field, (rd_state _ _ Hs).
  rewrite (bool_decide_true (CLOSE_WRITE = CLOSE_WRITE)) by done. cbn [orb].
  destruct (write_closed_ (tcp s)); cbn [negb andb].
  { apply returns_ret. rewrite decide_False; [done|by intros [??]]. }
  destruct (decide (x = CONNECTED)) as [->|Hc].
  - rewrite (bool_decide_true (CONNECTED = CONNECTED)), run_store by done. set (s1 := MkNet _ _ _).
    assert (Hs1 : ready_at FLUSHING s1) by by destruct Hs.
    destruct (write_events_ready true FLUSHING s1 Hs1 eq_refl) as (st & s2 & E & Hs2).
    rewrite (bind_Ret _ _ _ _ _ E). apply returns_ret. by rewrite decide_True.
  - rewrite bool_decide_false by done. apply returns_ret. rewrite decide_False; [done|by intros [??]].
Qed.

(** *** Connecting

    A connection that has no descriptor yet, and its resolver. *)

Record idle (x : ConnState) s : Prop := {
  id_state : x = DISCONNECTED \/ x = RESOLVING;
  id_ready : ready_at x s;
  id_selector : exists o, objects (reactor s) !! self = Some o /\ selector_ (base o) = this;
  id_resolver : resolves_ (resolver s) <> []
}.

Lemma idle_via {A} (m : M (State L Cb W) A) x s : idle x s -> via_selector self m s = on_reactor m s.
Proof.
  intros [Hx Hs (o & Ho & Hsel) _]. assert (E : on_reactor (on_base self selector) s = Ret this s).
  { unfold on_reactor, on_base. rewrite Ho. cbn. rewrite Hsel. destruct o as [b fd]. cbn.
    rewrite insert_id by done. by destruct s as [? [? ? ?] ?]. }
  unfold via_selector. rewrite (bind_Ret _ _ _ _ _ E). by rewrite decide_False.
Qed.

Lemma idle_thread x s : idle x s -> IsInSelectThread self s = Ret true s.
Proof.
  intros Hs. unfold IsInSelectThread. rewrite (idle_via _ x) by done.
  unfold on_reactor. cbn. rewrite (rd_thread _ _ (id_ready _ _ Hs)), Z.eqb_refl. by destruct s.
Qed.

Lemma idle_fd x s : idle x s -> exists o, objects (reactor s) !! self = Some o /\ fd_of o = kInvalidFdValue.
Proof.
  intros [Hx Hs _ _]. destruct (rd_object _ _ Hs) as (o & Ho & Ha). exists o. split; [done|].
  by destruct Hx as [-> | ->]; apply Ha.
Qed.

(** The socket is created, and dropped. *)
Lemma connect_socket_fails addr buf x s : idle x s ->
  exists st s', connect_socket this self addr buf s = Ret st s' /\ Status.ok st = false /\ idle x s' /\
    tcp s' = tcp s /\ world (reactor s') = (sys_socket (sa_family buf) (world (reactor s))).2.
Proof.
  intros Hs. destruct (idle_fd x s Hs) as (o & Ho & Hfd). unfold connect_socket. rewrite run_sock.
  set (s1 := MkNet _ _ _). rewrite (run_GetFd s1 o Ho), Hfd, decide_True by done.
  eexists _, _. split; [reflexivity|]. split; [by apply ok_return_errno|]. split; [|done].
  destruct Hs as [Hx Hr Hsel Hres]. split; [done| |done|done]. apply quiet_ready; [done|apply quiet_socket].
Qed.

Lemma internal_close_resolving status call s : ready_at RESOLVING s ->
  InternalClose this self status call s =
  Ret tt (MkNet (set_close_on_resolve (Some call) (on_connection (set_last_error status) (tcp s))) (reactor s) (resolver s)).
Proof.
  intros Hs. unfold InternalClose. rewrite run_field, (rd_state _ _ Hs), decide_False by done.
  unfold check_thread. rewrite bind_assoc, (bind_Ret _ _ _ _ _ (in_thread RESOLVING s Hs ltac:(done))).
  rewrite (bind_Ret (check _ _) _ s tt s) by done. rewrite run_store, run_field. set (s0 := MkNet _ _ _).
  assert (Es : state (tcp s0) = RESOLVING).
  { pose proof (rd_state _ _ Hs). unfold s0, state, on_connection, set_last_error. cbn. by destruct (Status.ok status). }
  rewrite Es, decide_True by done. reflexivity.
Qed.

(** A close asked for during a resolution only leaves a note. *)
Lemma idle_close status call x s : idle x s -> exists s', InternalClose this self status call s = Ret tt s' /\ idle x s' /\
  (x = RESOLVING -> close_on_resolve_ (tcp s') = Some call).
Proof.
  intros [Hx Hs Hsel Hres]. pose proof (closed_already x s Hs) as Hc.
  destruct Hx as [-> | ->]; [exists s; rewrite Hc by done; split; [done|]; split; [|done]; split; auto|].
  rewrite internal_close_resolving by done. eexists. split; [reflexivity|]. split; [|done].
  split; [by right| |done|done].
  apply store_ready; [done|..]; unfold state, set_close_on_resolve, on_connection, set_last_error; cbn;
    destruct (Status.ok status); try done; apply Hs.
Qed.

(** The answer of a resolution, whatever it is, does not lead to a socket. *)
Lemma answer_idle depth info s u s' : idle RESOLVING s -> HandleDnsResult this self depth info s = Ret u s' -> idle RESOLVING s'.
Proof.
  intros Hs E. assert (Hclose : forall st call, InternalClose this self st call s = Ret u s' -> idle RESOLVING s').
  { intros st call E'. destruct (idle_close st call _ s Hs) as (s2 & E2 & Hs2 & _). rewrite E2 in E'. by simplify_eq. }
  assert (Hend : forall st, (if negb (Status.ok st) then InternalClose this self st true else ret tt) s = Ret u s' ->
            idle RESOLVING s').
  { intros st. destruct (Status.ok st); cbn [negb]; [by intros [= _ <-]|apply Hclose]. }
  destruct (idle_fd _ _ Hs) as (o & Ho & _). destruct (ToString_run s o Ho) as [t Et].
  destruct depth as [|depth]; cbn [HandleDnsResult] in E; rewrite (bind_Ret _ _ _ _ _ (idle_thread _ _ Hs)) in E;
    cbn [negb] in E; rewrite run_field, (rd_state _ _ (id_ready _ _ Hs)), (bind_Ret (check _ _) _ s tt s), run_field in E by done;
    (destruct (close_on_resolve_ (tcp s)) as [call|]; [rewrite run_field in E; by apply Hclose in E|]);
    (destruct info as [host|st]; [|by apply (Hend st)]);
    (unfold has_value in E; destruct (PickNextAddress host).1 as [ip|];
      [rewrite bool_decide_true, bind_assoc, (bind_Ret _ _ _ _ _ Et) in E by eauto; by apply Hend in E
      |rewrite bool_decide_false in E by (by intros []); discriminate E]).
Qed.

(** The queue that gets the next request. *)
Definition next_queue s := resolves_ (resolver s) !! Z.to_nat (resolve_index_ (resolver s) mod zlen (resolves_ (resolver s))).

Lemma next_queue_some x s : idle x s -> is_Some (next_queue s).
Proof.
  intros Hs. apply lookup_lt_is_Some. pose proof (id_resolver _ _ Hs) as Hne. unfold zlen.
  destruct (resolves_ (resolver s)) as [|q l]; [done|].
  pose proof (Z.mod_pos_bound (resolve_index_ (resolver s)) (Z.of_nat (length (q :: l))) ltac:(simpl; lia)). lia.
Qed.

(** An error marks the connection to be closed. *)
Lemma answer_error depth st s : idle RESOLVING s -> Status.ok st = false ->
  exists s2, HandleDnsResult this self depth (Error st) s = Ret tt s2 /\ idle RESOLVING s2 /\
    remote_address_ (tcp s2) = remote_address_ (tcp s) /\ is_Some (close_on_resolve_ (tcp s2)).
Proof.
  intros Hs Hst. assert (Hc : forall st call, exists s2, InternalClose this self st call s = Ret tt s2 /\
    idle RESOLVING s2 /\ remote_address_ (tcp s2) = remote_address_ (tcp s) /\ is_Some (close_on_resolve_ (tcp s2))).
  { intros st' call. pose proof (internal_close_resolving st' call s (id_ready _ _ Hs)) as Ec.
    destruct (idle_close st' call _ s Hs) as (s2 & Ec2 & Hs2 & Hc2). rewrite Ec in Ec2. injection Ec2 as <-.
    eexists. rewrite Ec. split; [done|]. split; [done|]. split; [done|]. by eexists. }
  destruct depth; cbn [HandleDnsResult]; rewrite (bind_Ret _ _ _ _ _ (idle_thread _ _ Hs)); cbn [negb];
    rewrite run_field, (rd_state _ _ (id_ready _ _ Hs)), (bind_Ret (check _ _) _ s tt s), run_field by done;
    (destruct (close_on_resolve_ (tcp s)) as [call|]; [rewrite run_field; apply Hc|]);
    rewrite (bind_Ret (ret _) _ s _ s eq_refl), Hst; cbn [negb]; apply Hc.
Qed.

(** A queued request is answered with an error at once: a close is noted. *)
Lemma resolve_async_idle depth host s q : idle RESOLVING s -> next_queue s = Some q ->
  returns (resolve_async self host (HandleDnsResult this self depth)) s (fun _ s' => idle RESOLVING s' /\
    remote_address_ (tcp s') = remote_address_ (tcp s) /\
    (Queue.HasEmptySpace q = true -> is_Some (close_on_resolve_ (tcp s')))).
Proof.
  intros Hs Hq. destruct (resolve_async_reversed host self (resolver s) q Hq) as (d & Ed & Hcalls).
  assert (Hd : resolves_ d <> []).
  { unfold ResolveAsync in Ed. destruct (_ !! _); [|done]. cbn in Ed. destruct (put_request _ _) as [r q']. injection Ed as <-.
    cbn. pose proof (id_resolver _ _ Hs) as Hne. intros E. apply Hne. apply nil_length_inv.
    by apply (f_equal length) in E; rewrite length_insert in E. }
  unfold resolve_async, returns. unfold bind at 1, gets. rewrite Ed, Hcalls, drop_app_length.
  set (s1 := MkNet (tcp s) (reactor s) d). assert (Hs1 : idle RESOLVING s1) by (destruct Hs as [? [] ? ?]; by split).
  rewrite (bind_Ret _ _ s tt s1) by done. destruct (Queue.HasEmptySpace q); [|by exists tt, s1].
  cbn [run_dns]. destruct (answer_error depth (mk_status kInternal "Asynchronous resolve queue is full.") s1 Hs1)
    as (s2 & E2 & Hs2 & Hr2 & Hc2); [apply ok_false; by rewrite code_mk|].
  rewrite (bind_Ret _ _ _ _ _ E2). exists tt, s2. by split.
Qed.

(** What a client does with a connection. *)
Inductive client_step : N -> N -> Prop :=
| client_connect addr st s s' : Connect this self addr s = Ret st s' -> client_step s s'
| client_answer depth info u s s' : state (tcp s) = RESOLVING -> HandleDnsResult this self depth info s = Ret u s' -> client_step s s'
| client_close status call u s s' : InternalClose this self status call s = Ret u s' -> client_step s s'.

(** Whether [Connect] starts a resolution. *)
Definition resolves x (addr : HostPort) : bool :=
  bool_decide (x = DISCONNECTED) && has_value (port_ addr) && negb (IsResolved addr) && has_value (host_ addr).

Lemma Connect_idle x s addr : idle x s ->
  returns (Connect this self addr) s (fun st s' =>
    if resolves x addr then
      Status.ok st = true /\ idle RESOLVING s' /\ remote_address_ (tcp s') = addr /\
      (forall q, next_queue s = Some q -> Queue.HasEmptySpace q = true -> is_Some (close_on_resolve_ (tcp s')))
    else Status.ok st = false /\ idle x s' /\ tcp s' = tcp s).
Proof.
  intros Hs. destruct (idle_fd x s Hs) as (o & Ho & Hfd). unfold Connect, connect_with, returns, check_thread.
  rewrite bind_assoc, (bind_Ret _ _ _ _ _ (idle_thread _ _ Hs)), (bind_Ret (check _ _) _ s tt s) by done.
  rewrite run_field, (rd_state _ _ (id_ready _ _ Hs)). unfold RET_CHECK at 1.
  replace (bool_decide (x = DISCONNECTED) || bool_decide (x = RESOLVING)) with true by by destruct (id_state _ _ Hs) as [-> | ->].
  rewrite (run_GetFd _ _ Ho), Hfd. unfold RET_CHECK. rewrite Z.eqb_refl. unfold resolves.
  assert (Hno : forall c text, c <> kOk -> exists a s', ret (return_error (R := St) (StatusWriter_ctor (mk_status c [])) text) s = Ret a s' /\
    Status.ok a = false /\ idle x s' /\ tcp s' = tcp s).
  { intros c text Hc. eexists _, s. split; [reflexivity|]. split; [|done]. apply ok_false. by rewrite code_builder. }
  destruct (has_value (port_ addr)); cbn [negb andb]; [|rewrite andb_false_r; by apply Hno].
  rewrite andb_true_r. destruct (bool_decide (x = DISCONNECTED) && negb (IsResolved addr)) eqn:Ex; cbn [andb].
  - apply andb_true_iff in Ex as [Ex%bool_decide_eq_true _]. subst x.
    unfold has_value. destruct (host_ addr) as [host|]; [rewrite bool_decide_true by eauto|rewrite bool_decide_false by (by intros []); by apply Hno].
    rewrite !run_store. set (s1 := MkNet _ _ _). destruct (next_queue_some _ _ Hs) as [q Hq].
    assert (Hs1 : idle RESOLVING s1).
    { destruct Hs as [_ [? ? ? ? ? (o' & Ho' & Ha)] (o2 & Ho2 & Hsel2) Hres]. split; [by right| |by exists o2|done].
      split; try done. exists o'. split; [done|]. simplify_eq. destruct Ha as (? & ? & _). by split_and!. }
    destruct (resolve_async_idle 1 host s1 q Hs1 Hq) as (u & s2 & E2 & Hs2 & Hr2 & Hc2). rewrite (bind_Ret _ _ _ _ _ E2).
    eexists _, s2. split; [reflexivity|]. split; [apply ok_OkStatus|]. split; [done|]. split; [done|].
    intros q' Hq'. simplify_eq. apply Hc2.
  - destruct (ToSockAddr addr storage) as [st buf]. unfold RETURN_IF_ERROR. rewrite (bind_Ret (ret st) _ s st s) by done.
    destruct (Status.ok st) eqn:Eok.
    + destruct (connect_socket_fails addr buf x s Hs) as (st' & s' & E' & Hok & Hs' & Ht & _). rewrite E'. eauto 8.
    + eexists _, s. split; [reflexivity|]. split; [|done]. by rewrite (ok_return_error (St := St)).
Qed.

Lemma client_idle x s s' : idle x s -> client_step s s' -> exists y, idle y s' /\ (x = RESOLVING -> y = RESOLVING).
Proof.
  intros Hs Hstep. destruct Hstep as [addr st s s' E|depth info u s s' Hst E|status call u s s' E].
  - destruct (Connect_idle x s addr Hs) as (st2 & s2 & E2 & HQ). rewrite E2 in E. simplify_eq.
    destruct (resolves x addr); [exists RESOLVING|exists x]; by destruct HQ as (_ & ? & _).
  - assert (x = RESOLVING) as -> by by rewrite <- (rd_state _ _ (id_ready _ _ Hs)).
    exists RESOLVING. split; [by eapply answer_idle|done].
  - destruct (idle_close status call x s Hs) as (s2 & E2 & Hs2 & _). rewrite E2 in E. simplify_eq. by exists x.
Qed.

(** What [Connect] does, on every branch: it starts a resolution for an
    unresolved name, and otherwise fails and leaves the connection as it was -
    for a resolved address too, since the test after [socket] looks at the
    member descriptor, which is still invalid; the descriptor that [socket] made
    is then left open ([connect_socket_fails]).  When the resolver has room for the request, its
    immediate error has already marked the connection to be closed.  Hence no
    sequence of connects, answers and closes gives the connection a
    descriptor, and once it resolves a name it stays so. *)
Theorem connect_never_connects x s addr (Hs : idle x s) :
  returns (Connect this self addr) s (fun st s' =>
    if resolves x addr then
      Status.ok st = true /\ idle RESOLVING s' /\ remote_address_ (tcp s') = addr /\
      (forall q, next_queue s = Some q -> Queue.HasEmptySpace q = true -> is_Some (close_on_resolve_ (tcp s')))
    else Status.ok st = false /\ idle x s' /\ tcp s' = tcp s) /\
  forall s', rtc client_step s s' ->
    exists y o, idle y s' /\ (x = RESOLVING -> y = RESOLVING) /\
      objects (reactor s') !! self = Some o /\ fd_of o = kInvalidFdValue.
Proof.
  split; [by apply Connect_idle|]. intros s' Hr. revert x Hs. induction Hr as [s|s1 s2 s3 Hstep _ IH]; intros x Hs.
  - destruct (idle_fd x s Hs) as (o & Ho & Hfd). by exists x, o.
  - destruct (client_idle x _ _ Hs Hstep) as (y & Hy & Hxy). destruct (IH y Hy) as (z & o & Hz & Hyz & Ho).
    exists z, o. split; [done|]. split; [auto|done].
Qed.

(** *** Flushing

    A kernel that takes at least a byte of what is offered, and an event loop
    that sends nothing itself. *)

Class Cooperative : Prop := {
  co_write fd data (w : W) : 0 < zlen data -> 1 <= (sys_write fd data (zlen data) w).1;
  co_update fd ud d (s s' : L * W) (st : St) (f : Z) : loop_Update fd ud d s = Ret st s' -> outgoing s'.2 f = outgoing s.2 f
}.

Context `{HK : !Cooperative} `{HE : !CordEditLaws Cord}.

Lemma Write_progress fd data (w : W) : 0 < zlen data ->
  returns (Selectable.Write (St := St) fd data (zlen data)) w (fun r _ => exists k, r = Value k /\ 1 <= k).
Proof.
  intros Hd. unfold Selectable.Write, call, returns, bind. pose proof (co_write fd data w Hd) as Hk.
  destruct (sys_write fd data (zlen data) w) as [r w']. simpl in Hk. rewrite decide_True by lia.
  eexists _, _. split; [reflexivity|]. eauto.
Qed.

Lemma write_chunks_progress fd chunks n cb (w : W) :
  [] ∉ chunks -> 0 <= cb < n -> n <= size_max -> cb + zlen (concat chunks) <= size_max ->
  returns (write_chunks (St := St) fd chunks n cb) w (fun r _ =>
    exists c, r = Value c /\ cb <= c /\ (chunks <> [] -> cb < c)).
Proof.
  revert cb w. induction chunks as [|chunk chunks IH]; intros cb w Hne Hcb Hn Hm.
  { apply returns_ret. exists cb. split_and!; [done|lia|done]. }
  cbn [write_chunks concat] in *. rewrite zlen_app in Hm.
  pose proof (zlen_nonneg chunk). pose proof (zlen_nonneg (concat chunks)).
  rewrite cut_chunk_spec by lia. set (t := take (Z.to_nat (n - cb)) chunk).
  assert (Hc : 0 < zlen chunk) by (destruct chunk; [by destruct Hne; left|rewrite zlen_cons; pose proof (zlen_nonneg chunk); lia]).
  assert (Ht : zlen t = Z.min (n - cb) (zlen chunk)) by (unfold t, zlen in *; rewrite length_take; lia).
  eapply (returns_assign _ _ _ _ (fun r _ => exists k, r = Value k /\ 1 <= k <= zlen t)); [| |by intros st w' st' (k & ? & _)].
  - eapply returns_mono; [apply returns_and; [apply (Write_progress fd t w); lia|apply (Write_spec fd t w)]|].
    intros r w' [(k & -> & Hk) [Hk2 _]]. exists k. split; [done|lia].
  - intros a w' (k & [= ->] & Hk). rewrite u64_id by (unfold size_max in *; lia). case_decide.
    + apply returns_ret. exists (cb + k). split_and!; [done|lia|lia].
    + eapply returns_mono; [apply IH; [set_solver|lia..]|]. intros r w2 (c & -> & Hle & _).
      exists c. split_and!; [done|lia|lia].
Qed.

(** A write takes at least a byte, unless there is none. *)
Lemma WriteCord_progress fd (cord : Cord) size (w : W) : (forall n, size = Some n -> 1 <= n) ->
  returns (WriteCord (St := St) fd cord size) w (fun r w' =>
    (exists cb, r = Value cb /\ 0 <= cb <= zlen (cord_bytes cord) /\ (cord_bytes cord <> [] -> 1 <= cb)) /\
    quiet (L := L) w w').
Proof.
  intros Hn. assert (Hn0 : forall n, size = Some n -> 0 <= n) by (intros n E; specialize (Hn n E); lia).
  pose proof (SizeToWrite_bounds cord size Hn0) as Hb. pose proof (cord_size_max cord) as Hm.
  pose proof (cord_size_spec cord) as Hz.
  assert (HP : returns (WriteCord (St := St) fd cord size) w (fun r _ =>
            exists cb, r = Value cb /\ 0 <= cb /\ (cord_bytes cord <> [] -> 1 <= cb))).
  { unfold WriteCord. case_decide as Hc0.
    - apply returns_ret. exists 0. split_and!; [done..|]. intros Hne. rewrite Hz in Hc0.
      destruct (cord_bytes cord); [done|]. rewrite zlen_cons in Hc0. pose proof (zlen_nonneg l). lia.
    - assert (Hs1 : 1 <= SizeToWrite cord size).
      { unfold SizeToWrite. destruct size as [n|]; [specialize (Hn n eq_refl); case_decide|]; lia. }
      eapply returns_mono; [apply (write_chunks_progress fd (Chunks cord)); [apply chunks_not_empty|lia|lia|]|].
      + unfold cord_bytes in Hz. lia.
      + intros r w' (c & -> & Hc & Hp). exists c. split_and!; [done|lia|]. intros Hne.
        enough (0 < c) by lia. apply Hp. intros E. apply Hne. unfold cord_bytes. by rewrite E. }
  eapply returns_mono; [apply returns_and; [exact HP|apply (WriteCord_bound fd cord size w Hn0)]|].
  intros r w' [(cb & -> & Hp0 & Hp1) [Hle Hq]]. split; [|done]. exists cb. rewrite <- Hz. split_and!; [done|lia|lia|done].
Qed.

(** A kernel that takes all of what is offered on [fd]. *)
Definition whole_writes (fd : Z) : Prop :=
  forall data (w : W), (sys_write fd data (zlen data) w).1 = zlen data.

Lemma write_chunks_whole fd chunks n cb (w : W) : whole_writes fd ->
  [] ∉ chunks -> 0 <= cb < n -> n <= size_max -> cb + zlen (concat chunks) <= size_max ->
  returns (write_chunks (St := St) fd chunks n cb) w (fun r w' =>
    exists c, r = Value c /\ cb <= c /\ outgoing w' fd = outgoing w fd ++ take (Z.to_nat (c - cb)) (concat chunks)).
Proof.
  intros Hwh. revert cb w. induction chunks as [|chunk chunks IH]; intros cb w Hne Hcb Hn Hm.
  { apply returns_ret. exists cb. split_and!; [done|lia|]. simpl. by rewrite take_nil, app_nil_r. }
  cbn [write_chunks concat] in *. rewrite zlen_app in Hm.
  pose proof (zlen_nonneg chunk). pose proof (zlen_nonneg (concat chunks)).
  rewrite cut_chunk_spec by lia. set (t := take (Z.to_nat (n - cb)) chunk).
  assert (Hc : 0 < zlen chunk) by (destruct chunk; [by destruct Hne; left|rewrite zlen_cons; pose proof (zlen_nonneg chunk); lia]).
  assert (Ht : zlen t = Z.min (n - cb) (zlen chunk)) by (unfold t, zlen in *; rewrite length_take; lia).
  eapply (returns_assign _ _ _ _ (fun r w' => r = Value (zlen t) /\ outgoing w' fd = outgoing w fd ++ t)); [| |by intros st w' st' [? _]].
  - destruct (Write_spec (St := St) fd t w) as (r & w' & E & Hr). exists r, w'. split; [done|].
    pose proof (Hwh t w) as Hk. revert E. unfold Selectable.Write, call, bind.
    destruct (sys_write fd t (zlen t) w) as [k w2]. simpl in Hk. subst k. rewrite decide_True by apply zlen_nonneg.
    intros [= <- <-]. destruct Hr as [_ (Hr & _)]. split; [done|]. rewrite Hr. f_equal. unfold zlen. by rewrite Nat2Z.id, firstn_all.
  - intros a w' ([= ->] & Hout). rewrite u64_id by (unfold size_max in *; lia). case_decide as Hd.
    + apply returns_ret. exists (cb + zlen t). split_and!; [done|lia|]. rewrite Hout. f_equal.
      replace (Z.to_nat (cb + zlen t - cb)) with (length t) by (unfold zlen; lia).
      rewrite take_app_le by (unfold t; rewrite length_take; lia). unfold t. by rewrite length_take, <- take_take, (take_ge chunk (length chunk)).
    + assert (Et : t = chunk) by (unfold t, zlen in *; rewrite take_ge; [done|lia]). rewrite Et in *.
      eapply returns_mono; [apply IH; [set_solver|lia..]|]. intros r w2 (c & -> & Hle & E2). exists c. split_and!; [done|lia|].
      rewrite E2, Hout, <- app_assoc. f_equal. replace (Z.to_nat (c - cb)) with (length chunk + Z.to_nat (c - (cb + zlen chunk)))%nat by (unfold zlen in *; lia).
      by rewrite take_app_add.
Qed.

(** The bytes of a cord that a write sends: as many as it counts, and a
    beginning of the cord when the kernel takes what is offered. *)
Lemma WriteCord_sends fd (cord : Cord) size (w : W) : (forall n, size = Some n -> 1 <= n) ->
  returns (WriteCord (St := St) fd cord size) w (fun r w' =>
    (exists bytes, r = Value (zlen bytes) /\ outgoing w' fd = outgoing w fd ++ bytes /\
       zlen bytes <= zlen (cord_bytes cord) /\ (cord_bytes cord <> [] -> bytes <> []) /\
       (whole_writes fd -> bytes = take (length bytes) (cord_bytes cord))) /\
    quiet (L := L) w w').
Proof.
  intros Hn. assert (Hn0 : forall n, size = Some n -> 0 <= n) by (intros n E; specialize (Hn n E); lia).
  destruct (returns_and _ _ _ _ (WriteCord_progress fd cord size w Hn) (send_cord_spec fd cord size w Hn0))
    as (r & w' & E & [(cb & -> & Hcb & Hp) Hq] & parts & (Hout & _) & _ & Hr & _).
  exists (Value cb), w'. split; [done|]. split; [|done]. exists (concat parts). split_and!; [by rewrite Hr|done|lia| |].
  - intros Hne Hnil. specialize (Hp Hne). rewrite Hnil, zlen_nil in Hr. lia.
  - intros Hwh. revert E. unfold WriteCord. pose proof (cord_size_spec cord) as Hz. pose proof (cord_size_max cord) as Hm.
    pose proof (SizeToWrite_bounds cord size Hn0) as Hb.
    case_decide as Hc0.
    + intros [= <- <-]. destruct (concat parts) as [|c l]; [done|]. rewrite zlen_cons in Hr. pose proof (zlen_nonneg l). lia.
    + assert (Hs1 : 1 <= SizeToWrite cord size).
      { unfold SizeToWrite. destruct size as [n|]; [specialize (Hn n eq_refl); case_decide|]; lia. }
      destruct (write_chunks_whole fd (Chunks cord) (SizeToWrite cord size) 0 w Hwh) as (r & w2 & E2 & c & -> & Hc & Ho2);
        [apply chunks_not_empty|lia|lia|unfold cord_bytes in Hz; lia|].
      rewrite E2. intros [= -> ->]. rewrite Hout in Ho2. apply app_inv_head in Ho2. unfold cord_bytes.
      rewrite Ho2 at 1. f_equal. rewrite Hr. unfold zlen. lia.
Qed.

Definition own_fd s : Z := match objects (reactor s) !! self with Some o => fd_of o | None => kInvalidFdValue end.

(** The same but for the event loop's own business. *)
Definition same s s' : Prop :=
  own_fd s' = own_fd s /\ timers_ (sel (reactor s')) = timers_ (sel (reactor s)) /\
  forall fd, outgoing (world (reactor s')) fd = outgoing (world (reactor s)) fd.

Lemma update_same enable desire x s : ready_at x s -> active x = true ->
  returns (via_selector self (UpdateDesire (St := St) this self enable desire)) s (fun st s' =>
    ready_at x s' /\ tcp s' = tcp s /\ same s s').
Proof.
  intros Hs Hx. destruct (desire_ready enable desire x s Hs Hx) as (st & s' & E & Hs' & Et). exists st, s'. split; [done|].
  split; [done|]. split; [done|].
  rewrite (via_selector_run _ x s) in E by (done || by destruct x). unfold on_reactor in E.
  destruct (rd_object _ _ Hs) as (o & Ho & Ha). unfold attached in Ha. rewrite Hx in Ha. destruct Ha as (_ & Hsel & _).
  assert (Hall : allowed (reactor s) = true) by (unfold allowed; rewrite (rd_thread _ _ Hs), Z.eqb_refl; apply orb_true_r).
  rewrite (UpdateDesire_run _ _ _ _ _ _ Ho) in E by done. case_decide; [injection E as _ <-; by destruct s as [? [] ?]|].
  unfold on_loop in E. destruct (loop_ _); [|done]. destruct (loop_Update _ _ _ _) as [st' [l' w']|] eqn:Eu; [|done].
  injection E as _ <-. unfold same, own_fd. cbn. rewrite lookup_insert_eq, Ho. split; [done|]. split; [by destruct (sel (reactor s))|].
  intros fd. exact (co_update _ _ _ _ _ _ fd Eu).
Qed.

Lemma close_run status x s : ready_at x s -> active x = true -> exists h s1,
  close_handler_ (handlers (connection (tcp s))) = Some h /\
  InternalClose this self status true s = run_close h status CLOSE_READ_WRITE s1 /\
  tcp s1 = closed status (tcp s) /\ detached s1 /\ given_back s s1.
Proof.
  intros Hs Hx. destruct (InternalClose_run status true x s Hs Hx) as (s1 & E & Hc & _ & Hd & Hg & _).
  destruct (rd_handler _ _ Hs) as [h Hh]. exists h, s1. rewrite E.
  by rewrite (CallCloseHandler_run h) by (by rewrite Hc, ?closed_handlers).
Qed.

(** Nothing is left to write: the write half is shut down, then the linger
    timeout is set. *)
Definition shut (s s' : N) : Prop :=
  ready_at FLUSHING s' /\ exists w,
    (forall fd, outgoing w fd = outgoing (world (reactor s)) fd) /\
    let '(t, w') := sys_now (sys_shutdown (own_fd s) SHUT_WR w).2 in
    let '(timeouts, alarms) := SetTimeout (timeout_alarm self) t kShutdownTimeoutId (shutdown_linger_timeout (tcp_params_ (tcp s)))
                                 (timeouter_ (tcp s)) (timers_ (sel (reactor s))) in
    world (reactor s') = w' /\ tcp s' = set_timeouter timeouts (set_write_closed true (tcp s)) /\
    timers_ (sel (reactor s')) = alarms.

(** Closed, with an error for the application. *)
Definition broken {A} (m : M N A) (a : A) s : Prop :=
  exists status h s', Status.ok status = false /\ close_handler_ (handlers (connection (tcp s))) = Some h /\
    m s = (run_close h status CLOSE_READ_WRITE ;; ret a) s' /\
    tcp s' = closed status (tcp s) /\ detached s' /\ given_back s s'.

Lemma own_object x s : ready_at x s -> exists o, objects (reactor s) !! self = Some o /\ own_fd s = fd_of o.
Proof. intros Hs. destruct (rd_object _ _ Hs) as (o & Ho & _). exists o. unfold own_fd. by rewrite Ho. Qed.

Lemma given_back_same s s1 s2 x : ready_at x s -> ready_at x s1 -> own_fd s1 = own_fd s -> given_back s1 s2 -> given_back s s2.
Proof.
  intros Hs Hs1 Eq (o1 & w & Ho1 & Ew). destruct (own_object _ _ Hs) as (o & Ho & E). exists o, w. split; [done|].
  rewrite Ew. unfold own_fd in Eq. by rewrite Ho1, Ho in Eq; rewrite Eq.
Qed.

Lemma broken_by (m : M N bool) status s s1 : ready_at FLUSHING s -> ready_at FLUSHING s1 -> own_fd s1 = own_fd s -> tcp s1 = tcp s ->
  Status.ok status = false -> m s = (InternalClose this self status true ;; ret false) s1 -> broken m false s.
Proof.
  intros Hs Hs1 Eq Et Hok E. destruct (close_run status FLUSHING s1 Hs1 eq_refl) as (h & s2 & Hh & E2 & Hc & Hd & Hg).
  exists status, h, s2. rewrite Et in Hh, Hc. split_and!; [done|done| |done|done|by eapply (given_back_same s s1)].
  rewrite E. unfold bind. by rewrite E2.
Qed.

Lemma write_done_flush s : ready_at FLUSHING s ->
  (exists s', write_done (St := St) this self s = Ret true s' /\ shut s s') \/ broken (write_done (St := St) this self) false s.
Proof.
  intros Hs. destruct (update_same false kWantWrite FLUSHING s Hs eq_refl) as (st & s1 & E & Hs1 & Et & Ef & Eti & Eo).
  destruct (Status.ok st) eqn:Hok.
  2:{ right. apply (broken_by _ st s s1); [done..|]. unfold write_done. rewrite (bind_Ret _ _ _ _ _ E). unfold close_unless. by rewrite Hok. }
  assert (Erun : write_done (St := St) this self s = (fun s => write_done (St := St) this self s) s) by done.
  unfold write_done in Erun at 2. rewrite (bind_Ret _ _ _ _ _ E) in Erun. unfold close_unless at 1 in Erun. rewrite Hok in Erun. cbn [negb] in Erun.
  rewrite run_field, (rd_state _ _ Hs1), (bool_decide_true (FLUSHING = FLUSHING)) in Erun by done. cbn [negb] in Erun.
  destruct (rd_object _ _ Hs1) as (o & Ho & _). rewrite (run_GetFd _ _ Ho), run_sock in Erun. revert Erun.
  assert (Eo1 : own_fd s1 = fd_of o) by (unfold own_fd; by rewrite Ho). rewrite <- Eo1, Ef. set (s2 := MkNet _ _ _).
  assert (Hs2 : ready_at FLUSHING s2) by (apply quiet_ready; [done|apply quiet_shutdown]).
  assert (Ho2 : objects (reactor s2) !! self = Some o) by done. case_decide as Hr.
  - destruct (fail_errno_run (R := St) " - ::shutdown after flush failed for: " s2 o Ho2) as (st2 & Hst2 & E2).
    rewrite (bind_Ret _ _ _ _ _ E2). intros Erun. right. apply (broken_by _ _ s s2 Hs Hs2 Ef Et Hst2). exact Erun.
  - intros Erun. left. rewrite run_store, run_field in Erun. revert Erun. set (s3 := MkNet _ _ _).
    assert (Hs3 : ready_at FLUSHING s3) by (apply (store_ready FLUSHING s2); [done|exact (rd_state _ _ Hs2)|done..]).
    rewrite run_sock. set (s4 := MkNet (tcp s3) _ _).
    assert (Hs4 : ready_at FLUSHING s4) by (apply quiet_ready; [done|apply quiet_now]).
    rewrite run_on_timeouter. intros Erun. eexists. split; [exact Erun|]. split.
    + pose proof (on_timeouter_ready (SetTimeout (timeout_alarm self) (sys_now (world (reactor s3))).1 kShutdownTimeoutId
        (shutdown_linger_timeout (tcp_params_ (tcp s3)))) FLUSHING s4 Hs4) as (u & s5 & E5 & Hs5).
      { intros good Hg Hal. by apply SetTimeout_ok. }
      rewrite <- (bind_ret_r (on_timeouter _)), run_on_timeouter in E5. injection E5 as _ <-. exact Hs5.
    + exists (world (reactor s1)). split; [done|]. cbn. rewrite <- Et, <- Eti.
      destruct (sys_now _) as [t w']. by destruct (SetTimeout _ _ _ _ _ _).
Qed.

(** [bytes] of [outbuf] are written, and counted. *)
Record written (bytes : str) s s' : Prop := {
  wr_ready : ready_at FLUSHING s';
  wr_params : tcp_params_ (tcp s') = tcp_params_ (tcp s);
  wr_handlers : handlers (connection (tcp s')) = handlers (connection (tcp s));
  wr_timeouts : timeouter_ (tcp s') = timeouter_ (tcp s) /\ timers_ (sel (reactor s')) = timers_ (sel (reactor s));
  wr_fd : own_fd s' = own_fd s;
  wr_outbuf : cord_bytes (outbuf (tcp s')) = drop (length bytes) (cord_bytes (outbuf (tcp s)));
  wr_length : (length bytes <= length (cord_bytes (outbuf (tcp s))))%nat;
  wr_count : count_bytes_written_ (connection (tcp s')) = i64 (count_bytes_written_ (connection (tcp s)) + zlen bytes);
  wr_sent : outgoing (world (reactor s')) (own_fd s) = outgoing (world (reactor s)) (own_fd s) ++ bytes;
  wr_whole : whole_writes (own_fd s) -> bytes = take (length bytes) (cord_bytes (outbuf (tcp s)))
}.

Lemma flush_step ev s : ready_at FLUSHING s -> (forall n, write_limit (tcp_params_ (tcp s)) = Some n -> 1 <= n) ->
  exists bytes s', written bytes s s' /\ (cord_bytes (outbuf (tcp s)) <> [] -> bytes <> []) /\
    HandleWriteEvent this self ev s =
    (if decide (cord_bytes (outbuf (tcp s')) = []) then write_done (St := St) this self else ret true) s'.
Proof.
  intros Hs Hlim. unfold HandleWriteEvent, check_thread.
  rewrite bind_assoc, (bind_Ret _ _ _ _ _ (in_thread FLUSHING s Hs ltac:(done))), (bind_Ret (check _ _) _ s tt s) by done.
  rewrite run_field, (rd_state _ _ Hs), (bind_Ret (check _ _) _ s tt s) by done. rewrite decide_False by done.
  rewrite (bind_Ret (check _ _) _ s tt s) by done. destruct (rd_object _ _ Hs) as (o & Ho & _).
  rewrite (run_GetFd _ _ Ho), !run_field. unfold bind at 1, on_world, on_reactor.
  destruct (WriteCord_sends (fd_of o) (outbuf (tcp s)) _ (world (reactor s)) Hlim)
    as (r & w' & E & (bytes & -> & Hout & Hle & Hne & Hwh) & Hq). rewrite E. set (s1 := MkNet _ _ _).
  assert (Hs1 : ready_at FLUSHING s1) by by apply quiet_ready.
  rewrite (bind_Ret (check _ _) _ s1 tt s1) by (unfold check; rewrite cord_size_spec; by rewrite (proj2 (Z.leb_le _ _)) by lia).
  rewrite !run_store. set (s2 := MkNet _ _ _).
  assert (Hs2 : ready_at FLUSHING s2) by (apply (store_ready FLUSHING s1); [exact Hs1|exact (rd_state _ _ Hs1)|done..]).
  rewrite (bind_Ret _ _ _ _ _ (now_run _ s2 Hs2 ltac:(done))), run_store, run_field. set (s3 := MkNet _ _ _).
  assert (Hs3 : ready_at FLUSHING s3) by (apply (store_ready FLUSHING s2); [exact Hs2|exact (rd_state _ _ Hs2)|done..]).
  rewrite (rd_state _ _ Hs3), (bool_decide_true (FLUSHING = FLUSHING)) by done. cbn [negb].
  rewrite (bind_Ret (ret _) _ s3 _ s3 eq_refl). unfold close_unless. rewrite ok_OkStatus. cbn [negb].
  assert (Hb : cord_bytes (outbuf (tcp s3)) = drop (length bytes) (cord_bytes (outbuf (tcp s)))).
  { unfold s3, s2, outbuf. cbn. rewrite cord_RemovePrefix_spec by (pose proof (zlen_nonneg bytes); done). unfold zlen. by rewrite Nat2Z.id. }
  exists bytes, s3. split; [|split; [done|]].
  - assert (Efd : own_fd s = fd_of o) by (unfold own_fd; by rewrite Ho). split; rewrite ?Efd; try done. unfold zlen in Hle. lia.
  - rewrite run_field, cord_size_spec. destruct (decide (cord_bytes (outbuf (tcp s3)) = [])) as [Hnil|Hnil].
    + by rewrite Hnil, zlen_nil.
    + rewrite decide_True; [done|]. destruct (cord_bytes (outbuf (tcp s3))) as [|c l]; [done|]. rewrite zlen_cons. pose proof (zlen_nonneg l). lia.
Qed.

(** [n] events that the descriptor can be written. *)
Fixpoint write_events (ev : SelectorEventData ptr) (n : nat) : M N unit :=
  match n with
  | O => ret tt
  | S n => keep <- HandleWriteEvent this self ev ;; write_events ev n
  end.

Lemma i64_add a b : i64 (i64 a + b) = i64 (a + b).
Proof.
  unfold i64. f_equal.
  replace ((a + 2 ^ 63) mod 2 ^ 64 - 2 ^ 63 + b + 2 ^ 63) with ((a + 2 ^ 63) mod 2 ^ 64 + b) by lia.
  rewrite Z.add_mod_idemp_l by lia. f_equal. lia.
Qed.

Lemma written_trans b1 b2 s1 s2 s3 : written b1 s1 s2 -> written b2 s2 s3 -> written (b1 ++ b2) s1 s3.
Proof.
  intros [_ P1 H1' [T1 A1] F1 O1 L1 C1 S1 W1] [R2 P2 H2' [T2 A2] F2 O2 L2 C2 S2 W2]. rewrite F1 in *. rewrite O1 in L2, W2.
  rewrite length_drop in L2. split; try congruence.
  - split; congruence.
  - rewrite O2, O1, drop_drop, length_app. done.
  - rewrite length_app. lia.
  - rewrite C2, C1, i64_add, zlen_app. f_equal. lia.
  - by rewrite S2, S1, app_assoc.
  - intros Hwh. rewrite length_app, <- take_take_drop. f_equal; auto.
Qed.

Lemma flush_all ev len s : ready_at FLUSHING s -> (forall n, write_limit (tcp_params_ (tcp s)) = Some n -> 1 <= n) ->
  (length (cord_bytes (outbuf (tcp s))) <= len)%nat ->
  exists n bytes s', (n <= Nat.max 1 len)%nat /\ written bytes s s' /\ cord_bytes (outbuf (tcp s')) = [] /\
    write_events ev n s = (keep <- write_done (St := St) this self ;; ret tt) s'.
Proof.
  assert (Hlast : forall s bytes s', cord_bytes (outbuf (tcp s')) = [] ->
    HandleWriteEvent this self ev s = (if decide (cord_bytes (outbuf (tcp s')) = []) then write_done (St := St) this self else ret true) s' ->
    written bytes s s' -> exists n bytes s', (n <= 1)%nat /\ written bytes s s' /\ cord_bytes (outbuf (tcp s')) = [] /\
    write_events ev n s = (keep <- write_done (St := St) this self ;; ret tt) s').
  { intros t bytes s' Hnil E Hw. exists 1%nat, bytes, s'. split; [done|]. split; [done|]. split; [done|].
    cbn [write_events]. unfold bind. rewrite E, decide_True by done. done. }
  revert s. induction len as [|len IH]; intros s Hs Hlim Hlen; destruct (flush_step ev s Hs Hlim) as (bytes & s1 & Hw & Hne & E).
  - apply (Hlast s bytes s1); [|done..]. rewrite (wr_outbuf _ _ _ Hw). apply drop_ge. lia.
  - destruct (decide (cord_bytes (outbuf (tcp s1)) = [])) as [Hnil|Hnil].
    + destruct (Hlast s bytes s1 Hnil) as (n & b & s' & Hn & HR); [by rewrite decide_True|done|]. exists n, b, s'. split; [lia|done].
    + assert (Hb : bytes <> []).
      { apply Hne. intros Hnil0. apply Hnil. by rewrite (wr_outbuf _ _ _ Hw), Hnil0, drop_nil. }
      destruct (IH s1 (wr_ready _ _ _ Hw)) as (n & b2 & s2 & Hn & Hw2 & Hnil2 & E2).
      * by rewrite (wr_params _ _ _ Hw).
      * rewrite (wr_outbuf _ _ _ Hw), length_drop. destruct bytes; [done|]. simpl. lia.
      * exists (S n), (bytes ++ b2), s2. split; [destruct len; [|lia]|].
        { exfalso. apply Hnil. rewrite (wr_outbuf _ _ _ Hw). apply drop_ge. destruct bytes; [done|]. simpl. lia. }
        split; [by eapply written_trans|]. split; [done|]. cbn [write_events]. by rewrite (bind_Ret _ _ _ _ _ E).
Qed.

Definition with_timers (a : Alarms (Function Cb)) s : N :=
  MkNet (tcp s) (MkState (set_timers a (sel (reactor s))) (objects (reactor s)) (world (reactor s))) (resolver s).

(** The alarm [x] that closes the connection at [deadline] is among those of the
    selector, with the alarms [p] of others: taking the alarms that are due
    takes it at [deadline] or later, and does when it is alone; its function
    then closes the connection. *)
Definition lingers (p : gmap Z (Z * Function Cb)) (x deadline : Z) (alone : Prop) s : Prop :=
  let pending := <[x:=(deadline, timeout_alarm self kShutdownTimeoutId)]> p in
  alarms_for pending (timers_ (sel (reactor s))) /\
  forall now, exists run a', due_alarms now (timers_ (sel (reactor s))) = Some (run, a') /\
    contract pending (Fired now run) (foldr delete pending run.*1) /\
    ((x, timeout_alarm self kShutdownTimeoutId) ∈ run -> deadline <= now) /\
    (alone -> deadline <= now -> run = [(x, timeout_alarm self kShutdownTimeoutId)]) /\
    exists h s', close_handler_ (handlers (connection (tcp s))) = Some h /\
      RunTimeout (St := St) this self kShutdownTimeoutId (with_timers a' s) = run_close h OkStatus CLOSE_READ_WRITE s' /\
      state (tcp s') = DISCONNECTED /\ detached s' /\ given_back s s'.

Lemma timers_ready (a : Alarms (Function Cb)) x s : ready_at x s ->
  (forall good, alarms_ok good (timers_ (sel (reactor s))) -> alarms_ok good a) -> ready_at x (with_timers a s).
Proof.
  intros [Hx Hh Hlim Hl Ht Ho Hrest] Ha. split; try done. eapply framed; [exact Hrest|exact Hl|]. apply timers_touched. auto.
Qed.

Lemma RunTimeout_closes (x : Z) s : ready_at FLUSHING s -> timeouts_ (timeouter_ (tcp s)) !! kShutdownTimeoutId = Some x ->
  exists h s', close_handler_ (handlers (connection (tcp s))) = Some h /\
    RunTimeout (St := St) this self kShutdownTimeoutId s = run_close h OkStatus CLOSE_READ_WRITE s' /\
    state (tcp s') = DISCONNECTED /\ detached s' /\ given_back s s'.
Proof.
  intros Hs Et. unfold RunTimeout, ProcessTimeout. rewrite run_field, Et, run_store. set (s1 := MkNet _ _ _).
  assert (Hs1 : ready_at FLUSHING s1) by (apply (store_ready FLUSHING s); [exact Hs|exact (rd_state _ _ Hs)|done..]).
  destruct (close_run OkStatus FLUSHING s1 Hs1 eq_refl) as (h & s2 & Hh & E & Hc & Hd & Hg). exists h, s2.
  split; [done|]. split; [exact E|]. split; [by rewrite Hc|]. by split.
Qed.

Lemma shut_lingers p sm s : ready_at FLUSHING sm -> timeouter_ (tcp sm) = Timeouter_ctor -> alarms_for p (timers_ (sel (reactor sm))) ->
  alarm_id_ (timers_ (sel (reactor sm))) < 2 ^ 64 - 1 -> shut sm s ->
  exists w t, (forall fd, outgoing w fd = outgoing (world (reactor sm)) fd) /\
    sys_now (sys_shutdown (own_fd sm) SHUT_WR w).2 = (t, world (reactor s)) /\
    lingers p (alarm_id_ (timers_ (sel (reactor sm)))) (t + shutdown_linger_timeout (tcp_params_ (tcp sm)))
      (alarm_timeouts_ (timers_ (sel (reactor sm))) = []) s.
Proof.
  intros Hm Et Hp Hid (Hs & w & Ho & Hrun). exists w. destruct (sys_now _) as [t w']. exists t. split; [done|].
  rewrite Et in Hrun. set (a := timers_ (sel (reactor sm))) in *. set (f := timeout_alarm self kShutdownTimeoutId) in *.
  set (d := t + shutdown_linger_timeout (tcp_params_ (tcp sm))) in *.
  destruct (register_alarm f d a) as [x a2] eqn:Er. unfold SetTimeout, Timeouter_ctor in Hrun. cbn [timeouts_] in Hrun. rewrite lookup_empty in Hrun. cbv zeta in Hrun.
  fold f d in Hrun. rewrite Er in Hrun. destruct Hrun as (-> & Ets & Ea).
  pose proof (register_alarm_for f d p a Hp Hid) as HR. rewrite Er in HR. destruct HR as (_ & Ha2 & _).
  assert (x = alarm_id_ a) as -> by by injection Er. split; [done|]. unfold lingers. rewrite Ea. split; [done|]. intros now.
  destruct (due_alarms_for now _ a2 Ha2) as (run & a' & E & _ & Hc & _). exists run, a'. split; [done|]. split; [done|].
  split; [|split].
  - intros Hin. destruct Hc as (_ & Hin' & _). destruct (Hin' _ _ Hin) as (e & Hl & Hle). rewrite lookup_insert_eq in Hl. by injection Hl as ->.
  - intros Hnil Hle. destruct (push_heap_spec (alarm_timeouts_ a) (d, alarm_id_ a) (af_heap _ _ Hp)) as [_ Hperm].
    assert (Eh : alarm_timeouts_ a2 = [(d, alarm_id_ a)]).
    { injection Er as <-. simpl. rewrite Hnil in *. by apply Permutation_singleton_r in Hperm. }
    destruct (lone_alarm_due a2 _ (alarm_id_ a) d f now Ha2 Eh ltac:(apply lookup_insert_eq) Hle) as [a3 E3].
    rewrite E3 in E. by injection E as <- _.
  - assert (Hs' : ready_at FLUSHING (with_timers a' s)).
    { apply timers_ready; [done|]. intros good Hg. rewrite Ea in Hg. destruct (due_alarms_ok good now a2 Hg) as (r3 & a3 & E3 & Hok & _).
      rewrite E3 in E. by injection E as _ <-. }
    apply (RunTimeout_closes (alarm_id_ a) (with_timers a' s) Hs'). cbn. rewrite Ets. apply lookup_insert_eq.
Qed.

Lemma FlushAndClose_flush s : ready_at CONNECTED s -> write_closed_ (tcp s) = false ->
  exists u s', FlushAndClose (St := St) this self s = Ret u s' /\ ready_at FLUSHING s' /\
    tcp s' = on_connection (set_state FLUSHING) (tcp s) /\ same s s'.
Proof.
  intros Hs Hopen. unfold FlushAndClose, CloseCommunication. rewrite (bind_Ret _ _ _ _ _ (in_thread _ s Hs ltac:(done))). cbn [negb].
  pose proof (rd_object _ _ Hs) as (o & Ho & Hat & _).
  rewrite (run_GetFd _ _ Ho), run_field. rewrite decide_False by done.
  rewrite (bind_Ret _ _ _ _ _ (in_thread _ s Hs ltac:(done))). cbn [negb]. rewrite run_field, (rd_state _ _ Hs), Hopen.
  rewrite (bool_decide_true (CLOSE_WRITE = CLOSE_WRITE)), (bool_decide_true (CONNECTED = CONNECTED)) by done. cbn [orb negb andb].
  rewrite run_store. set (s1 := MkNet _ _ _). assert (Hs1 : ready_at FLUSHING s1) by by destruct Hs.
  destruct (update_same true kWantWrite FLUSHING s1 Hs1 eq_refl) as (st & s2 & E & Hs2 & Et & Hsame).
  exists tt, s2. by rewrite (bind_Ret _ _ _ _ _ E).
Qed.

(** C21: flushing completes, or the application is told why not.  With a kernel
    that takes at least a byte of what is offered, [FlushAndClose] on a
    connected connection and then at most as many write events as there are
    bytes to write (one if there are none) take the buffer off, count its bytes
    and send as many: the very bytes, when the kernel takes whole writes.  Then
    [::shutdown(fd, SHUT_WR)] is called, and then the linger alarm is among the
    alarms of the selector; it is not taken before its deadline, and when it is
    the only alarm it is taken at the deadline; its function closes the
    connection, gives its descriptor back, and calls the close handler with an
    OK status.  When the event loop does not take the update, or [::shutdown]
    fails, the connection is closed, its descriptor given back, and the close
    handler called with the error. *)
Theorem flush_and_close_completes ev s p (Hs : ready_at CONNECTED s) (Hopen : write_closed_ (tcp s) = false)
    (Ht : timeouter_ (tcp s) = Timeouter_ctor) (Hlim : forall n, write_limit (tcp_params_ (tcp s)) = Some n -> 1 <= n)
    (Hp : alarms_for p (timers_ (sel (reactor s)))) (Hid : alarm_id_ (timers_ (sel (reactor s))) < 2 ^ 64 - 1) :
  let out := cord_bytes (outbuf (tcp s)) in
  exists n bytes u s1 sm, (n <= Nat.max 1 (length out))%nat /\ FlushAndClose (St := St) this self s = Ret u s1 /\
    write_events ev n s1 = (keep <- write_done (St := St) this self ;; ret tt) sm /\
    cord_bytes (outbuf (tcp sm)) = [] /\
    count_bytes_written_ (connection (tcp sm)) = i64 (count_bytes_written_ (connection (tcp s)) + zlen out) /\
    outgoing (world (reactor sm)) (own_fd s) = outgoing (world (reactor s)) (own_fd s) ++ bytes /\
    zlen bytes = zlen out /\ (whole_writes (own_fd s) -> bytes = out) /\
    own_fd sm = own_fd s /\ handlers (connection (tcp sm)) = handlers (connection (tcp s)) /\
    (broken (write_done (St := St) this self) false sm \/
     exists s2 w t, write_done (St := St) this self sm = Ret true s2 /\ ready_at FLUSHING s2 /\ write_closed_ (tcp s2) = true /\
       (forall fd, outgoing w fd = outgoing (world (reactor sm)) fd) /\
       sys_now (sys_shutdown (own_fd s) SHUT_WR w).2 = (t, world (reactor s2)) /\
       lingers p (alarm_id_ (timers_ (sel (reactor s)))) (t + shutdown_linger_timeout (tcp_params_ (tcp s)))
         (alarm_timeouts_ (timers_ (sel (reactor s))) = []) s2).
Proof.
  intros out. destruct (FlushAndClose_flush s Hs Hopen) as (u & s1 & E & Hs1 & Etcp & Efd & Eti & Eout1).
  assert (Eout : cord_bytes (outbuf (tcp s1)) = out) by by rewrite Etcp.
  destruct (flush_all ev (length out) s1 Hs1) as (n & bytes & sm & Hn & Hw & Hnil & E2); [by rewrite Etcp|by rewrite Eout|].
  destruct Hw as [Hm Hpar Hh [Hto Hti] Hfd Hout Hlen Hcnt Hsent Hwhole]. rewrite Eout in *. rewrite Hnil in Hout.
  assert (Elen : length bytes = length out).
  { apply (f_equal length) in Hout. rewrite length_drop in Hout. simpl in Hout. lia. }
  rewrite Efd, Elen, firstn_all in *. rewrite Etcp in Hpar, Hh, Hto, Hcnt. cbn in Hpar, Hh, Hto, Hcnt. rewrite Eti in Hti.
  exists n, bytes, u, s1, sm. split_and!; [done..|by rewrite Hcnt; unfold zlen; rewrite Elen|by rewrite Hsent, Eout1|by unfold zlen; rewrite Elen|auto|done|done|].
  destruct (write_done_flush sm Hm) as [(s2 & E3 & Hshut)|Hb]; [right|by left].
  destruct (shut_lingers p sm s2 Hm) as (w & t & Hw & Ew & Hl); [by rewrite Hto|by rewrite Hti|by rewrite Hti|done|].
  rewrite Hti, Hpar in Hl. rewrite Hfd in Ew. exists s2, w, t. split; [done|]. destruct Hshut as (Hs2 & w2 & _ & Hr). split; [done|].
  split; [|done]. destruct (sys_now _) as [t2 w3], (SetTimeout _ _ _ _ _ _). destruct Hr as (_ & -> & _). done.
Qed.

(** C25: closing a connection in use unregisters it, shuts its descriptor down
    and closes it once, clears the buffers and the timeouts, marks both halves
    closed, keeps the first error, and only then calls the close handler, once,
    with the status given; while a host name is resolved it only notes that a
    close is wanted; a closed connection stays as it is. *)
Theorem internal_close_spec status call x s (Hs : ready_at x s) :
  match x with
  | DISCONNECTED => InternalClose this self status call s = Ret tt s
  | RESOLVING =>
      InternalClose this self status call s =
      Ret tt (MkNet (set_close_on_resolve (Some call) (on_connection (set_last_error status) (tcp s)))
                (reactor s) (resolver s))
  | _ =>
      exists h s1, close_handler_ (handlers (connection (tcp s))) = Some h /\
        InternalClose this self status call s = (if call then run_close h status CLOSE_READ_WRITE else ret tt) s1 /\
        tcp s1 = closed status (tcp s) /\ resolver s1 = resolver s /\ detached s1 /\ given_back s s1 /\
        (forall status' call', InternalClose this self status' call' s1 = Ret tt s1)
  end.
Proof.
  destruct (active x) eqn:Hx.
  - destruct (InternalClose_run status call x s Hs Hx) as (s1 & E & Hc & Hr & Hd & Hg & _).
    destruct (rd_handler _ _ Hs) as [h Hh].
    assert (Hh1 : close_handler_ (handlers (connection (tcp s1))) = Some h) by (rewrite Hc, closed_handlers; done).
    assert (Hgoal : exists h0 s0, close_handler_ (handlers (connection (tcp s))) = Some h0 /\
        InternalClose this self status call s = (if call then run_close h0 status CLOSE_READ_WRITE else ret tt) s0 /\
        tcp s0 = closed status (tcp s) /\ resolver s0 = resolver s /\ detached s0 /\ given_back s s0 /\
        (forall status' call', InternalClose this self status' call' s0 = Ret tt s0)).
    { exists h, s1. split_and!; [done| |done..|].
      - rewrite E. destruct call; [|done]. by rewrite (CallCloseHandler_run h) by (done || by rewrite Hc).
      - intros status' call'. apply (closed_already DISCONNECTED); [|done]. by eapply detached_ready. }
    by destruct x.
  - destruct x; try done; [by apply (closed_already DISCONNECTED)|by apply internal_close_resolving].
Qed.

Lemma RunTimeout_ready id x s : ready_at x s ->
  returns (RunTimeout (St := St) this self id) s (fun _ s' => ready (fun _ => True) s').
Proof.
  intros Hs. unfold RunTimeout, returns. rewrite run_field. destruct (ProcessTimeout id _) as [erased t]. rewrite run_store.
  set (s1 := MkNet _ _ _).
  assert (Hs1 : ready_at x s1) by (apply (store_ready x s); [exact Hs|exact (rd_state _ _ Hs)|done..]).
  destruct erased; [by eapply InternalClose_ready|]. apply returns_ret. by exists x.
Qed.

(** C4: a connection with a socket in use and a close handler survives every
    event, every timeout, and every call that closes it, provided that the
    functions of the application return, and that its write handler, should it
    close the connection, answers with an error ([WellBehaved]): no [CHECK] of
    the handlers fails, no null selector is used, and the connection is well
    formed again - it has a descriptor exactly while it is connecting,
    connected or flushing, and the selector has it registered, and its event
    loop watches that descriptor, exactly then.  A write handler that closes
    its connection and answers OK is excluded: [closing_writer_stops] shows
    that the code does not survive it. *)
Theorem connection_events_safe ev status id x s (Hs : ready_at x s) (Hx : active x = true) :
  let safe {A} (m : M N A) := returns m s (fun _ s' => ready (fun _ => True) s') in
  safe (HandleReadEvent this self ev) /\ safe (HandleWriteEvent this self ev) /\
  safe (HandleErrorEvent (St := St) this self ev) /\ safe (InternalClose this self status true) /\
  safe (ForceClose (St := St) this self) /\ safe (Close (St := St) this self) /\
  safe (RunTimeout (St := St) this self id) /\ safe (FlushAndClose (St := St) this self).
Proof.
  intros safe. unfold safe, Close.
  split_and!; [by eapply HandleReadEvent_ready|by eapply HandleWriteEvent_ready|by eapply HandleErrorEvent_ready|
               by eapply InternalClose_ready| |by eapply InternalClose_ready|by eapply RunTimeout_ready|].
  - unfold ForceClose, returns. rewrite (bind_Ret _ _ _ _ _ (in_thread x s Hs ltac:(by destruct x))).
    by eapply InternalClose_ready.
  - eapply returns_mono; [by eapply FlushAndClose_ready|]. intros u s' Hs'. case_decide; destruct Hs' as [Hs' _]; by eexists.
Qed.
End Ready.

(** Nothing required of the rest. *)
Definition no_rest {L Cb W} (_ : State L Cb W) : Prop := True.
#[export] Instance no_rest_framed {L Cb W St} `{!HeapApi} `{!HeapLaws} `{!Tasks Cb} `{!Absl St} `{!EventLoop L W St} `{!EventLoopLaws L W St} `{!Memory W} self :
  Framed (L := L) (Cb := Cb) (W := W) self no_rest.
Proof. by intros r r'. Qed.

(** ** Witnesses *)
Section Witnesses.
Import RefAbsl RefCord RefInet SortedHeap SimNet.

#[local] Instance net_behaved : WellBehaved (H := unit) (St := rstatus) (L := loop) (W := kernel) (Cord := cord) 9 100 no_rest.
Proof.
  split; intros; apply returns_ret; eexists; (split; [|eassumption]); auto.
Qed.

Lemma net_ready x room out inp : active x = true -> ready_at 9 100 no_rest x (net_state x room out inp).
Proof.
  intros Hx. split; [done|by eexists|done|by eexists|done| |done]. exists net_object. split; [done|].
  unfold attached. rewrite Hx. split_and!; [done|done|set_solver|by eexists].
Qed.

(** The peer hung up, without more data: the connection is closed. *)
Lemma connection_events_safe_witness :
  let s := net_state CONNECTED [] "out" "in" in
  returns (HandleErrorEvent 9 100 (MkEvent 100 kWantError EPOLLHUP)) s (fun keep s' =>
    keep = false /\ ready 9 100 no_rest (fun x => x = DISCONNECTED) s').
Proof.
  intros s.
  destruct (connection_events_safe 9 100 ltac:(done) no_rest (MkEvent 100 kWantError EPOLLHUP) OkStatus 0 CONNECTED s
              (net_ready CONNECTED _ _ _ eq_refl) eq_refl) as (_ & _ & (keep & s' & E & x & _ & Hs) & _).
  exists keep, s'. split; [exact E|].
  assert (Hx : x = DISCONNECTED) by (rewrite <- (rd_state _ _ _ _ _ Hs); vm_compute in E; by injection E as _ <-).
  vm_compute in E. injection E as <- _. split; [done|]. by exists x.
Defined.

(** A connection with a message to write is closed by force. *)
Lemma internal_close_spec_witness :
  let s := net_state CONNECTED [] "out" "in" in
  exists h s1, close_handler_ (handlers (connection (tcp s))) = Some h /\
    InternalClose 9 100 OkStatus true s = run_close h OkStatus CLOSE_READ_WRITE s1 /\
    state (tcp s1) = DISCONNECTED /\ timeouter_ (tcp s1) = Timeouter_ctor /\
    objects (reactor s1) !! 100 = Some (MkObject (MkSelectable 0 5) (-1)).
Proof.
  intros s.
  destruct (internal_close_spec 9 100 ltac:(done) no_rest OkStatus true CONNECTED s (net_ready CONNECTED _ _ _ eq_refl))
    as (h & s1 & Hh & E & Ht & _ & [_ _ (o & Ho & Hfd & Hsel & _) _] & _).
  exists h, s1. split; [done|]. split; [exact E|]. rewrite Ht. split; [done|]. split; [done|].
  vm_compute in E. injection E as <-. vm_compute. done.
Defined.

Lemma net_idle : idle 9 100 no_rest DISCONNECTED net_fresh.
Proof.
  split; [by left| |by eexists|done]. split; [done|by eexists|done|by eexists|done| |done].
  eexists. split; [reflexivity|]. unfold attached. simpl. split_and!; [done|set_solver|done].
Qed.

(** A connection to 127.0.0.1:80 is refused, and a close is noted for one to
    a host by name. *)
Lemma connect_never_connects_witness :
  let literal := MkHostPort None (Some kIPv4Localhost) (Some 80) None in
  let name := MkHostPort (Some ("host" : str)) None (Some 80) None in
  (exists st s', Connect 9 100 literal net_fresh = Ret st s' /\ Status.ok st = false /\ tcp s' = tcp net_fresh) /\
  (exists st s', Connect 9 100 name net_fresh = Ret st s' /\ Status.ok st = true /\ state (tcp s') = RESOLVING /\
     is_Some (close_on_resolve_ (tcp s'))).
Proof.
  intros literal name. split.
  - destruct (connect_never_connects 9 100 ltac:(done) no_rest DISCONNECTED net_fresh literal net_idle) as [(st & s' & E & HQ) _].
    assert (Hr : resolves DISCONNECTED literal = false) by reflexivity. rewrite Hr in HQ. destruct HQ as (Hok & _ & Ht). eauto 8.
  - destruct (connect_never_connects 9 100 ltac:(done) no_rest DISCONNECTED net_fresh name net_idle) as [(st & s' & E & HQ) _].
    assert (Hr : resolves DISCONNECTED name = true) by reflexivity. rewrite Hr in HQ. destruct HQ as (Hok & Hs' & _ & Hc).
    exists st, s'. split; [exact E|]. split; [done|]. split; [apply (rd_state _ _ _ _ _ (id_ready _ _ _ _ _ Hs'))|].
    by eapply Hc.
Defined.

(** What is left of a closed connection: the selector is unset, so a close
    without a handler, and the calls that ask the selector for its thread, use
    a null pointer. *)
Definition stops {A} (m : M net A) (s : net) : bool := match m s with Ret _ _ => false | _ => true end.
Definition no_close_handler (s : net) : net :=
  MkNet (on_connection (set_close_handler None) (tcp s)) (reactor s) (resolver s).

Lemma closed_connection_stops :
  let closed_net := match InternalClose 9 100 OkStatus true (net_state CONNECTED [] "" "") with Ret _ s => s | _ => net_fresh end in
  state (tcp closed_net) = DISCONNECTED /\
  stops (ForceClose (St := rstatus) 9 100) closed_net = true /\
  stops (FlushAndClose (St := rstatus) 9 100) closed_net = true /\
  stops (Connection.Write (St := rstatus) 9 100 "a") closed_net = true /\
  stops (InternalClose 9 100 OkStatus true) (no_close_handler (net_state CONNECTED [] "" "")) = true.
Proof. vm_compute. done. Qed.

(** While a name is resolved only [FlushAndClose] stops; [ForceClose] is noted. *)
Lemma resolving_flush_stops :
  let resolving := match Connect (St := rstatus) 9 100 (MkHostPort (Some ("host" : str)) None (Some 80) None) net_fresh
                   with Ret _ s => s | _ => net_fresh end in
  state (tcp resolving) = RESOLVING /\
  stops (FlushAndClose (St := rstatus) 9 100) resolving = true /\ stops (ForceClose (St := rstatus) 9 100) resolving = false.
Proof. vm_compute. done. Qed.
End Witnesses.

(** A kernel that takes a byte at a time. *)
Section Slow.
Import RefAbsl RefCord RefInet SortedHeap SlowNet.

#[local] Instance slow_cooperative : Cooperative (L := loop) (W := kernel) (St := rstatus).
Proof.
  split.
  - intros fd data w Hd. simpl. unfold send. simpl. destruct data as [|c data]; [done|].
    unfold zlen. rewrite Nat2Z.id, firstn_all. simpl. by destruct data.
  - intros fd ud d s s' st f E. by injection E as _ <-.
Qed.

#[local] Instance slow_behaved : WellBehaved (H := unit) (St := rstatus) (L := loop) (W := kernel) (Cord := cord) 9 100 no_rest.
Proof.
  split; intros; apply returns_ret; eexists; (split; [|eassumption]); auto.
Qed.

Lemma slow_ready : ready_at 9 100 no_rest CONNECTED (net_state CONNECTED [] "out" "").
Proof.
  split; [done|by eexists|done|by eexists|done| |done]. exists net_object. split; [done|].
  split_and!; [done|done|set_solver|by eexists].
Qed.

(** Three bytes take at most three events; the linger alarm is taken 5 seconds
    later. *)
Lemma flush_and_close_completes_witness :
  let s := net_state CONNECTED [] "out" "" in
  exists n bytes u s1 sm, (n <= 3)%nat /\ FlushAndClose (St := rstatus) 9 100 s = Ret u s1 /\
    write_events 9 100 (MkEvent 100 kWantWrite EPOLLOUT) n s1 = (keep <- write_done (St := rstatus) 9 100 ;; ret tt) sm /\
    count_bytes_written_ (connection (tcp sm)) = 3 /\ outgoing (world (reactor sm)) 7 = bytes /\ length bytes = 3%nat /\
    (broken 100 no_rest (write_done (St := rstatus) 9 100) false sm \/
     exists s2 run a', write_done (St := rstatus) 9 100 sm = Ret true s2 /\
       due_alarms (1000 + 5000000000) (timers_ (sel (reactor s2))) = Some (run, a') /\
       run = [(0, timeout_alarm 100 kShutdownTimeoutId)]).
Proof.
  intros s.
  destruct (flush_and_close_completes 9 100 ltac:(done) no_rest (MkEvent 100 kWantWrite EPOLLOUT) s ∅ slow_ready eq_refl eq_refl
              ltac:(done) no_alarms_for ltac:(reflexivity))
    as (n & bytes & u & s1 & sm & Hn & E1 & E2 & _ & Hc & Ho & Hlen & _ & _ & _ & Hend).
  exists n, bytes, u, s1, sm. split; [exact Hn|]. split; [exact E1|]. split; [exact E2|].
  split; [rewrite Hc; reflexivity|]. split; [exact Ho|]. split; [unfold zlen in Hlen; apply Nat2Z.inj in Hlen; exact Hlen|].
  destruct Hend as [Hb|(s2 & w & t & E3 & _ & _ & _ & Et & _ & Hl)]; [left|right].
  - destruct Hb as (st & h & s3 & ? & ? & ? & ? & ? & ?). by exists st, h, s3.
  - injection Et as <- _. destruct (Hl (1000 + 5000000000)) as (run & a' & Ed & _ & _ & Hrun & _).
    exists s2, run, a'. split; [exact E3|]. split; [exact Ed|]. apply Hrun; [done|reflexivity].
Defined.
End Slow.

(** A write handler that closes its connection and answers OK: the selector of
    the connection is a null pointer when [HandleWriteEvent] goes on. *)
Section ClosingWriter.
Import RefAbsl RefCord RefInet SortedHeap SimNet.

#[local] Instance closing_writer : Application net unit rstatus := {
  run_connect _ := ret tt;
  run_read _ := ret OkStatus;
  run_write _ := InternalClose (Application0 := net_application) 9 100 OkStatus true ;; ret OkStatus;
  run_close _ _ _ := ret tt
}.

Lemma closing_writer_stops :
  HandleWriteEvent (Application0 := closing_writer) 9 100 (MkEvent 100 kWantWrite EPOLLOUT) (net_state CONNECTED [] "out" "") =
  Fatal "null pointer".
Proof. vm_compute. done. Qed.
End ClosingWriter.
