(* ===== verification/Server.v ===== *)
(** * Connections in a selector
    ([whisperlib/net/selector.cc] with [whisperlib/net/connection.h])

    Selector.v calls the virtual functions of its objects, the functions queued
    and the alarms through the class [Program].  Here the objects are
    [TcpConnection]s: they live in the memory of the process, at the addresses
    the selector knows, and the calls are those of Connection.v.  A method runs
    on a connection taken out of memory, and puts it back when it returns. *)

From S2P Require Import Prelude Status Errno CordIo Posix Address SelectorLoop Selectable Selector.
From S2P Require Import Timeouter Dns Socket Connection.

(** ** The world with the memory of the process *)

(** The kernel, the connections by address, and the default resolver. *)
Record Served (W St Cord H : Type) := MkServed {
  kernel_of : W;
  conns : gmap ptr (TcpConnection St Cord H);
  dns : DnsResolver (St := St) (Fn := ptr)
}.
Arguments MkServed {_ _ _ _} _ _ _.
Arguments kernel_of {_ _ _ _} _.
Arguments conns {_ _ _ _} _.
Arguments dns {_ _ _ _} _.

Section World.
Context {W St Cord H : Type}.
Abbreviation SW := (Served W St Cord H).

(** A system call. *)
Definition lift {A} (f : W -> A * W) (w : SW) : A * SW :=
  let '(a, k) := f (kernel_of w) in (a, MkServed k (conns w) (dns w)).

#[export] Instance served_errno `{!HasErrno W} : HasErrno SW := fun w => sys_errno (kernel_of w).

#[export] Instance served_file `{!PosixFile W} : PosixFile SW := {
  sys_open name flags mode := lift (sys_open name flags mode);
  sys_close fd := lift (sys_close fd);
  sys_fstat fd := lift (sys_fstat fd);
  sys_lseek fd off whence := lift (sys_lseek fd off whence);
  sys_ftruncate fd n := lift (sys_ftruncate fd n);
  sys_read fd n := lift (sys_read fd n);
  sys_write fd data n := lift (sys_write fd data n);
  sys_writev fd iov n := lift (sys_writev fd iov n);
  sys_fdatasync fd := lift (sys_fdatasync fd)
}.

#[export] Instance served_sys `{!SelectorSys W} : SelectorSys SW := {
  sys_pipe := lift sys_pipe;
  sys_eventfd := lift sys_eventfd;
  sys_getfl fd := lift (sys_getfl fd);
  sys_setfl fd flags := lift (sys_setfl fd flags);
  sys_now := lift sys_now;
  pthread_self w := pthread_self (kernel_of w)
}.

#[export] Instance served_sockets `{!Sockets W} : Sockets SW := {
  sys_socket family := lift (sys_socket family);
  sys_bind fd addr len := lift (sys_bind fd addr len);
  sys_connect fd addr len := lift (sys_connect fd addr len);
  sys_listen fd backlog := lift (sys_listen fd backlog);
  sys_accept fd := lift (sys_accept fd);
  sys_shutdown fd how := lift (sys_shutdown fd how);
  sys_so_error fd := lift (sys_so_error fd);
  sys_setsockopt fd level option value := lift (sys_setsockopt fd level option value);
  sys_getsockname fd := lift (sys_getsockname fd);
  sys_getpeername fd := lift (sys_getpeername fd);
  sys_fionread fd := lift (sys_fionread fd)
}.

#[export] Instance served_stream `{!Stream W} : Stream SW := {
  outgoing w := outgoing (kernel_of w);
  incoming w := incoming (kernel_of w)
}.

#[export] Instance served_memory : Memory SW := { Mem := _; memory w := (conns w, dns w) }.

(** A call on the event loop. *)
Definition lift_loop {L A} (m : M (L * W) A) : M (L * SW) A :=
  fun s => match m (s.1, kernel_of s.2) with
           | Ret a (l, k) => Ret a (l, MkServed k (conns s.2) (dns s.2))
           | Fatal why => Fatal why
           end.

#[export] Instance served_loop {L} `{!EventLoop L W St} : EventLoop L SW St := {
  loop_Add fd ud d := lift_loop (loop_Add fd ud d);
  loop_Update fd ud d := lift_loop (loop_Update fd ud d);
  loop_Delete fd := lift_loop (loop_Delete fd);
  loop_LoopStep timeout := lift_loop (loop_LoopStep timeout)
}.
End World.

(** ** The program *)

(** What is queued in the selector: a task of a connection, or a function of
    the application. *)
Inductive Job (U : Type) :=
| ConnectionTask (p : ptr) (t : Task)
| UserJob (u : U).
Arguments ConnectionTask {_} _ _.
Arguments UserJob {_} _.

#[export] Instance job_tasks {U} : Tasks (Job U) := ConnectionTask.

(** The functions of the application, on the whole state. *)
Class UserProgram (S U : Type) := run_job : U -> M S unit.

Section Program.
Context {L W St Cord H U : Type}.
Context `{!HasErrno W} `{!PosixFile W} `{!SelectorSys W} `{!Sockets W} `{!HeapApi}.
Context `{!BigEndian} `{!Inet} `{!TimeFormat} `{!Uninitialized} `{!CordApi Cord} `{!CordEdit Cord} `{!Absl St} `{!Strerror}.
Context `{!EventLoop L W St}.
Abbreviation SW := (Served W St Cord H).
Abbreviation S := (State L (Job U) SW).
Abbreviation N := (Net L (Job U) SW St Cord H).
Context `{!Application N H St} `{!UserProgram S U}.
(** The address of the selector, and what a resolution that has ended has left
    in memory. *)
Context (this : ptr) (info : StatusOr St DnsHostInfo).

Definition set_conns (f : gmap ptr (TcpConnection St Cord H) -> gmap ptr (TcpConnection St Cord H)) (s : S) : S :=
  MkState (sel s) (objects s) (MkServed (kernel_of (world s)) (f (conns (world s))) (dns (world s))).
Definition set_dns (d : DnsResolver) (s : S) : S :=
  MkState (sel s) (objects s) (MkServed (kernel_of (world s)) (conns (world s)) d).

(** The connection at [p], taken out of memory, and put back. *)
Definition taken (p : ptr) (c : TcpConnection St Cord H) (d : DnsResolver) (s : S) : N :=
  MkNet c (set_conns (delete p) s) d.
Definition put_back (p : ptr) (n : N) : S := set_conns <[p:=tcp n]> (reactor n).

(** A method of the connection at [p]. *)
Definition lend {A} (p : ptr) (m : M N A) : M S A :=
  fun s => match conns (world s) !! p with
           | None => Fatal "invalid pointer"
           | Some c => match m (taken p c (dns (world s)) s) with
                       | Ret a n => Ret a (set_dns (resolver n) (put_back p n))
                       | Fatal why => Fatal why
                       end
           end.

(** A method of the connection at [q], called by the application from one of
    the functions that another connection calls. *)
Definition visit {A} (q : ptr) (m : M N A) : M N A :=
  fun n => match conns (world (reactor n)) !! q with
           | None => Fatal "invalid pointer"
           | Some c => match m (taken q c (resolver n) (reactor n)) with
                       | Ret a n' => Ret a (MkNet (tcp n) (put_back q n') (resolver n'))
                       | Fatal why => Fatal why
                       end
           end.

Definition run (job : Job U) : M S unit :=
  match job with
  | ConnectionTask p t => lend p (run_task (St := St) this p t info)
  | UserJob u => run_job u
  end.

(** The virtual functions of the objects of the selector. *)
#[local] Instance server_program : Program S (Job U) := {
  run_user := run;
  HandleReadEvent p ev := lend p (Connection.HandleReadEvent (St := St) this p ev);
  HandleWriteEvent p ev := lend p (Connection.HandleWriteEvent (St := St) this p ev);
  HandleErrorEvent p ev := lend p (Connection.HandleErrorEvent (St := St) this p ev);
  Selectable_Close p := lend p (Connection.Close (St := St) this p)
}.
End Program.
