(* ===== verification/ServerSpec.v ===== *)
(** * A selector that serves connections never stops (Server.v)

    However many connections a selector has, and whatever events are reported
    for them, an iteration of its loop returns and keeps every one of them well
    formed, and the end of the loop closes them all. *)

From S2P Require Import Prelude Status Errno CordIo Posix Address SelectorLoop Selectable Selector.
From S2P Require Import Timeouter Dns Socket Connection ConnectionSpec Server SimNet.

(** ** The laws of the world with memory *)

(** What a step of the event loop reports: user data that is registered; or an
    error. *)
Class LoopReports (L W St : Type) `{!Absl St} `{!EventLoop L W St} `{!EventLoopLaws L W St} `{!SelectorSys W}
    `{!Memory W} : Prop :=
  LoopStep_law timeout (s : L * W) : loop_ok s ->
    returns (loop_LoopStep (St := St) timeout) s (fun r s' =>
      loop_ok s' /\ loop_registry s' = loop_registry s /\
      pthread_self s'.2 = pthread_self s.2 /\ memory s'.2 = memory s.2 /\
      match r with
      | Value events => forall e, e ∈ events -> exists fd bits, loop_registry s !! fd = Some (bits, user_data e)
      | Error st => Status.ok st = false
      end).

Section Laws.
Context {L W St Cord H : Type} `{!PosixFile W} `{!SelectorSys W} `{!Sockets W} `{!Absl St} `{!EventLoop L W St}.
Context `{HE : !EventLoopLaws L W St} `{HS : !SocketLaws L W St} `{!Stream W} `{HW : !StreamLaws W}.
Abbreviation SW := (Served W St Cord H).

#[export, refine] Instance served_loop_laws : EventLoopLaws L SW St := {
  loop_ok s := loop_ok (s.1, kernel_of s.2);
  loop_registry s := loop_registry (s.1, kernel_of s.2);
  events_of := events_of
}.
Proof.
  - intros fd ud d s Hok Hfree. destruct (Add_law fd ud d (s.1, kernel_of s.2) Hok Hfree) as (st & [l k] & E & Hc).
    unfold returns. cbn. unfold lift_loop. rewrite E. by eexists _, _.
  - intros fd ud d s Hok Hsome. destruct (Update_law fd ud d (s.1, kernel_of s.2) Hok Hsome) as (st & [l k] & E & Hc).
    unfold returns. cbn. unfold lift_loop. rewrite E. by eexists _, _.
  - intros fd s Hok. destruct (Delete_law fd (s.1, kernel_of s.2) Hok) as (st & [l k] & E & Hc).
    unfold returns. cbn. unfold lift_loop. rewrite E. by eexists _, _.
Defined.

Lemma lift_quiet {A} (f : W -> A * W) (w : SW) :
  (forall k, quiet (L := L) k (f k).2) -> quiet (L := L) w (lift f w).2.
Proof.
  intros Hf. specialize (Hf (kernel_of w)). unfold lift. destruct (f (kernel_of w)) as [a k].
  destruct Hf as [[Hp _] Hq]. by split.
Qed.

Lemma lift_loop_thread {A} (m : M (L * W) A) (s s' : L * SW) a :
  (forall t t' b, m t = Ret b t' -> pthread_self t'.2 = pthread_self t.2) ->
  lift_loop m s = Ret a s' -> pthread_self s'.2 = pthread_self s.2 /\ memory s'.2 = memory s.2.
Proof.
  intros Hm. unfold lift_loop. destruct (m (s.1, kernel_of s.2)) as [b [l k]|] eqn:E; intros E'; simplify_eq.
  by apply Hm in E.
Qed.

#[export] Instance served_socket_laws : SocketLaws L SW St.
Proof.
  split; intros; try (by apply lift_quiet; intros; (apply quiet_socket || apply quiet_connect || apply quiet_shutdown ||
    apply quiet_so_error || apply quiet_setsockopt || apply quiet_getsockname || apply quiet_getpeername ||
    apply quiet_fionread || apply quiet_getfl || apply quiet_setfl || apply quiet_now || apply quiet_read || apply quiet_write)).
  - pose proof (quiet_close (L := L) (St := St) fd (kernel_of w)) as [[Hp _] Hq]. cbn. unfold lift.
    destruct (sys_close fd (kernel_of w)) as [a k]. split; [by split|exact Hq].
  - match goal with E : _ = Ret _ _ |- _ => apply (lift_loop_thread (loop_Add fd ud d)) in E; [exact E|] end.
    intros t t' b E. apply Add_thread in E. apply E.
  - match goal with E : _ = Ret _ _ |- _ => apply (lift_loop_thread (loop_Update fd ud d)) in E; [exact E|] end.
    intros t t' b E. apply Update_thread in E. apply E.
  - match goal with E : _ = Ret _ _ |- _ => apply (lift_loop_thread (loop_Delete fd)) in E; [exact E|] end.
    intros t t' b E. apply Delete_thread in E. apply E.
Qed.

#[export] Instance served_stream_laws : StreamLaws SW.
Proof.
  split.
  - intros fd data w. pose proof (stream_write fd data (kernel_of w)) as Hs. cbn. unfold lift. by destruct (sys_write _ _ _ _).
  - intros fd n w Hn. pose proof (stream_read fd n (kernel_of w) Hn) as Hs. cbn. unfold lift.
    by destruct (sys_read _ _ _) as [[r data] k].
  - intros fd iov w. pose proof (stream_writev fd iov (kernel_of w)) as Hs. cbn. unfold lift. by destruct (sys_writev _ _ _ _).
Qed.

#[export, refine] Instance served_signals `{HG : !SignalLaws W} : SignalLaws SW :=
  { readable w := readable (kernel_of w); capacity := capacity }.
Proof.
  - intros w. apply readable_bound.
  - intros fd n w. pose proof (read_takes fd n (kernel_of w)) as Ht. cbn. unfold lift. by destruct (sys_read _ _ _) as [[r data] k].
Defined.

#[export] Instance served_reports `{HR : !LoopReports L W St} : LoopReports L SW St.
Proof.
  intros timeout s Hok. destruct (LoopStep_law timeout (s.1, kernel_of s.2) Hok) as (r & [l k] & E & Hok' & Hreg & Hp & _ & Hr).
  unfold returns. cbn. unfold lift_loop. rewrite E. by eexists _, _.
Qed.
End Laws.

(** ** The invariant of a selector with its connections *)

Section Server.
Context {L W St Cord H U : Type}.
Context `{!HasErrno W} `{!PosixFile W} `{!SelectorSys W} `{!Sockets W} `{!HeapApi} `{HH : !HeapLaws}.
Context `{!BigEndian} `{!Inet} `{!TimeFormat} `{!Uninitialized} `{!CordApi Cord} `{!CordEdit Cord}.
Context `{HA : !Absl St} `{HL : !AbslLaws St} `{!Strerror} `{!EventLoop L W St}.
Abbreviation SW := (Served W St Cord H).
Abbreviation S := (State L (Job U) SW).
Abbreviation N := (Net L (Job U) SW St Cord H).
Abbreviation Tcp := (TcpConnection St Cord H).
Context `{!Application N H St} `{!UserProgram S U}.
Context `{HE : !EventLoopLaws L W St} `{HS : !SocketLaws L W St} `{HR : !LoopReports L W St}.
Context `{HC : !CordLaws Cord} `{!Stream W} `{HW : !StreamLaws W} `{HG : !SignalLaws W}.
Context (this : ptr) (this_not_null : this <> 0) (info : StatusOr St DnsHostInfo).


(** The connections of the program; those the selector may know; its
    parameters; and the functions that may be queued: those of the application
    that are [good], those of the selector, and the timeouts of connections. *)
Context (D R : gset ptr) (R_in_D : R ⊆ D) (params : Params) (good : U -> Prop).

Definition job_ok (f : Function (Job U)) : Prop :=
  match f with
  | UserFunction (UserJob u) => good u
  | UserFunction (ConnectionTask p (TaskProcessTimeout _)) => p ∈ D
  | UserFunction (ConnectionTask _ _) => False
  | _ => True
  end.

(** The connection [c] at [p]. *)
Definition conn_ok (p : ptr) (c : Tcp) (r : S) : Prop :=
  is_Some (close_handler_ (handlers (connection c))) /\
  (forall n, write_limit (tcp_params_ c) = Some n -> 0 <= n) /\
  exists o, objects r !! p = Some o /\ attached this p (state c) o r.

(** Everything but the connections of [out], which are being run; those of
    [held] among them are as they were left.  The selector has objects of [Q]
    only. *)
Record world_ok (Q : gset ptr) (held : gmap ptr Tcp) (out : gset ptr) (r : S) : Prop := {
  wo_dom : dom (conns (world r)) = D ∖ out;
  wo_conns p c : conns (world r) !! p = Some c \/ held !! p = Some c -> conn_ok p c r;
  wo_settled p : p ∈ R -> exists o, objects r !! p = Some o /\ (fd_of o <> kInvalidFdValue \/ selector_ (base o) <> this);
  wo_fds p q o o' : p ∈ D -> q ∈ D -> p <> q -> objects r !! p = Some o -> objects r !! q = Some o' ->
    fd_of o = fd_of o' -> fd_of o = kInvalidFdValue;
  wo_registered : registered_ (sel r) ⊆ Q;
  wo_data fd b u : watching r !! fd = Some (b, u) -> u = 0 \/ u ∈ R;
  wo_jobs : Forall job_ok (to_run_ (callbacks_ (sel r)));
  wo_alarms : alarms_ok job_ok (timers_ (sel r));
  wo_close f : call_on_close_ (sel r) = Some f -> job_ok (UserFunction f);
  wo_params : params_ (sel r) = params
}.

(** Between two calls: nothing is being run. *)
Record server_ok (Q : gset ptr) (s : S) : Prop := {
  so_loop : loop_fine s;
  so_thread : tid_ (sel s) = pthread_self (world s);
  so_world : world_ok Q ∅ ∅ s
}.

(** What the connection at [p] does not touch. *)
Definition rest (Q : gset ptr) (held : gmap ptr Tcp) (p : ptr) : S -> Prop := world_ok Q held ({[p]} ∪ dom held).

#[export] Instance rest_framed Q held p : Q ⊆ R -> p ∈ D -> p ∉ dom held -> dom held ⊆ D -> Framed p (rest Q held p).
Proof.
  intros HQ Hp Hheld HheldD r r' [Hdom Hconns Hset Hfds Hreg Hdata Hjobs Hal Hcl Hpar] _ [To Ts Tr Tf Tw Td Tm Tal (x & y & z & Esel)].
  assert (Em : conns (world r') = conns (world r)) by by injection Tm.
  assert (Hq : forall q c, conns (world r) !! q = Some c \/ held !! q = Some c -> q <> p /\ q ∈ D).
  { intros q c [E|E]; apply elem_of_dom_2 in E; [rewrite Hdom in E|]; set_solver. }
  split; rewrite ?Em; [done| | | | | |by rewrite Esel| |by rewrite Esel..].
  - intros q c Hc. destruct (Hq q c Hc) as [Hne HqD]. destruct (Hconns q c Hc) as (Hh & Hlim & o & Ho & Ha).
    split; [done|]. split; [done|]. exists o. rewrite (To q Hne). split; [done|].
    unfold attached in *. destruct (active _).
    + destruct Ha as (Hfd & Hsel & Hr & Hw). split_and!; [done..|by apply Tr|]. rewrite Tw; [done|].
      intros o' Ho' Efd. apply Hfd. by apply (Hfds q p o o').
    + destruct Ha as (Hfd & Hr & Hsel). split_and!; [done| |done]. by rewrite Tr.
  - intros q HqR. destruct (decide (q = p)) as [->|Hne]; [|rewrite (To q Hne); by apply Hset].
    destruct (Hset p HqR) as (o & Ho & Hs). rewrite Ho in Ts. destruct (objects r' !! p) as [o'|]; [|done].
    exists o'. split; [done|]. destruct Ts as [[-> ->]|[-> ->]]; [done|by right].
  - assert (Hp' : forall o', objects r' !! p = Some o' -> fd_of o' <> kInvalidFdValue ->
              exists o, objects r !! p = Some o /\ fd_of o = fd_of o').
    { intros o' Ho' Hv. rewrite Ho' in Ts. destruct (objects r !! p) as [o|]; [|done].
      exists o. split; [done|]. by destruct Ts as [[? _]|[? _]]. }
    intros q q' o o' Hq1 Hq2 Hne Ho Ho' E. apply dec_stable. intros Hv.
    destruct (decide (q = p)) as [->|Hn]; [|destruct (decide (q' = p)) as [->|Hn']].
    + destruct (Hp' o Ho Hv) as (o2 & Ho2 & E2). rewrite (To q' ltac:(congruence)) in Ho'.
      apply Hv. rewrite <- E2. apply (Hfds p q' o2 o'); congruence.
    + destruct (Hp' o' Ho' ltac:(congruence)) as (o2 & Ho2 & E2). rewrite (To q Hn) in Ho.
      apply Hv. apply (Hfds q p o o2); congruence.
    + rewrite (To q Hn) in Ho. rewrite (To q' Hn') in Ho'. apply Hv. by apply (Hfds q q' o o').
  - set_solver.
  - intros fd b u Hw. destruct (Td fd b u Hw) as [[b' Hw']|[-> Hr]]; [by eapply Hdata|]. right. set_solver.
  - by apply Tal.
Qed.

(** *** Taking connections out, and putting them back *)

Lemma world_take Q held out p c (r : S) :
  world_ok Q held out r -> conns (world r) !! p = Some c -> world_ok Q held ({[p]} ∪ out) (set_conns (delete p) r).
Proof.
  intros [Hdom Hconns Hset Hfds Hreg Hdata Hjobs Hal Hcl Hpar] Hp. split; try done.
  - cbn. rewrite dom_delete_L, Hdom. set_solver.
  - intros q c' [Hq|Hq]; apply Hconns; [left|by right]. cbn in Hq.
    by apply lookup_delete_Some in Hq as [_ Hq].
Qed.

Lemma world_back Q held out p c (r : S) :
  world_ok Q held ({[p]} ∪ out) r -> conn_ok p c r -> p ∈ D -> p ∉ out -> world_ok Q held out (set_conns <[p:=c]> r).
Proof.
  intros [Hdom Hconns Hset Hfds Hreg Hdata Hjobs Hal Hcl Hpar] Hc HpD Hout. split; try done.
  - cbn. rewrite dom_insert_L, Hdom. apply set_eq. intros q. destruct (decide (q = p)); set_solver.
  - intros q c' [Hq|Hq]; [|apply Hconns; by right]. cbn in Hq.
    apply lookup_insert_Some in Hq as [[<- <-]|[_ Hq]]; [done|]. apply Hconns. by left.
Qed.


Lemma world_hold Q held out p c (r : S) :
  world_ok Q held out r -> conn_ok p c r -> world_ok Q (<[p:=c]> held) out r.
Proof.
  intros [Hdom Hconns Hset Hfds Hreg Hdata Hjobs Hal Hcl Hpar] Hc. split; try done.
  intros q c' [Hq|Hq]; [apply Hconns; by left|].
  apply lookup_insert_Some in Hq as [[<- <-]|[_ Hq]]; [done|]. apply Hconns. by right.
Qed.

Lemma world_release Q held out p c (r : S) :
  p ∉ dom held -> world_ok Q (<[p:=c]> held) out r -> world_ok Q held out r /\ conn_ok p c r.
Proof.
  intros Hp [Hdom Hconns Hset Hfds Hreg Hdata Hjobs Hal Hcl Hpar]. split.
  - split; try done. intros q c' [Hq|Hq]; apply Hconns; [by left|right].
    rewrite lookup_insert_ne; [done|]. intros ->. apply Hp, elem_of_dom. eauto.
  - apply Hconns. right. apply lookup_insert_eq.
Qed.


(** A connection that runs is well formed, for the invariants of
    ConnectionSpec.v, when it is so here. *)
Lemma conn_ready Q held p c (r : S) d :
  conn_ok p c r -> loop_fine r -> tid_ (sel r) = pthread_self (world r) -> rest Q held p r ->
  ready_at this p (rest Q held p) (state c) (MkNet c r d).
Proof. intros (Hh & Hlim & Ho) Hl Ht Hr. by split. Qed.

Lemma ready_conn Q held p x n : ready_at this p (rest Q held p) x n -> conn_ok p (tcp n) (reactor n).
Proof. intros [Hx Hh Hlim Hl Ht Ho Hr]. split_and!; [done..|]. by rewrite Hx. Qed.





(** A method of another connection, called while the one at [p] is being run. *)
Lemma visit_ok {A} Q held p q c x (m : M N A) (n : N) :
  ready_at this p (rest Q held p) x n -> p ∈ D -> p ∉ dom held -> conns (world (reactor n)) !! q = Some c ->
  (let held' := <[p:=tcp n]> held in
   let n' := taken q c (resolver n) (reactor n) in
   q ∈ D -> q ∉ dom held' -> ready_at this q (rest Q held' q) (state c) n' ->
   returns m n' (fun _ n2 => ready this q (rest Q held' q) (fun _ => True) n2)) ->
  returns (visit q m) n (fun _ n' => ready_at this p (rest Q held p) x n' /\ tcp n' = tcp n).
Proof.
  intros Hn Hp Hheld Hq Hm. pose proof (ready_conn _ _ _ _ _ Hn) as Hc.
  destruct Hn as [Hx Hh Hlim Hl Ht Ho Hr]. unfold rest in Hr. pose proof (wo_dom _ _ _ _ Hr) as Hdom.
  assert (HqD : q ∈ D ∖ ({[p]} ∪ dom held)) by (rewrite <- Hdom; by eapply elem_of_dom_2).
  assert (Eout : forall X : gset ptr, X ∪ dom (<[p:=tcp n]> held) = X ∪ ({[p]} ∪ dom held)) by (intros X; by rewrite dom_insert_L).
  assert (Hq' : world_ok Q (<[p:=tcp n]> held) ({[q]} ∪ ({[p]} ∪ dom held)) (set_conns (delete q) (reactor n))).
  { apply world_hold; [|done]. by eapply world_take. }
  destruct Hm as (a & n2 & E & y & _ & Hn2); [set_solver|rewrite dom_insert_L; set_solver| |].
  { apply conn_ready; [apply (wo_conns _ _ _ _ Hr); by left|done..|]. unfold rest. by rewrite Eout. }
  pose proof (ready_conn _ _ _ _ _ Hn2) as Hc2. destruct Hn2 as [_ _ _ Hl2 Ht2 _ Hr2]. unfold rest in Hr2. rewrite Eout in Hr2.
  apply world_release in Hr2 as [Hr2 Hcp]; [|done].
  unfold returns, visit. rewrite Hq, E. eexists _, _. split; [reflexivity|]. split; [|done]. rewrite <- Hx.
  apply conn_ready; [done..|]. apply world_back; [done..|set_solver|set_solver].
Qed.

(** *** Events *)

(** What the application promises: none of its functions breaks any
    connection, whichever connections are being run when it is called. *)
Class ServerApp : Prop :=
  server_app Q held p : Q ⊆ R -> p ∈ D -> p ∉ dom held -> dom held ⊆ D -> WellBehaved this p (rest Q held p).
Context `{HP : !ServerApp}.



Section Handlers.
Context (Q : gset ptr) (HQ : Q ⊆ R) (p : ptr) (Hp : p ∈ D).

End Handlers.




(** *** The selector's own steps *)









(** *** Closing everything *)




(** *** Functions *)

Context (drain_fuel close_fuel : nat) (Hdrain : (capacity < drain_fuel)%nat) (Hclose : (size R <= close_fuel)%nat).

(** The functions of the application that may be queued keep the server well
    formed, and have nothing new registered. *)
Class GoodJobs : Prop := good_run Q u s : Q ⊆ R -> good u -> server_ok Q s -> returns (run_job u) s (fun _ s' => server_ok Q s').
Context `{HJ : !GoodJobs}.














(** *** The loop *)







End Server.

(** ** Witnesses *)
Section Witnesses.
Import RefAbsl RefCord RefInet SortedHeap SimNet.

Abbreviation H := (option ptr).
Abbreviation world := (Served kernel rstatus cord H).
Abbreviation net := (Net loop (Job unit) world rstatus cord H).

(** A descriptor holds a hundred bytes at most. *)
Definition held_in (fd : Z) (w : kernel) : str := take 100 (default [] (k_in w !! fd)).

#[local] Instance busy_stream : Stream kernel := { outgoing w fd := default [] (k_out w !! fd); incoming w fd := held_in fd w }.

#[local] Instance busy_file : PosixFile kernel := {
  sys_open _ _ _ w := (-1, w); sys_close _ w := (0, w); sys_fstat _ w := ((-1, 0), w);
  sys_lseek _ _ _ w := (-1, w); sys_ftruncate _ _ w := (-1, w);
  sys_read fd n w :=
    let got := take (Z.to_nat n) (held_in fd w) in
    ((zlen got, got), Kernel (k_errno w) (k_room w) (k_out w) (<[fd:=drop (Z.to_nat n) (held_in fd w)]> (k_in w)));
  sys_write fd data n w := (-1, w);
  sys_writev _ _ _ w := (-1, w);
  sys_fdatasync _ w := (0, w)
}.

Lemma held_drop fd n w e room out :
  held_in fd (Kernel e room out (<[fd:=drop n (held_in fd w)]> (k_in w))) = drop n (held_in fd w).
Proof.
  unfold held_in at 1. cbn. rewrite lookup_insert_eq. cbn. apply take_ge. rewrite length_drop. unfold held_in.
  rewrite length_take. lia.
Qed.

#[local] Instance busy_stream_laws : StreamLaws kernel.
Proof.
  split.
  - intros fd data w. cbn. split; [done|]. split; [done|]. by left.
  - intros fd n w Hn. cbn [sys_read busy_file]. split; [done|]. split.
    + intros x Hx. cbn. unfold held_in. cbn. by rewrite lookup_insert_ne.
    + right. cbn [incoming busy_stream]. rewrite held_drop, take_drop. split_and!; [apply zlen_nonneg| |done..].
      unfold zlen. rewrite length_take. lia.
  - intros fd iov w. cbn. split; [done|]. split; [done|]. by left.
Qed.

#[local, refine] Instance busy_signals : SignalLaws kernel := { readable w fd := length (held_in fd w); capacity := 100 }.
Proof.
  - intros w fd. unfold held_in. rewrite length_take. lia.
  - intros fd n w. cbn [sys_read busy_file]. rewrite held_drop, length_drop. intros Hr. unfold zlen in Hr.
    rewrite length_take in Hr. lia.
Defined.

(** An event loop that reports every descriptor it watches. *)
#[local] Instance busy_loop : EventLoop loop kernel rstatus := {
  loop_Add fd ud d s := Ret OkStatus (<[fd:=(d, ud)]> s.1, s.2);
  loop_Update fd ud d s := Ret OkStatus (<[fd:=(d, ud)]> s.1, s.2);
  loop_Delete fd s := Ret OkStatus (delete fd s.1, s.2);
  loop_LoopStep _ s := Ret (Value ((fun i : Z * (Z * ptr) => MkEvent i.2.2 i.2.1 EPOLLIN) <$> map_to_list s.1)) s
}.

#[local, refine] Instance busy_laws : EventLoopLaws loop kernel rstatus := {
  loop_ok _ := True;
  loop_registry := fst;
  events_of d := d
}.
Proof.
  - intros fd ud d s _ _. by eexists _, _.
  - intros fd ud d s _ _. by eexists _, _.
  - intros fd s _. by eexists _, _.
Defined.

#[local] Instance busy_sockets : SocketLaws loop kernel rstatus.
Proof.
  assert (Q : forall w w' : kernel, quiet (L := loop) w w') by (intros w w'; by split).
  split; intros; try apply Q; try (split; [done|]; done);
    by match goal with E : _ = Ret _ _ |- _ => injection E as <- <- end.
Qed.

#[local] Instance busy_reports : LoopReports loop kernel rstatus.
Proof.
  intros timeout s _. eexists _, _. split; [reflexivity|]. split_and!; try done.
  intros e He. apply list_elem_of_fmap in He as ([fd [bits ud]] & -> & Hin). apply elem_of_map_to_list in Hin. by exists fd, bits.
Qed.

(** An application whose function for reading closes another connection.  The
    function for closing does nothing. *)
#[local] Instance quiet_app : Application net H rstatus := {
  run_connect _ := ret tt; run_read _ := ret OkStatus; run_write _ := ret OkStatus; run_close _ _ _ := ret tt
}.
Definition close_other (h : H) : M net rstatus :=
  fun n => match h with
           | Some q =>
               match conns (Selector.world (reactor n)) !! q with
               | Some _ => (visit q (Close (St := rstatus) 9 q) ;; ret OkStatus) n
               | None => Ret OkStatus n
               end
           | None => Ret OkStatus n
           end.
Definition closing_app : Application net H rstatus := {|
  run_connect _ := ret tt; run_read := close_other; run_write _ := ret OkStatus; run_close _ _ _ := ret tt
|}.

Definition both : gset ptr := {[100; 200]}.
Abbreviation rest9 := (rest (U := unit) 9 both both default_params (fun _ => True)).

Lemma quiet_behaved Q held p : WellBehaved (Application0 := quiet_app) 9 p (rest9 Q held p).
Proof. split; intros; apply returns_ret; eexists; (split; [|eassumption]); auto. Qed.

Lemma quiet_close Q held q x (n : net) : Q ⊆ both -> q ∈ both -> q ∉ dom held -> dom held ⊆ both ->
  ready_at 9 q (rest9 Q held q) x n ->
  returns (Close (St := rstatus) (Application0 := quiet_app) 9 q) n (fun _ n' => ready 9 q (rest9 Q held q) (fun _ => True) n').
Proof.
  intros HQ Hq Hh Hd Hn. pose proof (quiet_behaved Q held q) as HB. pose proof (rest_framed 9 ltac:(done) both both ltac:(done) default_params (fun _ : unit => True) Q held q HQ Hq Hh Hd) as HF.
  exact (InternalClose_ready (Cb := Job unit) (Application0 := quiet_app) 9 q ltac:(done) (rest9 Q held q) OkStatus true x n Hn).
Qed.

#[local] Instance closing_server : ServerApp (Application0 := closing_app) 9 both both default_params (fun _ : unit => True).
Proof.
  intros Q held p HQ Hp Hheld HD. split; [| | |]; try (intros; apply returns_ret; eexists; (split; [|eassumption]); auto; fail).
  intros h x s Hx Hs. unfold run_read. cbn [closing_app]. unfold close_other, returns. destruct h as [q|]; [|by eexists _, s; split; [|exists x]].
  destruct (conns (Selector.world (reactor s)) !! q) as [c|] eqn:Hq; [|by eexists _, s; split; [|exists x]].
  destruct (visit_ok 9 ltac:(done) both both ltac:(done) default_params (fun _ : unit => True) Q held p q c x
              (Close (St := rstatus) 9 q) s Hs Hp Hheld Hq) as (u & s' & E & Hs' & _).
  { intros held' n' HqD Hqh Hn'. apply (quiet_close Q held' q (state c)); [done..| |exact Hn'].
    subst held'. rewrite dom_insert_L. set_solver. }
  rewrite (bind_Ret _ _ _ _ _ E). eexists _, s'. split; [reflexivity|]. by exists x.
Qed.

#[local] Instance no_jobs : UserProgram (State loop (Job unit) world) unit := fun _ => ret tt.

#[local] Instance no_jobs_good : GoodJobs 9 both both default_params (fun _ : unit => True).
Proof. intros Q u s _ _ Hs. by apply returns_ret. Qed.



End Witnesses.
