(* ===== verification/Acceptor.v ===== *)
(** * Acceptors ([whisperlib/net/connection.h], [whisperlib/net/connection.cc])

    The classes [Acceptor], [AcceptorThreads] and [TcpAcceptor].  An acceptor is
    the object at address [self] of its selector, and hands the connections it
    accepts to the selectors of other threads: here the state has all the
    selectors and connections by address, and an operation of one of them runs
    on its part of that state.  The functions of the application are a
    parameter; messages to the log are left out. *)

From S2P Require Import Prelude Status Errno CordIo Posix Address SelectorLoop Selectable Selector.
From S2P Require Import Timeouter Dns Socket Connection.

(** ** [Acceptor] *)

Inductive AcceptorState := DISCONNECTED | LISTENING.

#[export] Instance AcceptorState_eq : EqDecision AcceptorState.
Proof. solve_decision. Defined.

Definition StateName (s : AcceptorState) : str :=
  match s with
  | DISCONNECTED => "DISCONNECTED"
  | LISTENING => "LISTENING"
  end.

Section Base.
Context {St G : Type} `{!Absl St}.

(** The functions set by the application are of type [G], or null. *)
Record Acceptor := MkAcceptor {
  state_ : AcceptorState;
  local_address_ : HostPort;
  last_error_ : St;
  filter_handler_ : option G;
  accept_handler_ : option G;
  close_handler_ : option G
}.

Definition Acceptor_ctor : Acceptor := MkAcceptor DISCONNECTED HostPort_empty OkStatus None None None.

Definition set_state (value : AcceptorState) (a : Acceptor) : Acceptor :=
  MkAcceptor value (local_address_ a) (last_error_ a) (filter_handler_ a) (accept_handler_ a) (close_handler_ a).
Definition set_local_address (value : HostPort) (a : Acceptor) : Acceptor :=
  MkAcceptor (state_ a) value (last_error_ a) (filter_handler_ a) (accept_handler_ a) (close_handler_ a).
Definition set_last_error (value : St) (a : Acceptor) : Acceptor :=
  if negb (Status.ok value) then
    MkAcceptor (state_ a) (local_address_ a) (UpdateOrAnnotate (last_error_ a) value) (filter_handler_ a)
      (accept_handler_ a) (close_handler_ a)
  else a.

(** [set_filter_handler(h)], and [clear_filter_handler()] for [None]. *)
Definition set_filter_handler (h : option G) (a : Acceptor) : Acceptor :=
  MkAcceptor (state_ a) (local_address_ a) (last_error_ a) h (accept_handler_ a) (close_handler_ a).
Definition set_accept_handler (h : option G) (a : Acceptor) : Acceptor :=
  MkAcceptor (state_ a) (local_address_ a) (last_error_ a) (filter_handler_ a) h (close_handler_ a).
Definition set_close_handler (h : option G) (a : Acceptor) : Acceptor :=
  MkAcceptor (state_ a) (local_address_ a) (last_error_ a) (filter_handler_ a) (accept_handler_ a) h.
End Base.

Arguments Acceptor : clear implicits.

(** ** [AcceptorThreads] *)

(** The threads are given by the selectors they run. *)
Record AcceptorThreads := MkThreads { next_client_thread_ : Z; client_threads_ : list ptr }.

Definition AcceptorThreads_ctor : AcceptorThreads := MkThreads 0 [].
Definition set_client_threads (client_threads : list ptr) (t : AcceptorThreads) : AcceptorThreads :=
  MkThreads (next_client_thread_ t) client_threads.

(** A null selector is [0]. *)
Definition GetNextSelector (t : AcceptorThreads) : ptr * AcceptorThreads :=
  match client_threads_ t with
  | [] => (0, t)
  | threads =>
      (nth (Z.to_nat (next_client_thread_ t mod zlen threads)) threads 0,
       MkThreads (u64 (next_client_thread_ t + 1)) threads)
  end.

Record TcpAcceptorParams := MkAcceptorParams {
  acceptor_threads : AcceptorThreads;
  tcp_connection_params : TcpConnectionParams;
  max_backlog : Z;
  detail_log : bool
}.
Definition default_acceptor_params : TcpAcceptorParams :=
  MkAcceptorParams AcceptorThreads_ctor default_tcp_params 100 false.

Definition set_acceptor_threads (value : AcceptorThreads) (p : TcpAcceptorParams) : TcpAcceptorParams :=
  MkAcceptorParams value (tcp_connection_params p) (max_backlog p) (detail_log p).
Definition set_tcp_connection_params (value : TcpConnectionParams) (p : TcpAcceptorParams) : TcpAcceptorParams :=
  MkAcceptorParams (acceptor_threads p) value (max_backlog p) (detail_log p).
Definition set_max_backlog (value : Z) (p : TcpAcceptorParams) : TcpAcceptorParams :=
  MkAcceptorParams (acceptor_threads p) (tcp_connection_params p) value (detail_log p).
Definition set_detail_log (value : bool) (p : TcpAcceptorParams) : TcpAcceptorParams :=
  MkAcceptorParams (acceptor_threads p) (tcp_connection_params p) (max_backlog p) value.

(** ** [TcpAcceptor] *)

Inductive Counter :=
| hang_ups_handled | errors_handled | peer_parse_errors | filtered_connections
| connections_accept_scheduled | connections_accepted | connection_wrap_errors | connections_initialized.

#[export] Instance Counter_eq : EqDecision Counter.
Proof. solve_decision. Defined.

(** [Statistics]: the value of each counter. *)
Definition Statistics := Counter -> Z.
Definition no_statistics : Statistics := fun _ => 0.
(** [counter.fetch_add(1)] on a [size_t] *)
Definition fetch_add (c : Counter) (s : Statistics) : Statistics :=
  fun d => if decide (d = c) then u64 (s d + 1) else s d.

(** The descriptor [fd_] is that of the object at [self]. *)
Record TcpAcceptor (St G : Type) := MkTcpAcceptor {
  acceptor : Acceptor St G;
  acceptor_params_ : TcpAcceptorParams;
  stats_ : Statistics
}.
Arguments MkTcpAcceptor {_ _} _ _ _.
Arguments acceptor {_ _} _.
Arguments acceptor_params_ {_ _} _.
Arguments stats_ {_ _} _.

(** The acceptor, the selectors, the objects and the connections by address,
    the default resolver, and the rest of the world. *)
Record Host (L Cb W St Cord H G : Type) := MkHost {
  tcp_acceptor : TcpAcceptor St G;
  selectors : gmap ptr (Selector L Cb);
  host_objects : gmap ptr Object;
  clients : gmap ptr (TcpConnection St Cord H);
  host_resolver : DnsResolver (St := St) (Fn := ptr);
  host_world : W
}.
Arguments MkHost {_ _ _ _ _ _ _} _ _ _ _ _ _.
Arguments tcp_acceptor {_ _ _ _ _ _ _} _.
Arguments selectors {_ _ _ _ _ _ _} _.
Arguments host_objects {_ _ _ _ _ _ _} _.
Arguments clients {_ _ _ _ _ _ _} _.
Arguments host_resolver {_ _ _ _ _ _ _} _.
Arguments host_world {_ _ _ _ _ _ _} _.

(** What is given to [RunInSelectLoop]. *)
Inductive AcceptTask :=
| TaskCloseAcceptor
| TaskInitialize (selector : ptr) (client_fd : Z)
| TaskDrop (connection : ptr).
Class AcceptTasks (Cb : Type) := accept_task : AcceptTask -> Cb.

(** The code of the application; an accepted connection is given by its
    address. *)
Class AcceptApplication (S G St : Type) := {
  run_filter : G -> HostPort -> M S bool;
  run_accept : G -> ptr -> M S unit;
  run_acceptor_close : G -> St -> M S unit
}.

(** The address of a new object, given those in use. *)
Class Allocator := allocate : gset ptr -> ptr.

Section Tcp.
Context {L Cb W St Cord H G : Type}.
Context `{!HasErrno W} `{!PosixFile W} `{!SelectorSys W} `{!Sockets W} `{!HeapApi}.
Context `{!BigEndian} `{!Inet} `{!TimeFormat} `{!Uninitialized} `{!CordApi Cord} `{!CordEdit Cord} `{!Absl St} `{!Strerror}.
Context `{!EventLoop L W St} `{!Tasks Cb} `{!Application (Net L Cb W St Cord H) H St}.
Context `{!AcceptTasks Cb} `{!AcceptApplication (Host L Cb W St Cord H G) G St} `{!Allocator}.
(** The address of the acceptor. *)
Context (self : ptr).

Abbreviation HS := (Host L Cb W St Cord H G).
Abbreviation Tcp := (TcpAcceptor St G).

Definition field {A} (f : Tcp -> A) : M HS A := gets (fun s => f (tcp_acceptor s)).
Definition store (f : Tcp -> Tcp) : M HS unit :=
  modify (fun s => MkHost (f (tcp_acceptor s)) (selectors s) (host_objects s) (clients s) (host_resolver s) (host_world s)).
Definition on_acceptor (f : Acceptor St G -> Acceptor St G) (a : Tcp) : Tcp :=
  MkTcpAcceptor (f (acceptor a)) (acceptor_params_ a) (stats_ a).
Definition count (c : Counter) : M HS unit :=
  store (fun a => MkTcpAcceptor (acceptor a) (acceptor_params_ a) (fetch_add c (stats_ a))).
Definition sock {A} (f : W -> A * W) : M HS A :=
  fun s => let '(a, w) := f (host_world s) in
           Ret a (MkHost (tcp_acceptor s) (selectors s) (host_objects s) (clients s) (host_resolver s) w).
Definition errno_value : M HS Z := gets (fun s => sys_errno (host_world s)).

(** An operation of the selector at [p]. *)
Definition on_selector {A} (p : ptr) (m : M (State L Cb W) A) : M HS A :=
  fun s => match selectors s !! p with
           | None => Fatal "invalid pointer"
           | Some l =>
               match m (MkState l (host_objects s) (host_world s)) with
               | Ret a r => Ret a (MkHost (tcp_acceptor s) (<[p:=sel r]> (selectors s)) (objects r) (clients s)
                                     (host_resolver s) (world r))
               | Fatal why => Fatal why
               end
           end.

(** An operation of the connection at [c], whose selector is at [p]. *)
Definition on_client {A} (p c : ptr) (m : M (Net L Cb W St Cord H) A) : M HS A :=
  fun s => match clients s !! c, selectors s !! p with
           | Some t, Some l =>
               match m (MkNet t (MkState l (host_objects s) (host_world s)) (host_resolver s)) with
               | Ret a n => Ret a (MkHost (tcp_acceptor s) (<[p:=sel (reactor n)]> (selectors s)) (objects (reactor n))
                                     (<[c:=tcp n]> (clients s)) (resolver n) (world (reactor n)))
               | Fatal why => Fatal why
               end
           | _, _ => Fatal "invalid pointer"
           end.

(** The base [Selectable] of the acceptor. *)
Definition self_object : M HS Object :=
  fun s => match host_objects s !! self with Some o => Ret o s | None => Fatal "invalid pointer" end.
Definition GetFd : M HS Z := o <- self_object ;; ret (fd_of o).
Definition fd_store (fd : Z) : M HS unit :=
  o <- self_object ;;
  modify (fun s => MkHost (tcp_acceptor s) (selectors s) (<[self:=MkObject (base o) fd]> (host_objects s)) (clients s)
                     (host_resolver s) (host_world s)).
Definition selector : M HS ptr := o <- self_object ;; ret (selector_ (base o)).
(** A call on [selector()]. *)
Definition via_selector {A} (m : ptr -> M (State L Cb W) A) : M HS A :=
  p <- selector ;;
  if decide (p = 0) then fatal "null pointer" else on_selector p (m p).
Definition event_test (f : Z -> bool) (value : Z) : M HS bool :=
  via_selector (fun _ s => match loop_ (sel s) with None => Fatal "null pointer" | Some _ => Ret (f value) s end).
Definition IsInSelectThread : M HS bool := via_selector (fun _ => Selector.IsInSelectThread).
Definition check_thread : M HS unit := inside <- IsInSelectThread ;; check inside "selector()->IsInSelectThread()".

Definition ToString : M HS str :=
  a <- field acceptor ;;
  fd <- GetFd ;;
  ret ("TcpAcceptor [ " ++ Address.ToString (local_address_ a) ++ " state: " ++ StateName (state_ a)
       ++ " fd: " ++ StrInt fd ++ " ]").

(** [return error::ErrnoToStatus(error::Errno()) << text << ToString();] *)
Definition fail_errno {R} `{!FromStatus St R} (text : str) : M HS R :=
  s <- ToString ;;
  e <- errno_value ;;
  ret (return_errno e e (text ++ s)).

(** *** [CallFilterHandler], [CallCloseHandler] *)

Definition CallFilterHandler (peer_address : HostPort) : M HS bool :=
  h <- field (fun a => filter_handler_ (acceptor a)) ;;
  match h with None => ret true | Some h => run_filter h peer_address end.

Definition CallCloseHandler (status : St) : M HS unit :=
  h <- field (fun a => close_handler_ (acceptor a)) ;;
  match h with None => ret tt | Some h => run_acceptor_close h status end.

(** *** Listening *)

Definition SetSocketOptions : M HS St :=
  fd <- GetFd ;;
  RET_CHECK (negb (fd =? kInvalidFdValue)) "fd != kInvalidFdValue" connection_cc 503 []
  (flags <- sock (sys_getfl fd) ;;
   if decide (flags < 0) then fail_errno "::fcntl with F_GETFL failed for: "
   else
     let new_flags := Z.lor flags O_NONBLOCK in
     r <- sock (sys_setfl fd new_flags) ;;
     if negb (r =? 0) then fail_errno ("::fcntl with F_SETFL, " ++ StrInt new_flags ++ " failed for: ")
     else
       r <- sock (sys_setsockopt fd SOL_SOCKET SO_REUSEADDR 1) ;;
       if decide (r < 0) then fail_errno "::setsockopt with SO_REUSEADDR failed for: "
       else ret OkStatus).

Definition InitializeLocalAddress : M HS St :=
  fd <- GetFd ;;
  '(r, (addr, len)) <- sock (sys_getsockname fd) ;;
  if decide (r < 0) then fail_errno "::getsockname failed for: "
  else
    s <- ToString ;;
    ASSIGN_OR_RETURN (ret (ParseFromSockAddr addr len)) ("Parsing local socket address for: " ++ s)
      (fun local_address =>
         store (on_acceptor (fun a => set_local_address (Update (local_address_ a) local_address) a)) ;;
         ret OkStatus).

(** What [Listen] does with its socket. *)
Definition bind_socket (addr : list Z) : M HS (option St) :=
  RETURN_IF_ERROR SetSocketOptions []
  (fd <- GetFd ;;
   r <- sock (sys_bind fd addr (SockAddrLen addr)) ;;
   if decide (r < 0) then fail_errno "::bind failed for: "
   else
     params <- field acceptor_params_ ;;
     r <- sock (sys_listen fd (i32 (max_backlog params))) ;;
     if negb (r =? 0) then fail_errno "::listen failed for: "
     else
       s <- ToString ;;
       RETURN_IF_ERROR (via_selector (fun p => Register p self)) ("Registering acceptor with selector for: " ++ s)
       (RETURN_IF_ERROR InitializeLocalAddress []
        (store (on_acceptor (set_state LISTENING)) ;;
         ret None))).

(** The result of [socket] is in [fd]; what is tested is the member. *)
Definition Listen (local_addr : HostPort) : M HS St :=
  text <- ToString ;;
  fd <- GetFd ;;
  RET_CHECK (fd =? kInvalidFdValue) "fd_ == kInvalidFdValue" connection_cc 365
    ("Attempting listening again, with valid socket: " ++ text)
  (st <- field (fun a => state_ (acceptor a)) ;;
   RET_CHECK (bool_decide (st = DISCONNECTED)) "state() == DISCONNECTED" connection_cc 367
     ("Attempting listening on non-disconnected acceptor: " ++ text)
   (let '(st, addr) := ToSockAddr local_addr storage in
    RETURN_IF_ERROR (ret st) "Setting listening address for TCP acceptor"
    (fd <- sock (sys_socket (sa_family addr)) ;;
     fd_ <- GetFd ;;
     if decide (fd_ < 0) then fail_errno "::socket failed for: "
     else
       fd_store fd ;;
       call_on_return
         (fd <- GetFd ;; r <- sock (sys_close fd) ;; fd_store kInvalidFdValue)
         (bind_socket addr)
         (ret OkStatus)))).

(** *** Closing *)

(** The descriptor is taken out of the object before it is unregistered. *)
Definition InternalClose (status : St) : M HS unit :=
  check_thread ;;
  fd <- GetFd ;;
  fd_store kInvalidFdValue ;;
  store (on_acceptor (set_last_error status)) ;;
  if decide (fd = kInvalidFdValue) then
    st <- field (fun a => state_ (acceptor a)) ;;
    check (bool_decide (st = DISCONNECTED)) "state() == DISCONNECTED"
  else
    st <- via_selector (fun p => Unregister p self) ;;
    r <- sock (sys_close fd) ;;
    store (on_acceptor (set_state DISCONNECTED)) ;;
    CallCloseHandler status.

Definition Close : M HS unit :=
  inside <- IsInSelectThread ;;
  if negb inside then via_selector (fun _ => RunInSelectLoop (UserFunction (accept_task TaskCloseAcceptor)))
  else InternalClose OkStatus.

(** *** Accepting *)

(** [absl::make_unique<TcpConnection>(selector, params)] *)
Definition new_client (selector : ptr) (params : TcpConnectionParams) : M HS ptr :=
  fun s =>
    match Tcp_ctor (St := St) (H := H) selector params with
    | None => Fatal "Check failed: 'selector' Must be non NULL"
    | Some (t, b) =>
        let c := allocate (dom (host_objects s)) in
        Ret c (MkHost (tcp_acceptor s) (selectors s) (<[c:=MkObject b kInvalidFdValue]> (host_objects s))
                 (<[c:=t]> (clients s)) (host_resolver s) (host_world s))
    end.

(** [delete client] *)
Definition delete_client (p c : ptr) : M HS unit :=
  on_client p c (Tcp_dtor c) ;;
  modify (fun s => MkHost (tcp_acceptor s) (selectors s) (delete c (host_objects s)) (delete c (clients s))
                     (host_resolver s) (host_world s)).

(** The selector a connection was made with. *)
Definition net_selector_of (c : ptr) : M HS ptr :=
  fun s => match clients s !! c with Some t => Ret (net_selector_ (connection t)) s | None => Fatal "invalid pointer" end.

Definition CallAcceptHandler (new_connection : ptr) : M HS unit :=
  h <- field (fun a => accept_handler_ (acceptor a)) ;;
  match h with
  | Some h => run_accept h new_connection
  | None =>
      p <- net_selector_of new_connection ;;
      on_selector p (RunInSelectLoop (UserFunction (accept_task (TaskDrop new_connection))))
  end.

Definition InitializeAcceptedConnection (net_selector : ptr) (client_fd : Z) : M HS unit :=
  inside <- on_selector net_selector Selector.IsInSelectThread ;;
  check inside "net_selector->IsInSelectThread()" ;;
  count connections_accepted ;;
  params <- field acceptor_params_ ;;
  client <- new_client net_selector (tcp_connection_params params) ;;
  wrap_status <- on_client net_selector client (Wrap net_selector client client_fd) ;;
  if negb (Status.ok wrap_status) then
    count connection_wrap_errors ;;
    r <- sock (sys_close client_fd) ;;
    delete_client net_selector client
  else
    count connections_initialized ;;
    CallAcceptHandler client.

(** The next selector of [params_.acceptor_threads]. *)
Definition next_selector : M HS ptr :=
  params <- field acceptor_params_ ;;
  let '(p, threads) := GetNextSelector (acceptor_threads params) in
  store (fun a => MkTcpAcceptor (acceptor a) (set_acceptor_threads threads (acceptor_params_ a)) (stats_ a)) ;;
  ret p.

Definition dispatch_client (client_fd : Z) : M HS bool :=
  count connections_accept_scheduled ;;
  selector_to_use <- next_selector ;;
  (if decide (selector_to_use <> 0) then
     on_selector selector_to_use
       (RunInSelectLoop (UserFunction (accept_task (TaskInitialize selector_to_use client_fd))))
   else
     p <- selector ;;
     InitializeAcceptedConnection p client_fd) ;;
  ret true.

Definition HandleReadEvent (event : SelectorEventData ptr) : M HS bool :=
  check_thread ;;
  fd <- GetFd ;;
  '(client_fd, addr) <- sock (sys_accept fd) ;;
  e <- errno_value ;;
  if decide (client_fd < 0) then ret ((e =? EAGAIN) || (e =? EWOULDBLOCK))
  else
    call_on_return
      (r <- sock (sys_close client_fd) ;; ret tt)
      match ParseFromSockAddr (St := St) addr (SockAddrLen addr) with
      | Error _ => count peer_parse_errors ;; ret (Some true)
      | Value host_port =>
          accept <- CallFilterHandler host_port ;;
          if negb accept then count filtered_connections ;; ret (Some true)
          else ret None
      end
      (dispatch_client client_fd).

Definition HandleWriteEvent (event : SelectorEventData ptr) : M HS bool :=
  check_thread ;;
  ret false.

Definition HandleErrorEvent (event : SelectorEventData ptr) : M HS bool :=
  check_thread ;;
  let value := internal_event event in
  hang_up <- event_test IsAnyHangUpEvent value ;;
  if hang_up then count hang_ups_handled ;; ret true
  else
    is_error <- event_test IsErrorEvent value ;;
    if is_error then
      fd <- GetFd ;;
      err <- sock (ExtractSocketErrno fd) ;;
      count errors_handled ;;
      text <- ToString ;;
      e <- errno_value ;;
      InternalClose (return_errno e err (" - error detected on accept socket for: " ++ text)) ;;
      ret false
    else ret true.

(** *** Construction, and the functions given to [RunInSelectLoop] *)

(** The selector may not be null. *)
Definition TcpAcceptor_ctor (selector : ptr) (params : TcpAcceptorParams) : option (Tcp * Selectable) :=
  if decide (selector = 0) then None
  else Some (MkTcpAcceptor Acceptor_ctor params no_statistics, Selectable_ctor selector).

(** [~TcpAcceptor]; [~Acceptor] makes the first check again. *)
Definition TcpAcceptor_dtor : M HS unit :=
  st <- field (fun a => state_ (acceptor a)) ;;
  check (bool_decide (st = DISCONNECTED)) "Can only delete disconnected acceptors." ;;
  fd <- GetFd ;;
  check (fd =? kInvalidFdValue) "fd_.load() == kInvalidFdValue".

Definition run_accept_task (t : AcceptTask) : M HS unit :=
  match t with
  | TaskCloseAcceptor => Close
  | TaskInitialize selector client_fd => InitializeAcceptedConnection selector client_fd
  | TaskDrop c =>
      p <- net_selector_of c ;;
      on_client p c (ForceClose p c) ;;
      delete_client p c
  end.
End Tcp.
