(* ===== verification/AcceptorSpec.v ===== *)
(** * Correctness of acceptors (Acceptor.v)

    What listening, accepting and closing do on every branch, and what becomes
    of an accepted connection. *)

From S2P Require Import Prelude Status Errno CordIo Posix Address SelectorLoop Selectable Selector.
From S2P Require Import Timeouter Dns Socket Connection SimNet ConnectionSpec Acceptor.

Section Spec.
Context {L Cb W St Cord H G : Type}.
Context `{!HasErrno W} `{!PosixFile W} `{!SelectorSys W} `{!Sockets W} `{!HeapApi}.
Context `{!BigEndian} `{!Inet} `{!TimeFormat} `{!Uninitialized} `{!CordApi Cord} `{!CordEdit Cord}.
Context `{HA : !Absl St} `{HL : !AbslLaws St} `{!Strerror} `{!EventLoop L W St} `{!Tasks Cb}.
Context `{!Application (Net L Cb W St Cord H) H St} `{!EventLoopLaws L W St} `{HQ : !SocketLaws L W St}.
Context `{!AcceptTasks Cb} `{!AcceptApplication (Host L Cb W St Cord H G) G St} `{!Allocator}.
Context (self : ptr).

Abbreviation HS := (Host L Cb W St Cord H G).
Implicit Types s : HS.

(** *** Running the accesses to the acceptor *)

Section Run.
Context {A : Type} s (o : Object) (Ho : host_objects s !! self = Some o).

Lemma host_GetFd (k : Z -> M HS A) : bind (Acceptor.GetFd self) k s = k (fd_of o) s.
Proof. unfold Acceptor.GetFd, self_object, bind, ret. by rewrite Ho. Qed.

Lemma host_selector (k : ptr -> M HS A) : bind (Acceptor.selector self) k s = k (selector_ (base o)) s.
Proof. unfold Acceptor.selector, self_object, bind, ret. by rewrite Ho. Qed.

Lemma host_field {B} (f : TcpAcceptor St G -> B) (k : B -> M HS A) : bind (Acceptor.field f) k s = k (f (tcp_acceptor s)) s.
Proof. done. Qed.

Lemma host_via (m : ptr -> M (State L Cb W) A) : selector_ (base o) <> 0 ->
  Acceptor.via_selector self m s = on_selector (selector_ (base o)) (m (selector_ (base o))) s.
Proof. intros Hs. unfold Acceptor.via_selector. rewrite host_selector. by rewrite decide_False. Qed.

Lemma host_sock {B} (f : W -> B * W) (k : B -> M HS A) :
  bind (Acceptor.sock f) k s =
  k (f (host_world s)).1 (MkHost (tcp_acceptor s) (selectors s) (host_objects s) (clients s) (host_resolver s)
                            (f (host_world s)).2).
Proof. unfold bind, Acceptor.sock. by destruct (f (host_world s)). Qed.

Lemma host_fd_store fd (k : unit -> M HS A) :
  bind (Acceptor.fd_store self fd) k s =
  k tt (MkHost (tcp_acceptor s) (selectors s) (<[self:=MkObject (base o) fd]> (host_objects s)) (clients s)
          (host_resolver s) (host_world s)).
Proof. unfold Acceptor.fd_store, self_object, bind, modify. by rewrite Ho. Qed.
End Run.

Lemma host_ToString s o : host_objects s !! self = Some o -> exists text, Acceptor.ToString self s = Ret text s.
Proof. intros Ho. unfold Acceptor.ToString. eexists. rewrite host_field, (host_GetFd _ _ Ho). reflexivity. Qed.

Lemma host_fail_errno {R} `{!FromStatus St R} text s o :
  host_objects s !! self = Some o ->
  exists st, Status.ok st = false /\ Acceptor.fail_errno (R := R) self text s = Ret (from_status st) s.
Proof.
  intros Ho. destruct (host_ToString s o Ho) as [t E]. unfold Acceptor.fail_errno.
  rewrite (bind_Ret _ _ _ _ _ E). eexists. split; [|reflexivity]. set (e := sys_errno (host_world s)). apply ok_false.
  rewrite code_to_status. apply ok_false.
  pose proof (ok_return_errno (St := St) e e (text ++ t)) as Hf. apply ok_false in Hf.
  unfold return_errno in Hf. rewrite code_return_error in Hf. apply ok_false. exact Hf.
Qed.

Definition with_world (w : W) s : HS :=
  MkHost (tcp_acceptor s) (selectors s) (host_objects s) (clients s) (host_resolver s) w.

(** [Listen] never listens.  Whatever the address and the state of the
    acceptor, it answers an error and leaves the acceptor, the selectors and
    the connections as they were: the test after [socket] looks at the member
    descriptor, which the first check has just found to be invalid.  The world
    has at most a new socket, which nothing refers to. *)
Theorem listen_never_listens addr s o (Ho : host_objects s !! self = Some o) :
  exists st w, Listen self addr s =
      Ret st (with_world w s) /\
    Status.ok st = false /\
    (w = host_world s \/ exists family, w = (sys_socket family (host_world s)).2).
Proof.
  destruct (host_ToString s o Ho) as [t E]. unfold Listen. rewrite (bind_Ret _ _ _ _ _ E), (host_GetFd _ _ Ho).
  assert (Hsame : forall st : St, Status.ok st = false -> exists st' w, ret st s =
      Ret st' (with_world w s) /\
    Status.ok st' = false /\ (w = host_world s \/ exists family, w = (sys_socket family (host_world s)).2)).
  { intros st Hst. exists st, (host_world s). split; [by destruct s|]. auto. }
  unfold RET_CHECK at 1. destruct (fd_of o =? kInvalidFdValue) eqn:Efd; [|apply Hsame, ok_ret_check].
  rewrite host_field. unfold RET_CHECK. case_bool_decide; [|apply Hsame, ok_ret_check].
  destruct (ToSockAddr addr storage) as [st buf]. unfold RETURN_IF_ERROR. rewrite (bind_Ret (ret st) _ s st s) by done.
  destruct (Status.ok st) eqn:Est; [|apply Hsame; by rewrite ok_return_error].
  rewrite host_sock. set (s1 := MkHost _ _ _ _ _ _). assert (Ho1 : host_objects s1 !! self = Some o) by exact Ho.
  rewrite (host_GetFd s1 o Ho1). apply Z.eqb_eq in Efd. rewrite Efd, decide_True by done.
  destruct (host_fail_errno (R := St) "::socket failed for: " s1 o Ho1) as (st' & Hst' & E'). rewrite E'.
  eexists _, _. split; [reflexivity|]. split; [done|]. right. by eexists.
Qed.

(** *** Round robin over the selectors of the threads *)

(** The selectors of [k] accepted connections. *)
Fixpoint next_selectors (k : nat) (t : AcceptorThreads) : list ptr * AcceptorThreads :=
  match k with
  | O => ([], t)
  | S k => let '(p, t) := GetNextSelector t in let '(l, t) := next_selectors k t in (p :: l, t)
  end.

Lemma next_selectors_spec k t :
  client_threads_ t <> [] -> 0 <= next_client_thread_ t -> next_client_thread_ t + Z.of_nat k < 2 ^ 64 ->
  next_selectors k t =
    (map (fun i => nth (Z.to_nat ((next_client_thread_ t + Z.of_nat i) mod zlen (client_threads_ t))) (client_threads_ t) 0)
       (seq 0 k),
     MkThreads (next_client_thread_ t + Z.of_nat k) (client_threads_ t)).
Proof.
  revert t. induction k as [|k IH]; intros [n threads] Hne Hn Hk; cbn [client_threads_ next_client_thread_] in *.
  { simpl. by rewrite Z.add_0_r. }
  cbn [next_selectors]. unfold GetNextSelector. cbn [client_threads_ next_client_thread_].
  destruct threads as [|q threads]; [done|]. set (l := q :: threads) in *. rewrite u64_id by lia.
  rewrite IH by (cbn [client_threads_ next_client_thread_]; done || lia). cbn [client_threads_ next_client_thread_ seq map].
  f_equal; [|f_equal; lia]. rewrite Z.add_0_r. f_equal. rewrite <- seq_shift, map_map.
  apply map_ext. intros i. by replace (n + 1 + Z.of_nat i) with (n + Z.of_nat (S i)) by lia.
Qed.

(** *** Accepting *)

Definition counted (c : Counter) s : HS :=
  MkHost (MkTcpAcceptor (acceptor (tcp_acceptor s)) (acceptor_params_ (tcp_acceptor s)) (fetch_add c (stats_ (tcp_acceptor s))))
    (selectors s) (host_objects s) (clients s) (host_resolver s) (host_world s).

(** The acceptor at [self] belongs to the selector at [p], which runs in the
    calling thread. *)
Record running (p : ptr) (o : Object) s : Prop := {
  ru_object : host_objects s !! self = Some o;
  ru_selector : selector_ (base o) = p /\ p <> 0;
  ru_thread : exists l, selectors s !! p = Some l /\ tid_ l = pthread_self (host_world s)
}.

Lemma host_thread p o s : running p o s -> Acceptor.IsInSelectThread self s = Ret true s.
Proof.
  intros [Ho [Hp Hp0] (l & Hl & Ht)]. unfold Acceptor.IsInSelectThread. rewrite (host_via _ _ Ho) by by rewrite Hp.
  rewrite Hp. unfold on_selector. rewrite Hl. cbn. rewrite Ht, Z.eqb_refl. rewrite insert_id by done. by destruct s.
Qed.

Lemma host_check {A} p o s (k : unit -> M HS A) : running p o s -> bind (Acceptor.check_thread self) k s = k tt s.
Proof.
  intros Hs. unfold Acceptor.check_thread. rewrite bind_assoc, (bind_Ret _ _ _ _ _ (host_thread p o s Hs)).
  by rewrite (bind_Ret (check _ _) _ s tt s).
Qed.

(** A callback is given to the selector at [q], which is woken up if it is
    that of another thread. *)
Lemma host_RunInSelectLoop q l (f : Cb) s : selectors s !! q = Some l ->
  exists l' w, on_selector q (RunInSelectLoop (UserFunction f)) s =
      Ret tt (MkHost (tcp_acceptor s) (<[q:=l']> (selectors s)) (host_objects s) (clients s) (host_resolver s) w) /\
    to_run_ (callbacks_ l') = to_run_ (callbacks_ l) ++ [UserFunction f] /\
    registered_ l' = registered_ l /\ loop_ l' = loop_ l /\
    w = if tid_ l =? pthread_self (host_world s) then host_world s
        else (sys_write (input_signal_fd_ l) ["001"%char; "000"%char; "000"%char; "000"%char;
                                               "000"%char; "000"%char; "000"%char; "000"%char] 8 (host_world s)).2.
Proof.
  intros Hl. unfold on_selector. rewrite Hl. unfold RunInSelectLoop, Selector.IsInSelectThread, SendWakeSignal.
  unfold bind, Selector.store, Selector.field, modify, gets, ret, sys_call, with_sel. cbn.
  destruct (tid_ l =? pthread_self (host_world s)); cbn.
  - eexists _, _. by split_and!.
  - destruct (sys_write _ _ _ _) as [r w]. eexists _, _. by split_and!.
Qed.

(** What [HandleReadEvent] leaves when it gives the accepted descriptor [fd] to
    the selector at [q]. *)
Definition handed_over (q : ptr) (fd : Z) s s' : Prop :=
  (exists l l', selectors s !! q = Some l /\ selectors s' = <[q:=l']> (selectors s) /\
     to_run_ (callbacks_ l') = to_run_ (callbacks_ l) ++ [UserFunction (accept_task (TaskInitialize q fd))]) /\
  stats_ (tcp_acceptor s') = fetch_add connections_accept_scheduled (stats_ (tcp_acceptor s)) /\
  acceptor_threads (acceptor_params_ (tcp_acceptor s')) =
    (GetNextSelector (acceptor_threads (acceptor_params_ (tcp_acceptor s)))).2 /\
  acceptor (tcp_acceptor s') = acceptor (tcp_acceptor s) /\ clients s' = clients s /\ host_objects s' = host_objects s.

Lemma dispatch_client_spec fd s :
  let q := (GetNextSelector (acceptor_threads (acceptor_params_ (tcp_acceptor s)))).1 in
  q <> 0 -> is_Some (selectors s !! q) ->
  returns (dispatch_client self fd) s (fun keep s' => keep = true /\ handed_over q fd s s').
Proof.
  intros q Hq [l Hl]. unfold dispatch_client, next_selector, returns, count, Acceptor.store, Acceptor.field, modify, gets.
  unfold bind, ret. cbn [tcp_acceptor acceptor_params_].
  destruct (GetNextSelector (acceptor_threads (acceptor_params_ (tcp_acceptor s)))) as [q' threads] eqn:Et.
  subst q. cbn [fst] in *. rewrite decide_True by done. cbn [selectors host_objects clients host_resolver host_world tcp_acceptor].
  set (s1 := MkHost _ _ _ _ _ _).
  destruct (host_RunInSelectLoop q' l (accept_task (TaskInitialize q' fd)) s1 Hl) as (l' & w & E & Hr & _).
  rewrite E. eexists true, _. split; [reflexivity|]. split; [done|].
  split; [exists l, l'; by split_and!|]. cbn. rewrite Et. by split_and!.
Qed.

(** C28: accepting.  A read event on an acceptor accepts one connection.  When
    there is none the answer says whether to go on; an address that cannot be
    read and a peer that the filter refuses are counted, and the descriptor is
    closed; otherwise the descriptor is not closed but given, once, to the
    selector whose turn it is, as its last callback.  The turns go round
    robin: of [k] connections accepted, the [i]-th goes to the thread
    [(next + i) mod n] of [n]. *)
Theorem accept_dispatch ev p o s (Hs : running p o s) :
  let threads := acceptor_threads (acceptor_params_ (tcp_acceptor s)) in
  let q := (GetNextSelector threads).1 in
  let '((fd, addr), w) := sys_accept (fd_of o) (host_world s) in
  let accepted := with_world w s in
  let closed := with_world (sys_close fd w).2 s in
  (fd < 0 -> Acceptor.HandleReadEvent self ev s = Ret ((sys_errno w =? EAGAIN) || (sys_errno w =? EWOULDBLOCK)) accepted) /\
  (0 <= fd -> match ParseFromSockAddr (St := St) addr (SockAddrLen addr) with
   | Error _ => Acceptor.HandleReadEvent self ev s = Ret true (counted peer_parse_errors closed)
   | Value peer =>
       (CallFilterHandler peer accepted = Ret false accepted ->
          Acceptor.HandleReadEvent self ev s = Ret true (counted filtered_connections closed)) /\
       (CallFilterHandler peer accepted = Ret true accepted -> q <> 0 -> is_Some (selectors s !! q) ->
          returns (Acceptor.HandleReadEvent self ev) s (fun keep s' => keep = true /\ handed_over q fd accepted s'))
   end) /\
  (forall k, client_threads_ threads <> [] -> 0 <= next_client_thread_ threads ->
     next_client_thread_ threads + Z.of_nat k < 2 ^ 64 ->
     (next_selectors k threads).1 =
       map (fun i => nth (Z.to_nat ((next_client_thread_ threads + Z.of_nat i) mod zlen (client_threads_ threads)))
                       (client_threads_ threads) 0) (seq 0 k)).
Proof.
  intros threads q. destruct (sys_accept _ _) as [[fd addr] w] eqn:Ea. intros accepted closed.
  assert (E : Acceptor.HandleReadEvent self ev s =
    (if decide (fd < 0) then ret ((sys_errno w =? EAGAIN) || (sys_errno w =? EWOULDBLOCK))
     else call_on_return (r <- Acceptor.sock (sys_close fd) ;; ret tt)
       match ParseFromSockAddr (St := St) addr (SockAddrLen addr) with
       | Error _ => count peer_parse_errors ;; ret (Some true)
       | Value host_port =>
           accept <- CallFilterHandler host_port ;;
           if negb accept then count filtered_connections ;; ret (Some true) else ret None
       end (dispatch_client self fd)) accepted).
  { unfold Acceptor.HandleReadEvent. rewrite (host_check p o s _ Hs), (host_GetFd _ _ (ru_object _ _ _ Hs)).
    rewrite host_sock, Ea. reflexivity. }
  split; [|split].
  - intros Hfd. rewrite E. by rewrite decide_True by lia.
  - intros Hfd. rewrite decide_False in E by lia. unfold returns. rewrite E.
    destruct (ParseFromSockAddr addr (SockAddrLen addr)) as [peer|st]; [split|].
    + intros Hf. unfold call_on_return. rewrite bind_assoc, (bind_Ret _ _ _ _ _ Hf). cbn [negb].
      unfold count, Acceptor.store, bind, modify, ret. unfold Acceptor.sock. cbn. by destruct (sys_close fd w).
    + intros Hf Hq Hl. unfold call_on_return. rewrite bind_assoc, (bind_Ret _ _ _ _ _ Hf). cbn [negb].
      rewrite (bind_Ret (ret _) _ accepted None accepted) by done. by apply dispatch_client_spec.
    + unfold call_on_return, count, Acceptor.store, bind, modify, ret, Acceptor.sock. cbn. by destruct (sys_close fd w).
  - intros k Hne Hn Hk. by rewrite next_selectors_spec.
Qed.

(** *** Closing *)

(** The state of the selector at [p]. *)
Definition reactor_of (l : Selector L Cb) s : State L Cb W := MkState l (host_objects s) (host_world s).

(** Closing an acceptor in use.  It is disconnected, keeps the error, is
    unregistered and forgets its selector; its descriptor is closed once, and
    then the close handler is called, with the status.  But the descriptor was
    taken out of the object before [Unregister] asks for it, so the event loop
    is told to forget descriptor -1: when the descriptor is closed the loop
    still watches it for the acceptor.  A second [Close] uses a null
    selector. *)
Theorem acceptor_close_spec status p o l s (Hs : running p o s) (Hfd : fd_of o <> kInvalidFdValue)
    (Hl : selectors s !! p = Some l) (Hloop : loop_fine (reactor_of l s)) :
  exists s1 l1 w, Acceptor.InternalClose self status s = CallCloseHandler (G := G) status s1 /\
    acceptor (tcp_acceptor s1) = Acceptor.set_state DISCONNECTED (Acceptor.set_last_error status (acceptor (tcp_acceptor s))) /\
    host_objects s1 !! self = Some (MkObject (MkSelectable 0 (desire_ (base o))) kInvalidFdValue) /\
    selectors s1 = <[p:=l1]> (selectors s) /\ registered_ l1 = registered_ l ∖ {[self]} /\ clients s1 = clients s /\
    host_world s1 = (sys_close (fd_of o) w).2 /\
    watching (MkState l1 (host_objects s1) w) !! fd_of o = watching (reactor_of l s) !! fd_of o /\
    exists why, Acceptor.Close self s1 = Fatal why.
Proof.
  pose proof (ru_object _ _ _ Hs) as Ho. destruct (ru_selector _ _ _ Hs) as [Hsel Hp0].
  destruct (ru_thread _ _ _ Hs) as (l' & Hl' & Ht). simplify_eq. set (p := selector_ (base o)) in *.
  unfold Acceptor.InternalClose. rewrite (host_check p o s _ Hs), (host_GetFd _ _ Ho), (host_fd_store _ _ Ho).
  unfold bind at 1, Acceptor.store at 1, modify. cbn [tcp_acceptor selectors host_objects clients host_resolver host_world].
  rewrite decide_False by done. set (s1 := MkHost _ _ _ _ _ _). set (o1 := MkObject (base o) kInvalidFdValue).
  assert (Ho1 : host_objects s1 !! self = Some o1) by apply lookup_insert_eq.
  unfold bind at 1. rewrite (host_via s1 o1 Ho1) by done. unfold on_selector at 1. change (selectors s1) with (selectors s).
  change (selector_ (base o1)) with p. rewrite Hl. set (r := MkState l (host_objects s1) (host_world s1)).
  assert (Hall : allowed r = true) by (unfold allowed, r; cbn; rewrite Ht, Z.eqb_refl; apply orb_true_r).
  rewrite (Unregister_run p self o1 r Ho1 Hall eq_refl).
  set (rc := calling _ _ _ _). destruct Hloop as (lp & Elp & Hok).
  destruct (on_loop_run (loop_Delete (fd_of o1)) (delete (fd_of o1)) rc) as
    (st & l' & w' & Er & Hok' & Hw' & Hp'); [by exists lp| | |].
  { intros l0 Hok0 Hwl. by apply Delete_law. }
  { intros l0 s' st0 E'. apply Delete_thread in E'. exact E'. }
  rewrite Er. cbv beta iota. rewrite host_sock. unfold bind at 1, Acceptor.store, modify.
  cbn [tcp_acceptor selectors host_objects clients host_resolver host_world]. eexists _, (set_loop (Some l') (sel rc)), w'.
  split; [reflexivity|]. cbn. split; [done|]. split; [by apply lookup_insert_eq|].
  split_and!; try done.
  - unfold watching in Hw' |- *. cbn in *. rewrite Hw', Elp. destruct (Status.ok st); [|done]. by rewrite lookup_delete_ne.
  - unfold Acceptor.Close, Acceptor.IsInSelectThread, Acceptor.via_selector. rewrite bind_assoc.
    rewrite (host_selector _ (MkObject (MkSelectable 0 (desire_ (base o))) kInvalidFdValue)) by (cbn; apply lookup_insert_eq).
    cbn. by eexists.
Qed.

(** *** Wrapping an accepted descriptor *)

Section Wrapping.
Context (p c : ptr) (p_not_null : p <> 0) (fd : Z) (objs : gmap ptr Object) (alarms : Timeouter.Timeouter).
Abbreviation N := (Net L Cb W St Cord H).
Implicit Types n : N.

(** A connection at [c] that is being set up on descriptor [x]; nothing watches
    [fd] before it is registered. *)
Record wrapping (b : bool) (x : Z) n : Prop := {
  wr_state : Connection.state (tcp n) = Connection.DISCONNECTED;
  wr_timeouter : timeouter_ (tcp n) = alarms;
  wr_object : exists o, objects (reactor n) = <[c:=o]> objs /\ fd_of o = x /\ selector_ (base o) = p;
  wr_loop : loop_fine (reactor n);
  wr_thread : tid_ (sel (reactor n)) = pthread_self (world (reactor n));
  wr_watch : b = true -> c ∉ registered_ (sel (reactor n)) /\ watching (reactor n) !! fd = None
}.

Lemma wr_lookup b x n : wrapping b x n -> exists o, objects (reactor n) !! c = Some o /\ fd_of o = x /\ selector_ (base o) = p.
Proof. intros Hn. destruct (wr_object _ _ _ Hn) as (o & Ho & ? & ?). exists o. by rewrite Ho, lookup_insert_eq. Qed.

Lemma wr_quiet b x n w' : wrapping b x n -> quiet (L := L) (world (reactor n)) w' ->
  wrapping b x (MkNet (tcp n) (MkState (sel (reactor n)) (objects (reactor n)) w') (resolver n)).
Proof.
  intros [Hst Hti Ho (l & El & Hl) Ht Hw] [[Hp _] Hq]. destruct (Hq l Hl) as [Hl' Hr].
  split; cbn; [done..|by exists l|by rewrite Hp|]. unfold watching in *. cbn. rewrite El in *. by rewrite Hr.
Qed.

Lemma wr_sock {A B} (f : W -> A * W) (k : A -> M N B) b x n Q :
  wrapping b x n -> (forall w, quiet (L := L) w (f w).2) ->
  (forall a n', wrapping b x n' -> a = (f (world (reactor n))).1 -> returns (k a) n' Q) ->
  returns (bind (Connection.sock f) k) n Q.
Proof. intros Hn Hf Hk. unfold returns. rewrite run_sock. apply Hk; [by apply wr_quiet|done]. Qed.

Lemma wr_fail {R} `{!FromStatus St R} text b x n (Q : R -> N -> Prop) :
  wrapping b x n -> (forall st, Status.ok st = false -> Q (from_status st) n) ->
  returns (Connection.fail_errno (R := R) c text) n Q.
Proof.
  intros Hn Hfail. destruct (wr_lookup b x n Hn) as (o & Ho & _).
  destruct (fail_errno_run c (R := R) text n o Ho) as (st & Hst & E). unfold returns. eauto.
Qed.

Lemma wr_GetFd {B} (k : Z -> M N B) b x n Q : wrapping b x n -> returns (k x) n Q -> returns (bind (Connection.GetFd c) k) n Q.
Proof. intros Hn Hk. destruct (wr_lookup b x n Hn) as (o & Ho & <- & _). unfold returns. by rewrite (run_GetFd c n o Ho). Qed.

Lemma wr_size (size : option Z) (f : Z -> M N St) (rest : M N St) b x n :
  wrapping b x n -> (forall z n, wrapping b x n -> returns (f z) n (fun _ n' => wrapping b x n')) ->
  (forall n, wrapping b x n -> returns rest n (fun _ n' => wrapping b x n')) ->
  returns (set_size size f rest) n (fun _ n' => wrapping b x n').
Proof.
  intros Hn Hf Hr. destruct size as [z|]; simpl; [|by apply Hr].
  eapply returns_if_error; [by apply Hf|by intros; apply Hr|done].
Qed.

Lemma wr_buffers b x n z : wrapping b x n ->
  returns (SetSendBufferSize c z) n (fun _ n' => wrapping b x n') /\ returns (SetRecvBufferSize c z) n (fun _ n' => wrapping b x n').
Proof.
  intros Hn. split; (apply (wr_GetFd _ b x); [done|]); (apply (wr_sock _ _ b x); [done|intros; apply quiet_setsockopt|]);
    intros a n' Hn' _; destruct (negb _); (by apply (wr_fail _ b x)) || by apply returns_ret.
Qed.

Lemma wr_options b x n : wrapping b x n -> returns (Connection.SetSocketOptions (St := St) c) n (fun _ n' => wrapping b x n').
Proof.
  intros Hn. unfold Connection.SetSocketOptions. apply (wr_GetFd _ b x); [done|]. unfold RET_CHECK.
  destruct (negb _); [|by apply returns_ret].
  apply (wr_sock _ _ b x); [done|intros; apply quiet_getfl|]. intros flags n1 Hn1 _. case_decide; [by apply (wr_fail _ b x)|].
  apply (wr_sock _ _ b x); [done|intros; apply quiet_setfl|]. intros r n2 Hn2 _. destruct (negb _); [by apply (wr_fail _ b x)|].
  apply (wr_GetFd _ b x); [done|].
  apply (wr_sock _ _ b x); [done|intros; apply quiet_setsockopt|]. intros r3 n3 Hn3 _. case_decide; [by apply (wr_fail _ b x)|].
  unfold returns. rewrite run_field. apply wr_size; [done|by intros; apply wr_buffers|].
  intros. apply wr_size; [done|by intros; apply wr_buffers|]. intros. by apply returns_ret.
Qed.

Lemma wr_via {A} (m : M (State L Cb W) A) b x n : wrapping b x n -> Connection.via_selector c m n = on_reactor m n.
Proof.
  intros Hn. destruct (wr_lookup b x n Hn) as (o & Ho & _ & Hsel).
  assert (E : on_reactor (on_base c Selectable.selector) n = Ret p n).
  { unfold on_reactor, on_base. rewrite Ho. cbn. rewrite Hsel. destruct o as [base' fd']. cbn.
    rewrite insert_id by done. by destruct n as [? [? ? ?] ?]. }
  unfold Connection.via_selector. rewrite (bind_Ret _ _ _ _ _ E). by rewrite decide_False.
Qed.

Lemma wr_register n : wrapping true fd n ->
  returns (Connection.via_selector c (Register (St := St) p c)) n (fun _ n' => wrapping false fd n').
Proof.
  intros Hn. destruct (wr_watch _ _ _ Hn eq_refl) as [Hc Hfree].
  unfold returns. rewrite (wr_via _ true fd) by done. destruct (wr_lookup true fd n Hn) as (o & Ho & Hfd & Hsel).
  assert (Hall : allowed (reactor n) = true) by (unfold allowed; rewrite (wr_thread _ _ _ Hn), Z.eqb_refl; apply orb_true_r).
  unfold on_reactor. rewrite (Register_run p c o _ Ho Hall Hc (or_intror Hsel)). set (r := calling _ _ _ _).
  destruct (wr_loop _ _ _ Hn) as (l & El & Hok).
  destruct (on_loop_run (loop_Add (fd_of o) c (desire_ (base o))) (insert (fd_of o) (events_of (desire_ (base o)), c)) r)
    as (st & l' & w' & Er & Hok' & _ & Hp' & _); [by exists l| | |].
  { intros l0 Hok0 Hwl. apply Add_law; [done|]. by rewrite <- Hwl, Hfd. }
  { intros l0 s' st0 E'. by apply Add_thread in E'. }
  rewrite Er. eexists _, _. split; [reflexivity|]. destruct (wr_object _ _ _ Hn) as (o' & Ho' & _).
  split; cbn; [apply (wr_state _ _ _ Hn)|apply (wr_timeouter _ _ _ Hn)| |by exists l'| |done].
  - exists (with_selector p o). rewrite Ho'. by rewrite insert_insert_eq.
  - rewrite Hp'. apply (wr_thread _ _ _ Hn).
Qed.

Lemma wr_local b x n : wrapping b x n -> returns (Connection.InitializeLocalAddress (St := St) c) n (fun _ n' => wrapping b x n').
Proof.
  intros Hn. unfold Connection.InitializeLocalAddress. apply (wr_GetFd _ b x); [done|].
  apply (wr_sock _ _ b x); [done|intros; apply quiet_getsockname|]. intros [r [addr len]] n1 Hn1 _.
  case_decide; [by apply (wr_fail _ b x)|]. destruct (wr_lookup b x n1 Hn1) as (o & Ho & _).
  destruct (ToString_run c n1 o Ho) as [t E]. unfold returns. rewrite (bind_Ret _ _ _ _ _ E).
  eapply (returns_assign _ _ _ _ (fun _ n' => n' = n1)); [by apply returns_ret| |by intros ??? ->].
  intros a n' ->. unfold returns. rewrite run_store. eexists _, _. split; [reflexivity|]. by destruct Hn1.
Qed.

(** [getpeername] answers 0 when it succeeds. *)
Context (peers : forall x w, (sys_getpeername x w).1.1 = 0).

Lemma wr_remote b x n : wrapping b x n ->
  returns (InitializeRemoteAddress (St := St) c) n (fun st n' => Status.ok st = false /\ wrapping b x n').
Proof.
  intros Hn. unfold InitializeRemoteAddress. apply (wr_GetFd _ b x); [done|].
  apply (wr_sock _ _ b x); [done|intros; apply quiet_getpeername|]. intros [r [addr len]] n1 Hn1 Hr.
  specialize (peers x (world (reactor n))). rewrite <- Hr in peers. simpl in peers. subst r. simpl.
  by apply (wr_fail _ b x).
Qed.

(** The descriptor of the object is set, or given back. *)
Lemma wr_store b x y n : wrapping b x n ->
  returns (Connection.fd_store c y) n (fun _ n' => wrapping b y n').
Proof.
  intros Hn. destruct (wr_lookup b x n Hn) as (o & Ho & _ & Hsel). unfold returns.
  rewrite <- (bind_ret_r (Connection.fd_store c y)), (run_fd_store c n o Ho). eexists _, _. split; [reflexivity|].
  destruct Hn as [? ? (o' & Ho' & _) ? ? ?]. split; try done. exists (MkObject (base o) y). split; [|done].
  cbn. rewrite Ho'. by rewrite insert_insert_eq.
Qed.

(** The steps of [Wrap] up to the test of [getpeername]. *)
Lemma wr_setup (rest : M N (option St)) n : wrapping true fd n ->
  returns (RETURN_IF_ERROR (Connection.SetSocketOptions c) []
    (RETURN_IF_ERROR (Connection.via_selector c (Register p c)) []
     (RETURN_IF_ERROR (Connection.InitializeLocalAddress c) []
      (RETURN_IF_ERROR (InitializeRemoteAddress c) [] rest)))) n
    (fun r n' => exists st b, r = Some st /\ Status.ok st = false /\ wrapping b fd n').
Proof.
  intros Hn.
  assert (Herr : forall b st n', wrapping b fd n' -> Status.ok st = false ->
    exists st' b', from_status (R := option St) st = Some st' /\ Status.ok st' = false /\ wrapping b' fd n') by eauto 6.
  eapply returns_if_error; [by apply (wr_options true)| |intros st n0 st0 Hn0 _ Hst _; exact (Herr _ _ _ Hn0 Hst)]. intros st1 n1 Hn1 _.
  eapply returns_if_error; [by apply wr_register| |intros st n0 st0 Hn0 _ Hst _; exact (Herr _ _ _ Hn0 Hst)]. intros st2 n2 Hn2 _.
  eapply returns_if_error; [exact (wr_local false _ _ Hn2)| |intros st n0 st0 Hn0 _ Hst _; exact (Herr _ _ _ Hn0 Hst)]. intros st3 n3 Hn3 _.
  eapply returns_if_error; [exact (wr_remote false _ _ Hn3)| |]; [intros st n4 [E _] E'; congruence|].
  intros st n4 st' [_ Hn4] _ Hst' _. by eapply Herr.
Qed.

Lemma wr_Wrap n : wrapping true kInvalidFdValue n ->
  returns (Wrap (St := St) p c fd) n (fun st n' => Status.ok st = false /\ exists b, wrapping b kInvalidFdValue n').
Proof.
  intros Hn. assert (Hin : Connection.IsInSelectThread c n = Ret true n).
  { unfold Connection.IsInSelectThread. rewrite (wr_via _ true kInvalidFdValue) by done. unfold on_reactor. cbn.
    rewrite (wr_thread _ _ _ Hn), Z.eqb_refl. by destruct n. }
  unfold Wrap, Connection.check_thread. unfold returns. rewrite bind_assoc, (bind_Ret _ _ _ _ _ Hin).
  rewrite (bind_Ret (check _ _) _ n tt n) by done.
  apply (wr_GetFd _ true kInvalidFdValue); [done|]. unfold RET_CHECK. rewrite Z.eqb_refl.
  eapply returns_bind; [by apply (wr_store true kInvalidFdValue fd)|]. intros u1 n1 Hn1. unfold call_on_return.
  eapply returns_bind; [by apply wr_setup|]. intros r n2 (st & b & -> & Hst & Hn2).
  eapply returns_bind; [by apply (wr_store b fd kInvalidFdValue)|]. intros u3 n3 Hn3. apply returns_ret. split; [exact Hst|]. exists b. exact Hn3.
Qed.
End Wrapping.

(** Every object that is registered and every connection is in the memory. *)
Record placed (l : Selector L Cb) s : Prop := {
  pl_registered : registered_ l ⊆ dom (host_objects s);
  pl_clients : dom (clients s) ⊆ dom (host_objects s)
}.

(** Destroying a connection that was not wrapped. *)
Lemma delete_client_spec p c t l objs alarms b s fd :
  clients s !! c = Some t -> selectors s !! p = Some l ->
  wrapping p c fd objs alarms b kInvalidFdValue (MkNet t (reactor_of l s) (host_resolver s)) -> c ∉ dom objs ->
  exists l', delete_client p c s =
    Ret tt (MkHost (tcp_acceptor s) (<[p:=l']> (selectors s)) objs (delete c (clients s)) (host_resolver s) (host_world s)).
Proof.
  intros Hc Hl Hn Hfresh. set (n := MkNet _ _ _) in Hn. destruct (wr_object _ _ _ _ _ _ _ _ Hn) as (o & Ho & Hfd & _).
  assert (Hlook : objects (reactor n) !! c = Some o) by (rewrite Ho; apply lookup_insert_eq).
  assert (E : Tcp_dtor (H := H) c n =
    Ret tt (MkNet (set_timeouter (Timeouter_dtor (timeouter_ t) (timers_ (sel (reactor n)))).1 t)
              (MkState (set_timers (Timeouter_dtor (timeouter_ t) (timers_ (sel (reactor n)))).2 (sel (reactor n)))
                 (objects (reactor n)) (world (reactor n))) (resolver n))).
  { unfold Tcp_dtor. rewrite run_field, (wr_state _ _ _ _ _ _ _ _ Hn), (bind_Ret (check _ _) _ n tt n) by done.
    rewrite (run_GetFd c n o Hlook), Hfd. by rewrite (bind_Ret (check _ _) _ n tt n). }
  unfold delete_client, on_client, bind. rewrite Hc, Hl. fold (reactor_of l s). fold n. rewrite E.
  eexists. unfold modify. cbn. f_equal. f_equal; [|by rewrite delete_insert_eq].
  change (host_objects s) with (objects (reactor n)). rewrite Ho, delete_insert_eq. apply delete_id. by apply not_elem_of_dom.
Qed.

Lemma host_on_client {A B} p c t l (m : M (Net L Cb W St Cord H) A) (k : A -> M HS B) a n s :
  clients s !! c = Some t -> selectors s !! p = Some l -> m (MkNet t (reactor_of l s) (host_resolver s)) = Ret a n ->
  bind (on_client p c m) k s =
  k a (MkHost (tcp_acceptor s) (<[p:=sel (reactor n)]> (selectors s)) (objects (reactor n)) (<[c:=tcp n]> (clients s))
         (resolver n) (world (reactor n))).
Proof. intros Hc Hl E. unfold bind, on_client. rewrite Hc, Hl. fold (reactor_of l s). by rewrite E. Qed.

(** Closing the descriptor does not matter to the connection. *)
Lemma wr_close p c fd objs alarms b x n w' :
  wrapping p c fd objs alarms b x n -> quiet_but (L := L) fd (world (reactor n)) w' ->
  wrapping p c fd objs alarms false x (MkNet (tcp n) (MkState (sel (reactor n)) (objects (reactor n)) w') (resolver n)).
Proof.
  intros [Hst Hti Ho (l & El & Hl) Ht _] [[Hp _] Hq]. destruct (Hq l Hl) as [Hl' _].
  split; cbn; [done..|by exists l|by rewrite Hp|done].
Qed.

(** C37: an accepted connection is never delivered: as the test of the result
    of [getpeername] is reversed, [Wrap] fails whenever that call succeeds.
    Then the acceptor counts a connection accepted and an error, closes the
    descriptor, and the new connection is destroyed: no connection and no
    object is left, and the accept handler is not called. *)
Theorem accepted_connection_lost p fd l s (Hp : p <> 0) (Hl : selectors s !! p = Some l)
    (Ht : tid_ l = pthread_self (host_world s)) (Hloop : loop_fine (reactor_of l s))
    (Hfree : watching (reactor_of l s) !! fd = None) (Hplaced : placed l s)
    (Hfresh : allocate (dom (host_objects s)) ∉ dom (host_objects s))
    (Hpeers : forall x w, (sys_getpeername x w).1.1 = 0) :
  returns (InitializeAcceptedConnection p fd) s (fun _ s' =>
    tcp_acceptor s' = tcp_acceptor (counted connection_wrap_errors (counted connections_accepted s)) /\
    clients s' = clients s /\ host_objects s' = host_objects s /\
    (exists l', selectors s' = <[p:=l']> (selectors s)) /\
    exists w, host_world s' = (sys_close fd w).2).
Proof.
  unfold InitializeAcceptedConnection, returns. set (c := allocate (dom (host_objects s))) in *.
  assert (Hin : on_selector p Selector.IsInSelectThread s = Ret true s).
  { unfold on_selector. rewrite Hl. cbn. rewrite Ht, Z.eqb_refl, insert_id by done. by destruct s. }
  rewrite (bind_Ret _ _ _ _ _ Hin), (bind_Ret (check _ _) _ s tt s) by done.
  set (s0 := counted connections_accepted s). rewrite (bind_Ret (count _) _ s tt s0) by done.
  rewrite (host_field s0). set (params := tcp_connection_params _).
  set (t := MkTcp (Connection_ctor p) params HostPort_empty HostPort_empty false false InfinitePast_nanos InfinitePast_nanos
              Timeouter_ctor None : TcpConnection St Cord H).
  set (s1 := MkHost (tcp_acceptor s0) (selectors s) (<[c:=MkObject (Selectable_ctor p) kInvalidFdValue]> (host_objects s))
               (<[c:=t]> (clients s)) (host_resolver s) (host_world s)).
  rewrite (bind_Ret (new_client p params) _ s0 c s1) by (unfold new_client, Tcp_ctor; by rewrite decide_False).
  assert (Hn : wrapping p c fd (host_objects s) Timeouter_ctor true kInvalidFdValue
                 (MkNet t (reactor_of l s1) (host_resolver s1))).
  { split; [done|done|by eexists|done|done|]. intros _. split; [|exact Hfree].
    intros Hc. apply (pl_registered _ _ Hplaced) in Hc. done. }
  destruct (wr_Wrap p c Hp fd _ _ Hpeers _ Hn) as (st & n2 & E & Hst & b & Hn2).
  rewrite (host_on_client p c t l _ _ _ _ s1 (lookup_insert_eq _ _ _) Hl E), Hst. cbn [negb].
  set (s2 := MkHost _ _ _ _ _ _). rewrite (bind_Ret (count _) _ s2 tt (counted connection_wrap_errors s2)) by done.
  rewrite host_sock. set (s3 := MkHost _ _ _ _ _ _).
  pose proof (wr_close p c fd _ _ b _ _ _ Hn2 (quiet_close (L := L) fd (world (reactor n2)))) as Hn3.
  destruct (delete_client_spec p c (tcp n2) (sel (reactor n2)) (host_objects s) Timeouter_ctor false s3 fd) as [l' E'];
    [apply lookup_insert_eq|apply lookup_insert_eq| |done|].
  { destruct Hn3. by split. }
  rewrite E'. eexists tt, _. split; [reflexivity|]. cbn. split; [done|].
  rewrite !delete_insert_eq, delete_id by (apply not_elem_of_dom; pose proof (pl_clients _ _ Hplaced); set_solver).
  split; [done|]. split; [done|]. split; [exists l'; by rewrite insert_insert_eq|]. by eexists.
Qed.
End Spec.

(** ** Witnesses *)
Section Witnesses.
Import RefAbsl RefCord RefInet SortedHeap SimNet.

Abbreviation task_of := ((ptr * Task) + AcceptTask)%type.
Abbreviation host := (Host loop task_of kernel rstatus cord unit unit).

#[local] Instance host_tasks : Tasks task_of := fun self t => inl (self, t).
#[local] Instance host_accept_tasks : AcceptTasks task_of := inr.
#[local] Instance host_application : Application (Net loop task_of kernel rstatus cord unit) unit rstatus := {
  run_connect _ := ret tt;
  run_read _ := ret OkStatus;
  run_write _ := ret OkStatus;
  run_close _ _ _ := ret tt
}.
#[local] Instance host_accept_application : AcceptApplication host unit rstatus := {
  run_filter _ _ := ret true;
  run_accept _ _ := ret tt;
  run_acceptor_close _ _ := ret tt
}.
(** The address after the last one in use. *)
#[local] Instance host_allocator : Allocator := fun X => 1 + foldr Z.max 0 (elements X).

(** The selector is at 9, with the acceptor at 200 on descriptor [fd]. *)
Definition accept_selector (watched : gmap Z (Z * ptr)) (registered : gset ptr) : Selector loop task_of :=
  MkSelector default_params 1 false 3 (-1, -1) 3 3 (Some watched) registered no_callbacks no_alarms None 0.
Definition host_listening (x : AcceptorState) (fd : Z) : host :=
  MkHost (MkTcpAcceptor (MkAcceptor x HostPort_empty OkStatus (Some tt) (Some tt) (Some tt))
            (set_acceptor_threads (set_client_threads [9] AcceptorThreads_ctor) default_acceptor_params) no_statistics)
    {[9 := accept_selector {[fd := (5, 200)]} {[200]}]} {[200 := MkObject (MkSelectable 9 5) fd]} ∅ (MkResolver [] 0 [])
    (Kernel 0 [] ∅ ∅).

Lemma host_running : running 200 9 (MkObject (MkSelectable 9 5) 8) (host_listening LISTENING 8).
Proof. split; [done|done|by eexists]. Qed.

Lemma listen_never_listens_witness :
  exists st w, Listen 200 (MkHostPort None (Some kIPv4Localhost) (Some 80) None) (host_listening DISCONNECTED (-1)) =
    Ret st (with_world w (host_listening DISCONNECTED (-1))) /\ Status.ok st = false.
Proof.
  destruct (listen_never_listens 200 (MkHostPort None (Some kIPv4Localhost) (Some 80) None)
              (host_listening DISCONNECTED (-1)) (MkObject (MkSelectable 9 5) (-1)) eq_refl) as (st & w & E & Hst & _).
  exists st, w. by split.
Defined.

(** The descriptor that the kernel gives goes to the only thread. *)
Lemma accept_dispatch_witness :
  returns (Acceptor.HandleReadEvent 200 (MkEvent 200 kWantRead EPOLLIN)) (host_listening LISTENING 8)
    (fun keep s' => keep = true /\ exists l, selectors s' !! 9 = Some l /\
       to_run_ (callbacks_ l) = [UserFunction (inr (TaskInitialize 9 10))]).
Proof.
  pose proof (accept_dispatch 200 (MkEvent 200 kWantRead EPOLLIN) 9 _ _ host_running) as Hd.
  cbv zeta in Hd. destruct Hd as (_ & Hd & _). specialize (Hd ltac:(vm_compute; discriminate)).
  destruct (ParseFromSockAddr _ _) eqn:Ep; [|vm_compute in Ep; discriminate Ep]. destruct Hd as [_ Hd].
  destruct (Hd ltac:(done) ltac:(done) ltac:(by eexists)) as (keep & s' & E & Hk & (l & l' & Hl & Hs & Hr) & _).
  exists keep, s'. split; [exact E|]. split; [exact Hk|]. exists l'. rewrite Hs.
  split; [apply lookup_insert_eq|]. rewrite Hr. vm_compute in Hl. injection Hl as <-. reflexivity.
Defined.

Lemma acceptor_close_spec_witness :
  exists s1, Acceptor.InternalClose 200 OkStatus (host_listening LISTENING 8) = Ret tt s1 /\
    state_ (acceptor (tcp_acceptor s1)) = DISCONNECTED /\ exists why, Acceptor.Close 200 s1 = Fatal why.
Proof.
  destruct (acceptor_close_spec 200 OkStatus 9 _ _ _ host_running ltac:(done) eq_refl ltac:(by eexists))
    as (s1 & l1 & w & E & Ha & _ & _ & _ & _ & _ & _ & Hc).
  exists s1. rewrite E. split; [|by rewrite Ha].
  unfold CallCloseHandler. rewrite host_field, Ha. reflexivity.
Defined.

Lemma accepted_connection_lost_witness :
  returns (InitializeAcceptedConnection 9 10) (host_listening LISTENING 8) (fun _ s' =>
    clients s' = ∅ /\ stats_ (tcp_acceptor s') connection_wrap_errors = 1).
Proof.
  destruct (accepted_connection_lost 9 10 (accept_selector {[8 := (5, 200)]} {[200]}) (host_listening LISTENING 8)
              ltac:(done) eq_refl eq_refl ltac:(by eexists) eq_refl) as (u & s' & E & Ha & Hc & _).
  - split; set_solver.
  - apply not_elem_of_dom. reflexivity.
  - done.
  - exists u, s'. split; [exact E|]. split; [exact Hc|]. rewrite Ha. reflexivity.
Defined.

(** The selector still has the connection that was destroyed, and the event
    loop watches its descriptor. *)
Lemma lost_connection_dangles :
  match InitializeAcceptedConnection 9 10 (host_listening LISTENING 8) with
  | Ret _ s' =>
      match selectors s' !! 9 with
      | Some l => elements (registered_ l) = [201; 200] /\ loop_ l = Some {[8 := (5, 200); 10 := (5, 201)]} /\
                  host_objects s' !! 201 = None
      | None => False
      end
  | _ => False
  end.
Proof. vm_compute. done. Qed.

(** Without an accept handler a connection is to be dropped, which stops the
    process: it has no close handler. *)
Lemma dropped_connection_stops :
  let with_client : host :=
    MkHost (tcp_acceptor (host_listening LISTENING 8)) {[9 := accept_selector {[7 := (5, 100)]} {[100]}]}
      (<[100:=MkObject (MkSelectable 9 5) 7]> (host_objects (host_listening LISTENING 8)))
      {[100 := on_connection clear_all_handlers (net_tcp CONNECTED [])]} (MkResolver [] 0 []) (Kernel 0 [] ∅ ∅) in
  match run_accept_task 200 (TaskDrop 100) with_client with Ret _ _ => False | Fatal why => why = "null pointer" end.
Proof. vm_compute. done. Qed.
End Witnesses.
