(* ===== verification/SslUtils.v ===== *)
(** * SSL utilities ([whisperlib/net/ssl_connection.h], [SslUtils] in
    [whisperlib/net/ssl_connection.cc])

    OpenSSL is a parameter: its functions are the class [OpenSsl] over the type
    [W] of the rest of the world, which contains the memory of the library.  Its
    objects are given by their addresses, and a null pointer is 0. *)

From S2P Require Import Prelude Status Errno Posix Socket.

(** ** OpenSSL *)

Definition SSL_ERROR_NONE : Z := 0.
Definition SSL_ERROR_SSL : Z := 1.
Definition SSL_ERROR_WANT_READ : Z := 2.
Definition SSL_ERROR_WANT_WRITE : Z := 3.
Definition SSL_ERROR_WANT_X509_LOOKUP : Z := 4.
Definition SSL_ERROR_SYSCALL : Z := 5.
Definition SSL_ERROR_ZERO_RETURN : Z := 6.
Definition SSL_ERROR_WANT_CONNECT : Z := 7.
Definition SSL_ERROR_WANT_ACCEPT : Z := 8.
Definition SSL_NOTHING : Z := 1.
Definition SSL_WRITING : Z := 2.
Definition SSL_READING : Z := 3.
Definition SSL_X509_LOOKUP : Z := 4.
Definition SSL_MODE_ENABLE_PARTIAL_WRITE : Z := 1.
Definition SSL_MODE_ACCEPT_MOVING_WRITE_BUFFER : Z := 2.
Definition SSL_VERIFY_NONE : Z := 0.

Class OpenSsl (W : Type) := {
  SSL_library_init : W -> W;
  (* the code of the last error in the queue, its file and line; it stays there *)
  ERR_peek_last_error_line : W -> Z * (str * Z);
  ERR_error_string_n : Z -> str;
  (* <stdio.h> *)
  sys_fopen : str -> W -> Z * W;
  sys_fclose : Z -> W -> W;
  (* the result, which is also what is put into the last argument but one *)
  PEM_read_X509 : Z -> W -> Z * W;
  PEM_read_PrivateKey : Z -> W -> Z * W;
  X509_free : Z -> W -> W;
  EVP_PKEY_free : Z -> W -> W;
  SSL_CTX_new : W -> Z * W;
  SSL_CTX_free : Z -> W -> W;
  SSL_CTX_get_mode : Z -> W -> Z;
  SSL_CTX_set_mode : Z -> Z -> W -> Z * W;
  SSL_CTX_use_certificate : Z -> Z -> W -> Z * W;
  SSL_CTX_use_PrivateKey : Z -> Z -> W -> Z * W;
  SSL_CTX_check_private_key : Z -> W -> Z;
  SSL_CTX_get_verify_mode : Z -> W -> Z;
  SSL_get_ex_new_index : W -> Z * W;
  SSL_new : Z -> W -> Z * W;
  SSL_free : Z -> W -> W;
  SSL_set_ex_data : Z -> Z -> W -> W;
  SSL_set_verify : Z -> Z -> W -> W;
  SSL_set_bio : Z -> Z -> Z -> W -> W;
  SSL_set_accept_state : Z -> W -> W;
  SSL_set_connect_state : Z -> W -> W;
  BIO_new : W -> Z * W;
  BIO_free_all : Z -> W -> W;
  BIO_write : Z -> str -> W -> Z * W;
  (* the result, and the bytes put into the buffer *)
  BIO_read : Z -> Z -> W -> (Z * str) * W;
  BIO_pending : Z -> W -> Z;
  SSL_pending : Z -> W -> Z;
  SSL_read : Z -> Z -> W -> (Z * str) * W;
  SSL_write : Z -> str -> W -> Z * W;
  (* SSL_get_error(ssl, result) *)
  SSL_get_error : Z -> Z -> W -> Z;
  SSL_is_init_finished : Z -> W -> bool;
  (* the result, and whether the verification callback was told of a failure *)
  SSL_do_handshake : Z -> W -> (Z * bool) * W;
  SSL_shutdown : Z -> W -> Z * W;
  (* the data of a memory BIO: null is [None] *)
  BIO_get_mem_data : Z -> W -> option str;
  (* absl::CEscape *)
  CEscape : str -> str
}.

(** ** Names *)

Definition SslErrorName (err : Z) : str :=
  if err =? SSL_ERROR_NONE then "SSL_ERROR_NONE"
  else if err =? SSL_ERROR_SSL then "SSL_ERROR_SSL"
  else if err =? SSL_ERROR_WANT_READ then "SSL_ERROR_WANT_READ"
  else if err =? SSL_ERROR_WANT_WRITE then "SSL_ERROR_WANT_WRITE"
  else if err =? SSL_ERROR_WANT_X509_LOOKUP then "SSL_ERROR_WANT_X509_LOOKUP"
  else if err =? SSL_ERROR_SYSCALL then "SSL_ERROR_SYSCALL"
  else if err =? SSL_ERROR_ZERO_RETURN then "SSL_ERROR_ZERO_RETURN"
  else if err =? SSL_ERROR_WANT_CONNECT then "SSL_ERROR_WANT_CONNECT"
  else if err =? SSL_ERROR_WANT_ACCEPT then "SSL_ERROR_WANT_ACCEPT"
  else "UNKNOWN".

Definition SslWantName (want : Z) : str :=
  if want =? SSL_NOTHING then "SSL_NOTHING"
  else if want =? SSL_WRITING then "SSL_WRITING"
  else if want =? SSL_READING then "SSL_READING"
  else if want =? SSL_X509_LOOKUP then "SSL_X509_LOOKUP"
  else "UNKNWOWN".

Section Utils.
Context {W St : Type} `{!OpenSsl W} `{!HasErrno W} `{!Absl St} `{!Strerror}.
(** A bound on the entries of the error queue that are looked at. *)
Context (fuel : nat).

Definition ossl {A} (f : W -> A * W) : M W A := fun w => let '(a, w) := f w in Ret a w.

(** *** The last error *)

(** The loop looks at the last error and leaves it in the queue. *)
Fixpoint error_stack (fuel : nat) (errors : list str) : M W (list str) :=
  '(e, (file, line)) <- gets ERR_peek_last_error_line ;;
  if decide (e = 0) then ret errors
  else
    match fuel with
    | O => fatal "out of fuel"
    | S fuel =>
        error_stack fuel (errors ++ [("  " : str) ++ ERR_error_string_n e ++ ":" ++ file ++ ":" ++ StrInt line])
    end.

(** [absl::StrJoin(pieces, "\n")] *)
Fixpoint join_lines (pieces : list str) : str :=
  match pieces with
  | [] => []
  | [piece] => piece
  | piece :: pieces => piece ++ "010"%char :: join_lines pieces
  end.

Definition SslLastError : M W str :=
  errors <- error_stack fuel ["SSL error stack:" : str] ;;
  e <- gets sys_errno ;;
  ret (join_lines (errors ++ [("General error: " : str) ++ ErrnoToString e])).

(** [return status::InternalErrorBuilder() << text << SslLastError();] *)
Definition ssl_failure {R} `{!FromStatus St R} (text : str) : M W R :=
  e <- SslLastError ;;
  ret (return_error (InternalErrorBuilder []) (text ++ e)).

Definition SslPrintableBio (bio : Z) : M W str :=
  d <- gets (BIO_get_mem_data bio) ;;
  match d with None => ret [] | Some d => ret (CEscape d) end.

(** *** Certificates, keys and contexts *)

Definition SslLibraryInit : M W unit := modify SSL_library_init.

(** The two functions that load an object of a file. *)
Definition load_file (opening failed : str) (read : Z -> W -> Z * W) (filename : str) : M W (StatusOr St Z) :=
  f <- ossl (sys_fopen filename) ;;
  if decide (f = 0) then
    e <- gets sys_errno ;;
    ret (return_errno e e (opening ++ filename ++ "`"))
  else
    x <- ossl (read f) ;;
    modify (sys_fclose f) ;;
    if decide (x = 0) then ret (return_error (InternalErrorBuilder []) (failed ++ filename ++ "`"))
    else ret (Value x).
Definition SslLoadCertificateFile : str -> M W (StatusOr St Z) :=
  load_file "Opening certificate file: `" "PEM_read_X509 failed to load certificate from file: `" PEM_read_X509.
Definition SslLoadPrivateKeyFile : str -> M W (StatusOr St Z) :=
  load_file "Opening private key file: `" "PEM_read_PrivateKey failed to load key from file: `" PEM_read_PrivateKey.

(** The object is null for an empty name. *)
Definition load_if_named (load : str -> M W (StatusOr St Z)) (filename : str) : M W (StatusOr St Z) :=
  if decide (filename = []) then ret (Value 0) else load filename.

(** The deleters of [clear_cert] and [clear_key]. *)
Definition free_certificate (x : Z) : M W unit := if decide (x = 0) then ret tt else modify (X509_free x).
Definition free_key (x : Z) : M W unit := if decide (x = 0) then ret tt else modify (EVP_PKEY_free x).

(** [cleanup] runs when [m] is left. *)
Definition guarded (m : M W (StatusOr St Z)) (cleanup : M W unit) : M W (StatusOr St Z) :=
  r <- m ;; cleanup ;; ret r.

(** The context once it is made: [clear_cert], [clear_key] and [clear_ctx] are
    reset in this order, and run in the reverse order of their declaration. *)
Definition fill_context (certificate key ctx : Z) : M W (StatusOr St Z) :=
  mode <- gets (SSL_CTX_get_mode ctx) ;;
  let new_mode := Z.lor (Z.lor mode SSL_MODE_ENABLE_PARTIAL_WRITE) SSL_MODE_ACCEPT_MOVING_WRITE_BUFFER in
  result <- ossl (SSL_CTX_set_mode ctx new_mode) ;;
  if decide (result <> new_mode) then
    guarded (ssl_failure "SSL_CTX_set_mode failed: ")
      (modify (SSL_CTX_free ctx) ;; free_key key ;; free_certificate certificate)
  else
    r <- (if decide (certificate = 0) then ret 1 else ossl (SSL_CTX_use_certificate ctx certificate)) ;;
    if decide (r <= 0) then
      guarded (ssl_failure "SSL_CTX_use_certificate failed: ")
        (modify (SSL_CTX_free ctx) ;; free_key key ;; free_certificate certificate)
    else
      r <- (if decide (key = 0) then ret 1 else ossl (SSL_CTX_use_PrivateKey ctx key)) ;;
      if decide (r <= 0) then
        guarded (ssl_failure "SSL_CTX_use_PrivateKey failed: ")
          (modify (SSL_CTX_free ctx) ;; free_key key)
      else ret (Value ctx).

Definition SslCreateContext (certificate_filename key_filename : str) : M W (StatusOr St Z) :=
  SslLibraryInit ;;
  ASSIGN_OR_RETURN (load_if_named SslLoadCertificateFile certificate_filename) [] (fun certificate =>
    key_result <- load_if_named SslLoadPrivateKeyFile key_filename ;;
    match key_result with
    | Error st => guarded (ret (return_error (StatusWriter_ctor st) [])) (free_certificate certificate)
    | Value key =>
        ctx <- ossl SSL_CTX_new ;;
        if decide (ctx = 0) then
          guarded (ssl_failure "SSL_CTX_new failed: ") (free_key key ;; free_certificate certificate)
        else fill_context certificate key ctx
    end).

Definition SslDeleteContext (ctx : Z) : M W unit :=
  if decide (ctx = 0) then ret tt else modify (SSL_CTX_free ctx).

(** ** Correctness *)

(** Looking at the last error ends only when there is none: as it is not taken
    out of the queue, the loop sees the same error for ever. *)
Lemma error_stack_spec n errors (w : W) :
  error_stack n errors w =
    if decide ((ERR_peek_last_error_line w).1 = 0) then Ret errors w else Fatal "out of fuel".
Proof.
  revert errors. induction n as [|n IH]; intros errors; cbn [error_stack]; unfold bind, gets; cbv beta iota.
  - destruct (ERR_peek_last_error_line w) as [e [file line]]. cbn [fst]. cbv beta iota. by destruct (decide (e = 0)).
  - destruct (ERR_peek_last_error_line w) as [e [file line]] eqn:E. cbn [fst]. cbv beta iota.
    destruct (decide (e = 0)) as [|He]; [done|]. rewrite IH. rewrite ?E. cbn [fst]. by rewrite decide_False.
Qed.
(** [SslLastError], which every failure of the SSL code asks for its
    message, returns only when OpenSSL has no error to report: the loop looks
    at the last error of the queue and never takes it out, so with an error in
    the queue it runs for ever, whatever the bound on its iterations. *)
Theorem ssl_last_error_diverges (w : W) :
  if decide ((ERR_peek_last_error_line w).1 = 0) then
    SslLastError w = Ret (join_lines ["SSL error stack:" : str; ("General error: " : str) ++ ErrnoToString (sys_errno w)]) w
  else SslLastError w = Fatal "out of fuel" /\
    forall text, ssl_failure (R := St) text w = Fatal "out of fuel".
Proof.
  assert (E : SslLastError w =
    if decide ((ERR_peek_last_error_line w).1 = 0) then
      Ret (join_lines ["SSL error stack:" : str; ("General error: " : str) ++ ErrnoToString (sys_errno w)]) w
    else Fatal "out of fuel").
  { unfold SslLastError, bind. rewrite error_stack_spec. by destruct (decide _). }
  destruct (decide _); [done|]. split; [done|]. intros text. unfold ssl_failure, bind. by rewrite E.
Qed.
End Utils.
