(* ===== verification/SslConnection.v ===== *)
(** * SSL connections ([whisperlib/net/ssl_connection.h], [SslConnection] in
    [whisperlib/net/ssl_connection.cc])

    An [SslConnection] is a [Connection] over a [TcpConnection] that it owns and
    whose handlers are its functions.  The state is that of the TCP connection
    (Connection.v); the members of the SSL connection are in the rest of the
    world, as the TCP connection sees it ([HasSsl]).  OpenSSL is that of
    SslUtils.v.  The functions of the application are a parameter; messages to
    the log are left out. *)

From S2P Require Import Prelude Status Errno CordIo Posix Address SelectorLoop Selectable Selector.
From S2P Require Import Timeouter Dns Socket Connection SslUtils.

Definition ssl_connection_cc : str := "whisperlib/net/ssl_connection.cc".

(** ** The state *)

Record SslConnectionParams := MkSslParams {
  ssl_context : Z;
  allow_unchecked_private_key : bool;
  tcp_params : TcpConnectionParams
}.
Definition default_ssl_params : SslConnectionParams := MkSslParams 0 false default_tcp_params.

(** The functions given to the TCP connection as its handlers. *)
Inductive SslHandler := OnTcpConnect | OnTcpRead | OnTcpWrite | OnTcpClose.

(** [has_tcp] is that [tcp_connection_] is not null; [verification_index_] is
    static. *)
Record SslConnection (St Cord G : Type) := MkSsl {
  ssl_base : Connection St Cord G;
  ssl_params_ : SslConnectionParams;
  has_tcp : bool;
  p_ctx_ : Z;
  p_bio_read_ : Z;
  p_bio_write_ : Z;
  p_ssl_ : Z;
  is_server_side_ : bool;
  handshake_finished_ : bool;
  read_blocked_ : bool;
  read_blocked_on_write_ : bool;
  write_blocked_on_read_ : bool;
  ssl_out_count_ : Z;
  ssl_in_count_ : Z;
  verification_failed_ : bool;
  verification_index_ : Z
}.
Arguments MkSsl {_ _ _} _ _ _ _ _ _ _ _ _ _ _ _ _ _ _ _.
Arguments ssl_base {_ _ _} _.
Arguments ssl_params_ {_ _ _} _.
Arguments has_tcp {_ _ _} _.
Arguments p_ctx_ {_ _ _} _.
Arguments p_bio_read_ {_ _ _} _.
Arguments p_bio_write_ {_ _ _} _.
Arguments p_ssl_ {_ _ _} _.
Arguments is_server_side_ {_ _ _} _.
Arguments handshake_finished_ {_ _ _} _.
Arguments read_blocked_ {_ _ _} _.
Arguments read_blocked_on_write_ {_ _ _} _.
Arguments write_blocked_on_read_ {_ _ _} _.
Arguments ssl_out_count_ {_ _ _} _.
Arguments ssl_in_count_ {_ _ _} _.
Arguments verification_failed_ {_ _ _} _.
Arguments verification_index_ {_ _ _} _.

Section Fields.
Context {St Cord G : Type}.
Abbreviation Ssl := (SslConnection St Cord G).

Definition set_ssl_base (x : Connection St Cord G) (c : Ssl) : Ssl :=
  MkSsl x (ssl_params_ c) (has_tcp c) (p_ctx_ c) (p_bio_read_ c) (p_bio_write_ c) (p_ssl_ c)
    (is_server_side_ c) (handshake_finished_ c) (read_blocked_ c) (read_blocked_on_write_ c)
    (write_blocked_on_read_ c) (ssl_out_count_ c) (ssl_in_count_ c) (verification_failed_ c)
    (verification_index_ c).
Definition set_has_tcp (x : bool) (c : Ssl) : Ssl :=
  MkSsl (ssl_base c) (ssl_params_ c) x (p_ctx_ c) (p_bio_read_ c) (p_bio_write_ c) (p_ssl_ c)
    (is_server_side_ c) (handshake_finished_ c) (read_blocked_ c) (read_blocked_on_write_ c)
    (write_blocked_on_read_ c) (ssl_out_count_ c) (ssl_in_count_ c) (verification_failed_ c)
    (verification_index_ c).
Definition set_p_ctx (x : Z) (c : Ssl) : Ssl :=
  MkSsl (ssl_base c) (ssl_params_ c) (has_tcp c) x (p_bio_read_ c) (p_bio_write_ c) (p_ssl_ c)
    (is_server_side_ c) (handshake_finished_ c) (read_blocked_ c) (read_blocked_on_write_ c)
    (write_blocked_on_read_ c) (ssl_out_count_ c) (ssl_in_count_ c) (verification_failed_ c)
    (verification_index_ c).
Definition set_p_bio_read (x : Z) (c : Ssl) : Ssl :=
  MkSsl (ssl_base c) (ssl_params_ c) (has_tcp c) (p_ctx_ c) x (p_bio_write_ c) (p_ssl_ c)
    (is_server_side_ c) (handshake_finished_ c) (read_blocked_ c) (read_blocked_on_write_ c)
    (write_blocked_on_read_ c) (ssl_out_count_ c) (ssl_in_count_ c) (verification_failed_ c)
    (verification_index_ c).
Definition set_p_bio_write (x : Z) (c : Ssl) : Ssl :=
  MkSsl (ssl_base c) (ssl_params_ c) (has_tcp c) (p_ctx_ c) (p_bio_read_ c) x (p_ssl_ c)
    (is_server_side_ c) (handshake_finished_ c) (read_blocked_ c) (read_blocked_on_write_ c)
    (write_blocked_on_read_ c) (ssl_out_count_ c) (ssl_in_count_ c) (verification_failed_ c)
    (verification_index_ c).
Definition set_p_ssl (x : Z) (c : Ssl) : Ssl :=
  MkSsl (ssl_base c) (ssl_params_ c) (has_tcp c) (p_ctx_ c) (p_bio_read_ c) (p_bio_write_ c) x
    (is_server_side_ c) (handshake_finished_ c) (read_blocked_ c) (read_blocked_on_write_ c)
    (write_blocked_on_read_ c) (ssl_out_count_ c) (ssl_in_count_ c) (verification_failed_ c)
    (verification_index_ c).
Definition set_is_server_side (x : bool) (c : Ssl) : Ssl :=
  MkSsl (ssl_base c) (ssl_params_ c) (has_tcp c) (p_ctx_ c) (p_bio_read_ c) (p_bio_write_ c) (p_ssl_ c)
    x (handshake_finished_ c) (read_blocked_ c) (read_blocked_on_write_ c)
    (write_blocked_on_read_ c) (ssl_out_count_ c) (ssl_in_count_ c) (verification_failed_ c)
    (verification_index_ c).
Definition set_handshake_finished (x : bool) (c : Ssl) : Ssl :=
  MkSsl (ssl_base c) (ssl_params_ c) (has_tcp c) (p_ctx_ c) (p_bio_read_ c) (p_bio_write_ c) (p_ssl_ c)
    (is_server_side_ c) x (read_blocked_ c) (read_blocked_on_write_ c) (write_blocked_on_read_ c)
    (ssl_out_count_ c) (ssl_in_count_ c) (verification_failed_ c) (verification_index_ c).
Definition set_read_blocked (x : bool) (c : Ssl) : Ssl :=
  MkSsl (ssl_base c) (ssl_params_ c) (has_tcp c) (p_ctx_ c) (p_bio_read_ c) (p_bio_write_ c) (p_ssl_ c)
    (is_server_side_ c) (handshake_finished_ c) x (read_blocked_on_write_ c)
    (write_blocked_on_read_ c) (ssl_out_count_ c) (ssl_in_count_ c) (verification_failed_ c)
    (verification_index_ c).
Definition set_read_blocked_on_write (x : bool) (c : Ssl) : Ssl :=
  MkSsl (ssl_base c) (ssl_params_ c) (has_tcp c) (p_ctx_ c) (p_bio_read_ c) (p_bio_write_ c) (p_ssl_ c)
    (is_server_side_ c) (handshake_finished_ c) (read_blocked_ c) x (write_blocked_on_read_ c)
    (ssl_out_count_ c) (ssl_in_count_ c) (verification_failed_ c) (verification_index_ c).
Definition set_write_blocked_on_read (x : bool) (c : Ssl) : Ssl :=
  MkSsl (ssl_base c) (ssl_params_ c) (has_tcp c) (p_ctx_ c) (p_bio_read_ c) (p_bio_write_ c) (p_ssl_ c)
    (is_server_side_ c) (handshake_finished_ c) (read_blocked_ c) (read_blocked_on_write_ c) x
    (ssl_out_count_ c) (ssl_in_count_ c) (verification_failed_ c) (verification_index_ c).
Definition set_ssl_out_count (x : Z) (c : Ssl) : Ssl :=
  MkSsl (ssl_base c) (ssl_params_ c) (has_tcp c) (p_ctx_ c) (p_bio_read_ c) (p_bio_write_ c) (p_ssl_ c)
    (is_server_side_ c) (handshake_finished_ c) (read_blocked_ c) (read_blocked_on_write_ c)
    (write_blocked_on_read_ c) x (ssl_in_count_ c) (verification_failed_ c) (verification_index_ c).
Definition set_ssl_in_count (x : Z) (c : Ssl) : Ssl :=
  MkSsl (ssl_base c) (ssl_params_ c) (has_tcp c) (p_ctx_ c) (p_bio_read_ c) (p_bio_write_ c) (p_ssl_ c)
    (is_server_side_ c) (handshake_finished_ c) (read_blocked_ c) (read_blocked_on_write_ c)
    (write_blocked_on_read_ c) (ssl_out_count_ c) x (verification_failed_ c) (verification_index_ c).
Definition set_verification_failed (x : bool) (c : Ssl) : Ssl :=
  MkSsl (ssl_base c) (ssl_params_ c) (has_tcp c) (p_ctx_ c) (p_bio_read_ c) (p_bio_write_ c) (p_ssl_ c)
    (is_server_side_ c) (handshake_finished_ c) (read_blocked_ c) (read_blocked_on_write_ c)
    (write_blocked_on_read_ c) (ssl_out_count_ c) (ssl_in_count_ c) x (verification_index_ c).
Definition set_verification_index (x : Z) (c : Ssl) : Ssl :=
  MkSsl (ssl_base c) (ssl_params_ c) (has_tcp c) (p_ctx_ c) (p_bio_read_ c) (p_bio_write_ c) (p_ssl_ c)
    (is_server_side_ c) (handshake_finished_ c) (read_blocked_ c) (read_blocked_on_write_ c)
    (write_blocked_on_read_ c) (ssl_out_count_ c) (ssl_in_count_ c) (verification_failed_ c) x.

(** [SslConnection::SslConnection] *)
Definition Ssl_ctor `{!Absl St} `{!CordEdit Cord} (selector : ptr) (params : SslConnectionParams) (index : Z) : Ssl :=
  MkSsl (Connection_ctor selector) params false 0 0 0 0 false false false false false 0 0 false index.
End Fields.

(** The SSL connection in the rest of the world of its TCP connection. *)
Class HasSsl (W St Cord G : Type) := {
  get_ssl : W -> SslConnection St Cord G;
  put_ssl : SslConnection St Cord G -> W -> W
}.

(** What an SSL connection gives to [RunInSelectLoop]. *)
Inductive SslTask := TaskTcpFlushAndClose | TaskCallConnectHandler.
Class SslTasks (Cb : Type) := ssl_task : SslTask -> Cb.

Section Ssl.
Context {L Cb W St Cord G : Type}.
Context `{!HasErrno W} `{!PosixFile W} `{!SelectorSys W} `{!Sockets W} `{!HeapApi} `{!OpenSsl W}.
Context `{!BigEndian} `{!Inet} `{!TimeFormat} `{!Uninitialized} `{!CordApi Cord} `{!CordEdit Cord} `{!Absl St} `{!Strerror}.
Context `{!EventLoop L W St} `{!Tasks Cb} `{!SslTasks Cb} `{!HasSsl W St Cord G}.
Context `{!Application (Net L Cb W St Cord SslHandler) G St}.
(** The addresses of the selector, of the TCP connection and of the SSL
    connection, and a bound on the loops. *)
Context (this self owner : ptr) (fuel : nat).

Abbreviation N := (Net L Cb W St Cord SslHandler).
Abbreviation Ssl := (SslConnection St Cord G).

Definition ssl_field {A} (f : Ssl -> A) : M N A := gets (fun s => f (get_ssl (world (reactor s)))).
Definition ssl_store (f : Ssl -> Ssl) : M N unit :=
  modify (fun s => MkNet (tcp s)
    (MkState (sel (reactor s)) (objects (reactor s)) (put_ssl (f (get_ssl (world (reactor s)))) (world (reactor s))))
    (resolver s)).
Definition base_store (f : Connection St Cord G -> Connection St Cord G) : M N unit :=
  ssl_store (fun c => set_ssl_base (f (ssl_base c)) c).
Definition lib_read {A} (f : W -> A) : M N A := gets (fun s => f (world (reactor s))).
Definition lib_do (f : W -> W) : M N unit := sock (fun w => (tt, f w)).
Definition in_world {A} (m : M W A) : M N A := on_world m.
Definition ssl_state : M N ConnState := ssl_field (fun c => state_ (ssl_base c)).

(** [return status::InternalErrorBuilder() << text << SslUtils::SslLastError();] *)
Definition ssl_fail {R} `{!FromStatus St R} (text : str) : M N R := in_world (ssl_failure fuel text).

(** *** The TCP connection *)

Definition on_tcp (m : M N St) : M N St :=
  has <- ssl_field has_tcp ;;
  if has then m else ret OkStatus.
Definition RequestReadEvents (enable : bool) : M N St := on_tcp (Connection.RequestReadEvents this self enable).
Definition RequestWriteEvents (enable : bool) : M N St := on_tcp (Connection.RequestWriteEvents this self enable).
Definition SetSendBufferSize (size : Z) : M N St := on_tcp (Connection.SetSendBufferSize self size).
Definition SetRecvBufferSize (size : Z) : M N St := on_tcp (Connection.SetRecvBufferSize self size).
Definition GetLocalAddress : M N HostPort :=
  has <- ssl_field has_tcp ;; if has then Connection.GetLocalAddress else ret HostPort_empty.
Definition GetRemoteAddress : M N HostPort :=
  has <- ssl_field has_tcp ;; if has then Connection.GetRemoteAddress else ret HostPort_empty.

Definition bool_text (b : bool) : str := if b then "1" else "0".
Definition ToString : M N str :=
  c <- ssl_field id ;;
  let prefix := ("[ SSL connection: " : str) ++ Connection.StateName (state_ (ssl_base c)) ++ " server_side: "
    ++ bool_text (is_server_side_ c) ++ " handshaked: " ++ bool_text (handshake_finished_ c)
    ++ " read blocked: " ++ bool_text (read_blocked_ c)
    ++ " read blocked on write: " ++ bool_text (read_blocked_on_write_ c)
    ++ " write blocked on read: " ++ bool_text (write_blocked_on_read_ c) in
  if has_tcp c then t <- Tcp_ToString self ;; ret (prefix ++ " - " ++ t ++ " ]")
  else ret (prefix ++ " - No tcp connection]").

(** [SetTcpConnectionHandlers] *)
Definition ssl_handlers : Handlers SslHandler :=
  MkHandlers (Some OnTcpConnect) (Some OnTcpRead) (Some OnTcpWrite) (Some OnTcpClose).
Definition SetTcpConnectionHandlers : M N unit := store (on_connection (set_handlers ssl_handlers)).

(** [net_selector_->RunInSelectLoop(...)] *)
Definition defer (t : SslTask) : M N unit :=
  p <- ssl_field (fun c => net_selector_ (ssl_base c)) ;;
  if decide (p = 0) then fatal "null pointer" else on_reactor (RunInSelectLoop (UserFunction (ssl_task t))).

Definition FlushAndClose : M N unit :=
  base_store (set_state FLUSHING) ;;
  st <- RequestWriteEvents true ;;
  ret tt.

(** *** The handlers of the application *)

Definition CallConnectHandler : M N unit :=
  h <- ssl_field (fun c => connect_handler_ (handlers (ssl_base c))) ;;
  match h with Some h => run_connect h | None => ret tt end.
Definition CallReadHandler : M N St :=
  h <- ssl_field (fun c => read_handler_ (handlers (ssl_base c))) ;;
  match h with
  | None =>
      s <- ToString ;;
      RET_CHECK false "read_handler_ != nullptr" connection_cc 268
        ("No read handler set for connection: " ++ s) (ret OkStatus)
  | Some h => run_read h
  end.
Definition CallWriteHandler : M N St :=
  h <- ssl_field (fun c => write_handler_ (handlers (ssl_base c))) ;;
  match h with
  | None =>
      s <- ToString ;;
      RET_CHECK false "write_handler_ != nullptr" connection_cc 273
        ("No write handler set for connection: " ++ s) (ret OkStatus)
  | Some h => run_write h
  end.
Definition CallCloseHandler (err : St) (directive : CloseDirective) : M N unit :=
  h <- ssl_field (fun c => close_handler_ (handlers (ssl_base c))) ;;
  match h with Some h => run_close h err directive | None => FlushAndClose end.

(** *** From SSL to the TCP connection *)

(** A loop [while ((pending = BIO_pending(p_bio_write_)) > 0)]: [asked] is what
    is asked of [BIO_read], whose result may not be longer than the buffer. *)
Fixpoint drain_bio (n : nat) (asked : Z -> Z) (failed : str) : M N St :=
  bio <- ssl_field p_bio_write_ ;;
  pending <- lib_read (BIO_pending bio) ;;
  if decide (pending <= 0) then ret OkStatus
  else
    match n with
    | O => fatal "out of fuel"
    | S n =>
        params <- ssl_field ssl_params_ ;;
        let scratch_size := Z.min (block_size (tcp_params params)) pending in
        '(cb, data) <- sock (BIO_read bio (asked scratch_size)) ;;
        if decide (scratch_size < zlen data) then fatal "buffer overflow"
        else if decide (cb < 0) then ssl_fail failed
        else
          ssl_store (fun c => set_ssl_out_count (u64 (ssl_out_count_ c + cb)) c) ;;
          store (on_connection (fun c => set_outbuf (cord_Append (outbuf_ c) data) c)) ;;
          drain_bio n asked failed
    end.

Definition SslShutdown : M N St :=
  ssl <- ssl_field p_ssl_ ;;
  if decide (ssl = 0) then ret OkStatus
  else
    result <- sock (SSL_shutdown ssl) ;;
    (if decide (result < 0) then
       e <- in_world (SslLastError fuel) ;; ret tt
     else ret tt) ;;
    drain_bio fuel (fun scratch_size => scratch_size) "BIO_read failed on SslShutdown: ".

(** *** Closing *)

Definition SslClear : M N unit :=
  ssl <- ssl_field p_ssl_ ;;
  (if decide (ssl = 0) then ret tt
   else
     lib_do (SSL_free ssl) ;;
     ssl_store (fun c => set_p_bio_write 0 (set_p_bio_read 0 (set_p_ssl 0 c)))) ;;
  bio <- ssl_field p_bio_read_ ;;
  (if decide (bio = 0) then ret tt
   else lib_do (BIO_free_all bio) ;; ssl_store (set_p_bio_read 0)) ;;
  bio <- ssl_field p_bio_write_ ;;
  (if decide (bio = 0) then ret tt
   else lib_do (BIO_free_all bio) ;; ssl_store (set_p_bio_write 0)) ;;
  ssl_store (set_p_ctx 0).

Definition TcpConnectionCloseHandler (status : St) (directive : CloseDirective) : M N unit :=
  base_store (set_last_error status) ;;
  if decide (directive <> CLOSE_READ_WRITE) then
    shutdown_status <- SslShutdown ;;
    if negb (Status.ok shutdown_status) then base_store (set_last_error shutdown_status) else ret tt
  else
    base_store (set_state DISCONNECTED) ;;
    CallCloseHandler status directive.

(** Of its handlers a closing TCP connection calls the one for closing. *)
Definition closing : Application N SslHandler St := {|
  run_connect _ := fatal "not called while closing";
  run_read _ := fatal "not called while closing";
  run_write _ := fatal "not called while closing";
  run_close _ := TcpConnectionCloseHandler
|}.

Definition ForceClose : M N unit :=
  SslClear ;;
  has <- ssl_field has_tcp ;;
  if has then Connection.ForceClose (Application0 := closing) this self else ret tt.

(** *** The handshake *)

Definition InitializeSslVerificationIndex : M N St :=
  index <- ssl_field verification_index_ ;;
  if decide (0 <= index) then ret OkStatus
  else
    index <- sock SSL_get_ex_new_index ;;
    ssl_store (set_verification_index index) ;;
    if decide (0 < index) then ret OkStatus
    else
      e <- in_world (SslLastError fuel) ;;
      RET_CHECK false "verification_index_ > 0" ssl_connection_cc 626
        ("Invalid SSL verification index obtained: " ++ e) (ret OkStatus).

(** [RET_CHECK(p != nullptr) << text << SslUtils::SslLastError()] *)
Definition check_pointer (p : Z) (condition : str) (line : Z) (text : str) (rest : M N St) : M N St :=
  if decide (p <> 0) then rest
  else
    e <- in_world (SslLastError fuel) ;;
    RET_CHECK false condition ssl_connection_cc line (text ++ e) rest.

Definition SslInitialize (is_server : bool) : M N St :=
  c <- ssl_field id ;;
  RET_CHECK (p_ctx_ c =? 0) "p_ctx_ == nullptr" ssl_connection_cc 634 []
  (RET_CHECK (negb (ssl_context (ssl_params_ c) =? 0)) "params_.ssl_context != nullptr" ssl_connection_cc 635 []
   (RET_CHECK (p_ssl_ c =? 0) "p_ssl_ == nullptr" ssl_connection_cc 636 []
    (let ctx := ssl_context (ssl_params_ c) in
     ssl_store (fun c => set_verification_failed false (set_p_ctx ctx c)) ;;
     RETURN_IF_ERROR InitializeSslVerificationIndex []
     (ssl <- sock (SSL_new ctx) ;;
      ssl_store (set_p_ssl ssl) ;;
      check_pointer ssl "p_ssl_ != nullptr" 642 "Cannot obtain a new SSL structure: "
      (index <- ssl_field verification_index_ ;;
       lib_do (SSL_set_ex_data ssl index) ;;
       verify_mode <- lib_read (SSL_CTX_get_verify_mode ctx) ;;
       (if decide (verify_mode <> SSL_VERIFY_NONE) then lib_do (SSL_set_verify ssl verify_mode) else ret tt) ;;
       bio_read <- sock BIO_new ;;
       ssl_store (set_p_bio_read bio_read) ;;
       check_pointer bio_read "p_bio_read_ != nullptr" 650 "Cannot allocate a new bio_read buffer: "
       (bio_write <- sock BIO_new ;;
        ssl_store (set_p_bio_write bio_write) ;;
        check_pointer bio_write "p_bio_write_ != nullptr" 653 "Cannot allocate a new bio_write buffer: "
        (lib_do (SSL_set_bio ssl bio_read bio_write) ;;
         lib_do (if is_server then SSL_set_accept_state ssl else SSL_set_connect_state ssl) ;;
         ret OkStatus))))))).

Definition TcpConnectionConnectHandler : M N unit :=
  is_server <- ssl_field is_server_side_ ;;
  ssl_status <- SslInitialize is_server ;;
  if negb (Status.ok ssl_status) then
    base_store (set_last_error ssl_status) ;;
    ForceClose
  else ret tt.

Definition SslHandshake : M N St :=
  c <- ssl_field id ;;
  if handshake_finished_ c then ret OkStatus
  else
    finished <- lib_read (SSL_is_init_finished (p_ssl_ c)) ;;
    if finished then
      pending <- lib_read (BIO_pending (p_bio_write_ c)) ;;
      if decide (0 < pending) then
        RETURN_IF_ERROR (RequestWriteEvents true)
          ("After SslHandshake finished - delaying connect handler per pending writed: " ++ StrInt pending)
          (ret OkStatus)
      else
        ssl_store (set_handshake_finished true) ;;
        base_store (set_state CONNECTED) ;;
        defer TaskCallConnectHandler ;;
        ret OkStatus
    else
      '(result, rejected) <- sock (SSL_do_handshake (p_ssl_ c)) ;;
      (if rejected : bool then ssl_store (set_verification_failed true) else ret tt) ;;
      failed <- ssl_field verification_failed_ ;;
      if bool_decide (result < 1) || failed then
        error <- lib_read (SSL_get_error (p_ssl_ c) result) ;;
        if failed || (negb (error =? SSL_ERROR_WANT_READ) && negb (error =? SSL_ERROR_WANT_WRITE)) then
          ssl_fail ("SSL_do_handshake failed: " ++ SslErrorName error ++ " ssl last error: ")
        else
          RETURN_IF_ERROR (RequestWriteEvents true) "During want read / write fulfillment in Ssl handshake."
            (ret OkStatus)
      else RETURN_IF_ERROR (RequestWriteEvents true) [] (ret OkStatus).

(** *** Reading *)

(** Read from TCP, write to SSL. *)
Fixpoint feed_bio (chunks : list str) (rest : M N St) : M N St :=
  match chunks with
  | [] => rest
  | chunk :: chunks =>
      bio <- ssl_field p_bio_read_ ;;
      write_size <- sock (BIO_write bio chunk) ;;
      if decide (write_size < i32 (zlen chunk)) then ssl_fail "BIO_write failed, closing connection: "
      else
        ssl_store (fun c => set_ssl_in_count (u64 (ssl_in_count_ c + write_size)) c) ;;
        feed_bio chunks rest
  end.

(** Read from SSL, write to [inbuf()]; [None] is the end of the loop. *)
Fixpoint read_loop (n : nat) : M N (option St) :=
  c <- ssl_field id ;;
  in_bio <- lib_read (BIO_pending (p_bio_read_ c)) ;;
  in_ssl <- lib_read (SSL_pending (p_ssl_ c)) ;;
  let pending := Z.max in_bio in_ssl in
  if decide (pending <= 0) then ret None
  else
    match n with
    | O => fatal "out of fuel"
    | S n =>
        let scratch_size := Z.min (block_size (tcp_params (ssl_params_ c))) pending in
        '(cb, data) <- sock (SSL_read (p_ssl_ c) scratch_size) ;;
        ssl_store (fun c => set_read_blocked_on_write false (set_read_blocked false c)) ;;
        if decide (cb < 0) then
          error <- lib_read (SSL_get_error (p_ssl_ c) cb) ;;
          if error =? SSL_ERROR_NONE then ret None
          else if error =? SSL_ERROR_WANT_READ then ssl_store (set_read_blocked true) ;; ret None
          else if error =? SSL_ERROR_WANT_WRITE then
            ssl_store (set_read_blocked_on_write true) ;;
            RETURN_IF_ERROR (RequestWriteEvents true) "During SSL_ERROR_WANT_WRITE for SSL read handler."
              (ret None)
          else if error =? SSL_ERROR_ZERO_RETURN then FlushAndClose ;; ret (Some OkStatus)
          else ssl_fail ("SSL_read fatal, SSL_get_error: " ++ StrInt error ++ " " ++ SslErrorName error ++ " , ")
        else
          base_store (fun c => set_inbuf (cord_Append (inbuf_ c) data) c) ;;
          read_loop n
    end.

(** What follows the loop. *)
Definition deliver : M N St :=
  c <- ssl_field id ;;
  let rest :=
    st <- ssl_state ;;
    (if decide (st = FLUSHING) then base_store (set_inbuf cord_empty) else ret tt) ;;
    inbuf <- ssl_field (fun c => inbuf_ (ssl_base c)) ;;
    if decide (cord_size inbuf <> 0) then
      RETURN_IF_ERROR CallReadHandler "While calling the read handler for SSL connection data." (ret OkStatus)
    else ret OkStatus in
  if read_blocked_ c && bool_decide (cord_size (outbuf_ (ssl_base c)) <> 0) then
    RETURN_IF_ERROR (RequestWriteEvents true) "For read blocked in SSL read handler." rest
  else rest.

Definition TcpConnectionReadHandler : M N St :=
  cord <- field inbuf ;;
  feed_bio (Chunks cord)
    (store (on_connection (set_inbuf cord_empty)) ;;
     st <- ssl_state ;;
     if decide (st = CONNECTING) then SslHandshake
     else
       blocked <- ssl_field write_blocked_on_read_ ;;
       if blocked : bool then RequestWriteEvents true
       else
         r <- read_loop fuel ;;
         match r with
         | Some st => ret st
         | None => deliver
         end).

(** *** Writing *)

(** [outbuf()->RemovePrefix(bytes_written)] *)
Definition remove_prefix (bytes_written : Z) : M N unit :=
  cord <- ssl_field (fun c => outbuf_ (ssl_base c)) ;;
  check (bytes_written <=? cord_size cord) "Requested prefix size exceeds Cord's size" ;;
  base_store (fun c => set_outbuf (cord_RemovePrefix (outbuf_ c) bytes_written) c).

(** Read from [outbuf()], write to SSL; [None] is the end of the loop. *)
Fixpoint write_loop (chunks : list str) (bytes_written : Z) : M N (option St) :=
  match chunks with
  | [] => ret None
  | chunk :: chunks =>
      ssl <- ssl_field p_ssl_ ;;
      cb <- sock (SSL_write ssl chunk) ;;
      let bytes_written := u64 (bytes_written + cb) in
      ssl_store (set_write_blocked_on_read false) ;;
      if decide (cb <= 0) then
        error <- lib_read (SSL_get_error ssl cb) ;;
        if error =? SSL_ERROR_WANT_READ then
          ssl_store (set_write_blocked_on_read true) ;;
          remove_prefix bytes_written ;;
          ret (Some OkStatus)
        else if error =? SSL_ERROR_WANT_WRITE then ret None
        else
          remove_prefix bytes_written ;;
          ssl_fail ("SSL_write fatal, SSL_get_error: " ++ StrInt error ++ " " ++ SslErrorName error ++ " , ")
      else write_loop chunks bytes_written
  end.

(** Read from SSL, write to TCP: what is asked of [BIO_read] is the size of a
    [size_t]. *)
Definition send_pending : M N St :=
  RETURN_IF_ERROR (drain_bio fuel (fun _ => 8) "BIO_read failed, closing connection: ") []
  (c <- ssl_field id ;;
   if decide (state_ (ssl_base c) = FLUSHING /\ cord_size (outbuf_ (ssl_base c)) = 0) then
     RETURN_IF_ERROR SslShutdown "During SslShutdown on connection flushing."
       (defer TaskTcpFlushAndClose ;;
        ret OkStatus)
   else ret OkStatus).

Definition write_application : M N (option St) :=
  st <- ssl_state ;;
  let rest :=
    cord <- ssl_field (fun c => outbuf_ (ssl_base c)) ;;
    r <- write_loop (Chunks cord) 0 ;;
    match r with
    | Some st => ret (Some st)
    | None => base_store (set_outbuf cord_empty) ;; ret None
    end in
  if decide (st = CONNECTED) then RETURN_IF_ERROR CallWriteHandler [] rest else rest.

Definition TcpConnectionWriteHandler : M N St :=
  c <- ssl_field id ;;
  if decide (state_ (ssl_base c) = CONNECTING) then
    RETURN_IF_ERROR SslHandshake "During SslHandshake in TcpConnectionWriteHandler." send_pending
  else if negb (read_blocked_ c) && negb (read_blocked_on_write_ c) then
    r <- write_application ;;
    match r with
    | Some st => ret st
    | None => send_pending
    end
  else send_pending.

(** *** Connecting *)

(** The handlers of the TCP connection. *)
Definition ssl_application : Application N SslHandler St := {|
  run_connect _ := TcpConnectionConnectHandler;
  run_read _ := TcpConnectionReadHandler;
  run_write _ := TcpConnectionWriteHandler;
  run_close _ := TcpConnectionCloseHandler
|}.

(** [Wrap]: the TCP connection is the one of the state. *)
Definition Wrap : M N unit :=
  has <- ssl_field has_tcp ;;
  check (negb has) "tcp_connection_ == nullptr" ;;
  ssl_store (set_has_tcp true) ;;
  SetTcpConnectionHandlers ;;
  base_store (set_state CONNECTING) ;;
  ssl_store (set_is_server_side true) ;;
  TcpConnectionConnectHandler.

(** The new TCP connection is at [self]. *)
Definition new_tcp : M N unit :=
  c <- ssl_field id ;;
  match Tcp_ctor (net_selector_ (ssl_base c)) (tcp_params (ssl_params_ c)) with
  | None => fatal "Check failed: 'selector' Must be non NULL"
  | Some (t, b) =>
      modify (fun s => MkNet t
        (MkState (sel (reactor s)) (<[self:=MkObject b kInvalidFdValue]> (objects (reactor s))) (world (reactor s)))
        (resolver s)) ;;
      ssl_store (set_has_tcp true)
  end.

(** [tcp_connection_.reset()] *)
Definition reset_tcp : M N unit :=
  Tcp_dtor self ;;
  modify (fun s => MkNet (tcp s)
    (MkState (sel (reactor s)) (delete self (objects (reactor s))) (world (reactor s))) (resolver s)) ;;
  ssl_store (set_has_tcp false).

Definition Connect (remote_addr : HostPort) : M N St :=
  has <- ssl_field has_tcp ;;
  check (negb has) "tcp_connection_ == nullptr" ;;
  new_tcp ;;
  SetTcpConnectionHandlers ;;
  base_store (set_state CONNECTING) ;;
  ssl_store (set_is_server_side false) ;;
  connect_status <- Connection.Connect (Application0 := ssl_application) this self remote_addr ;;
  if negb (Status.ok connect_status) then
    reset_tcp ;;
    base_store (set_state DISCONNECTED) ;;
    ret (Annotate connect_status "For underlying TCP connection of SSL connection")
  else ret OkStatus.

(** What the functions given to [RunInSelectLoop] do. *)
Definition run_ssl_task (t : SslTask) : M N unit :=
  match t with
  | TaskTcpFlushAndClose =>
      has <- ssl_field has_tcp ;;
      if has then Connection.FlushAndClose (St := St) this self else fatal "null pointer"
  | TaskCallConnectHandler => CallConnectHandler
  end.
End Ssl.

(** ** What OpenSSL promises

    A memory BIO is a queue of bytes.  [written] is what the application gave
    to an SSL object, [plain] what it still has to give to the application. *)
Class SslEngine (W : Type) := {
  bio_bytes : Z -> W -> str;
  written : Z -> W -> str;
  plain : Z -> W -> str
}.

Class SslLaws (W St Cord G : Type) `{!PosixFile W} `{!OpenSsl W} `{!HasSsl W St Cord G} `{!SslEngine W} : Prop := {
  get_put x w : get_ssl (put_ssl x w) = x;
  put_frame x w b : bio_bytes b (put_ssl x w) = bio_bytes b w /\ written b (put_ssl x w) = written b w /\
    plain b (put_ssl x w) = plain b w;
  error_frame ssl r x w : SSL_get_error ssl r (put_ssl x w) = SSL_get_error ssl r w;
  (* the SSL connection is not in the memory of the system calls and of the library *)
  wake_frame fd data n w : get_ssl (sys_write fd data n w).2 = get_ssl w;
  handshake_frame ssl w : get_ssl (SSL_do_handshake ssl w).2 = get_ssl w;
  new_index_frame w : get_ssl (SSL_get_ex_new_index w).2 = get_ssl w;
  ssl_new_frame ctx w : get_ssl (SSL_new ctx w).2 = get_ssl w;
  ex_data_frame ssl index w : get_ssl (SSL_set_ex_data ssl index w) = get_ssl w;
  verify_frame ssl mode w : get_ssl (SSL_set_verify ssl mode w) = get_ssl w;
  bio_new_frame w : get_ssl (BIO_new w).2 = get_ssl w;
  set_bio_frame ssl r b w : get_ssl (SSL_set_bio ssl r b w) = get_ssl w;
  accept_state_frame ssl w : get_ssl (SSL_set_accept_state ssl w) = get_ssl w;
  connect_state_frame ssl w : get_ssl (SSL_set_connect_state ssl w) = get_ssl w;
  ssl_pending_frame ssl x w : SSL_pending ssl (put_ssl x w) = SSL_pending ssl w;
  pending_spec b w : BIO_pending b w = zlen (bio_bytes b w);
  bio_read_spec b n w : 0 < n -> bio_bytes b w <> [] ->
    let '((cb, data), w') := BIO_read b n w in
    cb = zlen data /\ 0 < cb <= n /\ bio_bytes b w = data ++ bio_bytes b w' /\
    (forall x, written x w' = written x w) /\ get_ssl w' = get_ssl w;
  bio_write_spec b data w :
    let '(cb, w') := BIO_write b data w in
    cb = zlen data /\ bio_bytes b w' = bio_bytes b w ++ data /\
    (forall x, exists more, plain x w' = plain x w ++ more) /\ get_ssl w' = get_ssl w;
  ssl_write_spec ssl data w : data <> [] ->
    let '(cb, w') := SSL_write ssl data w in
    cb <= zlen data /\ written ssl w' = written ssl w ++ take (Z.to_nat cb) data /\ get_ssl w' = get_ssl w;
  ssl_read_spec ssl n w : 0 < n ->
    let '((cb, data), w') := SSL_read ssl n w in
    (0 < cb -> cb = zlen data /\ cb <= n /\ plain ssl w = data ++ plain ssl w') /\
    (cb <= 0 -> data = [] /\ plain ssl w' = plain ssl w) /\ get_ssl w' = get_ssl w
}.
