(* ===== verification/SimSsl.v ===== *)
(** * A small SSL library

    Instances of everything SSL connections use, on which their theorems are
    applied.  The cipher does nothing: what is written goes to the outgoing BIO
    as it is, and what is read comes from the incoming one. *)

From S2P Require Import Prelude Status Errno CordIo Posix Address SelectorLoop Selectable Selector.
From S2P Require Import Timeouter Dns Socket Connection SimNet SslUtils SslConnection.

Module SimSsl.
Import RefAbsl RefCord RefInet SortedHeap.

(** What is in the memory of the program, the BIOs, and what was given to
    [SSL_write]. *)
Record memory (R : Type) := World { w_rest : R; w_bios : gmap Z str; w_written : str }.
Arguments World {_} _ _ _.
Arguments w_rest {_} _.
Arguments w_bios {_} _.
Arguments w_written {_} _.

Section Memory.
Context {R : Type}.
Abbreviation world := (memory R).

Definition in_bio : Z := 2.
Definition out_bio : Z := 3.
Definition bytes (b : Z) (w : world) : str := default [] (w_bios w !! b).
Definition put_bytes (b : Z) (data : str) (w : world) : world := World (w_rest w) (<[b:=data]> (w_bios w)) (w_written w).

(** [Working], [Ended]: there is nothing more to read, [Blocked]: nothing can
    be written, [Exhausted]: there is no memory for new SSL objects. *)
Inductive mode := Working | Ended | Blocked | Exhausted.

Definition pull (b n : Z) (w : world) : (Z * str) * world :=
  match bytes b w with
  | [] => ((-1, []), w)
  | data => let got := take (Z.to_nat n) data in ((zlen got, got), put_bytes b (drop (Z.to_nat n) data) w)
  end.
Definition push (data : str) (w : world) : Z * world :=
  (zlen data, World (w_rest w) (<[out_bio:=bytes out_bio w ++ data]> (w_bios w)) (w_written w ++ data)).

Definition engine (m : mode) : OpenSsl world := {|
  SSL_library_init w := w;
  ERR_peek_last_error_line _ := (0, ([], 0));
  ERR_error_string_n _ := [];
  sys_fopen _ w := (0, w);
  sys_fclose _ w := w;
  PEM_read_X509 _ w := (0, w);
  PEM_read_PrivateKey _ w := (0, w);
  X509_free _ w := w;
  EVP_PKEY_free _ w := w;
  SSL_CTX_new w := (4, w);
  SSL_CTX_free _ w := w;
  SSL_CTX_get_mode _ _ := 0;
  SSL_CTX_set_mode _ x w := (x, w);
  SSL_CTX_use_certificate _ _ w := (1, w);
  SSL_CTX_use_PrivateKey _ _ w := (1, w);
  SSL_CTX_check_private_key _ _ := 1;
  SSL_CTX_get_verify_mode _ _ := 0;
  SSL_get_ex_new_index w := (1, w);
  SSL_new _ w := (match m with Exhausted => 0 | _ => 1 end, w);
  SSL_free _ w := w;
  SSL_set_ex_data _ _ w := w;
  SSL_set_verify _ _ w := w;
  SSL_set_bio _ _ _ w := w;
  SSL_set_accept_state _ w := w;
  SSL_set_connect_state _ w := w;
  BIO_new w := (in_bio, w);
  BIO_free_all _ w := w;
  BIO_write b data w := (zlen data, put_bytes b (bytes b w ++ data) w);
  BIO_read b n w := pull b n w;
  BIO_pending b w := zlen (bytes b w);
  SSL_pending _ _ := 0;
  SSL_read _ n w := match m with Ended => ((0, []), w) | _ => pull in_bio n w end;
  SSL_write _ data w := match m with Blocked => (-1, w) | _ => push data w end;
  SSL_get_error _ _ _ := SSL_ERROR_WANT_READ;
  SSL_is_init_finished _ _ := true;
  SSL_do_handshake _ w := ((1, false), w);
  SSL_shutdown _ w := (1, w);
  BIO_get_mem_data b w := Some (bytes b w);
  CEscape s := s
|}.

#[export] Instance world_errno : HasErrno world := fun _ => 0.
#[export] Instance world_file : PosixFile world := {
  sys_open _ _ _ w := (-1, w); sys_close _ w := (0, w); sys_fstat _ w := ((-1, 0), w);
  sys_lseek _ _ _ w := (-1, w); sys_ftruncate _ _ w := (-1, w);
  sys_read _ _ w := ((0, []), w);
  sys_write _ _ _ w := (0, w); sys_writev _ _ _ w := (0, w);
  sys_fdatasync _ w := (0, w)
}.

#[export] Instance world_engine : SslEngine world := {
  bio_bytes := bytes;
  written _ := w_written;
  plain _ := bytes in_bio
}.

Lemma pull_spec b n w : 0 < n -> bytes b w <> [] ->
  let '((cb, data), w') := pull b n w in
  cb = zlen data /\ 0 < cb <= n /\ bytes b w = data ++ bytes b w' /\ w_written w' = w_written w /\ w_rest w' = w_rest w.
Proof.
  intros Hn Hne. unfold pull. destruct (bytes b w) as [|c l] eqn:E; [done|]. split; [done|].
  split; [|split; [|done]].
  - unfold zlen. rewrite length_take. simpl. lia.
  - unfold bytes at 1, put_bytes. cbn [w_bios]. rewrite lookup_insert_eq.
    change (c :: l = take (Z.to_nat n) (c :: l) ++ drop (Z.to_nat n) (c :: l)). by rewrite take_drop.
Qed.

(** An SSL connection in the memory of the program. *)
Definition ssl_part {G} (get : R -> SslConnection rstatus cord G) (put : SslConnection rstatus cord G -> R -> R) :
    HasSsl world rstatus cord G := {|
  get_ssl w := get (w_rest w);
  put_ssl x w := World (put x (w_rest w)) (w_bios w) (w_written w)
|}.

Lemma part_laws {G} m (get : R -> SslConnection rstatus cord G) put : (forall x r, get (put x r) = x) ->
  SslLaws (HasSsl0 := ssl_part get put) (OpenSsl0 := engine m) world rstatus cord G.
Proof.
  intros Hget. split; try done.
  - intros x w. apply Hget.
  - intros b n w Hn Hne. pose proof (pull_spec b n w Hn Hne) as H. simpl. destruct (pull b n w) as [[cb data] w'].
    destruct H as (-> & Hle & Hb & Hw & Hs). simpl. rewrite Hs. done.
  - intros b data w. simpl. split; [done|]. unfold bytes, put_bytes. cbn [w_bios]. rewrite lookup_insert_eq. split; [done|].
    split; [|done]. intros _. destruct (decide (b = in_bio)) as [->|Hb].
    + exists data. by rewrite lookup_insert_eq.
    + exists []. by rewrite lookup_insert_ne, app_nil_r by done.
  - intros ssl data w Hd. simpl. destruct m; simpl; rewrite ?app_nil_r.
    1,2,4: split; [lia|]; split; [|done]; unfold zlen; by rewrite Nat2Z.id, firstn_all.
    pose proof (zlen_nonneg data). split; [lia|]. done.
  - intros ssl n w Hn. simpl. assert (Hp : let '((cb, data), w') := pull in_bio n w in
      (0 < cb -> cb = zlen data /\ cb <= n /\ bytes in_bio w = data ++ bytes in_bio w') /\
      (cb <= 0 -> data = [] /\ bytes in_bio w' = bytes in_bio w) /\ get (w_rest w') = get (w_rest w)).
    { destruct (bytes in_bio w) as [|c l] eqn:E.
      - unfold pull. rewrite E. split; [lia|]. done.
      - pose proof (pull_spec in_bio n w Hn ltac:(by rewrite E)) as H. destruct (pull in_bio n w) as [[cb data] w'].
        destruct H as (-> & Hle & Hb & _ & Hs). rewrite E in Hb. split; [intros _; split; [done|split; [lia|exact Hb]]|]. split; [lia|by rewrite Hs]. }
    destruct m; try exact Hp. split; [lia|]. done.
Qed.

#[export] Instance world_sys : SelectorSys world := {
  sys_pipe w := ((0, (3, 4)), w);
  sys_eventfd w := (3, w);
  sys_getfl _ w := (0, w);
  sys_setfl _ _ w := (0, w);
  sys_now w := (1000, w);
  pthread_self _ := 1
}.
#[export] Instance world_sockets : Sockets world := {
  sys_socket _ w := (9, w);
  sys_bind _ _ _ w := (0, w);
  sys_connect _ _ _ w := (0, w);
  sys_listen _ _ w := (0, w);
  sys_accept _ w := ((10, SimNet.net_addr), w);
  sys_shutdown _ _ w := (0, w);
  sys_so_error _ w := ((0, 0), w);
  sys_setsockopt _ _ _ _ w := (0, w);
  sys_getsockname _ w := ((0, (SimNet.net_addr, 16)), w);
  sys_getpeername _ w := ((0, (SimNet.net_addr, 16)), w);
  sys_fionread _ w := ((0, 0), w)
}.

#[export] Instance world_loop : EventLoop unit world rstatus := {
  loop_Add _ _ _ s := Ret OkStatus s;
  loop_Update _ _ _ s := Ret OkStatus s;
  loop_Delete _ s := Ret OkStatus s;
  loop_LoopStep _ s := Ret (Value []) s
}.

End Memory.

(** *** One SSL connection *)

Abbreviation world := (memory (SslConnection rstatus cord unit)).
#[export] Instance world_ssl : HasSsl world rstatus cord unit := ssl_part id (fun x _ => x).
#[export] Instance world_laws m : SslLaws (OpenSsl0 := engine m) world rstatus cord unit.
Proof. by apply part_laws. Qed.

(** A callback is a task of one of the two kinds. *)
#[export] Instance world_tasks : Tasks (ptr * Task + SslTask) := fun self t => inl (self, t).
#[export] Instance world_ssl_tasks : SslTasks (ptr * Task + SslTask) := inr.

Abbreviation net := (Net unit (ptr * Task + SslTask) world rstatus cord SslHandler).

#[export] Instance world_application : Application net unit rstatus := {
  run_connect _ := ret tt;
  run_read _ := ret OkStatus;
  run_write _ := ret OkStatus;
  run_close _ _ _ := ret tt
}.

(** An SSL connection in state [x] at 200 over the TCP connection at 100, with
    [out] to write, and [inp] that came for the TCP connection. *)
Definition ssl_connection (x : ConnState) (out : str) : SslConnection rstatus cord unit :=
  MkSsl (MkConnection 9 x OkStatus (MkHandlers (Some tt) (Some tt) (Some tt) (Some tt)) 0 0 [] [out])
    (MkSslParams 4 false default_tcp_params) true 4 in_bio out_bio 1 false true false false false 0 0 false 1.

Definition ssl_tcp (x : ConnState) (inp : str) : TcpConnection rstatus cord SslHandler :=
  MkTcp (MkConnection 9 x OkStatus ssl_handlers 0 0 [inp] []) default_tcp_params HostPort_empty HostPort_empty
    false false 0 0 Timeouter_ctor None.

Definition ssl_net (x : ConnState) (out inp : str) : net :=
  MkNet (ssl_tcp x inp)
    (MkState (MkSelector default_params 1 false 3 (-1, -1) 3 3 (Some tt) {[100]} no_callbacks no_alarms None 0)
       {[100 := SimNet.net_object]} (World (ssl_connection x out) ∅ []))
    (MkResolver [] 0 []).

(** During the handshake. *)
Definition handshaking_net : net :=
  MkNet (ssl_tcp CONNECTED [])
    (MkState (sel (reactor (ssl_net CONNECTED [] []))) {[100 := SimNet.net_object]}
       (World (set_handshake_finished false (ssl_connection CONNECTING [])) ∅ []))
    (MkResolver [] 0 []).
End SimSsl.
