(* ===== verification/SslSpec.v ===== *)
(** * Correctness of SSL connections (SslUtils.v, SslConnection.v)

    Which bytes go between the application, OpenSSL and the TCP connection. *)

From S2P Require Import Prelude Status Errno CordIo Posix Address SelectorLoop Selectable Selector.
From S2P Require Import Timeouter Dns Socket Connection SimNet SslUtils SslConnection SimSsl.

Section Spec.
Context {L Cb W St Cord G : Type}.
Context `{!HasErrno W} `{!PosixFile W} `{!SelectorSys W} `{!Sockets W} `{!HeapApi} `{!OpenSsl W}.
Context `{!BigEndian} `{!Inet} `{!TimeFormat} `{!Uninitialized} `{!CordApi Cord} `{!CordEdit Cord}.
Context `{HA : !Absl St} `{HL : !AbslLaws St} `{!Strerror}.
Context `{!EventLoop L W St} `{!Tasks Cb} `{!SslTasks Cb} `{!HasSsl W St Cord G}.
Context `{!Application (Net L Cb W St Cord SslHandler) G St}.
Context `{!SslEngine W} `{HW : !SslLaws W St Cord G} `{HC : !CordLaws Cord} `{HE : !CordEditLaws Cord}.
Context (this self : ptr).

Abbreviation N := (Net L Cb W St Cord SslHandler).
Implicit Types s : N.

(** The SSL connection, and the rest of the world. *)
Definition world_of s : W := world (reactor s).
Definition ssl_of s : SslConnection St Cord G := get_ssl (world_of s).
Definition with_world (w : W) s : N := MkNet (tcp s) (MkState (sel (reactor s)) (objects (reactor s)) w) (resolver s).
Definition with_outbuf (c : Cord) s : N := MkNet (on_connection (set_outbuf c) (tcp s)) (reactor s) (resolver s).

Section Run.
Context {A : Type}.
Implicit Types k : unit -> M N A.

Lemma run_ssl_field {B} (f : SslConnection St Cord G -> B) (k : B -> M N A) s : bind (ssl_field f) k s = k (f (ssl_of s)) s.
Proof. done. Qed.

Lemma run_ssl_store f k s : bind (ssl_store f) k s = k tt (with_world (put_ssl (f (ssl_of s)) (world_of s)) s).
Proof. done. Qed.

Lemma run_base_store f k s : bind (base_store (G := G) f) k s =
  k tt (with_world (put_ssl (set_ssl_base (f (ssl_base (ssl_of s))) (ssl_of s)) (world_of s)) s).
Proof. done. Qed.

Lemma run_lib_read {B} (f : W -> B) (k : B -> M N A) s : bind (lib_read f) k s = k (f (world_of s)) s.
Proof. done. Qed.

Lemma run_lib {B} (f : W -> B * W) (k : B -> M N A) s :
  bind (sock f) k s = k (f (world_of s)).1 (with_world (f (world_of s)).2 s).
Proof. unfold bind, sock, on_reactor, sys_call, world_of. by destruct (f (world (reactor s))). Qed.

Lemma run_tcp_field {B} (f : TcpConnection St Cord SslHandler -> B) (k : B -> M N A) s :
  bind (field f) k s = k (f (tcp s)) s.
Proof. done. Qed.

Lemma run_store_tcp f k s : bind (store f) k s = k tt (MkNet (f (tcp s)) (reactor s) (resolver s)).
Proof. done. Qed.
End Run.

(** *** Setting SSL up *)

(** The library makes what it is asked for. *)
Record makes_ssl (ctx : Z) : Prop := {
  makes_index w : 0 < (SSL_get_ex_new_index w).1;
  makes_connection w : (SSL_new ctx w).1 <> 0;
  makes_bio w : (BIO_new w).1 <> 0
}.

Lemma with_world_twice w w' s : with_world w (with_world w' s) = with_world w s.
Proof. done. Qed.

Lemma ssl_of_with w s : ssl_of (with_world w s) = get_ssl w.
Proof. done. Qed.

Lemma run_lib_do {A} f (k : unit -> M N A) s : bind (lib_do f) k s = k tt (with_world (f (world_of s)) s).
Proof. unfold lib_do. by rewrite run_lib. Qed.

Lemma verification_index_spec fuel s : (forall w, 0 < (SSL_get_ex_new_index w).1) ->
  exists w index, InitializeSslVerificationIndex (St := St) fuel s = Ret OkStatus (with_world w s) /\
    get_ssl w = set_verification_index index (ssl_of s).
Proof.
  intros Hi. unfold InitializeSslVerificationIndex. rewrite run_ssl_field. destruct (decide _).
  - exists (world_of s), (verification_index_ (ssl_of s)). split; [by destruct s as [? [? ? ?] ?]|].
    unfold ssl_of. by destruct (get_ssl (world_of s)).
  - rewrite run_lib, run_ssl_store, with_world_twice, ssl_of_with, new_index_frame. rewrite decide_True by apply Hi.
    eexists _, _. split; [reflexivity|]. by rewrite get_put.
Qed.

(** A connection that has not been set up gets its three objects. *)
Lemma ssl_initialize_spec is_server fuel s (c := ssl_of s) :
  p_ctx_ c = 0 -> p_ssl_ c = 0 -> ssl_context (ssl_params_ c) <> 0 -> makes_ssl (ssl_context (ssl_params_ c)) ->
  exists w index ssl r b, SslConnection.SslInitialize (St := St) fuel is_server s = Ret OkStatus (with_world w s) /\
    ssl <> 0 /\ r <> 0 /\ b <> 0 /\
    get_ssl w = set_p_bio_write b (set_p_bio_read r (set_p_ssl ssl (set_verification_index index
                  (set_verification_failed false (set_p_ctx (ssl_context (ssl_params_ c)) c))))).
Proof.
  intros Hctx Hssl Hc [Mi Ms Mb]. unfold SslConnection.SslInitialize, RET_CHECK. rewrite run_ssl_field. cbn [id]. fold c.
  rewrite Hctx, Hssl, (proj2 (Z.eqb_neq _ _) Hc). cbn [negb Z.eqb]. rewrite run_ssl_store.
  set (s1 := with_world _ s). set (ctx := ssl_context (ssl_params_ c)) in *. unfold RETURN_IF_ERROR.
  destruct (verification_index_spec fuel s1 Mi) as (w2 & index & E & Hw2). rewrite (bind_Ret _ _ _ _ _ E), ok_OkStatus.
  unfold s1 in Hw2. rewrite ssl_of_with, get_put in Hw2. rewrite run_lib.
  pose proof (ssl_new_frame (St := St) ctx w2) as F3. specialize (Ms w2).
  change (world_of (with_world w2 s1)) with w2. destruct (SSL_new ctx w2) as [ssl w3]. cbn [fst snd] in *.
  rewrite run_ssl_store, !with_world_twice, ssl_of_with, F3, Hw2. unfold check_pointer. rewrite decide_True by done.
  rewrite run_ssl_field, run_lib_do, run_lib_read. set (w4 := SSL_set_ex_data _ _ _).
  assert (F4 : get_ssl w4 = set_p_ssl ssl (get_ssl w2)) by (unfold w4, world_of; cbn; by rewrite ex_data_frame, get_put, Hw2).
  set (s4 := with_world _ (with_world _ s1)).
  assert (exists w5, get_ssl w5 = get_ssl w4 /\ forall A (k : unit -> M N A),
    bind (if decide (SSL_CTX_get_verify_mode ctx (world_of s4) <> SSL_VERIFY_NONE)
          then lib_do (SSL_set_verify ssl (SSL_CTX_get_verify_mode ctx (world_of s4))) else ret tt) k s4 = k tt (with_world w5 s1))
    as (w5 & F5 & E5).
  { destruct (decide _); [|by exists w4]. eexists. split; [|intros A k; by rewrite run_lib_do]. apply verify_frame. }
  rewrite E5, run_lib. pose proof (bio_new_frame (St := St) w5) as F6. pose proof (Mb w5) as M6.
  change (world_of (with_world w5 s1)) with w5. destruct (BIO_new w5) as [r w6]. cbn [fst snd] in *.
  rewrite run_ssl_store, !with_world_twice, ssl_of_with, F6, F5, F4, Hw2. rewrite decide_True by done.
  rewrite run_lib. change (world_of (with_world ?w ?s)) with w.
  set (w7 := put_ssl _ _). pose proof (bio_new_frame (St := St) w7) as F8. pose proof (Mb w7) as M8.
  destruct (BIO_new w7) as [b w8]. cbn [fst snd] in *. rewrite run_ssl_store, !with_world_twice, ssl_of_with, F8.
  unfold w7. rewrite get_put, decide_True by done. rewrite !run_lib_do.
  eexists _, index, ssl, r, b. split; [reflexivity|]. split_and!; [done..|]. unfold world_of. cbn.
  destruct is_server; by rewrite ?accept_state_frame, ?connect_state_frame, set_bio_frame, get_put.
Qed.

(** An accepted TCP connection becomes an SSL connection that waits for its
    handshake, with the functions of the SSL connection as its handlers. *)
Lemma wrap_spec fuel s (c := ssl_of s) :
  has_tcp c = false -> p_ctx_ c = 0 -> p_ssl_ c = 0 ->
  ssl_context (ssl_params_ c) <> 0 -> makes_ssl (ssl_context (ssl_params_ c)) ->
  exists w index ssl r b,
    SslConnection.Wrap this self fuel s =
      Ret tt (with_world w (MkNet (on_connection (set_handlers ssl_handlers) (tcp s)) (reactor s) (resolver s))) /\
    ssl <> 0 /\ r <> 0 /\ b <> 0 /\
    get_ssl w = set_p_bio_write b (set_p_bio_read r (set_p_ssl ssl (set_verification_index index
        (set_verification_failed false (set_p_ctx (ssl_context (ssl_params_ c))
          (set_is_server_side true (set_ssl_base (Connection.set_state CONNECTING (ssl_base c)) (set_has_tcp true c)))))))).
Proof.
  intros Htcp Hctx Hssl Hc Hm. unfold SslConnection.Wrap. rewrite run_ssl_field. fold c. rewrite Htcp.
  rewrite (bind_Ret (check _ _) _ s tt s) by done. rewrite run_ssl_store. fold c. set (s1 := with_world _ s).
  assert (E1 : ssl_of s1 = set_has_tcp true c) by (unfold s1; by rewrite ssl_of_with, get_put).
  unfold SetTcpConnectionHandlers. rewrite run_store_tcp. set (s2 := MkNet _ _ _).
  assert (E2 : ssl_of s2 = set_has_tcp true c) by exact E1.
  rewrite run_base_store, E2. set (s3 := with_world _ s2).
  assert (E3 : ssl_of s3 = set_ssl_base (Connection.set_state CONNECTING (ssl_base c)) (set_has_tcp true c))
    by (unfold s3; by rewrite ssl_of_with, get_put).
  rewrite run_ssl_store, E3. set (s4 := with_world _ s3).
  assert (E4 : ssl_of s4 = set_is_server_side true (set_ssl_base (Connection.set_state CONNECTING (ssl_base c)) (set_has_tcp true c)))
    by (unfold s4; by rewrite ssl_of_with, get_put).
  unfold TcpConnectionConnectHandler. rewrite run_ssl_field, E4. cbn [is_server_side_ set_is_server_side].
  destruct (ssl_initialize_spec true fuel s4) as (w & index & ssl & r & b & E & Hs & Hr & Hb & Hw); try by rewrite E4.
  rewrite (bind_Ret _ _ _ _ _ E), ok_OkStatus. cbn [negb]. exists w, index, ssl, r, b. split; [done|].
  split_and!; [done..|]. by rewrite Hw, E4.
Qed.

(** *** The handshake *)

Lemma ssl_fail_spec text s fuel :
  if decide ((ERR_peek_last_error_line (world_of s)).1 = 0) then
    exists st, Status.ok st = false /\ ssl_fail (St := St) fuel text s = Ret st s
  else ssl_fail (R := St) (St := St) fuel text s = Fatal "out of fuel".
Proof.
  unfold ssl_fail, in_world, on_world, on_reactor, ssl_failure, SslLastError, bind, gets. fold (world_of s).
  rewrite error_stack_spec. destruct (decide _); [|done].
  eexists. split; [|by destruct s as [? [? ? ?] ?]]. unfold from_status, from_status_id.
  rewrite ok_return_error. apply ok_false. unfold InternalErrorBuilder. cbn. by rewrite code_mk.
Qed.

(** The deferred call of the connect handler. *)
Lemma defer_spec t s : net_selector_ (ssl_base (ssl_of s)) <> 0 ->
  exists s', defer (St := St) t s = Ret tt s' /\ ssl_of s' = ssl_of s /\ tcp s' = tcp s /\
    to_run_ (callbacks_ (sel (reactor s'))) = to_run_ (callbacks_ (sel (reactor s))) ++ [UserFunction (ssl_task t)].
Proof.
  intros Hp. unfold defer. rewrite run_ssl_field, decide_False by done.
  unfold on_reactor, RunInSelectLoop, Selector.IsInSelectThread, SendWakeSignal, bind, Selector.store, Selector.field.
  unfold modify, gets, ret, sys_call, with_sel. cbn.
  destruct (_ =? _); cbn; [by eexists|].
  pose proof (wake_frame (St := St) (input_signal_fd_ (sel (reactor s)))
    ["001"%char; "000"%char; "000"%char; "000"%char; "000"%char; "000"%char; "000"%char; "000"%char] 8 (world (reactor s))) as Hf.
  destruct (sys_write _ _ _ _) as [r w]. eexists. split; [reflexivity|]. by split.
Qed.

(** The handshake.  A finished handshake does nothing, so the connect
    handler of the application is deferred at most once; that happens, and the
    connection is then established, when SSL says that the handshake is over
    and all it wrote has gone to the TCP connection.  Otherwise a step is made:
    a rejected certificate, also one rejected in an earlier step, and a failure
    that is not a wish to read or write give an error (or loop on the error
    queue), and everything else requests write events. *)
Theorem ssl_handshake_spec s fuel :
  let c := ssl_of s in let w := world_of s in let ssl := p_ssl_ c in
  (handshake_finished_ c = true -> SslHandshake this self fuel s = Ret OkStatus s) /\
  (handshake_finished_ c = false -> SSL_is_init_finished ssl w = true -> 0 < BIO_pending (p_bio_write_ c) w ->
     exists text, SslHandshake this self fuel s = RETURN_IF_ERROR (SslConnection.RequestWriteEvents this self true) text (ret OkStatus) s) /\
  (handshake_finished_ c = false -> SSL_is_init_finished ssl w = true -> BIO_pending (p_bio_write_ c) w <= 0 ->
     net_selector_ (ssl_base c) <> 0 ->
     exists s', SslHandshake this self fuel s = Ret OkStatus s' /\ tcp s' = tcp s /\
       ssl_of s' = set_ssl_base (set_state CONNECTED (ssl_base c)) (set_handshake_finished true c) /\
       to_run_ (callbacks_ (sel (reactor s'))) =
         to_run_ (callbacks_ (sel (reactor s))) ++ [UserFunction (ssl_task TaskCallConnectHandler)]) /\
  (handshake_finished_ c = false -> SSL_is_init_finished ssl w = false ->
     let '((result, rejected), w1) := SSL_do_handshake ssl w in
     let failed := verification_failed_ c || rejected in
     let error := SSL_get_error ssl result w1 in
     exists s1, tcp s1 = tcp s /\ sel (reactor s1) = sel (reactor s) /\ ssl_of s1 = set_verification_failed failed c /\
       if failed || bool_decide (result < 1) && negb (error =? SSL_ERROR_WANT_READ) && negb (error =? SSL_ERROR_WANT_WRITE) then
         if decide ((ERR_peek_last_error_line (world_of s1)).1 = 0) then
           exists st, Status.ok st = false /\ SslHandshake this self fuel s = Ret st s1
         else SslHandshake this self fuel s = Fatal "out of fuel"
       else exists text, SslHandshake this self fuel s =
         RETURN_IF_ERROR (SslConnection.RequestWriteEvents this self true) text (ret OkStatus) s1).
Proof.
  intros c w ssl. split; [|split; [|split]].
  - intros Hf. unfold SslHandshake. rewrite run_ssl_field. cbn [id]. fold c. by rewrite Hf.
  - intros Hf Hi Hp. unfold SslHandshake. rewrite run_ssl_field. cbn [id]. fold c. rewrite Hf, run_lib_read. fold w ssl. rewrite Hi.
    rewrite run_lib_read. fold w. rewrite decide_True by done. by eexists.
  - intros Hf Hi Hp Hsel. unfold SslHandshake. rewrite run_ssl_field. cbn [id]. fold c. rewrite Hf, run_lib_read. fold w ssl. rewrite Hi.
    rewrite run_lib_read. fold w. rewrite decide_False by lia. rewrite run_ssl_store.
    set (s1 := with_world _ s). rewrite run_base_store. set (s2 := with_world _ s1).
    assert (E2 : ssl_of s2 = set_ssl_base (set_state CONNECTED (ssl_base c)) (set_handshake_finished true c)).
    { unfold ssl_of at 1, world_of, s2. cbn. rewrite get_put. unfold ssl_of, world_of, s1. cbn. by rewrite get_put. }
    destruct (defer_spec TaskCallConnectHandler s2) as (s' & E & Es & Et & Er); [by rewrite E2|].
    rewrite (bind_Ret _ _ _ _ _ E). eexists. split; [reflexivity|]. split; [done|]. by rewrite Es, E2.
  - intros Hf Hi. unfold SslHandshake. rewrite run_ssl_field. cbn [id]. fold c. rewrite Hf, run_lib_read. fold w ssl. rewrite Hi.
    rewrite run_lib. fold w. pose proof (handshake_frame (St := St) ssl w) as Hg.
    destruct (SSL_do_handshake ssl w) as [[result rejected] w1]. cbn [fst snd] in *.
    set (s1 := if rejected then with_world (put_ssl (set_verification_failed true c) w1) s else with_world w1 s).
    assert (E1 : ssl_of s1 = set_verification_failed (verification_failed_ c || rejected) c).
    { unfold ssl_of, world_of, s1. destruct rejected; cbn; [by rewrite get_put, orb_true_r|].
      rewrite Hg, orb_false_r. change (get_ssl w) with c. clear. by destruct c. }
    exists s1. split; [by destruct rejected|]. split; [by destruct rejected|]. split; [done|].
    assert (Ew : SSL_get_error ssl result (world_of s1) = SSL_get_error ssl result w1)
      by (unfold s1; destruct rejected; [apply error_frame|done]).
    rewrite (bind_Ret _ _ (with_world w1 s) tt s1).
    2: { unfold s1. destruct rejected; [|done]. unfold ssl_store, modify, with_world. cbn. rewrite Hg. done. }
    rewrite run_ssl_field, E1. cbn [verification_failed_ set_verification_failed].
    set (error := SSL_get_error ssl result w1). destruct (verification_failed_ c || rejected); cbn [orb andb].
    + rewrite orb_true_r, run_lib_read. apply ssl_fail_spec.
    + rewrite orb_false_r. destruct (bool_decide (result < 1)); cbn [andb]; [|by eexists]. rewrite run_lib_read, Ew. fold error.
      destruct (negb (error =? SSL_ERROR_WANT_READ) && negb (error =? SSL_ERROR_WANT_WRITE)); [apply ssl_fail_spec|by eexists].
Qed.

(** *** Draining the outgoing BIO *)

(** [drained] bytes of the outgoing BIO are at the end of the output of the TCP
    connection; of the SSL connection only a counter changes. *)
Definition drained (data : str) s s' : Prop :=
  exists c w count, s' = with_world w (with_outbuf c s) /\
    get_ssl w = set_ssl_out_count count (ssl_of s) /\
    (zlen (cord_bytes (outbuf (tcp s)) ++ data) <= size_max -> cord_bytes c = cord_bytes (outbuf (tcp s)) ++ data) /\
    (forall x, written x w = written x (world_of s)).

Lemma drained_nil s : drained [] s s.
Proof.
  exists (outbuf (tcp s)), (world_of s), (ssl_out_count_ (ssl_of s)). split; [|split; [|split]].
  - destruct s as [[[] ? ? ? ? ? ? ? ? ?] [? ? ?] ?]. done.
  - unfold ssl_of. by destruct (get_ssl (world_of s)).
  - intros _. by rewrite app_nil_r.
  - done.
Qed.

Lemma drained_step data more s s1 s' : drained data s s1 -> drained more s1 s' -> drained (data ++ more) s s'.
Proof.
  intros (c & w & k & -> & Hg & Hc & Hw) (c' & w' & k' & -> & Hg' & Hc' & Hw'). exists c', w', k'.
  unfold ssl_of, world_of in *. cbn in *. split; [done|]. split; [by rewrite Hg', Hg; destruct (get_ssl (world (reactor s)))|].
  split; [|intros x; by rewrite Hw', Hw]. intros Hm. rewrite app_assoc in Hm.
  rewrite zlen_app in Hm. pose proof (zlen_nonneg more). unfold outbuf in *. cbn in *.
  rewrite Hc in Hc' by lia. rewrite Hc', app_assoc; [done|]. rewrite zlen_app. lia.
Qed.

(** Reading some bytes of the BIO into the output. *)
Lemma drained_append data w k s :
  get_ssl w = ssl_of s -> (forall x, written x w = written x (world_of s)) ->
  drained data s (MkNet (on_connection (fun c => set_outbuf (cord_Append (outbuf_ c) data) c) (tcp s))
    (reactor (with_world (put_ssl (set_ssl_out_count k (get_ssl w)) w) s)) (resolver s)).
Proof.
  intros Hg Hw. exists (cord_Append (outbuf (tcp s)) data), (put_ssl (set_ssl_out_count k (get_ssl w)) w), k.
  split; [done|]. split; [by rewrite get_put, Hg|]. split; [apply cord_Append_spec|].
  intros x. by rewrite (proj1 (proj2 (put_frame _ w x))).
Qed.

Lemma drain_bio_spec n fuel asked failed s :
  let bio := p_bio_write_ (ssl_of s) in let block := block_size (tcp_params (ssl_params_ (ssl_of s))) in
  (forall pending, 0 < pending -> 0 < asked (Z.min block pending) /\ Z.min (asked (Z.min block pending)) pending <= Z.min block pending) ->
  (length (bio_bytes bio (world_of s)) <= n)%nat ->
  returns (drain_bio (St := St) fuel n asked failed) s (fun st s' =>
    st = OkStatus /\ drained (bio_bytes bio (world_of s)) s s' /\ bio_bytes bio (world_of s') = []).
Proof.
  intros bio block Hask. subst bio block. revert s Hask. induction n as [|n IH]; intros s Hask Hlen.
  - destruct (bio_bytes _ _) as [|] eqn:Eb; [|simpl in Hlen; lia]. unfold returns. cbn [drain_bio].
    rewrite run_ssl_field, run_lib_read, pending_spec, Eb, zlen_nil, decide_True by done.
    eexists _, s. split; [reflexivity|]. split; [done|]. split; [apply drained_nil|done].
  - destruct (bio_bytes (p_bio_write_ (ssl_of s)) (world_of s)) as [|c0 l0] eqn:Eb.
    { unfold returns. cbn [drain_bio]. rewrite run_ssl_field, run_lib_read, pending_spec, Eb, zlen_nil, decide_True by done.
      eexists _, s. split; [reflexivity|]. split; [done|]. split; [apply drained_nil|done]. }
    rewrite <- Eb in Hlen |- *. unfold returns. cbn [drain_bio]. set (bio := p_bio_write_ (ssl_of s)) in *.
    assert (Hne : bio_bytes bio (world_of s) <> []) by by rewrite Eb.
    assert (Hpos : 0 < zlen (bio_bytes bio (world_of s))) by (rewrite Eb, zlen_cons; pose proof (zlen_nonneg l0); lia).
    rewrite run_ssl_field, run_lib_read, pending_spec. fold bio. rewrite decide_False by lia. rewrite run_ssl_field.
    set (scratch := Z.min _ _). destruct (Hask _ Hpos) as [Ha0 Ha1]. fold scratch in Ha0, Ha1.
    rewrite run_lib. pose proof (bio_read_spec (St := St) bio (asked scratch) (world_of s) Ha0 Hne) as Hr.
    destruct (BIO_read bio (asked scratch) (world_of s)) as [[cb data] w] eqn:Er. destruct Hr as (Ecb & Hcb & Hb & Hwr & Hget).
    cbn [fst snd]. assert (Hfit : zlen data <= scratch).
    { assert (zlen data <= zlen (bio_bytes bio (world_of s))) by (rewrite Hb, zlen_app; pose proof (zlen_nonneg (bio_bytes bio w)); lia). lia. }
    rewrite decide_False by lia. rewrite decide_False by lia. rewrite run_ssl_store, run_store_tcp.
  set (count := u64 _). set (s1 := MkNet _ _ _).
  assert (Hd : drained data s s1) by (apply (drained_append data w count s); [exact Hget|exact Hwr]).
  assert (Hssl : ssl_of s1 = set_ssl_out_count count (ssl_of s)) by (unfold ssl_of, world_of; cbn; rewrite get_put; unfold ssl_of, world_of; cbn; by rewrite Hget).
  assert (Hbio : bio_bytes bio (world_of s1) = bio_bytes bio w) by (unfold world_of; cbn; apply put_frame).
  destruct (IH s1) as (st & s' & E & -> & Hd' & Hnil).
  + rewrite Hssl. exact Hask.
  + rewrite Hssl. change (p_bio_write_ _) with bio. rewrite Hbio. rewrite Hb, length_app in Hlen. assert (length data <> 0)%nat by (unfold zlen in Ecb; lia). lia.
  + rewrite Hssl in Hd', Hnil. change (p_bio_write_ _) with bio in Hd', Hnil. rewrite Hbio in Hd'.
    eexists _, s'. split; [exact E|]. split; [done|]. split; [|exact Hnil]. rewrite Hb. by eapply drained_step.
Qed.

(** *** Writing *)

(** Calls of [SSL_write] on [ssl] with the chunks, in order, each of which takes
    something; [data] is what they take.  In between the SSL connection may
    store in itself. *)
Inductive ssl_takes (ssl : Z) : list str -> str -> W -> W -> Prop :=
| takes_none w : ssl_takes ssl [] [] w w
| takes_store x chunks data w w' : ssl_takes ssl chunks data (put_ssl x w) w' -> ssl_takes ssl chunks data w w'
| takes_write chunk chunks cb data w w1 w' :
    SSL_write ssl chunk w = (cb, w1) -> 0 < cb -> ssl_takes ssl chunks data w1 w' ->
    ssl_takes ssl (chunk :: chunks) (take (Z.to_nat cb) chunk ++ data) w w'.

(** What SSL takes of the chunks when it takes something of each. *)
Lemma write_loop_spec chunks bytes_written s :
  [] ∉ chunks -> (forall data w, data <> [] -> 0 < (SSL_write (p_ssl_ (ssl_of s)) data w).1) ->
  exists w b parts, (forall fuel, write_loop (St := St) fuel chunks bytes_written s = Ret None (with_world w s)) /\
    get_ssl w = set_write_blocked_on_read b (ssl_of s) /\ Forall2 prefix parts chunks /\
    written (p_ssl_ (ssl_of s)) w = written (p_ssl_ (ssl_of s)) (world_of s) ++ concat parts /\
    ssl_takes (p_ssl_ (ssl_of s)) chunks (concat parts) (world_of s) w.
Proof.
  revert bytes_written s. induction chunks as [|chunk chunks IH]; intros bw s Hne Hacc.
  { exists (world_of s), (write_blocked_on_read_ (ssl_of s)), []. split; [|split; [|split; [|split]]].
    - intros fuel. by destruct s as [? [? ? ?] ?].
    - unfold ssl_of. by destruct (get_ssl (world_of s)).
    - constructor.
    - by rewrite app_nil_r.
    - constructor. }
  assert (Hchunk : chunk <> []) by (intros ->; apply Hne; by left).
  pose proof (ssl_write_spec (St := St) (p_ssl_ (ssl_of s)) chunk (world_of s) Hchunk) as Hw.
  specialize (Hacc chunk (world_of s) Hchunk) as Hpos.
  destruct (SSL_write (p_ssl_ (ssl_of s)) chunk (world_of s)) as [cb w1] eqn:Ew. destruct Hw as (Hle & Hwr & Hget). simpl in Hpos.
  set (s1 := with_world (put_ssl (set_write_blocked_on_read false (get_ssl w1)) w1) s).
  assert (Hssl : ssl_of s1 = set_write_blocked_on_read false (ssl_of s))
    by (unfold ssl_of at 1; unfold s1, world_of; cbn; by rewrite get_put, Hget).
  destruct (IH (u64 (bw + cb)) s1) as (w & b & parts & E & Hg & Hp & Hwr' & Htk).
  { set_solver. }
  { rewrite Hssl. exact Hacc. }
  exists w, b, (take (Z.to_nat cb) chunk :: parts). split; [|split; [|split; [|split]]].
  - intros fuel. cbn [write_loop]. rewrite run_ssl_field, run_lib, Ew. cbn [fst snd]. rewrite run_ssl_store.
    rewrite decide_False by lia. specialize (E fuel). unfold s1 in E. exact E.
  - rewrite Hg, Hssl. by destruct (ssl_of s).
  - constructor; [apply prefix_take|done].
  - rewrite Hssl in Hwr'. cbn [p_ssl_ set_write_blocked_on_read] in Hwr'. rewrite Hwr'. unfold s1, world_of. cbn.
    rewrite (proj1 (proj2 (put_frame _ w1 _))), Hwr. cbn [concat]. by rewrite app_assoc.
  - rewrite Hssl in Htk. cbn [concat]. eapply takes_write; [exact Ew|exact Hpos|]. eapply takes_store. exact Htk.
Qed.

(** C27: writing on an established connection, not blocked on reading, when the
    write handler of the application adds nothing and the block size is at least
    that of a pointer.  If SSL takes something of each chunk it is given, the
    write handler of the TCP connection returns: SSL was called with each chunk
    of the output of the application, in order ([ssl_takes]) - whatever it did
    not take of a chunk is lost - and that output is empty; all the bytes that
    are in the outgoing BIO after these calls have gone, in order, to the end of
    the output of the TCP connection, and the BIO is empty.  When SSL wants to
    read before it takes anything, the count of bytes written has become -1 as
    an unsigned number, and removing that many stops the process. *)
Theorem ssl_write_handler_spec s (Hst : state_ (ssl_base (ssl_of s)) = CONNECTED)
    (Hblocked : read_blocked_ (ssl_of s) = false /\ read_blocked_on_write_ (ssl_of s) = false)
    (Happ : SslConnection.CallWriteHandler self s = Ret OkStatus s)
    (Hblock : 8 <= block_size (tcp_params (ssl_params_ (ssl_of s)))) :
  let chunks := Chunks (outbuf_ (ssl_base (ssl_of s))) in let ssl := p_ssl_ (ssl_of s) in let bio := p_bio_write_ (ssl_of s) in
  ((forall data w, data <> [] -> 0 < (SSL_write ssl data w).1) ->
     exists w1 data, ssl_takes ssl chunks data (world_of s) w1 /\ written ssl w1 = written ssl (world_of s) ++ data /\
     exists n, forall fuel, (n <= fuel)%nat ->
       returns (TcpConnectionWriteHandler this self fuel) s (fun st s' =>
         Status.ok st = true /\ cord_bytes (outbuf_ (ssl_base (ssl_of s'))) = [] /\
         written ssl (world_of s') = written ssl w1 /\ bio_bytes bio (world_of s') = [] /\
         (zlen (cord_bytes (outbuf (tcp s)) ++ bio_bytes bio w1) <= size_max ->
          cord_bytes (outbuf (tcp s')) = cord_bytes (outbuf (tcp s)) ++ bio_bytes bio w1))) /\
  (forall chunk rest w, chunks = chunk :: rest -> cord_size (outbuf_ (ssl_base (ssl_of s))) < size_max ->
     SSL_write ssl chunk (world_of s) = (-1, w) -> SSL_get_error ssl (-1) w = SSL_ERROR_WANT_READ ->
     forall fuel, exists why, TcpConnectionWriteHandler this self fuel s = Fatal why).
Proof.
  intros chunks ssl bio. destruct Hblocked as [Hb1 Hb2].
  assert (E0 : forall fuel, TcpConnectionWriteHandler this self fuel s =
    bind (bind (write_loop (St := St) fuel chunks 0) (fun r =>
      match r with Some st => ret (Some st) | None => base_store (set_outbuf cord_empty) ;; ret None end))
      (fun r => match r with Some st => ret st | None => send_pending fuel end) s).
  { intros fuel. unfold TcpConnectionWriteHandler. rewrite run_ssl_field. cbn [id]. rewrite Hst, decide_False by done.
    rewrite Hb1, Hb2. cbn [negb andb]. unfold write_application. rewrite bind_assoc. unfold ssl_state. rewrite run_ssl_field, Hst.
    rewrite decide_True by done. unfold RETURN_IF_ERROR. rewrite bind_assoc, (bind_Ret _ _ _ _ _ Happ), ok_OkStatus.
    rewrite bind_assoc, run_ssl_field. reflexivity. }
  split.
  - intros Hacc. destruct (write_loop_spec chunks 0 s (chunks_not_empty _) Hacc) as (w & b & parts & E & Hg & Hp & Hwr & Htk).
    set (s1 := with_world w s) in *. set (base := set_outbuf cord_empty (ssl_base (ssl_of s1))).
    set (s2 := with_world (put_ssl (set_ssl_base base (ssl_of s1)) (world_of s1)) s1).
    assert (Hs2 : ssl_of s2 = set_ssl_base base (set_write_blocked_on_read b (ssl_of s))).
    { unfold ssl_of at 1. unfold s2, world_of at 1. cbn. rewrite get_put. unfold ssl_of at 1, s1, world_of. cbn. by rewrite Hg. }
    assert (Hbase : base = set_outbuf cord_empty (ssl_base (ssl_of s)))
      by (unfold base, ssl_of at 1, s1, world_of; cbn; by rewrite Hg).
    exists w, (concat parts). split; [exact Htk|]. split; [exact Hwr|].
    exists (length (bio_bytes (p_bio_write_ (ssl_of s2)) (world_of s2))). intros fuel Hfuel.
    destruct (drain_bio_spec fuel fuel (fun _ => 8) "BIO_read failed, closing connection: " s2) as (st & s3 & E3 & -> & Hd & Hnil).
    { rewrite Hs2. cbn [ssl_params_ set_ssl_base set_write_blocked_on_read]. lia. }
    { exact Hfuel. }
    destruct Hd as (c & w3 & count & -> & Hg3 & Hc & Hwr3).
    assert (Hs3 : ssl_of (with_world w3 (with_outbuf c s2)) = set_ssl_out_count count (ssl_of s2)) by exact Hg3.
    unfold returns. rewrite E0, bind_assoc, (bind_Ret _ _ _ _ _ (E fuel)), bind_assoc. fold s1. rewrite run_base_store. fold base s2.
    rewrite (bind_Ret (ret None) _ s2 None s2) by done. unfold send_pending, RETURN_IF_ERROR at 1.
    rewrite (bind_Ret _ _ _ _ _ E3), ok_OkStatus, run_ssl_field, Hs3, Hs2. cbn [id].
    rewrite decide_False by (rewrite Hbase; cbn; rewrite Hst; by intros [? _]).
    eexists _, _. split; [reflexivity|]. split; [apply ok_OkStatus|].
    rewrite Hs3, Hs2. split; [rewrite Hbase; apply cord_empty_spec|]. split.
    + unfold world_of at 1. cbn. rewrite Hwr3. unfold s2, world_of. cbn. apply put_frame.
    + assert (Ebio : bio_bytes (p_bio_write_ (ssl_of s2)) (world_of s2) = bio_bytes bio w)
        by (rewrite Hs2; unfold s2, world_of; cbn; apply put_frame).
      rewrite Ebio in Hc. rewrite Hs2 in Hnil. split; [exact Hnil|exact Hc].
  - intros chunk rest w Hch Hsz Ew Herr fuel. exists "Requested prefix size exceeds Cord's size". rewrite E0, Hch, bind_assoc.
    cbn [write_loop]. rewrite bind_assoc, run_ssl_field. fold ssl. rewrite bind_assoc, run_lib, Ew. cbn [fst snd].
    change (u64 (0 + -1)) with size_max. rewrite bind_assoc, run_ssl_store.
    assert (Hchunk : chunk <> []).
    { intros ->. apply (chunks_not_empty (outbuf_ (ssl_base (ssl_of s)))). fold chunks. rewrite Hch. by left. }
    pose proof (ssl_write_spec (St := St) ssl chunk (world_of s) Hchunk) as Hw. rewrite Ew in Hw. destruct Hw as (_ & _ & Hget).
    set (s1 := with_world _ (with_world w s)).
    assert (Hw1 : world_of s1 = put_ssl (set_write_blocked_on_read false (get_ssl w)) w) by done.
    assert (Hssl1 : ssl_of s1 = set_write_blocked_on_read false (ssl_of s)) by (unfold ssl_of at 1; by rewrite Hw1, get_put, Hget).
    rewrite decide_True by done. rewrite bind_assoc, run_lib_read, Hw1, error_frame, Herr. rewrite Z.eqb_refl.
    rewrite bind_assoc, run_ssl_store. set (s2 := with_world _ s1).
    assert (Hssl2 : ssl_of s2 = set_write_blocked_on_read true (ssl_of s))
      by (unfold ssl_of at 1; unfold s2, world_of; cbn; by rewrite get_put, Hssl1).
    unfold remove_prefix. rewrite !bind_assoc, run_ssl_field, Hssl2. cbn [ssl_base set_write_blocked_on_read].
    rewrite bind_assoc. unfold bind at 1, check.
    by rewrite (proj2 (Z.leb_gt _ _)) by done.
Qed.

(** *** Reading *)

Lemma i32_le z : 0 <= z -> i32 z <= z.
Proof.
  intros Hz. unfold i32. pose proof (Z.mod_le (z + 2 ^ 31) (2 ^ 32) ltac:(lia) ltac:(lia)). lia.
Qed.

(** Calls of [BIO_write] that give [data] to [bio], in order. *)
Inductive bio_gets (bio : Z) : str -> W -> W -> Prop :=
| gets_none w : bio_gets bio [] w w
| gets_store x data w w' : bio_gets bio data (put_ssl x w) w' -> bio_gets bio data w w'
| gets_write chunk data w w' : bio_gets bio data (BIO_write bio chunk w).2 w' -> bio_gets bio (chunk ++ data) w w'.

(** Calls of [SSL_read] on [ssl] that give [data], in order.  [blocked] tells
    whether the last of them wants to read. *)
Inductive ssl_gives (ssl : Z) : str -> bool -> W -> W -> Prop :=
| gives_none w : ssl_gives ssl [] false w w
| gives_store x data b w w' : ssl_gives ssl data b (put_ssl x w) w' -> ssl_gives ssl data b w w'
| gives_read n cb data more b w w1 w' :
    SSL_read ssl n w = ((cb, data), w1) -> 0 < cb -> ssl_gives ssl more b w1 w' -> ssl_gives ssl (data ++ more) b w w'
| gives_blocked n cb data w w1 w' :
    SSL_read ssl n w = ((cb, data), w1) -> cb < 0 -> SSL_get_error ssl cb w1 = SSL_ERROR_WANT_READ ->
    rtc (fun v v' => exists x, v' = put_ssl x v) w1 w' -> ssl_gives ssl [] true w w'.

(** All the chunks are given to the incoming BIO. *)
Lemma feed_bio_spec chunks s : exists w k more,
  (forall fuel rest, feed_bio (L := L) (Cb := Cb) (St := St) (Cord := Cord) fuel chunks rest s = rest (with_world w s)) /\
  get_ssl w = set_ssl_in_count k (ssl_of s) /\
  bio_bytes (p_bio_read_ (ssl_of s)) w = bio_bytes (p_bio_read_ (ssl_of s)) (world_of s) ++ concat chunks /\
  plain (p_ssl_ (ssl_of s)) w = plain (p_ssl_ (ssl_of s)) (world_of s) ++ more /\
  bio_gets (p_bio_read_ (ssl_of s)) (concat chunks) (world_of s) w.
Proof.
  revert s. induction chunks as [|chunk chunks IH]; intros s.
  { exists (world_of s), (ssl_in_count_ (ssl_of s)), []. rewrite !app_nil_r. split_and!; try done.
    - intros fuel rest. by destruct s as [? [? ? ?] ?].
    - unfold ssl_of. by destruct (get_ssl (world_of s)).
    - constructor. }
  pose proof (bio_write_spec (St := St) (p_bio_read_ (ssl_of s)) chunk (world_of s)) as Hw.
  destruct (BIO_write _ chunk (world_of s)) as [cb w1] eqn:Ew. destruct Hw as (Hcb & Hb & Hpl & Hget).
  destruct (Hpl (p_ssl_ (ssl_of s))) as [more1 Hmore1].
  set (k1 := u64 (ssl_in_count_ (get_ssl w1) + cb)).
  set (s1 := with_world (put_ssl (set_ssl_in_count k1 (get_ssl w1)) w1) s).
  assert (Hssl : ssl_of s1 = set_ssl_in_count k1 (ssl_of s))
    by (unfold ssl_of at 1; unfold s1, world_of; cbn; by rewrite get_put, Hget).
  destruct (IH s1) as (w & k & more & E & Hg & Hbw & Hplw & Hgets). rewrite Hssl in Hg, Hbw, Hplw, Hgets.
  cbn [p_bio_read_ p_ssl_ set_ssl_in_count] in Hbw, Hplw, Hgets.
  destruct (put_frame (set_ssl_in_count k1 (get_ssl w1)) w1 (p_bio_read_ (ssl_of s))) as (Hf1 & _ & _).
  destruct (put_frame (set_ssl_in_count k1 (get_ssl w1)) w1 (p_ssl_ (ssl_of s))) as (_ & _ & Hf2).
  exists w, k, (more1 ++ more). split_and!.
  - intros fuel rest. cbn [feed_bio]. rewrite run_ssl_field, run_lib, Ew. cbn [fst snd].
    rewrite decide_False by (pose proof (i32_le (zlen chunk) (zlen_nonneg chunk)); lia). rewrite run_ssl_store.
    exact (E fuel rest).
  - rewrite Hg. by destruct (ssl_of s).
  - rewrite Hbw. unfold s1, world_of at 1. cbn. by rewrite Hf1, Hb, <- app_assoc.
  - rewrite Hplw. unfold s1, world_of at 1. cbn. by rewrite Hf2, Hmore1, <- app_assoc.
  - cbn [concat]. apply gets_write. rewrite Ew. eapply gets_store. exact Hgets.
Qed.

(** SSL gives data, or wants to read more. *)
Definition reads_on (ssl : Z) : Prop := forall n w, 0 < n ->
  let '((cb, data), w') := SSL_read ssl n w in
  0 < cb \/ cb < 0 /\ SSL_get_error ssl cb w' = SSL_ERROR_WANT_READ.

(** After the loop [data] is at the end of the input of the application. *)
Definition has_read (data : str) (blocked : bool) s s' : Prop :=
  exists w c b b', s' = with_world w s /\ ssl_gives (p_ssl_ (ssl_of s)) data blocked (world_of s) w /\
    get_ssl w = set_ssl_base (set_inbuf c (ssl_base (ssl_of s))) (set_read_blocked_on_write b' (set_read_blocked b (ssl_of s))) /\
    (zlen (cord_bytes (inbuf_ (ssl_base (ssl_of s))) ++ data) <= size_max ->
     cord_bytes c = cord_bytes (inbuf_ (ssl_base (ssl_of s))) ++ data) /\
    plain (p_ssl_ (ssl_of s)) (world_of s) = data ++ plain (p_ssl_ (ssl_of s)) w.

Lemma has_read_nil s : has_read [] false s s.
Proof.
  exists (world_of s), (inbuf_ (ssl_base (ssl_of s))), (read_blocked_ (ssl_of s)), (read_blocked_on_write_ (ssl_of s)).
  split_and!; try done.
  - by destruct s as [? [? ? ?] ?].
  - constructor.
  - unfold ssl_of. by destruct (get_ssl (world_of s)) as [[]].
  - by rewrite app_nil_r.
Qed.

Lemma gives_app ssl data more b w w1 w' :
  ssl_gives ssl data false w w1 -> ssl_gives ssl more b w1 w' -> ssl_gives ssl (data ++ more) b w w'.
Proof.
  remember false as f eqn:Ef. intros Hg Hg2. induction Hg; [done|eapply gives_store; auto| |done].
  rewrite <- app_assoc. eapply gives_read; eauto.
Qed.

Lemma has_read_step data more b0 s s1 s' : has_read data false s s1 -> has_read more b0 s1 s' -> has_read (data ++ more) b0 s s'.
Proof.
  intros (w & c & b & b' & -> & Ht & Hg & Hc & Hp) (w2 & c2 & b2 & b2' & -> & Ht2 & Hg2 & Hc2 & Hp2).
  exists w2, c2, b2, b2'. unfold ssl_of at 1 2 in Hg2. unfold ssl_of, world_of in *. cbn in *. rewrite Hg in Hg2, Hc2, Hp2, Ht2.
  cbn in Hg2, Hc2, Hp2, Ht2. split_and!; [done|by eapply gives_app| | |].
  - rewrite Hg2. by destruct (get_ssl (world (reactor s))) as [[]].
  - intros Hm. rewrite app_assoc in Hm. rewrite zlen_app in Hm. pose proof (zlen_nonneg more).
    rewrite Hc in Hc2 by lia. rewrite Hc2, app_assoc; [done|]. rewrite zlen_app. lia.
  - by rewrite Hp, Hp2, app_assoc.
Qed.

Lemma read_loop_spec n fuel s :
  reads_on (p_ssl_ (ssl_of s)) -> 1 <= block_size (tcp_params (ssl_params_ (ssl_of s))) ->
  (length (plain (p_ssl_ (ssl_of s)) (world_of s)) < n)%nat ->
  returns (read_loop (St := St) this self fuel n) s (fun r s' => r = None /\ exists data blocked, has_read data blocked s s' /\
    (blocked = false -> BIO_pending (p_bio_read_ (ssl_of s)) (world_of s') <= 0 /\ SSL_pending (p_ssl_ (ssl_of s)) (world_of s') <= 0)).
Proof.
  revert s. induction n as [|n IH]; intros s Hreads Hblock Hlen; [lia|]. unfold returns. cbn [read_loop].
  rewrite run_ssl_field. cbn [id]. rewrite !run_lib_read. set (ssl := p_ssl_ (ssl_of s)) in *.
  set (pending := Z.max _ _). destruct (decide (pending <= 0)) as [|Hpend].
  { eexists None, s. split; [reflexivity|]. split; [done|]. exists [], false. split; [apply has_read_nil|]. intros _. unfold pending, ssl in *. lia. }
  set (scratch := Z.min _ pending). assert (Hs : 0 < scratch) by lia.
  rewrite run_lib. pose proof (ssl_read_spec (St := St) ssl scratch (world_of s) Hs) as Hr. pose proof (Hreads scratch (world_of s) Hs) as Hp.
  destruct (SSL_read ssl scratch (world_of s)) as [[cb data] w] eqn:Er. destruct Hr as (Hgive & Hnone & Hget). cbn [fst snd].
  rewrite run_ssl_store. set (s1 := with_world _ (with_world w s)).
  set (unblocked := set_read_blocked_on_write false (set_read_blocked false (ssl_of s))).
  assert (Hs1 : ssl_of s1 = unblocked).
  { unfold ssl_of at 1; unfold s1, world_of; cbn. rewrite get_put. unfold unblocked, ssl_of, world_of. cbn. by rewrite Hget. }
  assert (Hpl1 : forall b, plain b (world_of s1) = plain b w) by (intros b; apply put_frame).
  destruct Hp as [Hp|[Hp Herr]].
  - rewrite decide_False by lia. destruct (Hgive Hp) as (Ecb & Hle & Hpl). rewrite run_base_store.
    set (s2 := with_world _ s1). set (c := cord_Append (inbuf_ (ssl_base (ssl_of s))) data).
    assert (Hs2 : ssl_of s2 = set_ssl_base (set_inbuf c (ssl_base (ssl_of s))) unblocked)
      by (unfold ssl_of at 1; unfold s2, world_of; cbn; by rewrite get_put, Hs1).
    assert (Hpl2 : plain ssl (world_of s2) = plain ssl w) by (rewrite <- (Hpl1 ssl); apply put_frame).
    assert (Hd : has_read data false s s2).
    { exists (world_of s2), c, false, false. split; [done|].
      split; [rewrite <- (app_nil_r data); eapply gives_read; [exact Er|exact Hp|]; do 2 eapply gives_store; apply gives_none|].
      split; [exact Hs2|]. split; [apply cord_Append_spec|].
      change (p_ssl_ (ssl_of s)) with ssl. by rewrite Hpl, Hpl2. }
    destruct (IH s2) as (r & s3 & E & -> & more & blocked & Hm & Hend).
    + rewrite Hs2. exact Hreads.
    + rewrite Hs2. exact Hblock.
    + rewrite Hs2. change (p_ssl_ _) with ssl. rewrite Hpl2. rewrite Hpl, length_app in Hlen. unfold zlen in Ecb. lia.
    + eexists None, s3. split; [exact E|]. split; [done|]. exists (data ++ more), blocked. split; [by eapply has_read_step|].
      rewrite Hs2 in Hend. exact Hend.
  - rewrite decide_True by lia. rewrite run_lib_read.
    assert (Hw1 : world_of s1 = put_ssl (set_read_blocked_on_write false (set_read_blocked false (get_ssl w))) w) by done.
    rewrite Hw1, error_frame, Herr. cbn [Z.eqb SSL_ERROR_WANT_READ SSL_ERROR_NONE Pos.eqb]. rewrite run_ssl_store.
    set (s2 := with_world _ s1).
    assert (Hs2 : ssl_of s2 = set_read_blocked true unblocked)
      by (unfold ssl_of at 1; unfold s2, world_of; cbn; by rewrite get_put, Hs1).
    eexists None, s2. split; [reflexivity|]. split; [done|]. exists [], true. split; [|done].
    destruct (Hnone ltac:(lia)) as [_ Hpl].
    exists (world_of s2), (inbuf_ (ssl_base (ssl_of s))), true, false. split; [done|]. split; [|split; [|split]].
    + eapply gives_blocked; [exact Er|exact Hp|exact Herr|]. eapply rtc_l; [by eexists|]. apply rtc_once. by eexists.
    + change (get_ssl (world_of s2)) with (ssl_of s2). rewrite Hs2. unfold unblocked. by destruct (ssl_of s) as [[]].
    + intros _. by rewrite app_nil_r.
    + cbn [app]. change (p_ssl_ (ssl_of s)) with ssl. rewrite <- Hpl, <- (Hpl1 ssl). symmetry. apply put_frame.
Qed.

(** After the end of the data SSL gives nothing and leaves the bytes that are
    still in the BIO. *)
Lemma read_loop_stuck n fuel s :
  (forall n w, SSL_read (p_ssl_ (ssl_of s)) n w = ((0, []), w)) ->
  bio_bytes (p_bio_read_ (ssl_of s)) (world_of s) <> [] ->
  read_loop (St := St) this self fuel n s = Fatal "out of fuel".
Proof.
  revert s. induction n as [|n IH]; intros s Hz Hne; cbn [read_loop]; rewrite run_ssl_field; cbn [id]; rewrite !run_lib_read;
    rewrite pending_spec; (rewrite decide_False by (destruct (bio_bytes _ _) as [|c l]; [done|];
      rewrite zlen_cons; pose proof (zlen_nonneg l); lia)); [done|].
  rewrite run_lib, Hz. cbn [fst snd]. rewrite run_ssl_store. set (s1 := with_world _ (with_world _ s)).
  rewrite decide_False by lia. rewrite run_base_store. set (s2 := with_world _ s1).
  assert (Hs1 : ssl_of s1 = set_read_blocked_on_write false (set_read_blocked false (ssl_of s)))
    by (unfold ssl_of at 1; unfold s1, world_of; cbn; by rewrite get_put).
  apply IH; unfold ssl_of at 1; unfold s2, world_of at 1; cbn [with_world world reactor]; rewrite get_put, Hs1; [exact Hz|].
  intros E. apply Hne. rewrite <- E. unfold world_of at 2. cbn. rewrite (proj1 (put_frame _ _ _)).
  unfold s1, world_of. cbn. by rewrite (proj1 (put_frame _ _ _)).
Qed.

(** What the read handler does with the result of the loop, when the
    application has nothing to write. *)
Lemma deliver_spec s : state_ (ssl_base (ssl_of s)) = CONNECTED -> cord_size (outbuf_ (ssl_base (ssl_of s))) = 0 ->
  deliver (St := St) this self s =
  (if decide (cord_size (inbuf_ (ssl_base (ssl_of s))) <> 0) then
     RETURN_IF_ERROR (SslConnection.CallReadHandler self) "While calling the read handler for SSL connection data." (ret OkStatus)
   else ret OkStatus) s.
Proof.
  intros Hst Ho. unfold deliver. rewrite run_ssl_field. cbn [id]. rewrite Ho, bool_decide_false, andb_false_r by (intros E; by apply E).
  unfold ssl_state. rewrite run_ssl_field, Hst, decide_False by done. rewrite (bind_Ret (ret tt) _ s tt s) by done.
  rewrite run_ssl_field. by destruct (decide _).
Qed.

(** C26: reading on an established connection that is not blocked on writing
    and has nothing of the application to write.  When SSL gives data or wants
    to read, the read handler of the TCP connection returns: it gave all its
    input, in order, to the incoming BIO ([bio_gets]), and emptied it; then it
    read from SSL ([ssl_gives]) until SSL wanted to read or nothing was left in
    the BIO and in SSL; the data that SSL gave is, in order and without loss, at
    the end of the input of the application, whose read handler is called if
    there is any.  But when the peer has ended the data and bytes are left in
    the BIO, SSL answers 0, which the loop takes for data: it never ends. *)
Theorem ssl_read_handler_spec s (Hst : state_ (ssl_base (ssl_of s)) = CONNECTED)
    (Hblocked : write_blocked_on_read_ (ssl_of s) = false)
    (Hout : cord_size (outbuf_ (ssl_base (ssl_of s))) = 0)
    (Hblock : 1 <= block_size (tcp_params (ssl_params_ (ssl_of s)))) :
  let ssl := p_ssl_ (ssl_of s) in let bio := p_bio_read_ (ssl_of s) in let input := inbuf_ (ssl_base (ssl_of s)) in
  (reads_on ssl -> exists w0, bio_gets bio (cord_bytes (inbuf (tcp s))) (world_of s) w0 /\
     bio_bytes bio w0 = bio_bytes bio (world_of s) ++ cord_bytes (inbuf (tcp s)) /\
     exists n, forall fuel, (n <= fuel)%nat -> exists s1 data blocked,
     ssl_gives ssl data blocked w0 (world_of s1) /\ plain ssl w0 = data ++ plain ssl (world_of s1) /\
     (blocked = false -> BIO_pending bio (world_of s1) <= 0 /\ SSL_pending ssl (world_of s1) <= 0) /\
     TcpConnectionReadHandler this self fuel s =
       (if decide (cord_size (inbuf_ (ssl_base (ssl_of s1))) <> 0) then
          RETURN_IF_ERROR (SslConnection.CallReadHandler self) "While calling the read handler for SSL connection data." (ret OkStatus)
        else ret OkStatus) s1 /\
     cord_bytes (inbuf (tcp s1)) = [] /\
     (zlen (cord_bytes input ++ data) <= size_max ->
      cord_bytes (inbuf_ (ssl_base (ssl_of s1))) = cord_bytes input ++ data)) /\
  ((forall n w, SSL_read ssl n w = ((0, []), w)) -> cord_bytes (inbuf (tcp s)) <> [] ->
     forall fuel, TcpConnectionReadHandler this self fuel s = Fatal "out of fuel").
Proof.
  intros ssl bio input. destruct (feed_bio_spec (Chunks (inbuf (tcp s))) s) as (w & k & more & E & Hg & Hb & Hp & Hgets).
  set (s0 := MkNet (on_connection (set_inbuf cord_empty) (tcp s)) (reactor (with_world w s)) (resolver s)).
  assert (Hs0 : ssl_of s0 = set_ssl_in_count k (ssl_of s)) by exact Hg.
  assert (E0 : forall fuel, TcpConnectionReadHandler this self fuel s =
    bind (read_loop (St := St) this self fuel fuel)
      (fun r => match r with Some st => ret st | None => deliver this self end) s0).
  { intros fuel. unfold TcpConnectionReadHandler. rewrite run_tcp_field, E, run_store_tcp. change (MkNet _ _ _) with s0. unfold ssl_state.
    rewrite run_ssl_field, Hs0. cbn [ssl_base set_ssl_in_count]. rewrite Hst, decide_False by done.
    rewrite run_ssl_field, Hs0. cbn [write_blocked_on_read_ set_ssl_in_count]. by rewrite Hblocked. }
  split.
  - intros Hreads. exists w. split; [exact Hgets|]. split; [exact Hb|]. exists (S (length (plain ssl w))). intros fuel Hfuel.
    destruct (read_loop_spec fuel fuel s0) as (r & s1 & E1 & -> & data & blocked & (w1 & c & b & b' & -> & Hgives & Hg1 & Hc & Hp1) & Hend).
    { rewrite Hs0. exact Hreads. }
    { rewrite Hs0. exact Hblock. }
    { rewrite Hs0. change (world_of s0) with w. exact Hfuel. }
    set (s1 := with_world w1 s0) in *. exists s1, data, blocked. rewrite Hs0 in Hg1, Hc, Hp1, Hgives, Hend.
    assert (Hs1 : ssl_of s1 = set_ssl_base (set_inbuf c (ssl_base (ssl_of s)))
                    (set_read_blocked_on_write b' (set_read_blocked b (set_ssl_in_count k (ssl_of s))))) by exact Hg1.
    split; [exact Hgives|]. split; [exact Hp1|]. split; [exact Hend|]. split; [|split].
    + rewrite E0, (bind_Ret _ _ _ _ _ E1). by rewrite deliver_spec; [|rewrite Hs1; done..].
    + apply cord_empty_spec.
    + rewrite Hs1. exact Hc.
  - intros Hz Hne fuel. rewrite E0. unfold bind. rewrite read_loop_stuck; [done|rewrite Hs0; exact Hz|].
    rewrite Hs0. change (world_of s0) with w. change (p_bio_read_ _) with (p_bio_read_ (ssl_of s)). rewrite Hb.
    intros [_ E2]%app_nil. by apply Hne.
Qed.
End Spec.


(** ** At concrete states *)
Section Witnesses.
Import RefAbsl RefCord RefInet SortedHeap SimSsl.
#[local] Existing Instances SimNet.net_cord SimNet.net_cord_laws SimNet.net_endian SimNet.net_time SimNet.net_strerror.
#[local] Instance working : OpenSsl world := engine Working.

(** The end of the handshake. *)
Lemma ssl_handshake_spec_witness :
  exists s', SslHandshake (St := rstatus) (G := unit) 9 100 0 handshaking_net = Ret OkStatus s' /\
    state_ (ssl_base (ssl_of (G := unit) s')) = CONNECTED /\
    to_run_ (callbacks_ (sel (reactor s'))) = [UserFunction (inr TaskCallConnectHandler)].
Proof.
  destruct (ssl_handshake_spec (St := rstatus) (G := unit) 9 100 handshaking_net 0) as (_ & _ & H & _).
  destruct H as (s' & E & _ & Es & Er); [done..|]. exists s'. split; [exact E|]. rewrite Es. split; [done|]. exact Er.
Defined.

(** With "hi" to write, and with an SSL that cannot write before it reads. *)
Lemma ssl_write_handler_spec_witness :
  (exists w1 data, ssl_takes 1 ["hi" : str] data (world_of (ssl_net CONNECTED "hi" "")) w1 /\
     exists n, forall fuel, (n <= fuel)%nat ->
     returns (TcpConnectionWriteHandler (St := rstatus) (G := unit) 9 100 fuel) (ssl_net CONNECTED "hi" "") (fun st s' =>
       Status.ok st = true /\ cord_bytes (outbuf_ (ssl_base (ssl_of (G := unit) s'))) = [] /\ w_written (world_of s') = data)) /\
  (forall fuel, exists why,
     TcpConnectionWriteHandler (OpenSsl0 := engine Blocked) (St := rstatus) (G := unit) 9 100 fuel (ssl_net CONNECTED "hi" "") = Fatal why).
Proof.
  split.
  - destruct (ssl_write_handler_spec (St := rstatus) (G := unit) 9 100 (ssl_net CONNECTED "hi" "") ltac:(done) ltac:(done) ltac:(done)
      ltac:(vm_compute; done)) as [H _].
    destruct H as (w1 & data & Ht & Hw & n & H).
    { intros data w Hd. cbn. destruct data as [|c l]; [done|]. unfold zlen. simpl. lia. }
    exists w1, data. split; [exact Ht|]. exists n. intros fuel Hf. destruct (H fuel Hf) as (st & s' & E & Hok & Hout & Hwr & _).
    exists st, s'. split; [exact E|]. split; [exact Hok|]. split; [exact Hout|]. exact (eq_trans Hwr Hw).
  - destruct (ssl_write_handler_spec (OpenSsl0 := engine Blocked) (St := rstatus) (G := unit) 9 100 (ssl_net CONNECTED "hi" "") ltac:(done)
      ltac:(done) ltac:(done) ltac:(vm_compute; done)) as [_ H].
    apply (H "hi" [] (world_of (ssl_net CONNECTED "hi" ""))); done.
Defined.

(** With "hi" that came from the network, and with an SSL that has come to the
    end of the data. *)
Lemma ssl_read_handler_spec_witness :
  (exists n, forall fuel, (n <= fuel)%nat -> exists s1 data blocked,
     (blocked = false -> BIO_pending in_bio (world_of s1) <= 0) /\
     TcpConnectionReadHandler (St := rstatus) (G := unit) 9 100 fuel (ssl_net CONNECTED "" "hi") =
       (if decide (cord_size (inbuf_ (ssl_base (ssl_of (G := unit) s1))) <> 0) then
          RETURN_IF_ERROR (SslConnection.CallReadHandler 100) "While calling the read handler for SSL connection data." (ret OkStatus)
        else ret OkStatus) s1 /\
     cord_bytes (inbuf (tcp s1)) = [] /\
     (zlen data <= size_max -> cord_bytes (inbuf_ (ssl_base (ssl_of (G := unit) s1))) = data)) /\
  (forall fuel, TcpConnectionReadHandler (OpenSsl0 := engine Ended) (St := rstatus) (G := unit) 9 100 fuel
     (ssl_net CONNECTED "" "hi") = Fatal "out of fuel").
Proof.
  split.
  - destruct (ssl_read_handler_spec (St := rstatus) (G := unit) 9 100 (ssl_net CONNECTED "" "hi") ltac:(done) ltac:(done) ltac:(done)
      ltac:(vm_compute; done)) as [H _].
    destruct H as (w0 & _ & _ & n & H).
    { intros n w Hn. cbn. unfold pull. destruct (bytes in_bio w) as [|c l]; [by right|left].
      unfold zlen. rewrite length_take. simpl. lia. }
    exists n. intros fuel Hf. destruct (H fuel Hf) as (s1 & data & blocked & _ & _ & Hend & E & Hin & Hc). exists s1, data, blocked.
    split; [intros Hb; exact (proj1 (Hend Hb))|]. split; [exact E|]. split; [exact Hin|exact Hc].
  - destruct (ssl_read_handler_spec (OpenSsl0 := engine Ended) (St := rstatus) (G := unit) 9 100 (ssl_net CONNECTED "" "hi") ltac:(done)
      ltac:(done) ltac:(done) ltac:(vm_compute; done)) as [_ H].
    intros fuel. apply H; done.
Defined.

(** With a working SSL the bytes come through. *)
Lemma ssl_bytes_come_through :
  match TcpConnectionReadHandler (St := rstatus) (G := unit) 9 100 5 (ssl_net CONNECTED "" "hi") with
  | Ret _ s => cord_bytes (inbuf_ (ssl_base (ssl_of (G := unit) s)))
  | _ => []
  end = ("hi" : str) /\
  match TcpConnectionWriteHandler (St := rstatus) (G := unit) 9 100 5 (ssl_net CONNECTED "hi" "") with
  | Ret _ s => cord_bytes (outbuf (tcp s))
  | _ => []
  end = ("hi" : str).
Proof. vm_compute. done. Qed.
End Witnesses.
