(* ===== verification/SslAcceptor.v ===== *)
(** * SSL acceptors ([whisperlib/net/ssl_connection.h], [SslAcceptor] in
    [whisperlib/net/ssl_connection.cc])

    An [SslAcceptor] is an [Acceptor] over a [TcpAcceptor] whose handlers are its
    functions: it makes an SSL connection of each accepted TCP connection, and
    gives it to the application when the handshake is over.  The state is that
    of the TCP acceptor (Acceptor.v); the SSL acceptor and the SSL connections,
    by address, are in the rest of the world ([SslHeap]). *)

From S2P Require Import Prelude Status Errno CordIo Posix Address SelectorLoop Selectable Selector.
From S2P Require Import Timeouter Dns Socket Connection Acceptor SslUtils SslConnection.

(** ** The state *)

Record SslAcceptorParams := MkSslAcceptorParams {
  acceptor_tcp_params : TcpAcceptorParams;
  acceptor_ssl_params : SslConnectionParams
}.

(** The TCP acceptor is the one of the state. *)
Record SslAcceptor (St GA : Type) := MkSslAcceptor {
  ssl_acceptor : Acceptor St GA;
  acceptor_selector_ : ptr;
  ssl_acceptor_params_ : SslAcceptorParams
}.
Arguments MkSslAcceptor {_ _} _ _ _.
Arguments ssl_acceptor {_ _} _.
Arguments acceptor_selector_ {_ _} _.
Arguments ssl_acceptor_params_ {_ _} _.

(** The functions given to the TCP acceptor as its handlers. *)
Inductive SslAcceptorHandler := OnTcpFilter | OnTcpAccept.
(** The functions given to an SSL connection as its handlers: those of the
    acceptor, for the connection at an address, until the handshake is over,
    and those of the application. *)
Inductive ClientHandler (G : Type) :=
| OnSslConnect (ssl_connection : ptr)
| OnSslClose (ssl_connection : ptr)
| OfApplication (handler : G).
Arguments OnSslConnect {_} _.
Arguments OnSslClose {_} _.
Arguments OfApplication {_} _.

(** The SSL acceptor, the SSL connections, the TCP connections that they own,
    and the static member [verification_index_]. *)
Class SslHeap (W St Cord G GA : Type) := {
  get_acceptor : W -> SslAcceptor St GA;
  put_acceptor : SslAcceptor St GA -> W -> W;
  ssl_at : ptr -> HasSsl W St Cord (ClientHandler G);
  ssl_addresses : W -> gset ptr;
  ssl_free : ptr -> W -> W;
  tcp_of : ptr -> W -> ptr;
  set_tcp_of : ptr -> ptr -> W -> W;
  index_of : W -> Z
}.

(** What is given to [RunInSelectLoop]. *)
Inductive SslAcceptTask := TaskDeleteSsl | TaskDropSsl.
Class SslAcceptTasks (Cb : Type) := {
  ssl_task_at : ptr -> SslTasks Cb;
  ssl_accept_task : ptr -> SslAcceptTask -> Cb
}.

Section Ssl.
Context {L Cb W St Cord G GA : Type}.
Context `{!HasErrno W} `{!PosixFile W} `{!SelectorSys W} `{!Sockets W} `{!HeapApi} `{!OpenSsl W}.
Context `{!BigEndian} `{!Inet} `{!TimeFormat} `{!Uninitialized} `{!CordApi Cord} `{!CordEdit Cord} `{!Absl St} `{!Strerror}.
Context `{!EventLoop L W St} `{!Tasks Cb} `{!AcceptTasks Cb} `{!SslAcceptTasks Cb} `{!SslHeap W St Cord G GA} `{!Allocator}.

Abbreviation N := (Net L Cb W St Cord SslHandler).
Abbreviation HS := (Host L Cb W St Cord SslHandler SslAcceptorHandler).
Abbreviation Ssl := (SslConnection St Cord (ClientHandler G)).

(** The application: its functions for a connection, and for the acceptor. *)
Context `{App : !Application N G St} `{!AcceptApplication HS GA St}.
(** The address of the TCP acceptor, and a bound on the loops. *)
Context (self : ptr) (fuel : nat).

Definition acceptor_field {A} (f : SslAcceptor St GA -> A) : M HS A := gets (fun s => f (get_acceptor (host_world s))).
Definition on_heap (f : W -> W) : M HS unit := Acceptor.sock (fun w => (tt, f w)).
Definition ssl_get {A} (x : ptr) (f : Ssl -> A) : M HS A := gets (fun s => f (get_ssl (HasSsl := ssl_at x) (host_world s))).
Definition ssl_set (x : ptr) (f : Ssl -> Ssl) : M HS unit :=
  on_heap (fun w => put_ssl (HasSsl := ssl_at x) (f (get_ssl (HasSsl := ssl_at x) w)) w).
Definition ssl_base_set (x : ptr) (f : Connection St Cord (ClientHandler G) -> Connection St Cord (ClientHandler G)) : M HS unit :=
  ssl_set x (fun c => set_ssl_base (f (ssl_base c)) c).
(** [ssl_connection->net_selector()->RunInSelectLoop(...)] *)
Definition later (x : ptr) (t : SslAcceptTask) : M HS unit :=
  p <- ssl_get x (fun c => net_selector_ (ssl_base c)) ;;
  on_selector p (RunInSelectLoop (UserFunction (ssl_accept_task x t))).

(** *** The handlers of the SSL connections *)

(** Called by the connection at [x] while its TCP connection closes. *)
Definition SslConnectionCloseHandler (x : ptr) (status : St) (directive : CloseDirective) : M N unit :=
  if decide (directive <> CLOSE_READ_WRITE) then ret tt
  else
    base_store (HasSsl0 := ssl_at x) clear_all_handlers ;;
    p <- ssl_field (HasSsl0 := ssl_at x) (fun c => net_selector_ (ssl_base c)) ;;
    if decide (p = 0) then fatal "null pointer"
    else Connection.on_reactor (RunInSelectLoop (UserFunction (ssl_accept_task x TaskDeleteSsl))).

(** The connect handler runs only as a callback of the selector, where it is
    [run_connect_handler]. *)
#[export] Instance client_application : Application N (ClientHandler G) St := {
  run_connect h := match h with OfApplication h => run_connect h | _ => fatal "not called here" end;
  run_read h := match h with OfApplication h => run_read h | _ => fatal "not set for reading" end;
  run_write h := match h with OfApplication h => run_write h | _ => fatal "not set for writing" end;
  run_close h status directive :=
    match h with
    | OfApplication h => run_close h status directive
    | OnSslClose x => SslConnectionCloseHandler x status directive
    | OnSslConnect x => fatal "not set for closing"
    end
}.

(** An operation of the SSL connection at [x] with its TCP connection. *)
Definition on_ssl {A} (x : ptr) (m : ptr -> ptr -> M N A) : M HS A :=
  p <- ssl_get x (fun c => net_selector_ (ssl_base c)) ;;
  c <- gets (fun s => tcp_of x (host_world s)) ;;
  on_client p c (m p c).

(** *** Acceptor *)

Definition SslAcceptor_CallFilterHandler (peer_address : HostPort) : M HS bool :=
  h <- acceptor_field (fun a => filter_handler_ (ssl_acceptor a)) ;;
  match h with None => ret true | Some h => run_filter h peer_address end.

Definition SslAcceptor_CallAcceptHandler (x : ptr) : M HS unit :=
  h <- acceptor_field (fun a => accept_handler_ (ssl_acceptor a)) ;;
  match h with Some h => run_accept h x | None => later x TaskDropSsl end.

Definition SslConnectionConnectHandler (x : ptr) : M HS unit :=
  ssl_base_set x clear_all_handlers ;;
  SslAcceptor_CallAcceptHandler x.

(** *** Accepting *)

Definition TcpAcceptorFilterHandler (peer_addr : HostPort) : M HS bool := SslAcceptor_CallFilterHandler peer_addr.

(** [absl::make_unique<SslConnection>(net_selector, params)] *)
Definition new_ssl (net_selector : ptr) (params : SslConnectionParams) : M HS ptr :=
  fun s =>
    let w := host_world s in
    let x := allocate (dom (host_objects s) ∪ ssl_addresses w) in
    (on_heap (put_ssl (HasSsl := ssl_at x) (Ssl_ctor net_selector params (index_of w))) ;; ret x) s.

Definition TcpAcceptorAcceptHandler (connection : ptr) : M HS unit :=
  p <- net_selector_of connection ;;
  params <- acceptor_field ssl_acceptor_params_ ;;
  x <- new_ssl p (acceptor_ssl_params params) ;;
  on_heap (set_tcp_of x connection) ;;
  on_ssl x (fun p c => SslConnection.Wrap (HasSsl0 := ssl_at x) p c fuel) ;;
  ssl_base_set x (Connection.set_connect_handler (Some (OnSslConnect x))) ;;
  ssl_base_set x (Connection.set_close_handler (Some (OnSslClose x))).

(** No handler for closing is given to the TCP acceptor. *)
#[export] Instance acceptor_application : AcceptApplication HS SslAcceptorHandler St := {
  run_filter h peer_addr := match h with OnTcpFilter => TcpAcceptorFilterHandler peer_addr | _ => fatal "not set for filtering" end;
  run_accept h connection := match h with OnTcpAccept => TcpAcceptorAcceptHandler connection | _ => fatal "not set for accepting" end;
  run_acceptor_close _ _ := fatal "not set for closing"
}.

(** *** Listening and closing *)

Definition SslInitialize : M HS St :=
  params <- acceptor_field (fun a => acceptor_ssl_params (ssl_acceptor_params_ a)) ;;
  if decide (ssl_context params = 0) then
    ret (return_error (FailedPreconditionErrorBuilder []) "SslAcceptor created without proper ssl context.")
  else
    checked <- gets (fun s => SSL_CTX_check_private_key (ssl_context params) (host_world s)) ;;
    if decide (checked <> 1) then
      if negb (allow_unchecked_private_key params) then
        ret (return_error (FailedPreconditionErrorBuilder []) "No SSL certificate set for ssl context.")
      else ret OkStatus
    else ret OkStatus.

Definition Listen (local_addr : HostPort) : M HS St :=
  RETURN_IF_ERROR SslInitialize [] (Acceptor.Listen self local_addr).
Definition Close : M HS unit := Acceptor.Close self.
Definition ToString : M HS str := s <- Acceptor.ToString self ;; ret (("[SSL] " : str) ++ s).

(** The SSL acceptor, and its TCP acceptor with the base of this one. *)
Definition SslAcceptor_ctor (selector : ptr) (params : SslAcceptorParams)
    : option (SslAcceptor St GA * (TcpAcceptor St SslAcceptorHandler * Selectable)) :=
  match TcpAcceptor_ctor (St := St) (G := SslAcceptorHandler) selector (acceptor_tcp_params params) with
  | None => None
  | Some (t, b) =>
      Some (MkSslAcceptor Acceptor_ctor selector params,
            (on_acceptor (fun a => set_accept_handler (Some OnTcpAccept) (set_filter_handler (Some OnTcpFilter) a)) t, b))
  end.

(** *** The functions given to [RunInSelectLoop] *)

(** [Connection::CallConnectHandler] of the SSL connection at [x]. *)
Definition run_connect_handler (x : ptr) : M HS unit :=
  h <- ssl_get x (fun c => connect_handler_ (handlers (ssl_base c))) ;;
  match h with
  | Some (OnSslConnect x) => SslConnectionConnectHandler x
  | Some (OfApplication h) => on_ssl x (fun p c => run_connect h)
  | Some (OnSslClose x) => fatal "not set for connecting"
  | None => ret tt
  end.

(** [delete ssl_connection]: of its members only the TCP connection does
    something when it is destroyed. *)
Definition delete_ssl (x : ptr) : M HS unit :=
  has <- ssl_get x has_tcp ;;
  (if has : bool then
     p <- ssl_get x (fun c => net_selector_ (ssl_base c)) ;;
     c <- gets (fun s => tcp_of x (host_world s)) ;;
     delete_client p c
   else ret tt) ;;
  on_heap (ssl_free x).

(** Without a TCP connection [ForceClose] only clears SSL: connections that are
    accepted have one. *)
Definition run_ssl_accept_task (x : ptr) (t : SslAcceptTask) : M HS unit :=
  match t with
  | TaskDeleteSsl => delete_ssl x
  | TaskDropSsl =>
      on_ssl x (fun p c => SslConnection.ForceClose (HasSsl0 := ssl_at x) p c fuel) ;;
      delete_ssl x
  end.
End Ssl.
