(* ===== verification/SslAcceptorSpec.v ===== *)
(** * Correctness of SSL acceptors (SslAcceptor.v)

    How an accepted TCP connection becomes an SSL connection and is given to
    the application. *)

From S2P Require Import Prelude Status Errno CordIo Posix Address SelectorLoop Selectable Selector.
From S2P Require Import Timeouter Dns Socket Connection SimNet Acceptor AcceptorSpec SslUtils SslConnection SimSsl SslSpec SslAcceptor.

(** What the members of the heap have to do with each other. *)
Class SslHeapLaws (W St Cord G GA : Type) `{!PosixFile W} `{!OpenSsl W} `{!SslHeap W St Cord G GA} := {
  heap_engine : SslEngine W;
  heap_laws x :: SslLaws (HasSsl0 := ssl_at x) W St Cord (ClientHandler G);
  heap_tcp_of x c w : tcp_of x (set_tcp_of x c w) = c;
  heap_ssl_frame x c w : get_ssl (HasSsl := ssl_at x) (set_tcp_of x c w) = get_ssl (HasSsl := ssl_at x) w;
  heap_acceptor_frame x k w : get_acceptor (put_ssl (HasSsl := ssl_at x) k w) = get_acceptor w
}.
#[export] Existing Instance heap_engine.

Section Spec.
Context {L Cb W St Cord G GA : Type}.
Context `{!HasErrno W} `{!PosixFile W} `{!SelectorSys W} `{!Sockets W} `{!HeapApi} `{!OpenSsl W}.
Context `{!BigEndian} `{!Inet} `{!TimeFormat} `{!Uninitialized} `{!CordApi Cord} `{!CordEdit Cord} `{HA : !Absl St} `{HL : !AbslLaws St} `{!Strerror}.
Context `{!EventLoop L W St} `{!Tasks Cb} `{!AcceptTasks Cb} `{!SslAcceptTasks Cb} `{!SslHeap W St Cord G GA} `{!Allocator}.

Abbreviation N := (Net L Cb W St Cord SslHandler).
Abbreviation HS := (Host L Cb W St Cord SslHandler SslAcceptorHandler).
Context `{App : !Application N G St} `{!AcceptApplication HS GA St} `{HW : !SslHeapLaws W St Cord G GA}.
Context (self : ptr).
Implicit Types s : HS.

(** The SSL connection at [x]. *)
Definition ssl_in (x : ptr) s : SslConnection St Cord (ClientHandler G) := get_ssl (HasSsl := ssl_at x) (host_world s).
Definition cleared (x : ptr) s : HS :=
  AcceptorSpec.with_world (put_ssl (HasSsl := ssl_at x)
    (set_ssl_base (clear_all_handlers (ssl_base (ssl_in x s))) (ssl_in x s)) (host_world s)) s.

(** *** Running the accesses *)

Section Run.
Context {A : Type} s.

Lemma host_ssl_set x f (k : unit -> M HS A) :
  bind (ssl_set x f) k s = k tt (AcceptorSpec.with_world (put_ssl (HasSsl := ssl_at x) (f (ssl_in x s)) (host_world s)) s).
Proof. done. Qed.

Lemma host_ssl_get {B} x (f : SslConnection St Cord (ClientHandler G) -> B) (k : B -> M HS A) :
  bind (ssl_get x f) k s = k (f (ssl_in x s)) s.
Proof. done. Qed.

Lemma host_on_heap f (k : unit -> M HS A) : bind (on_heap f) k s = k tt (AcceptorSpec.with_world (f (host_world s)) s).
Proof. done. Qed.
End Run.

(** An operation of the connection at [c]. *)
Lemma on_client_run {A B} p c (m : M N A) s t l a n (k : A -> M HS B) :
  clients s !! c = Some t -> selectors s !! p = Some l ->
  m (MkNet t (MkState l (host_objects s) (host_world s)) (host_resolver s)) = Ret a n ->
  bind (on_client p c m) k s =
    k a (MkHost (tcp_acceptor s) (<[p:=sel (reactor n)]> (selectors s)) (objects (reactor n)) (<[c:=tcp n]> (clients s))
           (resolver n) (world (reactor n))).
Proof. intros Hc Hp E. unfold bind at 1, on_client. by rewrite Hc, Hp, E. Qed.

(** What the application sees of a connection whose handshake is going on. *)
Record waiting (x p : ptr) (k : SslConnection St Cord (ClientHandler G)) : Prop := {
  wa_state : Connection.state_ (ssl_base k) = CONNECTING /\ handshake_finished_ k = false;
  wa_server : is_server_side_ k = true /\ has_tcp k = true /\ p_ssl_ k <> 0 /\ p_bio_read_ k <> 0 /\ p_bio_write_ k <> 0;
  wa_selector : net_selector_ (ssl_base k) = p;
  wa_handlers : handlers (ssl_base k) = MkHandlers (Some (OnSslConnect x)) None None (Some (OnSslClose x))
}.

(** An accepted connection becomes an SSL connection before the
    application hears of it.  When the library makes what it is asked for - an
    index, an SSL object and its BIOs ([makes_ssl]); the code does not survive
    a failure there - the accept handler of the TCP acceptor makes an SSL
    connection of the TCP connection, which waits for its handshake on the
    server side: the TCP connection calls the functions of the SSL connection,
    and these know only the acceptor; no function of the application is called,
    and the selectors, the acceptor and the other connections stay as they are.
    When the connect handler runs, after the handshake, the acceptor takes its
    functions off; then its accept handler gets the connection, or, without an
    accept handler, its deletion is queued. *)
Theorem ssl_accept_spec fuel c s t l
    (Ht : clients s !! c = Some t) (Hl : selectors s !! net_selector_ (connection t) = Some l)
    (Hctx : ssl_context (acceptor_ssl_params (ssl_acceptor_params_ (get_acceptor (host_world s)))) <> 0)
    (Hm : makes_ssl (ssl_context (acceptor_ssl_params (ssl_acceptor_params_ (get_acceptor (host_world s)))))) :
  let x := allocate (dom (host_objects s) ∪ ssl_addresses (host_world s)) in
  (exists s', TcpAcceptorAcceptHandler fuel c s = Ret tt s' /\
     waiting x (net_selector_ (connection t)) (ssl_in x s') /\
     clients s' = <[c:=on_connection (set_handlers ssl_handlers) t]> (clients s) /\
     selectors s' = selectors s /\ host_objects s' = host_objects s /\ tcp_acceptor s' = tcp_acceptor s) /\
  (forall y s1, connect_handler_ (handlers (ssl_base (ssl_in y s1))) = Some (OnSslConnect y) ->
     run_connect_handler y s1 =
       (match accept_handler_ (ssl_acceptor (get_acceptor (host_world s1))) with
        | Some h => run_accept h y
        | None => later y TaskDropSsl
        end) (cleared y s1) /\
     handlers (ssl_base (ssl_in y (cleared y s1))) = no_handlers).
Proof.
  intros x. split.
  - unfold TcpAcceptorAcceptHandler. unfold net_selector_of, bind at 1. rewrite Ht. set (p := net_selector_ (connection t)) in *.
    set (params := acceptor_ssl_params _) in *.
    unfold acceptor_field. unfold bind at 1, gets. fold params. unfold new_ssl. unfold bind at 1. fold x. rewrite host_on_heap. cbn [ret].
    set (k0 := Ssl_ctor p params _). rewrite host_on_heap. set (s1 := AcceptorSpec.with_world _ (AcceptorSpec.with_world _ s)).
    assert (E1 : ssl_in x s1 = k0) by (unfold ssl_in, s1; cbn; by rewrite heap_ssl_frame, get_put).
    unfold on_ssl at 1. rewrite bind_assoc, host_ssl_get, E1.
    rewrite bind_assoc. change (net_selector_ (ssl_base k0)) with p. unfold bind at 1, gets.
    replace (tcp_of x (host_world s1)) with c by (unfold s1; cbn; by rewrite heap_tcp_of).
    set (n := MkNet t (MkState l (host_objects s) (host_world s1)) (host_resolver s)).
    destruct (wrap_spec (HasSsl0 := ssl_at x) p c fuel n) as (w & index & ssl & r & b & E & Hs & Hr & Hb & Hw).
    1-5: change (ssl_of (HasSsl0 := ssl_at x) n) with (ssl_in x s1); rewrite E1; done.
    change (ssl_of (HasSsl0 := ssl_at x) n) with (ssl_in x s1) in Hw. rewrite E1 in Hw.
    rewrite (on_client_run p c _ s1 t l _ _ _ Ht Hl E).
    unfold ssl_base_set. rewrite host_ssl_set. set (s2 := MkHost _ _ _ _ _ _). set (s3 := AcceptorSpec.with_world _ s2).
    rewrite <- (bind_ret_r (ssl_set _ _)), host_ssl_set. eexists. split; [reflexivity|]. split.
    + assert (E2 : ssl_in x s2 = get_ssl (HasSsl := ssl_at x) w) by done.
      assert (E3 : ssl_in x s3 = set_ssl_base (Connection.set_connect_handler (Some (OnSslConnect x)) (ssl_base (ssl_in x s2))) (ssl_in x s2))
        by (unfold ssl_in at 1, s3; cbn; by rewrite get_put).
      unfold ssl_in at 1. cbn [host_world AcceptorSpec.with_world]. rewrite get_put, E3, E2, Hw. by split.
    + cbn. split; [done|]. by rewrite insert_id.
  - intros y s1 Hy. split; [|unfold ssl_in, cleared; cbn; by rewrite get_put].
    unfold run_connect_handler. rewrite host_ssl_get, Hy. unfold SslConnectionConnectHandler, ssl_base_set. rewrite host_ssl_set.
    change (AcceptorSpec.with_world _ s1) with (cleared y s1). unfold SslAcceptor_CallAcceptHandler, acceptor_field.
    unfold bind at 1, gets. unfold cleared at 1. cbn [host_world AcceptorSpec.with_world]. by rewrite heap_acceptor_frame.
Qed.
End Spec.


(** ** At concrete states *)
Section Witnesses.
Import RefAbsl RefCord RefInet SortedHeap SimSsl.
#[local] Existing Instances SimNet.net_cord SimNet.net_cord_laws SimNet.net_endian SimNet.net_time SimNet.net_strerror.
#[local] Instance new_address : Allocator := fun used => 200.

(** The SSL connections, the static index, and the acceptor. *)
Record heap := Heap {
  h_ssl : gmap ptr (SslConnection rstatus cord (ClientHandler unit));
  h_index : Z;
  h_tcp : gmap ptr ptr;
  h_acceptor : SslAcceptor rstatus unit
}.
Definition heap_get (x : ptr) (h : heap) : SslConnection rstatus cord (ClientHandler unit) :=
  set_verification_index (h_index h) (default (Ssl_ctor 0 default_ssl_params 0) (h_ssl h !! x)).
Definition heap_put (x : ptr) (k : SslConnection rstatus cord (ClientHandler unit)) (h : heap) : heap :=
  Heap (<[x:=k]> (h_ssl h)) (verification_index_ k) (h_tcp h) (h_acceptor h).
Definition over (f : heap -> heap) (w : memory heap) : memory heap := World (f (w_rest w)) (w_bios w) (w_written w).

#[local] Instance sim_heap : SslHeap (memory heap) rstatus cord unit unit := {
  get_acceptor w := h_acceptor (w_rest w);
  put_acceptor a := over (fun h => Heap (h_ssl h) (h_index h) (h_tcp h) a);
  ssl_at x := ssl_part (heap_get x) (heap_put x);
  ssl_addresses w := dom (h_ssl (w_rest w));
  ssl_free x := over (fun h => Heap (delete x (h_ssl h)) (h_index h) (h_tcp h) (h_acceptor h));
  tcp_of x w := default 0 (h_tcp (w_rest w) !! x);
  set_tcp_of x c := over (fun h => Heap (h_ssl h) (h_index h) (<[x:=c]> (h_tcp h)) (h_acceptor h));
  index_of w := h_index (w_rest w)
}.

#[local] Instance sim_heap_laws m : SslHeapLaws (OpenSsl0 := engine m) (memory heap) rstatus cord unit unit.
Proof.
  refine {| heap_engine := world_engine |}; try done.
  - intros x. apply (part_laws m (heap_get x) (heap_put x)). intros k h. unfold heap_get, heap_put. cbn.
    rewrite lookup_insert_eq. by destruct k.
  - intros x c w. simpl. by rewrite lookup_insert_eq.
Defined.

Inductive callback := ForTcp (self : ptr) (t : Task) | ForAcceptor (t : AcceptTask) | ForSsl (x : ptr) (t : SslTask)
| ForSslAcceptor (x : ptr) (t : SslAcceptTask).
#[local] Instance sim_tcp_tasks : Tasks callback := ForTcp.
#[local] Instance sim_accept_tasks : AcceptTasks callback := ForAcceptor.
#[local] Instance sim_ssl_accept_tasks : SslAcceptTasks callback := { ssl_task_at := ForSsl; ssl_accept_task := ForSslAcceptor }.

Abbreviation host := (Host unit callback (memory heap) rstatus cord SslHandler SslAcceptorHandler).
#[local] Instance sim_functions : Application (Net unit callback (memory heap) rstatus cord SslHandler) unit rstatus := {
  run_connect _ := ret tt; run_read _ := ret OkStatus; run_write _ := ret OkStatus; run_close _ _ _ := ret tt
}.
#[local] Instance sim_accept_functions : AcceptApplication host unit rstatus := {
  run_filter _ _ := ret true; run_accept _ _ := ret tt; run_acceptor_close _ _ := ret tt
}.

(** The selector at 9 has the accepted connection at 100; the context is at 4. *)
Definition sim_host : host :=
  MkHost (MkTcpAcceptor Acceptor_ctor default_acceptor_params no_statistics)
    {[9 := MkSelector default_params 1 false 3 (-1, -1) 3 3 (Some tt) {[100]} no_callbacks no_alarms None 0]}
    {[100 := SimNet.net_object]} {[100 := ssl_tcp CONNECTED []]} (MkResolver [] 0 [])
    (World (Heap ∅ (-1) ∅ (MkSslAcceptor Acceptor_ctor 9
              (MkSslAcceptorParams default_acceptor_params (MkSslParams 4 false default_tcp_params)))) ∅ []).

Lemma ssl_accept_spec_witness :
  exists s', TcpAcceptorAcceptHandler (OpenSsl0 := engine Working) (St := rstatus) (G := unit) (GA := unit) 0 100 sim_host = Ret tt s' /\
    waiting 200 9 (ssl_in (G := unit) (GA := unit) 200 s').
Proof.
  destruct (ssl_accept_spec (OpenSsl0 := engine Working) (St := rstatus) (G := unit) (GA := unit) 0 100 sim_host
    (ssl_tcp CONNECTED []) (MkSelector default_params 1 false 3 (-1, -1) 3 3 (Some tt) {[100]} no_callbacks no_alarms None 0)
    ltac:(done) ltac:(done) ltac:(done) ltac:(done)) as [(s' & E & Hw & _) _].
  exists s'. split; [exact E|exact Hw].
Defined.

(** When SSL cannot be set up the connection is closed before it has a close
    handler, which stops the process. *)
Lemma failed_accept_stops :
  match TcpAcceptorAcceptHandler (OpenSsl0 := engine Exhausted) (St := rstatus) (G := unit) (GA := unit) 0 100 sim_host with
  | Fatal why => why
  | Ret _ _ => []
  end = ("null pointer" : str).
Proof. vm_compute. done. Qed.
End Witnesses.
